(* ===== verification/_CoqProject ===== *)
-Q . S2P
Prelude.v
RangeSet.v
RangeVector.v
IndexSetOps.v
IndexSetSpec.v
IndexSetEdits.v
IndexSetShift.v
IndexSetRemove.v
IndexWalk.v
IndexSetMerge.v
IndexSetTheorems.v
Ranks.v
IndexSetShiftedBy.v
IndexSetInterface.v
ChangeBuilder.v
ChangeBuilderSpec.v
ChangeBuilderMove.v
ChangeBuilderTheorems.v
ChangeCalculation.v
RowMatching.v
SortedMoves.v
CalculationTheorems.v
Recording.v
TransactLog.v
PositionsSpec.v
TransactLogTheorems.v
Kvo.v
SyncSession.v
SyncSessionSpec.v
SyncSessionTheorems.v
Callbacks.v
SyncNotifiers.v
DeepChange.v
DeepChangeSpec.v
DeepChangeTheorems.v
CollectionNotifier.v
CollectionNotifierTheorems.v
NotifierPackage.v
Schema.v
SchemaValidationTheorems.v
SchemaCompare.v
SchemaCompareTheorems.v
SafeInt.v
SafeIntTheorems.v
LogStream.v
LogStreamTheorems.v
LogEncoder.v
LogParser.v
LogRoundTrip.v
LogEncoderTheorems.v
LogTermination.v
LogReverser.v
LogReverserTheorems.v
LogConvenient.v
LogConvenientTheorems.v
Utf8.v
ArrayDirect.v
ArrayAccess.v
WordTricks.v
WordTricksTheorems.v
ArrayFind.v
ArrayScan.v
ArrayFindTheorems.v
ArrayFindResults.v
ArrayHeader.v
Group.v
ObjectStore.v
ObjectStoreSchema.v
ObjectStoreKeys.v
ObjectStoreMigration.v
ObjectStorePlan.v
ObjectStorePasses.v
ObjectStoreTheorems.v
ObjectStoreModes.v
SyncFile.v
WorkQueue.v
Transactions.v
Notifiers.v
Realms.v
Results.v
