(* ===== verification/Prelude.v ===== *)
(** * Verification of the Realm object store and of the Realm transaction log

    The repository is an advertising adapter for iOS whose example application vendors
    Realm.  The program's C++ is Realm's object store, under
    src/Example/Pods/Realm/Realm/ObjectStore/src/ with headers in
    src/Example/Pods/Realm/include/, and the headers of the Realm core, in
    include/core/realm/, of which the implementation is a compiled library.  This
    development models the parts of the object store that compute, and the transaction
    log of the core, whose code is entirely in headers.  File names below are relative to
    those directories.

    ** How the parts work together

    A write transaction is recorded by the encoder of the core as a log of bytes.  When another
    thread or process advances, the log is parsed and its instructions are passed to
    the handlers of the object store, which record for every table and list a set of
    changes: insertions, deletions, modifications, and moves.  A notifier turns the changes
    of the collection it watches into the changes that its callbacks get: it follows
    links to find modified rows, compares the old rows with the new ones where there is
    a query, merges what comes before a callback is called, and delivers; notifiers of different
    versions are first brought to the same one.  When a write
    transaction is cancelled, the log is reversed instead.  Apart from this, the object
    store validates and compares schemas and changes the tables of a file so that they fit, in a write transaction
    of the Realm, and keeps the sessions that synchronize files, and the directories of these files.

    ** The parts and their files

    - Index sets (index_set.cpp, index_set.hpp): RangeVector.v has the chunked vector of
      ranges with its iterators, IndexSetOps.v the iteration over indices, the builder and every
      operation of [IndexSet].  RangeSet.v is the mathematics of sorted ranges, the specification.
      The files IndexSetSpec.v to IndexSetMerge.v and IndexSetShiftedBy.v prove the operations,
      IndexSetTheorems.v collects what the set promises, and IndexSetInterface.v states it as a class,
      [IndexSets] with [IndexSetLaws], against which the clients are proved; its instance is the
      chunked set.
    - Change sets (impl/collection_change_builder.cpp): ChangeBuilder.v models recording,
      merging and finalizing, ChangeCalculation.v the calculation of a change set from two
      lists of rows, with the longest common subsequence search.  ChangeBuilderSpec.v,
      ChangeBuilderMove.v and Ranks.v, and RowMatching.v and SortedMoves.v
      prove them; ChangeBuilderTheorems.v and CalculationTheorems.v hold the results, for merging and for moves
      without an order.
      Recording.v shows that a recorded change set describes the difference of two lists.
    - Log handlers (impl/transact_log_handler.cpp): TransactLog.v models the validator
      and the observer with every instruction they handle, Kvo.v the key-value observation
      adapter with its theorems; PositionsSpec.v and TransactLogTheorems.v prove the others.
    - The log itself (core/realm/impl/transact_log.hpp, util/safe_int_ops.hpp,
      util/buffer.hpp): SafeInt.v models arithmetic with overflow detection on any integer
      types; LogStream.v the encoding of integers, the reading from blocks, the
      instructions, and the meaning of a log: its calls, each with the table, descriptor or list it
      applies to; LogEncoder.v the encoder and its buffer; LogParser.v the parser;
      LogConvenient.v the encoder with selection caches that the library calls;
      LogReverser.v the reverser and its stream.
    - Text (core/realm/util/utf8.hpp): Utf8.v models the transcoding between UTF-8 and UTF-16,
      defines the encodings and holds the results.
    - Arrays (core/realm/array_direct.hpp, array.hpp, query_conditions.hpp): ArrayDirect.v
      models packed elements and the binary searches, ArrayAccess.v proves them; WordTricks.v has
      the conditions, what a search does with a match, and the bit operations on whole
      words, proved in WordTricksTheorems.v; ArrayFind.v the search itself, proved in ArrayScan.v and
      ArrayFindTheorems.v, with the results, for nulls and pairs of arrays too, and instances in
      ArrayFindResults.v; ArrayHeader.v the header and tagged integers, with their theorems.
    - Notifiers (impl/collection_notifier.cpp): DeepChange.v models the search for modified
      rows behind links and the tables it needs, CollectionNotifier.v the callbacks and
      their changes, NotifierPackage.v the package of one version; Callbacks.v has what clients
      do from inside a callback.  Notifiers.v models the notifiers of results, lists and objects
      (impl/results_notifier.cpp, impl/list_notifier.cpp, impl/primitive_list_notifier.cpp,
      impl/object_notifier.cpp).
    - Versions (core/realm/group_shared.hpp, impl/realm_coordinator.cpp): Transactions.v models how a read
      transaction advances over the logs of the versions, and the pass over them that brings notifiers
      of different versions to the newest.
    - Schemas (schema.cpp, object_schema.cpp, property.hpp): Schema.v with the classes, their
      properties and validation, SchemaCompare.v; SchemaValidationTheorems.v has the two orders of strings
      that the code mixes.
    - The object store (object_store.cpp, object_schema.cpp): Group.v states as a class, [Core] with [CoreLaws], what
      is asked of the tables of the core, with an instance of lists; ObjectStore.v models the metadata tables, the columns, the appliers of
      every mode, reading a schema back, renaming and deleting.  ObjectStoreSchema.v to ObjectStorePasses.v prove
      it bottom up: the effect of every call on its table, the schema that is read, the primary keys, what a list of
      changes does to one class, the order of the changes, and the two passes over a whole group;
      ObjectStoreTheorems.v and ObjectStoreModes.v hold the results.
    - Sync sessions (sync/sync_session.cpp): SyncSession.v models the state machine with
      its errors, SyncNotifiers.v the progress and connection notifiers.
    - Files and the work queue (sync/impl/sync_file.cpp, sync/impl/work_queue.cpp): SyncFile.v models the encoding of
      names, the paths and the operations on directories, WorkQueue.v the queue with its thread as a step relation.
    - Realms (shared_realm.cpp, impl/realm_coordinator.cpp): Realms.v models the transactions of an open file, the schema that a Realm presents,
      the schema cache of the coordinator, and [update_schema], which composes validation, comparison and the object store
      with a write transaction.
    - Results (results.cpp): Results.v models lazy queries with their modes, evaluation, snapshots and key paths.

    A definition has the name of the function it models where that is free; the state of a class is
    a record, a function with side effects takes and gives the state.  Numbers are [Z],
    with the 64-bit wrap-around of [size_t] written out ([⊕], [⊖]); indices into lists are
    [nat] where the code cannot exceed the list.

    ** What the theorems show

    - Index sets: every operation computes the operation on sets it is named after, keeps
      the representation canonical and never leaves its vector ([IndexSetTheorems]).
    - Change sets: recording an operation relocates every row as the operation does; merging is
      composition; a calculated change set turns the old rows into the new ones and its
      self check does not fail, for moves in table order as long as rows move towards the front
      ([ChangeBuilderTheorems], [CalculationTheorems]).
    - Log handlers: after any operations on a list its change set describes them; tables and
      columns that are inserted or moved keep what was recorded for them; a log passes exactly when none of its
      instructions takes away or renames a table or a column, as a relation on stored tables
      says it apart from the validator ([TransactLogTheorems], [Kvo]).
    - The log: overflow is detected exactly ([SafeIntTheorems]); integers and instructions
      are read as they were written, from any blocks, and the encoder stays in the space it
      reserves ([LogStreamTheorems], [LogEncoderTheorems]); the parser ends on every input, with
      one of the listed exceptions at most ([LogTermination]); the caches are never stale ([LogConvenientTheorems]); the
      reversed log takes the rows and entries back to their places ([LogReverserTheorems]).
    - Text: exactly the valid texts are transcoded, as far as they fit, and back to what
      they were ([Utf8]).
    - Arrays: elements are read as they were written; a binary search finds its bound; the
      search over whole words finds what a scan of the elements finds, nulls included; the
      fields of a header are independent ([ArrayAccess], [ArrayFindResults], [ArrayHeader]).
    - Notifiers: the changes found behind links are exactly those within reach, unless the class links to itself alone; the search
      for tables ends on cyclic links; callbacks get the merge of their changes, once each,
      although they change the list of callbacks ([DeepChangeTheorems],
      [CollectionNotifierTheorems], [NotifierPackage]); the run of a notifier reports what
      happened to its rows ([Notifiers]).
    - Versions: the single pass gives every observer exactly the log up to the next version, and the merged
      changes lead from the version of a notifier to the last one ([Transactions]).
    - Schemas: validation accepts exactly the well-formed schemas; comparison lists exactly
      the changes; the modes accept what they say ([SchemaValidationTheorems],
      [SchemaCompareTheorems]).
    - The object store: a group takes any valid schema, in automatic mode with its columns converted as the schema
      says and in the other modes without losing any, and what is read back is that schema; renaming
      keeps the values ([ObjectStoreTheorems], [ObjectStoreModes]).
    - Sessions: no sequence of inputs, each of which runs to its end, fails an assertion; every completion callback is
      called once or still waits; a resync is not noticed ([SyncSessionTheorems],
      [SyncNotifiers]).
    - Files and the work queue: no two Realms get the same path ([SyncFile]); every function that is enqueued is
      run, in order, whenever the worker times out ([WorkQueue]).
    - Realms: a schema update adds one version to the file or none, and no transaction is left
      open, but in one case; from a file that was just opened it ends, and does what the specification of a migration says ([Realms]).
    - Results: what is read does not depend on the mode, nor on what was evaluated; a snapshot keeps its size; exactly the
      key paths with a meaning are accepted ([Results]).

    ** What the theorems assume

    Where the code does something else outside of a condition, the theorem has the condition and an example shows what happens
    without it.
    - Merging change sets: no moves, and deletions whose ranges fit one chunk of the index set; beyond, chunks are lost.
    - Calculating in table order: rows move towards the front of the table only; after swaps the self check can fail.
    - The run of a notifier: one modification checker answers for all rows of a run, its state is threaded through the loops; for a
      class whose links lead to itself alone links are not followed, as the code has it.
    - Delivering: all callbacks were counted when the changes were packaged, and no callback that was added since is removed.
    - Writing a log: [set_double] without a variant, and numbers of rows with unique setters only; the others are not written.
      The parser enlarges its buffers for sizes that it reads: the allocator is a parameter, [Memory], and reading back what was
      written needs memory for its strings and paths.  Elsewhere allocation is taken to succeed.
    - Searching: aggregates that are answered at once for a whole part do not keep to a limit, and are left out.
    - Validating a schema: class names in ASCII; otherwise the two orders of names differ.
    - Migrating: no list with rows gets optional elements, no object ids of the sync core, no migration function, and
      [std::partition] leaves a prefix in place that is where it belongs ([PartitionInPlace]).  The C++ standard does not say so;
      [swapping_partition] of ObjectStorePlan.v, the algorithm of libc++ and libstdc++, is proved to.
    - Renaming: the column that gives way comes after the one that is renamed, and both or none are lists.
    - Updating a schema: not in [ResetFile] mode, which deletes the file first, and not within a transaction of the caller.
    - Sessions: a handler runs to its end before the next call; what happens while it has released its lock is shown in examples.

    ** Fuel and bounds

    Loops that are not structural take fuel, and the theorems say that the functions
    return: the loops over an index set get one more turn than there are ranges or
    indices; the search for the longest matches one more than there are rows; the search
    behind links its depth, and the search for tables their number; the parser one
    turn more than there are bytes, since every instruction takes at least one; the transcoding
    a turn for every unit of its input; a binary search one turn for every bit of the size;
    the loop over the elements of a word 65 turns, and that over the bits of a width 31.  Sizes are
    assumed to be below 2^64, and for the chunk size of index sets and of written lists
    the configurations of the code, or any that is positive.

    ** Not modelled

    The Realm core is compiled: what the code asks of it is a parameter with the laws it
    relies on (classes such as [CoreLaws], [SelectLaws], [SelectorLaws], [MachineLaws], [AggregateLaws], [QueryLaws] and the
    tables of DeepChange.v).  The variants of the search for SSE instructions depend on the
    processor and are left out.
    Migration functions are code of the client, and the permissions of a synchronized file are set by the sync
    client: [apply_schema_changes] has both, the theorems of migrations are about runs without them.  Of shared_realm.cpp, the opening of
    files with its exceptions, compacting and copying, permissions and the calls of the binding context are left out, of the
    coordinator the registry of open Realms, its threads and locks; of results.cpp the search for values that are not rows and
    what is formatted for messages.  list.cpp, object.cpp and thread_safe_reference.cpp are accessors whose every step is a call into the compiled core; the sync
    manager, its users and metadata are registries behind locks and on disk, permissions and partial synchronization are requests on
    synchronized Realms.  Threads are modelled as
    sequences of the steps that are done under one lock.  Objective-C, the ad adapter itself and the
    closed frameworks are not C++ or cannot be read. *)

(** ** Prelude: notation, errors, and the lemmas and tactics that the components share *)

From Stdlib Require Export ZArith Lia.
From stdpp Require Export base tactics numbers option list.

#[export] Set Default Goal Selector "!".

(** ** [size_t]: 64-bit unsigned arithmetic *)

Declare Scope size_scope.
Delimit Scope size_scope with size.

(** The modulus of [size_t] (and of [uint64_t]). *)
Abbreviation W64 := 18446744073709551616%Z.

Definition wrap (z : Z) : Z := (z mod W64)%Z.
Definition wadd (a b : Z) : Z := wrap (a + b).
Definition wsub (a b : Z) : Z := wrap (a - b).

(** [IndexSet::npos], [realm::npos], [size_t(-1)] and [std::numeric_limits<size_t>::max()]. *)
Abbreviation npos := 18446744073709551615%Z.

Infix "⊕" := wadd (at level 50, left associativity) : size_scope.
Infix "⊖" := wsub (at level 50, left associativity) : size_scope.
Open Scope size_scope.
Open Scope Z_scope.

(** A value that fits in [size_t]. *)
Definition fits (z : Z) : Prop := 0 <= z < W64.

(** ** Stuckness

    A C++ function is modelled as a function into [option]: [None] is an
    execution that is stuck, because it dereferences an invalid iterator, fails
    a [REALM_ASSERT], or runs out of the fuel its loops are given.  A theorem
    whose conclusion is [= Some _] therefore also says that none of those
    happens. *)
Definition check (b : bool) : option unit := if b then Some tt else None.

Notation "'REALM_ASSERT' b ';;' k" := (check b ≫= λ _, k)
  (at level 100, b at level 0, k at level 200, right associativity, only parsing).

(** ** Exceptions

    Where the code throws, a function has three outcomes: a value, an exception,
    or an execution that is stuck. *)
Inductive result (E A : Type) :=
  | Ok (a : A)
  | Raise (e : E)
  | Stuck.
Arguments Ok {E A}.
Arguments Raise {E A}.
Arguments Stuck {E A}.

#[export] Instance result_ret E : MRet (result E) := λ A a, Ok a.
#[export] Instance result_bind E : MBind (result E) := λ A B f m,
  match m with Ok a => f a | Raise e => Raise e | Stuck => Stuck end.
#[export] Instance result_fmap E : FMap (result E) := λ A B f m,
  match m with Ok a => Ok (f a) | Raise e => Raise e | Stuck => Stuck end.

(** A computation that cannot throw. *)
Definition lift {E A} (m : option A) : result E A :=
  match m with Some a => Ok a | None => Stuck end.

(** [if (b) throw e;] *)
Definition throw_if {E} (b : bool) (e : E) : result E unit := if b then Raise e else Ok tt.

(** A [while]/[for] loop: [cond] and [body] may be stuck; [fuel] bounds the
    number of evaluations of [cond]. *)
Fixpoint loop {St} (fuel : nat) (cond : St → option bool) (body : St → option St)
    (s : St) : option St :=
  match fuel with
  | O => None
  | S n => b ← cond s; if (b : bool) then s' ← body s; loop n cond body s' else Some s
  end.

(** A counted loop, [for (size_t i = 0; i < n; ++i)], over a stuck-able body. *)
Fixpoint iter_n {St} (n : nat) (body : nat → St → option St) (i : nat) (s : St) : option St :=
  match n with
  | O => Some s
  | S n => s' ← body i s; iter_n n body (S i) s'
  end.

(** A range-[for] over a list with a stuck-able body. *)
Fixpoint foldM {A St} (body : A → St → option St) (l : list A) (s : St) : option St :=
  match l with
  | [] => Some s
  | a :: l => s' ← body a s; foldM body l s'
  end.

(** [std::find_if], as a position; the length when nothing matches.  It is also
    the result of [std::lower_bound] on a sequence partitioned by the negated
    predicate. *)
Fixpoint find_if {A} (p : A → bool) (l : list A) : nat :=
  match l with [] => O | a :: l => if p a then O else S (find_if p l) end.

(** ** Lemmas on [size_t] arithmetic *)

Lemma wrap_small z : 0 <= z < W64 → wrap z = z.
Proof. apply Z.mod_small. Qed.

Lemma wrap_fits z : fits (wrap z).
Proof. unfold fits, wrap. apply Z.mod_pos_bound. lia. Qed.

Lemma wadd_small a b : 0 <= a + b < W64 → a ⊕ b = a + b.
Proof. apply wrap_small. Qed.

Lemma wsub_small a b : 0 <= a - b < W64 → a ⊖ b = a - b.
Proof. apply wrap_small. Qed.

Lemma wadd_fits a b : fits (a ⊕ b).
Proof. apply wrap_fits. Qed.

Lemma wsub_fits a b : fits (a ⊖ b).
Proof. apply wrap_fits. Qed.

Lemma wrap_idemp z : wrap (wrap z) = wrap z.
Proof. unfold wrap. by rewrite Zmod_mod. Qed.

Lemma wrap_add_l a b : wrap (wrap a + b) = wrap (a + b).
Proof. unfold wrap. by rewrite Zplus_mod_idemp_l. Qed.

Lemma wrap_add_r a b : wrap (a + wrap b) = wrap (a + b).
Proof. unfold wrap. by rewrite Zplus_mod_idemp_r. Qed.

Lemma wrap_sub_l a b : wrap (wrap a - b) = wrap (a - b).
Proof. unfold wrap. by rewrite Zminus_mod_idemp_l. Qed.

Lemma wrap_sub_r a b : wrap (a - wrap b) = wrap (a - b).
Proof. unfold wrap. by rewrite Zminus_mod_idemp_r. Qed.

Create HintDb size_db.
#[export] Hint Resolve wrap_fits wadd_fits wsub_fits : size_db.

(** Prove an equation between [size_t] expressions that holds modulo 2^64
    whatever overflows. *)
Ltac wring := unfold wadd, wsub, wrap; Z.to_euclidean_division_equations; lia.

(** Replace [size_t] operations by the exact ones where [lia] shows that they
    do not overflow. *)
Ltac wsimp :=
  repeat match goal with
  | |- context [?a ⊕ ?b] => rewrite (wadd_small a b) by lia
  | |- context [?a ⊖ ?b] => rewrite (wsub_small a b) by lia
  | H : context [?a ⊕ ?b] |- _ => rewrite (wadd_small a b) in H by lia
  | H : context [?a ⊖ ?b] |- _ => rewrite (wsub_small a b) in H by lia
  end.

(** ** Loops *)

(** Total correctness of [loop]: an invariant, and a measure that every
    iteration decreases and that the fuel exceeds. *)
Lemma loop_rule {St} (I : St → Prop) (m : St → nat) cond body fuel (s : St) :
  I s →
  (∀ s, I s → ∃ b, cond s = Some b ∧
     (b = true → ∃ s', body s = Some s' ∧ I s' ∧ (m s' < m s)%nat)) →
  (m s < fuel)%nat →
  ∃ s', loop fuel cond body s = Some s' ∧ I s' ∧ cond s' = Some false.
Proof.
  intros HI Hstep. revert s HI.
  induction fuel as [|fuel IH]; intros s HI Hm; [lia|].
  destruct (Hstep s HI) as (b & Hc & Hb). simpl. rewrite Hc. simpl.
  destruct b; [|by eauto].
  destruct (Hb eq_refl) as (s' & Hs' & HI' & Hm'). rewrite Hs'. simpl.
  apply IH; [done|lia].
Qed.

Lemma iter_n_rule {St} (I : nat → St → Prop) body n i (s : St) :
  I i s →
  (∀ k s, (i ≤ k < i + n)%nat → I k s → ∃ s', body k s = Some s' ∧ I (S k) s') →
  ∃ s', iter_n n body i s = Some s' ∧ I (i + n)%nat s'.
Proof.
  revert i s. induction n as [|n IH]; intros i s HI Hstep; simpl.
  { exists s. by rewrite Nat.add_0_r. }
  destruct (Hstep i s) as (s' & -> & HI'); [lia|done|]. simpl.
  destruct (IH (S i) s' HI') as (s'' & -> & HI'').
  { intros k t Hk. apply Hstep. lia. }
  exists s''. split; [done|]. by rewrite Nat.add_succ_r.
Qed.

Lemma foldM_rule {A St} (I : list A → St → Prop) body (l : list A) (s : St) :
  I l s →
  (∀ a l s, I (a :: l) s → ∃ s', body a s = Some s' ∧ I l s') →
  ∃ s', foldM body l s = Some s' ∧ I [] s'.
Proof.
  intros HI Hstep. revert s HI. induction l as [|a l IH]; intros s HI; simpl; [eauto|].
  destruct (Hstep a l s HI) as (s' & -> & HI'). simpl. by apply IH.
Qed.

(** ** Lists *)

Section lists.
Context {A : Type}.
Implicit Types l : list A.

Lemma lookup_middle l1 (x : A) l2 : (l1 ++ x :: l2) !! length l1 = Some x.
Proof. by rewrite lookup_app_r, Nat.sub_diag. Qed.

Lemma insert_middle l1 (x y : A) l2 :
  <[length l1 := y]> (l1 ++ x :: l2) = l1 ++ y :: l2.
Proof. by rewrite insert_app_r_alt, Nat.sub_diag. Qed.

Lemma delete_middle' l1 (x : A) l2 :
  delete (length l1) (l1 ++ x :: l2) = l1 ++ l2.
Proof. apply delete_middle. Qed.

Lemma take_middle l1 l2 : take (length l1) (l1 ++ l2) = l1.
Proof. by rewrite take_app_length. Qed.

Lemma drop_middle l1 l2 : drop (length l1) (l1 ++ l2) = l2.
Proof. by rewrite drop_app_length. Qed.

Lemma lookup_split l i x :
  l !! i = Some x → ∃ l1 l2, l = l1 ++ x :: l2 ∧ i = length l1.
Proof.
  intros H. exists (take i l), (drop (S i) l). split.
  - by rewrite take_drop_middle.
  - apply lookup_lt_Some in H. rewrite length_take. lia.
Qed.

Lemma snoc_cases l : l = [] ∨ ∃ l' x, l = l' ++ [x].
Proof. destruct l using rev_ind; [by left|right; eauto]. Qed.
End lists.

(** Split the head of a non-empty list obtained by an inequality. *)
Ltac split_and_all := repeat match goal with
  | H : _ ∧ _ |- _ => destruct H
  | H : ∃ _, _ |- _ => destruct H
  end.

Lemma find_if_spec {A} (p : A → bool) (l : list A) :
  (find_if p l = length l ∧ Forall (λ a, p a = false) l) ∨
  ∃ l1 a l2, l = l1 ++ a :: l2 ∧ find_if p l = length l1 ∧
             Forall (λ a, p a = false) l1 ∧ p a = true.
Proof.
  induction l as [|a l IH]; simpl; [by left|]. destruct (p a) eqn:Ea.
  { right. by exists [], a, l. }
  destruct IH as [(-> & H)|(l1 & b & l2 & -> & -> & H & Hb)].
  - left. auto.
  - right. exists (a :: l1), b, l2. auto.
Qed.
