(* ===== verification/RangeSet.v ===== *)
(** * Lists of ranges as sets of indices

    The mathematics the index set is specified with: a sorted list of separated,
    half-open ranges denotes a set of indices.  [mem] is membership, [rank]
    counts the members below an index, [total] the members in all. *)

From S2P Require Import Prelude.

(** A half-open range [[first, second)] of indices, [std::pair<size_t, size_t>]. *)
Definition range : Type := Z * Z.

(** The exact (unbounded) number of indices in a list of ranges. *)
Definition total (rs : list range) : Z := foldr (λ r acc, r.2 - r.1 + acc) 0 rs.

Definition fst_of (rs : list range) : Z := match rs with [] => 0 | r :: _ => r.1 end.
Definition lst_of (rs : list range) : Z := match last rs with None => 0 | Some r => r.2 end.

(** [ranges_ok lo rs]: the ranges are non-empty, start at [lo] or later, and
    are separated by at least one index; such a list is canonical for its set. *)
Fixpoint ranges_ok (lo : Z) (rs : list range) : Prop :=
  match rs with
  | [] => True
  | r :: rs => lo <= r.1 ∧ r.1 < r.2 ∧ ranges_ok (r.2 + 1) rs
  end.

(** The least index a range may start at after the ranges [rs]. *)
Definition next_lo (lo : Z) (rs : list range) : Z := foldl (λ _ r, r.2 + 1) lo rs.

Definition in_range (i : Z) (r : range) : Prop := r.1 <= i < r.2.

(** [mem i rs]: the index [i] is in the set that [rs] denotes. *)
Definition mem (i : Z) (rs : list range) : Prop := Exists (in_range i) rs.

(** The number of members of one range below [i], and of a list of ranges. *)
Definition rank1 (i : Z) (r : range) : Z := Z.max 0 (Z.min i r.2 - r.1).
Definition rank (i : Z) (rs : list range) : Z := foldr (λ r acc, rank1 i r + acc) 0 rs.

(** The members below an index, as a list: the reference for [rank]. *)
Definition memb (i : Z) (rs : list range) : bool :=
  existsb (λ r, (r.1 <=? i) && (i <? r.2)) rs.
Definition members_below (i : Z) (rs : list range) : list Z :=
  filter (λ x, memb x rs = true) (seqZ 0 i).

(** Every end point fits in [size_t]. *)
Definition bounded (rs : list range) : Prop := Forall (λ r, r.2 < W64) rs.

(** ** Totals and end points *)

Lemma total_app l1 l2 : total (l1 ++ l2) = total l1 + total l2.
Proof. induction l1 as [|r l1 IH]; simpl; [done|]. rewrite IH. lia. Qed.

Lemma fst_of_app l1 l2 : l1 ≠ [] → fst_of (l1 ++ l2) = fst_of l1.
Proof. by destruct l1. Qed.

Lemma lst_of_app l1 l2 : l2 ≠ [] → lst_of (l1 ++ l2) = lst_of l2.
Proof.
  intros H. unfold lst_of. destruct (snoc_cases l2) as [->|(l & x & ->)]; [done|].
  by rewrite app_assoc, !last_snoc.
Qed.

Lemma lst_of_snoc l r : lst_of (l ++ [r]) = r.2.
Proof. unfold lst_of. by rewrite last_snoc. Qed.

Lemma lst_of_cons r l : l ≠ [] → lst_of (r :: l) = lst_of l.
Proof. apply (lst_of_app [r]). Qed.

(** ** Sortedness *)

Lemma next_lo_app lo l1 l2 : next_lo lo (l1 ++ l2) = next_lo (next_lo lo l1) l2.
Proof. apply foldl_app. Qed.

Lemma next_lo_snoc lo l r : next_lo lo (l ++ [r]) = r.2 + 1.
Proof. by rewrite next_lo_app. Qed.

Lemma ranges_ok_app lo l1 l2 :
  ranges_ok lo (l1 ++ l2) ↔ ranges_ok lo l1 ∧ ranges_ok (next_lo lo l1) l2.
Proof.
  revert lo. induction l1 as [|r l1 IH]; intros lo; simpl; [tauto|].
  rewrite IH. tauto.
Qed.

Lemma ranges_ok_weaken lo lo' l : lo' <= lo → ranges_ok lo l → ranges_ok lo' l.
Proof. destruct l; simpl; intuition lia. Qed.

Lemma ranges_ok_next_lo lo l : ranges_ok lo l → lo <= next_lo lo l.
Proof.
  revert lo. induction l as [|r l IH]; intros lo; simpl; [lia|].
  intros (? & ? & H%IH). lia.
Qed.

Lemma ranges_ok_Forall_lo lo l : ranges_ok lo l → Forall (λ r, lo <= r.1 ∧ r.1 < r.2) l.
Proof.
  revert lo. induction l as [|r l IH]; intros lo; simpl; [done|].
  intros (? & ? & H%IH). constructor; [done|].
  eapply Forall_impl; [exact H|]. simpl. lia.
Qed.

Lemma ranges_ok_Forall_hi lo l : ranges_ok lo l → Forall (λ r, r.2 < next_lo lo l) l.
Proof.
  revert lo. induction l as [|r l IH]; intros lo; simpl; [done|].
  intros (? & ? & H). constructor; [|by apply IH].
  apply ranges_ok_next_lo in H. lia.
Qed.

(** ** Membership *)

Lemma mem_nil i : mem i [] ↔ False.
Proof. apply Exists_nil. Qed.

Lemma mem_cons i r l : mem i (r :: l) ↔ r.1 <= i < r.2 ∨ mem i l.
Proof. apply Exists_cons. Qed.

Lemma mem_app i l1 l2 : mem i (l1 ++ l2) ↔ mem i l1 ∨ mem i l2.
Proof. apply Exists_app. Qed.

Lemma mem_ge lo i l : ranges_ok lo l → mem i l → lo <= i.
Proof.
  intros H%ranges_ok_Forall_lo Hi. unfold mem, in_range in Hi.
  rewrite Exists_exists in Hi. destruct Hi as (r & Hr & Hi).
  rewrite Forall_forall in H. specialize (H r Hr). lia.
Qed.

Lemma mem_lt lo i l : ranges_ok lo l → mem i l → i + 1 < next_lo lo l.
Proof.
  intros H%ranges_ok_Forall_hi Hi. unfold mem, in_range in Hi.
  rewrite Exists_exists in Hi. destruct Hi as (r & Hr & Hi).
  rewrite Forall_forall in H. specialize (H r Hr). lia.
Qed.

Lemma memb_mem i l : memb i l = true ↔ mem i l.
Proof.
  unfold memb, mem, in_range. rewrite existsb_exists, Exists_exists.
  split; intros (r & Hr & H); exists r; (split; [by apply list_elem_of_In|]);
    rewrite ?andb_true_iff, ?Z.leb_le, ?Z.ltb_lt in *; lia.
Qed.

#[export] Instance mem_dec i l : Decision (mem i l).
Proof. apply Exists_dec. intros r. unfold in_range. apply _. Defined.

(** A canonical list is determined by its members. *)
Lemma ranges_ok_ext lo l1 l2 :
  ranges_ok lo l1 → ranges_ok lo l2 → (∀ i, mem i l1 ↔ mem i l2) → l1 = l2.
Proof.
  revert lo l2. induction l1 as [|r1 l1 IH]; intros lo [|r2 l2]; simpl; [done| | |].
  - intros _ (? & ? & _) Hi. exfalso. apply (mem_nil r2.1), Hi, mem_cons. lia.
  - intros (? & ? & _) _ Hi. exfalso. apply (mem_nil r1.1), Hi, mem_cons. lia.
  - intros (L1 & N1 & O1) (L2 & N2 & O2) H.
    assert (∀ i, mem i l1 → r1.2 + 1 <= i) as G1 by eauto using mem_ge.
    assert (∀ i, mem i l2 → r2.2 + 1 <= i) as G2 by eauto using mem_ge.
    setoid_rewrite mem_cons in H.
    assert (r1 = r2) as ->.
    { assert (r1.1 = r2.1) as Ef.
      { pose proof (proj1 (H r1.1)) as A1. pose proof (proj2 (H r2.1)) as A2.
        destruct A1 as [|A1]; [lia| |]; (destruct A2 as [|A2]; [lia| |]);
          try apply G2 in A1; try apply G1 in A2; lia. }
      assert (r1.2 = r2.2) as Es.
      { destruct (Z.lt_trichotomy r1.2 r2.2) as [C|[C|C]]; [|done|].
        - destruct (proj2 (H r1.2)) as [|A]; [lia|lia|apply G1 in A; lia].
        - destruct (proj1 (H r2.2)) as [|A]; [lia|lia|apply G2 in A; lia]. }
      destruct r1, r2; simpl in *; congruence. }
    f_equal. apply (IH (r2.2 + 1)); [done|done|].
    intros i. split; intros Hi.
    + destruct (proj1 (H i) (or_intror Hi)); [apply G1 in Hi; lia|done].
    + destruct (proj2 (H i) (or_intror Hi)); [apply G2 in Hi; lia|done].
Qed.

(** ** Ranks *)

Lemma rank_app i l1 l2 : rank i (l1 ++ l2) = rank i l1 + rank i l2.
Proof. induction l1 as [|r l1 IH]; simpl; [done|]. rewrite IH. lia. Qed.

Lemma rank_cons i r l : rank i (r :: l) = rank1 i r + rank i l.
Proof. done. Qed.

Lemma rank_nonneg i l : 0 <= rank i l.
Proof. induction l as [|r l IH]; simpl; unfold rank1; lia. Qed.

(** No member of a list of later ranges is below [i]. *)
Lemma rank_below lo i l : ranges_ok lo l → i <= lo → rank i l = 0.
Proof.
  revert lo. induction l as [|r l IH]; intros lo; simpl; [done|].
  intros (? & ? & H) Hi. rewrite (IH _ H) by lia. unfold rank1. lia.
Qed.

(** Every member of a list of earlier ranges is below [i]. *)
Lemma rank_above lo i l : ranges_ok lo l → next_lo lo l <= i + 1 → rank i l = total l.
Proof.
  revert lo. induction l as [|r l IH]; intros lo; simpl; [done|].
  intros (? & ? & H) Hi. rewrite (IH _ H) by lia.
  apply ranges_ok_next_lo in H. unfold rank1. lia.
Qed.

Lemma total_nonneg lo l : ranges_ok lo l → 0 <= total l ∧ (total l <= next_lo lo l - lo).
Proof.
  revert lo. induction l as [|r l IH]; intros lo; simpl; [lia|].
  intros (? & ? & H%IH). lia.
Qed.

Lemma rank_le lo i l : ranges_ok lo l → lo <= i → rank i l <= i - lo.
Proof.
  revert lo. induction l as [|r l IH]; intros lo; simpl; [lia|].
  intros (? & ? & H) Hi.
  destruct (Z.le_gt_cases (r.2 + 1) i) as [C|C].
  - apply IH in H; [|lia]. unfold rank1. lia.
  - rewrite (rank_below _ _ _ H) by lia. unfold rank1. lia.
Qed.

Lemma rank_succ lo i l :
  ranges_ok lo l → rank (i + 1) l = rank i l + (if memb i l then 1 else 0).
Proof.
  revert lo. induction l as [|r l IH]; intros lo; simpl; [done|].
  intros (? & ? & H). rewrite (IH _ H).
  destruct ((r.1 <=? i) && (i <? r.2)) eqn:E.
  - rewrite andb_true_iff, Z.leb_le, Z.ltb_lt in E.
    replace (memb i l) with false; [simpl; unfold rank1; lia|].
    symmetry. apply not_true_iff_false. rewrite memb_mem.
    intros M%(mem_ge _ _ _ H). lia.
  - rewrite andb_false_iff, Z.leb_gt, Z.ltb_ge in E.
    simpl. change (existsb _ l) with (memb i l). unfold rank1. destruct E; lia.
Qed.

(** [rank i] counts the members in [[0, i)]. *)
Lemma rank_members l i : ranges_ok 0 l → 0 <= i → rank i l = Z.of_nat (length (members_below i l)).
Proof.
  intros Hok Hi. unfold members_below. revert i Hi. apply natlike_ind.
  - by rewrite (rank_below _ _ _ Hok).
  - intros i Hi IH. unfold Z.succ. rewrite (rank_succ _ _ _ Hok), IH.
    replace (seqZ 0 (i + 1)) with (seqZ 0 i ++ [i]).
    + rewrite filter_app, length_app. rewrite filter_cons, filter_nil.
      destruct (memb i l) eqn:E; rewrite ?E; simpl; lia.
    + by rewrite seqZ_app by lia.
Qed.

Lemma rank_mono i j l : i <= j → rank i l <= rank j l.
Proof.
  intros Hij. induction l as [|r l IH]; simpl; unfold rank1; lia.
Qed.

Lemma rank_le_total i lo l : ranges_ok lo l → rank i l <= total l.
Proof.
  revert lo. induction l as [|r l IH]; intros lo; simpl; [lia|]. intros (? & ? & H%IH).
  unfold rank1. lia.
Qed.

(** ** Translation *)

(** All ranges moved by [d]. *)
Definition shl (d : Z) (l : list range) : list range := (λ r, (r.1 + d, r.2 + d)) <$> l.

Lemma ranges_ok_shl d lo l : ranges_ok (lo + d) (shl d l) ↔ ranges_ok lo l.
Proof.
  revert lo. induction l as [|r l IH]; intros lo; simpl; [done|].
  replace (r.2 + d + 1) with (r.2 + 1 + d) by lia. fold (shl d l). rewrite IH. intuition lia.
Qed.

Lemma mem_shl d i l : mem i (shl d l) ↔ mem (i - d) l.
Proof.
  induction l as [|r l IH]; simpl; [by rewrite !mem_nil|].
  rewrite !mem_cons. fold (shl d l). rewrite IH. simpl. intuition lia.
Qed.

Lemma shl_app d l1 l2 : shl d (l1 ++ l2) = shl d l1 ++ shl d l2.
Proof. apply fmap_app. Qed.

Lemma shl_cons d r l : shl d (r :: l) = (r.1 + d, r.2 + d) :: shl d l.
Proof. done. Qed.

Lemma Forall_le_lst lo l : ranges_ok lo l → Forall (λ r, r.2 <= lst_of l) l.
Proof.
  revert lo. induction l as [|r l IH]; intros lo; [done|]. intros (? & ? & H).
  destruct l as [|r' l]; [by repeat constructor|].
  rewrite lst_of_cons by done. specialize (IH _ H). constructor; [|done].
  inversion IH; subst. simpl in H. lia.
Qed.

(** ** Splitting at an index *)

(** [l1] holds the ranges that end at or before [i], [l2] the others. *)
Definition split_point (i : Z) (l1 l2 : list range) : Prop :=
  Forall (λ r, r.2 <= i) l1 ∧ match l2 with [] => True | r :: _ => i < r.2 end.

Lemma split_point_lo i lo l1 l2 :
  split_point i l1 l2 → ranges_ok lo l1 → lo <= i + 1 → next_lo lo l1 <= i + 1.
Proof.
  intros [H _]. revert lo. induction H as [|r l Hr H IH]; intros lo; simpl; [done|].
  intros (? & ? & Ho) _. apply IH; [done|lia].
Qed.

(** The members of a list split at [i]: only the first range of [l2] may hold [i]. *)
Lemma split_mem i lo l1 l2 :
  split_point i l1 l2 → ranges_ok lo (l1 ++ l2) →
  mem i (l1 ++ l2) ↔ match l2 with [] => False | r :: _ => r.1 <= i end.
Proof.
  intros [H1 H2] [Ho1 Ho2]%ranges_ok_app. rewrite mem_app. split.
  - intros [M|M].
    + unfold mem, in_range in M. rewrite Exists_exists in M. destruct M as (r & Hr & Hi).
      rewrite Forall_forall in H1. specialize (H1 r Hr). lia.
    + destruct l2 as [|r l2]; [by apply mem_nil in M|].
      apply mem_cons in M as [M|M]; [lia|]. destruct Ho2 as (? & ? & Ho2).
      apply (mem_ge _ _ _ Ho2) in M. lia.
  - destruct l2 as [|r l2]; [done|]. intros Hi. right. apply mem_cons. lia.
Qed.

Lemma mem_lt_split i l1 : Forall (λ r, r.2 <= i) l1 → ∀ j, mem j l1 → j < i.
Proof.
  intros H j M. unfold mem, in_range in M. rewrite Exists_exists in M.
  destruct M as (r & Hr & Hi). rewrite Forall_forall in H. specialize (H r Hr). lia.
Qed.

Lemma total_members_below_split i lo l1 l2 :
  split_point i l1 l2 → ranges_ok lo (l1 ++ l2) → lo <= i + 1 →
  rank i (l1 ++ l2) = total l1 + match l2 with [] => 0 | r :: _ => Z.max 0 (i - r.1) end.
Proof.
  intros Hs [Ho1 Ho2]%ranges_ok_app Hlo.
  pose proof (split_point_lo _ _ _ _ Hs Ho1 Hlo) as Hn.
  rewrite rank_app, (rank_above _ _ _ Ho1 Hn). f_equal.
  destruct Hs as [_ Hs2]. destruct l2 as [|r l2]; [done|].
  destruct Ho2 as (? & ? & Ho2). simpl. rewrite (rank_below _ _ _ Ho2) by lia.
  unfold rank1. lia.
Qed.

(** ** Bounds *)

Lemma bounded_app l1 l2 : bounded (l1 ++ l2) ↔ bounded l1 ∧ bounded l2.
Proof. apply Forall_app. Qed.

Lemma bounded_cons r l : bounded (r :: l) ↔ r.2 < W64 ∧ bounded l.
Proof. unfold bounded. by rewrite Forall_cons. Qed.

Lemma bounded_nil : bounded [].
Proof. constructor. Qed.
#[export] Hint Resolve bounded_nil : core.
