(* ===== verification/RangeVector.v ===== *)
(** * The chunked vector of index ranges

    Model of [_impl::ChunkedRangeVector], its iterators and
    [ChunkedRangeVectorBuilder] (index_set.hpp, index_set.cpp). *)

From S2P Require Import Prelude RangeSet.

(** [max_size], the capacity of a chunk, is 4 in a REALM_DEBUG build and
    [4096 / sizeof(std::pair<size_t, size_t>)] = 256 otherwise; both are even,
    which [ensure_space] relies on when it halves a full chunk. *)
Class BuildConfig := {
  max_size : nat;
  max_size_even : ∃ k, max_size = (2 * S k)%nat
}.

Definition debug_build : BuildConfig :=
  {| max_size := 4; max_size_even := ex_intro _ 1%nat eq_refl |}.
Definition release_build : BuildConfig :=
  {| max_size := 256; max_size_even := ex_intro _ 127%nat eq_refl |}.

(** [ChunkedRangeVector::Chunk]: the ranges and three caches over them. *)
Record chunk := Chunk { data : list range; c_begin : Z; c_end : Z; c_count : Z }.

(** [ChunkedRangeVector::m_data]. *)
Abbreviation vec := (list chunk).

(** An iterator: the chunk [m_outer] points to and the offset of [m_inner] in
    it.  The end iterator has [m_outer] one past the last chunk and a null
    [m_inner], written 0 here. *)
Record iter := Iter { outer : nat; inner : nat }.

#[export] Instance iter_eq_dec : EqDecision iter.
Proof. solve_decision. Defined.
#[export] Instance chunk_eq_dec : EqDecision chunk.
Proof. solve_decision. Defined.

Section operations.
Context {B : BuildConfig}.

Definition v_empty (v : vec) : bool := match v with [] => true | _ => false end.
Definition v_end (v : vec) : iter := Iter (length v) 0.
Definition v_begin (v : vec) : iter := if v_empty v then v_end v else Iter 0 0.

Definition iter_eqb (a b : iter) : bool := bool_decide (a = b).

(** [operator*] and [operator->]. *)
Definition deref (v : vec) (it : iter) : option range :=
  c ← v !! outer it; data c !! inner it.

(** [outer()]. *)
Definition outer_chunk (v : vec) (it : iter) : option chunk := v !! outer it.

Definition next_chunk (it : iter) : iter := Iter (S (outer it)) 0.

(** [operator++]. *)
Definition next (v : vec) (it : iter) : option iter :=
  c ← v !! outer it;
  Some (if bool_decide (S (inner it) = length (data c))
        then next_chunk it else Iter (outer it) (S (inner it))).

(** [operator--]. *)
Definition prev (v : vec) (it : iter) : option iter :=
  match inner it, outer it with
  | S n, o => Some (Iter o n)
  | O, S o => c ← v !! o;
              match length (data c) with O => None | S n => Some (Iter o n) end
  | O, O => None
  end.

(** Whether [m_inner] points to the last range of its chunk. *)
Definition at_back (c : chunk) (i : nat) : bool := bool_decide (S i = length (data c)).

Definition at_front (i : nat) : bool := bool_decide (i = O).

Definition it_set (v : vec) (it : iter) (front back : Z) : option vec :=
  c ← v !! outer it;
  r ← data c !! inner it;
  Some (<[outer it := Chunk (<[inner it := (front, back)]> (data c))
      (if at_front (inner it) then front else c_begin c)
      (if at_back c (inner it) then back else c_end c)
      (c_count c ⊖ (r.2 ⊖ r.1) ⊕ (back ⊖ front))]> v).

Definition it_adjust (v : vec) (it : iter) (front back : Z) : option vec :=
  c ← v !! outer it;
  r ← data c !! inner it;
  Some (<[outer it := Chunk (<[inner it := (r.1 ⊕ front, r.2 ⊕ back)]> (data c))
      (if at_front (inner it) then c_begin c ⊕ front else c_begin c)
      (if at_back c (inner it) then c_end c ⊕ back else c_end c)
      (c_count c ⊕ (- front + back))]> v).

Definition it_shift (v : vec) (it : iter) (distance : Z) : option vec :=
  c ← v !! outer it;
  r ← data c !! inner it;
  Some (<[outer it := Chunk (<[inner it := (r.1 ⊕ distance, r.2 ⊕ distance)]> (data c))
      (if at_front (inner it) then c_begin c ⊕ distance else c_begin c)
      (if at_back c (inner it) then c_end c ⊕ distance else c_end c)
      (c_count c)]> v).

Definition singleton_chunk (value : range) : chunk :=
  Chunk [value] value.1 value.2 (value.2 ⊖ value.1).

Definition push_back (v : vec) (value : range) : option vec :=
  match last v with
  | Some c =>
      if bool_decide (length (data c) < max_size)%nat then
        REALM_ASSERT (c_end c <=? value.1) ;;
        Some (<[pred (length v) := Chunk (data c ++ [value]) (c_begin c) value.2
                  (c_count c ⊕ (value.2 ⊖ value.1))]> v)
      else Some (v ++ [singleton_chunk value])
  | None => Some (v ++ [singleton_chunk value])
  end.

(** The number of indices in a list of ranges, in [size_t] arithmetic. *)
Definition sum_sizes (rs : list range) : Z :=
  foldl (λ acc r, acc ⊕ (r.2 ⊖ r.1)) 0 rs.

Definition ensure_space (v : vec) (pos : iter) : option (vec * iter) :=
  c ← v !! outer pos;
  if bool_decide (length (data c) + 1 ≤ max_size)%nat then Some (v, pos) else
  let to_move := (max_size / 2)%nat in
  let kept := take (length (data c) - to_move) (data c) in
  let moved := drop (length (data c) - to_move) (data c) in
  let moved_count := sum_sizes moved in
  kept_back ← last kept;
  moved_front ← head moved;
  moved_back ← last moved;
  let prev' := Chunk kept (c_begin c) kept_back.2 (c_count c ⊖ moved_count) in
  let new' := Chunk moved moved_front.1 moved_back.2 moved_count in
  Some (take (outer pos) v ++ prev' :: new' :: drop (S (outer pos)) v,
        if bool_decide (to_move ≤ inner pos)%nat
        then Iter (S (outer pos)) (inner pos - to_move) else pos).

Definition insert (v : vec) (pos : iter) (value : range) : option (vec * iter) :=
  if bool_decide (outer pos = length v) then
    v' ← push_back v value;
    it ← prev v' (v_end v');
    Some (v', it)
  else
    '(v', pos') ← ensure_space v pos;
    c ← v' !! outer pos';
    Some (<[outer pos' := Chunk
        (take (inner pos') (data c) ++ value :: drop (inner pos') (data c))
        (Z.min (c_begin c) value.1) (Z.max (c_end c) value.2)
        (c_count c ⊕ (value.2 ⊖ value.1))]> v', pos').

Definition erase (v : vec) (pos : iter) : option (vec * iter) :=
  c ← v !! outer pos;
  r ← data c !! inner pos;
  let count' := c_count c ⊖ (r.2 ⊖ r.1) in
  let data' := delete (inner pos) (data c) in
  match head data', last data' with
  | Some front, Some back =>
      Some (<[outer pos := Chunk data' front.1 back.2 count']> v,
            if bool_decide (inner pos < length data')%nat then pos else next_chunk pos)
  | _, _ => Some (delete (outer pos) v, Iter (outer pos) 0)
  end.

(** All the ranges, in iteration order. *)
Definition flat (v : vec) : list range := v ≫= data.

(** [verify()], the self-check of REALM_DEBUG builds: the ranges are non-empty,
    ordered and separated, and the caches of every chunk agree with its data. *)
Fixpoint verify_ranges (prev_end : Z) (rs : list range) : bool :=
  match rs with
  | [] => true
  | r :: rs => (r.1 <? r.2) && ((prev_end =? npos) || (prev_end <? r.1))
               && verify_ranges r.2 rs
  end.

Definition verify_chunk (c : chunk) : bool :=
  match head (data c), last (data c) with
  | Some front, Some back =>
      (front.1 =? c_begin c) && (back.2 =? c_end c)
      && (c_count c <=? c_end c ⊖ c_begin c) && (sum_sizes (data c) =? c_count c)
  | _, _ => false
  end.

Definition verify (v : vec) : bool :=
  verify_ranges npos (flat v) && forallb verify_chunk v.

End operations.

#[global] Arguments flat : simpl never.

(** ** The invariant of the vector *)

(** A chunk is non-empty, not over-full, and its caches agree with its data. *)
Record chunk_ok {B : BuildConfig} (c : chunk) : Prop := {
  ok_ne : data c ≠ [];
  ok_size : (length (data c) ≤ max_size)%nat;
  ok_begin : c_begin c = fst_of (data c);
  ok_end : c_end c = lst_of (data c);
  ok_count : c_count c = wrap (total (data c))
}.

Definition vec_ok {B : BuildConfig} (v : vec) : Prop := Forall chunk_ok v.

Lemma vec_ok_nil {B : BuildConfig} : vec_ok [].
Proof. constructor. Qed.
#[export] Hint Resolve vec_ok_nil : core.

(** [cursor v it l1 l2]: the iterator [it] of [v] stands between the ranges
    [l1] and the ranges [l2] of the flattened vector. *)
Inductive cursor (v : vec) (it : iter) : list range → list range → Prop :=
| cursor_mid pre c post d1 r d2 :
    v = pre ++ c :: post → data c = d1 ++ r :: d2 →
    it = Iter (length pre) (length d1) →
    cursor v it (flat pre ++ d1) (r :: d2 ++ flat post)
| cursor_end : it = v_end v → cursor v it (flat v) [].

(** ** Flattening and caches *)

Lemma sum_sizes_from a rs : foldl (λ acc r, acc ⊕ (r.2 ⊖ r.1)) (wrap a) rs = wrap (a + total rs).
Proof.
  revert a. induction rs as [|r rs IH]; intros a; simpl; [by rewrite Z.add_0_r|].
  replace (wrap a ⊕ (r.2 ⊖ r.1)) with (wrap (a + (r.2 - r.1))) by wring.
  rewrite IH. f_equal. lia.
Qed.

Lemma sum_sizes_total rs : sum_sizes rs = wrap (total rs).
Proof. apply (sum_sizes_from 0). Qed.

Lemma flat_app v1 v2 : flat (v1 ++ v2) = flat v1 ++ flat v2.
Proof. apply bind_app. Qed.

Lemma flat_cons c v : flat (c :: v) = data c ++ flat v.
Proof. done. Qed.

Lemma at_front_app {A} (d1 : list A) : at_front (length d1) = match d1 with [] => true | _ => false end.
Proof. by destruct d1. Qed.

Lemma at_back_app c d1 r d2 :
  data c = d1 ++ r :: d2 → at_back c (length d1) = match d2 with [] => true | _ => false end.
Proof.
  intros E. unfold at_back. rewrite E, length_app. simpl.
  destruct d2; simpl; case_bool_decide; auto; lia.
Qed.

Section cursors.
Context {B : BuildConfig}.
Implicit Types (v : vec) (it : iter) (l : list range) (r : range).

Lemma max_size_pos : (0 < max_size)%nat.
Proof. destruct max_size_even as [k ->]. lia. Qed.

Lemma vec_ok_middle pre c post : vec_ok (pre ++ c :: post) → chunk_ok c.
Proof. intros H. apply Forall_app in H as [_ H]. by inversion H. Qed.

Lemma vec_ok_replace pre c c' post :
  vec_ok (pre ++ c :: post) → chunk_ok c' → vec_ok (pre ++ c' :: post).
Proof.
  intros [? H]%Forall_app Hc. apply Forall_app. split; [done|].
  inversion H; subst. by constructor.
Qed.

Lemma cursor_flat v it l1 l2 : cursor v it l1 l2 → flat v = l1 ++ l2.
Proof.
  destruct 1 as [pre c post d1 r d2 -> E ->| ->]; [|by rewrite app_nil_r].
  rewrite flat_app, flat_cons, E. by rewrite <- !app_assoc.
Qed.

Lemma cursor_deref v it l1 r l2 : cursor v it l1 (r :: l2) → deref v it = Some r.
Proof.
  inversion 1 as [pre c post d1 r' d2 Hv E Hi|]; subst.
  unfold deref. simpl. rewrite lookup_middle. simpl. by rewrite E, lookup_middle.
Qed.

Lemma cursor_lt v it l1 r l2 : cursor v it l1 (r :: l2) → (outer it < length v)%nat.
Proof.
  inversion 1 as [pre c post d1 r' d2 Hv E Hi|]; subst. simpl. rewrite length_app. simpl. lia.
Qed.

Lemma cursor_at_end v it l1 l2 : cursor v it l1 l2 → iter_eqb it (v_end v) = match l2 with [] => true | _ => false end.
Proof.
  intros H. unfold iter_eqb. destruct l2 as [|r l2].
  - inversion H; subst. by rewrite bool_decide_eq_true_2.
  - apply cursor_lt in H. rewrite bool_decide_eq_false_2; [done|]. intros ->. simpl in H. lia.
Qed.

Lemma cursor_end_intro v : cursor v (v_end v) (flat v) [].
Proof. by apply cursor_end. Qed.

(** The first position of the chunk that follows [pre]. *)
Lemma cursor_chunk_start pre post :
  vec_ok post → cursor (pre ++ post) (Iter (length pre) 0) (flat pre) (flat post).
Proof.
  intros Hok. destruct post as [|c post].
  - rewrite app_nil_r. by apply cursor_end.
  - inversion Hok as [|? ? [Hne _ _ _ _] _]; subst.
    destruct (data c) as [|r d] eqn:E; [done|].
    rewrite flat_cons, E. rewrite <- (app_nil_r (flat pre)).
    by apply (cursor_mid _ _ pre c post [] r d).
Qed.

Lemma cursor_begin v : vec_ok v → cursor v (v_begin v) [] (flat v).
Proof.
  intros Hok. apply (cursor_chunk_start [] v) in Hok.
  unfold v_begin. by destruct v.
Qed.

Lemma cursor_next v it l1 r l2 :
  vec_ok v → cursor v it l1 (r :: l2) →
  ∃ it', next v it = Some it' ∧ cursor v it' (l1 ++ [r]) l2.
Proof.
  intros Hok H. inversion H as [pre c post d1 r' d2 Hv E Hi|]; subst.
  unfold next. simpl. rewrite lookup_middle. simpl. eexists. split; [done|].
  rewrite E, length_app. simpl. rewrite <- app_assoc.
  destruct d2 as [|r2 d2]; case_bool_decide; simpl in *; try lia.
  - replace (flat pre ++ d1 ++ [r]) with (flat (pre ++ [c]))
      by (by rewrite flat_app, flat_cons, E, app_nil_r).
    apply Forall_app in Hok as [_ Hok]. inversion Hok; subst.
    replace (next_chunk _) with (Iter (length (pre ++ [c])) 0)
      by (unfold next_chunk; rewrite length_app; simpl; f_equal; lia).
    replace (pre ++ c :: post) with ((pre ++ [c]) ++ post) by (by rewrite <- app_assoc).
    by apply cursor_chunk_start.
  - apply (cursor_mid _ _ pre c post (d1 ++ [r]) r2 d2); [done| |].
    + by rewrite E, <- app_assoc.
    + rewrite length_app. simpl. f_equal. lia.
Qed.

Lemma cursor_prev v it l1 r l2 :
  vec_ok v → cursor v it (l1 ++ [r]) l2 →
  ∃ it', prev v it = Some it' ∧ cursor v it' l1 (r :: l2).
Proof.
  intros Hok H. remember (l1 ++ [r]) as k eqn:Ek.
  assert (∀ pre c post, v = pre ++ c :: post → flat pre ++ data c = l1 ++ [r] → flat post = l2 →
    ∃ n, length (data c) = S n ∧ cursor v (Iter (length pre) n) l1 (r :: l2)) as Hback.
  { intros pre c post -> Ed <-.
    apply vec_ok_middle in Hok as [Hne _ _ _ _].
    destruct (snoc_cases (data c)) as [|(d & x & E)]; [done|].
    rewrite E in *. exists (length d). rewrite length_app. split; [simpl; lia|].
    rewrite app_assoc in Ed. apply app_inj_tail in Ed as [<- <-].
    by apply (cursor_mid _ _ pre c post d x []). }
  destruct H as [pre c post d1 r' d2 -> E ->| ->].
  - destruct (snoc_cases d1) as [->|(d & x & ->)].
    + rewrite app_nil_r in Ek.
      destruct (snoc_cases pre) as [->|(pre' & c' & ->)]; [by destruct l1|].
      unfold prev. simpl. rewrite length_app, Nat.add_comm. simpl.
      rewrite <- app_assoc. simpl. rewrite lookup_middle. simpl.
      rewrite flat_app, flat_cons in Ek. simpl in Ek. rewrite app_nil_r in Ek.
      destruct (Hback pre' c' (c :: post)) as (n & -> & Hc).
      { by rewrite <- app_assoc. }
      { done. }
      { by rewrite flat_cons, E. }
      eexists. split; [done|]. by rewrite <- app_assoc in Hc.
    + rewrite app_assoc in Ek. apply app_inj_tail in Ek as [<- <-].
      unfold prev. simpl. rewrite length_app, Nat.add_comm. simpl. eexists. split; [done|].
      apply (cursor_mid _ _ pre c post d x (r' :: d2)); [done| |done].
      by rewrite E, <- app_assoc.
  - destruct (snoc_cases v) as [->|(pre & c & ->)]; [by destruct l1|].
    unfold prev, v_end. simpl. rewrite length_app, Nat.add_comm. simpl.
    rewrite lookup_middle. simpl.
    rewrite flat_app, flat_cons in Ek. simpl in Ek. rewrite app_nil_r in Ek.
    destruct (Hback pre c []) as (n & -> & Hc); eauto.
Qed.

Lemma cursor_begin_iff v it l1 l2 :
  vec_ok v → cursor v it l1 l2 →
  iter_eqb it (v_begin v) = match l1 with [] => true | _ => false end.
Proof.
  intros Hok H. unfold iter_eqb. destruct (snoc_cases l1) as [->|(l & x & ->)].
  - rewrite bool_decide_eq_true_2; [done|].
    remember [] as k eqn:Ek. destruct H as [pre c post d1 r d2 -> E ->| ->].
    + apply app_eq_nil in Ek as [Hp ->]. destruct pre as [|c' pre]; [done|].
      inversion Hok as [|? ? [Hne _ _ _ _] _]; subst. rewrite flat_cons in Hp.
      by apply app_eq_nil in Hp as [? _].
    + destruct v as [|c v]; [done|]. inversion Hok as [|? ? [Hne _ _ _ _] _]; subst.
      rewrite flat_cons in Ek. by apply app_eq_nil in Ek as [? _].
  - replace (match l ++ [x] with [] => true | _ => false end) with false by (by destruct l).
    rewrite bool_decide_eq_false_2; [done|]. intros ->.
    apply cursor_prev in H as (it' & Hp & _); [|done].
    unfold v_begin, v_end in Hp. by destruct v.
Qed.

End cursors.

(** ** Mutation through an iterator *)

Section mutation.
Context {B : BuildConfig}.
Implicit Types (v : vec) (it : iter) (l : list range) (r : range).

(** Two vectors with the same chunk sizes have the same iterators. *)
Definition shape v : list nat := (λ c, length (data c)) <$> v.

Lemma shape_flat v v' : shape v = shape v' → length (flat v) = length (flat v').
Proof.
  revert v'. induction v as [|c v IH]; intros [|c' v']; simpl; try done.
  intros [= E Es%IH]. rewrite !flat_cons, !length_app. lia.
Qed.

Lemma cursor_shape v v' it k1 k2 k1' k2' :
  shape v = shape v' → cursor v it k1 k2 →
  flat v' = k1' ++ k2' → length k1 = length k1' → cursor v' it k1' k2'.
Proof.
  intros Hs H Hf Hl. pose proof (cursor_flat _ _ _ _ H) as Hf0.
  pose proof (shape_flat _ _ Hs) as Hlf. rewrite Hf, Hf0, !length_app in Hlf.
  destruct H as [pre c post d1 r d2 -> E -> | ->].
  - unfold shape in Hs. rewrite fmap_app in Hs. symmetry in Hs.
    apply fmap_app_inv in Hs as (pre' & w & Hpre & Hw & ->).
    destruct w as [|c' post']; [done|]. injection Hw as Hc Hpost.
    pose proof (shape_flat _ _ Hpre) as Hlp.
    pose proof (f_equal length Hpre) as Hlen. unfold shape in Hlen. rewrite !length_fmap in Hlen.
    assert (length d1 < length (data c'))%nat as Hd.
    { rewrite <- Hc, E, length_app. simpl. lia. }
    apply lookup_lt_is_Some in Hd as [r' Hr'].
    apply lookup_split in Hr' as (d1' & d2' & E' & Hd').
    rewrite flat_app, flat_cons, E' in Hf.
    rewrite <- app_assoc, app_assoc in Hf. simpl in Hf.
    rewrite length_app in Hl.
    apply app_inj_1 in Hf as [<- <-]; [|rewrite length_app; lia].
    rewrite Hlen, Hd'. by apply (cursor_mid _ _ pre' c' post' d1' r' d2').
  - assert (k2' = []) as -> by (apply length_zero_iff_nil; simpl in Hlf; lia).
    rewrite app_nil_r in Hf. subst k1'. apply cursor_end.
    unfold v_end. f_equal. pose proof (f_equal length Hs) as Hlen.
    unfold shape in Hlen. by rewrite !length_fmap in Hlen.
Qed.

(** [set] writes one range and repairs the caches, whatever the arguments. *)
Lemma set_cursor v it l1 r l2 f b :
  vec_ok v → cursor v it l1 (r :: l2) →
  ∃ v', it_set v it f b = Some v' ∧ vec_ok v' ∧ shape v' = shape v ∧
        cursor v' it l1 ((f, b) :: l2).
Proof.
  intros Hok H. inversion H as [pre c post d1 r' d2 Hv E Hi|]; subst.
  pose proof (vec_ok_middle _ _ _ Hok) as [Hne Hsz Hb He Hc].
  unfold it_set. simpl. rewrite lookup_middle. simpl. rewrite E, lookup_middle. simpl.
  rewrite insert_middle, at_front_app, (at_back_app _ _ _ _ E). eexists. split; [done|].
  rewrite !insert_middle. split; [|split].
  - apply (vec_ok_replace pre c); [done|]. rewrite E in *. constructor; simpl.
    + by destruct d1.
    + rewrite length_app in *. done.
    + rewrite Hb. by destruct d1.
    + rewrite He. destruct d2 as [|r2 d2]; [by rewrite lst_of_snoc|].
      rewrite !(cons_middle _ d1), !app_assoc. by rewrite !lst_of_app.
    + rewrite Hc, !total_app. simpl. wring.
  - unfold shape. rewrite !fmap_app, !fmap_cons. simpl. rewrite E. by rewrite !length_app.
  - by eapply (cursor_mid _ _ pre _ post d1 (f, b) d2).
Qed.

Lemma adjust_is_set v it l1 r l2 f b :
  vec_ok v → cursor v it l1 (r :: l2) →
  it_adjust v it f b = it_set v it (r.1 ⊕ f) (r.2 ⊕ b).
Proof.
  intros Hok H. inversion H as [pre c post d1 r' d2 Hv E Hi|]; subst.
  pose proof (vec_ok_middle _ _ _ Hok) as [_ _ Hb He Hc].
  unfold it_adjust, it_set. simpl. rewrite lookup_middle. simpl. rewrite E, lookup_middle. simpl.
  rewrite !insert_middle, at_front_app, (at_back_app _ _ _ _ E), Hb, He, E.
  f_equal. f_equal. f_equal. f_equal.
  - by destruct d1.
  - destruct d2; [by rewrite lst_of_snoc|done].
  - wring.
Qed.

Lemma shift_is_set v it l1 r l2 d :
  vec_ok v → cursor v it l1 (r :: l2) →
  it_shift v it d = it_set v it (r.1 ⊕ d) (r.2 ⊕ d).
Proof.
  intros Hok H. inversion H as [pre c post d1 r' d2 Hv E Hi|]; subst.
  pose proof (vec_ok_middle _ _ _ Hok) as [_ _ Hb He Hc].
  unfold it_shift, it_set. simpl. rewrite lookup_middle. simpl. rewrite E, lookup_middle. simpl.
  rewrite !insert_middle, at_front_app, (at_back_app _ _ _ _ E), Hb, He, E.
  f_equal. f_equal. f_equal. f_equal.
  - by destruct d1.
  - destruct d2; [by rewrite lst_of_snoc|done].
  - rewrite Hc. wring.
Qed.

Lemma adjust_cursor v it l1 r l2 f b :
  vec_ok v → cursor v it l1 (r :: l2) →
  ∃ v', it_adjust v it f b = Some v' ∧ vec_ok v' ∧ shape v' = shape v ∧
        cursor v' it l1 ((r.1 ⊕ f, r.2 ⊕ b) :: l2).
Proof. intros Hok H. rewrite (adjust_is_set _ _ _ _ _ _ _ Hok H). eauto using set_cursor. Qed.

Lemma shift_cursor v it l1 r l2 d :
  vec_ok v → cursor v it l1 (r :: l2) →
  ∃ v', it_shift v it d = Some v' ∧ vec_ok v' ∧ shape v' = shape v ∧
        cursor v' it l1 ((r.1 ⊕ d, r.2 ⊕ d) :: l2).
Proof. intros Hok H. rewrite (shift_is_set _ _ _ _ _ _ Hok H). eauto using set_cursor. Qed.

End mutation.

(** ** Erasing and inserting *)

Section resizing.
Context {B : BuildConfig}.
Implicit Types (v : vec) (it : iter) (l : list range) (r : range).

Lemma erase_cursor v it l1 r l2 :
  vec_ok v → cursor v it l1 (r :: l2) →
  ∃ v' it', erase v it = Some (v', it') ∧ vec_ok v' ∧ cursor v' it' l1 l2.
Proof.
  intros Hok H. inversion H as [pre c post d1 r' d2 Hv E Hi|]; subst.
  pose proof (vec_ok_middle _ _ _ Hok) as [Hne Hsz Hb He Hc].
  assert (vec_ok pre ∧ vec_ok post) as [Hpre Hpost].
  { apply Forall_app in Hok as [? Hok]. by inversion Hok. }
  unfold erase. simpl. rewrite lookup_middle. simpl. rewrite E, lookup_middle. simpl.
  rewrite delete_middle.
  destruct (decide (d1 ++ d2 = [])) as [Hnil|Hnn].
  { rewrite Hnil. apply app_eq_nil in Hnil as [-> ->]. simpl. rewrite app_nil_r.
    rewrite delete_middle. do 2 eexists. split; [done|].
    split; [by apply Forall_app|]. by apply cursor_chunk_start. }
  destruct (head (d1 ++ d2)) as [fr|] eqn:Eh; [|by destruct (d1 ++ d2)].
  destruct (last (d1 ++ d2)) as [bk|] eqn:El; [|by apply last_None in El].
  rewrite insert_middle. do 2 eexists. split; [done|].
  set (c' := Chunk _ _ _ _).
  assert (chunk_ok c') as Hc'.
  { constructor; simpl.
    - done.
    - rewrite E, !length_app in *. simpl in Hsz. lia.
    - by destruct (d1 ++ d2); [|injection Eh as ->].
    - unfold lst_of. by rewrite El.
    - rewrite Hc, E, !total_app. simpl. wring. }
  split; [by apply (vec_ok_replace pre c)|].
  rewrite length_app. destruct d2 as [|r2 d2].
  - rewrite bool_decide_eq_false_2 by (simpl; lia). unfold next_chunk; simpl.
    replace (flat pre ++ d1) with (flat (pre ++ [c']))
      by (rewrite flat_app, flat_cons; simpl; by rewrite !app_nil_r).
    rewrite cons_middle, app_assoc.
    replace (S (length pre)) with (length (pre ++ [c'])) by (rewrite length_app; simpl; lia).
    by apply cursor_chunk_start.
  - rewrite bool_decide_eq_true_2 by (simpl; lia).
    by eapply (cursor_mid _ _ pre c' post d1 r2 d2).
Qed.

(** The ranges before and after [value] leave room for it. *)
Definition fits_between (l1 : list range) (value : range) (l2 : list range) : Prop :=
  ∃ lo, ranges_ok lo (l1 ++ value :: l2).

Lemma chunk_ok_singleton r : chunk_ok (singleton_chunk r).
Proof.
  constructor; simpl; try done.
  - apply max_size_pos.
  - wring.
Qed.

Lemma fst_of_sorted lo l r : ranges_ok lo (l ++ [r]) → fst_of (l ++ [r]) <= r.1.
Proof.
  destruct l as [|r0 l]; simpl; [lia|]. intros (? & ? & H).
  apply ranges_ok_Forall_lo, Forall_app in H as [_ H]. inversion H; subst. lia.
Qed.

Lemma lst_of_sorted lo r l : ranges_ok lo (r :: l) → r.2 <= lst_of (r :: l).
Proof.
  intros H. destruct (snoc_cases l) as [->|(l' & x & ->)]; [done|].
  rewrite app_comm_cons, lst_of_snoc. simpl in H. destruct H as (? & ? & H).
  apply ranges_ok_Forall_lo, Forall_app in H as [_ H]. inversion H; subst. lia.
Qed.

Lemma lst_of_bound lo l x : l ≠ [] → ranges_ok lo (l ++ [x]) → lst_of l < x.1.
Proof.
  intros Hne H. destruct (snoc_cases l) as [|(l' & y & ->)]; [done|].
  rewrite lst_of_snoc, <- app_assoc in *. apply ranges_ok_app in H as [_ H]. simpl in H. lia.
Qed.

(** Adding [x] inside the data of a chunk, with the cache updates of [insert]. *)
Lemma chunk_ok_insert c d1 d2 x lo :
  chunk_ok c → data c = d1 ++ d2 → (length (data c) < max_size)%nat →
  ranges_ok lo (d1 ++ x :: d2) →
  chunk_ok (Chunk (d1 ++ x :: d2) (Z.min (c_begin c) x.1) (Z.max (c_end c) x.2)
                  (c_count c ⊕ (x.2 ⊖ x.1))).
Proof.
  intros [Hne Hsz Hb He Hc] E Hlt Hok. rewrite E in *.
  rewrite length_app in Hlt. constructor; simpl.
  - by destruct d1.
  - rewrite length_app. simpl. lia.
  - rewrite Hb. destruct d1 as [|r1 d1]; simpl.
    + destruct d2 as [|r2 d2]; [done|]. simpl in *. lia.
    + simpl in Hok. destruct Hok as (_ & ? & Hok).
      apply ranges_ok_Forall_lo, Forall_app in Hok as [_ Hok]. inversion Hok; subst. lia.
  - rewrite He. destruct d2 as [|r2 d2].
    + rewrite app_nil_r in *. rewrite lst_of_snoc.
      apply ranges_ok_app in Hok as [Hok1 Hok2]. simpl in Hok2.
      pose proof (lst_of_bound lo d1 x Hne) as Hl. rewrite ranges_ok_app in Hl.
      simpl in Hl. specialize (Hl (conj Hok1 Hok2)). lia.
    + rewrite !lst_of_app by done. rewrite (lst_of_cons x) by done.
      apply ranges_ok_app in Hok as [_ (_ & _ & Hok)].
      pose proof (lst_of_sorted _ _ _ Hok). simpl in Hok. lia.
  - rewrite Hc, !total_app. simpl. wring.
Qed.

Lemma push_back_cursor v x lo :
  vec_ok v → ranges_ok lo (flat v ++ [x]) →
  ∃ v' it', push_back v x = Some v' ∧ prev v' (v_end v') = Some it' ∧
            vec_ok v' ∧ cursor v' it' (flat v) [x].
Proof.
  intros Hok Hs.
  assert (∀ v', vec_ok v' → flat v' = flat v ++ [x] →
    ∃ it', prev v' (v_end v') = Some it' ∧ cursor v' it' (flat v) [x]) as Hend.
  { intros v' Hok' Hf. apply cursor_prev; [done|]. rewrite <- Hf. apply cursor_end_intro. }
  assert (vec_ok (v ++ [singleton_chunk x]) ∧ flat (v ++ [singleton_chunk x]) = flat v ++ [x])
    as [Hok1 Hf1].
  { split; [apply Forall_app; auto using chunk_ok_singleton|].
    by rewrite flat_app, flat_cons. }
  unfold push_back. destruct (snoc_cases v) as [->|(pre & c & ->)].
  { destruct (Hend _ Hok1 Hf1) as (it' & Hp & Hc). by exists [singleton_chunk x], it'. }
  rewrite last_snoc. case_bool_decide as Hlt.
  - pose proof (vec_ok_middle _ _ _ Hok) as Hc.
    rewrite flat_app, flat_cons in Hs. simpl in Hs. rewrite app_nil_r in Hs.
    pose proof Hs as Hs2. rewrite <- app_assoc in Hs2. apply ranges_ok_app in Hs2 as [_ Hs2].
    destruct Hc as [Hne Hsz Hb He Hcn].
    pose proof (lst_of_bound _ _ _ Hne Hs2) as Hle. rewrite <- He in Hle.
    rewrite (proj2 (Z.leb_le _ _)) by lia. simpl.
    rewrite length_app, Nat.add_comm. simpl. rewrite insert_middle.
    set (c' := Chunk _ _ _ _).
    assert (c' = Chunk (data c ++ x :: []) (Z.min (c_begin c) x.1) (Z.max (c_end c) x.2)
                  (c_count c ⊕ (x.2 ⊖ x.1))) as Ec'.
    { unfold c'. f_equal; [|rewrite Z.max_r; [done|]; apply ranges_ok_app in Hs2 as [_ Hs2]; simpl in Hs2; lia].
      rewrite Z.min_l; [done|]. rewrite Hb. rewrite <- (fst_of_app _ [x]) by done.
      by eapply fst_of_sorted. }
    assert (vec_ok (pre ++ [c'])) as Hok'.
    { apply (vec_ok_replace pre c); [done|]. rewrite Ec'.
      eapply chunk_ok_insert; [by constructor|by rewrite app_nil_r|done|exact Hs2]. }
    assert (flat (pre ++ [c']) = flat (pre ++ [c]) ++ [x]) as Hf'.
    { rewrite !flat_app, !flat_cons. simpl. by rewrite !app_nil_r, <- app_assoc. }
    destruct (Hend (pre ++ [c'])) as (it' & Hp & Hcu); [done|done|]. eauto 10.
  - destruct (Hend _ Hok1 Hf1) as (it' & Hp & Hcu). eauto 10.
Qed.

(** After [ensure_space] the iterator is at the same place, in a chunk that
    has room; [d1] and [d2] are the ranges of that chunk before and after it. *)
Lemma ensure_space_cursor v it l1 l2 :
  vec_ok v → cursor v it l1 l2 → (outer it < length v)%nat →
  ∃ v' pre c post d1 d2,
    ensure_space v it = Some (v', Iter (length pre) (length d1)) ∧ vec_ok v' ∧
    v' = pre ++ c :: post ∧ data c = d1 ++ d2 ∧ (length (data c) < max_size)%nat ∧
    l1 = flat pre ++ d1 ∧ l2 = d2 ++ flat post.
Proof.
  intros Hok H Hlt. destruct H as [pre c post d1 r d2 -> E -> | ->]; [|simpl in Hlt; lia].
  pose proof (vec_ok_middle _ _ _ Hok) as [Hne Hsz Hb He Hc].
  destruct max_size_even as [k Hk].
  assert (max_size / 2 = S k)%nat as Hhalf by (rewrite Hk, Nat.mul_comm; by apply Nat.div_mul).
  unfold ensure_space. rewrite Hhalf. simpl. rewrite lookup_middle. simpl.
  case_bool_decide as Hroom.
  { exists (pre ++ c :: post), pre, c, post, d1, (r :: d2).
    split_and!; try done. lia. }
  assert (length (data c) - S k = S k)%nat as -> by lia.
  set (kept := take (S k) (data c)). set (moved := drop (S k) (data c)).
  assert (kept ++ moved = d1 ++ r :: d2) as Hkm by (by unfold kept, moved; rewrite take_drop, E).
  assert (length kept = S k) as Hlk by (unfold kept; rewrite length_take; lia).
  assert (length moved = S k) as Hlm by (unfold moved; rewrite length_drop; lia).
  destruct (last kept) as [kb|] eqn:Ekb; [|by apply last_None in Ekb; rewrite Ekb in Hlk].
  destruct (last moved) as [mb|] eqn:Emb; [|by apply last_None in Emb; rewrite Emb in Hlm].
  destruct (head moved) as [mf|] eqn:Emf; [|by destruct moved].
  simpl. rewrite take_middle.
  assert (∀ x, drop (S (length pre)) (pre ++ x :: post) = post) as ->.
  { intros x. rewrite cons_middle, app_assoc.
    replace (S (length pre)) with (length (pre ++ [x])) by (rewrite length_app; simpl; lia).
    apply drop_middle. }
  set (ck := Chunk kept _ _ _). set (cm := Chunk moved _ _ _).
  assert (chunk_ok ck) as Hck.
  { constructor; simpl.
    - by destruct kept.
    - lia.
    - rewrite Hb. change (data c) with (id (data c)). unfold id.
      rewrite <- (take_drop (S k) (data c)). fold kept moved. apply fst_of_app. by destruct kept.
    - unfold lst_of. by rewrite Ekb.
    - rewrite Hc, sum_sizes_total, E, <- Hkm, total_app. wring. }
  assert (chunk_ok cm) as Hcm.
  { constructor; simpl.
    - by destruct moved.
    - lia.
    - by destruct moved; [|injection Emf as ->].
    - unfold lst_of. by rewrite Emb.
    - apply sum_sizes_total. }
  assert (vec_ok (pre ++ ck :: cm :: post)) as Hok'.
  { apply Forall_app in Hok as [? Hok]. inversion Hok; subst.
    apply Forall_app. split; [done|]. do 2 (constructor; [done|]); done. }
  case_bool_decide as Hoff.
  - apply app_eq_inv in Hkm as [(e & Ek & Er)|(e & Ed & Em)].
    { rewrite Ek, length_app in Hlk. assert (e = []) as -> by (apply length_zero_iff_nil; lia).
      simpl in Er. rewrite app_nil_r in Ek.
      exists (pre ++ ck :: cm :: post), (pre ++ [ck]), cm, post, [], (r :: d2).
      split_and!; try done.
      - rewrite length_app; simpl; repeat f_equal; lia.
      - by rewrite <- app_assoc.
      - simpl. lia.
      - rewrite flat_app, flat_cons. simpl. by rewrite !app_nil_r, Ek. }
    exists (pre ++ ck :: cm :: post), (pre ++ [ck]), cm, post, e, (r :: d2).
    split_and!; try done.
    + rewrite Ed, !length_app; simpl; repeat f_equal; lia.
    + by rewrite <- app_assoc.
    + simpl. lia.
    + rewrite flat_app, flat_cons. simpl. by rewrite app_nil_r, Ed, app_assoc.
  - apply app_eq_inv in Hkm as [(e & Ek & Er)|(e & Ed & Em)].
    2: { rewrite Ed, length_app in Hoff. lia. }
    exists (pre ++ ck :: cm :: post), pre, ck, (cm :: post), d1, e.
    split_and!; try done.
    + simpl. lia.
    + rewrite flat_cons. change (data cm) with moved. by rewrite app_assoc, <- Er.
Qed.

(** [insert] puts a range at the iterator; the result points to it. *)
Lemma insert_cursor v it l1 l2 x lo :
  vec_ok v → cursor v it l1 l2 → ranges_ok lo (l1 ++ x :: l2) →
  ∃ v' it', insert v it x = Some (v', it') ∧ vec_ok v' ∧ cursor v' it' l1 (x :: l2).
Proof.
  intros Hok H Hs. unfold insert.
  pose proof (cursor_flat _ _ _ _ H) as Hf.
  case_bool_decide as Hend.
  { assert (l2 = []) as ->.
    { destruct l2; [done|]. apply cursor_lt in H. lia. }
    rewrite app_nil_r in Hf. subst l1.
    destruct (push_back_cursor v x lo) as (v' & it' & -> & Hp & Hok' & Hc); [done|done|].
    simpl. rewrite Hp. simpl. eauto 10. }
  assert (outer it < length v)%nat as Hlt.
  { destruct H as [pre c post d1 r d2 -> E -> | ->]; simpl in *; [rewrite length_app; simpl; lia|lia]. }
  destruct (ensure_space_cursor v it l1 l2) as (v' & pre & c & post & d1 & d2 & -> & Hok' & -> & E & Hl & -> & ->);
    [done..|].
  simpl. rewrite lookup_middle. simpl. rewrite E, take_middle, drop_middle, insert_middle.
  do 2 eexists. split; [done|]. split.
  - apply (vec_ok_replace pre c); [done|].
    eapply chunk_ok_insert; [by apply (vec_ok_middle pre c post)|done|done|].
    rewrite <- !app_assoc in Hs. apply ranges_ok_app in Hs as [_ Hs].
    rewrite app_comm_cons, app_assoc in Hs. apply ranges_ok_app in Hs as [Hs _]. exact Hs.
  - by eapply (cursor_mid _ _ pre _ post d1 x d2).
Qed.

(** A separated, bounded vector with correct caches passes [verify]. *)
Lemma verify_ranges_ok p lo rs :
  (p = npos ∨ p < lo) → bounded rs → ranges_ok lo rs → verify_ranges p rs = true.
Proof.
  revert p lo. induction rs as [|r rs IH]; intros p lo Hp Hb; simpl; [done|].
  intros (? & ? & Hs). inversion Hb; subst.
  rewrite (IH r.2 (r.2 + 1)) by (done || lia).
  rewrite (proj2 (Z.ltb_lt r.1 r.2)) by lia. simpl. rewrite andb_true_r.
  destruct Hp as [->|]; [by rewrite Z.eqb_refl|].
  rewrite (proj2 (Z.ltb_lt p r.1)) by lia. by rewrite orb_true_r.
Qed.
End resizing.
