(* ===== verification/IndexSetOps.v ===== *)
(** * Iterating over indices and building range vectors

    Model of [IndexSet::IndexIterator] (index_set.hpp) and of
    [ChunkedRangeVectorBuilder] (index_set.cpp), which the bulk operations of
    the index set use to write their result. *)

From S2P Require Import Prelude RangeSet RangeVector.

(** [IndexIterator]: the range iterator and the offset in its range. *)
Record ix := Ix { ix_it : iter; ix_off : Z }.

Definition ix_begin (v : vec) : ix := Ix (v_begin v) 0.

(** [it != end()]: only the range iterators are compared. *)
Definition ix_more (v : vec) (x : ix) : bool := negb (iter_eqb (ix_it x) (v_end v)).

Definition ix_deref (v : vec) (x : ix) : option Z :=
  r ← deref v (ix_it x); Some (r.1 ⊕ ix_off x).

Definition ix_next (v : vec) (x : ix) : option ix :=
  let off := ix_off x ⊕ 1 in
  r ← deref v (ix_it x);
  if r.1 ⊕ off =? r.2 then it ← next v (ix_it x); Some (Ix it 0)
  else Some (Ix (ix_it x) off).

(** Enough fuel to visit every index once. *)
Definition ix_fuel (v : vec) : nat := S (Z.to_nat (total (flat v))).

(** [for (size_t index : v.as_indexes()) body]. *)
Definition for_indexes {St} (v : vec) (body : Z → St → option St) (s : St) : option St :=
  '(_, s') ← loop (ix_fuel v)
    (λ '(x, s), Some (ix_more v x))
    (λ '(x, s), i ← ix_deref v x; s' ← body i s; x' ← ix_next v x; Some (x', s'))
    (ix_begin v, s);
  Some s'.

(** The builder: the chunks, and the one being filled. *)
Record builder := Builder { b_data : vec; b_pos : nat }.

Definition empty_chunk : chunk := Chunk [] 0 0 0.

Section operations.
Context {B : BuildConfig}.

(** The constructor sizes the vector for as many ranges as [expected] has. *)
Definition builder_init (expected : vec) : builder :=
  Builder (replicate (length (flat expected) / max_size + 1)%nat empty_chunk) 0.

(** [push_back(range)] *)
Definition builder_push (b : builder) (r : range) : option builder :=
  c ← b_data b !! b_pos b;
  match last (data c) with
  | None =>
      Some (Builder (<[b_pos b := Chunk [r] r.1 (c_end c) (r.2 ⊖ r.1)]> (b_data b)) (b_pos b))
  | Some back =>
      if r.1 =? back.2 then
        let data' := <[pred (length (data c)) := (back.1, r.2)]> (data c) in
        Some (Builder (<[b_pos b := Chunk data' (c_begin c) (c_end c)
                           (c_count c ⊕ (r.2 ⊖ r.1))]> (b_data b)) (b_pos b))
      else if bool_decide (length (data c) < max_size)%nat then
        Some (Builder (<[b_pos b := Chunk (data c ++ [r]) (c_begin c) (c_end c)
                           (c_count c ⊕ (r.2 ⊖ r.1))]> (b_data b)) (b_pos b))
      else
        let m := <[b_pos b := Chunk (data c) (c_begin c) back.2 (c_count c)]> (b_data b) in
        let pos := S (b_pos b) in
        if bool_decide (length m ≤ pos)%nat then
          Some (Builder (m ++ [Chunk [r] r.1 0 1]) pos)
        else
          c' ← m !! pos;
          Some (Builder (<[pos := Chunk (data c' ++ [r]) r.1 (c_end c') (r.2 ⊖ r.1)]> m) pos)
  end.

(** [push_back(index)] *)
Definition builder_push_index (b : builder) (index : Z) : option builder :=
  builder_push b (index, index ⊕ 1).

Definition builder_finalize (b : builder) : option vec :=
  if v_empty (b_data b) then Some (b_data b) else
  let m := resize (S (b_pos b)) empty_chunk (b_data b) in
  c ← last m;
  match last (data c) with
  | None => Some (take (pred (length m)) m)
  | Some back => Some (<[pred (length m) := Chunk (data c) (c_begin c) back.2 (c_count c)]> m)
  end.
End operations.

(** * [IndexSet]

    Model of [realm::IndexSet] (index_set.hpp, index_set.cpp): a set of
    indices stored as a chunked vector of ranges, with the operations that
    insert, erase, shift and unshift indices. *)

Module IndexSet.
Section operations.
Context {B : BuildConfig}.

(** Enough fuel for a loop that visits every range at most once. *)
Definition fuel (v : vec) : nat := S (length (flat v)).

Definition at_end (v : vec) (it : iter) : bool := iter_eqb it (v_end v).

(** [it != end() && p( *it)]. *)
Definition on (v : vec) (it : iter) (p : range → bool) : option bool :=
  if at_end v it then Some false else r ← deref v it; Some (p r).

(** [find(index, begin)] *)
Definition find_from (v : vec) (index : Z) (b : iter) : option iter :=
  let o := Nat.add (outer b) (find_if (λ c, index <? c_end c) (drop (outer b) v)) in
  match v !! o with
  | None => Some (v_end v)
  | Some c =>
      if index <? c_begin c then Some (Iter o 0) else
      let inner_begin := if bool_decide (o = outer b) then inner b else O in
      let i := Nat.add inner_begin (find_if (λ lft, negb (lft.2 <=? index)) (drop inner_begin (data c))) in
      REALM_ASSERT (bool_decide (i ≠ length (data c))) ;;
      Some (Iter o i)
  end.

Definition find (v : vec) (index : Z) : option iter := find_from v index (v_begin v).

Definition contains (v : vec) (index : Z) : option bool :=
  it ← find v index;
  on v it (λ r, r.1 <=? index).

(** The part of [count] that finishes the chunk in which it starts: the
    iterator and the sum it reaches, and whether [count] returns there. *)
Definition count_first_chunk (v : vec) (it : iter) (r : range) (start_index end_index : Z)
    : option (iter * Z * bool) :=
  let ret := r.2 ⊖ Z.max r.1 start_index in
  it ← next v it;
  '(it, ret) ← loop (fuel v)
    (λ '(it, ret), on v it (λ r, (r.2 <? end_index) && negb (bool_decide (inner it = O))))
    (λ '(it, ret), r ← deref v it; it' ← next v it; Some (it', ret ⊕ (r.2 ⊖ r.1)))
    (it, ret);
  partial ← on v it (λ r, (r.1 <? end_index) && negb (bool_decide (inner it = O)));
  ret ← (if partial : bool then r ← deref v it; Some (ret ⊕ (end_index ⊖ r.1)) else Some ret);
  more ← on v it (λ r, r.2 <? end_index);
  Some (it, ret, negb more).

(** The rest of [count]: complete chunks, complete ranges, a partial range. *)
Definition count_rest (v : vec) (it : iter) (ret end_index : Z) : option Z :=
  '(it, ret) ← loop (fuel v)
    (λ '(it, ret), if at_end v it then Some false
                   else c ← outer_chunk v it; Some (c_end c <=? end_index))
    (λ '(it, ret), c ← outer_chunk v it;
       REALM_ASSERT (bool_decide (inner it = O)) ;;
       Some (next_chunk it, ret ⊕ c_count c))
    (it, ret);
  '(it, ret) ← loop (fuel v)
    (λ '(it, ret), on v it (λ r, r.2 <=? end_index))
    (λ '(it, ret), r ← deref v it; it' ← next v it; Some (it', ret ⊕ (r.2 ⊖ r.1)))
    (it, ret);
  partial ← on v it (λ r, r.1 <? end_index);
  if partial : bool then r ← deref v it; Some (ret ⊕ (end_index ⊖ r.1)) else Some ret.

Definition count (v : vec) (start_index end_index : Z) : option Z :=
  it ← find v start_index;
  if at_end v it then Some 0 else
  r ← deref v it;
  if end_index <=? r.1 then Some 0 else
  if end_index <=? r.2 then Some (Z.min r.2 end_index ⊖ Z.max r.1 start_index) else
  if (r.1 <? start_index) || negb (bool_decide (inner it = O)) then
    '(it, ret, stop) ← count_first_chunk v it r start_index end_index;
    if stop : bool then Some ret else count_rest v it ret end_index
  else count_rest v it 0 end_index.

(** [do_add(it, index)] *)
Definition do_add (v : vec) (it : iter) (index : Z) : option (vec * iter) :=
  let more_before := negb (iter_eqb it (v_begin v)) in
  let valid := negb (at_end v it) in
  before ← (if more_before then p ← prev v it; r ← deref v p; Some (Some (p, r)) else Some None);
  cur ← (if valid then r ← deref v it; Some (Some r) else Some None);
  REALM_ASSERT (match before with Some (_, r) => r.2 <=? index | None => true end) ;;
  if match cur with Some r => (r.1 <=? index) && (index <? r.2) | None => false end
  then Some (v, it)
  else
  match before with
  | Some (p, rp) =>
      if rp.2 =? index then
        v1 ← it_adjust v p 0 1;
        rp1 ← deref v1 p;
        match cur with
        | Some r =>
            if rp1.2 =? r.1 then
              v2 ← it_adjust v1 p 0 (r.2 ⊖ r.1);
              '(v3, it3) ← erase v2 it;
              p3 ← prev v3 it3;
              Some (v3, p3)
            else Some (v1, p)
        | None => Some (v1, p)
        end
      else if match cur with Some r => r.1 =? index ⊕ 1 | None => false end
      then v1 ← it_adjust v it (-1) 0; Some (v1, it)
      else insert v it (index, index ⊕ 1)
  | None =>
      if match cur with Some r => r.1 =? index ⊕ 1 | None => false end
      then v1 ← it_adjust v it (-1) 0; Some (v1, it)
      else insert v it (index, index ⊕ 1)
  end.

Definition add (v : vec) (index : Z) : option vec :=
  it ← find v index;
  '(v', _) ← do_add v it index;
  Some v'.

(** The constructor from an initializer list. *)
Definition of_list (values : list Z) : option vec := foldM (λ i v, add v i) values [].

(** The first loops of [add_shifted]: the iterator and shifted index. *)
Definition add_shifted_pos (v : vec) (index : Z) : option (iter * Z) :=
  '(it, index) ← loop (fuel v)
    (λ '(it, index), if at_end v it then Some false
                     else c ← outer_chunk v it; Some (c_end c <=? index))
    (λ '(it, index), c ← outer_chunk v it; Some (next_chunk it, index ⊕ c_count c))
    (v_begin v, index);
  loop (fuel v)
    (λ '(it, index), on v it (λ r, r.1 <=? index))
    (λ '(it, index), r ← deref v it; it' ← next v it; Some (it', index ⊕ (r.2 ⊖ r.1)))
    (it, index).

Definition add_shifted (v : vec) (index : Z) : option (vec * Z) :=
  '(it, index) ← add_shifted_pos v index;
  '(v', _) ← do_add v it index;
  Some (v', index).

Definition clear (v : vec) : vec := [].

Definition set (v : vec) (len : Z) : option vec :=
  let v := clear v in
  if negb (len =? 0) then push_back v (0, len) else Some v.

(** [for (auto it = start; it != end; ++it) it.shift(distance);] *)
Definition shift_from (v : vec) (start : iter) (distance : Z) : option vec :=
  '(v', _) ← loop (fuel v)
    (λ '(v, it), Some (negb (at_end v it)))
    (λ '(v, it), v1 ← it_shift v it distance; it' ← next v1 it; Some (v1, it'))
    (v, start);
  Some v'.

(** [insert_at(index, count)] *)
Definition insert_at (v : vec) (index count : Z) : option vec :=
  REALM_ASSERT (0 <? count) ;;
  pos ← find v index;
  '(v, in_existing) ←
    (if at_end v pos then Some (v, false) else
     r ← deref v pos;
     let in_existing := r.1 <=? index in
     v1 ← (if in_existing then it_adjust v pos 0 count else it_shift v pos count);
     nx ← next v1 pos;
     v2 ← shift_from v1 nx count;
     Some (v2, in_existing));
  if in_existing : bool then Some v else
  '(v', _) ← iter_n (Z.to_nat count)
    (λ i '(v, pos), '(v', it) ← do_add v pos (index ⊕ Z.of_nat i);
                    pos' ← next v' it; Some (v', pos'))
    0%nat (v, pos);
  Some v'.

(** [shift_for_insert_at(index, count)] *)
Definition shift_for_insert_at (v : vec) (index count : Z) : option vec :=
  REALM_ASSERT (0 <? count) ;;
  it ← find v index;
  if at_end v it then Some v else
  v1 ← shift_from v it count;
  r ← deref v1 it;
  if r.1 <? index ⊕ count then
    v2 ← it_set v1 it (r.1 ⊖ count) index;
    nx ← next v2 it;
    '(v3, _) ← insert v2 nx (index ⊕ count, r.2);
    Some v3
  else Some v1.

(** [do_erase(it, index)] *)
Definition do_erase (v : vec) (it : iter) (index : Z) : option vec :=
  r ← deref v it;
  '(v1, it1) ←
    (if r.1 <=? index then
       if r.1 ⊕ 1 =? r.2 then erase v it
       else v1 ← it_adjust v it 0 (-1); it1 ← next v1 it; Some (v1, it1)
     else if negb (iter_eqb it (v_begin v)) then
       p ← prev v it;
       rp ← deref v p;
       if rp.2 ⊕ 1 =? r.1 then
         v1 ← it_adjust v p 0 (r.2 ⊖ r.1);
         erase v1 it
       else Some (v, it)
     else Some (v, it));
  shift_from v1 it1 (-1).

Definition erase_at (v : vec) (index : Z) : option vec :=
  it ← find v index;
  if at_end v it then Some v else do_erase v it index.

Definition erase_or_unshift (v : vec) (index : Z) : option (vec * Z) :=
  '(it, shifted) ← loop (fuel v)
    (λ '(it, shifted), if at_end v it then Some false
                       else c ← outer_chunk v it; Some (c_end c <=? index))
    (λ '(it, shifted), c ← outer_chunk v it; Some (next_chunk it, shifted ⊖ c_count c))
    (v_begin v, index);
  '(it, shifted) ← loop (fuel v)
    (λ '(it, shifted), on v it (λ r, r.2 <=? index))
    (λ '(it, shifted), r ← deref v it; it' ← next v it; Some (it', shifted ⊖ (r.2 ⊖ r.1)))
    (it, shifted);
  if at_end v it then Some (v, shifted) else
  r ← deref v it;
  v' ← do_erase v it index;
  Some (v', if r.1 <=? index then npos else shifted).

(** [do_remove(it, begin, end)]: an iteration handles one matching range. *)
Definition do_remove_step (v : vec) (it : iter) (b e : Z) : option (vec * iter) :=
  r ← deref v it;
  if (r.1 <? b) && (e <? r.2) then
    v1 ← it_set v it r.1 b;
    nx ← next v1 it;
    '(v2, it2) ← insert v1 nx (e, r.2);
    p ← prev v2 it2;
    Some (v2, p)
  else if (b =? r.1) && (r.2 <=? e) then erase v it
  else if b =? r.1 then v1 ← it_set v it e r.2; Some (v1, it)
  else v1 ← it_set v it r.1 b; Some (v1, it).

Definition do_remove (v : vec) (it : iter) (b e : Z) : option (vec * iter) :=
  it ← find_from v b it;
  '(v', it', _) ← loop (fuel v)
    (λ '(v, it, b), on v it (λ r, r.1 <? e))
    (λ '(v, it, b), r ← deref v it;
       let b := Z.max r.1 b in
       '(v1, it1) ← do_remove_step v it b e;
       it2 ← find_from v1 b it1;
       Some (v1, it2, b))
    (v, it, b);
  Some (v', it').

Definition remove (v : vec) (index count : Z) : option vec :=
  it ← find v index;
  '(v', _) ← do_remove v it index (index ⊕ count);
  Some v'.

(** [remove(IndexSet const& values)]; the flag is the early [return]. *)
Definition remove_set (v values : vec) : option vec :=
  '(v', _, _) ← foldM
    (λ (r : range) '(v, it, stop), if stop : bool then Some (v, it, stop) else
       '(v', it') ← do_remove v it r.1 r.2;
       Some (v', it', at_end v' it'))
    (flat values) (v, v_begin v, false);
  Some v'.

(** [shift(index)]: the loop over the ranges, with its [break]. *)
Fixpoint shift_ranges (rs : list range) (index : Z) : Z :=
  match rs with
  | [] => index
  | r :: rs => if index <? r.1 then index else shift_ranges rs (index ⊕ (r.2 ⊖ r.1))
  end.

Definition shift (v : vec) (index : Z) : Z := shift_ranges (flat v) index.

Definition unshift (v : vec) (index : Z) : option Z :=
  n ← count v 0 index; Some (index ⊖ n).

(** [add(IndexSet const& other)] *)
Definition add_set (v other : vec) : option vec :=
  '(v', _) ← for_indexes other
    (λ index '(v, it), it' ← find_from v index it; do_add v it' index)
    (v, v_begin v);
  Some v'.

(** State of the loop of [add_shifted_by]: the cursors over the old set and
    over [shifted_by], [skip_until], the two shifts and the builder. *)
Record shifted_by_state := ShiftedBy {
  old_it : iter; shift_it : iter; skip_until : Z; old_shift : Z; new_shift : Z; out : builder
}.

(** [for (; shift_it != shift_end && shift_it->first <= index; ++shift_it)] *)
Definition advance_shift (shifted_by : vec) (index : Z) (s : shifted_by_state) : option shifted_by_state :=
  loop (fuel shifted_by)
    (λ s, on shifted_by (shift_it s) (λ r, r.1 <=? index))
    (λ s, r ← deref shifted_by (shift_it s);
          it ← next shifted_by (shift_it s);
          Some (ShiftedBy (old_it s) it r.2 (old_shift s) (new_shift s ⊕ (r.2 ⊖ r.1)) (out s)))
    s.

(** [for (; old_it != old_end && old_it->first <= index - new_shift + old_shift; ++old_it)] *)
Definition advance_old (v : vec) (index : Z) (s : shifted_by_state) : option shifted_by_state :=
  loop (fuel v)
    (λ s, on v (old_it s) (λ r, r.1 <=? index ⊖ new_shift s ⊕ old_shift s))
    (λ s, r ← deref v (old_it s);
          b ← iter_n (Z.to_nat (r.2 ⊖ r.1))
                (λ i b, builder_push_index b (r.1 ⊕ Z.of_nat i)) 0%nat (out s);
          it ← next v (old_it s);
          Some (ShiftedBy it (shift_it s) (skip_until s) (old_shift s ⊕ (r.2 ⊖ r.1)) (new_shift s) b))
    s.

Definition add_shifted_by_index (v shifted_by : vec) (index : Z) (s : shifted_by_state)
    : option shifted_by_state :=
  s ← advance_shift shifted_by index s;
  if index <? skip_until s then Some s else
  s ← advance_old v index s;
  REALM_ASSERT (new_shift s <=? index) ;;
  b ← builder_push_index (out s) (index ⊖ new_shift s ⊕ old_shift s);
  Some (ShiftedBy (old_it s) (shift_it s) (skip_until s) (old_shift s) (new_shift s) b).

(** [add_shifted_by(shifted_by, values)] *)
Definition add_shifted_by (v shifted_by values : vec) : option vec :=
  if v_empty values then Some v else
  s ← for_indexes values (add_shifted_by_index v shifted_by)
        (ShiftedBy (v_begin v) (v_begin shifted_by) 0 0 0 (builder_init v));
  (* copy(old_it, old_end, std::back_inserter(builder)) *)
  '(_, b) ← loop (fuel v)
    (λ '(it, b), Some (negb (at_end v it)))
    (λ '(it, b), r ← deref v it; b' ← builder_push b r; it' ← next v it; Some (it', b'))
    (old_it s, out s);
  builder_finalize b.

(** The index cursors over this set and over the argument, the shift and the
    builder: the state of the merge loops of the bulk operations. *)
Definition merge_state : Type := ix * ix * Z * builder.

Definition merge_fuel (v w : vec) : nat := S (ix_fuel v + ix_fuel w).

(** [while (begin1 != end1 && begin2 != end2)] *)
Definition both_more (v w : vec) (s : merge_state) : option bool :=
  let '(b1, b2, _, _) := s in Some (ix_more v b1 && ix_more w b2).

(** [for (; begin1 != end1; ++begin1) builder.push_back( *begin1 + shift)], where
    [erase_at] subtracts: [off] is the offset added. *)
Definition drain (v : vec) (b1 : ix) (off : Z → Z) (b : builder) : option builder :=
  '(_, b') ← loop (ix_fuel v)
    (λ '(x, b), Some (ix_more v x))
    (λ '(x, b), i ← ix_deref v x; b' ← builder_push_index b (off i); x' ← ix_next v x; Some (x', b'))
    (b1, b);
  Some b'.

(** [insert_at(IndexSet const& positions)] *)
Definition insert_at_set (v positions : vec) : option vec :=
  if v_empty positions then Some v else
  if v_empty v then Some positions else
  '(b1, b2, shift, b) ← loop (merge_fuel v positions) (both_more v positions)
    (λ '(b1, b2, shift, b),
       i1 ← ix_deref v b1;
       i2 ← ix_deref positions b2;
       if i1 ⊕ shift <? i2 then
         b' ← builder_push_index b (i1 ⊕ shift); b1' ← ix_next v b1; Some (b1', b2, shift, b')
       else
         b' ← builder_push_index b i2; b2' ← ix_next positions b2; Some (b1, b2', shift ⊕ 1, b'))
    (ix_begin v, ix_begin positions, 0, builder_init v);
  b ← drain v b1 (λ i, i ⊕ shift) b;
  b ← drain positions b2 (λ i, i) b;
  builder_finalize b.

(** [shift_for_insert_at(IndexSet const& values)] *)
Definition shift_for_insert_at_set (v values : vec) : option vec :=
  if v_empty v || v_empty values then Some v else
  f ← head values;
  l ← last v;
  if c_end l <=? c_begin f then Some v else
  '(b1, b2, shift, b) ← loop (merge_fuel v values) (both_more v values)
    (λ '(b1, b2, shift, b),
       i1 ← ix_deref v b1;
       i2 ← ix_deref values b2;
       if i1 ⊕ shift <? i2 then
         b' ← builder_push_index b (i1 ⊕ shift); b1' ← ix_next v b1; Some (b1', b2, shift, b')
       else
         b2' ← ix_next values b2; Some (b1, b2', shift ⊕ 1, b))
    (ix_begin v, ix_begin values, 0, builder_init v);
  b ← drain v b1 (λ i, i ⊕ shift) b;
  builder_finalize b.

(** [erase_at(IndexSet const& positions)] *)
Definition erase_at_set (v positions : vec) : option vec :=
  if v_empty v || v_empty positions then Some v else
  '(b1, b2, shift, b) ← loop (merge_fuel v positions) (both_more v positions)
    (λ '(b1, b2, shift, b),
       i1 ← ix_deref v b1;
       i2 ← ix_deref positions b2;
       if i1 <? i2 then
         b' ← builder_push_index b (i1 ⊖ shift); b1' ← ix_next v b1; Some (b1', b2, shift, b')
       else if i1 =? i2 then
         b1' ← ix_next v b1; b2' ← ix_next positions b2; Some (b1', b2', shift ⊕ 1, b)
       else
         b2' ← ix_next positions b2; Some (b1, b2', shift ⊕ 1, b))
    (ix_begin v, ix_begin positions, 0, builder_init v);
  b ← drain v b1 (λ i, i ⊖ shift) b;
  builder_finalize b.

End operations.
End IndexSet.
