(* ===== verification/IndexSetSpec.v ===== *)
(** * Correctness of [IndexSet]

    Every operation of the chunked index set implements its meaning on sets of
    indices. *)

From S2P Require Import Prelude RangeSet RangeVector IndexSetOps.
Import IndexSet.

(** The invariant of an index set. *)
Record set_ok {B : BuildConfig} (v : vec) : Prop := {
  so_vec : vec_ok v;
  so_sorted : ranges_ok 0 (flat v);
  so_bounded : bounded (flat v)
}.

(** [denotes v P]: [v] is a well-formed index set whose members are [P]. *)
Definition denotes {B : BuildConfig} (v : vec) (P : Z → Prop) : Prop :=
  set_ok v ∧ ∀ i, mem i (flat v) ↔ P i.

(** Restate sortedness, bounds and membership of concatenations piecewise. *)
Ltac pieces :=
  unfold denotes in *;
  repeat match goal with
  | H : _ ∧ _ |- _ => destruct H
  | H : ranges_ok _ (_ :: _) |- _ => simpl in H
  | H : ranges_ok _ (_ ++ _) |- _ => rewrite ranges_ok_app in H
  | H : bounded (_ ++ _) |- _ => rewrite bounded_app in H
  | H : bounded (_ :: _) |- _ => rewrite bounded_cons in H
  | H : context [next_lo _ (_ ++ [_])] |- _ => rewrite next_lo_snoc in H
  | |- context [ranges_ok _ (_ ++ _)] => rewrite ranges_ok_app
  | |- context [bounded (_ ++ _)] => rewrite bounded_app
  | |- context [bounded (_ :: _)] => rewrite bounded_cons
  | |- context [next_lo _ (_ ++ [_])] => rewrite next_lo_snoc
  end; simpl in *;
  repeat match goal with
  | H : ranges_ok ?lo ?l |- _ =>
      lazymatch goal with
      | _ : lo <= next_lo lo l |- _ => fail
      | _ => pose proof (ranges_ok_next_lo lo l H)
      end
  end.

(** Solve membership equivalences between concatenations of ranges. *)
Ltac members := intros; simpl; rewrite ?mem_app, ?mem_cons, ?mem_nil; simpl; intuition (lia || auto).

Section basics.
Context {B : BuildConfig}.
Implicit Types (v : vec) (it : iter) (l : list range) (r : range).

Lemma cursor_bounded v it l1 l2 : set_ok v → cursor v it l1 l2 → ranges_ok 0 (l1 ++ l2) ∧ bounded (l1 ++ l2).
Proof. intros [_ Hs Hb] H. apply cursor_flat in H. by rewrite <- H. Qed.

Lemma on_cursor v it l1 l2 p :
  cursor v it l1 l2 → on v it p = Some (match l2 with [] => false | r :: _ => p r end).
Proof.
  intros H. unfold on, at_end. rewrite (cursor_at_end _ _ _ _ H).
  destruct l2; [done|]. by rewrite (cursor_deref _ _ _ _ _ H).
Qed.

Lemma at_end_cursor v it l1 l2 :
  cursor v it l1 l2 → at_end v it = match l2 with [] => true | _ => false end.
Proof. apply cursor_at_end. Qed.

(** ** [find] *)

Lemma chunks_before i cs lo :
  vec_ok cs → ranges_ok lo (flat cs) → Forall (λ c, (i <? c_end c) = false) cs →
  Forall (λ r, r.2 <= i) (flat cs).
Proof.
  revert lo. induction cs as [|c cs IH]; intros lo Hok Hs H; [done|].
  rewrite flat_cons in *. apply ranges_ok_app in Hs as [Hs1 Hs2].
  inversion Hok as [|? ? Hc Hcs]; subst. inversion H as [|? ? Hi Hr]; subst.
  apply Forall_app. split; [|by eapply IH].
  eapply Forall_impl; [by eapply Forall_le_lst|]. simpl.
  intros r Hle. rewrite Z.ltb_ge, (ok_end _ Hc) in Hi. lia.
Qed.

(** A position inside the chunk [c]. *)
Lemma chunk_search pre c post i d1 d2 :
  vec_ok (pre ++ c :: post) → data c = d1 ++ d2 → Forall (λ r, r.2 <= i) (flat pre ++ d1) →
  i < c_end c →
  let k := Nat.add (length d1) (find_if (λ lft, negb (lft.2 <=? i)) d2) in
  k ≠ length (data c) ∧
  ∃ k1 k2, cursor (pre ++ c :: post) (Iter (length pre) k) k1 k2 ∧ split_point i k1 k2.
Proof.
  intros Hok E H1 Hend. pose proof (vec_ok_middle _ _ _ Hok) as Hc.
  destruct (find_if_spec (λ lft, negb (lft.2 <=? i)) d2)
    as [[-> Hall]|(e1 & r & e2 & -> & -> & Hall & Hr)]; simpl.
  - exfalso. apply Forall_app in H1 as [_ H1].
    assert (Forall (λ r, r.2 <= i) (data c)) as H.
    { rewrite E. apply Forall_app. split; [done|]. eapply Forall_impl; [done|].
      simpl. intros r Hr. rewrite negb_false_iff in Hr. lia. }
    destruct (snoc_cases (data c)) as [Hn|(d & x & Ed)]; [by apply (ok_ne _ Hc)|].
    rewrite (ok_end _ Hc) in Hend. rewrite Ed in *. rewrite lst_of_snoc in Hend.
    apply Forall_app in H as [_ H]. inversion H; subst. lia.
  - split; [rewrite E, !length_app; simpl; lia|].
    do 2 eexists. rewrite <- length_app. split.
    + eapply (cursor_mid _ _ pre c post (d1 ++ e1) r e2); [done| |done].
      by rewrite E, app_assoc.
    + split; [|rewrite negb_true_iff in Hr; lia]. rewrite app_assoc.
      apply Forall_app. split; [done|]. eapply Forall_impl; [done|].
      simpl. intros x Hx. rewrite negb_false_iff in Hx. lia.
Qed.

(** [find] from a cursor that is not past [i] reaches the first range that
    ends after [i]. *)
Lemma find_from_cursor v b l1 l2 i :
  set_ok v → cursor v b l1 l2 → Forall (λ r, r.2 <= i) l1 →
  ∃ it k1 k2, find_from v i b = Some it ∧ cursor v it k1 k2 ∧ split_point i k1 k2.
Proof.
  intros [Hok Hs Hb] H Hl1. unfold find_from.
  destruct H as [pre c post d1 r d2 -> E -> | ->]; simpl.
  2: { rewrite drop_ge by done. simpl. rewrite Nat.add_0_r, lookup_ge_None_2 by done.
       exists (v_end v), (flat v), []. split; [done|]. split; [apply cursor_end_intro|done]. }
  rewrite drop_middle.
  assert (vec_ok (c :: post)) as Hcp by (by apply Forall_app in Hok as [_ ?]).
  pose proof Hs as Hs'. rewrite flat_app in Hs'. apply ranges_ok_app in Hs' as [_ Hs'].
  destruct (find_if_spec (λ c, i <? c_end c) (c :: post))
    as [[-> Hall]|(cs1 & c' & cs2 & Ecs & -> & Hall & Hc')].
  { rewrite lookup_ge_None_2 by (rewrite length_app; simpl; lia).
    exists (v_end (pre ++ c :: post)), (flat (pre ++ c :: post)), []. split; [done|].
    split; [apply cursor_end_intro|]. split; [|done]. rewrite flat_app.
    apply Forall_app in Hl1 as [Hp _]. apply Forall_app. split; [done|].
    by eapply chunks_before. }
  apply Z.ltb_lt in Hc'. rewrite Ecs in *. rewrite app_assoc, <- length_app, lookup_middle.
  rewrite app_assoc in Hok.
  assert (Forall (λ r, r.2 <= i) (flat (pre ++ cs1))) as Hpre.
  { rewrite flat_app. apply Forall_app in Hl1 as [Hp _]. apply Forall_app. split; [done|].
    rewrite flat_app in Hs'. apply ranges_ok_app in Hs' as [Hs' _].
    eapply chunks_before; [by apply Forall_app in Hcp as [? _]|done|done]. }
  pose proof (vec_ok_middle _ _ _ Hok) as Hcok.
  destruct (Z.ltb_spec i (c_begin c')) as [Hlt|Hge].
  { exists (Iter (length (pre ++ cs1)) 0), (flat (pre ++ cs1)), (flat (c' :: cs2)).
    split; [done|]. split; [apply cursor_chunk_start; by apply Forall_app in Hok as [_ ?]|].
    split; [done|]. rewrite flat_cons. destruct Hcok as [Hne _ Hbg _ _].
    destruct (data c') as [|r' d'] eqn:Ed; [done|]. simpl. simpl in Hbg.
    rewrite !flat_app, flat_cons, Ed in Hs'. apply ranges_ok_app in Hs' as [_ Hs'].
    simpl in Hs'. lia. }
  case_bool_decide as Hfirst.
  - rewrite length_app in Hfirst. destruct cs1 as [|]; [|simpl in Hfirst; lia].
    injection Ecs as <- <-. rewrite app_nil_r in *. rewrite E, drop_middle.
    destruct (chunk_search pre c post i d1 (r :: d2)) as (Hk & k1 & k2 & Hcur & Hsp); [done..|].
    simpl in *. rewrite E in Hk. rewrite bool_decide_eq_true_2 by done.
    eexists _, k1, k2. by split_and!.
  - destruct (chunk_search (pre ++ cs1) c' cs2 i [] (data c')) as (Hk & k1 & k2 & Hcur & Hsp);
      [done|done|by rewrite app_nil_r|done|].
    simpl in *. rewrite bool_decide_eq_true_2 by done.
    eexists _, k1, k2. by split_and!.
Qed.

Lemma find_cursor v i :
  set_ok v → ∃ it k1 k2, find v i = Some it ∧ cursor v it k1 k2 ∧ split_point i k1 k2.
Proof.
  intros Hok. eapply find_from_cursor; [done|apply cursor_begin; by destruct Hok|done].
Qed.

(** ** [do_add] *)

Lemma set_ok_cursor v it l1 l2 :
  vec_ok v → cursor v it l1 l2 → ranges_ok 0 (l1 ++ l2) → bounded (l1 ++ l2) → set_ok v.
Proof. intros ? H ? ?. constructor; [done| |]; by rewrite (cursor_flat _ _ _ _ H). Qed.

(** What [do_add] promises: the result holds [i], and its iterator points to
    the range of [i]. *)
Definition added v i (res : option (vec * iter)) : Prop :=
  ∃ v' it' k1 r k2, res = Some (v', it') ∧ set_ok v' ∧ cursor v' it' k1 (r :: k2) ∧
    r.1 <= i < r.2 ∧ ∀ j, mem j (flat v') ↔ j = i ∨ mem j (flat v).

Lemma added_intro v i v' it' k1 r k2 l :
  flat v = l → vec_ok v' → cursor v' it' k1 (r :: k2) →
  ranges_ok 0 (k1 ++ r :: k2) → bounded (k1 ++ r :: k2) → r.1 <= i < r.2 →
  (∀ j, mem j (k1 ++ r :: k2) ↔ j = i ∨ mem j l) →
  added v i (Some (v', it')).
Proof.
  intros <- Hok Hc Hs Hb Hr Hm. exists v', it', k1, r, k2.
  split_and!; try done; try lia; [by eapply set_ok_cursor|].
  by rewrite (cursor_flat _ _ _ _ Hc).
Qed.

(** Branch: [i] is immediately before the next range. *)
Lemma add_before v it l1 r l2 i :
  set_ok v → cursor v it l1 (r :: l2) → r.1 = i + 1 → 0 <= i < npos → next_lo 0 l1 <= i →
  added v i ('v1 ← it_adjust v it (-1) 0; Some (v1, it)).
Proof.
  intros Hok Hc Hr Hi Hlo. destruct (cursor_bounded _ _ _ _ Hok Hc) as [Hs Hb].
  destruct (adjust_cursor v it l1 r l2 (-1) 0) as (v' & -> & Hok' & _ & Hc');
    [by destruct Hok|done|]. simpl.
  pieces. wsimp.
  eapply added_intro; [by eapply cursor_flat|done|exact Hc'| | | |].
  - pieces. rewrite Z.add_0_r. intuition lia.
  - pieces. rewrite Z.add_0_r. intuition lia.
  - simpl. lia.
  - members.
Qed.

(** Branch: a new range of one index. *)
Lemma add_new v it l1 l2 i :
  set_ok v → cursor v it l1 l2 → 0 <= i < npos → next_lo 0 l1 <= i →
  match l2 with [] => True | r :: _ => i + 1 < r.1 end →
  added v i (insert v it (i, i ⊕ 1)).
Proof.
  intros Hok Hc Hi Hlo Hr. destruct (cursor_bounded _ _ _ _ Hok Hc) as [Hs Hb]. wsimp.
  destruct (insert_cursor v it l1 l2 (i, i + 1) 0) as (v' & it' & -> & Hok' & Hc');
    [by destruct Hok|done| |].
  { pieces. destruct l2; simpl in *; intuition lia. }
  eapply added_intro; [by eapply cursor_flat|done|exact Hc'| | | |].
  - pieces. destruct l2; simpl in *; intuition lia.
  - pieces. intuition lia.
  - simpl. lia.
  - members.
Qed.

(** Branch: [i] is immediately after the previous range, and not just before
    the next one. *)
Lemma add_after v it l1 rp l2 i :
  set_ok v → cursor v it (l1 ++ [rp]) l2 → rp.2 = i → 0 <= i < npos →
  match l2 with [] => True | r :: _ => i + 1 < r.1 end →
  ∃ p v1, prev v it = Some p ∧ it_adjust v p 0 1 = Some v1 ∧ deref v p = Some rp ∧
    deref v1 p = Some (rp.1, i + 1) ∧ added v i (Some (v1, p)).
Proof.
  intros Hok Hc Hr Hi Hl2. destruct (cursor_bounded _ _ _ _ Hok Hc) as [Hs Hb].
  destruct (cursor_prev v it l1 rp l2) as (p & -> & Hp); [by destruct Hok|done|].
  destruct (adjust_cursor v p l1 rp l2 0 1) as (v' & Ha & Hok' & _ & Hc');
    [by destruct Hok|done|].
  exists p, v'. rewrite Ha, (cursor_deref _ _ _ _ _ Hp). pieces. wsimp.
  rewrite Z.add_0_r, Hr in *. rewrite (cursor_deref _ _ _ _ _ Hc'). split_and!; try done.
  eapply added_intro; [by eapply cursor_flat|done|exact Hc'| | | |].
  - pieces. destruct l2; simpl in *; intuition lia.
  - pieces. intuition lia.
  - simpl. intuition lia.
  - members.
Qed.
(** Branch: [i] joins the previous and the next range. *)
Lemma add_join v it l1 rp r l2 i p v1 :
  set_ok v → cursor v it (l1 ++ [rp]) (r :: l2) → rp.2 = i → r.1 = i + 1 → 0 <= i < npos →
  prev v it = Some p → it_adjust v p 0 1 = Some v1 →
  added v i (v2 ← it_adjust v1 p 0 (r.2 ⊖ r.1);
             '(v3, it3) ← erase v2 it; p3 ← prev v3 it3; Some (v3, p3)).
Proof.
  intros Hok Hc Hrp Hr Hi Hp Ha. destruct (cursor_bounded _ _ _ _ Hok Hc) as [Hs Hb].
  pose proof (so_vec _ Hok) as Hv.
  destruct (cursor_prev v it l1 rp (r :: l2) Hv Hc) as (p' & Hp' & Hcp).
  rewrite Hp in Hp'. injection Hp' as <-.
  destruct (adjust_cursor v p l1 rp (r :: l2) 0 1 Hv Hcp) as (w1 & Hw1 & Hok1 & Hsh1 & Hc1).
  rewrite Ha in Hw1. injection Hw1 as <-.
  destruct (adjust_cursor v1 p l1 _ (r :: l2) 0 (r.2 ⊖ r.1) Hok1 Hc1)
    as (v2 & -> & Hok2 & Hsh2 & Hc2). simpl in *.
  assert (cursor v2 it (l1 ++ [(rp.1, r.2)]) (r :: l2)) as Hc2'.
  { eapply (cursor_shape v v2); [by rewrite Hsh2, Hsh1|exact Hc| |by rewrite !length_app].
    rewrite (cursor_flat _ _ _ _ Hc2), <- app_assoc. pieces. wsimp.
    rewrite !Z.add_0_r. simpl. do 3 f_equal. lia. }
  destruct (erase_cursor v2 it _ _ _ Hok2 Hc2') as (v3 & it3 & -> & Hok3 & Hc3). simpl.
  destruct (cursor_prev v3 it3 l1 _ l2 Hok3 Hc3) as (p3 & -> & Hc3'). simpl.
  pieces. eapply added_intro; [by eapply cursor_flat|done|exact Hc3'| | | |].
  - pieces. intuition lia.
  - pieces. intuition lia.
  - simpl. lia.
  - members.
Qed.

(** Branch: [i] is already a member. *)
Lemma add_present v it l1 r l2 i :
  set_ok v → cursor v it l1 (r :: l2) → r.1 <= i < r.2 → added v i (Some (v, it)).
Proof.
  intros Hok Hc Hi. destruct (cursor_bounded _ _ _ _ Hok Hc) as [Hs Hb].
  apply (added_intro v i v it l1 r l2 (l1 ++ r :: l2)); try done.
  - by eapply cursor_flat.
  - by destruct Hok.
  - members.
Qed.

Lemma do_add_first v it l2 i :
  set_ok v → cursor v it [] l2 → split_point i [] l2 → 0 <= i < npos →
  added v i (do_add v it i).
Proof.
  intros Hok Hc [_ Hs2] Hi. unfold do_add.
  rewrite (cursor_begin_iff _ _ _ _ (so_vec _ Hok) Hc), (at_end_cursor _ _ _ _ Hc).
  destruct l2 as [|r l2]; simpl in *; [apply (add_new v it [] []); simpl; done || lia|].
  rewrite (cursor_deref _ _ _ _ _ Hc). simpl.
  destruct (r.1 <=? i) eqn:E1; simpl.
  { rewrite (proj2 (Z.ltb_lt _ _)) by lia. apply (add_present v it [] r l2); [done|done|lia]. }
  rewrite wadd_small by lia. destruct (r.1 =? i + 1) eqn:E2.
  - apply (add_before v it [] r l2); simpl; done || lia.
  - rewrite <- (wadd_small i 1) by lia. apply (add_new v it [] (r :: l2)); try done; simpl; lia.
Qed.

(** Branch: there is a range before, which ends at [i]. *)
Lemma do_add_touching v it l rp l2 i :
  set_ok v → cursor v it (l ++ [rp]) l2 → rp.2 = i → 0 <= i < npos →
  match l2 with [] => True | r :: _ => i < r.1 end →
  ∃ p, prev v it = Some p ∧ deref v p = Some rp ∧
    added v i (v1 ← it_adjust v p 0 1; rp1 ← deref v1 p;
      match head l2 with
      | Some r => if rp1.2 =? r.1 then
                    v2 ← it_adjust v1 p 0 (r.2 ⊖ r.1);
                    '(v3, it3) ← erase v2 it; p3 ← prev v3 it3; Some (v3, p3)
                  else Some (v1, p)
      | None => Some (v1, p)
      end).
Proof.
  intros Hok Hc Hrp Hi Hl2. pose proof (so_vec _ Hok) as Hv.
  assert (match l2 with [] => True | r :: _ => i + 1 < r.1 end ∨
          match l2 with [] => False | r :: _ => r.1 = i + 1 end) as [Hfar|Hnear]
    by (destruct l2; [by left|lia]).
  - destruct (add_after v it l rp l2 i) as (p & v1 & Hp & Ha & Hd & Hd1 & Hadd); try done.
    exists p. rewrite Ha. simpl. rewrite Hd1. simpl. split_and!; try done.
    destruct l2 as [|r l2]; simpl; [done|]. by rewrite (proj2 (Z.eqb_neq _ _)) by lia.
  - destruct l2 as [|r l2]; [done|].
    destruct (cursor_prev v it l rp (r :: l2) Hv Hc) as (p & Hp & Hcp).
    destruct (adjust_cursor v p l rp (r :: l2) 0 1 Hv Hcp) as (v1 & Ha & _ & _ & Hc1).
    exists p. rewrite Ha, (cursor_deref _ _ _ _ _ Hcp). simpl.
    rewrite (cursor_deref _ _ _ _ _ Hc1). simpl.
    rewrite (wadd_small rp.2 1), (proj2 (Z.eqb_eq _ _)) by lia.
    split_and!; try done. eapply (add_join v it l rp r l2); try done; lia.
Qed.

(** [do_add] at the split point of [i] adds [i] and points to its range. *)
Lemma do_add_cursor v it l1 l2 i :
  set_ok v → cursor v it l1 l2 → split_point i l1 l2 → 0 <= i < npos →
  added v i (do_add v it i).
Proof.
  intros Hok Hc [Hs1 Hs2] Hi. destruct (snoc_cases l1) as [->|(l & rp & ->)].
  { by eapply do_add_first. }
  pose proof (so_vec _ Hok) as Hv.
  destruct (cursor_prev v it l rp l2 Hv Hc) as (p & Hp & Hcp).
  apply Forall_app in Hs1 as [Hs1 Hrp]. inversion Hrp; subst.
  assert (next_lo 0 (l ++ [rp]) = rp.2 + 1) as Hn by apply next_lo_snoc.
  unfold do_add. rewrite (cursor_begin_iff _ _ _ _ Hv Hc), (at_end_cursor _ _ _ _ Hc).
  replace (match l ++ [rp] with [] => true | _ => false end) with false by (by destruct l).
  simpl. rewrite Hp. simpl. rewrite (cursor_deref _ _ _ _ _ Hcp). simpl.
  assert (match l2 with [] => True | r :: _ => i < r.1 end → rp.2 = i → added v i (v1 ← it_adjust v p 0 1; rp1 ← deref v1 p;
      match head l2 with
      | Some r => if rp1.2 =? r.1 then
                    v2 ← it_adjust v1 p 0 (r.2 ⊖ r.1);
                    '(v3, it3) ← erase v2 it; p3 ← prev v3 it3; Some (v3, p3)
                  else Some (v1, p)
      | None => Some (v1, p)
      end)) as Htouch.
  { intros. destruct (do_add_touching v it l rp l2 i) as (p' & Hp' & _ & Hadd); try done.
    rewrite Hp in Hp'. by injection Hp' as <-. }
  destruct l2 as [|r l2]; simpl in *.
  { rewrite (proj2 (Z.leb_le _ _)) by done. simpl. destruct (rp.2 =? i) eqn:E.
    - apply Htouch; [done|lia].
    - apply (add_new v it (l ++ [rp]) []); try done; lia. }
  rewrite (cursor_deref _ _ _ _ _ Hc). simpl. rewrite (proj2 (Z.leb_le rp.2 i)) by done. simpl.
  destruct (r.1 <=? i) eqn:E1; simpl.
  { rewrite (proj2 (Z.ltb_lt _ _)) by lia. apply (add_present v it (l ++ [rp]) r l2); [done|done|lia]. }
  destruct (rp.2 =? i) eqn:E; [apply Htouch; lia|].
  rewrite wadd_small by lia. destruct (r.1 =? i + 1) eqn:E2.
  - apply (add_before v it (l ++ [rp]) r l2); try done; lia.
  - rewrite <- (wadd_small i 1) by lia. apply (add_new v it (l ++ [rp]) (r :: l2)); try done; simpl; lia.
Qed.

Lemma add_spec v P i :
  denotes v P → 0 <= i < npos → ∃ v', add v i = Some v' ∧ denotes v' (λ j, j = i ∨ P j).
Proof.
  intros [Hok HP] Hi. destruct (find_cursor v i Hok) as (it & k1 & k2 & Hf & Hc & Hs).
  destruct (do_add_cursor v it k1 k2 i) as (v' & it' & r1 & r & r2 & Ha & Hok' & _ & _ & Hm); [done..|].
  exists v'. unfold add. rewrite Hf. simpl. rewrite Ha. split; [done|]. split; [done|].
  intros j. by rewrite Hm, HP.
Qed.

Lemma contains_spec v i : set_ok v → contains v i = Some (memb i (flat v)).
Proof.
  intros Hok. destruct (find_cursor v i Hok) as (it & k1 & k2 & Hf & Hc & Hs).
  destruct (cursor_bounded _ _ _ _ Hok Hc) as [Hs' _].
  unfold contains. rewrite Hf. simpl. rewrite (on_cursor _ _ _ _ _ Hc). f_equal.
  rewrite (cursor_flat _ _ _ _ Hc). apply eq_true_iff_eq.
  rewrite memb_mem, (split_mem _ _ _ _ Hs Hs'). destruct k2; [done|]. by rewrite Z.leb_le.
Qed.

(** ** The loop that shifts the rest of the ranges *)

(** The ranges of [l] stay inside [size_t] when they move by [d]. *)
Definition shiftable (d : Z) (l : list range) : Prop :=
  Forall (λ r, 0 <= r.1 + d < W64 ∧ 0 <= r.2 + d < W64) l.

Lemma shift_from_loop n v it l1 l2 d :
  vec_ok v → cursor v it l1 l2 → shiftable d l2 → (length l2 < n)%nat →
  ∃ v' it', loop n (λ '(v, it), Some (negb (at_end v it)))
      (λ '(v, it), v1 ← it_shift v it d; it' ← next v1 it; Some (v1, it')) (v, it) = Some (v', it') ∧
    vec_ok v' ∧ shape v' = shape v ∧ cursor v' it l1 (shl d l2).
Proof.
  revert v it l1 l2. induction n as [|n IH]; intros v it l1 l2 Hok Hc Hb Hn; [lia|].
  simpl. rewrite (at_end_cursor _ _ _ _ Hc). destruct l2 as [|r l2]; simpl; [by eauto 10|].
  inversion Hb as [|? ? Hr Hb']; subst.
  destruct (shift_cursor v it l1 r l2 d) as (v1 & -> & Hok1 & Hsh1 & Hc1); [done|done|]. simpl.
  destruct (cursor_next v1 it _ _ _ Hok1 Hc1) as (it1 & -> & Hc1'). simpl. wsimp.
  destruct (IH v1 it1 _ l2 Hok1 Hc1' Hb') as (v' & it' & -> & Hok' & Hsh' & Hc'); [simpl in Hn; lia|].
  exists v', it'. split_and!; try done; [by rewrite Hsh', Hsh1|].
  eapply (cursor_shape v v' it l1 (r :: l2)); [by rewrite Hsh', Hsh1|done| |done].
  rewrite (cursor_flat _ _ _ _ Hc'). by rewrite <- app_assoc.
Qed.

Lemma shift_from_cursor v it l1 l2 d :
  vec_ok v → cursor v it l1 l2 → shiftable d l2 →
  ∃ v', shift_from v it d = Some v' ∧ vec_ok v' ∧ shape v' = shape v ∧ cursor v' it l1 (shl d l2).
Proof.
  intros Hok Hc Hb. unfold shift_from.
  destruct (shift_from_loop (fuel v) v it l1 l2 d) as (v' & it' & -> & H); [done..| |by eauto].
  unfold fuel. rewrite (cursor_flat _ _ _ _ Hc), length_app. lia.
Qed.

(** A bound on the members bounds the ranges. *)
Lemma shiftable_mem lo d l :
  ranges_ok lo l → 0 <= lo + d → (∀ j, mem j l → j + d < npos) → shiftable d l.
Proof.
  revert lo. induction l as [|r l IH]; intros lo; simpl; [by constructor|].
  intros (? & ? & H) Hd Hm. constructor.
  - specialize (Hm (r.2 - 1)). rewrite mem_cons in Hm. lia.
  - apply (IH (r.2 + 1)); [done|lia|]. intros j Hj. apply Hm. rewrite mem_cons. by right.
Qed.
End basics.
