(* ===== verification/IndexSetEdits.v ===== *)
(** * Correctness of [IndexSet]: insertion and shifting

    [insert_at] adds indices and moves the later members up,
    [shift_for_insert_at] moves them up and leaves a gap. *)

From S2P Require Import Prelude RangeSet RangeVector IndexSetOps IndexSetSpec.

Import IndexSet.

Section insertion.
Context {B : BuildConfig}.
Implicit Types (v : vec) (it : iter) (l : list range) (r : range).

Lemma shl_next_lo d lo l : next_lo (lo + d) (shl d l) = next_lo lo l + d.
Proof.
  revert lo. induction l as [|r l IH]; intros lo; simpl; [done|].
  rewrite <- IH. f_equal. lia.
Qed.

Lemma bounded_shl d l : shiftable d l → bounded (shl d l).
Proof.
  induction 1 as [|r l Hr H IH]; simpl; [constructor|]. apply bounded_cons. simpl. split; [lia|exact IH].
Qed.

(** The members of a list of ranges after a split point are at [i] or later,
    up to the part of the first range below [i]. *)
Lemma mem_after i lo r l2 j :
  ranges_ok lo (r :: l2) → i < r.2 → mem j (r :: l2) → j < i → r.1 <= j < r.2.
Proof.
  intros (? & ? & H) Hr M Hj. apply mem_cons in M as [M|M]; [done|].
  apply (mem_ge _ _ _ H) in M. lia.
Qed.

(** ** [insert_at] *)

(** The loop that adds the new indices: [pos] stays at the next index to add. *)
Definition filled v0 i n (k : nat) (s : vec * iter) : Prop :=
  let '(v, it) := s in
  ∃ l1 l2, set_ok v ∧ cursor v it l1 l2 ∧
    ((k < n)%nat → split_point (i + Z.of_nat k) l1 l2) ∧
    ∀ j, mem j (flat v) ↔ i <= j < i + Z.of_nat k ∨ mem j (flat v0).

Lemma fill_gap v it l1 l2 i n :
  set_ok v → cursor v it l1 l2 → split_point i l1 l2 → 0 <= i → i + Z.of_nat n < npos →
  (∀ j, mem j (flat v) → i <= j → i + Z.of_nat n <= j) →
  ∃ v' it', iter_n n (λ i' '(v, pos), '(v', it) ← do_add v pos (i ⊕ Z.of_nat i');
                    pos' ← next v' it; Some (v', pos')) 0%nat (v, it) = Some (v', it') ∧
    set_ok v' ∧ ∀ j, mem j (flat v') ↔ i <= j < i + Z.of_nat n ∨ mem j (flat v).
Proof.
  intros Hok Hc Hs Hi Hn Hgap.
  destruct (iter_n_rule (filled v i n) (λ i' '(v, pos), '(v', it) ← do_add v pos (i ⊕ Z.of_nat i');
                    pos' ← next v' it; Some (v', pos')) n 0%nat (v, it))
    as ([v' it'] & -> & k1 & k2 & Hok' & _ & _ & Hm).
  - exists l1, l2. rewrite Z.add_0_r. split_and!; [done|done|done|]. intros j. intuition lia.
  - intros k [w p] Hk (k1 & k2 & Hokw & Hcw & Hsw & Hmw). wsimp.
    destruct (do_add_cursor w p k1 k2 (i + Z.of_nat k)) as (w' & p' & r1 & r & r2 & -> & Hok' & Hc' & Hr & Hm);
      [done|done|apply Hsw; lia|lia|]. simpl.
    destruct (cursor_next w' p' r1 r r2 (so_vec _ Hok') Hc') as (p'' & -> & Hc'').
    destruct (cursor_bounded _ _ _ _ Hok' Hc') as [Hs' _].
    simpl. eexists. split; [done|]. exists (r1 ++ [r]), r2. split_and!; [done|done| |].
    + intros HSk. pose proof Hs' as Hs''. apply ranges_ok_app in Hs'' as [Ho1 Ho2]. simpl in Ho2.
      assert (r.2 <= i + Z.of_nat (S k)).
      { destruct (Z.le_gt_cases r.2 (i + Z.of_nat (S k))) as [|C]; [done|]. exfalso.
        assert (mem (i + Z.of_nat (S k)) (flat w')) as M.
        { rewrite (cursor_flat _ _ _ _ Hc'), mem_app, mem_cons. lia. }
        apply Hm in M as [M|M]; [lia|]. apply Hmw in M as [M|M]; [lia|].
        apply Hgap in M; lia. }
      split.
      * apply Forall_app. split; [|by constructor].
        pose proof (ranges_ok_Forall_hi _ _ Ho1) as Hhi. eapply Forall_impl; [exact Hhi|]. simpl. lia.
      * destruct r2 as [|r' r2]; [done|]. simpl in Ho2. lia.
    + intros j. rewrite Hm, Hmw. replace (Z.of_nat (S k)) with (Z.of_nat k + 1) by lia.
      intuition lia.
  - exists v', it'. done.
Qed.

(** The members of a set after [insert_at]. *)
Definition inserted (P : Z → Prop) i n j : Prop :=
  (j < i ∧ P j) ∨ i <= j < i + n ∨ (i + n <= j ∧ P (j - n)).

(** The end position: everything is below [i]. *)
Lemma split_end_lt v it l1 i j :
  cursor v it l1 [] → split_point i l1 [] → mem j (flat v) → j < i.
Proof.
  intros Hc [Hs _]. rewrite (cursor_flat _ _ _ _ Hc), app_nil_r. by apply mem_lt_split.
Qed.

(** Both branches before the new indices are added: the ranges from [it] on
    move up, or the range that holds [i] grows. *)
Lemma insert_at_grow v it l1 r l2 i n :
  set_ok v → cursor v it l1 (r :: l2) → split_point i l1 (r :: l2) → r.1 <= i → 0 < n →
  shiftable n (r :: l2) →
  ∃ v1 nx v2, it_adjust v it 0 n = Some v1 ∧ next v1 it = Some nx ∧ shift_from v1 nx n = Some v2 ∧
    denotes v2 (inserted (λ j, mem j (flat v)) i n).
Proof.
  intros Hok Hc [Hs1 Hs2] Hr Hn Hsh. pose proof (so_vec _ Hok) as Hv.
  destruct (cursor_bounded _ _ _ _ Hok Hc) as [Hs Hb]. inversion Hsh as [|? ? Hshr Hshl]; subst.
  destruct (adjust_cursor v it l1 r l2 0 n Hv Hc) as (v1 & Ha & Hok1 & _ & Hc1).
  destruct (cursor_next v1 it _ _ _ Hok1 Hc1) as (nx & Hnx & Hc1').
  destruct (shift_from_cursor v1 nx _ l2 n Hok1 Hc1' Hshl) as (v2 & Hv2 & Hok2 & _ & Hc2).
  exists v1, nx, v2. split_and!; [done..|]. pieces. wsimp. rewrite Z.add_0_r in *.
  pose proof (cursor_flat _ _ _ _ Hc2) as Hf.
  assert (ranges_ok (r.2 + n + 1) (shl n l2)) as Hs'.
  { replace (r.2 + n + 1) with (r.2 + 1 + n) by lia. by apply ranges_ok_shl. }
  split.
  - eapply set_ok_cursor; [done|exact Hc2| |]; pieces; [intuition lia|].
    split_and!; try done; by apply bounded_shl.
  - intros j. rewrite Hf, (cursor_flat _ _ _ _ Hc), <- app_assoc.
    unfold inserted. simpl. rewrite !mem_app, !mem_cons, ?mem_app, ?mem_cons, mem_shl. simpl.
    pose proof (mem_lt 0 j l1) as M1. pose proof (mem_lt 0 (j - n) l1) as M2.
    pose proof (mem_ge (r.2 + 1) j l2) as M3. pose proof (mem_ge (r.2 + 1) (j - n) l2) as M4.
    intuition lia.
Qed.

Lemma insert_at_move v v1 it l1 l2 i n :
  set_ok v → cursor v it l1 l2 → split_point i l1 l2 →
  match l2 with [] => True | r :: _ => i <= r.1 end → 0 <= i → 0 < n → shiftable n l2 →
  vec_ok v1 → cursor v1 it l1 (shl n l2) →
  set_ok v1 ∧ split_point i l1 (shl n l2) ∧
    ∀ j, mem j (flat v1) ↔ (j < i ∧ mem j (flat v)) ∨ (i + n <= j ∧ mem (j - n) (flat v)).
Proof.
  intros Hok Hc Hsp Hr Hi Hn Hsh Hok1 Hc1.
  destruct (cursor_bounded _ _ _ _ Hok Hc) as [Hs Hb].
  pose proof Hs as [Ho1 Ho2]%ranges_ok_app.
  pose proof (split_point_lo _ 0 _ _ Hsp Ho1 ltac:(lia)) as Hlo.
  assert (ranges_ok i l2) as Ho2' by (destruct l2 as [|r l2]; [done|]; simpl in *; intuition lia).
  assert (ranges_ok (i + n) (shl n l2)) as Hs2 by by apply ranges_ok_shl.
  split_and!.
  - eapply set_ok_cursor; [done|exact Hc1| |]; pieces.
    + split; [done|]. eapply ranges_ok_weaken; [|done]. lia.
    + split; [tauto|by apply bounded_shl].
  - split; [by destruct Hsp|]. destruct l2 as [|r l2]; simpl in *; [done|lia].
  - intros j. rewrite (cursor_flat _ _ _ _ Hc1), (cursor_flat _ _ _ _ Hc).
    rewrite !mem_app, mem_shl.
    pose proof (mem_lt 0 j l1 Ho1). pose proof (mem_lt 0 (j - n) l1 Ho1).
    pose proof (mem_ge i j l2 Ho2'). pose proof (mem_ge i (j - n) l2 Ho2').
    intuition lia.
Qed.

(** The loop [for (auto it = pos; it != end(); ++it) it.shift(d)], with its first
    iteration apart. *)
Lemma shift_first_cursor v it l1 r l2 d :
  vec_ok v → cursor v it l1 (r :: l2) → shiftable d (r :: l2) →
  ∃ v1 nx v2, it_shift v it d = Some v1 ∧ next v1 it = Some nx ∧ shift_from v1 nx d = Some v2 ∧
    vec_ok v2 ∧ cursor v2 it l1 (shl d (r :: l2)).
Proof.
  intros Hok Hc Hsh. inversion Hsh as [|? ? Hr Hl]; subst.
  destruct (shift_cursor v it l1 r l2 d Hok Hc) as (v1 & Hv1 & Hok1 & Hsh1 & Hc1).
  destruct (cursor_next v1 it _ _ _ Hok1 Hc1) as (nx & Hnx & Hc1').
  destruct (shift_from_cursor v1 nx _ l2 d Hok1 Hc1' Hl) as (v2 & Hv2 & Hok2 & Hsh2 & Hc2).
  exists v1, nx, v2. split_and!; try done. wsimp.
  eapply (cursor_shape v v2 it); [by rewrite Hsh2, Hsh1|exact Hc| |done].
  rewrite (cursor_flat _ _ _ _ Hc2), <- app_assoc. simpl. by wsimp.
Qed.

Lemma shiftable_split v it l1 l2 i n :
  set_ok v → cursor v it l1 l2 → split_point i l1 l2 → 0 <= i → 0 < n →
  (∀ j, mem j (flat v) → i <= j → j + n < npos) → shiftable n l2.
Proof.
  intros Hok Hc Hsp Hi Hn Hfit. destruct (cursor_bounded _ _ _ _ Hok Hc) as [Hs Hb].
  apply ranges_ok_app in Hs as [Ho1 Ho2]. setoid_rewrite (cursor_flat _ _ _ _ Hc) in Hfit.
  pose proof (ranges_ok_next_lo _ _ Ho1).
  destruct l2 as [|r l2]; [by constructor|]. destruct Hsp as [_ Hr]. simpl in Ho2.
  constructor.
  - specialize (Hfit (r.2 - 1)). rewrite mem_app, mem_cons in Hfit. lia.
  - apply (shiftable_mem (r.2 + 1)); [tauto|lia|]. intros j Hj. apply Hfit.
    + rewrite mem_app, mem_cons. tauto.
    + pose proof (mem_ge (r.2 + 1) j l2). intuition lia.
Qed.

Lemma insert_at_spec v P i n :
  denotes v P → 0 <= i → 0 < n → i + n < npos → (∀ j, P j → i <= j → j + n < npos) →
  ∃ v', insert_at v i n = Some v' ∧ denotes v' (inserted P i n).
Proof.
  intros [Hok HP] Hi Hn Hin Hfit. setoid_rewrite <- HP in Hfit.
  cut (∃ v', insert_at v i n = Some v' ∧ denotes v' (inserted (λ j, mem j (flat v)) i n)).
  { intros (v' & Hv' & Hok' & Hm). exists v'. split; [done|]. split; [done|].
    intros j. rewrite Hm. unfold inserted. by rewrite !HP. }
  unfold insert_at. rewrite (proj2 (Z.ltb_lt 0 n)) by done.
  destruct (find_cursor v i Hok) as (it & l1 & l2 & -> & Hc & Hs). simpl.
  pose proof (shiftable_split v it l1 l2 i n) as Hsh. specialize (Hsh Hok Hc Hs Hi Hn Hfit).
  rewrite (at_end_cursor _ _ _ _ Hc).
  assert (∀ v1, set_ok v1 → cursor v1 it l1 (shl n l2) → split_point i l1 (shl n l2) →
    (∀ j, mem j (flat v1) ↔ (j < i ∧ mem j (flat v)) ∨ (i + n <= j ∧ mem (j - n) (flat v))) →
    ∃ v', ('(v', _) ← iter_n (Z.to_nat n)
      (λ k '(v, pos), '(v', it) ← do_add v pos (i ⊕ Z.of_nat k); pos' ← next v' it; Some (v', pos'))
      0%nat (v1, it); Some v') = Some v' ∧ denotes v' (inserted (λ j, mem j (flat v)) i n)) as Hfill.
  { intros v1 Hok1 Hc1 Hs1 Hm1.
    destruct (fill_gap v1 it l1 (shl n l2) i (Z.to_nat n)) as (v' & it' & -> & Hok' & Hm'); try done; [lia| |].
    - intros j. rewrite Hm1. lia.
    - exists v'. split; [done|]. split; [done|]. intros j. rewrite Hm', Hm1. unfold inserted.
      rewrite Z2Nat.id by lia. tauto. }
  destruct l2 as [|r l2]; simpl.
  { apply Hfill; try done. intros j. pose proof (split_end_lt v it l1 i j Hc Hs).
    pose proof (split_end_lt v it l1 i (j - n) Hc Hs). intuition lia. }
  rewrite (cursor_deref _ _ _ _ _ Hc). simpl. destruct (Z.leb_spec r.1 i) as [Hr|Hr].
  - destruct (insert_at_grow v it l1 r l2 i n) as (v1 & nx & v2 & -> & Hnx & Hv2 & H); try done.
    simpl. rewrite Hnx. simpl. rewrite Hv2. simpl. by exists v2.
  - destruct (shift_first_cursor v it l1 r l2 n) as (v1 & nx & v2 & -> & Hnx & Hv2 & Hok2 & Hc2);
      [by destruct Hok|done|done|].
    simpl. rewrite Hnx. simpl. rewrite Hv2. simpl.
    destruct (insert_at_move v v2 it l1 (r :: l2) i n) as (H1 & H2 & H3); try done; [lia|].
    by apply Hfill.
Qed.

(** ** [shift_for_insert_at] *)

(** The members of a set after [shift_for_insert_at]. *)
Definition shifted (P : Z → Prop) i n j : Prop := (j < i ∧ P j) ∨ (i + n <= j ∧ P (j - n)).

(** The range that holds [i] is moved up and then split. *)
Lemma shift_for_insert_at_split v it l1 r l2 i n :
  set_ok v → cursor v it l1 (r :: l2) → split_point i l1 (r :: l2) → r.1 < i → 0 < n →
  shiftable n (r :: l2) →
  ∀ v1, vec_ok v1 → cursor v1 it l1 (shl n (r :: l2)) →
  ∃ v2 nx v3 it3, it_set v1 it r.1 i = Some v2 ∧ next v2 it = Some nx ∧
    insert v2 nx (i + n, r.2 + n) = Some (v3, it3) ∧
    denotes v3 (shifted (λ j, mem j (flat v)) i n).
Proof.
  intros Hok Hc [Hs1 Hs2] Hr Hn Hsh v1 Hok1 Hc1. destruct (cursor_bounded _ _ _ _ Hok Hc) as [Hs Hb].
  inversion Hsh as [|? ? Hshr Hshl]; subst. simpl in Hc1.
  destruct (set_cursor v1 it l1 _ _ r.1 i Hok1 Hc1) as (v2 & Hv2 & Hok2 & _ & Hc2).
  destruct (cursor_next v2 it _ _ _ Hok2 Hc2) as (nx & Hnx & Hc2').
  pieces. fold (shl n l2) in *.
  assert (ranges_ok (r.2 + n + 1) (shl n l2)) as Hs'.
  { replace (r.2 + n + 1) with (r.2 + 1 + n) by lia. by apply ranges_ok_shl. }
  destruct (insert_cursor v2 nx _ _ (i + n, r.2 + n) 0 Hok2 Hc2') as (v3 & it3 & Hv3 & Hok3 & Hc3).
  { pieces. intuition lia. }
  exists v2, nx, v3, it3. split_and!; try done.
  - eapply set_ok_cursor; [done|exact Hc3| |]; pieces; [intuition lia|].
    split_and!; try done; [lia|by apply bounded_shl].
  - intros j. rewrite (cursor_flat _ _ _ _ Hc3), (cursor_flat _ _ _ _ Hc), <- app_assoc.
    unfold shifted. simpl. rewrite !mem_app, !mem_cons, ?mem_app, ?mem_cons, mem_shl. simpl.
    pose proof (mem_lt 0 j l1) as M1. pose proof (mem_lt 0 (j - n) l1) as M2.
    pose proof (mem_ge (r.2 + 1) j l2) as M3. pose proof (mem_ge (r.2 + 1) (j - n) l2) as M4.
    intuition lia.
Qed.

Lemma shift_for_insert_at_spec v P i n :
  denotes v P → 0 <= i → 0 < n → i + n < npos → (∀ j, P j → i <= j → j + n < npos) →
  ∃ v', shift_for_insert_at v i n = Some v' ∧ denotes v' (shifted P i n).
Proof.
  intros [Hok HP] Hi Hn Hin Hfit. setoid_rewrite <- HP in Hfit.
  cut (∃ v', shift_for_insert_at v i n = Some v' ∧ denotes v' (shifted (λ j, mem j (flat v)) i n)).
  { intros (v' & Hv' & Hok' & Hm). exists v'. split; [done|]. split; [done|].
    intros j. rewrite Hm. unfold shifted. by rewrite !HP. }
  unfold shift_for_insert_at. rewrite (proj2 (Z.ltb_lt 0 n)) by done.
  destruct (find_cursor v i Hok) as (it & l1 & l2 & -> & Hc & Hs). simpl.
  pose proof (shiftable_split v it l1 l2 i n Hok Hc Hs Hi Hn Hfit) as Hsh.
  rewrite (at_end_cursor _ _ _ _ Hc). destruct l2 as [|r l2]; simpl.
  { exists v. split; [done|]. split; [done|]. intros j. unfold shifted.
    pose proof (split_end_lt v it l1 i j Hc Hs).
    pose proof (split_end_lt v it l1 i (j - n) Hc Hs). intuition lia. }
  destruct (shift_from_cursor v it l1 (r :: l2) n (so_vec _ Hok) Hc Hsh)
    as (v1 & -> & Hok1 & _ & Hc1). simpl.
  rewrite (cursor_deref _ _ _ _ _ Hc1). simpl. wsimp.
  destruct (Z.ltb_spec (r.1 + n) (i + n)) as [Hr|Hr].
  - destruct (shift_for_insert_at_split v it l1 r l2 i n Hok Hc Hs) with (v1 := v1)
      as (v2 & nx & v3 & it3 & Hv2 & Hnx & Hv3 & H); try done; [lia|].
    assert (0 <= r.1 < W64) by (destruct (cursor_bounded _ _ _ _ Hok Hc) as [? ?]; inversion Hsh; pieces; lia).
    replace (r.1 + n ⊖ n) with r.1 by (wsimp; lia). rewrite Hv2. simpl. rewrite Hnx. simpl. rewrite Hv3. by exists v3.
  - destruct (insert_at_move v v1 it l1 (r :: l2) i n) as (H1 & _ & H3); try done; [lia|].
    by exists v1.
Qed.
End insertion.

(** * Correctness of [IndexSet]: erasing and removing

    [erase_at] and [erase_or_unshift] take an index out and move the later
    members down; [remove] takes indices out and moves nothing. *)

Import IndexSet.

Section erasing.
Context {B : BuildConfig}.
Implicit Types (v : vec) (it : iter) (l : list range) (r : range).

(** The members of a set after [erase_at]. *)
Definition erased (P : Z → Prop) i j : Prop := (j < i ∧ P j) ∨ (i <= j ∧ P (j + 1)).

(** Moving the ranges after a gap down. *)
Lemma shift_down v it l1 l2 :
  vec_ok v → cursor v it l1 l2 → ranges_ok 0 l1 → bounded (l1 ++ l2) →
  ranges_ok (next_lo 0 l1 + 1) l2 →
  ∃ v', shift_from v it (-1) = Some v' ∧ set_ok v' ∧ flat v' = l1 ++ shl (-1) l2.
Proof.
  intros Hok Hc H1 Hb H2. apply bounded_app in Hb as [Hb1 Hb2].
  pose proof (ranges_ok_next_lo _ _ H1) as Hlo.
  assert (shiftable (-1) l2) as Hsh.
  { apply ranges_ok_Forall_lo in H2. unfold shiftable, bounded in *.
    rewrite !Forall_forall in *. intros r Hr. specialize (H2 r Hr). specialize (Hb2 r Hr). lia. }
  destruct (shift_from_cursor v it l1 l2 (-1) Hok Hc Hsh) as (v' & Hv' & Hok' & _ & Hc').
  exists v'. split; [done|]. split; [|by eapply cursor_flat].
  eapply set_ok_cursor; [done|exact Hc'| |].
  - apply ranges_ok_app. split; [done|].
    replace (next_lo 0 l1) with (next_lo 0 l1 + 1 + -1) by lia. by apply ranges_ok_shl.
  - apply bounded_app. split; [done|]. clear -Hsh. induction Hsh; [done|]. 
    apply bounded_cons. simpl. split; [lia|done].
Qed.

(** Show that the ranges [k] are those of [l1 ++ r :: l2] with [i] erased. *)
Ltac erased_members j l1 l2 r :=
  unfold erased; rewrite !mem_app, ?mem_cons, ?mem_app, ?mem_cons, ?mem_nil, ?mem_shl, ?mem_cons; simpl;
  replace (j - -1) with (j + 1) by lia;
  pose proof (mem_lt 0 j l1); pose proof (mem_lt 0 (j + 1) l1);
  pose proof (mem_ge (r.2 + 1) j l2); pose proof (mem_ge (r.2 + 1) (j + 1) l2).

(** Branch: the range of [it] holds [i]. *)
Lemma do_erase_in v it l1 r l2 i :
  set_ok v → cursor v it l1 (r :: l2) → r.1 <= i < r.2 →
  ∃ v', do_erase v it i = Some v' ∧ denotes v' (erased (λ j, mem j (flat v)) i).
Proof.
  intros Hok Hc Hr. destruct (cursor_bounded _ _ _ _ Hok Hc) as [Hs Hb].
  pose proof (so_vec _ Hok) as Hv. pieces.
  unfold do_erase. rewrite (cursor_deref _ _ _ _ _ Hc). simpl.
  rewrite (proj2 (Z.leb_le r.1 i)) by lia. wsimp. destruct (Z.eqb_spec (r.1 + 1) r.2) as [E|E].
  - destruct (erase_cursor v it l1 r l2 Hv Hc) as (v1 & it1 & -> & Hok1 & Hc1). simpl.
    destruct (shift_down v1 it1 l1 l2 Hok1 Hc1) as (v2 & -> & Hok2 & Hf); [done|by apply bounded_app| |].
    { eapply ranges_ok_weaken; [|done]. lia. }
    exists v2. split; [done|]. split; [done|]. intros j. rewrite Hf, (cursor_flat _ _ _ _ Hc).
    erased_members j l1 l2 r. intuition lia.
  - destruct (adjust_cursor v it l1 r l2 0 (-1) Hv Hc) as (v1 & -> & Hok1 & _ & Hc1). simpl.
    destruct (cursor_next v1 it _ _ _ Hok1 Hc1) as (it1 & -> & Hc1'). simpl.
    wsimp. rewrite Z.add_0_r in *.
    destruct (shift_down v1 it1 _ l2 Hok1 Hc1') as (v2 & -> & Hok2 & Hf).
    { pieces. intuition lia. }
    { pieces. split_and!; done || lia. }
    { rewrite next_lo_snoc. eapply ranges_ok_weaken; [|done]. simpl. lia. }
    exists v2. split; [done|]. split; [done|]. intros j. rewrite Hf, (cursor_flat _ _ _ _ Hc), <- app_assoc.
    simpl. erased_members j l1 l2 r. intuition lia.
Qed.

(** Branch: [i] is in the gap before the range of [it]. *)
Lemma do_erase_gap v it l1 r l2 i :
  set_ok v → cursor v it l1 (r :: l2) → split_point i l1 (r :: l2) → 0 <= i < r.1 →
  ∃ v', do_erase v it i = Some v' ∧ denotes v' (erased (λ j, mem j (flat v)) i).
Proof.
  intros Hok Hc [Hs1 _] Hr. destruct (cursor_bounded _ _ _ _ Hok Hc) as [Hs Hb].
  pose proof (so_vec _ Hok) as Hv.
  unfold do_erase. rewrite (cursor_deref _ _ _ _ _ Hc). simpl.
  rewrite (proj2 (Z.leb_gt r.1 i)) by lia. rewrite (cursor_begin_iff _ _ _ _ Hv Hc).
  assert (next_lo 0 l1 < r.1 → ∃ v', shift_from v it (-1) = Some v' ∧
    denotes v' (erased (λ j, mem j (flat v)) i)) as Hfar.
  { intros Hlo. pieces. destruct (shift_down v it l1 (r :: l2) Hv Hc) as (v2 & -> & Hok2 & Hf); [done| | |].
    { by pieces. }
    { simpl. intuition lia. }
    exists v2. split; [done|]. split; [done|]. intros j. rewrite Hf, (cursor_flat _ _ _ _ Hc).
    pose proof (mem_lt_split i l1 Hs1 j). pose proof (mem_lt_split i l1 Hs1 (j + 1)).
    rewrite shl_cons. erased_members j l1 l2 r. intuition lia. }
  destruct (snoc_cases l1) as [->|(l & rp & ->)]; simpl.
  { apply Hfar. simpl. lia. }
  replace (match l ++ [rp] with [] => true | _ => false end) with false by (by destruct l). simpl.
  destruct (cursor_prev v it l rp (r :: l2) Hv Hc) as (p & -> & Hcp). simpl.
  rewrite (cursor_deref _ _ _ _ _ Hcp). simpl. rewrite next_lo_snoc in Hfar.
  apply Forall_app in Hs1 as [Hs1 Hrp]. inversion Hrp as [|? ? Hrp' _]; subst. simpl in Hrp'.
  pieces. wsimp. destruct (Z.eqb_spec (rp.2 + 1) r.1) as [E|E]; simpl; [|apply Hfar; lia].
  destruct (adjust_cursor v p l rp (r :: l2) 0 (r.2 - r.1) Hv Hcp) as (v1 & -> & Hok1 & Hsh1 & Hc1). simpl.
  wsimp. rewrite Z.add_0_r in *.
  assert (cursor v1 it (l ++ [(rp.1, rp.2 + (r.2 - r.1))]) (r :: l2)) as Hc1'.
  { eapply (cursor_shape v v1); [by rewrite Hsh1|exact Hc| |by rewrite !length_app].
    rewrite (cursor_flat _ _ _ _ Hc1), <- app_assoc. done. }
  destruct (erase_cursor v1 it _ _ _ Hok1 Hc1') as (v2 & it2 & -> & Hok2 & Hc2). simpl.
  destruct (shift_down v2 it2 _ l2 Hok2 Hc2) as (v3 & -> & Hok3 & Hf).
  { pieces. intuition lia. }
  { pieces. split_and!; done || lia. }
  { rewrite next_lo_snoc. eapply ranges_ok_weaken; [|done]. simpl. lia. }
  exists v3. split; [done|]. split; [done|]. intros j.
  rewrite Hf, (cursor_flat _ _ _ _ Hc), <- !app_assoc. simpl.
  erased_members j l l2 r. intuition lia.
Qed.

Lemma do_erase_spec v it l1 r l2 i :
  set_ok v → cursor v it l1 (r :: l2) → split_point i l1 (r :: l2) → 0 <= i →
  ∃ v', do_erase v it i = Some v' ∧ denotes v' (erased (λ j, mem j (flat v)) i).
Proof.
  intros Hok Hc Hs Hi. destruct (Z.le_gt_cases r.1 i).
  - apply (do_erase_in v it l1 r l2); [done..|]. destruct Hs. lia.
  - by apply (do_erase_gap v it l1 r l2).
Qed.

Lemma denotes_erased v' v P i :
  (∀ j, mem j (flat v) ↔ P j) → denotes v' (erased (λ j, mem j (flat v)) i) → denotes v' (erased P i).
Proof.
  intros HP [Hok H]. split; [done|]. intros j. rewrite H. unfold erased. by rewrite !HP.
Qed.

(** Nothing changes when every member is below [i]. *)
Lemma erased_end v it l1 i :
  set_ok v → cursor v it l1 [] → split_point i l1 [] → denotes v (erased (λ j, mem j (flat v)) i).
Proof.
  intros Hok Hc [Hs _]. split; [done|]. intros j. rewrite (cursor_flat _ _ _ _ Hc), app_nil_r.
  unfold erased. pose proof (mem_lt_split i l1 Hs j). pose proof (mem_lt_split i l1 Hs (j + 1)).
  intuition lia.
Qed.

Lemma erase_at_spec v P i :
  denotes v P → 0 <= i → ∃ v', erase_at v i = Some v' ∧ denotes v' (erased P i).
Proof.
  intros [Hok HP] Hi. unfold erase_at.
  destruct (find_cursor v i Hok) as (it & l1 & l2 & -> & Hc & Hs). simpl.
  rewrite (at_end_cursor _ _ _ _ Hc). destruct l2 as [|r l2].
  - exists v. split; [done|]. eapply denotes_erased; [exact HP|]. by eapply erased_end.
  - destruct (do_erase_spec v it l1 r l2 i) as (v' & -> & H); try done.
    exists v'. split; [done|]. by eapply denotes_erased.
Qed.
End erasing.
