(* ===== verification/IndexSetShift.v ===== *)
(** * Walks over an index set

    The loops of [IndexSet] that advance an iterator and accumulate a value,
    chunk by chunk or range by range, and the list function each computes. *)

From S2P Require Import Prelude RangeSet RangeVector IndexSetOps IndexSetSpec IndexSetEdits.

Import IndexSet.

(** The elements a loop consumes, the value it accumulates, and the rest. *)
Fixpoint advance {E A} (p : E → A → bool) (f : E → A → A) (a : A) (l : list E) : list E * A * list E :=
  match l with
  | [] => ([], a, [])
  | e :: l' =>
      if p e a then let '(m, a', rest) := advance p f (f e a) l' in (e :: m, a', rest)
      else ([], a, l)
  end.

Lemma advance_spec {E A} p f (a : A) (l : list E) m a' rest :
  advance p f a l = (m, a', rest) →
  l = m ++ rest ∧ a' = foldl (λ a e, f e a) a m ∧ match rest with [] => True | e :: _ => p e a' = false end.
Proof.
  revert a m. induction l as [|e l IH]; intros a m H; simpl in H; [by simplify_eq|].
  destruct (p e a) eqn:Ep; [|by simplify_eq].
  destruct (advance p f (f e a) l) as [[m0 a0] r0] eqn:E0. simplify_eq.
  destruct (IH _ _ E0) as (-> & -> & H). done.
Qed.

(** A property that every consumed element passes on. *)
Lemma advance_rule {E A} (I : list E → A → Prop) p f (a : A) (l : list E) m a' rest :
  advance p f a l = (m, a', rest) →
  I [] a →
  (∀ m e t a, l = m ++ e :: t → I m a → p e a = true → I (m ++ [e]) (f e a)) →
  I m a'.
Proof.
  intros H Ha Hstep.
  cut (∀ k l' a m, l = k ++ l' → I k a → advance p f a l' = (m, a', rest) → I (k ++ m) a').
  { intros G. by apply (G [] l a m). }
  clear H Ha a m. intros k l' a. revert k a.
  induction l' as [|e l' IH]; intros k a m El Hk H; simpl in H.
  { simplify_eq. by rewrite app_nil_r. }
  destruct (p e a) eqn:Ep; [|simplify_eq; by rewrite app_nil_r].
  destruct (advance p f (f e a) l') as [[m0 a0] r0] eqn:E0. simplify_eq.
  change (e :: m0) with ([e] ++ m0). rewrite app_assoc.
  apply (IH (k ++ [e]) (f e a)); [by rewrite <- app_assoc| |done]. by apply (Hstep _ _ l').
Qed.

Section walks.
Context {B : BuildConfig}.
Implicit Types (v : vec) (it : iter) (l : list range) (r : range).

(** The loops over ranges. *)
Lemma range_walk {A} (p : range → A → bool) (f : range → A → A) v it l1 l2 a n :
  vec_ok v → cursor v it l1 l2 → (length l2 < n)%nat →
  ∃ it' m a' rest,
    loop n (λ '(it, a), on v it (λ r, p r a))
           (λ '(it, a), r ← deref v it; it' ← next v it; Some (it', f r a)) (it, a) = Some (it', a') ∧
    advance p f a l2 = (m, a', rest) ∧ cursor v it' (l1 ++ m) rest.
Proof.
  intros Hok. revert it l1 l2 a. induction n as [|n IH]; intros it l1 l2 a Hc Hn; [lia|].
  simpl. rewrite (on_cursor _ _ _ _ _ Hc).
  destruct l2 as [|r l2]; simpl; [exists it, [], a, []; by rewrite app_nil_r|].
  destruct (p r a) eqn:Ep; [|exists it, [], a, (r :: l2); by rewrite app_nil_r].
  rewrite (cursor_deref _ _ _ _ _ Hc). simpl.
  destruct (cursor_next v it l1 r l2 Hok Hc) as (it1 & -> & Hc1). simpl.
  destruct (IH it1 _ l2 (f r a) Hc1) as (it' & m & a' & rest & -> & -> & Hc'); [simpl in Hn; lia|].
  exists it', (r :: m), a', rest. rewrite <- app_assoc in Hc'. done.
Qed.

(** The loops over chunks; the iterator stays at the start of a chunk. *)
Lemma chunk_walk {A} (q : chunk → A → bool) (g : chunk → A → A) cond body v pre post a n :
  vec_ok v → v = pre ++ post → (length post < n)%nat →
  (∀ a, cond (v_end v, a) = Some false) →
  (∀ k c a, v !! k = Some c →
     cond (Iter k 0, a) = Some (q c a) ∧ body (Iter k 0, a) = Some (Iter (S k) 0, g c a)) →
  ∃ m a' rest, loop n cond body (Iter (length pre) 0, a) = Some (Iter (length (pre ++ m)) 0, a') ∧
    advance q g a post = (m, a', rest) ∧ v = (pre ++ m) ++ rest ∧
    cursor v (Iter (length (pre ++ m)) 0) (flat (pre ++ m)) (flat rest).
Proof.
  intros Hok Ev Hn Hend Hstep. revert pre post a Ev Hn.
  induction n as [|n IH]; intros pre post a Ev Hn; [lia|].
  assert (cursor v (Iter (length pre) 0) (flat pre) (flat post)) as Hc.
  { rewrite Ev. apply cursor_chunk_start. rewrite Ev in Hok. by apply Forall_app in Hok as [_ ?]. }
  destruct post as [|c post]; simpl.
  { replace (Iter (length pre) 0) with (v_end v) by (by rewrite Ev, app_nil_r).
    rewrite Hend. exists [], a, []. rewrite !app_nil_r in *. subst v. done. }
  destruct (Hstep (length pre) c a) as [-> ->]; [by rewrite Ev, lookup_middle|]. simpl.
  destruct (q c a) eqn:Eq.
  - destruct (IH (pre ++ [c]) post (g c a)) as (m & a' & rest & Hl & Ha & Hv & Hc');
      [by rewrite <- app_assoc|simpl in Hn; lia|].
    exists (c :: m), a', rest. rewrite length_app, Nat.add_1_r in Hl. simpl in Hl.
    rewrite Hl, Ha. rewrite <- !app_assoc in *. done.
  - exists [], a, (c :: post). rewrite !app_nil_r. done.
Qed.

Lemma at_chunk v k c : v !! k = Some c → at_end v (Iter k 0) = false.
Proof.
  intros H%lookup_lt_Some. unfold at_end, iter_eqb. apply bool_decide_eq_false_2.
  intros [= ->]. lia.
Qed.

Lemma outer_at v k i c : v !! k = Some c → outer_chunk v (Iter k i) = Some c.
Proof. done. Qed.

Lemma fuel_cursor v it l1 l2 : cursor v it l1 l2 → (length l2 < fuel v)%nat.
Proof. intros H. unfold fuel. rewrite (cursor_flat _ _ _ _ H), length_app. lia. Qed.

Lemma length_flat v : vec_ok v → (length v ≤ length (flat v))%nat.
Proof.
  induction 1 as [|c v Hc H IH]; [done|]. rewrite flat_cons, length_app. simpl.
  destruct (data c) eqn:E; [by destruct (ok_ne _ Hc)|simpl; lia].
Qed.
End walks.

(** * Correctness of [IndexSet]: ranks, shifting and unshifting indices

    [count] from 0 is the rank, [shift] and [unshift] translate between the
    positions with and without the members, [add_shifted] and
    [erase_or_unshift] combine a translation with an update. *)

Import IndexSet.

Section ranks.
Context {B : BuildConfig}.
Implicit Types (v : vec) (it : iter) (l : list range) (r : range).

(** The ranges that end at or before [i] hold at most [i] indices. *)
Lemma total_le i l : ranges_ok 0 l → Forall (λ r, r.2 <= i) l → 0 <= i → 0 <= total l <= i.
Proof.
  intros Ho Hf Hi. assert (next_lo 0 l <= i + 1) as Hn.
  { destruct (snoc_cases l) as [->|(l' & x & ->)]; [simpl; lia|]. rewrite next_lo_snoc.
    apply Forall_app in Hf as [_ Hf]. inversion Hf; subst. lia. }
  pose proof (rank_above 0 i l Ho Hn). pose proof (rank_le 0 i l Ho).
  pose proof (rank_nonneg i l). lia.
Qed.

Lemma total_flat_app (v1 v2 : vec) : total (flat (v1 ++ v2)) = total (flat v1) + total (flat v2).
Proof. by rewrite flat_app, total_app. Qed.

(** A chunk whose cached end is at or before [i] is below [i]. *)
Lemma chunk_below v pre c post i :
  vec_ok v → v = pre ++ c :: post → ranges_ok 0 (flat v) → c_end c <= i → Forall (λ r, r.2 <= i) (data c).
Proof.
  intros Hok -> Hs Hi. rewrite flat_app, flat_cons in Hs.
  apply ranges_ok_app in Hs as [_ Hs]. apply ranges_ok_app in Hs as [Hs _].
  eapply Forall_impl; [by eapply Forall_le_lst|]. simpl. intros r Hr.
  rewrite (ok_end _ (vec_ok_middle _ _ _ Hok)) in Hi. lia.
Qed.

(** ** [erase_or_unshift] *)

(** Two splits of a sorted list at the same index agree. *)
Lemma split_point_unique i l1 l2 k1 k2 :
  split_point i l1 l2 → split_point i k1 k2 → l1 ++ l2 = k1 ++ k2 → l1 = k1 ∧ l2 = k2.
Proof.
  revert k1. induction l1 as [|r l1 IH]; intros k1 H1 H2 E; simpl in *.
  - destruct k1 as [|x k1]; [done|]. simpl in E. subst.
    destruct H1 as [_ H1], H2 as [H2 _]. inversion H2; subst. lia.
  - destruct k1 as [|x k1]; simpl in *.
    + destruct k2 as [|x k2]; [done|]. injection E as -> E. destruct H1 as [H1 _], H2 as [_ H2].
      inversion H1; subst. lia.
    + injection E as -> E. destruct H1 as [H1 ?], H2 as [H2 ?].
      inversion H1; inversion H2; subst. destruct (IH k1) as [-> ->]; done.
Qed.

(** The two loops of [erase_or_unshift]: they stop at the split point of [i]
    with the number of members before it taken off. *)
Definition unshift_chunks v i : option (iter * Z) :=
  loop (fuel v)
    (λ '(it, shifted), if at_end v it then Some false
                       else c ← outer_chunk v it; Some (c_end c <=? i))
    (λ '(it, shifted), c ← outer_chunk v it; Some (next_chunk it, shifted ⊖ c_count c))
    (v_begin v, i).

Definition unshift_ranges v i (s : iter * Z) : option (iter * Z) :=
  loop (fuel v)
    (λ '(it, shifted), on v it (λ r, r.2 <=? i))
    (λ '(it, shifted), r ← deref v it; it' ← next v it; Some (it', shifted ⊖ (r.2 ⊖ r.1)))
    s.

Lemma unshift_chunks_spec v i :
  set_ok v → 0 <= i < npos →
  ∃ it l1 l2, unshift_chunks v i = Some (it, i - total l1) ∧ cursor v it l1 l2 ∧ Forall (λ r, r.2 <= i) l1.
Proof.
  intros Hok Hi. pose proof (so_vec _ Hok) as Hv. pose proof (so_sorted _ Hok) as Hs0.
  unfold unshift_chunks.
  set (q := λ (c : chunk) (_ : Z), c_end c <=? i). set (g := λ (c : chunk) a, a ⊖ c_count c).
  assert (v_begin v = Iter 0 0) as -> by (by destruct v).
  edestruct (chunk_walk q g) with (v := v) (pre := @nil chunk) (post := v) (a := i) (n := fuel v)
    as (m & a & rest & -> & Ha & Ev & Hc); [done|done| | | |].
  { unfold fuel. pose proof (length_flat v Hv). lia. }
  { intros a. simpl. unfold at_end, iter_eqb. by rewrite bool_decide_eq_true_2. }
  { intros k c a Hk. simpl. by rewrite (at_chunk v k c Hk), (outer_at v k _ c Hk). }
  simpl in Hc. exists (Iter (length m) 0), (flat m), (flat rest).
  assert (a = wrap (i - total (flat m)) ∧ Forall (λ r, r.2 <= i) (flat m)) as [-> Hm].
  { apply (advance_rule (λ m a, a = wrap (i - total (flat m)) ∧ Forall (λ r, r.2 <= i) (flat m))
             q g i v m a rest Ha).
    - split; [|done]. simpl. rewrite Z.sub_0_r, wrap_small by lia. done.
    - intros k c t a' E [-> Hk] Hq. apply Z.leb_le in Hq. subst g. simpl.
      rewrite flat_app, flat_cons, app_nil_r, total_app.
      rewrite (ok_count c) by (rewrite E in Hv; by eapply vec_ok_middle). split.
      + unfold wsub. rewrite wrap_sub_l, wrap_sub_r. f_equal. lia.
      + apply Forall_app. split; [done|]. by eapply chunk_below. }
  split_and!; try done. destruct (cursor_bounded _ _ _ _ Hok Hc) as [[Hs _]%ranges_ok_app _].
  pose proof (total_le i _ Hs Hm ltac:(lia)). by rewrite wrap_small by lia.
Qed.

Lemma unshift_ranges_spec v i it l1 l2 :
  set_ok v → 0 <= i < npos → cursor v it l1 l2 → Forall (λ r, r.2 <= i) l1 →
  ∃ it' k1 k2, unshift_ranges v i (it, i - total l1) = Some (it', i - total k1) ∧
    cursor v it' k1 k2 ∧ split_point i k1 k2.
Proof.
  intros Hok Hi Hc Hl1. pose proof (so_vec _ Hok) as Hv. unfold unshift_ranges.
  destruct (range_walk (λ r (_ : Z), r.2 <=? i) (λ r a, a ⊖ (r.2 ⊖ r.1)) v it l1 l2 (i - total l1) (fuel v))
    as (it' & m & a & rest & Hl & Ha & Hc'); [done|done|by apply fuel_cursor with it l1|].
  setoid_rewrite Hl. exists it', (l1 ++ m), rest.
  destruct (cursor_bounded _ _ _ _ Hok Hc') as [Hs Hb].
  assert (wrap (i - total l1) = i - total l1) as Hw.
  { destruct (cursor_bounded _ _ _ _ Hok Hc) as [[Hs' _]%ranges_ok_app _].
    pose proof (total_le i _ Hs' Hl1 ltac:(lia)). apply wrap_small. lia. }
  assert (a = wrap (i - total (l1 ++ m)) ∧ Forall (λ r, r.2 <= i) m) as [-> Hm].
  { apply (advance_rule (λ m a, a = wrap (i - total (l1 ++ m)) ∧ Forall (λ r, r.2 <= i) m) _ _ _ _ _ _ _ Ha).
    - by rewrite app_nil_r.
    - intros k r t a' E [-> Hk] Hq. apply Z.leb_le in Hq. split.
      + unfold wsub. rewrite wrap_sub_l, wrap_sub_r. f_equal. rewrite !total_app. simpl. lia.
      + apply Forall_app. split; [done|by constructor]. }
  assert (Forall (λ r, r.2 <= i) (l1 ++ m)) as Hlm by (by apply Forall_app).
  apply ranges_ok_app in Hs as [Hs _]. pose proof (total_le i _ Hs Hlm ltac:(lia)).
  rewrite wrap_small by lia. split_and!; try done. split; [done|].
  apply advance_spec in Ha as (_ & _ & Hr). destruct rest; [done|]. lia.
Qed.

Lemma erase_or_unshift_spec v P i :
  denotes v P → 0 <= i < npos →
  ∃ v', erase_or_unshift v i = Some (v', if memb i (flat v) then npos else i - rank i (flat v)) ∧
    denotes v' (erased P i).
Proof.
  intros [Hok HP] Hi. unfold erase_or_unshift. fold (unshift_chunks v i).
  destruct (unshift_chunks_spec v i Hok Hi) as (it0 & l1 & l2 & -> & Hc0 & Hl1). simpl.
  destruct (unshift_ranges_spec v i it0 l1 l2 Hok Hi Hc0 Hl1) as (it & k1 & k2 & E & Hc & Hs).
  setoid_rewrite E. simpl.
  rewrite (at_end_cursor _ _ _ _ Hc). destruct (cursor_bounded _ _ _ _ Hok Hc) as [Hs' _].
  pose proof (split_mem _ _ _ _ Hs Hs') as Hm.
  pose proof (total_members_below_split _ _ _ _ Hs Hs' ltac:(lia)) as Hr.
  rewrite <- (cursor_flat _ _ _ _ Hc) in Hm, Hr. rewrite <- memb_mem in Hm.
  destruct k2 as [|r k2].
  - exists v. split; [|eapply denotes_erased; [exact HP|by eapply erased_end]].
    destruct (memb i (flat v)); [by destruct Hm|]. do 2 f_equal. lia.
  - destruct (do_erase_spec v it k1 r k2 i) as (v' & Hv' & H); try done; [lia|].
    rewrite (cursor_deref _ _ _ _ _ Hc). simpl. rewrite Hv'. simpl. exists v'.
    split; [|by eapply denotes_erased]. do 2 f_equal.
    destruct (Z.leb_spec r.1 i), (memb i (flat v)); try done; try lia; exfalso; intuition (done || lia).
Qed.

(** ** [shift] *)

Lemma shift_ranges_spec lo rs i :
  ranges_ok lo rs → 0 <= i → lo <= i + 1 → i + total rs < W64 →
  let j := shift_ranges rs i in i <= j ∧ ¬ mem j rs ∧ j - rank j rs = i.
Proof.
  revert lo i. induction rs as [|r rs IH]; intros lo i; simpl.
  { intros _ ? ? ?. split_and!; [lia|intros M; by apply mem_nil in M|lia]. }
  intros (Hlo & Hne & Hs) Hi Hil Htot. pose proof (total_nonneg _ _ Hs) as [Ht _].
  rewrite mem_cons. destruct (Z.ltb_spec i r.1) as [E|E].
  - split_and!; [lia| |].
    + intros [?|M]; [lia|]. apply (mem_ge _ _ _ Hs) in M. lia.
    + rewrite (rank_below _ _ _ Hs) by lia. unfold rank1. lia.
  - wsimp. destruct (IH (r.2 + 1) (i + (r.2 - r.1))) as (H1 & H2 & H3); [done|lia|lia|lia|].
    split_and!; [lia| |].
    + intros [?|M]; [lia|done].
    + unfold rank1 in *. lia.
Qed.

(** ** [count] from 0 and [unshift] *)

(** The loop over whole chunks in [count_rest]. *)
Lemma count_chunks v e :
  set_ok v → 0 <= e < W64 →
  ∃ it ret l1 l2,
    loop (fuel v)
      (λ '(it, ret), if at_end v it then Some false
                     else c ← outer_chunk v it; Some (c_end c <=? e))
      (λ '(it, ret), c ← outer_chunk v it;
         REALM_ASSERT (bool_decide (inner it = O)) ;;
         Some (next_chunk it, ret ⊕ c_count c))
      (v_begin v, 0) = Some (it, ret) ∧
    ret = total l1 ∧ cursor v it l1 l2 ∧ Forall (λ r, r.2 <= e) l1.
Proof.
  intros Hok He. pose proof (so_vec _ Hok) as Hv. pose proof (so_sorted _ Hok) as Hs0.
  set (q := λ (c : chunk) (_ : Z), c_end c <=? e). set (g := λ (c : chunk) a, a ⊕ c_count c).
  assert (v_begin v = Iter 0 0) as -> by (by destruct v).
  edestruct (chunk_walk q g) with (v := v) (pre := @nil chunk) (post := v) (a := 0) (n := fuel v)
    as (m & a & rest & -> & Ha & Ev & Hc); [done|done| | | |].
  { unfold fuel. pose proof (length_flat v Hv). lia. }
  { intros a. simpl. unfold at_end, iter_eqb. by rewrite bool_decide_eq_true_2. }
  { intros k c a Hk. simpl. by rewrite (at_chunk v k c Hk), (outer_at v k _ c Hk). }
  simpl in Hc. exists (Iter (length m) 0), a, (flat m), (flat rest).
  assert (a = wrap (total (flat m)) ∧ Forall (λ r, r.2 <= e) (flat m)) as [-> Hm].
  { apply (advance_rule (λ m a, a = wrap (total (flat m)) ∧ Forall (λ r, r.2 <= e) (flat m))
             q g 0 v m a rest Ha).
    - done.
    - intros k c t a' E [-> Hk] Hq. apply Z.leb_le in Hq. subst g. simpl.
      rewrite flat_app, flat_cons, app_nil_r, total_app.
      rewrite (ok_count c) by (rewrite E in Hv; by eapply vec_ok_middle). split.
      + unfold wadd. by rewrite wrap_add_l, wrap_add_r.
      + apply Forall_app. split; [done|]. by eapply chunk_below. }
  split_and!; try done. destruct (cursor_bounded _ _ _ _ Hok Hc) as [[Hs _]%ranges_ok_app _].
  pose proof (total_le e _ Hs Hm ltac:(lia)). by rewrite wrap_small by lia.
Qed.

(** The loop over whole ranges. *)
Lemma count_ranges v e it l1 l2 :
  set_ok v → 0 <= e < W64 → cursor v it l1 l2 → Forall (λ r, r.2 <= e) l1 →
  ∃ it' k1 k2,
    loop (fuel v)
      (λ '(it, ret), on v it (λ r, r.2 <=? e))
      (λ '(it, ret), r ← deref v it; it' ← next v it; Some (it', ret ⊕ (r.2 ⊖ r.1)))
      (it, total l1) = Some (it', total k1) ∧ cursor v it' k1 k2 ∧ split_point e k1 k2.
Proof.
  intros Hok He Hc Hl1. pose proof (so_vec _ Hok) as Hv.
  destruct (range_walk (λ r (_ : Z), r.2 <=? e) (λ r a, a ⊕ (r.2 ⊖ r.1)) v it l1 l2 (total l1) (fuel v))
    as (it' & m & a & rest & Hl & Ha & Hc'); [done|done|by apply fuel_cursor with it l1|].
  setoid_rewrite Hl. exists it', (l1 ++ m), rest.
  destruct (cursor_bounded _ _ _ _ Hok Hc') as [Hs Hb].
  assert (wrap (total l1) = total l1) as Hw.
  { destruct (cursor_bounded _ _ _ _ Hok Hc) as [[Hs' _]%ranges_ok_app _].
    pose proof (total_le e _ Hs' Hl1 ltac:(lia)). apply wrap_small. lia. }
  assert (a = wrap (total (l1 ++ m)) ∧ Forall (λ r, r.2 <= e) m) as [-> Hm].
  { apply (advance_rule (λ m a, a = wrap (total (l1 ++ m)) ∧ Forall (λ r, r.2 <= e) m) _ _ _ _ _ _ _ Ha).
    - by rewrite app_nil_r.
    - intros k r t a' E [-> Hk] Hq. apply Z.leb_le in Hq. split.
      + unfold wadd, wsub. rewrite wrap_add_l, wrap_add_r. f_equal. rewrite !total_app. simpl. lia.
      + apply Forall_app. split; [done|by constructor]. }
  assert (Forall (λ r, r.2 <= e) (l1 ++ m)) as Hlm by (by apply Forall_app).
  apply ranges_ok_app in Hs as [Hs _]. pose proof (total_le e _ Hs Hlm ltac:(lia)).
  rewrite wrap_small by lia. split_and!; try done. split; [done|].
  apply advance_spec in Ha as (_ & _ & Hr). destruct rest; [done|]. lia.
Qed.

Lemma count_rest_begin v e :
  set_ok v → 0 <= e < W64 → count_rest v (v_begin v) 0 e = Some (rank e (flat v)).
Proof.
  intros Hok He. unfold count_rest.
  destruct (count_chunks v e Hok He) as (it0 & ret & l1 & l2 & -> & -> & Hc0 & Hl1). simpl.
  destruct (count_ranges v e it0 l1 l2 Hok He Hc0 Hl1) as (it & k1 & k2 & E & Hc & Hs).
  setoid_rewrite E. simpl. rewrite (on_cursor _ _ _ _ _ Hc).
  destruct (cursor_bounded _ _ _ _ Hok Hc) as [Hs' _].
  pose proof (total_members_below_split _ _ _ _ Hs Hs' ltac:(lia)) as Hr.
  rewrite (cursor_flat _ _ _ _ Hc), Hr. simpl.
  destruct k2 as [|r k2]; simpl; [f_equal; lia|].
  apply ranges_ok_app in Hs' as [Hk1 (Hn & _ & _)]. pose proof (ranges_ok_next_lo _ _ Hk1).
  destruct (Z.ltb_spec r.1 e).
  - rewrite (cursor_deref _ _ _ _ _ Hc). simpl. f_equal. destruct Hs as [Hs _].
    pose proof (rank_le 0 e (k1 ++ r :: k2)) as Hle.
    pose proof (rank_nonneg e (k1 ++ r :: k2)).
    pose proof (total_nonneg _ _ Hk1) as [? _].
    assert (rank e (k1 ++ r :: k2) <= e - 0).
    { apply Hle; [|lia]. rewrite <- (cursor_flat _ _ _ _ Hc). by destruct Hok. }
    wsimp. lia.
  - f_equal. lia.
Qed.

Lemma count_spec v e : set_ok v → 0 <= e < W64 → count v 0 e = Some (rank e (flat v)).
Proof.
  intros Hok He. unfold count. pose proof (so_vec _ Hok) as Hv. pose proof (so_sorted _ Hok) as Hs0.
  destruct (find_cursor v 0 Hok) as (it & l1 & l2 & -> & Hc & Hs). simpl.
  assert (split_point 0 [] (flat v)) as Hs'.
  { split; [done|]. destruct (flat v) as [|r l]; [done|]. simpl in Hs0. lia. }
  destruct (split_point_unique 0 l1 l2 [] (flat v)) as [-> ->]; [done|done|by rewrite (cursor_flat _ _ _ _ Hc)|].
  pose proof (cursor_begin_iff _ _ _ _ Hv Hc) as Hb. apply bool_decide_eq_true in Hb as ->.
  rewrite (at_end_cursor _ _ _ _ Hc). destruct (flat v) as [|r l] eqn:Ef; [done|].
  rewrite (cursor_deref _ _ _ _ _ Hc). simpl in *. destruct Hs0 as (? & ? & Hs0).
  destruct (Z.leb_spec e r.1).
  { f_equal. rewrite (rank_below _ _ _ Hs0) by lia. unfold rank1. lia. }
  pose proof (so_bounded _ Hok) as Hb. rewrite Ef, bounded_cons in Hb.
  destruct (Z.leb_spec e r.2).
  { f_equal. rewrite (rank_below _ _ _ Hs0) by lia. unfold rank1. wsimp. lia. }
  rewrite (proj2 (Z.ltb_ge r.1 0)) by lia.
  assert (inner (v_begin v) = 0%nat) as -> by (by destruct v). simpl.
  rewrite count_rest_begin by done. by rewrite Ef.
Qed.

Lemma unshift_spec v j : set_ok v → 0 <= j < W64 → unshift v j = Some (j - rank j (flat v)).
Proof.
  intros Hok Hj. unfold unshift. rewrite count_spec by done. simpl. f_equal.
  pose proof (rank_nonneg j (flat v)). pose proof (rank_le 0 j (flat v) (so_sorted _ Hok)).
  wsimp. done.
Qed.

(** Positions outside of the set are determined by how many are below them. *)
Lemma unshifted_inj l j k :
  ranges_ok 0 l → 0 <= j → 0 <= k → ¬ mem j l → ¬ mem k l → j - rank j l = k - rank k l → j = k.
Proof.
  intros Hs. assert (∀ j k, 0 <= j → ¬ mem j l → j < k → j - rank j l < k - rank k l) as Hlt.
  { clear j k. intros j k Hj Hm Hjk.
    assert (∀ n, 0 <= n → rank (j + 1 + n) l <= rank j l + n) as H.
    { apply natlike_ind.
      - rewrite Z.add_0_r, (rank_succ 0 j l Hs). destruct (memb j l) eqn:E; [|lia].
        by apply memb_mem in E.
      - intros n Hn IH. replace (j + 1 + Z.succ n) with (j + 1 + n + 1) by lia.
        rewrite (rank_succ 0 _ l Hs). destruct (memb _ l); lia. }
    specialize (H (k - j - 1)). replace (j + 1 + (k - j - 1)) with k in H by lia. lia. }
  intros Hj Hk Mj Mk E. destruct (Z.lt_trichotomy j k) as [C|[C|C]]; [|done|].
  - apply Hlt in C; [lia|done|done].
  - apply Hlt in C; [lia|done|done].
Qed.

(** ** [add_shifted] *)

Lemma shift_ranges_skip l rest lo i :
  ranges_ok lo l → Forall (λ r, r.1 <= i) l → 0 <= i → i + total l < W64 →
  shift_ranges (l ++ rest) i = shift_ranges rest (i + total l).
Proof.
  revert lo i. induction l as [|r l IH]; intros lo i; simpl; [by rewrite Z.add_0_r|].
  intros (? & ? & Hs) Hf Hi Ht. inversion Hf as [|? ? Hr Hf']; subst.
  pose proof (total_nonneg _ _ Hs) as [? _].
  rewrite (proj2 (Z.ltb_ge i r.1)) by done. wsimp. rewrite (IH (r.2 + 1)).
  - f_equal. lia.
  - done.
  - eapply Forall_impl; [exact Hf'|]. simpl. lia.
  - lia.
  - lia.
Qed.

(** Whole chunks are skipped exactly where [shift] skips their ranges. *)
Lemma add_shifted_chunks v i :
  set_ok v → 0 <= i → i + total (flat v) < npos →
  ∃ it l1 l2,
    loop (fuel v)
      (λ '(it, index), if at_end v it then Some false
                       else c ← outer_chunk v it; Some (c_end c <=? index))
      (λ '(it, index), c ← outer_chunk v it; Some (next_chunk it, index ⊕ c_count c))
      (v_begin v, i) = Some (it, i + total l1) ∧
    cursor v it l1 l2 ∧ Forall (λ r, r.2 <= i + total l1) l1 ∧
    shift v i = shift_ranges l2 (i + total l1).
Proof.
  intros Hok Hi Ht. pose proof (so_vec _ Hok) as Hv. pose proof (so_sorted _ Hok) as Hs0.
  set (q := λ (c : chunk) a, c_end c <=? a). set (g := λ (c : chunk) a, a ⊕ c_count c).
  assert (v_begin v = Iter 0 0) as -> by (by destruct v).
  edestruct (chunk_walk q g) with (v := v) (pre := @nil chunk) (post := v) (a := i) (n := fuel v)
    as (m & a & rest & -> & Ha & Ev & Hc); [done|done| | | |].
  { unfold fuel. pose proof (length_flat v Hv). lia. }
  { intros a. simpl. unfold at_end, iter_eqb. by rewrite bool_decide_eq_true_2. }
  { intros k c a Hk. simpl. by rewrite (at_chunk v k c Hk), (outer_at v k _ c Hk). }
  simpl in Hc. exists (Iter (length m) 0), (flat m), (flat rest).
  remember (shift v i) as j eqn:Ej.
  assert (a = i + total (flat m) ∧ Forall (λ r, r.2 <= a) (flat m) ∧
          j = shift_ranges (flat (drop (length m) v)) a) as (-> & Hm & Hsh).
  { apply (advance_rule (λ m a, a = i + total (flat m) ∧ Forall (λ r, r.2 <= a) (flat m) ∧
          j = shift_ranges (flat (drop (length m) v)) a) q g i v m a rest Ha).
    - split_and!; [simpl; lia|done|done].
    - intros k c t a' E (-> & Hk & Hsh) Hq. apply Z.leb_le in Hq. subst g. simpl.
      pose proof (chunk_below v k c t _ Hv E Hs0 Hq) as Hcb.
      rewrite E, drop_middle, flat_cons in Hsh. pose proof Hs0 as Hs.
      rewrite E, flat_app, flat_cons in Hs. apply ranges_ok_app in Hs as [Hsk Hs].
      apply ranges_ok_app in Hs as [Hsc Hst].
      rewrite E, flat_app, flat_cons, !total_app in Ht.
      pose proof (total_nonneg _ _ Hsk). pose proof (total_nonneg _ _ Hsc). pose proof (total_nonneg _ _ Hst).
      rewrite (ok_count c) by (rewrite E in Hv; by eapply vec_ok_middle).
      rewrite (wrap_small (total (data c))), wadd_small by lia.
      rewrite flat_app, flat_cons, app_nil_r, total_app. split_and!; [lia| |].
      + apply Forall_app. split; (eapply Forall_impl; [eassumption|]); simpl; lia.
      + rewrite Hsh, (shift_ranges_skip _ _ (next_lo 0 (flat k))); [|done| |lia|lia].
        * rewrite E. replace (k ++ c :: t) with ((k ++ [c]) ++ t) by (by rewrite <- app_assoc).
          by rewrite drop_middle.
        * pose proof (ranges_ok_Forall_lo _ _ Hsc) as Hlo. rewrite Forall_forall in *.
          intros r Hr. specialize (Hlo r Hr). specialize (Hcb r Hr). lia. }
  rewrite Ev, drop_middle in Hsh. by split_and!.
Qed.

Lemma advance_shift_ranges lo a l m a' rest :
  ranges_ok lo l → 0 <= a → a + total l < W64 →
  advance (λ r a, r.1 <=? a) (λ r a, a ⊕ (r.2 ⊖ r.1)) a l = (m, a', rest) →
  a' = shift_ranges l a ∧ a <= a' <= a + total l ∧ Forall (λ r, r.2 <= a') m ∧
  match rest with [] => True | r :: _ => a' < r.1 end.
Proof.
  revert lo a m. induction l as [|r l IH]; intros lo a m; simpl.
  { intros _ ? ? [= <- <- <-]. split_and!; done || lia. }
  intros (? & ? & Hs) Ha Ht. pose proof (total_nonneg _ _ Hs) as [? _]. wsimp.
  destruct (Z.leb_spec r.1 a).
  - destruct (advance _ _ _ l) as [[m0 a0] r0] eqn:E. intros [= <- <- <-].
    destruct (IH (r.2 + 1) (a + (r.2 - r.1)) m0) as (-> & Hle & Hm & Hr); [done|lia|lia|done|].
    rewrite (proj2 (Z.ltb_ge a r.1)) by done. split_and!; try done; try lia.
    constructor; [lia|done].
  - intros [= <- <- <-]. rewrite (proj2 (Z.ltb_lt a r.1)) by done. split_and!; done || lia.
Qed.

Lemma add_shifted_ranges v it l1 l2 a :
  set_ok v → cursor v it l1 l2 → Forall (λ r, r.2 <= a) l1 → 0 <= a → a + total l2 < npos →
  ∃ it' k1 k2,
    loop (fuel v)
      (λ '(it, index), on v it (λ r, r.1 <=? index))
      (λ '(it, index), r ← deref v it; it' ← next v it; Some (it', index ⊕ (r.2 ⊖ r.1)))
      (it, a) = Some (it', shift_ranges l2 a) ∧
    cursor v it' k1 k2 ∧ split_point (shift_ranges l2 a) k1 k2 ∧ a <= shift_ranges l2 a <= a + total l2.
Proof.
  intros Hok Hc Hl1 Ha Ht. pose proof (so_vec _ Hok) as Hv.
  destruct (range_walk (λ r a, r.1 <=? a) (λ r a, a ⊕ (r.2 ⊖ r.1)) v it l1 l2 a (fuel v))
    as (it' & m & a' & rest & Hl & Had & Hc'); [done|done|by apply fuel_cursor with it l1|].
  setoid_rewrite Hl. exists it', (l1 ++ m), rest.
  destruct (cursor_bounded _ _ _ _ Hok Hc) as [[Hs1 Hs2]%ranges_ok_app _].
  destruct (advance_shift_ranges _ a l2 m a' rest Hs2) as (-> & Hle & Hm & Hr); [done|lia|done|].
  destruct (cursor_bounded _ _ _ _ Hok Hc') as [[_ Hs']%ranges_ok_app _].
  split_and!; try done; try lia. split.
  - apply Forall_app. split; [|done]. eapply Forall_impl; [exact Hl1|]. simpl. lia.
  - destruct rest; [done|]. simpl in Hs'. lia.
Qed.

Lemma add_shifted_spec v P i :
  denotes v P → 0 <= i → i + total (flat v) < npos →
  ∃ v', add_shifted v i = Some (v', shift v i) ∧ denotes v' (λ j, j = shift v i ∨ P j).
Proof.
  intros [Hok HP] Hi Ht. unfold add_shifted, add_shifted_pos.
  destruct (add_shifted_chunks v i Hok Hi Ht) as (it0 & l1 & l2 & -> & Hc0 & Hl1 & ->). simpl.
  rewrite (cursor_flat _ _ _ _ Hc0), total_app in Ht.
  destruct (cursor_bounded _ _ _ _ Hok Hc0) as [[Hs1 Hs2]%ranges_ok_app _].
  pose proof (total_nonneg _ _ Hs1). pose proof (total_nonneg _ _ Hs2).
  destruct (add_shifted_ranges v it0 l1 l2 (i + total l1)) as (it & k1 & k2 & E & Hc & Hs & Hle);
    [done|done|done|lia|lia|].
  setoid_rewrite E. simpl. set (j := shift_ranges l2 (i + total l1)) in *.
  destruct (do_add_cursor v it k1 k2 j) as (v' & it' & r1 & r & r2 & -> & Hok' & _ & _ & Hm);
    [done|done|done|lia|].
  simpl. exists v'. split; [done|]. split; [done|]. intros x. by rewrite Hm, HP.
Qed.
End ranks.
