(* ===== verification/IndexSetRemove.v ===== *)
(** * Correctness of [IndexSet]: removing ranges of indices *)

From S2P Require Import Prelude RangeSet RangeVector IndexSetOps IndexSetSpec IndexSetEdits IndexSetShift.

Import IndexSet.

Section removing.
Context {B : BuildConfig}.
Implicit Types (v : vec) (it : iter) (l : list range) (r : range).

(** What is left of a range after [[b, e)] is removed from it. *)
Definition before_cut (r : range) b : list range := if r.1 <? b then [(r.1, b)] else [].
Definition after_cut (r : range) e : list range := if e <? r.2 then [(e, r.2)] else [].

Lemma do_remove_step_spec v it l1 r l2 b e :
  set_ok v → cursor v it l1 (r :: l2) → Forall (λ r, r.2 <= b) l1 → r.1 <= b < r.2 → b < e →
  ∃ v' it', do_remove_step v it b e = Some (v', it') ∧ set_ok v' ∧
    cursor v' it' l1 (before_cut r b ++ after_cut r e ++ l2).
Proof.
  intros Hok Hc Hl1 Hb He. pose proof (so_vec _ Hok) as Hv.
  destruct (cursor_bounded _ _ _ _ Hok Hc) as [Hs Hbd].
  unfold do_remove_step, before_cut, after_cut. rewrite (cursor_deref _ _ _ _ _ Hc). simpl.
  assert (∀ w it' k2, vec_ok w → cursor w it' l1 k2 → ranges_ok (next_lo 0 l1) k2 → bounded k2 → set_ok w) as Hset.
  { intros w it' k2 Hw Hcw Hsw Hbw. eapply set_ok_cursor; [done|exact Hcw| |].
    - apply ranges_ok_app in Hs as [? _]. by apply ranges_ok_app.
    - apply bounded_app in Hbd as [? _]. by apply bounded_app. }
  pieces. destruct (Z.ltb_spec r.1 b) as [Hr|Hr]; simpl.
  - destruct (Z.ltb_spec e r.2) as [Her|Her]; simpl.
    + destruct (set_cursor v it l1 r l2 r.1 b Hv Hc) as (v1 & -> & Hok1 & _ & Hc1). simpl.
      destruct (cursor_next v1 it _ _ _ Hok1 Hc1) as (nx & -> & Hc1'). simpl.
      destruct (insert_cursor v1 nx _ _ (e, r.2) 0 Hok1 Hc1') as (v2 & it2 & -> & Hok2 & Hc2).
      { pieces. intuition lia. }
      simpl. destruct (cursor_prev v2 it2 _ _ _ Hok2 Hc2) as (p & -> & Hc2'). simpl.
      exists v2, p. split_and!; try done. eapply Hset; [done|exact Hc2'| |]; pieces; intuition lia.
    + rewrite (proj2 (Z.eqb_neq b r.1)) by lia. simpl.
      destruct (set_cursor v it l1 r l2 r.1 b Hv Hc) as (v1 & -> & Hok1 & _ & Hc1). simpl.
      exists v1, it. split_and!; try done. eapply Hset; [done|exact Hc1| |]; pieces.
      * split_and!; [lia|lia|]. eapply ranges_ok_weaken; [|done]. lia.
      * intuition lia.
  - rewrite (proj2 (Z.eqb_eq b r.1)) by lia. simpl.
    rewrite Z.leb_antisym. destruct (Z.ltb_spec e r.2) as [Her|Her]; simpl.
    + destruct (set_cursor v it l1 r l2 e r.2 Hv Hc) as (v1 & -> & Hok1 & _ & Hc1). simpl.
      exists v1, it. split_and!; try done. eapply Hset; [done|exact Hc1| |]; pieces; intuition lia.
    + destruct (erase_cursor v it l1 r l2 Hv Hc) as (v1 & it1 & -> & Hok1 & Hc1).
      exists v1, it1. split_and!; try done. eapply Hset; [done|exact Hc1| |]; pieces; [|done].
      eapply ranges_ok_weaken; [|done]. lia.
Qed.

(** The ranges that start before [e]: the measure of the loop. *)
Definition todo e l : nat := length (filter (λ r : range, r.1 < e) l).

Lemma todo_after_cut r e l2 : todo e (after_cut r e ++ l2) = todo e l2.
Proof.
  unfold after_cut. destruct (e <? r.2); simpl; [|done]. unfold todo.
  rewrite filter_cons_False; [done|]. simpl. lia.
Qed.

Lemma todo_cons r e l2 : r.1 < e → todo e (r :: l2) = S (todo e l2).
Proof. intros H. unfold todo. by rewrite filter_cons_True. Qed.

(** The invariant of the loop of [do_remove] on [[b0, e)]: everything before [b]
    is gone, and nothing outside of the interval changed. *)
Definition removing v0 b0 e v b : Prop :=
  set_ok v ∧ b0 <= b < e ∧
  (∀ j, ¬ b0 <= j < e → mem j (flat v) ↔ mem j (flat v0)) ∧
  (∀ j, b0 <= j < b → ¬ mem j (flat v)).

(** One iteration. *)
Lemma removing_step v0 b0 e v it l1 r l2 b :
  removing v0 b0 e v b → cursor v it l1 (r :: l2) → split_point b l1 (r :: l2) → r.1 < e →
  let b' := Z.max r.1 b in
  ∃ v1 it1 it2 k1 k2, do_remove_step v it b' e = Some (v1, it1) ∧ find_from v1 b' it1 = Some it2 ∧
    removing v0 b0 e v1 b' ∧ cursor v1 it2 k1 k2 ∧ split_point b' k1 k2 ∧ todo e k2 = todo e l2.
Proof.
  intros (Hok & Hb & Hout & Hin) Hc [Hs1 Hs2] Hr b'.
  destruct (cursor_bounded _ _ _ _ Hok Hc) as [Hs Hbd].
  assert (Forall (λ r, r.2 <= b') l1) as Hl1 by (eapply Forall_impl; [exact Hs1|]; simpl; lia).
  assert (r.1 < r.2) by (pieces; lia).
  destruct (do_remove_step_spec v it l1 r l2 b' e) as (v1 & it1 & Hv1 & Hok1 & Hc1); [done|done|done|lia|lia|].
  destruct (find_from_cursor v1 it1 _ _ b' Hok1 Hc1 Hl1) as (it2 & k1 & k2 & Hf & Hc2 & Hsp).
  exists v1, it1, it2, k1, k2.
  assert (k1 = l1 ++ before_cut r b' ∧ k2 = after_cut r e ++ l2) as [-> ->].
  { apply (split_point_unique b'); [done| |].
    - split.
      + apply Forall_app. split; [done|]. unfold before_cut. destruct (r.1 <? b'); [|done]. by constructor.
      + unfold after_cut. destruct (Z.ltb_spec e r.2); simpl; [lia|].
        destruct l2 as [|r2 l2]; [done|]. pieces. lia.
    - rewrite <- (cursor_flat _ _ _ _ Hc2), (cursor_flat _ _ _ _ Hc1). by rewrite app_assoc. }
  split_and!; try done; [|apply todo_after_cut].
  assert (∀ j, mem j (flat v1) ↔ mem j (flat v) ∧ ¬ (r.1 <= j < r.2 ∧ b' <= j < e)) as Hm.
  { intros j. rewrite (cursor_flat _ _ _ _ Hc1), (cursor_flat _ _ _ _ Hc).
    rewrite !mem_app, mem_cons. unfold before_cut, after_cut.
    apply ranges_ok_app in Hs as [Ho1 (? & ? & Ho2)].
    pose proof (mem_lt 0 j l1 Ho1). pose proof (mem_ge (r.2 + 1) j l2 Ho2).
    pose proof (mem_lt_split b' l1 Hl1 j).
    destruct (Z.ltb_spec r.1 b'), (Z.ltb_spec e r.2); rewrite ?mem_cons, ?mem_nil; simpl; intuition lia. }
  split; [done|]. split; [lia|]. split.
  - intros j Hj. rewrite Hm, <- (Hout j Hj). intuition lia.
  - intros j Hj. rewrite Hm. intros [M N]. destruct (Z.le_gt_cases b j) as [C|C].
    + rewrite (cursor_flat _ _ _ _ Hc), mem_app, mem_cons in M.
      pose proof (mem_lt_split b l1 Hs1 j). pieces. pose proof (mem_ge (r.2 + 1) j l2). intuition lia.
    + apply (Hin j); [lia|done].
Qed.

Lemma remove_loop n v0 b0 e v it l1 l2 b :
  removing v0 b0 e v b → cursor v it l1 l2 → split_point b l1 l2 → (todo e l2 < n)%nat →
  ∃ v' it' b' k1 k2,
    loop n (λ '(v, it, b), on v it (λ r, r.1 <? e))
      (λ '(v, it, b), r ← deref v it;
         let b := Z.max r.1 b in
         '(v1, it1) ← do_remove_step v it b e;
         it2 ← find_from v1 b it1;
         Some (v1, it2, b)) (v, it, b) = Some (v', it', b') ∧
    removing v0 b0 e v' b' ∧ cursor v' it' k1 k2 ∧ split_point b' k1 k2 ∧
    match k2 with [] => True | r :: _ => e <= r.1 end.
Proof.
  revert v it l1 l2 b. induction n as [|n IH]; intros v it l1 l2 b HI Hc Hs Hn; [lia|].
  simpl. rewrite (on_cursor _ _ _ _ _ Hc). destruct l2 as [|r l2]; simpl; [by eauto 10|].
  destruct (Z.ltb_spec r.1 e) as [Hr|Hr].
  - rewrite (cursor_deref _ _ _ _ _ Hc). simpl.
    destruct (removing_step v0 b0 e v it l1 r l2 b) as (v1 & it1 & it2 & k1 & k2 & -> & H1 & HI1 & Hc1 & Hs1 & Ht);
      [done..|]. simpl. rewrite H1. simpl.
    apply (IH v1 it2 k1 k2); [done..|]. rewrite Ht. rewrite todo_cons in Hn by done. lia.
  - exists v, it, b, l1, (r :: l2). by split_and!.
Qed.

(** [do_remove] removes exactly the indices of the interval, and leaves the
    iterator at the first range after it. *)
Lemma do_remove_spec v it l1 l2 b e :
  set_ok v → cursor v it l1 l2 → Forall (λ r, r.2 <= b) l1 → b < e →
  ∃ v' it' k1 k2, do_remove v it b e = Some (v', it') ∧ set_ok v' ∧ cursor v' it' k1 k2 ∧
    Forall (λ r, r.2 <= e) k1 ∧ (∀ j, mem j (flat v') ↔ mem j (flat v) ∧ ¬ b <= j < e).
Proof.
  intros Hok Hc Hl1 He. unfold do_remove.
  destruct (find_from_cursor v it l1 l2 b) as (it0 & m1 & m2 & -> & Hc0 & Hs0); [done..|]. simpl.
  destruct (remove_loop (fuel v) v b e v it0 m1 m2 b) as (v' & it' & b' & k1 & k2 & E & HI & Hc' & Hs' & Hk);
    [split_and!; done || lia|done|done| |].
  { pose proof (fuel_cursor _ _ _ _ Hc0). pose proof (length_filter (λ r : range, r.1 < e) m2).
    unfold todo. lia. }
  setoid_rewrite E. simpl. exists v', it', k1, k2.
  destruct HI as (Hok' & Hb' & Hout & Hin). destruct Hs' as [Hs1 Hs2]. split_and!; try done.
  { eapply Forall_impl; [exact Hs1|]. simpl. lia. }
  intros j. destruct (decide (b <= j < e)) as [D|D]; [|rewrite (Hout j D); tauto].
  split; [|tauto]. intros M. exfalso.
  assert (b' <= j) by (destruct (Z.le_gt_cases b' j); [done|]; destruct (Hin j); [lia|done]).
  rewrite (cursor_flat _ _ _ _ Hc'), mem_app in M. pose proof (mem_lt_split b' k1 Hs1 j).
  destruct (cursor_bounded _ _ _ _ Hok' Hc') as [[_ Hsk]%ranges_ok_app _].
  destruct k2 as [|r k2]; [rewrite mem_nil in M; intuition lia|].
  destruct M as [M|M]; [intuition lia|].
  apply (mem_ge r.1) in M; [lia|]. simpl in *. intuition lia.
Qed.

Lemma remove_spec v P i n :
  denotes v P → 0 <= i → 0 < n → i + n < W64 →
  ∃ v', remove v i n = Some v' ∧ denotes v' (λ j, P j ∧ ¬ i <= j < i + n).
Proof.
  intros [Hok HP] Hi Hn Hin. unfold remove.
  destruct (find_cursor v i Hok) as (it & l1 & l2 & -> & Hc & [Hs1 _]). simpl. wsimp.
  destruct (do_remove_spec v it l1 l2 i (i + n)) as (v' & it' & k1 & k2 & -> & Hok' & _ & _ & Hm);
    [done|done|done|lia|].
  exists v'. split; [done|]. split; [done|]. intros j. by rewrite Hm, HP.
Qed.

(** ** [remove(IndexSet)] *)

(** The invariant of the loop over the ranges of [values]: those of [pre] are
    removed; after the early return there is nothing left to remove. *)
Definition removing_set v0 (vals l : list range) (s : vec * iter * bool) : Prop :=
  let '(v, it, stop) := s in
  ∃ pre k1 k2, vals = pre ++ l ∧ set_ok v ∧ cursor v it k1 k2 ∧
    Forall (λ r, r.2 < next_lo 0 pre) k1 ∧ (stop = true → k2 = []) ∧
    ∀ j, mem j (flat v) ↔ mem j (flat v0) ∧ ¬ mem j pre.

Lemma remove_set_spec v w P Q :
  denotes v P → denotes w Q → ∃ v', remove_set v w = Some v' ∧ denotes v' (λ j, P j ∧ ¬ Q j).
Proof.
  intros [Hok HP] [Hokw HQ]. unfold remove_set.
  match goal with |- context [foldM ?body _ _] =>
    destruct (foldM_rule (removing_set v (flat w)) body (flat w) (v, v_begin v, false)) as ([[v' it'] stop] & -> & pre & k1 & k2 & E & Hok' & _ & _ & _ & Hm) end.
  - exists [], [], (flat v). split_and!; try done.
    + apply cursor_begin. by destruct Hok.
    + intros j. rewrite mem_nil. tauto.
  - intros r l [[u it] stop] (pre & k1 & k2 & E & Hoku & Hc & Hk & Hst & Hm).
    pose proof (so_sorted _ Hokw) as Hsw. rewrite E in Hsw. apply ranges_ok_app in Hsw as [Hsp (Hr1 & Hr2 & Hsl)].
    assert (∀ j, mem j (pre ++ [r]) ↔ mem j pre ∨ r.1 <= j < r.2) as Hpre.
    { intros j. rewrite mem_app, mem_cons, mem_nil. tauto. }
    destruct stop.
    + eexists. split; [done|]. exists (pre ++ [r]), k1, k2. rewrite next_lo_snoc, <- app_assoc.
      split_and!; try done.
      * eapply Forall_impl; [exact Hk|]. simpl. lia.
      * intros j. rewrite Hpre, Hm. split; [|tauto]. intros [M N]. split; [done|]. intros [|Hj]; [done|].
        assert (mem j (flat u)) as M' by (by apply Hm).
        rewrite (cursor_flat _ _ _ _ Hc), Hst, app_nil_r in M' by done.
        apply (mem_lt_split r.1) in M'; [lia|]. eapply Forall_impl; [exact Hk|]. simpl. lia.
    + destruct (do_remove_spec u it k1 k2 r.1 r.2) as (u' & it' & m1 & m2 & -> & Hok' & Hc' & Hm1 & Hm');
        [done|done| |done|].
      { eapply Forall_impl; [exact Hk|]. simpl. lia. }
      simpl. eexists. split; [done|]. exists (pre ++ [r]), m1, m2. rewrite next_lo_snoc, <- app_assoc.
      split_and!; try done.
      * eapply Forall_impl; [exact Hm1|]. simpl. lia.
      * rewrite (at_end_cursor _ _ _ _ Hc'). by destruct m2.
      * intros j. rewrite Hm', Hm, Hpre. tauto.
  - simpl. exists v'. split; [done|]. split; [done|]. rewrite app_nil_r in E. subst pre.
    intros j. by rewrite Hm, HP, HQ.
Qed.
End removing.

(** * [count] from an arbitrary start always returns

    The value of [count] is its rank only from 0; from any other start the loops
    still end without touching an invalid iterator. *)

Import IndexSet.

Section count.
Context {B : BuildConfig}.
Implicit Types (v : vec) (it : iter).

Definition pointing v it : Prop := ∃ l1 l2, cursor v it l1 l2.

Lemma pointing_on v it p : pointing v it → ∃ b, on v it p = Some b.
Proof. intros (l1 & l2 & H). rewrite (on_cursor _ _ _ _ _ H). by eexists. Qed.

(** A loop that steps over ranges while its condition, which holds at a range
    only, is met. *)
Lemma step_loop v it ret (p : iter → range → bool) (f : range → Z → Z) :
  vec_ok v → pointing v it →
  ∃ it' ret',
    loop (fuel v) (λ '(it, ret), on v it (p it))
      (λ '(it, ret), r ← deref v it; it' ← next v it; Some (it', f r ret)) (it, ret) = Some (it', ret') ∧
    pointing v it' ∧ on v it' (p it') = Some false.
Proof.
  intros Hok (l1 & l2 & Hc).
  assert (∀ n it ret l1 l2, cursor v it l1 l2 → (length l2 < n)%nat → ∃ it' ret',
    loop n (λ '(it, ret), on v it (p it))
      (λ '(it, ret), r ← deref v it; it' ← next v it; Some (it', f r ret)) (it, ret) = Some (it', ret') ∧
    pointing v it' ∧ on v it' (p it') = Some false) as H.
  { clear it ret l1 l2 Hc. intros n. induction n as [|n IH]; intros it ret l1 l2 Hc Hn; [lia|].
    cbn [loop]. rewrite (on_cursor _ _ _ _ _ Hc). destruct l2 as [|r l2]; simpl.
    { exists it, ret. split; [done|]. split; [by exists l1, []|]. by rewrite (on_cursor _ _ _ _ _ Hc). }
    destruct (p it r) eqn:Ep.
    - rewrite (cursor_deref _ _ _ _ _ Hc). destruct (cursor_next v it l1 r l2 Hok Hc) as (nx & Hnx & Hc').
      simpl. rewrite Hnx. simpl. apply (IH nx _ _ _ Hc'). simpl in Hn. lia.
    - exists it, ret. split; [done|]. split; [by exists l1, (r :: l2)|]. by rewrite (on_cursor _ _ _ _ _ Hc), Ep. }
  apply (H _ it ret l1 l2 Hc). by apply fuel_cursor with it l1.
Qed.

(** An iterator at the start of a chunk. *)
Lemma pointing_front v it :
  vec_ok v → pointing v it → inner it = 0%nat → ∃ pre post, v = pre ++ post ∧ it = Iter (length pre) 0.
Proof.
  intros Hok (l1 & l2 & [pre c post d1 r d2 E Ed ->| ->]) Hi; simpl in Hi.
  - exists pre, (c :: post). split; [done|]. by rewrite Hi.
  - exists v, []. by rewrite app_nil_r.
Qed.

Lemma count_rest_total v it ret e :
  vec_ok v → pointing v it → inner it = 0%nat → ∃ n, count_rest v it ret e = Some n.
Proof.
  intros Hok Hp Hi. destruct (pointing_front v it Hok Hp Hi) as (pre & post & Ev & ->). unfold count_rest.
  edestruct (chunk_walk (λ c (_ : Z), c_end c <=? e) (λ c a, a ⊕ c_count c)) with
    (v := v) (pre := pre) (post := post) (a := ret) (n := fuel v) as (m & a & rest & -> & _ & _ & Hc);
    [done|done| | | |].
  { unfold fuel. pose proof (length_flat v Hok). pose proof (f_equal length Ev) as El. rewrite length_app in El. lia. }
  { intros a. simpl. unfold at_end, iter_eqb. by rewrite bool_decide_eq_true_2. }
  { intros k c a Hk. simpl. by rewrite (at_chunk v k c Hk), (outer_at v k _ c Hk). }
  simpl. destruct (step_loop v (Iter (length (pre ++ m)) 0) a (λ _ r, r.2 <=? e) (λ r a, a ⊕ (r.2 ⊖ r.1)))
    as (it' & a' & Hl & Hp' & _); [done|by eexists _, _|].
  setoid_rewrite Hl. simpl. destruct Hp' as (k1 & k2 & Hc'). rewrite (on_cursor _ _ _ _ _ Hc').
  destruct k2 as [|r k2]; simpl; [by eexists|]. destruct (r.1 <? e); [|by eexists].
  rewrite (cursor_deref _ _ _ _ _ Hc'). by eexists.
Qed.

Lemma count_first_total v it r s e :
  vec_ok v → pointing v it → it ≠ v_end v → deref v it = Some r →
  ∃ it' n stop, count_first_chunk v it r s e = Some (it', n, stop) ∧ pointing v it' ∧
    (stop = false → inner it' = 0%nat).
Proof.
  intros Hok (l1 & l2 & Hc) Hne Hr. unfold count_first_chunk.
  destruct l2 as [|r0 l2]; [by inversion Hc; subst|].
  destruct (cursor_next v it l1 r0 l2 Hok Hc) as (nx & -> & Hc'). simpl.
  destruct (step_loop v nx (r.2 ⊖ Z.max r.1 s) (λ it r, (r.2 <? e) && negb (bool_decide (inner it = O)))
              (λ r a, a ⊕ (r.2 ⊖ r.1))) as (it' & ret' & Hl & Hp' & Hf); [done|by eexists _, _|].
  setoid_rewrite Hl. clear Hl. simpl. destruct Hp' as (k1 & k2 & Hk). rewrite !(on_cursor _ _ _ _ _ Hk) in *. simpl.
  assert (∃ n, (if match k2 with [] => false | r :: _ => (r.1 <? e) && negb (bool_decide (inner it' = 0%nat)) end
                then r1 ← deref v it'; Some (ret' ⊕ (e ⊖ r1.1)) else Some ret') = Some n) as [n ->].
  { destruct k2 as [|r1 k2]; [by eexists|]. rewrite (cursor_deref _ _ _ _ _ Hk). simpl.
    destruct ((r1.1 <? e) && _); by eexists. }
  simpl. eexists it', n, _. split; [done|]. split; [by exists k1, k2|]. intros Hs. apply negb_false_iff in Hs.
  destruct k2 as [|r1 k2]; [done|]. rewrite Hs in Hf. simpl in Hf. injection Hf as Hf.
  apply negb_false_iff in Hf. by apply bool_decide_eq_true in Hf.
Qed.

Lemma count_total v s e : set_ok v → ∃ n, count v s e = Some n.
Proof.
  intros Hok. pose proof (so_vec _ Hok) as Hv. unfold count.
  destruct (find_cursor v s Hok) as (it & l1 & l2 & -> & Hc & _). simpl.
  rewrite (at_end_cursor _ _ _ _ Hc). destruct l2 as [|r l2]; [by eexists|].
  rewrite (cursor_deref _ _ _ _ _ Hc). simpl.
  destruct (e <=? r.1); [by eexists|]. destruct (e <=? r.2); [by eexists|].
  assert (pointing v it) as Hp by (by eexists _, _).
  destruct ((r.1 <? s) || negb (bool_decide (inner it = 0%nat))) eqn:Eb.
  - destruct (count_first_total v it r s e) as (it' & n & stop & -> & Hp' & Hs); [done|done| | |].
    { intros ->. pose proof (cursor_at_end _ _ _ _ Hc) as E. simpl in E.
      unfold iter_eqb in E. by rewrite bool_decide_eq_true_2 in E. }
    { by apply (cursor_deref _ _ _ _ _ Hc). }
    simpl. destruct stop; [by eexists|]. by apply count_rest_total; auto.
  - apply orb_false_iff in Eb as [_ Eb]. apply negb_false_iff, bool_decide_eq_true in Eb.
    by apply count_rest_total.
Qed.
End count.
