(* ===== verification/IndexWalk.v ===== *)
(** * Index iteration and the builder: correctness

    [for_indexes] visits the members of a set in increasing order, and a
    builder that is fed increasing indices yields a well-formed set of exactly
    those indices. *)

From Stdlib Require Export Sorted.
From stdpp Require Import sets.
From S2P Require Import Prelude RangeSet RangeVector IndexSetOps IndexSetSpec IndexSetShift.

Import IndexSet.

(** The members of a list of ranges, in order. *)
Definition elems (l : list range) : list Z := l ≫= λ r, seqZ r.1 (r.2 - r.1).

Lemma elems_app l1 l2 : elems (l1 ++ l2) = elems l1 ++ elems l2.
Proof. apply bind_app. Qed.

Lemma elems_cons r l : elems (r :: l) = seqZ r.1 (r.2 - r.1) ++ elems l.
Proof. done. Qed.

Lemma elem_of_elems i l : i ∈ elems l ↔ mem i l.
Proof.
  induction l as [|r l IH]; [rewrite mem_nil; simpl; split; [by intros ?%not_elem_of_nil|done]|].
  rewrite elems_cons, elem_of_app, elem_of_seqZ, IH, mem_cons. intuition lia.
Qed.

(** Increasing sequences of indices. *)
Abbreviation increasing := (StronglySorted Z.lt).

Lemma increasing_app l1 l2 :
  increasing (l1 ++ l2) ↔ increasing l1 ∧ increasing l2 ∧ ∀ i j, i ∈ l1 → j ∈ l2 → i < j.
Proof.
  induction l1 as [|a l1 IH]; simpl.
  { split; [|tauto]. intros H. split_and!; [constructor|done|by intros ? ? ?%not_elem_of_nil]. }
  split.
  - intros H. inversion H as [|? ? H1 H2]; subst. apply IH in H1 as (H1 & H3 & H4).
    apply Forall_app in H2 as [H2 H5]. rewrite Forall_forall in H5. split_and!; [by constructor|done|].
    intros i j [->|Hi]%elem_of_cons Hj; auto.
  - intros (H1 & H2 & H3). inversion H1 as [|? ? H4 H5]; subst. constructor.
    + apply IH. split_and!; [done|done|]. intros i j Hi. apply H3. by right.
    + apply Forall_app. split; [done|]. rewrite Forall_forall. intros j Hj. apply H3; [by left|done].
Qed.

Lemma increasing_seqZ a n : increasing (seqZ a n).
Proof.
  destruct (Z.le_gt_cases n 0); [rewrite seqZ_nil by done; constructor|].
  assert (∀ n, 0 <= n → increasing (seqZ a n)) as G; [|apply G; lia].
  clear n H. apply natlike_ind; [constructor|]. intros n Hn IH.
  unfold Z.succ. rewrite seqZ_app by lia. apply increasing_app. split_and!; [done|repeat constructor|].
  intros i j Hi Hj. apply elem_of_seqZ in Hi, Hj. lia.
Qed.

Lemma elems_increasing lo l : ranges_ok lo l → increasing (elems l).
Proof.
  revert lo. induction l as [|r l IH]; intros lo; [constructor|]. intros (? & ? & H).
  rewrite elems_cons. apply increasing_app. split_and!; [apply increasing_seqZ|by eapply IH|].
  intros i j Hi%elem_of_seqZ Hj%elem_of_elems. apply (mem_ge _ _ _ H) in Hj. lia.
Qed.

Lemma length_elems lo l : ranges_ok lo l → Z.of_nat (length (elems l)) = total l.
Proof.
  revert lo. induction l as [|r l IH]; intros lo; [done|]. intros (? & ? & H).
  rewrite elems_cons, length_app, length_seqZ, Nat2Z.inj_add, (IH _ H). simpl. lia.
Qed.

Section iteration.
Context {B : BuildConfig}.
Implicit Types (v : vec) (x : ix).

(** [icursor v x es]: the indices still to be visited from [x]. *)
Inductive icursor v x : list Z → Prop :=
  | icursor_in l1 r l2 : cursor v (ix_it x) l1 (r :: l2) → 0 <= ix_off x → r.1 + ix_off x < r.2 →
      icursor v x (seqZ (r.1 + ix_off x) (r.2 - r.1 - ix_off x) ++ elems l2)
  | icursor_end : cursor v (ix_it x) (flat v) [] → icursor v x [].

Lemma icursor_start v it l1 l2 : set_ok v → cursor v it l1 l2 → icursor v (Ix it 0) (elems l2).
Proof.
  intros Hok Hc. destruct (cursor_bounded _ _ _ _ Hok Hc) as [[_ Hs]%ranges_ok_app _].
  destruct l2 as [|r l2].
  - apply icursor_end. simpl. pose proof (cursor_flat _ _ _ _ Hc) as E. rewrite app_nil_r in E. by rewrite E.
  - rewrite elems_cons. replace r.1 with (r.1 + 0) at 1 by lia. replace (r.2 - r.1) with (r.2 - r.1 - 0) by lia.
    eapply (icursor_in v (Ix it 0)); simpl; [exact Hc|lia|]. simpl in Hs. lia.
Qed.

Lemma icursor_begin v : set_ok v → icursor v (ix_begin v) (elems (flat v)).
Proof. intros Hok. eapply icursor_start; [done|]. apply cursor_begin. by destruct Hok. Qed.

Lemma icursor_more v x es : icursor v x es → ix_more v x = match es with [] => false | _ => true end.
Proof.
  destruct 1 as [l1 r l2 Hc H1 H2|Hc]; unfold ix_more; rewrite (cursor_at_end _ _ _ _ Hc); [|done].
  rewrite seqZ_cons by lia. done.
Qed.

Lemma icursor_step v x e es :
  set_ok v → icursor v x (e :: es) →
  ix_deref v x = Some e ∧ ∃ x', ix_next v x = Some x' ∧ icursor v x' es.
Proof.
  intros Hok H. inversion H as [l1 r l2 Hc H1 H2 E|]; subst.
  destruct (cursor_bounded _ _ _ _ Hok Hc) as [[Ho1 Hs]%ranges_ok_app Hb].
  pose proof (ranges_ok_next_lo _ _ Ho1). apply bounded_app in Hb as [_ Hb]. apply bounded_cons in Hb as [Hb _].
  simpl in Hs. rewrite seqZ_cons in E by lia. injection E as <- <-.
  unfold ix_deref, ix_next. rewrite (cursor_deref _ _ _ _ _ Hc). simpl. wsimp. split; [done|].
  destruct (Z.eqb_spec (r.1 + (ix_off x + 1)) r.2) as [E|E].
  - destruct (cursor_next v _ l1 r l2 (so_vec _ Hok) Hc) as (it & -> & Hc'). simpl. eexists. split; [done|].
    rewrite seqZ_nil by lia. by eapply icursor_start.
  - eexists. split; [done|].
    replace (seqZ (Z.succ (r.1 + ix_off x)) (Z.pred (r.2 - r.1 - ix_off x)))
      with (seqZ (r.1 + (ix_off x + 1)) (r.2 - r.1 - (ix_off x + 1))) by (f_equal; lia).
    eapply (icursor_in v (Ix (ix_it x) (ix_off x + 1))); simpl; [exact Hc|lia|lia].
Qed.

(** What is left to visit is a suffix of the members. *)
Lemma icursor_suffix v x es : set_ok v → icursor v x es → ∃ ds, elems (flat v) = ds ++ es.
Proof.
  intros Hok H. destruct H as [l1 r l2 Hc H1 H2|Hc].
  - exists (elems l1 ++ seqZ r.1 (ix_off x)). rewrite (cursor_flat _ _ _ _ Hc), elems_app, elems_cons, <- app_assoc.
    f_equal. rewrite app_assoc. f_equal. rewrite <- seqZ_app by lia. f_equal. lia.
  - exists (elems (flat v)). by rewrite app_nil_r.
Qed.

Lemma icursor_length v x es :
  set_ok v → icursor v x es → (length es <= Z.to_nat (total (flat v)))%nat.
Proof.
  intros Hok H. destruct (icursor_suffix v x es Hok H) as [ds E].
  pose proof (length_elems 0 (flat v) (so_sorted _ Hok)) as Hl. rewrite E, length_app in Hl. lia.
Qed.

Lemma icursor_increasing v x es : set_ok v → icursor v x es → increasing es.
Proof.
  intros Hok H. destruct (icursor_suffix v x es Hok H) as [ds E].
  pose proof (elems_increasing 0 (flat v) (so_sorted _ Hok)) as Hi. rewrite E in Hi.
  by apply increasing_app in Hi as (_ & ? & _).
Qed.

(** The cached end of the last chunk is above every member. *)
Lemma chunks_all_below v c : vec_ok (v ++ [c]) → ranges_ok 0 (flat (v ++ [c])) →
  ∀ e, mem e (flat (v ++ [c])) → e < c_end c.
Proof.
  intros Hok Hs e He. apply Forall_app in Hok as [_ Hok]. inversion Hok as [|? ? Hc _]; subst.
  rewrite (ok_end _ Hc). rewrite flat_app, flat_cons in Hs, He. simpl in *. rewrite app_nil_r in *.
  apply Forall_le_lst in Hs. rewrite lst_of_app in Hs by apply (ok_ne _ Hc).
  unfold mem, in_range in He. rewrite Exists_exists in He. destruct He as (r & Hr & He).
  rewrite Forall_forall in Hs. specialize (Hs r Hr). lia.
Qed.

Lemma for_indexes_foldM {St} v (body : Z → St → option St) s :
  set_ok v → for_indexes v body s = foldM body (elems (flat v)) s.
Proof.
  intros Hok. unfold for_indexes.
  assert (∀ n x es s, icursor v x es → (length es < n)%nat →
    ('(_, s') ← loop n (λ '(x, s), Some (ix_more v x))
      (λ '(x, s), i ← ix_deref v x; s' ← body i s; x' ← ix_next v x; Some (x', s')) (x, s); Some s') =
    foldM body es s) as H.
  { clear s. induction n as [|n IH]; intros x es s Hx Hn; [lia|]. simpl. rewrite (icursor_more _ _ _ Hx).
    destruct es as [|e es]; [done|]. destruct (icursor_step v x e es Hok Hx) as (-> & x' & Hx' & Hc). simpl.
    destruct (body e s) as [s'|]; simpl; [|done]. rewrite Hx'. simpl. apply IH; [done|]. simpl in Hn. lia. }
  apply H; [by apply icursor_begin|]. unfold ix_fuel.
  pose proof (length_elems 0 (flat v) (so_sorted _ Hok)). lia.
Qed.

(** ** The builder *)

(** [built b l]: the builder holds the ranges [l], the last ones in the chunk
    being filled, whose end is not cached yet. *)
Inductive built (b : builder) (l : list range) : Prop :=
  | Built pre c n :
      b = Builder (pre ++ c :: replicate n empty_chunk) (length pre) →
      l = flat pre ++ data c → vec_ok pre → (length (data c) ≤ max_size)%nat →
      (data c = [] → pre = [] ∧ c = empty_chunk) →
      (data c ≠ [] → c_begin c = fst_of (data c)) →
      c_count c = wrap (total (data c)) → built b l.

Lemma built_init v : built (builder_init v) [].
Proof.
  unfold builder_init. rewrite Nat.add_1_r. apply (Built _ _ [] empty_chunk (length (flat v) / max_size)); simpl; done || lia.
Qed.

(** The ranges after one more index. *)
Lemma push_new_chunk pre c n l0 back i :
  vec_ok pre → data c = l0 ++ [back] → length (data c) = max_size →
  c_begin c = fst_of (data c) → c_count c = wrap (total (data c)) → 0 <= i < npos → i ≠ back.2 →
  ∃ b', builder_push (Builder (pre ++ c :: replicate n empty_chunk) (length pre)) (i, i + 1) = Some b' ∧
    built b' (flat pre ++ data c ++ [(i, i + 1)]).
Proof.
  intros Hok Ed Hfull Hb Hcn Hi E. unfold builder_push. simpl. rewrite lookup_middle. simpl.
  assert (last (data c) = Some back) as Hlast by (rewrite Ed; apply last_snoc).
  rewrite Hlast, (proj2 (Z.eqb_neq i back.2)) by done.
  rewrite (bool_decide_eq_false_2 (length (data c) < max_size)%nat) by lia. rewrite insert_middle.
  set (c' := Chunk (data c) (c_begin c) back.2 (c_count c)).
  assert (vec_ok (pre ++ [c'])) as Hok'.
  { apply Forall_app. split; [done|]. constructor; [|done]. constructor; simpl; try done.
    - by rewrite Ed; destruct l0.
    - lia.
    - by rewrite Ed, lst_of_snoc. }
  rewrite length_app. simpl. rewrite length_replicate. pose proof max_size_pos.
  destruct n as [|n]; simpl.
  - rewrite bool_decide_eq_true_2 by lia. eexists. split; [done|].
    apply (Built _ _ (pre ++ [c']) (Chunk [(i, i + 1)] i 0 1) 0); simpl; try done.
    + by rewrite length_app, Nat.add_1_r.
    + rewrite flat_app, flat_cons. simpl. by rewrite app_nil_r, <- app_assoc.
    + rewrite wrap_small by lia. lia.
  - rewrite bool_decide_eq_false_2 by lia.
    replace (pre ++ c' :: empty_chunk :: replicate n empty_chunk)
      with ((pre ++ [c']) ++ empty_chunk :: replicate n empty_chunk) by (by rewrite <- app_assoc).
    replace (S (length pre)) with (length (pre ++ [c'])) by (rewrite length_app; simpl; lia).
    rewrite lookup_middle. simpl. rewrite insert_middle. eexists. split; [done|].
    eapply (Built _ _ (pre ++ [c']) _ n); [done|..]; simpl; try done.
    + rewrite flat_app, flat_cons. simpl. by rewrite app_nil_r, <- app_assoc.
    + wsimp. rewrite wrap_small by lia. lia.
Qed.

(** The last range is extended, or a range is added to the chunk. *)
Lemma push_extend pre c n l0 back i :
  vec_ok pre → data c = l0 ++ [back] → (length (data c) ≤ max_size)%nat →
  c_begin c = fst_of (data c) → c_count c = wrap (total (data c)) → 0 <= i < npos → i = back.2 →
  ∃ b', builder_push (Builder (pre ++ c :: replicate n empty_chunk) (length pre)) (i, i + 1) = Some b' ∧
    built b' (flat pre ++ l0 ++ [(back.1, i + 1)]).
Proof.
  intros Hok Ed Hsz Hbg Hcn Hi E. unfold builder_push. simpl. rewrite lookup_middle. simpl.
  assert (last (data c) = Some back) as Hlast by (rewrite Ed; apply last_snoc).
  rewrite Hlast, insert_middle, (proj2 (Z.eqb_eq i back.2)) by done.
  eexists. split; [done|]. rewrite Ed.
  replace (pred (length (l0 ++ [back]))) with (length l0) by (rewrite length_app; simpl; lia).
  rewrite insert_middle. eapply (Built _ _ pre _ n); [done|..]; simpl; try done.
  - rewrite Ed, length_app in Hsz. rewrite length_app. exact Hsz.
  - intros [_ [=]]%app_nil.
  - intros _. rewrite Hbg, Ed by done. by destruct l0.
  - rewrite Hcn, Ed, !total_app. simpl. wsimp. unfold wadd. rewrite wrap_add_l. f_equal. lia.
Qed.

Lemma push_append pre c n l0 back i :
  vec_ok pre → data c = l0 ++ [back] → (length (data c) < max_size)%nat →
  c_begin c = fst_of (data c) → c_count c = wrap (total (data c)) → 0 <= i < npos → i ≠ back.2 →
  ∃ b', builder_push (Builder (pre ++ c :: replicate n empty_chunk) (length pre)) (i, i + 1) = Some b' ∧
    built b' (flat pre ++ data c ++ [(i, i + 1)]).
Proof.
  intros Hok Ed Hsz Hbg Hcn Hi E. unfold builder_push. simpl. rewrite lookup_middle. simpl.
  assert (last (data c) = Some back) as Hlast by (rewrite Ed; apply last_snoc).
  rewrite Hlast, (proj2 (Z.eqb_neq i back.2)) by done.
  rewrite bool_decide_eq_true_2, insert_middle by done. eexists. split; [done|].
  eapply (Built _ _ pre _ n); [done|..]; simpl; try done.
  - rewrite length_app. simpl. lia.
  - intros [_ [=]]%app_nil.
  - intros _. rewrite Hbg, Ed by done. by destruct l0.
  - rewrite Hcn, total_app. simpl. wsimp. unfold wadd. rewrite wrap_add_l. f_equal. lia.
Qed.

(** Pushing an index above all others appends it. *)
Lemma builder_push_index_built b l i :
  built b l → ranges_ok 0 l → bounded l → (∀ j, mem j l → j < i) → 0 <= i < npos →
  ∃ b' l', builder_push_index b i = Some b' ∧ built b' l' ∧ ranges_ok 0 l' ∧ bounded l' ∧
    elems l' = elems l ++ [i].
Proof.
  intros [pre c n -> -> Hok Hsz Hnil Hbg Hcn] Hs Hbd Hlt Hi. unfold builder_push_index. wsimp.
  assert (seqZ i (i + 1 - i) = [i]) as Hone by (replace (i + 1 - i) with 1 by lia; done).
  destruct (snoc_cases (data c)) as [Ed|(l0 & back & Ed)].
  { destruct (Hnil Ed) as [-> ->]. simpl. eexists _, [(i, i + 1)]. split; [done|]. split.
    - eapply (Built _ _ [] _ n); [done|..]; simpl; try done; [pose proof max_size_pos; lia|].
      wsimp. rewrite wrap_small by lia. lia.
    - simpl. rewrite Hone. split_and!; try done; try lia. apply bounded_cons. simpl. split; [lia|done]. }
  assert (data c ≠ []) as Hne by (rewrite Ed; by destruct l0).
  assert (Hl : flat pre ++ data c = (flat pre ++ l0) ++ [back]) by (by rewrite Ed, app_assoc).
  pose proof Hs as Hs'. rewrite Hl in Hs'. apply ranges_ok_app in Hs' as [Hs1 (Hlo & Hback & _)].
  pose proof Hbd as Hbd'. rewrite Hl in Hbd'. apply bounded_app in Hbd' as [Hb1 _].
  assert (back.2 <= i) as Hle.
  { destruct (Z.le_gt_cases back.2 i); [done|]. specialize (Hlt (back.2 - 1)).
    rewrite Hl, mem_app, mem_cons in Hlt. lia. }
  destruct (decide (i = back.2)) as [E|E].
  - destruct (push_extend pre c n l0 back i) as (b' & -> & Hb); [done..|auto|done|done|done|].
    rewrite app_assoc in Hb. eexists _, _. split; [done|]. split; [exact Hb|].
    rewrite Hl, ranges_ok_app, bounded_app, bounded_cons, !elems_app, !elems_cons. simpl.
    split_and!; try done; try lia. rewrite !app_nil_r, <- !app_assoc. do 2 f_equal. subst i.
    replace (back.2 + 1 - back.1) with ((back.2 - back.1) + 1) by lia. rewrite seqZ_app by lia.
    replace (back.1 + (back.2 - back.1)) with back.2 by lia. done.
  - assert (∃ b', builder_push (Builder (pre ++ c :: replicate n empty_chunk) (length pre)) (i, i + 1) = Some b' ∧
      built b' (flat pre ++ data c ++ [(i, i + 1)])) as (b' & -> & Hb).
    { destruct (decide (length (data c) < max_size)%nat).
      - apply (push_append _ _ _ l0 back); auto.
      - apply (push_new_chunk _ _ _ l0 back); auto. lia. }
    rewrite app_assoc in Hb. eexists _, _. split; [done|]. split; [exact Hb|].
    rewrite ranges_ok_app, bounded_app, bounded_cons, !elems_app. rewrite Hl, next_lo_snoc. simpl.
    rewrite Hone. rewrite <- Hl. split_and!; done || lia.
Qed.

Lemma builder_finalize_built b l :
  built b l → ∃ v, builder_finalize b = Some v ∧ vec_ok v ∧ flat v = l.
Proof.
  intros [pre c n -> -> Hok Hsz Hnil Hbg Hcn]. unfold builder_finalize. simpl.
  replace (v_empty (pre ++ c :: replicate n empty_chunk)) with false by (by destruct pre).
  replace (pre ++ c :: replicate n empty_chunk) with ((pre ++ [c]) ++ replicate n empty_chunk)
    by (by rewrite <- app_assoc).
  replace (S (length pre)) with (length (pre ++ [c])) by (rewrite length_app; simpl; lia).
  rewrite resize_app_le, resize_all, last_snoc by done. simpl.
  replace (pred (length (pre ++ [c]))) with (length pre) by (rewrite length_app; simpl; lia).
  destruct (snoc_cases (data c)) as [Ed|(l0 & back & Ed)].
  - rewrite Ed. simpl. rewrite take_middle. exists pre. by rewrite app_nil_r.
  - assert (last (data c) = Some back) as -> by (rewrite Ed; apply last_snoc).
    rewrite insert_middle. eexists. split; [done|]. split.
    + apply Forall_app. split; [done|]. constructor; [|done]. constructor; simpl; try done.
      * rewrite Ed. by destruct l0.
      * apply Hbg. rewrite Ed. by destruct l0.
      * by rewrite Ed, lst_of_snoc.
    + rewrite flat_app, flat_cons. simpl. by rewrite app_nil_r.
Qed.
End iteration.

(** * Correctness of [IndexSet]: whole-set operations

    [set], [clear] and [add(IndexSet)]; the merge loops of [insert_at],
    [shift_for_insert_at] and [erase_at] on whole sets compute merges of the
    index sequences, which these lemmas characterise by their members. *)

Import IndexSet.

Section bulk.
Context {B : BuildConfig}.
Implicit Types (v : vec) (x : ix) (l : list range).

Lemma clear_spec v : denotes (clear v) (λ _, False).
Proof. split; [by constructor|]. intros j. apply mem_nil. Qed.

Lemma set_spec v n : 0 <= n < W64 → ∃ v', set v n = Some v' ∧ denotes v' (λ j, 0 <= j < n).
Proof.
  intros Hn. unfold set, clear. destruct (Z.eqb_spec n 0) as [->|E]; simpl.
  { exists []. split; [done|]. split; [by constructor|]. intros j. simpl. rewrite mem_nil. lia. }
  destruct (push_back_cursor [] (0, n) 0) as (v' & it & -> & _ & Hok & Hc); [done|simpl; lia|].
  exists v'. pose proof (cursor_flat _ _ _ _ Hc) as Ef. simpl in Ef. split; [done|]. split.
  - constructor; [done| |]; rewrite Ef; [simpl; lia|]. apply bounded_cons. simpl. split; [lia|done].
  - intros j. rewrite Ef, mem_cons, mem_nil. simpl. intuition lia.
Qed.

(** The self-check of the debug builds succeeds on every well-formed set. *)
Lemma verify_set_ok v : set_ok v → verify v = true.
Proof.
  intros [Hok Hs Hb]. unfold verify. rewrite (verify_ranges_ok npos 0); [|by left|done|done].
  apply forallb_forall. intros c Hc%list_elem_of_In.
  apply list_elem_of_split in Hc as (pre & post & ->).
  pose proof (vec_ok_middle _ _ _ Hok) as Hcok.
  rewrite flat_app, flat_cons in Hs, Hb.
  apply ranges_ok_app in Hs as [Hp Hs]. apply ranges_ok_app in Hs as [Hs _].
  apply bounded_app in Hb as [_ Hb]. apply bounded_app in Hb as [Hb _].
  pose proof (ranges_ok_next_lo _ _ Hp). unfold verify_chunk.
  destruct Hcok as [Hne _ Hbg Hen Hct]. destruct (snoc_cases (data c)) as [|(l0 & y & Ed)]; [done|].
  assert (last (data c) = Some y) as Hlast by (rewrite Ed; apply last_snoc).
  destruct (data c) as [|r d] eqn:Er; [done|]. simpl head. cbv iota. rewrite Hlast.
  rewrite Hbg, Hen, Hct, sum_sizes_total, Z.eqb_refl. unfold lst_of. rewrite Hlast. simpl fst_of.
  change (head (r :: d)) with (Some r). cbv iota beta. rewrite !Z.eqb_refl, andb_true_r. simpl.
  assert (y.2 < W64) as Hy by (rewrite Ed in Hb; apply bounded_app in Hb as [_ Hb]; by inversion Hb).
  pose proof (total_nonneg _ _ Hs) as [Ht1 _].
  assert (total (r :: d) <= y.2 - r.1) as Ht2.
  { assert (ranges_ok r.1 (r :: d)) as Hs' by (simpl in *; intuition lia).
    pose proof (total_nonneg _ _ Hs') as [_ H2]. pose proof (rank_le r.1 y.2 (r :: d) Hs') as H3.
    pose proof (rank_above r.1 y.2 (r :: d) Hs') as H4. rewrite Ed, next_lo_snoc in H4.
    rewrite <- Ed in H4. rewrite <- H4 by lia. apply H3.
    apply ranges_ok_Forall_lo in Hs'. rewrite Ed in Hs'. apply Forall_app in Hs' as [_ Hs'].
    inversion Hs'; subst. lia. }
  assert (0 <= r.1) by (simpl in Hs; lia).
  change (r.2 - r.1 + total d) with (total (r :: d)). rewrite wrap_small by lia. wsimp. lia.
Qed.

(** ** [add(IndexSet)] *)

Lemma add_set_spec v w P Q :
  denotes v P → denotes w Q → (∀ j, Q j → j < npos) →
  ∃ v', add_set v w = Some v' ∧ denotes v' (λ j, P j ∨ Q j).
Proof.
  intros [Hok HP] [Hokw HQ] Hb. unfold add_set. rewrite for_indexes_foldM by done.
  match goal with |- context [foldM ?body _ _] =>
    destruct (foldM_rule (λ es '(u, it), ∃ pre k1 k2, elems (flat w) = pre ++ es ∧ set_ok u ∧ cursor u it k1 k2 ∧
        (∀ e, e ∈ es → Forall (λ r, r.2 <= e) k1) ∧ ∀ j, mem j (flat u) ↔ mem j (flat v) ∨ j ∈ pre)
      body (elems (flat w)) (v, v_begin v)) as ([v' it'] & -> & pre & k1 & k2 & E & Hok' & _ & _ & Hm) end.
  - exists [], [], (flat v). split_and!; try done; [apply cursor_begin; by destruct Hok|].
    intros j. rewrite elem_of_nil. tauto.
  - intros e es [u it] (pre & k1 & k2 & E & Hoku & Hc & Hk & Hm).
    assert (mem e (flat w)) as He by (apply elem_of_elems; rewrite E; set_solver).
    pose proof (mem_ge 0 e _ (so_sorted _ Hokw) He). pose proof (Hb e (proj1 (HQ e) He)).
    destruct (find_from_cursor u it k1 k2 e) as (it1 & m1 & m2 & -> & Hc1 & Hs1);
      [done|done|apply Hk; set_solver|]. simpl.
    destruct (do_add_cursor u it1 m1 m2 e) as (u' & it' & n1 & r & n2 & -> & Hok' & Hc' & Hr & Hm');
      [done|done|done|lia|].
    eexists. split; [done|]. exists (pre ++ [e]), n1, (r :: n2). rewrite <- app_assoc.
    split_and!; try done.
    + intros e' He'. destruct (cursor_bounded _ _ _ _ Hok' Hc') as [[Hn1 Hn2]%ranges_ok_app _].
      pose proof (elems_increasing 0 _ (so_sorted _ Hokw)) as Hinc. rewrite E in Hinc.
      apply increasing_app in Hinc as (_ & Hinc & _). inversion Hinc as [|? ? _ Hlt]; subst.
      rewrite Forall_forall in Hlt. specialize (Hlt e' He').
      eapply Forall_impl; [by apply (ranges_ok_Forall_hi 0)|]. simpl in *. lia.
    + intros j. rewrite Hm', Hm. set_solver.
  - simpl. exists v'. split; [done|]. split; [done|]. rewrite app_nil_r in E. subst pre.
    intros j. by rewrite Hm, elem_of_elems, HP, HQ.
Qed.
End bulk.
