(* ===== verification/IndexSetMerge.v ===== *)
(** * Correctness of [IndexSet]: the merge loops

    The bulk [insert_at], [shift_for_insert_at] and [erase_at] walk two sets at
    once.  Each is shown to compute a merge of the two index sequences, and the
    merges are characterised by their members: existing indices move to
    [shift positions], or down by their rank in the erased positions. *)

From stdpp Require Import sets.
From S2P Require Import Prelude RangeSet RangeVector IndexSetOps IndexSetSpec IndexSetShift IndexWalk.

Import IndexSet.

(** ** Merges of index sequences *)

(** Where the index [e] goes when the positions [ps] are inserted. *)
Fixpoint place (ps : list Z) (e : Z) : Z :=
  match ps with [] => e | p :: ps => if e <? p then e else place ps (e + 1) end.

(** The merge that keeps ([keep = true]) or drops the inserted positions. *)
Fixpoint minsert (keep : bool) (es : list Z) : list Z → Z → list Z :=
  fix aux ps sh :=
    match es, ps with
    | [], _ => if keep then ps else []
    | _, [] => (λ e, e + sh) <$> es
    | e :: es', p :: ps' =>
        if e + sh <? p then (e + sh) :: minsert keep es' ps sh
        else (if keep then [p] else []) ++ aux ps' (sh + 1)
    end.

Fixpoint merase (es : list Z) : list Z → Z → list Z :=
  fix aux ps sh :=
    match es, ps with
    | [], _ => []
    | _, [] => (λ e, e - sh) <$> es
    | e :: es', p :: ps' =>
        if e <? p then (e - sh) :: merase es' ps sh
        else if e =? p then merase es' ps' (sh + 1)
        else aux ps' (sh + 1)
    end.

Lemma place_ge ps e : e <= place ps e.
Proof.
  revert e. induction ps as [|p ps IH]; intros e; simpl; [lia|].
  destruct (e <? p); [lia|]. specialize (IH (e + 1)). lia.
Qed.

Lemma place_mono ps e e' : e < e' → place ps e < place ps e'.
Proof.
  revert e e'. induction ps as [|p ps IH]; intros e e' H; simpl; [done|].
  destruct (Z.ltb_spec e p), (Z.ltb_spec e' p); try lia.
  - pose proof (place_ge ps (e' + 1)). lia.
  - apply IH. lia.
Qed.

Lemma elem_of_minsert keep es ps sh j :
  increasing es →
  j ∈ minsert keep es ps sh ↔ (keep = true ∧ j ∈ ps) ∨ ∃ e, e ∈ es ∧ j = place ps (e + sh).
Proof.
  revert ps sh. induction es as [|e es IH]; intros ps sh Hinc.
  { assert (minsert keep [] ps sh = if keep then ps else []) as -> by (by destruct ps).
    setoid_rewrite elem_of_nil. destruct keep; rewrite ?elem_of_nil.
    - split; [auto|by intros [[_ ?]|(? & [] & _)]].
    - split; [done|by intros [[? _]|(? & [] & _)]]. }
  inversion Hinc as [|? ? Hes Hlt]; subst. rewrite Forall_forall in Hlt.
  revert sh. induction ps as [|p ps IHp]; intros sh.
  { assert (minsert keep (e :: es) [] sh = (λ x, x + sh) <$> (e :: es)) as -> by done.
    rewrite list_elem_of_fmap, elem_of_nil. simpl. split.
    - intros (x & -> & Hx). right. by exists x.
    - intros [[_ []]|(x & Hx & ->)]. by exists x. }
  simpl minsert. destruct (Z.ltb_spec (e + sh) p) as [H|H].
  - rewrite elem_of_cons, IH by done. simpl.
    assert (place (p :: ps) (e + sh) = e + sh) as Ep by (simpl; destruct (Z.ltb_spec (e + sh) p); lia).
    simpl in Ep. setoid_rewrite elem_of_cons. split.
    + intros [->|[?|(e' & He' & ->)]]; [right; eauto|by left|right; eauto].
    + intros [?|(e' & [->|He'] & ->)]; [tauto|left; done|right; right; eauto].
  - rewrite elem_of_app, IHp. simpl.
    assert (∀ e', e' ∈ e :: es → (if e' + sh <? p then e' + sh else place ps (e' + sh + 1)) = place ps (e' + (sh + 1))) as Epl.
    { intros e' He'. assert (e <= e') by (apply elem_of_cons in He' as [->|He']; [lia|]; specialize (Hlt e' He'); lia).
      rewrite (proj2 (Z.ltb_ge (e' + sh) p)) by lia. f_equal. lia. }
    rewrite elem_of_cons. split.
    + intros [Hj|[?|(e' & He' & ->)]]; [|tauto|].
      * destruct keep; [|by apply elem_of_nil in Hj].
        apply list_elem_of_singleton in Hj as ->. auto.
      * right. exists e'. by rewrite Epl.
    + intros [[-> [->|Hj]]|(e' & He' & ->)]; [left; by apply list_elem_of_singleton|tauto|].
      right. right. exists e'. by rewrite Epl.
Qed.

Lemma minsert_increasing keep es ps sh :
  increasing es → increasing ps → increasing (minsert keep es ps sh).
Proof.
  revert ps sh. induction es as [|e es IH]; intros ps sh Hes Hps.
  { assert (minsert keep [] ps sh = if keep then ps else []) as -> by (by destruct ps).
    destruct keep; [done|constructor]. }
  pose proof Hes as Hes'. inversion Hes' as [|? ? Hes1 Hlt]; subst. rewrite Forall_forall in Hlt.
  revert sh. induction Hps as [|p ps Hps IHp Hltp]; intros sh.
  { assert (minsert keep (e :: es) [] sh = (λ x, x + sh) <$> (e :: es)) as -> by done.
    clear -Hes. induction Hes as [|x xs H IH Hx]; simpl; constructor; [done|].
    apply Forall_fmap. eapply Forall_impl; [exact Hx|]. simpl. lia. }
  rewrite Forall_forall in Hltp. simpl minsert. destruct (Z.ltb_spec (e + sh) p) as [H|H].
  - constructor.
    + apply IH; [done|]. constructor; [done|]. by rewrite Forall_forall.
    + apply Forall_forall. intros j Hj. apply elem_of_minsert in Hj as [[_ Hj]|(e' & He' & ->)]; [| |done].
      * apply elem_of_cons in Hj as [->|Hj]; [done|]. specialize (Hltp j Hj). lia.
      * pose proof (place_mono (p :: ps) (e + sh) (e' + sh)) as M. specialize (Hlt e' He').
        simpl in M. rewrite (proj2 (Z.ltb_lt (e + sh) p)) in M by done. simpl. lia.
  - destruct keep; [|by apply IHp]. simpl. constructor; [by apply IHp|].
    apply Forall_forall. intros j Hj. apply (elem_of_minsert true (e :: es)) in Hj as [[_ Hj]|(e' & He' & ->)]; [auto| |done].
    pose proof (place_ge ps (e' + (sh + 1))).
    apply elem_of_cons in He' as [->|He']; [lia|]. specialize (Hlt e' He'). lia.
Qed.

Section loops.
Context {B : BuildConfig}.
Implicit Types (v w : vec) (b : builder) (l : list range).

(** A builder with a sorted, bounded content. *)
Definition bld b l : Prop := built b l ∧ ranges_ok 0 l ∧ bounded l.

Lemma bld_push b l i rest :
  bld b l → increasing (elems l ++ i :: rest) → 0 <= i < npos →
  ∃ b' l', builder_push_index b i = Some b' ∧ bld b' l' ∧ elems l' = elems l ++ [i].
Proof.
  intros (Hb & Hs & Hbd) Hinc Hi. apply increasing_app in Hinc as (_ & _ & Hlt).
  destruct (builder_push_index_built b l i) as (b' & l' & -> & Hb' & Hs' & Hbd' & E); [done..| |done|].
  { intros j Hj%elem_of_elems. apply Hlt; [done|by left]. }
  by exists b', l'.
Qed.

(** The result of a bulk operation, once all its indices are pushed. *)
Lemma bld_finalize b l :
  bld b l → ∃ v, builder_finalize b = Some v ∧ set_ok v ∧ flat v = l.
Proof.
  intros (Hb & Hs & Hbd). destruct (builder_finalize_built b l Hb) as (v & Hv & Hok & E).
  exists v. split_and!; try done. constructor; by rewrite ?E.
Qed.

(** The drain loops push the rest of a set, moved by [f]. *)
Lemma drain_spec v x es (f : Z → Z) b l :
  set_ok v → icursor v x es → bld b l → increasing (elems l ++ (f <$> es)) →
  (∀ e, e ∈ es → 0 <= f e < npos) →
  ∃ b' l', drain v x f b = Some b' ∧ bld b' l' ∧ elems l' = elems l ++ (f <$> es).
Proof.
  intros Hok. unfold drain.
  assert (∀ n x es b l, icursor v x es → bld b l → increasing (elems l ++ (f <$> es)) →
    (∀ e, e ∈ es → 0 <= f e < npos) → (length es < n)%nat →
    ∃ x' b' l', loop n (λ '(x, b), Some (ix_more v x))
      (λ '(x, b), i ← ix_deref v x; b' ← builder_push_index b (f i); x' ← ix_next v x; Some (x', b'))
      (x, b) = Some (x', b') ∧ bld b' l' ∧ elems l' = elems l ++ (f <$> es)) as G.
  { clear x es b l. induction n as [|n IH]; intros x es b l Hx Hb Hinc Hf Hn; [lia|]. simpl.
    rewrite (icursor_more _ _ _ Hx). destruct es as [|e es]; [exists x, b, l; by rewrite app_nil_r|].
    destruct (icursor_step v x e es Hok Hx) as (-> & x' & Hx' & Hc). simpl.
    destruct (bld_push b l (f e) (f <$> es)) as (b' & l' & -> & Hb' & E); [done|done|apply Hf; by left|].
    simpl. rewrite Hx'. simpl.
    destruct (IH x' es b' l') as (x2 & b2 & l2 & -> & Hb2 & E2); [done|done| | |simpl in Hn; lia|].
    - rewrite E, <- app_assoc. done.
    - intros e' He'. apply Hf. by right.
    - exists x2, b2, l2. split_and!; try done. by rewrite E2, E, <- app_assoc. }
  intros Hx Hb Hinc Hf.
  destruct (G (ix_fuel v) x es b l) as (x' & b' & l' & -> & Hb' & E); [done..| |by exists b', l'].
  unfold ix_fuel. pose proof (icursor_length v x es Hok Hx). lia.
Qed.

(** ** The loops of [insert_at] and [shift_for_insert_at] *)

Definition insert_body (keep : bool) v w (s : merge_state) : option merge_state :=
  let '(b1, b2, shift, b) := s in
  i1 ← ix_deref v b1;
  i2 ← ix_deref w b2;
  if i1 ⊕ shift <? i2 then
    b' ← builder_push_index b (i1 ⊕ shift); b1' ← ix_next v b1; Some (b1', b2, shift, b')
  else
    b' ← (if keep then builder_push_index b i2 else Some b);
    b2' ← ix_next w b2; Some (b1, b2', shift ⊕ 1, b').

(** The invariant: what is pushed and what is left merge to [out]. *)
Definition inserting keep v w (out : list Z) (s : merge_state) (es ps : list Z) : Prop :=
  let '(b1, b2, sh, b) := s in
  icursor v b1 es ∧ icursor w b2 ps ∧ 0 <= sh ∧
  (∃ l, bld b l ∧ elems l ++ minsert keep es ps sh = out) ∧
  (∀ e, e ∈ es → 0 <= e ∧ place ps (e + sh) < npos) ∧ (∀ p, p ∈ ps → 0 <= p < npos).

Lemma inserting_step keep v w out s e es p ps :
  set_ok v → set_ok w → increasing out → inserting keep v w out s (e :: es) (p :: ps) →
  ∃ s' es' ps', insert_body keep v w s = Some s' ∧ inserting keep v w out s' es' ps' ∧
    (length es' + length ps' < length (e :: es) + length (p :: ps))%nat.
Proof.
  intros Hv Hw Hout. destruct s as [[[b1 b2] sh] b]. intros (H1 & H2 & Hsh & (l & Hb & Ho) & He & Hp).
  destruct (icursor_step v b1 e es Hv H1) as (D1 & x1 & N1 & C1).
  destruct (icursor_step w b2 p ps Hw H2) as (D2 & x2 & N2 & C2).
  unfold insert_body. rewrite D1, D2. simpl.
  destruct (He e) as [He0 Hple]; [by left|]. pose proof (place_ge (p :: ps) (e + sh)). wsimp.
  simpl in Ho, Hple. destruct (Z.ltb_spec (e + sh) p) as [C|C].
  - destruct (bld_push b l (e + sh) (minsert keep es (p :: ps) sh)) as (b' & l' & -> & Hb' & E);
      [done|by rewrite Ho|lia|].
    simpl. rewrite N1. simpl. eexists _, es, (p :: ps). split; [done|]. split; [|simpl; lia].
    split_and!; try done.
    + exists l'. split; [done|]. by rewrite E, <- app_assoc.
    + intros e' He'. apply He. by right.
  - pose proof (place_ge ps (e + sh + 1)).
    assert (∃ b' l', (if keep then builder_push_index b p else Some b) = Some b' ∧ bld b' l' ∧
              elems l' ++ minsert keep (e :: es) ps (sh + 1) = out) as (b' & l' & -> & Hb' & E).
    { destruct keep; [|by exists b, l].
      destruct (bld_push b l p (minsert true (e :: es) ps (sh + 1))) as (b' & l' & -> & Hb' & E);
        [done|by rewrite <- Ho in Hout|apply Hp; by left|].
      exists b', l'. split_and!; try done. by rewrite E, <- app_assoc. }
    simpl. rewrite N2. simpl. wsimp. eexists _, (e :: es), ps. split; [done|]. split; [|simpl; lia].
    split_and!; try done; [lia|by exists l'| |].
    + intros e' He'. destruct (He e' He') as [? Hpl]. split; [done|]. simpl in Hpl.
      destruct (Z.ltb_spec (e' + sh) p) as [C'|C'].
      * pose proof (icursor_increasing v b1 _ Hv H1) as Hi. inversion Hi as [|? ? _ Hlt]; subst.
        rewrite Forall_forall in Hlt.
        apply elem_of_cons in He' as [->|He']; [lia|]. specialize (Hlt e' He'). lia.
      * by rewrite Z.add_assoc.
    + intros q Hq. apply Hp. by right.
Qed.

Lemma both_more_cursors v w (b1 b2 : ix) (sh : Z) b es ps :
  icursor v b1 es → icursor w b2 ps →
  both_more v w (b1, b2, sh, b) =
    Some (match es, ps with [], _ | _, [] => false | _, _ => true end).
Proof.
  intros H1 H2. unfold both_more. rewrite (icursor_more _ _ _ H1), (icursor_more _ _ _ H2).
  by destruct es, ps.
Qed.

Lemma insert_loop keep v w out n s es ps :
  set_ok v → set_ok w → increasing out → inserting keep v w out s es ps →
  (length es + length ps < n)%nat →
  ∃ s' es' ps', loop n (both_more v w) (insert_body keep v w) s = Some s' ∧
    inserting keep v w out s' es' ps' ∧ (es' = [] ∨ ps' = []).
Proof.
  intros Hv Hw Hout. revert s es ps. induction n as [|n IH]; intros s es ps HI Hn; [lia|].
  destruct s as [[[b1 b2] sh] b] eqn:Es. cbn [loop]. pose proof HI as (H1 & H2 & _).
  rewrite (both_more_cursors v w b1 b2 sh b es ps H1 H2). cbn [mbind option_bind].
  destruct es as [|e es]; [eauto 10|]. destruct ps as [|p ps]; [eauto 10|].
  destruct (inserting_step keep v w out (b1, b2, sh, b) e es p ps) as (s' & es' & ps' & -> & HI' & Hl); [done..|].
  apply (IH s' es' ps' HI'). lia.
Qed.

(** The two drain loops after it. *)
Lemma insert_drain (keep : bool) v w out (b1 b2 : ix) sh b es ps :
  set_ok v → set_ok w → increasing out → inserting keep v w out (b1, b2, sh, b) es ps →
  es = [] ∨ ps = [] →
  ∃ b' v', (b ← drain v b1 (λ i, i ⊕ sh) b;
            if keep then drain w b2 (λ i, i) b else Some b) = Some b' ∧
    builder_finalize b' = Some v' ∧ set_ok v' ∧ elems (flat v') = out.
Proof.
  intros Hv Hw Hout (H1 & H2 & Hsh & (l & Hb & Ho) & He & Hp) Hend.
  assert ((λ i, i ⊕ sh) <$> es = (λ i, i + sh) <$> es) as Eadd.
  { apply list_fmap_ext. intros i x Hx. apply list_elem_of_lookup_2 in Hx. destruct (He x Hx).
    pose proof (place_ge ps (x + sh)). by wsimp. }
  assert (minsert keep es ps sh = ((λ i, i + sh) <$> es) ++ (if keep then ps else [])) as Em.
  { destruct Hend as [-> | ->]; [by destruct ps|]. destruct es; simpl; destruct keep; by rewrite ?app_nil_r. }
  rewrite Em, app_assoc in Ho.
  assert (increasing (elems l ++ ((λ i, i + sh) <$> es))) as Hi1.
  { rewrite <- Ho in Hout. by apply increasing_app in Hout as (? & _ & _). }
  destruct (drain_spec v b1 es (λ i, i ⊕ sh) b l) as (b' & l' & -> & Hb' & E); [done|done|done| | |].
  { by rewrite Eadd. }
  { intros e Hein. destruct (He e Hein). pose proof (place_ge ps (e + sh)). wsimp. lia. }
  simpl. rewrite Eadd in E. rewrite <- E in Ho. destruct keep.
  - destruct (drain_spec w b2 ps (λ i, i) b' l') as (b2' & l2' & -> & Hb2 & E2); [done|done|done| | |].
    { rewrite list_fmap_id. by rewrite Ho. }
    { done. }
    destruct (bld_finalize b2' l2' Hb2) as (v' & Hv' & Hok' & Ef).
    exists b2', v'. split_and!; try done. by rewrite Ef, E2, list_fmap_id.
  - destruct (bld_finalize b' l' Hb') as (v' & Hv' & Hok' & Ef).
    exists b', v'. split_and!; try done. rewrite Ef. by rewrite app_nil_r in Ho.
Qed.

(** ** The operations *)

Lemma place_block a n rest e : 0 <= n → a <= e → place (seqZ a n ++ rest) e = place rest (e + n).
Proof.
  intros Hn. revert a e. pattern n. revert n Hn. apply natlike_ind.
  - intros a e _. simpl. by rewrite Z.add_0_r.
  - intros n Hn IH a e Ha. rewrite seqZ_cons by lia. simpl.
    rewrite (proj2 (Z.ltb_ge e a)), Z.pred_succ, IH by lia. f_equal. lia.
Qed.

(** [place] is the specification of [shift] on index sequences. *)
Lemma place_shift lo l e :
  ranges_ok lo l → 0 <= e → e + total l < W64 → place (elems l) e = shift_ranges l e.
Proof.
  revert lo e. induction l as [|r l IH]; intros lo e; [done|]. intros (? & ? & Hs) He Ht.
  pose proof (total_nonneg _ _ Hs) as [? _]. simpl in Ht. rewrite elems_cons. simpl.
  destruct (Z.ltb_spec e r.1) as [C|C].
  - rewrite seqZ_cons by lia. simpl. by rewrite (proj2 (Z.ltb_lt e r.1)).
  - rewrite place_block by lia. wsimp. apply (IH (r.2 + 1)); [done|lia|lia].
Qed.

Lemma place_le ps e : place ps e <= e + Z.of_nat (length ps).
Proof.
  revert e. induction ps as [|p ps IH]; intros e; simpl; [lia|].
  destruct (e <? p); [lia|]. specialize (IH (e + 1)). lia.
Qed.

(** [v]'s indices fit in [size_t] after they moved up by the size of [w]. *)
Definition room v w : Prop := ∀ e, mem e (flat v) → e + total (flat w) < npos.

Lemma mem_bounds v e : set_ok v → mem e (flat v) → 0 <= e < npos.
Proof.
  intros [_ Hs Hb] He. split; [by eapply mem_ge|]. unfold mem, in_range in He.
  rewrite Exists_exists in He. destruct He as (r & Hr & He). unfold bounded in Hb.
  rewrite Forall_forall in Hb. specialize (Hb r Hr). lia.
Qed.

Lemma place_flat v w e :
  set_ok v → set_ok w → room v w → e ∈ elems (flat v) →
  place (elems (flat w)) e = shift w e ∧ place (elems (flat w)) e < npos.
Proof.
  intros Hv Hw Hr He%elem_of_elems. pose proof (mem_bounds v e Hv He). pose proof (Hr e He).
  split; [apply (place_shift 0); [by destruct Hw|lia|lia]|].
  pose proof (place_le (elems (flat w)) e). rewrite (length_elems 0) in * by (by destruct Hw). lia.
Qed.

(** What both operations compute once neither set is trivial. *)
Lemma insert_merge (keep : bool) v w :
  set_ok v → set_ok w → room v w →
  ∃ v', ('(b1, b2, shift, b) ← loop (merge_fuel v w) (both_more v w) (insert_body keep v w)
           (ix_begin v, ix_begin w, 0, builder_init v);
         b ← (b ← drain v b1 (λ i, i ⊕ shift) b; if keep then drain w b2 (λ i, i) b else Some b);
         builder_finalize b) = Some v' ∧
    denotes v' (λ j, (keep = true ∧ mem j (flat w)) ∨ ∃ e, mem e (flat v) ∧ j = shift w e).
Proof.
  intros Hv Hw Hr. set (out := minsert keep (elems (flat v)) (elems (flat w)) 0).
  pose proof (elems_increasing 0 _ (so_sorted _ Hv)) as Hiv.
  pose proof (elems_increasing 0 _ (so_sorted _ Hw)) as Hiw.
  assert (increasing out) as Hout by by apply minsert_increasing.
  destruct (insert_loop keep v w out (merge_fuel v w) (ix_begin v, ix_begin w, 0, builder_init v)
    (elems (flat v)) (elems (flat w))) as ([[[b1 b2] sh] b] & es & ps & -> & HI & Hend); [done..| | |].
  - split_and!; [by apply icursor_begin|by apply icursor_begin|done| | |].
    + exists []. split; [|done]. split_and!; [apply built_init|done|done].
    + intros e He. rewrite Z.add_0_r. split; [|by destruct (place_flat v w e Hv Hw Hr He)].
      apply elem_of_elems in He. by apply (mem_bounds v).
    + intros p Hp%elem_of_elems. by apply (mem_bounds w).
  - unfold merge_fuel, ix_fuel. pose proof (icursor_length v _ _ Hv (icursor_begin v Hv)).
    pose proof (icursor_length w _ _ Hw (icursor_begin w Hw)). lia.
  - cbn [mbind option_bind].
    destruct (insert_drain keep v w out b1 b2 sh b es ps Hv Hw Hout HI Hend) as (b' & v' & -> & Hf & Hok' & E).
    exists v'. split; [done|]. split; [done|]. intros j.
    rewrite <- elem_of_elems, E. unfold out. rewrite elem_of_minsert, elem_of_elems by done.
    setoid_rewrite Z.add_0_r. split; (intros [?|(e & He & ->)]; [by left|right; exists e]).
    + split; [by apply elem_of_elems|]. by apply place_flat with v.
    + split; [by apply elem_of_elems|]. symmetry. apply place_flat with v; try done. by apply elem_of_elems.
Qed.

(** [insert_at(positions)]: the positions are added, and every index moves to
    the position that [positions.shift] gives it. *)
Lemma insert_at_set_spec v w P Q :
  denotes v P → denotes w Q → room v w →
  ∃ v', insert_at_set v w = Some v' ∧ denotes v' (λ j, Q j ∨ ∃ e, P e ∧ j = shift w e).
Proof.
  intros [Hv HP] [Hw HQ] Hr. unfold insert_at_set.
  destruct (v_empty w) eqn:Ew.
  { destruct w; [|done]. exists v. split; [done|]. split; [done|]. intros j. rewrite HP, <- HQ.
    simpl. rewrite mem_nil. unfold shift. simpl. split; [eauto|intros [[]|(e & ? & ->)]; done]. }
  destruct (v_empty v) eqn:Ev.
  { destruct v; [|done]. exists w. split; [done|]. split; [done|]. intros j. setoid_rewrite <- HP.
    simpl. setoid_rewrite mem_nil. rewrite HQ. split; [by left|intros [?|(e & [] & _)]; done]. }
  match goal with |- context [loop _ _ ?bd _] => change bd with (insert_body true v w) end.
  destruct (insert_merge true v w Hv Hw Hr) as (v' & E & Hok' & Hm).
  exists v'. split.
  - destruct (loop _ _ _ _) as [[[[b1 b2] sh] b]|]; [|done]. cbn [mbind option_bind] in *.
    by destruct (drain v b1 _ b).
  - split; [done|]. intros j. rewrite Hm, HQ. setoid_rewrite HP. tauto.
Qed.

(** [shift_for_insert_at(values)]: the same without adding the positions. *)
Lemma shift_for_insert_at_set_spec v w P Q :
  denotes v P → denotes w Q → room v w →
  ∃ v', shift_for_insert_at_set v w = Some v' ∧ denotes v' (λ j, ∃ e, P e ∧ j = shift w e).
Proof.
  intros [Hv HP] [Hw HQ] Hr. unfold shift_for_insert_at_set.
  assert ((∀ e, P e → shift w e = e) → denotes v (λ j, ∃ e, P e ∧ j = shift w e)) as Hid.
  { intros He. split; [done|]. intros j. rewrite HP. split.
    - intros Hj. exists j. by rewrite He.
    - intros (e & ? & ->). by rewrite He. }
  destruct v as [|cv v]; [exists []; split; [done|]; apply Hid; intros e He%HP; by apply mem_nil in He|].
  destruct w as [|cw w]; [exists (cv :: v); split; [done|]; by apply Hid|].
  simpl orb. cbn [v_empty head]. destruct (snoc_cases (cv :: v)) as [|(v0 & lc & Elc)]; [done|].
  assert (last (cv :: v) = Some lc) as -> by (rewrite Elc; apply last_snoc). cbn [mbind option_bind].
  destruct (Z.leb_spec (c_end lc) (c_begin cw)) as [C|C].
  { exists (cv :: v). split; [done|]. apply Hid. intros e He%HP. unfold shift.
    pose proof (so_vec _ Hw) as Hcw. inversion Hcw as [|? ? [Hne _ Hbg _ _] _]; subst.
    rewrite flat_cons. destruct (data cw) as [|r d]; [done|]. simpl in *.
    rewrite (proj2 (Z.ltb_lt e r.1)); [done|]. rewrite <- Hbg.
    pose proof (so_vec _ Hv) as Hcv. pose proof (so_sorted _ Hv) as Hsv. rewrite Elc in *.
    pose proof (chunks_all_below v0 lc Hcv Hsv e He). lia. }
  match goal with |- context [loop _ _ ?bd _] => change bd with (insert_body false (cv :: v) (cw :: w)) end.
  destruct (insert_merge false _ _ Hv Hw Hr) as (v' & E & Hok' & Hm).
  exists v'. split.
  - destruct (loop _ _ _ _) as [[[[b1 b2] sh] b]|]; [|done]. cbn [mbind option_bind] in *.
    by destruct (drain (cv :: v) b1 _ b).
  - split; [done|]. intros j. rewrite Hm. setoid_rewrite HP. split; [intros [[? _]|?]; done|by right].
Qed.
End loops.

(** * Correctness of [IndexSet]: erasing a set of positions *)

Import IndexSet.

(** The number of positions below [e]. *)
Definition below (ps : list Z) (e : Z) : Z := Z.of_nat (length (filter (λ p, p < e) ps)).

Lemma below_nil e : below [] e = 0.
Proof. done. Qed.

Lemma below_cons_lt p ps e : p < e → below (p :: ps) e = below ps e + 1.
Proof. intros H. unfold below. rewrite filter_cons_True by done. simpl. lia. Qed.

Lemma below_none ps e : (∀ p, p ∈ ps → e <= p) → below ps e = 0.
Proof.
  intros H. induction ps as [|p ps IH]; [done|]. unfold below.
  rewrite filter_cons_False by (specialize (H p ltac:(left)); lia). apply IH. intros q Hq. apply H. by right.
Qed.

Lemma below_app l1 l2 e : below (l1 ++ l2) e = below l1 e + below l2 e.
Proof. unfold below. rewrite filter_app, length_app. lia. Qed.

Lemma below_between ps e e' : increasing ps → (∀ p, p ∈ ps → e < p) → below ps e' <= Z.max 0 (e' - e - 1).
Proof.
  revert e. induction ps as [|p ps IH]; intros e Hinc Hlt; [rewrite below_nil; lia|].
  inversion Hinc as [|? ? Hinc' Hp]; subst. rewrite Forall_forall in Hp.
  assert (e < p) by (apply Hlt; by left). destruct (Z.lt_ge_cases p e').
  - rewrite below_cons_lt by done. specialize (IH p Hinc' Hp). lia.
  - rewrite below_none; [lia|]. intros q [->|Hq]%elem_of_cons; [done|]. specialize (Hp q Hq). lia.
Qed.

Lemma below_mono ps e e' : increasing ps → e ∉ ps → e < e' → e - below ps e < e' - below ps e'.
Proof.
  intros Hinc Hn He. induction Hinc as [|p ps Hinc IH Hp]; [rewrite !below_nil; lia|].
  rewrite Forall_forall in Hp. apply not_elem_of_cons in Hn as [Hne Hn].
  destruct (Z.lt_ge_cases p e).
  - rewrite !below_cons_lt by lia. specialize (IH Hn). lia.
  - rewrite (below_none (p :: ps) e).
    + pose proof (below_between (p :: ps) e e') as Hb. assert (below (p :: ps) e' <= Z.max 0 (e' - e - 1)); [|lia].
      apply Hb; [constructor; [done|by rewrite Forall_forall]|].
      intros q [->|Hq]%elem_of_cons; [lia|]. specialize (Hp q Hq). lia.
    + intros q [->|Hq]%elem_of_cons; [lia|]. specialize (Hp q Hq). lia.
Qed.

(** Positions below every remaining index only add to the shift. *)
Lemma below_skip p ps e : increasing (p :: ps) → p < e →
  ((e ∉ p :: ps) ↔ (e ∉ ps)) ∧ below (p :: ps) e = below ps e + 1.
Proof.
  intros Hinc He. split; [|by apply below_cons_lt]. rewrite not_elem_of_cons. split; [tauto|].
  intros H. split; [lia|done].
Qed.

Lemma elem_of_merase es ps sh j :
  increasing es → increasing ps →
  j ∈ merase es ps sh ↔ ∃ e, e ∈ es ∧ e ∉ ps ∧ j = e - sh - below ps e.
Proof.
  revert ps sh. induction es as [|e es IH]; intros ps sh Hes Hps.
  { assert (merase [] ps sh = []) as -> by (by destruct ps). rewrite elem_of_nil.
    split; [done|intros (e & He & _); by apply elem_of_nil in He]. }
  pose proof Hes as Hes'. inversion Hes' as [|? ? Hes1 Hlt]; subst. rewrite Forall_forall in Hlt.
  revert sh. induction Hps as [|p ps Hps IHp Hltp]; intros sh.
  { assert (merase (e :: es) [] sh = (λ x, x - sh) <$> (e :: es)) as -> by done.
    rewrite list_elem_of_fmap. setoid_rewrite below_nil. split.
    - intros (x & -> & Hx). exists x. split_and!; [done|by intros ?%elem_of_nil|lia].
    - intros (x & Hx & _ & ->). exists x. split; [lia|done]. }
  assert (increasing (p :: ps)) as Hpp by by constructor. pose proof Hltp as Hltp'.
  rewrite Forall_forall in Hltp'. simpl merase.
  destruct (Z.ltb_spec e p) as [C|C]; [|destruct (Z.eqb_spec e p) as [->|C']].
  - rewrite elem_of_cons, IH by done.
    assert (e ∉ p :: ps) as Hn.
    { intros [->|Hq]%elem_of_cons; [lia|]. specialize (Hltp' e Hq). lia. }
    assert (below (p :: ps) e = 0) as Hb.
    { apply below_none. intros q [->|Hq]%elem_of_cons; [lia|]. specialize (Hltp' q Hq). lia. }
    split.
    + intros [->|(x & Hx & Hxn & ->)]; [exists e|exists x].
      * rewrite Hb. split_and!; [by left|done|lia].
      * split_and!; [by right|done|done].
    + intros (x & [->|Hx]%elem_of_cons & Hxn & ->); [left; lia|right; eauto].
  - rewrite IH by done. split.
    + intros (x & Hx & Hxn & ->). exists x. destruct (below_skip p ps x Hpp (Hlt x Hx)) as [Hs ->].
      split_and!; [by right|by apply Hs|lia].
    + intros (x & [->|Hx]%elem_of_cons & Hxn & ->); [by destruct Hxn; left|].
      exists x. destruct (below_skip p ps x Hpp (Hlt x Hx)) as [Hs ->].
      split_and!; [done|by apply Hs|lia].
  - change ((fix aux (ps0 : list Z) (sh0 : Z) {struct ps0} : list Z := _) ps (sh + 1))
      with (merase (e :: es) ps (sh + 1)).
    rewrite IHp. assert (∀ x, x ∈ e :: es → p < x) as Hpx.
    { intros x [->|Hx]%elem_of_cons; [lia|]. specialize (Hlt x Hx). lia. }
    split; intros (x & Hx & Hxn & ->); exists x;
      destruct (below_skip p ps x Hpp (Hpx x Hx)) as [Hs ->]; (split_and!; [done|by apply Hs|lia]).
Qed.

Lemma merase_increasing es ps sh : increasing es → increasing ps → increasing (merase es ps sh).
Proof.
  revert ps sh. induction es as [|e es IH]; intros ps sh Hes Hps.
  { assert (merase [] ps sh = []) as -> by (by destruct ps). constructor. }
  pose proof Hes as Hes'. inversion Hes' as [|? ? Hes1 Hlt]; subst. rewrite Forall_forall in Hlt.
  revert sh. induction Hps as [|p ps Hps IHp Hltp]; intros sh.
  { assert (merase (e :: es) [] sh = (λ x, x - sh) <$> (e :: es)) as -> by done.
    clear -Hes. induction Hes as [|x xs H IH Hx]; simpl; constructor; [done|].
    apply Forall_fmap. eapply Forall_impl; [exact Hx|]. simpl. lia. }
  assert (increasing (p :: ps)) as Hpp by by constructor. rewrite Forall_forall in Hltp. simpl merase.
  destruct (Z.ltb_spec e p) as [C|C]; [|destruct (Z.eqb_spec e p) as [->|C']].
  - constructor; [by apply IH|]. apply Forall_forall.
    intros j (x & Hx & Hxn & ->)%elem_of_merase; [|done|done].
    assert (e ∉ p :: ps) as Hn.
    { intros [->|Hq]%elem_of_cons; [lia|]. specialize (Hltp e Hq). lia. }
    pose proof (below_mono (p :: ps) e x Hpp Hn (Hlt x Hx)) as Hm.
    rewrite (below_none (p :: ps) e) in Hm; [lia|].
    intros q [->|Hq]%elem_of_cons; [lia|]. specialize (Hltp q Hq). lia.
  - by apply IH.
  - apply IHp.
Qed.

Section loops.
Context {B : BuildConfig}.
Implicit Types (v w : vec) (b : builder) (l : list range).

Definition erase_body v w (s : merge_state) : option merge_state :=
  let '(b1, b2, shift, b) := s in
  i1 ← ix_deref v b1;
  i2 ← ix_deref w b2;
  if i1 <? i2 then
    b' ← builder_push_index b (i1 ⊖ shift); b1' ← ix_next v b1; Some (b1', b2, shift, b')
  else if i1 =? i2 then
    b1' ← ix_next v b1; b2' ← ix_next w b2; Some (b1', b2', shift ⊕ 1, b)
  else
    b2' ← ix_next w b2; Some (b1, b2', shift ⊕ 1, b).

Definition erasing v w (out : list Z) (s : merge_state) (es ps : list Z) : Prop :=
  let '(b1, b2, sh, b) := s in
  icursor v b1 es ∧ icursor w b2 ps ∧ 0 <= sh ∧
  (∃ l, bld b l ∧ elems l ++ merase es ps sh = out) ∧
  (∀ e, e ∈ es → sh <= e < npos) ∧ (∀ p, p ∈ ps → sh <= p < npos).

Lemma erasing_step v w out s e es p ps :
  set_ok v → set_ok w → increasing out → erasing v w out s (e :: es) (p :: ps) →
  ∃ s' es' ps', erase_body v w s = Some s' ∧ erasing v w out s' es' ps' ∧
    (length es' + length ps' < length (e :: es) + length (p :: ps))%nat.
Proof.
  intros Hv Hw Hout. destruct s as [[[b1 b2] sh] b]. intros (H1 & H2 & Hsh & (l & Hb & Ho) & He & Hp).
  destruct (icursor_step v b1 e es Hv H1) as (D1 & x1 & N1 & C1).
  destruct (icursor_step w b2 p ps Hw H2) as (D2 & x2 & N2 & C2).
  pose proof (He e ltac:(by left)). pose proof (Hp p ltac:(by left)).
  pose proof (icursor_increasing v b1 _ Hv H1) as Hi1. inversion Hi1 as [|? ? _ Hlt1]; subst.
  pose proof (icursor_increasing w b2 _ Hw H2) as Hi2. inversion Hi2 as [|? ? _ Hlt2]; subst.
  rewrite Forall_forall in Hlt1, Hlt2.
  unfold erase_body. rewrite D1, D2. simpl. wsimp. simpl in Hout |- *.
  assert (∀ q, q ∈ ps → sh + 1 <= q < npos) as Hps.
  { intros q Hq. specialize (Hlt2 q Hq). pose proof (Hp q ltac:(by right)). lia. }
  destruct (Z.ltb_spec e p) as [C|C]; [|destruct (Z.eqb_spec e p) as [->|C']].
  - destruct (bld_push b l (e - sh) (merase es (p :: ps) sh)) as (b' & l' & -> & Hb' & E); [done|done|lia|].
    simpl. rewrite N1. simpl. eexists _, es, (p :: ps). split; [done|]. split; [|simpl; lia].
    split_and!; try done.
    + exists l'. split; [done|]. by rewrite E, <- app_assoc.
    + intros e' He'. apply He. by right.
  - rewrite N1, N2. simpl. eexists _, es, ps. split; [done|]. split; [|simpl; lia].
    split_and!; try done; [lia|by exists l|]. intros e' He'. specialize (Hlt1 e' He').
    pose proof (He e' ltac:(by right)). lia.
  - rewrite N2. simpl. eexists _, (e :: es), ps. split; [done|]. split; [|simpl; lia].
    split_and!; try done; [lia|by exists l|]. intros e' He'. pose proof (He e' He').
    apply elem_of_cons in He' as [->|He']; [lia|]. specialize (Hlt1 e' He'). lia.
Qed.

Lemma erase_loop v w out n s es ps :
  set_ok v → set_ok w → increasing out → erasing v w out s es ps → (length es + length ps < n)%nat →
  ∃ s' es' ps', loop n (both_more v w) (erase_body v w) s = Some s' ∧
    erasing v w out s' es' ps' ∧ (es' = [] ∨ ps' = []).
Proof.
  intros Hv Hw Hout. revert s es ps. induction n as [|n IH]; intros s es ps HI Hn; [lia|].
  destruct s as [[[b1 b2] sh] b] eqn:Es. cbn [loop]. pose proof HI as (H1 & H2 & _).
  rewrite (both_more_cursors v w b1 b2 sh b es ps H1 H2). cbn [mbind option_bind].
  destruct es as [|e es]; [eauto 10|]. destruct ps as [|p ps]; [eauto 10|].
  destruct (erasing_step v w out (b1, b2, sh, b) e es p ps) as (s' & es' & ps' & -> & HI' & Hl); [done..|].
  apply (IH s' es' ps' HI'). lia.
Qed.

(** [below] is the rank on index sequences. *)
Lemma below_seqZ a n e : 0 <= n → below (seqZ a n) e = Z.max 0 (Z.min e (a + n) - a).
Proof.
  intros Hn. revert a. pattern n. revert n Hn. apply natlike_ind; [intros a; rewrite seqZ_nil, below_nil by lia; lia|].
  intros n Hn IH a. rewrite seqZ_cons, Z.pred_succ by lia. destruct (Z.lt_ge_cases a e).
  - rewrite below_cons_lt, IH by done. lia.
  - rewrite below_none; [lia|]. intros q [->|Hq%elem_of_seqZ]%elem_of_cons; lia.
Qed.

Lemma below_rank lo l e : ranges_ok lo l → below (elems l) e = rank e l.
Proof.
  revert lo. induction l as [|r l IH]; intros lo; [done|]. intros (? & ? & H).
  rewrite elems_cons, below_app, below_seqZ, (IH _ H) by lia. simpl. unfold rank1. lia.
Qed.

(** [erase_at(positions)]: the indices at the positions disappear, the others
    move down by the number of positions below them. *)
Lemma erase_at_set_spec v w P Q :
  denotes v P → denotes w Q →
  ∃ v', erase_at_set v w = Some v' ∧
    denotes v' (λ j, ∃ e, P e ∧ ¬ Q e ∧ j = e - rank e (flat w)).
Proof.
  intros [Hv HP] [Hw HQ]. unfold erase_at_set.
  destruct (v_empty v) eqn:Ev; [destruct v; [|done]|].
  { exists []. split; [done|]. split; [done|]. intros j. setoid_rewrite <- HP. simpl.
    setoid_rewrite mem_nil. split; [done|by intros (e & [] & _)]. }
  destruct (v_empty w) eqn:Ew; [destruct w; [|done]|].
  { exists v. split; [done|]. split; [done|]. intros j. setoid_rewrite <- HQ. rewrite HP. simpl.
    setoid_rewrite mem_nil. split; [intros Hj; exists j; split_and!; [done|tauto|lia]|].
    intros (e & He & _ & ->). by rewrite Z.sub_0_r. }
  simpl orb. cbv iota. set (out := merase (elems (flat v)) (elems (flat w)) 0).
  pose proof (elems_increasing 0 _ (so_sorted _ Hv)) as Hiv.
  pose proof (elems_increasing 0 _ (so_sorted _ Hw)) as Hiw.
  assert (increasing out) as Hout by by apply merase_increasing.
  match goal with |- context [loop _ _ ?bd _] => change bd with (erase_body v w) end.
  destruct (erase_loop v w out (merge_fuel v w) (ix_begin v, ix_begin w, 0, builder_init v)
    (elems (flat v)) (elems (flat w))) as ([[[b1 b2] sh] b] & es & ps & -> & HI & Hend); [done..| | |].
  - split_and!; [by apply icursor_begin|by apply icursor_begin|done| | |].
    + exists []. split; [|done]. split_and!; [apply built_init|done|done].
    + intros e He%elem_of_elems. by apply (mem_bounds v).
    + intros p Hp%elem_of_elems. by apply (mem_bounds w).
  - unfold merge_fuel, ix_fuel. pose proof (icursor_length v _ _ Hv (icursor_begin v Hv)).
    pose proof (icursor_length w _ _ Hw (icursor_begin w Hw)). lia.
  - cbn [mbind option_bind]. destruct HI as (H1 & H2 & Hsh & (l & Hb & Ho) & He & Hp).
    assert ((λ i, i ⊖ sh) <$> es = merase es ps sh) as Em.
    { transitivity ((λ i, i - sh) <$> es).
      - apply list_fmap_ext. intros i x Hx. apply list_elem_of_lookup_2 in Hx. specialize (He x Hx). by wsimp.
      - destruct Hend as [-> | ->]; [by destruct ps|by destruct es]. }
    destruct (drain_spec v b1 es (λ i, i ⊖ sh) b l) as (b' & l' & -> & Hb' & E); [done|done|done| | |].
    { rewrite Em, Ho. done. }
    { intros e Hein. specialize (He e Hein). wsimp. lia. }
    cbn [mbind option_bind]. destruct (bld_finalize b' l' Hb') as (v' & -> & Hok' & Ef).
    exists v'. split; [done|]. split; [done|]. intros j.
    rewrite <- elem_of_elems, Ef, E, Em, Ho. unfold out. rewrite elem_of_merase by done.
    setoid_rewrite elem_of_elems. split; intros (e & Hm & Hn & ->); exists e;
      rewrite (below_rank 0) by (by destruct Hw).
    + split_and!; [by apply HP|by rewrite <- HQ|lia].
    + split_and!; [by apply HP|by rewrite HQ|lia].
Qed.
End loops.
