(* ===== verification/IndexSetTheorems.v ===== *)
(** * What the index set promises

    The properties of [IndexSet], stated with [denotes], and concrete instances
    of them on the four-range chunks of the debug builds. *)

From S2P Require Import Prelude RangeSet RangeVector IndexSetOps IndexSetSpec IndexSetEdits IndexSetShift IndexSetRemove IndexWalk IndexSetMerge.
Import IndexSet.

(** ** A decision procedure for the invariant *)

Fixpoint ranges_okb (lo : Z) (rs : list range) : bool :=
  match rs with
  | [] => true
  | r :: rs => (lo <=? r.1) && (r.1 <? r.2) && ranges_okb (r.2 + 1) rs
  end.

Definition chunk_okb {B : BuildConfig} (c : chunk) : bool :=
  negb (bool_decide (data c = [])) && bool_decide (length (data c) ≤ max_size)%nat
  && (c_begin c =? fst_of (data c)) && (c_end c =? lst_of (data c))
  && (c_count c =? wrap (total (data c))).

Definition set_okb {B : BuildConfig} (v : vec) : bool :=
  forallb chunk_okb v && ranges_okb 0 (flat v) && forallb (λ r, r.2 <? W64) (flat v).

Lemma ranges_okb_ok lo rs : ranges_okb lo rs = true → ranges_ok lo rs.
Proof.
  revert lo. induction rs as [|r rs IH]; intros lo; simpl; [done|].
  rewrite !andb_true_iff. intros [[? ?] ?%IH]. split_and!; [lia|lia|done].
Qed.

Lemma set_okb_ok {B : BuildConfig} (v : vec) : set_okb v = true → set_ok v.
Proof.
  unfold set_okb. rewrite !andb_true_iff. intros [[Hc Hr] Hb]. constructor.
  - apply Forall_forall. intros c Hin%list_elem_of_In. rewrite forallb_forall in Hc.
    specialize (Hc c Hin). unfold chunk_okb in Hc. rewrite !andb_true_iff in Hc.
    destruct Hc as [[[[H1 H2] H3] H4] H5]. constructor; try lia.
    + apply negb_true_iff, bool_decide_eq_false in H1. done.
    + by apply bool_decide_eq_true in H2.
  - by apply ranges_okb_ok.
  - apply Forall_forall. intros r Hin%list_elem_of_In. rewrite forallb_forall in Hb.
    specialize (Hb r Hin). simpl in Hb. lia.
Qed.

(** A checked set denotes its members. *)
Lemma denotes_self {B : BuildConfig} (v : vec) : set_okb v = true → denotes v (λ j, mem j (flat v)).
Proof. intros H. split; [by apply set_okb_ok|done]. Qed.

(** An index set of two chunks, as the debug build lays it out:
    {1, 3, 5, 7, 9, 10, 11}. *)
Definition sample : vec :=
  [Chunk [(1, 2); (3, 4); (5, 6); (7, 8)] 1 8 4; Chunk [(9, 12)] 9 12 3].

(** {2, 3, 20} *)
Definition sample2 : vec := [Chunk [(2, 4); (20, 21)] 2 21 3].

#[local] Existing Instance debug_build.

Example sample_built : of_list [1; 3; 5; 7; 9; 10; 11] = Some sample.
Proof. reflexivity. Qed.

Section theorems.
Context {B : BuildConfig}.
Implicit Types (v w : vec).

(** [add] succeeds, keeps the set well formed and adds exactly the index. *)
Theorem add_correct v P i :
  denotes v P → 0 <= i < npos → ∃ v', add v i = Some v' ∧ denotes v' (λ j, j = i ∨ P j).
Proof. apply add_spec. Qed.

(** [contains] decides membership. *)
Theorem contains_correct v P i :
  denotes v P → ∃ b, contains v i = Some b ∧ (b = true ↔ P i).
Proof.
  intros [Hok HP]. exists (memb i (flat v)). rewrite contains_spec by done. by rewrite memb_mem.
Qed.

(** [insert_at] adds the indices [i, i + n) and moves the members at [i]
    and later up by [n]. *)
Theorem insert_at_correct v P i n :
  denotes v P → 0 <= i → 0 < n → i + n < npos → (∀ j, P j → i <= j → j + n < npos) →
  ∃ v', insert_at v i n = Some v' ∧ denotes v' (inserted P i n).
Proof. apply insert_at_spec. Qed.

(** [shift_for_insert_at] moves the members at [i] and later up by [n] and
    leaves a gap. *)
Theorem shift_for_insert_at_correct v P i n :
  denotes v P → 0 <= i → 0 < n → i + n < npos → (∀ j, P j → i <= j → j + n < npos) →
  ∃ v', shift_for_insert_at v i n = Some v' ∧ denotes v' (shifted P i n).
Proof. apply shift_for_insert_at_spec. Qed.

(** [erase_at] takes the index out and moves the later members down. *)
Theorem erase_at_correct v P i :
  denotes v P → 0 <= i → ∃ v', erase_at v i = Some v' ∧ denotes v' (erased P i).
Proof. apply erase_at_spec. Qed.

(** [erase_or_unshift] does what [erase_at] does, and returns [npos] for a
    member and the index less the number of members below it otherwise. *)
Theorem erase_or_unshift_correct v P i :
  denotes v P → 0 <= i < npos →
  ∃ v' r, erase_or_unshift v i = Some (v', r) ∧ denotes v' (erased P i) ∧
    (P i → r = npos) ∧ (¬ P i → r = i - Z.of_nat (length (members_below i (flat v)))).
Proof.
  intros H Hi. destruct (erase_or_unshift_spec v P i H Hi) as (v' & Hv' & Hd).
  destruct H as [Hok HP]. eexists v', _. split; [done|]. split; [done|].
  rewrite <- HP, <- memb_mem. rewrite <- rank_members by (first [by destruct Hok | lia]).
  by destruct (memb i (flat v)).
Qed.

(** [remove] removes exactly the indices of the interval and moves nothing. *)
Theorem remove_correct v P i n :
  denotes v P → 0 <= i → 0 < n → i + n < W64 →
  ∃ v', remove v i n = Some v' ∧ denotes v' (λ j, P j ∧ ¬ i <= j < i + n).
Proof. apply remove_spec. Qed.

(** Removing a set of indices computes the difference, although the loop
    returns early when it reaches the end of the set. *)
Theorem remove_set_correct v w P Q :
  denotes v P → denotes w Q → ∃ v', remove_set v w = Some v' ∧ denotes v' (λ j, P j ∧ ¬ Q j).
Proof. apply remove_set_spec. Qed.

(** [count] from 0 is the number of members below the end, although it adds
    up the cached counts of whole chunks. *)
Theorem count_rank v e :
  set_ok v → 0 <= e < W64 → count v 0 e = Some (Z.of_nat (length (members_below e (flat v)))).
Proof.
  intros Hok He. rewrite count_spec, rank_members by (first [done | by destruct Hok | lia]). done.
Qed.

(** [shift] and [unshift] are inverse to each other: [shift] gives the
    position outside of the set that [unshift] maps back, and every position
    outside of the set is found this way. *)
Theorem shift_unshift_inverse v i :
  set_ok v → 0 <= i → i + total (flat v) < npos →
  ¬ mem (shift v i) (flat v) ∧ unshift v (shift v i) = Some i ∧
  (¬ mem i (flat v) → ∃ u, unshift v i = Some u ∧ shift v u = i).
Proof.
  intros Hok Hi Ht. pose proof (so_sorted _ Hok) as Hs.
  assert (∀ k, 0 <= k → k + total (flat v) < npos →
    k <= shift v k < W64 ∧ ¬ mem (shift v k) (flat v) ∧ shift v k - rank (shift v k) (flat v) = k) as Hsh.
  { intros k Hk Hkt. destruct (shift_ranges_spec 0 (flat v) k Hs) as (H1 & H2 & H3); [lia|lia|lia|].
    unfold shift. split; [|done]. split; [done|].
    pose proof (rank_le_total (shift_ranges (flat v) k) 0 (flat v) Hs). lia. }
  destruct (Hsh i Hi Ht) as (H1 & H2 & H3). split; [done|]. split.
  - rewrite unshift_spec by (done || lia). by rewrite H3.
  - intros Hn. pose proof (rank_nonneg i (flat v)). pose proof (rank_le 0 i (flat v) Hs).
    exists (i - rank i (flat v)). split; [apply unshift_spec; [done|lia]|].
    destruct (Hsh (i - rank i (flat v))) as (G1 & G2 & G3); [lia|lia|].
    apply (unshifted_inj (flat v)); [done|lia|lia|done|done|done].
Qed.

(** [add_shifted] adds the shifted index, and returns it. *)
Theorem add_shifted_correct v P i :
  denotes v P → 0 <= i → i + total (flat v) < npos →
  ∃ v', add_shifted v i = Some (v', shift v i) ∧ denotes v' (λ j, j = shift v i ∨ P j).
Proof. apply add_shifted_spec. Qed.

(** Inserting a set of positions adds the positions and moves every member
    to where [shift] over the positions puts it. *)
Theorem insert_at_set_correct v w P Q :
  denotes v P → denotes w Q → room v w →
  ∃ v', insert_at_set v w = Some v' ∧ denotes v' (λ j, Q j ∨ ∃ e, P e ∧ j = shift w e).
Proof. apply insert_at_set_spec. Qed.

(** [shift_for_insert_at] of a set moves every member to where [shift] over
    the positions puts it. *)
Theorem shift_for_insert_at_set_correct v w P Q :
  denotes v P → denotes w Q → room v w →
  ∃ v', shift_for_insert_at_set v w = Some v' ∧ denotes v' (λ j, ∃ e, P e ∧ j = shift w e).
Proof. apply shift_for_insert_at_set_spec. Qed.

(** Erasing a set of positions drops the members at the positions and
    moves the others down by the number of positions below them. *)
Theorem erase_at_set_correct v w P Q :
  denotes v P → denotes w Q →
  ∃ v', erase_at_set v w = Some v' ∧
    denotes v' (λ j, ∃ e, P e ∧ ¬ Q e ∧ j = e - rank e (flat w)).
Proof. apply erase_at_set_spec. Qed.

(** The self-check of the debug builds accepts every well-formed set, and
    two well-formed sets of the same indices hold the same ranges, so that every
    sequence of operations that yields the same members yields the same ranges. *)
Theorem representation_canonical v w P :
  denotes v P → denotes w P → verify v = true ∧ flat v = flat w.
Proof.
  intros [Hv HP] [Hw HQ]. split; [by apply verify_set_ok|].
  apply (ranges_ok_ext 0); [by destruct Hv|by destruct Hw|]. intros j. by rewrite HP, HQ.
Qed.
End theorems.

(** ** Instances on concrete sets *)

(** Enumerate the members of a concrete set. *)
Ltac concrete_members H :=
  cbv [flat mbind list_bind data app sample sample2] in H;
  repeat first [apply mem_nil in H as [] | apply mem_cons in H as [H|H]; [simpl in H|]].

Lemma sample_denotes : denotes sample (λ j, mem j (flat sample)).
Proof. by apply denotes_self. Qed.

Lemma sample2_denotes : denotes sample2 (λ j, mem j (flat sample2)).
Proof. by apply denotes_self. Qed.

Lemma add_witness : ∃ v', add sample 8 = Some v' ∧ denotes v' (λ j, j = 8 ∨ mem j (flat sample)).
Proof. apply (add_correct sample _ 8); [exact sample_denotes|lia]. Defined.

Lemma contains_witness : ∃ b, contains sample 9 = Some b ∧ (b = true ↔ mem 9 (flat sample)).
Proof. apply (contains_correct sample (λ j, mem j (flat sample)) 9). exact sample_denotes. Defined.

Lemma insert_at_witness :
  ∃ v', insert_at sample 4 3 = Some v' ∧ denotes v' (inserted (λ j, mem j (flat sample)) 4 3).
Proof.
  apply (insert_at_correct sample _ 4 3); [exact sample_denotes|lia..|].
  intros j Hj _. concrete_members Hj; lia.
Defined.

Lemma shift_for_insert_at_witness :
  ∃ v', shift_for_insert_at sample 10 2 = Some v' ∧ denotes v' (shifted (λ j, mem j (flat sample)) 10 2).
Proof.
  apply (shift_for_insert_at_correct sample _ 10 2); [exact sample_denotes|lia..|].
  intros j Hj _. concrete_members Hj; lia.
Defined.

Lemma erase_at_witness :
  ∃ v', erase_at sample 8 = Some v' ∧ denotes v' (erased (λ j, mem j (flat sample)) 8).
Proof. apply (erase_at_correct sample _ 8); [exact sample_denotes|lia]. Defined.

Lemma erase_or_unshift_witness :
  ∃ v' r, erase_or_unshift sample 8 = Some (v', r) ∧ denotes v' (erased (λ j, mem j (flat sample)) 8) ∧
    (mem 8 (flat sample) → r = npos) ∧
    (¬ mem 8 (flat sample) → r = 8 - Z.of_nat (length (members_below 8 (flat sample)))).
Proof. apply (erase_or_unshift_correct sample (λ j, mem j (flat sample)) 8); [exact sample_denotes|lia]. Defined.

Lemma remove_witness :
  ∃ v', remove sample 3 8 = Some v' ∧ denotes v' (λ j, mem j (flat sample) ∧ ¬ 3 <= j < 3 + 8).
Proof. apply (remove_correct sample _ 3 8); [exact sample_denotes|lia..]. Defined.

Lemma remove_set_witness :
  ∃ v', remove_set sample sample2 = Some v' ∧
    denotes v' (λ j, mem j (flat sample) ∧ ¬ mem j (flat sample2)).
Proof. apply (remove_set_correct sample sample2); [exact sample_denotes|exact sample2_denotes]. Defined.

Lemma count_witness : count sample 0 11 = Some (Z.of_nat (length (members_below 11 (flat sample)))).
Proof. apply (count_rank sample 11); [exact (proj1 sample_denotes)|lia]. Defined.

Lemma shift_unshift_witness :
  ¬ mem (shift sample 2) (flat sample) ∧ unshift sample (shift sample 2) = Some 2 ∧
  (¬ mem 2 (flat sample) → ∃ u, unshift sample 2 = Some u ∧ shift sample u = 2).
Proof.
  apply (shift_unshift_inverse sample 2); [exact (proj1 sample_denotes)|lia|vm_compute; reflexivity].
Defined.

Lemma add_shifted_witness :
  ∃ v', add_shifted sample 2 = Some (v', shift sample 2) ∧
    denotes v' (λ j, j = shift sample 2 ∨ mem j (flat sample)).
Proof.
  apply (add_shifted_correct sample _ 2); [exact sample_denotes|lia|vm_compute; reflexivity].
Defined.

Lemma sample_room : room sample sample2.
Proof. intros e He. concrete_members He; simpl; lia. Qed.

Lemma insert_at_set_witness :
  ∃ v', insert_at_set sample sample2 = Some v' ∧
    denotes v' (λ j, mem j (flat sample2) ∨ ∃ e, mem e (flat sample) ∧ j = shift sample2 e).
Proof.
  apply (insert_at_set_correct sample sample2 (λ j, mem j (flat sample)) (λ j, mem j (flat sample2)));
    [exact sample_denotes|exact sample2_denotes|exact sample_room].
Defined.

Lemma shift_for_insert_at_set_witness :
  ∃ v', shift_for_insert_at_set sample sample2 = Some v' ∧
    denotes v' (λ j, ∃ e, mem e (flat sample) ∧ j = shift sample2 e).
Proof.
  apply (shift_for_insert_at_set_correct sample sample2 (λ j, mem j (flat sample)) (λ j, mem j (flat sample2)));
    [exact sample_denotes|exact sample2_denotes|exact sample_room].
Defined.

Lemma erase_at_set_witness :
  ∃ v', erase_at_set sample sample2 = Some v' ∧
    denotes v' (λ j, ∃ e, mem e (flat sample) ∧ ¬ mem e (flat sample2) ∧ j = e - rank e (flat sample2)).
Proof.
  apply (erase_at_set_correct sample sample2 (λ j, mem j (flat sample)) (λ j, mem j (flat sample2)));
    [exact sample_denotes|exact sample2_denotes].
Defined.

(** The same indices in another chunk layout. *)
Definition sample' : vec :=
  [Chunk [(1, 2); (3, 4)] 1 4 2; Chunk [(5, 6); (7, 8); (9, 12)] 5 12 5].

Lemma canonical_witness : verify sample = true ∧ flat sample = flat sample'.
Proof.
  apply (representation_canonical sample sample' (λ j, mem j (flat sample)));
    [exact sample_denotes|split; [apply set_okb_ok; reflexivity|intros j; reflexivity]].
Defined.

(** ** Where the code does not do what it means to *)

(** [count] from inside a chunk stops at the first range of the next chunk: of
    the four members in [3, 10) of a well-formed set it counts three. *)
Theorem count_misses_next_chunk :
  set_okb sample = true ∧ count sample 3 10 = Some 3 ∧
  rank 10 (flat sample) - rank 3 (flat sample) = 5 - 1.
Proof. vm_compute. auto. Qed.

(** [ChunkedRangeVectorBuilder::push_back] caches a count of one for a range of
    any size that starts a chunk, so that [add_shifted_by] yields a set that
    fails [verify] and whose [count] is wrong. *)
Theorem add_shifted_by_miscounts :
  let v := [Chunk [(20, 22); (30, 32); (40, 42)] 20 42 6] in
  let w := [Chunk [(1, 2); (3, 4); (5, 6); (7, 8)] 1 8 4] in
  let r := [Chunk [(1, 2); (3, 4); (5, 6); (7, 8)] 1 8 4; Chunk [(20, 22); (30, 32); (40, 42)] 20 42 5] in
  set_okb v = true ∧ set_okb w = true ∧ add_shifted_by v [] w = Some r ∧
  verify r = false ∧ count r 0 100 = Some 9 ∧ total (flat r) = 10.
Proof. vm_compute. split_and!; reflexivity. Qed.
