(* ===== verification/Ranks.v ===== *)
(** * How the operations of an index set change its ranks

    Positions outside of a set correspond to their number below; these lemmas
    say what inserting, erasing and adding members does to that number, from
    the members alone. *)

From S2P Require Import Prelude RangeSet IndexSetEdits IndexSetShift.

(** The rank is the only function that grows by one at each member. *)
Lemma rank_char l (f : Z → Z) :
  ranges_ok 0 l → f 0 = 0 → (∀ j, 0 <= j → f (j + 1) = f j + (if memb j l then 1 else 0)) →
  ∀ j, 0 <= j → rank j l = f j.
Proof.
  intros Hs H0 Hf. apply natlike_ind.
  - by rewrite (rank_below 0), H0.
  - intros j Hj IH. unfold Z.succ. by rewrite (rank_succ 0), Hf, IH.
Qed.

(** [memb] of a set that is given by its members. *)
Lemma memb_iff j l (P : Prop) (b : bool) : (mem j l ↔ P) → (b = true ↔ P) → memb j l = b.
Proof. intros H1 H2. apply eq_true_iff_eq. by rewrite memb_mem, H1, H2. Qed.

Lemma memb_false j l : ¬ mem j l → memb j l = false.
Proof. intros H. apply not_true_iff_false. by rewrite memb_mem. Qed.

Section ranks.
Variables (l l' : list range).
Hypothesis (Hl : ranges_ok 0 l) (Hl' : ranges_ok 0 l').

Lemma rank_inserted k n :
  0 <= k → 0 < n → (∀ j, mem j l' ↔ inserted (λ j, mem j l) k n j) →
  ∀ j, 0 <= j →
    rank j l' = if j <=? k then rank j l else if j <=? k + n then rank k l + (j - k) else rank (j - n) l + n.
Proof.
  intros Hk Hn Hm. apply rank_char; [done| |].
  - rewrite (proj2 (Z.leb_le 0 k)) by done. by rewrite (rank_below 0).
  - intros j Hj. destruct (Z.lt_trichotomy j k) as [C|[C|C]].
    + rewrite !(proj2 (Z.leb_le _ k)), (rank_succ 0) by (done || lia). do 2 f_equal.
      rewrite (memb_iff j l' (mem j l) (memb j l)); [done| |by rewrite memb_mem].
      rewrite Hm. unfold inserted. intuition lia.
    + subst j. rewrite (proj2 (Z.leb_gt (k + 1) k)), (proj2 (Z.leb_le (k + 1) (k + n))), (proj2 (Z.leb_le k k)) by lia.
      rewrite (memb_iff k l' True true) by (rewrite ?Hm; unfold inserted; intuition lia). lia.
    + rewrite !(proj2 (Z.leb_gt _ k)) by lia. destruct (Z.lt_ge_cases j (k + n)).
      * rewrite !(proj2 (Z.leb_le _ (k + n))) by lia.
        rewrite (memb_iff j l' True true) by (rewrite ?Hm; unfold inserted; intuition lia). lia.
      * rewrite (proj2 (Z.leb_gt (j + 1) (k + n))) by lia.
        replace (j + 1 - n) with (j - n + 1) by lia. rewrite (rank_succ 0) by done.
        rewrite (memb_iff j l' (mem (j - n) l) (memb (j - n) l)); [| |by rewrite memb_mem].
        -- destruct (Z.leb_spec j (k + n)); [|lia]. replace (j - n) with k by lia. lia.
        -- rewrite Hm. unfold inserted. intuition lia.
Qed.

Lemma rank_erased k :
  0 <= k → (∀ j, mem j l' ↔ erased (λ j, mem j l) k j) →
  ∀ j, 0 <= j → rank j l' = if j <=? k then rank j l else rank (j + 1) l - (if memb k l then 1 else 0).
Proof.
  intros Hk Hm. apply rank_char; [done| |].
  - rewrite (proj2 (Z.leb_le 0 k)) by done. by rewrite (rank_below 0).
  - intros j Hj. destruct (Z.lt_ge_cases j k) as [C|C].
    + rewrite !(proj2 (Z.leb_le _ k)), (rank_succ 0) by (done || lia). do 2 f_equal.
      rewrite (memb_iff j l' (mem j l) (memb j l)); [done| |by rewrite memb_mem].
      rewrite Hm. unfold erased. intuition lia.
    + rewrite (proj2 (Z.leb_gt (j + 1) k)), (rank_succ 0 (j + 1)) by (done || lia).
      rewrite (memb_iff j l' (mem (j + 1) l) (memb (j + 1) l)); [| |by rewrite memb_mem].
      * destruct (Z.leb_spec j k); [|lia]. replace j with k by lia. rewrite (rank_succ 0) by done. lia.
      * rewrite Hm. unfold erased. intuition lia.
Qed.

Lemma rank_added k :
  0 <= k → ¬ mem k l → (∀ j, mem j l' ↔ j = k ∨ mem j l) →
  ∀ j, 0 <= j → rank j l' = rank j l + (if k <? j then 1 else 0).
Proof.
  intros Hk Hn Hm. apply rank_char; [done| |].
  - rewrite (rank_below 0), (proj2 (Z.ltb_ge k 0)) by done. done.
  - intros j Hj. rewrite (rank_succ 0) by done. destruct (Z.eq_dec j k) as [->|E].
    + rewrite (memb_iff k l' True true) by (rewrite ?Hm; intuition).
      rewrite (memb_false k l Hn), (proj2 (Z.ltb_lt k (k + 1))), (proj2 (Z.ltb_ge k k)) by lia. lia.
    + rewrite (memb_iff j l' (mem j l) (memb j l)); [| |by rewrite memb_mem].
      * destruct (Z.ltb_spec k (j + 1)), (Z.ltb_spec k j); lia.
      * rewrite Hm. intuition lia.
Qed.

Lemma rank_removed k :
  0 <= k → mem k l → (∀ j, mem j l' ↔ mem j l ∧ j ≠ k) →
  ∀ j, 0 <= j → rank j l' = rank j l - (if k <? j then 1 else 0).
Proof.
  intros Hk Hn Hm. apply rank_char; [done| |].
  - rewrite (rank_below 0), (proj2 (Z.ltb_ge k 0)) by done. done.
  - intros j Hj. rewrite (rank_succ 0) by done. destruct (Z.eq_dec j k) as [->|E].
    + rewrite (memb_false k l') by (rewrite Hm; intuition).
      rewrite (proj2 (memb_mem k l) Hn), (proj2 (Z.ltb_lt k (k + 1))), (proj2 (Z.ltb_ge k k)) by lia. lia.
    + rewrite (memb_iff j l' (mem j l) (memb j l)); [| |by rewrite memb_mem].
      * destruct (Z.ltb_spec k (j + 1)), (Z.ltb_spec k j); lia.
      * rewrite Hm. intuition lia.
Qed.

(** Outside of a set, the order is the order of the unshifted positions. *)
Lemma unshifted_lt a b :
  0 <= a → 0 <= b → ¬ mem a l → ¬ mem b l → a < b ↔ a - rank a l < b - rank b l.
Proof using Hl.
  intros Ha Hb Na Nb.
  assert (∀ a b, 0 <= a → ¬ mem a l → a < b → a - rank a l < b - rank b l) as H.
  { clear a b Ha Hb Na Nb. intros a b Ha Na Hab.
    assert (∀ n, 0 <= n → rank (a + 1 + n) l <= rank a l + n) as G.
    { apply natlike_ind.
      - rewrite Z.add_0_r, (rank_succ 0), memb_false by done. lia.
      - intros n Hn IH. replace (a + 1 + Z.succ n) with (a + 1 + n + 1) by lia.
        rewrite (rank_succ 0) by done. destruct (memb _ l); lia. }
    specialize (G (b - a - 1)). replace (a + 1 + (b - a - 1)) with b in G by lia. lia. }
  split; [by apply H|]. intros Hlt. destruct (Z.lt_trichotomy a b) as [C|[C|C]]; [done|subst; lia|].
  specialize (H b a Hb Nb C). lia.
Qed.

Lemma unshifted_nonneg j : 0 <= j → 0 <= j - rank j l.
Proof using Hl. intros Hj. pose proof (rank_le 0 j l Hl Hj). lia. Qed.
End ranks.
