(* ===== verification/IndexSetShiftedBy.v ===== *)
(** * Correctness of [IndexSet]: [add_shifted_by]

    Adding the values, unshifted by one set and shifted by the other, as long as
    the result fits in the first chunk of the builder: the ranges that the old
    set has are copied with [push_back(range)], which miscounts the first range
    of every further chunk. *)

From S2P Require Import Prelude RangeSet RangeVector IndexSetOps IndexSetSpec IndexSetShift IndexWalk IndexSetMerge Ranks.
Import IndexSet.

(** Every range of [l] is passed by [shift] starting from [i]. *)
Fixpoint skipped (i : Z) (l : list range) : Prop :=
  match l with [] => True | r :: l => r.1 <= i ∧ skipped (i + (r.2 - r.1)) l end.

Lemma skipped_app i l1 l2 : skipped i (l1 ++ l2) ↔ skipped i l1 ∧ skipped (i + total l1) l2.
Proof.
  revert i. induction l1 as [|r l1 IH]; intros i; simpl; [rewrite Z.add_0_r; tauto|].
  rewrite IH. replace (i + (r.2 - r.1) + total l1) with (i + (r.2 - r.1 + total l1)) by lia. tauto.
Qed.

Lemma skipped_mono i j l : i <= j → skipped i l → skipped j l.
Proof.
  revert i j. induction l as [|r l IH]; intros i j Hij; [done|]. intros [? H].
  split; [lia|]. apply (IH (i + (r.2 - r.1))); [lia|done].
Qed.

Lemma shift_skipped i lo l rest :
  ranges_ok lo l → 0 <= i → i + total l < W64 → skipped i l →
  shift_ranges (l ++ rest) i = shift_ranges rest (i + total l).
Proof.
  revert i lo. induction l as [|r l IH]; intros i lo; simpl; [by rewrite Z.add_0_r|].
  intros (? & ? & Hs) Hi Ht [? Hsk]. pose proof (total_nonneg _ _ Hs) as [? _].
  rewrite (proj2 (Z.ltb_ge i r.1)) by done. wsimp. rewrite (IH _ (r.2 + 1)) by (done || lia). f_equal. lia.
Qed.

(** The last range passed ends at or before the shifted index. *)
Lemma skipped_ends i lo l : ranges_ok lo l → skipped i l → Forall (λ r, r.2 <= i + total l) l.
Proof.
  revert i lo. induction l as [|r l IH]; intros i lo; simpl; [by constructor|].
  intros (? & ? & Hs) [? Hsk]. pose proof (total_nonneg _ _ Hs) as [? _]. constructor; [lia|].
  eapply Forall_impl; [by eapply (IH _ _ Hs Hsk)|]. simpl. lia.
Qed.

Section shifted_by.
Context {B : BuildConfig}.
Implicit Types (v w : vec) (b : builder) (l : list range).

(** ** Pushing into a single chunk *)

(** The builder holds the ranges [l] in its first chunk. *)
Inductive single b l : Prop :=
  | Single c n : b = Builder (c :: replicate n empty_chunk) 0 → data c = l → (length l ≤ max_size)%nat →
      (l = [] → c = empty_chunk) → (l ≠ [] → c_begin c = fst_of l) → c_count c = wrap (total l) → single b l.

Lemma single_built b l : single b l → built b l.
Proof.
  intros [c n -> <- ? Hnil ??]. apply (Built _ _ [] c n); try done. intros E. split; [done|by apply Hnil].
Qed.

Lemma single_init v : single (builder_init v) [].
Proof.
  unfold builder_init. rewrite Nat.add_1_r. simpl. apply (Single _ _ empty_chunk (length (flat v) / max_size)); simpl; done || lia.
Qed.

(** Sorted, bounded content. *)
Definition solid b l : Prop := single b l ∧ ranges_ok 0 l ∧ bounded l.

(** A range after all others is appended, or extends the last one. *)
Lemma push_range b l r :
  solid b l → (length l < max_size)%nat ∨ (l ≠ [] ∧ lst_of l = r.1) →
  0 <= r.1 → r.1 < r.2 → r.2 < W64 → (∀ j, mem j l → j < r.1) →
  ∃ b' l', builder_push b r = Some b' ∧ solid b' l' ∧ elems l' = elems l ++ elems [r] ∧
    l' ≠ [] ∧ lst_of l' = r.2 ∧ (length l' ≤ Datatypes.S (length l))%nat ∧
    (l ≠ [] → lst_of l = r.1 → length l' = length l).
Proof.
  intros ([c n -> Ed Hsz Hnil Hbg Hcn] & Hs & Hb) Hlen Hr0 Hr1 Hr2 Hlt. unfold builder_push. simpl.
  rewrite Ed. destruct (snoc_cases l) as [->|(l0 & back & ->)].
  { rewrite (Hnil eq_refl). simpl. eexists _, [r]. split; [done|]. split; [|by split_and!].
    split; [|split; [simpl; lia|by apply bounded_cons; split]].
    eapply (Single _ _ _ n); [done|..]; simpl; try done; [pose proof max_size_pos; lia|].
    wsimp. rewrite wrap_small by lia. lia. }
  rewrite last_snoc. apply ranges_ok_app in Hs as [Hs1 (Hlo & Hback & _)].
  apply bounded_app in Hb as [Hb1 Hb2].
  assert (back.2 <= r.1).
  { destruct (Z.le_gt_cases back.2 r.1); [done|]. specialize (Hlt (back.2 - 1)).
    rewrite mem_app, mem_cons in Hlt. lia. }
  destruct (Z.eqb_spec r.1 back.2) as [E|E].
  - replace (pred (length (l0 ++ [back]))) with (length l0) by (rewrite length_app; simpl; lia).
    rewrite insert_middle. eexists _, (l0 ++ [(back.1, r.2)]). split; [done|].
    rewrite length_app in *. simpl in *. split; [split; [|split]|split; [|split_and!]].
    + eapply (Single _ _ _ n); [done|..]; simpl; try done.
      * rewrite length_app. simpl. lia.
      * by intros [_ [=]]%app_nil.
      * intros _. rewrite Hbg by (by destruct l0). by destruct l0.
      * rewrite Hcn, !total_app. simpl. unfold wadd, wsub. rewrite wrap_add_l, wrap_add_r. f_equal. lia.
    + apply ranges_ok_app. split; [done|]. simpl. lia.
    + apply bounded_app. split; [done|]. by apply bounded_cons.
    + rewrite !elems_app, !elems_cons. simpl. rewrite !app_nil_r, <- app_assoc. f_equal.
      replace (r.2 - back.1) with ((back.2 - back.1) + (r.2 - r.1)) by lia. rewrite seqZ_app by lia.
      do 2 f_equal. lia.
    + by intros [_ [=]]%app_nil.
    + by rewrite lst_of_snoc.
    + rewrite length_app. simpl. lia.
    + intros _ _. rewrite length_app. simpl. lia.
  - rewrite lst_of_snoc in Hlen. destruct Hlen as [Hlen|[_ ?]]; [|congruence].
    rewrite bool_decide_eq_true_2 by done. eexists _, ((l0 ++ [back]) ++ [r]). split; [done|].
    split; [split; [|split]|split; [|split_and!]].
    + eapply (Single _ _ _ n); [done|..]; simpl; try done.
      * rewrite length_app. simpl. lia.
      * by intros [_ [=]]%app_nil.
      * intros _. rewrite Hbg by (by destruct l0). by destruct l0.
      * rewrite Hcn, (total_app _ [r]). simpl. wsimp. unfold wadd. rewrite wrap_add_l. f_equal. lia.
    + apply ranges_ok_app. rewrite next_lo_snoc. split; [by apply ranges_ok_app|]. simpl. lia.
    + apply bounded_app. split; [by apply bounded_app|]. by apply bounded_cons.
    + by rewrite elems_app.
    + by intros [_ [=]]%app_nil.
    + by rewrite lst_of_snoc.
    + rewrite length_app. simpl. lia.
    + rewrite lst_of_snoc. congruence.
Qed.

Lemma push_index_range b i : 0 <= i < npos → builder_push_index b i = builder_push b (i, i + 1).
Proof. intros Hi. unfold builder_push_index. by wsimp. Qed.

(** The loop that pushes the indices of one old range: one range at most is
    added. *)
Lemma push_indices_more k : ∀ a i b l, solid b l → l ≠ [] → lst_of l = a + Z.of_nat i →
  0 <= a → a + Z.of_nat (i + k) < W64 → (∀ j, mem j l → j < a + Z.of_nat i) →
  ∃ b' l', iter_n k (λ i b, builder_push_index b (a ⊕ Z.of_nat i)) i b = Some b' ∧ solid b' l' ∧
    elems l' = elems l ++ seqZ (a + Z.of_nat i) (Z.of_nat k) ∧ length l' = length l.
Proof.
  induction k as [|k IH]; intros a i b l Hb Hne Hl Ha Hk Hlt; simpl.
  { exists b, l. rewrite app_nil_r. by split_and!. }
  wsimp. rewrite push_index_range by lia.
  destruct (push_range b l (a + Z.of_nat i, a + Z.of_nat i + 1)) as (b' & l' & -> & Hb' & E & Hne' & Hl' & _ & Hlen);
    [done|by right|simpl; lia|simpl; lia|simpl; lia|done|]. simpl in *.
  destruct (IH a (Datatypes.S i) b' l') as (b2 & l2 & -> & Hb2 & E2 & Hlen2); [done|done|lia|lia|lia| |].
  { intros j Hj. apply elem_of_elems in Hj. rewrite E, app_nil_r in Hj. apply elem_of_app in Hj as [Hj|Hj].
    - apply elem_of_elems, Hlt in Hj. lia.
    - apply elem_of_seqZ in Hj. lia. }
  exists b2, l2. split; [done|]. split; [done|]. split; [|by rewrite Hlen2, Hlen].
  rewrite E2, E, app_nil_r, <- app_assoc. f_equal. rewrite (seqZ_cons _ (Z.of_nat (Datatypes.S k))) by lia.
  replace (a + Z.of_nat i + 1 - (a + Z.of_nat i)) with 1 by lia.
  replace (a + Z.of_nat (Datatypes.S i)) with (Z.succ (a + Z.of_nat i)) by lia.
  by replace (Z.pred (Z.of_nat (Datatypes.S k))) with (Z.of_nat k) by lia.
Qed.

Lemma push_indices k a b l : solid b l → (length l < max_size)%nat → (0 < k)%nat →
  0 <= a → a + Z.of_nat k < W64 → (∀ j, mem j l → j < a) →
  ∃ b' l', iter_n k (λ i b, builder_push_index b (a ⊕ Z.of_nat i)) 0 b = Some b' ∧ solid b' l' ∧
    elems l' = elems l ++ seqZ a (Z.of_nat k) ∧ (length l' ≤ Datatypes.S (length l))%nat.
Proof.
  intros Hb Hlen Hk Ha Hak Hlt. destruct k as [|k]; [lia|]. simpl.
  wsimp. replace (a + Z.of_nat 0) with a by lia. rewrite push_index_range by lia.
  destruct (push_range b l (a, a + 1)) as (b' & l' & -> & Hb' & E & Hne' & Hl' & Hle & _);
    [done|by left|simpl; lia|simpl; lia|simpl; lia|done|]. simpl in *.
  destruct (push_indices_more k a 1 b' l') as (b2 & l2 & -> & Hb2 & E2 & Hlen2); [done|done|lia|lia|lia| |].
  { intros j Hj. apply elem_of_elems in Hj. rewrite E, app_nil_r in Hj. apply elem_of_app in Hj as [Hj|Hj].
    - apply elem_of_elems, Hlt in Hj. lia.
    - apply elem_of_seqZ in Hj. lia. }
  exists b2, l2. split; [done|]. split; [done|]. split; [|by rewrite Hlen2].
  rewrite E2, E, app_nil_r, <- app_assoc. f_equal. rewrite (seqZ_cons _ (Z.of_nat (Datatypes.S k))) by lia.
  replace (a + 1 - a) with 1 by lia. replace (a + Z.of_nat 1) with (Z.succ a) by lia.
  by replace (Z.pred (Z.of_nat (Datatypes.S k))) with (Z.of_nat k) by lia.
Qed.

(** ** The loops *)

Definition starts_after (y : Z) (l : list range) : Prop := match l with [] => True | r :: _ => y < r.1 end.

Lemma advance_shift_loop n w x : ∀ s s1 s2, set_ok w → cursor w (shift_it s) s1 s2 →
  skip_until s = lst_of s1 → new_shift s = total s1 → (length s2 < n)%nat →
  ∃ it m rest,
    loop n (λ s, on w (shift_it s) (λ r, r.1 <=? x))
      (λ s, r ← deref w (shift_it s);
            it ← next w (shift_it s);
            Some (ShiftedBy (old_it s) it r.2 (old_shift s) (new_shift s ⊕ (r.2 ⊖ r.1)) (out s))) s
    = Some (ShiftedBy (old_it s) it (lst_of (s1 ++ m)) (old_shift s) (total (s1 ++ m)) (out s)) ∧
    s2 = m ++ rest ∧ cursor w it (s1 ++ m) rest ∧ Forall (λ r, r.1 <= x) m ∧ starts_after x rest.
Proof.
  induction n as [|n IH]; intros s s1 s2 Hok Hc Hsk Hns Hn; [lia|]. simpl.
  rewrite (on_cursor _ _ _ _ _ Hc). destruct s2 as [|r s2]; simpl.
  { exists (shift_it s), [], []. rewrite app_nil_r, <- Hsk, <- Hns. by destruct s. }
  destruct (Z.leb_spec r.1 x) as [C|C].
  - rewrite (cursor_deref _ _ _ _ _ Hc). simpl.
    destruct (cursor_next _ _ _ _ _ (so_vec _ Hok) Hc) as (it & -> & Hc'). simpl.
    destruct (cursor_bounded _ _ _ _ Hok Hc) as [Hs Hb].
    assert (total (s1 ++ [r]) = new_shift s ⊕ (r.2 ⊖ r.1)) as Et.
    { rewrite Hns, total_app. simpl. apply ranges_ok_app in Hs as [Hs1 (? & ? & _)].
      pose proof (total_nonneg _ _ Hs1). pose proof (ranges_ok_next_lo _ _ Hs1).
      apply bounded_app in Hb as [_ Hb]. apply bounded_cons in Hb as [Hb _]. wsimp. lia. }
    destruct (IH (ShiftedBy (old_it s) it r.2 (old_shift s) (new_shift s ⊕ (r.2 ⊖ r.1)) (out s)) (s1 ++ [r]) s2)
      as (it' & m & rest & E & -> & Hc2 & Hm & Hr); simpl; [done|done|by rewrite lst_of_snoc|done|simpl in Hn; lia|].
    simpl in E. rewrite E. exists it', (r :: m), rest. rewrite <- !app_assoc in *. simpl in *.
    split_and!; try done. by constructor.
  - exists (shift_it s), [], (r :: s2). rewrite app_nil_r, <- Hsk, <- Hns. by destruct s.
Qed.

Lemma advance_old_loop n v x u : ∀ s o1 o2 l, set_ok v → cursor v (old_it s) o1 o2 →
  old_shift s = total o1 → 0 <= u → 0 <= new_shift s → x = u + new_shift s → x < W64 →
  u + total (flat v) < npos → solid (out s) l →
  (∀ j, mem j l → starts_after j o2) → (length l + length o2 <= max_size)%nat → (length o2 < n)%nat →
  ∃ it b m rest l',
    loop n (λ s, on v (old_it s) (λ r, r.1 <=? x ⊖ new_shift s ⊕ old_shift s))
      (λ s, r ← deref v (old_it s);
            b ← iter_n (Z.to_nat (r.2 ⊖ r.1)) (λ i b, builder_push_index b (r.1 ⊕ Z.of_nat i)) 0%nat (out s);
            it ← next v (old_it s);
            Some (ShiftedBy it (shift_it s) (skip_until s) (old_shift s ⊕ (r.2 ⊖ r.1)) (new_shift s) b)) s
    = Some (ShiftedBy it (shift_it s) (skip_until s) (total (o1 ++ m)) (new_shift s) b) ∧
    o2 = m ++ rest ∧ cursor v it (o1 ++ m) rest ∧ skipped (u + total o1) m ∧
    starts_after (u + total (o1 ++ m)) rest ∧ solid b l' ∧ elems l' = elems l ++ elems m ∧
    (length l' <= length l + length m)%nat.
Proof.
  induction n as [|n IH]; intros s o1 o2 l Hok Hc Hos Hu Hns Hx Hxw Htot Hb Hlt Hlen Hn; [lia|]. simpl.
  rewrite (on_cursor _ _ _ _ _ Hc).
  destruct (cursor_bounded _ _ _ _ Hok Hc) as [Hs Hbd]. rewrite (cursor_flat _ _ _ _ Hc), total_app in Htot.
  apply ranges_ok_app in Hs as [Hs1 Hs2]. pose proof (total_nonneg _ _ Hs1) as [? _].
  pose proof (total_nonneg _ _ Hs2) as [? _].
  assert (x ⊖ new_shift s ⊕ old_shift s = u + total o1) as Ey by (rewrite Hos; wsimp; lia).
  rewrite Ey. destruct o2 as [|r o2]; simpl.
  { exists (old_it s), (out s), [], [], l. rewrite !app_nil_r, <- Hos. split_and!; try done; [by destruct s|simpl; lia]. }
  destruct (Z.leb_spec r.1 (u + total o1)) as [C|C].
  - rewrite (cursor_deref _ _ _ _ _ Hc). simpl. pose proof (ranges_ok_next_lo _ _ Hs1).
    apply bounded_app in Hbd as [_ Hbd]. apply bounded_cons in Hbd as [Hbr _].
    simpl in Hs2, Htot, Hlen, Hn. destruct Hs2 as (? & ? & Hs2). pose proof (total_nonneg _ _ Hs2) as [? _]. wsimp.
    destruct (push_indices (Z.to_nat (r.2 - r.1)) r.1 (out s) l) as (b & l1 & -> & Hb1 & E1 & Hlen1);
      [done|lia|lia|lia|lia|by intros j Hj; apply Hlt in Hj|]. simpl.
    destruct (cursor_next _ _ _ _ _ (so_vec _ Hok) Hc) as (it & -> & Hc'). simpl.
    set (s' := ShiftedBy it (shift_it s) (skip_until s) (old_shift s + (r.2 - r.1)) (new_shift s) b).
    assert (old_shift s' = total (o1 ++ [r])) as Et by (simpl; rewrite Hos, total_app; simpl; lia).
    rewrite Z2Nat.id in E1 by lia.
    destruct (IH s' (o1 ++ [r]) o2 l1) as (it' & b' & m & rest & l' & E & -> & Hc2 & Hsk & Hst & Hb' & E' & Hl');
      try done; simpl; try lia.
    { rewrite (cursor_flat _ _ _ _ Hc), total_app. simpl. lia. }
    { intros j Hj. apply elem_of_elems in Hj. rewrite E1 in Hj. destruct o2 as [|r2 o2]; [done|]. simpl in *.
      apply elem_of_app in Hj as [Hj|Hj]; [apply elem_of_elems, Hlt in Hj; lia|apply elem_of_seqZ in Hj; lia]. }
    subst s'. simpl in E. rewrite E. exists it', b', (r :: m), rest, l'. rewrite <- !app_assoc in *. simpl in *.
    rewrite !total_app in *. simpl in *. split_and!; try done.
    + by replace (u + total o1 + (r.2 - r.1)) with (u + (total o1 + (r.2 - r.1 + 0))) by lia.
    + by rewrite E', E1, <- app_assoc.
    + lia.
  - exists (old_it s), (out s), [], (r :: o2), l. rewrite !app_nil_r, <- Hos.
    split_and!; try done; [by destruct s|simpl; lia|simpl; lia].
Qed.

(** The position that the index [x] gets. *)
Definition target v w (x : Z) : Z := shift v (x - rank x (flat w)).

(** The invariant between two indices: the indices [dn] are done, [u] is the
    last unshifted one. *)
Record adding v w (dn todo : list Z) (s : shifted_by_state) o1 o2 s1 s2 l u : Prop := {
  ad_old : cursor v (old_it s) o1 o2;
  ad_by : cursor w (shift_it s) s1 s2;
  ad_skip : skip_until s = lst_of s1;
  ad_os : old_shift s = total o1;
  ad_ns : new_shift s = total s1;
  ad_out : solid (out s) l;
  ad_len : (length l <= length o1 + length dn)%nat;
  ad_mem j : mem j l ↔ mem j o1 ∨ ∃ x, x ∈ dn ∧ ¬ mem x (flat w) ∧ j = target v w x;
  ad_u : -1 <= u ∧ skipped u o1 ∧ starts_after (u + total o1) o2;
  ad_last j : mem j l → j <= u + total o1;
  ad_todo x : x ∈ todo → 0 <= x ∧ x + total (flat v) < npos ∧ Forall (λ r, r.1 <= x) s1 ∧
    (¬ mem x (flat w) → u < x - rank x (flat w))
}.

(** A set of sorted ranges that start at [x] or before, followed by later ones:
    [x] is a member when the last range holds it, and its rank is the total. *)
Lemma mem_last_range x s1 s2 :
  ranges_ok 0 (s1 ++ s2) → 0 <= x → Forall (λ r, r.1 <= x) s1 → starts_after x s2 →
  (mem x (s1 ++ s2) ↔ x < lst_of s1) ∧ (lst_of s1 <= x → rank x (s1 ++ s2) = total s1).
Proof.
  intros Hs Hx Hf Hst. apply ranges_ok_app in Hs as [Hs1 Hs2].
  assert (¬ mem x s2 ∧ rank x s2 = 0) as [Hn2 Hr2].
  { destruct s2 as [|r s2]; [split; [intros M; by apply mem_nil in M|done]|]. simpl in Hs2, Hst.
    assert (ranges_ok (x + 1) (r :: s2)) as Ho by (simpl; intuition lia). split.
    - intros M%(mem_ge _ _ _ Ho). lia.
    - apply (rank_below (x + 1)); [done|lia]. }
  rewrite mem_app, rank_app, Hr2, Z.add_0_r. destruct (snoc_cases s1) as [->|(p & r & ->)].
  { unfold lst_of. simpl. split; [|done]. rewrite mem_nil. intuition lia. }
  rewrite lst_of_snoc. apply Forall_app in Hf as [_ Hf]. inversion Hf as [|? ? Hr _]; subst.
  pose proof Hs1 as Hs1'. apply ranges_ok_app in Hs1' as [Hp (Hlo & Hrr & _)]. split.
  - rewrite mem_app, mem_cons, mem_nil. pose proof (mem_lt 0 x p Hp). intuition lia.
  - intros Hx2. apply (rank_above 0); [done|]. rewrite next_lo_snoc. lia.
Qed.

(** An index that is in [w] is skipped. *)
Lemma adding_skip v w dn x todo s o1 o2 s1 m rest l u it :
  set_ok w → adding v w dn (x :: todo) s o1 o2 s1 (m ++ rest) l u → increasing (x :: todo) →
  cursor w it (s1 ++ m) rest → Forall (λ r, r.1 <= x) m → mem x (flat w) →
  adding v w (dn ++ [x]) todo (ShiftedBy (old_it s) it (lst_of (s1 ++ m)) (old_shift s) (total (s1 ++ m)) (out s))
    o1 o2 (s1 ++ m) rest l u.
Proof.
  intros Hw [A1 A2 A3 A4 A5 A6 A7 A8 A9 A10 A11] Hinc Hc Hm Hx. constructor; simpl; try done.
  - rewrite length_app. lia.
  - intros j. rewrite A8. split; (intros [?|(y & Hy & Hn & ->)]; [by left|right; exists y]).
    + split_and!; [apply elem_of_app; by left|done|done].
    + apply elem_of_app in Hy as [Hy|Hy%list_elem_of_singleton]; [done|]. by subst.
  - intros y Hy. inversion Hinc as [|? ? _ Hlt]; subst. rewrite Forall_forall in Hlt. specialize (Hlt y Hy).
    destruct (A11 y) as (? & ? & Hs1 & ?); [by right|]. split_and!; try done.
    apply Forall_app. split; [done|]. eapply Forall_impl; [exact Hm|]. simpl. lia.
Qed.

(** An index that is not in [w] is pushed after the old ranges before it. *)
Lemma adding_push v w dn x todo s o1 m2 rest2 s1 s2 l l1 u it b :
  set_ok v → set_ok w → increasing (x :: todo) →
  cursor w (shift_it s) s1 s2 → Forall (λ r, r.1 <= x) s1 → starts_after x s2 → ¬ mem x (flat w) →
  adding v w dn (x :: todo) s o1 (m2 ++ rest2) s1 s2 l u →
  cursor v it (o1 ++ m2) rest2 → skipped (x - rank x (flat w) + total o1) m2 →
  starts_after (x - rank x (flat w) + total (o1 ++ m2)) rest2 →
  solid b l1 → elems l1 = elems l ++ elems m2 → (length l1 <= length l + length m2)%nat →
  (length (flat v) + length dn < max_size)%nat →
  ∃ b' l', builder_push_index b (x - rank x (flat w) + total (o1 ++ m2)) = Some b' ∧
    adding v w (dn ++ [x]) todo (ShiftedBy it (shift_it s) (skip_until s) (total (o1 ++ m2)) (new_shift s) b')
      (o1 ++ m2) rest2 s1 s2 l' (x - rank x (flat w)).
Proof.
  intros Hv Hw Hinc Hcw Hs1 Hst Hx [A1 A2 A3 A4 A5 A6 A7 A8 A9 A10 A11] Hc Hsk Hsa Hb1 E1 Hl1 Hmax.
  destruct (A11 x) as (Hx0 & Hxt & _ & Hu); [by left|]. specialize (Hu Hx). destruct A9 as (Hu1 & Hsko & Hsa1).
  destruct (cursor_bounded _ _ _ _ Hv Hc) as [Hs Hbd]. rewrite (cursor_flat _ _ _ _ Hc), total_app in Hxt.
  apply ranges_ok_app in Hs as [Hso Hsr]. pose proof (total_nonneg _ _ Hso) as [Ht1 _].
  pose proof (total_nonneg _ _ Hsr) as [Ht2 _]. set (u' := x - rank x (flat w)) in *.
  pose proof (rank_nonneg x (flat w)).
  pose proof (rank_le 0 x (flat w) (so_sorted _ Hw) Hx0).
  assert (skipped u' (o1 ++ m2)) as Hsk'.
  { apply skipped_app. split; [|done]. apply (skipped_mono u); [lia|done]. }
  assert (target v w x = u' + total (o1 ++ m2)) as Etgt.
  { unfold target, shift. rewrite (cursor_flat _ _ _ _ Hc). fold u'.
    rewrite (shift_skipped u' 0 (o1 ++ m2) rest2) by (done || lia).
    destruct rest2 as [|r rest2]; simpl; [done|]. simpl in Hsa. by rewrite (proj2 (Z.ltb_lt _ r.1)). }
  assert (∀ j, mem j l1 → j < u' + total (o1 ++ m2)) as Hlt.
  { intros j Hj. apply elem_of_elems in Hj. rewrite E1 in Hj.
    pose proof Hso as Hso'. apply ranges_ok_app in Hso' as [_ Hsm]. pose proof (total_nonneg _ _ Hsm) as [? _].
    rewrite total_app. apply elem_of_app in Hj as [Hj|Hj]; apply elem_of_elems in Hj.
    - apply A10 in Hj. lia.
    - pose proof (skipped_ends _ _ _ Hsm Hsk) as Hends.
      pose proof (mem_lt_split (u' + total o1 + total m2) m2 Hends j Hj). lia. }
  assert (0 <= u' + total (o1 ++ m2) < npos) as Hy by lia.
  rewrite push_index_range by done.
  assert (length (flat v) = (length o1 + length m2 + length rest2)%nat) as Hlen
    by (rewrite (cursor_flat _ _ _ _ Hc), !length_app; lia).
  destruct (push_range b l1 (u' + total (o1 ++ m2), u' + total (o1 ++ m2) + 1))
    as (b' & l' & -> & Hb' & E' & _ & _ & Hl' & _); simpl; first [done|lia|left; lia|idtac].
  exists b', l'. split; [done|].
  assert (∀ j, mem j l' ↔ mem j l1 ∨ j = target v w x) as Hml'.
  { intros j. rewrite <- !elem_of_elems, E', elem_of_app. simpl. rewrite app_nil_r, elem_of_seqZ, Etgt.
    intuition lia. }
  assert (∀ j, mem j l1 ↔ mem j l ∨ mem j m2) as Hml1.
  { intros j. by rewrite <- !elem_of_elems, E1, elem_of_app. }
  constructor; simpl; try done.
  - rewrite !length_app. simpl. lia.
  - intros j. rewrite Hml', Hml1, A8, mem_app. split.
    + intros [[[?|(y & Hyd & Hyn & ->)]|?]| ->]; [by left; left| |by left; right|].
      * right. exists y. split_and!; [apply elem_of_app; by left|done|done].
      * right. exists x. split_and!; [apply elem_of_app; right; by left|done|done].
    + intros [[?|?]|(y & Hyd & Hyn & ->)]; [tauto|tauto|].
      apply elem_of_app in Hyd as [Hyd|Hyd%list_elem_of_singleton]; [left; left; right; by exists y|].
      subst y. by right.
  - split; [lia|]. done.
  - intros j Hj. apply Hml' in Hj as [Hj| ->]; [apply Hlt in Hj; lia|lia].
  - intros y Hyt. inversion Hinc as [|? ? _ Hlt']; subst. rewrite Forall_forall in Hlt'. specialize (Hlt' y Hyt).
    destruct (A11 y) as (Hy0 & ? & Hsy & _); [by right|]. split_and!; try done.
    intros Hyn. pose proof (unshifted_lt (flat w) (so_sorted _ Hw) x y Hx0 Hy0 Hx Hyn) as [G _]. by apply G.
Qed.

(** One index of [values]. *)
Lemma adding_index v w dn x todo s o1 o2 s1 s2 l u :
  set_ok v → set_ok w → increasing (x :: todo) → adding v w dn (x :: todo) s o1 o2 s1 s2 l u →
  (length (flat v) + length dn < max_size)%nat →
  ∃ s' o1' o2' s1' s2' l' u', add_shifted_by_index v w x s = Some s' ∧
    adding v w (dn ++ [x]) todo s' o1' o2' s1' s2' l' u'.
Proof.
  intros Hv Hw Hinc HA Hmax. pose proof HA as [A1 A2 A3 A4 A5 A6 A7 A8 A9 A10 A11].
  destruct (A11 x) as (Hx0 & Hxt & Hxs & Hu); [by left|].
  unfold add_shifted_by_index, advance_shift.
  destruct (advance_shift_loop (fuel w) w x s s1 s2 Hw A2 A3 A5) as (it & m & rest & E & -> & Hc & Hm & Hst);
    [by apply (fuel_cursor _ _ _ _ A2)|].
  rewrite E. simpl. destruct (cursor_bounded _ _ _ _ Hw Hc) as [Hs _].
  assert (Forall (λ r, r.1 <= x) (s1 ++ m)) as Hf by by apply Forall_app.
  destruct (mem_last_range x (s1 ++ m) rest Hs Hx0 Hf Hst) as [Hmem Hrk].
  rewrite <- (cursor_flat _ _ _ _ Hc) in Hmem, Hrk.
  destruct (Z.ltb_spec x (lst_of (s1 ++ m))) as [C|C].
  { eexists _, o1, o2, (s1 ++ m), rest, l, u. split; [done|].
    apply adding_skip with (m := m); try done. by apply Hmem. }
  assert (¬ mem x (flat w)) as Hx by (rewrite Hmem; lia). specialize (Hrk C). specialize (Hu Hx).
  pose proof (rank_nonneg x (flat w)). pose proof (rank_le 0 x (flat w) (so_sorted _ Hw) Hx0).
  pose proof (total_nonneg _ _ (so_sorted _ Hv)) as [? _]. unfold advance_old. set (sx := ShiftedBy _ it _ _ _ _).
  destruct (advance_old_loop (fuel v) v x (x - rank x (flat w)) sx o1 o2 l)
    as (it2 & b & m2 & rest2 & l1 & E2 & -> & Hc2 & Hsk & Hsa & Hb1 & E1 & Hl1);
    [done|exact A1|exact A4|lia|simpl; lia|simpl; lia|lia|lia|exact A6| | | |].
  { intros j Hj. apply A10 in Hj. destruct A9 as (_ & _ & Hsa). destruct o2; simpl in *; [done|lia]. }
  { rewrite (cursor_flat _ _ _ _ A1), length_app in Hmax. lia. }
  { by apply (fuel_cursor _ _ _ _ A1). }
  rewrite E2. simpl. rewrite (proj2 (Z.leb_le _ x)) by lia. simpl.
  pose proof (cursor_flat _ _ _ _ Hc2) as Hfl. rewrite Hfl, total_app in Hxt.
  destruct (cursor_bounded _ _ _ _ Hv Hc2) as [[Hso Hsr]%ranges_ok_app _].
  pose proof (total_nonneg _ _ Hso) as [? _]. pose proof (total_nonneg _ _ Hsr) as [? _].
  assert (x ⊖ total (s1 ++ m) ⊕ total (o1 ++ m2) = x - rank x (flat w) + total (o1 ++ m2)) as ->
    by (rewrite <- Hrk; wsimp; done).
  destruct (adding_push v w dn x todo sx o1 m2 rest2 (s1 ++ m) rest l l1 u it2 b)
    as (b' & l' & -> & HA'); try done.
  { constructor; simpl; try done. intros y Hy. destruct (A11 y Hy) as (? & ? & Hys & ?). split_and!; try done.
    apply Forall_app. split; [done|]. eapply Forall_impl; [exact Hm|]. simpl.
    inversion Hinc as [|? ? _ Hlt]; subst. rewrite Forall_forall in Hlt.
    intros r Hr. apply elem_of_cons in Hy as [->|Hy]; [done|]. specialize (Hlt y Hy). lia. }
  simpl. by eexists _, (o1 ++ m2), rest2, (s1 ++ m), rest, l', _.
Qed.

(** The final copy of the old ranges that are left. *)
Lemma copy_loop n v : ∀ it b o1 o2 l, set_ok v → cursor v it o1 o2 → solid b l →
  (∀ j, mem j l → starts_after j o2) → (length l + length o2 <= max_size)%nat → (length o2 < n)%nat →
  ∃ it' b' l', loop n (λ '(it, b), Some (negb (at_end v it)))
    (λ '(it, b), r ← deref v it; b' ← builder_push b r; it' ← next v it; Some (it', b')) (it, b) = Some (it', b') ∧
    solid b' l' ∧ elems l' = elems l ++ elems o2.
Proof.
  induction n as [|n IH]; intros it b o1 o2 l Hok Hc Hb Hlt Hlen Hn; [lia|]. simpl.
  rewrite (at_end_cursor _ _ _ _ Hc). destruct o2 as [|r o2]; simpl.
  { exists it, b, l. by rewrite app_nil_r. }
  rewrite (cursor_deref _ _ _ _ _ Hc). simpl.
  destruct (cursor_bounded _ _ _ _ Hok Hc) as [Hs Hbd].
  apply ranges_ok_app in Hs as [Hs1 (? & ? & Hs2)]. apply bounded_app in Hbd as [_ Hbd].
  apply bounded_cons in Hbd as [Hbr _]. pose proof (ranges_ok_next_lo _ _ Hs1). simpl in Hlen, Hn.
  destruct (push_range b l r) as (b1 & l1 & -> & Hb1 & E1 & _ & _ & Hl1 & _); try done; [left; lia|lia|]. simpl.
  destruct (cursor_next _ _ _ _ _ (so_vec _ Hok) Hc) as (it' & -> & Hc'). simpl.
  destruct (IH it' b1 (o1 ++ [r]) o2 l1) as (it2 & b2 & l2 & -> & Hb2 & E2); try done; try lia.
  { intros j Hj. apply elem_of_elems in Hj. rewrite E1 in Hj. destruct o2 as [|r2 o2]; [done|]. simpl in *.
    apply elem_of_app in Hj as [Hj|Hj]; [apply elem_of_elems, Hlt in Hj; simpl in *; lia|].
    rewrite app_nil_r in Hj. apply elem_of_seqZ in Hj. lia. }
  exists it2, b2, l2. split; [done|]. split; [done|]. by rewrite E2, E1, elems_cons, app_nil_r, <- app_assoc.
Qed.

(** [add_shifted_by] adds the values that are not in [shifted_by], shifted to
    the positions of this set, when the result has few enough ranges. *)
Lemma add_shifted_by_spec v w vals P Q R :
  denotes v P → denotes w Q → denotes vals R →
  (length (flat v) + Z.to_nat (total (flat vals)) <= max_size)%nat →
  (∀ x, R x → x + total (flat v) < npos) →
  ∃ v', add_shifted_by v w vals = Some v' ∧
    denotes v' (λ j, P j ∨ ∃ x, R x ∧ ¬ Q x ∧ j = target v w x).
Proof.
  intros [Hv HP] [Hw HQ] [Hvals HR] Hmax Hroom. unfold add_shifted_by.
  destruct (v_empty vals) eqn:Ee.
  { exists v. split; [done|]. split; [done|]. intros j. rewrite HP. split; [by left|].
    intros [?|(x & Hx%HR & _)]; [done|]. destruct vals; [|done]. by apply mem_nil in Hx. }
  rewrite for_indexes_foldM by done. pose proof (length_elems 0 (flat vals) (so_sorted _ Hvals)) as Hle.
  match goal with |- context [foldM ?body ?xs ?s0] =>
    destruct (foldM_rule (λ todo s, ∃ dn o1 o2 s1 s2 l u, elems (flat vals) = dn ++ todo ∧
      adding v w dn todo s o1 o2 s1 s2 l u) body xs s0)
      as (s & -> & dn & o1 & o2 & s1 & s2 & l & u & E & HA) end.
  - exists [], [], (flat v), [], (flat w), [], (-1). split; [done|].
    constructor; simpl; try done.
    + apply cursor_begin. by destruct Hv.
    + apply cursor_begin. by destruct Hw.
    + split; [apply single_init|done].
    + intros j. rewrite mem_nil. split; [done|]. intros [?|(x & Hx & _)]; [done|by apply elem_of_nil in Hx].
    + split_and!; [lia|done|]. pose proof (so_sorted _ Hv) as Hs. destruct (flat v); [done|]. simpl in *. lia.
    + intros j M. by apply mem_nil in M.
    + intros x Hx%elem_of_elems. pose proof (mem_bounds vals x Hvals Hx). apply HR, Hroom in Hx.
      split_and!; [lia|lia|done|]. intros _. pose proof (rank_le 0 x (flat w) (so_sorted _ Hw)). lia.
  - intros x todo s (dn & o1 & o2 & s1 & s2 & l & u & E & HA).
    pose proof (elems_increasing 0 _ (so_sorted _ Hvals)) as Hinc. rewrite E in Hinc.
    apply increasing_app in Hinc as (_ & Hinc & _). rewrite E, length_app in Hle. simpl in Hle.
    destruct (adding_index v w dn x todo s o1 o2 s1 s2 l u Hv Hw Hinc HA)
      as (s' & o1' & o2' & s1' & s2' & l' & u' & -> & HA'); [lia|].
    eexists. split; [done|]. exists (dn ++ [x]), o1', o2', s1', s2', l', u'. by rewrite <- app_assoc.
  - rewrite app_nil_r in E. subst dn. destruct HA as [A1 A2 A3 A4 A5 A6 A7 A8 A9 A10 _]. simpl.
    destruct (copy_loop (fuel v) v (old_it s) (out s) o1 o2 l) as (it' & b' & l' & El & Hb' & E'); try done.
    { intros j Hj. apply A10 in Hj. destruct A9 as (_ & _ & Hsa). destruct o2; simpl in *; [done|lia]. }
    { rewrite (cursor_flat _ _ _ _ A1), length_app in Hmax. lia. }
    { by apply (fuel_cursor _ _ _ _ A1). }
    setoid_rewrite El. simpl. destruct Hb' as (Hb' & Hs' & Hbd').
    destruct (builder_finalize_built b' l' (single_built _ _ Hb')) as (v' & Hv' & Hok' & Ef).
    exists v'. split; [done|]. split; [constructor; by rewrite ?Ef|]. intros j.
    rewrite Ef, <- elem_of_elems, E', elem_of_app, !elem_of_elems, A8, <- HP, (cursor_flat _ _ _ _ A1), mem_app.
    setoid_rewrite elem_of_elems. setoid_rewrite <- HQ. setoid_rewrite HR. tauto.
Qed.
End shifted_by.
