(* ===== verification/IndexSetInterface.v ===== *)
(** * The interface of [IndexSet]

    What the users of [IndexSet] rely on: its operations, and the law each obeys
    in terms of the ranges that iterating over the set yields.  The chunked
    vector of index_set.cpp is an instance; the users are proved against the
    interface. *)

From S2P Require Import Prelude RangeSet RangeVector IndexSetOps IndexSetSpec IndexSetEdits IndexSetShift IndexSetRemove IndexWalk IndexSetMerge IndexSetShiftedBy.

(** ** Operations *)

Class IndexSets (S : Type) := {
  is_new : S;
  is_ranges : S → list range;
  is_empty : S → bool;
  is_contains : S → Z → option bool;
  is_count_to : S → Z → option Z;
  is_count : S → Z → Z → option Z;
  is_add : S → Z → option S;
  is_add_set : S → S → option S;
  is_add_shifted : S → Z → option (S * Z);
  is_add_shifted_by : S → S → S → option S;
  is_set : Z → option S;
  is_insert_at : S → Z → Z → option S;
  is_insert_at_set : S → S → option S;
  is_shift_for : S → Z → Z → option S;
  is_shift_for_set : S → S → option S;
  is_erase_at : S → Z → option S;
  is_erase_at_set : S → S → option S;
  is_erase_or_unshift : S → Z → option (S * Z);
  is_remove : S → Z → option S;
  is_remove_set : S → S → option S;
  is_shift : S → Z → Z;
  is_unshift : S → Z → option Z;
}.

(** ** Laws *)

(** Membership and rank, through the ranges. *)
Definition has {S} `{IndexSets S} (s : S) (j : Z) : Prop := mem j (is_ranges s).
Definition rk {S} `{IndexSets S} (s : S) (j : Z) : Z := rank j (is_ranges s).
Definition size {S} `{IndexSets S} (s : S) : Z := total (is_ranges s).

(** A [size_t] computation on the set succeeds with a set of the members [P]. *)
Definition yields {S} `{IndexSets S} (ok : S → Prop) (r : option S) (P : Z → Prop) : Prop :=
  ∃ s, r = Some s ∧ ok s ∧ ∀ j, has s j ↔ P j.

Class IndexSetLaws (S : Type) `{IndexSets S} := {
  is_ok : S → Prop;
  (** The ranges of the first set and the indices of the second fit in one
      chunk, so that [is_add_shifted_by] keeps the counts right. *)
  is_roomy : S → S → Prop;
  is_ok_ranges s : is_ok s → ranges_ok 0 (is_ranges s) ∧ bounded (is_ranges s);
  is_new_ok : is_ok is_new ∧ is_ranges is_new = [];
  is_empty_law s : is_ok s → is_empty s = bool_decide (is_ranges s = []);
  is_contains_law s i : is_ok s → is_contains s i = Some (memb i (is_ranges s));
  (** From a start other than 0 the count is only known to return. *)
  is_count_law s b e : is_ok s → ∃ n, is_count s b e = Some n;
  is_count_to_law s e : is_ok s → 0 <= e < W64 → is_count_to s e = Some (rk s e);
  is_add_law s i : is_ok s → 0 <= i < npos → yields is_ok (is_add s i) (λ j, j = i ∨ has s j);
  is_add_set_law s t : is_ok s → is_ok t → yields is_ok (is_add_set s t) (λ j, has s j ∨ has t j);
  is_add_shifted_law s i : is_ok s → 0 <= i → i + size s < npos →
    ∃ s', is_add_shifted s i = Some (s', is_shift s i) ∧ is_ok s' ∧
      ∀ j, has s' j ↔ j = is_shift s i ∨ has s j;
  is_add_shifted_by_law s t u : is_ok s → is_ok t → is_ok u → is_roomy s u →
    (∀ x, has u x → x + size s < npos) →
    yields is_ok (is_add_shifted_by s t u)
      (λ j, has s j ∨ ∃ x, has u x ∧ ¬ has t x ∧ j = is_shift s (x - rk t x));
  is_set_law n : 0 <= n < W64 → yields is_ok (is_set n) (λ j, 0 <= j < n);
  is_insert_at_law s i n : is_ok s → 0 <= i → 0 < n → i + n < npos →
    (∀ j, has s j → i <= j → j + n < npos) → yields is_ok (is_insert_at s i n) (inserted (has s) i n);
  is_insert_at_set_law s t : is_ok s → is_ok t → (∀ e, has s e → e + size t < npos) →
    yields is_ok (is_insert_at_set s t) (λ j, has t j ∨ ∃ e, has s e ∧ j = is_shift t e);
  is_shift_for_law s i n : is_ok s → 0 <= i → 0 < n → i + n < npos →
    (∀ j, has s j → i <= j → j + n < npos) → yields is_ok (is_shift_for s i n) (shifted (has s) i n);
  is_shift_for_set_law s t : is_ok s → is_ok t → (∀ e, has s e → e + size t < npos) →
    yields is_ok (is_shift_for_set s t) (λ j, ∃ e, has s e ∧ j = is_shift t e);
  is_erase_at_law s i : is_ok s → 0 <= i → yields is_ok (is_erase_at s i) (erased (has s) i);
  is_erase_at_set_law s t : is_ok s → is_ok t →
    yields is_ok (is_erase_at_set s t) (λ j, ∃ e, has s e ∧ ¬ has t e ∧ j = e - rk t e);
  is_erase_or_unshift_law s i : is_ok s → 0 <= i < npos →
    ∃ s', is_erase_or_unshift s i = Some (s', if memb i (is_ranges s) then npos else i - rk s i) ∧
      is_ok s' ∧ ∀ j, has s' j ↔ erased (has s) i j;
  is_remove_law s i : is_ok s → 0 <= i < npos → yields is_ok (is_remove s i) (λ j, has s j ∧ j ≠ i);
  is_remove_set_law s t : is_ok s → is_ok t → yields is_ok (is_remove_set s t) (λ j, has s j ∧ ¬ has t j);
  is_shift_law s i : is_ok s → 0 <= i → i + size s < W64 →
    i <= is_shift s i ∧ ¬ has s (is_shift s i) ∧ is_shift s i - rk s (is_shift s i) = i;
  is_unshift_law s j : is_ok s → 0 <= j < W64 → is_unshift s j = Some (j - rk s j)
}.

(** ** The chunked vector *)

#[export] Instance chunked {B : BuildConfig} : IndexSets vec := {|
  is_new := [];
  is_ranges := flat;
  is_empty := v_empty;
  is_contains := IndexSet.contains;
  is_count_to v := IndexSet.count v 0;
  is_count := IndexSet.count;
  is_add := IndexSet.add;
  is_add_set := IndexSet.add_set;
  is_add_shifted := IndexSet.add_shifted;
  is_add_shifted_by := IndexSet.add_shifted_by;
  is_set := IndexSet.set [];
  is_insert_at := IndexSet.insert_at;
  is_insert_at_set := IndexSet.insert_at_set;
  is_shift_for := IndexSet.shift_for_insert_at;
  is_shift_for_set := IndexSet.shift_for_insert_at_set;
  is_erase_at := IndexSet.erase_at;
  is_erase_at_set := IndexSet.erase_at_set;
  is_erase_or_unshift := IndexSet.erase_or_unshift;
  is_remove v i := IndexSet.remove v i 1;
  is_remove_set := IndexSet.remove_set;
  is_shift := IndexSet.shift;
  is_unshift := IndexSet.unshift
|}.

Section chunked_laws.
Context {B : BuildConfig}.
Implicit Types (v w : vec).

Lemma denotes_has v : set_ok v → denotes v (has v).
Proof. by split. Qed.

Lemma denotes_yields (r : option vec) P :
  (∃ v, r = Some v ∧ denotes v P) → yields set_ok r P.
Proof. intros (v & Hv & Hok & H). by exists v. Qed.

Lemma flat_nil v : vec_ok v → flat v = [] → v = [].
Proof.
  destruct v as [|c v]; [done|]. intros H E. inversion H as [|? ? Hc _]; subst.
  rewrite flat_cons in E. apply app_nil in E as [E _]. by destruct (ok_ne _ Hc).
Qed.

#[export] Program Instance chunked_laws : IndexSetLaws vec := {|
  is_ok := set_ok;
  is_roomy v w := (length (flat v) + Z.to_nat (total (flat w)) <= max_size)%nat
|}.
Next Obligation. intros v [_ ? ?]. done. Qed.
Next Obligation. split; [by constructor|done]. Qed.
Next Obligation.
  intros v [Hok _ _]. simpl. destruct v as [|c v]; [done|]. rewrite bool_decide_eq_false_2; [done|].
  by intros ?%flat_nil.
Qed.
Next Obligation. intros v i Hok. by apply contains_spec. Qed.
Next Obligation. intros v b e Hok. by apply count_total. Qed.
Next Obligation. intros v e Hok He. by apply count_spec. Qed.
Next Obligation. intros v i Hok Hi. apply denotes_yields, add_spec; [by apply denotes_has|done]. Qed.
Next Obligation.
  intros v w Hv Hw. apply denotes_yields, add_set_spec; [by apply denotes_has..|].
  intros j Hj. by apply (mem_bounds w).
Qed.
Next Obligation.
  intros v i Hok Hi Hs. destruct (add_shifted_spec v (has v) i) as (v' & Hv' & Hok' & H);
    [by apply denotes_has|done|done|]. by exists v'.
Qed.
Next Obligation.
  intros v w u Hv Hw Hu Hr Hb. apply denotes_yields, (add_shifted_by_spec v w u (has v) (has w) (has u));
    first [done | by apply denotes_has].
Qed.
Next Obligation. intros n Hn. by apply denotes_yields, set_spec. Qed.
Next Obligation. intros v i n Hok ????. apply denotes_yields, insert_at_spec; first [done | by apply denotes_has]. Qed.
Next Obligation. intros v w Hv Hw Hr. apply denotes_yields, insert_at_set_spec; first [done | by apply denotes_has]. Qed.
Next Obligation. intros v i n Hok ????. apply denotes_yields, shift_for_insert_at_spec; first [done | by apply denotes_has]. Qed.
Next Obligation.
  intros v w Hv Hw Hr. apply denotes_yields, (shift_for_insert_at_set_spec v w (has v) (has w)); first [done | by apply denotes_has].
Qed.
Next Obligation. intros v i Hok Hi. apply denotes_yields, erase_at_spec; first [done | by apply denotes_has]. Qed.
Next Obligation.
  intros v w Hv Hw. apply denotes_yields, (erase_at_set_spec v w (has v) (has w)); by apply denotes_has.
Qed.
Next Obligation.
  intros v i Hok Hi. destruct (erase_or_unshift_spec v (has v) i) as (v' & Hv' & Hok' & H);
    [by apply denotes_has|done|]. by exists v'.
Qed.
Next Obligation.
  intros v i Hok Hi. destruct (remove_spec v (has v) i 1) as (v' & Hv' & Hok' & H);
    [by apply denotes_has|lia|lia|lia|]. exists v'. split; [done|]. split; [done|].
  intros j. unfold has in *. simpl in *. rewrite H. intuition lia.
Qed.
Next Obligation. intros v w Hv Hw. apply denotes_yields, remove_set_spec; by apply denotes_has. Qed.
Next Obligation.
  intros v i Hok Hi Hs. apply (shift_ranges_spec 0); [by destruct Hok|done|lia|done].
Qed.
Next Obligation. intros v j Hok Hj. by apply unshift_spec. Qed.
End chunked_laws.
