(* ===== verification/ChangeBuilder.v ===== *)
(** * [CollectionChangeBuilder]

    Model of impl/collection_change_builder.cpp, over any implementation of the
    index set interface: the change set being built, the recording of single
    changes to a list or a table, and the merge of two change sets.  The
    calculation of a change set from two row lists is in ChangeCalculation.v. *)

From stdpp Require Import gmap sorting.
From S2P Require Import Prelude RangeSet IndexSetInterface.

(** [CollectionChangeSet::Move]: from, to. *)
Abbreviation Move := (Z * Z)%type.

(** [std::remove_if] followed by [erase], with a predicate that may change its
    argument and the state around it: [Some true] removes the element. *)
Fixpoint remove_if {A St} (p : A → St → option (bool * A * St)) (l : list A) (s : St) : option (list A * St) :=
  match l with
  | [] => Some ([], s)
  | a :: l =>
      '(drop, a', s1) ← p a s;
      '(l', s2) ← remove_if p l s1;
      Some (if drop : bool then l' else a' :: l', s2)
  end.

(** A [for (auto& x : v)] loop that may change [x] and the state around it. *)
Fixpoint update_each {A St} (f : A → St → option (A * St)) (l : list A) (s : St) : option (list A * St) :=
  match l with
  | [] => Some ([], s)
  | a :: l => '(a', s1) ← f a s; '(l', s2) ← update_each f l s1; Some (a' :: l', s2)
  end.

Definition by_from (a b : Move) : Prop := a.1 <= b.1.
#[export] Instance by_from_dec : RelDecision by_from.
Proof. intros a b. unfold by_from. apply _. Defined.

(** [CollectionChangeSet] *)
Record change_set (S : Type) := ChangeSet {
  cs_deletions : S; cs_insertions : S; cs_modifications : S; cs_modifications_new : S;
  cs_moves : list Move; cs_columns : list S
}.
Arguments ChangeSet {S}.
Arguments cs_deletions {S}.
Arguments cs_insertions {S}.
Arguments cs_modifications {S}.
Arguments cs_modifications_new {S}.
Arguments cs_moves {S}.
Arguments cs_columns {S}.

(** [CollectionChangeBuilder]; its [modifications_new] stays empty. *)
Record change_builder (S : Type) := Build {
  deletions : S; insertions : S; modifications : S; moves : list Move; columns : list S;
  move_mapping : gmap Z Z; track_columns : bool
}.
Arguments Build {S}.
Arguments deletions {S}.
Arguments insertions {S}.
Arguments modifications {S}.
Arguments moves {S}.
Arguments columns {S}.
Arguments move_mapping {S}.
Arguments track_columns {S}.

Module Changes.
Section changes.
Context {S : Type} `{IndexSets S}.
Implicit Types (c : change_builder S) (s : S).

(** Assignments to the fields. *)
Definition with_deletions c s : change_builder S :=
  Build s (insertions c) (modifications c) (moves c) (columns c) (move_mapping c) (track_columns c).
Definition with_insertions c s : change_builder S :=
  Build (deletions c) s (modifications c) (moves c) (columns c) (move_mapping c) (track_columns c).
Definition with_modifications c s : change_builder S :=
  Build (deletions c) (insertions c) s (moves c) (columns c) (move_mapping c) (track_columns c).
Definition with_moves c ms : change_builder S :=
  Build (deletions c) (insertions c) (modifications c) ms (columns c) (move_mapping c) (track_columns c).
Definition with_columns c cols : change_builder S :=
  Build (deletions c) (insertions c) (modifications c) (moves c) cols (move_mapping c) (track_columns c).
Definition with_mapping c m : change_builder S :=
  Build (deletions c) (insertions c) (modifications c) (moves c) (columns c) m (track_columns c).

(** A default-constructed builder. *)
Definition new : change_builder S := Build is_new is_new is_new [] [] ∅ true.

(** The constructor from sets and moves. *)
Definition construct (deletions insertions modifications : S) (ms : list Move) : option (change_builder S) :=
  '(d, i) ← foldM (λ m '(d, i), d' ← is_add d m.1; i' ← is_add i m.2; Some (d', i')) ms (deletions, insertions);
  Some (Build d i modifications ms [] ∅ true).

(** [CollectionChangeSet::empty] *)
Definition empty c : bool :=
  is_empty (deletions c) && is_empty (insertions c) && is_empty (modifications c)
  && is_empty is_new && match moves c with [] => true | _ => false end.

(** [verify], active in the debug builds. *)
Definition verify c : option unit :=
  foldM (λ m _,
    d ← is_contains (deletions c) m.1;
    REALM_ASSERT (d : bool) ;;
    i ← is_contains (insertions c) m.2;
    REALM_ASSERT (i : bool) ;;
    Some tt) (moves c) tt.

(** ** Merging two change sets *)

(** [std::vector::resize] on the columns. *)
Definition resize_columns (n : nat) (cols : list S) : list S := resize n is_new cols.

(** [for_each_col] of [merge]: [f] on the two modification sets and, column by
    column, after the shorter vector grew to the length of the longer one. *)
Definition for_each_col2 (f : S → S → option (S * S)) c o : option (change_builder S * change_builder S) :=
  '(m1, m2) ← f (modifications c) (modifications o);
  let c := with_modifications c m1 in
  let o := with_modifications o m2 in
  if track_columns c then
    let n := Nat.max (length (columns c)) (length (columns o)) in
    '(l, _) ← update_each (λ '(a, b) _, p ← f a b; Some (p, tt))
                (zip (resize_columns n (columns c)) (resize_columns n (columns o))) tt;
    Some (with_columns c (fst <$> l), with_columns o (snd <$> l))
  else Some (c, o).

(** [if (col.contains(from)) other.add(to)] *)
Definition carry (from to : Z) (col other : S) : option (S * S) :=
  b ← is_contains col from;
  if b : bool then other' ← is_add other to; Some (col, other') else Some (col, other).

(** Replace the element at [k] by the last one and drop that. *)
Definition swap_remove {A} (k : nat) (l : list A) : list A :=
  match last l with None => l | Some x => take (pred (length l)) (<[k := x]> l) end.

(** The predicate on the old moves: the builders are the state. *)
Definition merge_old_move (old : Move) (s : change_builder S * change_builder S)
    : option (bool * Move * (change_builder S * change_builder S)) :=
  let '(c, o) := s in
  let k := find_if (λ m : Move, old.2 =? m.1) (moves o) in
  match moves o !! k with
  | Some it =>
      '(c, o) ← for_each_col2 (carry it.1 it.2) c o;
      Some (false, (old.1, it.2), (c, with_moves o (swap_remove k (moves o))))
  | None =>
      gone ← is_contains (deletions o) old.2;
      if gone : bool then Some (true, old, (c, o)) else
      u ← is_unshift (deletions o) old.2;
      Some (false, (old.1, is_shift (insertions o) u), (c, o))
  end.

(** "First update any old moves" *)
Definition merge_old_moves c o : option (change_builder S * change_builder S) :=
  if negb (match moves o with [] => true | _ => false end)
     || negb (is_empty (deletions o)) || negb (is_empty (insertions o)) then
    '(ms, (c, o)) ← remove_if merge_old_move (moves c) (c, o);
    Some (with_moves c ms, o)
  else Some (c, o).

(** "Ignore new moves of rows which were previously inserted" *)
Definition ignore_moves_of_inserted c o : option (change_builder S) :=
  if negb (is_empty (insertions c)) && negb (match moves o with [] => true | _ => false end) then
    '(ms, _) ← remove_if (λ m (_ : unit), b ← is_contains (insertions c) m.1; Some (b, m, tt)) (moves o) tt;
    Some (with_moves o ms)
  else Some o.

(** "Ensure that any previously modified rows which were moved are still modified" *)
Definition keep_modified c o : option (change_builder S * change_builder S) :=
  if negb (is_empty (modifications c)) && negb (match moves o with [] => true | _ => false end) then
    foldM (λ (m : Move) '(c, o), for_each_col2 (carry m.1 m.2) c o) (moves o) (c, o)
  else Some (c, o).

(** "Update the source position of new moves" *)
Definition rebase_new_moves c o : option (change_builder S) :=
  if negb (is_empty (deletions c)) || negb (is_empty (insertions c)) then
    '(ms, _) ← update_each (λ (m : Move) (_ : unit),
                 u ← is_unshift (insertions c) m.1;
                 Some ((is_shift (deletions c) u, m.2), tt)) (moves o) tt;
    Some (with_moves o ms)
  else Some o.

Definition clean_up_stale_moves c : option (change_builder S) :=
  '(ms, c) ← remove_if (λ (m : Move) c,
      nd ← is_count_to (deletions c) m.1;
      ni ← is_count_to (insertions c) m.2;
      if negb (m.1 ⊖ nd =? m.2 ⊖ ni) then Some (false, m, c) else
      d ← is_remove (deletions c) m.1;
      i ← is_remove (insertions c) m.2;
      Some (true, m, with_insertions (with_deletions c d) i)) (moves c) c;
  Some (with_moves c ms).

(** The part of [merge] that works on the deletions and insertions. *)
Definition merge_sets c o : option (change_builder S) :=
  d ← is_add_shifted_by (deletions c) (insertions c) (deletions o);
  i ← is_erase_at_set (insertions c) (deletions o);
  i ← is_insert_at_set i (insertions o);
  Some (with_insertions (with_deletions c d) i).

(** [merge(c)] on two change sets that are not empty. *)
Definition merge_nonempty c o : option (change_builder S) :=
  verify c ;; verify o ;;
  '(c, o) ← merge_old_moves c o;
  o ← ignore_moves_of_inserted c o;
  '(c, o) ← keep_modified c o;
  o ← rebase_new_moves c o;
  let c := with_moves c (moves c ++ moves o) in
  c ← merge_sets c o;
  c ← clean_up_stale_moves c;
  '(c, o) ← for_each_col2 (λ col other,
      x ← is_erase_at_set col (deletions o);
      x ← is_shift_for_set x (insertions o);
      x ← is_add_set x other;
      Some (x, other)) c o;
  verify c ;;
  Some c.

Definition merge c o : option (change_builder S) :=
  if empty o then Some c else if empty c then Some o else merge_nonempty c o.

(** ** Recording changes *)

(** [m_move_mapping] becomes [moves], sorted by their source.  The order in
    which the hash map is walked does not matter: keys and values are unique. *)
Definition parse_complete c : option (change_builder S) :=
  c ← foldM (λ (mv : Z * Z) c,
      d ← is_contains (deletions c) mv.2;
      REALM_ASSERT (d : bool) ;;
      i ← is_contains (insertions c) mv.1;
      REALM_ASSERT (i : bool) ;;
      if mv.1 =? mv.2 then
        d ← is_remove (deletions c) mv.2;
        i ← is_remove (insertions c) mv.1;
        Some (with_insertions (with_deletions c d) i)
      else Some (with_moves c (moves c ++ [(mv.2, mv.1)])))
    (map_to_list (move_mapping c)) c;
  let c := with_mapping c ∅ in
  Some (with_moves c (merge_sort by_from (moves c))).

Definition modify c (ndx col : Z) : option (change_builder S) :=
  m ← is_add (modifications c) ndx;
  let c := with_modifications c m in
  if negb (track_columns c) || (col =? npos) then Some c else
  let cols := if Z.of_nat (length (columns c)) <=? col
              then resize_columns (Z.to_nat (col + 1)) (columns c) else columns c in
  s ← cols !! Z.to_nat col;
  s' ← is_add s ndx;
  Some (with_columns c (<[Z.to_nat col := s']> cols)).

(** [for_each_col(f)] *)
Definition for_each_col (f : S → option S) c : option (change_builder S) :=
  m ← f (modifications c);
  let c := with_modifications c m in
  if track_columns c then
    '(cols, _) ← update_each (λ s (_ : unit), s' ← f s; Some (s', tt)) (columns c) tt;
    Some (with_columns c cols)
  else Some c.

(** The keys of [m_move_mapping] that are at [index] or later move up. *)
Definition shift_mapping (index count : Z) (m : gmap Z Z) : gmap Z Z :=
  let shifted := filter (λ kv : Z * Z, index <= kv.1) (map_to_list m) in
  let kept := filter (λ kv : Z * Z, kv.1 < index) m in
  foldl (λ m kv, match m !! (kv.1 ⊕ count) with Some _ => m | None => <[kv.1 ⊕ count := kv.2]> m end)
    kept shifted.

Definition insert c (index count : Z) (track_moves : bool) : option (change_builder S) :=
  REALM_ASSERT (negb (count =? 0)) ;;
  c ← for_each_col (λ col, is_shift_for col index count) c;
  if negb track_moves then Some c else
  i ← is_insert_at (insertions c) index count;
  let c := with_insertions c i in
  let c := with_moves c ((λ m : Move, if index <=? m.2 then (m.1, m.2 ⊕ count) else m) <$> moves c) in
  Some (with_mapping c (shift_mapping index count (move_mapping c))).

Definition erase c (index : Z) : option (change_builder S) :=
  c ← for_each_col (λ col, is_erase_at col index) c;
  '(i, unshifted) ← is_erase_or_unshift (insertions c) index;
  let c := with_insertions c i in
  c ← (if negb (unshifted =? npos)
       then '(d, _) ← is_add_shifted (deletions c) unshifted; Some (with_deletions c d)
       else Some c);
  '(ms, _) ← remove_if (λ (m : Move) (_ : unit),
      Some (m.2 =? index, if index <? m.2 then (m.1, m.2 ⊖ 1) else m, tt)) (moves c) tt;
  Some (with_moves c ms).

Definition clear c (old_size : Z) : option (change_builder S) :=
  let old_size :=
    if old_size =? npos then old_size else
    let plus := foldl (λ n (r : range), n ⊕ (r.2 ⊖ r.1)) old_size (is_ranges (deletions c)) in
    foldl (λ n (r : range), n ⊖ (r.2 ⊖ r.1)) plus (is_ranges (insertions c)) in
  d ← is_set old_size;
  Some (Build d is_new is_new [] [] ∅ (track_columns c)).

(** The loop of [move] over the recorded moves; the flag is
    [updated_existing_move]. *)
Definition move_one (from to : Z) (m : Move) (s : S * bool) : option (Move * (S * bool)) :=
  let '(ins, updated) := s in
  if negb (m.2 =? from) then
    Some (if (to <=? m.2) && (m.2 <? from) then (m.1, m.2 ⊕ 1)
          else if (m.2 <=? to) && (from <? m.2) then (m.1, m.2 ⊖ 1) else m, (ins, updated))
  else
    REALM_ASSERT (negb updated) ;;
    ins ← is_erase_at ins from;
    ins ← is_insert_at ins to 1;
    Some ((m.1, to), (ins, true)).

(** The moves, insertions and deletions after a move. *)
Definition move_record c (from to : Z) : option (change_builder S) :=
  '(ms, (ins, updated)) ← update_each (move_one from to) (moves c) (insertions c, false);
  let c := with_insertions (with_moves c ms) ins in
  if updated : bool then Some c else
  '(ins, shifted_from) ← is_erase_or_unshift (insertions c) from;
  ins ← is_insert_at ins to 1;
  let c := with_insertions c ins in
  if negb (shifted_from =? npos) then
    '(d, shifted_from) ← is_add_shifted (deletions c) shifted_from;
    Some (with_moves (with_deletions c d) (moves c ++ [(shifted_from, to)]))
  else Some c.

(** The column update of [move]. *)
Definition move_col (from to : Z) (col : S) : option S :=
  modified ← is_contains col from;
  col ← is_erase_at col from;
  if modified : bool then is_insert_at col to 1 else is_shift_for col to 1.

Definition move c (from to : Z) : option (change_builder S) :=
  REALM_ASSERT (negb (from =? to)) ;;
  c ← move_record c from to;
  for_each_col (move_col from to) c.

(** [prev(set.end())->second] *)
Definition last_end s : option Z := r ← last (is_ranges s); Some r.2.

(** [set.empty() || prev(set.end())->second - 1 <= last_row] *)
Definition ends_by s (last_row : Z) : bool :=
  match last_end s with None => true | Some e => e ⊖ 1 <=? last_row end.

(** [move_over] of the last row itself: the row is erased. *)
Definition move_over_last c (row_ndx : Z) (track_moves : bool) : option (change_builder S) :=
  c ← (if track_moves then
         '(i, shifted_from) ← is_erase_or_unshift (insertions c) row_ndx;
         let c := with_insertions c i in
         c ← (if negb (shifted_from =? npos)
              then '(d, _) ← is_add_shifted (deletions c) shifted_from; Some (with_deletions c d)
              else Some c);
         Some (with_mapping c (delete row_ndx (move_mapping c)))
       else Some c);
  for_each_col (λ col, is_remove col row_ndx) c.

(** The column update of [move_over]. *)
Definition move_over_col (row_ndx last_row : Z) (col : S) : option S :=
  modified ← is_contains col last_row;
  if modified : bool then col ← is_remove col last_row; is_add col row_ndx
  else is_remove col row_ndx.

(** The move tracking of [move_over]. *)
Definition move_over_track c (row_ndx last_row : Z) : option (change_builder S) :=
  row_is_insertion ← is_contains (insertions c) row_ndx;
  let last_is_insertion := match last_end (insertions c) with
                           | None => false | Some e => e =? last_row ⊕ 1 end in
  REALM_ASSERT (match last_end (insertions c) with None => true | Some e => e <=? last_row ⊕ 1 end) ;;
  let '(c, last_was_already_moved) :=
    (match (if last_is_insertion then move_mapping c !! last_row else None) with
     | Some orig => (with_mapping c (delete last_row (<[row_ndx := orig]> (move_mapping c))), true)
     | None => (c, false)
     end) in
  let c := if (row_is_insertion : bool) && negb last_was_already_moved
           then with_mapping c (delete row_ndx (move_mapping c)) else c in
  c ← (if last_is_insertion then
         i ← is_remove (insertions c) last_row; Some (with_insertions c i)
       else if negb last_was_already_moved then
         u ← is_unshift (insertions c) last_row;
         '(d, shifted) ← is_add_shifted (deletions c) u;
         let c := with_deletions c d in
         Some (with_mapping c (<[row_ndx := shifted]> (move_mapping c)))
       else Some c);
  c ← (if negb row_is_insertion then
         u ← is_unshift (insertions c) row_ndx;
         '(d, _) ← is_add_shifted (deletions c) u;
         i ← is_add (insertions c) row_ndx;
         Some (with_insertions (with_deletions c d) i)
       else Some c);
  verify c ;; Some c.

Definition move_over c (row_ndx last_row : Z) (track_moves : bool) : option (change_builder S) :=
  REALM_ASSERT (row_ndx <=? last_row) ;;
  REALM_ASSERT (ends_by (insertions c) last_row) ;;
  REALM_ASSERT (ends_by (modifications c) last_row) ;;
  if row_ndx =? last_row then move_over_last c row_ndx track_moves else
  c ← for_each_col (move_over_col row_ndx last_row) c;
  if negb track_moves then Some c else move_over_track c row_ndx last_row.

(** The column update of [swap]. *)
Definition swap_col (ndx_1 ndx_2 : Z) (col : S) : option S :=
  m1 ← is_contains col ndx_1;
  m2 ← is_contains col ndx_2;
  if eqb (m1 : bool) m2 then Some col else
  if m1 then col ← is_remove col ndx_1; is_add col ndx_2
  else col ← is_remove col ndx_2; is_add col ndx_1.

(** Record a move from [src] to [dst] unless [src] was a new insertion. *)
Definition swap_new_move c (src dst : Z) : option (change_builder S) :=
  ins ← is_contains (insertions c) src;
  if ins : bool then Some c else
  u ← is_unshift (insertions c) src;
  '(d, from) ← is_add_shifted (deletions c) u;
  i ← is_add (insertions c) src;
  Some (with_mapping (with_insertions (with_deletions c d) i) (<[dst := from]> (move_mapping c))).

(** The [update_move] lambda: the move to [ndx_2] now goes to [ndx_1]. *)
Definition update_move c (original ndx_1 ndx_2 : Z) : option (change_builder S) :=
  let c := with_mapping c (<[ndx_1 := original]> (delete ndx_2 (move_mapping c))) in
  c ← swap_new_move c ndx_1 ndx_2;
  ins ← is_contains (insertions c) ndx_2;
  REALM_ASSERT (ins : bool) ;;
  Some c.

Definition swap c (a b : Z) (track_moves : bool) : option (change_builder S) :=
  REALM_ASSERT (negb (a =? b)) ;;
  let '(ndx_1, ndx_2) := if b <? a then (b, a) else (a, b) in
  c ← for_each_col (swap_col ndx_1 ndx_2) c;
  if negb track_moves then Some c else
  match move_mapping c !! ndx_1, move_mapping c !! ndx_2 with
  | Some o1, Some o2 => Some (with_mapping c (<[ndx_1 := o2]> (<[ndx_2 := o1]> (move_mapping c))))
  | Some o1, None => update_move c o1 ndx_2 ndx_1
  | None, Some o2 => update_move c o2 ndx_1 ndx_2
  | None, None => c ← swap_new_move c ndx_2 ndx_1; swap_new_move c ndx_1 ndx_2
  end.

Definition subsume c (old_ndx new_ndx : Z) (track_moves : bool) : option (change_builder S) :=
  REALM_ASSERT (negb (old_ndx =? new_ndx)) ;;
  c ← for_each_col (λ col, b ← is_contains col old_ndx; if b : bool then is_add col new_ndx else Some col) c;
  if negb track_moves then Some c else
  ins ← is_contains (insertions c) new_ndx;
  REALM_ASSERT (ins : bool) ;;
  REALM_ASSERT (match move_mapping c !! new_ndx with None => true | Some _ => false end) ;;
  c ← (match move_mapping c !! old_ndx with
       | Some o => Some (with_mapping c (delete old_ndx (<[new_ndx := o]> (move_mapping c))))
       | None =>
           old_ins ← is_contains (insertions c) old_ndx;
           if old_ins : bool then Some c else
           u ← is_unshift (insertions c) old_ndx;
           Some (with_mapping c (<[new_ndx := is_shift (deletions c) u]> (move_mapping c)))
       end);
  verify c ;; Some c.

(** ** Columns *)

Definition insert_column c (ndx : nat) : change_builder S :=
  if bool_decide (ndx < length (columns c))%nat
  then with_columns c (take ndx (columns c) ++ is_new :: drop ndx (columns c)) else c.

(** [std::rotate(first, middle, last)] on the positions of a list. *)
Definition rotate_range {A} (l : list A) (first middle stop : nat) : list A :=
  take first l ++ (take (stop - middle) (drop middle l)) ++ (take (middle - first) (drop first l)) ++ drop stop l.

Definition move_column c (from to : nat) : change_builder S :=
  let n := length (columns c) in
  if bool_decide (n ≤ from)%nat && bool_decide (n ≤ to)%nat then c else
  let cols := if bool_decide (n ≤ from)%nat || bool_decide (n ≤ to)%nat
              then resize_columns (Nat.max from to + 1) (columns c) else columns c in
  with_columns c
    (if bool_decide (from < to)%nat then rotate_range cols from (from + 1) (to + 1)
     else rotate_range cols to from (from + 1)).

(** ** Finishing *)

Definition finalize c : option (change_set S) :=
  old ← is_erase_at_set (modifications c) (insertions c);
  old ← is_shift_for_set old (deletions c);
  m ← is_remove_set (modifications c) (insertions c);
  Some (ChangeSet (deletions c) (insertions c) old m (moves c) (columns c)).

End changes.
End Changes.
