(* ===== verification/ChangeBuilderSpec.v ===== *)
(** * Recording changes: correctness

    A change set says where every row of the old collection is in the new one.
    [kept c i j] says it for the rows that were neither deleted nor moved,
    [follows c i j] includes the recorded moves.  The recorded operations act on
    the new positions exactly as they act on the collection. *)

From stdpp Require Import gmap sorting.
From S2P Require Import Prelude RangeSet IndexSetEdits Ranks IndexSetInterface ChangeBuilder.
Import Changes.

Section spec.
Context {S : Type} `{IndexSetLaws S}.
Implicit Types (c : change_builder S) (s : S).

Lemma ok_sorted s : is_ok s → ranges_ok 0 (is_ranges s).
Proof. intros Hs. by destruct (is_ok_ranges s Hs). Qed.

Lemma has_nonneg s j : is_ok s → has s j → 0 <= j.
Proof. intros Hs. apply mem_ge. by apply ok_sorted. Qed.

(** The members of [s] are below [N]. *)
Definition below_bound (N : Z) s : Prop := ∀ j, has s j → j < N.

Lemma size_bound N s : is_ok s → 0 <= N → below_bound N s → 0 <= size s <= N.
Proof.
  intros Hs HN Hb. pose proof (ok_sorted s Hs) as Ho. unfold size.
  destruct (total_nonneg _ _ Ho) as [? _]. split; [done|].
  assert (next_lo 0 (is_ranges s) <= N + 1) as Hn.
  { destruct (snoc_cases (is_ranges s)) as [E|(l & r & E)]; [rewrite E; simpl; lia|].
    rewrite E, next_lo_snoc. rewrite E in Ho. apply ranges_ok_app in Ho as [_ Ho]. simpl in Ho.
    assert (has s (r.2 - 1)) as Hr by (unfold has; rewrite E, mem_app, mem_cons; lia).
    specialize (Hb _ Hr). lia. }
  pose proof (rank_above 0 N _ Ho Hn). pose proof (rank_le 0 N _ Ho HN). lia.
Qed.

(** ** What a change set means *)

(** The old row [i] is the new row [j], and was not moved. *)
Definition kept c (i j : Z) : Prop :=
  0 <= i ∧ 0 <= j ∧ ¬ has (insertions c) j ∧ ¬ has (deletions c) i ∧
  i - rk (deletions c) i = j - rk (insertions c) j.

(** The old row [i] is the new row [j]. *)
Definition follows c (i j : Z) : Prop := kept c i j ∨ (i, j) ∈ moves c.

(** The sets are well formed. *)
Definition wf c : Prop :=
  is_ok (deletions c) ∧ is_ok (insertions c) ∧ is_ok (modifications c) ∧ Forall is_ok (columns c).

(** Every index of the change set is below [N]. *)
Definition within (N : Z) c : Prop :=
  0 <= N ∧ below_bound N (deletions c) ∧ below_bound N (insertions c) ∧
  below_bound N (modifications c) ∧ Forall (below_bound N) (columns c).

(** A move goes from a deletion to an insertion, and no two moves share an end. *)
Definition moves_ok c : Prop :=
  (∀ i j, (i, j) ∈ moves c → has (deletions c) i ∧ has (insertions c) j) ∧
  NoDup ((moves c).*1) ∧ NoDup ((moves c).*2).

(** The modified rows of [c'] and of its columns are those of [c] under [R]. *)
Definition cols_related (R : (Z → Prop) → Z → Prop) c c' : Prop :=
  (∀ j, has (modifications c') j ↔ R (has (modifications c)) j) ∧
  (if track_columns c
   then Forall2 (λ s s', ∀ j, has s' j ↔ R (has s) j) (columns c) (columns c')
   else columns c' = columns c).

Lemma update_each_spec (f : S → option S) (Q : S → Prop) R l :
  Forall Q l → (∀ s, Q s → yields is_ok (f s) (R (has s))) →
  ∃ l', update_each (λ s (_ : unit), s' ← f s; Some (s', tt)) l tt = Some (l', tt) ∧
    Forall is_ok l' ∧ Forall2 (λ s s', ∀ j, has s' j ↔ R (has s) j) l l'.
Proof.
  intros HQ Hf. induction HQ as [|s l Hs HQ IH]; simpl; [by exists []|].
  destruct (Hf s Hs) as (s' & -> & Hok & Hm). simpl. destruct IH as (l' & -> & Hok' & Hm').
  exists (s' :: l'). split_and!; by constructor.
Qed.

(** A column update changes the modification sets alone. *)
Lemma for_each_col_spec (f : S → option S) (Q : S → Prop) R c :
  wf c → Q (modifications c) → Forall Q (columns c) →
  (∀ s, is_ok s → Q s → yields is_ok (f s) (R (has s))) →
  ∃ c', for_each_col f c = Some c' ∧ wf c' ∧ cols_related R c c' ∧
    deletions c' = deletions c ∧ insertions c' = insertions c ∧ moves c' = moves c ∧
    move_mapping c' = move_mapping c ∧ track_columns c' = track_columns c.
Proof.
  intros (Hd & Hi & Hm & Hc) HQ HQc Hf. unfold for_each_col.
  destruct (Hf _ Hm HQ) as (m' & -> & Hok' & Hm'). simpl. destruct (track_columns c) eqn:Et.
  - destruct (update_each_spec f (λ s, is_ok s ∧ Q s) R (columns c)) as (l' & E & Hl' & H2).
    { by apply Forall_and. }
    { intros s []. by apply Hf. }
    rewrite E. simpl. eexists. split; [done|]. unfold wf, cols_related. simpl. rewrite Et. by split_and!.
  - eexists. split; [done|]. unfold wf, cols_related. simpl. rewrite Et. by split_and!.
Qed.

(** ** [insert] *)

(** Where row [j] goes when [n] rows are inserted at [index]. *)
Definition after_insert (index n j : Z) : Z := if j <? index then j else j + n.

Lemma shifted_after_insert (P : Z → Prop) index n j :
  shifted P index n j ↔ ∃ k, P k ∧ j = after_insert index n k.
Proof.
  unfold shifted, after_insert. split.
  - intros [[? ?]|[? ?]]; [exists j; destruct (Z.ltb_spec j index)|exists (j - n); destruct (Z.ltb_spec (j - n) index)]; (split; [done|]); lia.
  - intros (k & Hk & ->). destruct (Z.ltb_spec k index); [by left|right]. split; [lia|].
    by replace (k + n - n) with k by lia.
Qed.

Lemma kept_insert c c' index n :
  wf c → 0 <= index → 0 < n → is_ok (insertions c') → deletions c' = deletions c →
  (∀ j, has (insertions c') j ↔ inserted (has (insertions c)) index n j) →
  ∀ i j', kept c' i j' ↔ ∃ j, kept c i j ∧ j' = after_insert index n j.
Proof.
  intros (Hd & Hi & _) Hidx Hn Hok' Ed Hm i j'. unfold kept. rewrite Ed.
  pose proof (rank_inserted _ _ (ok_sorted _ Hi) (ok_sorted _ Hok') index n Hidx Hn Hm) as Hr.
  unfold rk in *. split.
  - intros (? & Hj' & Hn1 & ? & E). rewrite Hr in E by done. rewrite Hm in Hn1. unfold inserted in Hn1.
    destruct (Z.leb_spec j' index) as [C|C].
    + assert (j' < index) by (destruct (Z.eq_dec j' index); [subst; destruct Hn1; lia|lia]).
      exists j'. unfold after_insert. rewrite (proj2 (Z.ltb_lt j' index)) by done.
      split_and!; try done. intros ?. apply Hn1. by left.
    + destruct (Z.leb_spec j' (index + n)) as [C2|C2].
      * assert (j' = index + n) as -> by (destruct (Z.eq_dec j' (index + n)); [done|destruct Hn1; lia]).
        exists index. unfold after_insert. rewrite (proj2 (Z.ltb_ge index index)) by lia.
        split_and!; try done; [|lia]. intros ?. apply Hn1. right. right.
        split; [lia|]. by replace (index + n - n) with index by lia.
      * exists (j' - n). unfold after_insert. rewrite (proj2 (Z.ltb_ge (j' - n) index)) by lia.
        split_and!; try done; try lia. intros ?. apply Hn1. right. right. split; [lia|done].
  - intros (j & (? & Hj & Hn1 & ? & E) & ->). unfold after_insert.
    destruct (Z.ltb_spec j index) as [C|C].
    + split_and!; try done; [rewrite Hm; unfold inserted; intuition lia|].
      rewrite Hr by done. by rewrite (proj2 (Z.leb_le j index)) by lia.
    + split_and!; try done; [lia| |].
      * rewrite Hm. unfold inserted. replace (j + n - n) with j by lia. intuition lia.
      * rewrite Hr, (proj2 (Z.leb_gt (j + n) index)) by lia. replace (j + n - n) with j by lia.
        destruct (Z.leb_spec (j + n) (index + n)); [replace j with index in * by lia|]; lia.
Qed.

(** The recorded moves, their ends relocated by [f]. *)
Definition moved_by (f : Z → Z) (ms : list Move) : list Move := (λ m, (m.1, f m.2)) <$> ms.

Lemma elem_of_moved_by f ms i j : (i, j) ∈ moved_by f ms ↔ ∃ k, (i, k) ∈ ms ∧ j = f k.
Proof.
  unfold moved_by. rewrite list_elem_of_fmap. split.
  - intros ([a b] & E & Hm). injection E as -> ->. by exists b.
  - intros (k & Hk & ->). by exists (i, k).
Qed.

Lemma moved_by_fst f ms : (moved_by f ms).*1 = ms.*1.
Proof. unfold moved_by. rewrite <- list_fmap_compose. done. Qed.

Lemma moved_by_snd f ms : (moved_by f ms).*2 = f <$> ms.*2.
Proof. unfold moved_by. rewrite <- !list_fmap_compose. done. Qed.

Lemma moves_bound N c m : moves_ok c → within N c → m ∈ moves c → 0 <= N ∧ m.1 < N ∧ m.2 < N.
Proof.
  intros (Hm & _) (HN & Hd & Hi & _) Hin. destruct m as [a b]. apply Hm in Hin as [Ha Hb].
  split; [done|]. split; [by apply Hd|by apply Hi].
Qed.

(** A recording step: rows are relocated by the relation [R], whether they were
    kept or moved. *)
Definition relocates c c' (R : Z → Z → Prop) : Prop :=
  ∀ i j', follows c' i j' ↔ ∃ j, follows c i j ∧ R j j'.

(** The same for the rows that are not moved. *)
Definition keeps c c' (R : Z → Z → Prop) : Prop :=
  ∀ i j', kept c' i j' ↔ ∃ j, kept c i j ∧ R j j'.

Lemma relocates_intro c c' R :
  keeps c c' R →
  (∀ i j', (i, j') ∈ moves c' ↔ ∃ j, (i, j) ∈ moves c ∧ R j j') → relocates c c' R.
Proof.
  intros Hk Hm i j'. unfold follows. rewrite (Hk i j'), (Hm i j'). split.
  - intros [(k & ? & ?)|(k & ? & ?)]; exists k; tauto.
  - intros (k & [?|?] & ?); [left|right]; eauto.
Qed.

Lemma insert_spec N c index n :
  wf c → within N c → moves_ok c → 0 <= index → 0 < n → index + n < npos → N + n < npos →
  ∃ c', insert c index n true = Some c' ∧ wf c' ∧ moves_ok c' ∧
    relocates c c' (λ j j', j' = after_insert index n j) ∧
    keeps c c' (λ j j', j' = after_insert index n j) ∧
    cols_related (λ P, shifted P index n) c c'.
Proof.
  intros Hwf Hw Hmv Hidx Hn Hin HN. pose proof Hw as (HN0 & Hbd & Hbi & Hbm & Hbc).
  unfold insert. rewrite (proj2 (Z.eqb_neq n 0)) by lia. simpl.
  destruct (for_each_col_spec (λ col, is_shift_for col index n) (below_bound N) (λ P, shifted P index n) c)
    as (c1 & -> & Hwf1 & Hc1 & Ed & Ei & Em & Emap & Et); [done|done|done| |].
  { intros s Hs Hb. apply is_shift_for_law; try done. intros j Hj _. specialize (Hb j Hj). lia. }
  simpl. destruct Hwf1 as (Hd1 & Hi1 & Hm1 & Hcl1).
  destruct (is_insert_at_law (insertions c1) index n) as (i2 & -> & Hi2 & Hhas); [done..| |].
  { intros j Hj _. rewrite Ei in Hj. specialize (Hbi j Hj). lia. }
  simpl. eexists. split; [done|].
  assert (((λ m : Move, if index <=? m.2 then (m.1, m.2 ⊕ n) else m) <$> moves c1) =
          moved_by (after_insert index n) (moves c)) as Ems.
  { rewrite Em. apply list_fmap_ext. intros k [a b] Hk. apply list_elem_of_lookup_2 in Hk.
    destruct (moves_bound N c (a, b) Hmv Hw Hk) as (_ & _ & Hb). simpl in *.
    destruct Hmv as (Hmv & _). apply Hmv in Hk as [_ Hk]. apply has_nonneg in Hk; [|by destruct Hwf as (_ & ? & _)].
    unfold after_insert. destruct (Z.leb_spec index b), (Z.ltb_spec b index); try lia; [by wsimp|done]. }
  rewrite Ei in Hhas.
  match goal with |- wf ?c' ∧ _ => assert (keeps c c' (λ j j', j' = after_insert index n j)) as Hkeep end.
  { intros i j'. apply kept_insert; simpl; try done. }
  split; [|split; [|split]].
  - unfold wf. simpl. rewrite Ed in *. by split_and!.
  - destruct Hmv as (Hmv & Hn1 & Hn2). unfold moves_ok. simpl. rewrite Ems, moved_by_fst, moved_by_snd. split_and!; [|done|].
    + intros i j (k & Hk & ->)%elem_of_moved_by. apply Hmv in Hk as [Hki Hkj]. rewrite Ed. split; [done|].
      apply Hhas. unfold inserted, after_insert. destruct (Z.ltb_spec k index); [by left|right; right].
      split; [lia|]. by replace (k + n - n) with k by lia.
    + apply NoDup_fmap_2; [|done]. intros a b. unfold after_insert.
      destruct (Z.ltb_spec a index), (Z.ltb_spec b index); lia.
  - apply relocates_intro; [done|]. intros i j'. simpl. rewrite Ems. apply elem_of_moved_by.
  - done.
Qed.

(** ** [erase] *)

(** Row [j] is at [j'] after row [index] is erased. *)
Definition after_erase (index j j' : Z) : Prop := j ≠ index ∧ j' = if j <? index then j else j - 1.

Lemma erased_after_erase (P : Z → Prop) index j' :
  erased P index j' ↔ ∃ j, P j ∧ after_erase index j j'.
Proof.
  unfold erased, after_erase. split.
  - intros [[? ?]|[? ?]]; [exists j'; destruct (Z.ltb_spec j' index)|exists (j' + 1); destruct (Z.ltb_spec (j' + 1) index)];
      (split; [done|]); lia.
  - intros (j & Hj & Hne & ->). destruct (Z.ltb_spec j index); [by left|right]. split; [lia|].
    by replace (j - 1 + 1) with j by lia.
Qed.

(** The position before [index] is erased. *)
Definition before_erase (index j' : Z) : Z := if j' <? index then j' else j' + 1.

Lemma after_before_erase index j j' : 0 <= index → after_erase index j j' ↔ j = before_erase index j' ∧ j ≠ index.
Proof.
  intros Hi. unfold after_erase, before_erase. destruct (Z.ltb_spec j index), (Z.ltb_spec j' index); lia.
Qed.

(** The unshifted position of a row when [index] is erased from the insertions. *)
Lemma position_erased l l' index j' :
  ranges_ok 0 l → ranges_ok 0 l' → 0 <= index → 0 <= j' →
  (∀ j, mem j l' ↔ erased (λ j, mem j l) index j) →
  let j := before_erase index j' in
  (mem j' l' ↔ mem j l) ∧ 0 <= j ∧ j ≠ index ∧
  j' - rank j' l' = j - rank j l - (if (index <? j) && negb (memb index l) then 1 else 0).
Proof.
  intros Hl Hl' Hidx Hj' Hm. simpl. unfold before_erase. rewrite Hm, (rank_erased l l' Hl Hl' index Hidx Hm) by done.
  unfold erased. destruct (Z.ltb_spec j' index) as [C|C].
  - rewrite (proj2 (Z.leb_le j' index)), (proj2 (Z.ltb_ge index j')) by lia. simpl.
    split_and!; [intuition lia|lia|lia|lia].
  - rewrite (proj2 (Z.ltb_lt index (j' + 1))) by lia. split_and!; [intuition lia|lia|lia|].
    destruct (Z.leb_spec j' index).
    + replace j' with index by lia. rewrite (rank_succ 0) by done. destruct (memb index l); simpl; lia.
    + destruct (memb index l); simpl; lia.
Qed.

(** Erasing a row that was inserted or moved here: nothing is deleted. *)
Lemma kept_erase_inserted c c' index :
  wf c → 0 <= index → is_ok (insertions c') → deletions c' = deletions c → has (insertions c) index →
  (∀ j, has (insertions c') j ↔ erased (has (insertions c)) index j) →
  ∀ i j', kept c' i j' ↔ ∃ j, kept c i j ∧ after_erase index j j'.
Proof.
  intros (Hd & Hi & _) Hidx Hok' Ed Hin Hm i j'. unfold kept, rk, has. rewrite Ed.
  pose proof (position_erased _ _ index j' (ok_sorted _ Hi) (ok_sorted _ Hok') Hidx) as Hp.
  setoid_rewrite after_before_erase; [|done]. rewrite (proj2 (memb_mem index _) Hin) in Hp. cbn [negb] in Hp. rewrite andb_false_r in Hp. split.
  - intros (? & Hj' & Hn1 & ? & E). destruct (Hp Hj' Hm) as (P1 & P2 & P3 & P4). rewrite P1 in Hn1.
    exists (before_erase index j'). split_and!; try done. lia.
  - intros (j & (? & Hj & Hn1 & ? & E) & -> & Hne).
    assert (0 <= j') as Hj' by (unfold before_erase in Hj; destruct (Z.ltb_spec j' index); lia).
    destruct (Hp Hj' Hm) as (P1 & P2 & P3 & P4). rewrite P1. split_and!; try done. lia.
Qed.

(** Erasing a row that is kept: its old row [i0] is deleted. *)
Lemma kept_erase_deleted c c' index i0 :
  wf c → 0 <= index → is_ok (insertions c') → is_ok (deletions c') → kept c i0 index →
  (∀ j, has (insertions c') j ↔ erased (has (insertions c)) index j) →
  (∀ i, has (deletions c') i ↔ i = i0 ∨ has (deletions c) i) →
  ∀ i j', kept c' i j' ↔ ∃ j, kept c i j ∧ after_erase index j j'.
Proof.
  intros (Hd & Hi & _) Hidx Hok' Hokd (Hi0 & _ & Nidx & Ni0 & E0) Hm Hmd i j'. unfold kept, rk, has in *.
  pose proof (position_erased _ _ index j' (ok_sorted _ Hi) (ok_sorted _ Hok') Hidx) as Hp.
  setoid_rewrite after_before_erase; [|done]. rewrite (memb_false index _ Nidx) in Hp. cbn [negb] in Hp. rewrite andb_true_r in Hp.
  pose proof (rank_added _ _ (ok_sorted _ Hd) (ok_sorted _ Hokd) i0 Hi0 Ni0 Hmd i) as Hrd.
  assert (∀ j, 0 <= i → 0 <= j → ¬ mem i (is_ranges (deletions c)) → ¬ mem j (is_ranges (insertions c)) →
    (i0 < i ↔ index - rank index (is_ranges (insertions c)) < i - rank i (is_ranges (deletions c))) ∧
    (i < i0 ↔ i - rank i (is_ranges (deletions c)) < index - rank index (is_ranges (insertions c))) ∧
    (index < j ↔ index - rank index (is_ranges (insertions c)) < j - rank j (is_ranges (insertions c))) ∧
    (j < index ↔ j - rank j (is_ranges (insertions c)) < index - rank index (is_ranges (insertions c)))) as Hord.
  { intros j ????. rewrite <- E0. split_and!; [by apply unshifted_lt; [apply ok_sorted|..]..| |]; rewrite E0;
      (apply unshifted_lt; [by apply ok_sorted|done..]). }
  split.
  - intros (Hi' & Hj' & Hn1 & Hn2 & E). destruct (Hp Hj' Hm) as (P1 & P2 & P3 & P4).
    rewrite P1 in Hn1. rewrite Hmd in Hn2. rewrite (Hrd Hi') in E.
    destruct (Hord (before_erase index j')) as (O1 & O2 & O3 & O4); [done..|tauto|done|].
    assert (i ≠ i0) by (intros ->; tauto).
    exists (before_erase index j'). split_and!; try done; [tauto|].
    destruct (Z.ltb_spec i0 i), (Z.ltb_spec index (before_erase index j')); lia.
  - intros (j & (Hi' & Hj & Hn1 & Hn2 & E) & -> & Hne).
    assert (0 <= j') as Hj' by (unfold before_erase in Hj; destruct (Z.ltb_spec j' index); lia).
    destruct (Hp Hj' Hm) as (P1 & P2 & P3 & P4). rewrite P1, Hmd, (Hrd Hi').
    destruct (Hord (before_erase index j')) as (O1 & O2 & O3 & O4); [done..|].
    assert (i ≠ i0) by (intros ->; lia).
    split_and!; try done; [intros [?|?]; done|].
    destruct (Z.ltb_spec i0 i), (Z.ltb_spec index (before_erase index j')); lia.
Qed.

(** A row outside of the insertions has an old row. *)
Lemma kept_shift N c j :
  wf c → within N c → 0 <= j → j + N < npos → ¬ has (insertions c) j →
  kept c (is_shift (deletions c) (j - rk (insertions c) j)) j ∧
  0 <= j - rk (insertions c) j ∧ j - rk (insertions c) j + size (deletions c) < npos.
Proof.
  intros (Hd & Hi & _) (HN & Hbd & _) Hj Hjn Hn. pose proof (size_bound N _ Hd HN Hbd).
  pose proof (unshifted_nonneg _ (ok_sorted _ Hi) j Hj) as Hu. fold (rk (insertions c) j) in Hu.
  pose proof (rank_nonneg j (is_ranges (insertions c))) as Hrn. fold (rk (insertions c) j) in Hrn.
  destruct (is_shift_law (deletions c) (j - rk (insertions c) j) Hd Hu) as (L1 & L2 & L3); [lia|].
  split; [|lia]. unfold kept. split_and!; done || lia.
Qed.

(** The update of the insertions and deletions when a row disappears:
    [erase_or_unshift], then [add_shifted] unless the row was inserted. *)
Lemma row_gone N c index :
  wf c → within N c → 0 <= index → index + N < npos →
  ∃ ins r, is_erase_or_unshift (insertions c) index = Some (ins, r) ∧ is_ok ins ∧
    (∀ j, has ins j ↔ erased (has (insertions c)) index j) ∧
    ((has (insertions c) index ∧ r = npos) ∨
     (¬ has (insertions c) index ∧ r ≠ npos ∧ ∃ d i0, is_add_shifted (deletions c) r = Some (d, i0) ∧ is_ok d ∧
        kept c i0 index ∧ ∀ i, has d i ↔ i = i0 ∨ has (deletions c) i)).
Proof.
  intros Hwf Hw Hidx HN. pose proof Hwf as (Hd & Hi & _). pose proof Hw as (HN0 & _).
  destruct (is_erase_or_unshift_law (insertions c) index Hi) as (ins & -> & Hok & Hm); [lia|].
  eexists ins, _. split; [done|]. split; [done|]. split; [done|].
  destruct (memb index (is_ranges (insertions c))) eqn:Eb.
  - left. by rewrite memb_mem in Eb.
  - right. assert (¬ has (insertions c) index) as Hn by (unfold has; rewrite <- memb_mem; by rewrite Eb).
    destruct (kept_shift N c index Hwf Hw Hidx HN Hn) as (Hk & Hlo & Hhi).
    pose proof (rank_nonneg index (is_ranges (insertions c))) as Hrn. unfold rk in *.
    split; [done|]. split; [lia|].
    destruct (is_add_shifted_law (deletions c) (index - rank index (is_ranges (insertions c))) Hd Hlo Hhi)
      as (d & -> & Hokd & Hmd). by exists d, (is_shift (deletions c) (index - rank index (is_ranges (insertions c)))).
Qed.

(** The loop over the moves in [erase]. *)
Lemma erase_moves_spec (index : Z) ms :
  0 <= index → (∀ i j, (i, j) ∈ ms → 0 <= j < npos) →
  ∃ ms', remove_if (λ (m : Move) (_ : unit),
      Some (m.2 =? index, if index <? m.2 then (m.1, m.2 ⊖ 1) else m, tt)) ms tt = Some (ms', tt) ∧
    (∀ i j', (i, j') ∈ ms' ↔ ∃ j, (i, j) ∈ ms ∧ after_erase index j j') ∧
    (NoDup (ms.*1) → NoDup (ms'.*1)) ∧ (NoDup (ms.*2) → NoDup (ms'.*2)).
Proof.
  intros Hidx. induction ms as [|[a b] ms IH]; intros Hb; simpl.
  { exists []. split_and!; try done. intros i j'. split; [by intros ?%elem_of_nil|intros (j & Hj & _)].
    by apply elem_of_nil in Hj. }
  destruct IH as (ms' & -> & Hms & Hn1 & Hn2); [intros i j Hij; apply (Hb i); by right|].
  assert (0 <= b < npos) as Hbb by (apply (Hb a); by left). simpl. eexists. split; [done|].
  destruct (Z.eqb_spec b index) as [E|E].
  - split_and!.
    + intros i j'. rewrite Hms. split; [intros (j & ? & ?); exists j; split; [by right|done]|].
      intros (j & [Eq|Hj]%elem_of_cons & Hja); [injection Eq as -> ->; by destruct Hja|by exists j].
    + intros Hn. apply Hn1. by inversion Hn.
    + intros Hn. apply Hn2. by inversion Hn.
  - assert ((if index <? b then (a, b ⊖ 1) else (a, b)) = (a, if b <? index then b else b - 1)) as ->.
    { destruct (Z.ltb_spec index b), (Z.ltb_spec b index); try lia; [by wsimp|done]. }
    split_and!.
    + intros i j'. rewrite elem_of_cons, Hms. split.
      * intros [Eq|(j & ? & ?)]; [injection Eq as -> ->; exists b|exists j]; (split; [|done]); [by left|by right].
      * intros (j & [Eq|Hj]%elem_of_cons & Hja); [|right; by exists j].
        injection Eq as -> ->. left. by destruct Hja as [_ ->].
    + intros Hn. inversion Hn as [|? ? Hna Hnn]; subst. simpl. constructor; [|by apply Hn1].
      intros ([x y] & Ex & Hxy)%list_elem_of_fmap. simpl in Ex. subst x. apply Hms in Hxy as (j & Hj & _).
      apply Hna, list_elem_of_fmap. by exists (a, j).
    + intros Hn. inversion Hn as [|? ? Hna Hnn]; subst. simpl. constructor; [|by apply Hn2].
      intros ([x y] & Ex & Hxy)%list_elem_of_fmap. simpl in Ex. apply Hms in Hxy as (j & Hj & Hne & Ey).
      apply Hna, list_elem_of_fmap. exists (x, j). simpl. split; [|done].
      destruct (Z.ltb_spec b index), (Z.ltb_spec j index); lia.
Qed.

Lemma erase_spec N c index :
  wf c → within N c → moves_ok c → 0 <= index → index + N < npos →
  ∃ c', erase c index = Some c' ∧ wf c' ∧ moves_ok c' ∧
    relocates c c' (after_erase index) ∧ keeps c c' (after_erase index) ∧
    cols_related (λ P, erased P index) c c'.
Proof.
  intros Hwf Hw Hmv Hidx HN. unfold erase.
  destruct (for_each_col_spec (λ col, is_erase_at col index) (λ _, True) (λ P, erased P index) c)
    as (c1 & -> & (_ & _ & Hm1 & Hcl1) & Hc1 & Ed & Ei & Em & Emap & Et); [done|done|by apply Forall_true| |].
  { intros s Hs _. by apply is_erase_at_law. }
  simpl. rewrite Ei. destruct (row_gone N c index Hwf Hw Hidx HN) as (ins & r & -> & Hoki & Hmi & Hcase). simpl.
  destruct (erase_moves_spec index (moves c) Hidx) as (ms' & Hms' & Hms & Hn1 & Hn2).
  { intros i j Hij. destruct (moves_bound N c (i, j) Hmv Hw Hij) as (_ & _ & Hj). simpl in Hj.
    destruct Hmv as (Hmv & _). apply Hmv in Hij as [_ Hij].
    apply has_nonneg in Hij; [lia|by destruct Hwf as (_ & ? & _)]. }
  destruct Hmv as (Hmv & Hf1 & Hf2).
  assert (∀ i j', (i, j') ∈ ms' → has (deletions c) i ∧ has ins j') as Hmv'.
  { intros i j' (j & Hj & Hja)%Hms. apply Hmv in Hj as [Hdi Hij]. split; [done|].
    apply Hmi, erased_after_erase. by exists j. }
  destruct Hwf as (Hd & Hi & Hwm).
  destruct Hcase as [[Hin ->]|(Hn & Hr & d & i0 & Ha & Hokd & Hk & Hmd)].
  - simpl. rewrite Em, Hms'. simpl. eexists. split; [done|].
    match goal with |- wf ?c' ∧ _ => assert (keeps c c' (after_erase index)) as Hkeep end.
    { intros i j'. apply kept_erase_inserted; simpl; by try done. }
    split; [|split; [|split]]; try done.
    + unfold wf. simpl. rewrite Ed. by split_and!.
    + unfold moves_ok. simpl. rewrite Ed. split_and!; auto.
    + by apply relocates_intro; [|exact Hms].
  - rewrite (proj2 (Z.eqb_neq r npos)) by done. simpl. rewrite Ed, Ha. simpl. rewrite Em, Hms'. simpl.
    eexists. split; [done|].
    match goal with |- wf ?c' ∧ _ => assert (keeps c c' (after_erase index)) as Hkeep end.
    { intros i j'. by apply (kept_erase_deleted _ _ _ i0). }
    split; [|split; [|split]]; try done.
    + unfold moves_ok. simpl. split_and!; [|by auto|by auto]. intros i j' Hij. apply Hmv' in Hij as [? ?].
      split; [rewrite Hmd; by right|done].
    + by apply relocates_intro; [|exact Hms].
Qed.
End spec.
