(* ===== verification/ChangeBuilderMove.v ===== *)
(** * Recording moves, modifications, clears and the final result: correctness *)

From stdpp Require Import gmap sorting.
From S2P Require Import Prelude RangeSet IndexSetEdits Ranks IndexSetInterface ChangeBuilder ChangeBuilderSpec.
Import Changes.

(** Row [j] after the row at [from] moved to [to]. *)
Definition after_move (from to j : Z) : Z :=
  if j =? from then to
  else if (to <=? j) && (j <? from) then j + 1
  else if (j <=? to) && (from <? j) then j - 1 else j.

(** A move is an erasure and an insertion. *)
Lemma after_move_erase_insert from to j k :
  0 <= from → 0 <= to → after_erase from j k → after_insert to 1 k = after_move from to j.
Proof.
  intros Hf Ht (Hne & ->). unfold after_insert, after_move. rewrite (proj2 (Z.eqb_neq j from)) by done.
  destruct (Z.ltb_spec j from), (Z.leb_spec to j), (Z.leb_spec j to), (Z.ltb_spec from j); simpl;
    repeat match goal with |- context [?a <? ?b] => destruct (Z.ltb_spec a b) end; lia.
Qed.

Lemma after_move_inj from to j k :
  0 <= from → 0 <= to → 0 <= j → 0 <= k → after_move from to j = after_move from to k → j = k.
Proof.
  unfold after_move. intros ????.
  destruct (Z.eqb_spec j from), (Z.eqb_spec k from),
    (Z.leb_spec to j), (Z.ltb_spec j from), (Z.leb_spec j to), (Z.ltb_spec from j),
    (Z.leb_spec to k), (Z.ltb_spec k from), (Z.leb_spec k to), (Z.ltb_spec from k); simpl; lia.
Qed.

Section spec.
Context {S : Type} `{IndexSetLaws S}.
Implicit Types (c : change_builder S) (s : S).

(** Erasing [from] and inserting at [to]. *)
Lemma erase_insert_spec N s from to :
  is_ok s → below_bound N s → 0 <= from → 0 <= to → to + 1 < npos → N + 1 < npos →
  ∃ s1 s2, is_erase_at s from = Some s1 ∧ is_insert_at s1 to 1 = Some s2 ∧ is_ok s1 ∧ is_ok s2 ∧
    (∀ j, has s1 j ↔ erased (has s) from j) ∧ (∀ j, has s2 j ↔ inserted (has s1) to 1 j).
Proof.
  intros Hs Hb Hf Ht Htn HN. destruct (is_erase_at_law s from Hs Hf) as (s1 & E1 & Hs1 & Hm1).
  destruct (is_insert_at_law s1 to 1 Hs1) as (s2 & E2 & Hs2 & Hm2); [done|lia|done| |].
  { intros j Hj _. apply Hm1 in Hj as [[_ Hj]|[_ Hj]]; specialize (Hb _ Hj); lia. }
  by exists s1, s2.
Qed.

(** The loop over the moves: at most one of them ends at [from]. *)
Lemma move_loop_none from to ms ins u :
  0 <= from → from ∉ ms.*2 → (∀ m, m ∈ ms → 0 <= m.2 ∧ m.2 + 1 < W64) →
  update_each (move_one from to) ms (ins, u) = Some (moved_by (after_move from to) ms, (ins, u)).
Proof.
  intros Hf. induction ms as [|[a b] ms IH]; intros Hn Hb; simpl; [done|].
  apply not_elem_of_cons in Hn as [Hne Hn]. simpl in Hne.
  destruct (Hb (a, b)) as [Hb0 Hb1]; [by left|]. simpl in *.
  rewrite (proj2 (Z.eqb_neq b from)) by congruence. simpl.
  rewrite IH; [|done|intros m Hm; apply Hb; by right]. simpl. do 3 f_equal.
  unfold after_move. rewrite (proj2 (Z.eqb_neq b from)) by congruence.
  destruct (Z.leb_spec to b), (Z.ltb_spec b from), (Z.leb_spec b to), (Z.ltb_spec from b); simpl;
    wsimp; try done; lia.
Qed.

Lemma move_loop_found from to ms ins s1 s2 :
  0 <= from → from ∈ ms.*2 → NoDup (ms.*2) → (∀ m, m ∈ ms → 0 <= m.2 ∧ m.2 + 1 < W64) →
  is_erase_at ins from = Some s1 → is_insert_at s1 to 1 = Some s2 →
  update_each (move_one from to) ms (ins, false) = Some (moved_by (after_move from to) ms, (s2, true)).
Proof.
  intros Hf Hin Hnd Hb E1 E2. induction ms as [|[a b] ms IH]; simpl; [by apply elem_of_nil in Hin|].
  inversion Hnd as [|? ? Hna Hnd']; subst. simpl in *.
  destruct (Hb (a, b)) as [Hb0 Hb1]; [by left|]. simpl in *.
  destruct (Z.eqb_spec b from) as [->|E]; simpl.
  - rewrite E1. simpl. rewrite E2. simpl. rewrite move_loop_none; [|done|done|intros m Hm; apply Hb; by right].
    simpl. unfold after_move at 2. by rewrite Z.eqb_refl.
  - apply elem_of_cons in Hin as [|Hin]; [congruence|].
    rewrite IH; [|done|done|intros m Hm; apply Hb; by right]. simpl. do 3 f_equal.
    unfold after_move. rewrite (proj2 (Z.eqb_neq b from)) by congruence.
    destruct (Z.leb_spec to b), (Z.ltb_spec b from), (Z.leb_spec b to), (Z.ltb_spec from b); simpl;
      wsimp; try done; lia.
Qed.

(** A row that is kept by a move is kept by its erasure and insertion. *)
Lemma kept_move c c1 c' from to :
  0 <= from → 0 <= to → wf c → wf c1 → is_ok (insertions c') → deletions c' = deletions c1 →
  (∀ j, has (insertions c') j ↔ inserted (has (insertions c1)) to 1 j) →
  (∀ i k, kept c1 i k ↔ ∃ j, kept c i j ∧ after_erase from j k) →
  ∀ i j', kept c' i j' ↔ ∃ j, kept c i j ∧ j ≠ from ∧ j' = after_move from to j.
Proof.
  intros Hf Ht Hwf Hwf1 Hok Ed Hm Hk i j'.
  rewrite (kept_insert c1 c' to 1) by (done || lia). setoid_rewrite Hk. split.
  - intros (k & (j & Hj & Hjk) & ->). exists j. split_and!; [done|by destruct Hjk|].
    by apply after_move_erase_insert.
  - intros (j & Hj & Hne & ->). set (k := if j <? from then j else j - 1).
    assert (after_erase from j k) as Hjk by done.
    exists k. split; [by exists j|]. symmetry. by apply after_move_erase_insert.
Qed.

(** ** [move] *)

Lemma move_col_spec N s from to :
  is_ok s → below_bound N s → 0 <= from → 0 <= to → to + 1 < npos → N + 1 < npos →
  yields is_ok (move_col from to s) (λ j', ∃ j, has s j ∧ j' = after_move from to j).
Proof.
  intros Hs Hb Hf Ht Htn HN. unfold move_col. rewrite is_contains_law by done. simpl.
  destruct (is_erase_at_law s from Hs Hf) as (s1 & -> & Hs1 & Hm1). simpl.
  assert (∀ j, has s1 j → to <= j → j + 1 < npos) as Hfit.
  { intros j Hj _. apply Hm1 in Hj as [[_ Hj]|[_ Hj]]; specialize (Hb _ Hj); lia. }
  assert (∀ j', shifted (has s1) to 1 j' ↔ ∃ j, has s j ∧ j ≠ from ∧ j' = after_move from to j) as Hsh.
  { intros j'. rewrite shifted_after_insert. setoid_rewrite Hm1. setoid_rewrite erased_after_erase. split.
    - intros (k & (j & Hj & Hjk) & ->). exists j. split_and!; [done|by destruct Hjk|].
      by apply after_move_erase_insert.
    - intros (j & Hj & Hne & ->). set (k := if j <? from then j else j - 1).
      assert (after_erase from j k) as Hjk by done.
      exists k. split; [by exists j|]. symmetry. by apply after_move_erase_insert. }
  destruct (memb from (is_ranges s)) eqn:Eb.
  - apply memb_mem in Eb. destruct (is_insert_at_law s1 to 1 Hs1) as (s2 & -> & Hs2 & Hm2); [done|lia|done|done|].
    exists s2. split; [done|]. split; [done|]. intros j'. rewrite Hm2.
    assert (inserted (has s1) to 1 j' ↔ j' = to ∨ shifted (has s1) to 1 j') as ->
      by (unfold inserted, shifted; intuition lia).
    rewrite Hsh. split.
    + intros [->|(j & Hj & _ & ->)]; [exists from|by exists j]. split; [done|].
      unfold after_move. by rewrite Z.eqb_refl.
    + intros (j & Hj & ->). destruct (Z.eq_dec j from) as [->|Hne]; [left|right; by exists j].
      unfold after_move. by rewrite Z.eqb_refl.
  - destruct (is_shift_for_law s1 to 1 Hs1) as (s2 & -> & Hs2 & Hm2); [done|lia|done|done|].
    exists s2. split; [done|]. split; [done|]. intros j'. rewrite Hm2, Hsh. split.
    + intros (j & Hj & _ & ->). by exists j.
    + intros (j & Hj & ->). exists j. split_and!; try done. intros ->. apply memb_mem in Hj. congruence.
Qed.

(** The insertions move with the rows, and hold the destination. *)
Lemma insertions_moved s s1 s2 from to j :
  0 <= from → 0 <= to → (∀ j, has s1 j ↔ erased (has s) from j) → (∀ j, has s2 j ↔ inserted (has s1) to 1 j) →
  has s j → has s2 (after_move from to j).
Proof.
  intros Hf Ht Hm1 Hm2 Hj. apply Hm2. destruct (Z.eq_dec j from) as [->|Hne].
  - unfold after_move. rewrite Z.eqb_refl. right. left. lia.
  - assert (after_erase from j (if j <? from then j else j - 1)) as Hja by done.
    rewrite <- (after_move_erase_insert from to j _ Hf Ht Hja).
    assert (shifted (has s1) to 1 (after_insert to 1 (if j <? from then j else j - 1))) as Hsh.
    { apply shifted_after_insert. eexists. split; [|done]. apply Hm1, erased_after_erase. by exists j. }
    destruct Hsh; [by left|by right; right].
Qed.

Lemma moved_by_NoDup from to ms :
  0 <= from → 0 <= to → (∀ m : Move, m ∈ ms → 0 <= m.2 ∧ m.2 + 1 < W64) → NoDup (ms.*2) →
  NoDup (after_move from to <$> ms.*2).
Proof.
  intros Hf Ht Hb. apply NoDup_fmap_2_strong. intros x y Hx Hy Exy.
  apply list_elem_of_fmap in Hx as (mx & -> & Hx). apply list_elem_of_fmap in Hy as (my & -> & Hy).
  destruct (Hb mx Hx), (Hb my Hy). by apply (after_move_inj from to).
Qed.

Lemma moves_fit N c : wf c → within N c → moves_ok c → N + 1 < npos →
  ∀ m, m ∈ moves c → 0 <= m.2 ∧ m.2 + 1 < W64.
Proof.
  intros Hwf Hw Hmv HN [a b] Hab. destruct (moves_bound N c (a, b) Hmv Hw Hab) as (_ & _ & Hb).
  destruct Hmv as (Hmv & _). apply Hmv in Hab as [_ Hab]. destruct Hwf as (_ & Hi & _).
  apply has_nonneg in Hab; [|done]. simpl in *. lia.
Qed.

(** An old row is one new row at most, and the other way around. *)
Lemma kept_inj c i i' j : wf c → kept c i j → kept c i' j → i = i'.
Proof.
  intros (Hd & _) (? & _ & _ & ? & E) (? & _ & _ & ? & E'). unfold rk, has in *.
  pose proof (unshifted_lt _ (ok_sorted _ Hd) i i') as L1. pose proof (unshifted_lt _ (ok_sorted _ Hd) i' i) as L2.
  destruct (Z.lt_trichotomy i i') as [C|[C|C]]; [|done|].
  - apply L1 in C; lia || done.
  - apply L2 in C; lia || done.
Qed.

(** Branch: a recorded move ended at [from], and now ends at [to]. *)
Lemma move_record_again N c from to :
  wf c → within N c → moves_ok c → 0 <= from → 0 <= to → to + 1 < npos → N + 1 < npos →
  from ∈ (moves c).*2 →
  ∃ c', move_record c from to = Some c' ∧ wf c' ∧ moves_ok c' ∧
    relocates c c' (λ j j', j' = after_move from to j) ∧
    keeps c c' (λ j j', j ≠ from ∧ j' = after_move from to j) ∧
    modifications c' = modifications c ∧ columns c' = columns c ∧ track_columns c' = track_columns c.
Proof.
  intros Hwf Hw Hmv Hf Ht Htn HN Hin. pose proof Hwf as (Hd & Hi & Hm & Hc). pose proof Hw as (HN0 & _ & Hbi & _).
  destruct (erase_insert_spec N (insertions c) from to) as (s1 & s2 & E1 & E2 & Hs1 & Hs2 & Hm1 & Hm2); [done..|].
  pose proof Hmv as (Hmv' & Hn1 & Hn2).
  pose proof (moves_fit N c Hwf Hw Hmv HN) as Hb.
  unfold move_record. rewrite (move_loop_found from to (moves c) _ s1 s2) by done. simpl.
  eexists. split; [done|].
  assert (has (insertions c) from) as Hfrom.
  { apply list_elem_of_fmap in Hin as ([a b] & -> & Hab). by apply Hmv' in Hab as [_ ?]. }
  set (c1 := with_insertions c s1).
  assert (wf c1) as Hwf1 by by split_and!.
  assert (∀ i k, kept c1 i k ↔ ∃ j, kept c i j ∧ after_erase from j k) as Hk1.
  { by apply kept_erase_inserted. }
  pose proof (λ c', kept_move c c1 c' from to Hf Ht Hwf Hwf1) as Hkm.
  split; [|split; [|split; [|split]]]; try (by split_and!); try (intros ? ?; by apply Hkm).
  - unfold moves_ok. simpl. rewrite moved_by_fst, moved_by_snd. split_and!; [|done|].
    + intros i j' (j & Hj & ->)%elem_of_moved_by. apply Hmv' in Hj as [Hdi Hij]. split; [done|].
      by apply (insertions_moved (insertions c) s1 s2).
    + by apply moved_by_NoDup.
  - intros i j'. unfold follows. simpl. rewrite elem_of_moved_by.
    rewrite (kept_move c c1 _ from to Hf Ht Hwf Hwf1); [|done|done|done|done]. split.
    + intros [(j & Hj & _ & ->)|(j & Hj & ->)]; exists j; tauto.
    + intros (j & [Hj|Hj] & ->); [left|right; by exists j]. exists j. split_and!; try done.
      intros ->. by destruct Hj as (_ & _ & ? & _).
Qed.

(** Branch: no recorded move ends at [from]. *)
Lemma move_record_new N c from to :
  wf c → within N c → moves_ok c → 0 <= from → 0 <= to → from + N < npos → to + 1 < npos → N + 1 < npos →
  from ∉ (moves c).*2 →
  ∃ c', move_record c from to = Some c' ∧ wf c' ∧ moves_ok c' ∧
    relocates c c' (λ j j', j' = after_move from to j) ∧
    keeps c c' (λ j j', j ≠ from ∧ j' = after_move from to j) ∧
    modifications c' = modifications c ∧ columns c' = columns c ∧ track_columns c' = track_columns c.
Proof.
  intros Hwf Hw Hmv Hf Ht HfN Htn HN Hin. pose proof Hwf as (Hd & Hi & Hm & Hc). pose proof Hw as (HN0 & _ & Hbi & _).
  pose proof Hmv as (Hmv' & Hn1 & Hn2).
  pose proof (moves_fit N c Hwf Hw Hmv HN) as Hb.
  destruct (row_gone N c from Hwf Hw Hf) as (ins & r & E1 & Hoki & Hmi & Hcase); [lia|].
  destruct (is_insert_at_law ins to 1 Hoki) as (s2 & E2 & Hs2 & Hm2); [done|lia|done| |].
  { intros j Hj _. apply Hmi in Hj as [[_ Hj]|[_ Hj]]; specialize (Hbi _ Hj); lia. }
  unfold move_record. rewrite move_loop_none by done. simpl. rewrite E1. simpl. rewrite E2. simpl.
  assert (∀ i j', (i, j') ∈ moved_by (after_move from to) (moves c) → has (deletions c) i ∧ has s2 j') as Hmv2.
  { intros i j' (j & Hj & ->)%elem_of_moved_by. apply Hmv' in Hj as [Hdi Hij]. split; [done|].
    by apply (insertions_moved (insertions c) ins s2). }
  destruct Hcase as [[Hfrom ->]|(Hn & Hr & d & i0 & Ha & Hokd & Hk & Hmd)].
  - simpl. eexists. split; [done|]. set (c1 := with_insertions c ins).
    assert (wf c1) as Hwf1 by by split_and!.
    assert (∀ i k, kept c1 i k ↔ ∃ j, kept c i j ∧ after_erase from j k) as Hk1 by by apply kept_erase_inserted.
    pose proof (λ c', kept_move c c1 c' from to Hf Ht Hwf Hwf1) as Hkm.
    split; [|split; [|split; [|split]]]; try (by split_and!); try (intros ? ?; by apply Hkm).
    + unfold moves_ok. simpl. rewrite moved_by_fst, moved_by_snd. split_and!; [done|done|by apply moved_by_NoDup].
    + intros i j'. unfold follows. simpl. rewrite elem_of_moved_by.
      rewrite (kept_move c c1 _ from to Hf Ht Hwf Hwf1); [|done|done|done|done]. split.
      * intros [(j & Hj & _ & ->)|(j & Hj & ->)]; exists j; tauto.
      * intros (j & [Hj|Hj] & ->); [left|right; by exists j]. exists j. split_and!; try done.
        intros ->. by destruct Hj as (_ & _ & ? & _).
  - rewrite (proj2 (Z.eqb_neq r npos)) by done. simpl. rewrite Ha. simpl. eexists. split; [done|].
    set (c1 := with_insertions (with_deletions c d) ins).
    assert (wf c1) as Hwf1 by by split_and!.
    assert (∀ i k, kept c1 i k ↔ ∃ j, kept c i j ∧ after_erase from j k) as Hk1.
    { by apply (kept_erase_deleted c c1 from i0). }
    assert (after_move from to from = to) as Eto by (unfold after_move; by rewrite Z.eqb_refl).
    pose proof (λ c', kept_move c c1 c' from to Hf Ht Hwf Hwf1) as Hkm.
    split; [|split; [|split; [|split]]]; try (by split_and!); try (intros ? ?; by apply Hkm).
    + unfold moves_ok. simpl. rewrite !fmap_app, moved_by_fst, moved_by_snd. split_and!.
      * intros i j' [Hij|Hij]%elem_of_app.
        -- apply Hmv2 in Hij as [? ?]. split; [rewrite Hmd; by right|done].
        -- apply list_elem_of_singleton in Hij. injection Hij as -> ->. split; [rewrite Hmd; by left|].
           apply Hm2. right. left. lia.
      * apply NoDup_app. split_and!; [done| |apply NoDup_singleton]. intros x Hx Hx'.
        apply list_elem_of_singleton in Hx'. simpl in Hx'. subst x.
        apply list_elem_of_fmap in Hx as ([a b] & -> & Hab). apply Hmv' in Hab as [Hab _].
        by destruct Hk as (_ & _ & _ & ? & _).
      * apply NoDup_app. split_and!; [by apply moved_by_NoDup| |apply NoDup_singleton]. intros x Hx Hx'.
        apply list_elem_of_singleton in Hx'. simpl in Hx'. subst x.
        apply list_elem_of_fmap in Hx as (b & Hbt & Hbm). pose proof Hbm as Hbm'.
        apply list_elem_of_fmap in Hbm as (m & -> & Hm'). destruct (Hb m Hm').
        rewrite <- Eto in Hbt at 1. apply after_move_inj in Hbt; [|done..]. congruence.
    + intros i j'. unfold follows. simpl. rewrite elem_of_app, elem_of_moved_by, list_elem_of_singleton.
      rewrite (kept_move c c1 _ from to Hf Ht Hwf Hwf1); [|done|done|done|done]. split.
      * intros [(j & Hj & _ & ->)|[(j & Hj & ->)|E]]; [exists j; tauto|exists j; tauto|].
        injection E as -> ->. exists from. split; [by left|done].
      * intros (j & [Hj|Hj] & ->); [|right; left; by exists j].
        destruct (Z.eq_dec j from) as [->|Hne]; [|left; by exists j]. right. right.
        rewrite (kept_inj c i i0 from Hwf Hj Hk), Eto. done.
Qed.

(** A row that is recorded as moved is moved; the modified rows move along. *)
Lemma move_spec N c from to :
  wf c → within N c → moves_ok c → 0 <= from → 0 <= to → from ≠ to →
  from + N < npos → to + 1 < npos → N + 1 < npos →
  ∃ c', move c from to = Some c' ∧ wf c' ∧ moves_ok c' ∧
    relocates c c' (λ j j', j' = after_move from to j) ∧
    keeps c c' (λ j j', j ≠ from ∧ j' = after_move from to j) ∧
    cols_related (λ P j', ∃ j, P j ∧ j' = after_move from to j) c c'.
Proof.
  intros Hwf Hw Hmv Hf Ht Hne HfN Htn HN. pose proof Hw as (HN0 & _ & _ & Hbm & Hbc).
  unfold move. rewrite (proj2 (Z.eqb_neq from to)) by done. simpl.
  assert (∃ c1, move_record c from to = Some c1 ∧ wf c1 ∧ moves_ok c1 ∧
    relocates c c1 (λ j j', j' = after_move from to j) ∧
    keeps c c1 (λ j j', j ≠ from ∧ j' = after_move from to j) ∧
    modifications c1 = modifications c ∧ columns c1 = columns c ∧ track_columns c1 = track_columns c)
    as (c1 & -> & Hwf1 & Hmv1 & Hrel & Hkp & Em & Ec & Et).
  { destruct (decide (from ∈ (moves c).*2)); [by apply (move_record_again N)|by apply (move_record_new N)]. }
  simpl. destruct (for_each_col_spec (move_col from to) (below_bound N) (λ P j', ∃ j, P j ∧ j' = after_move from to j) c1)
    as (c2 & -> & Hwf2 & Hc2 & Ed & Ei & Em2 & _ & Et2); [done|by rewrite Em|by rewrite Ec| |].
  { intros s Hs Hb. by apply (move_col_spec N). }
  exists c2. split; [done|]. split; [done|]. split; [|split; [|split]].
  - unfold moves_ok. by rewrite Ed, Ei, Em2.
  - intros i j'. rewrite <- (Hrel i j'). unfold follows, kept. by rewrite Ed, Ei, Em2.
  - intros i j'. rewrite <- (Hkp i j'). unfold kept. by rewrite Ed, Ei.
  - unfold cols_related in *. by rewrite Em, Ec, Et in Hc2.
Qed.

(** ** [finalize] *)

(** The modified rows are reported by their old and by their new positions: the
    old ones are those that are kept at a modified new position. *)
Lemma finalize_spec N c :
  wf c → within N c → N + N < npos →
  ∃ r, finalize c = Some r ∧ cs_deletions r = deletions c ∧ cs_insertions r = insertions c ∧
    cs_moves r = moves c ∧ cs_columns r = columns c ∧
    (∀ j, has (cs_modifications_new r) j ↔ has (modifications c) j ∧ ¬ has (insertions c) j) ∧
    (∀ i, has (cs_modifications r) i ↔ ∃ j, has (modifications c) j ∧ kept c i j).
Proof.
  intros (Hd & Hi & Hm & _) (HN & Hbd & Hbi & Hbm & _) HNN. unfold finalize.
  pose proof (size_bound N _ Hd HN Hbd) as Hsz.
  destruct (is_erase_at_set_law _ _ Hm Hi) as (s1 & -> & Hs1 & Hm1). simpl.
  assert (∀ u, has s1 u → 0 <= u < N) as Hu.
  { intros u Hu. split; [by apply (has_nonneg s1)|]. apply Hm1 in Hu as (e & He & _ & ->).
    specialize (Hbm e He). pose proof (rank_nonneg e (is_ranges (insertions c))). unfold rk. lia. }
  destruct (is_shift_for_set_law s1 (deletions c) Hs1 Hd) as (s2 & -> & Hs2 & Hm2).
  { intros e He. specialize (Hu e He). lia. }
  simpl. destruct (is_remove_set_law _ _ Hm Hi) as (s3 & -> & Hs3 & Hm3). simpl.
  eexists. split; [done|]. simpl. split_and!; try done.
  intros i. rewrite Hm2. split.
  - intros (u & Hus & ->). pose proof (Hu u Hus). apply Hm1 in Hus as (e & He & Hne & Eu). exists e.
    split; [done|]. destruct (is_shift_law (deletions c) u Hd) as (L1 & L2 & L3); [lia|lia|].
    unfold kept. split_and!; try done; [lia|by apply (has_nonneg (modifications c))|lia].
  - intros (j & Hj & (? & ? & Hnj & Hni & E)). pose proof (Hm1 (j - rk (insertions c) j)) as [_ Hu1].
    assert (has s1 (j - rk (insertions c) j)) as Hus by (apply Hu1; by exists j).
    pose proof (Hu _ Hus). exists (j - rk (insertions c) j). split; [done|].
    destruct (is_shift_law (deletions c) (j - rk (insertions c) j) Hd) as (L1 & L2 & L3); [lia|lia|].
    unfold rk, has in *.
    pose proof (unshifted_lt _ (ok_sorted _ Hd) i (is_shift (deletions c) (j - rank j (is_ranges (insertions c))))) as G1.
    pose proof (unshifted_lt _ (ok_sorted _ Hd) (is_shift (deletions c) (j - rank j (is_ranges (insertions c)))) i) as G2.
    destruct (Z.lt_trichotomy i (is_shift (deletions c) (j - rank j (is_ranges (insertions c))))) as [C|[C|C]]; [|done|].
    + apply G1 in C; lia || done.
    + apply G2 in C; lia || done.
Qed.

(** ** [clear] *)

Lemma fold_plus l a : foldl (λ n (r : range), n ⊕ (r.2 ⊖ r.1)) (wrap a) l = wrap (a + total l).
Proof.
  revert a. induction l as [|r l IH]; intros a; simpl; [by rewrite Z.add_0_r|].
  unfold wadd at 2, wsub. rewrite wrap_add_r, wrap_add_l, IH. f_equal. lia.
Qed.

Lemma fold_minus l a : foldl (λ n (r : range), n ⊖ (r.2 ⊖ r.1)) (wrap a) l = wrap (a - total l).
Proof.
  revert a. induction l as [|r l IH]; intros a; simpl; [by rewrite Z.sub_0_r|].
  unfold wsub. rewrite wrap_sub_r, wrap_sub_l, IH. f_equal. lia.
Qed.

(** A cleared collection of [n] rows: all rows of the old collection, whose
    number follows from the change set, are deleted, and nothing is kept. *)
Lemma clear_changes_spec c n :
  wf c → 0 <= n < npos → let old := n + size (deletions c) - size (insertions c) in 0 <= old < W64 →
  ∃ c', clear c n = Some c' ∧ wf c' ∧ moves_ok c' ∧
    (∀ i, has (deletions c') i ↔ 0 <= i < old) ∧ (∀ j, ¬ has (insertions c') j) ∧
    (∀ j, ¬ has (modifications c') j) ∧ (∀ i j, i < old → ¬ follows c' i j) ∧ columns c' = [].
Proof.
  intros (Hd & Hi & _) Hn old Hold. unfold clear. rewrite (proj2 (Z.eqb_neq n npos)) by lia.
  pose proof (fold_plus (is_ranges (deletions c)) n) as F1. rewrite (wrap_small n) in F1 by lia.
  cbv zeta. rewrite F1, fold_minus, wrap_small by done.
  destruct (is_set_law old Hold) as (s & Es & Hs & Hm). unfold old, size in Es. rewrite Es. simpl.
  destruct is_new_ok as [Hok Enew].
  assert (∀ j, ¬ has (is_new (S := S)) j) as Hnew by (intros j; unfold has; rewrite Enew; intros M; by apply mem_nil in M).
  eexists. split; [done|]. split; [by split_and!|]. split; [|split; [|split; [|split; [|split]]]]; simpl; try done.
  - split_and!; try constructor. all: intros; by apply elem_of_nil in H1.
  - intros i j Hij [(Hi0 & _ & _ & Hni & _)|Hf]; [|by apply elem_of_nil in Hf].
    apply Hni, Hm. by split.
Qed.
End spec.
