(* ===== verification/ChangeBuilderTheorems.v ===== *)
(** * Merging change sets: correctness

    The merge of two change sets without moves maps the rows of the first
    collection to where the second change set takes what the first one kept. *)

From stdpp Require Import gmap sorting.
From S2P Require Import Prelude RangeSet RangeVector IndexSetOps IndexSetSpec IndexSetEdits IndexSetTheorems Ranks IndexSetShiftedBy IndexSetInterface ChangeBuilder ChangeBuilderSpec ChangeBuilderMove.

Import Changes.

(** ** Positions outside of a set *)

(** The number of positions outside of the set below [j]. *)
Definition outside (l : list range) (j : Z) : Z := j - rank j l.

Lemma outside_step lo l j :
  ranges_ok lo l → outside l (j + 1) = outside l j + (if memb j l then 0 else 1).
Proof. intros Hl. unfold outside. rewrite (rank_succ lo) by done. destruct (memb j l); lia. Qed.

(** Every number is the number of outside positions below some outside position. *)
Lemma outside_onto l u :
  ranges_ok 0 l → 0 <= u → ∃ p, 0 <= p ∧ ¬ mem p l ∧ outside l p = u.
Proof.
  intros Hl. revert u. apply natlike_ind.
  - assert (∀ n, 0 <= n → outside l n = 0 ∨ ∃ p, 0 <= p ∧ ¬ mem p l ∧ outside l p = 0) as H.
    { apply natlike_ind; [left; unfold outside; by rewrite (rank_below 0)|].
      intros n Hn [E|?]; [|by right]. destruct (memb n l) eqn:Eb.
      - left. unfold Z.succ. rewrite (outside_step 0), Eb by done. lia.
      - right. exists n. split_and!; [done| |done]. rewrite <- memb_mem. by rewrite Eb. }
    destruct (H (next_lo 0 l)) as [E|E]; [by apply ranges_ok_next_lo| |done].
    exists (next_lo 0 l). split_and!; [by apply ranges_ok_next_lo| |done].
    intros M. apply (mem_lt 0) in M; [lia|done].
  - intros u Hu (p & Hp & Hnp & Ep).
    assert (∀ n, 0 <= n → outside l (p + 1 + n) = Z.succ u ∨ ∃ q, 0 <= q ∧ ¬ mem q l ∧ outside l q = Z.succ u) as H.
    { apply natlike_ind.
      - left. rewrite Z.add_0_r, (outside_step 0), memb_false by done. lia.
      - intros n Hn [E|?]; [|by right]. destruct (memb (p + 1 + n) l) eqn:Eb.
        + left. replace (p + 1 + Z.succ n) with (p + 1 + n + 1) by lia. rewrite (outside_step 0), Eb by done. lia.
        + right. exists (p + 1 + n). split_and!; [lia| |done]. rewrite <- memb_mem. by rewrite Eb. }
    pose proof (ranges_ok_next_lo 0 l Hl).
    destruct (H (next_lo 0 l)) as [E|E]; [done| |done].
    exists (p + 1 + next_lo 0 l). split_and!; [lia| |done].
    intros M. apply (mem_lt 0) in M; [lia|done].
Qed.

(** A relation that is total both ways between the positions outside of two sets,
    and that preserves the order, relates the positions with equally many
    outside positions below. *)
Lemma outside_unique l m (R : Z → Z → Prop) :
  ranges_ok 0 l → ranges_ok 0 m →
  (∀ i k, R i k → 0 <= i ∧ 0 <= k ∧ ¬ mem i l ∧ ¬ mem k m) →
  (∀ i, 0 <= i → ¬ mem i l → ∃ k, R i k) →
  (∀ k, 0 <= k → ¬ mem k m → ∃ i, R i k) →
  (∀ i k i' k', R i k → R i' k' → i < i' ↔ k < k') →
  ∀ i k, R i k ↔ 0 <= i ∧ 0 <= k ∧ ¬ mem i l ∧ ¬ mem k m ∧ outside l i = outside m k.
Proof.
  intros Hl Hm Hin Htot Hsur Hord.
  assert (∀ i k, R i k → outside l i = outside m k) as Heq.
  { assert (∀ n, 0 <= n → ∀ i k, R i k → outside l i < n → outside l i = outside m k) as H.
    { apply (natlike_ind (λ n, ∀ i k, R i k → outside l i < n → outside l i = outside m k)).
      - intros i k HR Hlt. destruct (Hin i k HR) as (? & _). pose proof (unshifted_nonneg l Hl i).
        unfold outside in *. lia.
      - intros n Hn IH i k HR Hlt. destruct (Hin i k HR) as (Hi & Hk & Ni & Nk).
        destruct (Z.lt_trichotomy (outside m k) (outside l i)) as [C|[C|C]]; [|done|].
        + destruct (outside_onto l (outside m k) Hl) as (i' & Hi' & Ni' & E').
          { unfold outside. by apply unshifted_nonneg. }
          destruct (Htot i' Hi' Ni') as (k' & HR'). pose proof (IH i' k' HR').
          pose proof (unshifted_lt l Hl i' i Hi' Hi Ni' Ni). unfold outside in *.
          pose proof (Hord _ _ _ _ HR' HR) as Ho. destruct (Hin _ _ HR') as (_ & Hk' & _ & Nk').
          pose proof (unshifted_lt m Hm k' k Hk' Hk Nk' Nk). lia.
        + destruct (outside_onto m (outside l i) Hm) as (k' & Hk' & Nk' & E').
          { unfold outside. by apply unshifted_nonneg. }
          destruct (Hsur k' Hk' Nk') as (i' & HR'). destruct (Hin _ _ HR') as (Hi' & _ & Ni' & _).
          pose proof (IH i' k' HR'). pose proof (Hord _ _ _ _ HR' HR) as Ho.
          pose proof (unshifted_lt m Hm k' k Hk' Hk Nk' Nk).
          pose proof (unshifted_lt l Hl i' i Hi' Hi Ni' Ni). unfold outside in *. lia. }
    intros i k HR. apply (H (Z.max 0 (outside l i + 1))); [lia|done|lia]. }
  intros i k. split.
  - intros HR. destruct (Hin i k HR) as (? & ? & ? & ?). by split_and!; [..|apply Heq].
  - intros (Hi & Hk & Ni & Nk & E). destruct (Htot i Hi Ni) as (k' & HR).
    destruct (Hin _ _ HR) as (_ & Hk' & _ & Nk'). pose proof (Heq i k' HR) as E'.
    replace k with k'; [done|]. unfold outside in *.
    pose proof (unshifted_lt m Hm k k' Hk Hk' Nk Nk'). pose proof (unshifted_lt m Hm k' k Hk' Hk Nk' Nk). lia.
Qed.

Section merge.
Context {S : Type} `{IndexSetLaws S}.
Implicit Types (c o : change_builder S) (s : S).

(** The position that [shift] gives is the only one with its count below. *)
Lemma shift_unique s u p :
  is_ok s → 0 <= u → u + size s < W64 → 0 <= p → ¬ has s p → p = is_shift s u ↔ p - rk s p = u.
Proof.
  intros Hs Hu Hb Hp Hn. destruct (is_shift_law s u Hs Hu Hb) as (L1 & L2 & L3). split; [by intros ->|].
  intros E. unfold rk, has in *. set (q := is_shift s u) in *.
  pose proof (unshifted_lt _ (ok_sorted _ Hs) p q Hp ltac:(lia) Hn L2).
  pose proof (unshifted_lt _ (ok_sorted _ Hs) q p ltac:(lia) Hp L2 Hn). lia.
Qed.

Lemma kept_order c i j i' j' : wf c → kept c i j → kept c i' j' → i < i' ↔ j < j'.
Proof.
  intros (Hd & Hi & _) (? & ? & ? & ? & E) (? & ? & ? & ? & E'). unfold rk, has in *.
  pose proof (unshifted_lt _ (ok_sorted _ Hd) i i') as L1. pose proof (unshifted_lt _ (ok_sorted _ Hi) j j') as L2.
  rewrite L1, L2 by done. lia.
Qed.

(** The bounded form of [kept]: the new row is where [shift] puts the old one. *)
Lemma kept_iff_shift N c i j :
  wf c → within N c → N + N < npos → 0 <= i < N →
  kept c i j ↔ ¬ has (deletions c) i ∧ j = is_shift (insertions c) (i - rk (deletions c) i).
Proof.
  intros (Hd & Hi & _) (HN & Hbd & Hbi & _) HNN Hir.
  pose proof (size_bound N _ Hi HN Hbi) as Hsz.
  pose proof (unshifted_nonneg _ (ok_sorted _ Hd) i) as Hu. pose proof (rank_nonneg i (is_ranges (deletions c))) as Hr.
  fold (rk (deletions c) i) in *.
  destruct (is_shift_law (insertions c) (i - rk (deletions c) i) Hi) as (L1 & L2 & L3); [lia|lia|].
  unfold kept. split.
  - intros (_ & Hj & Nj & Ni & E). split; [done|]. apply shift_unique; done || lia.
  - intros (Ni & ->). split_and!; done || lia.
Qed.

(** The other way around. *)
Lemma kept_iff_unshift N c i j :
  wf c → within N c → N + N < npos → 0 <= j < N →
  kept c i j ↔ ¬ has (insertions c) j ∧ i = is_shift (deletions c) (j - rk (insertions c) j).
Proof.
  intros (Hd & Hi & _) (HN & Hbd & Hbi & _) HNN Hir.
  pose proof (size_bound N _ Hd HN Hbd) as Hsz.
  pose proof (unshifted_nonneg _ (ok_sorted _ Hi) j) as Hu. pose proof (rank_nonneg j (is_ranges (insertions c))) as Hr.
  fold (rk (insertions c) j) in *.
  destruct (is_shift_law (deletions c) (j - rk (insertions c) j) Hd) as (L1 & L2 & L3); [lia|lia|].
  unfold kept. split.
  - intros (Hi0 & Hj & Nj & Ni & E). split; [done|]. apply shift_unique; done || lia.
  - intros (Ni & ->). split_and!; done || lia.
Qed.

Lemma kept_total c i : wf c → 0 <= i → ¬ has (deletions c) i → ∃ j, kept c i j.
Proof.
  intros (Hd & Hi & _) Hi0 Ni. destruct (outside_onto (is_ranges (insertions c)) (i - rk (deletions c) i)) as (j & Hj & Nj & E).
  - by apply ok_sorted.
  - unfold rk. apply unshifted_nonneg; [by apply ok_sorted|done].
  - exists j. by split_and!.
Qed.

Lemma kept_onto c j : wf c → 0 <= j → ¬ has (insertions c) j → ∃ i, kept c i j.
Proof.
  intros (Hd & Hi & _) Hj0 Nj. destruct (outside_onto (is_ranges (deletions c)) (j - rk (insertions c) j)) as (i & Hi0 & Ni & E).
  - by apply ok_sorted.
  - unfold rk. apply unshifted_nonneg; [by apply ok_sorted|done].
  - exists i. by split_and!.
Qed.

(** What the deletions and insertions of the merged change set must be for it
    to be the composition. *)
Lemma kept_compose c o c' :
  wf c → wf o → wf c' →
  (∀ i, has (deletions c') i ↔ has (deletions c) i ∨ ∃ j, has (deletions o) j ∧ kept c i j) →
  (∀ k, has (insertions c') k ↔ has (insertions o) k ∨ ∃ j, has (insertions c) j ∧ kept o j k) →
  ∀ i k, kept c' i k ↔ ∃ j, kept c i j ∧ kept o j k.
Proof.
  intros Hc Ho Hc' Hd Hi i k. pose proof Hc' as (Hd' & Hi' & _).
  rewrite (outside_unique (is_ranges (deletions c')) (is_ranges (insertions c'))
             (λ i k, ∃ j, kept c i j ∧ kept o j k)); [|by apply ok_sorted..| | | |].
  - unfold kept, rk, has, outside. split; intros (?&?&?&?&?); by split_and!.
  - clear i k. intros i k (j & K1 & K2). pose proof K1 as (? & ? & ? & ? & _). pose proof K2 as (? & ? & ? & ? & _).
    split_and!; [done|done| |].
    + intros M. apply (Hd i) in M as [M|(j' & Hj' & K)]; [done|].
      assert (j = j') as ->; [|done]. pose proof (kept_order c i j i j' Hc K1 K). pose proof (kept_order c i j' i j Hc K K1). lia.
    + intros M. apply (Hi k) in M as [M|(j' & Hj' & K)]; [done|].
      assert (j = j') as ->; [|done]. by apply (kept_inj o j j' k).
  - clear i k. intros i Hi0 Ni. assert (¬ has (deletions c') i) as Ni' by done. rewrite Hd in Ni'.
    destruct (kept_total c i Hc Hi0) as (j & Hj); [tauto|]. pose proof Hj as (_ & Hj0 & _).
    destruct (kept_total o j Ho Hj0) as (k & Hk); [|by exists k, j]. intros M. apply Ni'. right. by exists j.
  - clear i k. intros k Hk0 Nk. assert (¬ has (insertions c') k) as Nk' by done. rewrite Hi in Nk'.
    destruct (kept_onto o k Ho Hk0) as (j & Hj); [tauto|]. pose proof Hj as (Hj0 & _).
    destruct (kept_onto c j Hc Hj0) as (i & Hij); [|by exists i, j]. intros M. apply Nk'. right. by exists j.
  - clear i k. intros i k i' k' (j & K1 & K2) (j' & K1' & K2').
    by rewrite (kept_order c i j i' j' Hc K1 K1'), (kept_order o j k j' k' Ho K2 K2').
Qed.

(** The sets that [merge_sets] computes are those. *)
Lemma merge_sets_spec N c o :
  wf c → wf o → within N c → within N o → N + N < npos → is_roomy (deletions c) (deletions o) →
  ∃ c', merge_sets c o = Some c' ∧ wf c' ∧
    modifications c' = modifications c ∧ columns c' = columns c ∧ moves c' = moves c ∧
    track_columns c' = track_columns c ∧
    (∀ i, has (deletions c') i ↔ has (deletions c) i ∨ ∃ j, has (deletions o) j ∧ kept c i j) ∧
    (∀ k, has (insertions c') k ↔ has (insertions o) k ∨ ∃ j, has (insertions c) j ∧ kept o j k).
Proof.
  intros Hc Ho Hw Hwo HNN Hroom. pose proof Hc as (Hd & Hi & Hm & Hcol). pose proof Ho as (Hdo & Hio & _).
  pose proof Hw as (HN & Hbd & Hbi & _). pose proof Hwo as (_ & Hbdo & Hbio & _).
  unfold merge_sets. pose proof (size_bound N _ Hd HN Hbd). pose proof (size_bound N _ Hio HN Hbio).
  destruct (is_add_shifted_by_law (deletions c) (insertions c) (deletions o)) as (d' & -> & Hd' & Hmd);
    [done..| |]. { intros x Hx. specialize (Hbdo x Hx). lia. }
  simpl. destruct (is_erase_at_set_law (insertions c) (deletions o) Hi Hdo) as (i1 & -> & Hi1 & Hm1). simpl.
  destruct (is_insert_at_set_law i1 (insertions o) Hi1 Hio) as (i2 & -> & Hi2 & Hm2).
  { intros e He. apply Hm1 in He as (x & Hx & _ & ->). specialize (Hbi x Hx).
    pose proof (rank_nonneg x (is_ranges (deletions o))). unfold rk. lia. }
  simpl. eexists. split; [done|]. split; [by split_and!|]. simpl. split_and!; try done.
  - intros i. rewrite Hmd. apply or_iff_compat_l. split.
    + intros (x & Hx & Nx & ->). exists x. split; [done|]. apply (kept_iff_unshift N); try done.
      split; [by apply (has_nonneg (deletions o))|by apply Hbdo].
    + intros (x & Hx & K). exists x. split; [done|]. apply (kept_iff_unshift N) in K; try done.
      split; [by apply (has_nonneg (deletions o))|by apply Hbdo].
  - intros k. rewrite Hm2. apply or_iff_compat_l. split.
    + intros (e & (x & Hx & Nx & ->)%Hm1 & ->). exists x. split; [done|]. apply (kept_iff_shift N); try done.
      split; [by apply (has_nonneg (insertions c))|by apply Hbi].
    + intros (x & Hx & K). apply (kept_iff_shift N) in K as [Nx ->]; try done.
      * eexists. split; [|done]. apply Hm1. by exists x.
      * split; [by apply (has_nonneg (insertions c))|by apply Hbi].
Qed.

(** ** Modifications *)

(** The column update at the end of [merge]. *)
Lemma merge_col_spec N c o s t :
  wf o → within N o → N + N < npos → is_ok s → below_bound N s → is_ok t →
  ∃ x, (x ← is_erase_at_set s (deletions o); x ← is_shift_for_set x (insertions o);
        x ← is_add_set x t; Some (x, t)) = Some (x, t) ∧ is_ok x ∧
    ∀ k, has x k ↔ has t k ∨ ∃ j, has s j ∧ kept o j k.
Proof.
  intros Ho Hwo HNN Hs Hb Ht. pose proof Ho as (Hdo & Hio & _). pose proof Hwo as (HN & _ & Hbio & _).
  pose proof (size_bound N _ Hio HN Hbio).
  destruct (is_erase_at_set_law s (deletions o) Hs Hdo) as (s1 & -> & Hs1 & Hm1). simpl.
  destruct (is_shift_for_set_law s1 (insertions o) Hs1 Hio) as (s2 & -> & Hs2 & Hm2).
  { intros e He. apply Hm1 in He as (x & Hx & _ & ->). specialize (Hb x Hx).
    pose proof (rank_nonneg x (is_ranges (deletions o))). unfold rk. lia. }
  simpl. destruct (is_add_set_law s2 t Hs2 Ht) as (s3 & -> & Hs3 & Hm3). simpl.
  exists s3. split; [done|]. split; [done|]. intros k. rewrite Hm3, Logic.or_comm. apply or_iff_compat_l. rewrite Hm2. split.
  - intros (e & (x & Hx & Nx & ->)%Hm1 & ->). exists x. split; [done|]. apply (kept_iff_shift N); try done.
    split; [by apply (has_nonneg s)|by apply Hb].
  - intros (x & Hx & K). apply (kept_iff_shift N) in K as [Nx ->]; try done.
    + eexists. split; [|done]. apply Hm1. by exists x.
    + split; [by apply (has_nonneg s)|by apply Hb].
Qed.

(** Column [n]; the columns that do not exist are empty. *)
Definition column c (n : nat) : S := default is_new (columns c !! n).

Lemma resize_lookup (l : list S) m n : (n < m)%nat → resize_columns m l !! n = Some (default is_new (l !! n)).
Proof.
  intros Hn. unfold resize_columns. destruct (l !! n) as [s|] eqn:E.
  - simpl. rewrite lookup_resize; [done|lia|by apply lookup_lt_Some in E].
  - simpl. apply lookup_resize_new; [by apply lookup_ge_None in E|done].
Qed.

Lemma resize_Forall (P : S → Prop) m (l : list S) : Forall P l → P is_new → Forall P (resize_columns m l).
Proof.
  intros Hl Hn. unfold resize_columns. rewrite resize_spec. apply Forall_app. split; [by apply Forall_take|].
  by apply Forall_replicate.
Qed.

(** A loop over the columns of both sets. *)
Lemma update_pairs_spec (f : S → S → option (S * S)) (P Q : S → Prop) (R : S → S → S → Prop) l m :
  (∀ a b, P a → Q b → ∃ x, f a b = Some (x, b) ∧ R a b x) → Forall P l → Forall Q m → length l = length m →
  ∃ l', update_each (λ '(a, b) (_ : unit), p ← f a b; Some (p, tt)) (zip l m) tt = Some (zip l' m, tt) ∧
    length l' = length m ∧
    ∀ n a b, l !! n = Some a → m !! n = Some b → ∃ x, l' !! n = Some x ∧ R a b x.
Proof.
  intros Hf Hl. revert m. induction Hl as [|a l Ha Hl IH]; intros [|b m] Hm Hlen; try done; simpl.
  { exists []. split_and!; try done. }
  inversion Hm as [|? ? Hb Hm']; subst. destruct (Hf a b Ha Hb) as (x & -> & Hx). simpl.
  destruct (IH m Hm') as (l' & -> & Hlen' & Hl'); [simpl in Hlen; lia|]. simpl. exists (x :: l').
  split; [done|]. split; [simpl; lia|]. intros [|n] a' b'; simpl; [|by apply Hl'].
  intros [= <-] [= <-]. by exists x.
Qed.

Lemma new_has j : ¬ has (is_new (S := S)) j.
Proof. destruct is_new_ok as [_ E]. unfold has. rewrite E. by intros []%mem_nil. Qed.

(** The modified rows of the merged change set, overall and by column. *)
Definition modified_by c o c' : Prop :=
  (∀ k, has (modifications c') k ↔ has (modifications o) k ∨ ∃ j, has (modifications c) j ∧ kept o j k) ∧
  ∀ n k, has (column c' n) k ↔ has (column o n) k ∨ ∃ j, has (column c n) j ∧ kept o j k.

Lemma merge_cols_spec N c0 c o :
  wf c → wf o → within N c → within N o → N + N < npos → modifications c0 = modifications c →
  columns c0 = columns c → track_columns c0 = true → wf c0 →
  ∃ c' o', for_each_col2 (λ col other,
      x ← is_erase_at_set col (deletions o); x ← is_shift_for_set x (insertions o);
      x ← is_add_set x other; Some (x, other)) c0 o = Some (c', o') ∧ wf c' ∧ modified_by c o c' ∧
    deletions c' = deletions c0 ∧ insertions c' = insertions c0 ∧ moves c' = moves c0 ∧ track_columns c' = track_columns c0.
Proof.
  intros Hc Ho Hw Hwo HNN Em Ec Et Hc0. pose proof Hc as (_ & _ & Hm & Hcol). pose proof Ho as (_ & _ & Hmo & Hcolo).
  pose proof Hw as (_ & _ & _ & Hbm & Hbc). destruct is_new_ok as [Hnew _].
  unfold for_each_col2. rewrite Em.
  destruct (merge_col_spec N c o (modifications c) (modifications o)) as (m' & -> & Hm' & Hmm); [done..|].
  simpl. rewrite Et, Ec.
  set (w := Nat.max (length (columns c)) (length (columns o))).
  destruct (update_pairs_spec (λ col other,
      x ← is_erase_at_set col (deletions o); x ← is_shift_for_set x (insertions o);
      x ← is_add_set x other; Some (x, other)) (λ s, is_ok s ∧ below_bound N s) is_ok
      (λ s t x, is_ok x ∧ ∀ k, has x k ↔ has t k ∨ ∃ j, has s j ∧ kept o j k)
      (resize_columns w (columns c)) (resize_columns w (columns o))) as (l' & E & Hlen & Hl').
  { intros a b [Ha Hba] Hb. destruct (merge_col_spec N c o a b) as (x & -> & Hx); [done..|]. by exists x. }
  { apply resize_Forall; [by apply Forall_and|]. split; [done|]. intros j Hj. by apply new_has in Hj. }
  { by apply resize_Forall. }
  { unfold resize_columns. by rewrite !length_resize. }
  rewrite E. simpl. eexists _, _. split; [done|].
  assert (length l' = w) as Hlw by (rewrite Hlen; unfold resize_columns; by rewrite length_resize).
  assert (l' = fst <$> zip l' (resize_columns w (columns o))) as <-
    by (rewrite fst_zip; [done|lia]).
  assert (∀ n, (n < w)%nat → ∃ x, l' !! n = Some x ∧ is_ok x ∧
    ∀ k, has x k ↔ has (column o n) k ∨ ∃ j, has (column c n) j ∧ kept o j k) as Hx.
  { intros n Hn. by apply Hl'; apply resize_lookup. }
  destruct Hc0 as (Hd0 & Hi0 & _). split; [|split; [split|]]; simpl.
  - split_and!; try done. apply Forall_lookup. intros n x Hn.
    simpl in Hn. pose proof (lookup_lt_Some _ _ _ Hn). destruct (Hx n) as (x' & E' & Hok & _); [lia|]. congruence.
  - exact Hmm.
  - intros n k. unfold column at 1. simpl. destruct (decide (n < w)%nat) as [Hn|Hn].
    + destruct (Hx n Hn) as (x & -> & _ & Hk). apply Hk.
    + rewrite (lookup_ge_None_2 l') by lia. unfold column, w in *. rewrite !lookup_ge_None_2 by lia. simpl.
      split; [intros []%new_has|]. intros [[]%new_has|(j & []%new_has & _)].
  - done.
Qed.

Lemma merge_nonempty_spec N c o :
  wf c → wf o → within N c → within N o → N + N < npos → is_roomy (deletions c) (deletions o) →
  moves c = [] → moves o = [] → track_columns c = true →
  ∃ c', merge_nonempty c o = Some c' ∧ wf c' ∧ moves c' = [] ∧
    (∀ i k, kept c' i k ↔ ∃ j, kept c i j ∧ kept o j k) ∧ modified_by c o c' ∧ track_columns c' = true.
Proof.
  intros Hc Ho Hw Hwo HNN Hroom Em Emo Et. unfold merge_nonempty.
  assert (verify c = Some tt ∧ verify o = Some tt) as [-> ->] by (unfold verify; by rewrite Em, Emo).
  simpl. assert (merge_old_moves c o = Some (c, o)) as ->.
  { unfold merge_old_moves. rewrite Em. simpl. destruct c; simpl in *. rewrite Em. by case_match. }
  simpl. assert (ignore_moves_of_inserted c o = Some o) as ->.
  { unfold ignore_moves_of_inserted. by rewrite Emo, andb_false_r. }
  simpl. assert (keep_modified c o = Some (c, o)) as ->.
  { unfold keep_modified. by rewrite Emo, andb_false_r. }
  simpl.   assert (rebase_new_moves c o = Some o) as ->.
  { unfold rebase_new_moves. rewrite Emo. simpl. destruct o; simpl in *. rewrite Emo. by case_match. }
  simpl. rewrite Em, Emo. simpl.
  destruct (merge_sets_spec N (with_moves c []) o) as (c1 & -> & Hc1 & Em1 & Ec1 & Emv1 & Et1 & Hd & Hi); [done..|].
  simpl. unfold clean_up_stale_moves. rewrite Emv1. simpl.
  destruct (merge_cols_spec N (with_moves c1 []) c o) as (c' & o' & -> & Hc' & Hmod & Ed' & Ei' & Emv' & Et'); try done.
  { simpl. by rewrite Et1. }
  simpl. assert (verify c' = Some tt) as -> by (unfold verify; by rewrite Emv').
  simpl. exists c'. split; [done|]. split; [done|]. split; [done|]. split; [|split; [done|rewrite Et'; cbn; by rewrite Et1]].
  apply kept_compose; try done.
  - intros i. rewrite Ed'. apply Hd.
  - intros k. rewrite Ei'. apply Hi.
Qed.

Lemma is_empty_ranges s : is_ok s → is_empty s = true → is_ranges s = [].
Proof. intros Hs E. rewrite is_empty_law in E by done. by apply bool_decide_eq_true in E. Qed.

Lemma empty_sets c : wf c → empty c = true →
  is_ranges (deletions c) = [] ∧ is_ranges (insertions c) = [] ∧ is_ranges (modifications c) = [] ∧ moves c = [].
Proof.
  intros (Hd & Hi & Hm & _). unfold empty. rewrite !andb_true_iff. intros [[[[E1 E2] E3] _] E4].
  split_and!; [by apply is_empty_ranges..|]. by destruct (moves c).
Qed.

Lemma kept_empty c i j : wf c → empty c = true → kept c i j ↔ 0 <= i ∧ i = j.
Proof.
  intros Hc He. destruct (empty_sets c Hc He) as (E1 & E2 & _ & _).
  unfold kept, rk, has. rewrite E1, E2, !mem_nil. simpl. intuition lia.
Qed.

(** No column of [c] has a modified row that [c] does not have. *)
Definition columns_in c : Prop := ∀ n j, has (column c n) j → has (modifications c) j.

Lemma empty_columns c n j : wf c → empty c = true → columns_in c → ¬ has (column c n) j.
Proof.
  intros Hc He Hin Hj. destruct (empty_sets c Hc He) as (_ & _ & E & _). apply Hin in Hj.
  unfold has in Hj. rewrite E in Hj. by apply mem_nil in Hj.
Qed.

Lemma column_nonneg c n j : wf c → has (column c n) j → 0 <= j.
Proof.
  intros (_ & _ & _ & Hc). unfold column. destruct (columns c !! n) as [s|] eqn:E; simpl.
  - apply has_nonneg. rewrite Forall_forall in Hc. by apply Hc, (list_elem_of_lookup_2 _ n).
  - intros Hj. by apply new_has in Hj.
Qed.

Lemma merge_spec N c o :
  wf c → wf o → within N c → within N o → N + N < npos → is_roomy (deletions c) (deletions o) →
  moves c = [] → moves o = [] → track_columns c = true → columns_in c → columns_in o →
  ∃ c', merge c o = Some c' ∧ wf c' ∧ moves c' = [] ∧
    (∀ i k, kept c' i k ↔ ∃ j, kept c i j ∧ kept o j k) ∧ modified_by c o c' ∧ (track_columns o = true → track_columns c' = true).
Proof.
  intros Hc Ho Hw Hwo HNN Hroom Em Emo Et Hinc Hino. unfold merge.
  destruct (empty o) eqn:Eo; [|destruct (empty c) eqn:Ec].
  - exists c. split; [done|]. split; [done|]. split; [done|]. unfold modified_by. setoid_rewrite (kept_empty o _ _ Ho Eo).
    split; [|split; [split|by intros]].
    + intros i k. split; [intros K; pose proof K as (? & ? & _); exists k; done|by intros (j & K & _ & <-)].
    + destruct (empty_sets o Ho Eo) as (_ & _ & E & _).
      assert (∀ k, ¬ has (modifications o) k) as Hno by (intros k; unfold has; rewrite E; by intros []%mem_nil).
      intros k. split.
      * intros Hk. right. exists k. split; [done|]. split; [|done]. destruct Hc as (_ & _ & ? & _). by apply (has_nonneg (modifications c)).
      * by intros [?%Hno|(j & Hj & _ & <-)].
    + intros n k. split.
      * intros Hk. right. exists k. split; [done|]. split; [|done]. by apply (column_nonneg c n).
      * intros [Hk|(j & Hj & _ & <-)]; [|done]. by apply (empty_columns o n k) in Hk.
  - exists o. split; [done|]. split; [done|]. split; [done|]. unfold modified_by. setoid_rewrite (kept_empty c _ _ Hc Ec).
    split; [|split; [split|done]].
    + intros i k. split; [|by intros (j & (_ & <-) & K)].
      intros K. exists i. split; [|done]. pose proof K as (? & _). done.
    + intros k. split; [by left|]. intros [?|(j & Hj & _)]; [done|].
      destruct (empty_sets c Hc Ec) as (_ & _ & E & _). unfold has in Hj. rewrite E in Hj. by apply mem_nil in Hj.
    + intros n k. split; [by left|]. intros [?|(j & Hj & _)]; [done|].
      by apply (empty_columns c n j) in Hj.
  - destruct (merge_nonempty_spec N c o) as (c' & E & Hc' & Emv & Hk & Hmod & Et'); [done..|]. by exists c'.
Qed.
End merge.

(** * What the change builder promises

    The properties of [CollectionChangeBuilder], over any index set that keeps
    the laws of the interface, and concrete instances of them on the chunked
    sets of the debug builds. *)

Import Changes.

Section theorems.
Context {S : Type} `{IndexSetLaws S}.
Implicit Types (c o : change_builder S).

(** Recording the insertion of [n] rows at [index] succeeds and keeps the
    change set well formed; every old row, kept or moved, is followed to where the
    insertion puts it, and a kept row stays kept; so are the modified rows, overall and by column. *)
Theorem insert_correct N c index n :
  wf c → within N c → moves_ok c → 0 <= index → 0 < n → index + n < npos → N + n < npos →
  ∃ c', insert c index n true = Some c' ∧ wf c' ∧ moves_ok c' ∧
    relocates c c' (λ j j', j' = after_insert index n j) ∧
    keeps c c' (λ j j', j' = after_insert index n j) ∧
    cols_related (λ P, shifted P index n) c c'.
Proof. apply insert_spec. Qed.

(** C12: recording an erasure succeeds and keeps the change set well formed; the
    erased row, kept, moved or inserted, is followed nowhere, and every other row
    to where the erasure puts it. *)
Theorem erase_correct N c index :
  wf c → within N c → moves_ok c → 0 <= index → index + N < npos →
  ∃ c', erase c index = Some c' ∧ wf c' ∧ moves_ok c' ∧
    relocates c c' (after_erase index) ∧ keeps c c' (after_erase index) ∧
    cols_related (λ P, erased P index) c c'.
Proof. apply erase_spec. Qed.

(** C11: recording a move succeeds and keeps the change set well formed, whether
    the moved row was kept, moved before or newly inserted: every row, the moved
    one included, is followed to its position after the move, and the
    modifications of the rows move along. *)
Theorem move_correct N c from to :
  wf c → within N c → moves_ok c → 0 <= from → 0 <= to → from ≠ to →
  from + N < npos → to + 1 < npos → N + 1 < npos →
  ∃ c', move c from to = Some c' ∧ wf c' ∧ moves_ok c' ∧
    relocates c c' (λ j j', j' = after_move from to j) ∧
    keeps c c' (λ j j', j ≠ from ∧ j' = after_move from to j) ∧
    cols_related (λ P j', ∃ j, P j ∧ j' = after_move from to j) c c'.
Proof. apply move_spec. Qed.

(** Clearing a collection of [n] rows deletes exactly the rows of the old
    collection, whose number follows from the change set, and nothing else is
    left: no old row is followed anywhere. *)
Theorem clear_correct c n :
  wf c → 0 <= n < npos → let old := n + size (deletions c) - size (insertions c) in 0 <= old < W64 →
  ∃ c', clear c n = Some c' ∧ wf c' ∧ moves_ok c' ∧
    (∀ i, has (deletions c') i ↔ 0 <= i < old) ∧ (∀ j, ¬ has (insertions c') j) ∧
    (∀ j, ¬ has (modifications c') j) ∧ (∀ i j, i < old → ¬ follows c' i j) ∧ columns c' = [].
Proof. apply clear_changes_spec. Qed.

(** The finished change set reports the modified rows that were not inserted
    by their new positions, and exactly the old rows that are kept at one of these
    by their old positions. *)
Theorem finalize_correct N c :
  wf c → within N c → N + N < npos →
  ∃ r, finalize c = Some r ∧ cs_deletions r = deletions c ∧ cs_insertions r = insertions c ∧
    cs_moves r = moves c ∧ cs_columns r = columns c ∧
    (∀ j, has (cs_modifications_new r) j ↔ has (modifications c) j ∧ ¬ has (insertions c) j) ∧
    (∀ i, has (cs_modifications r) i ↔ ∃ j, has (modifications c) j ∧ kept c i j).
Proof. apply finalize_spec. Qed.

(** C10: the merge of two change sets without moves is their composition: an old
    row is a row of the last collection exactly when a row of the collection
    between links them, a row is modified exactly when the second change set
    modified it or the first one did and the second one kept it, and the same holds
    for every column.  The ranges of both deletions are assumed to fit one chunk. *)
Theorem merge_correct N c o :
  wf c → wf o → within N c → within N o → N + N < npos → is_roomy (deletions c) (deletions o) →
  moves c = [] → moves o = [] → track_columns c = true → columns_in c → columns_in o →
  ∃ c', merge c o = Some c' ∧ wf c' ∧ moves c' = [] ∧
    (∀ i k, kept c' i k ↔ ∃ j, kept c i j ∧ kept o j k) ∧ modified_by c o c'.
Proof.
  intros. destruct (merge_spec N c o) as (c' & ? & ? & ? & ? & ? & _); [done..|]. by exists c'.
Qed.
End theorems.

(** ** [add_shifted_by] on the chunked sets *)

(** [add_shifted_by] adds, for every value outside of the indices it is
    shifted by, the position that [shift] over the old members gives to its number
    of values outside, as long as the result fits one chunk. *)
Theorem add_shifted_by_correct {B : BuildConfig} (v w u : vec) P Q R :
  denotes v P → denotes w Q → denotes u R →
  (length (flat v) + Z.to_nat (total (flat u)) <= max_size)%nat →
  (∀ x, R x → x + total (flat v) < npos) →
  ∃ v', IndexSet.add_shifted_by v w u = Some v' ∧
    denotes v' (λ j, P j ∨ ∃ x, R x ∧ ¬ Q x ∧ j = IndexSet.shift v (x - rank x (flat w))).
Proof. apply add_shifted_by_spec. Qed.

(** ** Instances on concrete change sets *)

#[local] Existing Instance debug_build.

Definition touched : vec := [Chunk [(4, 6); (12, 13)] 4 13 3].

(** Rows 2, 3 and 20 are gone, 2 and 20 to new rows 5 and 9. *)
Definition sample_changes : change_builder vec :=
  Build sample2 sample touched [(2, 5); (20, 9)] [touched; []] ∅ true.

(** Rows 0 and 4 deleted, rows 1 and 2 inserted; and 6 deleted, 0 inserted. *)
Definition first_changes : change_builder vec :=
  Build [Chunk [(0, 1); (4, 5)] 0 5 2] [Chunk [(1, 3)] 1 3 2] [Chunk [(5, 6)] 5 6 1] []
    [[Chunk [(5, 6)] 5 6 1]] ∅ true.
Definition second_changes : change_builder vec :=
  Build [Chunk [(6, 7)] 6 7 1] [Chunk [(0, 1)] 0 1 1] [Chunk [(3, 4)] 3 4 1] [] [] ∅ true.

Ltac concrete_within :=
  unfold within, below_bound; cbn; split_and!; repeat constructor; try lia;
  intros ? Hconcrete; unfold has in Hconcrete; cbn in Hconcrete;
  repeat first [apply mem_nil in Hconcrete as [] | apply mem_cons in Hconcrete as [Hconcrete|Hconcrete];
    [cbn in Hconcrete; lia|]].

Ltac concrete_wf :=
  unfold wf; cbn; repeat apply conj; rewrite ?Forall_cons;
  repeat first [apply Forall_nil; exact I | apply conj | by apply set_okb_ok].

Lemma sample_wf : wf sample_changes.
Proof. concrete_wf. Qed.

Lemma sample_within : within 21 sample_changes.
Proof. concrete_within. Qed.

Lemma sample_moves_ok : moves_ok sample_changes.
Proof.
  split_and!; [|by apply (bool_decide_unpack _); vm_compute..].
  intros i j Hij. cbn in Hij. unfold has. rewrite <- !memb_mem.
  apply elem_of_cons in Hij as [E|Hij]; [by injection E as -> ->|].
  apply list_elem_of_singleton in Hij. by injection Hij as -> ->.
Qed.

Lemma insert_changes_witness :
  ∃ c', insert sample_changes 4 2 true = Some c' ∧ wf c' ∧ moves_ok c' ∧
    relocates sample_changes c' (λ j j', j' = after_insert 4 2 j) ∧
    keeps sample_changes c' (λ j j', j' = after_insert 4 2 j) ∧
    cols_related (λ P, shifted P 4 2) sample_changes c'.
Proof.
  apply (insert_correct 21 sample_changes 4 2);
    [exact sample_wf|exact sample_within|exact sample_moves_ok|lia..].
Defined.

Lemma erase_changes_witness :
  ∃ c', erase sample_changes 5 = Some c' ∧ wf c' ∧ moves_ok c' ∧
    relocates sample_changes c' (after_erase 5) ∧ keeps sample_changes c' (after_erase 5) ∧
    cols_related (λ P, erased P 5) sample_changes c'.
Proof.
  apply (erase_correct 21 sample_changes 5);
    [exact sample_wf|exact sample_within|exact sample_moves_ok|lia..].
Defined.

Lemma move_changes_witness :
  ∃ c', move sample_changes 5 12 = Some c' ∧ wf c' ∧ moves_ok c' ∧
    relocates sample_changes c' (λ j j', j' = after_move 5 12 j) ∧
    keeps sample_changes c' (λ j j', j ≠ 5 ∧ j' = after_move 5 12 j) ∧
    cols_related (λ P j', ∃ j, P j ∧ j' = after_move 5 12 j) sample_changes c'.
Proof.
  apply (move_correct 21 sample_changes 5 12);
    [exact sample_wf|exact sample_within|exact sample_moves_ok|lia..].
Defined.

Lemma clear_changes_witness :
  let old := 30 + size (deletions sample_changes) - size (insertions sample_changes) in
  ∃ c', clear sample_changes 30 = Some c' ∧ wf c' ∧ moves_ok c' ∧
    (∀ i, has (deletions c') i ↔ 0 <= i < old) ∧ (∀ j, ¬ has (insertions c') j) ∧
    (∀ j, ¬ has (modifications c') j) ∧ (∀ i j, i < old → ¬ follows c' i j) ∧ columns c' = [].
Proof. apply (clear_correct sample_changes 30); [exact sample_wf|lia|vm_compute; split; discriminate || reflexivity]. Defined.

Lemma finalize_changes_witness :
  ∃ r, finalize sample_changes = Some r ∧ cs_deletions r = deletions sample_changes ∧
    cs_insertions r = insertions sample_changes ∧
    cs_moves r = moves sample_changes ∧ cs_columns r = columns sample_changes ∧
    (∀ j, has (cs_modifications_new r) j ↔
          has (modifications sample_changes) j ∧ ¬ has (insertions sample_changes) j) ∧
    (∀ i, has (cs_modifications r) i ↔ ∃ j, has (modifications sample_changes) j ∧ kept sample_changes i j).
Proof. apply (finalize_correct 21 sample_changes); [exact sample_wf|exact sample_within|lia]. Defined.

Lemma merge_changes_witness :
  ∃ c', merge first_changes second_changes = Some c' ∧ wf c' ∧ moves c' = [] ∧
    (∀ i k, kept c' i k ↔ ∃ j, kept first_changes i j ∧ kept second_changes j k) ∧
    modified_by first_changes second_changes c'.
Proof.
  apply (merge_correct 21 first_changes second_changes);
    [concrete_wf|concrete_wf|concrete_within|concrete_within|lia|vm_compute; lia|reflexivity|reflexivity|reflexivity| |].
  - intros [|n] j Hj; [exact Hj|]. destruct n; by apply mem_nil in Hj.
  - intros [|n] j Hj; by apply mem_nil in Hj.
Defined.

Lemma add_shifted_by_witness :
  let v := [Chunk [(5, 7)] 5 7 2] in let w := [Chunk [(2, 3)] 2 3 1] in let u := [Chunk [(1, 3); (9, 10)] 1 10 3] in
  ∃ v', IndexSet.add_shifted_by v w u = Some v' ∧
    denotes v' (λ j, mem j (flat v) ∨
      ∃ x, mem x (flat u) ∧ ¬ mem x (flat w) ∧ j = IndexSet.shift v (x - rank x (flat w))).
Proof.
  intros v w u. apply (add_shifted_by_correct v w u (λ j, mem j (flat v)) (λ j, mem j (flat w)) (λ j, mem j (flat u)));
    [by apply denotes_self..|vm_compute; lia|].
  intros x Hx. change (mem x [(1, 3); (9, 10)]) in Hx. change (total (flat v)) with 2. repeat first [apply mem_nil in Hx as [] | apply mem_cons in Hx as [Hx|Hx]; [cbn in *; lia|]].
Defined.
