(* ===== verification/ChangeCalculation.v ===== *)
(** * Calculating a change set from two lists of rows

    Model of [CollectionChangeBuilder::calculate] and of the two move detectors of
    impl/collection_change_builder.cpp, over any index set and any [std::sort]. *)

From Stdlib Require Import Sorted.
From stdpp Require Import sorting.
From S2P Require Import Prelude RangeSet IndexWalk IndexSetInterface ChangeBuilder.

(** [std::sort], which is not stable: what it does with equal elements is left
    open. *)
Class Sorts := sort_by : ∀ {A}, (A → A → bool) → list A → list A.

(** The comparison is the opposite of a total preorder. *)
Definition weak_order {A} (lt : A → A → bool) : Prop :=
  (∀ x y z, lt x y = false → lt y z = false → lt x z = false) ∧ (∀ x y, lt x y = true → lt y x = false).

Class SortLaws `{Sorts} := {
  sort_by_perm {A} (lt : A → A → bool) l : sort_by lt l ≡ₚ l;
  sort_by_sorted {A} (lt : A → A → bool) l : weak_order lt → StronglySorted (λ x y, lt y x = false) (sort_by lt l)
}.

(** [RowInfo] *)
Record RowInfo := Row { row_index : Z; prev_tv_index : Z; tv_index : Z; shifted_tv_index : Z }.
#[export] Instance RowInfo_dec : EqDecision RowInfo.
Proof. solve_decision. Defined.

(** [LongestCommonSubsequenceCalculator::Row] and [::Match] *)
Record LcsRow := MkLcsRow { l_row_index : Z; l_tv_index : Z }.
Record Match := MkMatch { m_i : Z; m_j : Z; m_size : Z; m_modified : Z }.

(** The comparisons the code sorts with. *)
Definition by_row (x y : RowInfo) : bool := row_index x <? row_index y.
Definition by_tv (x y : RowInfo) : bool := tv_index x <? tv_index y.
Definition pair_lt (a b c d : Z) : bool := (a <? c) || ((a =? c) && (b <? d)).
Definition by_tv_row (x y : LcsRow) : bool :=
  pair_lt (l_tv_index x) (l_row_index x) (l_tv_index y) (l_row_index y).
Definition by_row_tv (x y : LcsRow) : bool :=
  pair_lt (l_row_index x) (l_tv_index x) (l_row_index y) (l_tv_index y).

Module Calculate.
Section calculate.
Context {S : Type} `{IndexSets S} `{Sorts}.
Implicit Types (c : change_builder S) (s : S) (rows : list RowInfo).

(** ** Moves in an unsorted query *)

Definition moves_unsorted_row (move_candidates : S) (row : RowInfo) (st : Z * S * change_builder S)
    : option (Z * S * change_builder S) :=
  let '(expected, removed, c) := st in
  if shifted_tv_index row =? expected then Some (expected ⊕ 1, removed, c) else
  could ← is_contains move_candidates (row_index row);
  if negb could then Some (shifted_tv_index row ⊕ 1, removed, c) else
  n_ins ← is_count_to (insertions c) (tv_index row);
  n_rem ← is_count_to removed (prev_tv_index row);
  let calc_expected := tv_index row ⊖ n_ins ⊕ n_rem in
  if shifted_tv_index row =? calc_expected then Some (calc_expected ⊕ 1, removed, c) else
  let c := Changes.with_moves c (moves c ++ [(prev_tv_index row, tv_index row)]) in
  ins ← is_add (insertions c) (tv_index row);
  removed ← is_add removed (prev_tv_index row);
  Some (expected, removed, Changes.with_insertions c ins).

Definition calculate_moves_unsorted rows (removed move_candidates : S) c : option (S * change_builder S) :=
  '(_, removed, c) ← foldM (moves_unsorted_row move_candidates) rows (0, removed, c);
  Some (removed, c).

(** ** The longest common subsequence *)

(** The lambda [length]: [prev] pairs a position of [b] with a length. *)
Fixpoint block_length (prev : list (Z * Z)) (j : Z) : Z :=
  match prev with
  | [] => 1
  | (pj, len) :: prev => if pj ⊕ 1 =? j then len ⊕ 1 else block_length prev j
  end.

(** The loop of [for_each_b_match]: the positions that it calls its argument with. *)
Fixpoint b_positions (b : list LcsRow) (ai begin2 end2 : Z) : list Z :=
  match b with
  | [] => []
  | r :: b =>
      if negb (l_row_index r =? ai) then [] else
      if l_tv_index r <? begin2 then b_positions b ai begin2 end2 else
      if end2 <=? l_tv_index r then [] else l_tv_index r :: b_positions b ai begin2 end2
  end.

Definition b_matches (a b : list LcsRow) (i begin2 end2 : Z) : option (list Z) :=
  r ← a !! Z.to_nat i;
  let it := find_if (λ x, negb (l_row_index x <? l_row_index r)) b in
  x ← b !! it;
  REALM_ASSERT (l_row_index x =? l_row_index r) ;;
  Some (b_positions (drop it b) (l_row_index r) begin2 end2).

(** What happens for one pair of equal rows: [cur] grows, [best] may improve. *)
Definition consider (modified : S) (begin1 end1 begin2 end2 i : Z) (prev : list (Z * Z)) (j : Z)
    (st : list (Z * Z) * Match) : option (list (Z * Z) * Match) :=
  let '(cur, best) := st in
  let size := block_length prev j in
  best ← (if m_size best <? size then Some (MkMatch (i ⊖ size ⊕ 1) (j ⊖ size ⊕ 1) size npos)
          else if size =? m_size best then
            best_modified ← (if m_modified best =? npos
                             then is_count modified (m_j best ⊖ size ⊕ 1) (m_j best ⊕ 1)
                             else Some (m_modified best));
            count ← is_count modified (j ⊖ size ⊕ 1) (j ⊕ 1);
            Some (if count <? best_modified then MkMatch (i ⊖ size ⊕ 1) (j ⊖ size ⊕ 1) size count
                  else MkMatch (m_i best) (m_j best) (m_size best) best_modified)
          else Some best);
  REALM_ASSERT ((begin1 <=? m_i best) && (m_i best ⊕ m_size best <=? end1)) ;;
  REALM_ASSERT ((begin2 <=? m_j best) && (m_j best ⊕ m_size best <=? end2)) ;;
  Some (cur ++ [(j, size)], best).

Definition find_longest_match (modified : S) (a b : list LcsRow) (begin1 end1 begin2 end2 : Z) : option Match :=
  '(_, best) ← iter_n (Z.to_nat (end1 - begin1))
    (λ k '(cur, best),
       let i := Z.of_nat k in
       js ← b_matches a b i begin2 end2;
       foldM (consider modified begin1 end1 begin2 end2 i cur) js ([], best))
    (Z.to_nat begin1) ([], MkMatch begin1 begin2 0 0);
  Some best.

(** The recursion, which collects the matches in order. *)
Fixpoint find_longest_matches (fuel : nat) (modified : S) (a b : list LcsRow) (begin1 end1 begin2 end2 : Z)
    : option (list Match) :=
  match fuel with
  | O => None
  | Datatypes.S fuel =>
      m ← find_longest_match modified a b begin1 end1 begin2 end2;
      if m_size m =? 0 then Some [] else
      before ← (if (begin1 <? m_i m) && (begin2 <? m_j m)
                then find_longest_matches fuel modified a b begin1 (m_i m) begin2 (m_j m) else Some []);
      after ← (if (m_i m ⊕ m_size m <? end2) && (m_j m ⊕ m_size m <? end2)
               then find_longest_matches fuel modified a b (m_i m ⊕ m_size m) end1 (m_j m ⊕ m_size m) end2
               else Some []);
      Some (before ++ m :: after)
  end.

Definition len {A} (l : list A) : Z := Z.of_nat (length l).

Definition longest_matches (modified : S) (a b : list LcsRow) (start_index : Z) : option (list Match) :=
  ms ← find_longest_matches (Datatypes.S (length a)) modified a b start_index (len a) start_index (len b);
  Some (ms ++ [MkMatch (len a) (len b) 0 0]).

(** ** Moves in sorted rows *)

(** "insert and delete rows as needed to align them" *)
Definition align (a : list LcsRow) rows (m : Match) (st : Z * Z * change_builder S)
    : option (Z * Z * change_builder S) :=
  let '(i, j, c) := st in
  c ← iter_n (Z.to_nat (m_i m - i))
        (λ k c, r ← a !! k; d ← is_add (deletions c) (l_tv_index r); Some (Changes.with_deletions c d))
        (Z.to_nat i) c;
  c ← iter_n (Z.to_nat (m_j m - j))
        (λ k c, r ← rows !! k; s ← is_add (insertions c) (tv_index r); Some (Changes.with_insertions c s))
        (Z.to_nat j) c;
  Some (Z.max i (m_i m) ⊕ m_size m, Z.max j (m_j m) ⊕ m_size m, c).

(** The rows of [a]; [a] and [rows] have the same length. *)
Definition rows_by_prev rows : list LcsRow :=
  sort_by by_tv_row ((λ r, MkLcsRow (row_index r) (prev_tv_index r)) <$> rows).
Definition rows_by_row rows : list LcsRow :=
  sort_by by_row_tv (imap (λ i r, MkLcsRow (row_index r) (Z.of_nat i)) rows).
Definition first_difference (a : list LcsRow) rows : nat :=
  find_if (λ '(x, r), negb (l_row_index x =? row_index r)) (zip a rows).

Definition calculate_moves_sorted rows c : option (change_builder S) :=
  let a := rows_by_prev rows in
  let first := first_difference a rows in
  if bool_decide (first = length a) then Some c else
  let b := rows_by_row rows in
  matches ← longest_matches (modifications c) a b (Z.of_nat first);
  '(_, _, c) ← foldM (align a rows) matches (Z.of_nat first, Z.of_nat first, c);
  Some c.

(** ** [calculate] *)

(** The first loop: the old rows that were not deleted. *)
Fixpoint live_rows (prev_rows : list Z) (i deleted : Z) (d : S) : option (list RowInfo * S) :=
  match prev_rows with
  | [] => Some ([], d)
  | r :: prev_rows =>
      if r =? npos then d ← is_add d i; live_rows prev_rows (i + 1) (deleted + 1) d
      else '(old_rows, d) ← live_rows prev_rows (i + 1) deleted d;
           Some (Row r npos i (i ⊖ deleted) :: old_rows, d)
  end.

Definition all_new_rows (next_rows : list Z) : list RowInfo :=
  imap (λ i r, Row r npos (Z.of_nat i) 0) next_rows.

Definition add_all rows s : option S := foldM (λ r s, is_add s (tv_index r)) rows s.

(** The loop over both sorted lists, with the two loops that follow it: the new
    rows, [removed] and the insertions. *)
Fixpoint match_rows (old_rows : list RowInfo) : list RowInfo → S → S → option (list RowInfo * S * S) :=
  fix go new_rows removed ins :=
    match old_rows, new_rows with
    | o :: old_rows', n :: new_rows' =>
        if row_index o =? row_index n then
          '(l, removed, ins) ← match_rows old_rows' new_rows' removed ins;
          Some (Row (row_index n) (tv_index o) (tv_index n) (shifted_tv_index o) :: l, removed, ins)
        else if row_index o <? row_index n then
          removed ← is_add removed (tv_index o);
          match_rows old_rows' new_rows removed ins
        else
          ins ← is_add ins (tv_index n);
          '(l, removed, ins) ← go new_rows' removed ins;
          Some (n :: l, removed, ins)
    | _, _ =>
        removed ← add_all old_rows removed;
        ins ← add_all new_rows ins;
        Some (new_rows, removed, ins)
    end.

(** Erase the deleted ranges, the last one first. *)
Definition erase_ranges (rs : list range) (l : list Z) : option (list Z) :=
  foldM (λ (r : range) l,
    REALM_ASSERT ((r.1 <=? r.2) && (r.2 <=? len l)) ;;
    Some (take (Z.to_nat r.1) l ++ drop (Z.to_nat r.2) l)) (rev rs) l.

Definition insert_rows (at_ next_rows l : list Z) : option (list Z) :=
  foldM (λ i l,
    x ← next_rows !! Z.to_nat i;
    REALM_ASSERT (i <=? len l) ;;
    Some (take (Z.to_nat i) l ++ x :: drop (Z.to_nat i) l)) at_ l.

(** "Verify that applying the calculated change to prev_rows actually produces
    next_rows" *)
Definition self_check c (prev_rows next_rows : list Z) : option unit :=
  l ← erase_ranges (is_ranges (deletions c)) prev_rows;
  l ← insert_rows (elems (is_ranges (insertions c))) next_rows l;
  REALM_ASSERT (bool_decide (l = next_rows)) ;;
  Some tt.

(** A row that is still there is asked about. *)
Definition modified_row {C} (row_did_change : Z → C → option (C * bool)) (r : RowInfo) : C * S → option (C * S) := λ '(st, s),
  '(st, changed) ← row_did_change (row_index r) st;
  s ← (if changed : bool then is_add s (tv_index r) else Some s);
  Some (st, s).

(** [std::is_sorted], an assertion of the debug builds. *)
Definition is_sorted (l : list Z) : bool :=
  forallb (λ '(x, y), negb (y <? x)) (zip l (tail l)).

(** [row_did_change] is a function object with a state of its own. *)
Definition calculate {C} (prev_rows next_rows : list Z) (row_did_change : Z → C → option (C * bool)) (st : C) (move_candidates : option S)
    : option (change_builder S) :=
  REALM_ASSERT (match move_candidates with None => true | Some _ => is_sorted next_rows end) ;;
  '(old_rows, d) ← live_rows prev_rows 0 0 is_new;
  '(new_rows, removed, ins) ← match_rows (sort_by by_row old_rows) (sort_by by_row (all_new_rows next_rows)) is_new is_new;
  let new_rows := sort_by by_tv (filter (λ r, prev_tv_index r ≠ npos) new_rows) in
  '(_, modified) ← foldM (modified_row row_did_change) new_rows (st, is_new);
  let c := Build d ins modified [] [] ∅ true in
  '(removed, c) ← match move_candidates with
                  | Some cands => calculate_moves_unsorted new_rows removed cands c
                  | None => c ← calculate_moves_sorted new_rows c; Some (removed, c)
                  end;
  d ← is_add_set (deletions c) removed;
  let c := Changes.with_deletions c d in
  Changes.verify c ;;
  self_check c prev_rows next_rows ;;
  Some c.
End calculate.
End Calculate.

(** ** A sort *)

Definition not_after {A} (lt : A → A → bool) (x y : A) : Prop := lt y x = false.
#[export] Instance not_after_dec {A} (lt : A → A → bool) : RelDecision (not_after lt).
Proof. intros x y. unfold not_after. apply _. Defined.

#[export] Instance merge_sorts : Sorts := λ A lt l, merge_sort (not_after lt) l.

#[export] Instance merge_sorts_laws : SortLaws.
Proof.
  split.
  - intros A lt l. apply merge_sort_Permutation.
  - intros A lt l [Ht Ha].
    assert (Transitive (not_after lt)) by (intros x y z Hxy Hyz; by apply (Ht z y x)).
    assert (Total (not_after lt)); [|apply (StronglySorted_merge_sort (not_after lt))].
    intros x y. unfold not_after. destruct (lt y x) eqn:E; [right; by apply Ha|by left].
Qed.

(** ** Examples *)

(** A function object without a state *)
Definition stateless (changed : Z → bool) (r : Z) (st : unit) : option (unit * bool) := Some (st, changed r).

Definition calculated {B : RangeVector.BuildConfig} (prev next : list Z) (changed : Z → bool) (cands : option (list Z))
    : option (list range * list range * list range * list (Z * Z)) :=
  cands ← match cands with
          | None => Some None
          | Some l => s ← foldM (λ i s, is_add s i) l is_new; Some (Some s)
          end;
  c ← Calculate.calculate (S := RangeVector.vec) prev next (stateless changed) tt cands;
  Some (is_ranges (deletions c), is_ranges (insertions c), is_ranges (modifications c), moves c).
