(* ===== verification/RowMatching.v ===== *)
(** * Selecting rows by position

    The rows at increasing positions of a list, and what the self check of
    [calculate] computes in terms of them. *)

From Stdlib Require Import Sorted.
From S2P Require Import Prelude RangeSet IndexWalk Ranks IndexSetInterface ChangeBuilder ChangeCalculation.

Definition select (l js : list Z) : list Z := omap (λ j, l !! Z.to_nat j) js.

(** The positions of a list of [n] rows that a set leaves out. *)
Definition left_out (lo n : Z) (P : Z → bool) : list Z := filter (λ j, P j = false) (seqZ lo (n - lo)).

Lemma select_app l js ks : select l (js ++ ks) = select l js ++ select l ks.
Proof. apply omap_app. Qed.

Lemma select_range l lo hi :
  0 <= lo → lo <= hi → hi <= Calculate.len l → select l (seqZ lo (hi - lo)) = take (Z.to_nat (hi - lo)) (drop (Z.to_nat lo) l).
Proof.
  intros Hlo Hhi Hl. unfold Calculate.len in Hl. remember (Z.to_nat (hi - lo)) as n eqn:En.
  replace (hi - lo) with (Z.of_nat n) by lia. assert (lo + Z.of_nat n <= Z.of_nat (length l)) as H by lia.
  clear hi Hhi Hl En. revert lo Hlo H. induction n as [|n IH]; intros lo Hlo H; [by rewrite seqZ_nil by lia|].
  rewrite seqZ_cons by lia. unfold select in *. simpl.
  destruct (lookup_lt_is_Some_2 l (Z.to_nat lo)) as [x Ex]; [lia|]. rewrite Ex.
  rewrite (drop_S l x) by done. simpl. f_equal.
  replace (Z.pred (Z.succ (Z.of_nat n))) with (Z.of_nat n) by lia.
  replace (Z.pred (Z.of_nat (S n))) with (Z.of_nat n) by lia. rewrite IH by lia.
  by replace (Z.to_nat (Z.succ lo)) with (S (Z.to_nat lo)) by lia.
Qed.

Lemma filter_agree (l : list Z) (P Q : Z → bool) :
  (∀ j, j ∈ l → P j = Q j) → filter (λ j, P j = false) l = filter (λ j, Q j = false) l.
Proof.
  induction l as [|x l IH]; intros H; [done|]. rewrite !filter_cons, (H x), IH by (by left || (intros; apply H; by right)).
  done.
Qed.

Lemma filter_constant (l : list Z) (b : bool) : filter (λ _ : Z, b = false) l = if b then [] else l.
Proof. induction l as [|x l IH]; [by destruct b|]. rewrite filter_cons, IH. by destruct b. Qed.

Lemma take_range (l : list Z) lo hi :
  0 <= lo → lo <= hi → take (Z.to_nat lo) l ++ take (Z.to_nat (hi - lo)) (drop (Z.to_nat lo) l) = take (Z.to_nat hi) l.
Proof.
  intros H1 H2. rewrite take_drop_commute. rewrite <- (take_drop (Z.to_nat lo) (take (Z.to_nat hi) l)).
  rewrite take_take, Nat.min_l by lia. do 3 f_equal. lia.
Qed.

Lemma left_out_split lo mid n P :
  lo <= mid → mid <= n → left_out lo n P = left_out lo mid P ++ left_out mid n P.
Proof.
  intros H1 H2. unfold left_out. replace (n - lo) with ((mid - lo) + (n - mid)) by lia.
  rewrite seqZ_app, filter_app by lia. by replace (lo + (mid - lo)) with mid by lia.
Qed.

Lemma left_out_ext lo n P Q : (∀ j, lo <= j < n → P j = Q j) → left_out lo n P = left_out lo n Q.
Proof. intros H. apply filter_agree. intros j Hj%elem_of_seqZ. apply H. lia. Qed.

Lemma left_out_all lo n P : (∀ j, lo <= j < n → P j = false) → left_out lo n P = seqZ lo (n - lo).
Proof. intros H. rewrite (left_out_ext _ _ _ (λ _, false) H). apply (filter_constant _ false). Qed.

Lemma left_out_none lo n P : (∀ j, lo <= j < n → P j = true) → left_out lo n P = [].
Proof. intros H. rewrite (left_out_ext _ _ _ (λ _, true) H). apply (filter_constant _ true). Qed.

(** An increasing list is the positions that its complement leaves out. *)
Lemma increasing_unique (l k : list Z) : increasing l → increasing k → (∀ j, j ∈ l ↔ j ∈ k) → l = k.
Proof.
  revert k. induction l as [|x l IH]; intros k Hl Hk E.
  { destruct k as [|y k]; [done|]. destruct (not_elem_of_nil y). apply E. by left. }
  destruct k as [|y k]; [destruct (not_elem_of_nil x); apply E; by left|].
  inversion Hl as [|? ? Hl' Fx]; inversion Hk as [|? ? Hk' Fy]; subst. rewrite Forall_forall in Fx, Fy.
  assert (x = y) as ->.
  { pose proof (proj1 (E x) ltac:(by left)) as [|Hx]%elem_of_cons; [done|].
    pose proof (proj2 (E y) ltac:(by left)) as [|Hy]%elem_of_cons; [done|].
    specialize (Fy x Hx). specialize (Fx y Hy). lia. }
  f_equal. apply IH; [done..|]. intros j. split; intros Hj.
  - pose proof (proj1 (E j) ltac:(by right)) as [->|]%elem_of_cons; [|done]. specialize (Fx y Hj). lia.
  - pose proof (proj2 (E j) ltac:(by right)) as [->|]%elem_of_cons; [|done]. specialize (Fy y Hj). lia.
Qed.

Lemma increasing_filter (l : list Z) (P : Z → Prop) `{∀ j, Decision (P j)} : increasing l → increasing (filter P l).
Proof.
  induction 1 as [|x l Hl IH Hx]; [constructor|]. destruct (decide (P x)).
  - rewrite filter_cons_True by done. constructor; [done|]. rewrite Forall_forall in *. intros j Hj.
    apply list_elem_of_filter in Hj as [_ Hj]. by apply Hx.
  - by rewrite filter_cons_False.
Qed.

Lemma left_out_complement n P ks :
  increasing ks → (∀ j, 0 <= j < n → P j = false ↔ j ∈ ks) → (∀ j, j ∈ ks → 0 <= j < n) → left_out 0 n P = ks.
Proof.
  intros Hk HP Hb. apply increasing_unique; [apply increasing_filter, increasing_seqZ|done|].
  intros j. unfold left_out. rewrite list_elem_of_filter, elem_of_seqZ. split.
  - intros [H1 H2]. apply HP; [lia|done].
  - intros Hj. pose proof (Hb j Hj). split; [by apply HP|lia].
Qed.

(** ** The self check *)

Lemma foldM_app {A St} (f : A → St → option St) l1 l2 s : foldM f (l1 ++ l2) s = foldM f l1 s ≫= foldM f l2.
Proof. revert s. induction l1 as [|x l1 IH]; intros s; [done|]. simpl. destruct (f x s); simpl; [apply IH|done]. Qed.

Lemma erase_ranges_spec rs l lo :
  0 <= lo → ranges_ok lo rs → Forall (λ r, r.2 <= Calculate.len l) rs → lo <= Calculate.len l →
  Calculate.erase_ranges rs l =
    Some (take (Z.to_nat lo) l ++ select l (left_out lo (Calculate.len l) (λ j, memb j rs))).
Proof.
  intros Hlo Ho Hf Hl. unfold Calculate.erase_ranges. revert lo Hlo Ho Hl.
  induction rs as [|[b e] rs IH]; intros lo Hlo Ho Hl; simpl.
  - rewrite left_out_all by done. rewrite select_range by lia. f_equal.
    rewrite <- (take_drop (Z.to_nat lo) l) at 1. f_equal. symmetry. apply take_ge.
    rewrite length_drop. unfold Calculate.len in *. lia.
  - destruct Ho as (Hb & He & Ho). simpl in Hb, He, Ho. inversion Hf as [|? ? He' Hf']; subst. simpl in He'.
    rewrite foldM_app. rewrite (IH Hf' e) by (lia || (apply (ranges_ok_weaken (e + 1)); [lia|done])). simpl.
    set (tail := select _ _). assert (0 <= Calculate.len tail) by (unfold Calculate.len; lia).
    assert (length (take (Z.to_nat e) l) = Z.to_nat e) as Et by (rewrite length_take; unfold Calculate.len in *; lia).
    assert ((b <=? e) && (e <=? Calculate.len (take (Z.to_nat e) l ++ tail)) = true) as ->.
    { apply andb_true_iff. split; apply Z.leb_le; [lia|]. unfold Calculate.len. rewrite length_app, Et. lia. }
    simpl. f_equal. rewrite take_app_le by lia. rewrite take_take, Nat.min_l by lia.
    rewrite drop_app_ge, Et by lia. rewrite Nat.sub_diag, drop_0.
    rewrite (left_out_split lo b), (left_out_split b e) by lia. rewrite !select_app.
    rewrite (left_out_all lo b), (left_out_none b e).
    + rewrite select_range by lia. simpl. rewrite app_assoc, take_range by lia. f_equal.
      unfold tail. f_equal. apply left_out_ext. intros j Hj. simpl. by rewrite (proj2 (Z.ltb_ge j e)), andb_false_r by lia.
    + intros j Hj. apply (memb_mem j ((b, e) :: rs)), mem_cons. left. simpl. lia.
    + intros j Hj. apply not_true_iff_false. intros M. apply (memb_mem j ((b, e) :: rs)), mem_cons in M. revert M. simpl. intros [|M]; [lia|].
      apply (mem_ge (e + 1)) in M; [lia|done].
Qed.

Lemma insert_rows_spec l js lo :
  0 <= lo → increasing js → (∀ j, j ∈ js → lo <= j < Calculate.len l) →
  Calculate.insert_rows js l
    (take (Z.to_nat lo) l ++ select l (left_out lo (Calculate.len l) (λ j, bool_decide (j ∈ js)))) = Some l.
Proof.
  intros Hlo Hi. unfold Calculate.insert_rows. revert lo Hlo. induction Hi as [|i js Hi IH Hf]; intros lo Hlo Hb; simpl.
  - f_equal. destruct (Z.le_gt_cases lo (Calculate.len l)).
    + rewrite left_out_all, select_range, take_range by done || lia. apply take_ge. unfold Calculate.len. lia.
    + unfold left_out. rewrite seqZ_nil by lia. simpl. rewrite app_nil_r. apply take_ge. unfold Calculate.len in *. lia.
  - destruct (Hb i ltac:(by left)) as [Hi1 Hi2]. unfold Calculate.len in Hi2.
    destruct (lookup_lt_is_Some_2 l (Z.to_nat i)) as [x Ex]; [lia|]. rewrite Ex. simpl.
    assert (∀ j, j ∈ js → i < j) as Hf' by (by apply Forall_forall).
    rewrite (left_out_split lo i), (left_out_split i (i + 1)) by (unfold Calculate.len; lia). rewrite !select_app.
    rewrite (left_out_all lo i), (left_out_none i (i + 1)); [| |].
    2: { intros j Hj. apply bool_decide_eq_true_2, elem_of_cons. left. lia. }
    2: { intros j Hj. apply bool_decide_eq_false_2. intros [->|Hj']%elem_of_cons; [lia|]. specialize (Hf' j Hj'). lia. }
    rewrite select_range by (unfold Calculate.len; lia). simpl. rewrite app_assoc, take_range by lia.
    assert (length (take (Z.to_nat i) l) = Z.to_nat i) as Et by (rewrite length_take; lia).
    rewrite (proj2 (Z.leb_le _ _)) by (unfold Calculate.len; rewrite length_app, Et; lia). simpl.
    rewrite take_app_le, drop_app_ge, Et by lia. rewrite take_take, Nat.min_l by lia. rewrite Nat.sub_diag, drop_0.
    etransitivity; [|apply (IH (i + 1)); [lia|]].
    + f_equal. replace (Z.to_nat (i + 1)) with (S (Z.to_nat i)) by lia. rewrite (take_S_r l _ x) by done.
      rewrite <- app_assoc. simpl. do 3 f_equal. apply left_out_ext. intros j Hj. apply bool_decide_ext.
      rewrite elem_of_cons. intuition lia.
    + intros j Hj. specialize (Hf' j Hj). destruct (Hb j ltac:(by right)). lia.
Qed.

(** ** Alignments *)

Lemma memb_false_iff j l : memb j l = false ↔ ¬ mem j l.
Proof. by rewrite <- not_true_iff_false, memb_mem. Qed.

(** [ks] pairs the old and new positions of the rows that are neither deleted nor
    inserted. *)
Record alignment (prev next : list Z) (ks : list (Z * Z)) (D I : Z → Prop) : Prop := {
  al_old : increasing ks.*1;
  al_new : increasing ks.*2;
  al_row i j : (i, j) ∈ ks → 0 <= i ∧ 0 <= j ∧ ∃ r, prev !! Z.to_nat i = Some r ∧ next !! Z.to_nat j = Some r;
  al_deleted i : D i ↔ 0 <= i < Calculate.len prev ∧ i ∉ ks.*1;
  al_inserted j : I j ↔ 0 <= j < Calculate.len next ∧ j ∉ ks.*2
}.

Lemma lookup_len (l : list Z) i r : 0 <= i → l !! Z.to_nat i = Some r → i < Calculate.len l.
Proof. intros Hi H%lookup_lt_Some. unfold Calculate.len. lia. Qed.

Lemma alignment_select prev next ks D I : alignment prev next ks D I → select prev ks.*1 = select next ks.*2.
Proof.
  intros [_ _ Hr _ _]. induction ks as [|[i j] ks IH]; [done|].
  destruct (Hr i j ltac:(by left)) as (_ & _ & r & E1 & E2). unfold select in *. simpl. rewrite E1, E2. f_equal.
  apply IH. intros a b Hab. apply Hr. by right.
Qed.

Lemma alignment_old prev next ks D I (l : list range) :
  alignment prev next ks D I → (∀ i, D i ↔ mem i l) → left_out 0 (Calculate.len prev) (λ i, memb i l) = ks.*1.
Proof.
  intros [Ho _ Hr HD _] Hl. apply left_out_complement; [done| |].
  - intros i Hi. rewrite memb_false_iff, <- Hl, HD. split; [|tauto]. intros Hx. destruct (decide (i ∈ ks.*1)); [done|]. by destruct Hx.
  - intros i ([a b] & -> & Hin)%list_elem_of_fmap. destruct (Hr a b Hin) as (Ha & _ & r & E & _). simpl.
    pose proof (lookup_len _ _ _ Ha E). lia.
Qed.

Lemma alignment_new prev next ks D I (P : Z → bool) :
  alignment prev next ks D I → (∀ j, I j ↔ P j = true) → left_out 0 (Calculate.len next) P = ks.*2.
Proof.
  intros [_ Hn Hr _ HI] Hl. apply left_out_complement; [done| |].
  - intros j Hj. rewrite <- not_true_iff_false, <- Hl, HI. split; [|tauto]. intros Hx. destruct (decide (j ∈ ks.*2)); [done|]. by destruct Hx.
  - intros j ([a b] & -> & Hin)%list_elem_of_fmap. destruct (Hr a b Hin) as (_ & Hb & r & _ & E). simpl.
    pose proof (lookup_len _ _ _ Hb E). lia.
Qed.

Lemma self_check_aligned {S} `{IndexSetLaws S} (c : change_builder S) prev next ks :
  is_ok (deletions c) → is_ok (insertions c) → alignment prev next ks (has (deletions c)) (has (insertions c)) →
  Calculate.self_check c prev next = Some tt.
Proof.
  intros Hd Hi Ha. pose proof (alignment_select _ _ _ _ _ Ha) as Es.
  destruct (is_ok_ranges _ Hd) as [Sd _], (is_ok_ranges _ Hi) as [Si _]. unfold Calculate.self_check.
  assert (Forall (λ r : range, r.2 <= Calculate.len prev) (is_ranges (deletions c))) as Hf.
  { apply Forall_forall. intros r Hin. pose proof (ranges_ok_Forall_lo _ _ Sd) as Hlo. rewrite Forall_forall in Hlo.
    specialize (Hlo r Hin). destruct (proj1 (al_deleted _ _ _ _ _ Ha (r.2 - 1))) as [? _]; [|lia].
    apply Exists_exists. exists r. split; [done|]. unfold in_range. lia. }
  rewrite (erase_ranges_spec _ _ 0) by (done || unfold Calculate.len; lia). simpl.
  rewrite (alignment_old _ _ _ _ _ _ Ha), Es by done.
  rewrite <- (alignment_new _ _ _ _ _ (λ j, bool_decide (j ∈ elems (is_ranges (insertions c)))) Ha).
  2: { intros j. by rewrite bool_decide_eq_true, elem_of_elems. }
  change (select next ?x) with (take (Z.to_nat 0) next ++ select next x).
  rewrite insert_rows_spec; [|done|by eapply elems_increasing|].
  - simpl. by rewrite bool_decide_eq_true_2.
  - intros j Hj%elem_of_elems. apply (al_inserted _ _ _ _ _ Ha) in Hj. lia.
Qed.

(** * Matching the old and new rows

    What the first half of [calculate] establishes: which rows are in both lists,
    where, and which are deleted, removed or inserted. *)

Import Calculate.

(** Two sets with the same members below [j] have the same rank there. *)
Lemma rank_agree l l' j :
  ranges_ok 0 l → ranges_ok 0 l' → 0 <= j → (∀ k, 0 <= k < j → mem k l ↔ mem k l') → rank j l = rank j l'.
Proof.
  intros Hl Hl' Hj. revert j Hj. apply (natlike_ind (λ j, _ → _)).
  - intros _. by rewrite !(rank_below 0).
  - intros j Hj IH Hm. unfold Z.succ in *. rewrite !(rank_succ 0), IH by (done || intros; apply Hm; lia).
    by rewrite (memb_iff j l (mem j l') (memb j l')) by (rewrite ?memb_mem; auto with lia).
Qed.

Section matching.
Context {S : Type} `{IndexSetLaws S}.
Implicit Types (s : S) (rows : list RowInfo).

(** Adding the values of a list to a set, one by one. *)
Lemma add_list_spec {A} (f : A → Z) (l : list A) s :
  is_ok s → (∀ x, x ∈ l → 0 <= f x < npos) →
  yields is_ok (foldM (λ x s, is_add s (f x)) l s) (λ j, has s j ∨ j ∈ f <$> l).
Proof.
  revert s. induction l as [|x l IH]; intros s Hs Hl; simpl.
  { exists s. split; [done|]. split; [done|]. intros j. rewrite elem_of_nil. tauto. }
  destruct (is_add_law s (f x)) as (s' & -> & Hs' & Hm); [done|apply Hl; by left|]. simpl.
  destruct (IH s' Hs') as (t & -> & Ht & Hmt); [intros; apply Hl; by right|].
  exists t. split; [done|]. split; [done|]. intros j. rewrite Hmt, Hm, elem_of_cons. tauto.
Qed.

Lemma add_all_spec rows s :
  is_ok s → (∀ r, r ∈ rows → 0 <= tv_index r < npos) →
  yields is_ok (add_all rows s) (λ j, has s j ∨ j ∈ tv_index <$> rows).
Proof. apply add_list_spec. Qed.

(** ** The rows that are still alive *)

Lemma live_rows_spec prev i deleted d :
  is_ok d → 0 <= i → i + len prev < npos → (∀ j, has d j → j < i) → deleted = rk d i →
  ∃ old d', live_rows prev i deleted d = Some (old, d') ∧ is_ok d' ∧
    (∀ j, has d' j ↔ has d j ∨ i <= j ∧ prev !! Z.to_nat (j - i) = Some npos) ∧
    increasing (tv_index <$> old) ∧
    (∀ r, r ∈ old → i <= tv_index r ∧ prev !! Z.to_nat (tv_index r - i) = Some (row_index r) ∧ row_index r ≠ npos ∧
       shifted_tv_index r = tv_index r - rk d' (tv_index r)) ∧
    (∀ j x, i <= j → prev !! Z.to_nat (j - i) = Some x → x ≠ npos → j ∈ tv_index <$> old).
Proof.
  revert i deleted d. induction prev as [|x prev IH]; intros i deleted d Hd Hi Hb Hlt Hdel; unfold len in Hb; simpl in Hb.
  { exists [], d. split_and!; try done; [|constructor|by intros r ?%elem_of_nil]. intros j. rewrite lookup_nil. intuition done. }
  assert (∀ j, i < j → (x :: prev) !! Z.to_nat (j - i) = prev !! Z.to_nat (j - (i + 1))) as Hnext.
  { intros j Hj. replace (Z.to_nat (j - i)) with (Datatypes.S (Z.to_nat (j - (i + 1)))) by lia. done. }
  assert (∀ j, j = i → (x :: prev) !! Z.to_nat (j - i) = Some x) as Hhere.
  { intros j ->. by rewrite Z.sub_diag. }
  simpl. destruct (Z.eqb_spec x npos) as [->|Hx].
  - destruct (is_add_law d i Hd) as (d1 & -> & Hd1 & Hm1); [lia|]. simpl.
    destruct (IH (i + 1) (deleted + 1) d1) as (old & d' & -> & Hd' & Hm' & Hinc & Hold & Hall); clear IH.
    + done.
    + lia.
    + unfold len. lia.
    + intros j. rewrite Hm1. intros [->|Hj]; [lia|]. specialize (Hlt j Hj). lia.
    + destruct (is_ok_ranges _ Hd) as [Rd _], (is_ok_ranges _ Hd1) as [Rd1 _].
      unfold rk in *. rewrite (rank_added (is_ranges d) (is_ranges d1) Rd Rd1 i); [| |intros M; specialize (Hlt i M); lia|apply Hm1|lia]; [|lia].
      rewrite (proj2 (Z.ltb_lt i (i + 1))) by lia. rewrite (rank_succ 0) by done.
      rewrite memb_false; [|intros M; specialize (Hlt i M); lia]. lia.
    + exists old, d'. split; [done|]. split; [done|]. split; [|split; [done|split]].
      * intros j. rewrite Hm', Hm1. split.
        -- intros [[->|Hj]|[Hj Hl]]; [right; by rewrite Hhere|by left|right]. rewrite Hnext by lia. split; [lia|done].
        -- intros [Hj|[Hj Hl]]; [by left; right|]. destruct (decide (j = i)) as [->|]; [by left; left|].
           right. split; [lia|]. by rewrite <- Hnext by lia.
      * intros r Hr. destruct (Hold r Hr) as (H1 & H2 & H3 & H4). split_and!; [lia| |done|done]. by rewrite Hnext by lia.
      * intros j y Hj Hl Hy. destruct (decide (j = i)) as [->|]; [rewrite Hhere in Hl; congruence|].
        apply (Hall j y); [lia| |done]. by rewrite <- Hnext by lia.
  - destruct (IH (i + 1) deleted d) as (old & d' & -> & Hd' & Hm' & Hinc & Hold & Hall); clear IH.
    + done.
    + lia.
    + unfold len. lia.
    + intros j Hj. specialize (Hlt j Hj). lia.
    + destruct (is_ok_ranges _ Hd) as [Rd _]. unfold rk in *. rewrite (rank_succ 0) by done.
      rewrite memb_false; [lia|intros M; specialize (Hlt i M); lia].
    + simpl. exists (Row x npos i (i ⊖ deleted) :: old), d'. split; [done|]. split; [done|]. split; [|split; [|split]].
      * intros j. rewrite Hm'. split.
        -- intros [Hj|[Hj Hl]]; [by left|right]. rewrite Hnext by lia. split; [lia|done].
        -- intros [Hj|[Hj Hl]]; [by left|]. destruct (decide (j = i)) as [->|]; [rewrite Hhere in Hl; congruence|].
           right. split; [lia|]. by rewrite <- Hnext by lia.
      * rewrite fmap_cons. constructor; [done|]. apply Forall_fmap, Forall_forall. intros r Hr.
        destruct (Hold r Hr) as (H1 & _). simpl. lia.
      * intros r [->|Hr]%elem_of_cons; simpl.
        -- split_and!; [lia|by rewrite Hhere|done|]. destruct (is_ok_ranges _ Hd) as [Rd _], (is_ok_ranges _ Hd') as [Rd' _].
           assert (rk d' i = rk d i) as ->.
           { unfold rk. apply rank_agree; [done..|]. intros k Hk. unfold has in Hm'. rewrite Hm'. intuition lia. }
           pose proof (rank_le 0 i _ Rd ltac:(lia)). pose proof (rank_nonneg i (is_ranges d)). unfold rk in *. wsimp. lia.
        -- destruct (Hold r Hr) as (H1 & H2 & H3 & H4). split_and!; [lia| |done|done]. by rewrite Hnext by lia.
      * intros j y Hj Hl Hy. rewrite fmap_cons, elem_of_cons. destruct (decide (j = i)) as [->|]; [by left|right].
        apply (Hall j y); [lia| |done]. by rewrite <- Hnext by lia.
Qed.

(** ** The rows in both lists *)

Definition paired (p : RowInfo * RowInfo) : RowInfo :=
  Row (row_index p.2) (tv_index p.1) (tv_index p.2) (shifted_tv_index p.1).

(** The outcome of [match_rows]: [ps] are the rows in both lists, [gone] the old
    rows that are left over and [fresh] the new ones. *)
Record matched (old new l : list RowInfo) (ps : list (RowInfo * RowInfo)) (gone fresh : list RowInfo) : Prop := {
  ma_old : old ≡ₚ ps.*1 ++ gone;
  ma_new : new ≡ₚ ps.*2 ++ fresh;
  ma_list : l ≡ₚ (paired <$> ps) ++ fresh;
  ma_row o n : (o, n) ∈ ps → row_index o = row_index n;
  ma_max g f : g ∈ gone → f ∈ fresh → row_index g ≠ row_index f
}.

Definition rows_sorted : list RowInfo → Prop := StronglySorted (λ x y, by_row y x = false).

Lemma rows_sorted_cons r rows : rows_sorted (r :: rows) → rows_sorted rows ∧ ∀ x, x ∈ rows → row_index r <= row_index x.
Proof.
  intros H'. inversion H' as [|? ? H1 H2]; subst. split; [done|]. intros x Hx. rewrite Forall_forall in H2.
  specialize (H2 x Hx). by apply Z.ltb_ge in H2.
Qed.

Definition in_bounds (r : RowInfo) : Prop := 0 <= tv_index r < npos.

Lemma match_rows_spec old new removed ins :
  rows_sorted old → rows_sorted new → is_ok removed → is_ok ins →
  (∀ r, r ∈ old → in_bounds r) → (∀ r, r ∈ new → in_bounds r) →
  ∃ l removed' ins' ps gone fresh, match_rows old new removed ins = Some (l, removed', ins') ∧
    is_ok removed' ∧ is_ok ins' ∧ matched old new l ps gone fresh ∧
    (∀ j, has removed' j ↔ has removed j ∨ j ∈ tv_index <$> gone) ∧
    (∀ j, has ins' j ↔ has ins j ∨ j ∈ tv_index <$> fresh).
Proof.
  revert new removed ins. induction old as [|o old IHo]; intros new removed ins So Sn Hr Hi Bo Bn.
  { destruct (add_all_spec new ins Hi Bn) as (ins' & E & Hi' & Hm).
    exists new, removed, ins', [], [], new. split; [destruct new; cbn [match_rows]; change (add_all [] removed) with (Some removed); cbn [mbind option_bind]; by rewrite E|].
    split_and!; [done|done| |intros j; rewrite elem_of_nil; tauto|done]. by constructor; try by intros ? ? ?%elem_of_nil. }
  revert removed ins Hr Hi. induction new as [|n new IHn]; intros removed ins Hr Hi.
  { destruct (add_all_spec (o :: old) removed Hr Bo) as (r' & E & Hr' & Hm).
    exists [], r', ins, [], (o :: old), []. split; [by cbn [match_rows]; rewrite E|].
    split_and!; [done|done| |done|intros j; rewrite elem_of_nil; tauto]. constructor; [done|done|done|by intros ? ? ?%elem_of_nil|by intros ? ? _ ?%elem_of_nil]. }
  destruct (rows_sorted_cons _ _ So) as [So' Lo], (rows_sorted_cons _ _ Sn) as [Sn' Ln].
  cbn [match_rows]. destruct (Z.eqb_spec (row_index o) (row_index n)) as [Er|Hne].
  - destruct (IHo new removed ins) as (l & r' & i' & ps & gone & fresh & -> & Hr' & Hi' & [M1 M2 M3 M4 M5] & Hg & Hf);
      [done..|intros; apply Bo; by right|intros; apply Bn; by right|]. simpl.
    exists (paired (o, n) :: l), r', i', ((o, n) :: ps), gone, fresh. split; [done|]. split_and!; try done.
    constructor; simpl; [by rewrite M1|by rewrite M2|by rewrite M3| |done]. intros a b [E|Hab]%elem_of_cons; [by injection E as -> ->|by apply M4].
  - destruct (Z.ltb_spec (row_index o) (row_index n)) as [Hlt|Hge].
    + destruct (is_add_law removed (tv_index o) Hr) as (r1 & -> & Hr1 & Hm1); [apply Bo; by left|]. simpl.
      destruct (IHo (n :: new) r1 ins) as (l & r' & i' & ps & gone & fresh & -> & Hr' & Hi' & [M1 M2 M3 M4 M5] & Hg & Hf);
        [done..|intros; apply Bo; by right|done|].
      exists l, r', i', ps, (o :: gone), fresh. split; [done|]. split_and!; try done.
      * constructor; try done; [by rewrite M1, Permutation_middle|].
        intros g f [->|Hg']%elem_of_cons Hf'; [|by apply M5]. assert (f ∈ n :: new) as [->|Hin]%elem_of_cons.
        { rewrite M2. apply elem_of_app. by right. } { lia. } { specialize (Ln f Hin). lia. }
      * intros j. rewrite Hg, Hm1, fmap_cons, elem_of_cons. tauto.
    + destruct (is_add_law ins (tv_index n) Hi) as (i1 & -> & Hi1 & Hm1); [apply Bn; by left|]. simpl.
      destruct (IHn Sn') with (removed := removed) (ins := i1)
        as (l & r' & i' & ps & gone & fresh & E & Hr' & Hi' & [M1 M2 M3 M4 M5] & Hg & Hf);
        [intros; apply Bn; by right|done|done|]. cbn [match_rows] in E. rewrite E. simpl.
      exists (n :: l), r', i', ps, gone, (n :: fresh). split; [done|]. split_and!; try done.
      * constructor; try done; [by rewrite M2, Permutation_middle|by rewrite M3, Permutation_middle|].
        intros g f Hg' [->|Hf']%elem_of_cons; [|by apply M5]. assert (g ∈ o :: old) as [->|Hin]%elem_of_cons.
        { rewrite M1. apply elem_of_app. by right. } { lia. } { specialize (Lo g Hin). lia. }
      * intros j. rewrite Hf, Hm1, fmap_cons, elem_of_cons. tauto.
Qed.

(** ** Sorting *)

Lemma weak_order_key {A} (f : A → Z) : weak_order (λ x y, f x <? f y).
Proof. split; [intros x y z ?%Z.ltb_ge ?%Z.ltb_ge; apply Z.ltb_ge; lia|intros x y ?%Z.ltb_lt; apply Z.ltb_ge; lia]. Qed.

(** Sorting by a key without duplicates makes the keys increase. *)
Lemma sorted_increasing {A} (R : A → A → Prop) (f : A → Z) (l : list A) :
  (∀ x y, R x y → f x <= f y) → StronglySorted R l → NoDup (f <$> l) → increasing (f <$> l).
Proof.
  intros HR. induction 1 as [|x l Hl IH Hx]; [constructor|]. rewrite fmap_cons, NoDup_cons.
  intros [Hn Hnd]. constructor; [by apply IH|].
  apply Forall_fmap, Forall_forall. intros y Hy. rewrite Forall_forall in Hx. specialize (HR _ _ (Hx y Hy)).
  simpl. destruct (decide (f x = f y)) as [E|]; [|lia]. destruct Hn. rewrite E. by apply list_elem_of_fmap_2.
Qed.

Lemma increasing_NoDup (l : list Z) : increasing l → NoDup l.
Proof.
  induction 1 as [|x l _ IH Hx]; constructor; [|done]. intros Hin. rewrite Forall_forall in Hx. specialize (Hx x Hin). lia.
Qed.

(** ** The new rows *)

Lemma all_new_elem next r :
  r ∈ all_new_rows next → prev_tv_index r = npos ∧ 0 <= tv_index r < len next ∧ next !! Z.to_nat (tv_index r) = Some (row_index r).
Proof.
  intros (i & x & -> & Hx)%elem_of_lookup_imap. simpl. rewrite Nat2Z.id.
  apply lookup_lt_Some in Hx as Hl. unfold len. split_and!; [done|lia|lia|done].
Qed.

Lemma all_new_tv next : tv_index <$> all_new_rows next = seqZ 0 (len next).
Proof.
  unfold all_new_rows, len, seqZ. rewrite fmap_imap, Nat2Z.id.
  etransitivity; [apply (imap_seq_0 next Z.of_nat)|]. apply list_fmap_ext. intros _ i _. lia.
Qed.

(** ** The outcome *)

(** The rows [M] that are in both lists, ordered by their new position; [D] the
    deleted, [R] the removed and [I] the inserted positions. *)
Record matching (prev next : list Z) (M : list RowInfo) (D R I : S) : Prop := {
  mt_D_ok : is_ok D; mt_R_ok : is_ok R; mt_I_ok : is_ok I;
  mt_tv : increasing (tv_index <$> M);
  mt_prev : NoDup (prev_tv_index <$> M);
  mt_row r : r ∈ M → 0 <= prev_tv_index r ∧ 0 <= tv_index r ∧ prev !! Z.to_nat (prev_tv_index r) = Some (row_index r) ∧
    next !! Z.to_nat (tv_index r) = Some (row_index r) ∧ row_index r ≠ npos ∧
    shifted_tv_index r = prev_tv_index r - rk D (prev_tv_index r);
  mt_D i : has D i ↔ 0 <= i ∧ prev !! Z.to_nat i = Some npos;
  mt_R i : has R i ↔ 0 <= i < len prev ∧ ¬ has D i ∧ i ∉ prev_tv_index <$> M;
  mt_I j : has I j ↔ 0 <= j < len next ∧ j ∉ tv_index <$> M;
  mt_max i j : has R i → has I j → prev !! Z.to_nat i ≠ next !! Z.to_nat j
}.

Definition present (l : list RowInfo) : list RowInfo := filter (λ r, prev_tv_index r ≠ npos) l.

Lemma present_matched old new l ps gone fresh :
  matched old new l ps gone fresh → (∀ r, r ∈ old → in_bounds r) → (∀ r, r ∈ new → prev_tv_index r = npos) →
  present l ≡ₚ paired <$> ps.
Proof.
  intros [M1 M2 M3 _ _] Ho Hn. unfold present. rewrite M3, filter_app.
  assert (∀ k : list RowInfo, (∀ r, r ∈ k → prev_tv_index r ≠ npos) → filter (λ r, prev_tv_index r ≠ npos) k = k) as Hall.
  { induction k as [|x k IH]; intros Hk; [done|]. rewrite filter_cons_True by (apply Hk; by left).
    rewrite IH; [done|]. intros r Hr. apply Hk. by right. }
  assert (∀ k : list RowInfo, (∀ r, r ∈ k → prev_tv_index r = npos) → filter (λ r, prev_tv_index r ≠ npos) k = []) as Hno.
  { induction k as [|x k IH]; intros Hk; [done|]. rewrite filter_cons_False by (intros Hx; apply Hx, Hk; by left).
    apply IH. intros r Hr. apply Hk. by right. }
  rewrite Hall, Hno, app_nil_r; [done| |].
  - intros r Hr. apply Hn. rewrite M2. apply elem_of_app. by right.
  - intros r ([o n] & -> & Hp)%list_elem_of_fmap. simpl. assert (o ∈ old) as Hin.
    { rewrite M1. apply elem_of_app. left. by apply (list_elem_of_fmap_2 fst _ (o, n)). }
    specialize (Ho o Hin). unfold in_bounds in Ho. lia.
Qed.

Lemma rk_new j : rk is_new j = 0.
Proof. destruct is_new_ok as [_ E]. unfold rk. by rewrite E. Qed.

Lemma has_new j : ¬ has is_new j.
Proof. destruct is_new_ok as [_ E]. unfold has. rewrite E. by intros ?%mem_nil. Qed.

(** What the pairs say, when [old] and [new] list all the rows. *)
Lemma matching_intro prev next old new l ps gone fresh D R I M :
  is_ok D → is_ok R → is_ok I →
  (∀ j, has D j ↔ 0 <= j ∧ prev !! Z.to_nat j = Some npos) →
  NoDup (tv_index <$> old) →
  (∀ r, r ∈ old → 0 <= tv_index r ∧ prev !! Z.to_nat (tv_index r) = Some (row_index r) ∧ row_index r ≠ npos ∧
     shifted_tv_index r = tv_index r - rk D (tv_index r)) →
  (∀ j x, 0 <= j → prev !! Z.to_nat j = Some x → x ≠ npos → j ∈ tv_index <$> old) →
  new ≡ₚ all_new_rows next → matched old new l ps gone fresh →
  (∀ j, has R j ↔ j ∈ tv_index <$> gone) → (∀ j, has I j ↔ j ∈ tv_index <$> fresh) →
  M ≡ₚ paired <$> ps → increasing (tv_index <$> M) →
  matching prev next M D R I.
Proof.
  intros HD HR HI mD Iold Hold Hall Hnew [M1 M2 M3 M4 M5] mR mI HM IM.
  assert (tv_index <$> M ≡ₚ tv_index <$> ps.*2) as Etv.
  { rewrite HM, <- !list_fmap_compose. done. }
  assert (prev_tv_index <$> M ≡ₚ tv_index <$> ps.*1) as Epv.
  { rewrite HM, <- !list_fmap_compose. done. }
  assert (tv_index <$> old ≡ₚ (tv_index <$> ps.*1) ++ (tv_index <$> gone)) as Eold by (by rewrite M1, fmap_app).
  assert (seqZ 0 (len next) ≡ₚ (tv_index <$> ps.*2) ++ (tv_index <$> fresh)) as Enew.
  { by rewrite <- all_new_tv, <- Hnew, M2, fmap_app. }
  assert (NoDup ((tv_index <$> ps.*1) ++ (tv_index <$> gone))) as N1 by (by rewrite <- Eold).
  assert (NoDup ((tv_index <$> ps.*2) ++ (tv_index <$> fresh))) as N2 by (rewrite <- Enew; apply NoDup_seqZ).
  apply NoDup_app in N1 as (N1 & Dis1 & _), N2 as (_ & Dis2 & _).
  assert (∀ j, j ∈ tv_index <$> old ↔ 0 <= j < len prev ∧ ¬ has D j) as Eo.
  { intros j. rewrite mD. split.
    - intros (r & -> & Hr)%list_elem_of_fmap. destruct (Hold r Hr) as (H1 & H2 & H3 & _).
      split; [split; [done|by eapply lookup_len]|]. intros [_ E]. congruence.
    - intros [Hj Hn]. unfold len in Hj. destruct (lookup_lt_is_Some_2 prev (Z.to_nat j)) as [x Ex]; [lia|].
      apply (Hall j x); [lia|done|]. intros ->. apply Hn. split; [lia|done]. }
  constructor; try done.
  - by rewrite Epv.
  - intros r Hr. rewrite HM in Hr. apply list_elem_of_fmap in Hr as ([o n] & -> & Hp). simpl.
    destruct (Hold o) as (H1 & H2 & H3 & H4). { rewrite M1. apply elem_of_app. left. by apply (list_elem_of_fmap_2 fst _ (o, n)). }
    destruct (all_new_elem next n) as (_ & H6 & H7).
    { rewrite <- Hnew, M2. apply elem_of_app. left. by apply (list_elem_of_fmap_2 snd _ (o, n)). }
    rewrite <- (M4 o n Hp) in *. split_and!; [done|lia|done..].
  - intros i. pose proof (Eo i) as Hi. rewrite Eold, elem_of_app in Hi. rewrite mR, Epv.
    pose proof (Dis1 i). tauto.
  - intros j. rewrite mI, Etv. split.
    + intros Hj. split; [|intros Hj'; by apply (Dis2 j)]. assert (j ∈ seqZ 0 (len next)) as Hs%elem_of_seqZ; [|lia].
      rewrite Enew. apply elem_of_app. by right.
    + intros [Hj Hn]. assert (j ∈ seqZ 0 (len next)) as Hs by (apply elem_of_seqZ; lia).
      rewrite Enew, elem_of_app in Hs. tauto.
  - intros i j (g & -> & Hg)%mR%list_elem_of_fmap (f & -> & Hf)%mI%list_elem_of_fmap.
    destruct (Hold g) as (_ & -> & _). { rewrite M1. apply elem_of_app. by right. }
    destruct (all_new_elem next f) as (_ & _ & ->). { rewrite <- Hnew, M2. apply elem_of_app. by right. }
    intros E. injection E as E. by apply (M5 g f).
Qed.

Lemma matching_found `{!Sorts, !SortLaws} prev next :
  len prev < npos → len next < npos →
  ∃ old D l R I, live_rows prev 0 0 is_new = Some (old, D) ∧
    match_rows (sort_by by_row old) (sort_by by_row (all_new_rows next)) is_new is_new = Some (l, R, I) ∧
    matching prev next (sort_by by_tv (present l)) D R I.
Proof.
  intros Hp Hn. destruct is_new_ok as [Hnew _].
  destruct (live_rows_spec prev 0 0 is_new) as (old & D & E1 & HD & mD & Iold & Hold & Hall);
    [done|done|lia|intros j []%has_new|by rewrite rk_new|].
  assert (∀ r, r ∈ sort_by by_row old → in_bounds r) as Bo.
  { intros r Hr. rewrite sort_by_perm in Hr. destruct (Hold r Hr) as (L1 & L2 & _). rewrite Z.sub_0_r in L2.
    pose proof (lookup_len _ _ _ L1 L2). unfold in_bounds, len in *. lia. }
  assert (∀ r, r ∈ sort_by by_row (all_new_rows next) → in_bounds r ∧ prev_tv_index r = npos) as Bn.
  { intros r Hr. rewrite sort_by_perm in Hr. destruct (all_new_elem next r Hr) as (L1 & L2 & _). split; [|done].
    unfold in_bounds, len in *. lia. }
  destruct (match_rows_spec (sort_by by_row old) (sort_by by_row (all_new_rows next)) is_new is_new)
    as (l & R & I & ps & gone & fresh & E2 & HR & HI & HM & mR & mI);
    [by apply sort_by_sorted, weak_order_key|by apply sort_by_sorted, weak_order_key|done|done|done|intros; by apply Bn|].
  exists old, D, l, R, I. split; [done|]. split; [done|].
  pose proof (present_matched _ _ _ _ _ _ HM Bo (λ r Hr, proj2 (Bn r Hr))) as Ep.
  apply (matching_intro prev next (sort_by by_row old) (sort_by by_row (all_new_rows next)) l ps gone fresh);
    try done.
  - intros j. rewrite mD, Z.sub_0_r. pose proof (has_new j). tauto.
  - rewrite sort_by_perm. by apply increasing_NoDup.
  - intros r Hr. rewrite sort_by_perm in Hr. destruct (Hold r Hr) as (L1 & L2 & L3 & L4). by rewrite Z.sub_0_r in L2.
  - intros j x Hj Hx Hne. rewrite sort_by_perm. apply (Hall j x); [done|by rewrite Z.sub_0_r|done].
  - apply sort_by_perm.
  - intros j. rewrite mR. pose proof (has_new j). tauto.
  - intros j. rewrite mI. pose proof (has_new j). tauto.
  - by rewrite sort_by_perm.
  - apply (sorted_increasing (λ x y, by_tv y x = false)); [by intros x y ?%Z.ltb_ge|apply sort_by_sorted, weak_order_key|].
    rewrite sort_by_perm, Ep, <- list_fmap_compose. destruct HM as [_ M2 _ _ _].
    assert (NoDup ((tv_index <$> ps.*2) ++ (tv_index <$> fresh))) as N2.
    { rewrite <- fmap_app, <- M2, sort_by_perm, all_new_tv. apply NoDup_seqZ. }
    apply NoDup_app in N2 as [N2 _]. by rewrite <- list_fmap_compose in N2.
Qed.
End matching.
