(* ===== verification/SortedMoves.v ===== *)
(** * The longest common subsequence calculator

    Whatever matches it chooses, they are blocks of equal rows, in order, and
    within the range being searched; its assertions hold and its recursion ends. *)

From Stdlib Require Import Sorted.
From S2P Require Import Prelude RangeSet IndexWalk IndexSetInterface ChangeBuilder ChangeCalculation RowMatching.

Import Calculate.

(** ** Lexicographic order *)

Lemma pair_lt_spec a b c d : pair_lt a b c d = true ↔ a < c ∨ (a = c ∧ b < d).
Proof. unfold pair_lt. lia. Qed.

Lemma pair_lt_false a b c d : pair_lt a b c d = false ↔ c < a ∨ (c = a ∧ d <= b).
Proof. rewrite <- not_true_iff_false, pair_lt_spec. lia. Qed.

Lemma weak_order_pair {A} (f g : A → Z) : weak_order (λ x y, pair_lt (f x) (g x) (f y) (g y)).
Proof.
  split; [intros x y z|intros x y]; rewrite ?pair_lt_spec, ?pair_lt_false; lia.
Qed.

Lemma sorted_suffix {A} (R : A → A → Prop) l1 l2 : StronglySorted R (l1 ++ l2) → StronglySorted R l2.
Proof. induction l1 as [|x l1 IH]; [done|]. intros Hs. inversion Hs. by apply IH. Qed.

(** ** Blocks of equal rows *)

Section lcs.
Context {S : Type} `{IndexSetLaws S}.
Variables (modified : S) (a : list LcsRow) (rows : list RowInfo) (b : list LcsRow).
Definition eq_rows (i j : Z) : Prop :=
  ∃ x r, a !! Z.to_nat i = Some x ∧ rows !! Z.to_nat j = Some r ∧ l_row_index x = row_index r.

Definition block (i j n : Z) : Prop := ∀ k, 0 <= k < n → eq_rows (i + k) (j + k).

(** Matches in order, from (i, j) to (e1, e2). *)
Fixpoint chain (i j : Z) (ms : list Match) (e1 e2 : Z) : Prop :=
  match ms with
  | [] => i <= e1 ∧ j <= e2
  | m :: ms => i <= m_i m ∧ j <= m_j m ∧ 0 <= m_size m ∧ block (m_i m) (m_j m) (m_size m) ∧
               chain (m_i m + m_size m) (m_j m + m_size m) ms e1 e2
  end.

Lemma chain_weaken i j i' j' ms e1 e2 : i' <= i → j' <= j → chain i j ms e1 e2 → chain i' j' ms e1 e2.
Proof. destruct ms; simpl; intuition lia. Qed.

Lemma chain_le i j ms e1 e2 : chain i j ms e1 e2 → i <= e1 ∧ j <= e2.
Proof. revert i j. induction ms as [|m ms IH]; simpl; intros i j; [done|]. intros (?&?&?&?&?%IH). lia. Qed.

Lemma chain_app i j ms ms' x y e1 e2 : chain i j ms x y → chain x y ms' e1 e2 → chain i j (ms ++ ms') e1 e2.
Proof.
  revert i j. induction ms as [|m ms IH]; simpl; intros i j.
  - intros [??]. by apply chain_weaken.
  - intros (?&?&?&?&?) ?. split_and!; auto.
Qed.

Hypothesis modified_ok : is_ok modified.
Hypothesis len_small : len a < npos ∧ len rows < npos.
Hypothesis a_rows : ∀ x, x ∈ a → ∃ j r, rows !! j = Some r ∧ row_index r = l_row_index x.
Hypothesis b_sorted : StronglySorted (λ x y, by_row_tv y x = false) b.
Hypothesis b_rows : ∀ x, x ∈ b ↔ ∃ j r, rows !! j = Some r ∧ x = MkLcsRow (row_index r) (Z.of_nat j).

(** ** The positions of a row in [b] *)

Lemma b_positions_spec (l : list LcsRow) ai begin2 end2 j :
  j ∈ b_positions l ai begin2 end2 → begin2 <= j < end2 ∧ MkLcsRow ai j ∈ l.
Proof.
  induction l as [|x l IH]; simpl; [by intros ?%elem_of_nil|].
  destruct (Z.eqb_spec (l_row_index x) ai) as [E|]; simpl; [|by intros ?%elem_of_nil].
  destruct (Z.ltb_spec (l_tv_index x) begin2); [intros [? ?]%IH; split; [done|by right]|].
  destruct (Z.leb_spec end2 (l_tv_index x)); [by intros ?%elem_of_nil|].
  intros [->|[? ?]%IH]%elem_of_cons; [|split; [done|by right]]. split; [lia|]. apply elem_of_cons. left. by destruct x; simpl in *; subst.
Qed.

Lemma b_matches_spec i begin2 end2 :
  0 <= i < len a → 0 <= begin2 →
  ∃ js, b_matches a b i begin2 end2 = Some js ∧ ∀ j, j ∈ js → begin2 <= j < end2 ∧ eq_rows i j.
Proof using a_rows b_sorted b_rows.
  intros Hi H2. unfold b_matches, len in *. destruct (lookup_lt_is_Some_2 a (Z.to_nat i)) as [x Ex]; [lia|].
  rewrite Ex. simpl. destruct (a_rows x) as (j0 & r0 & E0 & Er0); [by eapply list_elem_of_lookup_2|].
  assert (MkLcsRow (l_row_index x) (Z.of_nat j0) ∈ b) as Hb by (apply b_rows; exists j0, r0; by rewrite Er0).
  destruct (find_if_spec (λ y, negb (l_row_index y <? l_row_index x)) b)
    as [[_ Hn]|(l1 & y & l2 & Eb & -> & Hl1 & Hy)].
  { rewrite Forall_forall in Hn. specialize (Hn _ Hb). simpl in Hn. rewrite Z.ltb_irrefl in Hn. done. }
  rewrite Eb, lookup_middle. simpl. assert (l_row_index y = l_row_index x) as Ey.
  { apply negb_true_iff, Z.ltb_ge in Hy. rewrite Eb, elem_of_app, elem_of_cons in Hb. destruct Hb as [Hb|[Hb|Hb]].
    - rewrite Forall_forall in Hl1. specialize (Hl1 _ Hb). simpl in Hl1. by rewrite Z.ltb_irrefl in Hl1.
    - by rewrite <- Hb.
    - rewrite Eb in b_sorted. apply sorted_suffix in b_sorted as Hs. inversion Hs as [|? ? _ Hs']; subst.
      rewrite Forall_forall in Hs'. specialize (Hs' _ Hb). unfold by_row_tv in Hs'. apply pair_lt_false in Hs'. simpl in Hs'. lia. }
  rewrite (proj2 (Z.eqb_eq _ _) Ey), drop_app_length. eexists. split; [done|].
  intros j Hj. destruct (b_positions_spec _ _ _ _ _ Hj) as [Hj1 Hj2]. split; [done|].
  assert (MkLcsRow (l_row_index x) j ∈ b) as (k & r & Er & E)%b_rows by (rewrite Eb; apply elem_of_app; by right).
  injection E as Erow ->. exists x, r. rewrite Nat2Z.id. by split_and!.
Qed.

(** ** One search *)

Section search.
Variables (begin1 end1 begin2 end2 : Z).
Hypothesis range1 : 0 <= begin1 ∧ begin1 <= end1 ∧ end1 <= len a.
Hypothesis range2 : 0 <= begin2 ∧ begin2 <= end2 ∧ end2 <= len rows.

(** A block that ends at [a[i]] and [b[j]]. *)
Definition ending (i : Z) (e : Z * Z) : Prop :=
  1 <= e.2 ∧ begin1 <= i - e.2 + 1 ∧ begin2 <= e.1 - e.2 + 1 ∧ e.1 < end2 ∧ block (i - e.2 + 1) (e.1 - e.2 + 1) e.2.

Definition good (m : Match) : Prop :=
  begin1 <= m_i m ∧ m_i m + m_size m <= end1 ∧ begin2 <= m_j m ∧ m_j m + m_size m <= end2 ∧ 0 <= m_size m ∧
  block (m_i m) (m_j m) (m_size m).

Lemma block_length_spec prev i j :
  Forall (ending (i - 1)) prev → begin1 <= i < end1 → begin2 <= j < end2 → eq_rows i j → ending i (j, block_length prev j).
Proof using len_small range1 range2.
  intros Hp Hi Hj He. induction Hp as [|[pj n] prev (H1 & H2 & H3 & H4 & H5) _ IH]; simpl.
  - repeat split; simpl; try lia. intros k Hk. replace (i - 1 + 1 + k) with i by lia. by replace (j - 1 + 1 + k) with j by lia.
  - simpl in *. destruct (Z.eqb_spec (pj ⊕ 1) j) as [E|]; [|done]. rewrite wadd_small in E by lia. subst j.
    rewrite wadd_small by lia. repeat split; simpl; try lia. intros k Hk.
    destruct (decide (k = n)) as [->|].
    + replace (i - (n + 1) + 1 + n) with i by lia. by replace (pj + 1 - (n + 1) + 1 + n) with (pj + 1) by lia.
    + replace (i - (n + 1) + 1 + k) with (i - 1 - n + 1 + k) by lia.
      replace (pj + 1 - (n + 1) + 1 + k) with (pj - n + 1 + k) by lia. apply H5. lia.
Qed.

(** The candidate block improves the best one, or not. *)
Lemma ending_good i j n k : ending i (j, n) → i < end1 → good (MkMatch (i ⊖ n ⊕ 1) (j ⊖ n ⊕ 1) n k).
Proof using len_small range1 range2.
  intros (H1 & H2 & H3 & H4 & H5) Hi. simpl in *.
  assert (∀ x, 0 <= x - n + 1 → x < npos → x ⊖ n ⊕ 1 = x - n + 1) as Hw.
  { intros x Hx Hx'. unfold wadd, wsub. rewrite wrap_add_l. apply wrap_small. lia. }
  unfold good. simpl. rewrite !Hw by lia. split_and!; try lia. done.
Qed.

Lemma consider_spec prev i j cur best :
  Forall (ending (i - 1)) prev → begin1 <= i < end1 → begin2 <= j < end2 → eq_rows i j →
  Forall (ending i) cur → good best →
  ∃ st, consider modified begin1 end1 begin2 end2 i prev j (cur, best) = Some st ∧ Forall (ending i) st.1 ∧ good st.2.
Proof using modified_ok len_small range1 range2.
  intros Hp Hi Hj He Hc Hb. unfold consider. pose proof (block_length_spec prev i j Hp Hi Hj He) as Hn.
  set (n := block_length prev j) in *.
  match goal with |- context [?m ≫= _] => assert (∃ best', m = Some best' ∧ good best') as (best' & -> & Hb') end.
  { destruct (m_size best <? n); [eexists; split; [done|by apply ending_good; lia || done]|].
    destruct (n =? m_size best); [|by eexists].
    assert (∃ k, (if m_modified best =? npos then is_count modified (m_j best ⊖ n ⊕ 1) (m_j best ⊕ 1)
                  else Some (m_modified best)) = Some k) as [k ->].
    { destruct (_ =? _); [by apply is_count_law|by eexists]. }
    simpl. destruct (is_count_law modified (j ⊖ n ⊕ 1) (j ⊕ 1) modified_ok) as [k' ->]. simpl. eexists. split; [done|].
    destruct (k' <? k); [by apply ending_good; lia || done|done]. }
  simpl. destruct Hb' as (B1 & B2 & B3 & B4 & B5 & B6). rewrite !wadd_small by lia.
  rewrite !(proj2 (Z.leb_le _ _)) by lia. simpl. eexists. split; [done|]. simpl.
  split; [|by split_and!]. apply Forall_app. split; [done|by constructor].
Qed.

Lemma find_longest_match_spec :
  ∃ m, find_longest_match modified a b begin1 end1 begin2 end2 = Some m ∧ good m.
Proof using modified_ok len_small range1 range2 a_rows b_sorted b_rows.
  unfold find_longest_match.
  edestruct (iter_n_rule (λ (k : nat) (st : list (Z * Z) * Match), Forall (ending (Z.of_nat k - 1)) st.1 ∧ good st.2))
    as ([cur best] & -> & _ & Hg); [| |simpl; by eexists].
  - split; [constructor|]. simpl. repeat split; simpl; try lia. intros k Hk. lia.
  - intros k [cur best] Hk [Hc Hg]. simpl in Hc, Hg.
    destruct (b_matches_spec (Z.of_nat k) begin2 end2) as (js & -> & Hjs); [lia..|]. simpl.
    edestruct (foldM_rule (λ (l : list Z) (st : list (Z * Z) * Match),
      (∀ j, j ∈ l → j ∈ js) ∧ Forall (ending (Z.of_nat k)) st.1 ∧ good st.2)) as (st & -> & _ & Hc' & Hg');
      [|intros j l [cur' best'] (Hl & Hc' & Hg')|].
    + split; [done|]. split; [constructor|done].
    + destruct (Hjs j) as [Hj He]; [apply Hl; by left|].
      destruct (consider_spec cur (Z.of_nat k) j cur' best') as (st & -> & ? & ?); [done|lia|done..|].
      exists st. split; [done|]. split; [|done]. intros x Hx. apply Hl. by right.
    + exists st. split; [done|]. split; [|done]. by replace (Z.of_nat (Datatypes.S k) - 1) with (Z.of_nat k) by lia.
Qed.
End search.

(** ** The recursion *)

Lemma find_longest_matches_spec fuel begin1 end1 begin2 end2 :
  0 <= begin1 → begin1 <= end1 → end1 <= len a → 0 <= begin2 → begin2 <= end2 → end2 <= len rows →
  (Z.to_nat (end1 - begin1) < fuel)%nat →
  ∃ ms, find_longest_matches fuel modified a b begin1 end1 begin2 end2 = Some ms ∧ chain begin1 begin2 ms end1 end2.
Proof using modified_ok len_small a_rows b_sorted b_rows.
  revert begin1 end1 begin2 end2. induction fuel as [|fuel IH]; intros begin1 end1 begin2 end2 R1 R2 R3 R4 R5 R6 Hf; [lia|].
  simpl. destruct (find_longest_match_spec begin1 end1 begin2 end2) as (m & -> & G1 & G2 & G3 & G4 & G5 & G6); [lia..|].
  simpl. destruct (Z.eqb_spec (m_size m) 0); [by exists []|].
  rewrite !wadd_small by lia.
  assert (∃ ms, (if (begin1 <? m_i m) && (begin2 <? m_j m)
                 then find_longest_matches fuel modified a b begin1 (m_i m) begin2 (m_j m) else Some []) = Some ms ∧
                chain begin1 begin2 ms (m_i m) (m_j m)) as (before & -> & Hb).
  { destruct ((begin1 <? m_i m) && (begin2 <? m_j m)); [apply IH; lia|by exists []]. }
  simpl.
  assert (∃ ms, (if (m_i m + m_size m <? end2) && (m_j m + m_size m <? end2)
                 then find_longest_matches fuel modified a b (m_i m + m_size m) end1 (m_j m + m_size m) end2
                 else Some []) = Some ms ∧
                chain (m_i m + m_size m) (m_j m + m_size m) ms end1 end2) as (after & -> & Ha).
  { destruct (_ && _); [apply IH; lia|by exists []]. }
  simpl. eexists. split; [done|]. apply (chain_app _ _ _ _ (m_i m) (m_j m)); [done|]. simpl. split_and!; try lia; done.
Qed.
End lcs.

(** * Moves of sorted rows

    [calculate_moves_sorted] aligns the old rows with the new ones along the
    matches that were found. *)

Import Calculate.

(** Increasing keys order the positions. *)
Lemma increasing_lookup (l : list Z) i j x y :
  increasing l → l !! i = Some x → l !! j = Some y → (i < j)%nat → x < y.
Proof.
  intros Hi. revert i j. induction Hi as [|z l Hi IH Hf]; intros i j; [done|].
  destruct j as [|j]; [lia|]. destruct i as [|i]; simpl.
  - intros [= ->] Hy _. rewrite Forall_forall in Hf. apply Hf. by eapply list_elem_of_lookup_2.
  - intros Hx Hy Hij. apply (IH i j); [done..|lia].
Qed.

Lemma increasing_snoc (l : list Z) x : increasing l → (∀ y, y ∈ l → y < x) → increasing (l ++ [x]).
Proof.
  intros Hl Hx. apply increasing_app. split_and!; [done|repeat constructor|].
  intros i j Hi ->%list_elem_of_singleton. by apply Hx.
Qed.

Lemma split_lt (P : nat → Prop) i : 0 <= i → (∃ x, Z.of_nat x < i + 1 ∧ P x) ↔ (∃ x, Z.of_nat x < i ∧ P x) ∨ P (Z.to_nat i).
Proof.
  intros Hi. split.
  - intros (x & Hx & Hp). destruct (decide (Z.of_nat x < i)); [left; eauto|right]. by replace (Z.to_nat i) with x by lia.
  - intros [(x & Hx & Hp)|Hp]; [exists x|exists (Z.to_nat i)]; (split; [lia|done]).
Qed.

(** ** One side of the alignment *)

Section side.
Context {S : Type} `{IndexSetLaws S}.
Variables (keys : list Z) (base : S).
Hypothesis keys_inc : increasing keys.
Hypothesis keys_bound : ∀ p, p ∈ keys → 0 <= p < npos.

(** The keys before position [i] are either [taken], or in the set [s] together
    with the members of [base]. *)
Record side (s : S) (i : Z) (taken : list Z) : Prop := {
  sd_ok : is_ok s;
  sd_pos : 0 <= i <= len keys;
  sd_inc : increasing taken;
  sd_taken p : p ∈ taken → ∃ x, Z.of_nat x < i ∧ keys !! x = Some p;
  sd_has p : has s p ↔ has base p ∨ ∃ x, Z.of_nat x < i ∧ keys !! x = Some p ∧ p ∉ taken
}.

Lemma side_below s i taken k p : side s i taken → keys !! Z.to_nat i = Some k → p ∈ taken → p < k.
Proof using keys_inc.
  intros Hs Hk Hp. destruct (sd_taken _ _ _ Hs p Hp) as (x & Hx & E). pose proof (sd_pos _ _ _ Hs).
  apply (increasing_lookup keys x (Z.to_nat i)); [done..|lia].
Qed.

Lemma side_take s i taken k :
  side s i taken → keys !! Z.to_nat i = Some k → side s (i + 1) (taken ++ [k]).
Proof using keys_inc.
  intros Hs Hk. pose proof (λ p, side_below s i taken k p Hs Hk) as Hlt. pose proof (lookup_lt_Some _ _ _ Hk).
  destruct Hs as [Hok Hpos Hinc Htk Hhas]. constructor; [done|unfold len in *; lia|by apply increasing_snoc| |].
  - intros p [Hp| ->%list_elem_of_singleton]%elem_of_app.
    + destruct (Htk p Hp) as (x & ? & ?). exists x. split; [lia|done].
    + exists (Z.to_nat i). split; [lia|done].
  - intros p. rewrite Hhas, (split_lt (λ x, keys !! x = Some p ∧ p ∉ taken ++ [k])) by lia.
    f_equiv. split.
    + intros (x & Hx & E & Hn). left. exists x. split_and!; [done|done|].
      rewrite elem_of_app, list_elem_of_singleton. intros [?| ->]; [done|].
      pose proof (increasing_lookup keys x (Z.to_nat i) k k keys_inc E Hk). lia.
    + intros [(x & Hx & E & Hn)|[E Hn]]; rewrite elem_of_app, list_elem_of_singleton in Hn; [exists x; tauto|].
      rewrite Hk in E. injection E as ->. tauto.
Qed.

Lemma side_skip s i taken k :
  side s i taken → keys !! Z.to_nat i = Some k → ∃ s', is_add s k = Some s' ∧ side s' (i + 1) taken.
Proof using keys_inc keys_bound.
  intros Hs Hk. pose proof (λ p, side_below s i taken k p Hs Hk) as Hlt. pose proof (lookup_lt_Some _ _ _ Hk).
  destruct Hs as [Hok Hpos Hinc Htk Hhas].
  destruct (is_add_law s k Hok) as (s' & -> & Hs' & Hm); [apply keys_bound; by eapply list_elem_of_lookup_2|].
  exists s'. split; [done|]. constructor; [done|unfold len in *; lia|done| |].
  - intros p Hp. destruct (Htk p Hp) as (x & ? & ?). exists x. split; [lia|done].
  - intros p. rewrite Hm, Hhas, (split_lt (λ x, keys !! x = Some p ∧ p ∉ taken)) by lia.
    assert (p = k ↔ keys !! Z.to_nat i = Some p ∧ p ∉ taken) as ->; [|tauto]. rewrite Hk. split.
    + intros ->. split; [done|]. intros Hp. specialize (Hlt k Hp). lia.
    + intros [[= ->] _]. done.
Qed.
End side.

(** ** Both sides *)

Section sorted_moves.
Context {S : Type} `{IndexSetLaws S}.
Implicit Types (c : change_builder S).
Variables (a : list LcsRow) (rows : list RowInfo) (D I : S).
Hypothesis a_inc : increasing (l_tv_index <$> a).
Hypothesis rows_inc : increasing (tv_index <$> rows).
Hypothesis a_bound : ∀ p, p ∈ l_tv_index <$> a → 0 <= p < npos.
Hypothesis rows_bound : ∀ p, p ∈ tv_index <$> rows → 0 <= p < npos.
Hypothesis len_small : len a < npos ∧ len rows < npos.

(** The state of the alignment at [a[i]] and [rows[j]]; [ks] pairs the positions
    of the rows that were matched so far. *)
Record aligning (i j : Z) c (ks : list (Z * Z)) : Prop := {
  an_old : side (l_tv_index <$> a) D (deletions c) i ks.*1;
  an_new : side (tv_index <$> rows) I (insertions c) j ks.*2;
  an_row p q : (p, q) ∈ ks → ∃ x r, x ∈ a ∧ r ∈ rows ∧ p = l_tv_index x ∧ q = tv_index r ∧ l_row_index x = row_index r
}.

Lemma aligning_match i j c ks :
  aligning i j c ks → eq_rows a rows i j → ∃ ks', aligning (i + 1) (j + 1) c ks'.
Proof using a_inc rows_inc.
  intros [Ho Hn Hr] (x & r & Ex & Er & Erow). exists (ks ++ [(l_tv_index x, tv_index r)]).
  constructor; rewrite ?fmap_app.
  - apply side_take; [done..|]. by rewrite list_lookup_fmap, Ex.
  - apply side_take; [done..|]. by rewrite list_lookup_fmap, Er.
  - intros p q [Hp|E%list_elem_of_singleton]%elem_of_app; [by apply Hr|]. injection E as -> ->.
    exists x, r. split_and!; [by eapply list_elem_of_lookup_2..|done|done|done].
Qed.

Lemma aligning_block n i j c ks :
  aligning i j c ks → block a rows i j (Z.of_nat n) → ∃ ks', aligning (i + Z.of_nat n) (j + Z.of_nat n) c ks'.
Proof using a_inc rows_inc.
  revert i j ks. induction n as [|n IH]; intros i j ks Ha Hb; [exists ks; by rewrite !Z.add_0_r|].
  destruct (aligning_match i j c ks Ha) as (ks1 & Ha1).
  { specialize (Hb 0). rewrite !Z.add_0_r in Hb. apply Hb. lia. }
  destruct (IH _ _ _ Ha1) as (ks2 & Ha2).
  { intros k Hk. replace (i + 1 + k) with (i + (k + 1)) by lia. replace (j + 1 + k) with (j + (k + 1)) by lia. apply Hb. lia. }
  exists ks2. replace (i + Z.of_nat (Datatypes.S n)) with (i + 1 + Z.of_nat n) by lia.
  by replace (j + Z.of_nat (Datatypes.S n)) with (j + 1 + Z.of_nat n) by lia.
Qed.

(** The loop that deletes old rows up to the next match. *)
Lemma aligning_delete n i j c ks :
  aligning i j c ks → i + Z.of_nat n <= len a →
  ∃ d, iter_n n (λ k c, r ← a !! k; d ← is_add (deletions c) (l_tv_index r); Some (Changes.with_deletions c d))
         (Z.to_nat i) c = Some (Changes.with_deletions c d) ∧ aligning (i + Z.of_nat n) j (Changes.with_deletions c d) ks.
Proof using a_inc a_bound.
  revert i c. induction n as [|n IH]; intros i c Ha Hn; simpl.
  { exists (deletions c). rewrite Z.add_0_r. by destruct c. }
  pose proof (sd_pos _ _ _ _ _ (an_old _ _ _ _ Ha)) as Hpos. unfold len in *.
  destruct (lookup_lt_is_Some_2 a (Z.to_nat i)) as [x Ex]; [lia|]. rewrite Ex. simpl.
  destruct (side_skip _ _ a_inc a_bound _ _ _ (l_tv_index x) (an_old _ _ _ _ Ha)) as (d & -> & Hd);
    [by rewrite list_lookup_fmap, Ex|]. simpl.
  destruct (IH (i + 1) (Changes.with_deletions c d)) as (d' & E & Ha'); [|lia|].
  { destruct Ha as [_ Hn' Hr]. by constructor. }
  replace (Z.to_nat (i + 1)) with (Datatypes.S (Z.to_nat i)) in E by lia. rewrite E. exists d'. split; [done|].
  by replace (i + Z.of_nat (Datatypes.S n)) with (i + 1 + Z.of_nat n) by lia.
Qed.

(** The loop that inserts new rows up to the next match. *)
Lemma aligning_insert n i j c ks :
  aligning i j c ks → j + Z.of_nat n <= len rows →
  ∃ s, iter_n n (λ k c, r ← rows !! k; s ← is_add (insertions c) (tv_index r); Some (Changes.with_insertions c s))
         (Z.to_nat j) c = Some (Changes.with_insertions c s) ∧ aligning i (j + Z.of_nat n) (Changes.with_insertions c s) ks.
Proof using rows_inc rows_bound.
  revert j c. induction n as [|n IH]; intros j c Ha Hn; simpl.
  { exists (insertions c). rewrite Z.add_0_r. by destruct c. }
  pose proof (sd_pos _ _ _ _ _ (an_new _ _ _ _ Ha)) as Hpos. unfold len in *.
  destruct (lookup_lt_is_Some_2 rows (Z.to_nat j)) as [x Ex]; [lia|]. rewrite Ex. simpl.
  destruct (side_skip _ _ rows_inc rows_bound _ _ _ (tv_index x) (an_new _ _ _ _ Ha)) as (s & -> & Hs);
    [by rewrite list_lookup_fmap, Ex|]. simpl.
  destruct (IH (j + 1) (Changes.with_insertions c s)) as (s' & E & Ha'); [|lia|].
  { destruct Ha as [Ho _ Hr]. by constructor. }
  replace (Z.to_nat (j + 1)) with (Datatypes.S (Z.to_nat j)) in E by lia. rewrite E. exists s'. split; [done|].
  by replace (j + Z.of_nat (Datatypes.S n)) with (j + 1 + Z.of_nat n) by lia.
Qed.

(** The parts of the builder that the alignment leaves alone. *)
Definition same_rest c c' : Prop := ∃ d s, c' = Changes.with_insertions (Changes.with_deletions c d) s.

Lemma align_spec m i j c ks :
  aligning i j c ks → i <= m_i m → j <= m_j m → 0 <= m_size m → m_i m + m_size m <= len a → m_j m + m_size m <= len rows →
  block a rows (m_i m) (m_j m) (m_size m) →
  ∃ c' ks', align a rows m (i, j, c) = Some (m_i m + m_size m, m_j m + m_size m, c') ∧
    aligning (m_i m + m_size m) (m_j m + m_size m) c' ks' ∧ same_rest c c'.
Proof using a_inc rows_inc a_bound rows_bound len_small.
  intros Ha Hi Hj Hs Ea Er Hb. unfold align.
  destruct (aligning_delete (Z.to_nat (m_i m - i)) i j c ks Ha) as (d & -> & Ha1); [lia|]. simpl.
  replace (i + Z.of_nat (Z.to_nat (m_i m - i))) with (m_i m) in Ha1 by lia.
  destruct (aligning_insert (Z.to_nat (m_j m - j)) (m_i m) j _ ks Ha1) as (s & -> & Ha2); [lia|]. simpl.
  replace (j + Z.of_nat (Z.to_nat (m_j m - j))) with (m_j m) in Ha2 by lia.
  pose proof (sd_pos _ _ _ _ _ (an_old _ _ _ _ Ha)). pose proof (sd_pos _ _ _ _ _ (an_new _ _ _ _ Ha)).
  destruct (aligning_block (Z.to_nat (m_size m)) _ _ _ _ Ha2) as (ks' & Ha3); [by rewrite Z2Nat.id|].
  rewrite Z2Nat.id in Ha3 by done. rewrite !Z.max_r, !wadd_small by lia.
  eexists _, ks'. split; [done|]. split; [done|]. by exists d, s.
Qed.

Lemma align_all ms i j c ks :
  aligning i j c ks → chain a rows i j ms (len a) (len rows) →
  ∃ i' j' c' ks', foldM (align a rows) ms (i, j, c) = Some (i', j', c') ∧ aligning i' j' c' ks' ∧ same_rest c c' ∧
    match last ms with Some m => i' = m_i m + m_size m ∧ j' = m_j m + m_size m | None => i' = i ∧ j' = j end.
Proof using a_inc rows_inc a_bound rows_bound len_small.
  revert i j c ks. induction ms as [|m ms IH]; intros i j c ks Ha; cbn [foldM chain].
  { intros _. exists i, j, c, ks. split_and!; try done. exists (deletions c), (insertions c). by destruct c. }
  intros (H1 & H2 & H3 & H4 & H5).
  assert (m_i m + m_size m <= len a ∧ m_j m + m_size m <= len rows) as [? ?] by by eapply chain_le.
  destruct (align_spec m i j c ks) as (c1 & ks1 & -> & Ha1 & (d & s & ->)); [done..|]. cbn [mbind option_bind].
  destruct (IH _ _ _ _ Ha1 H5) as (i' & j' & c' & ks' & E & Ha' & (d' & s' & ->) & Hl). rewrite E.
  eexists i', j', _, ks'. split; [done|]. split; [done|]. split; [by exists d', s'|].
  rewrite last_cons. by destruct (last ms).
Qed.
End sorted_moves.

(** ** The whole function *)

Section rows.
Context {S : Type} {ops : IndexSets S} {laws : IndexSetLaws S} {sorts : Sorts} {sort_laws : SortLaws}.
Implicit Types (c : change_builder S) (rows : list RowInfo).

Lemma rows_by_prev_perm rows : rows_by_prev rows ≡ₚ (λ r, MkLcsRow (row_index r) (prev_tv_index r)) <$> rows.
Proof. apply sort_by_perm. Qed.

Lemma rows_by_prev_elem rows x :
  x ∈ rows_by_prev rows ↔ ∃ r, r ∈ rows ∧ x = MkLcsRow (row_index r) (prev_tv_index r).
Proof. rewrite rows_by_prev_perm, list_elem_of_fmap. split; intros (r & E & Hr); by exists r. Qed.

Lemma rows_by_prev_keys rows : l_tv_index <$> rows_by_prev rows ≡ₚ prev_tv_index <$> rows.
Proof. by rewrite rows_by_prev_perm, <- list_fmap_compose. Qed.

Lemma rows_by_prev_inc rows : NoDup (prev_tv_index <$> rows) → increasing (l_tv_index <$> rows_by_prev rows).
Proof.
  intros Hn. apply (sorted_increasing (λ x y, by_tv_row y x = false)).
  - intros x y. unfold by_tv_row. rewrite pair_lt_false. lia.
  - apply sort_by_sorted, weak_order_pair.
  - by rewrite rows_by_prev_keys.
Qed.

Lemma rows_by_prev_length rows : length (rows_by_prev rows) = length rows.
Proof. by rewrite rows_by_prev_perm, length_fmap. Qed.

Lemma rows_by_row_elem rows x :
  x ∈ rows_by_row rows ↔ ∃ j r, rows !! j = Some r ∧ x = MkLcsRow (row_index r) (Z.of_nat j).
Proof.
  unfold rows_by_row. rewrite sort_by_perm, elem_of_lookup_imap. split; intros (j & r & E & Hr); by exists j, r.
Qed.

Lemma rows_by_row_length rows : length (rows_by_row rows) = length rows.
Proof. unfold rows_by_row. by rewrite sort_by_perm, length_imap. Qed.

(** The rows before the first difference are equal. *)
Lemma first_difference_block a rows :
  length a = length rows → block a rows 0 0 (Z.of_nat (first_difference a rows)) ∧ (first_difference a rows <= length a)%nat.
Proof.
  intros Hl. unfold first_difference. set (q := λ '(x, r), negb (l_row_index x =? row_index r)).
  assert (∀ k, (k < find_if q (zip a rows))%nat → ∃ x r, a !! k = Some x ∧ rows !! k = Some r ∧ l_row_index x = row_index r) as Hk.
  { revert rows Hl. induction a as [|x a IH]; intros [|r rows] Hl k; simpl; try lia; try done.
    destruct (Z.eqb_spec (l_row_index x) (row_index r)) as [E|]; simpl; [|lia].
    destruct k as [|k]; [intros _; by exists x, r|]. intros Hk. apply (IH rows); [by injection Hl|lia]. }
  split.
  - intros k Hk'. destruct (Hk (Z.to_nat k)) as (x & r & H1 & H2 & H3); [lia|]. by exists x, r.
  - clear Hk. revert rows Hl. induction a as [|x a IH]; intros [|r rows] Hl; simpl; try done; try lia.
    destruct (negb _); [lia|]. apply le_n_S, IH. by injection Hl.
Qed.

Section found.
Context (prev next : list Z) (rows : list RowInfo) (D R I : S).
Hypothesis Hm : matching prev next rows D R I.
Hypothesis small : len prev < npos ∧ len next < npos.

Lemma matching_prev_bound p : p ∈ l_tv_index <$> rows_by_prev rows → 0 <= p < npos.
Proof using Hm small sort_laws.
  rewrite rows_by_prev_keys. intros (r & -> & Hr)%list_elem_of_fmap.
  destruct (mt_row _ _ _ _ _ _ Hm r Hr) as (H1 & _ & H2 & _). pose proof (lookup_len _ _ _ H1 H2). lia.
Qed.

Lemma matching_tv_bound p : p ∈ tv_index <$> rows → 0 <= p < npos.
Proof using Hm small sort_laws.
  intros (r & -> & Hr)%list_elem_of_fmap.
  destruct (mt_row _ _ _ _ _ _ Hm r Hr) as (_ & H1 & _ & H2 & _). pose proof (lookup_len _ _ _ H1 H2). lia.
Qed.

Lemma increasing_length (l : list Z) n : increasing l → (∀ p, p ∈ l → 0 <= p < n) → 0 <= n → len l <= n.
Proof.
  intros Hi Hb Hn. pose proof (submseteq_length l (seqZ 0 n)) as Hlen. rewrite length_seqZ in Hlen. unfold len.
  cut (length l ≤ Z.to_nat n)%nat; [lia|]. apply Hlen. apply NoDup_submseteq; [by apply increasing_NoDup|].
  intros p Hp. apply elem_of_seqZ. specialize (Hb p Hp). lia.
Qed.

Lemma matching_length : len rows <= len next.
Proof using Hm sort_laws.
  unfold len at 1. rewrite <- (length_fmap tv_index).
  apply increasing_length; [apply Hm| |unfold len; lia]. intros p (r & -> & Hr)%list_elem_of_fmap.
  destruct (mt_row _ _ _ _ _ _ Hm r Hr) as (_ & H1 & _ & H2 & _). pose proof (lookup_len _ _ _ H1 H2). lia.
Qed.

(** Once everything is aligned, the matched rows are the ones that stay. *)
Lemma aligned_done c ks :
  let a := rows_by_prev rows in
  aligning a rows D I (len a) (len rows) c ks →
  alignment prev next ks (λ i, has (deletions c) i ∨ has R i) (has (insertions c)).
Proof using Hm sort_laws.
  intros a [Ho Hn Hr]. destruct Hm as [_ _ _ _ _ Hrow mD mR mI _]. constructor.
  - apply (sd_inc _ _ _ _ _ Ho).
  - apply (sd_inc _ _ _ _ _ Hn).
  - intros p q Hpq. destruct (Hr p q Hpq) as (x & r & Hx & Hrin & -> & -> & E).
    apply rows_by_prev_elem in Hx as (r' & Hr' & ->). simpl in *.
    destruct (Hrow r' Hr') as (? & _ & E1 & _). destruct (Hrow r Hrin) as (_ & ? & _ & E2 & _).
    split_and!; [done|done|]. exists (row_index r'). by rewrite E1, E2, E.
  - assert (∀ p, p ∈ ks.*1 → p ∈ prev_tv_index <$> rows) as Hsub.
    { intros p Hp. destruct (sd_taken _ _ _ _ _ Ho p Hp) as (x & _ & E). rewrite <- rows_by_prev_keys.
      by eapply list_elem_of_lookup_2. }
    assert (∀ p, p ∈ prev_tv_index <$> rows → 0 <= p < len prev ∧ ¬ has D p) as Hin.
    { intros p (r & -> & Hr')%list_elem_of_fmap. destruct (Hrow r Hr') as (H1 & _ & H2 & _ & H3 & _).
      split; [split; [done|by eapply lookup_len]|]. rewrite mD. intros [_ E]. congruence. }
    intros p. rewrite (sd_has _ _ _ _ _ Ho), mR. split.
    + intros [[Hd|(x & _ & E & Hn')]|(H1 & H2 & H3)].
      * pose proof Hd as Hd'. apply mD in Hd' as [H1 H2]. split; [split; [done|by eapply lookup_len]|].
        intros Hp. by destruct (Hin p (Hsub p Hp)).
      * split; [|done]. apply Hin. rewrite <- rows_by_prev_keys. by eapply list_elem_of_lookup_2.
      * split; [done|]. intros Hp. by apply H3, Hsub.
    + intros [Hp Hn']. destruct (decide (p ∈ prev_tv_index <$> rows)) as [Hpr|].
      * left. right. rewrite <- rows_by_prev_keys in Hpr. apply list_elem_of_lookup in Hpr as [x E].
        exists x. pose proof (lookup_lt_Some _ _ _ E) as Hl. rewrite length_fmap in Hl.
        split_and!; [unfold len; fold a in Hl; lia|done|done].
      * destruct (decide (mem p (is_ranges D))); [left; by left|by right].
  - intros q. rewrite (sd_has _ _ _ _ _ Hn), mI. split.
    + intros [[H1 H2]|(x & _ & E & Hn')].
      * split; [done|]. intros Hq. destruct (sd_taken _ _ _ _ _ Hn q Hq) as (x & _ & E). apply H2. by eapply list_elem_of_lookup_2.
      * split; [|done]. apply list_elem_of_lookup_2 in E as (r & -> & Hr')%list_elem_of_fmap.
        destruct (Hrow r Hr') as (_ & H1 & _ & H2 & _). split; [done|by eapply lookup_len].
    + intros [Hq Hn']. destruct (decide (q ∈ tv_index <$> rows)) as [Hqr|]; [|by left].
      right. apply list_elem_of_lookup in Hqr as [x E]. exists x. pose proof (lookup_lt_Some _ _ _ E) as Hl.
      rewrite length_fmap in Hl. split_and!; [unfold len; lia|done|done].
Qed.

Lemma moves_sorted_spec c :
  deletions c = D → insertions c = I → is_ok (modifications c) →
  ∃ c' ks, calculate_moves_sorted rows c = Some c' ∧ same_rest c c' ∧ is_ok (deletions c') ∧ is_ok (insertions c') ∧
    (∀ i, has D i → has (deletions c') i) ∧
    alignment prev next ks (λ i, has (deletions c') i ∨ has R i) (has (insertions c')).
Proof using Hm small sort_laws.
  intros Ed Ei Hmod. set (a := rows_by_prev rows).
  assert (length a = length rows) as Hlen by apply rows_by_prev_length.
  pose proof matching_length as Hrows.
  pose proof (rows_by_prev_inc rows (mt_prev _ _ _ _ _ _ Hm)) as a_inc. fold a in a_inc.
  pose proof (mt_tv _ _ _ _ _ _ Hm) as rows_inc.
  destruct (first_difference_block a rows Hlen) as [Hblock Hfirst]. unfold calculate_moves_sorted. fold a.
  set (first := first_difference a rows) in *.
  assert (aligning a rows D I 0 0 c []) as Ha0.
  { destruct Hm as [? ? ? _ _ _ _ _ _ _]. constructor; [..|by intros ? ? ?%elem_of_nil].
    - constructor; [by rewrite Ed|unfold len; lia|constructor|by intros ? ?%elem_of_nil|]. intros p. rewrite Ed.
      split; [by left|]. intros [?|(x & Hx & _)]; [done|lia].
    - constructor; [by rewrite Ei|unfold len; lia|constructor|by intros ? ?%elem_of_nil|]. intros p. rewrite Ei.
      split; [by left|]. intros [?|(x & Hx & _)]; [done|lia]. }
  destruct (aligning_block _ _ _ _ a_inc rows_inc first 0 0 c [] Ha0 Hblock) as (ks0 & Ha1). rewrite !Z.add_0_l in Ha1.
  case_bool_decide as Ef.
  { exists c, ks0. assert (Z.of_nat first = len a ∧ Z.of_nat first = len rows) as [E1 E2] by (unfold len; lia).
    split; [done|]. split; [exists (deletions c), (insertions c); by destruct c|].
    destruct Ha1 as [A1 A2 A3]. split; [apply A1|]. split; [apply A2|].
    split; [intros i Hi; apply (sd_has _ _ _ _ _ A1); by left|]. apply aligned_done. fold a.
    rewrite <- E1, <- E2. by constructor. }
  assert (len (rows_by_row rows) = len rows) as Eb by (unfold len; by rewrite rows_by_row_length).
  assert (first < length a)%nat by lia. unfold longest_matches. rewrite Eb.
  destruct (find_longest_matches_spec (modifications c) a rows (rows_by_row rows)) with
    (fuel := Datatypes.S (length a)) (begin1 := Z.of_nat first) (end1 := len a) (begin2 := Z.of_nat first) (end2 := len rows)
    as (ms & E & Hch); try (unfold len in *; lia).
  { done. }
  { intros x (r & Hr & ->)%rows_by_prev_elem. apply list_elem_of_lookup in Hr as [j Hj]. by exists j, r. }
  { apply sort_by_sorted, weak_order_pair. }
  { intros x. apply rows_by_row_elem. }
  rewrite E. cbn [mbind option_bind].
  destruct (align_all a rows D I a_inc rows_inc matching_prev_bound matching_tv_bound) with
    (ms := ms ++ [MkMatch (len a) (len rows) 0 0]) (i := Z.of_nat first) (j := Z.of_nat first) (c := c) (ks := ks0)
    as (i' & j' & c' & ks & -> & Ha & Hs & Hl); [unfold len in *; lia|done| |].
  { apply chain_app with (x := len a) (y := len rows); [done|]. simpl. unfold block. split_and!; try lia; intros; lia. }
  rewrite last_snoc in Hl. simpl in Hl. destruct Hl as [-> ->]. rewrite !Z.add_0_r in Ha.
  exists c', ks. split; [done|]. split; [done|]. split; [apply Ha|]. split; [apply Ha|].
  split; [|by apply aligned_done]. intros i Hi. apply (sd_has _ _ _ _ _ (an_old _ _ _ _ _ _ _ _ Ha)). by left.
Qed.
End found.
End rows.
