(* ===== verification/CalculationTheorems.v ===== *)
(** * Moves in table order

    [calculate_moves_unsorted] is right when the rows that are no candidates for a
    move have nothing move past them from before: everything behind such a row in
    the new order was behind it in the old one.  [move_last_over] moves rows
    towards the front of the table only, so that this holds for it. *)

From Stdlib Require Import Sorted.
From S2P Require Import Prelude RangeSet RangeVector IndexSetSpec IndexWalk IndexSetTheorems Ranks IndexSetInterface ChangeBuilder ChangeCalculation RowMatching SortedMoves.

Import Calculate.

(** The positions outside of two disjoint sets, counted. *)
Lemma outside_count l1 l2 :
  ranges_ok 0 l1 → ranges_ok 0 l2 → (∀ k, mem k l1 → ¬ mem k l2) → ∀ j, 0 <= j →
  Z.of_nat (length (filter (λ k, memb k l1 = false ∧ memb k l2 = false) (seqZ 0 j))) = j - rank j l1 - rank j l2.
Proof.
  intros H1 H2 Hd. apply natlike_ind; [by rewrite !(rank_below 0)|]. intros j Hj IH. unfold Z.succ.
  rewrite seqZ_app, filter_app, length_app, Nat2Z.inj_add, IH, !(rank_succ 0) by (done || lia).
  change (seqZ (0 + j) 1) with [0 + j]. rewrite Z.add_0_l, filter_cons, filter_nil.
  destruct (memb j l1) eqn:E1, (memb j l2) eqn:E2.
  - apply memb_mem in E1, E2. by destruct (Hd j).
  - rewrite decide_False by (by intros [? _]). simpl. lia.
  - rewrite decide_False by (by intros [_ ?]). simpl. lia.
  - rewrite decide_True by done. simpl. lia.
Qed.

(** A duplicate-free list within another one that is not longer is all of it. *)
Lemma covers (l k : list Z) : NoDup l → (∀ x, x ∈ l → x ∈ k) → (length k <= length l)%nat → ∀ x, x ∈ k → x ∈ l.
Proof.
  intros Hn Hs Hl x Hx. assert (l ⊆+ k) as Hsub by by apply NoDup_submseteq.
  by rewrite (submseteq_length_Permutation _ _ Hsub Hl).
Qed.

Section unsorted.
Context {S : Type} {ops : IndexSets S} {laws : IndexSetLaws S}.
Variables (prev next : list Z) (M : list RowInfo) (D R I cands : S).
Hypothesis Hm : matching prev next M D R I.
Hypothesis small : len prev + len next < npos.
Hypothesis cands_ok : is_ok cands.
Hypothesis settled : ∀ x y, x ∈ M → y ∈ M → tv_index x < tv_index y → ¬ has cands (row_index x) →
  prev_tv_index x < prev_tv_index y.

Lemma M_lookup r : r ∈ M → 0 <= prev_tv_index r < len prev ∧ 0 <= tv_index r < len next ∧ ¬ has D (prev_tv_index r) ∧
  ¬ has R (prev_tv_index r) ∧ ¬ has I (tv_index r) ∧ shifted_tv_index r = prev_tv_index r - rk D (prev_tv_index r).
Proof using Hm.
  intros Hr. destruct Hm as [_ _ _ _ _ Hrow mD mR mI _]. destruct (Hrow r Hr) as (H1 & H2 & H3 & H4 & H5 & H6).
  split_and!; [done|by eapply lookup_len|done|by eapply lookup_len| | | |done].
  - rewrite mD. intros [_ E]. congruence.
  - rewrite mR. intros (_ & _ & Hn). by apply Hn, list_elem_of_fmap_2.
  - rewrite mI. intros (_ & Hn). by apply Hn, list_elem_of_fmap_2.
Qed.

Lemma fmap_inj (f : RowInfo → Z) (l : list RowInfo) x y : NoDup (f <$> l) → x ∈ l → y ∈ l → f x = f y → x = y.
Proof.
  intros Hn Hx Hy E. apply list_elem_of_lookup in Hx as [i Hi], Hy as [j Hj].
  assert (i = j) as <-; [|congruence].
  apply (NoDup_lookup (f <$> l) i j (f x)); [done|by rewrite list_lookup_fmap, Hi|by rewrite list_lookup_fmap, Hj, E].
Qed.

(** [shifted_tv_index] orders the old positions. *)
Lemma shifted_lt x y : x ∈ M → y ∈ M → prev_tv_index x < prev_tv_index y ↔ shifted_tv_index x < shifted_tv_index y.
Proof using Hm.
  intros Hx Hy. destruct (M_lookup x Hx) as ((? & _) & _ & Dx & _ & _ & ->), (M_lookup y Hy) as ((? & _) & _ & Dy & _ & _ & ->).
  apply unshifted_lt; [apply is_ok_ranges, (mt_D_ok _ _ _ _ _ _ Hm)|done..].
Qed.

Lemma shifted_inj x y : x ∈ M → y ∈ M → shifted_tv_index x = shifted_tv_index y → x = y.
Proof using Hm.
  intros Hx Hy E. apply (fmap_inj prev_tv_index M); [apply Hm|done..|].
  pose proof (shifted_lt x y Hx Hy). pose proof (shifted_lt y x Hy Hx). lia.
Qed.

Lemma shifted_range r : r ∈ M → 0 <= shifted_tv_index r < len prev.
Proof using Hm.
  intros Hr. destruct (M_lookup r Hr) as ((? & ?) & _ & _ & _ & _ & ->). unfold rk.
  pose proof (rank_nonneg (prev_tv_index r) (is_ranges D)).
  destruct (is_ok_ranges _ (mt_D_ok _ _ _ _ _ _ Hm)) as [Ho _]. pose proof (rank_le 0 (prev_tv_index r) _ Ho). lia.
Qed.

(** The state of the loop after the rows [seen], of which it kept [K]. *)
Record walking (c0 : change_builder S) (seen K : list RowInfo) (e : Z) (R' : S) (c : change_builder S) : Prop := {
  wk_R_ok : is_ok R'; wk_I_ok : is_ok (insertions c);
  wk_e : 0 <= e <= len prev;
  wk_sub r : r ∈ K → r ∈ seen;
  wk_prev : increasing (prev_tv_index <$> K);
  wk_tv : increasing (tv_index <$> K);
  wk_below r : r ∈ K → shifted_tv_index r < e;
  wk_seen r : r ∈ M → shifted_tv_index r < e → r ∈ seen;
  wk_R p : has R' p ↔ has R p ∨ ∃ r, r ∈ seen ∧ (r ∉ K) ∧ p = prev_tv_index r;
  wk_I q : has (insertions c) q ↔ has I q ∨ ∃ r, r ∈ seen ∧ (r ∉ K) ∧ q = tv_index r;
  wk_moves m : m ∈ moves c → m ∈ moves c0 ∨ ∃ r, r ∈ M ∧ m = (prev_tv_index r, tv_index r) ∧ has R' m.1 ∧ has (insertions c) m.2;
  wk_rest : ∃ ms s, c = Changes.with_insertions (Changes.with_moves c0 ms) s
}.

Section step.
Variables (c0 : change_builder S) (seen l K : list RowInfo) (r : RowInfo) (e : Z) (R' : S) (c : change_builder S).
Hypothesis EM : M = seen ++ r :: l.
Hypothesis Hw : walking c0 seen K e R' c.

Lemma in_M x : x ∈ M ↔ x ∈ seen ∨ x = r ∨ x ∈ l.
Proof using EM. by rewrite EM, elem_of_app, elem_of_cons. Qed.

Lemma r_in : r ∈ M.
Proof using EM. apply in_M. tauto. Qed.

Lemma done_before x : x ∈ seen → tv_index x < tv_index r.
Proof using EM Hm.
  intros Hx. pose proof (mt_tv _ _ _ _ _ _ Hm) as Hi. rewrite EM, fmap_app in Hi.
  apply increasing_app in Hi as (_ & _ & Hlt). apply Hlt; [by apply list_elem_of_fmap_2|by apply list_elem_of_fmap_2, elem_of_cons; left].
Qed.

Lemma rest_after x : x ∈ l → tv_index r < tv_index x.
Proof using EM Hm.
  intros Hx. pose proof (mt_tv _ _ _ _ _ _ Hm) as Hi. rewrite EM, fmap_app, fmap_cons in Hi.
  apply increasing_app in Hi as (_ & Hi & _). inversion Hi as [|? ? _ Hf]; subst. rewrite Forall_forall in Hf.
  by apply Hf, list_elem_of_fmap_2.
Qed.

Lemma r_new : r ∉ seen.
Proof using EM Hm. intros Hr. pose proof (done_before r Hr). lia. Qed.

Lemma r_not_below : e <= shifted_tv_index r.
Proof using EM Hm Hw.
  destruct (Z.le_gt_cases e (shifted_tv_index r)); [done|]. destruct r_new. apply (wk_seen _ _ _ _ _ _ Hw); [apply r_in|done].
Qed.

(** The row is kept, if all rows that were before it have been seen. *)
Lemma step_keep :
  (∀ y, y ∈ M → shifted_tv_index y < shifted_tv_index r → y ∈ seen) →
  walking c0 (seen ++ [r]) (K ++ [r]) (shifted_tv_index r + 1) R' c.
Proof using EM Hm Hw.
  intros Hall. pose proof r_not_below. pose proof (shifted_range r r_in). pose proof r_in as Hrin.
  destruct Hw as [W1 W2 W3 W4 W5 W6 W7 W8 W9 W10 W11 W12].
  assert (∀ x, x ∈ seen ++ [r] ∧ x ∉ K ++ [r] ↔ x ∈ seen ∧ x ∉ K) as Hout.
  { intros x. rewrite !elem_of_app, !list_elem_of_singleton. pose proof r_new. split; [tauto|].
    intros [Hx Hk]. split; [by left|]. intros [?| ->]; done. }
  constructor; try done; [lia| | | | | | |].
  - intros x. rewrite !elem_of_app. intros [?|?]; [left; by apply W4|by right].
  - rewrite fmap_app. apply increasing_app. split_and!; [done|repeat constructor|].
    intros i j (x & -> & Hx)%list_elem_of_fmap ->%list_elem_of_singleton. apply shifted_lt; [apply in_M; left; by apply W4|done|].
    specialize (W7 x Hx). lia.
  - rewrite fmap_app. apply increasing_app. split_and!; [done|repeat constructor|].
    intros i j (x & -> & Hx)%list_elem_of_fmap ->%list_elem_of_singleton. by apply done_before, W4.
  - intros x [Hx| ->%list_elem_of_singleton]%elem_of_app; [specialize (W7 x Hx)|]; lia.
  - intros x Hx Hlt. apply elem_of_app. destruct (decide (shifted_tv_index x = shifted_tv_index r)) as [E|].
    + right. apply list_elem_of_singleton. by apply shifted_inj.
    + left. apply Hall; [done|lia].
  - intros p. rewrite W9. f_equiv. split; intros (x & H1 & H2 & H3); exists x; pose proof (Hout x); tauto.
  - intros q. rewrite W10. f_equiv. split; intros (x & H1 & H2 & H3); exists x; pose proof (Hout x); tauto.
Qed.

(** The row is recorded as a move. *)
Lemma step_move :
  ∃ s R1, is_add (insertions c) (tv_index r) = Some s ∧ is_add R' (prev_tv_index r) = Some R1 ∧
    walking c0 (seen ++ [r]) K e R1
      (Changes.with_insertions (Changes.with_moves c (moves c ++ [(prev_tv_index r, tv_index r)])) s).
Proof using EM Hm Hw small.
  pose proof r_in as Hrin. destruct (M_lookup r Hrin) as (? & ? & _).
  destruct Hw as [W1 W2 W3 W4 W5 W6 W7 W8 W9 W10 W11 W12].
  destruct (is_add_law (insertions c) (tv_index r) W2) as (s & -> & Hs & Hms); [unfold len in *; lia|].
  destruct (is_add_law R' (prev_tv_index r) W1) as (R1 & -> & HR1 & HmR); [unfold len in *; lia|].
  exists s, R1. split; [done|]. split; [done|].
  assert (r ∉ K) as HrK by (intros Hk; by destruct r_new; apply W4).
  assert (∀ (f : RowInfo → Z) z, (z = f r ∨ ∃ x, x ∈ seen ∧ (x ∉ K) ∧ z = f x) ↔
    ∃ x, x ∈ seen ++ [r] ∧ (x ∉ K) ∧ z = f x) as Hout.
  { intros f z. split.
    - intros [->|(x & H1 & H2 & ->)]; [exists r|exists x]; rewrite elem_of_app, list_elem_of_singleton; tauto.
    - intros (x & H1 & H2 & ->). rewrite elem_of_app, list_elem_of_singleton in H1. destruct H1 as [?| ->]; [right|by left].
      by exists x. }
  constructor; simpl; try done.
  - intros x Hx. apply elem_of_app. left. by apply W4.
  - intros x Hx Hlt. apply elem_of_app. left. by apply W8.
  - intros p. rewrite HmR, W9, <- (Hout prev_tv_index p). tauto.
  - intros q. rewrite Hms, W10, <- (Hout tv_index q). tauto.
  - intros m [Hin| ->%list_elem_of_singleton]%elem_of_app.
    + destruct (W11 m Hin) as [?|(x & H1 & H2 & H3 & H4)]; [by left|right]. exists x. rewrite HmR, Hms. tauto.
    + right. exists r. simpl. rewrite HmR, Hms. tauto.
  - destruct W12 as (ms & s' & ->). by eexists _, _.
Qed.

(** Every position below the new one is inserted or kept ... *)
Lemma kept_count : tv_index r - rk (insertions c) (tv_index r) = Z.of_nat (length K).
Proof using EM Hm Hw.
  destruct (M_lookup r r_in) as (_ & [Hq1 Hq2] & _). destruct Hw as [W1 W2 W3 W4 W5 W6 W7 W8 W9 W10 W11 W12].
  destruct (is_ok_ranges _ W2) as [Ro _].
  pose proof (outside_count (is_ranges (insertions c)) [] Ro ltac:(done) ltac:(by intros k _ ?%mem_nil) (tv_index r) Hq1) as Hc.
  cbn [rank foldr] in Hc. rewrite Z.sub_0_r in Hc. unfold rk. rewrite <- Hc. f_equal. rewrite <- (length_fmap tv_index K). apply Permutation_length.
  apply NoDup_Permutation; [apply NoDup_filter, NoDup_seqZ|by apply increasing_NoDup|].
  intros q. rewrite list_elem_of_filter, elem_of_seqZ, memb_false_iff. fold (has (insertions c) q). rewrite W10. split.
  - intros [[Hn _] Hq]. destruct (decide (q ∈ tv_index <$> M)) as [(x & -> & Hx)%list_elem_of_fmap|Hno].
    + destruct (decide (x ∈ K)); [by apply list_elem_of_fmap_2|]. destruct Hn. right. exists x. split_and!; [|done|done].
      apply in_M in Hx as [?|[->|Hx]]; [done|lia|]. pose proof (rest_after x Hx). lia.
    + destruct Hn. left. apply (mt_I _ _ _ _ _ _ Hm). split; [lia|done].
  - intros (x & -> & Hx)%list_elem_of_fmap. pose proof (W4 x Hx) as Hd. pose proof (done_before x Hd).
    assert (x ∈ M) as HxM by (apply in_M; by left). destruct (M_lookup x HxM) as (_ & ? & _ & _ & HI & _).
    split; [|lia]. split; [|done]. intros [?|(y & H1 & H2 & E)]; [done|].
    assert (x = y) as ->; [|done]. apply (fmap_inj tv_index M); [apply increasing_NoDup, Hm|done|apply in_M; by left|done].
Qed.

(** ... so that the calculated position says that all rows before it were seen. *)
Lemma expected_seen :
  shifted_tv_index r = tv_index r - rk (insertions c) (tv_index r) + rk R' (prev_tv_index r) →
  ∀ y, y ∈ M → shifted_tv_index y < shifted_tv_index r → y ∈ seen.
Proof using EM Hm Hw.
  rewrite kept_count. intros E y Hy Hlt. pose proof r_in as Hrin. pose proof r_not_below as Hre.
  destruct (M_lookup r Hrin) as ([Hp _] & _ & _ & _ & _ & Esh).
  destruct Hw as [W1 W2 W3 W4 W5 W6 W7 W8 W9 W10 W11 W12].
  destruct (is_ok_ranges _ W1) as [Ro _], (is_ok_ranges _ (mt_D_ok _ _ _ _ _ _ Hm)) as [Rd _].
  assert (∀ x, x ∈ seen → x ∈ M) as HsM by (intros x Hx; apply in_M; by left).
  assert (∀ k, has D k → ¬ has R' k) as Hdis.
  { intros k Hd. rewrite W9. intros [HR|(x & Hx & _ & ->)].
    - apply (mt_R _ _ _ _ _ _ Hm) in HR. tauto.
    - destruct (M_lookup x (HsM x Hx)) as (_ & _ & ? & _). done. }
  pose proof (outside_count _ _ Rd Ro Hdis _ Hp) as Hc.
  set (A := filter _ _) in Hc. assert (length A = length K) as El by (unfold rk in *; lia).
  assert (∀ x, x ∈ A → x ∈ prev_tv_index <$> K) as Hcov.
  { apply covers; [by apply increasing_NoDup| |by rewrite length_fmap, El]. intros q (x & -> & Hx)%list_elem_of_fmap.
    pose proof (HsM x (W4 x Hx)) as HxM. destruct (M_lookup x HxM) as (? & _ & HD & HR & _).
    apply list_elem_of_filter. rewrite elem_of_seqZ, !memb_false_iff. split.
    - split; [exact HD|]. fold (has R' (prev_tv_index x)). rewrite W9. intros [?|(z & Hz & Hn & Ez)]; [done|].
      assert (x = z) as ->; [|done]. apply (fmap_inj prev_tv_index M); [apply Hm|done|by apply HsM|done].
    - assert (prev_tv_index x < prev_tv_index r); [|lia]. apply shifted_lt; [done|done|]. specialize (W7 x Hx). lia. }
  destruct (M_lookup y Hy) as (Hy0 & _ & HD & HR & _).
  pose proof (proj2 (shifted_lt y r Hy Hrin) Hlt) as Hyr.
  destruct (decide (mem (prev_tv_index y) (is_ranges R'))) as [Hin|Hn].
  - apply W9 in Hin as [?|(x & Hx & _ & Ex)]; [done|].
    assert (y = x) as ->; [|done]. apply (fmap_inj prev_tv_index M); [apply Hm|done|by apply HsM|done].
  - assert (prev_tv_index y ∈ prev_tv_index <$> K) as (x & Ex & Hx)%list_elem_of_fmap.
    { apply Hcov, list_elem_of_filter. rewrite elem_of_seqZ, !memb_false_iff. split; [by split|lia]. }
    assert (y = x) as ->; [|by apply W4]. apply (fmap_inj prev_tv_index M); [apply Hm|done|by apply HsM, W4|done].
Qed.

Lemma row_spec :
  ∃ e1 R1 c1 K1, moves_unsorted_row cands r (e, R', c) = Some (e1, R1, c1) ∧ walking c0 (seen ++ [r]) K1 e1 R1 c1.
Proof using EM Hm Hw small cands_ok settled.
  pose proof r_in as Hrin. pose proof (shifted_range r Hrin) as Hsr. pose proof (wk_e _ _ _ _ _ _ Hw) as He.
  destruct (M_lookup r Hrin) as (Hp & Hq & _). unfold moves_unsorted_row.
  destruct (Z.eqb_spec (shifted_tv_index r) e) as [Ee|Hne].
  { exists (e ⊕ 1), R', c, (K ++ [r]). split; [done|]. rewrite wadd_small by (unfold len in *; lia). rewrite <- Ee.
    apply step_keep. intros y Hy Hlt. apply (wk_seen _ _ _ _ _ _ Hw); [done|lia]. }
  rewrite is_contains_law by done. cbn [mbind option_bind].
  destruct (memb (row_index r) (is_ranges cands)) eqn:Ec; cbn [negb].
  2: { exists (shifted_tv_index r ⊕ 1), R', c, (K ++ [r]). split; [done|]. rewrite wadd_small by (unfold len in *; lia).
    apply step_keep. intros y Hy Hlt. pose proof (proj2 (shifted_lt y r Hy Hrin) Hlt) as Hyr.
    apply in_M in Hy as [?|[->|Hl]]; [done|lia|].
    assert (prev_tv_index r < prev_tv_index y); [|lia].
    apply settled; [done|apply in_M; by right; right|by apply rest_after|]. apply memb_false_iff. exact Ec. }
  pose proof kept_count as Hk. pose proof (wk_I_ok _ _ _ _ _ _ Hw) as WI. pose proof (wk_R_ok _ _ _ _ _ _ Hw) as WR.
  rewrite !is_count_to_law by (done || unfold len in *; lia). cbn [mbind option_bind].
  assert (tv_index r ⊖ rk (insertions c) (tv_index r) ⊕ rk R' (prev_tv_index r) =
          tv_index r - rk (insertions c) (tv_index r) + rk R' (prev_tv_index r)) as ->.
  { destruct (is_ok_ranges _ WR) as [Ro _]. unfold rk in *. pose proof (rank_le 0 (prev_tv_index r) _ Ro).
    pose proof (rank_nonneg (prev_tv_index r) (is_ranges R')). pose proof (rank_nonneg (tv_index r) (is_ranges (insertions c))).
    unfold len in *. wsimp. done. }
  destruct (Z.eqb_spec (shifted_tv_index r) (tv_index r - rk (insertions c) (tv_index r) + rk R' (prev_tv_index r))) as [Ex|].
  { pose proof (expected_seen Ex) as Hall. eexists _, R', c, (K ++ [r]). split; [done|]. rewrite <- Ex.
    rewrite wadd_small by (unfold len in *; lia). by apply step_keep. }
  destruct step_move as (s & R1 & E1 & E2 & Hw'). cbn [insertions Changes.with_moves].
  rewrite E1. cbn [mbind option_bind]. rewrite E2. cbn [mbind option_bind]. by eexists _, _, _, _.
Qed.
End step.

Lemma rows_spec l seen K e R' c c0 :
  M = seen ++ l → walking c0 seen K e R' c →
  ∃ e1 R1 c1 K1, foldM (moves_unsorted_row cands) l (e, R', c) = Some (e1, R1, c1) ∧ walking c0 M K1 e1 R1 c1.
Proof using Hm small cands_ok settled.
  revert seen K e R' c. induction l as [|r l IH]; intros seen K e R' c EM Hw; cbn [foldM].
  { rewrite app_nil_r in EM. subst. by eexists _, _, _, _. }
  destruct (row_spec c0 seen l K r e R' c EM Hw) as (e1 & R1 & c1 & K1 & -> & Hw1). cbn [mbind option_bind].
  apply (IH (seen ++ [r]) K1); [by rewrite <- app_assoc|done].
Qed.

(** At the end the kept rows are the ones that stay. *)
Lemma walking_aligned c0 K e R' c :
  walking c0 M K e R' c →
  alignment prev next ((λ r, (prev_tv_index r, tv_index r)) <$> K) (λ i, has D i ∨ has R' i) (has (insertions c)).
Proof using Hm.
  intros [W1 W2 W3 W4 W5 W6 W7 W8 W9 W10 W11 W12].
  assert (((λ r, (prev_tv_index r, tv_index r)) <$> K).*1 = prev_tv_index <$> K) as E1 by (by rewrite <- list_fmap_compose).
  assert (((λ r, (prev_tv_index r, tv_index r)) <$> K).*2 = tv_index <$> K) as E2 by (by rewrite <- list_fmap_compose).
  constructor; rewrite ?E1, ?E2; try done.
  - intros p q (r & [= -> ->] & Hr)%list_elem_of_fmap. destruct (mt_row _ _ _ _ _ _ Hm r (W4 r Hr)) as (? & ? & ? & ? & _).
    split_and!; [done|done|by exists (row_index r)].
  - intros p. rewrite W9, (mt_R _ _ _ _ _ _ Hm). split.
    + intros [Hd|[(H1 & H2 & H3)|(x & Hx & Hn & ->)]].
      * pose proof Hd as Hd'. apply (mt_D _ _ _ _ _ _ Hm) in Hd' as [? ?]. split; [split; [done|by eapply lookup_len]|].
        intros (x & -> & Hx)%list_elem_of_fmap. destruct (M_lookup x (W4 x Hx)) as (_ & _ & ? & _). done.
      * split; [done|]. intros (x & -> & Hx)%list_elem_of_fmap. apply H3. by apply list_elem_of_fmap_2, W4.
      * destruct (M_lookup x Hx) as (? & _). split; [done|]. intros (y & Ey & Hy)%list_elem_of_fmap.
        assert (x = y) as ->; [|done]. apply (fmap_inj prev_tv_index M); [apply Hm|done|by apply W4|done].
    + intros [Hp Hn]. destruct (decide (mem p (is_ranges D))); [by left|right].
      destruct (decide (p ∈ prev_tv_index <$> M)) as [(x & -> & Hx)%list_elem_of_fmap|]; [right|by left].
      exists x. split_and!; [done| |done]. intros HxK. by apply Hn, list_elem_of_fmap_2.
  - intros q. rewrite W10, (mt_I _ _ _ _ _ _ Hm). split.
    + intros [(H1 & H3)|(x & Hx & Hn & ->)].
      * split; [done|]. intros (x & -> & Hx)%list_elem_of_fmap. apply H3. by apply list_elem_of_fmap_2, W4.
      * destruct (M_lookup x Hx) as (_ & ? & _). split; [done|]. intros (y & Ey & Hy)%list_elem_of_fmap.
        assert (x = y) as ->; [|done]. apply (fmap_inj tv_index M); [apply increasing_NoDup, Hm|done|by apply W4|done].
    + intros [Hq Hn]. destruct (decide (q ∈ tv_index <$> M)) as [(x & -> & Hx)%list_elem_of_fmap|]; [right|by left].
      exists x. split_and!; [done| |done]. intros HxK. by apply Hn, list_elem_of_fmap_2.
Qed.
Lemma moves_unsorted_spec c :
  deletions c = D → insertions c = I →
  ∃ R' c' ks, calculate_moves_unsorted M R cands c = Some (R', c') ∧ is_ok R' ∧ is_ok (insertions c') ∧
    (∃ ms s, c' = Changes.with_insertions (Changes.with_moves c ms) s) ∧
    (∀ m, m ∈ moves c' → m ∈ moves c ∨ has R' m.1 ∧ has (insertions c') m.2 ∧ ∃ r, r ∈ M ∧ m = (prev_tv_index r, tv_index r)) ∧
    alignment prev next ks (λ i, has D i ∨ has R' i) (has (insertions c')).
Proof using Hm small cands_ok settled.
  intros Ed Ei. unfold calculate_moves_unsorted.
  destruct (rows_spec M [] [] 0 R c c) as (e & R' & c' & K & -> & Hw); [done| |].
  { destruct Hm as [? ? ? _ _ _ _ _ _ _]. constructor; try done.
    - by rewrite Ei.
    - unfold len. lia.
    - constructor.
    - constructor.
    - by intros ? ?%elem_of_nil.
    - intros r Hr. pose proof (shifted_range r Hr). lia.
    - intros p. split; [by left|]. by intros [?|(x & ?%elem_of_nil & _)].
    - intros q. rewrite Ei. split; [by left|]. by intros [?|(x & ?%elem_of_nil & _)].
    - intros m Hin. by left.
    - exists (moves c), (insertions c). by destruct c. }
  pose proof (walking_aligned _ _ _ _ _ Hw) as Hal.
  destruct Hw as [W1 W2 W3 W4 W5 W6 W7 W8 W9 W10 W11 W12]. cbn [mbind option_bind].
  exists R', c', ((λ r, (prev_tv_index r, tv_index r)) <$> K). split_and!; try done.
  intros m Hin. destruct (W11 m Hin) as [?|(r & ? & ? & ? & ?)]; [by left|right]. split_and!; [done|done|by exists r].
Qed.
End unsorted.

(** * What [calculate] promises

    The calculated change set turns the old rows into the new ones: its self check
    never fails, whatever the order of equal rows after a sort. *)

Import Calculate.

Section calculation.
Context {S : Type} {ops : IndexSets S} {laws : IndexSetLaws S} {sorts : Sorts} {sort_laws : SortLaws}.
Implicit Types (c : change_builder S).

(** The rows that a set of positions leaves over, in order. *)
Definition rows_outside (s : S) (l : list Z) : list Z := select l (left_out 0 (len l) (λ i, memb i (is_ranges s))).

(** The rows are in table order, and a row that is no candidate for a move is
    before all greater rows in the old list too. *)
Definition movable (prev next : list Z) (cands : S) : Prop :=
  increasing next ∧
  ∀ i j r r', prev !! i = Some r → prev !! j = Some r' → r ∈ next → r' ∈ next → r < r' → ¬ has cands r → (i < j)%nat.

Lemma is_sorted_increasing next : increasing next → is_sorted next = true.
Proof.
  induction 1 as [|x next Hn IH Hf]; [done|]. unfold is_sorted in *. destruct next as [|y next]; [done|].
  simpl in *. rewrite IH, andb_true_r. inversion Hf; subst. apply negb_true_iff, Z.ltb_ge. lia.
Qed.

(** The function object answers [changed] for the rows [rows], whatever it was asked before; [I] holds of its states. *)
Definition answers_for {C} (did : Z → C → option (C * bool)) (I : C → Prop) (changed : Z → Prop) (rows : list Z) : Prop :=
  ∀ st r, r ∈ rows → I st → ∃ st' b, did r st = Some (st', b) ∧ I st' ∧ (b = true ↔ changed r).

Lemma modified_spec {C} (did : Z → C → option (C * bool)) (I : C → Prop) (changed : Z → Prop) (M : list RowInfo) (st : C) (s : S) :
  answers_for did I changed (row_index <$> M) → I st → is_ok s → (∀ r, r ∈ M → 0 <= tv_index r < npos) →
  ∃ st' s', foldM (modified_row did) M (st, s) = Some (st', s') ∧ is_ok s' ∧
    ∀ j, has s' j ↔ has s j ∨ ∃ r, r ∈ M ∧ changed (row_index r) ∧ j = tv_index r.
Proof.
  revert st s. induction M as [|r M IH]; intros st s Hdid Hst Hs HM; cbn [foldM].
  { exists st, s. split; [done|]. split; [done|]. intros j. split; [by left|]. by intros [?|(x & ?%elem_of_nil & _)]. }
  destruct (Hdid st (row_index r)) as (st1 & b & E & Hst1 & Hb); [left|done|]. 
  assert (modified_row did r (st, s) = (s ← (if b then is_add s (tv_index r) else Some s); Some (st1, s))) as -> by (unfold modified_row; by rewrite E).
  assert (∃ s', (if b then is_add s (tv_index r) else Some s) = Some s' ∧ is_ok s' ∧
    ∀ j, has s' j ↔ has s j ∨ changed (row_index r) ∧ j = tv_index r) as (s' & -> & Hs' & Hm').
  { destruct b.
    - destruct (is_add_law s (tv_index r) Hs) as (s' & ? & ? & Hm); [apply HM; by left|]. exists s'.
      split; [done|]. split; [done|]. intros j. rewrite Hm. tauto.
    - exists s. split; [done|]. split; [done|]. intros j. split; [by left|]. intros [?|[?%Hb _]]; done. }
  cbn [mbind option_bind]. destruct (IH st1 s') as (st2 & t & -> & Ht & Hmt); [intros x y Hy; apply Hdid; by right|done|done|intros; apply HM; by right|].
  exists st2, t. split; [done|]. split; [done|]. intros j. rewrite Hmt, Hm'. split.
  - intros [[?|[? ->]]|(x & ? & ? & ->)]; [by left|right; exists r|right; exists x]; rewrite elem_of_cons; tauto.
  - intros [?|(x & [->|?]%elem_of_cons & ? & ->)]; [tauto|tauto|right; by exists x].
Qed.

Lemma verify_moves c :
  is_ok (deletions c) → is_ok (insertions c) → (∀ m, m ∈ moves c → has (deletions c) m.1 ∧ has (insertions c) m.2) →
  Changes.verify c = Some tt.
Proof.
  intros Hd Hi Hm. unfold Changes.verify. induction (moves c) as [|m ms IH]; [done|]. cbn [foldM].
  destruct (Hm m) as [H1 H2]; [by left|]. rewrite !is_contains_law by done. cbn [mbind option_bind].
  rewrite !(proj2 (memb_mem _ _)) by done. cbn. apply IH. intros x Hx. apply Hm. by right.
Qed.

Section result.
Context (prev next : list Z) (changed : Z → Prop) (M : list RowInfo) (D R I : S).
Hypothesis Hm : matching prev next M D R I.
Hypothesis small : len prev + len next < npos.

Lemma settled_rows cands :
  movable prev next cands → ∀ x y, x ∈ M → y ∈ M → tv_index x < tv_index y → ¬ has cands (row_index x) →
  prev_tv_index x < prev_tv_index y.
Proof using Hm.
  intros [Hinc Hmov] x y Hx Hy Hlt Hn.
  destruct (mt_row _ _ _ _ _ _ Hm x Hx) as (A1 & A2 & A3 & A4 & _), (mt_row _ _ _ _ _ _ Hm y Hy) as (B1 & B2 & B3 & B4 & _).
  assert (row_index x < row_index y) by (apply (increasing_lookup next (Z.to_nat (tv_index x)) (Z.to_nat (tv_index y))); [done..|lia]).
  pose proof (Hmov _ _ _ _ A3 B3) as Hij. assert (Z.to_nat (prev_tv_index x) < Z.to_nat (prev_tv_index y))%nat; [|lia].
  apply Hij; [by eapply list_elem_of_lookup_2..|done|done].
Qed.

(** Both ways to find the moves lead to an alignment. *)
Lemma moves_found modified cands :
  is_ok modified → match cands with None => True | Some s => is_ok s ∧ movable prev next s end →
  ∃ R' c' ks, match cands with
              | Some s => calculate_moves_unsorted M R s (Build D I modified [] [] ∅ true)
              | None => c ← calculate_moves_sorted M (Build D I modified [] [] ∅ true); Some (R, c)
              end = Some (R', c') ∧
    is_ok R' ∧ is_ok (deletions c') ∧ is_ok (insertions c') ∧ modifications c' = modified ∧
    (∀ m, m ∈ moves c' → has R' m.1 ∧ has (insertions c') m.2 ∧ ∃ r, r ∈ M ∧ m = (prev_tv_index r, tv_index r)) ∧
    (∀ i, has D i → has (deletions c') i) ∧
    alignment prev next ks (λ i, has (deletions c') i ∨ has R' i) (has (insertions c')).
Proof using Hm small sort_laws.
  intros Hmod Hc. destruct cands as [s|].
  - destruct Hc as [Hs Hmov].
    destruct (moves_unsorted_spec prev next M D R I s Hm small Hs (settled_rows s Hmov) (Build D I modified [] [] ∅ true))
      as (R' & c' & ks & -> & HR & HI & (ms & t & ->) & Hmv & Ha); [done|done|].
    eexists R', _, ks. split; [done|]. split_and!; try done; [apply Hm|].
    intros m Hin. destruct (Hmv m Hin) as [?%elem_of_nil|?]; done.
  - destruct (moves_sorted_spec prev next M D R I Hm ltac:(unfold len in *; lia) (Build D I modified [] [] ∅ true))
      as (c' & ks & -> & (d & t & ->) & Hd & Hi & Hsub & Ha); [done|done|done|].
    eexists R, _, ks. split; [done|]. split_and!; try done; [apply Hm|]. by intros m ?%elem_of_nil.
Qed.

(** A row that was there before is matched. *)
Lemma modified_row_matched (Hnd : NoDup next) j r :
  0 <= j → next !! Z.to_nat j = Some r → r ∈ prev → r ≠ npos → changed r →
  ∃ x, x ∈ M ∧ changed (row_index x) ∧ j = tv_index x.
Proof using Hm.
  intros Hj Hl Hin Hne Hch.
  assert (∀ x, x ∈ M → row_index x = r → j = tv_index x) as Hx.
  { intros x Hx E. destruct (mt_row _ _ _ _ _ _ Hm x Hx) as (_ & H1 & _ & H2 & _). rewrite E in H2.
    pose proof (NoDup_lookup next _ _ _ Hnd Hl H2). lia. }
  destruct (decide (j ∈ tv_index <$> M)) as [(x & -> & HxM)%list_elem_of_fmap|Hn].
  { exists x. split_and!; [done| |done]. destruct (mt_row _ _ _ _ _ _ Hm x HxM) as (_ & _ & _ & H2 & _). congruence. }
  assert (has I j) as HI by (apply (mt_I _ _ _ _ _ _ Hm); split; [split; [done|by eapply lookup_len]|done]).
  apply list_elem_of_lookup in Hin as [i Hi]. assert (prev !! Z.to_nat (Z.of_nat i) = Some r) as Hi' by (by rewrite Nat2Z.id).
  destruct (decide (Z.of_nat i ∈ prev_tv_index <$> M)) as [(x & E & HxM)%list_elem_of_fmap|Hno].
  - exists x. assert (row_index x = r) as Er.
    { destruct (mt_row _ _ _ _ _ _ Hm x HxM) as (_ & _ & H1 & _). rewrite <- E in H1. congruence. }
    split_and!; [done|congruence|by apply Hx].
  - assert (has R (Z.of_nat i)) as HR.
    { apply (mt_R _ _ _ _ _ _ Hm). split; [split; [lia|eapply lookup_len; [lia|done]]|]. split; [|done].
      rewrite (mt_D _ _ _ _ _ _ Hm). intros [_ E]. congruence. }
    destruct (mt_max _ _ _ _ _ _ Hm _ _ HR HI). congruence.
Qed.
End result.

Lemma calculate_spec {C} prev next (did : Z → C → option (C * bool)) (I : C → Prop) (changed : Z → Prop) st cands :
  len prev + len next < npos → answers_for did I changed next → I st →
  match cands with None => True | Some s => is_ok s ∧ movable prev next s end →
  ∃ c, calculate prev next did st cands = Some c ∧
    rows_outside (deletions c) prev = rows_outside (insertions c) next ∧
    (∀ i, has (deletions c) i → 0 <= i < len prev) ∧ (∀ j, has (insertions c) j → 0 <= j < len next) ∧
    (∀ i, 0 <= i → prev !! Z.to_nat i = Some npos → has (deletions c) i) ∧
    (∀ j, has (modifications c) j → ∃ r, next !! Z.to_nat j = Some r ∧ r ∈ prev ∧ changed r) ∧
    (NoDup next → ∀ j r, 0 <= j → next !! Z.to_nat j = Some r → r ∈ prev → r ≠ npos → changed r → has (modifications c) j) ∧
    (∀ m, m ∈ moves c → has (deletions c) m.1 ∧ has (insertions c) m.2 ∧ prev !! Z.to_nat m.1 = next !! Z.to_nat m.2).
Proof.
  intros small Hdid Hst Hc. destruct (matching_found prev next) as (old & D & l & R & In & E1 & E2 & Hm); [unfold len in *; lia..|].
  set (M := sort_by by_tv (present l)) in *. unfold calculate.
  assert (match cands with None => true | Some _ => is_sorted next end = true) as ->.
  { destruct cands as [s|]; [|done]. destruct Hc as [_ [Hi _]]. by apply is_sorted_increasing. }
  cbn [check mbind option_bind]. rewrite E1. cbn [mbind option_bind]. rewrite E2. cbn [mbind option_bind].
  fold (present l). fold M.
  destruct (modified_spec did I changed M st is_new) as (st' & modified & -> & Hmod & Hmm);
    [|done|by apply is_new_ok|intros r Hr; apply (matching_tv_bound prev next M D R In Hm); [unfold len in *; lia|by apply list_elem_of_fmap_2]|].
  { intros st1 r (x & -> & Hx)%list_elem_of_fmap. apply Hdid. destruct (mt_row _ _ _ _ _ _ Hm x Hx) as (_ & _ & _ & H2 & _).
    by eapply list_elem_of_lookup_2. }
  cbn [mbind option_bind].
  destruct (moves_found prev next M D R In Hm small modified cands Hmod Hc)
    as (R' & c & ks & -> & HR & Hd & Hi & Emod & Hmv & Hsub & Ha). cbn [mbind option_bind].
  destruct (is_add_set_law (deletions c) R' Hd HR) as (d & -> & Hdok & Hdm). cbn [mbind option_bind].
  assert (alignment prev next ks (has d) (has (insertions c))) as Ha'.
  { destruct Ha as [A1 A2 A3 A4 A5]. constructor; try done. intros i. by rewrite Hdm, A4. }
  rewrite verify_moves; [|done|done|].
  2: { intros m Hin. destruct (Hmv m Hin) as (H1 & H2 & _). split; [apply Hdm; by right|done]. }
  cbn [mbind option_bind]. rewrite (self_check_aligned (Changes.with_deletions c d) prev next ks) by done.
  eexists. split; [done|]. simpl. split_and!.
  - unfold rows_outside. rewrite (alignment_old _ _ _ _ _ _ Ha'), (alignment_new _ _ _ _ _ _ Ha'); [|intros j; by rewrite memb_mem|done].
    by apply (alignment_select _ _ _ _ _ Ha').
  - intros i. rewrite (al_deleted _ _ _ _ _ Ha'). tauto.
  - intros j. rewrite (al_inserted _ _ _ _ _ Ha'). tauto.
  - intros i Hi0 Hi1. apply Hdm. left. apply Hsub, (mt_D _ _ _ _ _ _ Hm). by split.
  - intros j. rewrite Emod, Hmm. intros [[]%has_new|(r & Hr & Hch & ->)].
    destruct (mt_row _ _ _ _ _ _ Hm r Hr) as (_ & _ & H1 & H2 & _). exists (row_index r).
    split_and!; [done|by eapply list_elem_of_lookup_2|done].
  - intros Hnd j r Hj Hl Hin Hne Hch. rewrite Emod, Hmm. right. by apply (modified_row_matched prev next changed M D R In Hm Hnd j r).
  - intros m Hin. destruct (Hmv m Hin) as (H1 & H2 & r & Hr & ->). simpl in *.
    destruct (mt_row _ _ _ _ _ _ Hm r Hr) as (_ & _ & H3 & H4 & _). rewrite Hdm, H3, H4. tauto.
Qed.

(** C13: the calculation succeeds: no assertion fails, neither in the search for the
    longest common subsequence nor in the self check at the end.  The change set
    turns the old rows into the new ones: the rows that are not deleted are, in
    order, the rows that are not inserted, and the rows whose objects are gone are
    deleted.  The modified positions hold rows that were there before and did change,
    and all of them when no row is listed twice; moves lead from a deleted to an inserted
    position of the same row.  The function object that is asked about the rows may change its state with every question.  With
    candidates for moves (results in table order) it is assumed that the new rows are sorted and that a row that is no candidate was
    before all greater rows in the old list too, as it is when rows move towards the front of the table only; after a swap of rows
    the self check can fail ([calculate_rejects_swaps]). *)
Theorem calculate_correct {C} prev next (did : Z → C → option (C * bool)) (I : C → Prop) (changed : Z → Prop) st cands :
  len prev + len next < npos → answers_for did I changed next → I st →
  match cands with None => True | Some s => is_ok s ∧ movable prev next s end →
  ∃ c, calculate prev next did st cands = Some c ∧
    rows_outside (deletions c) prev = rows_outside (insertions c) next ∧
    (∀ i, has (deletions c) i → 0 <= i < len prev) ∧ (∀ j, has (insertions c) j → 0 <= j < len next) ∧
    (∀ i, 0 <= i → prev !! Z.to_nat i = Some npos → has (deletions c) i) ∧
    (∀ j, has (modifications c) j → ∃ r, next !! Z.to_nat j = Some r ∧ r ∈ prev ∧ changed r) ∧
    (NoDup next → ∀ j r, 0 <= j → next !! Z.to_nat j = Some r → r ∈ prev → r ≠ npos → changed r → has (modifications c) j) ∧
    (∀ m, m ∈ moves c → has (deletions c) m.1 ∧ has (insertions c) m.2 ∧ prev !! Z.to_nat m.1 = next !! Z.to_nat m.2).
Proof. apply calculate_spec. Qed.
End calculation.

(** ** Instances on concrete rows *)

#[local] Existing Instance debug_build.

Definition one_candidate : vec := [Chunk [(1, 2)] 1 2 1].

(** Row 4 is gone and row 7 moved into the place of row 1. *)
Lemma calculate_witness :
  ∃ c, calculate (S := vec) [npos; 1; 3; 5] [1; 3; 5; 6] (λ r asked, Some (asked + 1, r =? 5)) 0 (Some one_candidate) = Some c ∧
    rows_outside (deletions c) [npos; 1; 3; 5] = rows_outside (insertions c) [1; 3; 5; 6] ∧
    (∀ i, has (deletions c) i → 0 <= i < 4) ∧ (∀ j, has (insertions c) j → 0 <= j < 4) ∧
    (∀ i, 0 <= i → [npos; 1; 3; 5] !! Z.to_nat i = Some npos → has (deletions c) i) ∧
    (∀ j, has (modifications c) j → ∃ r, [1; 3; 5; 6] !! Z.to_nat j = Some r ∧ r ∈ [npos; 1; 3; 5] ∧ r = 5) ∧
    (NoDup [1; 3; 5; 6] → ∀ j r, 0 <= j → [1; 3; 5; 6] !! Z.to_nat j = Some r → r ∈ [npos; 1; 3; 5] → r ≠ npos → r = 5 →
       has (modifications c) j) ∧
    (∀ m, m ∈ moves c → has (deletions c) m.1 ∧ has (insertions c) m.2 ∧
       [npos; 1; 3; 5] !! Z.to_nat m.1 = [1; 3; 5; 6] !! Z.to_nat m.2).
Proof.
  apply (calculate_correct [npos; 1; 3; 5] [1; 3; 5; 6] (λ r asked, Some (asked + 1, r =? 5)) (λ _, True) (λ r, r = 5) 0 (Some one_candidate));
    [reflexivity| |done|].
  { intros asked r _ _. exists (asked + 1), (r =? 5). split_and!; [done..|apply Z.eqb_eq]. }
  split; [by apply set_okb_ok|]. split; [repeat constructor|].
  intros i j r r' Hi Hj Hr Hr' Hlt Hn.
  destruct i as [|[|[|[|i]]]], j as [|[|[|[|j]]]]; simplify_eq/=; try lia.
  all: rewrite ?elem_of_cons, ?elem_of_nil in *; intuition lia.
Defined.

(** In the search below a match, the end of the match in [a] is compared with the
    end of the range in [b]: row 4 is deleted and inserted again, although 2, 4, 6
    and 7 keep their order. *)
Theorem diff_not_minimal :
  calculated [1; 2; 3; 4; 5; 6; 7] [2; 4; 6; 7; 1; 3; 5] (λ _, false) None =
    Some ([(0, 1); (2, 5)], [(1, 2); (4, 7)], [], []) ∧
  select [1; 2; 3; 4; 5; 6; 7] [1; 3; 5; 6] = select [2; 4; 6; 7; 1; 3; 5] [0; 1; 2; 3].
Proof. by vm_compute. Qed.

(** A swap may move a row towards the end of the table.  The rows were 1, 2 and 3;
    swaps moved row 1 to 5 and row 2 to 4: the calculation takes row 4 for a row
    that kept its place, and its self check fails. *)
Theorem calculate_rejects_swaps :
  calculated [5; 4; 3] [3; 4; 5] (λ _, false) (Some [4; 5]) = None.
Proof. by vm_compute. Qed.
