(* ===== verification/Recording.v ===== *)
(** * A recorded change set describes the difference of two lists

    The operations on a list, what each does to the list and what the transaction
    log observer records for it, and the refinement: after any sequence of
    operations, the change set relates the list before to the list after. *)

From stdpp Require Import gmap.
From S2P Require Import Prelude RangeSet IndexSetEdits Ranks IndexSetInterface ChangeBuilder ChangeBuilderSpec ChangeBuilderMove ChangeBuilderTheorems.
Import Changes.

(** ** Operations on a list *)

Inductive list_op (A : Type) :=
  | op_set (index : Z) (x : A)
  | op_insert (index : Z) (x : A)
  | op_erase (index : Z)
  | op_move (from to : Z)
  | op_swap (index1 index2 : Z)
  | op_clear.
Arguments op_set {A}.
Arguments op_insert {A}.
Arguments op_erase {A}.
Arguments op_move {A}.
Arguments op_swap {A}.
Arguments op_clear {A}.

Definition insert_at {A} (k : nat) (x : A) (l : list A) : list A := take k l ++ x :: drop k l.

(** The list after the operation; [None] when an index is out of range. *)
Definition apply_op {A} (l : list A) (o : list_op A) : option (list A) :=
  let n := Z.of_nat (length l) in
  let inside i := (0 <=? i) && (i <? n) in
  match o with
  | op_set i x => if inside i then Some (<[Z.to_nat i := x]> l) else None
  | op_insert i x => if (0 <=? i) && (i <=? n) then Some (insert_at (Z.to_nat i) x l) else None
  | op_erase i => if inside i then Some (delete (Z.to_nat i) l) else None
  | op_move from to =>
      if inside from && inside to && negb (from =? to) then
        x ← l !! Z.to_nat from;
        Some (insert_at (Z.to_nat to) x (delete (Z.to_nat from) l))
      else None
  | op_swap i j =>
      if inside i && inside j then
        x ← l !! Z.to_nat i; y ← l !! Z.to_nat j;
        Some (<[Z.to_nat j := x]> (<[Z.to_nat i := y]> l))
      else None
  | op_clear => Some []
  end.

(** What the observer records for the operation on a list of length [n]. *)
Definition record_op {A S} `{IndexSets S} (n : Z) (o : list_op A) (c : change_builder S) : option (change_builder S) :=
  match o with
  | op_set i _ => modify c i npos
  | op_insert i _ => insert c i 1 true
  | op_erase i => erase c i
  | op_move from to => move c from to
  | op_swap i j => c ← modify c i npos; modify c j npos
  | op_clear => clear c n
  end.

(** Both, for a sequence of operations. *)
Fixpoint apply_ops {A} (l : list A) (ops : list (list_op A)) : option (list A) :=
  match ops with [] => Some l | o :: ops => l' ← apply_op l o; apply_ops l' ops end.

Fixpoint record_ops {A S} `{IndexSets S} (l : list A) (ops : list (list_op A)) (c : change_builder S) : option (change_builder S) :=
  match ops with
  | [] => Some c
  | o :: ops => c' ← record_op (Z.of_nat (length l)) o c; l' ← apply_op l o; record_ops l' ops c'
  end.

(** ** Lookups *)

Section lookups.
Context {A : Type}.
Implicit Types (l : list A) (x : A).

(** The element at a [size_t] position. *)
Definition at_pos l (j : Z) : option A := l !! Z.to_nat j.

Lemma insert_at_length k x l : length (insert_at k x l) = Datatypes.S (length l).
Proof. unfold insert_at. rewrite length_app. simpl. rewrite length_take, length_drop. lia. Qed.

Lemma at_insert_at i x l j :
  0 <= i <= Z.of_nat (length l) → 0 <= j →
  at_pos (insert_at (Z.to_nat i) x l) (after_insert i 1 j) = at_pos l j.
Proof.
  intros Hi Hj. unfold at_pos, insert_at, after_insert. destruct (Z.ltb_spec j i).
  - rewrite lookup_app_l, lookup_take_lt; [done|lia|rewrite length_take; lia].
  - rewrite lookup_app_r, length_take by (rewrite length_take; lia).
    replace (Z.to_nat (j + 1) - Nat.min (Z.to_nat i) (length l))%nat
      with (Datatypes.S (Z.to_nat j - Z.to_nat i)) by lia.
    simpl. rewrite lookup_drop. f_equal. lia.
Qed.

Lemma at_insert_at_new i x l :
  0 <= i <= Z.of_nat (length l) → at_pos (insert_at (Z.to_nat i) x l) i = Some x.
Proof.
  intros Hi. unfold at_pos, insert_at. rewrite lookup_app_r, length_take by (rewrite length_take; lia).
  by replace (Z.to_nat i - Nat.min (Z.to_nat i) (length l))%nat with 0%nat by lia.
Qed.

Lemma at_delete i l j j' :
  0 <= i → 0 <= j → after_erase i j j' → at_pos (delete (Z.to_nat i) l) j' = at_pos l j.
Proof.
  intros Hi Hj (Hne & ->). unfold at_pos. destruct (Z.ltb_spec j i).
  - rewrite list_lookup_delete_lt; [done|lia].
  - rewrite list_lookup_delete_ge by lia. f_equal. lia.
Qed.

Lemma at_move from to x l j :
  0 <= from < Z.of_nat (length l) → 0 <= to < Z.of_nat (length l) → 0 <= j → at_pos l from = Some x →
  at_pos (insert_at (Z.to_nat to) x (delete (Z.to_nat from) l)) (after_move from to j) = at_pos l j.
Proof.
  intros Hf Ht Hj Hx. pose proof (length_delete l (Z.to_nat from)) as Hl.
  assert (is_Some (l !! Z.to_nat from)) as Hs by (by exists x). specialize (Hl Hs).
  destruct (Z.eq_dec j from) as [->|Hne].
  - unfold after_move. rewrite Z.eqb_refl. rewrite at_insert_at_new by lia. done.
  - assert (after_erase from j (if j <? from then j else j - 1)) as He by done.
    rewrite <- (after_move_erase_insert from to j _) with (1 := proj1 Hf) (2 := proj1 Ht) (3 := He).
    rewrite at_insert_at; [|lia|].
    + by apply at_delete; [lia|lia|].
    + destruct (Z.ltb_spec j from); lia.
Qed.
End lookups.

(** ** The refinement *)

Section refinement.
Context {A S : Type} `{IndexSetLaws S}.
Implicit Types (c : change_builder S) (s : S) (old new : list A).

Lemma rk_of s (f : Z → Z) :
  is_ok s → f 0 = 0 → (∀ j, 0 <= j → f (j + 1) = f j + (if memb j (is_ranges s) then 1 else 0)) →
  ∀ j, 0 <= j → rk s j = f j.
Proof. intros Hs. apply rank_char. by apply ok_sorted. Qed.

Lemma rk_none s j : is_ok s → (∀ j, ¬ has s j) → 0 <= j → rk s j = 0.
Proof.
  intros Hs Hn. apply (rk_of s (λ _, 0)); [done|done|]. intros k _. rewrite memb_false; [done|apply Hn].
Qed.

Lemma rk_initial s n j : is_ok s → 0 <= n → (∀ j, has s j ↔ 0 <= j < n) → 0 <= j → rk s j = Z.min j n.
Proof.
  intros Hs Hn Hm. revert j. apply (rk_of s (λ j, Z.min j n)); [done|lia|]. intros j Hj.
  destruct (Z.lt_ge_cases j n).
  - rewrite (memb_iff j _ (0 <= j < n) true) by (try apply Hm; intuition lia). lia.
  - rewrite memb_false by (intros M; apply Hm in M; lia). lia.
Qed.

Lemma rk_size N s : is_ok s → 0 <= N → below_bound N s → rk s N = size s.
Proof.
  intros Hs HN Hb. pose proof (ok_sorted s Hs) as Ho. apply (rank_above 0); [done|].
  destruct (snoc_cases (is_ranges s)) as [E|(l & r & E)]; [rewrite E; simpl; lia|].
  rewrite E, next_lo_snoc. rewrite E in Ho. apply ranges_ok_app in Ho as [_ Ho]. simpl in Ho.
  assert (has s (r.2 - 1)) as Hr by (unfold has; rewrite E, mem_app, mem_cons; lia).
  specialize (Hb _ Hr). lia.
Qed.

(** The rows beyond both lists correspond. *)
Definition tail_kept c (n_old n_new : Z) : Prop := ∀ t, 0 <= t → kept c (n_old + t) (n_new + t).

(** The change set [c] describes the difference of [old] and [new]: rows that
    are followed are the same, unless they were modified. *)
Definition tracks c old new : Prop :=
  wf c ∧ moves_ok c ∧ columns c = [] ∧
  tail_kept c (Z.of_nat (length old)) (Z.of_nat (length new)) ∧
  below_bound (Z.of_nat (length new)) (modifications c) ∧
  ∀ i j, follows c i j → j < Z.of_nat (length new) →
    0 <= i < Z.of_nat (length old) ∧ (has (modifications c) j ∨ at_pos old i = at_pos new j).

Lemma tail_below c n m : wf c → 0 <= n → 0 <= m → tail_kept c n m →
  below_bound n (deletions c) ∧ below_bound m (insertions c).
Proof.
  intros (Hd & Hi & _) Hn Hm Ht. split; intros j Hj; apply Z.nle_gt; intros Hle.
  - specialize (Ht (j - n)). replace (n + (j - n)) with j in Ht by lia.
    destruct Ht as (_ & _ & _ & Ht & _); [lia|done].
  - specialize (Ht (j - m)). replace (m + (j - m)) with j in Ht by lia.
    destruct Ht as (_ & _ & Ht & _); [lia|done].
Qed.

Lemma tracks_within c old new :
  tracks c old new → within (Z.of_nat (length old + length new)) c.
Proof.
  intros (Hwf & _ & Ec & Ht & Hm & _). destruct (tail_below c (Z.of_nat (length old)) (Z.of_nat (length new))) as [Hd Hi]; [done|lia|lia|done|].
  unfold within. rewrite Ec. split_and!; [lia|..|done]; intros j Hj;
    [specialize (Hd j Hj)|specialize (Hi j Hj)|specialize (Hm j Hj)]; lia.
Qed.

(** A fresh change set describes no difference. *)
Lemma tracks_new old : tracks Changes.new old old.
Proof.
  destruct is_new_ok as [Hok Er].
  assert (∀ j, ¬ has (is_new (S := S)) j) as Hn by (intros j; unfold has; rewrite Er; by intros []%mem_nil).
  assert (∀ i j, kept (Changes.new : change_builder S) i j ↔ 0 <= i ∧ i = j) as Hk.
  { intros i j. unfold kept, rk. simpl. rewrite Er. simpl. pose proof (Hn i). pose proof (Hn j). intuition lia. }
  split; [by split_and!|]. split; [split_and!; simpl; try constructor; intros; by apply elem_of_nil in H1|].
  split; [done|]. split; [intros t Ht; apply Hk; lia|]. split; [intros j Hj; by apply Hn in Hj|].
  intros i j [Hij|Hij] Hlt; [|by apply elem_of_nil in Hij]. apply Hk in Hij as [? ->]. split; [lia|by right].
Qed.

Lemma follows_nonneg c i j : wf c → moves_ok c → follows c i j → 0 <= i ∧ 0 <= j.
Proof.
  intros (Hd & Hi & _) (Hm & _) [(? & ? & _)|Hij]; [done|]. apply Hm in Hij as [? ?].
  split; [by apply (has_nonneg (deletions c))|by apply (has_nonneg (insertions c))].
Qed.

Lemma cols_nil R c c' : columns c = [] → cols_related R c c' → columns c' = [].
Proof.
  intros E [_ Hc]. destruct (track_columns c); [|by rewrite Hc]. rewrite E in Hc. by inversion Hc.
Qed.

(** A step that relocates the rows by [f], where the lists agree on [f]. *)
Lemma tracks_step c c' old new new' (R : Z → Z → Prop) (R' : (Z → Prop) → Z → Prop) :
  tracks c old new → wf c' → moves_ok c' → cols_related R' c c' → relocates c c' R →
  tail_kept c' (Z.of_nat (length old)) (Z.of_nat (length new')) →
  (∀ P j', R' P j' → ∃ j, P j ∧ R j j') → (∀ P j j', P j → R j j' → R' P j') →
  (∀ j j', 0 <= j → R j j' → (j < Z.of_nat (length new) ↔ j' < Z.of_nat (length new')) ∧ at_pos new j = at_pos new' j') →
  tracks c' old new'.
Proof.
  intros (Hwf & Hmv & Ec & Ht & Hm & Hf) Hwf' Hmv' Hcols Hrel Htail HR' HR'' HR.
  split; [done|]. split; [done|]. split; [by eapply cols_nil|]. split; [done|]. split.
  - intros j' Hj'. apply Hcols in Hj'. destruct (HR' _ _ Hj') as (j & Hj & Hjj).
    pose proof (Hm j Hj). apply (HR j); [|done|done]. apply (has_nonneg (modifications c)); [|done].
    by destruct Hwf as (_ & _ & ? & _).
  - intros i j' Hij' Hlt. apply Hrel in Hij' as (j & Hij & Hjj).
    destruct (follows_nonneg c i j Hwf Hmv Hij) as [_ Hj0]. destruct (HR j j' Hj0 Hjj) as [Hlen Hat].
    destruct (Hf i j Hij) as [Hi [Hmod|He]]; [by apply Hlen| |].
    + split; [done|]. left. apply Hcols. by apply (HR'' _ j).
    + split; [done|]. right. by rewrite He.
Qed.

(** ** Each operation *)

Lemma track_set c old new i x :
  tracks c old new → 0 <= i < Z.of_nat (length new) → Z.of_nat (length new) < npos →
  ∃ c', modify c i npos = Some c' ∧ tracks c' old (<[Z.to_nat i := x]> new).
Proof.
  intros ((Hd & Hi & Hm & Hc) & Hmv & Ec & Ht & Hb & Hf) Hir Hn. unfold modify.
  destruct (is_add_law (modifications c) i Hm) as (m' & -> & Hm' & Hmm); [lia|]. simpl.
  rewrite orb_true_r. eexists. split; [done|]. unfold tracks. rewrite length_insert.
  split; [by split_and!|]. split; [done|]. split; [done|]. split; [done|]. simpl. split.
  - intros j [->|Hj]%Hmm; [lia|by apply Hb].
  - intros i' j Hij Hlt. destruct (Hf i' j Hij Hlt) as [Hi' Hor]. split; [done|]. rewrite Hmm.
    destruct (Z.eq_dec j i) as [->|Hne]; [by left; left|].
    destruct Hor as [?|E]; [by left; right|]. right. rewrite E. unfold at_pos.
    destruct (follows_nonneg c i' j) as [_ Hj]; [by split_and!|done|done|].
    rewrite list_lookup_insert_ne; [done|lia].
Qed.

Lemma tail_step c c' n m m' (R : Z → Z → Prop) :
  keeps c c' R → tail_kept c n m → 0 <= m → (∀ t, 0 <= t → R (m + t) (m' + t)) → tail_kept c' n m'.
Proof. intros Hk Ht Hm HR t Htp. apply Hk. exists (m + t). split; [by apply Ht|by apply HR]. Qed.

Lemma track_insert c old new i x :
  tracks c old new → 0 <= i <= Z.of_nat (length new) → Z.of_nat (length old + length new) + 1 < npos →
  ∃ c', insert c i 1 true = Some c' ∧ tracks c' old (insert_at (Z.to_nat i) x new).
Proof.
  intros Htr Hir Hn. pose proof Htr as (Hwf & Hmv & _ & Ht & _).
  destruct (insert_spec (Z.of_nat (length old + length new)) c i 1) as (c' & -> & Hwf' & Hmv' & Hrel & Hk & Hcols);
    [done|by apply tracks_within|done|lia..|].
  exists c'. split; [done|]. eapply tracks_step; try done; rewrite ?insert_at_length.
  - eapply tail_step; [done|done|lia|]. intros t Htp. unfold after_insert.
    destruct (Z.ltb_spec (Z.of_nat (length new) + t) i); lia.
  - intros P j'. apply shifted_after_insert.
  - intros P j j' Hj Hjj. apply shifted_after_insert. by exists j.
  - intros j j' Hj ->. split; [|by rewrite at_insert_at by lia].
    unfold after_insert. destruct (Z.ltb_spec j i); lia.
Qed.

Lemma track_erase c old new i :
  tracks c old new → 0 <= i < Z.of_nat (length new) → 2 * Z.of_nat (length old + length new) < npos →
  ∃ c', erase c i = Some c' ∧ tracks c' old (delete (Z.to_nat i) new).
Proof.
  intros Htr Hir Hn. pose proof Htr as (Hwf & Hmv & _ & Ht & _).
  assert (length (delete (Z.to_nat i) new) = (length new - 1)%nat) as El.
  { apply length_delete, lookup_lt_is_Some. lia. }
  destruct (erase_spec (Z.of_nat (length old + length new)) c i) as (c' & -> & Hwf' & Hmv' & Hrel & Hk & Hcols);
    [done|by apply tracks_within|done|lia..|].
  exists c'. split; [done|]. eapply tracks_step; try done; rewrite ?El.
  - eapply tail_step; [done|done|lia|]. intros t Htp. unfold after_erase.
    destruct (Z.ltb_spec (Z.of_nat (length new) + t) i); lia.
  - intros P j'. apply erased_after_erase.
  - intros P j j' Hj Hjj. apply erased_after_erase. by exists j.
  - intros j j' Hj Hjj. split; [|symmetry; by apply at_delete; [lia|lia|]].
    destruct Hjj as [Hne ->]. destruct (Z.ltb_spec j i); lia.
Qed.

Lemma track_move c old new from to x :
  tracks c old new → 0 <= from < Z.of_nat (length new) → 0 <= to < Z.of_nat (length new) → from ≠ to →
  new !! Z.to_nat from = Some x → 2 * Z.of_nat (length old + length new) + 2 < npos →
  ∃ c', move c from to = Some c' ∧ tracks c' old (insert_at (Z.to_nat to) x (delete (Z.to_nat from) new)).
Proof.
  intros Htr Hf Hto Hne Hx Hn. pose proof Htr as (Hwf & Hmv & _ & Ht & _).
  assert (length (insert_at (Z.to_nat to) x (delete (Z.to_nat from) new)) = length new) as El.
  { rewrite insert_at_length, length_delete; [lia|by exists x]. }
  destruct (move_spec (Z.of_nat (length old + length new)) c from to) as (c' & -> & Hwf' & Hmv' & Hrel & Hk & Hcols);
    [done|by apply tracks_within|done|lia..|].
  exists c'. split; [done|]. eapply tracks_step; try done; rewrite ?El.
  - eapply tail_step; [done|done|lia|]. intros t Htp. split; [lia|]. unfold after_move.
    destruct (Z.eqb_spec (Z.of_nat (length new) + t) from); [lia|].
    destruct (Z.leb_spec to (Z.of_nat (length new) + t)), (Z.ltb_spec (Z.of_nat (length new) + t) from),
      (Z.leb_spec (Z.of_nat (length new) + t) to), (Z.ltb_spec from (Z.of_nat (length new) + t)); simpl; lia.
  - intros P j j' Hj Hjj. by exists j.
  - intros j j' Hj ->. split; [|symmetry; by apply at_move].
    unfold after_move. destruct (Z.eqb_spec j from); [lia|].
    destruct (Z.leb_spec to j), (Z.ltb_spec j from), (Z.leb_spec j to), (Z.ltb_spec from j); simpl; lia.
Qed.

Lemma track_clear c old new :
  tracks c old new → Z.of_nat (length old + length new) < npos →
  ∃ c', clear c (Z.of_nat (length new)) = Some c' ∧ tracks c' old [].
Proof.
  intros (Hwf & Hmv & Ec & Ht & Hb & Hf) Hn.
  destruct (tail_below c (Z.of_nat (length old)) (Z.of_nat (length new))) as [Hbd Hbi]; [done|lia|lia|done|].
  pose proof Hwf as (Hd & Hi & _). pose proof (Ht 0 ltac:(lia)) as (_ & _ & _ & _ & E). rewrite !Z.add_0_r in E.
  rewrite !rk_size in E by (done || lia).
  destruct (clear_changes_spec c (Z.of_nat (length new)) Hwf) as (c' & -> & Hwf' & Hmv' & Hdel & Hins & Hmod & Hno & Ec'); [lia|lia|].
  exists c'. split; [done|]. split; [done|]. split; [done|].
  replace (Z.of_nat (length new) + size (deletions c) - size (insertions c)) with (Z.of_nat (length old)) in * by lia.
  assert (tail_kept c' (Z.of_nat (length old)) 0) as Htail.
  { intros t Htp. pose proof Hwf' as (Hd' & Hi' & _). unfold kept.
    rewrite (rk_initial (deletions c') (Z.of_nat (length old))) by (done || lia).
    rewrite (rk_none (insertions c')) by (done || lia).
    split_and!; [lia|lia|apply Hins|rewrite Hdel; lia|lia]. }
  split; [done|split; [exact Htail|split]].
  - intros j Hj. by apply Hmod in Hj.
  - intros i j Hij Hlt. destruct (follows_nonneg c' i j Hwf' Hmv' Hij) as [Hi0 Hj0]. simpl in Hlt. lia.
Qed.

(** ** Sequences of operations *)

Lemma inside_true (i n : Z) : (0 <=? i) && (i <? n) = true → 0 <= i < n.
Proof. rewrite andb_true_iff. lia. Qed.

Lemma length_delete_at_most k (l : list A) : (length (delete k l) ≤ length l)%nat.
Proof.
  revert k. induction l as [|a l IH]; intros [|k]; simpl; [lia|lia|lia|]. specialize (IH k).
  unfold delete, list_delete in *. lia.
Qed.

(** An operation makes a list longer by one element at most. *)
Lemma apply_op_length (l l' : list A) (o : list_op A) : apply_op l o = Some l' → (length l' ≤ length l + 1)%nat.
Proof.
  destruct o; simpl; repeat case_match; try done; intros E; simplify_option_eq;
    rewrite ?insert_at_length, ?length_insert; simpl; try lia.
  all: match goal with |- context [length (delete ?k ?m)] => pose proof (length_delete_at_most k m) end; lia.
Qed.

Lemma record_op_tracks c old new new' (o : list_op A) :
  tracks c old new → apply_op new o = Some new' → 2 * Z.of_nat (length old + length new) + 2 < npos →
  ∃ c', record_op (Z.of_nat (length new)) o c = Some c' ∧ tracks c' old new'.
Proof.
  intros Htr Ha Hn. destruct o as [i x|i x|i|from to|i j|]; simpl in *.
  - destruct (_ && _) eqn:E; [|done]. apply inside_true in E. injection Ha as <-. apply track_set; done || lia.
  - destruct (_ && _) eqn:E; [|done]. injection Ha as <-. apply track_insert; [done|lia|lia].
  - destruct (_ && _) eqn:E; [|done]. apply inside_true in E. injection Ha as <-. apply track_erase; done || lia.
  - destruct (_ && _) eqn:E; [|done]. destruct (new !! Z.to_nat from) as [x|] eqn:Ex; [|done].
    injection Ha as <-. apply track_move; done || lia.
  - destruct (_ && _) eqn:E; [|done].
    destruct (new !! Z.to_nat i) as [x|] eqn:Ex; [|done].
    destruct (new !! Z.to_nat j) as [y|] eqn:Ey; [|done]. injection Ha as <-.
    destruct (track_set c old new i y) as (c1 & -> & H1'); [done|lia|lia|].
    apply track_set; [done|rewrite length_insert; lia|rewrite length_insert; lia].
  - injection Ha as <-. apply track_clear; [done|lia].
Qed.

Lemma record_ops_tracks (ops : list (list_op A)) c old new new' :
  tracks c old new → apply_ops new ops = Some new' →
  2 * Z.of_nat (length old + length new + length ops) + 2 < npos →
  ∃ c', record_ops new ops c = Some c' ∧ tracks c' old new'.
Proof.
  revert c new. induction ops as [|o ops IH]; intros c new Htr Ha Hn; simpl in *.
  { injection Ha as <-. by exists c. }
  destruct (apply_op new o) as [l|] eqn:E; [|done]. simpl in Ha.
  destruct (record_op_tracks c old new l o) as (c1 & -> & H1'); [done|done|lia|]. simpl.
  apply IH; [done|done|]. apply apply_op_length in E. lia.
Qed.

(** A change set that tracks accounts for every row of both lists. *)
Lemma tracks_complete c old new :
  tracks c old new →
  (∀ j, 0 <= j < Z.of_nat (length new) → has (insertions c) j ∨ ∃ i, kept c i j) ∧
  (∀ i, 0 <= i < Z.of_nat (length old) → has (deletions c) i ∨ ∃ j, kept c i j ∧ j < Z.of_nat (length new)).
Proof.
  intros (Hwf & Hmv & _ & Ht & _). pose proof Hwf as (Hd & Hi & _). split.
  - intros j Hj. destruct (memb j (is_ranges (insertions c))) eqn:Eb; [left; by apply memb_mem|right].
    apply kept_onto; [done|lia|]. intros M. apply memb_mem in M. congruence.
  - intros i Hir. destruct (memb i (is_ranges (deletions c))) eqn:Eb; [left; by apply memb_mem|right].
    destruct (kept_total c i Hwf) as (j & Hj); [lia|intros M; apply memb_mem in M; congruence|].
    exists j. split; [done|]. pose proof (kept_order c i j _ _ Hwf Hj (Ht 0 ltac:(lia))). lia.
Qed.
End refinement.
