(* ===== verification/TransactLog.v ===== *)
(** * Transaction log handlers

    Model of impl/transact_log_handler.cpp: the instructions of a transaction
    log, the validator that rejects destructive schema changes, and the observer
    that turns the instructions into change sets for the tables and lists that
    are watched.  The key-value observation built on the observer is in Kvo.v. *)

From stdpp Require Import gmap.
From S2P Require Import Prelude RangeSet IndexSetInterface ChangeBuilder.

(** ** Instructions *)

(** [_impl::Instruction], as far as the setters tell them apart. *)
Inductive Instruction := instr_Set | instr_SetDefault | instr_SetUnique.

(** The setters, which take an [Instruction], and the other cell updates. *)
Inductive setter :=
  | set_int | set_bool | set_float | set_double | set_string | set_binary | set_olddatetime
  | set_timestamp | set_table | set_mixed | set_link | set_null.
Inductive updater := add_int | nullify_link | insert_substring | erase_substring.
Inductive unique_setter := set_int_unique | set_string_unique.

(** The log instructions, with the arguments that the handlers read. *)
Inductive instr :=
  (* navigation *)
  | select_table (group_level_ndx : Z) (path : list (Z * Z))
  | select_descriptor (levels : Z)
  | select_link_list (col row : Z)
  (* cells *)
  | set_cell (s : setter) (col row : Z) (i : Instruction)
  | update_cell (u : updater) (col row : Z)
  | set_unique (s : unique_setter) (col row : Z)
  (* rows *)
  | insert_empty_rows (row_ndx num_rows_to_insert : Z)
  | add_row_with_key (row_ndx : Z)
  | erase_rows (row_ndx prior_num_rows : Z) (unordered : bool)
  | swap_rows (row_ndx_1 row_ndx_2 : Z)
  | move_row (from_ndx to_ndx : Z)
  | merge_rows (from to : Z)
  | clear_table
  (* lists *)
  | link_list_set (index : Z)
  | link_list_insert (index : Z)
  | link_list_erase (index : Z)
  | link_list_nullify (index : Z)
  | link_list_clear (old_size : Z)
  | link_list_move (from to : Z)
  | link_list_swap (index1 index2 : Z)
  (* schema *)
  | insert_column (ndx : Z)
  | insert_link_column (ndx : Z)
  | move_column (from to : Z)
  | insert_group_level_table (ndx : Z)
  | move_group_level_table (from to : Z)
  | add_search_index | remove_search_index | set_link_type | optimize_table
  | erase_group_level_table | rename_group_level_table
  | erase_column | erase_link_column | rename_column.

(** [_impl::UnsupportedSchemaChange] *)
Inductive schema_error := UnsupportedSchemaChange.

(** ** Validation *)

(** [TransactLogValidationMixin]: the instruction is accepted, or the handler
    throws. *)
Definition validate (i : instr) : result schema_error unit :=
  match i with
  | erase_group_level_table | rename_group_level_table
  | erase_column | erase_link_column | rename_column => Raise UnsupportedSchemaChange
  | _ => Ok tt
  end.

(** [TransactLogValidator] on a whole log. *)
Fixpoint validate_log (l : list instr) : result schema_error unit :=
  match l with
  | [] => Ok tt
  | i :: l => validate i ≫= λ _, validate_log l
  end.

(** ** Vectors that are indexed by table or column *)

Module Positions.
(** [rotate(container, from, to)] *)
Definition rotate {A} (d : A) (l : list A) (from to : Z) : option (list A) :=
  REALM_ASSERT (negb (from =? to)) ;;
  let n := Z.of_nat (length l) in
  if (n <=? from) && (n <=? to) then Some l else
  let l := if (n <=? from) || (n <=? to) then resize (Z.to_nat (Z.max from to ⊕ 1)) d l else l in
  let f := Z.to_nat from in let t := Z.to_nat to in
  Some (if from <? to then Changes.rotate_range l f (f + 1) (t + 1)
        else Changes.rotate_range l t f (f + 1)).

(** [insert_empty_at(container, pos)] *)
Definition insert_empty_at {A} (d : A) (l : list A) (pos : Z) : list A :=
  if pos <? Z.of_nat (length l) then take (Z.to_nat pos) l ++ d :: drop (Z.to_nat pos) l else l.

(** [adjust_for_move(value, from, to)] *)
Definition adjust_for_move (value from to : Z) : Z :=
  if value =? from then to
  else if (from <? value) && (value <=? to) then value ⊖ 1
  else if (value <? from) && (to <=? value) then value ⊕ 1
  else value.

(** [std::iota] into [n] elements. *)
Definition iota (first : Z) (n : nat) : list Z := (λ k : nat, first ⊕ Z.of_nat k) <$> seq 0 n.

(** [expand_to(cols, i)] *)
Definition expand_to (cols : list Z) (i : Z) : list Z :=
  let old_size := Z.of_nat (length cols) in
  if i <? old_size then cols else
  cols ++ iota (match last cols with None => 0 | Some x => x ⊕ 1 end)
               (Z.to_nat (Z.max (old_size ⊕ old_size) (i ⊕ 1)) - length cols).

(** [adjust_ge(values, i)] *)
Definition adjust_ge (values : list Z) (i : Z) : list Z :=
  (λ v, if i <=? v then v ⊕ 1 else v) <$> values.

(** Where column [i] of the new version was in the old one, from
    [column_indices[table]] (in [KVOAdapter::before]): beyond the recorded columns
    the last one counts on. *)
Definition initial_column_index (indices : list Z) (i : Z) : Z :=
  match last indices with
  | None => i
  | Some back =>
      if Z.of_nat (length indices) <=? i then i ⊖ Z.of_nat (length indices) ⊕ back ⊕ 1
      else default 0 (indices !! Z.to_nat i)
  end.
End Positions.
Import Positions.

(** ** State *)

(** [ListChangeInfo]; [changes] is the address of the list's change set. *)
Record list_info := ListChangeInfo {
  table_ndx : Z; row_ndx : Z; col_ndx : Z; changes : nat
}.

(** [TransactionChangeInfo], with the change sets of the lists, which the owners
    of the lists keep, next to it. *)
Record change_info (S : Type) := Info {
  table_modifications_needed : list bool;
  table_moves_needed : list bool;
  lists : list list_info;
  tables : list (change_builder S);
  column_indices : list (list Z);
  table_indices : list Z;
  track_all : bool;
  schema_changed : bool;
  list_changes : gmap nat (change_builder S)
}.
Arguments Info {S}.
Arguments table_modifications_needed {S}.
Arguments table_moves_needed {S}.
Arguments lists {S}.
Arguments tables {S}.
Arguments column_indices {S}.
Arguments table_indices {S}.
Arguments track_all {S}.
Arguments schema_changed {S}.
Arguments list_changes {S}.

(** A [CollectionChangeBuilder*]: null, an element of [tables], the change set of
    a list, or a pointer into [tables] that a reallocation has invalidated. *)
Inductive pointer := Null | Table (i : nat) | List (k : nat) | Dangling.
#[export] Instance pointer_dec : EqDecision pointer.
Proof. solve_decision. Defined.

(** [TransactLogObserver] *)
Record observer (S : Type) := Observer {
  m_info : change_info S;
  m_active_list : pointer;
  m_active_table : pointer;
  m_active_descriptor : pointer;
  m_need_move_info : bool;
  m_is_top_level_table : bool;
  current_table : Z
}.
Arguments Observer {S}.
Arguments m_info {S}.
Arguments m_active_list {S}.
Arguments m_active_table {S}.
Arguments m_active_descriptor {S}.
Arguments m_need_move_info {S}.
Arguments m_is_top_level_table {S}.
Arguments current_table {S}.

Module Log.
Section log.
Context {S : Type} `{IndexSets S}.
Implicit Types (i : change_info S) (o : observer S).

(** A new observer. *)
Definition observe i : observer S := Observer i Null Null Null false true 0.

(** Assignments. *)
Definition with_lists i ls : change_info S :=
  Info (table_modifications_needed i) (table_moves_needed i) ls (tables i) (column_indices i)
    (table_indices i) (track_all i) (schema_changed i) (list_changes i).
Definition with_tables i ts : change_info S :=
  Info (table_modifications_needed i) (table_moves_needed i) (lists i) ts (column_indices i)
    (table_indices i) (track_all i) (schema_changed i) (list_changes i).
Definition with_list_changes i m : change_info S :=
  Info (table_modifications_needed i) (table_moves_needed i) (lists i) (tables i) (column_indices i)
    (table_indices i) (track_all i) (schema_changed i) m.
Definition with_column_indices i l : change_info S :=
  Info (table_modifications_needed i) (table_moves_needed i) (lists i) (tables i) l
    (table_indices i) (track_all i) (schema_changed i) (list_changes i).
Definition with_table_indices i l : change_info S :=
  Info (table_modifications_needed i) (table_moves_needed i) (lists i) (tables i) (column_indices i)
    l (track_all i) (schema_changed i) (list_changes i).
Definition with_needed i modifications moves : change_info S :=
  Info modifications moves (lists i) (tables i) (column_indices i)
    (table_indices i) (track_all i) (schema_changed i) (list_changes i).
Definition set_schema_changed i : change_info S :=
  Info (table_modifications_needed i) (table_moves_needed i) (lists i) (tables i) (column_indices i)
    (table_indices i) (track_all i) true (list_changes i).
Definition with_info o i : observer S :=
  Observer i (m_active_list o) (m_active_table o) (m_active_descriptor o) (m_need_move_info o)
    (m_is_top_level_table o) (current_table o).
Definition with_list o p : observer S :=
  Observer (m_info o) p (m_active_table o) (m_active_descriptor o) (m_need_move_info o)
    (m_is_top_level_table o) (current_table o).
Definition with_table o p : observer S :=
  Observer (m_info o) (m_active_list o) p (m_active_descriptor o) (m_need_move_info o)
    (m_is_top_level_table o) (current_table o).
Definition with_descriptor o p : observer S :=
  Observer (m_info o) (m_active_list o) (m_active_table o) p (m_need_move_info o)
    (m_is_top_level_table o) (current_table o).
Definition with_need_move_info o b : observer S :=
  Observer (m_info o) (m_active_list o) (m_active_table o) (m_active_descriptor o) b
    (m_is_top_level_table o) (current_table o).
Definition with_top_level o b : observer S :=
  Observer (m_info o) (m_active_list o) (m_active_table o) (m_active_descriptor o) (m_need_move_info o)
    b (current_table o).
Definition with_current_table o t : observer S :=
  Observer (m_info o) (m_active_list o) (m_active_table o) (m_active_descriptor o) (m_need_move_info o)
    (m_is_top_level_table o) t.

(** [if (p) p->f()] *)
Definition on_pointer (p : pointer) (f : change_builder S → option (change_builder S)) o : option (observer S) :=
  let i := m_info o in
  match p with
  | Null => Some o
  | Table k =>
      c ← tables i !! k; c' ← f c;
      Some (with_info o (with_tables i (<[k := c']> (tables i))))
  | List k =>
      c ← list_changes i !! k; c' ← f c;
      Some (with_info o (with_list_changes i (<[k := c']> (list_changes i))))
  | Dangling => None
  end.

(** The pointers after the elements of [tables] were reallocated. *)
Definition reallocate (p : pointer) : pointer := match p with Table _ => Dangling | _ => p end.

(** An assignment to [tables]; a change of the size may reallocate it. *)
Definition assign_tables o (ts : list (change_builder S)) : observer S :=
  let o' := with_info o (with_tables (m_info o) ts) in
  if bool_decide (length ts = length (tables (m_info o))) then o' else
  with_descriptor (with_table o' (reallocate (m_active_table o))) (reallocate (m_active_descriptor o)).

(** [p == q] on the pointers, where both are valid. *)
Definition pointer_eq (p q : pointer) : option bool :=
  match p, q with
  | Dangling, _ | _, Dangling => None
  | _, _ => Some (bool_decide (p = q))
  end.

(** [find_list] *)
Definition find_list i (tbl col row : Z) : pointer :=
  match last (filter (λ l, table_ndx l = tbl ∧ row_ndx l = row ∧ col_ndx l = col) (lists i)) with
  | Some l => List (changes l)
  | None => Null
  end.

(** [mark_dirty(row, col)] *)
Definition mark_dirty o (row col : Z) : option (observer S) :=
  on_pointer (m_active_table o) (λ c, Changes.modify c row col) o.

(** A needed-flag of a table, out of range when [track_all] does not cover it. *)
Definition needed (flags : list bool) (tbl : Z) : bool :=
  match flags !! Z.to_nat tbl with Some b => b | None => false end.

(** ** Handlers *)

Definition do_select_descriptor o (levels : Z) : observer S :=
  with_descriptor o (if levels =? 0 then m_active_table o else Null).

(** The part of [select_table] that enlarges [tables] and selects the element. *)
Definition activate_table o (tbl : Z) : observer S :=
  let ts := tables (m_info o) in
  let n := Z.of_nat (length ts) in
  let o := if n <=? tbl
           then assign_tables o (resize (Z.to_nat (Z.max (n ⊕ n) (tbl ⊕ 1))) Changes.new ts) else o in
  with_table o (Table (Z.to_nat tbl)).

Definition do_select_table o (group_level_ndx : Z) (path : list (Z * Z)) : option (observer S) :=
  let o := with_current_table o group_level_ndx in
  let o := with_top_level (with_table o Null) true in
  if Nat.ltb 1 (length path) then Some (with_top_level o false) else
  let i := m_info o in
  if negb (track_all i) && negb (needed (table_modifications_needed i) group_level_ndx) then Some o else
  let o := with_need_move_info o (track_all i || needed (table_moves_needed i) group_level_ndx) in
  let o := activate_table o group_level_ndx in
  match path with
  | [(col, row)] =>
      o ← mark_dirty o row col;
      let o := with_top_level (with_table o Null) false in
      let p := find_list (m_info o) group_level_ndx col row in
      Some (if bool_decide (p = Null) then o else with_need_move_info (with_table o p) true)
  | _ => Some o
  end.

Definition do_select_link_list o (col row : Z) : option (observer S) :=
  o ← mark_dirty o row col;
  Some (with_list o (find_list (m_info o) (current_table o) col row)).

(** [for (auto& list : m_info.lists)] *)
Definition for_lists o (f : list_info → list_info) : observer S :=
  with_info o (with_lists (m_info o) (f <$> lists (m_info o))).

Definition set_row (l : list_info) (row : Z) : list_info := ListChangeInfo (table_ndx l) row (col_ndx l) (changes l).
Definition set_col (l : list_info) (col : Z) : list_info := ListChangeInfo (table_ndx l) (row_ndx l) col (changes l).
Definition set_tbl (l : list_info) (tbl : Z) : list_info := ListChangeInfo tbl (row_ndx l) (col_ndx l) (changes l).

Definition do_insert_empty_rows o (row n : Z) : option (observer S) :=
  o ← on_pointer (m_active_table o) (λ c, Changes.insert c row n (m_need_move_info o)) o;
  if negb (m_is_top_level_table o) then Some o else
  Some (for_lists o (λ l, if (table_ndx l =? current_table o) && (row <=? row_ndx l)
                          then set_row l (row_ndx l ⊕ n) else l)).

(** The loop of [erase_rows] over [m_info.lists]: position [k] is replaced by
    the last element when its row is gone. *)
Fixpoint erase_row_lists (fuel k : nat) (tbl row last_row : Z) (ls : list list_info) : list list_info :=
  match fuel with
  | O => ls
  | Datatypes.S fuel =>
      match ls !! k with
      | None => ls
      | Some l =>
          erase_row_lists fuel (k + 1) tbl row last_row
            (if negb (table_ndx l =? tbl) then ls
             else if row_ndx l =? row then
               take (length ls - 1)
                 (match last ls with
                  | Some back => if bool_decide (k + 1 < length ls)%nat then <[k := back]> ls else ls
                  | None => ls
                  end)
             else if row_ndx l =? last_row then <[k := set_row l row]> ls
             else ls)
      end
  end.

Definition do_erase_rows o (row prior_num_rows : Z) (unordered : bool) : option (observer S) :=
  if negb unordered then on_pointer (m_active_table o) (λ c, Changes.erase c row) o else
  let last_row := prior_num_rows ⊖ 1 in
  o ← on_pointer (m_active_table o) (λ c, Changes.move_over c row last_row (m_need_move_info o)) o;
  if negb (m_is_top_level_table o) then Some o else
  let ls := lists (m_info o) in
  Some (with_info o (with_lists (m_info o) (erase_row_lists (length ls) 0 (current_table o) row last_row ls))).

Definition do_swap_rows o (row_1 row_2 : Z) : option (observer S) :=
  REALM_ASSERT (row_1 <? row_2) ;;
  if negb (m_is_top_level_table o) then
    o ← on_pointer (m_active_table o) (λ c, Changes.move c row_1 row_2) o;
    if row_1 ⊕ 1 =? row_2 then Some o
    else on_pointer (m_active_table o) (λ c, Changes.move c (row_2 ⊖ 1) row_1) o
  else
    o ← on_pointer (m_active_table o) (λ c, Changes.swap c row_1 row_2 (m_need_move_info o)) o;
    Some (for_lists o (λ l,
      if table_ndx l =? current_table o then
        if row_ndx l =? row_1 then set_row l row_2
        else if row_ndx l =? row_2 then set_row l row_1 else l
      else l)).

Definition do_move_row o (from to : Z) : option (observer S) :=
  REALM_ASSERT (bool_decide (m_active_table o = Null) || negb (m_is_top_level_table o)) ;;
  on_pointer (m_active_table o) (λ c, Changes.move c from to) o.

Definition do_merge_rows o (from to : Z) : option (observer S) :=
  o ← on_pointer (m_active_table o) (λ c, Changes.subsume c from to (m_need_move_info o)) o;
  if negb (m_is_top_level_table o) then Some o else
  Some (for_lists o (λ l, if (table_ndx l =? current_table o) && (row_ndx l =? from)
                          then set_row l to else l)).

Definition do_clear_table o : option (observer S) :=
  o ← on_pointer (m_active_table o) (λ c, Changes.clear c npos) o;
  if negb (m_is_top_level_table o) then Some o else
  Some (with_info o (with_lists (m_info o) (filter (λ l, table_ndx l ≠ current_table o) (lists (m_info o))))).

(** [m_info.column_indices[current_table()]], after the resize. *)
Definition update_column_indices o (f : list Z → option (list Z)) : option (observer S) :=
  let i := m_info o in
  let cols := if Z.of_nat (length (column_indices i)) <=? current_table o
              then resize (Z.to_nat (current_table o ⊕ 1)) [] (column_indices i) else column_indices i in
  indices ← cols !! Z.to_nat (current_table o);
  indices' ← f indices;
  Some (with_info o (with_column_indices i (<[Z.to_nat (current_table o) := indices']> cols))).

Definition do_insert_column o (ndx : Z) : option (observer S) :=
  let o := with_info o (set_schema_changed (m_info o)) in
  o ← on_pointer (m_active_descriptor o) (λ c, Some (Changes.insert_column c (Z.to_nat ndx))) o;
  same ← pointer_eq (m_active_descriptor o) (m_active_table o);
  if negb same || negb (m_is_top_level_table o) then Some o else
  let o := for_lists o (λ l, if (table_ndx l =? current_table o) && (ndx <=? col_ndx l)
                             then set_col l (col_ndx l ⊕ 1) else l) in
  update_column_indices o (λ indices,
    let indices := insert_empty_at 0 (expand_to indices ndx) ndx in
    _ ← indices !! Z.to_nat ndx;
    Some (<[Z.to_nat ndx := npos]> indices)).

Definition prepare_table_indices i : change_info S :=
  if bool_decide (table_indices i = []) && negb (bool_decide (table_modifications_needed i = []))
  then with_table_indices i (iota 0 (length (table_modifications_needed i))) else i.

Definition do_insert_group_level_table o (ndx : Z) : observer S :=
  let o := with_info o (set_schema_changed (m_info o)) in
  let o := for_lists o (λ l, if ndx <=? table_ndx l then set_tbl l (table_ndx l ⊕ 1) else l) in
  let i := prepare_table_indices (m_info o) in
  let i := with_table_indices i (adjust_ge (table_indices i) ndx) in
  let o := assign_tables (with_info o i) (insert_empty_at Changes.new (tables i) ndx) in
  with_info o (with_needed (m_info o) (insert_empty_at false (table_modifications_needed i) ndx)
                 (insert_empty_at false (table_moves_needed i) ndx)).

Definition do_move_column o (from to : Z) : option (observer S) :=
  let o := with_info o (set_schema_changed (m_info o)) in
  o ← on_pointer (m_active_descriptor o)
        (λ c, Some (Changes.move_column c (Z.to_nat from) (Z.to_nat to))) o;
  same ← pointer_eq (m_active_descriptor o) (m_active_table o);
  if negb same || negb (m_is_top_level_table o) then Some o else
  let o := for_lists o (λ l, if table_ndx l =? current_table o
                             then set_col l (adjust_for_move (col_ndx l) from to) else l) in
  update_column_indices o (λ indices, rotate 0 (expand_to indices (Z.max from to ⊕ 1)) from to).

Definition do_move_group_level_table o (from to : Z) : option (observer S) :=
  let o := with_info o (set_schema_changed (m_info o)) in
  let o := for_lists o (λ l, set_tbl l (adjust_for_move (table_ndx l) from to)) in
  let i := prepare_table_indices (m_info o) in
  let i := with_table_indices i ((λ v, adjust_for_move v from to) <$> table_indices i) in
  ts ← rotate Changes.new (tables i) from to;
  let o := assign_tables (with_info o i) ts in
  modifications ← rotate false (table_modifications_needed i) from to;
  moves ← rotate false (table_moves_needed i) from to;
  Some (with_info o (with_needed (m_info o) modifications moves)).

Definition do_link_list_set o (index : Z) : option (observer S) :=
  on_pointer (m_active_list o) (λ c, Changes.modify c index npos) o.

(** One instruction of the log. *)
Definition observer_step o (i : instr) : option (observer S) :=
  match i with
  | select_table t path => do_select_table o t path
  | select_descriptor levels => Some (do_select_descriptor o levels)
  | select_link_list col row => do_select_link_list o col row
  | set_cell _ col row instr_Set => mark_dirty o row col
  | set_cell _ _ _ _ => Some o
  | update_cell _ col row => mark_dirty o row col
  | set_unique _ _ _ => Some o
  | insert_empty_rows row n => do_insert_empty_rows o row n
  | add_row_with_key row => do_insert_empty_rows o row 1
  | erase_rows row prior unordered => do_erase_rows o row prior unordered
  | swap_rows row_1 row_2 => do_swap_rows o row_1 row_2
  | move_row from to => do_move_row o from to
  | merge_rows from to => do_merge_rows o from to
  | clear_table => do_clear_table o
  | link_list_set index => do_link_list_set o index
  | link_list_insert index => on_pointer (m_active_list o) (λ c, Changes.insert c index 1 true) o
  | link_list_erase index | link_list_nullify index => on_pointer (m_active_list o) (λ c, Changes.erase c index) o
  | link_list_clear old_size => on_pointer (m_active_list o) (λ c, Changes.clear c old_size) o
  | link_list_move from to => on_pointer (m_active_list o) (λ c, Changes.move c from to) o
  | link_list_swap index1 index2 => o ← do_link_list_set o index1; do_link_list_set o index2
  | insert_column ndx | insert_link_column ndx => do_insert_column o ndx
  | move_column from to => do_move_column o from to
  | insert_group_level_table ndx => Some (do_insert_group_level_table o ndx)
  | move_group_level_table from to => do_move_group_level_table o from to
  | _ => Some o
  end.

(** The observer validates as the validator does. *)
Definition observer_handle o (i : instr) : result schema_error (observer S) :=
  validate i ≫= λ _, lift (observer_step o i).

(** [parse_complete] *)
Definition observer_parse_complete o : option (observer S) :=
  let i := m_info o in
  '(ts, _) ← update_each (λ c (_ : unit), c' ← Changes.parse_complete c; Some (c', tt)) (tables i) tt;
  cs ← foldM (λ l cs,
         c ← cs !! changes l; c' ← Changes.clean_up_stale_moves c;
         Some (<[changes l := c']> cs)) (lists i) (list_changes i);
  Some (with_info o (with_list_changes (with_tables i ts) cs)).

(** [KVOAdapter::new_table_ndx] *)
Definition new_table_ndx i (ndx : Z) : Z :=
  if ndx <? Z.of_nat (length (table_indices i)) then default 0 (table_indices i !! Z.to_nat ndx) else ndx.

(** A whole log, as the core library feeds it to a handler. *)
Fixpoint run_log o (l : list instr) : result schema_error (observer S) :=
  match l with
  | [] => lift (observer_parse_complete o)
  | i :: l => observer_handle o i ≫= λ o, run_log o l
  end.
End log.
End Log.
