(* ===== verification/PositionsSpec.v ===== *)
(** * Tables and columns that move: correctness of the index bookkeeping *)

From stdpp Require Import gmap.
From S2P Require Import Prelude RangeSet IndexSetEdits ChangeBuilder ChangeBuilderSpec ChangeBuilderMove Recording TransactLog.
Import Positions.

(** ** [std::rotate] moves an element *)

Section lists.
Context {A : Type}.
Implicit Types (l : list A).

Lemma rotate_forward l (f t : nat) x :
  (f < t < length l)%nat → l !! f = Some x →
  Changes.rotate_range l f (f + 1) (t + 1) = insert_at t x (delete f l).
Proof.
  intros Hft Hx. destruct (lookup_split l f x Hx) as (l1 & l2 & -> & ->).
  rewrite length_app in Hft. simpl in Hft. rewrite <- (take_drop (t - length l1) l2).
  assert (length (take (t - length l1) l2) = t - length l1)%nat as Ha by (rewrite length_take; lia).
  generalize dependent (take (t - length l1) l2). intros a Ha. generalize (drop (t - length l1) l2). intros b.
  rewrite delete_middle. unfold Changes.rotate_range, insert_at.
  rewrite take_app_length, (drop_app_length l1 (x :: a ++ b)).
  assert (l1 ++ x :: a ++ b = (l1 ++ [x]) ++ a ++ b) as E1 by (by rewrite <- app_assoc).
  assert (l1 ++ x :: a ++ b = ((l1 ++ [x]) ++ a) ++ b) as E2 by (by rewrite <- !app_assoc).
  rewrite E2, (drop_app_length' _ b (t + 1)) by (rewrite !length_app; simpl; lia).
  rewrite <- E2, E1, (drop_app_length' _ (a ++ b) (length l1 + 1)) by (rewrite !length_app; simpl; lia).
  rewrite (take_app_length' a b) by lia. rewrite (app_assoc l1 a b).
  rewrite (take_app_length' (l1 ++ a)), (drop_app_length' (l1 ++ a)) by (rewrite length_app; lia).
  replace (length l1 + 1 - length l1)%nat with 1%nat by lia. by rewrite <- !app_assoc.
Qed.

Lemma rotate_backward l (f t : nat) x :
  (t < f < length l)%nat → l !! f = Some x →
  Changes.rotate_range l t f (f + 1) = insert_at t x (delete f l).
Proof.
  intros Hft Hx. destruct (lookup_split l f x Hx) as (l1 & l2 & -> & ->).
  rewrite length_app in Hft. simpl in Hft.
  assert (length (drop t l1) = length l1 - t)%nat as Hb by (rewrite length_drop; lia).
  rewrite delete_middle. unfold Changes.rotate_range, insert_at.
  replace (length l1 + 1 - length l1)%nat with 1%nat by lia.
  rewrite (drop_app_length l1). rewrite !take_app_le, (drop_app_le l1 (x :: l2) t), (drop_app_le l1 l2 t) by lia.
  rewrite (take_app_length' (drop t l1)) by lia.
  assert (l1 ++ x :: l2 = (l1 ++ [x]) ++ l2) as -> by (by rewrite <- app_assoc).
  rewrite (drop_app_length' _ l2) by (rewrite length_app; simpl; lia). done.
Qed.

Lemma rotate_spec (d : A) l from to :
  0 <= from → 0 <= to → from ≠ to → Z.max from to < Z.of_nat (length l) →
  ∃ x, at_pos l from = Some x ∧
    rotate d l from to = Some (insert_at (Z.to_nat to) x (delete (Z.to_nat from) l)).
Proof.
  intros Hf Ht Hne Hlen. destruct (lookup_lt_is_Some_2 l (Z.to_nat from)) as [x Hx]; [lia|].
  exists x. split; [done|]. unfold rotate. rewrite (proj2 (Z.eqb_neq from to)) by done. simpl.
  rewrite (proj2 (Z.leb_gt (Z.of_nat (length l)) from)), (proj2 (Z.leb_gt (Z.of_nat (length l)) to)) by lia. simpl.
  f_equal. destruct (Z.ltb_spec from to).
  - apply rotate_forward; [lia|done].
  - apply rotate_backward; [lia|done].
Qed.

(** The moved list at the moved positions. *)
Lemma at_rotate (d : A) l l' from to j :
  0 <= from → 0 <= to → from ≠ to → Z.max from to < Z.of_nat (length l) → 0 <= j →
  rotate d l from to = Some l' → at_pos l' (after_move from to j) = at_pos l j ∧ length l' = length l.
Proof.
  intros Hf Ht Hne Hlen Hj Hr. destruct (rotate_spec d l from to) as (x & Hx & E); [done..|].
  rewrite E in Hr. injection Hr as <-. split; [by apply at_move; [lia|lia|..]|].
  rewrite insert_at_length, length_delete; [|by exists x]. unfold at_pos in Hx. apply lookup_lt_Some in Hx. lia.
Qed.

Lemma insert_empty_at_spec (d : A) l pos :
  0 <= pos < Z.of_nat (length l) → insert_empty_at d l pos = insert_at (Z.to_nat pos) d l.
Proof. intros Hp. unfold insert_empty_at, insert_at. by rewrite (proj2 (Z.ltb_lt _ _)) by lia. Qed.

Lemma last_insert_at k (x : A) l : (k < length l)%nat → last (insert_at k x l) = last l.
Proof.
  intros Hk. unfold insert_at. rewrite <- (take_drop k l) at 3. rewrite !last_app. simpl.
  destruct (drop k l) as [|y l'] eqn:E; [|done].
  apply (f_equal length) in E. rewrite length_drop in E. simpl in E. lia.
Qed.
End lists.

Lemma adjust_for_move_after v from to :
  0 <= v → v + 1 < W64 → 0 <= from → adjust_for_move v from to = after_move from to v.
Proof.
  intros Hv Hv1 Hf. unfold adjust_for_move, after_move.
  destruct (Z.eqb_spec v from); [done|].
  destruct (Z.ltb_spec from v), (Z.leb_spec v to), (Z.ltb_spec v from), (Z.leb_spec to v); simpl; wsimp; lia.
Qed.

(** ** The column map *)

Lemma length_iota z n : length (iota z n) = n.
Proof. unfold iota. by rewrite length_fmap, length_seq. Qed.

Lemma lookup_iota z n k : (k < n)%nat → iota z n !! k = Some (z ⊕ Z.of_nat k).
Proof. intros Hk. unfold iota. by rewrite list_lookup_fmap, lookup_seq_lt. Qed.

Lemma last_iota z n : last (iota z (Datatypes.S n)) = Some (z ⊕ Z.of_nat n).
Proof. rewrite last_lookup, length_iota. simpl. apply lookup_iota. lia. Qed.

(** The column map, in one formula. *)
Lemma initial_column_index_alt indices i :
  0 <= i < W64 →
  initial_column_index indices i =
    match indices !! Z.to_nat i with
    | Some c => c
    | None => i ⊖ Z.of_nat (length indices) ⊕ (match last indices with None => 0 | Some b => b ⊕ 1 end)
    end.
Proof.
  intros Hi. unfold initial_column_index. destruct (last indices) as [b|] eqn:El.
  - destruct (Z.leb_spec (Z.of_nat (length indices)) i).
    + rewrite lookup_ge_None_2 by lia. wring.
    + by destruct (lookup_lt_is_Some_2 indices (Z.to_nat i)) as [c ->]; [lia|].
  - apply last_None in El. subst. simpl. destruct (Z.to_nat i); simpl; unfold wsub, wadd;
      rewrite !Z.sub_0_r, !Z.add_0_r, wrap_idemp, wrap_small; lia.
Qed.

Definition small (cols : list Z) : Prop := 2 * Z.of_nat (length cols) < W64.

Lemma expand_to_length cols i :
  small cols → 0 <= i → i + 1 < W64 → i < Z.of_nat (length (expand_to cols i)).
Proof.
  intros Hs Hi Hi1. unfold expand_to. destruct (Z.ltb_spec i (Z.of_nat (length cols))); [lia|].
  unfold small in Hs. wsimp. rewrite length_app, length_iota. lia.
Qed.

(** [expand_to] adds columns that are where they were. *)
Lemma expand_to_initial cols i j :
  small cols → 0 <= i → i + 1 < W64 → 0 <= j < W64 →
  initial_column_index (expand_to cols i) j = initial_column_index cols j.
Proof.
  intros Hs Hi Hi1 Hj. unfold expand_to, small in *. destruct (Z.ltb_spec i (Z.of_nat (length cols))); [done|].
  wsimp. set (z := match last cols with None => 0 | Some x => x ⊕ 1 end).
  destruct (Z.to_nat (Z.max (Z.of_nat (length cols) + Z.of_nat (length cols)) (i + 1)) - length cols)%nat as [|n] eqn:En; [lia|].
  rewrite !initial_column_index_alt by done. fold z. rewrite last_app, last_iota, length_app, length_iota.
  destruct (decide (Z.to_nat j < length cols)%nat) as [Hc|Hc].
  - rewrite lookup_app_l by done. by destruct (lookup_lt_is_Some_2 cols _ Hc) as [c ->].
  - rewrite lookup_app_r, (lookup_ge_None_2 cols) by lia.
    destruct (decide (Z.to_nat j - length cols < Datatypes.S n)%nat) as [Hn|Hn].
    + rewrite lookup_iota by done. replace (Z.of_nat (Z.to_nat j - length cols)) with (j - Z.of_nat (length cols)) by lia.
      wring.
    + rewrite lookup_ge_None_2 by (rewrite length_iota; lia).
      replace (Z.of_nat (length cols + Datatypes.S n)) with (Z.of_nat (length cols) + Z.of_nat n + 1) by lia. wring.
Qed.

(** Inserting a column that is new. *)
Lemma insert_column_initial cols ndx j :
  small cols → 0 <= ndx → ndx + 1 < W64 → 0 <= j < W64 →
  let e := insert_empty_at 0 (expand_to cols ndx) ndx in
  initial_column_index (<[Z.to_nat ndx := npos]> e) j =
    if j =? ndx then npos else initial_column_index cols (if j <? ndx then j else j - 1).
Proof.
  intros Hs Hn Hn1 Hj e. pose proof (expand_to_length cols ndx Hs Hn Hn1) as Hlen.
  assert (<[Z.to_nat ndx := npos]> e = insert_at (Z.to_nat ndx) npos (expand_to cols ndx)) as ->.
  { unfold e. rewrite insert_empty_at_spec by lia. unfold insert_at.
    rewrite <- (insert_middle (take (Z.to_nat ndx) (expand_to cols ndx)) 0 npos).
    f_equal. rewrite length_take. lia. }
  destruct (Z.eqb_spec j ndx) as [->|Hne]; [|
    rewrite <- (expand_to_initial cols ndx (if j <? ndx then j else j - 1))
      by (first [done|destruct (Z.ltb_spec j ndx); lia])];
    set (x := expand_to cols ndx) in *; rewrite initial_column_index_alt by done;
    rewrite insert_at_length, last_insert_at by lia.
  { pose proof (at_insert_at_new ndx npos x) as E. unfold at_pos in E. by rewrite E by lia. }
  set (k := if j <? ndx then j else j - 1). assert (0 <= k < W64) as Hk by (unfold k; destruct (Z.ltb_spec j ndx); lia).
  assert (after_insert ndx 1 k = j) as Ek.
  { unfold after_insert, k. destruct (Z.ltb_spec j ndx); [destruct (Z.ltb_spec j ndx)|destruct (Z.ltb_spec (j - 1) ndx)]; lia. }
  pose proof (at_insert_at ndx npos x k) as E. unfold at_pos in E. rewrite Ek in E. rewrite E by lia.
  rewrite (initial_column_index_alt x k) by done. destruct (x !! Z.to_nat k) as [c|] eqn:Ec; [done|].
  apply lookup_ge_None in Ec. assert (j = k + 1) as Ej by (unfold k in *; destruct (Z.ltb_spec j ndx); lia).
  rewrite Ej. clearbody k.
  replace (Z.of_nat (Datatypes.S (length x))) with (Z.of_nat (length x) + 1) by lia. wring.
Qed.

(** Moving a column. *)
Lemma move_column_initial cols from to cols' j :
  small cols → 0 <= from → 0 <= to → from ≠ to → Z.max from to + 2 < W64 → 0 <= j < W64 →
  rotate 0 (expand_to cols (Z.max from to ⊕ 1)) from to = Some cols' →
  initial_column_index cols' (after_move from to j) = initial_column_index cols j.
Proof.
  intros Hs Hf Ht Hne Hm Hj Hr. rewrite wadd_small in Hr by lia.
  pose proof (expand_to_length cols (Z.max from to + 1) Hs) as Hlen.
  rewrite <- (expand_to_initial cols (Z.max from to + 1) j) by (done || lia).
  set (x := expand_to cols (Z.max from to + 1)) in *.
  destruct (at_rotate 0 x cols' from to j) as [Hat Hl]; [done..|lia|lia|done|].
  assert (0 <= after_move from to j < W64) as Haj.
  { unfold after_move. destruct (Z.eqb_spec j from); [lia|].
    destruct (Z.leb_spec to j), (Z.ltb_spec j from), (Z.leb_spec j to), (Z.ltb_spec from j); simpl; lia. }
  rewrite !initial_column_index_alt by done. unfold at_pos in Hat. rewrite Hat.
  destruct (x !! Z.to_nat j) as [c|] eqn:Ec; [done|]. apply lookup_ge_None in Ec.
  assert (after_move from to j = j) as ->.
  { unfold after_move. destruct (Z.eqb_spec j from); [lia|].
    destruct (Z.leb_spec to j), (Z.ltb_spec j from), (Z.leb_spec j to), (Z.ltb_spec from j); simpl; lia. }
  rewrite Hl.
  pose proof (at_rotate 0 x cols' from to (Z.of_nat (length x) - 1) Hf Ht Hne ltac:(lia) ltac:(lia) Hr) as [Hlast _].
  assert (after_move from to (Z.of_nat (length x) - 1) = Z.of_nat (length x) - 1) as E.
  { unfold after_move. destruct (Z.eqb_spec (Z.of_nat (length x) - 1) from); [lia|].
    destruct (Z.leb_spec to (Z.of_nat (length x) - 1)), (Z.ltb_spec (Z.of_nat (length x) - 1) from),
      (Z.leb_spec (Z.of_nat (length x) - 1) to), (Z.ltb_spec from (Z.of_nat (length x) - 1)); simpl; lia. }
  rewrite E in Hlast. unfold at_pos in Hlast. rewrite !last_lookup, Hl.
  replace (Z.to_nat (Z.of_nat (length x) - 1)) with (pred (length x)) in Hlast by lia. by rewrite Hlast.
Qed.

(** ** Vectors with an implicit default beyond the end *)

Section defaults.
Context {A : Type} (d : A).
Implicit Types (l : list A).

(** The element at a position, the default beyond the end. *)
Definition get l (j : Z) : A := default d (at_pos l j).

Lemma get_resize l n j : (length l ≤ n)%nat → get (resize n d l) j = get l j.
Proof.
  intros Hn. unfold get, at_pos. rewrite resize_ge by done.
  destruct (decide (Z.to_nat j < length l)%nat) as [Hj|Hj]; [by rewrite lookup_app_l|].
  rewrite lookup_app_r, (lookup_ge_None_2 l) by lia. simpl.
  destruct (replicate _ d !! _) as [x|] eqn:E; [|done]. by apply lookup_replicate in E as [-> _].
Qed.

Lemma after_move_range from to j n :
  0 <= n → 0 <= from → 0 <= to → 0 <= j → n <= from → n <= to → after_move from to j = j ∨ (n <= j ∧ n <= after_move from to j).
Proof.
  intros. unfold after_move. destruct (Z.eqb_spec j from); [right; lia|].
  destruct (Z.leb_spec to j), (Z.ltb_spec j from), (Z.leb_spec j to), (Z.ltb_spec from j); simpl; lia.
Qed.

Lemma rotate_default l from to :
  0 <= from → 0 <= to → from ≠ to → Z.max from to + 1 < W64 →
  ∃ l', rotate d l from to = Some l' ∧ ∀ j, 0 <= j → get l' (after_move from to j) = get l j.
Proof.
  intros Hf Ht Hne Hm. set (n := Z.of_nat (length l)).
  destruct (decide (n <= from ∧ n <= to)) as [[Hnf Hnt]|Hn].
  - exists l. unfold rotate. rewrite (proj2 (Z.eqb_neq from to)) by done. simpl. fold n.
    rewrite (proj2 (Z.leb_le n from)), (proj2 (Z.leb_le n to)) by done. split; [done|]. intros j Hj.
    destruct (after_move_range from to j n) as [->|[H1 H2]]; try lia; [done|].
    unfold get, at_pos. by rewrite !lookup_ge_None_2 by lia.
  - set (l2 := if (n <=? from) || (n <=? to) then resize (Z.to_nat (Z.max from to ⊕ 1)) d l else l).
    assert (Z.max from to < Z.of_nat (length l2) ∧ ∀ j, get l2 j = get l j) as [Hl2 Hg].
    { unfold l2. rewrite wadd_small by lia. destruct (Z.leb_spec n from), (Z.leb_spec n to); simpl; try lia;
        rewrite ?length_resize; (split; [lia|]); intros j; rewrite ?get_resize by lia; done. }
    assert (rotate d l from to = rotate d l2 from to) as Er.
    { unfold rotate. rewrite (proj2 (Z.eqb_neq from to)) by done. simpl. fold n.
      rewrite (proj2 (Z.leb_gt (Z.of_nat (length l2)) from)), (proj2 (Z.leb_gt (Z.of_nat (length l2)) to)) by lia. simpl.
      destruct (Z.leb_spec n from), (Z.leb_spec n to); simpl in *; done || lia. }
    destruct (rotate_spec d l2 from to) as (x & _ & E); [done..|]. rewrite Er, E.
    eexists. split; [done|]. intros j Hj. rewrite <- Hg. unfold get.
    by destruct (at_rotate d l2 _ from to j Hf Ht Hne Hl2 Hj E) as [-> _].
Qed.

Lemma get_insert_empty l ndx j : 0 <= ndx → 0 <= j → get (insert_empty_at d l ndx) (after_insert ndx 1 j) = get l j.
Proof.
  intros Hn Hj. unfold get. destruct (Z.lt_ge_cases ndx (Z.of_nat (length l))) as [C|C].
  - rewrite insert_empty_at_spec by lia. by rewrite at_insert_at by lia.
  - unfold insert_empty_at. rewrite (proj2 (Z.ltb_ge _ _)) by lia. unfold after_insert.
    destruct (Z.ltb_spec j ndx); [done|]. unfold at_pos. by rewrite !lookup_ge_None_2 by lia.
Qed.
End defaults.
