(* ===== verification/TransactLogTheorems.v ===== *)
(** * What the transaction log observer promises *)

From stdpp Require Import gmap strings.
From S2P Require Import Prelude RangeSet RangeVector IndexSetSpec IndexSetTheorems IndexSetInterface ChangeBuilder ChangeBuilderSpec ChangeBuilderMove ChangeBuilderTheorems Recording TransactLog PositionsSpec.
Import Positions Log.

(** ** List instructions *)

(** The log instruction for an operation on a list of length [n]. *)
Definition instr_of {A} (n : Z) (op : list_op A) : instr :=
  match op with
  | op_set i _ => link_list_set i
  | op_insert i _ => link_list_insert i
  | op_erase i => link_list_erase i
  | op_move from to => link_list_move from to
  | op_swap i j => link_list_swap i j
  | op_clear => link_list_clear n
  end.

Fixpoint instrs_of {A} (l : list A) (ops : list (list_op A)) : list instr :=
  match ops with
  | [] => []
  | op :: ops => instr_of (Z.of_nat (length l)) op :: match apply_op l op with Some l' => instrs_of l' ops | None => [] end
  end.

(** The instructions, without the end of the log. *)
Fixpoint handle_all {S} `{IndexSets S} (o : observer S) (l : list instr) : result schema_error (observer S) :=
  match l with [] => Ok o | i :: l => observer_handle o i ≫= λ o, handle_all o l end.

(** ** The tables that a log changes *)

(** A table of a file as the validator protects it: its name, and the names and types of its columns *)
Record stored_table := StoredTable { st_name : string; st_columns : list (string * Z) }.

Definition insert_at {A} (k : Z) (x : A) (l : list A) : list A := take (Z.to_nat k) l ++ x :: drop (Z.to_nat k) l.

(** What an instruction does to the columns of the selected table.  Names, types and some of the positions are not among the arguments that
    the handlers read: they can be any. *)
Inductive alters_table : instr → list (string * Z) → list (string * Z) → Prop :=
  | inserts_column k c cs : alters_table (insert_column k) cs (insert_at k c cs)
  | inserts_link_column k c cs : alters_table (insert_link_column k) cs (insert_at k c cs)
  | moves_column from to c cs :
      cs !! Z.to_nat from = Some c → alters_table (move_column from to) cs (insert_at to c (delete (Z.to_nat from) cs))
  | erases_column k cs : alters_table erase_column cs (delete k cs)
  | erases_link_column k cs : alters_table erase_link_column cs (delete k cs)
  | renames_column k old new type cs :
      cs !! k = Some (old, type) → alters_table rename_column cs (<[k := (new, type)]> cs).

(** The instructions that change tables or columns *)
Definition on_schema (i : instr) : bool :=
  match i with
  | insert_group_level_table _ | move_group_level_table _ _ | erase_group_level_table | rename_group_level_table
  | insert_column _ | insert_link_column _ | move_column _ _ | erase_column | erase_link_column | rename_column => true
  | _ => false
  end.

Inductive alters : instr → list stored_table → list stored_table → Prop :=
  | alters_insert_table k t s : alters (insert_group_level_table k) s (insert_at k t s)
  | alters_move_table from to t s :
      s !! Z.to_nat from = Some t → alters (move_group_level_table from to) s (insert_at to t (delete (Z.to_nat from) s))
  | alters_erase_table k s : alters erase_group_level_table s (delete k s)
  | alters_rename_table k t name s :
      s !! k = Some t → alters rename_group_level_table s (<[k := StoredTable name (st_columns t)]> s)
  | alters_columns i k t cs s :
      s !! k = Some t → alters_table i (st_columns t) cs → alters i s (<[k := StoredTable (st_name t) cs]> s)
  | alters_nothing i s : on_schema i = false → alters i s s.

(** A whole log *)
Inductive alters_log : list instr → list stored_table → list stored_table → Prop :=
  | log_ends s : alters_log [] s s
  | log_goes_on i l s s' s'' : alters i s s' → alters_log l s' s'' → alters_log (i :: l) s s''.

(** Every table of the first schema is in the second one, under its name and with all of its columns, of the same types. *)
Definition tables_kept (s s' : list stored_table) : Prop :=
  ∀ t, t ∈ s → ∃ t', t' ∈ s' ∧ st_name t' = st_name t ∧ ∀ c, c ∈ st_columns t → c ∈ st_columns t'.

(** An instruction is harmless when it takes nothing away, whatever it is applied to and whichever table is selected. *)
Definition harmless (i : instr) : Prop := ∀ s s', alters i s s' → tables_kept s s'.

Section theorems.
Context {S : Type} `{IndexSetLaws S}.
Implicit Types (o : observer S) (c : change_builder S).

(** The observer hands a list instruction to the change set of the active list. *)
Lemma list_step {A} o k c c' n (op : list_op A) :
  m_active_list o = List k → list_changes (m_info o) !! k = Some c → record_op n op c = Some c' →
  ∃ o', observer_handle o (instr_of n op) = Ok o' ∧ m_active_list o' = List k ∧
    list_changes (m_info o') !! k = Some c'.
Proof.
  intros Ep Ec Er.
  assert (∀ o f c c', m_active_list o = List k → list_changes (m_info o) !! k = Some c → f c = Some c' →
    ∃ o', on_pointer (m_active_list o) f o = Some o' ∧ m_active_list o' = List k ∧
      list_changes (m_info o') !! k = Some c') as Hon.
  { clear. intros o f c c' Ep Ec Ef. unfold on_pointer. rewrite Ep, Ec. simpl. rewrite Ef. simpl.
    eexists. split; [done|]. split; [done|]. simpl. by rewrite lookup_insert_eq. }
  assert (∀ i, (∃ o', observer_step o i = Some o' ∧ m_active_list o' = List k ∧ list_changes (m_info o') !! k = Some c') →
    validate i = Ok tt →
    ∃ o', observer_handle o i = Ok o' ∧ m_active_list o' = List k ∧ list_changes (m_info o') !! k = Some c') as Hlift.
  { intros i (o' & Eo & Hrest) Ev. exists o'. unfold observer_handle. by rewrite Ev; simpl; rewrite Eo. }
  destruct op as [i x|i x|i|from to|i j|]; simpl in *; (apply Hlift; [|done]); simpl;
    try (by apply (Hon o _ c)).
  destruct (Changes.modify c i npos) as [c1|] eqn:E1; [|done]. simpl in Er.
  destruct (Hon o (λ c, Changes.modify c i npos) c c1 Ep Ec E1) as (o1 & Eo1 & Ep1 & Ec1). unfold do_link_list_set.
  rewrite Eo1. simpl. by apply (Hon o1 (λ c, Changes.modify c j npos) c1).
Qed.

(** C14: after any sequence of operations on a watched list, the instructions that
    the core library logs for them have been handled without an exception, and the
    list's change set describes the difference between the list before and the
    list after: a row that it follows from [i] to [j] is the same unless [j] is
    modified, every other new row is an insertion, and every other old row a
    deletion. *)
Theorem list_log_correct {A} o k (ops : list (list_op A)) (old new : list A) :
  m_active_list o = List k → list_changes (m_info o) !! k = Some Changes.new →
  apply_ops old ops = Some new → 4 * Z.of_nat (length old + length ops) + 2 < npos →
  ∃ o' c, handle_all o (instrs_of old ops) = Ok o' ∧ list_changes (m_info o') !! k = Some c ∧
    (∀ i j, follows c i j → j < Z.of_nat (length new) →
       0 <= i < Z.of_nat (length old) ∧ (has (modifications c) j ∨ at_pos old i = at_pos new j)) ∧
    (∀ j, 0 <= j < Z.of_nat (length new) → has (insertions c) j ∨ ∃ i, kept c i j) ∧
    (∀ i, 0 <= i < Z.of_nat (length old) →
       has (deletions c) i ∨ ∃ j, kept c i j ∧ j < Z.of_nat (length new)).
Proof.
  intros Ep Ec Ha Hn.
  assert (∀ ops o c l, m_active_list o = List k → list_changes (m_info o) !! k = Some c → tracks c old l →
    apply_ops l ops = Some new → 2 * Z.of_nat (length old + length l + length ops) + 2 < npos →
    ∃ o' c', handle_all o (instrs_of l ops) = Ok o' ∧ list_changes (m_info o') !! k = Some c' ∧ tracks c' old new)
    as Hrun.
  { clear. induction ops as [|op ops IH]; intros o c l Ep Ec Htr Ha Hn; simpl in *.
    { injection Ha as <-. by exists o, c. }
    destruct (apply_op l op) as [l1|] eqn:E; [|done]. simpl in Ha.
    destruct (record_op_tracks c old l l1 op) as (c1 & Er & Htr1); [done|done|lia|].
    destruct (list_step o k c c1 _ op Ep Ec Er) as (o1 & -> & Ep1 & Ec1). simpl.
    apply (IH o1 c1 l1); try done. apply apply_op_length in E. lia. }
  destruct (Hrun ops o Changes.new old) as (o' & c & Eo & Eoc & Htr); try done; [apply tracks_new|lia|].
  exists o', c. pose proof (tracks_complete c old new Htr) as [Hc1 Hc2].
  split_and!; try done. by destruct Htr as (_ & _ & _ & _ & _ & ?).
Qed.

(** ** Columns *)

(** A pointer that may be dereferenced. *)
Definition valid (i : change_info S) (p : pointer) : Prop :=
  match p with
  | Null => True
  | Table k => is_Some (tables i !! k)
  | List k => is_Some (list_changes i !! k)
  | Dangling => False
  end.

(** Where column [j] of table [t] was when the log began. *)
Definition column_map (i : change_info S) (t j : Z) : Z :=
  initial_column_index (get [] (column_indices i) t) j.

Lemma on_pointer_total p f o :
  valid (m_info o) p → (∀ c, is_Some (f c)) →
  ∃ o', on_pointer p f o = Some o' ∧ m_active_table o' = m_active_table o ∧
    m_active_descriptor o' = m_active_descriptor o ∧ m_is_top_level_table o' = m_is_top_level_table o ∧
    current_table o' = current_table o ∧ lists (m_info o') = lists (m_info o) ∧
    column_indices (m_info o') = column_indices (m_info o).
Proof.
  intros Hv Hf. destruct p as [|k|k|]; simpl in *; [by exists o| | |done].
  - destruct Hv as [c ->]. destruct (Hf c) as [c' E]. simpl. rewrite E. simpl. by eexists.
  - destruct Hv as [c ->]. destruct (Hf c) as [c' E]. simpl. rewrite E. simpl. by eexists.
Qed.

Lemma update_column_indices_spec o f x :
  0 <= current_table o → current_table o + 1 < W64 →
  f (get [] (column_indices (m_info o)) (current_table o)) = Some x →
  ∃ o', update_column_indices o f = Some o' ∧ lists (m_info o') = lists (m_info o) ∧
    ∀ t, 0 <= t → get [] (column_indices (m_info o')) t =
      if t =? current_table o then x else get [] (column_indices (m_info o)) t.
Proof.
  intros Hc Hc1 Hx. unfold update_column_indices. rewrite wadd_small by lia.
  set (cols := if _ <=? _ then _ else _).
  assert (Z.to_nat (current_table o) < length cols)%nat as Hlen.
  { unfold cols. destruct (Z.leb_spec (Z.of_nat (length (column_indices (m_info o)))) (current_table o));
      rewrite ?length_resize; lia. }
  assert (∀ t, get [] cols t = get [] (column_indices (m_info o)) t) as Hg.
  { intros t. unfold cols. destruct (Z.leb_spec (Z.of_nat (length (column_indices (m_info o)))) (current_table o)); [|done].
    apply get_resize. lia. }
  destruct (lookup_lt_is_Some_2 cols _ Hlen) as [l El]. rewrite El. simpl.
  assert (f l = Some x) as ->. { rewrite <- Hx. f_equal. rewrite <- Hg. unfold get, at_pos. by rewrite El. }
  simpl. eexists. split; [done|]. split; [done|]. intros t Ht. simpl. rewrite <- Hg. unfold get, at_pos.
  destruct (Z.eqb_spec t (current_table o)) as [->|Hne]; [by rewrite list_lookup_insert_eq|].
  by rewrite list_lookup_insert_ne by lia.
Qed.

(** The state in which the log changes the columns of a table. *)
Definition column_change o : Prop :=
  m_active_descriptor o = m_active_table o ∧ valid (m_info o) (m_active_table o) ∧
  m_is_top_level_table o = true ∧ 0 <= current_table o ∧ current_table o + 1 < W64 ∧
  small (get [] (column_indices (m_info o)) (current_table o)).

Lemma column_step o p f g h x :
  column_change o → p = m_active_descriptor o → (∀ c : change_builder S, is_Some (f c)) →
  h (get [] (column_indices (m_info o)) (current_table o)) = Some x →
  ∃ o', (o1 ← on_pointer p f o;
         same ← pointer_eq (m_active_descriptor o1) (m_active_table o1);
         if negb same || negb (m_is_top_level_table o1) then Some o1
         else update_column_indices (for_lists o1 (g (current_table o1))) h) = Some o' ∧
    lists (m_info o') = g (current_table o) <$> lists (m_info o) ∧
    ∀ t, 0 <= t → get [] (column_indices (m_info o')) t =
      if t =? current_table o then x else get [] (column_indices (m_info o)) t.
Proof.
  intros (Ep & Hv & Ht & Hc & Hc1 & _) -> Hf Hx. rewrite Ep.
  destruct (on_pointer_total _ f o Hv Hf) as (o1 & -> & E1 & E2 & E3 & E4 & E5 & E6). simpl.
  assert (pointer_eq (m_active_descriptor o1) (m_active_table o1) = Some true) as ->.
  { rewrite E1, E2, Ep. destruct (m_active_table o); simpl in *; by rewrite ?bool_decide_eq_true_2. }
  simpl. rewrite E3, Ht. simpl.
  destruct (update_column_indices_spec (for_lists o1 (g (current_table o1))) h x) as (o' & -> & El & Hg);
    [simpl; by rewrite E4|simpl; by rewrite E4|simpl; by rewrite E4, E6|].
  exists o'. split; [done|]. simpl in *. rewrite El, E4, E5. split; [done|]. rewrite E4, E6 in Hg. done.
Qed.

(** When a column is inserted, every later column of the new version, however
    many the log touched, is mapped to where it was when the log began, the inserted
    one to no column, and the watched lists follow their columns. *)
Theorem insert_column_correct o ndx :
  column_change o → 0 <= ndx → ndx + 1 < W64 →
  ∃ o', observer_handle o (insert_column ndx) = Ok o' ∧
    (∀ t j, 0 <= t → 0 <= j < W64 → column_map (m_info o') t j =
       if t =? current_table o then
         if j =? ndx then npos else column_map (m_info o) t (if j <? ndx then j else j - 1)
       else column_map (m_info o) t j) ∧
    ∀ k l, lists (m_info o) !! k = Some l → col_ndx l + 1 < W64 → 0 <= col_ndx l → lists (m_info o') !! k =
      Some (if table_ndx l =? current_table o then set_col l (after_insert ndx 1 (col_ndx l)) else l).
Proof.
  intros Hcc Hn Hn1. pose proof Hcc as (_ & _ & _ & Hct & _ & Hs).
  set (cols := get [] (column_indices (m_info o)) (current_table o)) in *.
  pose proof (expand_to_length cols ndx Hs Hn Hn1) as Hlen.
  set (e := insert_empty_at 0 (expand_to cols ndx) ndx).
  assert (is_Some (e !! Z.to_nat ndx)) as [y Ey].
  { apply lookup_lt_is_Some. unfold e. rewrite insert_empty_at_spec, insert_at_length by lia. lia. }
  destruct (column_step (with_info o (set_schema_changed (m_info o))) (m_active_descriptor o)
    (λ c, Some (Changes.insert_column c (Z.to_nat ndx)))
    (λ ct l, if (table_ndx l =? ct) && (ndx <=? col_ndx l) then set_col l (col_ndx l ⊕ 1) else l)
    (λ indices, _ ← insert_empty_at 0 (expand_to indices ndx) ndx !! Z.to_nat ndx;
                Some (<[Z.to_nat ndx := npos]> (insert_empty_at 0 (expand_to indices ndx) ndx)))
    (<[Z.to_nat ndx := npos]> e)) as (o' & E & El & Hg); [done|done|by eexists|simpl; fold cols e; by rewrite Ey|].
  exists o'. split; [|split].
  - unfold observer_handle. simpl. unfold do_insert_column. simpl in *. by rewrite E.
  - intros t j Ht Hj. unfold column_map. rewrite Hg by done. simpl. destruct (Z.eqb_spec t (current_table o)) as [->|]; [|done].
    by apply insert_column_initial.
  - intros k l Hl Hb Hb0. rewrite El, list_lookup_fmap. simpl. rewrite Hl. simpl. f_equal.
    destruct (table_ndx l =? current_table o); simpl; [|done]. unfold after_insert.
    destruct (Z.leb_spec ndx (col_ndx l)), (Z.ltb_spec (col_ndx l) ndx); try lia; [by wsimp|]. by destruct l.
Qed.

(** When a column is moved, the column at its new position is mapped to where
    the moved one was when the log began, and every other one likewise. *)
Theorem move_column_correct o from to :
  column_change o → 0 <= from → 0 <= to → from ≠ to → Z.max from to + 2 < W64 →
  ∃ o', observer_handle o (move_column from to) = Ok o' ∧
    (∀ t j, 0 <= t → 0 <= j < W64 →
       column_map (m_info o') t (if t =? current_table o then after_move from to j else j) =
       column_map (m_info o) t j) ∧
    ∀ k l, lists (m_info o) !! k = Some l → col_ndx l + 1 < W64 → 0 <= col_ndx l → lists (m_info o') !! k =
      Some (if table_ndx l =? current_table o then set_col l (after_move from to (col_ndx l)) else l).
Proof.
  intros Hcc Hf Ht Hne Hm. pose proof Hcc as (_ & _ & _ & Hct & _ & Hs).
  set (cols := get [] (column_indices (m_info o)) (current_table o)) in *.
  pose proof (expand_to_length cols (Z.max from to + 1) Hs ltac:(lia) ltac:(lia)) as Hlen.
  destruct (rotate_spec 0 (expand_to cols (Z.max from to ⊕ 1)) from to) as (x & _ & Er);
    [done..|rewrite wadd_small by lia; lia|].
  destruct (column_step (with_info o (set_schema_changed (m_info o))) (m_active_descriptor o)
    (λ c, Some (Changes.move_column c (Z.to_nat from) (Z.to_nat to)))
    (λ ct l, if table_ndx l =? ct then set_col l (adjust_for_move (col_ndx l) from to) else l)
    (λ indices, rotate 0 (expand_to indices (Z.max from to ⊕ 1)) from to) _
    Hcc eq_refl ltac:(by eexists) Er) as (o' & E & El & Hg).
  exists o'. split; [|split].
  - unfold observer_handle. simpl. unfold do_move_column. simpl in *. by rewrite E.
  - intros t j Htt Hj. unfold column_map. rewrite Hg by done. simpl.
    destruct (Z.eqb_spec t (current_table o)) as [->|]; [|done].
    by apply move_column_initial.
  - intros k l Hl Hb Hb0. rewrite El, list_lookup_fmap. simpl. rewrite Hl. simpl. f_equal.
    destruct (table_ndx l =? current_table o); simpl; [|done]. by rewrite adjust_for_move_after.
Qed.

(** ** Tables *)

(** What is recorded for the table that was at [k] when the log began. *)
Definition recorded_table (i : change_info S) (k : Z) : change_builder S * bool * bool :=
  (get Changes.new (tables i) (new_table_ndx i k),
   get false (table_modifications_needed i) (new_table_ndx i k),
   get false (table_moves_needed i) (new_table_ndx i k)).

(** [k] is a watched table, and the current table indices are not extreme. *)
Definition watched (i : change_info S) (k : Z) : Prop :=
  0 <= k < Z.of_nat (length (table_indices (prepare_table_indices i))) ∧
  Forall (λ v, 0 <= v ∧ v + 1 < W64) (table_indices (prepare_table_indices i)).

Lemma prepare_new_table_ndx (i : change_info S) k :
  0 <= k < W64 → new_table_ndx (prepare_table_indices i) k = new_table_ndx i k.
Proof.
  intros Hk. unfold prepare_table_indices.
  destruct (bool_decide_reflect (table_indices i = [])) as [E|]; [|done].
  destruct (bool_decide_reflect (table_modifications_needed i = [])); [done|]. simpl.
  unfold new_table_ndx. simpl. rewrite length_iota, E.
  assert ((k <? Z.of_nat (length (@nil Z))) = false) as -> by (apply Z.ltb_ge; simpl; lia).
  destruct (Z.ltb_spec k (Z.of_nat (length (table_modifications_needed i)))); [|done].
  rewrite lookup_iota by lia. simpl. by rewrite Z2Nat.id, wadd_small by lia.
Qed.

Lemma prepare_tables (i : change_info S) :
  tables (prepare_table_indices i) = tables i ∧
  table_modifications_needed (prepare_table_indices i) = table_modifications_needed i ∧
  table_moves_needed (prepare_table_indices i) = table_moves_needed i.
Proof. unfold prepare_table_indices. by case_match. Qed.

(** A renumbering of the tables by [f] that is applied to all vectors. *)
Lemma recorded_table_renumber (i i' : change_info S) k (f : Z → Z) :
  watched i k → Z.of_nat (length (table_indices (prepare_table_indices i))) < W64 →
  table_indices i' = f <$> table_indices (prepare_table_indices i) →
  (∀ j, 0 <= j → get Changes.new (tables i') (f j) = get Changes.new (tables i) j ∧
    get false (table_modifications_needed i') (f j) = get false (table_modifications_needed i) j ∧
    get false (table_moves_needed i') (f j) = get false (table_moves_needed i) j) →
  recorded_table i' k = recorded_table i k.
Proof.
  intros [Hk Hv] Hlen Ei Hf. unfold recorded_table.
  assert (new_table_ndx i' k = f (new_table_ndx i k) ∧ 0 <= new_table_ndx i k) as [-> H0'].
  { rewrite <- (prepare_new_table_ndx i k) by lia. unfold new_table_ndx. rewrite Ei, length_fmap, list_lookup_fmap.
    rewrite (proj2 (Z.ltb_lt _ _)) by lia.
    destruct (lookup_lt_is_Some_2 (table_indices (prepare_table_indices i)) (Z.to_nat k)) as [v Ev]; [lia|].
    rewrite Ev. simpl. split; [done|]. rewrite Forall_forall in Hv. apply (Hv v). by apply list_elem_of_lookup_2 in Ev. }
  destruct (Hf _ H0') as (-> & -> & ->). done.
Qed.

Lemma assign_tables_info o ts : m_info (assign_tables o ts) = with_tables (m_info o) ts.
Proof. unfold assign_tables. by case_match. Qed.

Lemma prepare_lists (i : change_info S) ls :
  prepare_table_indices (with_lists (set_schema_changed i) ls) =
  with_lists (set_schema_changed (prepare_table_indices i)) ls.
Proof. unfold prepare_table_indices. simpl. by case_match. Qed.

Lemma insert_table_info o ndx (i' := m_info (do_insert_group_level_table o ndx)) :
  table_indices i' = adjust_ge (table_indices (prepare_table_indices (m_info o))) ndx ∧
  tables i' = insert_empty_at Changes.new (tables (m_info o)) ndx ∧
  table_modifications_needed i' = insert_empty_at false (table_modifications_needed (m_info o)) ndx ∧
  table_moves_needed i' = insert_empty_at false (table_moves_needed (m_info o)) ndx.
Proof.
  destruct (prepare_tables (m_info o)) as (E1 & E2 & E3).
  unfold i', do_insert_group_level_table. simpl. rewrite assign_tables_info. simpl.
  rewrite prepare_lists. simpl. by rewrite E1, E2, E3.
Qed.

Lemma move_table_info o from to :
  0 <= from → 0 <= to → from ≠ to → Z.max from to + 1 < W64 →
  ∃ o', do_move_group_level_table o from to = Some o' ∧
    table_indices (m_info o') = (λ v, adjust_for_move v from to) <$> table_indices (prepare_table_indices (m_info o)) ∧
    ∀ j, 0 <= j → get Changes.new (tables (m_info o')) (after_move from to j) = get Changes.new (tables (m_info o)) j ∧
      get false (table_modifications_needed (m_info o')) (after_move from to j) = get false (table_modifications_needed (m_info o)) j ∧
      get false (table_moves_needed (m_info o')) (after_move from to j) = get false (table_moves_needed (m_info o)) j.
Proof.
  intros Hf Ht Hne Hm. destruct (prepare_tables (m_info o)) as (E1 & E2 & E3).
  unfold do_move_group_level_table. simpl. rewrite prepare_lists. simpl. rewrite E1, E2, E3.
  destruct (rotate_default Changes.new (tables (m_info o)) from to) as (ts & -> & Hts); [lia..|].
  destruct (rotate_default false (table_modifications_needed (m_info o)) from to) as (f1 & -> & Hf1); [lia..|].
  destruct (rotate_default false (table_moves_needed (m_info o)) from to) as (f2 & -> & Hf2); [lia..|].
  simpl. eexists. split; [done|]. simpl. rewrite assign_tables_info. simpl. split; [done|]. intros j Hj.
  split_and!; auto.
Qed.

(** Inserting or moving a table renumbers everything alike: what is recorded
    for a watched table stays recorded for it, under its new number. *)
Theorem table_renumbering_correct o i k from to ndx :
  watched (m_info o) k → Z.of_nat (length (table_indices (prepare_table_indices (m_info o)))) < W64 →
  0 <= ndx → 0 <= from → 0 <= to → from ≠ to → Z.max from to + 1 < W64 →
  i = insert_group_level_table ndx ∨ i = move_group_level_table from to →
  ∃ o', observer_handle o i = Ok o' ∧ recorded_table (m_info o') k = recorded_table (m_info o) k.
Proof.
  intros Hw Hlen Hn Hf Ht Hne Hm [->| ->]; unfold observer_handle; simpl; pose proof Hw as [_ Hv].
  - eexists. split; [done|]. destruct (insert_table_info o ndx) as (E1 & E2 & E3 & E4).
    apply (recorded_table_renumber _ _ k (after_insert ndx 1)); [done|done| |].
    + rewrite E1. apply list_fmap_ext. intros a v Ea%list_elem_of_lookup_2.
      rewrite Forall_forall in Hv. specialize (Hv v Ea). unfold after_insert.
      destruct (Z.leb_spec ndx v), (Z.ltb_spec v ndx); try lia; by wsimp.
    + intros j Hj. rewrite E2, E3, E4. split_and!; by apply get_insert_empty.
  - destruct (move_table_info o from to) as (o' & -> & E1 & E2); [done..|]. simpl. exists o'. split; [done|].
    apply (recorded_table_renumber _ _ k (after_move from to)); [done|done| |done].
    rewrite E1. apply list_fmap_ext. intros a v Ea%list_elem_of_lookup_2.
    rewrite Forall_forall in Hv. specialize (Hv v Ea). apply adjust_for_move_after; lia.
Qed.

(** ** Validation

    What an instruction does to the tables of a file and their columns is stated apart from the validator. *)

Lemma tables_kept_refl s : tables_kept s s.
Proof. intros t Ht. by exists t. Qed.

Lemma tables_kept_trans s1 s2 s3 : tables_kept s1 s2 → tables_kept s2 s3 → tables_kept s1 s3.
Proof.
  intros H1 H2 t Ht. destruct (H1 t Ht) as (t' & Ht' & En & Hc). destruct (H2 t' Ht') as (t'' & ? & En' & Hc').
  exists t''. split; [done|]. split; [congruence|]. intros c Hcc. by apply Hc', Hc.
Qed.

Lemma insert_at_elem {A} k (x y : A) l : y ∈ insert_at k x l ↔ y = x ∨ y ∈ l.
Proof.
  unfold insert_at. rewrite elem_of_app, elem_of_cons. rewrite <- (take_drop (Z.to_nat k) l) at 3. rewrite elem_of_app. tauto.
Qed.

Lemma moved_elem {A} from to (x y : A) l :
  l !! Z.to_nat from = Some x → y ∈ l → y ∈ insert_at to x (delete (Z.to_nat from) l).
Proof.
  intros Hx Hy. rewrite insert_at_elem. apply list_elem_of_lookup in Hy as [k Hk].
  destruct (decide (k = Z.to_nat from)) as [->|Hne]; [left; congruence|right].
  rewrite <- (take_drop_middle l (Z.to_nat from) x Hx) in Hk. rewrite delete_take_drop, elem_of_app.
  apply lookup_app_Some in Hk as [Hk|[Hk1 Hk]]; [left; by eapply list_elem_of_lookup_2|right].
  apply lookup_cons_Some in Hk as [[Hk ->]|[_ Hk]]; [|by eapply list_elem_of_lookup_2].
  destruct Hne. apply lookup_lt_Some in Hx. rewrite length_take in Hk, Hk1. lia.
Qed.

Lemma alters_kept i s s' : alters i s s' → validate i = Ok tt → tables_kept s s'.
Proof.
  intros Ha Hv. destruct Ha as [k t s|from to t s Hs|k s|k t n s Hs|i k t cs s Hs Hc|i s Hi]; try done.
  - intros x Hx. exists x. split; [apply insert_at_elem; by right|done].
  - intros x Hx. exists x. split; [by apply moved_elem|done].
  - assert (∀ x, x ∈ st_columns t → x ∈ cs) as Hcs.
    { destruct Hc; try done; intros y Hy; first [apply insert_at_elem; by right|by apply moved_elem]. }
    intros x Hx. apply list_elem_of_lookup in Hx as [j Hj]. destruct (decide (k = j)) as [->|Hne].
    + simplify_eq. exists (StoredTable (st_name t) cs). split; [|done].
      eapply list_elem_of_lookup_2. apply list_lookup_insert_eq. by eapply lookup_lt_Some.
    + exists x. split; [|done]. eapply list_elem_of_lookup_2. by rewrite list_lookup_insert_ne.
  - apply tables_kept_refl.
Qed.

Lemma harmless_iff i : harmless i ↔ validate i = Ok tt.
Proof.
  split; [|intros Hv s s' Ha; by apply (alters_kept i)]. intros Hh.
  set (t := StoredTable "a" [("x", 0)]).
  assert (∀ s', alters i [t] s' → s' = [] ∨ (∃ t', s' = [t'] ∧ (st_name t' ≠ "a" ∨ ("x", 0) ∉ st_columns t')) → False) as Hno.
  { intros s' Ha Hs. destruct (Hh [t] s' Ha t) as (t' & Hin & En & Hc); [left|].
    destruct Hs as [->|(t1 & -> & Hd)]; [by apply elem_of_nil in Hin|]. apply list_elem_of_singleton in Hin as ->.
    destruct Hd as [?|Hd]; [done|]. apply Hd, Hc. left. }
  destruct i; try done; exfalso.
  - apply (Hno []); [|by left]. apply (alters_erase_table 0 [t]).
  - apply (Hno [StoredTable "b" [("x", 0)]]); [by apply (alters_rename_table 0 t "b" [t])|]. right. eexists. split; [done|]. by left.
  - apply (Hno [StoredTable "a" []]); [|right; eexists; split; [done|]; right; by apply not_elem_of_nil].
    apply (alters_columns _ 0 t [] [t]); [done|]. apply (erases_column 0 (st_columns t)).
  - apply (Hno [StoredTable "a" []]); [|right; eexists; split; [done|]; right; by apply not_elem_of_nil].
    apply (alters_columns _ 0 t [] [t]); [done|]. apply (erases_link_column 0 (st_columns t)).
  - apply (Hno [StoredTable "a" [("y", 0)]]); [|right; eexists; split; [done|]; right; by intros ?%list_elem_of_singleton].
    apply (alters_columns _ 0 t [("y", 0)] [t]); [done|]. by apply (renames_column 0 "x" "y" 0 (st_columns t)).
Qed.

Lemma validate_or i : validate i = Ok tt ∨ validate i = Raise UnsupportedSchemaChange.
Proof. destruct i; auto. Qed.

Lemma validate_log_harmless l : validate_log l = Ok tt ↔ ∀ i, i ∈ l → harmless i.
Proof.
  induction l as [|i l IH]; cbn [validate_log]; [by split; [intros _ i ?%elem_of_nil|]|]. split.
  - destruct (validate_or i) as [E|E]; rewrite E; [|done]. cbn. intros Hl j [->|Hj]%elem_of_cons; [by apply harmless_iff|by apply IH].
  - intros Hl. rewrite (proj1 (harmless_iff i)) by (apply Hl; left). cbn. apply IH. intros j Hj. apply Hl. by right.
Qed.

(** C15: a log is accepted by the validator exactly when each of its instructions leaves every table and every column in place under its
    name, whatever file it is applied to; so whatever the tables were, they are all there after an accepted log.  The observer
    validates the same way: a log that it handles without an exception is accepted, and [UnsupportedSchemaChange] comes from an
    instruction that takes away or renames something. *)
Theorem log_validation o l :
  (validate_log l = Ok tt ↔ ∀ i, i ∈ l → harmless i) ∧
  (validate_log l = Ok tt → ∀ s s', alters_log l s s' → tables_kept s s') ∧
  (∀ o', run_log o l = Ok o' → ∀ s s', alters_log l s s' → tables_kept s s') ∧
  (run_log o l = Raise UnsupportedSchemaChange → ∃ i, i ∈ l ∧ ¬ harmless i).
Proof.
  assert (validate_log l = Ok tt → ∀ s s', alters_log l s s' → tables_kept s s') as Hkept.
  { intros Hl s s' Ha. pose proof (proj1 (validate_log_harmless l) Hl) as Hh. revert Hh. clear Hl.
    induction Ha as [s|i l s s1 s2 Hi _ IH]; intros Hh; [apply tables_kept_refl|]. apply (tables_kept_trans _ s1).
    - by apply (Hh i); [left|].
    - apply IH. intros j Hj. apply Hh. by right. }
  split; [apply validate_log_harmless|]. split; [done|]. split.
  - intros o' E. apply Hkept. clear Hkept. revert o E. induction l as [|i l IH]; intros o; simpl; [done|]. unfold observer_handle.
    destruct (validate_or i) as [-> | ->]; simpl; [|done]. destruct (observer_step o i); simpl; [apply IH|done].
  - clear Hkept. revert o. induction l as [|i l IH]; intros o; simpl; [by destruct (observer_parse_complete o)|].
    unfold observer_handle. destruct (validate_or i) as [E|E]; rewrite E; simpl.
    + destruct (observer_step o i) as [o'|]; simpl; [|done]. intros (j & Hj & Hn)%IH. exists j. split; [by right|done].
    + intros _. exists i. split; [left|]. rewrite harmless_iff, E. done.
Qed.
End theorems.

(** ** Where the code does not do what it means to *)

(** [erase_rows] replaces the entry of a list in the erased row by the last entry
    and goes on with the next position: the entry that took the place is not looked
    at.  Of two lists in the erased row the second stays, with the row that the last
    row moves to. *)
Theorem erase_rows_keeps_stale_list :
  erase_row_lists 2 0 0 3 9 [ListChangeInfo 0 3 1 0; ListChangeInfo 0 3 2 1] = [ListChangeInfo 0 3 2 1].
Proof. reflexivity. Qed.

(** Nor is a list that was in the last row sent to its new row. *)
Theorem erase_rows_loses_moved_list :
  erase_row_lists 2 0 0 3 9 [ListChangeInfo 0 3 1 0; ListChangeInfo 0 9 1 1] = [ListChangeInfo 0 9 1 1].
Proof. reflexivity. Qed.

(** ** Instances on concrete logs *)

#[local] Existing Instance debug_build.

(** An observer of one list in row 3, column 1 of table 0, and of the tables 0 and
    2; the columns of table 0 have changed before. *)
Definition sample_info : change_info vec :=
  Info [true; false; true] [true; false; true] [ListChangeInfo 0 3 1 0] [Changes.new; Changes.new; Changes.new]
    [[0; npos; 1; 2]] [] false false {[0%nat := Changes.new]}.
Definition sample_observer : observer vec := Observer sample_info (List 0) (Table 0) (Table 0) true true 0.

Lemma list_log_witness :
  let ops := [op_insert 1 7; op_move 0 3; op_erase 2; op_set 0 8; op_swap 0 1] in
  ∃ o' c, handle_all sample_observer (instrs_of [1; 2; 3; 4; 5] ops) = Ok o' ∧
    list_changes (m_info o') !! 0%nat = Some c ∧
    (∀ i j, follows c i j → j < Z.of_nat (length [2; 8; 1; 4; 5]) →
       0 <= i < Z.of_nat (length [1; 2; 3; 4; 5]) ∧
       (has (modifications c) j ∨ at_pos [1; 2; 3; 4; 5] i = at_pos [2; 8; 1; 4; 5] j)) ∧
    (∀ j, 0 <= j < Z.of_nat (length [2; 8; 1; 4; 5]) → has (insertions c) j ∨ ∃ i, kept c i j) ∧
    (∀ i, 0 <= i < Z.of_nat (length [1; 2; 3; 4; 5]) →
       has (deletions c) i ∨ ∃ j, kept c i j ∧ j < Z.of_nat (length [2; 8; 1; 4; 5])).
Proof.
  intros ops. apply (list_log_correct sample_observer 0 ops [1; 2; 3; 4; 5] [2; 8; 1; 4; 5]);
    [reflexivity|reflexivity|vm_compute; reflexivity|vm_compute; reflexivity].
Defined.

(** A log that adds a column and moves it, and one that renames a column *)
Lemma log_validation_witness :
  let added := [select_table 0 []; insert_column 0; move_column 0 1; add_search_index] in
  (∃ o', run_log sample_observer added = Ok o') ∧
  (∀ s s', alters_log added s s' → tables_kept s s') ∧
  ∃ i, i ∈ [select_table 0 []; rename_column] ∧ ¬ harmless i.
Proof.
  intros added. assert (∃ o', run_log sample_observer added = Ok o') as (o' & E) by (eexists; vm_compute; reflexivity).
  split; [by exists o'|]. split.
  - apply (proj1 (proj2 (proj2 (log_validation sample_observer added))) o' E).
  - by apply (log_validation sample_observer [select_table 0 []; rename_column]).
Defined.

Lemma sample_column_change : column_change sample_observer.
Proof. unfold column_change, small. vm_compute. split_and!; try done. by eexists. Qed.

Lemma insert_column_witness :
  ∃ o', observer_handle sample_observer (insert_column 2) = Ok o' ∧
    (∀ t j, 0 <= t → 0 <= j < W64 → column_map (m_info o') t j =
       if t =? 0 then if j =? 2 then npos else column_map sample_info t (if j <? 2 then j else j - 1)
       else column_map sample_info t j) ∧
    ∀ k l, lists sample_info !! k = Some l → col_ndx l + 1 < W64 → 0 <= col_ndx l → lists (m_info o') !! k =
      Some (if table_ndx l =? 0 then set_col l (after_insert 2 1 (col_ndx l)) else l).
Proof. apply (insert_column_correct sample_observer 2); [exact sample_column_change|lia|lia]. Defined.

Lemma move_column_witness :
  ∃ o', observer_handle sample_observer (move_column 1 6) = Ok o' ∧
    (∀ t j, 0 <= t → 0 <= j < W64 →
       column_map (m_info o') t (if t =? 0 then after_move 1 6 j else j) = column_map sample_info t j) ∧
    ∀ k l, lists sample_info !! k = Some l → col_ndx l + 1 < W64 → 0 <= col_ndx l → lists (m_info o') !! k =
      Some (if table_ndx l =? 0 then set_col l (after_move 1 6 (col_ndx l)) else l).
Proof. apply (move_column_correct sample_observer 1 6); [exact sample_column_change|lia..]. Defined.

Lemma table_renumbering_witness :
  ∃ o', observer_handle sample_observer (move_group_level_table 2 0) = Ok o' ∧
    recorded_table (m_info o') 2 = recorded_table sample_info 2.
Proof.
  apply (table_renumbering_correct sample_observer (move_group_level_table 2 0) 2 2 0 0);
    [|vm_compute; reflexivity|lia..|right; reflexivity].
  split; [vm_compute; split; [discriminate|reflexivity]|].
  change (table_indices _) with [0; 1; 2]. repeat constructor; lia.
Defined.
