(* ===== verification/Kvo.v ===== *)
(** * Key-value observation

    Model of [KVOAdapter] in impl/transact_log_handler.cpp, which turns the change
    sets that the transaction log observer recorded into the changes of the
    observed objects' columns, and of the functions there that advance a read
    transaction and send the notifications in order. *)

From stdpp Require Import gmap.
From stdpp Require Import gmap sorting.
From S2P Require Import Prelude RangeSet RangeVector IndexSetTheorems IndexSetInterface ChangeBuilder ChangeBuilderSpec ChangeBuilderMove ChangeBuilderTheorems TransactLog.

Import Positions Log.

(** [BindingContext::ColumnInfo] *)
Inductive change_kind := KNone | KSet | KInsert | KRemove | KSetAll.
#[export] Instance change_kind_dec : EqDecision change_kind.
Proof. solve_decision. Defined.

Record column_info (S : Type) := ColumnInfo {
  initial_column : Z; kind : change_kind; indices : S
}.
Arguments ColumnInfo {S}.
Arguments initial_column {S}.
Arguments kind {S}.
Arguments indices {S}.

(** [BindingContext::ObserverState]; [os_info] is the client's opaque value. *)
Record observer_state (S : Type) := ObserverState {
  os_table : Z; os_row : Z; os_info : nat; os_changes : list (column_info S)
}.
Arguments ObserverState {S}.
Arguments os_table {S}.
Arguments os_row {S}.
Arguments os_info {S}.
Arguments os_changes {S}.

(** [KVOAdapter::ListInfo]: the observer by its position, the change set by its
    address. *)
Record kvo_list := ListInfo { li_observer : nat; li_builder : nat; li_col : Z; li_initial_size : Z }.

(** The column types that the constructor tells apart. *)
Inductive column_type := type_LinkList | type_Table | type_other.

(** [KVOAdapter] *)
Record adapter (S : Type) := Adapter {
  k_info : change_info S;
  k_observers : list (observer_state S);
  k_invalidated : list nat;
  k_lists : list kvo_list
}.
Arguments Adapter {S}.
Arguments k_info {S}.
Arguments k_observers {S}.
Arguments k_invalidated {S}.
Arguments k_lists {S}.

Module KVO.
Section kvo.
Context {S : Type} `{IndexSets S}.
Implicit Types (i : change_info S) (o : observer_state S) (c : change_builder S) (ci : column_info S).

(** ** Construction *)

(** The tables of the file: the column types of a table, and the size of the
    subtable in a cell. *)
Variable column_types : Z → list column_type.
Variable subtable_size : Z → Z → Z → Z.

(** [TransactionChangeInfo{}] *)
Definition empty_info : change_info S := Info [] [] [] [] [] [] false false ∅.

(** The lists of one observed row, whose change sets are at the addresses from
    [next]. *)
Fixpoint row_lists (obs : nat) (tbl row : Z) (types : list column_type) (col : Z) (next : nat) : list kvo_list :=
  match types with
  | [] => []
  | t :: types =>
      match t with
      | type_LinkList => ListInfo obs next col npos :: row_lists obs tbl row types (col + 1) (Datatypes.S next)
      | type_Table => ListInfo obs next col (subtable_size tbl col row)
                      :: row_lists obs tbl row types (col + 1) (Datatypes.S next)
      | type_other => row_lists obs tbl row types (col + 1) next
      end
  end.

Fixpoint all_lists (observers : list (observer_state S)) (obs next : nat) : list kvo_list :=
  match observers with
  | [] => []
  | o :: observers =>
      let ls := row_lists obs (os_table o) (os_row o) (column_types (os_table o)) 0 next in
      ls ++ all_lists observers (Datatypes.S obs) (next + length ls)
  end.

(** [if (max >= v.size()) v.resize(max + 1, false)], then the flag of each table. *)
Definition mark_tables (tbls : list Z) (max : Z) (flags : list bool) : list bool :=
  let flags := if Z.of_nat (length flags) <=? max then resize (Z.to_nat (max + 1)) false flags else flags in
  foldl (λ fs t, <[Z.to_nat t := true]> fs) flags tbls.

Definition construct (observers : list (observer_state S)) : adapter S :=
  match observers with
  | [] => Adapter empty_info [] [] []
  | _ =>
      let tbls := os_table <$> observers in
      let ls := all_lists observers 0 0 in
      let max := foldl Z.max 0 tbls in
      let infos := omap (λ l, o ← observers !! li_observer l;
                              Some (ListChangeInfo (os_table o) (os_row o) (li_col l) (li_builder l))) ls in
      let i := Info (mark_tables tbls max []) (mark_tables tbls max []) infos [] [] [] false false
                 (list_to_map ((λ l, (li_builder l, Changes.new)) <$> ls)) in
      Adapter i observers [] ls
  end.

(** ** Where an observed row ends up *)

(** [std::lower_bound] on the moves, which are sorted by [from]. *)
Definition find_move (ms : list Move) (idx : Z) : option Z :=
  match ms !! find_if (λ m : Move, idx <=? m.1) ms with
  | Some m => if m.1 =? idx then Some m.2 else None
  | None => None
  end.

(** The new position of row [idx]; [None] inside: the row was deleted. *)
Definition new_row c (idx : Z) : option (option Z) :=
  match find_move (moves c) idx with
  | Some to => Some (Some to)
  | None =>
      deleted ← is_contains (deletions c) idx;
      if deleted : bool then Some None else
      u ← is_unshift (deletions c) idx;
      Some (Some (is_shift (insertions c) u))
  end.

Definition new_column_info : column_info S := ColumnInfo npos KNone is_new.

(** The loop over [table.columns]. *)
Definition column_change (cols : list Z) (idx j : Z) (s : S) ci : option (column_info S) :=
  let initial := initial_column_index cols j in
  modified ← is_contains s idx;
  Some (ColumnInfo initial (if negb (initial =? npos) && modified then KSet else kind ci) (indices ci)).

Fixpoint columns_changes (cols : list Z) (idx j : Z) (ss : list S) (cis : list (column_info S)) : option (list (column_info S)) :=
  match ss, cis with
  | s :: ss, ci :: cis =>
      ci' ← column_change cols idx j s ci;
      rest ← columns_changes cols idx (j + 1) ss cis;
      Some (ci' :: rest)
  | _, _ => Some []
  end.

(** The loop of [before] over the observers; the state is [m_invalidated]. *)
Definition observe_row i o (invalidated : list nat) : option (observer_state S * list nat) :=
  let table_ndx := new_table_ndx i (os_table o) in
  match tables i !! Z.to_nat table_ndx with
  | None => Some (o, invalidated)
  | Some table =>
      idx ← new_row table (os_row o);
      match idx with
      | None => Some (o, invalidated ++ [os_info o])
      | Some idx =>
          modified ← is_contains (modifications table) idx;
          if negb modified then Some (o, invalidated) else
          let cols := default [] (column_indices i !! Z.to_nat table_ndx) in
          changes ← columns_changes cols idx 0 (columns table)
                      (resize (length (columns table)) new_column_info (os_changes o));
          Some (ObserverState (os_table o) (os_row o) (os_info o) changes, invalidated)
      end
  end.

(** ** Lists of an observed row *)

(** [in_range(it, end, i)]: the iterator moves on by one range at most. *)
Definition in_range (it : list range) (i : Z) : list range * bool :=
  let it := match it with r :: it' => if r.2 <=? i then it' else it | [] => it end in
  (it, match it with r :: _ => (r.1 <=? i) && (i <? r.2) | [] => false end).

(** One index of the loop that finds the rows which the moves shifted. *)
Definition shifted_row (i : Z) (s : list range * list range * Z * S) : option (list range * list range * Z * S) :=
  let '(del, ins, shift, ind) := s in
  let '(del, deleted) := in_range del i in
  let '(ins, shift) :=
    if deleted : bool then (ins, shift - 1)
    else let '(ins, inserted) := in_range ins (i ⊕ shift) in (ins, if inserted : bool then shift + 1 else shift) in
  if negb (shift =? 0) then ind ← is_add ind i; Some (del, ins, shift, ind)
  else Some (del, ins, shift, ind).

(** The moves as assignments to every row that they shift. *)
Definition moves_as_sets c : option S :=
  let del := is_ranges (deletions c) in
  let ins := is_ranges (insertions c) in
  ind ← is_add_set (modifications c) (deletions c);
  match del, ins, last del, last ins with
  | d :: _, n :: _, Some d', Some n' =>
      let start := Z.min n.1 d.1 in
      let stop := Z.max n'.2 d'.2 in
      '(_, _, _, ind) ← foldM shifted_row (seqZ start (stop - start)) (del, ins, 0, ind);
      Some ind
  | _, _, _, _ => None
  end.

(** What the changes of a list are reported as. *)
Definition list_change c (initial_size : Z) ci : option (column_info S) :=
  m ← is_remove_set (modifications c) (insertions c);
  let c := Changes.with_modifications c m in
  ni ← is_count_to (insertions c) npos;
  nd ← is_count_to (deletions c) npos;
  let nm := Z.of_nat (length (moves c)) in
  if negb (nm =? 0) && (ni =? nm) && (nd =? nm) then
    ind ← moves_as_sets c;
    Some (ColumnInfo (initial_column ci) KSet ind)
  else if Z.b2z (is_empty (insertions c)) + Z.b2z (is_empty (modifications c)) + Z.b2z (is_empty (deletions c)) <? 2 then
    Some (ColumnInfo (initial_column ci) KSetAll (indices ci))
  else if negb (is_empty (insertions c)) then
    Some (ColumnInfo (initial_column ci) KInsert (insertions c))
  else if negb (is_empty (modifications c)) then
    Some (ColumnInfo (initial_column ci) KSet (modifications c))
  else
    REALM_ASSERT (negb (is_empty (deletions c))) ;;
    e ← Changes.last_end (deletions c);
    if initial_size <? e then
      s ← is_set initial_size; Some (ColumnInfo (initial_column ci) KRemove s)
    else Some (ColumnInfo (initial_column ci) KRemove (deletions c)).

Definition with_changes o cis : observer_state S := ObserverState (os_table o) (os_row o) (os_info o) cis.

(** The loop of [before] over the lists; the state are the observers. *)
Definition observe_list i (l : kvo_list) (os : list (observer_state S)) : option (list (observer_state S)) :=
  o ← os !! li_observer l;
  c ← list_changes i !! li_builder l;
  let k := Z.to_nat (li_col l) in
  if Changes.empty c then
    match os_changes o !! k with
    | Some ci =>
        Some (<[li_observer l := with_changes o (<[k := ColumnInfo (initial_column ci) KNone (indices ci)]> (os_changes o))]> os)
    | None => Some os
    end
  else if bool_decide (length (os_changes o) = 0%nat) then
    table ← tables i !! Z.to_nat (new_table_ndx i (os_table o));
    deleted ← is_contains (deletions table) (os_row o);
    REALM_ASSERT (deleted : bool) ;;
    Some os
  else
    ci ← os_changes o !! k;
    ci' ← list_change c (li_initial_size l) ci;
    Some (<[li_observer l := with_changes o (<[k := ci']> (os_changes o))]> os).

(** [before(sg)] *)
Definition before (a : adapter S) : option (adapter S) :=
  let i := k_info a in
  match tables i with
  | [] => Some a
  | _ =>
      '(os, inv) ← update_each (observe_row i) (k_observers a) (k_invalidated a);
      os ← foldM (observe_list i) (k_lists a) os;
      Some (Adapter i os inv (k_lists a))
  end.
End kvo.
End KVO.

(** * What key-value observation promises *)

Import KVO.

(** The lookup of a move by its source. *)
Lemma find_move_spec (ms : list Move) idx to :
  Sorted by_from ms → NoDup (ms.*1) → find_move ms idx = Some to ↔ (idx, to) ∈ ms.
Proof.
  unfold find_move. intros Hs Hn.
  assert (StronglySorted by_from ms) as Hss.
  { apply Sorted_StronglySorted; [|done]. intros x y z. unfold by_from. lia. }
  clear Hs. induction Hss as [|[a b] ms Hss IH Hall]; simpl; [by rewrite elem_of_nil|].
  inversion Hn as [|? ? Hna Hn']; subst. simpl in Hna. rewrite elem_of_cons. destruct (Z.leb_spec idx a) as [C|C].
  - simpl. destruct (Z.eqb_spec a idx) as [->|Hne].
    + split; [intros [= ->]; by left|]. intros [[= ->]|Hin]; [done|]. destruct Hna.
      apply list_elem_of_fmap. by exists (idx, to).
    + split; [done|]. intros [[= -> ->]|Hin]; [done|]. rewrite Forall_forall in Hall.
      specialize (Hall _ Hin). unfold by_from in Hall. simpl in Hall. lia.
  - simpl. rewrite IH by done. split; [by right|]. intros [[= -> ->]|?]; [lia|done].
Qed.

Section theorems.
Context {S : Type} `{IndexSetLaws S}.
Implicit Types (c : change_builder S).

(** The observed row is followed to where the change set says it is, moved
    rows included, and reported as deleted exactly when it is followed nowhere. *)
Theorem new_row_correct N c idx :
  wf c → within N c → N + N < npos → moves_ok c → Sorted by_from (moves c) → 0 <= idx < N →
  ∃ r, new_row c idx = Some r ∧ ∀ j, r = Some j ↔ follows c idx j.
Proof.
  intros Hwf Hw HN Hmv Hs Hi. pose proof Hmv as (Hm & Hn1 & _). pose proof Hwf as (Hd & _).
  assert (∀ j, has (deletions c) idx → kept c idx j → False) as Hdel by (by intros j ? (_ & _ & _ & ? & _)).
  unfold new_row. destruct (find_move (moves c) idx) as [to|] eqn:E.
  - eexists. split; [done|]. apply find_move_spec in E as Hin; [|done|done]. intros j. unfold follows.
    split; [intros [= <-]; by right|]. intros [Hk|Hj].
    + exfalso. apply (Hdel j); [by apply (Hm idx to)|done].
    + apply find_move_spec in Hj; [|done|done]. congruence.
  - assert (∀ j, (idx, j) ∉ moves c) as Hno.
    { intros j Hj. apply find_move_spec in Hj; [|done|done]. congruence. }
    rewrite is_contains_law by done. simpl. destruct (memb idx (is_ranges (deletions c))) eqn:Eb.
    + eexists. split; [done|]. intros j. split; [done|]. intros [Hk|Hj]; [|by apply Hno in Hj].
      exfalso. apply (Hdel j); [by apply memb_mem|done].
    + assert (¬ has (deletions c) idx) as Hnd by (unfold has; rewrite <- memb_mem; by rewrite Eb).
      rewrite is_unshift_law by (done || lia). simpl. eexists. split; [done|]. intros j. unfold follows.
      rewrite (kept_iff_shift N) by done. split; [intros [= <-]; by left|].
      intros [[_ ->]|Hj]; [done|by apply Hno in Hj].
Qed.
End theorems.

#[local] Existing Instance debug_build.

Lemma new_row_witness :
  ∃ r, new_row sample_changes 20 = Some r ∧ ∀ j, r = Some j ↔ follows sample_changes 20 j.
Proof.
  apply (new_row_correct 21 sample_changes 20);
    [exact sample_wf|exact sample_within|lia|exact sample_moves_ok| |lia].
  repeat constructor; unfold by_from; cbn; lia.
Defined.

(** ** Where the code does not do what it means to *)

(** The rows c and e of [a; b; c; d; e] move to the front, so that every position
    of the list holds another row than before.  The loop counts one insertion for
    each old position at most, takes the shift of row 3 to be zero, and does not
    report position 3. *)
Theorem moves_as_sets_misses_row :
  let c : change_builder vec :=
    Build [Chunk [(2, 3); (4, 5)] 2 5 2] [Chunk [(0, 2)] 0 2 2] [] [(2, 0); (4, 1)] [] ∅ true in
  ∃ s, moves_as_sets c = Some s ∧ is_contains s 3 = Some false ∧
    is_contains s 0 = Some true ∧ is_contains s 1 = Some true ∧
    is_contains s 2 = Some true ∧ is_contains s 4 = Some true.
Proof. eexists. split; [vm_compute; reflexivity|]. vm_compute. split_and!; reflexivity. Qed.
