(* ===== verification/SyncSession.v ===== *)
(** * Sync sessions

    Model of sync/sync_session.cpp: the four states of a session and their
    handlers, the handling of errors, and the waits for completion.  The underlying
    [sync::Session] belongs to a library; it is represented by the number of the
    instance, the calls into it are events, and its callbacks are inputs.  A member
    function runs to completion: what other threads may do at the points where it
    releases the lock comes as inputs before or after it. *)

From Stdlib Require Import String.
From S2P Require Import Prelude.

(** ** Data *)

(** [SyncSession::State] and its four instances. *)
Inductive state := waiting_for_access_token | active | dying | inactive.
#[export] Instance state_dec : EqDecision state.
Proof. solve_decision. Defined.

(** [SyncSession::PublicState] *)
Inductive PublicState := WaitingForAccessToken | Active | Dying | Inactive.

(** [SyncSession::ConnectionState] *)
Inductive connection := Disconnected | Connecting | Connected.
#[export] Instance connection_dec : EqDecision connection.
Proof. solve_decision. Defined.

(** [SyncSessionStopPolicy] *)
Inductive stop_policy := Immediately | LiveIndefinitely | AfterChangesUploaded.

(** [ClientResyncMode] *)
Inductive resync_mode := Recover | DiscardLocal | Manual.

(** [SyncProgressNotifier::NotifierType] *)
Inductive direction := upload | download.
#[export] Instance direction_dec : EqDecision direction.
Proof. solve_decision. Defined.

(** [sync::ProtocolError], the errors that the code names. *)
Inductive ProtocolError :=
  (* connection level *)
  | connection_closed | other_error | unknown_message | bad_syntax | limits_exceeded
  | wrong_protocol_version | bad_session_ident | reuse_of_session_ident | bound_in_other_session
  | bad_message_order | bad_client_version | illegal_realm_path | no_such_realm | bad_changeset
  | bad_changeset_header_syntax | bad_changeset_size | bad_changesets | bad_decompression
  | partial_sync_disabled | unsupported_session_feature | transact_before_upload
  (* session level *)
  | session_closed | other_session_error | disabled_session | token_expired | bad_authentication
  | permission_denied | bad_client_file | bad_client_file_ident | bad_origin_file_ident
  | bad_server_file_ident | bad_server_version | client_file_blacklisted | diverging_histories
  | server_file_deleted | user_blacklisted | client_file_expired.
#[export] Instance ProtocolError_dec : EqDecision ProtocolError.
Proof. solve_decision. Defined.

(** [sync::Client::Error]: the two that are not reported, and the others. *)
Inductive ClientError := client_connection_closed | pong_timeout | other_client_error (n : nat).
#[export] Instance ClientError_dec : EqDecision ClientError.
Proof. solve_decision. Defined.

(** [std::error_code], by its category. *)
Inductive error_code :=
  | protocol (e : ProtocolError)
  | client (e : ClientError)
  | operation_aborted
  | no_error
  | other_code (n : nat).
#[export] Instance error_code_dec : EqDecision error_code.
Proof. solve_decision. Defined.

(** [SyncFileActionMetadata::Action] *)
Inductive file_action := DeleteRealm | BackUpThenDeleteRealm.

(** [SyncError]; [user_info] holds the original path and, where there is one, the
    recovery path. *)
Record sync_error := SyncError {
  code : error_code; is_fatal : bool;
  original_file_path : option string; recovery_file_path : option string;
  is_unrecognized_by_client : bool
}.

(** The parts of [SyncConfig] that the session acts on. *)
Record sync_config := SyncConfig {
  cfg_user : nat; cfg_url : string; cfg_partial : bool;
  policy : stop_policy; client_resync_mode : resync_mode;
  cancel_waits_on_nonfatal_error : bool; has_error_handler : bool
}.

(** What a session does to its surroundings, in order. *)
Inductive event :=
  (* the underlying session *)
  | ev_make_session (id : nat) (client_reset : option bool)
  | ev_bind (id : nat) (url token : string)
  | ev_refresh (id : nat) (token : string)
  | ev_cancel_reconnect_delay (id : nat)
  | ev_override_server (id : nat) (address : string) (port : Z)
  | ev_nonsync_transact_notify (id : nat) (version : Z)
  | ev_wait_for_completion (id : nat) (d : direction) (resync_counter : Z)
  | ev_wait_before_death (id : nat) (death_count : Z)
  | ev_destroy_session (id : nat)
  (* the binding and the client of the session *)
  | ev_bind_session_handler
  | ev_connection_change (old new : connection)
  | ev_completion (callback : nat) (e : error_code)
  | ev_error (e : sync_error)
  (* the manager and the user *)
  | ev_unregister
  | ev_file_action (path : string) (a : file_action) (recovery : option string)
  | ev_invalidate_user (user : nat).

(** [SyncSession], with the events it has caused so far. *)
Record session := Session {
  m_state : state;
  m_connection_state : connection;
  m_death_count : Z;
  m_config : sync_config;
  m_force_client_resync : bool;
  m_realm_path : string;
  m_download_completion_callbacks : list nat;
  m_upload_completion_callbacks : list nat;
  m_client_resync_counter : Z;
  m_server_override : option (string * Z);
  m_session : option nat;
  m_session_has_been_bound : bool;
  m_deferred_commit_notification : option Z;
  m_deferred_close : bool;
  m_server_url : option string;
  m_next_session : nat;
  m_external_reference : bool;
  trace : list event
}.

Module Session.
Implicit Types (s : session).

(** ** Assignments *)

Definition set_state s x : session := Session x (m_connection_state s) (m_death_count s) (m_config s) (m_force_client_resync s) (m_realm_path s) (m_download_completion_callbacks s) (m_upload_completion_callbacks s) (m_client_resync_counter s) (m_server_override s) (m_session s) (m_session_has_been_bound s) (m_deferred_commit_notification s) (m_deferred_close s) (m_server_url s) (m_next_session s) (m_external_reference s) (trace s).
Definition set_connection s x : session := Session (m_state s) x (m_death_count s) (m_config s) (m_force_client_resync s) (m_realm_path s) (m_download_completion_callbacks s) (m_upload_completion_callbacks s) (m_client_resync_counter s) (m_server_override s) (m_session s) (m_session_has_been_bound s) (m_deferred_commit_notification s) (m_deferred_close s) (m_server_url s) (m_next_session s) (m_external_reference s) (trace s).
Definition set_death_count s x : session := Session (m_state s) (m_connection_state s) x (m_config s) (m_force_client_resync s) (m_realm_path s) (m_download_completion_callbacks s) (m_upload_completion_callbacks s) (m_client_resync_counter s) (m_server_override s) (m_session s) (m_session_has_been_bound s) (m_deferred_commit_notification s) (m_deferred_close s) (m_server_url s) (m_next_session s) (m_external_reference s) (trace s).
Definition set_config s x : session := Session (m_state s) (m_connection_state s) (m_death_count s) x (m_force_client_resync s) (m_realm_path s) (m_download_completion_callbacks s) (m_upload_completion_callbacks s) (m_client_resync_counter s) (m_server_override s) (m_session s) (m_session_has_been_bound s) (m_deferred_commit_notification s) (m_deferred_close s) (m_server_url s) (m_next_session s) (m_external_reference s) (trace s).
Definition set_waits s down up : session := Session (m_state s) (m_connection_state s) (m_death_count s) (m_config s) (m_force_client_resync s) (m_realm_path s) down up (m_client_resync_counter s) (m_server_override s) (m_session s) (m_session_has_been_bound s) (m_deferred_commit_notification s) (m_deferred_close s) (m_server_url s) (m_next_session s) (m_external_reference s) (trace s).
Definition set_resync s force counter : session := Session (m_state s) (m_connection_state s) (m_death_count s) (m_config s) force (m_realm_path s) (m_download_completion_callbacks s) (m_upload_completion_callbacks s) counter (m_server_override s) (m_session s) (m_session_has_been_bound s) (m_deferred_commit_notification s) (m_deferred_close s) (m_server_url s) (m_next_session s) (m_external_reference s) (trace s).
Definition set_override s x : session := Session (m_state s) (m_connection_state s) (m_death_count s) (m_config s) (m_force_client_resync s) (m_realm_path s) (m_download_completion_callbacks s) (m_upload_completion_callbacks s) (m_client_resync_counter s) x (m_session s) (m_session_has_been_bound s) (m_deferred_commit_notification s) (m_deferred_close s) (m_server_url s) (m_next_session s) (m_external_reference s) (trace s).
Definition set_session s x bound next : session := Session (m_state s) (m_connection_state s) (m_death_count s) (m_config s) (m_force_client_resync s) (m_realm_path s) (m_download_completion_callbacks s) (m_upload_completion_callbacks s) (m_client_resync_counter s) (m_server_override s) x bound (m_deferred_commit_notification s) (m_deferred_close s) (m_server_url s) next (m_external_reference s) (trace s).
Definition set_deferred_commit s x : session := Session (m_state s) (m_connection_state s) (m_death_count s) (m_config s) (m_force_client_resync s) (m_realm_path s) (m_download_completion_callbacks s) (m_upload_completion_callbacks s) (m_client_resync_counter s) (m_server_override s) (m_session s) (m_session_has_been_bound s) x (m_deferred_close s) (m_server_url s) (m_next_session s) (m_external_reference s) (trace s).
Definition set_deferred_close s x : session := Session (m_state s) (m_connection_state s) (m_death_count s) (m_config s) (m_force_client_resync s) (m_realm_path s) (m_download_completion_callbacks s) (m_upload_completion_callbacks s) (m_client_resync_counter s) (m_server_override s) (m_session s) (m_session_has_been_bound s) (m_deferred_commit_notification s) x (m_server_url s) (m_next_session s) (m_external_reference s) (trace s).
Definition set_server_url s x : session := Session (m_state s) (m_connection_state s) (m_death_count s) (m_config s) (m_force_client_resync s) (m_realm_path s) (m_download_completion_callbacks s) (m_upload_completion_callbacks s) (m_client_resync_counter s) (m_server_override s) (m_session s) (m_session_has_been_bound s) (m_deferred_commit_notification s) (m_deferred_close s) x (m_next_session s) (m_external_reference s) (trace s).
Definition set_external s x : session := Session (m_state s) (m_connection_state s) (m_death_count s) (m_config s) (m_force_client_resync s) (m_realm_path s) (m_download_completion_callbacks s) (m_upload_completion_callbacks s) (m_client_resync_counter s) (m_server_override s) (m_session s) (m_session_has_been_bound s) (m_deferred_commit_notification s) (m_deferred_close s) (m_server_url s) (m_next_session s) x (trace s).
Definition emit s (es : list event) : session := Session (m_state s) (m_connection_state s) (m_death_count s) (m_config s) (m_force_client_resync s) (m_realm_path s) (m_download_completion_callbacks s) (m_upload_completion_callbacks s) (m_client_resync_counter s) (m_server_override s) (m_session s) (m_session_has_been_bound s) (m_deferred_commit_notification s) (m_deferred_close s) (m_server_url s) (m_next_session s) (m_external_reference s) (trace s ++ es).

(** The constructor. *)
Definition create (path : string) (config : sync_config) (force_client_resync : bool) : session :=
  Session inactive Disconnected 0 config force_client_resync path [] [] 0 None None false None false None 0 false [].

(** ** The underlying session *)

(** [m_session->f()] *)
Definition with_inner s (f : nat → event) : option session := id ← m_session s; Some (emit s [f id]).

Definition pending s (d : direction) : list nat :=
  match d with upload => m_upload_completion_callbacks s | download => m_download_completion_callbacks s end.

Definition add_completion_callback s (d : direction) : option session :=
  with_inner s (λ id, ev_wait_for_completion id d (m_client_resync_counter s)).

Definition create_sync_session s : session :=
  match m_session s with
  | Some _ => s
  | None =>
      let id := m_next_session s in
      let reset := if m_force_client_resync s
                   then Some (match client_resync_mode (m_config s) with Recover => true | _ => false end)
                   else None in
      emit (set_session s (Some id) false (Datatypes.S id)) [ev_make_session id reset]
  end.

(** ** Entering a state *)

Definition unregister s : option session :=
  REALM_ASSERT (bool_decide (m_state s = inactive)) ;;
  Some (emit s [ev_unregister]).

(** [m_session = nullptr] *)
Definition destroy_session s : session :=
  match m_session s with
  | Some id => emit (set_session s None (m_session_has_been_bound s) (m_next_session s)) [ev_destroy_session id]
  | None => s
  end.

Definition enter_inactive s : option session :=
  let old_state := m_connection_state s in
  let s := set_connection s Disconnected in
  let download_waits := m_download_completion_callbacks s in
  let upload_waits := m_upload_completion_callbacks s in
  let s := destroy_session (set_waits s [] []) in
  s ← unregister s;
  let s := if bool_decide (old_state = Disconnected) then s
           else emit s [ev_connection_change old_state (m_connection_state s)] in
  let s := emit s ((λ cb, ev_completion cb operation_aborted) <$> download_waits) in
  Some (emit s ((λ cb, ev_completion cb operation_aborted) <$> upload_waits)).

Definition enter_waiting s : option session := Some (set_deferred_close s false).

Definition enter_active s : option session :=
  s ← (if bool_decide (m_upload_completion_callbacks s = []) then Some s else add_completion_callback s upload);
  if bool_decide (m_download_completion_callbacks s = []) then Some s else add_completion_callback s download.

(** [advance_state] to a state other than [dying]. *)
Definition advance_to s (st : state) (enter : session → option session) : option session :=
  REALM_ASSERT (negb (bool_decide (st = m_state s))) ;;
  enter (set_state s st).

Definition enter_dying s : option session :=
  match m_session s with
  | None => advance_to s inactive enter_inactive
  | Some id =>
      let s := set_death_count s (m_death_count s + 1) in
      Some (emit s [ev_wait_before_death id (m_death_count s)])
  end.

(** [State::enter_state] *)
Definition enter_state (st : state) : session → option session :=
  match st with
  | waiting_for_access_token => enter_waiting
  | active => enter_active
  | dying => enter_dying
  | inactive => enter_inactive
  end.

Definition advance_state s (st : state) : option session := advance_to s st (enter_state st).

(** ** The handlers of the states *)

Definition state_close s : option session :=
  match m_state s with
  | waiting_for_access_token =>
      match policy (m_config s) with
      | Immediately => advance_state s inactive
      | LiveIndefinitely | AfterChangesUploaded => Some (set_deferred_close s true)
      end
  | active =>
      match policy (m_config s) with
      | Immediately => advance_state s inactive
      | LiveIndefinitely => Some s
      | AfterChangesUploaded => advance_state s dying
      end
  | dying => Some s
  | inactive => unregister s
  end.

Definition state_refresh_access_token s (token : string) (server_url : option string) : option session :=
  match m_state s with
  | waiting_for_access_token =>
      let s := create_sync_session s in
      let s := match m_server_url s with None => set_server_url s server_url | Some _ => s end in
      s ← (if m_session_has_been_bound s then
             s ← with_inner s (λ id, ev_refresh id token);
             with_inner s ev_cancel_reconnect_delay
           else
             url ← m_server_url s;
             s ← with_inner s (λ id, ev_bind id url token);
             Some (set_session s (m_session s) true (m_next_session s)));
      s ← match m_server_override s with
          | Some (address, port) => with_inner s (λ id, ev_override_server id address port)
          | None => Some s
          end;
      s ← match m_deferred_commit_notification s with
          | Some v => s ← with_inner s (λ id, ev_nonsync_transact_notify id v); Some (set_deferred_commit s None)
          | None => Some s
          end;
      s ← advance_state s active;
      if m_deferred_close s then state_close s else Some s
  | active =>
      s ← with_inner s (λ id, ev_refresh id token);
      with_inner s ev_cancel_reconnect_delay
  | dying | inactive => Some s
  end.

Definition state_access_token_expired s : option session :=
  match m_state s with
  | active =>
      s ← advance_state s waiting_for_access_token;
      Some (emit s [ev_bind_session_handler])
  | _ => Some s
  end.

Definition state_log_out s : option session :=
  match m_state s with
  | waiting_for_access_token | active | dying => advance_state s inactive
  | inactive => Some s
  end.

(** The session and whether the binding is to be asked for a token. *)
Definition state_revive_if_needed s : option (session * bool) :=
  match m_state s with
  | waiting_for_access_token => Some (set_deferred_close s false, false)
  | active => Some (s, false)
  | dying => s ← advance_state s active; Some (s, false)
  | inactive => s ← advance_state s waiting_for_access_token; Some (s, true)
  end.

Definition state_handle_reconnect s : option session :=
  match m_state s with
  | waiting_for_access_token => Some (emit s [ev_bind_session_handler])
  | active => with_inner s ev_cancel_reconnect_delay
  | dying | inactive => Some s
  end.

Definition state_nonsync_transact_notify s (version : Z) : option session :=
  match m_state s with
  | waiting_for_access_token => Some (set_deferred_commit s (Some version))
  | active => with_inner s (λ id, ev_nonsync_transact_notify id version)
  | dying | inactive => Some s
  end.

Definition state_override_server s (address : string) (port : Z) : option session :=
  let s := set_override s (Some (address, port)) in
  match m_state s with
  | active | dying => with_inner s (λ id, ev_override_server id address port)
  | waiting_for_access_token | inactive => Some s
  end.

Definition state_wait_for_completion s (d : direction) : option session :=
  match m_state s with
  | active | dying => add_completion_callback s d
  | waiting_for_access_token | inactive => Some s
  end.

(** The session and whether the error has been handled. *)
Definition state_handle_error s (e : sync_error) : option (session * bool) :=
  match m_state s with
  | dying =>
      s ← (if is_fatal e then advance_state s inactive else Some s);
      Some (s, true)
  | _ => Some (s, false)
  end.

(** ** The member functions *)

Definition close s : option session := state_close s.
Definition log_out s : option session := state_log_out s.
Definition handle_reconnect s : option session := state_handle_reconnect s.
Definition nonsync_transact_notify s (version : Z) : option session := state_nonsync_transact_notify s version.
Definition override_server s (address : string) (port : Z) : option session := state_override_server s address port.

Definition refresh_access_token s (token : string) (server_url : option string) : option session :=
  match m_server_url s, server_url with
  | None, None => Some s
  | _, _ => state_refresh_access_token s token server_url
  end.

Definition revive_if_needed s : option session :=
  '(s, ask) ← state_revive_if_needed s;
  Some (if ask : bool then emit s [ev_bind_session_handler] else s).

Definition wait_for_completion s (d : direction) (callback : nat) : option session :=
  s ← (if bool_decide (pending s d = []) then state_wait_for_completion s d else Some s);
  Some (match d with
        | upload => set_waits s (m_download_completion_callbacks s) (m_upload_completion_callbacks s ++ [callback])
        | download => set_waits s (m_download_completion_callbacks s ++ [callback]) (m_upload_completion_callbacks s)
        end).

Definition cancel_pending_waits s (e : error_code) : session :=
  let down := m_download_completion_callbacks s in
  let up := m_upload_completion_callbacks s in
  emit (set_waits s [] []) (((λ cb, ev_completion cb e) <$> down) ++ ((λ cb, ev_completion cb e) <$> up)).

(** [update_configuration]: the loop makes a session inactive that is not. *)
Definition update_configuration s (c : sync_config) : option session :=
  s ← (if bool_decide (m_state s = inactive) then Some s else advance_state s inactive);
  REALM_ASSERT (bool_decide (m_state s = inactive)) ;;
  REALM_ASSERT (bool_decide (m_session s = None)) ;;
  REALM_ASSERT (bool_decide (cfg_user (m_config s) = cfg_user c)) ;;
  REALM_ASSERT (String.eqb (cfg_url (m_config s)) (cfg_url c)) ;;
  REALM_ASSERT (bool_decide (cfg_partial (m_config s) = cfg_partial c)) ;;
  revive_if_needed (set_config s c).

Definition get_public_state s : PublicState :=
  match m_state s with
  | waiting_for_access_token => WaitingForAccessToken
  | active => Active
  | dying => Dying
  | inactive => Inactive
  end.

(** [external_reference]; [m_external_reference] says whether one is alive. *)
Definition external_reference s : session := set_external s true.

Definition did_drop_external_reference s : option session :=
  if m_external_reference s then Some s else state_close s.

(** ** Callbacks of the underlying session *)

(** The upload has completed for which [enter_dying] waited. *)
Definition on_death_upload s (death_count : Z) : option session :=
  if bool_decide (m_state s = dying) && (m_death_count s =? death_count)
  then advance_state s inactive else Some s.

(** A wait that [add_completion_callback] registered is over. *)
Definition on_completion s (d : direction) (resync_counter : Z) (e : error_code) : session :=
  if negb (resync_counter =? m_client_resync_counter s) then s else
  let cbs := pending s d in
  let s := match d with
           | upload => set_waits s (m_download_completion_callbacks s) []
           | download => set_waits s [] (m_upload_completion_callbacks s)
           end in
  emit s ((λ cb, ev_completion cb e) <$> cbs).

(** ** Errors *)

(** [SyncError::is_client_reset_requested] *)
Definition is_client_reset_requested (e : sync_error) : bool :=
  match code e with
  | protocol bad_server_file_ident | protocol bad_client_file_ident | protocol bad_server_version
  | protocol diverging_histories | protocol client_file_expired => true
  | _ => false
  end.

(** [update_error_and_mark_file_for_deletion]; the recovery path is made up by the
    file manager. *)
Definition mark_file_for_deletion s (recovery_path : string) (e : sync_error) (should_backup : bool) : session * sync_error :=
  let recovery := if should_backup then Some recovery_path else None in
  (emit s [ev_file_action (m_realm_path s) (if should_backup then BackUpThenDeleteRealm else DeleteRealm) recovery],
   SyncError (code e) (is_fatal e) (Some (m_realm_path s))
     (if should_backup then recovery else recovery_file_path e) (is_unrecognized_by_client e)).

(** [NextStateAfterError] *)
Inductive next_state := next_none | next_inactive | next_error.

(** What the error code asks for: to return at once, or what comes next. *)
Inductive verdict :=
  | Ignore
  | Expired
  | Authentication
  | Delete (should_backup : bool)
  | Report.

Definition protocol_verdict (e : ProtocolError) : verdict :=
  match e with
  | connection_closed | other_error => Ignore
  | session_closed | other_session_error | disabled_session => Ignore
  | token_expired => Expired
  | bad_authentication => Authentication
  | permission_denied => Delete false
  | bad_client_file | bad_client_file_ident | bad_origin_file_ident | bad_server_file_ident
  | bad_server_version | client_file_blacklisted | diverging_histories | server_file_deleted
  | user_blacklisted | client_file_expired => Delete true
  | _ => Report
  end.

Definition code_verdict (c : error_code) : verdict :=
  match c with
  | protocol e => protocol_verdict e
  | client client_connection_closed | client pong_timeout => Ignore
  | _ => Report
  end.

Definition unrecognized (c : error_code) : bool :=
  match c with protocol _ | client _ => false | _ => true end.

(** The client resync: the waits survive the end of the session. *)
Definition client_resync s : option session :=
  let s := set_resync s true (m_client_resync_counter s + 1) in
  let down := m_download_completion_callbacks s in
  let up := m_upload_completion_callbacks s in
  s ← advance_state (set_waits s [] []) inactive;
  revive_if_needed (set_waits s down up).

(** The end of [handle_error]. *)
Definition finish_error s (e : sync_error) (next : next_state) : option session :=
  s ← match next with
      | next_none => Some (if cancel_waits_on_nonfatal_error (m_config s) then cancel_pending_waits s (code e) else s)
      | next_inactive => advance_state s inactive
      | next_error => Some (cancel_pending_waits s (code e))
      end;
  Some (if has_error_handler (m_config s) then emit s [ev_error e] else s).

Definition handle_error s (recovery_path : string) (e : sync_error) : option session :=
  '(s, handled) ← state_handle_error s e;
  if handled : bool then Some s else
  if is_client_reset_requested e && match client_resync_mode (m_config s) with Manual => false | _ => true end
  then client_resync s else
  let next := if is_fatal e then next_error else next_none in
  match code_verdict (code e) with
  | Ignore => Some s
  | Expired => state_access_token_expired s
  | Authentication =>
      let s := cancel_pending_waits s (code e) in
      finish_error (emit s [ev_invalidate_user (cfg_user (m_config s))]) e next_none
  | Delete should_backup =>
      let '(s, e) := mark_file_for_deletion s recovery_path e should_backup in
      finish_error s e next_inactive
  | Report =>
      let e := if unrecognized (code e)
               then SyncError (code e) (is_fatal e) (original_file_path e) (recovery_file_path e) true else e in
      finish_error s e next
  end.

(** The listener for the state of the connection, with the error it may bring. *)
Definition on_connection_change s (recovery_path : string) (c : connection) (e : option sync_error) : option session :=
  let old := m_connection_state s in
  let s := emit (set_connection s c) [ev_connection_change old c] in
  match e with Some e => handle_error s recovery_path e | None => Some s end.

(** ** Everything that can happen to a session *)

Inductive input :=
  | in_close | in_log_out | in_reconnect | in_revive
  | in_notify (version : Z)
  | in_override (address : string) (port : Z)
  | in_token (token : string) (server_url : option string)
  | in_wait (d : direction) (callback : nat)
  | in_configure (c : sync_config)
  | in_reference | in_release_reference | in_did_drop_reference
  | in_death_upload (death_count : Z)
  | in_completion (d : direction) (resync_counter : Z) (e : error_code)
  | in_connection (recovery_path : string) (c : connection) (e : option sync_error).

Definition step s (i : input) : option session :=
  match i with
  | in_close => close s
  | in_log_out => log_out s
  | in_reconnect => handle_reconnect s
  | in_revive => revive_if_needed s
  | in_notify version => nonsync_transact_notify s version
  | in_override address port => override_server s address port
  | in_token token url => refresh_access_token s token url
  | in_wait d cb => wait_for_completion s d cb
  | in_configure c => update_configuration s c
  | in_reference => Some (external_reference s)
  | in_release_reference => Some (set_external s false)
  | in_did_drop_reference => did_drop_external_reference s
  | in_death_upload n => on_death_upload s n
  | in_completion d n e => Some (on_completion s d n e)
  | in_connection path c e => on_connection_change s path c e
  end.
End Session.
