(* ===== verification/SyncSessionSpec.v ===== *)
(** * Sync sessions: the invariant *)

From Stdlib Require Import String.
From S2P Require Import Prelude SyncSession.
Import SyncSession.Session.

Implicit Types (s : session).

(** The callbacks that a trace has called. *)
Definition completed (es : list event) : list nat :=
  omap (λ e, match e with ev_completion cb _ => Some cb | _ => None end) es.

(** All callbacks that wait. *)
Definition waiting s : list nat := m_download_completion_callbacks s ++ m_upload_completion_callbacks s.

(** The wait for [d] is registered with the underlying session. *)
Definition registered s (d : direction) : Prop :=
  ∃ id, m_session s = Some id ∧ ev_wait_for_completion id d (m_client_resync_counter s) ∈ trace s.

Definition live (st : state) : bool := match st with active | dying => true | _ => false end.

(** What holds of a session between any two calls. *)
Record inv s : Prop := {
  inv_inactive : m_state s = inactive → m_session s = None ∧ m_connection_state s = Disconnected;
  inv_live : live (m_state s) = true → is_Some (m_session s);
  inv_session : is_Some (m_session s) → m_session_has_been_bound s = true ∧ is_Some (m_server_url s);
  inv_waits : live (m_state s) = true → ∀ d, pending s d ≠ [] → registered s d
}.

Lemma completed_app es fs : completed (es ++ fs) = completed es ++ completed fs.
Proof. unfold completed. apply omap_app. Qed.

Lemma completed_map e cbs : completed ((λ cb, ev_completion cb e) <$> cbs) = cbs.
Proof. induction cbs as [|cb cbs IH]; [done|]. simpl. by f_equal. Qed.

(** What a call that does not reach the waits keeps. *)
Definition keeps_waits s s' : Prop :=
  waiting s' = waiting s ∧ completed (trace s') = completed (trace s).

(** The waits of [s] and the callbacks [new] are each still waiting, or were called
    exactly once. *)
Definition conserves s s' (new : list nat) : Prop :=
  completed (trace s') ++ waiting s' ≡ₚ completed (trace s) ++ waiting s ++ new.

Lemma keeps_conserves s s' : keeps_waits s s' → conserves s s' [].
Proof. intros [E1 E2]. unfold conserves. by rewrite E1, E2, app_nil_r. Qed.

Lemma conserves_trans s1 s2 s3 : conserves s1 s2 [] → conserves s2 s3 [] → conserves s1 s3 [].
Proof. unfold conserves. rewrite !app_nil_r. by intros -> ->. Qed.

(** ** Becoming inactive *)

Lemma advance_inactive s :
  m_state s ≠ inactive →
  ∃ s', advance_state s inactive = Some s' ∧ inv s' ∧ m_state s' = inactive ∧ waiting s' = [] ∧
    completed (trace s') = completed (trace s) ++ waiting s ∧ trace s `prefix_of` trace s' ∧
    m_config s' = m_config s ∧ m_client_resync_counter s' = m_client_resync_counter s.
Proof.
  intros Hne. unfold advance_state, advance_to. rewrite bool_decide_eq_false_2 by congruence. simpl.
  assert (∀ t, m_session t = None → m_state t = inactive → m_connection_state t = Disconnected → inv t) as Hinv.
  { intros t E1 E2 E3. constructor; rewrite ?E1, ?E2; try done; by intros []. }
  destruct s as [st conn dc cfg fr path down up rc ov [id|] bd dn cl url nx ex tr]; simpl in *;
    unfold enter_inactive, destroy_session, unregister; simpl; destruct (bool_decide (conn = Disconnected)) eqn:Ec; simpl;
    (eexists; split; [done|]); (split; [by apply Hinv|]); unfold waiting; simpl;
    rewrite !completed_app, !completed_map; simpl; rewrite ?app_nil_r, <- !app_assoc; split_and!; try done;
    repeat first [reflexivity | apply prefix_app_r].
Qed.

(** ** Becoming active *)

Lemma enter_active_spec s :
  m_state s = active → is_Some (m_session s) → m_session_has_been_bound s = true → is_Some (m_server_url s) →
  ∃ s', enter_active s = Some s' ∧ inv s' ∧ keeps_waits s s' ∧ m_state s' = active ∧
    m_config s' = m_config s ∧ m_deferred_close s' = m_deferred_close s ∧ trace s `prefix_of` trace s'.
Proof.
  intros Hst [id Hs] Hb Hu.
  destruct s as [st conn dc cfg fr path down up rc ov ss bd dn cl url nx ex tr]; simpl in *; subst.
  unfold enter_active, add_completion_callback, with_inner. simpl.
  destruct (bool_decide_reflect (up = [])) as [->|Hup]; simpl;
    (destruct (bool_decide_reflect (down = [])) as [->|Hdown]; simpl); (eexists; split; [done|]);
    (split; [constructor; simpl; [done|by eexists|done|]|
             split; [unfold keeps_waits, waiting; simpl; rewrite ?completed_app; simpl; by rewrite ?app_nil_r|]]).
  all: try (split_and!; try done; repeat first [reflexivity | apply prefix_app_r]; done).
  all: intros _ []; simpl; intros Hne; try done; exists id; (split; [done|]); simpl; rewrite ?elem_of_app, ?list_elem_of_singleton; tauto.
Qed.

(** ** Steps that keep the invariant and the waits *)

(** The call succeeds, keeps the invariant and loses no callback. *)
Definition sound s (r : option session) (new : list nat) : Prop :=
  ∃ s', r = Some s' ∧ inv s' ∧ conserves s s' new.

Lemma sound_bind s r (k : session → option session) :
  sound s r [] → (∀ s', inv s' → sound s' (k s') []) → sound s (r ≫= k) [].
Proof.
  intros (s1 & -> & Hi & Hc) Hk. destruct (Hk s1 Hi) as (s2 & E & Hi2 & Hc2). simpl. exists s2.
  split; [done|]. split; [done|]. by apply (conserves_trans s s1 s2).
Qed.

Lemma sound_refl s : inv s → sound s (Some s) [].
Proof. intros Hi. exists s. split; [done|]. split; [done|]. by apply keeps_conserves. Qed.

(** Changes outside of the states, the waits, the underlying session and the trace. *)
Lemma inv_frame s s' :
  inv s → m_state s' = m_state s → m_session s' = m_session s → m_connection_state s' = m_connection_state s →
  m_session_has_been_bound s' = m_session_has_been_bound s → (is_Some (m_server_url s) → is_Some (m_server_url s')) →
  m_client_resync_counter s' = m_client_resync_counter s → (∀ d, pending s' d = pending s d) →
  trace s `prefix_of` trace s' → inv s'.
Proof.
  intros [I1 I2 I3 I4] E1 E2 E3 E4 E5 E6 E7 [es E8]. constructor; rewrite ?E1, ?E2, ?E3, ?E4; try done.
  - intros Hs. destruct (I3 Hs) as [? ?]. auto.
  - intros Hl d Hd. rewrite E7 in Hd. destruct (I4 Hl d Hd) as (id & Es & Hin). exists id. rewrite E2, E6, E8.
    split; [done|]. apply elem_of_app. by left.
Qed.

Lemma inv_emit s es : inv s → inv (emit s es).
Proof. intros Hi. apply (inv_frame s); try done. simpl. by exists es. Qed.

Lemma emit_sound s es : inv s → completed es = [] → sound s (Some (emit s es)) [].
Proof.
  intros Hi He. eexists. split; [done|]. split; [by apply inv_emit|]. apply keeps_conserves.
  split; [done|]. simpl. by rewrite completed_app, He, app_nil_r.
Qed.

Lemma with_inner_sound s f :
  inv s → is_Some (m_session s) → (∀ id, completed [f id] = []) → sound s (with_inner s f) [].
Proof. intros Hi [id Es] Hf. unfold with_inner. rewrite Es. simpl. by apply emit_sound. Qed.

Lemma advance_inactive_sound s : m_state s ≠ inactive → sound s (advance_state s inactive) [].
Proof.
  intros Hne. destruct (advance_inactive s Hne) as (s' & -> & Hi & _ & Hw & Hc & _). exists s'.
  split; [done|]. split; [done|]. unfold conserves. by rewrite Hw, Hc, !app_nil_r.
Qed.

Lemma frame_sound s s' :
  inv s → inv s' → waiting s' = waiting s → trace s' = trace s → sound s (Some s') [].
Proof.
  intros Hi Hi' Hw Ht. exists s'. split; [done|]. split; [done|]. apply keeps_conserves. split; [done|]. by rewrite Ht.
Qed.

(** Closing a live session that uploads its changes first. *)
Lemma advance_dying_sound s : inv s → m_state s = active → sound s (advance_state s dying) [].
Proof.
  intros Hi Est. destruct (inv_live s Hi) as [id Es]; [by rewrite Est|].
  unfold advance_state, advance_to. rewrite bool_decide_eq_false_2 by (rewrite Est; done). simpl.
  unfold enter_dying. simpl. rewrite Es. simpl. eexists. split; [done|]. split.
  - apply inv_emit. destruct Hi as [I1 I2 I3 I4]. rewrite Est in *. by constructor.
  - apply keeps_conserves. split; [done|]. simpl. by rewrite completed_app, app_nil_r.
Qed.

Lemma close_sound s : inv s → sound s (state_close s) [].
Proof.
  intros Hi. unfold state_close. destruct (m_state s) eqn:Est.
  - destruct (policy (m_config s)); [by apply advance_inactive_sound; rewrite Est| |];
      (apply frame_sound; [done|by apply (inv_frame s)|done|done]).
  - destruct (policy (m_config s)); [by apply advance_inactive_sound; rewrite Est|by apply sound_refl|].
    by apply advance_dying_sound.
  - by apply sound_refl.
  - unfold unregister. rewrite bool_decide_eq_true_2 by done. simpl. by apply emit_sound.
Qed.

Lemma log_out_sound s : inv s → sound s (state_log_out s) [].
Proof.
  intros Hi. unfold state_log_out. destruct (m_state s) eqn:Est; try (by apply advance_inactive_sound; rewrite Est).
  by apply sound_refl.
Qed.

(** A session that enters [active] with a bound underlying session. *)
Lemma advance_active_sound s :
  m_state s ≠ active → is_Some (m_session s) → m_session_has_been_bound s = true → is_Some (m_server_url s) →
  ∃ s', advance_state s active = Some s' ∧ inv s' ∧ keeps_waits s s' ∧ m_state s' = active ∧
    m_deferred_close s' = m_deferred_close s ∧ m_config s' = m_config s.
Proof.
  intros Hne Hs Hb Hu. unfold advance_state, advance_to. rewrite bool_decide_eq_false_2 by congruence. simpl.
  destruct (enter_active_spec (set_state s active)) as (s' & -> & Hi & Hk & Hst & Hcf & Hd & _); try done.
  by exists s'.
Qed.

Lemma revive_sound s : inv s → sound s (revive_if_needed s) [].
Proof.
  intros Hi. unfold revive_if_needed, state_revive_if_needed. destruct (m_state s) eqn:Est; simpl.
  - apply frame_sound; [done|by apply (inv_frame s)|done|done].
  - by apply sound_refl.
  - assert (is_Some (m_session s)) as Hs by (by apply inv_live; [|rewrite Est]).
    destruct (inv_session s Hi Hs). destruct (advance_active_sound s) as (s' & -> & Hi' & Hk & _); [by rewrite Est|done..|].
    simpl. exists s'. split; [done|]. split; [done|]. by apply keeps_conserves.
  - unfold advance_state, advance_to. rewrite bool_decide_eq_false_2 by (rewrite Est; done). simpl.
    destruct (inv_inactive s Hi Est) as [Es _]. eexists. split; [done|]. split.
    + constructor; simpl; try done; rewrite Es; by intros [].
    + apply keeps_conserves. split; [done|]. simpl. by rewrite completed_app, app_nil_r.
Qed.

(** A part of a token refresh changes the underlying session at most. *)
Definition same_frame s s' : Prop :=
  keeps_waits s s' ∧ m_state s' = m_state s ∧ m_deferred_close s' = m_deferred_close s ∧ m_config s' = m_config s.

Lemma same_frame_trans s1 s2 s3 : same_frame s1 s2 → same_frame s2 s3 → same_frame s1 s3.
Proof. unfold same_frame, keeps_waits. intuition congruence. Qed.

(** The middle part of a token refresh: the underlying session exists and is
    bound. *)
Lemma bind_part_sound s (token : string) :
  is_Some (m_session s) → is_Some (m_server_url s) →
  ∃ s', (if m_session_has_been_bound s then
           s ← with_inner s (λ id, ev_refresh id token); with_inner s ev_cancel_reconnect_delay
         else
           url ← m_server_url s; s ← with_inner s (λ id, ev_bind id url token);
           Some (set_session s (m_session s) true (m_next_session s))) = Some s' ∧
    m_session s' = m_session s ∧ m_session_has_been_bound s' = true ∧ m_server_url s' = m_server_url s ∧
    same_frame s s'.
Proof.
  intros [id Es] [url Eu]. unfold same_frame. unfold with_inner. destruct (m_session_has_been_bound s) eqn:Eb.
  - rewrite Es. simpl. rewrite Es. simpl. eexists. split; [done|]. simpl. unfold keeps_waits. simpl.
    rewrite !completed_app. simpl. by rewrite !app_nil_r.
  - rewrite Eu. simpl. rewrite Es. simpl. eexists. split; [done|]. simpl. unfold keeps_waits. simpl.
    rewrite !completed_app. simpl. by rewrite !app_nil_r.
Qed.

(** One call into the underlying session, if [f] gives one. *)
Lemma optional_call {A} s (x : option A) (f : A → nat → event) (k : session → session) :
  is_Some (m_session s) → m_session_has_been_bound s = true → (∀ a id, completed [f a id] = []) →
  (∀ t, same_frame t (k t) ∧ m_session (k t) = m_session t ∧ m_session_has_been_bound (k t) = m_session_has_been_bound t ∧
        m_server_url (k t) = m_server_url t) →
  ∃ s', match x with Some a => t ← with_inner s (f a); Some (k t) | None => Some s end = Some s' ∧
    m_session s' = m_session s ∧ m_session_has_been_bound s' = true ∧ m_server_url s' = m_server_url s ∧ same_frame s s'.
Proof.
  intros [id Es] Hb Hf Hk. destruct x as [a|]; [|exists s; by split_and!].
  unfold with_inner. rewrite Es. simpl. destruct (Hk (emit s [f a id])) as (Hfr & K1 & K2 & K3).
  eexists. split; [done|]. rewrite K1, K2, K3. split_and!; try done.
  apply (same_frame_trans s (emit s [f a id])); [|done].
  split_and!; try done. split; [done|]. simpl. by rewrite completed_app, Hf, app_nil_r.
Qed.

(** A token refresh makes a waiting session active, and then closes it if that
    was deferred. *)
Lemma refresh_to_active s token url :
  inv s → m_state s = waiting_for_access_token → is_Some (m_server_url s) ∨ is_Some url →
  ∃ s', state_refresh_access_token s token url = (if m_deferred_close s then state_close s' else Some s') ∧
    inv s' ∧ conserves s s' [] ∧ m_state s' = active ∧ m_config s' = m_config s.
Proof.
  intros Hi Est Hu. unfold state_refresh_access_token. rewrite Est.
  set (s1 := create_sync_session s).
  set (s2 := match m_server_url s1 with None => _ | Some _ => _ end).
  assert (is_Some (m_session s2) ∧ is_Some (m_server_url s2) ∧ same_frame s s2) as (Hs2 & Hu2 & Hf2).
  { unfold s2, s1, create_sync_session, same_frame, keeps_waits, waiting.
    destruct (m_session s) as [id|] eqn:Es; simpl; destruct (m_server_url s) as [u|] eqn:Eu; simpl;
      rewrite ?Es, ?Eu, ?completed_app; simpl; rewrite ?app_nil_r; split_and!; try done; try by eexists.
    all: by destruct Hu as [[]|]. }
  destruct (bind_part_sound s2 token Hs2 Hu2) as (s3 & -> & E3 & Hb3 & Eu3 & Hf3). simpl.
  assert (is_Some (m_session s3)) as Hs3 by (by rewrite E3).
  destruct (optional_call s3 (m_server_override s3) (λ ap id, ev_override_server id ap.1 ap.2) id Hs3 Hb3)
    as (s4 & E & E4 & Hb4 & Eu4 & Hf4); [done|by intros; split_and!|].
  assert (match m_server_override s3 with
          | Some (address, port) => with_inner s3 (λ id, ev_override_server id address port)
          | None => Some s3 end = Some s4) as ->.
  { rewrite <- E. destruct (m_server_override s3) as [[a p]|]; [|done]. simpl. by destruct (with_inner _ _). }
  simpl. clear E. assert (is_Some (m_session s4)) as Hs4 by (by rewrite E4).
  destruct (optional_call s4 (m_deferred_commit_notification s4) (λ v id, ev_nonsync_transact_notify id v)
    (λ t, set_deferred_commit t None) Hs4 Hb4) as (s5 & -> & E5 & Hb5 & Eu5 & Hf5); [done|by intros; split_and!|].
  simpl. assert (same_frame s s5) as (Hk & Ef & Ed & Ec).
  { apply (same_frame_trans s s2); [done|]. apply (same_frame_trans s2 s3); [done|]. by apply (same_frame_trans s3 s4). }
  destruct (advance_active_sound s5) as (s6 & -> & Hi6 & Hk6 & Est6 & Ed6 & Ec6);
    [congruence|by rewrite E5|done|by rewrite Eu5, Eu4, Eu3|]. simpl.
  exists s6. rewrite Ed6, Ed. split; [done|]. split_and!; try done; [|congruence].
  apply keeps_conserves. unfold keeps_waits in *. split; intuition congruence.
Qed.

Lemma refresh_waiting s token url :
  inv s → m_state s = waiting_for_access_token → is_Some (m_server_url s) ∨ is_Some url →
  sound s (state_refresh_access_token s token url) [].
Proof.
  intros Hi Est Hu. destruct (refresh_to_active s token url Hi Est Hu) as (s' & -> & Hi' & Hc & _).
  destruct (m_deferred_close s); [|by exists s'].
  destruct (close_sound s' Hi') as (s7 & -> & Hi7 & Hc7). exists s7. split; [done|]. split; [done|].
  by apply (conserves_trans s s' s7).
Qed.

Lemma refresh_sound s token url : inv s → sound s (refresh_access_token s token url) [].
Proof.
  intros Hi. unfold refresh_access_token.
  assert (is_Some (m_server_url s) ∨ is_Some url → sound s (state_refresh_access_token s token url) []) as H.
  { intros Hu. destruct (m_state s) eqn:Est; [by apply refresh_waiting| | |];
      unfold state_refresh_access_token; rewrite Est; [|by apply sound_refl..].
    destruct (inv_live s Hi) as [id Es]; [by rewrite Est|]. unfold with_inner. rewrite Es. simpl. rewrite Es. simpl.
    eexists. split; [done|]. split; [by do 2 apply inv_emit|]. apply keeps_conserves. split; [done|].
    simpl. by rewrite !completed_app, !app_nil_r. }
  destruct (m_server_url s) eqn:Eu; [apply H; left; by eexists|].
  destruct url; [apply H; right; by eexists|]. by apply sound_refl.
Qed.

Lemma wait_sound s d cb : inv s → sound s (wait_for_completion s d cb) [cb].
Proof.
  intros Hi. unfold wait_for_completion.
  assert (∃ s1, (if bool_decide (pending s d = []) then state_wait_for_completion s d else Some s) = Some s1 ∧ inv s1 ∧
    keeps_waits s s1 ∧ (live (m_state s1) = true → registered s1 d) ∧ ∀ d, pending s1 d = pending s d) as (s1 & -> & Hi1 & Hk & Hr & Hp).
  { destruct (bool_decide_reflect (pending s d = [])) as [E|E]; [|exists s; split_and!; try done; intros Hl; by apply (inv_waits s Hi)].
    unfold state_wait_for_completion. destruct (live (m_state s)) eqn:El.
    - destruct (inv_live s Hi El) as [id Es].
      exists (emit s [ev_wait_for_completion id d (m_client_resync_counter s)]).
      split; [destruct (m_state s); try done; unfold add_completion_callback, with_inner; by rewrite Es|].
      split; [by apply inv_emit|]. split; [by split; [|simpl; rewrite completed_app, app_nil_r]|].
      split; [|by intros []]. intros _. exists id. split; [done|]. simpl. apply elem_of_app. right. by left.
    - exists s. split; [by destruct (m_state s)|]. split_and!; try done. intros Hl. congruence. }
  simpl. eexists. split; [done|]. split.
  - destruct Hi1 as [I1 I2 I3 I4]. constructor; [by destruct d|by destruct d|by destruct d|].
    intros Hl d'. assert (live (m_state s1) = true) as Hl1 by (by destruct d). intros Hd'.
    assert (registered s1 d') as (id & ? & ?); [|exists id; by destruct d].
    destruct (decide (d = d')) as [<-|Hne]; [by apply Hr|]. apply I4; [done|]. by destruct d, d'.
  - destruct Hk as [Hw Hc]. unfold conserves.
    destruct d; simpl; rewrite Hc; f_equiv; unfold waiting in *; simpl.
    + by rewrite app_assoc, Hw.
    + rewrite <- Hw. by rewrite <- !app_assoc, (Permutation_app_comm _ [cb]).
Qed.

Lemma cancel_conserves s e :
  inv s → inv (cancel_pending_waits s e) ∧ conserves s (cancel_pending_waits s e) [] ∧
  m_state (cancel_pending_waits s e) = m_state s ∧ m_config (cancel_pending_waits s e) = m_config s ∧
  waiting (cancel_pending_waits s e) = [].
Proof.
  intros [I1 I2 I3 I4]. split; [|split_and!; try done].
  - constructor; simpl; try done. by intros _ [].
  - unfold conserves, cancel_pending_waits, waiting. simpl. by rewrite completed_app, completed_app, !completed_map, !app_nil_r.
Qed.

Lemma finish_sound s e next :
  inv s → (next = next_inactive → m_state s ≠ inactive) → sound s (finish_error s e next) [].
Proof.
  intros Hi Hne. unfold finish_error. apply sound_bind.
  - destruct (cancel_conserves s (code e) Hi) as (Hi1 & Hc1 & _).
    destruct next; [|by apply advance_inactive_sound, Hne|by eexists].
    destruct (cancel_waits_on_nonfatal_error (m_config s)); [by eexists|by apply sound_refl].
  - intros s' Hi'. destruct (has_error_handler (m_config s')); [by apply emit_sound|by apply sound_refl].
Qed.

(** A client resync keeps the waits and calls none of the callbacks. *)
Lemma client_resync_spec s :
  m_state s ≠ inactive →
  ∃ s', client_resync s = Some s' ∧ inv s' ∧ keeps_waits s s' ∧ m_state s' = waiting_for_access_token ∧
    m_client_resync_counter s' = m_client_resync_counter s + 1.
Proof.
  intros Hne. unfold client_resync.
  destruct (advance_inactive (set_waits (set_resync s true (m_client_resync_counter s + 1)) [] [])) as
    (s1 & -> & Hi1 & Est1 & _ & Hc1 & _ & _ & Ecnt); [done|].
  simpl in *. unfold revive_if_needed, state_revive_if_needed. simpl. rewrite Est1.
  unfold advance_state, advance_to. simpl. rewrite bool_decide_eq_false_2 by (rewrite Est1; done). simpl.
  eexists. split; [done|]. destruct (inv_inactive s1 Hi1 Est1) as [Es1 _]. split; [|split_and!].
  - constructor; simpl; try done; rewrite Es1; by intros [].
  - unfold keeps_waits, waiting. simpl. rewrite completed_app, Hc1. simpl. by rewrite !app_nil_r.
  - done.
  - simpl. by rewrite Ecnt.
Qed.

Lemma handle_error_sound s path e :
  inv s → m_state s ≠ inactive → sound s (handle_error s path e) [].
Proof.
  intros Hi Hne. unfold handle_error, state_handle_error.
  destruct (decide (m_state s = dying)) as [Est|Hnd].
  { rewrite Est. destruct (is_fatal e); simpl; [|by apply sound_refl].
    destruct (advance_inactive_sound s Hne) as (s' & -> & Hi' & Hc'). by exists s'. }
  assert (match m_state s with
          | dying => s ← (if is_fatal e then advance_state s inactive else Some s); Some (s, true)
          | _ => Some (s, false) end = Some (s, false)) as -> by (by destruct (m_state s)).
  simpl. destruct (_ && _).
  { destruct (client_resync_spec s Hne) as (s' & -> & Hi' & Hk & _). exists s'. split; [done|]. split; [done|].
    by apply keeps_conserves. }
  destruct (code_verdict (code e)) as [| | |b|].
  - by apply sound_refl.
  - unfold state_access_token_expired. destruct (m_state s) eqn:Est; try by apply sound_refl.
    destruct (inv_live s Hi) as [id Es]; [by rewrite Est|]. destruct (inv_session s Hi) as [Hb Hu]; [by eexists|].
    unfold advance_state, advance_to. rewrite bool_decide_eq_false_2 by (rewrite Est; done). simpl. eexists.
    split; [done|]. split; [by constructor; simpl|].
    apply keeps_conserves. split; [done|]. simpl. by rewrite completed_app, app_nil_r.
  - destruct (cancel_conserves s (code e) Hi) as (Hi1 & Hc1 & _ & _ & _).
    destruct (finish_sound (emit (cancel_pending_waits s (code e)) [ev_invalidate_user (cfg_user (m_config s))]) e next_none)
      as (s' & E & Hi' & Hc'); [by apply inv_emit|done|]. exists s'. split; [exact E|]. split; [done|].
    eapply conserves_trans; [exact Hc1|]. unfold conserves in *. rewrite Hc'. simpl. by rewrite completed_app, app_nil_r.
  - unfold mark_file_for_deletion. cbn beta iota zeta.
    match goal with |- sound _ (finish_error ?t ?e' _) _ => destruct (finish_sound t e' next_inactive) as (s' & E & Hi' & Hc') end;
      [by apply inv_emit|done|]. exists s'. split; [exact E|]. split; [done|].
    unfold conserves in *. rewrite Hc'. simpl. by rewrite completed_app, app_nil_r.
  - apply finish_sound; [done|]. by destruct (is_fatal e).
Qed.
