(* ===== verification/SyncSessionTheorems.v ===== *)
(** * What a sync session promises *)

From Stdlib Require Import String.
From S2P Require Import Prelude SyncSession SyncSessionSpec.
Import SyncSession.Session.

Implicit Types (s : session).

(** ** Runs *)

(** What the surroundings of a session keep to: the underlying session calls back
    only while it exists, and a new configuration is for the same user and Realm. *)
Definition admissible s (i : input) : Prop :=
  match i with
  | in_connection _ _ _ => is_Some (m_session s)
  | in_configure c => cfg_user (m_config s) = cfg_user c ∧ cfg_url (m_config s) = cfg_url c ∧
                      cfg_partial (m_config s) = cfg_partial c
  | _ => True
  end.

(** The callbacks that an input registers. *)
Definition registers (i : input) : list nat := match i with in_wait _ cb => [cb] | _ => [] end.

(** A sequence of inputs, each admissible where it happens. *)
Inductive runs : session → list input → session → Prop :=
  | runs_nil s : runs s [] s
  | runs_snoc s ins s1 i s2 : runs s ins s1 → admissible s1 i → step s1 i = Some s2 → runs s (ins ++ [i]) s2.

Lemma create_inv path c force : inv (create path c force).
Proof. constructor; simpl; try done; by intros []. Qed.

Lemma completion_sound s d n e : inv s → sound s (Some (on_completion s d n e)) [].
Proof.
  intros Hi. unfold on_completion. destruct (n =? m_client_resync_counter s); simpl; [|by apply sound_refl].
  eexists. split; [done|]. split.
  - destruct Hi as [I1 I2 I3 I4]. constructor; [by destruct d|by destruct d|by destruct d|].
    intros Hl d' Hd'. assert (live (m_state s) = true) as Hl' by (by destruct d).
    assert (registered s d') as (id & ? & ?).
    { apply I4; [done|]. by destruct d, d'. }
    exists id. split; [by destruct d|]. destruct d; simpl; apply elem_of_app; by left.
  - unfold conserves, waiting. destruct d; simpl; rewrite completed_app, completed_map, app_nil_r.
    + rewrite app_nil_r, <- app_assoc. f_equiv. apply Permutation_app_comm.
    + by rewrite <- app_assoc.
Qed.

Lemma configure_sound s c : inv s → admissible s (in_configure c) → sound s (update_configuration s c) [].
Proof.
  intros Hi (Eu & Eurl & Ep). unfold update_configuration.
  assert (∃ s1, (if bool_decide (m_state s = inactive) then Some s else advance_state s inactive) = Some s1 ∧
    inv s1 ∧ m_state s1 = inactive ∧ m_config s1 = m_config s ∧ conserves s s1 []) as (s1 & -> & Hi1 & Est & Ec & Hc).
  { destruct (bool_decide_reflect (m_state s = inactive)) as [E|E].
    - exists s. split_and!; try done. by apply keeps_conserves.
    - destruct (advance_inactive s E) as (s' & -> & Hi' & Est & Hw & Hcp & _ & Ecf & _). exists s'. split_and!; try done.
      unfold conserves. by rewrite Hw, Hcp, !app_nil_r. }
  simpl. destruct (inv_inactive s1 Hi1 Est) as [Es _].
  rewrite Ec, Eu, Eurl, Ep, String.eqb_refl, !bool_decide_eq_true_2 by done. simpl.
  destruct (revive_sound (set_config s1 c)) as (s2 & -> & Hi2 & Hc2); [by apply (inv_frame s1)|].
  exists s2. split; [done|]. split; [done|]. by apply (conserves_trans s s1 s2).
Qed.

Lemma connection_sound s path c e :
  inv s → is_Some (m_session s) → sound s (on_connection_change s path c e) [].
Proof.
  intros Hi Hs. unfold on_connection_change.
  assert (m_state s ≠ inactive) as Hne.
  { intros E. destruct (inv_inactive s Hi E) as [E' _]. rewrite E' in Hs. by destruct Hs. }
  set (s1 := emit (set_connection s c) [ev_connection_change (m_connection_state s) c]).
  assert (inv s1) as Hi1.
  { apply inv_emit. destruct Hi as [I1 I2 I3 I4]. constructor; simpl; try done. }
  assert (conserves s s1 []) as Hc1.
  { apply keeps_conserves. split; [done|]. simpl. by rewrite completed_app, app_nil_r. }
  destruct e as [e|]; [|by exists s1].
  destruct (handle_error_sound s1 path e) as (s2 & -> & Hi2 & Hc2); [done|done|]. exists s2. split; [done|]. split; [done|].
  by apply (conserves_trans s s1 s2).
Qed.

Lemma step_sound s i : inv s → admissible s i → sound s (step s i) (registers i).
Proof.
  intros Hi Ha. destruct i as [| | | |v|a p|t u|d cb|c| | | |n|d n e|path c e]; simpl.
  - by apply close_sound.
  - by apply log_out_sound.
  - unfold handle_reconnect, state_handle_reconnect. destruct (m_state s) eqn:Est; [by apply emit_sound| |by apply sound_refl..].
    apply with_inner_sound; [done|by apply inv_live; [|rewrite Est]|done].
  - by apply revive_sound.
  - unfold nonsync_transact_notify, state_nonsync_transact_notify. destruct (m_state s) eqn:Est; [| |by apply sound_refl..].
    + apply frame_sound; [done|by apply (inv_frame s)|done|done].
    + apply with_inner_sound; [done|by apply inv_live; [|rewrite Est]|done].
  - unfold override_server, state_override_server. simpl.
    assert (sound s (Some (set_override s (Some (a, p)))) []) as Hs by (apply frame_sound; [done|by apply (inv_frame s)|done|done]).
    assert (live (m_state s) = true → sound s (with_inner (set_override s (Some (a, p))) (λ id, ev_override_server id a p)) []) as Hl.
    { intros Hl. destruct (inv_live s Hi Hl) as [id Es]. unfold with_inner. simpl. rewrite Es. simpl.
      eexists. split; [done|]. split; [by apply inv_emit, (inv_frame s)|]. apply keeps_conserves. split; [done|].
      simpl. by rewrite completed_app, app_nil_r. }
    destruct (m_state s); auto.
  - by apply refresh_sound.
  - by apply wait_sound.
  - by apply configure_sound.
  - apply frame_sound; [done|by apply (inv_frame s)|done|done].
  - apply frame_sound; [done|by apply (inv_frame s)|done|done].
  - unfold did_drop_external_reference. destruct (m_external_reference s); [by apply sound_refl|by apply close_sound].
  - unfold on_death_upload. destruct (bool_decide_reflect (m_state s = dying)) as [E|E]; [|by apply sound_refl].
    destruct (_ =? _); [apply advance_inactive_sound; by rewrite E|by apply sound_refl].
  - by apply completion_sound.
  - by apply connection_sound.
Qed.

(** C32: when every input runs to completion before the next one, a session never gets stuck: no assertion fails and no missing underlying
    session is called, whatever happens to it and in whatever order; between any
    two calls an inactive session has no underlying session and is disconnected, an
    active or dying one has a bound one, and every direction in which callbacks
    wait is registered with it.  What another thread or a callback does while a handler has released its lock is not covered
    ([error_after_log_out_asserts]). *)
Theorem session_safe path c force ins s i :
  runs (create path c force) ins s → admissible s i → inv s ∧ ∃ s', step s i = Some s' ∧ inv s'.
Proof.
  intros Hr Ha. assert (inv s) as Hi.
  { clear Ha. remember (create path c force) as s0 eqn:E.
    induction Hr as [s|s ins s1 i' s2 Hr IH Ha' Es]; [subst; apply create_inv|].
    destruct (step_sound s1 i' (IH E) Ha') as (s' & Es' & Hi & _). congruence. }
  split; [done|]. destruct (step_sound s i Hi Ha) as (s' & Es & Hi' & _). by exists s'.
Qed.

(** C33: every completion callback is called exactly once or still waits, through
    any sequence of calls that each run to completion: none is lost and none is called twice, also when the
    session is closed, logged out, reconfigured or resynchronised. *)
Theorem callbacks_called_once path c force ins s :
  runs (create path c force) ins s → completed (trace s) ++ waiting s ≡ₚ concat (registers <$> ins).
Proof.
  intros Hr. remember (create path c force) as s0 eqn:E.
  assert (inv s ∧ completed (trace s) ++ waiting s ≡ₚ concat (registers <$> ins)) as [_ H]; [|done].
  induction Hr as [s|s ins s1 i s2 Hr IH Ha Es]; [subst; split; [apply create_inv|done]|].
  destruct (IH E) as [Hi Hp]. destruct (step_sound s1 i Hi Ha) as (s' & Es' & Hi' & Hc).
  assert (s' = s2) as -> by congruence. split; [done|].
  unfold conserves in Hc. rewrite Hc, app_assoc, Hp, fmap_app, concat_app. simpl. by rewrite app_nil_r.
Qed.

(** C34: the automatic client resync is transparent to those who wait: it calls no
    callback, every callback that waited still waits, and notifications of the old
    underlying session, which carry the old counter, are ignored. *)
Theorem resync_transparent s path e :
  inv s → m_state s ≠ inactive → m_state s ≠ dying → is_client_reset_requested e = true →
  client_resync_mode (m_config s) ≠ Manual →
  ∃ s', handle_error s path e = Some s' ∧ completed (trace s') = completed (trace s) ∧ waiting s' = waiting s ∧
    ∀ d ec, on_completion s' d (m_client_resync_counter s) ec = s'.
Proof.
  intros Hi Hne Hnd Hr Hm. destruct (client_resync_spec s Hne) as (s' & E & _ & [Hw Hc] & _ & Hcnt).
  exists s'. split; [|split; [done|split; [done|]]].
  - unfold handle_error, state_handle_error. destruct (m_state s); try done; simpl; rewrite Hr;
      destruct (client_resync_mode (m_config s)); done.
  - intros d ec. unfold on_completion. by rewrite Hcnt, (proj2 (Z.eqb_neq _ _)) by lia.
Qed.

(** After a call of [log_out] the session is inactive, its underlying session
    is gone, and every callback that waited has been told, the downloads first. *)
Theorem log_out_cancels s :
  inv s → m_state s ≠ inactive →
  ∃ s', log_out s = Some s' ∧ m_state s' = inactive ∧ m_session s' = None ∧ waiting s' = [] ∧
    completed (trace s') = completed (trace s) ++ waiting s.
Proof.
  intros Hi Hne. destruct (advance_inactive s Hne) as (s' & E & Hi' & Est & Hw & Hc & _). exists s'.
  split; [unfold log_out, state_log_out; by destruct (m_state s)|].
  destruct (inv_inactive s' Hi' Est) as [Es _]. by split_and!.
Qed.

(** A session that is closed while it waits for a token goes on, once it has
    the token, the way an active session that is closed goes: with the policy to
    upload all changes first it dies and waits for the upload. *)
Theorem deferred_close s token url :
  inv s → m_state s = waiting_for_access_token → policy (m_config s) = AfterChangesUploaded →
  is_Some (m_server_url s) ∨ is_Some url →
  ∃ s1 s2 id, close s = Some s1 ∧ m_state s1 = waiting_for_access_token ∧
    refresh_access_token s1 token url = Some s2 ∧ m_state s2 = dying ∧ m_session s2 = Some id ∧
    last (trace s2) = Some (ev_wait_before_death id (m_death_count s2)).
Proof.
  intros Hi Est Hp Hu. set (s1 := set_deferred_close s true).
  assert (close s = Some s1) as E1 by (unfold close, state_close; by rewrite Est, Hp).
  assert (inv s1) as Hi1 by by apply (inv_frame s).
  destruct (refresh_to_active s1 token url Hi1 Est Hu) as (s2 & E2 & Hi2 & _ & Est2 & Ec2). simpl in E2.
  destruct (inv_live s2 Hi2) as [id Es2]; [by rewrite Est2|].
  assert (∃ s3, state_close s2 = Some s3 ∧ m_state s3 = dying ∧ m_session s3 = Some id ∧
    last (trace s3) = Some (ev_wait_before_death id (m_death_count s3))) as (s3 & E3 & H3).
  { unfold state_close. rewrite Est2, Ec2. simpl. rewrite Hp. unfold advance_state, advance_to.
    rewrite bool_decide_eq_false_2 by (rewrite Est2; done). simpl. unfold enter_dying. simpl. rewrite Es2. simpl.
    eexists. split; [done|]. simpl. by rewrite last_snoc. }
  exists s1, s3, id. split; [done|]. split; [done|]. split; [|done].
  unfold refresh_access_token. rewrite E2, E3. simpl. destruct (m_server_url s); [done|].
  destruct url; [done|]. by destruct Hu as [[]|[]].
Qed.

(** ** Where the code does not do what it means to *)

Lemma log_out_cancels_state s s1 : inv s → m_state s ≠ inactive → log_out s = Some s1 → m_state s1 = inactive.
Proof.
  intros Hi Hne E. destruct (advance_inactive s Hne) as (s' & E' & _ & Est & _).
  assert (log_out s = advance_state s inactive) as El by (unfold log_out, state_log_out; by destruct (m_state s)).
  congruence.
Qed.

(** The listener calls the client with the lock released before it handles the
    error that came with the change.  If the client logs the user out there, an
    error that ends the session hits the assertion of [advance_state]. *)
Theorem error_after_log_out_asserts s s1 path e :
  inv s → m_state s ≠ inactive → log_out s = Some s1 → code e = protocol permission_denied →
  handle_error s1 path e = None.
Proof.
  intros Hi Hne E Ee. assert (m_state s1 = inactive) as Est by by apply (log_out_cancels_state s).
  unfold handle_error, state_handle_error. rewrite Est. simpl.
  unfold is_client_reset_requested. rewrite Ee. simpl. unfold finish_error, advance_state, advance_to. simpl.
  by rewrite Est, bool_decide_eq_true_2.
Qed.

(** ** Instances on concrete runs *)

Definition sample_config : sync_config :=
  SyncConfig 7 "realms://server/~/data" false AfterChangesUploaded Recover false true.

(** The session is revived, gets a token, two callbacks wait, and the server asks
    for a client reset. *)
Definition sample_inputs : list input :=
  [in_revive; in_token "token" (Some "realms://server/user/data"%string); in_wait upload 1; in_wait download 2;
   in_connection "recovered" Connected None;
   in_connection "recovered" Connected (Some (SyncError (protocol bad_server_version) true None None false))].

(** A run, by evaluation. *)
Fixpoint run_from s (ins : list input) : option session :=
  match ins with
  | [] => Some s
  | i :: ins =>
      let ok := match i with
                | in_connection _ _ _ => bool_decide (is_Some (m_session s))
                | in_configure _ => false
                | _ => true
                end in
      if ok then s' ← step s i; run_from s' ins else None
  end.

Lemma runs_cons s i s1 ins s2 : admissible s i → step s i = Some s1 → runs s1 ins s2 → runs s (i :: ins) s2.
Proof.
  intros Ha E Hr. induction Hr as [s1|s1 ins s2 j s3 Hr IH Hj Ej].
  - apply (runs_snoc s [] s i s1); [apply runs_nil|done|done].
  - apply (runs_snoc s (i :: ins) s2 j s3); [by apply IH|done|done].
Qed.

Lemma run_from_runs s ins s' : run_from s ins = Some s' → runs s ins s'.
Proof.
  revert s. induction ins as [|i ins IH]; intros s E; simpl in E; [injection E as <-; apply runs_nil|].
  destruct (match i with in_connection _ _ _ => _ | _ => _ end) eqn:Eok; [|done].
  destruct (step s i) as [s1|] eqn:Es; [|done]. simpl in E. apply (runs_cons s i s1); [|done|by apply IH].
  destruct i; try done. by apply bool_decide_eq_true in Eok.
Qed.

Definition sample_session : session := create "data.realm" sample_config false.

Definition after_token : session := default sample_session (run_from sample_session (take 4 sample_inputs)).
Definition after_reset : session := default sample_session (run_from sample_session sample_inputs).

Lemma sample_runs : runs sample_session sample_inputs after_reset.
Proof. apply run_from_runs. vm_compute. reflexivity. Qed.

Lemma session_safe_witness :
  inv after_reset ∧ ∃ s', step after_reset (in_token "new" None) = Some s' ∧ inv s'.
Proof. apply (session_safe "data.realm" sample_config false sample_inputs); [exact sample_runs|exact I]. Defined.

Lemma callbacks_witness :
  completed (trace after_reset) ++ waiting after_reset ≡ₚ concat (registers <$> sample_inputs).
Proof. apply (callbacks_called_once "data.realm" sample_config false sample_inputs). exact sample_runs. Defined.

Lemma after_token_inv : inv after_token.
Proof.
  constructor; [done|intros _; by eexists|intros _; split; [done|by eexists]|].
  intros _ [] _; exists 0%nat; (split; [done|]); vm_compute; repeat constructor.
Qed.

Lemma resync_witness :
  let e := SyncError (protocol bad_server_version) true None None false in
  ∃ s', handle_error after_token "recovered" e = Some s' ∧ completed (trace s') = completed (trace after_token) ∧
    waiting s' = waiting after_token ∧
    ∀ d ec, on_completion s' d (m_client_resync_counter after_token) ec = s'.
Proof.
  intros e. apply (resync_transparent after_token "recovered" e);
    [exact after_token_inv|discriminate|discriminate|reflexivity|discriminate].
Defined.

Lemma log_out_witness :
  ∃ s', log_out after_token = Some s' ∧ m_state s' = inactive ∧ m_session s' = None ∧ waiting s' = [] ∧
    completed (trace s') = completed (trace after_token) ++ waiting after_token.
Proof. apply (log_out_cancels after_token); [exact after_token_inv|discriminate]. Defined.

Lemma deferred_close_witness :
  let s := default sample_session (step sample_session in_revive) in
  ∃ s1 s2 id, close s = Some s1 ∧ m_state s1 = waiting_for_access_token ∧
    refresh_access_token s1 "token" (Some "url"%string) = Some s2 ∧ m_state s2 = dying ∧ m_session s2 = Some id ∧
    last (trace s2) = Some (ev_wait_before_death id (m_death_count s2)).
Proof.
  intros s. apply (deferred_close s "token" (Some "url"%string));
    [|reflexivity|reflexivity|right; by eexists].
  constructor; vm_compute; try done; by intros [].
Defined.
