(* ===== verification/Callbacks.v ===== *)
(** * What clients do from inside callbacks

    Shared by the notifiers, which call back while their list of callbacks may
    change: the actions of a client, and who is still due. *)

From S2P Require Import Prelude.

(** What a callback may do to the notifier that calls it. *)
Inductive action := do_add | do_remove (token : Z).

(** The tokens that a list of actions removes. *)
Definition removes (acts : list action) : list Z :=
  omap (λ a, match a with do_remove t => Some t | do_add => None end) acts.

Definition only_removes (client : Z → list action) : Prop := ∀ t a, a ∈ client t → a ≠ do_add.

(** The callbacks of [l] that are due, where those in [gone] were removed. *)
Fixpoint due (client : Z → list action) (gone l : list Z) : list Z :=
  match l with
  | [] => []
  | t :: l => if bool_decide (t ∈ gone) then due client gone l else t :: due client (gone ++ removes (client t)) l
  end.

(** The index of a loop is one behind while it calls. *)
Lemma back_and_forth k : 0 <= k < W64 → k ⊖ 1 ⊕ 1 = k.
Proof. intros Hk. unfold wadd, wsub. rewrite wrap_add_l. rewrite <- (wrap_small k Hk) at 2. f_equal. lia. Qed.

(** Keep what is not in [gone]. *)
Definition staying {A} (tok : A → Z) (gone : list Z) (l : list A) : list A := filter (λ x, tok x ∉ gone) l.

Section staying.
Context {A : Type} (tok : A → Z).
Implicit Types l : list A.

Lemma staying_nil l : staying tok [] l = l.
Proof. induction l as [|x l IH]; [done|]. unfold staying in *. rewrite filter_cons_True by apply not_elem_of_nil. by rewrite IH. Qed.

Lemma staying_app gone l1 l2 : staying tok gone (l1 ++ l2) = staying tok gone l1 ++ staying tok gone l2.
Proof. apply filter_app. Qed.

Lemma staying_cons_in gone x l : tok x ∈ gone → staying tok gone (x :: l) = staying tok gone l.
Proof. intros Hx. apply filter_cons_False. tauto. Qed.

Lemma staying_cons_out gone x l : tok x ∉ gone → staying tok gone (x :: l) = x :: staying tok gone l.
Proof. intros Hx. by apply filter_cons_True. Qed.

Lemma staying_staying g1 g2 l : staying tok g2 (staying tok g1 l) = staying tok (g1 ++ g2) l.
Proof. unfold staying. rewrite list_filter_filter. apply list_filter_iff. intros x. rewrite not_elem_of_app. tauto. Qed.

Lemma staying_absent gone l : (∀ x, x ∈ l → tok x ∉ gone) → staying tok gone l = l.
Proof.
  induction l as [|x l IH]; intros Hl; [done|]. rewrite staying_cons_out by (apply Hl; by left). f_equal. apply IH.
  intros y Hy. apply Hl. by right.
Qed.

Lemma elem_of_staying gone l x : x ∈ staying tok gone l ↔ (tok x ∉ gone) ∧ x ∈ l.
Proof. unfold staying. by rewrite list_elem_of_filter. Qed.

Lemma staying_tokens gone l t : t ∈ tok <$> staying tok gone l ↔ t ∈ tok <$> l ∧ (t ∉ gone).
Proof. rewrite !list_elem_of_fmap. setoid_rewrite elem_of_staying. naive_solver. Qed.

Lemma staying_fmap (f : A → A) gone l : (∀ x, tok (f x) = tok x) → staying tok gone (f <$> l) = f <$> staying tok gone l.
Proof.
  intros Hf. induction l as [|x l IH]; [done|]. cbn [fmap list_fmap]. destruct (decide (tok x ∈ gone)) as [Hx|Hx].
  - rewrite !staying_cons_in by (rewrite ?Hf; done). done.
  - rewrite !staying_cons_out by (rewrite ?Hf; done). cbn. by f_equal.
Qed.

(** Where the callback with a token is. *)
Lemma find_token l t :
  ((t ∉ tok <$> l) ∧ find_if (λ x, tok x =? t) l = length l) ∨
  (∃ l1 x l2, l = l1 ++ x :: l2 ∧ tok x = t ∧ find_if (λ x, tok x =? t) l = length l1 ∧ t ∉ tok <$> l1).
Proof.
  destruct (find_if_spec (λ x, tok x =? t) l) as [[E Hn]|(l1 & x & l2 & -> & E & Hn & Hx)].
  - left. split; [|done]. intros (x & -> & Hin)%list_elem_of_fmap. rewrite Forall_forall in Hn.
    specialize (Hn x Hin). simpl in Hn. lia.
  - right. exists l1, x, l2. split_and!; [done|lia|done|]. intros (y & -> & Hin)%list_elem_of_fmap.
    rewrite Forall_forall in Hn. specialize (Hn y Hin). simpl in Hn. lia.
Qed.

(** ** Removal during a notification

    [a] has been called, [b] is to be called, [c] was added meanwhile; the index is
    at the last of [a], and the count is that of [a ++ b]. *)

Lemma staying_one t l1 x l2 :
  NoDup (tok <$> l1 ++ x :: l2) → tok x = t → staying tok [t] (l1 ++ x :: l2) = l1 ++ l2.
Proof.
  rewrite fmap_app, fmap_cons. intros (Hn1 & Hdis & Hn2)%NoDup_app Hx. inversion Hn2 as [|? ? Hx2 _]; subst.
  rewrite staying_app, staying_cons_in by (by left). f_equal; apply staying_absent; intros y Hy Ey%list_elem_of_singleton.
  - apply (Hdis (tok y)); [by apply list_elem_of_fmap_2|rewrite Ey; by left].
  - apply Hx2. rewrite <- Ey. by apply list_elem_of_fmap_2.
Qed.

Lemma remove_slot a b c t (index : Z) :
  NoDup (tok <$> a ++ b) → t ∈ tok <$> a ++ b → index = Z.of_nat (length a) ⊖ 1 → Z.of_nat (length (a ++ b)) < npos →
  let i := find_if (λ x, tok x =? t) (a ++ b ++ c) in
  (i < length (a ++ b ++ c))%nat ∧ delete i (a ++ b ++ c) = staying tok [t] a ++ staying tok [t] b ++ c ∧
  (if negb (index =? npos) && (Z.of_nat i <=? index) then index ⊖ 1 else index) = Z.of_nat (length (staying tok [t] a)) ⊖ 1 ∧
  Z.of_nat (length (a ++ b)) ⊖ 1 = Z.of_nat (length (staying tok [t] a ++ staying tok [t] b)).
Proof.
  intros Hnd Hin -> Hlen. cbv zeta.
  destruct (find_token (a ++ b ++ c) t) as [[Hn _]|(l1 & x & l2 & Es & Hx & Ei & Hn1)].
  { exfalso. apply Hn. rewrite app_assoc, fmap_app. apply elem_of_app. by left. }
  rewrite Ei, Es, delete_middle. split; [rewrite length_app; simpl; lia|].
  destruct (decide (length l1 < length a)%nat) as [Ha|Ha].
  - assert (∃ a2, a = l1 ++ x :: a2 ∧ l2 = a2 ++ b ++ c) as (a2 & -> & ->).
    { apply app_eq_inv in Es as [(k & -> & E)|(k & -> & E)].
      - destruct k as [|y k]; simplify_eq/=; [rewrite app_nil_r in Ha; lia|by exists k].
      - rewrite length_app in Ha. lia. }
    assert (staying tok [t] b = b) as Eb.
    { apply staying_absent. intros y Hy Ey%list_elem_of_singleton. rewrite fmap_app in Hnd.
      apply NoDup_app in Hnd as (_ & Hdis & _). apply (Hdis (tok y)); [|by apply list_elem_of_fmap_2].
      rewrite Ey, <- Hx. apply list_elem_of_fmap_2, elem_of_app. right. by left. }
    rewrite Eb, staying_one by (try done; rewrite fmap_app in Hnd; by apply NoDup_app in Hnd as [? _]).
    rewrite !length_app in *. simpl in *. split; [by rewrite <- app_assoc|].
    rewrite (wsub_small (Z.of_nat (length l1 + S (length a2))) 1) by lia.
    rewrite (proj2 (Z.eqb_neq _ npos)), (proj2 (Z.leb_le _ _)) by lia. simpl.
    split; [f_equal; lia|]. rewrite wsub_small by lia. lia.
  - assert (∃ b1 b2, b = b1 ++ x :: b2 ∧ l1 = a ++ b1 ∧ l2 = b2 ++ c) as (b1 & b2 & -> & -> & ->).
    { apply app_eq_inv in Es as [(k & Ek & E)|(k & Ek & E)].
      { subst a. rewrite length_app in Ha. destruct k as [|y k]; simpl in *; [|lia]. rewrite app_nil_r in *.
        destruct b as [|y b]; [by rewrite app_nil_r in Hin|]. injection E as <- ->. exists [], b. by rewrite app_nil_r. }
      subst l1. apply app_eq_inv in E as [(k' & -> & E)|(k' & -> & E)].
      - destruct k' as [|y k']; simplify_eq/=; [|by exists k, k'].
        exfalso. apply Hn1. by rewrite app_nil_r in *.
      - exfalso. apply Hn1. rewrite app_assoc, fmap_app. apply elem_of_app. by left. }
    assert (staying tok [t] a = a) as Ea.
    { apply staying_absent. intros y Hy Ey%list_elem_of_singleton. apply Hn1. rewrite fmap_app, <- Ey. apply elem_of_app. left. by apply list_elem_of_fmap_2. }
    rewrite Ea, staying_one by (try done; rewrite fmap_app in Hnd; by apply NoDup_app in Hnd as (_ & _ & ?)).
    rewrite !length_app in *. simpl in *. split; [by rewrite <- !app_assoc|]. split.
    + destruct (decide (length a = 0%nat)) as [->|Hne]; [done|]. rewrite wsub_small by lia.
      by rewrite (proj2 (Z.leb_gt _ _)), andb_false_r by lia.
    + rewrite wsub_small by lia. lia.
Qed.
End staying.
