(* ===== verification/SyncNotifiers.v ===== *)
(** * Notifiers of a sync session

    Model of [SyncProgressNotifier] and [SyncSession::ConnectionChangeNotifier] in
    sync/sync_session.cpp.  A callback is known by its token; what the client does
    with the notifier from inside a callback is an argument. *)

From stdpp Require Import gmap.
From S2P Require Import Prelude Callbacks.

(** ** Progress *)

(** [SyncProgressNotifier::Progress] *)
Record progress := Progress {
  uploadable : Z; downloadable : Z; uploaded : Z; downloaded : Z; p_snapshot_version : Z
}.

(** [SyncProgressNotifier::NotifierPackage], without the callback. *)
Record package := Package {
  captured_transferrable : option Z; snapshot_version : Z; is_streaming : bool; is_download : bool
}.

(** A call of a progress callback: transferred, transferrable. *)
Abbreviation report := (Z * Z)%type.

(** [SyncProgressNotifier] *)
Record progress_notifier := ProgressNotifier {
  m_progress_notifier_token : Z;
  m_local_transaction_version : Z;
  m_current_progress : option progress;
  m_packages : gmap Z package
}.

Module Progress.
Definition new : progress_notifier := ProgressNotifier 1 0 None ∅.

(** The bytes that count for a package. *)
Definition transferrable_of (p : package) (c : progress) : Z :=
  if is_download p then downloadable c else uploadable c.
Definition transferred_of (p : package) (c : progress) : Z :=
  if is_download p then downloaded c else uploaded c.

Definition capture (p : package) (t : Z) : package :=
  Package (Some t) (snapshot_version p) (is_streaming p) (is_download p).

(** [create_invocation]: the call, the changed package, and [is_expired]. *)
Definition create_invocation (p : package) (c : progress) : option report * package * bool :=
  let finish (p : package) (transferrable : Z) :=
    let transferred := transferred_of p c in
    (Some (transferred, transferrable), p, negb (is_streaming p) && (transferrable <=? transferred)) in
  if is_streaming p then finish p (transferrable_of p c)
  else match captured_transferrable p with
       | Some t => finish p t
       | None =>
           if is_download p then finish (capture p (downloadable c)) (downloadable c)
           else if p_snapshot_version c <? snapshot_version p then (None, p, false)
           else finish (capture p (uploadable c)) (uploadable c)
       end.

(** [register_callback]: the token, zero if the callback is expired at once, and
    the call it makes. *)
Definition register_callback (n : progress_notifier) (dir_download streaming : bool) : progress_notifier * Z * option report :=
  let token := m_progress_notifier_token n in
  let n := ProgressNotifier (token ⊕ 1) (m_local_transaction_version n) (m_current_progress n) (m_packages n) in
  let p := Package None (m_local_transaction_version n) streaming dir_download in
  let emplace p := match m_packages n !! token with Some _ => m_packages n | None => <[token := p]> (m_packages n) end in
  let with_packages ps := ProgressNotifier (m_progress_notifier_token n) (m_local_transaction_version n) (m_current_progress n) ps in
  match m_current_progress n with
  | None => (with_packages (emplace p), token, None)
  | Some c =>
      let '(call, p, skip_registration) := create_invocation p c in
      if skip_registration then (n, 0, call) else (with_packages (emplace p), token, call)
  end.

Definition unregister_callback (n : progress_notifier) (token : Z) : progress_notifier :=
  ProgressNotifier (m_progress_notifier_token n) (m_local_transaction_version n) (m_current_progress n)
    (delete token (m_packages n)).

(** [update]: the calls, by token. *)
Definition update (n : progress_notifier) (c : progress) (download_version : Z) : progress_notifier * gmap Z report :=
  if download_version =? 0 then (n, ∅) else
  let invoked := (λ p, create_invocation p c) <$> m_packages n in
  (ProgressNotifier (m_progress_notifier_token n) (m_local_transaction_version n) (Some c)
     (omap (λ '(_, p, expired), if expired : bool then None else Some p) invoked),
   omap (λ '(call, _, _), call) invoked).

Definition set_local_version (n : progress_notifier) (version : Z) : progress_notifier :=
  ProgressNotifier (m_progress_notifier_token n) version (m_current_progress n) (m_packages n).
End Progress.

(** ** Connection changes *)

(** [ConnectionChangeNotifier]; [m_callbacks] holds the tokens. *)
Record change_notifier := ChangeNotifier {
  m_callbacks : list Z; m_callback_index : Z; m_callback_count : Z; m_next_token : Z
}.

Module Connection.
Definition new : change_notifier := ChangeNotifier [] npos npos 0.

(** [add_callback]; the token is [m_next_token]. *)
Definition add_callback (n : change_notifier) : change_notifier :=
  ChangeNotifier (m_callbacks n ++ [m_next_token n]) (m_callback_index n) (m_callback_count n) (m_next_token n ⊕ 1).

Definition remove_callback (n : change_notifier) (token : Z) : change_notifier :=
  let idx := find_if (λ t, t =? token) (m_callbacks n) in
  if bool_decide (idx = length (m_callbacks n)) then n else
  let index := if negb (m_callback_index n =? npos) && (Z.of_nat idx <=? m_callback_index n)
               then m_callback_index n ⊖ 1 else m_callback_index n in
  ChangeNotifier (delete idx (m_callbacks n)) index (m_callback_count n ⊖ 1) (m_next_token n).

Definition act (n : change_notifier) (a : action) : change_notifier :=
  match a with do_add => add_callback n | do_remove t => remove_callback n t end.

(** The loop of [invoke_callbacks], which has called [called] so far; [client]
    says what each callback does. *)
Fixpoint invoke_loop (fuel : nat) (client : Z → list action) (n : change_notifier) (called : list Z)
    : option (change_notifier * list Z) :=
  match fuel with
  | O => None
  | S fuel =>
      if m_callback_index n <? m_callback_count n then
        cb ← m_callbacks n !! Z.to_nat (m_callback_index n);
        let n := foldl act n (client cb) in
        invoke_loop fuel client
          (ChangeNotifier (m_callbacks n) (m_callback_index n ⊕ 1) (m_callback_count n) (m_next_token n))
          (called ++ [cb])
      else Some (ChangeNotifier (m_callbacks n) npos (m_callback_count n) (m_next_token n), called)
  end.

(** [invoke_callbacks]: the callbacks that were called, in order. *)
Definition invoke_callbacks (client : Z → list action) (n : change_notifier) : option (change_notifier * list Z) :=
  invoke_loop (length (m_callbacks n) + 1) client
    (ChangeNotifier (m_callbacks n) (m_callback_index n ⊕ 1) (Z.of_nat (length (m_callbacks n))) (m_next_token n)) [].
End Connection.

(** * What the notifiers of a sync session promise *)

Import SyncNotifiers.Progress SyncNotifiers.Connection.

(** ** Connection changes *)

(** The notifier while it calls: [a] has been called and is still registered,
    [b] is to be called; the index is at the last of [a]. *)
Definition calling (n : change_notifier) (a b : list Z) : Prop :=
  m_callbacks n = a ++ b ∧ m_callback_index n = Z.of_nat (length a) ⊖ 1 ∧
  m_callback_count n = Z.of_nat (length (a ++ b)) ∧ NoDup (a ++ b) ∧ Z.of_nat (length (a ++ b)) < npos.

(** A removal takes the callback out, wherever it is. *)
Lemma remove_calling n a b t : calling n a b → calling (remove_callback n t) (staying id [t] a) (staying id [t] b).
Proof.
  intros (Ec & Ei & Ek & Hnd & Hlen). unfold remove_callback. rewrite Ec.
  destruct (decide (t ∈ a ++ b)) as [Hin|Hn].
  - destruct (remove_slot id a b [] t (m_callback_index n)) as (H1 & H2 & H3 & H4); rewrite ?list_fmap_id; try done.
    rewrite !app_nil_r in H1, H2, H3. change (λ x, id x =? t) with (λ x, x =? t) in H1, H2, H3.
    rewrite bool_decide_eq_false_2 by lia. unfold calling. simpl. rewrite H2, H3, Ek, H4, ?list_fmap_id. split_and!; [by rewrite app_nil_r|done|done| |].
    + rewrite <- staying_app. apply (sublist_NoDup _ (a ++ b)); [done|]. apply sublist_filter.
    + rewrite <- H4, wsub_small; [lia|]. destruct (a ++ b); [by apply elem_of_nil in Hin|cbn [length] in *; lia].
  - destruct (find_token id (a ++ b) t) as [[_ E]|(l1 & x & l2 & Es & <- & _)].
    + unfold id in E. rewrite E, bool_decide_eq_true_2 by done. apply not_elem_of_app in Hn as [Ha Hb].
      rewrite !staying_absent; [done|intros x Hx Ex%list_elem_of_singleton; unfold id in Ex; by subst x..].
    + exfalso. apply Hn. rewrite Es. apply elem_of_app. right. by left.
Qed.

Lemma acts_calling acts n a b :
  (∀ x, x ∈ acts → x ≠ do_add) → calling n a b →
  ∃ a', calling (foldl act n acts) a' (staying id (removes acts) b).
Proof.
  revert n a b. induction acts as [|[|t] acts IH]; intros n a b Hno Hc.
  - exists a. by rewrite staying_nil.
  - destruct (Hno do_add); [by left|done].
  - destruct (IH (remove_callback n t) (staying id [t] a) (staying id [t] b)) as (a' & Ha');
      [intros x Hx; apply Hno; by right|by apply remove_calling|].
    exists a'. rewrite staying_staying in Ha'. exact Ha'.
Qed.

(** At the head of the loop the index is at the first of [b]. *)
Lemma loop_due client l fuel n a gone called :
  only_removes client → (length l < fuel)%nat →
  m_callbacks n = a ++ staying id gone l → m_callback_index n = Z.of_nat (length a) →
  m_callback_count n = Z.of_nat (length (a ++ staying id gone l)) →
  NoDup (a ++ staying id gone l) → Z.of_nat (length (a ++ staying id gone l)) < npos →
  ∃ n', invoke_loop fuel client n called = Some (n', called ++ due client gone l) ∧ m_callback_index n' = npos.
Proof.
  intros Hno. revert fuel n a gone called.
  induction l as [|t l IH]; intros fuel n a gone called Hf Ec Ei Ek Hnd Hlen; [|simpl in Hf].
  - destruct fuel as [|fuel]; [simpl in Hf; lia|]. simpl in *. rewrite app_nil_r in *. rewrite Ei, Ek, Z.ltb_irrefl.
    by eexists.
  - cbn [due]. destruct (bool_decide_reflect (t ∈ gone)) as [Hin|Hin].
    { rewrite staying_cons_in in Ec, Ek, Hnd, Hlen by done. apply (IH fuel n a); try done. lia. }
    rewrite staying_cons_out in Ec, Ek, Hnd, Hlen by done. destruct fuel as [|fuel]; [lia|]. cbn [invoke_loop].
    rewrite length_app in Ek, Hlen. cbn [length] in Ek, Hlen. rewrite (proj2 (Z.ltb_lt _ _)) by lia.
    rewrite Ec, Ei, Nat2Z.id, lookup_middle. cbn [mbind option_bind].
    destruct (acts_calling (client t) n (a ++ [t]) (staying id gone l)) as (a' & Ec' & Ei' & Ek' & Hnd' & Hlen').
    { intros x Hx. by apply (Hno t). }
    { unfold calling. rewrite <- !app_assoc, !length_app. simpl.
      split; [done|]. split; [rewrite wsub_small; lia|]. split; [lia|]. split; [done|lia]. }
    rewrite staying_staying in *.
    destruct (IH fuel (ChangeNotifier (m_callbacks (foldl act n (client t)))
                (m_callback_index (foldl act n (client t)) ⊕ 1) (m_callback_count (foldl act n (client t)))
                (m_next_token (foldl act n (client t)))) a' (gone ++ removes (client t)) (called ++ [t]))
      as (n' & E & Hn'); try done; [lia| |].
    { simpl. rewrite Ei'. rewrite length_app in Hlen'. apply back_and_forth. lia. }
    exists n'. split; [|done]. rewrite E. by rewrite <- app_assoc.
Qed.

(** When the callbacks only remove callbacks, every callback that is
    registered when the connection changes is called once, in the order of
    registration, unless one that was called before it removed it; the loop ends and
    never reads beyond the callbacks. *)
Theorem connection_callbacks_correct client n :
  only_removes client → NoDup (m_callbacks n) → Z.of_nat (length (m_callbacks n)) < npos → m_callback_index n = npos →
  ∃ n', invoke_callbacks client n = Some (n', due client [] (m_callbacks n)) ∧ m_callback_index n' = npos.
Proof.
  intros Hno Hnd Hlen Ei. unfold invoke_callbacks.
  apply (loop_due client (m_callbacks n) _ _ [] [] []); simpl; rewrite ?staying_nil; try done; [lia|].
  rewrite Ei. reflexivity.
Qed.

(** ** Progress *)

(** The calls that a package makes for a sequence of updates, until it expires. *)
Fixpoint reports (p : package) (us : list progress) : list report :=
  match us with
  | [] => []
  | u :: us =>
      match create_invocation p u with
      | (Some r, _, true) => [r]
      | (Some r, p, false) => r :: reports p us
      | (None, p, _) => reports p us
      end
  end.

(** The updates that do not yet cover the local changes of an upload. *)
Definition too_early (p : package) (u : progress) : bool :=
  negb (is_download p) && (p_snapshot_version u <? snapshot_version p).

Fixpoint skip_early (p : package) (us : list progress) : list progress :=
  match us with [] => [] | u :: us' => if too_early p u then skip_early p us' else us end.

(** Up to and with the first update that transfers [t]. *)
Fixpoint until (p : package) (t : Z) (us : list progress) : list progress :=
  match us with [] => [] | u :: us => u :: if t <=? transferred_of p u then [] else until p t us end.

Lemma reports_captured p t us :
  is_streaming p = false → captured_transferrable p = Some t →
  reports p us = (λ u, (transferred_of p u, t)) <$> until p t us.
Proof.
  intros Hs Hc. induction us as [|u us IH]; [done|]. simpl. unfold create_invocation. rewrite Hs, Hc. simpl.
  destruct (t <=? transferred_of p u); simpl; [done|]. by rewrite IH.
Qed.

Lemma until_capture p t t' us : until (capture p t) t' us = until p t' us.
Proof. induction us as [|u us IH]; [done|]. simpl. by rewrite IH. Qed.

(** The first update that counts captures the amount. *)
Lemma reports_first p u us :
  is_streaming p = false → captured_transferrable p = None → too_early p u = false →
  let t := transferrable_of p u in reports p (u :: us) = (λ u, (transferred_of p u, t)) <$> until p t (u :: us).
Proof.
  intros Hs Hc He t. cbn [reports until].
  assert (create_invocation p u = (Some (transferred_of p u, t), capture p t, t <=? transferred_of p u)) as ->.
  { unfold create_invocation. rewrite Hs, Hc. unfold too_early in He. unfold t, transferrable_of.
    destruct (is_download p); [by cbn; rewrite Hs|]. simpl in He. by rewrite He; cbn; rewrite Hs. }
  cbn beta iota. destruct (t <=? transferred_of p u); [done|].
  rewrite (reports_captured _ t) by done. by rewrite until_capture.
Qed.

(** A notifier that is not streaming reports nothing until the server knows the
    local changes that it was registered after; from then on every report is
    relative to the amount that was transferrable at that point, and the report that
    reaches this amount is the last one. *)
Theorem progress_reports_correct p us :
  is_streaming p = false → captured_transferrable p = None →
  reports p us =
    match skip_early p us with
    | [] => []
    | u :: us' => let t := transferrable_of p u in (λ u, (transferred_of p u, t)) <$> until p t (u :: us')
    end.
Proof.
  intros Hs Hc. induction us as [|u us IH]; [done|]. cbn [skip_early].
  destruct (too_early p u) eqn:He; [|by apply reports_first].
  etransitivity; [|exact IH]. cbn [reports]. unfold create_invocation. rewrite Hs, Hc.
  unfold too_early in He. apply andb_true_iff in He as [Hd ->]. by destruct (is_download p).
Qed.

(** ** Witnesses and examples *)

Lemma connection_witness :
  let client t := if t =? 1 then [do_remove 0; do_remove 1; do_remove 2] else [] in
  let n := ChangeNotifier [0; 1; 2; 3] npos 0 4 in
  ∃ n', invoke_callbacks client n = Some (n', [0; 1; 3]) ∧ m_callback_index n' = npos.
Proof.
  intros client n. apply (connection_callbacks_correct client n).
  - intros t a. unfold client. destruct (t =? 1); [|intros H; by inversion H].
    intros H. repeat (apply elem_of_cons in H as [->|H]; [done|]). by inversion H.
  - by apply (bool_decide_unpack (NoDup [0; 1; 2; 3])); vm_compute.
  - reflexivity.
  - reflexivity.
Defined.

Lemma progress_witness :
  let p := Package None 5 false false in
  reports p [Progress 10 0 1 0 4; Progress 30 0 2 0 5; Progress 50 0 20 0 6; Progress 50 0 31 0 7; Progress 50 0 40 0 8]
  = [(2, 30); (20, 30); (31, 30)].
Proof. intros p. etransitivity; [apply progress_reports_correct; reflexivity|reflexivity]. Defined.

(** C1: [remove_callback] counts every removal against the callbacks of the running
    notification, also the removal of a callback that was added during it: the
    first callback adds a callback and removes it again, and the second callback is
    never told of the change. *)
Theorem removing_added_callback_skips_another :
  let client t := if t =? 0 then [do_add; do_remove 2] else [] in
  let n := add_callback (add_callback new) in
  m_callbacks n = [0; 1] ∧
  (λ '(n', called), (m_callbacks n', called)) <$> invoke_callbacks client n = Some ([0; 1], [0]).
Proof. by vm_compute. Qed.
