(* ===== verification/DeepChange.v ===== *)
(** * Finding changes behind links

    Model of [DeepChangeChecker] and [get_modification_checker] of
    impl/collection_notifier.cpp: a row counts as modified when a row is modified
    that it links to over at most three links.  The tables belong to the database
    library; a [group] holds the functions of it that the code calls. *)

From stdpp Require Import gmap.
From S2P Require Import Prelude RangeSet IndexSetInterface ChangeBuilder.

(** [get_column_type], as far as it matters. *)
Inductive column_type := type_Link | type_LinkList | type_Other.

#[export] Instance column_type_eq_dec : EqDecision column_type.
Proof. solve_decision. Defined.

(** What the code reads of the tables, which are given by their index: the type and the
    link target of every column, and the links of a row (by column and row). *)
Record group := Group {
  g_columns : Z → list (column_type * Z);
  g_link : Z → Z → Z → option Z;
  g_linklist : Z → Z → Z → list Z
}.

(** [OutgoingLink], [RelatedTable] and [Path] *)
Record OutgoingLink := MkLink { col_ndx : Z; is_list : bool }.
Record RelatedTable := Related { table_ndx : Z; links : list OutgoingLink }.
Record PathEntry := Path { p_table : Z; p_row : Z; p_col : Z; depth_exceeded : bool }.

Module Deep.

(** ** The tables that are reachable *)

Fixpoint find_related_tables (fuel : nat) (g : group) (out : list RelatedTable) (table : Z) : option (list RelatedTable) :=
  match fuel with
  | O => None
  | S fuel =>
      if table =? npos then Some out else
      if existsb (λ t, table_ndx t =? table) out then Some out else
      let out_index := length out in
      foldM (λ '(i, (type, target)) out,
        match type with
        | type_Other => Some out
        | _ =>
            let link := MkLink (Z.of_nat i) (match type with type_LinkList => true | _ => false end) in
            find_related_tables fuel g (alter (λ t, Related (table_ndx t) (links t ++ [link])) out_index out) target
        end) (imap pair (g_columns g table)) (out ++ [Related table []])
  end.

Section checker.
Context {S : Type} `{IndexSets S}.
(** The tables, the changes of the transaction and [m_related_tables]. *)
Context (g : group) (tables : list (change_builder S)) (related : list RelatedTable).

(** [m_not_modified] and [m_current_path] *)
Record checker := Checker { m_not_modified : list S; m_current_path : list PathEntry }.

Definition mark (p : PathEntry) : PathEntry := Path (p_table p) (p_row p) (p_col p) true.

(** The entries from [i] to [j] get [depth_exceeded]. *)
Definition mark_from (i j : nat) (path : list PathEntry) : list PathEntry :=
  take i path ++ (mark <$> take (j - i) (drop i path)) ++ drop j path.

(** ** Rows and their links *)

Section links.
Variable check_row : Z → Z → nat → checker → option (checker * bool).

(** [already_checking] *)
Definition already_checking (table row col : Z) (depth : nat) (st : checker) : checker * bool :=
  let path := m_current_path st in
  let k := find_if (λ p, (p_table p =? table) && (p_row p =? row) && (p_col p =? col)) (take depth path) in
  if (k <? depth)%nat then (Checker (m_not_modified st) (mark_from k depth path), true)
  else (Checker (m_not_modified st) (<[depth := Path table row col false]> path), false).

Fixpoint any_row (target : Z) (rows : list Z) (depth : nat) (st : checker) : option (checker * bool) :=
  match rows with
  | [] => Some (st, false)
  | dst :: rows =>
      '(st, changed) ← check_row target dst depth st;
      if changed : bool then Some (st, true) else any_row target rows depth st
  end.

(** [linked_object_changed] *)
Definition linked_object_changed (table row : Z) (depth : nat) (link : OutgoingLink) (st : checker) : option (checker * bool) :=
  let '(st, skip) := already_checking table row (col_ndx link) depth st in
  if skip : bool then Some (st, false) else
  '(_, target) ← g_columns g table !! Z.to_nat (col_ndx link);
  if is_list link then any_row target (g_linklist g table (col_ndx link) row) (depth + 1) st
  else match g_link g table (col_ndx link) row with
       | None => Some (st, false)
       | Some dst => check_row target dst (depth + 1)%nat st
       end.

(** [std::any_of] *)
Fixpoint any_link (table row : Z) (depth : nat) (ls : list OutgoingLink) (st : checker) : option (checker * bool) :=
  match ls with
  | [] => Some (st, false)
  | link :: ls =>
      '(st, changed) ← linked_object_changed table row depth link st;
      if changed : bool then Some (st, true) else any_link table row depth ls st
  end.

Definition check_outgoing_links (table row : Z) (depth : nat) (st : checker) : option (checker * bool) :=
  match related !! find_if (λ t, table_ndx t =? table) related with
  | None => Some (st, false)
  | Some t => any_link table row depth (links t) st
  end.
End links.

(** [info.tables[table].modifications.contains(row)], where there is such a table. *)
Definition table_contains (table row : Z) : option bool :=
  if table <? Z.of_nat (length tables) then
    t ← tables !! Z.to_nat table; is_contains (modifications t) row
  else Some false.

Definition max_depth : nat := 4.

Fixpoint check_row (fuel : nat) (table idx : Z) (depth : nat) (st : checker) : option (checker * bool) :=
  match fuel with
  | O => None
  | Datatypes.S fuel =>
      if (length (m_current_path st) <=? depth)%nat
      then Some (Checker (m_not_modified st) (mark <$> m_current_path st), false) else
      modified ← (if (0 <? depth)%nat then table_contains table idx else Some false);
      if modified : bool then Some (st, true) else
      let sets := m_not_modified st in
      let sets := if Z.of_nat (length sets) <=? table then resize (Z.to_nat (table + 1)) is_new sets else sets in
      let st := Checker sets (m_current_path st) in
      s ← sets !! Z.to_nat table;
      known ← is_contains s idx;
      if known : bool then Some (st, false) else
      '(st, ret) ← check_outgoing_links (check_row fuel) table idx depth st;
      exceeded ← (if (0 <? depth)%nat then depth_exceeded <$> m_current_path st !! (depth - 1)%nat else Some false);
      if negb ret && ((depth =? 0)%nat || negb exceeded) then
        s ← m_not_modified st !! Z.to_nat table;
        s ← is_add s idx;
        Some (Checker (<[Z.to_nat table := s]> (m_not_modified st)) (m_current_path st), ret)
      else Some (st, ret)
  end.

(** [operator()] *)
Definition check (root : Z) (ndx : Z) (st : checker) : option (checker * bool) :=
  modified ← table_contains root ndx;
  if modified : bool then Some (st, true) else check_row (Datatypes.S max_depth) root ndx 0 st.

(** ** [get_modification_checker] *)

Definition table_modified (t : RelatedTable) : bool :=
  match tables !! Z.to_nat (table_ndx t) with Some c => negb (is_empty (modifications c)) | None => false end.

(** The checker that is chosen, as a function that may use the deep one. *)
Definition modification_checker (root : Z) (ndx : Z) (st : checker) : option (checker * bool) :=
  if negb (existsb table_modified related) then Some (st, false) else
  if (length related =? 1)%nat then
    r ← related !! 0%nat; t ← tables !! Z.to_nat (table_ndx r);
    b ← is_contains (modifications t) ndx; Some (st, b)
  else check root ndx st.
End checker.
End Deep.
