(* ===== verification/DeepChangeSpec.v ===== *)
(** * The deep change checker: correctness of the search

    The search skips the links it is already following, and remembers rows without
    changes; neither makes it miss a change that is at most three links away. *)

From stdpp Require Import gmap.
From S2P Require Import Prelude RangeSet IndexSetInterface ChangeBuilder DeepChange.
Import Deep.

Section deep.
Context {S : Type} {ops : IndexSets S} {laws : IndexSetLaws S}.
Variables (g : group) (tables : list (change_builder S)) (related : list RelatedTable).

(** ** What is to be found *)

Definition modified (t r : Z) : Prop := 0 <= t ∧ ∃ c, tables !! Z.to_nat t = Some c ∧ has (modifications c) r.

Definition edge (t r c t' r' : Z) : Prop :=
  0 <= c ∧ ∃ type, g_columns g t !! Z.to_nat c = Some (type, t') ∧
    match type with
    | type_Link => g_link g t c r = Some r'
    | type_LinkList => r' ∈ g_linklist g t c r
    | type_Other => False
    end.

(** A modified row is at least one and at most [n] links away. *)
Fixpoint near (n : nat) (t r : Z) : Prop :=
  match n with
  | O => False
  | Datatypes.S n => ∃ c t' r', edge t r c t' r' ∧ (modified t' r' ∨ near n t' r')
  end.

(** The same over links that are not in [A] and not repeated. *)
Fixpoint near_avoiding (n : nat) (A : list (Z * Z * Z)) (t r : Z) : Prop :=
  match n with
  | O => False
  | Datatypes.S n => ∃ c t' r', edge t r c t' r' ∧ ((t, r, c) ∉ A) ∧ (modified t' r' ∨ near_avoiding n (A ++ [(t, r, c)]) t' r')
  end.

Lemma near_mono n t r : near n t r → near (Datatypes.S n) t r.
Proof.
  revert t r. induction n as [|n IH]; intros t r; [done|].
  intros (c & t' & r' & He & [Hm|Hn]); exists c, t', r'; (split; [done|]); [by left|right; by apply IH].
Qed.

Lemma near_le n m t r : (n <= m)%nat → near n t r → near m t r.
Proof. induction 1 as [|m _ IH]; [done|]. intros Hn. by apply near_mono, IH. Qed.

Lemma near_avoiding_mono n A t r : near_avoiding n A t r → near_avoiding (Datatypes.S n) A t r.
Proof.
  revert A t r. induction n as [|n IH]; intros A t r; [done|].
  intros (c & t' & r' & He & Ha & [Hm|Hn]); exists c, t', r'; (split; [done|]); (split; [done|]); [by left|right; by apply IH].
Qed.

Lemma near_avoiding_near n A t r : near_avoiding n A t r → near n t r.
Proof.
  revert A t r. induction n as [|n IH]; intros A t r; [done|].
  intros (c & t' & r' & He & Ha & [Hm|Hn]); exists c, t', r'; (split; [done|]); [by left|right; by eapply IH].
Qed.

(** A shortest path repeats no link. *)
Lemma near_avoids n A t r :
  near n t r → (∀ x, x ∈ A → ¬ near n x.1.1 x.1.2) → ¬ ¬ near_avoiding n A t r.
Proof.
  revert A t r. induction n as [|n IH]; intros A t r Hn HA Hno; [done|].
  assert (¬ near n t r) as Hfar.
  { intros Hn'. apply (IH A t r Hn'); [|intros Hav; by apply Hno, near_avoiding_mono].
    intros x Hx Hnx. by apply (HA x Hx), near_mono. }
  assert (∀ c, (t, r, c) ∉ A) as Hc by (intros c Hin; by apply (HA _ Hin)).
  destruct Hn as (c & t' & r' & He & [Hm|Hn]).
  - apply Hno. exists c, t', r'. split; [done|]. split; [apply Hc|by left].
  - apply (IH (A ++ [(t, r, c)]) t' r' Hn).
    + intros x [Hx| ->%list_elem_of_singleton]%elem_of_app; [|done]. intros Hnx. by apply (HA x Hx), near_mono.
    + intros Hav. apply Hno. exists c, t', r'. split; [done|]. split; [apply Hc|by right].
Qed.

Lemma not_near n t r : ¬ near_avoiding n [] t r → ¬ near n t r.
Proof. intros Hno Hn. apply (near_avoids n [] t r Hn); [by intros x ?%elem_of_nil|done]. Qed.

(** ** Hypotheses on the tables *)

(** The link columns of a table. *)
Definition link_columns (t : Z) : list OutgoingLink :=
  omap (λ '(i, (type, _)), match type with
                           | type_Link => Some (MkLink (Z.of_nat i) false)
                           | type_LinkList => Some (MkLink (Z.of_nat i) true)
                           | type_Other => None
                           end) (imap pair (g_columns g t)).

Definition is_related (t : Z) : Prop := t ∈ table_ndx <$> related.

Definition in_bounds (z : Z) : Prop := 0 <= z < npos.

(** Rows and tables fit, and the related tables are complete. *)
Record well_linked : Prop := {
  wl_row t r c t' r' : edge t r c t' r' → in_bounds r';
  wl_table t : is_related t → in_bounds t;
  wl_links e : e ∈ related → links e = link_columns (table_ndx e);
  wl_closed t r c t' r' : is_related t → edge t r c t' r' → is_related t';
  wl_changes c : c ∈ tables → is_ok (modifications c)
}.
Hypothesis Hwl : well_linked.

Lemma link_columns_spec t c b :
  MkLink c b ∈ link_columns t ↔
  0 <= c ∧ ∃ type t', g_columns g t !! Z.to_nat c = Some (type, t') ∧
    match type with type_Link => b = false | type_LinkList => b = true | type_Other => False end.
Proof.
  unfold link_columns. rewrite list_elem_of_omap. split.
  - intros ([i [type t']] & (i' & x & [= <- <-] & Hx)%elem_of_lookup_imap & E).
    destruct type; simplify_eq; (split; [lia|]); rewrite Nat2Z.id; by eexists _, _.
  - intros (Hc & type & t' & Hl & Hb). exists (Z.to_nat c, (type, t')). split.
    + apply elem_of_lookup_imap. by eexists _, _.
    + destruct type; [subst b..|done]; by rewrite Z2Nat.id.
Qed.

(** ** The state of the search *)

Definition triple (p : PathEntry) : Z * Z * Z := (p_table p, p_row p, p_col p).

(** The links that are being followed, and whether the row they lead to may not be
    remembered. *)
Definition trail (d : nat) (st : checker (S := S)) : list (Z * Z * Z) := triple <$> take d (m_current_path st).
Definition flagged (st : checker (S := S)) (k : nat) : Prop :=
  ∃ p, m_current_path st !! k = Some p ∧ depth_exceeded p = true.

(** Remembered rows have no change within three links. *)
Record search_ok (st : checker (S := S)) : Prop := {
  so_length : length (m_current_path st) = max_depth;
  so_sets s : s ∈ m_not_modified st → is_ok s;
  so_memo t s r : m_not_modified st !! Z.to_nat t = Some s → 0 <= t → has s r → ¬ near 3 t r
}.

(** The path below [d] stays, but for flags that are set. *)
Record keeps_trail (d : nat) (st st' : checker (S := S)) : Prop := {
  kt_trail : trail d st' = trail d st;
  kt_flags k : (k < d)%nat → flagged st k → flagged st' k;
  kt_memo : (length (m_not_modified st) <= length (m_not_modified st'))%nat
}.

Lemma keeps_trail_refl d st : keeps_trail d st st.
Proof. by constructor. Qed.

Lemma keeps_trail_trans d st1 st2 st3 : keeps_trail d st1 st2 → keeps_trail d st2 st3 → keeps_trail d st1 st3.
Proof.
  intros [A1 A2 A3] [B1 B2 B3]. constructor; [by rewrite B1| |lia]. intros k Hk Hf. by apply B2, A2.
Qed.

Lemma trail_le d d' st st' : (d <= d')%nat → trail d' st' = trail d' st → trail d st' = trail d st.
Proof.
  intros Hd E. unfold trail in *. apply (f_equal (take d)) in E. rewrite <- !fmap_take, !take_take in E.
  by rewrite Nat.min_l in E.
Qed.

Lemma keeps_trail_le d d' st st' : (d <= d')%nat → keeps_trail d' st st' → keeps_trail d st st'.
Proof. intros Hd [A1 A2 A3]. constructor; [by eapply trail_le| |done]. intros k Hk. apply A2. lia. Qed.

Lemma mark_from_lookup i j (path : list PathEntry) k :
  (i <= j)%nat → mark_from i j path !! k = (if decide (i <= k < j)%nat then mark else id) <$> path !! k.
Proof.
  intros Hij. unfold mark_from. destruct (decide (k < length path)%nat) as [Hk|Hk].
  2: { rewrite (lookup_ge_None_2 path k) by lia. simpl. apply lookup_ge_None_2.
       rewrite !length_app, length_fmap, !length_take, !length_drop. lia. }
  destruct (decide (k < i)%nat) as [H1|H1].
  - rewrite lookup_app_l by (rewrite length_take; lia). rewrite lookup_take_lt by done.
    rewrite decide_False by lia. by destruct (path !! k).
  - rewrite lookup_app_r by (rewrite length_take; lia). rewrite length_take.
    destruct (decide (k < j)%nat) as [H2|H2].
    + rewrite lookup_app_l by (rewrite length_fmap, length_take, length_drop; lia).
      rewrite list_lookup_fmap, lookup_take_lt, lookup_drop by lia. rewrite decide_True by lia. do 2 f_equal. lia.
    + rewrite lookup_app_r by (rewrite length_fmap, length_take, length_drop; lia).
      rewrite length_fmap, length_take, length_drop, lookup_drop, decide_False by lia.
      replace (j + _)%nat with k by lia. by destruct (path !! k).
Qed.

Lemma trail_lookup d st k : (k < d)%nat → trail d st !! k = triple <$> m_current_path st !! k.
Proof. intros Hk. unfold trail. by rewrite list_lookup_fmap, lookup_take_lt. Qed.

Lemma trail_length d st : (d <= length (m_current_path st))%nat → length (trail d st) = d.
Proof. intros Hd. unfold trail. rewrite length_fmap, length_take. lia. Qed.

Lemma trail_ext d st st' : (∀ k, (k < d)%nat → triple <$> m_current_path st' !! k = triple <$> m_current_path st !! k) → trail d st' = trail d st.
Proof.
  intros Hk. apply list_eq. intros k. destruct (decide (k < d)%nat).
  - rewrite !trail_lookup by done. by apply Hk.
  - unfold trail. by rewrite !list_lookup_fmap, !lookup_take_ge by lia.
Qed.

(** A link is skipped when it is being followed, and then every row on the way from
    there may not be remembered; otherwise it is put on the path. *)
Lemma already_checking_spec table row col d st :
  (d < length (m_current_path st))%nat →
  ∃ st' skip, already_checking table row col d st = (st', skip) ∧ m_not_modified st' = m_not_modified st ∧
    length (m_current_path st') = length (m_current_path st) ∧ keeps_trail d st st' ∧
    if skip : bool
    then ∃ m, trail d st !! m = Some (table, row, col) ∧ ∀ k, (m <= k < d)%nat → flagged st' k
    else (table, row, col) ∉ trail d st ∧ trail (d + 1) st' = trail d st ++ [(table, row, col)].
Proof.
  intros Hd. unfold already_checking. set (path := m_current_path st) in *.
  set (q := λ p, (p_table p =? table) && (p_row p =? row) && (p_col p =? col)).
  assert (∀ p, q p = true ↔ triple p = (table, row, col)) as Hq.
  { intros p. unfold q, triple. rewrite !andb_true_iff, !Z.eqb_eq. split; [intros [[-> ->] ->]; done|intros [= -> -> ->]; done]. }
  assert (length (take d path) = d) as Hl by (rewrite length_take; lia).
  destruct (find_if_spec q (take d path)) as [[E Hn]|(l1 & p & l2 & E & -> & Hl1 & Hp)].
  - rewrite E, Hl, Nat.ltb_irrefl. eexists _, false. split; [done|]. split; [done|]. simpl.
    split; [by rewrite length_insert|].
    assert (∀ k, (k < d)%nat → <[d := Path table row col false]> path !! k = path !! k) as Hk.
    { intros k Hk. by rewrite list_lookup_insert_ne by lia. }
    split; [constructor; [| |done]|].
    + apply trail_ext. intros k Hkd. simpl. by rewrite Hk.
    + intros k Hkd (p & Hp & Hf). exists p. simpl. by rewrite Hk.
    + split.
      * unfold trail. fold path. intros (p & Ep & Hp)%list_elem_of_fmap. rewrite Forall_forall in Hn. specialize (Hn p Hp).
        symmetry in Ep. apply Hq in Ep. congruence.
      * unfold trail. simpl. rewrite Nat.add_1_r, (take_S_r _ _ (Path table row col false)) by (by apply list_lookup_insert_eq).
        by rewrite fmap_app, take_insert_ge by lia.
  - assert (length l1 < d)%nat as Hlt by (rewrite <- Hl, E, length_app; simpl; lia).
    rewrite (proj2 (Nat.ltb_lt _ _)) by done. eexists _, true. split; [done|]. split; [done|]. simpl.
    split; [unfold mark_from; rewrite !length_app, length_fmap, !length_take, !length_drop; lia|].
    split; [constructor; [| |done]|exists (length l1); split].
    + apply trail_ext. intros k Hkd. simpl. rewrite mark_from_lookup by lia. fold path. destruct (path !! k); [|done].
      simpl. by destruct (decide _).
    + intros k Hkd (p' & Hp' & Hf). simpl. unfold flagged. simpl. rewrite mark_from_lookup by lia. fold path in Hp'.
      rewrite Hp'. simpl. destruct (decide _); by eexists.
    + unfold trail. fold path. rewrite E, list_lookup_fmap, lookup_middle. simpl. f_equal. by apply Hq.
    + intros k Hk. unfold flagged. simpl. rewrite mark_from_lookup by lia. rewrite decide_True by lia.
      destruct (lookup_lt_is_Some_2 path k) as [p' ->]; [lia|]. simpl. by eexists.
Qed.

(** ** One row *)

(** What a search from a row at depth [d] says. *)
Definition row_post (d : nat) (t r : Z) (st st' : checker (S := S)) (b : bool) : Prop :=
  search_ok st' ∧ keeps_trail d st st' ∧
  if b then ((0 < d < 4)%nat ∧ modified t r) ∨ near (3 - d) t r
  else ((0 < d < 4)%nat → ¬ modified t r) ∧ ¬ near_avoiding (3 - d) (trail d st) t r ∧
       ∀ k, (1 <= k <= d)%nat → ¬ flagged st' (k - 1) → ¬ modified t r ∧ ¬ near_avoiding 3 (drop k (trail d st)) t r.

Section links.
Variables (rec : Z → Z → nat → checker (S := S) → option (checker (S := S) * bool)) (d : nat).
Hypothesis d_small : (d < 4)%nat.
Hypothesis rec_spec : ∀ t r st, search_ok st → is_related t → in_bounds r →
  ∃ st' b, rec t r (d + 1) st = Some (st', b) ∧ row_post (d + 1) t r st st' b.

(** The row behind a link, after the search. *)
Definition clean (P : list (Z * Z * Z)) (st : checker (S := S)) (e : Z * Z * Z) (t r : Z) : Prop :=
  ((d < 3)%nat → ¬ modified t r) ∧ ¬ near_avoiding (3 - (d + 1)) (P ++ [e]) t r ∧
  ∀ k, (1 <= k <= d)%nat → ¬ flagged st (k - 1) → ¬ modified t r ∧ ¬ near_avoiding 3 (drop k P ++ [e]) t r.

Lemma clean_keeps P st st' e t r : keeps_trail d st st' → clean P st e t r → clean P st' e t r.
Proof.
  intros [_ Hf _] (H1 & H2 & H3). split; [done|]. split; [done|]. intros k Hk Hn. apply H3; [done|].
  intros Hn'. apply Hn, Hf; [lia|done].
Qed.

Lemma any_row_spec P e target rows st :
  search_ok st → is_related target → (∀ r, r ∈ rows → in_bounds r) → trail (d + 1) st = P ++ [e] → length P = d →
  ∃ st' b, any_row rec target rows (d + 1) st = Some (st', b) ∧ search_ok st' ∧ keeps_trail (d + 1) st st' ∧
    if b : bool then (d < 3)%nat ∧ ∃ r, r ∈ rows ∧ (modified target r ∨ near (3 - (d + 1)) target r)
    else ∀ r, r ∈ rows → clean P st' e target r.
Proof using d_small rec_spec.
  intros Hst Ht. revert st Hst. induction rows as [|r rows IH]; intros st Hst Hr Htr HP; cbn [any_row].
  { exists st, false. split; [done|]. split; [done|]. split; [apply keeps_trail_refl|]. by intros r ?%elem_of_nil. }
  destruct (rec_spec target r st Hst Ht) as (st1 & b & -> & Hok & Hk & Hb); [apply Hr; by left|]. cbn [mbind option_bind].
  destruct b.
  - exists st1, true. split; [done|]. split; [done|]. split; [done|].
    destruct Hb as [[? ?]|Hn]; (split; [|exists r; split; [by left|]]); [lia|by left| |by right].
    destruct (decide (d < 3)%nat); [done|]. replace (3 - (d + 1))%nat with 0%nat in Hn by lia. done.
  - destruct (IH st1 Hok) as (st2 & b & -> & Hok2 & Hk2 & Hb2).
    { intros x Hx. apply Hr. by right. } { by rewrite (kt_trail _ _ _ Hk). } { done. }
    exists st2, b. split; [done|]. split; [done|]. split; [by eapply keeps_trail_trans|]. destruct b.
    + destruct Hb2 as (? & x & Hx & ?). split; [done|]. exists x. split; [by right|done].
    + intros x [->|Hx]%elem_of_cons; [|by apply Hb2]. destruct Hb as (H1 & H2 & H3). rewrite Htr in H2, H3.
      split; [intros ?; apply H1; lia|]. split; [done|]. intros k Hkd Hn.
      rewrite <- drop_app_le by lia. apply H3; [lia|]. intros Hf. apply Hn, (kt_flags _ _ _ Hk2); [lia|done].
Qed.

(** The outcome for one link column: skipped, or clean behind it. *)
Definition link_done (P : list (Z * Z * Z)) (st : checker (S := S)) (table row c : Z) : Prop :=
  (∃ m, P !! m = Some (table, row, c) ∧ ∀ k, (m <= k < d)%nat → flagged st k) ∨
  ∀ t' r', edge table row c t' r' → clean P st (table, row, c) t' r'.

Lemma link_done_keeps P st st' table row c : keeps_trail d st st' → link_done P st table row c → link_done P st' table row c.
Proof.
  intros Hk [(m & Hm & Hf)|Hc]; [left|right].
  - exists m. split; [done|]. intros k Hkd. apply (kt_flags _ _ _ Hk); [lia|]. by apply Hf.
  - intros t' r' He. eapply clean_keeps; [done|]. by apply Hc.
Qed.

Lemma linked_object_spec table row c l st :
  search_ok st → is_related table → MkLink c l ∈ link_columns table →
  ∃ st' b, linked_object_changed g rec table row d (MkLink c l) st = Some (st', b) ∧ search_ok st' ∧ keeps_trail d st st' ∧
    if b : bool then (d < 3)%nat ∧ ∃ t' r', edge table row c t' r' ∧ (modified t' r' ∨ near (3 - (d + 1)) t' r')
    else link_done (trail d st) st' table row c.
Proof using d_small rec_spec Hwl.
  intros Hst Ht Hl. unfold linked_object_changed. cbn [col_ndx is_list].
  destruct (already_checking_spec table row c d st) as (st1 & skip & -> & E1 & E2 & Hk & Hskip).
  { by rewrite (so_length _ Hst). }
  assert (search_ok st1) as Hst1.
  { destruct Hst as [S1 S2 S3]. constructor; rewrite ?E1, ?E2; done. }
  destruct skip; [exists st1, false; split; [done|]; split; [done|]; split; [done|]; by left|].
  destruct Hskip as [Hn Htr]. apply link_columns_spec in Hl as (Hc & type & target & Hcol & Hty). rewrite Hcol. cbn [mbind option_bind].
  assert (length (trail d st) = d) as HP by (apply trail_length; rewrite (so_length _ Hst); unfold max_depth; lia).
  destruct type; [subst l|subst l|done].
  - destruct (g_link g table c row) as [dst|] eqn:El.
    + assert (edge table row c target dst) as He by (split; [done|]; by exists type_Link).
      destruct (any_row_spec (trail d st) (table, row, c) target [dst] st1) as (st2 & b & E & Hok & Hk2 & Hb);
        [done|by eapply (wl_closed Hwl)|intros r ->%list_elem_of_singleton; by eapply (wl_row Hwl)|done|done|].
      cbn [any_row] in E. destruct (rec target dst (d + 1) st1) as [[st2' b']|]; [|done]. cbn [mbind option_bind] in E.
      assert (Some (st2', b') = Some (st2, b)) as -> by (destruct b'; done).
      exists st2, b. split; [done|]. split; [done|]. split.
      { eapply keeps_trail_trans; [done|]. eapply keeps_trail_le; [|done]. lia. }
      destruct b.
      * destruct Hb as (? & r & ->%list_elem_of_singleton & ?). split; [done|]. by exists target, dst.
      * right. intros t' r' (_ & type & Hcol' & He'). rewrite Hcol in Hcol'. injection Hcol' as <- <-.
        rewrite El in He'. injection He' as <-. apply Hb. by left.
    + exists st1, false. split; [done|]. split; [done|]. split; [done|]. right.
      intros t' r' (_ & type & Hcol' & He'). rewrite Hcol in Hcol'. injection Hcol' as <- <-. congruence.
  - assert (∀ dst, dst ∈ g_linklist g table c row → edge table row c target dst) as He.
    { intros dst Hd. split; [done|]. by exists type_LinkList. }
    destruct (g_linklist g table c row) as [|r0 rs] eqn:Ers.
    { exists st1, false. split; [done|]. split; [done|]. split; [done|]. right.
      intros t' r' (_ & type & Hcol' & He'). rewrite Hcol in Hcol'. injection Hcol' as <- <-.
      rewrite Ers in He'. by apply elem_of_nil in He'. }
    rewrite <- Ers in *.
    destruct (any_row_spec (trail d st) (table, row, c) target (g_linklist g table c row) st1) as (st2 & b & -> & Hok & Hk2 & Hb);
      [done| |intros r Hr; eapply (wl_row Hwl); by apply He|done|done|].
    { eapply (wl_closed Hwl); [done|]. apply (He r0). rewrite Ers. by left. }
    exists st2, b. split; [done|]. split; [done|]. split.
    { eapply keeps_trail_trans; [done|]. eapply keeps_trail_le; [|done]. lia. }
    destruct b.
    + destruct Hb as (? & r & Hr & ?). split; [done|]. exists target, r. split; [by apply He|done].
    + right. intros t' r' (_ & type & Hcol' & He'). rewrite Hcol in Hcol'. injection Hcol' as <- <-. by apply Hb.
Qed.

Lemma any_link_spec table row ls st :
  search_ok st → is_related table → (∀ l, l ∈ ls → l ∈ link_columns table) →
  ∃ st' b, any_link g rec table row d ls st = Some (st', b) ∧ search_ok st' ∧ keeps_trail d st st' ∧
    if b : bool then near (3 - d) table row
    else ∀ l, l ∈ ls → link_done (trail d st) st' table row (col_ndx l).
Proof using d_small rec_spec Hwl.
  intros Hst Ht. revert st Hst. induction ls as [|[c l] ls IH]; intros st Hst Hls; cbn [any_link].
  { exists st, false. split; [done|]. split; [done|]. split; [apply keeps_trail_refl|]. by intros r ?%elem_of_nil. }
  destruct (linked_object_spec table row c l st Hst Ht) as (st1 & b & -> & Hok & Hk & Hb); [apply Hls; by left|].
  cbn [mbind option_bind]. destruct b.
  - exists st1, true. split; [done|]. split; [done|]. split; [done|]. destruct Hb as (Hd & t' & r' & He & Hb).
    replace (3 - d)%nat with (Datatypes.S (3 - (d + 1))) by lia. by exists c, t', r'.
  - destruct (IH st1 Hok) as (st2 & b & -> & Hok2 & Hk2 & Hb2); [intros x Hx; apply Hls; by right|].
    exists st2, b. split; [done|]. split; [done|]. split; [by eapply keeps_trail_trans|]. destruct b; [done|].
    rewrite (kt_trail _ _ _ Hk) in Hb2. intros x [->|Hx]%elem_of_cons; [|by apply Hb2].
    by eapply link_done_keeps.
Qed.

Lemma outgoing_spec t r st :
  search_ok st → is_related t → in_bounds r →
  ∃ st' b, check_outgoing_links g related rec t r d st = Some (st', b) ∧ search_ok st' ∧ keeps_trail d st st' ∧
    if b : bool then near (3 - d) t r
    else ∀ l, l ∈ link_columns t → link_done (trail d st) st' t r (col_ndx l).
Proof using d_small rec_spec Hwl.
  intros Hst Ht Hr. unfold check_outgoing_links.
  destruct (find_if_spec (λ e, table_ndx e =? t) related) as [[_ Hn]|(l1 & e & l2 & E & -> & _ & He%Z.eqb_eq)].
  - exfalso. apply list_elem_of_fmap in Ht as (e & -> & He). rewrite Forall_forall in Hn.
    specialize (Hn e He). by rewrite Z.eqb_refl in Hn.
  - assert (links e = link_columns t) as El.
    { rewrite <- He. apply (wl_links Hwl). rewrite E. apply elem_of_app. right. by left. }
    rewrite E, lookup_middle, El. by apply any_link_spec.
Qed.
End links.

(** The row is clean when all its links are. *)
Lemma links_clean d table row st st' :
  (d < 4)%nat → length (trail d st) = d → (∀ l, l ∈ link_columns table → link_done d (trail d st) st' table row (col_ndx l)) →
  ¬ near_avoiding (3 - d) (trail d st) table row ∧
  ∀ k, (1 <= k <= d)%nat → ¬ flagged st' (k - 1) → ¬ near_avoiding 3 (drop k (trail d st)) table row.
Proof.
  intros Hd HP Hl.
  assert (∀ c t' r', edge table row c t' r' → link_done d (trail d st) st' table row c) as He.
  { intros c t' r' (Hc & type & Hcol & Hty).
    assert (MkLink c (match type with type_LinkList => true | _ => false end) ∈ link_columns table) as Hin; [|by apply (Hl _ Hin)].
    apply link_columns_spec. split; [done|]. exists type, t'. split; [done|]. by destruct type. }
  split.
  - destruct (decide (d < 3)%nat) as [Hlt|]; [|replace (3 - d)%nat with 0%nat by lia; by intros ?].
    replace (3 - d)%nat with (Datatypes.S (3 - (d + 1))) by lia. intros (c & t' & r' & Hed & Hn & Hb).
    destruct (He c t' r' Hed) as [(m & Hm & _)|Hcl].
    + apply Hn. by eapply list_elem_of_lookup_2.
    + destruct (Hcl t' r' Hed) as (H1 & H2 & _). destruct Hb; [by apply H1|by apply H2].
  - intros k Hk Hf (c & t' & r' & Hed & Hn & Hb). destruct (He c t' r' Hed) as [(m & Hm & Hfl)|Hcl].
    + destruct (decide (k <= m)%nat) as [Hkm|Hkm].
      * apply Hn. apply (list_elem_of_lookup_2 _ (m - k)). rewrite lookup_drop. by replace (k + (m - k))%nat with m by lia.
      * apply Hf, Hfl. lia.
    + destruct (Hcl t' r' Hed) as (_ & _ & H3). destruct (H3 k Hk Hf) as [H1 H2].
      destruct Hb as [?|Hb]; [done|]. apply H2. by apply near_avoiding_mono.
Qed.

Lemma table_contains_spec t r :
  in_bounds t → ∃ b, table_contains tables t r = Some b ∧ (b = true ↔ modified t r).
Proof using Hwl.
  intros Ht. unfold table_contains, modified. destruct (Z.ltb_spec t (Z.of_nat (length tables))) as [Hlt|Hge].
  - destruct (lookup_lt_is_Some_2 tables (Z.to_nat t)) as [c Ec]; [unfold in_bounds in Ht; lia|]. rewrite Ec. cbn [mbind option_bind].
    rewrite is_contains_law by (apply (wl_changes Hwl); by eapply list_elem_of_lookup_2). eexists. split; [done|].
    rewrite memb_mem. split; [intros Hm; split; [apply Ht|by exists c]|]. by intros (_ & c' & [= <-] & Hm).
  - exists false. split; [done|]. split; [done|]. intros (_ & c & Hc & _). apply lookup_lt_Some in Hc. unfold in_bounds in Ht. lia.
Qed.

Lemma search_ok_sets st sets :
  search_ok st → (∀ s, s ∈ sets → is_ok s) →
  (∀ t s r, sets !! Z.to_nat t = Some s → 0 <= t → has s r → ¬ near 3 t r) → search_ok (Checker sets (m_current_path st)).
Proof. intros [H1 _ _] H2 H3. by constructor. Qed.

(** [m_not_modified] grows with empty sets. *)
Lemma grow_ok st t :
  search_ok st → in_bounds t →
  let sets := m_not_modified st in
  let sets := if Z.of_nat (length sets) <=? t then resize (Z.to_nat (t + 1)) is_new sets else sets in
  search_ok (Checker sets (m_current_path st)) ∧ (Z.to_nat t < length sets)%nat ∧ (length (m_not_modified st) <= length sets)%nat.
Proof.
  intros Hst Ht sets0 sets. unfold in_bounds in Ht. destruct (Z.leb_spec (Z.of_nat (length sets0)) t) as [Hle|Hlt]; subst sets.
  - rewrite resize_ge by lia. split; [|rewrite length_app, length_replicate; fold sets0; lia]. apply search_ok_sets; [done| |].
    + intros s [Hs|Hs]%elem_of_app; [by apply (so_sets _ Hst)|]. apply elem_of_replicate in Hs as [-> _]. apply is_new_ok.
    + intros t' s r [Hs|[_ Hs]]%lookup_app_Some Ht' Hr; [by apply (so_memo _ Hst t' s r)|].
      apply lookup_replicate in Hs as [-> _]. exfalso. destruct is_new_ok as [_ E]. unfold has in Hr. rewrite E in Hr. by apply mem_nil in Hr.
  - fold sets0. split; [by destruct st|lia].
Qed.

(** A row is remembered only when nothing is within three links. *)
Lemma remember_ok st t r :
  search_ok st → in_bounds t → in_bounds r → (Z.to_nat t < length (m_not_modified st))%nat → ¬ near 3 t r →
  ∃ s s', m_not_modified st !! Z.to_nat t = Some s ∧ is_add s r = Some s' ∧
    search_ok (Checker (<[Z.to_nat t := s']> (m_not_modified st)) (m_current_path st)).
Proof.
  intros Hst Ht Hr Hl Hn. destruct (lookup_lt_is_Some_2 _ _ Hl) as [s Es].
  destruct (is_add_law s r) as (s' & Ea & Hs' & Hh); [apply (so_sets _ Hst); by eapply list_elem_of_lookup_2|done|].
  exists s, s'. split; [done|]. split; [done|]. apply search_ok_sets; [done| |].
  - intros x Hx. apply list_elem_of_lookup in Hx as [i Hx].
    apply list_lookup_insert_Some in Hx as [(_ & <- & _)|[_ Hx]]; [done|].
    apply (so_sets _ Hst). by eapply list_elem_of_lookup_2.
  - intros t' x r' [(E & <- & _)|[_ Hx]]%list_lookup_insert_Some Ht' Hx'.
    + replace t' with t by (unfold in_bounds in Ht; lia). apply Hh in Hx' as [->|Hx']; [done|]. apply (so_memo _ Hst t s); [done|apply Ht|done].
    + by apply (so_memo _ Hst t' x).
Qed.

Lemma exceeded_spec st d :
  search_ok st → (d < 4)%nat → ∃ b, (if (0 <? d)%nat then depth_exceeded <$> m_current_path st !! (d - 1)%nat else Some false) = Some b ∧
    ((0 < d)%nat → b = false → ¬ flagged st (d - 1)).
Proof.
  intros Hst Hd. pose proof (so_length _ Hst) as Hlen. unfold max_depth in Hlen. destruct (Nat.ltb_spec 0 d) as [H0|H0].
  - destruct (lookup_lt_is_Some_2 (m_current_path st) (d - 1)) as [p Hp]; [lia|]. rewrite Hp. eexists. split; [done|].
    intros _ Hf (p' & Hp' & Hf'). congruence.
  - exists false. split; [done|lia].
Qed.

Lemma check_row_spec fuel d t r st :
  (5 <= fuel + d)%nat → (d <= 4)%nat → search_ok st → is_related t → in_bounds r →
  ∃ st' b, check_row g tables related fuel t r d st = Some (st', b) ∧ row_post d t r st st' b.
Proof using Hwl.
  revert d t r st. induction fuel as [|fuel IH]; intros d t r st Hf Hd Hst Ht Hr; [lia|]. cbn [check_row].
  pose proof (so_length _ Hst) as Hlen. unfold max_depth in Hlen. rewrite Hlen.
  destruct (Nat.leb_spec 4 d) as [H4|H4].
  { eexists _, false. split; [done|]. split; [|split].
    - destruct Hst as [S1 S2 S3]. constructor; [simpl; by rewrite length_fmap|done|done].
    - constructor; [apply trail_ext; intros k Hk; simpl; rewrite list_lookup_fmap; by destruct (m_current_path st !! k)| |done].
      intros k Hk (p & Hp & Hfl). exists (mark p). split; [|done]. simpl. by rewrite list_lookup_fmap, Hp.
    - split; [lia|]. split; [replace (3 - d)%nat with 0%nat by lia; by intros ?|]. intros k Hk Hn. destruct Hn.
      destruct (lookup_lt_is_Some_2 (m_current_path st) (k - 1)) as [p Hp]; [lia|].
      exists (mark p). split; [|done]. simpl. by rewrite list_lookup_fmap, Hp. }
  pose proof (wl_table Hwl t Ht) as Htb.
  assert (∃ b, (if (0 <? d)%nat then table_contains tables t r else Some false) = Some b ∧ (b = true ↔ (0 < d)%nat ∧ modified t r))
    as (b & -> & Hb).
  { destruct (Nat.ltb_spec 0 d) as [H0|H0].
    - destruct (table_contains_spec t r Htb) as (b & -> & Hb). exists b. split; [done|]. rewrite Hb. tauto.
    - exists false. split; [done|]. split; [done|lia]. }
  cbn [mbind option_bind]. destruct b.
  { exists st, true. split; [done|]. split; [done|]. split; [apply keeps_trail_refl|]. left. destruct (proj1 Hb eq_refl). split; [lia|done]. }
  assert ((0 < d)%nat → ¬ modified t r) as Hnm by (intros ? ?; assert (false = true) by (apply Hb; by split); done).
  destruct (grow_ok st t Hst Htb) as (Hst1 & Hl & Hl'). cbv zeta in Hst1, Hl, Hl' |- *.
  set (sets := if Z.of_nat (length (m_not_modified st)) <=? t then _ else _) in *.
  set (st1 := Checker sets (m_current_path st)) in *.
  destruct (lookup_lt_is_Some_2 sets _ Hl) as [s Es]. rewrite Es. cbn [mbind option_bind].
  assert (is_ok s) as Hs by (apply (so_sets _ Hst1); by eapply list_elem_of_lookup_2).
  rewrite is_contains_law by done. cbn [mbind option_bind].
  assert (keeps_trail d st st1) as Hk1 by done.
  destruct (memb r (is_ranges s)) eqn:Em.
  { exists st1, false. split; [done|]. split; [done|]. split; [done|]. apply memb_mem in Em.
    assert (¬ near 3 t r) as Hn by (apply (so_memo _ Hst1 t s r); [done|apply Htb|done]).
    split; [intros ?; apply Hnm; lia|]. split; [intros Hav%near_avoiding_near; apply Hn; eapply near_le; [|done]; lia|].
    intros k Hk _. split; [apply Hnm; lia|]. by intros Hav%near_avoiding_near. }
  destruct (lookup_lt_is_Some_2 sets _ Hl) as [s0 Es0].
  assert (length (trail d st1) = d) as HP by (apply trail_length; simpl; lia).
  destruct (outgoing_spec (check_row g tables related fuel) d H4) with (t := t) (r := r) (st := st1) as (st2 & b & -> & Hok2 & Hk2 & Hb2); [|done..|].
  { intros t' r' st' Hst' Ht' Hr'. apply IH; [lia|lia|done..]. }
  cbn [mbind option_bind]. destruct (exceeded_spec st2 d Hok2 H4) as (ex & -> & Hex). cbn [mbind option_bind].
  assert (keeps_trail d st st2) as Hk by (by eapply keeps_trail_trans).
  destruct b; cbn [negb andb].
  { exists st2, true. split; [done|]. split; [done|]. split; [done|]. by right. }
  destruct (links_clean d t r st1 st2 H4 HP Hb2) as [Hc1 Hc2].
  change (trail d st1) with (trail d st) in *.
  assert (∀ k, (1 <= k <= d)%nat → ¬ flagged st2 (k - 1) → ¬ modified t r ∧ ¬ near_avoiding 3 (drop k (trail d st)) t r) as Hc3
    by (intros k Hk3 Hf3; split; [apply Hnm; lia|by apply Hc2]).
  destruct ((d =? 0)%nat || negb ex) eqn:Eex.
  2: { exists st2, false. split; [done|]. split; [done|]. split; [done|]. split; [intros ?; apply Hnm; lia|]. by split. }
  destruct (remember_ok st2 t r Hok2 Htb Hr) as (s1 & s2 & -> & Ha & Hok3).
  { pose proof (kt_memo _ _ _ Hk2) as Hm. simpl in Hm. lia. }
  { apply not_near. apply orb_true_iff in Eex as [E0%Nat.eqb_eq|Eex%negb_true_iff].
    - subst d. apply Hc1.
    - destruct (decide (d = 0%nat)) as [->|Hd0]; [apply Hc1|]. rewrite <- (drop_ge (trail d st) d) by lia. apply Hc2; [lia|].
      apply Hex; [lia|done]. }
  cbn [mbind option_bind]. rewrite Ha. cbn [mbind option_bind]. eexists _, false. split; [done|]. split; [done|]. split.
  { eapply keeps_trail_trans; [done|]. constructor; [done|by intros|]. simpl. by rewrite length_insert. }
  split; [intros ?; apply Hnm; lia|]. by split.
Qed.
End deep.
