(* ===== verification/DeepChangeTheorems.v ===== *)
(** * The tables a table links to

    [find_related_tables] terminates and finds every table that is reachable, each
    once and with all of its link columns. *)

From stdpp Require Import relations gmap.
From S2P Require Import Prelude RangeSet RangeVector IndexSetOps IndexSetSpec IndexSetTheorems IndexSetInterface ChangeBuilder DeepChange DeepChangeSpec.

Import Deep.

Section related.
Variable g : group.

(** A link column leads from one table to the other. *)
Definition table_link (t t' : Z) : Prop :=
  ∃ i type, g_columns g t !! i = Some (type, t') ∧ type ≠ type_Other.

(** The tables of [U] link to tables of [U], all of them in the group. *)
Record closed (U : list Z) : Prop := {
  cl_bounds t : t ∈ U → in_bounds t;
  cl_links t t' : t ∈ U → table_link t t' → t' ∈ U
}.

Definition tables_of (out : list RelatedTable) : list Z := table_ndx <$> out.

Lemma tables_of_app l1 l2 : tables_of (l1 ++ l2) = tables_of l1 ++ tables_of l2.
Proof. apply fmap_app. Qed.

Lemma tables_of_cons e l : tables_of (e :: l) = table_ndx e :: tables_of l.
Proof. done. Qed.

(** An entry with all of its links, whose targets are among the tables [ts]. *)
Definition complete (ts : list Z) (e : RelatedTable) : Prop :=
  links e = link_columns g (table_ndx e) ∧ ∀ t', table_link (table_ndx e) t' → t' ∈ ts.

Lemma complete_app ts l e : complete ts e → complete (ts ++ l) e.
Proof. intros [H1 H2]. split; [done|]. intros t' Ht. apply elem_of_app. left. by apply H2. Qed.

(** ** One call *)

(** A call appends complete entries of tables that are reachable from [t]. *)
Definition extends (U : list Z) (ts : list Z) (t : Z) (new : list Z) : Prop :=
  t ∈ ts ++ new ∧ NoDup (ts ++ new) ∧ ∀ x, x ∈ new → x ∈ U ∧ rtc table_link t x.

Definition link_of (p : nat * (column_type * Z)) : option OutgoingLink :=
  let '(i, (type, _)) := p in
  match type with
  | type_Link => Some (MkLink (Z.of_nat i) false)
  | type_LinkList => Some (MkLink (Z.of_nat i) true)
  | type_Other => None
  end.

Lemma alter_middle f (l1 : list RelatedTable) x l2 : alter f (length l1) (l1 ++ x :: l2) = l1 ++ f x :: l2.
Proof. induction l1 as [|y l1 IH]; simpl; [done|]. by f_equal. Qed.

Section loop.
Variables (fuel : nat) (U : list Z) (t : Z) (out : list RelatedTable).
Hypothesis U_closed : closed U.
Hypothesis t_in : t ∈ U.
Hypothesis IH : ∀ out t, t ∈ U → NoDup (tables_of out) → (∀ x, x ∈ tables_of out → x ∈ U) → (length U < fuel + length out)%nat →
  ∃ new, find_related_tables fuel g out t = Some (out ++ new) ∧ extends U (tables_of out) t (tables_of new) ∧ ∀ e, e ∈ new → complete (tables_of out ++ tables_of new) e.
Hypothesis fuel_enough : (length U <= fuel + length out)%nat.

Let body := λ '(i, (type, target)) out0,
  match type with
  | type_Other => Some out0
  | _ =>
      let link := MkLink (Z.of_nat i) (match type with type_LinkList => true | _ => false end) in
      find_related_tables fuel g (alter (λ t, Related (table_ndx t) (links t ++ [link])) (length out) out0) target
  end.

Lemma columns_spec todo ls new :
  (∀ i type t', (i, (type, t')) ∈ todo → g_columns g t !! i = Some (type, t')) →
  (∀ x, x ∈ tables_of out → x ∈ U) →
  extends U (tables_of out) t (t :: tables_of new) → (∀ e, e ∈ new → complete (tables_of out ++ t :: tables_of new) e) →
  ∃ new', foldM body todo (out ++ Related t ls :: new) = Some (out ++ Related t (ls ++ omap link_of todo) :: new') ∧
    extends U (tables_of out) t (t :: tables_of new') ∧
    (∀ e, e ∈ new' → complete (tables_of out ++ t :: tables_of new') e) ∧
    tables_of new `sublist_of` tables_of new' ∧
    ∀ i type t', (i, (type, t')) ∈ todo → type ≠ type_Other → t' ∈ tables_of out ++ t :: tables_of new'.
Proof using U_closed t_in IH fuel_enough.
  intros Htodo Hsub. revert ls new Htodo. induction todo as [|[i [type target]] todo IHt]; intros ls new Htodo He Hc; cbn [foldM].
  { exists new. simpl. rewrite !app_nil_r. repeat (split; [done|]). by intros ??? ?%elem_of_nil. }
  assert (∀ i type t', (i, (type, t')) ∈ todo → g_columns g t !! i = Some (type, t')) as Htodo' by (intros; apply Htodo; by right).
  destruct (decide (type = type_Other)) as [->|Ht].
  { destruct (IHt ls new Htodo' He Hc) as (new' & E & He' & Hc' & Hs' & Ht'). exists new'. repeat (split; [done|]).
    intros i' ty t' [[= -> -> ->]|Hin]%elem_of_cons Hty; [done|by eapply Ht']. }
  assert (g_columns g t !! i = Some (type, target)) as Hcol by (apply Htodo; by left).
  assert (table_link t target) as Hlink by (by exists i, type).
  set (l := MkLink (Z.of_nat i) (match type with type_LinkList => true | _ => false end)).
  assert (body (i, (type, target)) (out ++ Related t ls :: new) =
          find_related_tables fuel g (out ++ Related t (ls ++ [l]) :: new) target) as ->.
  { unfold body. rewrite alter_middle. by destruct type. }
  destruct He as (He1 & He2 & He3).
  destruct (IH (out ++ Related t (ls ++ [l]) :: new) target) as (new1 & -> & (Hn1 & Hn2 & Hn3) & Hn4);
    rewrite ?tables_of_app, ?tables_of_cons; cbn [table_ndx].
  { by eapply (cl_links _ U_closed). } { done. }
  { intros x [Hx|Hx]%elem_of_app; [by apply Hsub|by apply He3]. }
  { rewrite length_app. simpl. lia. }
  rewrite tables_of_app, tables_of_cons in Hn1, Hn2, Hn4. cbn [table_ndx] in Hn1, Hn2, Hn4.
  cbn [mbind option_bind]. rewrite <- app_assoc in *. cbn [app].
  destruct (IHt (ls ++ [l]) (new ++ new1) Htodo') as (new2 & -> & He' & Hc' & Hs' & Ht'); rewrite ?tables_of_app.
  { split; [|split; [done|]].
    - apply elem_of_app. right. by left.
    - intros x. rewrite app_comm_cons. intros [Hx|Hx]%elem_of_app; [by apply He3|].
      destruct (Hn3 x Hx) as [HxU Hr]. split; [done|]. by eapply rtc_l. }
  { intros e [Hx|Hx]%elem_of_app; [|by apply Hn4]. rewrite app_comm_cons, app_assoc. by apply complete_app, Hc. }
  rewrite tables_of_app in Hs'. exists new2. rewrite <- app_assoc.
  assert (omap link_of ((i, (type, target)) :: todo) = l :: omap link_of todo) as -> by (subst l; by destruct type).
  split; [done|]. split; [done|]. split; [done|]. split; [etrans; [|done]; by apply sublist_inserts_r|].
  intros i' ty t' [[= -> -> ->]|Hin]%elem_of_cons Hty; [|by eapply Ht'].
  apply elem_of_app in Hn1 as [?|[->|Hx]%elem_of_cons]; apply elem_of_app; [by left|right; by left|right; right].
  eapply sublist_subseteq in Hs'. by apply Hs'.
Qed.
End loop.

Lemma find_related_spec fuel U out t :
  closed U → t ∈ U → NoDup (tables_of out) → (∀ x, x ∈ tables_of out → x ∈ U) → (length U < fuel + length out)%nat →
  ∃ new, find_related_tables fuel g out t = Some (out ++ new) ∧ extends U (tables_of out) t (tables_of new) ∧
    ∀ e, e ∈ new → complete (tables_of out ++ tables_of new) e.
Proof.
  intros HU. revert out t. induction fuel as [|fuel IH]; intros out t Ht Hnd Hsub Hf.
  { exfalso. pose proof (submseteq_length _ _ (NoDup_submseteq _ _ Hnd Hsub)) as H. unfold tables_of in H. rewrite length_fmap in H. lia. }
  cbn [find_related_tables]. pose proof (cl_bounds _ HU t Ht) as Hb. unfold in_bounds in Hb.
  destruct (Z.eqb_spec t npos) as [->|_]; [lia|].
  destruct (existsb (λ e, table_ndx e =? t) out) eqn:Ex.
  { exists []. rewrite app_nil_r. split; [done|]. split; [|by intros e ?%elem_of_nil].
    apply existsb_exists in Ex as (e & He%list_elem_of_In & Hte%Z.eqb_eq). unfold extends. simpl. rewrite app_nil_r.
    split; [|split; [done|by intros x ?%elem_of_nil]]. apply list_elem_of_fmap. by exists e. }
  assert (t ∉ tables_of out) as Hnt.
  { intros (e & -> & He)%list_elem_of_fmap. assert (existsb (λ e0, table_ndx e0 =? table_ndx e) out = true); [|congruence].
    apply existsb_exists. exists e. split; [by apply list_elem_of_In|by rewrite Z.eqb_refl]. }
  assert (extends U (tables_of out) t [t]) as He.
  { split; [apply elem_of_app; right; by left|]. split; [|by intros x ->%list_elem_of_singleton].
    apply NoDup_app. split; [done|]. split; [by intros x Hx ->%list_elem_of_singleton|apply NoDup_singleton]. }
  destruct (columns_spec fuel U t out HU Ht) with (todo := imap pair (g_columns g t)) (ls := @nil OutgoingLink) (new := @nil RelatedTable)
    as (new' & E & He' & Hc' & _ & Ht').
  - intros out' t' Ht' Hnd' Hsub' Hf'. by apply IH.
  - lia.
  - intros i type t' (i' & x & [= <- <-] & Hx)%elem_of_lookup_imap. done.
  - done.
  - done.
  - by intros e ?%elem_of_nil.
  - eexists. split; [exact E|]. split; [done|]. intros e [->|Hin]%elem_of_cons; [|by apply Hc'].
    split; [done|]. cbn [table_ndx]. intros t' (i & type & Hi & Hty). apply (Ht' i type t'); [|done].
    apply elem_of_lookup_imap. by exists i, (type, t').
Qed.

(** ** Termination and completeness *)

(** What [set_table] leaves in [m_related_tables]. *)
Lemma related_tables_spec U root :
  closed U → root ∈ U →
  ∃ out, find_related_tables (S (length U)) g [] root = Some out ∧ NoDup (tables_of out) ∧
    (∀ t, t ∈ tables_of out ↔ rtc table_link root t) ∧
    ∀ e, e ∈ out → in_bounds (table_ndx e) ∧ links e = link_columns g (table_ndx e).
Proof.
  intros HU Hr. destruct (find_related_spec (S (length U)) U [] root) as (out & -> & (H1 & H2 & H3) & H4); [done|done|constructor| |simpl; lia|].
  { by intros x ?%elem_of_nil. }
  exists out. split; [done|]. split; [done|]. split.
  - intros t. split; [intros Ht; by apply H3|]. simpl in H1. revert t.
    apply (rtc_ind_r (λ t, t ∈ tables_of out) root H1). intros y z _ Hyz Hy.
    apply list_elem_of_fmap in Hy as (e & -> & He). by apply (H4 e He).
  - intros e He. split; [|by apply H4]. apply (cl_bounds _ HU). apply H3. unfold tables_of. apply list_elem_of_fmap. by exists e.
Qed.
End related.

(** * The deep change checker

    The tables found, the rows reported, and the class that links to itself. *)

Import Deep.

(** The class links to another one. *)
Definition links_elsewhere (g : group) (root : Z) : Prop := ∃ t, table_link g root t ∧ t ≠ root.

(** What a question about a row is to be answered: the row was modified, or one that it links to over at most three links.  When
    the class links to no other class, links are not followed. *)
Definition row_changed {S : Type} `{IndexSets S} (g : group) (tables : list (change_builder S)) (root ndx : Z) : Prop :=
  modified tables root ndx ∨ links_elsewhere g root ∧ near g tables 3 root ndx.

(** The checker asked about one row after the other. *)
Fixpoint answers {S : Type} `{IndexSets S} (g : group) (tables : list (change_builder S)) (related : list RelatedTable)
    (root : Z) (ndxs : list Z) (st : checker (S := S)) : option (list bool) :=
  match ndxs with
  | [] => Some []
  | ndx :: ndxs =>
      '(st, b) ← modification_checker g tables related root ndx st;
      bs ← answers g tables related root ndxs st; Some (b :: bs)
  end.

(** ** The answers *)

Section answers.
Context {S : Type} {ops : IndexSets S} {laws : IndexSetLaws S}.
Variables (g : group) (tables : list (change_builder S)) (U : list Z) (root : Z).

Lemma edge_table_link t r c t' r' : edge g t r c t' r' → table_link g t t'.
Proof. intros (_ & type & Hc & Ht). exists (Z.to_nat c), type. split; [done|]. by intros ->. Qed.

Lemma near_target n t r : near g tables n t r → ∃ t0 t' r', table_link g t t0 ∧ rtc (table_link g) t0 t' ∧ modified tables t' r'.
Proof.
  revert t r. induction n as [|n IH]; intros t r; [done|]. intros (c & t' & r' & He%edge_table_link & [Hm|Hn]).
  - by exists t', t', r'.
  - destruct (IH t' r' Hn) as (t0 & t1 & r1 & Hl & Hr & Hm). exists t', t1, r1. split; [done|]. split; [by eapply rtc_l|done].
Qed.

Lemma table_modified_spec (e : RelatedTable) r :
  (∀ c, c ∈ tables → is_ok (modifications c)) → modified tables (table_ndx e) r → table_modified tables e = true.
Proof.
  intros Hc (_ & c & Hl & Hm). unfold table_modified. rewrite Hl, is_empty_law by (apply Hc; by eapply list_elem_of_lookup_2).
  apply negb_true_iff, bool_decide_eq_false. intros E. unfold has in Hm. rewrite E in Hm. by apply mem_nil in Hm.
Qed.

Lemma related_well_linked out :
  closed g U → (∀ c, c ∈ tables → is_ok (modifications c)) → (∀ t r c t' r', edge g t r c t' r' → in_bounds r') →
  (∀ t, t ∈ tables_of out ↔ rtc (table_link g) root t) → (∀ e, e ∈ out → in_bounds (table_ndx e) ∧ links e = link_columns g (table_ndx e)) →
  well_linked g tables out.
Proof.
  intros HU Hc Hr Ht He. constructor; [done| | | |done].
  - intros t (e & -> & Hin)%list_elem_of_fmap. by apply He.
  - intros e Hin. by apply He.
  - intros t r c t' r' Hin Hed. apply Ht. apply Ht in Hin. eapply rtc_r; [done|]. by eapply edge_table_link.
Qed.

Variables (related : list RelatedTable).
Hypothesis Hwl : well_linked g tables related.
Hypothesis Htables : ∀ t, t ∈ tables_of related ↔ rtc (table_link g) root t.
Hypothesis Hnodup : NoDup (tables_of related).

Lemma root_related : root ∈ tables_of related.
Proof using Htables. by apply Htables. Qed.

Lemma leaves_root x : rtc (table_link g) root x → x ≠ root → links_elsewhere g root.
Proof.
  intros Hr Hx. remember root as y eqn:Ey in Hr. induction Hr as [y|y z x Hyz _ IH]; [done|]. subst y.
  destruct (decide (z = root)) as [Ez|Hz]; [by apply IH|by exists z].
Qed.

Lemma more_related : length related ≠ 1%nat ↔ links_elsewhere g root.
Proof using Hwl Htables Hnodup.
  pose proof root_related as Hroot. split.
  - intros Hl. assert (∃ x, x ∈ tables_of related ∧ x ≠ root) as (x & Hx%Htables & Hne); [|by eapply leaves_root].
    unfold tables_of in *. rewrite <- (length_fmap table_ndx) in Hl.
    destruct (table_ndx <$> related) as [|x [|y l]]; [by apply elem_of_nil in Hroot|done|].
    apply NoDup_cons in Hnodup as [Hx _]. destruct (decide (x = root)) as [->|?]; [|exists x; by split; [left|]].
    exists y. split; [right; left|]. intros ->. apply Hx. left.
  - intros (t & Hl & Hne) H1. destruct related as [|e [|]]; [done| |done].
    assert (t ∈ tables_of [e]) as ->%list_elem_of_singleton by (apply Htables; by apply rtc_once). by apply list_elem_of_singleton in Hroot.
Qed.

Lemma check_spec ndx st :
  search_ok g tables st → in_bounds ndx →
  ∃ st' b, check g tables related root ndx st = Some (st', b) ∧ search_ok g tables st' ∧
    (b = true ↔ modified tables root ndx ∨ near g tables 3 root ndx).
Proof using Hwl Htables.
  intros Hst Hn. unfold check. pose proof root_related as Hroot.
  destruct (table_contains_spec g tables related Hwl root ndx (wl_table _ _ _ Hwl root Hroot)) as (b & -> & Hb). cbn [mbind option_bind].
  destruct b; [exists st, true; split; [done|]; split; [done|]; split; [left; by apply Hb|done]|].
  destruct (check_row_spec g tables related Hwl (Datatypes.S max_depth) 0 root ndx st) as (st' & b & -> & Hok & _ & Hb'); [unfold max_depth; lia|lia|done|done|done|].
  exists st', b. split; [done|]. split; [done|]. change (3 - 0)%nat with 3%nat in Hb'.
  assert (¬ modified tables root ndx) as Hm by (intros ?%Hb; done). destruct b.
  - destruct Hb' as [[? _]|Hb']; [lia|]. split; [by right|done].
  - destruct Hb' as (_ & Hna & _). split; [done|]. intros [?|Hnear]; [done|]. by apply not_near in Hna.
Qed.

Lemma modification_checker_spec ndx st :
  search_ok g tables st → in_bounds ndx →
  ∃ st' b, modification_checker g tables related root ndx st = Some (st', b) ∧ search_ok g tables st' ∧
    (b = true ↔ row_changed g tables root ndx).
Proof using Hwl Htables Hnodup.
  intros Hst Hn. unfold modification_checker. pose proof root_related as Hroot.
  assert (∀ t r, rtc (table_link g) root t → modified tables t r → existsb (table_modified tables) related = true) as Hany.
  { intros t r (e & -> & He)%Htables%list_elem_of_fmap Hm. apply existsb_exists. exists e.
    split; [by apply list_elem_of_In|]. eapply table_modified_spec; [apply (wl_changes _ _ _ Hwl)|done]. }
  destruct (existsb (table_modified tables) related) eqn:Ex; cbn [negb].
  2: { exists st, false. split; [done|]. split; [done|]. split; [done|]. intros [Hm|[_ Hm]].
       - apply (Hany root ndx); [apply rtc_refl|done].
       - destruct (near_target _ _ _ Hm) as (t0 & t' & r' & Hl & Hr & Hm'). apply (Hany t' r'); [by eapply rtc_l|done]. }
  destruct (Nat.eqb_spec (length related) 1) as [H1|H1].
  - assert (¬ links_elsewhere g root) as Hno by (by intros ?%more_related). destruct related as [|e [|]]; [done| |done].
    assert (table_ndx e = root) as He by (by apply list_elem_of_singleton in Hroot). cbn [existsb] in Ex. rewrite orb_false_r in Ex.
    cbn [lookup list_lookup mbind option_bind]. unfold table_modified in Ex. rewrite He in *. destruct (tables !! Z.to_nat root) as [c|] eqn:Ec; [|done].
    cbn [mbind option_bind]. rewrite is_contains_law by (apply (wl_changes _ _ _ Hwl); by eapply list_elem_of_lookup_2). cbn [mbind option_bind].
    eexists st, _. split; [done|]. split; [done|]. rewrite memb_mem. split.
    + intros Hm. left. split; [apply (wl_table _ _ _ Hwl root Hroot)|]. by exists c.
    + intros [(_ & c' & Hc' & Hm)|[? _]]; [by simplify_eq|done].
  - destruct (check_spec ndx st Hst Hn) as (st' & b & E & Hok & Hb). exists st', b. split_and!; [done..|]. rewrite Hb.
    apply more_related in H1. unfold row_changed. tauto.
Qed.

Lemma answers_spec ndxs st :
  search_ok g tables st → (∀ ndx, ndx ∈ ndxs → in_bounds ndx) →
  ∃ bs, answers g tables related root ndxs st = Some bs ∧
    Forall2 (λ ndx b, b = true ↔ row_changed g tables root ndx) ndxs bs.
Proof using Hwl Htables Hnodup.
  revert st. induction ndxs as [|ndx ndxs IH]; intros st Hst Hn; cbn [answers]; [by exists []|].
  destruct (modification_checker_spec ndx st Hst) as (st' & b & -> & Hok & Hb); [apply Hn; by left|]. cbn [mbind option_bind].
  destruct (IH st' Hok) as (bs & -> & Hbs); [intros x Hx; apply Hn; by right|]. cbn [mbind option_bind].
  exists (b :: bs). split; [done|]. by constructor.
Qed.
End answers.

Lemma search_ok_start {S : Type} {ops : IndexSets S} {laws : IndexSetLaws S} g (tables : list (change_builder S)) path :
  length path = max_depth → search_ok g tables (Checker [] path).
Proof. intros Hl. constructor; [done|by intros s ?%elem_of_nil|]. intros t s r Hs. simpl in Hs. by destruct (Z.to_nat t). Qed.

(** ** The theorems *)

(** C28: [find_related_tables] terminates on every finite group, cyclic links
    included, and yields each table that is reachable over link columns exactly once,
    with all of its link columns. *)
Theorem related_tables_found (g : group) (U : list Z) (root : Z) :
  closed g U → root ∈ U →
  ∃ out, find_related_tables (S (length U)) g [] root = Some out ∧ NoDup (table_ndx <$> out) ∧
    (∀ t, t ∈ table_ndx <$> out ↔ rtc (table_link g) root t) ∧ ∀ e, e ∈ out → links e = link_columns g (table_ndx e).
Proof.
  intros HU Hr. destruct (related_tables_spec g U root HU Hr) as (out & E & Hn & Ht & He).
  exists out. split; [done|]. split; [done|]. split; [done|]. intros e Hin. by apply He.
Qed.

(** C27: the modification checker, asked about any number of rows one after the other, answers for each whether the row was modified, or
    one that it links to over at most three links; neither the links that are skipped nor the rows that are remembered between two
    questions change an answer.  Links are followed exactly when the class links to a class other than itself: for a class whose only
    links lead to itself the checker looks at the row alone. *)
Theorem deep_changes_found {S : Type} {ops : IndexSets S} {laws : IndexSetLaws S}
    (g : group) (tables : list (change_builder S)) (U : list Z) (root : Z) (path : list PathEntry) (ndxs : list Z) :
  closed g U → root ∈ U → (∀ c, c ∈ tables → is_ok (modifications c)) →
  (∀ t r c t' r', edge g t r c t' r' → in_bounds r') → length path = max_depth → (∀ ndx, ndx ∈ ndxs → in_bounds ndx) →
  ∃ related bs, find_related_tables (Datatypes.S (length U)) g [] root = Some related ∧
    answers g tables related root ndxs (Checker [] path) = Some bs ∧
    Forall2 (λ ndx b, b = true ↔ modified tables root ndx ∨ links_elsewhere g root ∧ near g tables 3 root ndx) ndxs bs.
Proof.
  intros HU Hr Hc Hrows Hp Hn. destruct (related_tables_spec g U root HU Hr) as (out & E & Hnd & Ht & He).
  destruct (answers_spec g tables root out (related_well_linked g tables U root out HU Hc Hrows Ht He) Ht Hnd ndxs (Checker [] path))
    as (bs & Ebs & Hbs); [by apply search_ok_start|done|]. by exists out, bs.
Qed.

(** ** A concrete group *)

(** Table 0 has a link column and a list column to table 1, which links back. *)
Definition two_tables : group := {|
  g_columns t := if t =? 0 then [(type_Other, 0); (type_Link, 1); (type_LinkList, 1)] else if t =? 1 then [(type_Link, 0)] else [];
  g_link t c r := if (t =? 0) && (c =? 1) then (if r =? 0 then Some 5 else None)
                  else if (t =? 1) && (c =? 0) && (r =? 5) then Some 1 else None;
  g_linklist t c r := if (t =? 0) && (c =? 2) && (r =? 1) then [6; 7] else []
|}.

Definition fresh_path : list PathEntry := replicate 4 (Path 0 0 0 false).

Section concrete.
#[local] Existing Instance debug_build.
Definition changed_rows (v : vec) : change_builder vec := Build [] [] v [] [] ∅ false.

(** Only row 7 of table 1 is modified: row 0 reaches it over three links. *)
Definition two_changes : list (change_builder vec) := [changed_rows []; changed_rows [Chunk [(7, 8)] 7 8 1]].

Lemma two_tables_link t t' : table_link two_tables t t' → (t = 0 ∧ t' = 1) ∨ (t = 1 ∧ t' = 0).
Proof.
  intros (i & type & Hi & Ht). simpl in Hi. destruct (Z.eqb_spec t 0) as [->|_]; [|destruct (Z.eqb_spec t 1) as [->|_]; [|done]].
  - destruct i as [|[|[|i]]]; simplify_eq/=; by auto.
  - destruct i as [|i]; simplify_eq/=; by auto.
Qed.

Lemma two_tables_closed : closed two_tables [0; 1].
Proof.
  constructor.
  - intros t [->|[->|[]%elem_of_nil]%elem_of_cons]%elem_of_cons; unfold in_bounds; lia.
  - intros t t' _ [[_ ->]|[_ ->]]%two_tables_link; set_solver.
Qed.

Lemma two_tables_rows t r c t' r' : edge two_tables t r c t' r' → in_bounds r'.
Proof.
  intros (_ & type & _ & He). unfold in_bounds. simpl in He.
  destruct type; [repeat case_match; simplify_eq; lia| |done].
  case_match; [|by apply elem_of_nil in He]. apply elem_of_cons in He as [->|[->|[]%elem_of_nil]%elem_of_cons]; lia.
Qed.

Lemma related_tables_found_witness :
  0 ∈ [0; 1] ∧ ∃ out, find_related_tables 3 two_tables [] 0 = Some out ∧ NoDup (table_ndx <$> out) ∧
    (∀ t, t ∈ table_ndx <$> out ↔ rtc (table_link two_tables) 0 t) ∧ ∀ e, e ∈ out → links e = link_columns two_tables (table_ndx e).
Proof.
  split; [by left|]. apply (related_tables_found two_tables [0; 1] 0); [apply two_tables_closed|by left].
Defined.

Lemma deep_changes_found_witness :
  ∃ related bs, find_related_tables 3 two_tables [] 0 = Some related ∧
    answers two_tables two_changes related 0 [0; 1; 2; 0] (Checker [] fresh_path) = Some bs ∧
    Forall2 (λ ndx b, b = true ↔ modified two_changes 0 ndx ∨ links_elsewhere two_tables 0 ∧ near two_tables two_changes 3 0 ndx) [0; 1; 2; 0] bs.
Proof.
  apply (deep_changes_found two_tables two_changes [0; 1] 0 fresh_path [0; 1; 2; 0]).
  - apply two_tables_closed.
  - by left.
  - intros c [->|[->|[]%elem_of_nil]%elem_of_cons]%elem_of_cons; by apply set_okb_ok.
  - apply two_tables_rows.
  - reflexivity.
  - intros n Hn. unfold in_bounds. repeat (apply elem_of_cons in Hn as [->|Hn]; [lia|]). by apply elem_of_nil in Hn.
Defined.

(** Row 0 reaches the change over three links, row 1 over one, row 2 not at all. *)
Example two_tables_answers :
  (related ← find_related_tables 3 two_tables [] 0; answers two_tables two_changes related 0 [0; 1; 2; 0] (Checker [] fresh_path)) =
    Some [true; true; false; true].
Proof. by vm_compute. Qed.

(** ** A class that links to itself *)

(** Row 0 links to row 1 of the same table. *)
Definition self_linked : group := {|
  g_columns t := if t =? 0 then [(type_Link, 0)] else [];
  g_link t c r := if (t =? 0) && (r =? 0) then Some 1 else None;
  g_linklist t c r := []
|}.

Definition self_changes : list (change_builder vec) := [changed_rows [Chunk [(1, 2)] 1 2 1]].

(** a class whose only links lead to itself has a single related table, and
    then the links of its rows are not followed: row 0 links to the modified row 1,
    the deep checker finds it, and the checker that is chosen does not. *)
Theorem self_link_not_followed :
  find_related_tables 2 self_linked [] 0 = Some [Related 0 [MkLink 0 false]] ∧ near self_linked self_changes 1 0 0 ∧
  snd <$> check self_linked self_changes [Related 0 [MkLink 0 false]] 0 0 (Checker [] fresh_path) = Some true ∧
  snd <$> modification_checker self_linked self_changes [Related 0 [MkLink 0 false]] 0 0 (Checker [] fresh_path) = Some false.
Proof.
  split; [reflexivity|]. split; [|by vm_compute]. exists 0, 0, 1. split; [split; [lia|by exists type_Link]|].
  left. split; [lia|]. eexists. split; [reflexivity|]. by apply memb_mem.
Qed.
End concrete.
