(* ===== verification/CollectionNotifier.v ===== *)
(** * Collection notifiers

    Model of [CollectionNotifier] of impl/collection_notifier.cpp: the callbacks of a
    collection, the changes that wait for each of them, and their delivery.  A
    callback is known by its token; what the client does with the notifier from
    inside a callback is an argument.  The virtual functions of the subclasses, the
    mutexes and the worker thread's wake-up are left out; the tables are those of
    DeepChange.v. *)

From stdpp Require Import gmap.
From S2P Require Import Prelude RangeSet IndexSetInterface ChangeBuilder Callbacks DeepChange.

(** [CollectionNotifier::Callback] *)
Record callback (S : Type) := Callback {
  c_token : Z;
  accumulated_changes : change_builder S;
  changes_to_deliver : change_set S;
  initial_delivered : bool;
  skip_next : bool
}.
Arguments Callback {S}.
Arguments c_token {S}.
Arguments accumulated_changes {S}.
Arguments changes_to_deliver {S}.
Arguments initial_delivered {S}.
Arguments skip_next {S}.

(** [CollectionNotifier], without the Realm and the shared group; [m_version] is the
    version in [m_sg_version]. *)
Record notifier (S : Type) := Notifier {
  m_callbacks : list (callback S);
  m_have_callbacks : bool;
  m_callback_index : Z;
  m_callback_count : Z;
  m_next_token : Z;
  m_error : bool;
  m_has_run : bool;
  m_version : Z;
  m_related_tables : list RelatedTable
}.
Arguments Notifier {S}.
Arguments m_callbacks {S}.
Arguments m_have_callbacks {S}.
Arguments m_callback_index {S}.
Arguments m_callback_count {S}.
Arguments m_next_token {S}.
Arguments m_error {S}.
Arguments m_has_run {S}.
Arguments m_version {S}.
Arguments m_related_tables {S}.

Module Notifier.
Section notifier.
Context {S : Type} `{IndexSets S}.
Implicit Types (n : notifier S) (cb : callback S).

Definition set_callbacks n cbs : notifier S :=
  Notifier cbs (m_have_callbacks n) (m_callback_index n) (m_callback_count n) (m_next_token n) (m_error n) (m_has_run n) (m_version n) (m_related_tables n).
Definition set_have n b : notifier S :=
  Notifier (m_callbacks n) b (m_callback_index n) (m_callback_count n) (m_next_token n) (m_error n) (m_has_run n) (m_version n) (m_related_tables n).
Definition set_index n i : notifier S :=
  Notifier (m_callbacks n) (m_have_callbacks n) i (m_callback_count n) (m_next_token n) (m_error n) (m_has_run n) (m_version n) (m_related_tables n).
Definition set_count n k : notifier S :=
  Notifier (m_callbacks n) (m_have_callbacks n) (m_callback_index n) k (m_next_token n) (m_error n) (m_has_run n) (m_version n) (m_related_tables n).
Definition set_next n t : notifier S :=
  Notifier (m_callbacks n) (m_have_callbacks n) (m_callback_index n) (m_callback_count n) t (m_error n) (m_has_run n) (m_version n) (m_related_tables n).
Definition set_error n : notifier S :=
  Notifier (m_callbacks n) (m_have_callbacks n) (m_callback_index n) (m_callback_count n) (m_next_token n) true (m_has_run n) (m_version n) (m_related_tables n).
Definition set_run n version : notifier S :=
  Notifier (m_callbacks n) (m_have_callbacks n) (m_callback_index n) (m_callback_count n) (m_next_token n) (m_error n) true version (m_related_tables n).
Definition set_related n ts : notifier S :=
  Notifier (m_callbacks n) (m_have_callbacks n) (m_callback_index n) (m_callback_count n) (m_next_token n) (m_error n) (m_has_run n) (m_version n) ts.

Definition no_changes : change_set S := ChangeSet is_new is_new is_new is_new [] [].

(** The member initialisers. *)
Definition new (version : Z) : notifier S := Notifier [] false npos npos 0 false false version [].

(** ** The callbacks *)

(** [add_callback]; the token is [m_next_token] *)
Definition add_callback n : notifier S :=
  let token := m_next_token n in
  let n := set_next n (token ⊕ 1) in
  let n := set_callbacks n (m_callbacks n ++ [Callback token Changes.new no_changes false false]) in
  if m_callback_index n =? npos then set_have n true else n.

(** [find_callback], with its two assertions *)
Definition find_callback n (token : Z) : option nat :=
  REALM_ASSERT (m_error n || (0 <? length (m_callbacks n))%nat) ;;
  let it := find_if (λ c, c_token c =? token) (m_callbacks n) in
  REALM_ASSERT (m_error n || negb (it =? length (m_callbacks n))%nat) ;;
  Some it.

Definition remove_callback n (token : Z) : option (notifier S) :=
  idx ← find_callback n token;
  if (idx =? length (m_callbacks n))%nat then Some n else
  let n := if negb (m_callback_index n =? npos) && (Z.of_nat idx <=? m_callback_index n)
           then set_index n (m_callback_index n ⊖ 1) else n in
  let n := set_count n (m_callback_count n ⊖ 1) in
  let n := set_callbacks n (delete idx (m_callbacks n)) in
  Some (set_have n (negb (length (m_callbacks n) =? 0)%nat)).

Definition suppress_next_notification n (token : Z) : option (notifier S) :=
  it ← find_callback n token;
  Some (set_callbacks n (alter (λ c, Callback (c_token c) (accumulated_changes c) (changes_to_deliver c) (initial_delivered c) true) it (m_callbacks n))).

(** What one callback does. *)
Definition act (a : action) n : option (notifier S) :=
  match a with do_add => Some (add_callback n) | do_remove t => remove_callback n t end.
Definition act_all (acts : list action) n : option (notifier S) := foldM act acts n.

(** ** Changes *)

(** [set_table], after [find_related_tables] *)
Definition set_table (fuel : nat) (g : group) n (table : Z) : option (notifier S) :=
  ts ← Deep.find_related_tables fuel g [] table; Some (set_related n ts).

(** [add_required_change_info]: which tables must report their modifications *)
Definition add_required_change_info n (needed : list bool) : list bool :=
  match m_related_tables n with
  | [] => needed
  | t :: ts =>
      let max := foldl (λ m e, Z.max m (table_ndx e)) (table_ndx t) ts in
      let needed := if Z.of_nat (length needed) <=? max then resize (Z.to_nat (max + 1)) false needed else needed in
      foldl (λ l e, <[Z.to_nat (table_ndx e) := true]> l) needed (m_related_tables n)
  end.

Definition add_change (change : change_builder S) cb : option (callback S) :=
  if skip_next cb then
    REALM_ASSERT (Changes.empty (accumulated_changes cb)) ;;
    Some (Callback (c_token cb) (accumulated_changes cb) (changes_to_deliver cb) (initial_delivered cb) false)
  else
    c ← Changes.merge (accumulated_changes cb) change;
    Some (Callback (c_token cb) c (changes_to_deliver cb) (initial_delivered cb) (skip_next cb)).

Definition add_changes n (change : change_builder S) : option (notifier S) :=
  cbs ← mapM (add_change change) (m_callbacks n); Some (set_callbacks n cbs).

Definition prepare_handover n (version : Z) : option (notifier S) :=
  let n := set_run n version in
  REALM_ASSERT (forallb (λ c, negb (skip_next c)) (m_callbacks n)) ;;
  Some n.

(** The builder that [std::move(accumulated_changes).finalize()] leaves. *)
Definition moved_from (c : change_builder S) : change_builder S :=
  Build is_new is_new is_new [] [] (move_mapping c) (track_columns c).

Definition package_callback cb : option (callback S) :=
  c ← Changes.finalize (accumulated_changes cb);
  Some (Callback (c_token cb) (moved_from (accumulated_changes cb)) c (initial_delivered cb) (skip_next cb)).

(** [package_for_delivery]; [prepared] is the result of [prepare_to_deliver]. *)
Definition package_for_delivery n (prepared : bool) : option (notifier S * bool) :=
  if negb prepared then Some (n, false) else
  cbs ← mapM package_callback (m_callbacks n);
  let n := set_callbacks n cbs in
  Some (set_count n (Z.of_nat (length (m_callbacks n))), true).

(** ** Delivery *)

Definition cs_empty (c : change_set S) : bool :=
  is_empty (cs_deletions c) && is_empty (cs_insertions c) && is_empty (cs_modifications c)
  && is_empty (cs_modifications_new c) && match cs_moves c with [] => true | _ => false end.

(** [for_each_callback]; [fn] gets the index of the callback and the calls so far. *)
Fixpoint for_each_loop {O} (fuel : nat) (fn : nat → notifier S * list O → option (notifier S * list O)) (st : notifier S * list O)
    : option (notifier S * list O) :=
  match fuel with
  | Datatypes.O => None
  | Datatypes.S fuel =>
      let '(n, called) := st in
      if m_callback_index n <? m_callback_count n then
        '(n, called) ← fn (Z.to_nat (m_callback_index n)) (n, called);
        for_each_loop fuel fn (set_index n (m_callback_index n ⊕ 1), called)
      else Some (set_index n npos, called)
  end.

Definition for_each_callback {O} (fn : nat → notifier S * list O → option (notifier S * list O)) n : option (notifier S * list O) :=
  REALM_ASSERT (m_callback_count n <=? Z.of_nat (length (m_callbacks n))) ;;
  for_each_loop (length (m_callbacks n) + 1) fn (set_index n (m_callback_index n ⊕ 1), []).

Definition before_one (client : Z → list action) (i : nat) (st : notifier S * list (Z * change_set S))
    : option (notifier S * list (Z * change_set S)) :=
  let '(n, called) := st in
  cb ← m_callbacks n !! i;
  if cs_empty (changes_to_deliver cb) then Some (n, called) else
  n ← act_all (client (c_token cb)) n;
  Some (n, called ++ [(c_token cb, changes_to_deliver cb)]).

Definition before_advance (client : Z → list action) n : option (notifier S * list (Z * change_set S)) :=
  for_each_callback (before_one client) n.

Definition delivered cb : callback S :=
  Callback (c_token cb) (accumulated_changes cb) no_changes true (skip_next cb).

Definition after_one (client : Z → list action) (i : nat) (st : notifier S * list (Z * change_set S))
    : option (notifier S * list (Z * change_set S)) :=
  let '(n, called) := st in
  cb ← m_callbacks n !! i;
  if initial_delivered cb && cs_empty (changes_to_deliver cb) then Some (n, called) else
  let n := set_callbacks n (alter delivered i (m_callbacks n)) in
  n ← act_all (client (c_token cb)) n;
  Some (n, called ++ [(c_token cb, changes_to_deliver cb)]).

Definition after_advance (client : Z → list action) n : option (notifier S * list (Z * change_set S)) :=
  for_each_callback (after_one client) n.

Definition error_one (client : Z → list action) (i : nat) (st : notifier S * list Z) : option (notifier S * list Z) :=
  let '(n, called) := st in
  cb ← m_callbacks n !! i;
  n ← act_all (client (c_token cb)) n;
  n ← remove_callback n (c_token cb);
  Some (n, called ++ [c_token cb]).

Definition deliver_error (client : Z → list action) n : option (notifier S * list Z) :=
  let n := set_error n in
  let n := set_count n (Z.of_nat (length (m_callbacks n))) in
  for_each_callback (error_one client) n.
End notifier.
End Notifier.
