(* ===== verification/CollectionNotifierTheorems.v ===== *)
(** * What a collection notifier promises

    Every callback gets the changes that were packaged for it, once, although the
    callbacks change the list that is being walked. *)

From stdpp Require Import gmap.
From S2P Require Import Prelude RangeSet RangeVector IndexSetOps IndexSetInterface ChangeBuilder Callbacks DeepChange CollectionNotifier.
Import Notifier.

Section notifier.
Context {S : Type} {ops : IndexSets S}.
Implicit Types (n : notifier S) (cb : callback S) (a b c l : list (callback S)).

(** ** The list during a notification *)

Record walking n a b c : Prop := {
  wk_callbacks : m_callbacks n = a ++ b ++ c;
  wk_index : m_callback_index n = Z.of_nat (length a) ⊖ 1;
  wk_count : m_callback_count n = Z.of_nat (length (a ++ b));
  wk_tokens : NoDup (c_token <$> a ++ b);
  wk_length : Z.of_nat (length (a ++ b)) < npos
}.

Lemma remove_walking n a b c t :
  walking n a b c → t ∈ c_token <$> a ++ b →
  ∃ n', remove_callback n t = Some n' ∧ walking n' (staying c_token [t] a) (staying c_token [t] b) c ∧ m_error n' = m_error n.
Proof.
  intros [Ec Ei Ek Hnd Hlen] Hin. unfold remove_callback, find_callback. rewrite Ec.
  destruct (remove_slot c_token a b c t _ Hnd Hin Ei Hlen) as (H1 & H2 & H3 & H4).
  assert (0 < length (a ++ b))%nat as Hpos.
  { destruct (a ++ b); [by apply elem_of_nil in Hin|cbn [length]; lia]. }
  rewrite (proj2 (Nat.ltb_lt _ _)), orb_true_r by lia. cbn [check mbind option_bind].
  rewrite (proj2 (Nat.eqb_neq _ _)) by lia. cbn [negb]. rewrite orb_true_r. cbn [check mbind option_bind].
  rewrite (proj2 (Nat.eqb_neq _ _)) by lia.
  eexists. split; [done|]. split; [|by destruct (negb _ && _)]. constructor.
  - simpl. rewrite <- H2. by destruct (negb _ && _); simpl; rewrite Ec.
  - rewrite <- H3. simpl. by destruct (negb _ && _).
  - rewrite <- H4, <- Ek. simpl. by destruct (negb _ && _).
  - rewrite <- staying_app. eapply sublist_NoDup; [exact Hnd|]. apply (fmap_sublist c_token), sublist_filter.
  - rewrite <- H4, wsub_small by lia. lia.
Qed.



(** ** One pass over the callbacks *)

Section visit.
Variables (skip : callback S → bool) (handle : callback S → callback S) (client : Z → list action).
Hypothesis handle_token : ∀ cb, c_token (handle cb) = c_token cb.

(** [before_one] and [after_one] *)
Definition visit (i : nat) (st : notifier S * list (Z * change_set S)) : option (notifier S * list (Z * change_set S)) :=
  let '(n, called) := st in
  cb ← m_callbacks n !! i;
  if skip cb then Some (n, called) else
  n ← act_all (client (c_token cb)) (set_callbacks n (alter handle i (m_callbacks n)));
  Some (n, called ++ [(c_token cb, changes_to_deliver cb)]).










End visit.



Lemma before_one_visit client i st : before_one client i st = visit (λ cb, cs_empty (changes_to_deliver cb)) id client i st.
Proof.
  destruct st as [n called]. unfold before_one, visit. destruct (m_callbacks n !! i) as [cb|] eqn:E; [|done].
  cbn [mbind option_bind]. destruct (cs_empty _); [done|].
  assert (set_callbacks n (alter id i (m_callbacks n)) = n) as ->; [|done].
  destruct n; simpl. unfold set_callbacks. simpl. f_equal. apply list_eq. intros k.
  destruct (decide (k = i)) as [->|]; [rewrite list_lookup_alter_eq; by destruct (_ !! i)|by rewrite list_lookup_alter_ne].
Qed.



(** ** Errors *)

(** After an error it is no mistake to remove a callback twice. *)
Lemma remove_after_error n a b t :
  walking n a b [] → m_error n = true →
  ∃ n', remove_callback n t = Some n' ∧ walking n' (staying c_token [t] a) (staying c_token [t] b) [] ∧ m_error n' = true.
Proof.
  intros Hw He. destruct (decide (t ∈ c_token <$> a ++ b)) as [Hin|Hin].
  { destruct (remove_walking n a b [] t Hw Hin) as (n' & E & Hw' & He'). exists n'. by rewrite He'. }
  assert (m_callbacks n = a ++ b) as Ec by (by rewrite (wk_callbacks _ _ _ _ Hw), app_nil_r).
  exists n. split; [|split; [|done]].
  - unfold remove_callback, find_callback. rewrite He, Ec. cbn [orb check mbind option_bind].
    destruct (find_token c_token (a ++ b) t) as [[_ ->]|(l1 & x & l2 & E & <- & _)]; [by rewrite Nat.eqb_refl|].
    exfalso. apply Hin. rewrite E. apply list_elem_of_fmap_2, elem_of_app. right. by left.
  - rewrite fmap_app, not_elem_of_app in Hin. destruct Hin as [Ha Hb].
    rewrite !staying_absent; [done|intros x Hx Ex%list_elem_of_singleton..].
    + apply Hb. rewrite <- Ex. by apply list_elem_of_fmap_2.
    + apply Ha. rewrite <- Ex. by apply list_elem_of_fmap_2.
Qed.

Lemma acts_after_error acts n a b :
  (∀ x, x ∈ acts → x ≠ do_add) → walking n a b [] → m_error n = true →
  ∃ n', act_all acts n = Some n' ∧ walking n' (staying c_token (removes acts) a) (staying c_token (removes acts) b) [] ∧ m_error n' = true.
Proof.
  unfold act_all. revert n a b. induction acts as [|[|t] acts IH]; intros n a b Hno Hw He; cbn [foldM act].
  - exists n. by rewrite !staying_nil.
  - destruct (Hno do_add); [by left|done].
  - destruct (remove_after_error n a b t Hw He) as (n1 & -> & Hw1 & He1). cbn [mbind option_bind].
    change (removes (do_remove t :: acts)) with ([t] ++ removes acts). rewrite <- !staying_staying.
    apply (IH n1); [intros x Hx; apply Hno; by right|done|done].
Qed.

Lemma error_one_at client i n called cb :
  m_callbacks n !! i = Some cb →
  error_one client i (n, called) =
    n ← act_all (client (c_token cb)) n; n ← remove_callback n (c_token cb); Some (n, called ++ [c_token cb]).
Proof. intros E. unfold error_one. by rewrite E. Qed.

Lemma error_loop client l fuel n gone called :
  only_removes client → (length l < fuel)%nat →
  m_callbacks n = staying c_token gone l → m_callback_index n = 0 → m_callback_count n = Z.of_nat (length (staying c_token gone l)) →
  NoDup (c_token <$> staying c_token gone l) → Z.of_nat (length (staying c_token gone l)) < npos → m_error n = true →
  ∃ n', for_each_loop fuel (error_one client) (n, called) = Some (n', called ++ due client gone (c_token <$> l)) ∧
    m_callbacks n' = [] ∧ m_callback_index n' = npos ∧ m_error n' = true.
Proof.
  intros Hno. revert fuel n gone called. induction l as [|cb l IH]; intros fuel n gone called Hf Ec Ei Ek Hnd Hlen He.
  { destruct fuel as [|fuel]; [simpl in Hf; lia|]. cbn [for_each_loop]. rewrite Ei, Ek. simpl. rewrite app_nil_r. by eexists. }
  cbn [fmap list_fmap due]. destruct (bool_decide_reflect (c_token cb ∈ gone)) as [Hg|Hg].
  { rewrite staying_cons_in in Ec, Ek, Hnd, Hlen by done. apply IH; try done. simpl in Hf. lia. }
  rewrite staying_cons_out in Ec, Ek, Hnd, Hlen by done. destruct fuel as [|fuel]; [simpl in Hf; lia|].
  cbn [length] in Ek, Hlen. cbn [for_each_loop]. rewrite (proj2 (Z.ltb_lt _ _)) by lia. rewrite Ei. change (Z.to_nat 0) with 0%nat.
  rewrite (error_one_at client 0 n called cb) by (by rewrite Ec).
  destruct (acts_after_error (client (c_token cb)) n [cb] (staying c_token gone l)) as (n1 & -> & Hw1 & He1); [by apply Hno| |done|].
  { constructor; [by rewrite app_nil_r|by rewrite Ei|by rewrite Ek|done|cbn [app length]; lia]. }
  cbn [mbind option_bind]. set (R := removes (client (c_token cb))) in *.
  destruct (remove_after_error n1 _ _ (c_token cb) Hw1 He1) as (n2 & -> & Hw2 & He2). cbn [mbind option_bind].
  assert (staying c_token [c_token cb] (staying c_token R [cb]) = []) as Ea.
  { rewrite staying_staying, staying_cons_in; [done|]. apply elem_of_app. right. by left. }
  assert (staying c_token [c_token cb] (staying c_token R (staying c_token gone l)) = staying c_token (gone ++ R) l) as Eb.
  { rewrite (staying_staying _ gone R). rewrite staying_absent; [done|]. intros x Hx%elem_of_staying Ex%list_elem_of_singleton.
    inversion Hnd as [|? ? Hni _]; subst. apply Hni. rewrite <- Ex. apply list_elem_of_fmap_2, elem_of_staying.
    destruct Hx as [Hx1 Hx2]. split; [intros Hg'; apply Hx1, elem_of_app; by left|done]. }
  rewrite Ea, Eb in Hw2. destruct Hw2 as [Ec2 Ei2 Ek2 Hnd2 Hlen2]. rewrite app_nil_r in Ec2. cbn [app length] in *.
  destruct (IH fuel (set_index n2 (m_callback_index n2 ⊕ 1)) (gone ++ R) (called ++ [c_token cb])) as (n' & E & H1 & H2 & H3); try done.
  - simpl in Hf. lia.
  - simpl. by rewrite Ei2.
  - exists n'. split; [|done]. rewrite <- app_assoc in E. exact E.
Qed.

(** ** The flag for callbacks *)

(** While a notification runs, the callback it is at is still there. *)
Definition flag_ok n : Prop :=
  m_have_callbacks n = negb (length (m_callbacks n) =? 0)%nat ∧
  fits (m_callback_index n) ∧ (m_callback_index n ≠ npos → m_callback_index n < Z.of_nat (length (m_callbacks n))).

Lemma add_flag n : flag_ok n → flag_ok (add_callback n).
Proof.
  intros (Hh & Hf & Hi).
  assert (length (m_callbacks (add_callback n)) = Datatypes.S (length (m_callbacks n))) as El.
  { unfold add_callback. destruct (_ =? _); simpl; rewrite length_app; simpl; lia. }
  assert (m_callback_index (add_callback n) = m_callback_index n) as Ei by (unfold add_callback; by destruct (_ =? _)).
  unfold flag_ok. rewrite El, Ei. split; [|split; [done|lia]]. unfold add_callback.
  destruct (Z.eqb_spec (m_callback_index (set_callbacks (set_next n (m_next_token n ⊕ 1)) (m_callbacks (set_next n (m_next_token n ⊕ 1)) ++
    [Callback (m_next_token n) Changes.new no_changes false false]))) npos) as [E|E]; [done|].
  simpl in *. specialize (Hi E). unfold fits in Hf. rewrite Hh. apply negb_true_iff, Nat.eqb_neq. lia.
Qed.

Lemma remove_flag n t n' : flag_ok n → remove_callback n t = Some n' → flag_ok n'.
Proof.
  intros (Hh & Hf & Hi). unfold remove_callback. destruct (find_callback n t) as [i|] eqn:Ef; [|done]. cbn [mbind option_bind].
  destruct (Nat.eqb_spec i (length (m_callbacks n))) as [|Hne]; [by intros [= <-]|]. intros [= <-].
  assert (i < length (m_callbacks n))%nat as Hlt.
  { unfold find_callback, check in Ef. cbv zeta in Ef.
    destruct (m_error n || (0 <? _)%nat); cbn in Ef; [|done]. destruct (m_error n || negb _); cbn in Ef; [|done]. injection Ef as <-.
    destruct (find_token c_token (m_callbacks n) t) as [[_ ?]|(l1 & x & l2 & -> & _ & -> & _)]; [done|rewrite length_app; simpl; lia]. }
  assert (length (delete i (m_callbacks n)) = length (m_callbacks n) - 1)%nat as El by (apply length_delete; by apply lookup_lt_is_Some).
  unfold fits in Hf. destruct (Z.eqb_spec (m_callback_index n) npos) as [E|E]; simpl.
  - split; [done|]. simpl. by rewrite E.
  - specialize (Hi E). destruct (Z.leb_spec (Z.of_nat i) (m_callback_index n)) as [Hle|Hgt]; simpl; (split; [done|]); simpl; rewrite El.
    + split; [apply wsub_fits|]. intros Hne'.
      destruct (decide (m_callback_index n = 0)) as [E0|]; [by rewrite E0 in Hne'|]. rewrite wsub_small by lia. lia.
    + split; [done|lia].
Qed.

Lemma acts_flag acts n n' : flag_ok n → act_all acts n = Some n' → flag_ok n'.
Proof.
  unfold act_all. revert n. induction acts as [|[|t] acts IH]; intros n Hn; cbn [foldM act].
  - by intros [= <-].
  - apply IH. by apply add_flag.
  - destruct (remove_callback n t) as [n1|] eqn:E; [|done]. apply IH. by eapply remove_flag.
Qed.

(** A loop that ends leaves the flag right. *)
Lemma loop_flag {O} fuel (fn : nat → notifier S * list O → option (notifier S * list O)) n called r :
  (∀ n called r, flag_ok n → fn (Z.to_nat (m_callback_index n)) (n, called) = Some r → flag_ok r.1) →
  (∀ n called r, fn (Z.to_nat (m_callback_index n)) (n, called) = Some r → Z.to_nat (m_callback_index n) < length (m_callbacks n))%nat →
  m_have_callbacks n = negb (length (m_callbacks n) =? 0)%nat → fits (m_callback_index n) →
  for_each_loop fuel fn (n, called) = Some r → flag_ok r.1 ∧ m_callback_index r.1 = npos.
Proof.
  intros H1 H2. revert n called. induction fuel as [|fuel IH]; intros n called Hh Hf; [done|]. cbn [for_each_loop].
  destruct (_ <? _).
  - destruct (fn _ _) as [[n' called']|] eqn:E; [|done]. cbn [mbind option_bind].
    assert (flag_ok n') as (Hh' & Hf' & _).
    { apply (H1 n called (n', called')); [|done]. split; [done|]. split; [done|]. intros _. apply H2 in E. unfold fits in Hf. lia. }
    apply IH; [done|apply wadd_fits].
  - intros [= <-]. split; [|done]. split; [done|]. split; [done|]. done.
Qed.


(** ** The theorems *)


(** An error reaches every callback once, unless one called before removed it;
    afterwards no callback is left, whatever the callbacks removed themselves. *)
Theorem deliver_error_correct (client : Z → list action) n :
  only_removes client → m_callback_index n = npos → NoDup (c_token <$> m_callbacks n) → Z.of_nat (length (m_callbacks n)) < npos →
  ∃ n', deliver_error client n = Some (n', due client [] (c_token <$> m_callbacks n)) ∧
    m_callbacks n' = [] ∧ m_callback_index n' = npos ∧ m_error n' = true.
Proof.
  intros Hno Ei Hnd Hlen. unfold deliver_error, for_each_callback. simpl. rewrite Z.leb_refl. cbn [check mbind option_bind].
  apply (error_loop client (m_callbacks n) _ (set_index _ _) [] []); rewrite ?staying_nil; simpl; try done; [lia|by rewrite Ei].
Qed.

(** ** Changes on their way *)

(** The changes that count for a callback: all, but the first when it skips one. *)
Definition counted cb (cs : list (change_builder S)) : list (change_builder S) := if skip_next cb then tail cs else cs.

Lemma add_changes_each cs n n' :
  foldM (λ (c : change_builder S) n, add_changes n c) cs n = Some n' →
  Forall2 (λ cb cb', c_token cb' = c_token cb ∧ initial_delivered cb' = initial_delivered cb ∧
    foldM (λ (c a : change_builder S), Changes.merge a c) (counted cb cs) (accumulated_changes cb) = Some (accumulated_changes cb') ∧
    (skip_next cb' = true → skip_next cb = true ∧ cs = [])) (m_callbacks n) (m_callbacks n').
Proof.
  revert n. induction cs as [|ch cs IH]; intros n; cbn [foldM].
  - intros [= <-]. apply Forall_Forall2_diag, Forall_true. intros cb. unfold counted.
    destruct (skip_next cb); (split_and!; [done..|]); by intros.
  - destruct (add_changes n ch) as [n0|] eqn:E; [|done]. intros Hrest%IH. unfold add_changes in E.
    destruct (mapM (add_change ch) (m_callbacks n)) as [cbs|] eqn:Em; [|done]. injection E as <-. apply mapM_Some_1 in Em as E. cbn [m_callbacks set_callbacks] in Hrest.
    eapply Forall2_trans; [|exact E|exact Hrest]. intros cb1 cb2 cb3 H1 (H2 & H3 & H4 & H5).
    unfold add_change in H1. unfold counted in *. destruct (skip_next cb1) eqn:Es.
    + destruct (check _); [|done]. injection H1 as <-. cbn in *. split_and!; [done..|]. intros Hs. by destruct (H5 Hs).
    + destruct (Changes.merge _ _) as [m|] eqn:Eg; [|done]. injection H1 as <-. cbn [c_token accumulated_changes initial_delivered skip_next] in *.
      split_and!; [done|done| |intros Hs; by destruct (H5 Hs)]. cbn [foldM]. by rewrite Eg.
Qed.

(** What is packaged for a callback is the merge, in order, of all changes
    since it was last packaged; a callback that suppresses the next notification
    loses exactly the first of them. *)
Theorem packaged_changes cs n n1 n2 :
  foldM (λ (c : change_builder S) n, add_changes n c) cs n = Some n1 → package_for_delivery n1 true = Some (n2, true) →
  m_callback_count n2 = Z.of_nat (length (m_callbacks n)) ∧
  Forall2 (λ cb cb', c_token cb' = c_token cb ∧ initial_delivered cb' = initial_delivered cb ∧
    ∃ acc, foldM (λ (c a : change_builder S), Changes.merge a c) (counted cb cs) (accumulated_changes cb) = Some acc ∧
      Changes.finalize acc = Some (changes_to_deliver cb') ∧ accumulated_changes cb' = moved_from acc)
    (m_callbacks n) (m_callbacks n2).
Proof.
  intros Ha%add_changes_each. unfold package_for_delivery. cbn [negb].
  destruct (mapM package_callback (m_callbacks n1)) as [cbs|] eqn:E; [|done]. intros [= <-]. apply mapM_Some_1 in E.
  cbn [m_callbacks m_callback_count set_count set_callbacks]. split.
  - f_equal. rewrite <- (Forall2_length _ _ _ E). by rewrite <- (Forall2_length _ _ _ Ha).
  - eapply Forall2_trans; [|exact Ha|exact E]. intros cb1 cb2 cb3 (H1 & H2 & H3 & _) H4. unfold package_callback in H4.
    destruct (Changes.finalize _) as [f|] eqn:Ef; [|done]. injection H4 as <-. cbn. split_and!; [done|done|]. by eexists.
Qed.

(** ** Everything that can happen to a notifier *)

Inductive op :=
  | op_add | op_remove (token : Z) | op_suppress (token : Z)
  | op_add_changes (change : change_builder S) | op_prepare_handover (version : Z) | op_package (prepared : bool)
  | op_before_advance (client : Z → list action) | op_after_advance (client : Z → list action) | op_error (client : Z → list action).

Definition step (o : op) n : option (notifier S) :=
  match o with
  | op_add => Some (add_callback n)
  | op_remove t => remove_callback n t
  | op_suppress t => suppress_next_notification n t
  | op_add_changes c => add_changes n c
  | op_prepare_handover v => prepare_handover n v
  | op_package b => fst <$> package_for_delivery n b
  | op_before_advance client => fst <$> before_advance client n
  | op_after_advance client => fst <$> after_advance client n
  | op_error client => fst <$> deliver_error client n
  end.

Definition idle n : Prop := flag_ok n ∧ m_callback_index n = npos.

Lemma set_callbacks_idle n cbs : idle n → length cbs = length (m_callbacks n) → idle (set_callbacks n cbs).
Proof. intros [(Hh & Hf & Hi) E] Hl. split; [|done]. split; [simpl; by rewrite Hl|]. split; [done|]. simpl. by rewrite Hl. Qed.

Lemma for_each_idle {O} (fn : nat → notifier S * list O → option (notifier S * list O)) n r :
  (∀ n called r, flag_ok n → fn (Z.to_nat (m_callback_index n)) (n, called) = Some r → flag_ok r.1) →
  (∀ n called r, fn (Z.to_nat (m_callback_index n)) (n, called) = Some r → Z.to_nat (m_callback_index n) < length (m_callbacks n))%nat →
  idle n → for_each_callback fn n = Some r → idle r.1.
Proof.
  intros H1 H2 [(Hh & Hf & _) E]. unfold for_each_callback. destruct (check _); [|done]. cbn [mbind option_bind].
  apply loop_flag; [done|done|done|apply wadd_fits].
Qed.

Lemma alter_flag f i n : flag_ok n → flag_ok (set_callbacks n (alter f i (m_callbacks n))).
Proof. unfold flag_ok. simpl. by rewrite length_alter. Qed.

Lemma step_idle o n n' : idle n → step o n = Some n' → idle n'.
Proof.
  intros Hn. destruct o as [|t|t|c|v|b|client|client|client]; cbn [step].
  - intros [= <-]. destruct Hn as [Hf Ei]. split; [by apply add_flag|]. unfold add_callback. simpl. by rewrite Ei.
  - intros E. pose proof Hn as [Hf Ei]. split; [by eapply remove_flag|]. revert E. unfold remove_callback.
    destruct (find_callback n t); [|done]. cbn [mbind option_bind]. rewrite Ei. by destruct (_ =? _)%nat; intros [= <-].
  - unfold suppress_next_notification. destruct (find_callback n t); [|done]. intros [= <-]. apply set_callbacks_idle; [done|by rewrite length_alter].
  - unfold add_changes. destruct (mapM _ _) as [cbs|] eqn:E; [|done]. intros [= <-]. apply set_callbacks_idle; [done|].
    by apply length_mapM in E.
  - unfold prepare_handover. destruct (check _); [|done]. by intros [= <-].
  - unfold package_for_delivery. destruct b; [|by intros [= <-]]. cbn [negb]. destruct (mapM _ _) as [cbs|] eqn:E; [|done].
    intros [= <-]. apply (set_callbacks_idle n cbs); [done|]. by apply length_mapM in E.
  - intros (r & E & ->)%fmap_Some. revert E. unfold before_advance. apply for_each_idle; [..|done].
    + intros n0 called r0 Hf0. unfold before_one. destruct (_ !! _) as [cb|]; [|done]. cbn [mbind option_bind].
      destruct (cs_empty _); [by intros [= <-]|]. destruct (act_all _ _) eqn:E; [|done]. intros [= <-]. by eapply acts_flag.
    + intros n0 called r0. unfold before_one. destruct (_ !! _) as [cb|] eqn:E; [|done]. intros _. by eapply lookup_lt_Some.
  - intros (r & E & ->)%fmap_Some. revert E. unfold after_advance. apply for_each_idle; [..|done].
    + intros n0 called r0 Hf0. unfold after_one. destruct (_ !! _) as [cb|]; [|done]. cbn [mbind option_bind].
      destruct (_ && _); [by intros [= <-]|]. destruct (act_all _ _) eqn:E; [|done]. intros [= <-].
      eapply acts_flag; [|done]. by apply alter_flag.
    + intros n0 called r0. unfold after_one. destruct (_ !! _) as [cb|] eqn:E; [|done]. intros _. by eapply lookup_lt_Some.
  - intros (r & E & ->)%fmap_Some. revert E. unfold deliver_error. apply for_each_idle; [..|done].
    + intros n0 called r0 Hf0. unfold error_one. destruct (_ !! _) as [cb|]; [|done]. cbn [mbind option_bind].
      destruct (act_all _ _) as [n1|] eqn:E; [|done]. cbn [mbind option_bind]. destruct (remove_callback n1 _) as [n2|] eqn:E2; [|done].
      intros [= <-]. eapply remove_flag; [|done]. by eapply acts_flag.
    + intros n0 called r0. unfold error_one. destruct (_ !! _) as [cb|] eqn:E; [|done]. intros _. by eapply lookup_lt_Some.
Qed.

(** Whatever happens to a notifier, also from inside its callbacks, the flag
    that other threads read instead of the list says exactly whether there are
    callbacks: it is never stale. *)
Theorem have_callbacks_exact (version : Z) (os : list op) n :
  foldM step os (new version) = Some n →
  m_have_callbacks n = negb (length (m_callbacks n) =? 0)%nat ∧ m_callback_index n = npos.
Proof.
  assert (∀ n0, idle n0 → foldM step os n0 = Some n → idle n) as Hrun.
  { induction os as [|o os IH]; intros n0 Hn0; cbn [foldM]; [by intros [= <-]|].
    destruct (step o n0) as [n1|] eqn:E; [|done]. apply IH. by eapply step_idle. }
  intros E. destruct (Hrun (new version)) as [[Hh _] Ei]; [|done|done]. by split.
Qed.
End notifier.

(** ** Instances and examples *)

Section concrete.
#[local] Existing Instance debug_build.

Definition one_row (i : Z) : vec := [Chunk [(i, i + 1)] i (i + 1) 1].
Definition waiting (token i : Z) : callback vec :=
  Callback token Changes.new (ChangeSet (one_row i) [] [] [] [] []) true false.
(** Three callbacks with changes, and one that has had its initial call. *)
Definition four_callbacks : notifier vec :=
  Notifier [waiting 0 5; waiting 1 6; Callback 2 Changes.new no_changes true false; waiting 3 7] true npos 4 4 false true 1 [].



Lemma deliver_error_witness :
  let client t := if t =? 0 then [do_remove 0; do_remove 1] else [do_remove t] in
  ∃ n', deliver_error client four_callbacks = Some (n', [0; 2; 3]) ∧ m_callbacks n' = [] ∧ m_callback_index n' = npos ∧ m_error n' = true.
Proof.
  intros client. destruct (deliver_error_correct client four_callbacks) as (n' & E & H).
  - intros t a. unfold client. destruct (t =? 0); set_solver.
  - reflexivity.
  - apply (bool_decide_unpack (NoDup [0; 1; 2; 3])). by vm_compute.
  - reflexivity.
  - exists n'. split; [rewrite E; by vm_compute|exact H].
Defined.

Lemma have_callbacks_witness :
  let os := [op_add; op_add; op_package true; op_after_advance (λ t, if t =? 0 then [do_remove 0; do_remove 1; do_add] else [])] in
  ∃ n : notifier vec, foldM step os (new 1) = Some n ∧ m_have_callbacks n = negb (length (m_callbacks n) =? 0)%nat ∧ m_callback_index n = npos.
Proof.
  intros os. destruct (foldM step os (new 1)) as [n|] eqn:E; [|by vm_compute in E].
  exists n. split; [done|]. apply (have_callbacks_exact 1 os n E).
Defined.

Lemma packaged_changes_witness :
  let fresh := Callback 0 Changes.new no_changes false false in
  let skipping := Callback 1 Changes.new no_changes true true in
  let n : notifier vec := Notifier [fresh; skipping] true npos npos 2 false true 1 [] in
  let cs := [Build (one_row 3) [] [] [] [] ∅ true; Build [] (one_row 4) [] [] [] ∅ true] in
  ∃ n1 n2, foldM (λ c n, add_changes n c) cs n = Some n1 ∧ package_for_delivery n1 true = Some (n2, true) ∧
    m_callback_count n2 = 2 ∧ changes_to_deliver <$> m_callbacks n2 = [ChangeSet (one_row 3) (one_row 4) [] [] [] []; ChangeSet [] (one_row 4) [] [] [] []].
Proof.
  intros fresh skipping n cs. destruct (foldM (λ c n, add_changes n c) cs n) as [n1|] eqn:E1; [|by vm_compute in E1].
  destruct (package_for_delivery n1 true) as [[n2 b]|] eqn:E2; [|vm_compute in E1; injection E1 as <-; by vm_compute in E2].
  assert (b = true) as ->; [vm_compute in E1; injection E1 as <-; vm_compute in E2; by injection E2|].
  exists n1, n2. split; [done|]. split; [done|]. destruct (packaged_changes cs n n1 n2 E1 E2) as [H1 _]. split; [exact H1|].
  clear H1. vm_compute in E1. injection E1 as <-. vm_compute in E2. injection E2 as <-. done.
Defined.

(** [remove_callback] counts every removal against the callbacks that were packaged,
    also that of a callback that was added since: the second callback gets no call,
    although its changes wait for it. *)
Theorem removing_new_callback_loses_changes :
  (λ '(n, called), (called.*1, c_token <$> m_callbacks n)) <$>
    after_advance (λ t, if t =? 0 then [do_add; do_remove 2] else [])
      (Notifier [waiting 0 5; waiting 1 6] true npos 2 2 false true 1 [] : notifier vec) = Some ([0], [0; 1]).
Proof. by vm_compute. Qed.

(** When no callback was packaged, the count of the removal wraps around: the next
    delivery fails the assertion of the debug builds, and without it its loop reads
    beyond the callbacks. *)
Theorem removing_new_callback_wraps_count :
  foldM step [op_package true; op_add; op_remove 0; op_after_advance (λ _, [])] (new 1 : notifier vec) = None ∧
  (m_callback_count <$> foldM step [op_package true; op_add; op_remove 0] (new 1 : notifier vec)) = Some npos.
Proof. by vm_compute. Qed.
End concrete.
