(* ===== verification/NotifierPackage.v ===== *)
(** * Packages of notifiers

    Model of [NotifierPackage] of impl/collection_notifier.cpp: the notifiers of one
    Realm instance, packaged together for a version and then delivered. *)

From stdpp Require Import gmap.
From S2P Require Import Prelude RangeSet RangeVector IndexSetOps IndexSetInterface ChangeBuilder Callbacks DeepChange CollectionNotifier.
Import Notifier.

(** [NotifierPackage]; whether there is a coordinator, and an error. *)
Record package (S : Type) := Package {
  p_version : option Z; p_notifiers : list (notifier S); p_coordinator : bool; p_error : bool
}.
Arguments Package {S}.
Arguments p_version {S}.
Arguments p_notifiers {S}.
Arguments p_coordinator {S}.
Arguments p_error {S}.

Module Package.
Section package.
Context {S : Type} `{IndexSets S}.
(** [prepare_to_deliver] of the notifier's class. *)
Variable prepared : notifier S → bool.

(** The predicate that [package_and_wait] waits for. *)
Definition ready (target : option Z) (n : notifier S) : bool :=
  match target with
  | None => true
  | Some v => negb (m_have_callbacks n) || (m_has_run n && (v <=? m_version n))
  end.

(** The loop of [std::remove_if]: what stays, and the last version. *)
Fixpoint package_each (ns : list (notifier S)) (version : option Z) : option (list (notifier S) * option Z) :=
  match ns with
  | [] => Some ([], version)
  | n :: ns =>
      '(n, packaged) ← (if m_has_run n then package_for_delivery n (prepared n) else Some (n, false));
      if packaged : bool then
        '(ns, version) ← package_each ns (Some (m_version n)); Some (n :: ns, version)
      else package_each ns version
  end.

(** [package_and_wait]; [woken] are the notifiers when the wait is over. *)
Definition package_and_wait (p : package S) (target : option Z) (woken : list (notifier S)) : option (package S) :=
  if negb (p_coordinator p) || p_error p || bool_decide (p_notifiers p = []) then Some p else
  REALM_ASSERT (forallb (ready target) woken) ;;
  '(ns, version) ← package_each woken (p_version p);
  let '(ns, version) :=
    match version, target with
    | Some v, Some t => if v <? t then ([], None) else (ns, version)
    | _, _ => (ns, version)
    end in
  REALM_ASSERT (bool_decide (version ≠ None) || bool_decide (ns = [])) ;;
  Some (Package version ns false (p_error p)).

(** [before_advance] and [after_advance] *)
Definition for_all_notifiers {O} (f : notifier S → option (notifier S * O)) (p : package S) : option (package S * list O) :=
  if p_error p then Some (p, []) else
  rs ← mapM f (p_notifiers p); Some (Package (p_version p) rs.*1 (p_coordinator p) (p_error p), rs.*2).

Definition before_advance (clients : notifier S → Z → list action) (p : package S) : option (package S * list (list (Z * change_set S))) :=
  for_all_notifiers (λ n, Notifier.before_advance (clients n) n) p.
Definition after_advance (clients : notifier S → Z → list action) (p : package S) : option (package S * list (list (Z * change_set S))) :=
  for_all_notifiers (λ n, Notifier.after_advance (clients n) n) p.

(** [deliver], where [deliver_one] is the virtual function, and [reading] says that
    the shared group is in a read transaction. *)
Definition deliver (deliver_one : notifier S → option (notifier S)) (clients : notifier S → Z → list action) (reading : bool) (p : package S)
    : option (package S * list (list Z)) :=
  if p_error p then
    rs ← mapM (λ n, deliver_error (clients n) n) (p_notifiers p);
    Some (Package (p_version p) rs.*1 (p_coordinator p) (p_error p), rs.*2)
  else if negb reading then Some (p, [])
  else ns ← mapM deliver_one (p_notifiers p); Some (Package (p_version p) ns (p_coordinator p) (p_error p), []).

Definition add_notifier (p : package S) (n : notifier S) : package S :=
  Package (p_version p) (p_notifiers p ++ [n]) (p_coordinator p) (p_error p).

(** ** What is packaged *)

(** The notifiers of a list that have something to deliver. *)
Definition deliverable (n : notifier S) : bool := m_has_run n && prepared n.

Definition last_version (ns : list (notifier S)) (v : option Z) : option Z :=
  match last ns with Some n => Some (m_version n) | None => v end.

Lemma package_for_delivery_version n n' b : package_for_delivery n b = Some (n', true) → m_version n' = m_version n.
Proof.
  unfold package_for_delivery. destruct b; [|done]. cbn [negb]. destruct (mapM _ _) as [cbs|]; [|done]. by intros [= <-].
Qed.

Lemma package_each_spec ns v :
  (∀ n, n ∈ ns → deliverable n = true → ∃ n', package_for_delivery n true = Some (n', true)) →
  ∃ ns', package_each ns v = Some (ns', last_version (filter deliverable ns) v) ∧
    Forall2 (λ n n', package_for_delivery n true = Some (n', true)) (filter deliverable ns) ns'.
Proof.
  revert v. induction ns as [|n ns IH]; intros v Hns; cbn [package_each].
  { exists []. by split. }
  unfold deliverable in Hns. destruct (m_has_run n && prepared n) eqn:Ed.
  - rewrite filter_cons_True by (unfold deliverable; by rewrite Ed).
    destruct (Hns n) as [n' E]; [by left|done|]. apply andb_true_iff in Ed as [-> ->]. rewrite E. cbn [mbind option_bind].
    destruct (IH (Some (m_version n'))) as (ns' & -> & Hf); [intros x Hx; apply Hns; by right|]. cbn [mbind option_bind].
    exists (n' :: ns'). split; [|by constructor]. do 2 f_equal. unfold last_version. rewrite last_cons.
    destruct (last _); [done|]. f_equal. by eapply package_for_delivery_version.
  - rewrite filter_cons_False by (unfold deliverable; rewrite Ed; by intros []).
    assert ((if m_has_run n then package_for_delivery n (prepared n) else Some (n, false)) = Some (n, false)) as ->.
    { destruct (m_has_run n); [|done]. simpl in Ed. by rewrite Ed. }
    cbn [mbind option_bind]. apply IH. intros x Hx. apply Hns. by right.
Qed.

(** The package holds, in their order, exactly the notifiers that have run and
    have something to deliver, each packaged; its version is that of the last of
    them.  When this version is older than the one that was asked for, the package
    is empty.  A second call does nothing. *)
Theorem package_and_wait_correct p target woken :
  p_coordinator p = true → p_error p = false → p_notifiers p ≠ [] → p_version p = None →
  (∀ n, n ∈ woken → ready target n = true) →
  (∀ n, n ∈ woken → deliverable n = true → ∃ n', package_for_delivery n true = Some (n', true)) →
  let packaged := filter deliverable woken in
  let too_old := match last packaged, target with Some n, Some t => m_version n <? t | _, _ => false end in
  ∃ p', package_and_wait p target woken = Some p' ∧
    (if too_old then p_notifiers p' = [] ∧ p_version p' = None
     else Forall2 (λ n n', package_for_delivery n true = Some (n', true)) packaged (p_notifiers p') ∧
          p_version p' = m_version <$> last packaged) ∧
    ∀ woken', package_and_wait p' target woken' = Some p'.
Proof.
  intros Hc He Hn Hv Hready Hpack packaged too_old. unfold package_and_wait. rewrite Hc, He, (bool_decide_eq_false_2 _ Hn). cbn [negb orb].
  assert (forallb (ready target) woken = true) as -> by (apply forallb_forall; intros n Hin; by apply Hready, list_elem_of_In).
  cbn [check mbind option_bind]. destruct (package_each_spec woken (p_version p) Hpack) as (ns & -> & Hf). cbn [mbind option_bind].
  fold packaged in Hf |- *. rewrite Hv. unfold last_version, too_old. destruct (last packaged) as [n|] eqn:El.
  - destruct target as [t|]; [destruct (m_version n <? t)|]; cbn; (eexists; split; [done|]); by split.
  - apply last_None in El. rewrite El in *. apply Forall2_nil_inv_l in Hf as ->. destruct target; cbn; (eexists; split; [done|]); by split.
Qed.
End package.

Section concrete.
#[local] Existing Instance debug_build.
Definition run_at (v : Z) : notifier vec := Notifier [Callback 0 Changes.new no_changes false false] true npos npos 1 false true v [].

Lemma package_and_wait_witness :
  ∃ p', package_and_wait (λ _, true) (Package None [run_at 3] true false) (Some 2) [Notifier.new 1; run_at 3] = Some p' ∧
    (Forall2 (λ n n', package_for_delivery n true = Some (n', true)) [run_at 3] (p_notifiers p') ∧ p_version p' = Some 3) ∧
    ∀ woken', package_and_wait (λ _, true) p' (Some 2) woken' = Some p'.
Proof.
  apply (package_and_wait_correct (λ _, true) (Package None [run_at 3] true false) (Some 2) [Notifier.new 1; run_at 3]); try done.
  - intros n [->|[->|[]%elem_of_nil]%elem_of_cons]%elem_of_cons; reflexivity.
  - intros n [->|[->|[]%elem_of_nil]%elem_of_cons]%elem_of_cons; [done|]. intros _. by eexists.
Defined.
End concrete.
End Package.
