(* ===== verification/Schema.v ===== *)
(** * Schemas

    Model of schema.cpp, object_schema.cpp and property.hpp: classes with their
    properties, lookup, validation, and the changes that lead from one schema to
    another.  What the code points to in a change is a value here. *)

From Stdlib Require Import Ascii String.
From stdpp Require Import strings sorting.
From Stdlib Require Import String.
From stdpp Require Import strings.
From S2P Require Import Prelude ChangeCalculation.

Open Scope Z_scope.

(** ** Strings in order *)

Definition char_code (c : ascii) : Z := Z.of_N (N_of_ascii c).
(** A [char] is signed on the platforms of the library. *)
Definition char_value (c : ascii) : Z := if char_code c <? 128 then char_code c else char_code c - 256.

Fixpoint codes (f : ascii → Z) (s : string) : list Z :=
  match s with EmptyString => [] | String c s => f c :: codes f s end.

(** [std::lexicographical_compare] *)
Fixpoint lex_lt (a b : list Z) : bool :=
  match a, b with
  | _, [] => false
  | [], _ :: _ => true
  | x :: a, y :: b => (x <? y) || ((x =? y) && lex_lt a b)
  end.

(** [operator<] of [std::string], which compares bytes, and of [StringData], which
    compares [char]s. *)
Definition str_lt (a b : string) : bool := lex_lt (codes char_code a) (codes char_code b).
Definition data_lt (a b : string) : bool := lex_lt (codes char_value a) (codes char_value b).

(** [std::lower_bound], which needs a partitioned range. *)
Definition partitioned {A} (p : A → bool) (l : list A) : bool :=
  let k := find_if (λ x, negb (p x)) l in forallb (λ x, negb (p x)) (drop k l).
Definition lower_bound {A} (p : A → bool) (l : list A) : option nat :=
  REALM_ASSERT (partitioned p l) ;; Some (find_if (λ x, negb (p x)) l).

(** [std::partition], which does not keep the order. *)
Class Partitions := partition : ∀ {A}, (A → bool) → list A → list A.
Class PartitionLaws `{Partitions} := {
  partition_perm {A} (p : A → bool) l : partition p l ≡ₚ l;
  partition_split {A} (p : A → bool) l : ∃ l1 l2, partition p l = l1 ++ l2 ∧
    Forall (λ x, p x = true) l1 ∧ Forall (λ x, p x = false) l2
}.

(** [std::adjacent_find] with the rest after the pair. *)
Fixpoint adjacent_find {A} (eqb : A → A → bool) (l : list A) : option (A * list A) :=
  match l with
  | x :: ((y :: l'') as l') => if eqb x y then Some (x, l') else adjacent_find eqb l'
  | _ => None
  end.

(** [std::set_intersection] *)
Fixpoint set_intersection (a : list string) : list string → list string :=
  fix go b :=
    match a, b with
    | x :: a', y :: b' =>
        if data_lt x y then set_intersection a' b
        else if data_lt y x then go b'
        else x :: set_intersection a' b'
    | _, _ => []
    end.

(** ** Property types *)

(** [PropertyType]: an [unsigned char] of a base type and two flags. *)
Abbreviation PropertyType := Z.
Definition PT_Int := 0.
Definition PT_Bool := 1.
Definition PT_String := 2.
Definition PT_Data := 3.
Definition PT_Date := 4.
Definition PT_Float := 5.
Definition PT_Double := 6.
Definition PT_Object := 7.
Definition PT_LinkingObjects := 8.
Definition PT_Any := 9.
Definition PT_Nullable := 64.
Definition PT_Array := 128.
Definition PT_Flags := Z.lor PT_Nullable PT_Array.

(** [type & ~PropertyType::Flags] *)
Definition base_type (t : PropertyType) : PropertyType := Z.land t (255 - PT_Flags).
(** [operator==], which compares the base types *)
Definition type_eqb (a b : PropertyType) : bool := base_type a =? base_type b.
Definition is_array (t : PropertyType) : bool := Z.land t PT_Array =? PT_Array.
Definition is_nullable (t : PropertyType) : bool := Z.land t PT_Nullable =? PT_Nullable.

(** [string_for_property_type]; [None] is unreachable. *)
Definition string_for_property_type (t : PropertyType) : option string :=
  if is_array t then Some (if type_eqb t PT_LinkingObjects then "linking objects" else "array")%string
  else if type_eqb t PT_String then Some "string"%string
  else if type_eqb t PT_Int then Some "int"%string
  else if type_eqb t PT_Bool then Some "bool"%string
  else if type_eqb t PT_Date then Some "date"%string
  else if type_eqb t PT_Data then Some "data"%string
  else if type_eqb t PT_Double then Some "double"%string
  else if type_eqb t PT_Float then Some "float"%string
  else if type_eqb t PT_Object then Some "object"%string
  else if type_eqb t PT_Any then Some "any"%string
  else if type_eqb t PT_LinkingObjects then Some "linking objects"%string
  else None.

(** ** Properties and classes *)

Record Property := MkProperty {
  name : string; public_name : string; type : PropertyType; object_type : string; link_origin_property_name : string;
  is_primary : bool; is_indexed : bool; table_column : Z
}.

Record ObjectSchema := MkObjectSchema {
  class_name : string; persisted_properties : list Property; computed_properties : list Property; primary_key : string
}.

#[export] Instance Property_dec : EqDecision Property.
Proof. solve_decision. Defined.
#[export] Instance ObjectSchema_dec : EqDecision ObjectSchema.
Proof. solve_decision. Defined.

Module Props.
Definition requires_index (p : Property) : bool := is_primary p || is_indexed p.

Definition type_is_indexable (p : Property) : bool :=
  type_eqb (type p) PT_Int || type_eqb (type p) PT_Bool || type_eqb (type p) PT_Date || type_eqb (type p) PT_String.

Definition type_is_nullable (p : Property) : bool :=
  negb (is_array (type p) && type_eqb (type p) PT_Object) && negb (type_eqb (type p) PT_LinkingObjects).

Definition type_string (p : Property) : option string :=
  if is_array (type p) then
    if type_eqb (type p) PT_Object then Some ("array<" ++ object_type p ++ ">")%string
    else if type_eqb (type p) PT_LinkingObjects then Some ("linking objects<" ++ object_type p ++ ">")%string
    else s ← string_for_property_type (base_type (type p)); Some ("array<" ++ s ++ ">")%string
  else if type_eqb (type p) PT_Object then Some ("<" ++ object_type p ++ ">")%string
  else if type_eqb (type p) PT_LinkingObjects then Some ("linking objects<" ++ object_type p ++ ">")%string
  else string_for_property_type (base_type (type p)).

(** [operator==], which leaves the column and the public name out *)
Definition eqb (a b : Property) : bool :=
  (type a =? type b) && Bool.eqb (is_primary a) (is_primary b) && Bool.eqb (requires_index a) (requires_index b)
  && bool_decide (name a = name b) && bool_decide (object_type a = object_type b)
  && bool_decide (link_origin_property_name a = link_origin_property_name b).
End Props.

Module Class_.
Definition find (p : Property → bool) (l : list Property) : option Property := l !! find_if p l.

Definition property_for_name (os : ObjectSchema) (n : string) : option Property :=
  match find (λ p, bool_decide (name p = n)) (persisted_properties os) with
  | Some p => Some p
  | None => find (λ p, bool_decide (name p = n)) (computed_properties os)
  end.

Definition property_for_public_name (os : ObjectSchema) (n : string) : option Property :=
  match find (λ p, bool_decide (public_name p = n) || (bool_decide (public_name p = ""%string) && bool_decide (name p = n))) (persisted_properties os) with
  | Some p => Some p
  | None => find (λ p, bool_decide ((if bool_decide (public_name p = ""%string) then name p else public_name p) = n)) (computed_properties os)
  end.

Definition primary_key_property (os : ObjectSchema) : option Property := property_for_name os (primary_key os).

Definition property_is_computed (os : ObjectSchema) (p : Property) : bool := existsb (λ q, Props.eqb q p) (computed_properties os).
End Class_.
Import Class_.

(** ** Schemas *)

Abbreviation Schema := (list ObjectSchema).

Section schema.
Context `{Sorts}.

(** The constructor sorts by name, *)
Definition make_schema (types : list ObjectSchema) : Schema := sort_by (λ a b, str_lt (class_name a) (class_name b)) types.
End schema.

(** and [find] searches in the order of [StringData]; [None] when the class is not
    there, and stuck when the range is not partitioned. *)
Definition find_class (s : Schema) (n : string) : option (option ObjectSchema) :=
  it ← lower_bound (λ os, data_lt (class_name os) n) s;
  Some (match s !! it with
        | Some os => if bool_decide (class_name os = n) then Some os else None
        | None => None
        end).

(** * Validation of schemas

    Model of [Schema::validate] and [ObjectSchema::validate].  An exception is its
    format with the arguments. *)

Import Class_.
Open Scope string_scope.
Open Scope list_scope.
Open Scope Z_scope.

(** [ObjectSchemaValidationException] *)
Abbreviation exception := (string * list string)%type.

Module Validate.

(** [string_for_property_type], for a message *)
Definition type_name (p : Property) : string := default "" (string_for_property_type (type p)).

(** The checks of [validate_property], in their order. *)
Definition check_linking (obj : string) (p : Property) : list exception :=
  if type_eqb (type p) PT_LinkingObjects && negb (is_array (type p))
  then [("Linking Objects property '%1.%2' must be an array.", [obj; name p])] else [].

Definition check_nullable (obj : string) (p : Property) : list exception :=
  if is_nullable (type p) && negb (Props.type_is_nullable p)
  then [("Property '%1.%2' of type '%3' cannot be nullable.", [obj; name p; type_name p])]
  else if type_eqb (type p) PT_Object && negb (is_nullable (type p)) && negb (is_array (type p))
  then [("Property '%1.%2' of type 'object' must be nullable.", [obj; name p])] else [].

Definition check_primary (obj : string) (p : Property) (primary : option Property) : list exception * option Property :=
  if is_primary p then
    ((if negb (type_eqb (type p) PT_Int) && negb (type_eqb (type p) PT_String)
      then [("Property '%1.%2' of type '%3' cannot be made the primary key.", [obj; name p; type_name p])] else []) ++
     (match primary with
      | Some q => [("Properties '%1' and '%2' are both marked as the primary key of '%3'.", [name p; name q; obj])]
      | None => []
      end), Some p)
  else ([], primary).

Definition check_indexed (obj : string) (p : Property) : list exception :=
  if is_indexed p && negb (Props.type_is_indexable p)
  then [("Property '%1.%2' of type '%3' cannot be indexed.", [obj; name p; type_name p])] else [].

Definition check_origin_name (obj : string) (p : Property) : list exception :=
  if negb (type_eqb (type p) PT_LinkingObjects) && negb (bool_decide (link_origin_property_name p = ""))
  then [("Property '%1.%2' of type '%3' cannot have an origin property name.", [obj; name p; type_name p])]
  else if type_eqb (type p) PT_LinkingObjects && bool_decide (link_origin_property_name p = "")
  then [("Property '%1.%2' of type '%3' must have an origin property name.", [obj; name p; type_name p])] else [].

(** The property that a linking objects property names as its origin. *)
Definition check_origin (obj : string) (p : Property) (target : ObjectSchema) : list exception :=
  match property_for_name target (link_origin_property_name p) with
  | None => [("Property '%1.%2' declared as origin of linking objects property '%3.%4' does not exist",
              [object_type p; link_origin_property_name p; obj; name p])]
  | Some o =>
      if negb (type_eqb (type o) PT_Object) then
        [("Property '%1.%2' declared as origin of linking objects property '%3.%4' is not a link",
          [object_type p; link_origin_property_name p; obj; name p])]
      else if negb (bool_decide (object_type o = obj)) then
        [("Property '%1.%2' declared as origin of linking objects property '%3.%4' links to type '%5'",
          [object_type p; link_origin_property_name p; obj; name p; object_type o])]
      else []
  end.

Definition check_object_type (s : Schema) (obj : string) (p : Property) : option (list exception) :=
  if negb (type_eqb (type p) PT_Object) && negb (type_eqb (type p) PT_LinkingObjects) then
    Some (if negb (bool_decide (object_type p = ""))
          then [("Property '%1.%2' of type '%3' cannot have an object type.", [obj; name p; default "" (Props.type_string p)])] else [])
  else
    it ← find_class s (object_type p);
    Some (match it with
          | None => [("Property '%1.%2' of type '%3' has unknown object type '%4'", [obj; name p; type_name p; object_type p])]
          | Some target => if negb (type_eqb (type p) PT_LinkingObjects) then [] else check_origin obj p target
          end).

Definition validate_property (s : Schema) (obj : string) (p : Property) (primary : option Property)
    : option (list exception * option Property) :=
  let '(es, primary) := check_primary obj p primary in
  last ← check_object_type s obj p;
  Some (check_linking obj p ++ check_nullable obj p ++ es ++ check_indexed obj p ++ check_origin_name obj p ++ last, primary).

Fixpoint validate_properties (s : Schema) (obj : string) (ps : list Property) (primary : option Property)
    : option (list exception * option Property) :=
  match ps with
  | [] => Some ([], primary)
  | p :: ps =>
      '(es, primary) ← validate_property s obj p primary;
      '(es', primary) ← validate_properties s obj ps primary;
      Some (es ++ es', primary)
  end.

(** ** Names *)

Definition all_properties (os : ObjectSchema) : list Property := persisted_properties os ++ computed_properties os.

Definition aliases (ps : list Property) : list string := filter (λ n, n ≠ "") (public_name <$> ps).

Section names.
Context `{Sorts}.

Definition public_property_names (os : ObjectSchema) : list string := sort_by data_lt (aliases (all_properties os)).
Definition internal_property_names (os : ObjectSchema) : list string := sort_by data_lt (name <$> all_properties os).

(** [for_each_duplicate]; after a pair the search goes on behind it. *)
Fixpoint duplicates (fuel : nat) (l : list string) : list string :=
  match fuel with
  | O => []
  | S fuel =>
      match adjacent_find (λ a b, bool_decide (a = b)) l with
      | Some (n, rest) => n :: duplicates fuel (tail rest)
      | None => []
      end
  end.

Definition alias_conflict (os : ObjectSchema) (n : string) : option exception :=
  p ← property_for_public_name os n;
  Some ("Property '%1.%2' has an alias '%3' that conflicts with a property of the same name.", [class_name os; name p; n]).

(** [ObjectSchema::validate] *)
Definition validate_class (s : Schema) (os : ObjectSchema) : option (list exception) :=
  let public := public_property_names os in
  let internal := internal_property_names os in
  let es1 := (λ n, ("Alias '%1' appears more than once in the schema for type '%2'.", [n; class_name os])) <$> duplicates (length public) public in
  let es2 := (λ n, ("Property '%1' appears more than once in the schema for type '%2'.", [n; class_name os])) <$> duplicates (length internal) internal in
  es3 ← mapM (alias_conflict os) (set_intersection public internal);
  '(es4, primary) ← validate_properties s (class_name os) (persisted_properties os) None;
  '(es5, primary) ← validate_properties s (class_name os) (computed_properties os) primary;
  let es6 := if negb (bool_decide (primary_key os = "")) && bool_decide (primary = None) && bool_decide (primary_key_property os = None)
             then [("Specified primary key '%1.%2' does not exist.", [class_name os; primary_key os])] else [] in
  Some (es1 ++ es2 ++ es3 ++ es4 ++ es5 ++ es6).

(** The duplicates among the classes, which are sorted. *)
Fixpoint duplicate_classes (fuel : nat) (s : Schema) : list string :=
  match fuel with
  | O => []
  | S fuel =>
      match adjacent_find (λ a b, bool_decide (class_name a = class_name b)) s with
      | Some (os, rest) => class_name os :: duplicate_classes fuel rest
      | None => []
      end
  end.

(** [Schema::validate]: the exceptions it throws together, none when it returns *)
Definition validate (s : Schema) : option (list exception) :=
  let es := (λ n, ("Type '%1' appears more than once in the schema.", [n])) <$> duplicate_classes (length s) s in
  ess ← mapM (validate_class s) s;
  Some (es ++ concat ess).
End names.
End Validate.
