(* ===== verification/SchemaValidationTheorems.v ===== *)
(** * Orders on names

    The two orders of strings, binary search in a sorted schema, and the searches in
    sorted lists of names. *)

From Stdlib Require Import Ascii String Sorted.
From stdpp Require Import strings sorting.
From S2P Require Import Prelude ChangeCalculation Schema.

Open Scope string_scope.
Open Scope list_scope.
Open Scope Z_scope.

(** ** Lexicographical order *)

Lemma lex_irrefl a : lex_lt a a = false.
Proof. induction a as [|x a IH]; [done|]. simpl. rewrite IH. by destruct (Z.ltb_spec x x); [lia|rewrite andb_false_r]. Qed.

Lemma lex_cons x a y b : lex_lt (x :: a) (y :: b) = true ↔ x < y ∨ (x = y ∧ lex_lt a b = true).
Proof. simpl. rewrite orb_true_iff, andb_true_iff, Z.ltb_lt, Z.eqb_eq. done. Qed.

Lemma lex_trans a b c : lex_lt a b = true → lex_lt b c = true → lex_lt a c = true.
Proof.
  revert b c. induction a as [|x a IH]; intros [|y b] [|z c]; try done.
  rewrite !lex_cons. intros [?|[-> ?]] [?|[-> ?]]; [left; lia|by left|by left|right]. split; [done|]. by eapply IH.
Qed.

Lemma lex_total a b : lex_lt a b = true ∨ a = b ∨ lex_lt b a = true.
Proof.
  revert b. induction a as [|x a IH]; intros [|y b]; [by right; left|by left|by right; right|]. rewrite !lex_cons.
  destruct (Z.lt_trichotomy x y) as [?|[->|?]]; [by left; left| |by right; right; left].
  destruct (IH b) as [?|[->|?]]; auto.
Qed.

Lemma lex_antisym a b : lex_lt a b = true → lex_lt b a = false.
Proof.
  intros H. apply not_true_is_false. intros H'. pose proof (lex_trans _ _ _ H H') as Hc. by rewrite lex_irrefl in Hc.
Qed.

Lemma lex_negtrans a b c : lex_lt a b = false → lex_lt b c = false → lex_lt a c = false.
Proof.
  intros H1 H2. apply not_true_is_false. intros H. destruct (lex_total b c) as [?|[->|Hcb]]; [congruence|congruence|].
  pose proof (lex_trans _ _ _ H Hcb). congruence.
Qed.

(** ** The two orders of names *)

Lemma char_code_bounds c : 0 <= char_code c < 256.
Proof. unfold char_code. destruct c as [[] [] [] [] [] [] [] []]; vm_compute; done. Qed.

Lemma char_code_inj c d : char_code c = char_code d → c = d.
Proof.
  unfold char_code. intros H%N2Z.inj. rewrite <- (ascii_N_embedding c), <- (ascii_N_embedding d). by rewrite H.
Qed.

Lemma char_value_inj c d : char_value c = char_value d → c = d.
Proof.
  intros H. apply char_code_inj. pose proof (char_code_bounds c). pose proof (char_code_bounds d).
  unfold char_value in H. destruct (Z.ltb_spec (char_code c) 128), (Z.ltb_spec (char_code d) 128); lia.
Qed.

Lemma codes_inj f a b : (∀ c d, f c = f d → c = d) → codes f a = codes f b → a = b.
Proof.
  intros Hf. revert b. induction a as [|c a IH]; intros [|d b]; try done. simpl. intros [= Hc Hb].
  by rewrite (Hf _ _ Hc), (IH _ Hb).
Qed.

(** What the order of [std::sort] and of binary search needs. *)
Class NameOrder (lt : string → string → bool) := {
  no_irrefl a : lt a a = false;
  no_antisym a b : lt a b = true → lt b a = false;
  no_negtrans a b c : lt a b = false → lt b c = false → lt a c = false;
  no_total a b : lt a b = false → lt b a = false → a = b
}.

Lemma codes_order f : (∀ c d, f c = f d → c = d) → NameOrder (λ a b, lex_lt (codes f a) (codes f b)).
Proof.
  intros Hf. constructor.
  - intros a. apply lex_irrefl.
  - intros a b. apply lex_antisym.
  - intros a b c. apply lex_negtrans.
  - intros a b H1 H2. apply (codes_inj f _ _ Hf). destruct (lex_total (codes f a) (codes f b)) as [?|[?|?]]; congruence.
Qed.

#[export] Instance str_order : NameOrder str_lt := codes_order char_code char_code_inj.
#[export] Instance data_order : NameOrder data_lt := codes_order char_value char_value_inj.

Lemma weak_by {A} (f : A → string) lt `{NameOrder lt} : weak_order (λ x y, lt (f x) (f y)).
Proof. split; [intros x y z; apply no_negtrans|intros x y; apply no_antisym]. Qed.

(** The orders agree on names of ASCII characters. *)
Fixpoint is_ascii (s : string) : bool := match s with EmptyString => true | String c s => (char_code c <? 128) && is_ascii s end.

Lemma ascii_codes s : is_ascii s = true → codes char_value s = codes char_code s.
Proof.
  induction s as [|c s IH]; [done|]. simpl. rewrite andb_true_iff. intros [Hc Hs]. rewrite IH by done. f_equal. unfold char_value. by rewrite Hc.
Qed.

Lemma ascii_data_lt a b : is_ascii a = true → is_ascii b = true → data_lt a b = str_lt a b.
Proof. intros Ha Hb. unfold data_lt, str_lt. by rewrite !ascii_codes. Qed.

(** ** Sorted lists of names *)

Section sorted.
Context (lt : string → string → bool) {order : NameOrder lt}.

Definition ordered (l : list string) : Prop := StronglySorted (λ x y, lt y x = false) l.

Lemma ordered_cons x l : ordered (x :: l) ↔ (∀ y, y ∈ l → lt y x = false) ∧ ordered l.
Proof.
  unfold ordered. split.
  - intros [Hs Hf]%StronglySorted_inv. split; [|done]. by apply Forall_forall.
  - intros [Hf Hs]. constructor; [done|]. by apply Forall_forall.
Qed.

Lemma ordered_suffix l1 l2 : ordered (l1 ++ l2) → ordered l2.
Proof. induction l1 as [|x l1 IH]; [done|]. cbn [app]. rewrite ordered_cons. intros [_ Hs]. by apply IH. Qed.

(** In a sorted list equal names are neighbours. *)
Lemma adjacent_none {A} (f : A → string) (l : list A) :
  ordered (f <$> l) → adjacent_find (λ a b, bool_decide (f a = f b)) l = None ↔ NoDup (f <$> l).
Proof.
  induction l as [|x [|y l] IH]; intros Hs.
  - split; [constructor|done].
  - split; [intros _; apply NoDup_singleton|done].
  - cbn [fmap list_fmap] in Hs |- *. apply ordered_cons in Hs as [Hx Hs]. specialize (IH Hs). cbn [adjacent_find].
    case_bool_decide as Exy.
    + split; [done|]. rewrite Exy. intros Hnd. inversion Hnd as [|? ? Hn _]; subst. destruct Hn. by left.
    + etransitivity; [exact IH|]. cbn [fmap list_fmap]. split; [|by intros Hnd; inversion Hnd]. intros Hnd. constructor; [|done].
      intros [E|Hin]%elem_of_cons; [done|]. apply Exy. apply no_total; [|by apply Hx; left].
      apply ordered_cons in Hs as [Hy _]. apply (no_negtrans _ (f x)); [apply no_irrefl|]. by apply Hy.
Qed.
End sorted.

(** ** Binary search *)

Lemma lower_bound_spec {A} (f : A → string) (lt : string → string → bool) `{NameOrder lt} (l : list A) n :
  ordered lt (f <$> l) →
  ∃ l1 l2, l = l1 ++ l2 ∧ lower_bound (λ x, lt (f x) n) l = Some (length l1) ∧
    (∀ x, x ∈ l1 → lt (f x) n = true) ∧ (∀ x, x ∈ l2 → lt (f x) n = false).
Proof.
  intros Hs. unfold lower_bound, partitioned. set (p := λ x, negb (lt (f x) n)).
  destruct (find_if_spec p l) as [[E Hn]|(l1 & x & l2 & -> & E & Hn & Hx)]; rewrite E.
  - rewrite drop_all. exists l, []. rewrite app_nil_r. split; [done|]. split; [done|]. split; [|by intros x ?%elem_of_nil].
    intros x Hx. rewrite Forall_forall in Hn. specialize (Hn x Hx). by apply negb_false_iff in Hn.
  - rewrite drop_middle. apply negb_true_iff in Hx.
    assert (∀ y, y ∈ x :: l2 → lt (f y) n = false) as Hl2.
    { intros y [->|Hy]%elem_of_cons; [done|]. rewrite fmap_app in Hs. apply ordered_suffix in Hs. cbn [fmap list_fmap] in Hs.
      apply ordered_cons in Hs as [Hs _]. apply (no_negtrans _ (f x)); [|done]. apply Hs. by apply list_elem_of_fmap_2. }
    assert (forallb p (x :: l2) = true) as ->.
    { apply forallb_forall. intros y Hy%list_elem_of_In. unfold p. by rewrite Hl2. }
    exists l1, (x :: l2). split; [done|]. split; [done|]. split; [|done].
    intros y Hy. rewrite Forall_forall in Hn. specialize (Hn y Hy). by apply negb_false_iff in Hn.
Qed.

Definition schema_ordered (s : Schema) : Prop := ordered data_lt (class_name <$> s).

Lemma find_class_spec s n :
  schema_ordered s →
  ∃ r, find_class s n = Some r ∧
    match r with Some os => os ∈ s ∧ class_name os = n | None => n ∉ class_name <$> s end.
Proof.
  intros Hs. unfold find_class. destruct (lower_bound_spec class_name data_lt s n Hs) as (l1 & l2 & -> & -> & H1 & H2).
  cbn [mbind option_bind]. eexists. split; [done|]. rewrite lookup_app_r, Nat.sub_diag by lia.
  assert (∀ os, os ∈ l1 → class_name os ≠ n) as Hl1.
  { intros os Hos <-. specialize (H1 os Hos). by rewrite no_irrefl in H1. }
  destruct l2 as [|os l2]; cbn [lookup list_lookup].
  { rewrite app_nil_r. intros (os & -> & Hos)%list_elem_of_fmap. by apply (Hl1 os). }
  case_bool_decide as En; [split; [apply elem_of_app; right; by left|done]|].
  intros (c & -> & [Hc|[->|Hc]%elem_of_cons]%elem_of_app)%list_elem_of_fmap; [by apply (Hl1 c)|done|].
  apply En. apply (no_total (lt := data_lt)); [apply H2; by left|]. unfold schema_ordered in Hs. rewrite fmap_app in Hs.
  apply ordered_suffix in Hs. apply (ordered_cons data_lt) in Hs as [Hs _]. apply Hs. by apply list_elem_of_fmap_2.
Qed.

(** The constructor sorts by bytes, which is the order of the search for ASCII names. *)
Lemma ascii_schema_ordered s :
  (∀ os, os ∈ s → is_ascii (class_name os) = true) → ordered str_lt (class_name <$> s) → schema_ordered s.
Proof.
  unfold schema_ordered. induction s as [|os s IH]; intros Ha; cbn [fmap list_fmap].
  - intros _. constructor.
  - rewrite !ordered_cons. intros [Hx Hs]. split; [|apply IH; [intros c Hc; apply Ha; by right|done]].
    intros y Hy. pose proof (Hx y Hy) as E. apply list_elem_of_fmap in Hy as (c & -> & Hc).
    rewrite ascii_data_lt; [done|apply Ha; by right|apply Ha; by left].
Qed.

Lemma make_schema_ordered `{SortLaws} types : ordered str_lt (class_name <$> make_schema types).
Proof.
  unfold make_schema, ordered. apply StronglySorted_fmap with (R1 := λ a b, str_lt (class_name b) (class_name a) = false).
  - done.
  - apply (sort_by_sorted (λ a b, str_lt (class_name a) (class_name b))). apply (weak_by class_name str_lt).
Qed.

(** ** Common names *)

Lemma set_intersection_sound a b x : x ∈ set_intersection a b → x ∈ a ∧ x ∈ b.
Proof.
  revert b. induction a as [|y a IHa]; intros b; [by destruct b; intros ?%elem_of_nil|].
  induction b as [|z b IHb]; [by intros ?%elem_of_nil|]. cbn [set_intersection].
  destruct (data_lt y z) eqn:E1; [intros [? ?]%IHa; split; [by right|done]|].
  destruct (data_lt z y) eqn:E2; [intros [? ?]%IHb; split; [done|by right]|].
  rewrite (no_total (lt := data_lt) y z E1 E2). intros [->|[? ?]%IHa]%elem_of_cons; [split; by left|split; by right].
Qed.

Lemma set_intersection_none a b :
  ordered data_lt a → ordered data_lt b → set_intersection a b = [] → ∀ x, x ∈ a → x ∉ b.
Proof.
  revert b. induction a as [|y a IHa]; intros b; [by intros ??? x ?%elem_of_nil|].
  induction b as [|z b IHb]; [by intros ??? x ? ?%elem_of_nil|]. intros Ha Hb. cbn [set_intersection].
  pose proof Ha as [Hya Ha']%(ordered_cons data_lt). pose proof Hb as [Hzb Hb']%(ordered_cons data_lt).
  destruct (data_lt y z) eqn:E1.
  { intros E x [->|Hx]%elem_of_cons; [|by apply (IHa (z :: b) Ha' Hb E)].
    intros [->|Hx]%elem_of_cons; [by rewrite no_irrefl in E1|].
    specialize (Hzb y Hx). congruence. }
  destruct (data_lt z y) eqn:E2; [|done]. intros E x Hx. apply not_elem_of_cons. split; [|by apply (IHb Ha Hb' E)].
  intros ->. apply elem_of_cons in Hx as [->|Hx]; [by rewrite no_irrefl in E2|]. specialize (Hya z Hx). congruence.
Qed.

(** * Validation finds exactly the schemas that are not well formed *)

Import Class_ Validate.
Open Scope string_scope.
Open Scope list_scope.
Open Scope Z_scope.

(** ** Well-formed schemas *)

Definition has_base (p : Property) (t : PropertyType) : Prop := base_type (type p) = t.

(** A property of the class [obj]. *)
Record valid_property (s : Schema) (obj : string) (p : Property) : Prop := {
  vp_linking : has_base p PT_LinkingObjects → is_array (type p) = true ∧ is_nullable (type p) = false;
  vp_object : has_base p PT_Object → is_nullable (type p) = negb (is_array (type p));
  vp_primary : is_primary p = true → has_base p PT_Int ∨ has_base p PT_String;
  vp_indexed : is_indexed p = true → has_base p PT_Int ∨ has_base p PT_Bool ∨ has_base p PT_Date ∨ has_base p PT_String;
  vp_origin_name : has_base p PT_LinkingObjects ↔ link_origin_property_name p ≠ "";
  vp_plain : ¬ has_base p PT_Object → ¬ has_base p PT_LinkingObjects → object_type p = "";
  vp_target : has_base p PT_Object ∨ has_base p PT_LinkingObjects → ∃ c, c ∈ s ∧ class_name c = object_type p;
  vp_origin : has_base p PT_LinkingObjects → ∀ c, c ∈ s → class_name c = object_type p →
    ∃ o, property_for_name c (link_origin_property_name p) = Some o ∧ has_base o PT_Object ∧ object_type o = obj
}.

Record valid_class (s : Schema) (os : ObjectSchema) : Prop := {
  vc_names : NoDup (name <$> all_properties os);
  vc_aliases : NoDup (aliases (all_properties os));
  vc_apart n : n ∈ aliases (all_properties os) → n ∉ name <$> all_properties os;
  vc_properties p : p ∈ all_properties os → valid_property s (class_name os) p;
  vc_one_primary : (length (filter (λ p, is_primary p = true) (all_properties os)) <= 1)%nat;
  vc_primary_key : primary_key os ≠ "" → (∃ p, p ∈ all_properties os ∧ is_primary p = true) ∨ primary_key_property os ≠ None
}.

Definition valid_schema (s : Schema) : Prop := NoDup (class_name <$> s) ∧ ∀ os, os ∈ s → valid_class s os.

(** ** Properties *)

#[export] Instance has_base_dec p t : Decision (has_base p t).
Proof. unfold has_base. apply _. Defined.

Lemma eqb_base p t : base_type t = t → type_eqb (type p) t = bool_decide (has_base p t).
Proof. intros Ht. unfold type_eqb, has_base. rewrite Ht. by rewrite bool_decide_decide; destruct (decide _), (Z.eqb_spec (base_type (type p)) t). Qed.

Lemma if_nil {A} (b : bool) (x : A) : (if b then [x] else []) = [] ↔ b = false.
Proof. by destruct b. Qed.

(** Decide the base types that the goal tests. *)
Ltac bases :=
  repeat match goal with |- context [type_eqb (type ?p) ?t] => rewrite (eqb_base p t) by done end.

Lemma bases_apart p : ¬ (has_base p PT_Object ∧ has_base p PT_LinkingObjects).
Proof. intros [H1 H2]. unfold has_base in *. by rewrite H1 in H2. Qed.

Lemma class_unique s c d : NoDup (class_name <$> s) → c ∈ s → d ∈ s → class_name c = class_name d → c = d.
Proof.
  intros Hnd [i Hi]%list_elem_of_lookup [j Hj]%list_elem_of_lookup E.
  assert (i = j) as ->; [|congruence]. eapply (NoDup_lookup _ i j); [exact Hnd|..]; rewrite list_lookup_fmap, ?Hi, ?Hj; simpl; by f_equal.
Qed.

Lemma check_origin_spec obj p c :
  check_origin obj p c = [] ↔ ∃ o, property_for_name c (link_origin_property_name p) = Some o ∧ has_base o PT_Object ∧ object_type o = obj.
Proof.
  unfold check_origin. destruct (property_for_name c _) as [o|]; [|split; [done|by intros (? & ? & _)]]. bases.
  destruct (bool_decide_reflect (has_base o PT_Object)) as [Ho|Ho]; cbn [negb].
  - case_bool_decide as E; cbn [negb]; (split; [|]); try done; [intros _; by exists o|]. intros (o' & [= <-] & _ & ?). congruence.
  - split; [done|]. intros (o' & [= <-] & Hb & _). done.
Qed.

Lemma check_object_type_spec s obj p :
  schema_ordered s →
  ∃ es, check_object_type s obj p = Some es ∧ (NoDup (class_name <$> s) →
     es = [] ↔ (¬ has_base p PT_Object → ¬ has_base p PT_LinkingObjects → object_type p = "") ∧
      (has_base p PT_Object ∨ has_base p PT_LinkingObjects → ∃ c, c ∈ s ∧ class_name c = object_type p) ∧
      (has_base p PT_LinkingObjects → ∀ c, c ∈ s → class_name c = object_type p →
        ∃ o, property_for_name c (link_origin_property_name p) = Some o ∧ has_base o PT_Object ∧ object_type o = obj)).
Proof.
  intros Hs. unfold check_object_type. bases.
  destruct (bool_decide_reflect (has_base p PT_Object)) as [Ho|Ho], (bool_decide_reflect (has_base p PT_LinkingObjects)) as [Hl|Hl]; cbn [negb andb].
  - by destruct (bases_apart p).
  - destruct (find_class_spec s (object_type p) Hs) as ([c|] & -> & Hr); cbn [mbind option_bind]; (eexists; split; [done|]; intros Hnd).
    + split; [intros _|done]. split; [done|]. split; [intros _; by exists c|done].
    + split; [done|]. intros (_ & Ht & _). destruct Ht as (c & Hc & En); [by left|]. destruct Hr. rewrite <- En. by apply list_elem_of_fmap_2.
  - destruct (find_class_spec s (object_type p) Hs) as ([c|] & -> & Hr); cbn [mbind option_bind]; (eexists; split; [done|]; intros Hnd).
    + destruct Hr as [Hc En]. rewrite check_origin_spec. split.
      * intros Hor. split; [done|]. split; [intros _; by exists c|]. intros _ c' Hc' En'.
        by rewrite (class_unique s c' c Hnd Hc' Hc) by congruence.
      * intros (_ & _ & Hor). by apply Hor.
    + split; [done|]. intros (_ & Ht & _). destruct Ht as (c & Hc & En); [by right|]. destruct Hr. rewrite <- En. by apply list_elem_of_fmap_2.
  - eexists. split; [done|]. intros _. case_bool_decide as E; cbn [negb].
    + split; [|done]. intros _. split; [done|]. split; [by intros [?|?]|done].
    + split; [done|]. intros (Hp & _). destruct E. by apply Hp.
Qed.

Lemma check_linking_nil obj p : check_linking obj p = [] ↔ (has_base p PT_LinkingObjects → is_array (type p) = true).
Proof.
  unfold check_linking. bases. destruct (bool_decide_reflect (has_base p PT_LinkingObjects)), (is_array (type p)); simpl; naive_solver.
Qed.

Lemma check_nullable_nil obj p :
  check_nullable obj p = [] ↔ (has_base p PT_LinkingObjects → is_nullable (type p) = false) ∧
    (has_base p PT_Object → is_nullable (type p) = negb (is_array (type p))).
Proof.
  unfold check_nullable, Props.type_is_nullable. bases. pose proof (bases_apart p).
  destruct (bool_decide_reflect (has_base p PT_LinkingObjects)), (bool_decide_reflect (has_base p PT_Object)),
    (is_array (type p)), (is_nullable (type p)); simpl; naive_solver.
Qed.

Lemma check_primary_nil obj p q :
  (check_primary obj p q).1 = [] ↔ (is_primary p = true → (has_base p PT_Int ∨ has_base p PT_String) ∧ q = None).
Proof.
  unfold check_primary. destruct (is_primary p); [|naive_solver]. bases. simpl.
  destruct (bool_decide_reflect (has_base p PT_Int)), (bool_decide_reflect (has_base p PT_String)), q; simpl; naive_solver.
Qed.

Lemma check_indexed_nil obj p :
  check_indexed obj p = [] ↔ (is_indexed p = true → has_base p PT_Int ∨ has_base p PT_Bool ∨ has_base p PT_Date ∨ has_base p PT_String).
Proof.
  unfold check_indexed, Props.type_is_indexable. bases.
  destruct (is_indexed p), (bool_decide_reflect (has_base p PT_Int)), (bool_decide_reflect (has_base p PT_Bool)),
    (bool_decide_reflect (has_base p PT_Date)), (bool_decide_reflect (has_base p PT_String)); simpl; naive_solver.
Qed.

Lemma check_origin_name_nil obj p :
  check_origin_name obj p = [] ↔ (has_base p PT_LinkingObjects ↔ link_origin_property_name p ≠ "").
Proof.
  unfold check_origin_name. bases.
  destruct (bool_decide_reflect (has_base p PT_LinkingObjects)), (bool_decide_reflect (link_origin_property_name p = "")); simpl; naive_solver.
Qed.

Lemma validate_property_spec s obj p q :
  schema_ordered s →
  ∃ es, validate_property s obj p q = Some (es, if is_primary p then Some p else q) ∧ (NoDup (class_name <$> s) →
     es = [] ↔ valid_property s obj p ∧ (is_primary p = true → q = None)).
Proof.
  intros Hs. unfold validate_property.
  pose proof (check_primary_nil obj p q) as Hp.
  assert ((check_primary obj p q).2 = if is_primary p then Some p else q) as E2 by (unfold check_primary; by destruct (is_primary p)).
  destruct (check_primary obj p q) as [es q']. cbn in E2, Hp. subst q'.
  destruct (check_object_type_spec s obj p Hs) as (last & -> & Hlast). cbn [mbind option_bind]. eexists. split; [done|].
  intros Hnd. specialize (Hlast Hnd). rewrite !app_nil, check_linking_nil, check_nullable_nil, Hp, check_indexed_nil, check_origin_name_nil, Hlast. split.
  - intros (H1 & [H2 H3] & H4 & H5 & H6 & H7 & H8 & H9). split; [|by intros; apply H4]. constructor; try done; [|by intros; apply H4].
    intros Hl. split; [by apply H1|by apply H2].
  - intros [[H1 H2 H3 H4 H5 H6 H7 H8] H9]. split_and!; try done.
    + intros Hl. by apply H1.
    + intros Hl. by apply H1.
    + intros Hip. split; [by apply H3|by apply H9].
Qed.

(** The properties of a class, where [q] is the primary key so far. *)
Lemma validate_properties_spec s obj ps q :
  schema_ordered s →
  ∃ es q', validate_properties s obj ps q = Some (es, q') ∧
    (q' = None ↔ q = None ∧ ∀ p, p ∈ ps → is_primary p = false) ∧
    (NoDup (class_name <$> s) → es = [] ↔ (∀ p, p ∈ ps → valid_property s obj p) ∧
      (length (filter (λ p, is_primary p = true) ps) + (if q is Some _ then 1 else 0) <= 1 ∨
       filter (λ p, is_primary p = true) ps = [])%nat).
Proof.
  intros Hs. revert q. induction ps as [|p ps IH]; intros q; cbn [validate_properties].
  { exists [], q. split; [done|]. split; [split; [intros ->; split; [done|by intros p ?%elem_of_nil]|by intros [-> _]]|].
    intros _. split; [intros _|done]. split; [by intros p ?%elem_of_nil|by right]. }
  destruct (validate_property_spec s obj p q Hs) as (es1 & -> & H1). cbn [mbind option_bind].
  destruct (IH (if is_primary p then Some p else q)) as (es2 & q' & -> & Hq & H2). cbn [mbind option_bind].
  eexists _, q'. split; [done|]. split.
  - rewrite Hq. setoid_rewrite elem_of_cons. destruct (is_primary p) eqn:Ep.
    + split; [by intros [? _]|]. intros [_ Hn]. specialize (Hn p (or_introl eq_refl)). congruence.
    + split; intros [Hn Hps]; (split; [done|]); [intros x [->|Hx]; [done|by apply Hps]|intros x Hx; apply Hps; by right].
  - intros Hnd. specialize (H1 Hnd). specialize (H2 Hnd). rewrite app_nil, H1, H2. setoid_rewrite elem_of_cons. destruct (is_primary p) eqn:Ep.
    + rewrite filter_cons_True by done. cbn [length]. destruct q; split.
      * intros [[_ Hn] _]. by specialize (Hn eq_refl).
      * intros [_ [Hlen|Hlen]]; [lia|done].
      * intros [[Hv _] [Hvs Hlen]]. split; [intros x [->|Hx]; [done|by apply Hvs]|]. left. destruct Hlen as [Hlen|Hlen]; [lia|rewrite Hlen; simpl; lia].
      * intros [Hv Hlen]. split; [split; [apply Hv; by left|done]|]. split; [intros x Hx; apply Hv; by right|]. right. apply length_zero_iff_nil. destruct Hlen as [Hlen|Hlen]; [lia|done].
    + rewrite filter_cons_False by (by rewrite Ep). split.
      * intros [[Hv _] [Hvs Hlen]]. split; [|done]. intros x [->|Hx]; [done|by apply Hvs].
      * intros [Hv Hlen]. split; [split; [apply Hv; by left|done]|]. split; [|done]. intros x Hx. apply Hv. by right.
Qed.

(** ** Classes *)

Lemma mapM_total {A B} (f : A → option B) (P : A → B → Prop) l :
  (∀ x, x ∈ l → ∃ y, f x = Some y ∧ P x y) → ∃ ys, mapM f l = Some ys ∧ Forall2 P l ys.
Proof.
  induction l as [|x l IH]; intros Hl; [by exists []|].
  destruct (Hl x) as (y & E & Hy); [by left|]. destruct IH as (ys & Es & Hys); [intros z Hz; apply Hl; by right|].
  exists (y :: ys). split; [|by constructor]. cbn [mapM]. rewrite E. cbn [mbind option_bind]. by rewrite Es.
Qed.

Lemma fmap_nil_iff {A B} (f : A → B) l : f <$> l = [] ↔ l = [].
Proof. split; [apply fmap_nil_inv|by intros ->]. Qed.

Lemma find_exists (f : Property → bool) l p : p ∈ l → f p = true → ∃ q, Class_.find f l = Some q.
Proof.
  intros Hp Hf. unfold Class_.find. destruct (find_if_spec f l) as [[_ Hn]|(l1 & q & l2 & -> & -> & _)].
  - rewrite Forall_forall in Hn. specialize (Hn p Hp). congruence.
  - exists q. apply lookup_middle.
Qed.

Lemma elem_of_aliases n ps : n ∈ aliases ps ↔ n ≠ "" ∧ ∃ p, p ∈ ps ∧ public_name p = n.
Proof. unfold aliases. rewrite list_elem_of_filter, list_elem_of_fmap. naive_solver. Qed.

Lemma alias_conflict_total os n : n ∈ aliases (all_properties os) → ∃ e, alias_conflict os n = Some e.
Proof.
  rewrite elem_of_aliases. intros (Hne & p & Hp & <-). unfold alias_conflict, property_for_public_name, all_properties in *.
  apply elem_of_app in Hp as [Hp|Hp].
  - edestruct (find_exists (λ q, bool_decide (public_name q = public_name p) || (bool_decide (public_name q = "") && bool_decide (name q = public_name p)))) as [q ->].
    + exact Hp.
    + by rewrite bool_decide_eq_true_2.
    + by eexists.
  - destruct (Class_.find _ (persisted_properties os)); [by eexists|].
    edestruct (find_exists (λ q, bool_decide ((if bool_decide (public_name q = "") then name q else public_name q) = public_name p))) as [q ->].
    + exact Hp.
    + by rewrite (bool_decide_eq_false_2 (public_name p = "")), bool_decide_eq_true_2.
    + by eexists.
Qed.

Lemma duplicates_nil l : ordered data_lt l → duplicates (length l) l = [] ↔ NoDup l.
Proof.
  intros Hs. destruct l as [|x l]; [split; [constructor|done]|]. cbn [length duplicates].
  pose proof (adjacent_none data_lt id (x :: l)) as Ha. rewrite list_fmap_id in Ha. rewrite <- (Ha Hs). clear Ha.
  change (λ a b : string, bool_decide (id a = id b)) with (λ a b : string, bool_decide (a = b)).
  by destruct (adjacent_find _ _) as [[n rest]|].
Qed.

Definition primaries (ps : list Property) : list Property := filter (λ p, is_primary p = true) ps.

Lemma primaries_none ps : (∀ p, p ∈ ps → is_primary p = false) ↔ primaries ps = [].
Proof.
  unfold primaries. split.
  - intros Hp. induction ps as [|p ps IH]; [done|]. rewrite filter_cons_False; [apply IH; intros x Hx; apply Hp; by right|].
    rewrite (Hp p); [done|by left].
  - intros E p Hin. destruct (is_primary p) eqn:Ep; [|done]. exfalso.
    assert (p ∈ filter (λ p, is_primary p = true) ps) as Hf by (by apply list_elem_of_filter). rewrite E in Hf. by apply elem_of_nil in Hf.
Qed.

Lemma primaries_some ps : primaries ps ≠ [] ↔ ∃ p, p ∈ ps ∧ is_primary p = true.
Proof.
  unfold primaries. split.
  - intros Hne. destruct (filter _ ps) as [|p l] eqn:E; [done|]. exists p.
    assert (p ∈ filter (λ p, is_primary p = true) ps) as Hf by (rewrite E; by left). apply list_elem_of_filter in Hf. tauto.
  - intros (p & Hp & Hi) E. assert (p ∈ filter (λ p, is_primary p = true) ps) as Hf by (by apply list_elem_of_filter).
    rewrite E in Hf. by apply elem_of_nil in Hf.
Qed.

Section sorts.
Context `{SortLaws}.

Lemma ordered_sort l : ordered data_lt (sort_by data_lt l).
Proof. apply (sort_by_sorted data_lt). apply (weak_by id data_lt). Qed.

Lemma sorted_duplicates_nil l : duplicates (length (sort_by data_lt l)) (sort_by data_lt l) = [] ↔ NoDup l.
Proof. rewrite duplicates_nil by apply ordered_sort. by rewrite sort_by_perm. Qed.

Lemma conflicts_nil a b : set_intersection (sort_by data_lt a) (sort_by data_lt b) = [] ↔ ∀ n, n ∈ a → n ∉ b.
Proof.
  split.
  - intros E n Ha Hb. eapply set_intersection_none; [apply ordered_sort..|exact E| |]; by rewrite sort_by_perm.
  - intros Hn. destruct (set_intersection _ _) as [|x l] eqn:E; [done|]. exfalso.
    destruct (set_intersection_sound (sort_by data_lt a) (sort_by data_lt b) x) as [H1 H2]; [rewrite E; by left|].
    rewrite sort_by_perm in H1, H2. by apply (Hn x).
Qed.

Lemma validate_class_spec s os :
  schema_ordered s →
  ∃ es, validate_class s os = Some es ∧ (NoDup (class_name <$> s) → es = [] ↔ valid_class s os).
Proof.
  intros Hs. unfold validate_class.
  destruct (mapM_total (alias_conflict os) (λ _ _, True) (set_intersection (public_property_names os) (internal_property_names os))) as (es3 & -> & H3).
  { intros n [Hn _]%set_intersection_sound. unfold public_property_names in Hn. rewrite sort_by_perm in Hn.
    destruct (alias_conflict_total os n Hn) as [e He]. by exists e. }
  cbn [mbind option_bind].
  destruct (validate_properties_spec s (class_name os) (persisted_properties os) None Hs) as (es4 & q & -> & Hq & H4). cbn [mbind option_bind].
  destruct (validate_properties_spec s (class_name os) (computed_properties os) q Hs) as (es5 & q' & -> & Hq' & H5). cbn [mbind option_bind].
  eexists. split; [done|]. intros Hnd. specialize (H4 Hnd). specialize (H5 Hnd). rewrite !app_nil, !fmap_nil_iff, if_nil. unfold public_property_names at 1 2, internal_property_names at 1 2.
  rewrite !sorted_duplicates_nil.
  assert (es3 = [] ↔ ∀ n, n ∈ aliases (all_properties os) → n ∉ name <$> all_properties os) as ->.
  { rewrite <- conflicts_nil. fold (public_property_names os) (internal_property_names os). apply Forall2_length in H3.
    rewrite <- !length_zero_iff_nil. by rewrite H3. }
  pose proof (primaries_none (persisted_properties os)) as Ep. pose proof (primaries_none (computed_properties os)) as Ec.
  assert (q = None ↔ primaries (persisted_properties os) = []) as Hqp by (rewrite Hq, Ep; tauto). clear Hq.
  assert (q' = None ↔ primaries (all_properties os) = []) as Hqa.
  { rewrite Hq', Hqp. unfold all_properties, primaries. rewrite filter_app, app_nil, <- Ec. done. }
  assert (es4 = [] ∧ es5 = [] ↔ (∀ p, p ∈ all_properties os → valid_property s (class_name os) p) ∧ (length (primaries (all_properties os)) <= 1)%nat) as H45.
  { rewrite H4, H5. unfold all_properties at 2, primaries at 1. rewrite filter_app, length_app.
    fold (primaries (persisted_properties os)) (primaries (computed_properties os)).
    unfold all_properties. setoid_rewrite elem_of_app.
    assert (q = None ∧ primaries (persisted_properties os) = [] ∨ q ≠ None ∧ (0 < length (primaries (persisted_properties os)))%nat) as Hcase.
    { destruct (primaries (persisted_properties os)); [left; tauto|right]. split; [|simpl; lia]. intros E%Hqp. done. }
    destruct Hcase as [[-> ->]|[Hne Hpos]]; [|destruct q as [q|]; [|done]].
    - simpl. split; [intros ([Hv _] & Hv' & Hl)|intros [Hv Hl]].
      + split; [intros p [?|?]; auto|]. destruct Hl as [Hl|Hl]; [lia|rewrite Hl; simpl; lia].
      + split; [split; [auto|by right]|]. split; [auto|left; lia].
    - split; [intros ([Hv Hl] & Hv' & Hl')|intros [Hv Hl]].
      + split; [intros p [?|?]; auto|]. destruct Hl as [Hl|Hl]; [|rewrite Hl in Hpos; simpl in Hpos; lia].
        destruct Hl' as [Hl'|Hl']; [lia|]. rewrite Hl'. simpl. lia.
      + split; [split; [auto|left; lia]|]. split; [auto|]. right. apply length_zero_iff_nil. lia. }
  assert (negb (bool_decide (primary_key os = "")) && bool_decide (q' = None) && bool_decide (primary_key_property os = None) = false ↔
    (primary_key os ≠ "" → (∃ p, p ∈ all_properties os ∧ is_primary p = true) ∨ primary_key_property os ≠ None)) as ->.
  { rewrite !andb_false_iff, negb_false_iff, bool_decide_eq_true, !bool_decide_eq_false, Hqa, primaries_some.
    destruct (decide (primary_key os = "")), (decide (primary_key_property os = None)); tauto. }
  split.
  - intros (H1 & H2 & H6 & H7 & H8 & H9). destruct (proj1 H45 (conj H7 H8)). by constructor.
  - intros [H1 H2 H6 H7 H8 H9]. destruct (proj2 H45 (conj H7 H8)). by split_and!.
Qed.

Lemma duplicate_classes_nil s : schema_ordered s → duplicate_classes (length s) s = [] ↔ NoDup (class_name <$> s).
Proof.
  intros Hs. destruct s as [|os s]; [split; [constructor|done]|]. cbn [length duplicate_classes].
  rewrite <- (adjacent_none data_lt class_name (os :: s) Hs). by destruct (adjacent_find _ _) as [[n rest]|].
Qed.

Lemma concat_nil {A B} (P : A → Prop) (l : list A) (ess : list (list B)) :
  Forall2 (λ x es, es = [] ↔ P x) l ess → concat ess = [] ↔ ∀ x, x ∈ l → P x.
Proof.
  induction 1 as [|x es l ess He _ IH].
  - split; [by intros _ x ?%elem_of_nil|done].
  - cbn [concat]. rewrite app_nil, He, IH. setoid_rewrite elem_of_cons. naive_solver.
Qed.

(** ** The theorem *)

(** C30: for classes with ASCII names, in the order of the constructor, [validate]
    finds no error exactly when the schema is well formed: class names, property
    names and aliases are unique and apart, every property has a type, nullability,
    index and primary key flag that go together, every link leads to a class of the
    schema, the origin of every linking objects property is a link back, and the
    primary key is one property that exists. *)
Theorem validate_correct (s : Schema) :
  ordered str_lt (class_name <$> s) → (∀ os, os ∈ s → is_ascii (class_name os) = true) →
  ∃ es, validate s = Some es ∧ (es = [] ↔ valid_schema s).
Proof.
  intros Ho Ha. pose proof (ascii_schema_ordered s Ha Ho) as Hs. unfold validate.
  destruct (mapM_total (validate_class s) (λ os es, NoDup (class_name <$> s) → es = [] ↔ valid_class s os) s) as (ess & -> & Hess).
  { intros os _. by apply validate_class_spec. }
  cbn [mbind option_bind]. eexists. split; [done|]. rewrite app_nil, fmap_nil_iff, (duplicate_classes_nil s Hs). unfold valid_schema.
  assert (NoDup (class_name <$> s) → concat ess = [] ↔ ∀ os, os ∈ s → valid_class s os) as Hc; [|tauto].
  intros Hnd. apply concat_nil. eapply Forall2_impl; [exact Hess|]. intros os es He. by apply He.
Qed.
End sorts.

(** ** Instances and examples *)

Definition person : ObjectSchema :=
  MkObjectSchema "Person" [MkProperty "id" "" PT_Int "" "" true false 0; MkProperty "dogs" "" (Z.lor PT_Object PT_Array) "Dog" "" false false 1] [] "id".
Definition dog : ObjectSchema :=
  MkObjectSchema "Dog" [MkProperty "name" "title" PT_String "" "" false true 0]
    [MkProperty "owners" "" (Z.lor PT_LinkingObjects PT_Array) "Person" "dogs" false false npos] "".

Lemma validate_witness : ∃ es, validate (make_schema [person; dog]) = Some es ∧ (es = [] ↔ valid_schema (make_schema [person; dog])).
Proof.
  apply (validate_correct (make_schema [person; dog])).
  - apply make_schema_ordered.
  - change (make_schema [person; dog]) with [dog; person]. intros os [->|[->|[]%elem_of_nil]%elem_of_cons]%elem_of_cons; reflexivity.
Defined.

Example person_and_dog_valid : validate (make_schema [person; dog]) = Some [].
Proof. by vm_compute. Qed.

Example person_alone_not_valid :
  validate (make_schema [person]) = Some [("Property '%1.%2' of type '%3' has unknown object type '%4'", ["Person"; "dogs"; "array"; "Dog"])].
Proof. by vm_compute. Qed.

(** The constructor sorts by bytes, the search compares signed characters: with a
    class whose name is not ASCII the range is not partitioned, and the binary search
    of [find] is not defined even for the other class. *)
Theorem find_needs_ascii :
  let accented := MkObjectSchema (String (Ascii.ascii_of_N 195) (String (Ascii.ascii_of_N 169) "")) [] [] "" in
  make_schema [accented; dog] = [dog; accented] ∧ find_class (make_schema [accented; dog]) "Dog" = None.
Proof. by vm_compute. Qed.
