(* ===== verification/SchemaCompare.v ===== *)
(** * Changes between schemas

    Model of [Schema::compare] and of the checks on its result in object_store.cpp. *)

From Stdlib Require Import String.
From stdpp Require Import strings.
From S2P Require Import Prelude ChangeCalculation Schema.
Import Class_.
Open Scope string_scope.
Open Scope list_scope.
Open Scope Z_scope.

(** [SchemaChange] *)
Inductive SchemaChange :=
  | AddTable (object : ObjectSchema)
  | RemoveTable (object : ObjectSchema)
  | AddInitialProperties (object : ObjectSchema)
  | AddProperty (object : ObjectSchema) (property : Property)
  | RemoveProperty (object : ObjectSchema) (property : Property)
  | ChangePropertyType (object : ObjectSchema) (old_property new_property : Property)
  | MakePropertyNullable (object : ObjectSchema) (property : Property)
  | MakePropertyRequired (object : ObjectSchema) (property : Property)
  | AddIndex (object : ObjectSchema) (property : Property)
  | RemoveIndex (object : ObjectSchema) (property : Property)
  | ChangePrimaryKey (object : ObjectSchema) (property : option Property).

#[export] Instance SchemaChange_dec : EqDecision SchemaChange.
Proof. solve_decision. Defined.

Module Compare.

(** [IsNotRemoveProperty] and [GetRemovedColumn] *)
Definition is_not_remove (c : SchemaChange) : bool := match c with RemoveProperty _ _ => false | _ => true end.
Definition removed_column (c : SchemaChange) : Z := match c with RemoveProperty _ p => table_column p | _ => 0 end.

(** The change of one persisted property of the class that exists. *)
Definition property_changes (existing target : ObjectSchema) (current : Property) : list SchemaChange :=
  match property_for_name target (name current) with
  | None => [RemoveProperty existing current]
  | Some target_prop =>
      if property_is_computed target target_prop then [RemoveProperty existing current]
      else if negb (type_eqb (type current) (type target_prop))
              || negb (bool_decide (object_type current = object_type target_prop))
              || negb (Bool.eqb (is_array (type current)) (is_array (type target_prop)))
      then [ChangePropertyType existing current target_prop]
      else
        (if negb (Bool.eqb (is_nullable (type current)) (is_nullable (type target_prop)))
         then if is_nullable (type current) then [MakePropertyRequired existing current] else [MakePropertyNullable existing current]
         else []) ++
        (if Props.requires_index target_prop
         then if negb (is_indexed current) then [AddIndex existing current] else []
         else if Props.requires_index current then [RemoveIndex existing current] else [])
  end.

Definition primary_key_changes (existing target : ObjectSchema) : list SchemaChange :=
  if negb (bool_decide (primary_key existing = primary_key target))
  then [ChangePrimaryKey existing (primary_key_property target)] else [].

Definition added_properties (existing target : ObjectSchema) : list SchemaChange :=
  omap (λ p, match property_for_name existing (name p) with
             | None => Some (AddProperty existing p)
             | Some _ => None
             end) (persisted_properties target).

Section compare.
Context `{Sorts} `{Partitions}.

(** "Move all RemovePropertys to the end and sort in descending order" *)
Definition move_removals (changes : list SchemaChange) : list SchemaChange :=
  let changes := partition is_not_remove changes in
  let it := length (filter (λ c, is_not_remove c = true) changes) in
  take it changes ++ sort_by (λ a b, removed_column b <? removed_column a) (drop it changes).

(** [::compare] *)
Definition compare_classes (existing target : ObjectSchema) (changes : list SchemaChange) : list SchemaChange :=
  move_removals (changes ++ concat (property_changes existing target <$> persisted_properties existing)
                 ++ primary_key_changes existing target ++ added_properties existing target).

(** [zip_matching]: what [func] is called with *)
Fixpoint zip_matching (a : list ObjectSchema) : list ObjectSchema → list (option ObjectSchema * option ObjectSchema) :=
  fix go b :=
    match a, b with
    | x :: a', y :: b' =>
        if bool_decide (class_name x = class_name y) then (Some x, Some y) :: zip_matching a' b'
        else if str_lt (class_name x) (class_name y) then (Some x, None) :: zip_matching a' b
        else (None, Some y) :: go b'
    | _, _ => ((λ x, (Some x, None)) <$> a) ++ ((λ y, (None, Some y)) <$> b)
    end.

Definition table_change (include_table_removals : bool) (p : option ObjectSchema * option ObjectSchema) : option SchemaChange :=
  match p with
  | (Some target, None) => Some (AddTable target)
  | (None, Some existing) => if include_table_removals then Some (RemoveTable existing) else None
  | _ => None
  end.

Definition column_changes (changes : list SchemaChange) (p : option ObjectSchema * option ObjectSchema) : list SchemaChange :=
  match p with
  | (Some target, Some existing) => compare_classes existing target changes
  | (Some target, None) => changes ++ [AddInitialProperties target]
  | _ => changes
  end.

(** [Schema::compare] *)
Definition compare (s target_schema : Schema) (include_table_removals : bool) : list SchemaChange :=
  let pairs := zip_matching target_schema s in
  foldl column_changes (omap (table_change include_table_removals) pairs) pairs.
End compare.

(** [copy_table_columns_from]; the property that is found is assigned to. *)
Definition set_column (p : Property) (column : Z) : Property :=
  MkProperty (name p) (public_name p) (type p) (object_type p) (link_origin_property_name p) (is_primary p) (is_indexed p) column.

Definition assign_column (os : ObjectSchema) (current : Property) : ObjectSchema :=
  let named p := bool_decide (name p = name current) in
  let k := find_if named (persisted_properties os) in
  if (k <? length (persisted_properties os))%nat
  then MkObjectSchema (class_name os) (alter (λ p, set_column p (table_column current)) k (persisted_properties os)) (computed_properties os) (primary_key os)
  else MkObjectSchema (class_name os) (persisted_properties os)
         (alter (λ p, set_column p (table_column current)) (find_if named (computed_properties os)) (computed_properties os)) (primary_key os).

Definition copy_table_columns_from (s other : Schema) : Schema :=
  omap (λ p, match p with
             | (Some existing, Some o) => Some (foldl assign_column existing (persisted_properties o))
             | (Some existing, None) => Some existing
             | (None, _) => None
             end) (zip_matching s other).

(** ** Checks on changes *)

(** [SchemaDifferenceExplainer]: the message for a change, if any *)
Definition explain (c : SchemaChange) : option exception :=
  match c with
  | AddTable o => Some ("Class '%1' has been added.", [class_name o])
  | RemoveTable _ => None
  | AddInitialProperties _ => None
  | AddProperty o p => Some ("Property '%1.%2' has been added.", [class_name o; name p])
  | RemoveProperty o p => Some ("Property '%1.%2' has been removed.", [class_name o; name p])
  | ChangePropertyType o old new =>
      Some ("Property '%1.%2' has been changed from '%3' to '%4'.",
            [class_name o; name new; default "" (Props.type_string old); default "" (Props.type_string new)])
  | MakePropertyNullable o p => Some ("Property '%1.%2' has been made optional.", [class_name o; name p])
  | MakePropertyRequired o p => Some ("Property '%1.%2' has been made required.", [class_name o; name p])
  | ChangePrimaryKey o (Some p) =>
      if negb (bool_decide (primary_key o = ""))
      then Some ("Primary Key for class '%1' has changed from '%2' to '%3'.", [class_name o; primary_key o; name p])
      else Some ("Primary Key for class '%1' has been added.", [class_name o])
  | ChangePrimaryKey o None => Some ("Primary Key for class '%1' has been removed.", [class_name o])
  | AddIndex o p => Some ("Property '%1.%2' has been made indexed.", [class_name o; name p])
  | RemoveIndex o p => Some ("Property '%1.%2' has been made unindexed.", [class_name o; name p])
  end.

(** The exception types, with the errors. *)
Inductive schema_exception := SchemaMismatch (errors : list exception) | InvalidSchemaChange (errors : list exception) | InvalidExternalSchemaChange (errors : list exception).

(** [verify_no_errors], with the verifier's messages *)
Definition verify_no_errors (e : list exception → schema_exception) (verifier : SchemaChange → option exception) (changes : list SchemaChange)
    : result schema_exception unit :=
  match omap verifier changes with [] => Ok tt | errors => Raise (e errors) end.

Definition needs_migration_change (c : SchemaChange) : bool :=
  match c with
  | AddIndex _ _ | AddInitialProperties _ | AddTable _ | RemoveTable _ | RemoveIndex _ _ => false
  | AddProperty _ _ | ChangePrimaryKey _ _ | ChangePropertyType _ _ _ | MakePropertyNullable _ _ | MakePropertyRequired _ _ | RemoveProperty _ _ => true
  end.
Definition needs_migration (changes : list SchemaChange) : bool := existsb needs_migration_change changes.

Definition verify_no_changes_required (changes : list SchemaChange) : result schema_exception unit :=
  verify_no_errors SchemaMismatch explain changes.

Definition verify_no_migration_required (changes : list SchemaChange) : result schema_exception unit :=
  verify_no_errors SchemaMismatch
    (λ c, match c with AddTable _ | AddInitialProperties _ | AddIndex _ _ | RemoveIndex _ _ => None | _ => explain c end) changes.

(** The verifier of [verify_valid_additive_changes], and what it notes. *)
Definition additive_verifier (c : SchemaChange) : option exception :=
  match c with
  | AddTable _ | AddInitialProperties _ | AddProperty _ _ | RemoveProperty _ _ | AddIndex _ _ | RemoveIndex _ _ => None
  | _ => explain c
  end.
Definition is_index_change (c : SchemaChange) : bool := match c with AddIndex _ _ | RemoveIndex _ _ => true | _ => false end.
Definition is_other_change (c : SchemaChange) : bool := match c with AddTable _ | AddInitialProperties _ | AddProperty _ _ => true | _ => false end.

Definition verify_valid_additive_changes (changes : list SchemaChange) (update_indexes : bool) : result schema_exception bool :=
  _ ← verify_no_errors InvalidSchemaChange additive_verifier changes;
  Ok (existsb is_other_change changes || (existsb is_index_change changes && update_indexes)).

Definition verify_valid_external_changes (changes : list SchemaChange) : result schema_exception unit :=
  verify_no_errors InvalidExternalSchemaChange
    (λ c, match c with
          | AddTable _ | AddInitialProperties _ | AddProperty _ _ | AddIndex _ _ | RemoveIndex _ _ => None
          | RemoveTable o => Some ("Class '%1' has been removed.", [class_name o])
          | _ => explain c
          end) changes.

Definition verify_compatible_for_immutable_and_readonly (changes : list SchemaChange) : result schema_exception unit :=
  verify_no_errors InvalidSchemaChange
    (λ c, match c with AddTable _ | AddInitialProperties _ | RemoveProperty _ _ | AddIndex _ _ | RemoveIndex _ _ => None | _ => explain c end) changes.
End Compare.
