(* ===== verification/SchemaCompareTheorems.v ===== *)
(** * The changes between two schemas, and what they are checked for *)

From Stdlib Require Import Ascii String Sorted.
From stdpp Require Import strings sorting.
From S2P Require Import Prelude ChangeCalculation Schema SchemaValidationTheorems SchemaCompare.
Import Class_ Validate Compare.
Open Scope string_scope.
Open Scope list_scope.
Open Scope Z_scope.

(** ** Matching classes *)

(** Sorted by name, every name once: what the constructor and [validate] ensure. *)
Definition strict (s : Schema) : Prop := StronglySorted (λ a b, str_lt (class_name a) (class_name b) = true) s.

Lemma strict_cons x s : strict (x :: s) ↔ (∀ y, y ∈ s → str_lt (class_name x) (class_name y) = true) ∧ strict s.
Proof.
  unfold strict. split.
  - intros [Hs Hf]%StronglySorted_inv. split; [|done]. by apply Forall_forall.
  - intros [Hf Hs]. constructor; [done|]. by apply Forall_forall.
Qed.

Lemma strict_of_ordered s : ordered str_lt (class_name <$> s) → NoDup (class_name <$> s) → strict s.
Proof.
  induction s as [|x s IH]; [constructor|]. cbn [fmap list_fmap]. rewrite (ordered_cons str_lt), strict_cons.
  intros [Hx Hs] Hnd. inversion Hnd as [|? ? Hn Hnd']; subst. split; [|by apply IH].
  intros y Hy. destruct (str_lt (class_name x) (class_name y)) eqn:E; [done|]. exfalso. apply Hn.
  rewrite (no_total (lt := str_lt) _ _ E); [by apply list_elem_of_fmap_2|]. apply Hx. by apply list_elem_of_fmap_2.
Qed.

(** What [zip_matching] pairs. *)
Definition pairs_spec (a b : Schema) (p : option ObjectSchema * option ObjectSchema) : Prop :=
  match p with
  | (Some x, Some y) => x ∈ a ∧ y ∈ b ∧ class_name x = class_name y
  | (Some x, None) => x ∈ a ∧ (∀ y, y ∈ b → class_name y ≠ class_name x)
  | (None, Some y) => y ∈ b ∧ (∀ x, x ∈ a → class_name x ≠ class_name y)
  | (None, None) => False
  end.

Lemma str_lt_trans a b c : str_lt a b = true → str_lt b c = true → str_lt a c = true.
Proof. apply lex_trans. Qed.

Lemma zip_left a p : p ∈ zip_matching a [] ↔ pairs_spec a [] p.
Proof.
  assert (zip_matching a [] = (λ x, (Some x, None)) <$> a) as -> by (destruct a; simpl; by rewrite ?app_nil_r).
  rewrite list_elem_of_fmap. destruct p as [[x|] [y|]]; simpl; repeat setoid_rewrite elem_of_nil; naive_solver.
Qed.

Lemma zip_right b p : p ∈ zip_matching [] b ↔ pairs_spec [] b p.
Proof.
  assert (zip_matching [] b = (λ y, (None, Some y)) <$> b) as -> by (by destruct b).
  rewrite list_elem_of_fmap. destruct p as [[x|] [y|]]; simpl; repeat setoid_rewrite elem_of_nil; naive_solver.
Qed.

Lemma lt_names_neq x (s : Schema) : (∀ y, y ∈ s → str_lt x (class_name y) = true) → ∀ y, y ∈ s → class_name y ≠ x.
Proof. intros Hx y Hy E. specialize (Hx y Hy). rewrite E, no_irrefl in Hx. done. Qed.

Ltac zip_branch :=
  unfold pairs_spec; repeat setoid_rewrite elem_of_cons;
  split; intros; destruct_and?; destruct_or?; simplify_eq; destruct_and?; simplify_eq; try done; naive_solver congruence.

Lemma zip_spec a b p : strict a → strict b → p ∈ zip_matching a b ↔ pairs_spec a b p.
Proof.
  revert b. induction a as [|x a IHa]; intros b; [intros _ _; apply zip_right|].
  induction b as [|y b IHb]; [intros _ _; apply zip_left|]. intros Ha Hb. cbn [zip_matching].
  pose proof Ha as [Hx Ha']%strict_cons. pose proof Hb as [Hy Hb']%strict_cons.
  pose proof (lt_names_neq _ _ Hx) as Nx. pose proof (lt_names_neq _ _ Hy) as Ny.
  case_bool_decide as E; [|destruct (str_lt (class_name x) (class_name y)) eqn:Elt].
  - rewrite elem_of_cons, (IHa b Ha' Hb'). clear IHa IHb Hx Hy Ha Hb Ha' Hb'. destruct p as [[u|] [v|]]; zip_branch.
  - assert (∀ z, z ∈ y :: b → class_name z ≠ class_name x) as Nxb.
    { apply lt_names_neq. intros z [->|Hz]%elem_of_cons; [done|]. eapply str_lt_trans; [done|by apply Hy]. }
    setoid_rewrite elem_of_cons in Nxb.
    rewrite elem_of_cons, (IHa (y :: b) Ha' Hb). clear IHa IHb Hx Hy Ha Hb Ha' Hb'. destruct p as [[u|] [v|]]; zip_branch.
  - assert (str_lt (class_name y) (class_name x) = true) as Egt.
    { destruct (str_lt (class_name y) (class_name x)) eqn:E2; [done|]. destruct E. by apply (no_total (lt := str_lt)). }
    assert (∀ z, z ∈ x :: a → class_name z ≠ class_name y) as Nya.
    { apply lt_names_neq. intros z [->|Hz]%elem_of_cons; [done|]. eapply str_lt_trans; [done|by apply Hx]. }
    setoid_rewrite elem_of_cons in Nya.
    rewrite elem_of_cons, (IHb Ha Hb'). clear IHa IHb Hx Hy Ha Hb Ha' Hb'. destruct p as [[u|] [v|]]; zip_branch.
Qed.

(** ** The changes that are required *)

(** Persisted property [p] of a class kept in the class as [q]. *)
Definition kept (e t : ObjectSchema) (p q : Property) : Prop :=
  p ∈ persisted_properties e ∧ q ∈ persisted_properties t ∧ name q = name p.

Definition same_type (p q : Property) : Prop :=
  base_type (type p) = base_type (type q) ∧ object_type p = object_type q ∧ is_array (type p) = is_array (type q).

#[export] Instance same_type_dec p q : Decision (same_type p q).
Proof. unfold same_type. apply _. Defined.

(** What turns the columns of the class [e] into those of [t]. *)
Inductive class_change (e t : ObjectSchema) : SchemaChange → Prop :=
  | property_gone p : p ∈ persisted_properties e → (∀ q, q ∈ persisted_properties t → name q ≠ name p) →
      class_change e t (RemoveProperty e p)
  | property_retyped p q : kept e t p q → ¬ same_type p q → class_change e t (ChangePropertyType e p q)
  | property_required p q : kept e t p q → same_type p q → is_nullable (type p) = true → is_nullable (type q) = false →
      class_change e t (MakePropertyRequired e p)
  | property_nullable p q : kept e t p q → same_type p q → is_nullable (type p) = false → is_nullable (type q) = true →
      class_change e t (MakePropertyNullable e p)
  | property_indexed p q : kept e t p q → same_type p q → is_indexed p = false → Props.requires_index q = true →
      class_change e t (AddIndex e p)
  | property_unindexed p q : kept e t p q → same_type p q → Props.requires_index p = true → Props.requires_index q = false →
      class_change e t (RemoveIndex e p)
  | key_changed : primary_key e ≠ primary_key t → class_change e t (ChangePrimaryKey e (primary_key_property t))
  | property_new q : q ∈ persisted_properties t → (∀ p, p ∈ all_properties e → name p ≠ name q) →
      class_change e t (AddProperty e q).

Definition missing (s : Schema) (os : ObjectSchema) : Prop := ∀ o, o ∈ s → class_name o ≠ class_name os.

Inductive required (s target : Schema) (removals : bool) : SchemaChange → Prop :=
  | class_new t : t ∈ target → missing s t → required s target removals (AddTable t)
  | class_filled t : t ∈ target → missing s t → required s target removals (AddInitialProperties t)
  | class_gone e : removals = true → e ∈ s → missing target e → required s target removals (RemoveTable e)
  | class_changed e t c : e ∈ s → t ∈ target → class_name t = class_name e → class_change e t c → required s target removals c.

(** ** The changes of a class *)

Lemma find_some p l q : find p l = Some q → q ∈ l ∧ p q = true.
Proof.
  unfold find. destruct (find_if_spec p l) as [[-> _]|(l1 & x & l2 & -> & -> & _ & Hx)].
  - by rewrite lookup_ge_None_2.
  - rewrite list_lookup_middle by done. intros [= <-]. split; [|done]. apply elem_of_app. by right; left.
Qed.

Lemma find_none p l : find p l = None ↔ ∀ q, q ∈ l → p q = false.
Proof.
  unfold find. destruct (find_if_spec p l) as [[-> Hn]|(l1 & x & l2 & -> & -> & _ & Hx)].
  - rewrite lookup_ge_None_2 by done. by rewrite Forall_forall in Hn.
  - rewrite list_lookup_middle by done. split; [done|]. intros Hn. rewrite Hn in Hx; [done|]. apply elem_of_app. by right; left.
Qed.

Lemma for_name_none os n : property_for_name os n = None ↔ ∀ q, q ∈ all_properties os → name q ≠ n.
Proof.
  unfold property_for_name, all_properties. setoid_rewrite elem_of_app.
  destruct (find _ (persisted_properties os)) as [q|] eqn:E1.
  - apply find_some in E1 as [Hq Hn%bool_decide_eq_true]. split; [done|]. intros Hall. destruct (Hall q); auto.
  - rewrite find_none in E1. rewrite find_none. setoid_rewrite bool_decide_eq_false in E1. setoid_rewrite bool_decide_eq_false. naive_solver.
Qed.

Lemma for_name_some os n p : property_for_name os n = Some p → p ∈ all_properties os ∧ name p = n.
Proof.
  unfold property_for_name, all_properties. rewrite elem_of_app. destruct (find _ (persisted_properties os)) as [q|] eqn:E1.
  - intros [= <-]. apply find_some in E1 as [? ?%bool_decide_eq_true]. auto.
  - intros [? ?%bool_decide_eq_true]%find_some. auto.
Qed.

Lemma column_dec t p : (∃ q, q ∈ persisted_properties t ∧ name q = name p) ∨ ∀ q, q ∈ persisted_properties t → name q ≠ name p.
Proof.
  destruct (find (λ q, bool_decide (name q = name p)) (persisted_properties t)) as [q|] eqn:E.
  - left. apply find_some in E as [? ?%bool_decide_eq_true]. by exists q.
  - right. rewrite find_none in E. setoid_rewrite bool_decide_eq_false in E. done.
Qed.

(** The names of a class are the names of different properties. *)
Definition names_unique (os : ObjectSchema) : Prop := NoDup (name <$> all_properties os).

Lemma name_unique os p q : names_unique os → p ∈ all_properties os → q ∈ all_properties os → name p = name q → p = q.
Proof.
  intros Hnd [i Hi]%list_elem_of_lookup [j Hj]%list_elem_of_lookup E.
  assert (i = j) as ->; [|congruence]. eapply (NoDup_lookup _ i j); [exact Hnd|..]; rewrite list_lookup_fmap, ?Hi, ?Hj; simpl; by f_equal.
Qed.

Lemma names_apart os p q : names_unique os → p ∈ persisted_properties os → q ∈ computed_properties os → name p ≠ name q.
Proof.
  unfold names_unique, all_properties. rewrite fmap_app. intros (_ & Hd & _)%NoDup_app Hp Hq E.
  apply (Hd (name p)); [by apply list_elem_of_fmap_2|]. rewrite E. by apply list_elem_of_fmap_2.
Qed.

(** What the lookups of [::compare] find. *)
Lemma counterpart t n :
  names_unique t →
  (∃ q, property_for_name t n = Some q ∧ property_is_computed t q = false ∧ q ∈ persisted_properties t ∧ name q = n) ∨
  ((∀ q, q ∈ persisted_properties t → name q ≠ n) ∧ ∀ q, property_for_name t n = Some q → property_is_computed t q = true).
Proof.
  intros Hu. unfold property_for_name. destruct (find _ (persisted_properties t)) as [q|] eqn:E1.
  - left. apply find_some in E1 as [Hq Hn%bool_decide_eq_true]. exists q. split_and!; try done.
    unfold property_is_computed. apply not_true_iff_false. rewrite existsb_exists. intros (c & Hc & He).
    unfold Props.eqb in He. rewrite !andb_true_iff in He. destruct He as [[[_ He%bool_decide_eq_true] _] _].
    apply (names_apart t q c Hu Hq); [by apply list_elem_of_In|done].
  - right. rewrite find_none in E1. setoid_rewrite bool_decide_eq_false in E1. split; [done|]. intros q [Hq _]%find_some.
    unfold property_is_computed. apply existsb_exists. exists q. split; [by apply list_elem_of_In|].
    unfold Props.eqb. rewrite Z.eqb_refl, !eqb_reflx. by repeat rewrite bool_decide_true by done.
Qed.

Lemma property_changes_gone e t p :
  (∀ q, q ∈ persisted_properties t → name q ≠ name p) →
  (∀ q, property_for_name t (name p) = Some q → property_is_computed t q = true) →
  property_changes e t p = [RemoveProperty e p].
Proof. intros _ Hc. unfold property_changes. destruct (property_for_name t (name p)) as [q|]; [|done]. by rewrite Hc. Qed.

(** The changes of a property that is kept. *)
Definition kept_changes (e : ObjectSchema) (p q : Property) : list SchemaChange :=
  if decide (same_type p q) then
    (if negb (Bool.eqb (is_nullable (type p)) (is_nullable (type q)))
     then if is_nullable (type p) then [MakePropertyRequired e p] else [MakePropertyNullable e p] else []) ++
    (if Props.requires_index q then if negb (is_indexed p) then [AddIndex e p] else []
     else if Props.requires_index p then [RemoveIndex e p] else [])
  else [ChangePropertyType e p q].

Lemma property_changes_kept e t p q :
  property_for_name t (name p) = Some q → property_is_computed t q = false → property_changes e t p = kept_changes e p q.
Proof.
  intros Hq Hc. unfold property_changes, kept_changes. rewrite Hq, Hc. unfold type_eqb.
  destruct (Z.eqb_spec (base_type (type p)) (base_type (type q))) as [E1|N1]; cbn [negb orb].
  2: { by rewrite decide_False by (by intros (? & ? & ?)). }
  case_bool_decide as E2; cbn [negb orb]; [|by rewrite decide_False by (by intros (? & ? & ?))].
  destruct (Bool.eqb (is_array (type p)) (is_array (type q))) eqn:E3; cbn [negb].
  - apply eqb_prop in E3. by rewrite decide_True by done.
  - apply eqb_false_iff in E3. by rewrite decide_False by (by intros (? & ? & ?)).
Qed.

Lemma in_if (b : bool) (l : list SchemaChange) c : c ∈ (if b then l else []) ↔ b = true ∧ c ∈ l.
Proof. destruct b; rewrite ?elem_of_nil; naive_solver. Qed.

Lemma kept_changes_sound e t p q c : kept e t p q → c ∈ kept_changes e p q → class_change e t c.
Proof.
  intros Hk. unfold kept_changes. case_decide as Hs; [|rewrite list_elem_of_singleton; intros ->; by apply property_retyped].
  rewrite elem_of_app. intros [Hc|Hc].
  - apply in_if in Hc as [Hb Hc]. destruct (is_nullable (type p)) eqn:E1, (is_nullable (type q)) eqn:E2; try done;
      apply list_elem_of_singleton in Hc as ->; eauto using class_change.
  - destruct (Props.requires_index q) eqn:E1; apply in_if in Hc as [Hb Hc]; apply list_elem_of_singleton in Hc as ->;
      [apply negb_true_iff in Hb|]; eauto using class_change.
Qed.

Definition class_changes (e t : ObjectSchema) : list SchemaChange :=
  concat (property_changes e t <$> persisted_properties e) ++ primary_key_changes e t ++ added_properties e t.

Lemma in_property_changes e t c :
  c ∈ concat (property_changes e t <$> persisted_properties e) ↔ ∃ p, p ∈ persisted_properties e ∧ c ∈ property_changes e t p.
Proof.
  rewrite list_elem_of_In, in_concat. setoid_rewrite <- list_elem_of_In. setoid_rewrite list_elem_of_fmap. naive_solver.
Qed.

Lemma in_added_properties e t c :
  c ∈ added_properties e t ↔ ∃ q, q ∈ persisted_properties t ∧ (∀ p, p ∈ all_properties e → name p ≠ name q) ∧ c = AddProperty e q.
Proof.
  unfold added_properties. rewrite list_elem_of_omap. setoid_rewrite <- for_name_none.
  split; intros (q & Hq & Hc); exists q; (split; [done|]); destruct (property_for_name e (name q)); naive_solver.
Qed.

Lemma in_primary_key_changes e t c :
  c ∈ primary_key_changes e t ↔ primary_key e ≠ primary_key t ∧ c = ChangePrimaryKey e (primary_key_property t).
Proof.
  unfold primary_key_changes. rewrite in_if, list_elem_of_singleton, negb_true_iff, bool_decide_eq_false. done.
Qed.

(** A kept property is looked up as itself. *)
Lemma kept_lookup e t p q :
  names_unique t → kept e t p q → property_for_name t (name p) = Some q ∧ property_is_computed t q = false.
Proof.
  intros Hu (Hp & Hq & En). destruct (counterpart t (name p) Hu) as [(q' & H1 & H2 & H3 & H4)|[Hn _]]; [|by destruct (Hn q)].
  assert (q' = q) as ->; [|done]. apply (name_unique t); try done; [by apply elem_of_app; left..|congruence].
Qed.

Lemma class_changes_spec e t c : names_unique t → c ∈ class_changes e t ↔ class_change e t c.
Proof.
  intros Hu. unfold class_changes. rewrite !elem_of_app, in_property_changes, in_primary_key_changes, in_added_properties. split.
  - intros [(p & Hp & Hc)|[[Hk ->]|(q & Hq & Hn & ->)]]; [|by constructor..].
    destruct (counterpart t (name p) Hu) as [(q & H1 & H2 & H3 & H4)|[Hn Hc']].
    + rewrite (property_changes_kept e t p q) in Hc by done. by apply (kept_changes_sound e t p q).
    + rewrite property_changes_gone in Hc by done. apply list_elem_of_singleton in Hc as ->. by constructor.
  - destruct 1 as [p Hp Hn|p q Hk Hs|p q Hk Hs H1 H2|p q Hk Hs H1 H2|p q Hk Hs H1 H2|p q Hk Hs H1 H2|Hk|q Hq Hn]; [left..|right; left|right; right]; try by eauto.
    1: { exists p. split; [done|]. rewrite property_changes_gone; [by left|done|].
         destruct (counterpart t (name p) Hu) as [(q & _ & _ & Hq & En)|[_ ?]]; [by destruct (Hn q)|done]. }
    all: exists p; (split; [apply Hk|]); destruct (kept_lookup e t p q Hu Hk); rewrite (property_changes_kept e t p q) by done; unfold kept_changes;
      rewrite ?decide_False by done; rewrite ?decide_True by done; rewrite ?H1, ?H2; try (by left).
    all: apply elem_of_app; right; by left.
Qed.

(** ** All classes *)

Definition pair_changes (p : option ObjectSchema * option ObjectSchema) : list SchemaChange :=
  match p with
  | (Some t, Some e) => class_changes e t
  | (Some t, None) => [AddInitialProperties t]
  | _ => []
  end.

Definition removes_property (c : SchemaChange) : Prop := is_not_remove c = false.
#[export] Instance removes_property_dec c : Decision (removes_property c).
Proof. unfold removes_property. apply _. Defined.

(** From the last column to the first one. *)
Definition removals_descend (l : list SchemaChange) : Prop :=
  StronglySorted (λ a b, removed_column b <= removed_column a) (filter removes_property l).

Lemma filter_all {A} (P : A → Prop) `{∀ x, Decision (P x)} (l : list A) : Forall P l → filter P l = l.
Proof. induction 1 as [|x l Hx _ IH]; [done|]. by rewrite filter_cons_True, IH. Qed.

Lemma filter_none {A} (P : A → Prop) `{∀ x, Decision (P x)} (l : list A) : Forall (λ x, ¬ P x) l → filter P l = [].
Proof. induction 1 as [|x l Hx _ IH]; [done|]. by rewrite filter_cons_False. Qed.

Lemma strongly_sorted_impl {A} (R R' : A → A → Prop) l : (∀ x y, R x y → R' x y) → StronglySorted R l → StronglySorted R' l.
Proof. intros HR. induction 1 as [|x l Hl IH Hx]; constructor; [done|]. eapply Forall_impl; [exact Hx|]. auto. Qed.

Section compare.
Context `{SL : SortLaws} `{PL : PartitionLaws}.

Lemma not_remove_all l : Forall (λ c, is_not_remove c = true) l → Forall (λ c, ¬ removes_property c) l.
Proof. intros Hl. eapply Forall_impl; [exact Hl|]. intros x Hx. unfold removes_property. by rewrite Hx. Qed.

Lemma move_removals_spec l : move_removals l ≡ₚ l ∧ removals_descend (move_removals l).
Proof.
  unfold move_removals. pose proof (partition_perm is_not_remove l) as Hp.
  destruct (partition_split is_not_remove l) as (l1 & l2 & E & H1 & H2). rewrite E in *.
  match goal with |- context [take ?n _] => assert (n = length l1) as -> end.
  { rewrite filter_app, filter_all, filter_none, app_nil_r; [done| |done].
    eapply Forall_impl; [exact H2|]. by intros x ->. }
  rewrite take_app_length, drop_app_length. set (lt := λ a b, _). split; [by rewrite sort_by_perm|].
  unfold removals_descend. rewrite filter_app, filter_none, filter_all; cbn [app]; [|by rewrite sort_by_perm|by apply not_remove_all].
  assert (weak_order lt) as Hw by (unfold lt; split; [intros ???; lia|intros ??; lia]).
  eapply strongly_sorted_impl; [|exact (sort_by_sorted lt l2 Hw)]. unfold lt. intros x y. lia.
Qed.

Lemma column_changes_spec l p : removals_descend l → column_changes l p ≡ₚ l ++ pair_changes p ∧ removals_descend (column_changes l p).
Proof.
  intros Hl. destruct p as [[t|] [e|]]; cbn [column_changes pair_changes]; rewrite ?app_nil_r; try done.
  - unfold compare_classes. fold (class_changes e t). by apply move_removals_spec.
  - split; [done|]. unfold removals_descend. rewrite filter_app. by rewrite app_nil_r.
Qed.

Lemma all_columns_spec ps l : removals_descend l → foldl column_changes l ps ≡ₚ l ++ concat (pair_changes <$> ps) ∧ removals_descend (foldl column_changes l ps).
Proof.
  revert l. induction ps as [|p ps IH]; intros l Hl; cbn [foldl fmap list_fmap concat]; [by rewrite app_nil_r|].
  destruct (column_changes_spec l p Hl) as [Hp Hs]. destruct (IH _ Hs) as [Hp' Hs']. split; [|done]. by rewrite Hp', Hp, app_assoc.
Qed.

Lemma table_changes_descend removals ps : removals_descend (omap (table_change removals) ps).
Proof.
  unfold removals_descend. rewrite filter_none; [constructor|]. apply Forall_forall. intros c ([[t|] [e|]] & _ & Hc)%list_elem_of_omap; simpl in Hc; try done.
  - by simplify_eq.
  - destruct removals; by simplify_eq.
Qed.

Lemma in_pair_changes ps c : c ∈ concat (pair_changes <$> ps) ↔ ∃ p, p ∈ ps ∧ c ∈ pair_changes p.
Proof. rewrite list_elem_of_In, in_concat. setoid_rewrite <- list_elem_of_In. setoid_rewrite list_elem_of_fmap. naive_solver. Qed.

Lemma compare_in s target removals c :
  strict s → strict target → (∀ t, t ∈ target → names_unique t) →
  c ∈ compare s target removals ↔ required s target removals c.
Proof.
  intros Hs Ht Hu. unfold compare.
  destruct (all_columns_spec (zip_matching target s) _ (table_changes_descend removals (zip_matching target s))) as [Hall _].
  rewrite Hall, elem_of_app, list_elem_of_omap, in_pair_changes. setoid_rewrite (zip_spec target s _ Ht Hs). split.
  - intros [([[t|] [e|]] & Hp & Hc)|([[t|] [e|]] & Hp & Hc)]; simpl in Hp, Hc; try done.
    + simplify_eq. destruct Hp. by apply class_new.
    + destruct removals; simplify_eq. destruct Hp. by apply class_gone.
    + destruct Hp as (H1 & H2 & En). apply (class_changed _ _ _ e t); [done..|]. apply class_changes_spec; auto.
    + apply list_elem_of_singleton in Hc as ->. destruct Hp. by apply class_filled.
    + by apply elem_of_nil in Hc.
  - destruct 1 as [t H1 H2|t H1 H2|e -> H1 H2|e t c H1 H2 En Hc].
    + left. by exists (Some t, None).
    + right. exists (Some t, None). split; [done|by left].
    + left. by exists (None, Some e).
    + right. exists (Some t, Some e). split; [done|]. apply class_changes_spec; auto.
Qed.

(** ** What the modes accept *)

(** The columns of a class in both schemas that are in both are alike, and its primary key is. *)
Record compatible_classes (e t : ObjectSchema) : Prop := {
  cc_key : primary_key e = primary_key t;
  cc_type p q : kept e t p q → same_type p q ∧ is_nullable (type p) = is_nullable (type q)
}.

(** The class has the same columns in both. *)
Record same_columns (e t : ObjectSchema) : Prop := {
  sc_compatible : compatible_classes e t;
  sc_kept p : p ∈ persisted_properties e → ∃ q, kept e t p q;
  sc_old q : q ∈ persisted_properties t → ∃ p, p ∈ all_properties e ∧ name p = name q
}.

Definition shared_classes (R : ObjectSchema → ObjectSchema → Prop) (s target : Schema) : Prop :=
  ∀ e t, e ∈ s → t ∈ target → class_name t = class_name e → R e t.

Lemma verify_ok e v changes : verify_no_errors e v changes = Ok tt ↔ ∀ c, c ∈ changes → v c = None.
Proof.
  unfold verify_no_errors. induction changes as [|c changes IH]; [split; [by intros _ c ?%elem_of_nil|done]|].
  cbn [omap list_omap]. setoid_rewrite elem_of_cons. destruct (v c) as [x|] eqn:E.
  - split; [done|]. intros Hc. rewrite (Hc c) in E by auto. done.
  - etransitivity; [exact IH|]. naive_solver.
Qed.

Lemma bool_ext (b c : bool) : (b = true ↔ c = true) → b = c.
Proof. destruct b, c; naive_solver. Qed.

Lemma compatible_iff e t :
  compatible_classes e t ↔ ∀ c, class_change e t c → additive_verifier c = None.
Proof.
  split.
  - intros [Hk Ht]. destruct 1 as [p Hp Hn|p q Hq Hs|p q Hq Hs H1 H2|p q Hq Hs H1 H2| | |Hne|]; try done; exfalso;
      destruct (Ht p q Hq); congruence.
  - intros Hc. split.
    + destruct (decide (primary_key e = primary_key t)) as [|Hne]; [done|].
      specialize (Hc _ (key_changed e t Hne)). simpl in Hc. destruct (primary_key_property t); [|done]. by case_bool_decide.
    + intros p q Hk. destruct (decide (same_type p q)) as [Hs|Hs]; [|by specialize (Hc _ (property_retyped e t p q Hk Hs))].
      split; [done|]. destruct (is_nullable (type p)) eqn:E1, (is_nullable (type q)) eqn:E2; try done.
      * by specialize (Hc _ (property_required e t p q Hk Hs E1 E2)).
      * by specialize (Hc _ (property_nullable e t p q Hk Hs E1 E2)).
Qed.

Lemma same_columns_iff e t : same_columns e t ↔ ∀ c, class_change e t c → needs_migration_change c = false.
Proof.
  split.
  - intros [[Hk Ht] Hkept Hold]. destruct 1 as [p Hp Hn|p q Hq Hs|p q Hq Hs H1 H2|p q Hq Hs H1 H2| | |Hne|q Hq Hn]; try done; exfalso.
    1: destruct (Hkept p Hp) as (q & _ & Hq & E); by destruct (Hn q).
    1-3: destruct (Ht p q Hq); congruence.
    destruct (Hold q Hq) as (p & Hp & E). by destruct (Hn p).
  - intros Hc. split.
    + apply compatible_iff. intros c Hcc. specialize (Hc c Hcc). by destruct c.
    + intros p Hp. destruct (column_dec t p) as [(q & Hq & E)|Hn]; [by exists q|].
      by specialize (Hc _ (property_gone e t p Hp Hn)).
    + intros q Hq. destruct (property_for_name e (name q)) as [p|] eqn:E.
      * destruct (for_name_some _ _ _ E) as [Hp En]. by exists p.
      * rewrite for_name_none in E. by specialize (Hc _ (property_new e t q Hq E)).
Qed.

(** C31: for two schemas in the order of the constructor, [compare] lists exactly the
    changes that are required: a new class is created and filled, a class that is gone is
    removed where this is asked for, and for a class in both every persisted
    property that is gone, of another type, another nullability or another index, a
    changed primary key and every new property; and the columns that are removed are
    listed from the last one to the first one, so that no removal shifts a later one. *)
Theorem compare_correct (s target : Schema) (removals : bool) (c : SchemaChange) :
  strict s → strict target → (∀ t, t ∈ target → names_unique t) →
  (c ∈ compare s target removals ↔ required s target removals c) ∧ removals_descend (compare s target removals).
Proof.
  intros Hs Ht Hu. split; [by apply compare_in|]. unfold compare.
  by destruct (all_columns_spec (zip_matching target s) _ (table_changes_descend removals (zip_matching target s))).
Qed.

Lemma required_classes (v : SchemaChange → Prop) (R : ObjectSchema → ObjectSchema → Prop) s target removals :
  (∀ e t, R e t ↔ ∀ c, class_change e t c → v c) →
  (∀ o, v (AddTable o)) → (∀ o, v (AddInitialProperties o)) → (∀ o, v (RemoveTable o)) →
  (∀ c, required s target removals c → v c) ↔ shared_classes R s target.
Proof.
  intros HR H1 H2 H3. split.
  - intros Hc e t He Ht En. apply HR. intros c Hcc. apply Hc. by apply (class_changed _ _ _ e t).
  - intros Hs. destruct 1 as [t _ _|t _ _|e _ _ _|e t c He Ht En Hcc]; auto. by apply (HR e t); [apply Hs|].
Qed.

Lemma needs_migration_false changes : needs_migration changes = false ↔ ∀ c, c ∈ changes → needs_migration_change c = false.
Proof.
  unfold needs_migration. rewrite <- not_true_iff_false, existsb_exists. setoid_rewrite <- list_elem_of_In.
  split; [intros Hn c Hc; apply not_true_iff_false; by eauto|intros Hf (c & Hc & Ht)]. by rewrite Hf in Ht.
Qed.

Lemma no_migration_verifier c :
  match c with AddTable _ | AddInitialProperties _ | AddIndex _ _ | RemoveIndex _ _ => None | _ => explain c end = None ↔ needs_migration_change c = false.
Proof. destruct c as [| | | | | | | | | |o [p|]]; simpl; try done. by case_bool_decide. Qed.

(** What the schema modes accept, for two schemas in the order of the constructor.
    [needs_migration] is false, and [verify_no_migration_required] passes, exactly when every class
    in both schemas has the same columns; [verify_valid_additive_changes] passes
    exactly when the columns of every class in both are compatible (same
    primary key, same type and nullability where both have the column), and then
    says whether there is something to write: a table or column to be added, or an index where
    indexes are updated. *)
Theorem modes_accept_correct (s target : Schema) (removals update_indexes : bool) :
  strict s → strict target → (∀ t, t ∈ target → names_unique t) →
  let changes := compare s target removals in
  (needs_migration changes = false ↔ shared_classes same_columns s target) ∧
  (verify_no_migration_required changes = Ok tt ↔ shared_classes same_columns s target) ∧
  ((∃ b, verify_valid_additive_changes changes update_indexes = Ok b) ↔ shared_classes compatible_classes s target) ∧
  ∀ b, verify_valid_additive_changes changes update_indexes = Ok b →
    b = true ↔ ∃ c, required s target removals c ∧ (is_other_change c = true ∨ is_index_change c = true ∧ update_indexes = true).
Proof.
  intros Hs Ht Hu changes. assert (∀ c, c ∈ changes ↔ required s target removals c) as Hin by (intros c; by apply compare_in).
  split_and!.
  - rewrite needs_migration_false. setoid_rewrite Hin. apply required_classes; [apply same_columns_iff|done..].
  - unfold verify_no_migration_required. rewrite verify_ok. setoid_rewrite no_migration_verifier. setoid_rewrite Hin.
    apply required_classes; [apply same_columns_iff|done..].
  - rewrite <- (required_classes (λ c, additive_verifier c = None) compatible_classes s target removals compatible_iff) by done.
    setoid_rewrite <- Hin. rewrite <- (verify_ok InvalidSchemaChange). unfold verify_valid_additive_changes.
    destruct (verify_no_errors _ _ _) as [[]|e|] eqn:E; simpl; [|by split; [intros [? ?]|]..]. split; [done|by eexists].
  - intros b. unfold verify_valid_additive_changes. destruct (verify_no_errors _ _ _) as [u|e|]; [|done..]. intros [= <-].
    rewrite orb_true_iff, andb_true_iff, !existsb_exists. setoid_rewrite <- list_elem_of_In. setoid_rewrite Hin. naive_solver.
Qed.
End compare.

(** ** Instances and examples *)

(** A partition that keeps the order. *)
#[export] Instance stable_partition : Partitions := λ A p l, filter (λ x, p x = true) l ++ filter (λ x, p x = false) l.

#[export] Instance stable_partition_laws : PartitionLaws.
Proof.
  split; intros A p l.
  - unfold partition, stable_partition. induction l as [|x l IH]; [done|]. destruct (p x) eqn:E.
    + rewrite filter_cons_True, filter_cons_False by congruence. cbn [app]. by f_equiv.
    + rewrite filter_cons_False, filter_cons_True by congruence. by rewrite <- Permutation_middle, IH.
  - do 2 eexists. split; [done|]. split; apply Forall_forall; intros x [? _]%list_elem_of_filter; done.
Qed.

Definition stored : Schema := make_schema [
  MkObjectSchema "Person" [MkProperty "id" "" PT_Int "" "" true true 0; MkProperty "age" "" PT_Int "" "" false false 1;
    MkProperty "nick" "" PT_String "" "" false false 2] [] "id";
  MkObjectSchema "Cat" [MkProperty "name" "" PT_String "" "" false false 0] [] ""].
Definition wanted : Schema := make_schema [
  MkObjectSchema "Person" [MkProperty "id" "" PT_Int "" "" true false npos; MkProperty "email" "" PT_String "" "" false true npos] [] "id";
  MkObjectSchema "Dog" [MkProperty "name" "" PT_String "" "" false false npos] [] ""].

Example stored_to_wanted :
  (λ c, (explain c, is_not_remove c, removed_column c)) <$> compare stored wanted true =
    [(None, true, 0); (Some ("Class '%1' has been added.", ["Dog"]), true, 0); (None, true, 0);
     (Some ("Property '%1.%2' has been added.", ["Person"; "email"]), true, 0);
     (Some ("Property '%1.%2' has been removed.", ["Person"; "nick"]), false, 2);
     (Some ("Property '%1.%2' has been removed.", ["Person"; "age"]), false, 1)].
Proof. by vm_compute. Qed.

Ltac strict_tac := repeat constructor.

Lemma stored_strict : strict stored.
Proof. vm_compute. strict_tac. Qed.
Lemma wanted_strict : strict wanted.
Proof. vm_compute. strict_tac. Qed.
Lemma wanted_unique : ∀ t, t ∈ wanted → names_unique t.
Proof. apply Forall_forall. unfold names_unique. eapply bool_decide_eq_true_1. by vm_compute. Qed.

Lemma compare_witness :
  (∀ c, c ∈ compare stored wanted true ↔ required stored wanted true c) ∧ removals_descend (compare stored wanted true).
Proof.
  split; [intros c|].
  - apply (compare_correct stored wanted true c stored_strict wanted_strict wanted_unique).
  - apply (compare_correct stored wanted true (ChangePrimaryKey (default (MkObjectSchema "" [] [] "") (head stored)) None) stored_strict wanted_strict wanted_unique).
Defined.

Lemma modes_witness :
  needs_migration (compare stored wanted false) = true ∧ ¬ shared_classes same_columns stored wanted ∧
  verify_valid_additive_changes (compare stored wanted false) false = Ok true ∧ shared_classes compatible_classes stored wanted.
Proof.
  destruct (modes_accept_correct stored wanted false false stored_strict wanted_strict wanted_unique) as (H1 & _ & H3 & _).
  split; [by vm_compute|]. split; [intros Hs%H1; by vm_compute in Hs|]. split; [by vm_compute|].
  apply H3. exists true. by vm_compute.
Defined.
