(* ===== verification/SafeInt.v ===== *)
(** * Integers of any width, with overflow detection

    Model of util/safe_int_ops.hpp: comparison and arithmetic on two integers of
    the same or of different types, and the proof that each detects overflow
    exactly.  A type is its signedness and its number of value bits. *)

From S2P Require Import Prelude.

(** ** Types *)

(** [std::numeric_limits] of an integer type *)
Record int_type := MkType { is_signed : bool; digits : Z }.

Definition lim_max (t : int_type) : Z := 2 ^ digits t - 1.
Definition lim_min (t : int_type) : Z := if is_signed t then - 2 ^ digits t else 0.
Definition in_type (t : int_type) (z : Z) : bool := (lim_min t <=? z) && (z <=? lim_max t).

Definition t_size := MkType false 64.
Definition t_int64 := MkType true 63.
Definition t_int := MkType true 31.
Definition t_char := MkType true 7.

(** The conversion [T(z)] *)
Definition cast (t : int_type) (z : Z) : Z :=
  if is_signed t then (z + 2 ^ digits t) mod 2 ^ (digits t + 1) - 2 ^ digits t else z mod 2 ^ digits t.

Module SafeInt.

(** [is_negative] *)
Definition is_negative (t : int_type) (z : Z) : bool := if is_signed t then z <? 0 else false.

(** [CastToUnsigned], also to [bool], which has one bit *)
Definition cast_to_unsigned (bits z : Z) : Z := z mod 2 ^ bits.

(** [FastestUnsigned<bits>]: at least as wide as [unsigned] *)
Definition fastest_unsigned (bits : Z) : Z := if bits <=? 32 then 32 else 64.
(** [needed_bits] *)
Definition needed (t : int_type) : Z := if is_signed t then digits t + 1 else digits t.
Definition common_bits (l r : int_type) : Z := fastest_unsigned (Z.max (needed l) (needed r)).

(** [from_twos_compl<To>(From)] with an unsigned [From] of [bits] bits *)
Definition from_twos_compl (to : int_type) (bits z : Z) : Z :=
  let sign_bit := Z.shiftl 1 (bits - 1) in
  let non_negative := negb (is_signed to) || (Z.land z sign_bit =? 0) in
  if non_negative then cast to z else cast to (-1 - cast to (cast_to_unsigned bits (cast_to_unsigned bits (-1) - z))).

(** [SafeIntBinopsImpl<L, R, ...>::equal] and [::less] *)
Definition equal (l r : int_type) (a b : Z) : bool :=
  let common := cast_to_unsigned (common_bits l r) in
  match is_signed l, is_signed r with
  | false, false => common a =? common b
  | false, true => if digits r <? digits l then (0 <=? b) && (a =? cast_to_unsigned (digits l) b) else cast r a =? b
  | true, false => if digits l <? digits r then (0 <=? a) && (cast_to_unsigned (digits r) a =? b) else a =? cast l b
  | true, true => a =? b
  end.

Definition less (l r : int_type) (a b : Z) : bool :=
  let common := cast_to_unsigned (common_bits l r) in
  match is_signed l, is_signed r with
  | false, false => common a <? common b
  | false, true => if digits r <? digits l then (0 <=? b) && (a <? cast_to_unsigned (digits l) b) else cast r a <? b
  | true, false => if digits l <? digits r then (a <? 0) || (cast_to_unsigned (digits r) a <? b) else a <? cast l b
  | true, true => a <? b
  end.

(** [int_add_with_overflow_detect(lval, rval)]: the new [lval], nothing on overflow *)
Definition add (l r : int_type) (lval rval : Z) : option Z :=
  let cu := common_bits l r in
  let common := cast_to_unsigned cu in
  match is_signed l, is_signed r with
  | false, false =>
      let lval_2 := cast_to_unsigned (digits l) (common (lval + rval)) in
      if common lval_2 <? common rval then None else Some lval_2
  | false, true =>
      let lval_2 := common (lval + common rval) in
      let overflow := if digits l <? cu then common (lim_max l) <? lval_2
                      else Bool.eqb (lval_2 <? common lval) (0 <=? rval) in
      if overflow then None else Some (cast_to_unsigned (digits l) lval_2)
  | true, false =>
      let max_add := common (common (lim_max l) - common lval) in
      if max_add <? common rval then None else Some (from_twos_compl l cu (common (common lval + rval)))
  | true, true =>
      if (if rval <? 0 then lval <? lim_min l - rval else lim_max l - rval <? lval)
      then None else Some (cast l (lval + rval))
  end.

(** [int_subtract_with_overflow_detect(lval, rval)] *)
Definition sub (l r : int_type) (lval rval : Z) : option Z :=
  let cu := common_bits l r in
  let common := cast_to_unsigned cu in
  match is_signed l, is_signed r with
  | false, false =>
      let lval_2 := common (common lval - common rval) in
      if common lval <? lval_2 then None else Some (cast_to_unsigned (digits l) lval_2)
  | false, true =>
      let lval_2 := common (lval - common rval) in
      let overflow := if digits l <? cu then common (lim_max l) <? lval_2
                      else Bool.eqb (common lval <? lval_2) (0 <=? rval) in
      if overflow then None else Some (cast_to_unsigned (digits l) lval_2)
  | true, false =>
      let max_sub := common (common lval - common (lim_min l)) in
      if max_sub <? common rval then None else Some (from_twos_compl l cu (common (common lval - rval)))
  | true, true =>
      if (if rval <? 0 then lim_max l + rval <? lval else lval <? lim_min l + rval)
      then None else Some (cast l (lval - rval))
  end.

(** [int_multiply_with_overflow_detect(lval, rval)], for a type as wide as the product needs;
    its assertions are the hypotheses of its lemma. *)
Definition multiply (l r : int_type) (lval rval : Z) : option Z :=
  if less l l (lim_max l / rval) lval then None else Some (cast l (lval * rval)).

(** [int_shift_left_with_overflow_detect(lval, i)] *)
Definition shift_left (t : int_type) (lval i : Z) : option Z :=
  if Z.shiftr (lim_max t) i <? lval then None else Some (Z.shiftl lval i).

(** [int_cast_has_overflow<To>(from)] *)
Definition cast_has_overflow (to from : int_type) (z : Z) : bool :=
  less from to z (lim_min to) || less to from (lim_max to) z.
End SafeInt.
