(* ===== verification/SafeIntTheorems.v ===== *)
(** * Overflow is detected exactly

    Each operation of util/safe_int_ops.hpp gives the mathematical result when it is
    in the range of the type, and reports overflow otherwise, for operands of any
    two types of at most 64 bits. *)

From S2P Require Import Prelude SafeInt.
Import SafeInt.

(** ** Powers and wrap-around *)

Definition wf_type (t : int_type) : Prop := 0 < digits t ∧ needed t <= 64.

Lemma pow_pos n : 0 <= n → 0 < 2 ^ n.
Proof. intros Hn. by apply Z.pow_pos_nonneg. Qed.

Lemma pow_le m n : 0 <= m <= n → 2 ^ m <= 2 ^ n.
Proof. intros H. apply Z.pow_le_mono_r; lia. Qed.

(** The next power is at least the double. *)
Lemma pow_double m n : 0 <= m < n → 2 * 2 ^ m <= 2 ^ n.
Proof. intros H. rewrite <- Z.pow_succ_r by lia. apply pow_le. lia. Qed.

Lemma mod_once c z : 0 < c → - c <= z < 2 * c → z mod c = if z <? 0 then z + c else if c <=? z then z - c else z.
Proof.
  intros Hc Hz. destruct (Z.ltb_spec z 0); [|destruct (Z.leb_spec c z)].
  - symmetry. apply (Z.mod_unique _ _ (-1)); lia.
  - symmetry. apply (Z.mod_unique _ _ 1); lia.
  - apply Z.mod_small. lia.
Qed.

(** ** The common unsigned type *)

Section two_types.
Context (l r : int_type) (Hl : wf_type l) (Hr : wf_type r).

Lemma common_wide : needed l <= common_bits l r ∧ needed r <= common_bits l r.
Proof using Hl Hr.
  unfold common_bits, fastest_unsigned. destruct Hl, Hr. destruct (Z.leb_spec (Z.max (needed l) (needed r)) 32); lia.
Qed.
End two_types.

Lemma in_type_iff t z : in_type t z = true ↔ lim_min t <= z <= lim_max t.
Proof. unfold in_type. rewrite andb_true_iff, !Z.leb_le. done. Qed.

(** A value of the type needs no conversion. *)
Lemma cast_id t z : wf_type t → in_type t z = true → cast t z = z.
Proof.
  intros [Hd _] Hz%in_type_iff. unfold cast, lim_min, lim_max in *. destruct (is_signed t).
  - rewrite Z.mod_small; [lia|]. rewrite Z.pow_add_r by lia. lia.
  - apply Z.mod_small. lia.
Qed.

Lemma cast_to_unsigned_id d z : 0 <= z < 2 ^ d → cast_to_unsigned d z = z.
Proof. apply Z.mod_small. Qed.

(** The sign bit of a number in two's complement. *)
Lemma sign_bit_clear c z : 0 < c → 0 <= z < 2 ^ c → (Z.land z (Z.shiftl 1 (c - 1)) =? 0) = (z <? 2 ^ (c - 1)).
Proof.
  intros Hc Hz. rewrite Z.shiftl_1_l. pose proof (pow_pos (c - 1)) as Hp.
  assert (2 ^ c = 2 * 2 ^ (c - 1)) as Ec by (rewrite <- Z.pow_succ_r by lia; f_equal; lia).
  destruct (Z.ltb_spec z (2 ^ (c - 1))) as [Hlt|Hge].
  - apply Z.eqb_eq. apply Z.bits_inj'. intros n Hn. rewrite Z.land_spec, Z.pow2_bits_eqb, Z.bits_0 by lia.
    destruct (Z.eqb_spec (c - 1) n) as [<-|]; [|by rewrite andb_false_r]. rewrite andb_true_r.
    rewrite <- (Z.mod_small z (2 ^ (c - 1))) by lia. apply Z.mod_pow2_bits_high. lia.
  - apply Z.eqb_neq. intros E. assert (Z.testbit (Z.land z (2 ^ (c - 1))) (c - 1) = true) as Hb; [|by rewrite E, Z.bits_0 in Hb].
    rewrite Z.land_spec, Z.pow2_bits_true, andb_true_r by lia. apply Z.testbit_true; [lia|].
    rewrite <- (Z.div_unique z (2 ^ (c - 1)) 1 (z - 2 ^ (c - 1))); [done|lia|lia].
Qed.

Lemma from_twos_compl_spec t c z :
  wf_type t → is_signed t = true → needed t <= c → in_type t z = true →
  from_twos_compl t c (cast_to_unsigned c z) = z.
Proof.
  intros Ht Hs Hc Hz. pose proof Hz as Hz'%in_type_iff. unfold from_twos_compl. rewrite Hs. cbn [negb orb].
  pose proof Ht as [Hd Hn]. unfold needed in Hc, Hn. unfold lim_min, lim_max in Hz'. rewrite Hs in Hc, Hn, Hz'.
  pose proof (pow_pos (digits t)). pose proof (pow_le (digits t) (c - 1)).
  assert (2 ^ c = 2 * 2 ^ (c - 1)) as Ec by (rewrite <- Z.pow_succ_r by lia; f_equal; lia).
  assert (cast_to_unsigned c z = if z <? 0 then z + 2 ^ c else z) as E.
  { unfold cast_to_unsigned. rewrite mod_once by lia. destruct (Z.ltb_spec z 0), (Z.leb_spec (2 ^ c) z); lia. }
  rewrite sign_bit_clear by (rewrite ?E; destruct (Z.ltb_spec z 0); lia). rewrite E.
  assert (cast_to_unsigned c (-1) = 2 ^ c - 1) as -> by (unfold cast_to_unsigned; rewrite mod_once by lia; simpl; lia).
  destruct (Z.ltb_spec z 0) as [Hneg|Hpos].
  - replace (z + 2 ^ c <? 2 ^ (c - 1)) with false by lia. replace (2 ^ c - 1 - (z + 2 ^ c)) with (-1 - z) by lia.
    rewrite cast_to_unsigned_id by lia. rewrite (cast_id t (-1 - z)); [|done|apply in_type_iff; unfold lim_min, lim_max; rewrite Hs; lia].
    replace (-1 - (-1 - z)) with z by lia. by apply cast_id.
  - replace (z <? 2 ^ (c - 1)) with true by lia. by apply cast_id.
Qed.

(** ** Binary operations *)

Lemma pow_divide m n : 0 <= m <= n → (2 ^ m | 2 ^ n).
Proof. intros H. exists (2 ^ (n - m)). rewrite <- Z.pow_add_r by lia. f_equal. lia. Qed.

Lemma to_unsigned_neg c z : 0 <= c → - 2 ^ c <= z < 2 ^ c → cast_to_unsigned c z = if z <? 0 then z + 2 ^ c else z.
Proof.
  intros Hc Hz. pose proof (pow_pos c Hc). unfold cast_to_unsigned. rewrite mod_once by lia.
  destruct (Z.ltb_spec z 0), (Z.leb_spec (2 ^ c) z); lia.
Qed.

Lemma option_if_ext {A} (b c : bool) (x y : A) : b = negb c → (c = true → x = y) → (if b then None else Some x) = if c then Some y else None.
Proof. intros -> E. destruct c; cbn [negb]; [by rewrite E|done]. Qed.

Section operations.
Context (l r : int_type) (Hl : wf_type l) (Hr : wf_type r).
Context (a b : Z) (Ha : in_type l a = true) (Hb : in_type r b = true).

(** The facts about the powers of the widths that the cases need. *)
Ltac widths :=
  destruct (common_wide l r Hl Hr) as [Wl Wr]; pose proof Hl as [Dl Nl]; pose proof Hr as [Dr Nr];
  pose proof (pow_pos (digits l)) as Pl; pose proof (pow_pos (digits r)) as Pr;
  pose proof (pow_le (digits l) (common_bits l r)) as Ll; pose proof (pow_le (digits r) (common_bits l r)) as Lr;
  pose proof Ha as Ra; pose proof Hb as Rb; rewrite in_type_iff in Ra, Rb;
  unfold needed, lim_min, lim_max in *.

(** Adding the modulus changes nothing. *)
Lemma to_unsigned_shift c x y : cast_to_unsigned c ((if x <? 0 then x + 2 ^ c else x) + y) = cast_to_unsigned c (x + y).
Proof. destruct (x <? 0); [|done]. unfold cast_to_unsigned. replace (x + 2 ^ c + y) with (x + y + 1 * 2 ^ c) by lia. apply Z_mod_plus_full. Qed.

Lemma to_unsigned_shift_sub c x y : cast_to_unsigned c (x - (if y <? 0 then y + 2 ^ c else y)) = cast_to_unsigned c (x - y).
Proof. destruct (y <? 0); [|done]. unfold cast_to_unsigned. replace (x - (y + 2 ^ c)) with (x - y + (-1) * 2 ^ c) by lia. apply Z_mod_plus_full. Qed.

Lemma add_signed : is_signed l = true → is_signed r = true → add l r a b = if in_type l (a + b) then Some (a + b) else None.
Proof using All.
  intros Sl Sr. unfold add. widths. rewrite Sl, Sr in *. apply option_if_ext; [|intros Hin; by apply cast_id].
  unfold in_type, lim_min, lim_max. rewrite Sl. destruct (Z.ltb_spec b 0); lia.
Qed.

Lemma add_signed_unsigned : is_signed l = true → is_signed r = false → add l r a b = if in_type l (a + b) then Some (a + b) else None.
Proof using All.
  intros Sl Sr. unfold add. widths. rewrite Sl, Sr in *. set (c := common_bits l r) in *. pose proof (pow_double (digits l) c).
  rewrite (cast_to_unsigned_id c b), (cast_to_unsigned_id c (2 ^ digits l - 1)), (to_unsigned_neg c a) by lia.
  rewrite to_unsigned_shift, to_unsigned_shift_sub, (cast_to_unsigned_id c (2 ^ digits l - 1 - a)) by lia.
  apply option_if_ext.
  - unfold in_type, lim_min, lim_max. rewrite Sl. lia.
  - intros Hin. apply from_twos_compl_spec; [done..| |done]. unfold needed. rewrite Sl. lia.
Qed.

Lemma add_unsigned_signed : is_signed l = false → is_signed r = true → add l r a b = if in_type l (a + b) then Some (a + b) else None.
Proof using All.
  intros Sl Sr. unfold add. widths. rewrite Sl, Sr in *. set (c := common_bits l r) in *. pose proof (pow_double (digits r) c).
  rewrite (to_unsigned_neg c b), (cast_to_unsigned_id c a), (cast_to_unsigned_id c (2 ^ digits l - 1)) by lia.
  rewrite (Z.add_comm a), to_unsigned_shift, (Z.add_comm b).
  assert (cast_to_unsigned c (a + b) = if a + b <? 0 then a + b + 2 ^ c else if 2 ^ c <=? a + b then a + b - 2 ^ c else a + b) as ->.
  { unfold cast_to_unsigned. by rewrite mod_once by lia. }
  apply option_if_ext; unfold in_type, lim_min, lim_max; rewrite Sl.
  - destruct (Z.ltb_spec (digits l) c) as [Hlt|Hge].
    + pose proof (pow_double (digits l) c). destruct (Z.ltb_spec (a + b) 0), (Z.leb_spec (2 ^ c) (a + b)); lia.
    + assert (digits l = c) as -> by lia. destruct (Z.ltb_spec (a + b) 0), (Z.leb_spec (2 ^ c) (a + b)), (Z.leb_spec 0 b); lia.
  - intros Hin. destruct (Z.ltb_spec (a + b) 0), (Z.leb_spec (2 ^ c) (a + b)); try lia. apply cast_to_unsigned_id. lia.
Qed.

Lemma add_unsigned : is_signed l = false → is_signed r = false → add l r a b = if in_type l (a + b) then Some (a + b) else None.
Proof using All.
  intros Sl Sr. unfold add. widths. rewrite Sl, Sr in *. set (c := common_bits l r) in *.
  assert (cast_to_unsigned (digits l) (cast_to_unsigned c (a + b)) = (a + b) mod 2 ^ digits l) as ->.
  { apply Z.mod_mod_divide, pow_divide. lia. }
  pose proof (Z.mod_pos_bound (a + b) (2 ^ digits l)).
  rewrite (cast_to_unsigned_id c b), (cast_to_unsigned_id c (_ mod _)) by lia.
  apply option_if_ext; unfold in_type, lim_min, lim_max; rewrite Sl.
  - destruct (Z.leb_spec (2 ^ digits l) b); [lia|]. rewrite mod_once by lia. destruct (Z.ltb_spec (a + b) 0), (Z.leb_spec (2 ^ digits l) (a + b)); lia.
  - intros Hin. apply Z.mod_small. lia.
Qed.

Lemma add_exact : add l r a b = if in_type l (a + b) then Some (a + b) else None.
Proof using All.
  destruct (is_signed l) eqn:Sl, (is_signed r) eqn:Sr; auto using add_signed, add_signed_unsigned, add_unsigned_signed, add_unsigned.
Qed.

Lemma sub_signed : is_signed l = true → is_signed r = true → sub l r a b = if in_type l (a - b) then Some (a - b) else None.
Proof using All.
  intros Sl Sr. unfold sub. widths. rewrite Sl, Sr in *. apply option_if_ext; [|intros Hin; by apply cast_id].
  unfold in_type, lim_min, lim_max. rewrite Sl. destruct (Z.ltb_spec b 0); lia.
Qed.

Lemma sub_signed_unsigned : is_signed l = true → is_signed r = false → sub l r a b = if in_type l (a - b) then Some (a - b) else None.
Proof using All.
  intros Sl Sr. unfold sub. widths. rewrite Sl, Sr in *. set (c := common_bits l r) in *. pose proof (pow_double (digits l) c).
  rewrite (cast_to_unsigned_id c b), (to_unsigned_neg c a), (to_unsigned_neg c (- 2 ^ digits l)) by lia.
  rewrite to_unsigned_shift_sub.
  assert (cast_to_unsigned c ((if a <? 0 then a + 2 ^ c else a) - b) = cast_to_unsigned c (a - b)) as -> by apply (to_unsigned_shift c a (- b)).
  assert (cast_to_unsigned c ((if a <? 0 then a + 2 ^ c else a) - - 2 ^ digits l) = a + 2 ^ digits l) as ->.
  { rewrite <- Z.add_opp_r, to_unsigned_shift, cast_to_unsigned_id; lia. }
  apply option_if_ext.
  - unfold in_type, lim_min, lim_max. rewrite Sl. lia.
  - intros Hin. apply from_twos_compl_spec; [done..| |done]. unfold needed. rewrite Sl. lia.
Qed.

Lemma sub_unsigned_signed : is_signed l = false → is_signed r = true → sub l r a b = if in_type l (a - b) then Some (a - b) else None.
Proof using All.
  intros Sl Sr. unfold sub. widths. rewrite Sl, Sr in *. set (c := common_bits l r) in *. pose proof (pow_double (digits r) c).
  rewrite (to_unsigned_neg c b), (cast_to_unsigned_id c a), (cast_to_unsigned_id c (2 ^ digits l - 1)) by lia. rewrite to_unsigned_shift_sub.
  assert (cast_to_unsigned c (a - b) = if a - b <? 0 then a - b + 2 ^ c else if 2 ^ c <=? a - b then a - b - 2 ^ c else a - b) as ->.
  { unfold cast_to_unsigned. by rewrite mod_once by lia. }
  apply option_if_ext; unfold in_type, lim_min, lim_max; rewrite Sl.
  - destruct (Z.ltb_spec (digits l) c) as [Hlt|Hge].
    + pose proof (pow_double (digits l) c). destruct (Z.ltb_spec (a - b) 0), (Z.leb_spec (2 ^ c) (a - b)); lia.
    + assert (digits l = c) as -> by lia. destruct (Z.ltb_spec (a - b) 0), (Z.leb_spec (2 ^ c) (a - b)), (Z.leb_spec 0 b); lia.
  - intros Hin. destruct (Z.ltb_spec (a - b) 0), (Z.leb_spec (2 ^ c) (a - b)); try lia. apply cast_to_unsigned_id. lia.
Qed.

Lemma sub_unsigned : is_signed l = false → is_signed r = false → sub l r a b = if in_type l (a - b) then Some (a - b) else None.
Proof using All.
  intros Sl Sr. unfold sub. widths. rewrite Sl, Sr in *. set (c := common_bits l r) in *.
  rewrite (cast_to_unsigned_id c a), (cast_to_unsigned_id c b) by lia. rewrite (to_unsigned_neg c (a - b)) by lia.
  apply option_if_ext; unfold in_type, lim_min, lim_max; rewrite Sl.
  - destruct (Z.ltb_spec (a - b) 0); lia.
  - intros Hin. destruct (Z.ltb_spec (a - b) 0); [lia|]. apply cast_to_unsigned_id. lia.
Qed.

Lemma sub_exact : sub l r a b = if in_type l (a - b) then Some (a - b) else None.
Proof using All.
  destruct (is_signed l) eqn:Sl, (is_signed r) eqn:Sr; auto using sub_signed, sub_signed_unsigned, sub_unsigned_signed, sub_unsigned.
Qed.

Lemma less_exact : less l r a b = (a <? b).
Proof using All.
  unfold less. destruct (is_signed l) eqn:Sl, (is_signed r) eqn:Sr; widths; rewrite Sl, Sr in *; [done|..].
  - destruct (Z.ltb_spec (digits l) (digits r)).
    + destruct (Z.ltb_spec a 0); [lia|]. pose proof (pow_le (digits l) (digits r)). by rewrite cast_to_unsigned_id by lia.
    + pose proof (pow_le (digits r) (digits l)). rewrite cast_id; [done..|]. apply in_type_iff. unfold lim_min, lim_max. rewrite Sl. lia.
  - destruct (Z.ltb_spec (digits r) (digits l)).
    + destruct (Z.leb_spec 0 b); [|lia]. pose proof (pow_le (digits r) (digits l)). by rewrite cast_to_unsigned_id by lia.
    + pose proof (pow_le (digits l) (digits r)). rewrite cast_id; [done..|]. apply in_type_iff. unfold lim_min, lim_max. rewrite Sr. lia.
  - by rewrite !cast_to_unsigned_id by lia.
Qed.

Lemma equal_exact : equal l r a b = (a =? b).
Proof using All.
  unfold equal. destruct (is_signed l) eqn:Sl, (is_signed r) eqn:Sr; widths; rewrite Sl, Sr in *; [done|..].
  - destruct (Z.ltb_spec (digits l) (digits r)).
    + destruct (Z.leb_spec 0 a); [|lia]. pose proof (pow_le (digits l) (digits r)). by rewrite cast_to_unsigned_id by lia.
    + pose proof (pow_le (digits r) (digits l)). rewrite cast_id; [done..|]. apply in_type_iff. unfold lim_min, lim_max. rewrite Sl. lia.
  - destruct (Z.ltb_spec (digits r) (digits l)).
    + destruct (Z.leb_spec 0 b); [|lia]. pose proof (pow_le (digits r) (digits l)). by rewrite cast_to_unsigned_id by lia.
    + pose proof (pow_le (digits l) (digits r)). rewrite cast_id; [done..|]. apply in_type_iff. unfold lim_min, lim_max. rewrite Sr. lia.
  - by rewrite !cast_to_unsigned_id by lia.
Qed.
End operations.

Lemma lim_min_in t : wf_type t → in_type t (lim_min t) = true.
Proof. intros [Hd _]. apply in_type_iff. pose proof (pow_pos (digits t)). unfold lim_min, lim_max. destruct (is_signed t); lia. Qed.

Lemma lim_max_in t : wf_type t → in_type t (lim_max t) = true.
Proof. intros [Hd _]. apply in_type_iff. pose proof (pow_pos (digits t)). unfold lim_min, lim_max. destruct (is_signed t); lia. Qed.

Lemma multiply_exact l r a b :
  wf_type l → in_type l a = true → 0 <= a → 0 < b →
  multiply l r a b = if in_type l (a * b) then Some (a * b) else None.
Proof.
  intros Hl Ha Hpos Hb. unfold multiply. pose proof (lim_max_in l Hl) as Hm. pose proof Hl as [Hd _]. pose proof (pow_pos (digits l)).
  assert (0 <= lim_max l) as H0 by (unfold lim_max; lia).
  assert (in_type l (lim_max l / b) = true) as Hq.
  { apply in_type_iff. rewrite in_type_iff in Hm. split; [|apply Z.div_le_upper_bound; [lia|]; nia].
    transitivity 0; [|by apply Z.div_pos]. unfold lim_min. destruct (is_signed l); lia. }
  rewrite less_exact by done. rewrite in_type_iff in Ha. apply option_if_ext; [|intros Hin; by apply cast_id].
  assert (lim_min l <= 0) as Hmin by (unfold lim_min; destruct (is_signed l); lia).
  unfold in_type. destruct (Z.ltb_spec (lim_max l / b) a) as [Hlt|Hge].
  - destruct (Z.leb_spec (a * b) (lim_max l)) as [Hle|]; [|by rewrite andb_false_r].
    exfalso. assert (a <= lim_max l / b); [|lia]. apply Z.div_le_lower_bound; lia.
  - assert (a * b <= lim_max l) by (pose proof (Z.mul_div_le (lim_max l) b Hb); nia).
    replace (lim_min l <=? a * b) with true by nia. by replace (a * b <=? lim_max l) with true by lia.
Qed.

Lemma shift_left_exact t a i :
  wf_type t → 0 <= i → 0 <= a → shift_left t a i = if in_type t (a * 2 ^ i) then Some (a * 2 ^ i) else None.
Proof.
  intros [Hd _] Hi Ha. unfold shift_left. pose proof (pow_pos i Hi) as Hp. pose proof (pow_pos (digits t)) as Hq.
  rewrite Z.shiftr_div_pow2, Z.shiftl_mul_pow2 by done. apply option_if_ext; [|done].
  unfold in_type. replace (lim_min t <=? a * 2 ^ i) with true by (unfold lim_min; destruct (is_signed t); nia). cbn [andb].
  destruct (Z.ltb_spec (lim_max t / 2 ^ i) a) as [Hlt|Hge].
  - destruct (Z.leb_spec (a * 2 ^ i) (lim_max t)) as [Hle|]; [|done]. exfalso.
    assert (a <= lim_max t / 2 ^ i); [|lia]. apply Z.div_le_lower_bound; lia.
  - pose proof (Z.mul_div_le (lim_max t) (2 ^ i) Hp). by replace (a * 2 ^ i <=? lim_max t) with true by nia.
Qed.

(** ** The theorem *)

(** C18: for operands of any two integer types of at most 64 bits, signed or not,
    comparison follows the mathematical values; addition, subtraction and conversion
    report overflow exactly when the mathematical result is out of range of the type of the
    result and give that result otherwise; and so do multiplication of a value that
    is not negative by a positive one, and left shift of a value that is not negative. *)
Theorem overflow_detected_exactly (l r : int_type) (a b i : Z) :
  wf_type l → wf_type r → in_type l a = true → in_type r b = true →
  less l r a b = (a <? b) ∧ equal l r a b = (a =? b) ∧
  add l r a b = (if in_type l (a + b) then Some (a + b) else None) ∧
  sub l r a b = (if in_type l (a - b) then Some (a - b) else None) ∧
  cast_has_overflow r l a = negb (in_type r a) ∧
  (0 <= a → 0 < b → multiply l r a b = if in_type l (a * b) then Some (a * b) else None) ∧
  (0 <= a → 0 <= i → shift_left l a i = if in_type l (a * 2 ^ i) then Some (a * 2 ^ i) else None).
Proof.
  intros Hl Hr Ha Hb. split_and!; auto using less_exact, equal_exact, add_exact, sub_exact, multiply_exact, shift_left_exact.
  unfold cast_has_overflow. rewrite !less_exact by auto using lim_min_in, lim_max_in. unfold in_type. lia.
Qed.

Lemma overflow_detected_witness :
  add t_size t_int 18446744073709551615 1 = None ∧ add t_size t_int 1 (-1) = Some 0 ∧ less t_int t_size (-1) 1 = true.
Proof.
  split; [|split].
  - apply (overflow_detected_exactly t_size t_int 18446744073709551615 1 0); by vm_compute.
  - apply (overflow_detected_exactly t_size t_int 1 (-1) 0); by vm_compute.
  - apply (overflow_detected_exactly t_int t_size (-1) 1 0); by vm_compute.
Defined.
