(* ===== verification/LogStream.v ===== *)
(** * The bytes of a transaction log

    Model of the integer encoding of impl/transact_log.hpp and of its input stream
    (impl/input_stream.hpp): a log comes in blocks, and what is read may lie across them. *)

From S2P Require Import Prelude SafeInt.

(** A byte is a number below 256, a log a list of bytes. *)
Abbreviation bytes := (list Z).

(** ** Writing integers *)

Module Encode.
Definition bits_per_byte := 7.

(** The loop of [encode_int]: the bytes written, and the value that is left *)
Fixpoint encode_loop (max_bytes : nat) (value : Z) : bytes * Z :=
  match max_bytes with
  | O => ([], value)
  | S n =>
      if Z.shiftr value (bits_per_byte - 1) =? 0 then ([], value) else
      let '(bs, v) := encode_loop n (Z.shiftr value bits_per_byte) in
      (Z.lor (Z.shiftl 1 bits_per_byte) (Z.land value (Z.shiftl 1 bits_per_byte - 1)) :: bs, v)
  end.

Definition max_bytes (t : int_type) : Z := (1 + digits t + (bits_per_byte - 1)) / bits_per_byte.

(** [encode_int] of a value of type [t] *)
Definition encode_int (t : int_type) (value : Z) : bytes :=
  let negative := SafeInt.is_negative t value in
  let value := if negative then - (value + 1) else value in
  let '(bs, v) := encode_loop (Z.to_nat (max_bytes t)) value in
  bs ++ [(if negative then Z.lor (Z.shiftl 1 (bits_per_byte - 1)) (v mod 2 ^ 32) else v) mod 256].
End Encode.

(** ** Reading *)

(** [BadTransactLog], a failed assertion in a constructor, and what a buffer throws that cannot be enlarged *)
Inductive parse_error := BadTransactLog | AssertionFailed | BufferSizeOverflow | BadAlloc.

(** The allocator belongs to the environment: how many bytes it can give at once. *)
Class Memory := allocates : Z → bool.
(** Memory up to a gibibyte at once. *)
Definition one_gibibyte : Memory := λ n, n <=? 2 ^ 30.

(** What is left of the current block, [m_input_begin] to [m_input_end], the blocks that
    the stream has yet to give, and the sizes of the buffers [m_string_buffer] (with the terminating zero) and [m_path]. *)
Record input := MkInput { block : bytes; blocks : list bytes; buffers : Z * Z }.

(** A parser calls its handler on the way, reads from the stream and may throw. *)
Definition parser (C A : Type) := input → list C * result parse_error (A * input).

#[export] Instance parser_ret C : MRet (parser C) := λ A a i, ([], Ok (a, i)).
#[export] Instance parser_bind C : MBind (parser C) := λ A B f m i,
  match m i with
  | (cs, Ok (a, i')) => let '(cs', r) := f a i' in (cs ++ cs', r)
  | (cs, Raise e) => (cs, Raise e)
  | (cs, Stuck) => (cs, Stuck)
  end.

Module Read.
Section read.
Context {C : Type}.

Definition throw {A} (e : parse_error) : parser C A := λ _, ([], Raise e).
Definition emit (c : C) : parser C unit := λ i, ([c], Ok (tt, i)).

(** [next_input_buffer]; a stream gives no empty block *)
Definition next_input_buffer : parser C bool := λ i,
  match blocks i with
  | [] => ([], Ok (false, i))
  | [] :: _ => ([], Stuck)
  | b :: bs => ([], Ok (true, MkInput b bs (buffers i)))
  end.

(** [read_char], which throws at the end of the input (all its callers do) *)
Definition read_char : parser C Z := λ i,
  match block i, blocks i with
  | c :: b, bs => ([], Ok (c, MkInput b bs (buffers i)))
  | [], (c :: b) :: bs => ([], Ok (c, MkInput b bs (buffers i)))
  | [], [] :: _ => ([], Stuck)
  | [], [] => ([], Raise BadTransactLog)
  end.

(** [read_bytes]: what is left of the block, and then the next ones *)
Fixpoint read_blocks (bufs : Z * Z) (size : Z) (b : bytes) (bs : list bytes) : result parse_error (bytes * input) :=
  let avail := Z.of_nat (length b) in
  if size <=? avail then Ok (take (Z.to_nat size) b, MkInput (drop (Z.to_nat size) b) bs bufs) else
  match bs with
  | [] => Raise BadTransactLog
  | [] :: _ => Stuck
  | b' :: bs => '(rest, i) ← read_blocks bufs (size - avail) b' bs; Ok (b ++ rest, i)
  end.
Definition read_bytes (size : Z) : parser C bytes := λ i, ([], read_blocks (buffers i) size (block i) (blocks i)).

(** The loop of [read_int], from byte [i]: the value and the last byte *)
Fixpoint read_loop (t : int_type) (n : nat) (i value : Z) : parser C (Z * Z) :=
  match n with
  | O => mret (value, 0)
  | S n =>
      part ← read_char;
      if Z.land part 128 =? 0 then
        match SafeInt.shift_left t (Z.land part 63) (i * 7) with
        | None => throw BadTransactLog
        | Some p => mret (Z.lor value p, part)
        end
      else match n with
           | O => throw BadTransactLog
           | S _ => read_loop t n (i + 1) (Z.lor value (Z.shiftl (Z.land part 127) (i * 7)))
           end
  end.

(** [read_int<T>] *)
Definition read_int (t : int_type) : parser C Z :=
  '(value, part) ← read_loop t (Z.to_nat ((digits t + 1 + 6) / 7)) 0 0;
  if negb (Z.land part 64 =? 0) then
    match SafeInt.sub t t_int (cast t (- value)) 1 with
    | None => throw BadTransactLog
    | Some value => mret value
    end
  else mret value.
End read.
End Read.

(** * Instructions of the transaction log

    The instructions of impl/transact_log.hpp with all of their arguments: what an
    encoder is called with, and what a parser calls its handler with.  The handlers of
    TransactLog.v look at fewer arguments. *)

(** [_impl::Instruction] *)
Inductive Instruction :=
  | instr_InsertGroupLevelTable | instr_EraseGroupLevelTable | instr_RenameGroupLevelTable | instr_MoveGroupLevelTable
  | instr_SelectTable | instr_Set | instr_SetUnique | instr_SetDefault | instr_AddInteger | instr_NullifyLink
  | instr_InsertSubstring | instr_EraseFromString | instr_InsertEmptyRows | instr_EraseRows | instr_SwapRows | instr_MoveRow
  | instr_MergeRows | instr_ClearTable | instr_OptimizeTable | instr_SelectDescriptor | instr_InsertColumn
  | instr_InsertLinkColumn | instr_InsertNullableColumn | instr_EraseColumn | instr_EraseLinkColumn | instr_RenameColumn
  | instr_MoveColumn | instr_AddSearchIndex | instr_RemoveSearchIndex | instr_SetLinkType | instr_SelectLinkList
  | instr_LinkListSet | instr_LinkListInsert | instr_LinkListMove | instr_LinkListSwap | instr_LinkListErase
  | instr_LinkListNullify | instr_LinkListClear | instr_LinkListSetAll | instr_AddRowWithKey.

(** The enumeration, whose values begin with 1 *)
Definition instructions : list Instruction := [
  instr_InsertGroupLevelTable; instr_EraseGroupLevelTable; instr_RenameGroupLevelTable; instr_MoveGroupLevelTable;
  instr_SelectTable; instr_Set; instr_SetUnique; instr_SetDefault; instr_AddInteger; instr_NullifyLink;
  instr_InsertSubstring; instr_EraseFromString; instr_InsertEmptyRows; instr_EraseRows; instr_SwapRows; instr_MoveRow;
  instr_MergeRows; instr_ClearTable; instr_OptimizeTable; instr_SelectDescriptor; instr_InsertColumn;
  instr_InsertLinkColumn; instr_InsertNullableColumn; instr_EraseColumn; instr_EraseLinkColumn; instr_RenameColumn;
  instr_MoveColumn; instr_AddSearchIndex; instr_RemoveSearchIndex; instr_SetLinkType; instr_SelectLinkList;
  instr_LinkListSet; instr_LinkListInsert; instr_LinkListMove; instr_LinkListSwap; instr_LinkListErase;
  instr_LinkListNullify; instr_LinkListClear; instr_LinkListSetAll; instr_AddRowWithKey].

#[export] Instance Instruction_dec : EqDecision Instruction.
Proof. solve_decision. Defined.

Definition instr_code (i : Instruction) : Z := Z.of_nat (find_if (λ j, bool_decide (j = i)) instructions) + 1.
(** [Instruction(char)], as the [switch] tells the values apart *)
Definition instr_of (c : Z) : option Instruction := if 1 <=? c then instructions !! Z.to_nat (c - 1) else None.

(** [DataType] *)
Inductive DataType :=
  | type_Int | type_Bool | type_String | type_Binary | type_Table | type_Mixed | type_OldDateTime | type_Timestamp
  | type_Float | type_Double | type_Link | type_LinkList.
#[export] Instance DataType_dec : EqDecision DataType.
Proof. solve_decision. Defined.

Definition type_code (t : DataType) : Z :=
  match t with
  | type_Int => 0 | type_Bool => 1 | type_String => 2 | type_Binary => 4 | type_Table => 5 | type_Mixed => 6
  | type_OldDateTime => 7 | type_Timestamp => 8 | type_Float => 9 | type_Double => 10 | type_Link => 12 | type_LinkList => 13
  end.
Definition data_types : list DataType :=
  [type_Int; type_Bool; type_String; type_Binary; type_Table; type_Mixed; type_OldDateTime; type_Timestamp;
   type_Float; type_Double; type_Link; type_LinkList].
(** [is_valid_data_type] and the conversion *)
Definition type_of (c : Z) : option DataType := list_find (λ t, type_code t = c) data_types ≫= λ p, Some p.2.

Definition is_link_type (t : DataType) : bool := bool_decide (t = type_Link) || bool_decide (t = type_LinkList).

(** [LinkType] *)
Inductive LinkType := link_Strong | link_Weak.
#[export] Instance LinkType_dec : EqDecision LinkType.
Proof. solve_decision. Defined.
Definition link_code (t : LinkType) : Z := match t with link_Strong => 0 | link_Weak => 1 end.
Definition link_of (c : Z) : option LinkType := if c =? 0 then Some link_Strong else if c =? 1 then Some link_Weak else None.

(** [Mixed]; a [float] or [double] is its object representation. *)
Inductive Mixed :=
  | mixed_int (z : Z) | mixed_bool (b : bool) | mixed_float (f : bytes) | mixed_double (d : bytes) | mixed_olddatetime (z : Z)
  | mixed_timestamp (seconds nanoseconds : Z) | mixed_string (s : bytes) | mixed_binary (s : bytes) | mixed_table.

(** What selects a table, a descriptor or a list. *)
Inductive selection :=
  | select_table (group_level_ndx : Z) (path : list (Z * Z))
  | select_descriptor (path : list Z)
  | select_link_list (col_ndx row_ndx link_target_group_level_ndx : Z).

(** The member functions of a handler, with their arguments; a string or binary may be null. *)
Inductive call :=
  | select (s : selection)
  | insert_group_level_table (table_ndx num_tables : Z) (name : bytes)
  | erase_group_level_table (table_ndx num_tables : Z)
  | rename_group_level_table (table_ndx : Z) (new_name : bytes)
  | insert_empty_rows (row_ndx num_rows_to_insert prior_num_rows : Z) (unordered : bool)
  | add_row_with_key (row_ndx prior_num_rows key_col_ndx key : Z)
  | erase_rows (row_ndx num_rows_to_erase prior_num_rows : Z) (unordered : bool)
  | swap_rows (row_ndx_1 row_ndx_2 : Z)
  | move_row (from_ndx to_ndx : Z)
  | merge_rows (row_ndx new_row_ndx : Z)
  | clear_table (old_table_size : Z)
  | set_int (col_ndx row_ndx value : Z) (variant : Instruction) (prior_num_rows : Z)
  | add_int (col_ndx row_ndx value : Z)
  | set_bool (col_ndx row_ndx : Z) (value : bool) (variant : Instruction)
  | set_float (col_ndx row_ndx : Z) (value : bytes) (variant : Instruction)
  | set_double (col_ndx row_ndx : Z) (value : bytes) (variant : Instruction)
  | set_string (col_ndx row_ndx : Z) (value : option bytes) (variant : Instruction) (prior_num_rows : Z)
  | set_binary (col_ndx row_ndx : Z) (value : option bytes) (variant : Instruction)
  | set_olddatetime (col_ndx row_ndx value : Z) (variant : Instruction)
  | set_timestamp (col_ndx row_ndx seconds nanoseconds : Z) (variant : Instruction)
  | set_table (col_ndx row_ndx : Z) (variant : Instruction)
  | set_mixed (col_ndx row_ndx : Z) (value : Mixed) (variant : Instruction)
  | set_link (col_ndx row_ndx value target_group_level_ndx : Z) (variant : Instruction)
  | set_null (col_ndx row_ndx : Z) (variant : Instruction) (prior_num_rows : Z)
  | nullify_link (col_ndx row_ndx target_group_level_ndx : Z)
  | insert_substring (col_ndx row_ndx pos : Z) (value : bytes)
  | erase_substring (col_ndx row_ndx pos size : Z)
  | optimize_table
  | insert_link_column (col_ndx : Z) (type : DataType) (name : bytes) (link_target_table_ndx backlink_col_ndx : Z)
  | insert_column (col_ndx : Z) (type : DataType) (name : bytes) (nullable : bool)
  | erase_link_column (col_ndx link_target_table_ndx backlink_col_ndx : Z)
  | erase_column (col_ndx : Z)
  | rename_column (col_ndx : Z) (new_name : bytes)
  | add_search_index (col_ndx : Z)
  | remove_search_index (col_ndx : Z)
  | set_link_type (col_ndx : Z) (type : LinkType)
  | link_list_set (link_ndx value prior_size : Z)
  | link_list_insert (link_ndx value prior_size : Z)
  | link_list_move (from_link_ndx to_link_ndx : Z)
  | link_list_swap (link1_ndx link2_ndx : Z)
  | link_list_erase (link_ndx prior_size : Z)
  | link_list_nullify (link_ndx prior_size : Z)
  | link_list_clear (old_list_size : Z).

#[export] Instance Mixed_dec : EqDecision Mixed.
Proof. solve_decision. Defined.
#[export] Instance selection_dec : EqDecision selection.
Proof. solve_decision. Defined.
#[export] Instance call_dec : EqDecision call.
Proof. solve_decision. Defined.

(** What an encoder is asked to write; only it knows [link_list_set_all]. *)
Inductive log_op := log (c : call) | link_list_set_all (values : list Z).

(** * What an instruction of the transaction log applies to

    An instruction applies to the group, or to the table, the descriptor or the link list
    that was last selected.  The meaning of a log is its calls with what each applies to. *)

(** The selection of an observer of the log: selecting a table unselects the descriptor
    and the list, selecting a descriptor unselects the list, and an instruction on the
    group unselects everything. *)
Record context := MkContext {
  cur_table : option (Z * list (Z * Z));
  cur_desc : option (list Z);
  cur_list : option (Z * Z * Z)
}.
Definition nothing : context := MkContext None None None.

Definition enter (ctx : context) (s : selection) : context :=
  match s with
  | select_table g path => MkContext (Some (g, path)) None None
  | select_descriptor path => MkContext (cur_table ctx) (Some path) None
  | select_link_list col row target => MkContext (cur_table ctx) (cur_desc ctx) (Some (col, row, target))
  end.

Inductive level := on_group | on_table | on_descriptor | on_list.
#[export] Instance level_dec : EqDecision level.
Proof. solve_decision. Defined.

Definition level_of (c : call) : level :=
  match c with
  | insert_group_level_table _ _ _ | erase_group_level_table _ _ | rename_group_level_table _ _ => on_group
  | insert_link_column _ _ _ _ _ | insert_column _ _ _ _ | erase_link_column _ _ _ | erase_column _ | rename_column _ _
  | add_search_index _ | remove_search_index _ => on_descriptor
  | link_list_set _ _ _ | link_list_insert _ _ _ | link_list_move _ _ | link_list_swap _ _ | link_list_erase _ _
  | link_list_nullify _ _ | link_list_clear _ => on_list
  | _ => on_table
  end.

(** What a call applies to: a group, a table, a descriptor of a table or a list in a table. *)
Inductive scope :=
  | the_group
  | the_table (t : Z * list (Z * Z))
  | the_descriptor (t : Z * list (Z * Z)) (d : list Z)
  | the_list (t : Z * list (Z * Z)) (l : Z * Z * Z).
#[export] Instance scope_dec : EqDecision scope.
Proof. solve_decision. Defined.

Definition scope_at (ctx : context) (l : level) : option scope :=
  match l with
  | on_group => Some the_group
  | on_table => the_table <$> cur_table ctx
  | on_descriptor => t ← cur_table ctx; d ← cur_desc ctx; Some (the_descriptor t d)
  | on_list => t ← cur_table ctx; l ← cur_list ctx; Some (the_list t l)
  end.

Definition next_context (ctx : context) (c : call) : context :=
  match c with
  | select s => enter ctx s
  | c => if bool_decide (level_of c = on_group) then nothing else ctx
  end.
Definition context_after (ctx : context) (cs : list call) : context := fold_left next_context cs ctx.

(** The calls of a log other than the selections, with what they apply to. *)
Fixpoint scoped (ctx : context) (cs : list call) : list (option scope * call) :=
  match cs with
  | [] => []
  | select s :: cs => scoped (enter ctx s) cs
  | c :: cs => (scope_at ctx (level_of c), c) :: scoped (next_context ctx c) cs
  end.

(** Everything that a call needs is selected when it comes. *)
Definition well_selected (ctx : context) (cs : list call) : Prop := Forall (λ p, is_Some p.1) (scoped ctx cs).

Definition is_select (c : call) : bool := match c with select _ => true | _ => false end.

Lemma scoped_cons ctx c cs : is_select c = false →
  scoped ctx (c :: cs) = (scope_at ctx (level_of c), c) :: scoped (next_context ctx c) cs.
Proof. by destruct c. Qed.

Lemma scoped_app cs1 : ∀ ctx cs2, scoped ctx (cs1 ++ cs2) = scoped ctx cs1 ++ scoped (context_after ctx cs1) cs2.
Proof.
  induction cs1 as [|c cs1 IH]; intros ctx cs2; [done|]. destruct (is_select c) eqn:Ec.
  - destruct c; try done. cbn [app scoped]. apply IH.
  - rewrite <- app_comm_cons, !scoped_cons by done. cbn [app]. f_equal. apply IH.
Qed.

Lemma next_context_same ctx c : is_select c = false → level_of c ≠ on_group → next_context ctx c = ctx.
Proof. intros Hs Hl. unfold next_context. rewrite bool_decide_false by done. by destruct c. Qed.

Lemma next_context_group ctx c : level_of c = on_group → next_context ctx c = nothing.
Proof. by destruct c. Qed.

(** Calls on one table, descriptor or list. *)
Lemma scoped_level ctx l cs : l ≠ on_group → Forall (λ c, is_select c = false ∧ level_of c = l) cs →
  scoped ctx cs = (λ c, (scope_at ctx l, c)) <$> cs ∧ context_after ctx cs = ctx.
Proof.
  intros Hl. induction 1 as [|c cs [Hs Hc] _ [IH1 IH2]]; [done|].
  assert (next_context ctx c = ctx) as E by (apply next_context_same; [done|by rewrite Hc]).
  rewrite scoped_cons by done. rewrite E, IH1, Hc. split; [done|]. unfold context_after in *. cbn [fold_left]. by rewrite E.
Qed.
