(* ===== verification/LogStreamTheorems.v ===== *)
(** * Integers in the log are read as they were written

    [read_int] of any type, on the encoding of a value of any other type, whatever
    blocks it comes in. *)

From S2P Require Import Prelude SafeInt SafeIntTheorems LogStream.
Import Encode Read.

(** ** Bytes *)

(** Two numbers without a common bit. *)
Lemma lor_shiftl a b n : 0 <= n → 0 <= a < 2 ^ n → Z.lor a (b * 2 ^ n) = a + b * 2 ^ n.
Proof.
  intros Hn Ha. assert (Z.land a (b * 2 ^ n) = 0) as E.
  { apply Z.bits_inj'. intros k Hk. rewrite Z.land_spec, Z.bits_0, <- Z.shiftl_mul_pow2 by done.
    destruct (Z.ltb_spec k n); [by rewrite Z.shiftl_spec_low, andb_false_r|].
    rewrite <- (Z.mod_small a (2 ^ n)) by done. by rewrite Z.mod_pow2_bits_high by lia. }
  by rewrite <- Z.lxor_lor, <- Z.add_nocarry_lxor.
Qed.

(** A property of the numbers below [n], checked for each of them. *)
Lemma check_below (n : nat) (P : Z → bool) : forallb (λ k, P (Z.of_nat k)) (seq 0 n) = true → ∀ m, 0 <= m < Z.of_nat n → P m = true.
Proof.
  intros Hf m Hm. rewrite forallb_forall in Hf. specialize (Hf (Z.to_nat m)). rewrite Z2Nat.id in Hf by lia.
  apply Hf, in_seq. lia.
Qed.

Lemma continued_byte m : 0 <= m < 128 → Z.lor 128 m = 128 + m ∧ Z.land (128 + m) 128 = 128 ∧ Z.land (128 + m) 127 = m.
Proof.
  intros Hm. pose proof (check_below 128 (λ m, (Z.lor 128 m =? 128 + m) && (Z.land (128 + m) 128 =? 128) && (Z.land (128 + m) 127 =? m))
    ltac:(by vm_compute) m Hm) as H. cbn beta in H. rewrite !andb_true_iff, !Z.eqb_eq in H. tauto.
Qed.

Lemma last_byte m : 0 <= m < 64 →
  Z.land m 128 = 0 ∧ Z.land m 63 = m ∧ Z.land m 64 = 0 ∧
  Z.lor 64 m = 64 + m ∧ Z.land (64 + m) 128 = 0 ∧ Z.land (64 + m) 63 = m ∧ Z.land (64 + m) 64 = 64.
Proof.
  intros Hm. pose proof (check_below 64 (λ m, (Z.land m 128 =? 0) && (Z.land m 63 =? m) && (Z.land m 64 =? 0) && (Z.lor 64 m =? 64 + m)
    && (Z.land (64 + m) 128 =? 0) && (Z.land (64 + m) 63 =? m) && (Z.land (64 + m) 64 =? 64)) ltac:(by vm_compute) m Hm) as H.
  cbn beta in H. rewrite !andb_true_iff, !Z.eqb_eq in H. tauto.
Qed.

(** ** The encoding *)

Lemma encode_loop_stop n w : w < 64 → 0 <= w → encode_loop n w = ([], w).
Proof.
  intros Hw H0. destruct n; [done|]. cbn [encode_loop]. unfold bits_per_byte. rewrite Z.shiftr_div_pow2 by done.
  by rewrite Z.div_small by (simpl; lia).
Qed.

Lemma encode_loop_next n w : 64 <= w → encode_loop (S n) w = let '(bs, v) := encode_loop n (w / 128) in (128 + w mod 128 :: bs, v).
Proof.
  intros Hw. cbn [encode_loop]. unfold bits_per_byte. rewrite !Z.shiftr_div_pow2 by done.
  assert (1 <= w / 64) by (apply Z.div_le_lower_bound; lia). change (2 ^ (7 - 1)) with 64. replace (w / 64 =? 0) with false by lia.
  change (2 ^ 7) with 128. destruct (encode_loop n (w / 128)) as [bs v]. f_equal. f_equal.
  change (Z.shiftl 1 7 - 1) with (Z.ones 7). rewrite Z.land_ones by done. change (Z.shiftl 1 7) with 128.
  apply continued_byte. apply Z.mod_pos_bound. done.
Qed.

(** With enough bytes, less than six bits are left for the last one. *)
Lemma encode_loop_rest n m w : (n <= m)%nat → 0 <= w < 2 ^ (7 * Z.of_nat n + 6) → ∃ bs v, encode_loop m w = (bs, v) ∧ 0 <= v < 64 ∧ (length bs <= n)%nat.
Proof.
  revert m w. induction n as [|n IH]; intros m w Hm Hw; [exists [], w; by rewrite encode_loop_stop by (simpl in Hw; lia)|].
  destruct (Z.ltb_spec w 64); [exists [], w; rewrite encode_loop_stop by lia; split_and!; try done; simpl; lia|].
  destruct m as [|m]; [lia|]. rewrite encode_loop_next by done. destruct (IH m (w / 128)) as (bs & v & -> & Hv & Hl); [lia|..].
  - split; [apply Z.div_pos; lia|]. apply Z.div_lt_upper_bound; [done|].
    replace (7 * Z.of_nat (S n) + 6) with (7 + (7 * Z.of_nat n + 6)) in Hw by lia. rewrite Z.pow_add_r in Hw by lia. change (2 ^ 7) with 128 in Hw. lia.
  - exists (128 + w mod 128 :: bs), v. split_and!; try done; simpl; lia.
Qed.

(** The value with its sign taken off *)
Definition magnitude (z : Z) : Z := if z <? 0 then - (z + 1) else z.
Definition sign_byte (z v : Z) : Z := if z <? 0 then 64 + v else v.

Lemma magnitude_bound t z : wf_type t → in_type t z = true → 0 <= magnitude z < 2 ^ digits t.
Proof. intros [Hd _] Hz%in_type_iff. unfold magnitude, lim_min, lim_max in *. destruct (is_signed t), (Z.ltb_spec z 0); lia. Qed.

Lemma encode_int_spec t z :
  wf_type t → in_type t z = true →
  ∃ bs v, encode_loop (Z.to_nat (max_bytes t)) (magnitude z) = (bs, v) ∧ 0 <= v < 64 ∧ encode_int t z = bs ++ [sign_byte z v] ∧
    Z.of_nat (length (encode_int t z)) <= max_bytes t.
Proof.
  intros Ht Hz. pose proof (magnitude_bound t z Ht Hz) as Hm. pose proof Ht as [Hd Hn].
  assert (SafeInt.is_negative t z = (z <? 0)) as En.
  { unfold SafeInt.is_negative. destruct (is_signed t) eqn:Es; [done|]. apply in_type_iff in Hz. unfold lim_min in Hz. rewrite Es in Hz. lia. }
  assert (1 <= max_bytes t ∧ digits t + 1 <= 7 * max_bytes t) as [H0 H7].
  { unfold max_bytes, bits_per_byte. pose proof (Z.div_mod (1 + digits t + (7 - 1)) 7). pose proof (Z.mod_pos_bound (1 + digits t + (7 - 1)) 7). lia. }
  destruct (encode_loop_rest (Z.to_nat (max_bytes t - 1)) (Z.to_nat (max_bytes t)) (magnitude z)) as (bs & v & E & Hv & Hl).
  { lia. }
  { split; [lia|]. rewrite Z2Nat.id by lia. eapply Z.lt_le_trans; [apply Hm|]. apply pow_le. lia. }
  exists bs, v. unfold encode_int. rewrite En. fold (magnitude z). rewrite E. split; [done|]. split; [done|]. split.
  - f_equal. f_equal. unfold sign_byte. rewrite (Z.mod_small v) by (simpl; lia). destruct (z <? 0).
    + change (Z.shiftl 1 (bits_per_byte - 1)) with 64. rewrite (proj1 (proj2 (proj2 (proj2 (last_byte v Hv))))). apply Z.mod_small. lia.
    + apply Z.mod_small. lia.
  - rewrite length_app. simpl. lia.
Qed.

(** ** What a parser does with the bytes it is given *)

(** A stream gives no empty block; what it gives together. *)
Definition wf_input (i : input) : Prop := Forall (λ b, b ≠ []) (blocks i).
Definition content (i : input) : bytes := block i ++ concat (blocks i).

Section reads.
Context {C : Type}.

(** However the bytes are cut into blocks: the parser reads exactly [bs]. *)
Definition reads {A} (m : parser C A) (bs : bytes) (cs : list C) (a : A) : Prop :=
  ∀ i rest, wf_input i → content i = bs ++ rest → ∃ i', m i = (cs, Ok (a, i')) ∧ wf_input i' ∧ content i' = rest.

(** The parser gives up within [bs]. *)
Definition fails {A} (m : parser C A) (bs : bytes) : Prop :=
  ∀ i rest, wf_input i → content i = bs ++ rest → m i = ([], Raise BadTransactLog).

Lemma reads_ret {A} (a : A) : reads (mret a) [] [] a.
Proof. intros i rest Hi Hc. by exists i. Qed.

Lemma reads_emit (c : C) : reads (emit c) [] [c] tt.
Proof. intros i rest Hi Hc. by exists i. Qed.

Lemma reads_bind {A B} (m : parser C A) (f : A → parser C B) bs bs' cs cs' a b :
  reads m bs cs a → reads (f a) bs' cs' b → reads (m ≫= f) (bs ++ bs') (cs ++ cs') b.
Proof.
  intros Hm Hf i rest Hi Hc. rewrite <- app_assoc in Hc. destruct (Hm i _ Hi Hc) as (i1 & E1 & Hi1 & Hc1).
  destruct (Hf i1 rest Hi1 Hc1) as (i2 & E2 & Hi2 & Hc2). exists i2. split; [|done].
  unfold mbind, parser_bind. by rewrite E1, E2.
Qed.

(** The common cases: a step that calls no handler, and the steps of a chain. *)
Lemma reads_step {A B} (m : parser C A) (f : A → parser C B) bs bs' cs a b :
  reads m bs [] a → reads (f a) bs' cs b → reads (m ≫= f) (bs ++ bs') cs b.
Proof. intros Hm Hf. exact (reads_bind m f bs bs' [] cs a b Hm Hf). Qed.

(** A step that reads nothing. *)
Lemma reads_pure {A B} (m : parser C A) (f : A → parser C B) bs cs a b :
  reads m [] [] a → reads (f a) bs cs b → reads (m ≫= f) bs cs b.
Proof. intros Hm Hf. exact (reads_bind m f [] bs [] cs a b Hm Hf). Qed.

Lemma fails_first {A B} (m : parser C A) (f : A → parser C B) bs : fails m bs → fails (m ≫= f) bs.
Proof. intros Hm i rest Hi Hc. unfold mbind, parser_bind. by rewrite (Hm i rest Hi Hc). Qed.

Lemma fails_step {A B} (m : parser C A) (f : A → parser C B) bs bs' a :
  reads m bs [] a → fails (f a) bs' → fails (m ≫= f) (bs ++ bs').
Proof.
  intros Hm Hf i rest Hi Hc. rewrite <- app_assoc in Hc. destruct (Hm i _ Hi Hc) as (i1 & E1 & Hi1 & Hc1).
  unfold mbind, parser_bind. by rewrite E1, (Hf i1 rest Hi1 Hc1).
Qed.

Lemma fails_throw {A} bs : fails (throw (A := A) BadTransactLog) bs.
Proof. by intros i rest _ _. Qed.

Lemma reads_char c : reads read_char [c] [] c.
Proof.
  intros [[|c' b] bs bufs] rest Hi Hc; unfold content in Hc; simpl in Hc.
  - destruct bs as [|[|c' b] bs]; [done|by inversion Hi|]. simpl in Hc. injection Hc as -> Hc.
    exists (MkInput b bs bufs). split; [done|]. split; [|done]. by inversion Hi.
  - injection Hc as -> Hc. by exists (MkInput b bs bufs).
Qed.

Lemma read_blocks_spec bufs bs b data rest :
  Forall (λ b, b ≠ []) bs → b ++ concat bs = data ++ rest →
  ∃ i', read_blocks bufs (Z.of_nat (length data)) b bs = Ok (data, i') ∧ wf_input i' ∧ content i' = rest.
Proof.
  revert b data. induction bs as [|b' bs IH]; intros b data Hbs Hc; simpl.
  - rewrite app_nil_r in Hc. subst b. rewrite (proj2 (Z.leb_le _ _)) by (rewrite length_app; lia).
    rewrite Nat2Z.id, take_app_length, drop_app_length. eexists. split; [done|]. split; [done|]. unfold content. by rewrite app_nil_r.
  - apply Forall_cons in Hbs as [Hb' Hbs]. rewrite Nat2Z.id. destruct (Z.leb_spec (Z.of_nat (length data)) (Z.of_nat (length b))) as [Hl|Hl].
    + apply app_eq_inv in Hc as [(k & -> & ->)|(k & -> & Hk)].
      * rewrite take_app_length, drop_app_length. eexists. split; [done|]. by split; [constructor|].
      * rewrite length_app in Hl. assert (k = []) as -> by (apply nil_length_inv; lia). rewrite app_nil_r, firstn_all, drop_all.
        eexists. split; [done|]. by split; [constructor|].
    + destruct b' as [|x b']; [done|]. apply app_eq_inv in Hc as [(k & -> & Hk)|(k & -> & Hk)].
      * rewrite length_app in Hl. lia.
      * rewrite length_app. replace (Z.of_nat (length b + length k) - Z.of_nat (length b)) with (Z.of_nat (length k)) by lia.
        destruct (IH (x :: b') k Hbs Hk) as (i' & E & Hi'). unfold mbind, result_bind. rewrite E. by exists i'.
Qed.

Lemma reads_bytes data : reads (read_bytes (Z.of_nat (length data))) data [] data.
Proof.
  intros i rest Hi Hc. unfold read_bytes. destruct (read_blocks_spec (buffers i) _ _ data rest Hi Hc) as (i' & -> & Hi'). by exists i'.
Qed.
End reads.

(** ** Reading an integer *)

Section read_int.
Context {C : Type} (t : int_type) (Ht : wf_type t).

Lemma max_bytes_bounds : 1 <= max_bytes t ∧ digits t + 1 <= 7 * max_bytes t <= digits t + 7.
Proof using Ht.
  destruct Ht as [Hd _]. unfold max_bytes, bits_per_byte. pose proof (Z.div_mod (1 + digits t + (7 - 1)) 7).
  pose proof (Z.mod_pos_bound (1 + digits t + (7 - 1)) 7). lia.
Qed.

(** Either the value is read, or it is too large and reading gives up. *)
Definition reads_value (m : parser C (Z * Z)) (bs : bytes) (z last : Z) : Prop :=
  if z <=? lim_max t then reads m bs [] (z, last) else fails m bs.

(** Whether the last bits fit is decided by those bits. *)
Lemma fits_last i value w :
  0 <= i → 7 * i <= digits t → 0 <= value < 2 ^ (7 * i) → 0 <= w →
  in_type t (w * 2 ^ (7 * i)) = (value + w * 2 ^ (7 * i) <=? lim_max t).
Proof using Ht.
  intros Hi Hd Hv Hw. pose proof (pow_pos (7 * i)) as Hp. unfold in_type, lim_max.
  replace (lim_min t <=? w * 2 ^ (7 * i)) with true
    by (symmetry; apply Z.leb_le; destruct Ht as [Hd' _]; pose proof (pow_pos (digits t)); unfold lim_min; destruct (is_signed t); nia).
  cbn [andb]. assert (2 ^ digits t = 2 ^ (digits t - 7 * i) * 2 ^ (7 * i)) as E by (rewrite <- Z.pow_add_r by lia; f_equal; lia).
  rewrite E. set (p := 2 ^ (7 * i)) in *. set (q := 2 ^ (digits t - 7 * i)) in *. specialize (Hp ltac:(lia)).
  destruct (Z.leb_spec (w * p) (q * p - 1)) as [Hle|], (Z.leb_spec (value + w * p) (q * p - 1)); try done; exfalso; [|lia].
  assert (w < q) by nia. nia.
Qed.

Lemma read_last n i value v last :
  0 <= i → 7 * i <= digits t → 0 <= value < 2 ^ (7 * i) → 0 <= v < 64 → last = v ∨ last = 64 + v →
  reads_value (read_loop t (S n) i value) [last] (value + v * 2 ^ (7 * i)) last.
Proof using Ht.
  intros Hi Hd Hval Hv Hl. destruct (last_byte v Hv) as (B1 & B2 & _ & _ & B5 & B6 & _).
  assert (Z.land last 128 = 0 ∧ Z.land last 63 = v) as [E1 E2] by (destruct Hl as [->| ->]; done).
  unfold reads_value. cbn [read_loop].
  assert (∀ z, reads (C := C) read_char [z] [] z) as Hc by apply reads_char.
  rewrite <- (fits_last i value v) by (try done; lia).
  destruct (in_type t (v * 2 ^ (7 * i))) eqn:E; [eapply (reads_step _ _ [last] [])|apply (fails_step _ _ [last] [] last)]; try apply Hc;
    rewrite E1, E2, (Z.mul_comm i); cbn [Z.eqb]; rewrite shift_left_exact by (try done; lia); rewrite E.
  - rewrite lor_shiftl by lia. apply reads_ret.
  - apply fails_throw.
Qed.

Lemma read_loop_spec k : ∀ n i value w bs v last,
  0 <= i → Z.of_nat n + i = max_bytes t → (1 <= n)%nat → 0 <= value < 2 ^ (7 * i) → 0 <= w →
  encode_loop k w = (bs, v) → 0 <= v < 64 → last = v ∨ last = 64 + v →
  reads_value (read_loop t n i value) (bs ++ [last]) (value + w * 2 ^ (7 * i)) last.
Proof using Ht.
  pose proof max_bytes_bounds as [HM1 HM2]. induction k as [|k IH]; intros n i value w bs v last Hi Hn H1 Hval Hw E Hv Hl;
    (destruct n as [|n]; [lia|]).
  - injection E as <- ->. apply read_last; try done. lia.
  - destruct (Z.ltb_spec w 64) as [Hlt|Hge].
    { rewrite encode_loop_stop in E by lia. injection E as <- ->. apply read_last; try done. lia. }
    rewrite encode_loop_next in E by done. destruct (encode_loop k (w / 128)) as [bs' v'] eqn:E'. injection E as <- ->.
    pose proof (Z.mod_pos_bound w 128) as Hm. destruct (continued_byte (w mod 128)) as (_ & B2 & B3); [lia|].
    pose proof (pow_pos (7 * i)) as Hp. pose proof (Z.div_mod w 128) as Hdm.
    change ((128 + w mod 128 :: bs') ++ [last]) with ([128 + w mod 128] ++ (bs' ++ [last])).
    unfold reads_value. cbn [read_loop]. destruct n as [|n].
    + assert (2 ^ (7 * i + 6) = 64 * 2 ^ (7 * i)) as Ep by (rewrite Z.pow_add_r by lia; simpl; lia).
      pose proof (pow_le (digits t) (7 * i + 6)) as Hle. destruct Ht as [Hd _].
      destruct (Z.leb_spec (value + w * 2 ^ (7 * i)) (lim_max t)) as [Hc|_]; [unfold lim_max in Hc; exfalso; nia|].
      eapply fails_step; [apply reads_char|]. rewrite B2. cbn [Z.eqb]. apply fails_throw.
    + assert (2 ^ (7 * (i + 1)) = 128 * 2 ^ (7 * i)) as Ep.
      { replace (7 * (i + 1)) with (7 * i + 7) by lia. rewrite Z.pow_add_r by lia. change (2 ^ 7) with 128. lia. }
      assert (value + w mod 128 * 2 ^ (7 * i) + w / 128 * 2 ^ (7 * (i + 1)) = value + w * 2 ^ (7 * i)) as Es by (rewrite Ep; nia).
      specialize (IH (S n) (i + 1) (value + w mod 128 * 2 ^ (7 * i)) (w / 128) bs' v last). unfold reads_value in IH. rewrite Es in IH.
      assert (Z.lor value (Z.shiftl (Z.land (128 + w mod 128) 127) (i * 7)) = value + w mod 128 * 2 ^ (7 * i)) as Elor.
      { rewrite B3, (Z.mul_comm i), Z.shiftl_mul_pow2 by lia. apply lor_shiftl; lia. }
      destruct (value + w * 2 ^ (7 * i) <=? lim_max t); [eapply reads_step|eapply fails_step]; try apply reads_char;
        rewrite B2, Elor; cbn [Z.eqb]; apply IH; try done; try lia; try nia; by apply Z.div_pos.
Qed.
End read_int.

(** Reading as [t] what was written as [s]. *)
Section integers.
Context {C : Type} (s t : int_type) (Hs : wf_type s) (Ht : wf_type t) (z : Z) (Hz : in_type s z = true).

Lemma read_magnitude :
  ∃ last, (z <? 0 = negb (Z.land last 64 =? 0)) ∧
  reads_value (C := C) t (read_loop t (Z.to_nat ((digits t + 1 + 6) / 7)) 0 0) (encode_int s z) (magnitude z) last.
Proof using Hs Ht Hz.
  destruct (encode_int_spec s z Hs Hz) as (bs & v & E & Hv & -> & _). destruct (last_byte v Hv) as (_ & _ & B3 & _ & _ & _ & B7).
  exists (sign_byte z v). split; [unfold sign_byte; destruct (z <? 0); by rewrite ?B3, ?B7|].
  pose proof (max_bytes_bounds t Ht) as [HM _].
  assert (Z.to_nat ((digits t + 1 + 6) / 7) = Z.to_nat (max_bytes t)) as -> by (unfold max_bytes, bits_per_byte; f_equal; f_equal; lia).
  pose proof (read_loop_spec (C := C) t Ht (Z.to_nat (max_bytes s)) (Z.to_nat (max_bytes t)) 0 0 (magnitude z) bs v (sign_byte z v)) as Hr.
  rewrite Z.mul_0_r, Z.mul_1_r, Z.add_0_l in Hr.
  apply Hr; try done; try lia; [apply (magnitude_bound s z Hs Hz)|]. unfold sign_byte. destruct (z <? 0); auto.
Qed.

(** The range of a type, in terms of the magnitude. *)
Lemma in_type_magnitude : is_signed t = true ∨ 0 <= z → in_type t z = (magnitude z <=? lim_max t).
Proof using Hz Ht.
  intros Hc. pose proof Ht as [Hd _]. pose proof (pow_pos (digits t)). unfold in_type, magnitude, lim_min, lim_max.
  destruct (is_signed t), (Z.ltb_spec z 0); lia.
Qed.

Lemma read_int_signed :
  is_signed t = true ∨ 0 <= z → if in_type t z then reads (C := C) (read_int t) (encode_int s z) [] z else fails (C := C) (read_int t) (encode_int s z).
Proof using Hs Ht Hz.
  intros Hc. destruct read_magnitude as (last & Hlast & Hr). unfold reads_value in Hr. rewrite in_type_magnitude by done.
  destruct (magnitude z <=? lim_max t) eqn:Em; [|by apply fails_first].
  rewrite <- (app_nil_r (encode_int s z)). eapply reads_step; [exact Hr|]. cbn beta iota. rewrite <- Hlast.
  destruct (Z.ltb_spec z 0) as [Hneg|Hpos]; [|unfold magnitude; replace (z <? 0) with false by lia; apply reads_ret].
  destruct Hc as [Hsg|]; [|lia]. assert (in_type t (- magnitude z) = true) as Hin.
  { unfold magnitude in *. replace (z <? 0) with true in * by lia. apply in_type_iff. pose proof Ht as [Hd _].
    pose proof (pow_pos (digits t)). unfold lim_min, lim_max in *. rewrite Hsg. lia. }
  rewrite cast_id by done. rewrite sub_exact by done.
  assert (- magnitude z - 1 = z) as -> by (unfold magnitude; replace (z <? 0) with true by lia; lia).
  rewrite in_type_magnitude by auto. rewrite Em. apply reads_ret.
Qed.

(** A negative number read as unsigned is taken modulo the range, except -1. *)
Lemma read_int_negative :
  is_signed t = false → z < 0 →
  if (z =? -1) || (lim_max t <? magnitude z) then fails (C := C) (read_int t) (encode_int s z)
  else reads (C := C) (read_int t) (encode_int s z) [] (z + 2 ^ digits t).
Proof using Hs Ht Hz.
  intros Hsg Hneg. destruct read_magnitude as (last & Hlast & Hr). unfold reads_value in Hr. replace (z <? 0) with true in Hlast by lia.
  destruct (Z.ltb_spec (lim_max t) (magnitude z)) as [Hgt|Hle].
  { rewrite orb_true_r. replace (magnitude z <=? lim_max t) with false in Hr by lia. by apply fails_first. }
  replace (magnitude z <=? lim_max t) with true in Hr by lia. rewrite orb_false_r.
  assert (magnitude z = - (z + 1)) as Em by (unfold magnitude; by replace (z <? 0) with true by lia).
  pose proof Ht as [Hd _]. pose proof (pow_pos (digits t)) as Hp. unfold lim_max in Hle.
  assert (cast t (- magnitude z) = if z =? -1 then 0 else z + 1 + 2 ^ digits t) as Ec.
  { unfold cast. rewrite Hsg, Em, mod_once by lia. destruct (Z.eqb_spec z (-1)) as [->|].
    { change (- - (-1 + 1)) with 0. by replace (2 ^ digits t <=? 0) with false by lia. }
    replace (- - (z + 1) <? 0) with true by lia. lia. }
  rewrite <- (app_nil_r (encode_int s z)).
  destruct (Z.eqb_spec z (-1)) as [Hm|Hm]; [eapply fails_step|eapply reads_step]; try exact Hr; cbn beta iota; rewrite <- Hlast, Ec;
    (rewrite sub_exact; [|done|done| |done]); try (apply in_type_iff; unfold lim_min, lim_max; rewrite Hsg; lia).
  - replace (in_type t (0 - 1)) with false by (unfold in_type, lim_min; rewrite Hsg; lia). apply fails_throw.
  - replace (in_type t (z + 1 + 2 ^ digits t - 1)) with true by (unfold in_type, lim_min, lim_max; rewrite Hsg; lia).
    replace (z + 1 + 2 ^ digits t - 1) with (z + 2 ^ digits t) by lia. apply reads_ret.
Qed.
End integers.

(** An integer written as one type and read as another is read back, from any
    blocks, when it is in the range of the type that is read, and reading throws when it
    is not, provided that the type is signed or the integer is not negative; the encoding is at most
    [max_bytes] long. *)
Theorem read_int_correct (s t : int_type) (z : Z) {C : Type} :
  wf_type s → wf_type t → in_type s z = true → is_signed t = true ∨ 0 <= z →
  Z.of_nat (length (encode_int s z)) <= max_bytes s ∧
  ∀ i rest, wf_input i → content i = encode_int s z ++ rest →
    if in_type t z then ∃ i', read_int (C := C) t i = ([], Ok (z, i')) ∧ wf_input i' ∧ content i' = rest
    else read_int (C := C) t i = ([], Raise BadTransactLog).
Proof.
  intros Hs Ht Hz Hc. split.
  - destruct (encode_int_spec s z Hs Hz) as (_ & _ & _ & _ & _ & Hl). exact Hl.
  - intros i rest Hi Hcon. pose proof (read_int_signed (C := C) s t Hs Ht z Hz Hc) as Hr. destruct (in_type t z); by apply (Hr i rest).
Qed.

(** The encoding of -2, cut after every byte, and the largest [size_t], read as several types. *)
Lemma read_int_witness :
  (∃ i', read_int (C := unit) t_int64 (MkInput [] [[65]; [7]] (0, 0)) = ([], Ok (-2, i')) ∧ wf_input i' ∧ content i' = [7]) ∧
  read_int (C := unit) t_int64 (MkInput (encode_int t_size npos) [] (0, 0)) = ([], Raise BadTransactLog).
Proof.
  split.
  - apply (read_int_correct t_int t_int64 (-2) (C := unit) ltac:(by vm_compute) ltac:(by vm_compute) ltac:(by vm_compute) (or_introl eq_refl)).
    + by repeat constructor.
    + by vm_compute.
  - apply (read_int_correct t_size t_int64 npos (C := unit) ltac:(by vm_compute) ltac:(by vm_compute) ltac:(by vm_compute) (or_introl eq_refl)) with (rest := []).
    + by repeat constructor.
    + by vm_compute.
Defined.

(** Decoding is documented to fail when the value is outside of the range of the type, but a
    negative integer is accepted as an unsigned one; only -1 is rejected. *)
Theorem negative_read_as_unsigned :
  read_int (C := unit) t_size (MkInput (encode_int t_int64 (-2)) [] (0, 0)) = ([], Ok (18446744073709551614, MkInput [] [] (0, 0))) ∧
  read_int (C := unit) t_size (MkInput (encode_int t_int64 (-1)) [] (0, 0)) = ([], Raise BadTransactLog).
Proof. by vm_compute. Qed.
