(* ===== verification/LogEncoder.v ===== *)
(** * The transaction log encoder

    Model of [TransactLogEncoder] and [TransactLogBufferStream] of impl/transact_log.hpp,
    over [util::Buffer]: space is reserved for the most bytes that an instruction can
    take, the arguments are encoded into it, and the write position advances. *)

From S2P Require Import Prelude SafeInt LogStream.
Import Encode.

(** [util::BufferSizeOverflow], and a failed assertion *)
Inductive write_error := BufferSizeOverflow | WriteAssertion.

Definition assert_ex (b : bool) : result write_error unit := throw_if (negb b) WriteAssertion.

(** ** [util::Buffer] *)

Module Buffer.
(** [reserve(used_size, min_capacity)]: the new size *)
Definition reserve (size min_capacity : Z) : Z :=
  if min_capacity <=? size then size else
  let new_capacity := default (lim_max t_size) (SafeInt.multiply t_size t_int size 3) / 2 in
  if new_capacity <? min_capacity then min_capacity else new_capacity.

(** [reserve_extra(used_size, min_extra_capacity)] *)
Definition reserve_extra (size used_size min_extra_capacity : Z) : result write_error Z :=
  match SafeInt.add t_size t_size used_size min_extra_capacity with
  | None => Raise BufferSizeOverflow
  | Some min_capacity => Ok (reserve size min_capacity)
  end.
End Buffer.

(** ** Arguments of an instruction *)

Inductive arg :=
  | a_instr (i : Instruction)
  | a_type (t : DataType)
  | a_bool (b : bool)
  | a_int (t : int_type) (z : Z)
  | a_raw (representation : bytes)
  | a_string (s : bytes)
  | a_numbers (l : list Z)
  | a_values (l : list Z).

Module Encoder.
Definition max_enc_bytes_per_num := 10.

(** [encode], less the list of values, which is written in chunks *)
Definition arg_bytes (a : arg) : bytes :=
  match a with
  | a_instr i => [instr_code i]
  | a_type t => [type_code t]
  | a_bool b => [Z.b2z b]
  | a_int t z => encode_int t z
  | a_raw r => r
  | a_string s => encode_int t_size (Z.of_nat (length s)) ++ s
  | a_numbers l => concat (encode_int t_size <$> l)
  | a_values l => concat (encode_int t_int64 <$> l)
  end.
Definition args_bytes (args : list arg) : bytes := concat (arg_bytes <$> args).

(** What the encoder has written, and the size of the buffer that holds it: the free
    space lies between the two. *)
Record encoder := MkEncoder { written : bytes; capacity : Z }.
Definition new_encoder : encoder := MkEncoder [] 0.
Definition free (e : encoder) : Z := capacity e - Z.of_nat (length (written e)).

(** [reserve], with [transact_log_reserve] *)
Definition reserve (e : encoder) (n : Z) : result write_error encoder :=
  if free e <? n
  then size ← Buffer.reserve_extra (capacity e) (Z.of_nat (length (written e))) n; Ok (MkEncoder (written e) size)
  else Ok e.

(** [advance] past the bytes that are written at the write position *)
Definition advance (e : encoder) (pending : bytes) : result write_error encoder :=
  _ ← assert_ex (Z.of_nat (length pending) <=? free e);
  Ok (MkEncoder (written e ++ pending) (capacity e)).

Section encoder.
(** [max_numbers_per_chunk], which is smaller in debug builds *)
Context (max_numbers_per_chunk : nat).

(** [max_size] *)
Definition max_size (a : arg) : Z :=
  match a with
  | a_instr _ | a_type _ | a_bool _ => 1
  | a_int _ _ | a_raw _ => max_enc_bytes_per_num
  | a_string s => max_enc_bytes_per_num + Z.of_nat (length s)
  | a_numbers l => max_enc_bytes_per_num * Z.of_nat (length l)
  | a_values _ => max_enc_bytes_per_num * Z.of_nat max_numbers_per_chunk
  end.
Definition max_size_list (args : list arg) : Z := foldr (λ a n, max_size a + n) 0 args.

(** [encode<IntegerList>]: all but the last chunk are written, and what is pending *)
Fixpoint encode_values (fuel : nat) (e : encoder) (pending : bytes) (l : list Z) : result write_error (encoder * bytes) :=
  match fuel with
  | O => Stuck
  | S fuel =>
      if (max_numbers_per_chunk <? length l)%nat then
        e ← advance e (pending ++ concat (encode_int t_int64 <$> take max_numbers_per_chunk l));
        e ← reserve e (max_enc_bytes_per_num * Z.of_nat max_numbers_per_chunk);
        encode_values fuel e [] (drop max_numbers_per_chunk l)
      else Ok (e, pending ++ concat (encode_int t_int64 <$> l))
  end.

(** [encode_list] *)
Fixpoint encode_list (e : encoder) (pending : bytes) (args : list arg) : result write_error encoder :=
  match args with
  | [] => advance e pending
  | a_values l :: args =>
      '(e, pending) ← encode_values (S (length l)) e pending l; encode_list e pending args
  | a :: args => encode_list e (pending ++ arg_bytes a) args
  end.

(** [append_simple_instr] *)
Definition append_simple_instr (e : encoder) (args : list arg) : result write_error encoder :=
  e ← reserve e (max_size_list args); encode_list e [] args.
End encoder.

(** ** The member functions

    Each gives the arguments it appends, or fails its assertion. *)

Definition size_t (z : Z) : arg := a_int t_size z.
Definition int64_t (z : Z) : arg := a_int t_int64 z.

Definition is_set (i : Instruction) : bool := bool_decide (i = instr_Set) || bool_decide (i = instr_SetDefault).
Definition is_set_or_unique (i : Instruction) : bool := is_set i || bool_decide (i = instr_SetUnique).

Definition set_null_sentinel : Z := -1.

(** [append_mixed_instr], the value and what goes before it *)
Definition mixed_args (v : Mixed) : list arg :=
  match v with
  | mixed_int z => [a_type type_Int; int64_t z]
  | mixed_bool b => [a_type type_Bool; a_bool b]
  | mixed_float f => [a_type type_Float; a_raw f]
  | mixed_double d => [a_type type_Double; a_raw d]
  | mixed_olddatetime z => [a_type type_OldDateTime; int64_t z]
  | mixed_string s => [a_type type_String; a_string s]
  | mixed_binary s => [a_type type_Binary; a_string s]
  | mixed_timestamp s ns => [a_type type_Timestamp; int64_t s; a_int t_int ns]
  | mixed_table => [a_type type_Table]
  end.

(** [set_null] *)
Definition set_null_args (col row : Z) (variant : Instruction) (prior : Z) : result write_error (list arg) :=
  _ ← assert_ex (is_set_or_unique variant);
  Ok ([a_instr variant; a_int t_int set_null_sentinel; size_t col; size_t row] ++ (if bool_decide (variant = instr_SetUnique) then [size_t prior] else [])).

(** A setter that takes the two plain variants. *)
Definition set_args (variant : Instruction) (type : DataType) (col row : Z) (value : list arg) : result write_error (list arg) :=
  _ ← assert_ex (is_set variant); Ok ([a_instr variant; a_type type; size_t col; size_t row] ++ value).
(** One that also takes [instr_SetUnique]. *)
Definition set_unique_args (variant : Instruction) (type : DataType) (col row prior : Z) (value : list arg) : result write_error (list arg) :=
  _ ← assert_ex (is_set_or_unique variant);
  Ok ([a_instr variant; a_type type; size_t col; size_t row] ++ (if bool_decide (variant = instr_SetUnique) then [size_t prior] else []) ++ value).

(** The functions that select are compiled into the library. *)
Class SelectEncoder := select_args : selection → list arg.

Section calls.
Context `{SelectEncoder}.

Definition call_args (c : call) : result write_error (list arg) :=
  match c with
  | select s => Ok (select_args s)
  | insert_group_level_table t n name => Ok [a_instr instr_InsertGroupLevelTable; size_t t; size_t n; a_string name]
  | erase_group_level_table t n => Ok [a_instr instr_EraseGroupLevelTable; size_t t; size_t n]
  | rename_group_level_table t name => Ok [a_instr instr_RenameGroupLevelTable; size_t t; a_string name]
  | insert_empty_rows r n prior unordered => Ok [a_instr instr_InsertEmptyRows; size_t r; size_t n; size_t prior; a_bool unordered]
  | add_row_with_key r prior col key => Ok [a_instr instr_AddRowWithKey; size_t r; size_t prior; size_t col; int64_t key]
  | erase_rows r n prior unordered => Ok [a_instr instr_EraseRows; size_t r; size_t n; size_t prior; a_bool unordered]
  | swap_rows r1 r2 => Ok [a_instr instr_SwapRows; size_t r1; size_t r2]
  | move_row from to => Ok [a_instr instr_MoveRow; size_t from; size_t to]
  | merge_rows r new => Ok [a_instr instr_MergeRows; size_t r; size_t new]
  | clear_table n => Ok [a_instr instr_ClearTable; size_t n]
  | set_int col row value variant prior => set_unique_args variant type_Int col row prior [int64_t value]
  | add_int col row value => Ok [a_instr instr_AddInteger; size_t col; size_t row; int64_t value]
  | set_bool col row value variant => set_args variant type_Bool col row [a_bool value]
  | set_float col row value variant => set_args variant type_Float col row [a_raw value]
  | set_double col row value variant =>
      _ ← assert_ex (is_set variant); Ok [a_instr instr_Set; a_type type_Double; size_t col; size_t row; a_raw value]
  | set_string col row value variant prior =>
      match value with
      | None => _ ← assert_ex (is_set_or_unique variant); set_null_args col row variant prior
      | Some s => set_unique_args variant type_String col row prior [a_string s]
      end
  | set_binary col row value variant =>
      match value with
      | None => _ ← assert_ex (is_set variant); set_null_args col row variant 0
      | Some s => set_args variant type_Binary col row [a_string s]
      end
  | set_olddatetime col row value variant => set_args variant type_OldDateTime col row [int64_t value]
  | set_timestamp col row s ns variant => set_args variant type_Timestamp col row [int64_t s; a_int t_int ns]
  | set_table col row variant => set_args variant type_Table col row []
  | set_mixed col row value variant => set_args variant type_Mixed col row (mixed_args value)
  | set_link col row value target variant => set_args variant type_Link col row [size_t (1 ⊕ value); size_t target]
  | set_null col row variant prior => set_null_args col row variant prior
  | nullify_link col row target => Ok [a_instr instr_NullifyLink; size_t col; size_t row; size_t target]
  | insert_substring col row pos value => Ok [a_instr instr_InsertSubstring; size_t col; size_t row; size_t pos; a_string value]
  | erase_substring col row pos size => Ok [a_instr instr_EraseFromString; size_t col; size_t row; size_t pos; size_t size]
  | optimize_table => Ok [a_instr instr_OptimizeTable]
  | insert_link_column col type name target backlink =>
      _ ← assert_ex (is_link_type type);
      Ok [a_instr instr_InsertLinkColumn; size_t col; a_type type; size_t target; size_t backlink; a_string name]
  | insert_column col type name nullable =>
      Ok [a_instr (if nullable then instr_InsertNullableColumn else instr_InsertColumn); size_t col; a_type type; a_string name]
  | erase_link_column col target backlink => Ok [a_instr instr_EraseLinkColumn; size_t col; size_t target; size_t backlink]
  | erase_column col => Ok [a_instr instr_EraseColumn; size_t col]
  | rename_column col name => Ok [a_instr instr_RenameColumn; size_t col; a_string name]
  | add_search_index col => Ok [a_instr instr_AddSearchIndex; size_t col]
  | remove_search_index col => Ok [a_instr instr_RemoveSearchIndex; size_t col]
  | set_link_type col type => Ok [a_instr instr_SetLinkType; size_t col; a_int t_int (link_code type)]
  | link_list_set ndx value prior => Ok [a_instr instr_LinkListSet; size_t ndx; size_t value; size_t prior]
  | link_list_insert ndx value prior => Ok [a_instr instr_LinkListInsert; size_t ndx; size_t value; size_t prior]
  | link_list_move from to => _ ← assert_ex (negb (from =? to)); Ok [a_instr instr_LinkListMove; size_t from; size_t to]
  | link_list_swap l1 l2 => Ok [a_instr instr_LinkListSwap; size_t l1; size_t l2]
  | link_list_erase ndx prior => Ok [a_instr instr_LinkListErase; size_t ndx; size_t prior]
  | link_list_nullify ndx prior => Ok [a_instr instr_LinkListNullify; size_t ndx; size_t prior]
  | link_list_clear n => Ok [a_instr instr_LinkListClear; size_t n]
  end.

Definition op_args (o : log_op) : result write_error (list arg) :=
  match o with
  | log c => call_args c
  | link_list_set_all values => Ok [a_instr instr_LinkListSetAll; size_t (Z.of_nat (length values)); a_values values]
  end.

(** One member function, and several of them *)
Definition write (chunk : nat) (e : encoder) (o : log_op) : result write_error encoder :=
  args ← op_args o; append_simple_instr chunk e args.

Fixpoint write_all (chunk : nat) (e : encoder) (ops : list log_op) : result write_error encoder :=
  match ops with [] => Ok e | o :: ops => e ← write chunk e o; write_all chunk e ops end.
End calls.
End Encoder.
