(* ===== verification/LogParser.v ===== *)
(** * The transaction log parser

    Model of [TransactLogParser] of impl/transact_log.hpp: the instructions are read from
    a stream of blocks, and the handler is called for each. *)

From S2P Require Import Prelude SafeInt LogStream.
Import Read.

Module Parser.
Abbreviation parse A := (parser call A).

(** [parser_error] *)
Definition parser_error {A} : parse A := throw BadTransactLog.
(** [if (b) parser_error();] *)
Definition error_if (b : bool) : parse unit := if b then parser_error else mret tt.

Definition read_size : parse Z := read_int t_size.
Definition read_int64 : parse Z := read_int t_int64.

Definition read_bool : parse bool := z ← read_int t_char; mret (negb (z =? 0)).

(** [StringBuffer::reserve] and [reallocate]: the size of a buffer that is to hold [size] bytes and a zero *)
Definition reserve_string `{Memory} (capacity size : Z) : result parse_error Z :=
  if negb ((capacity =? 0) || (capacity - 1 <? size)) then Ok capacity else
  match SafeInt.add t_size t_int size 1 with
  | None => Raise BufferSizeOverflow
  | Some min_capacity =>
      let new_capacity := if W64 <=? capacity * 2 then W64 - 1 else capacity * 2 in
      let new_capacity := if new_capacity <? min_capacity then min_capacity else new_capacity in
      if allocates new_capacity then Ok new_capacity else Raise BadAlloc
  end.

(** [read_buffer]: the bytes in place, when they are in the block; otherwise the buffer is enlarged before anything is read *)
Definition read_buffer `{Memory} (size : Z) : parse bytes := λ i,
  if size <=? Z.of_nat (length (block i)) then read_bytes size i else
  match reserve_string (buffers i).1 size with
  | Ok capacity => read_bytes size (MkInput (block i) (blocks i) (capacity, (buffers i).2))
  | Raise e => ([], Raise e)
  | Stuck => ([], Stuck)
  end.

(** [m_path.reserve(0, min_capacity)] *)
Definition reserve_path `{Memory} (min_capacity : Z) : parse unit := λ i,
  let capacity := (buffers i).2 in
  if min_capacity <=? capacity then ([], Ok (tt, i)) else
  let new_capacity := (if W64 <=? capacity * 3 then W64 - 1 else capacity * 3) `div` 2 in
  let new_capacity := if new_capacity <? min_capacity then min_capacity else new_capacity in
  if allocates (8 * new_capacity) then ([], Ok (tt, MkInput (block i) (blocks i) ((buffers i).1, new_capacity)))
  else ([], Raise BadAlloc).

(** [Table::max_string_size] *)
Definition max_string_size : Z := 16777208 - 8 - 1.

Definition read_string `{Memory} : parse bytes := size ← read_size; _ ← error_if (max_string_size <? size); read_buffer size.
Definition read_binary `{Memory} : parse bytes := size ← read_size; read_buffer size.

Definition read_float : parse bytes := read_bytes 4.
Definition read_double : parse bytes := read_bytes 8.

(** The assertions of the constructor of [Timestamp] *)
Definition timestamp_ok (seconds nanoseconds : Z) : bool :=
  ((-1000000000 <? nanoseconds) && (nanoseconds <? 1000000000)) &&
  (((0 <=? seconds) && (0 <=? nanoseconds)) || ((seconds <=? 0) && (nanoseconds <=? 0))).

(** [read_timestamp] *)
Definition read_timestamp : parse (Z * Z) :=
  seconds ← read_int64;
  nanoseconds ← read_int t_int;
  if timestamp_ok seconds nanoseconds then mret (seconds, nanoseconds) else throw AssertionFailed.

Definition read_mixed `{Memory} : parse Mixed :=
  type ← read_int t_int;
  match type_of type with
  | Some type_Int => z ← read_int64; mret (mixed_int z)
  | Some type_Bool => b ← read_bool; mret (mixed_bool b)
  | Some type_Float => f ← read_float; mret (mixed_float f)
  | Some type_Double => d ← read_double; mret (mixed_double d)
  | Some type_OldDateTime => z ← read_int64; mret (mixed_olddatetime z)
  | Some type_Timestamp => '(s, ns) ← read_timestamp; mret (mixed_timestamp s ns)
  | Some type_String => s ← read_string; mret (mixed_string s)
  | Some type_Binary => s ← read_binary; mret (mixed_binary s)
  | Some type_Table => mret mixed_table
  | _ => parser_error
  end.

(** ** One instruction *)

(** The [switch] over the type of the value that is set *)
Definition parse_value `{Memory} (instr : Instruction) (type col_ndx row_ndx prior_num_rows : Z) : parse unit :=
  match type_of type with
  | Some type_Int => value ← read_int64; emit (set_int col_ndx row_ndx value instr prior_num_rows)
  | Some type_Bool => value ← read_bool; emit (set_bool col_ndx row_ndx value instr)
  | Some type_Float => value ← read_float; emit (set_float col_ndx row_ndx value instr)
  | Some type_Double => value ← read_double; emit (set_double col_ndx row_ndx value instr)
  | Some type_String => value ← read_string; emit (set_string col_ndx row_ndx (Some value) instr prior_num_rows)
  | Some type_Binary => value ← read_binary; emit (set_binary col_ndx row_ndx (Some value) instr)
  | Some type_OldDateTime => value ← read_int64; emit (set_olddatetime col_ndx row_ndx value instr)
  | Some type_Timestamp => '(s, ns) ← read_timestamp; emit (set_timestamp col_ndx row_ndx s ns instr)
  | Some type_Table => emit (set_table col_ndx row_ndx instr)
  | Some type_Mixed => value ← read_mixed; emit (set_mixed col_ndx row_ndx value instr)
  | Some type_Link => value ← read_size; target ← read_size; emit (set_link col_ndx row_ndx (value ⊖ 1) target instr)
  | Some type_LinkList | None => parser_error
  end.

(** [instr_Set], [instr_SetDefault] and [instr_SetUnique] *)
Definition parse_set `{Memory} (instr : Instruction) : parse unit :=
  type ← read_int t_int;
  col_ndx ← read_size;
  row_ndx ← read_size;
  prior_num_rows ← (if bool_decide (instr = instr_SetUnique) then read_size else mret 0);
  if type =? -1 then emit (set_null col_ndx row_ndx instr prior_num_rows)
  else parse_value instr type col_ndx row_ndx prior_num_rows.

Definition m_max_levels : Z := 1024.

(** The loops that read a path *)
Fixpoint read_path (levels : nat) : parse (list (Z * Z)) :=
  match levels with
  | O => mret []
  | S n => col_ndx ← read_size; row_ndx ← read_size; path ← read_path n; mret ((col_ndx, row_ndx) :: path)
  end.
Fixpoint read_columns (levels : nat) : parse (list Z) :=
  match levels with O => mret [] | S n => col_ndx ← read_size; path ← read_columns n; mret (col_ndx :: path) end.

(** The loop of [instr_LinkListSetAll], from [i] *)
Fixpoint set_all_loop (fuel : nat) (i size : Z) : parse unit :=
  match fuel with
  | O => λ _, ([], Stuck)
  | S fuel =>
      if i <? size then link ← read_size; _ ← emit (link_list_set i link size); set_all_loop fuel (i + 1) size else mret tt
  end.
(** Every turn reads at least a byte, so that the bytes that are left bound the turns. *)
Definition set_all (size : Z) : parse unit := λ i, set_all_loop (S (length (block i ++ concat (blocks i)))) 0 size i.

(** The [switch] of [parse_one] *)
Definition parse_instr `{Memory} (instr : Instruction) : parse unit :=
  match instr with
  | instr_SetDefault | instr_SetUnique | instr_Set => parse_set instr
  | instr_AddInteger => col ← read_size; row ← read_size; value ← read_int64; emit (add_int col row value)
  | instr_NullifyLink => col ← read_size; row ← read_size; target ← read_size; emit (nullify_link col row target)
  | instr_InsertSubstring => col ← read_size; row ← read_size; pos ← read_size; value ← read_string; emit (insert_substring col row pos value)
  | instr_EraseFromString => col ← read_size; row ← read_size; pos ← read_size; size ← read_size; emit (erase_substring col row pos size)
  | instr_InsertEmptyRows => row ← read_size; n ← read_size; prior ← read_size; unordered ← read_bool; emit (insert_empty_rows row n prior unordered)
  | instr_AddRowWithKey => row ← read_size; prior ← read_size; col ← read_size; key ← read_int64; emit (add_row_with_key row prior col key)
  | instr_EraseRows => row ← read_size; n ← read_size; prior ← read_size; unordered ← read_bool; emit (erase_rows row n prior unordered)
  | instr_SwapRows => r1 ← read_size; r2 ← read_size; emit (swap_rows r1 r2)
  | instr_MoveRow => from ← read_size; to ← read_size; emit (move_row from to)
  | instr_MergeRows => row ← read_size; new ← read_size; emit (merge_rows row new)
  | instr_SelectTable =>
      levels ← read_int t_int;
      _ ← error_if ((levels <? 0) || (m_max_levels <? levels));
      _ ← reserve_path (2 * levels);
      group_level_ndx ← read_size;
      path ← read_path (Z.to_nat levels);
      emit (select (select_table group_level_ndx path))
  | instr_ClearTable => old_size ← read_size; emit (clear_table old_size)
  | instr_LinkListSet => ndx ← read_size; value ← read_size; prior ← read_size; emit (link_list_set ndx value prior)
  | instr_LinkListSetAll => size ← read_size; set_all size
  | instr_LinkListInsert => ndx ← read_size; value ← read_size; prior ← read_size; emit (link_list_insert ndx value prior)
  | instr_LinkListMove => from ← read_size; to ← read_size; emit (link_list_move from to)
  | instr_LinkListSwap => l1 ← read_size; l2 ← read_size; emit (link_list_swap l1 l2)
  | instr_LinkListErase => ndx ← read_size; prior ← read_size; emit (link_list_erase ndx prior)
  | instr_LinkListNullify => ndx ← read_size; prior ← read_size; emit (link_list_nullify ndx prior)
  | instr_LinkListClear => size ← read_size; emit (link_list_clear size)
  | instr_SelectLinkList => col ← read_size; row ← read_size; target ← read_size; emit (select (select_link_list col row target))
  | instr_MoveColumn | instr_MoveGroupLevelTable => parser_error
  | instr_AddSearchIndex => col ← read_size; emit (add_search_index col)
  | instr_RemoveSearchIndex => col ← read_size; emit (remove_search_index col)
  | instr_SetLinkType =>
      col ← read_size; link_type ← read_int t_int;
      match link_of link_type with None => parser_error | Some t => emit (set_link_type col t) end
  | instr_InsertColumn | instr_InsertNullableColumn =>
      col ← read_size; type ← read_int t_int;
      match type_of type with
      | None => parser_error
      | Some t =>
          _ ← error_if (is_link_type t);
          name ← read_string;
          let nullable := bool_decide (instr = instr_InsertNullableColumn) in
          _ ← error_if (nullable && bool_decide (t = type_Mixed));
          emit (insert_column col t name nullable)
      end
  | instr_InsertLinkColumn =>
      col ← read_size; type ← read_int t_int;
      match type_of type with
      | None => parser_error
      | Some t =>
          _ ← error_if (negb (is_link_type t));
          target ← read_size; backlink ← read_size; name ← read_string;
          emit (insert_link_column col t name target backlink)
      end
  | instr_EraseColumn => col ← read_size; emit (erase_column col)
  | instr_EraseLinkColumn => col ← read_size; target ← read_size; backlink ← read_size; emit (erase_link_column col target backlink)
  | instr_RenameColumn => col ← read_size; name ← read_string; emit (rename_column col name)
  | instr_SelectDescriptor =>
      levels ← read_int t_int;
      _ ← error_if ((levels <? 0) || (m_max_levels <? levels));
      _ ← reserve_path levels;
      path ← read_columns (Z.to_nat levels);
      emit (select (select_descriptor path))
  | instr_InsertGroupLevelTable => t ← read_size; n ← read_size; name ← read_string; emit (insert_group_level_table t n name)
  | instr_EraseGroupLevelTable => t ← read_size; n ← read_size; emit (erase_group_level_table t n)
  | instr_RenameGroupLevelTable => t ← read_size; name ← read_string; emit (rename_group_level_table t name)
  | instr_OptimizeTable => emit optimize_table
  end.

(** [parse_one] *)
Definition parse_one `{Memory} : parse unit :=
  instr_ch ← read_char;
  match instr_of instr_ch with None => throw BadTransactLog | Some instr => parse_instr instr end.

(** [has_next] *)
Definition has_next : parse bool := λ i, match block i with [] => next_input_buffer i | _ :: _ => ([], Ok (true, i)) end.

(** [parse] *)
Fixpoint parse_loop `{Memory} (fuel : nat) : parse unit :=
  match fuel with
  | O => λ _, ([], Stuck)
  | S fuel => more ← has_next; if (more : bool) then _ ← parse_one; parse_loop fuel else mret tt
  end.

(** [parse] of a stream: the calls that are made, and how it ends.  Every instruction
    takes at least a byte. *)
Definition parse_log `{Memory} (stream : list bytes) : list call * result parse_error unit :=
  let '(cs, r) := parse_loop (S (length (concat stream))) (MkInput [] stream (0, 0)) in (cs, fst <$> r).

(** A handler may refuse a call, which ends the parsing. *)
Fixpoint deliver {St} (handler : St → call → option St) (s : St) (cs : list call) : result parse_error St :=
  match cs with
  | [] => Ok s
  | c :: cs => match handler s c with None => Raise BadTransactLog | Some s => deliver handler s cs end
  end.
Definition parse_with `{Memory} {St} (handler : St → call → option St) (s : St) (stream : list bytes) : result parse_error St :=
  let '(cs, r) := parse_log stream in s ← deliver handler s cs; _ ← r; Ok s.
End Parser.
