(* ===== verification/LogRoundTrip.v ===== *)
(** * A log is parsed into the instructions that were written

    Whatever blocks the log comes in, the parser calls its handler with what the encoder
    was asked to write, but for the arguments that the encoder leaves out ([parsed]). *)

From S2P Require Import Prelude SafeInt SafeIntTheorems LogStream LogStreamTheorems LogEncoder LogParser.
Import Encode Read Encoder Parser.

(** ** Instructions that can be written *)

Definition int64 (z : Z) : Prop := in_type t_int64 z = true.

(** There is memory for a buffer of [size] bytes, whose size may double when it is enlarged, and for a path of [n] numbers. *)
Definition can_hold `{Memory} (size : Z) : Prop := size < npos ∧ ∀ c, size < c <= 2 * size → allocates c = true.
Definition can_hold_path `{Memory} (n : Z) : Prop := ∀ c, n <= c <= 2 * n → allocates (8 * c) = true.

Definition wf_string `{Memory} (s : bytes) : Prop := Z.of_nat (length s) <= max_string_size ∧ can_hold (Z.of_nat (length s)).
Definition wf_binary `{Memory} (s : bytes) : Prop := can_hold (Z.of_nat (length s)).
Definition wf_timestamp (s ns : Z) : Prop := int64 s ∧ timestamp_ok s ns = true.

Definition wf_mixed `{Memory} (v : Mixed) : Prop :=
  match v with
  | mixed_int z | mixed_olddatetime z => int64 z
  | mixed_float f => length f = 4%nat
  | mixed_double d => length d = 8%nat
  | mixed_timestamp s ns => wf_timestamp s ns
  | mixed_string s => wf_string s
  | mixed_binary s => wf_binary s
  | mixed_bool _ | mixed_table => True
  end.

Definition wf_selection `{Memory} (s : selection) : Prop :=
  match s with
  | select_table g path => fits g ∧ Forall (λ p, fits p.1 ∧ fits p.2) path ∧ Z.of_nat (length path) <= m_max_levels ∧ can_hold_path (2 * Z.of_nat (length path))
  | select_descriptor path => Forall fits path ∧ Z.of_nat (length path) <= m_max_levels ∧ can_hold_path (Z.of_nat (length path))
  | select_link_list col row target => fits col ∧ fits row ∧ fits target
  end.

(** Arguments of their C++ types, with what the encoder asserts and the parser demands. *)
Definition wf_call `{Memory} (c : call) : Prop :=
  match c with
  | select s => wf_selection s
  | insert_group_level_table t n name => fits t ∧ fits n ∧ wf_string name
  | rename_group_level_table t name => fits t ∧ wf_string name
  | insert_empty_rows r n prior _ | erase_rows r n prior _ => fits r ∧ fits n ∧ fits prior
  | add_row_with_key r prior col key => fits r ∧ fits prior ∧ fits col ∧ int64 key
  | erase_group_level_table a b | swap_rows a b | move_row a b | merge_rows a b | link_list_swap a b | link_list_erase a b
  | link_list_nullify a b => fits a ∧ fits b
  | link_list_move a b => fits a ∧ fits b ∧ a ≠ b
  | clear_table n | erase_column n | add_search_index n | remove_search_index n | link_list_clear n | set_link_type n _ => fits n
  | set_int col row value variant prior => fits col ∧ fits row ∧ int64 value ∧ is_set_or_unique variant = true ∧ fits prior
  | add_int col row value => fits col ∧ fits row ∧ int64 value
  | set_bool col row _ variant | set_table col row variant => fits col ∧ fits row ∧ is_set variant = true
  | set_float col row f variant => fits col ∧ fits row ∧ length f = 4%nat ∧ is_set variant = true
  | set_double col row d variant => fits col ∧ fits row ∧ length d = 8%nat ∧ is_set variant = true
  | set_string col row value variant prior => fits col ∧ fits row ∧ from_option wf_string True value ∧ is_set_or_unique variant = true ∧ fits prior
  | set_binary col row value variant => fits col ∧ fits row ∧ from_option wf_binary True value ∧ is_set variant = true
  | set_olddatetime col row value variant => fits col ∧ fits row ∧ int64 value ∧ is_set variant = true
  | set_timestamp col row s ns variant => fits col ∧ fits row ∧ wf_timestamp s ns ∧ is_set variant = true
  | set_mixed col row value variant => fits col ∧ fits row ∧ wf_mixed value ∧ is_set variant = true
  | set_link col row value target variant => fits col ∧ fits row ∧ fits value ∧ fits target ∧ is_set variant = true
  | set_null col row variant prior => fits col ∧ fits row ∧ is_set_or_unique variant = true ∧ fits prior
  | nullify_link a b c | erase_link_column a b c | link_list_set a b c | link_list_insert a b c => fits a ∧ fits b ∧ fits c
  | insert_substring col row pos value => fits col ∧ fits row ∧ fits pos ∧ wf_string value
  | erase_substring a b c d => fits a ∧ fits b ∧ fits c ∧ fits d
  | optimize_table => True
  | insert_link_column col type name target backlink => fits col ∧ is_link_type type = true ∧ wf_string name ∧ fits target ∧ fits backlink
  | insert_column col type name nullable =>
      fits col ∧ is_link_type type = false ∧ wf_string name ∧ ¬ (nullable = true ∧ type = type_Mixed)
  | rename_column col name => fits col ∧ wf_string name
  end.

Definition wf_op `{Memory} (o : log_op) : Prop :=
  match o with log c => wf_call c | link_list_set_all values => fits (Z.of_nat (length values)) ∧ Forall (λ v, 0 <= v ∧ int64 v) values end.

(** What the handler is called with: the number of rows is only written for a unique
    setter, a null string or binary is a null, [set_double] forgets its variant, and a
    list is set entry by entry. *)
Definition unique_prior (variant : Instruction) (prior : Z) : Z := if bool_decide (variant = instr_SetUnique) then prior else 0.
Definition parsed_call (c : call) : call :=
  match c with
  | set_int col row value variant prior => set_int col row value variant (unique_prior variant prior)
  | set_double col row value _ => set_double col row value instr_Set
  | set_string col row None variant prior => set_null col row variant (unique_prior variant prior)
  | set_string col row (Some s) variant prior => set_string col row (Some s) variant (unique_prior variant prior)
  | set_binary col row None variant => set_null col row variant 0
  | set_null col row variant prior => set_null col row variant (unique_prior variant prior)
  | c => c
  end.
Definition parsed (o : log_op) : list call :=
  match o with
  | log c => [parsed_call c]
  | link_list_set_all values => imap (λ i v, link_list_set (Z.of_nat i) v (Z.of_nat (length values))) values
  end.

(** ** What is read of each argument *)

Lemma wf_size : wf_type t_size. Proof. done. Qed.
Lemma wf_int64 : wf_type t_int64. Proof. done. Qed.
Lemma wf_int : wf_type t_int. Proof. done. Qed.
Lemma wf_char : wf_type t_char. Proof. done. Qed.

Lemma fits_in_type z : fits z → in_type t_size z = true.
Proof. intros H. apply in_type_iff. change (lim_min t_size) with 0. change (lim_max t_size) with npos. unfold fits in H. lia. Qed.

Lemma reads_size z : fits z → reads (C := call) read_size (encode_int t_size z) [] z.
Proof.
  intros Hz. pose proof (fits_in_type z Hz) as Hin. pose proof (read_int_signed (C := call) t_size t_size wf_size wf_size z Hin) as Hr.
  rewrite Hin in Hr. apply Hr. right. apply Hz.
Qed.

Lemma reads_int64 z : int64 z → reads (C := call) read_int64 (encode_int t_int64 z) [] z.
Proof.
  intros Hz. pose proof (read_int_signed (C := call) t_int64 t_int64 wf_int64 wf_int64 z Hz) as Hr. rewrite Hz in Hr. apply Hr. by left.
Qed.

Lemma reads_int z : in_type t_int z = true → reads (C := call) (read_int t_int) (encode_int t_int z) [] z.
Proof. intros Hz. pose proof (read_int_signed (C := call) t_int t_int wf_int wf_int z Hz) as Hr. rewrite Hz in Hr. apply Hr. by left. Qed.

Lemma reads_type t : reads (C := call) (read_int t_int) [type_code t] [] (type_code t).
Proof. assert ([type_code t] = encode_int t_int (type_code t)) as -> by (by destruct t). apply reads_int. by destruct t. Qed.

Lemma type_of_code t : type_of (type_code t) = Some t.
Proof. by destruct t. Qed.

Lemma instr_of_code i : instr_of (instr_code i) = Some i.
Proof. by destruct i. Qed.

Lemma reads_bool b : reads (C := call) read_bool [Z.b2z b] [] b.
Proof.
  assert (in_type t_int (Z.b2z b) = true) as Hb by (by destruct b).
  pose proof (read_int_signed (C := call) t_int t_char wf_int wf_char (Z.b2z b) Hb (or_introl eq_refl)) as Hr.
  assert (in_type t_char (Z.b2z b) = true) as E by (by destruct b). rewrite E in Hr.
  assert (encode_int t_int (Z.b2z b) = [Z.b2z b] ++ []) as E' by (by destruct b). rewrite E' in Hr. rewrite <- (app_nil_r [Z.b2z b]).
  unfold read_bool. rewrite <- (app_nil_r ([Z.b2z b] ++ [])). eapply reads_step; [exact Hr|]. destruct b; apply reads_ret.
Qed.

Lemma reserve_string_ok `{Memory} capacity size : 0 < size → can_hold size → ∃ c, reserve_string capacity size = Ok c.
Proof.
  intros H0 [Hs Ha]. unfold reserve_string. destruct (negb _) eqn:E; [by eexists|].
  rewrite (add_exact t_size t_int wf_size wf_int) by (done || (apply fits_in_type; unfold fits; lia)).
  rewrite fits_in_type by (unfold fits; lia). rewrite Ha; [by eexists|].
  apply negb_false_iff, orb_true_iff in E. rewrite Z.eqb_eq, Z.ltb_lt in E.
  destruct (Z.leb_spec W64 (capacity * 2)).
  - destruct (Z.ltb_spec (W64 - 1) (size + 1)); lia.
  - destruct (Z.ltb_spec (capacity * 2) (size + 1)); lia.
Qed.

Lemma reads_buffer `{Memory} s : can_hold (Z.of_nat (length s)) → reads (C := call) (read_buffer (Z.of_nat (length s))) s [] s.
Proof.
  intros Hs i rest Hi Hc. unfold read_buffer. destruct (Z.leb_spec (Z.of_nat (length s)) (Z.of_nat (length (block i)))); [by apply reads_bytes|].
  destruct (reserve_string_ok (buffers i).1 (Z.of_nat (length s))) as (c & ->); [lia|done|]. by apply reads_bytes.
Qed.

Lemma reads_path_room `{Memory} n : 0 <= n → can_hold_path n → reads (C := call) (reserve_path n) [] [] tt.
Proof.
  intros H0 Hn i rest Hi Hc. unfold reserve_path. destruct (Z.leb_spec n (buffers i).2) as [?|Hlt]; [by exists i|].
  rewrite Hn; [by eexists|].
  assert ((if W64 <=? (buffers i).2 * 3 then W64 - 1 else (buffers i).2 * 3) `div` 2 <= 2 * n) as Hd.
  { apply Z.div_le_upper_bound; [lia|]. destruct (Z.leb_spec W64 ((buffers i).2 * 3)); lia. }
  destruct (Z.ltb_spec ((if W64 <=? (buffers i).2 * 3 then W64 - 1 else (buffers i).2 * 3) `div` 2) n); lia.
Qed.

Lemma reads_string `{Memory} s : wf_string s → reads (C := call) read_string (encode_int t_size (Z.of_nat (length s)) ++ s) [] s.
Proof.
  intros [Hs Hm]. unfold max_string_size in Hs. unfold read_string. eapply reads_step; [apply reads_size; unfold fits; lia|].
  eapply reads_pure; [|by apply reads_buffer].
  unfold error_if, max_string_size. replace (_ <? Z.of_nat (length s)) with false by lia. apply reads_ret.
Qed.

Lemma reads_binary `{Memory} s : wf_binary s → reads (C := call) read_binary (encode_int t_size (Z.of_nat (length s)) ++ s) [] s.
Proof.
  intros Hs. unfold read_binary. eapply reads_step; [|by apply reads_buffer]. apply reads_size. destruct Hs. unfold fits. lia.
Qed.

Lemma reads_raw n s : Z.of_nat (length s) = n → reads (C := call) (read_bytes n) s [] s.
Proof. intros <-. apply reads_bytes. Qed.

Lemma reads_float s : length s = 4%nat → reads (C := call) read_float s [] s.
Proof. intros Hs. apply reads_raw. by rewrite Hs. Qed.

Lemma reads_double s : length s = 8%nat → reads (C := call) read_double s [] s.
Proof. intros Hs. apply reads_raw. by rewrite Hs. Qed.

Lemma reads_error_if b : b = false → reads (C := call) (error_if b) [] [] tt.
Proof. intros ->. apply reads_ret. Qed.

(** ** Chains of arguments *)

Lemma args_cons a args : args_bytes (a :: args) = arg_bytes a ++ args_bytes args.
Proof. done. Qed.

(** The next argument is read, and so are the ones after it. *)
Lemma reads_arg {A B} (m : parse A) (f : A → parse B) a args cs x b :
  reads m (arg_bytes a) [] x → reads (f x) (args_bytes args) cs b → reads (m ≫= f) (args_bytes (a :: args)) cs b.
Proof. apply reads_step. Qed.

Lemma arg_size z : fits z → reads (C := call) read_size (arg_bytes (size_t z)) [] z.
Proof. apply reads_size. Qed.
Lemma arg_int64 z : int64 z → reads (C := call) read_int64 (arg_bytes (int64_t z)) [] z.
Proof. apply reads_int64. Qed.
Lemma arg_int z : in_type t_int z = true → reads (C := call) (read_int t_int) (arg_bytes (a_int t_int z)) [] z.
Proof. apply reads_int. Qed.
Lemma arg_type t : reads (C := call) (read_int t_int) (arg_bytes (a_type t)) [] (type_code t).
Proof. apply reads_type. Qed.
Lemma arg_bool b : reads (C := call) read_bool (arg_bytes (a_bool b)) [] b.
Proof. apply reads_bool. Qed.
Lemma arg_string `{Memory} s : wf_string s → reads (C := call) read_string (arg_bytes (a_string s)) [] s.
Proof. apply reads_string. Qed.
Lemma arg_binary `{Memory} s : wf_binary s → reads (C := call) read_binary (arg_bytes (a_string s)) [] s.
Proof. apply reads_binary. Qed.
Lemma arg_float s : length s = 4%nat → reads (C := call) read_float (arg_bytes (a_raw s)) [] s.
Proof. apply reads_float. Qed.
Lemma arg_double s : length s = 8%nat → reads (C := call) read_double (arg_bytes (a_raw s)) [] s.
Proof. apply reads_double. Qed.

Create HintDb reads_db.
#[export] Hint Resolve arg_size arg_int64 arg_int arg_type arg_bool arg_string arg_binary arg_float arg_double reads_ret reads_emit : reads_db.

(** Read the arguments of an instruction one after the other. *)
Ltac reads_args := repeat first
  [ eapply reads_arg; [solve [eauto with reads_db]|cbn beta iota]
  | eapply reads_pure; [solve [eauto using reads_error_if with reads_db]|cbn beta iota]
  | apply reads_emit | apply reads_ret ].

Lemma reads_timestamp s ns : wf_timestamp s ns → reads (C := call) read_timestamp (args_bytes [int64_t s; a_int t_int ns]) [] (s, ns).
Proof.
  intros [Hs Hns]. unfold read_timestamp. assert (in_type t_int ns = true).
  { unfold timestamp_ok in Hns. apply in_type_iff. change (lim_min t_int) with (-2147483648). change (lim_max t_int) with 2147483647. lia. }
  reads_args. rewrite Hns. apply reads_ret.
Qed.

Lemma reads_mixed `{Memory} v : wf_mixed v → reads (C := call) read_mixed (args_bytes (mixed_args v)) [] v.
Proof.
  intros Hv. unfold read_mixed. destruct v; cbn [mixed_args wf_mixed] in *;
    (eapply reads_arg; [apply arg_type|]; rewrite type_of_code); reads_args.
  rewrite <- (app_nil_r (args_bytes _)). eapply reads_step; [by apply reads_timestamp|]. apply reads_ret.
Qed.

Lemma parse_one_instr `{Memory} i args cs : reads (parse_instr i) (args_bytes args) cs tt → reads parse_one (args_bytes (a_instr i :: args)) cs tt.
Proof. intros Hr. unfold parse_one. eapply reads_step; [apply (reads_char (instr_code i))|]. by rewrite instr_of_code. Qed.

(** A setter: the type, the cell, and the number of rows if the variant has it. *)
Lemma is_set_cases v : is_set v = true → v = instr_Set ∨ v = instr_SetDefault.
Proof. unfold is_set. rewrite orb_true_iff, !bool_decide_eq_true. done. Qed.

Lemma is_set_or_unique_cases v : is_set_or_unique v = true → v = instr_Set ∨ v = instr_SetDefault ∨ v = instr_SetUnique.
Proof. unfold is_set_or_unique, is_set. rewrite !orb_true_iff, !bool_decide_eq_true. tauto. Qed.

(** ** Every instruction *)

Section select_encoder.
Context {mem : Memory} `{SelectEncoder}.

(** Begin an instruction that is no setter. *)
Ltac read_plain := intros; destruct_and?; simplify_eq/=; apply parse_one_instr; cbn [parse_instr]; reads_args.

(** What the call reads is what the setter wrote, for each variant. *)
Lemma reads_setter variant type col row prior value m c :
  is_set_or_unique variant = true → fits col → fits row → fits prior →
  (∀ prior, reads (parse_value variant (type_code type) col row prior) (args_bytes value) [m prior] tt) →
  c = m (unique_prior variant prior) →
  reads parse_one (args_bytes ([a_instr variant; a_type type; size_t col; size_t row] ++ (if bool_decide (variant = instr_SetUnique) then [size_t prior] else []) ++ value)) [c] tt.
Proof.
  intros Hv Hc Hr Hp Hm ->. cbn [app]. apply parse_one_instr.
  assert (parse_instr variant = parse_set variant) as -> by (by destruct (is_set_or_unique_cases variant Hv) as [->|[->| ->]]).
  unfold parse_set. reads_args. unfold unique_prior.
  assert ((type_code type =? -1) = false) as E by (by destruct type).
  case_bool_decide; cbn [app]; reads_args; rewrite E; apply Hm.
Qed.

(** A null, of either kind of setter. *)
Lemma reads_null variant col row prior :
  is_set_or_unique variant = true → fits col → fits row → fits prior →
  reads parse_one (args_bytes ([a_instr variant; a_int t_int set_null_sentinel; size_t col; size_t row] ++ (if bool_decide (variant = instr_SetUnique) then [size_t prior] else [])))
    [set_null col row variant (unique_prior variant prior)] tt.
Proof.
  intros Hv Hc Hr Hp. cbn [app]. apply parse_one_instr.
  assert (parse_instr variant = parse_set variant) as -> by (by destruct (is_set_or_unique_cases variant Hv) as [->|[->| ->]]).
  unfold parse_set. eapply reads_arg; [by apply arg_int|]. cbn beta. reads_args. unfold unique_prior. case_bool_decide; cbn [app]; reads_args; cbn; apply reads_emit.
Qed.

Lemma reads_set variant type col row value c :
  is_set variant = true → fits col → fits row →
  (∀ prior, reads (parse_value variant (type_code type) col row prior) (args_bytes value) [c] tt) →
  reads parse_one (args_bytes ([a_instr variant; a_type type; size_t col; size_t row] ++ value)) [c] tt.
Proof.
  intros Hv Hc Hr Hm. pose proof (reads_setter variant type col row 0 value (λ _, c) c) as Hs.
  assert (bool_decide (variant = instr_SetUnique) = false) as E by (by destruct (is_set_cases variant Hv) as [->| ->]).
  rewrite E in Hs. apply Hs; try done. unfold is_set_or_unique. by rewrite Hv.
Qed.

(** Finish a setter: its value. *)
Ltac read_value := unfold parse_value; rewrite type_of_code; reads_args.

Lemma link_round z : fits z → (1 ⊕ z) ⊖ 1 = z.
Proof. intros Hz. unfold wadd, wsub. rewrite wrap_sub_l. replace (1 + z - 1) with z by lia. by apply wrap_small. Qed.

Lemma set_link_value variant col row prior value target :
  fits value → fits target → reads (parse_value variant (type_code type_Link) col row prior) (args_bytes [size_t (1 ⊕ value); size_t target]) [set_link col row value target variant] tt.
Proof.
  intros Hv Ht. unfold parse_value. rewrite type_of_code. eapply reads_arg; [apply arg_size, wadd_fits|]. cbn beta.
  eapply reads_arg; [by apply arg_size|]. cbn beta. rewrite link_round by done. apply reads_emit.
Qed.

Lemma set_timestamp_value variant col row prior s ns :
  wf_timestamp s ns → reads (parse_value variant (type_code type_Timestamp) col row prior) (args_bytes [int64_t s; a_int t_int ns]) [set_timestamp col row s ns variant] tt.
Proof.
  intros Hs. unfold parse_value. rewrite type_of_code. rewrite <- (app_nil_r (args_bytes _)). eapply reads_step; [by apply reads_timestamp|]. apply reads_emit.
Qed.

Lemma set_mixed_value variant col row prior v :
  wf_mixed v → reads (parse_value variant (type_code type_Mixed) col row prior) (args_bytes (mixed_args v)) [set_mixed col row v variant] tt.
Proof.
  intros Hv. unfold parse_value. rewrite type_of_code. rewrite <- (app_nil_r (args_bytes _)). eapply reads_step; [by apply reads_mixed|]. apply reads_emit.
Qed.

(** The instruction that a member function appends, and that it is parsed as [c]. *)
Definition appends (r : result write_error (list arg)) (c : call) : Prop :=
  ∃ args, r = Ok args ∧ reads parse_one (args_bytes args) [c] tt.

Lemma appends_asserted b r c : b = true → appends r c → appends (_ ← assert_ex b; r) c.
Proof. by intros ->. Qed.

Lemma appends_set variant type col row value c :
  is_set variant = true → fits col → fits row →
  (∀ prior, reads (parse_value variant (type_code type) col row prior) (args_bytes value) [c] tt) →
  appends (set_args variant type col row value) c.
Proof. intros Hv Hc Hr Hm. apply appends_asserted; [done|]. eexists. split; [done|]. by apply reads_set. Qed.

Lemma appends_set_unique variant type col row prior value m c :
  is_set_or_unique variant = true → fits col → fits row → fits prior →
  (∀ prior, reads (parse_value variant (type_code type) col row prior) (args_bytes value) [m prior] tt) →
  c = m (unique_prior variant prior) → appends (set_unique_args variant type col row prior value) c.
Proof. intros Hv Hc Hr Hp Hm E. apply appends_asserted; [done|]. eexists. split; [done|]. by eapply reads_setter. Qed.

Lemma appends_null variant col row prior c :
  is_set_or_unique variant = true → fits col → fits row → fits prior →
  c = set_null col row variant (unique_prior variant prior) → appends (set_null_args col row variant prior) c.
Proof. intros Hv Hc Hr Hp ->. apply appends_asserted; [done|]. eexists. split; [done|]. by apply reads_null. Qed.

Lemma is_set_unique v : is_set v = true → is_set_or_unique v = true.
Proof. unfold is_set_or_unique. by intros ->. Qed.

Lemma fits_0 : fits 0.
Proof. done. Qed.

(** What a call appends is parsed as [parsed_call] says. *)
Lemma appends_call c : (∀ s, c ≠ select s) → wf_call c → appends (call_args c) (parsed_call c).
Proof.
  intros Hns. destruct c; cbn [wf_call call_args parsed_call]; intros Hwf; destruct_and?;
    try (by destruct (Hns s)); try (by eexists; split; [done|read_plain]).
  - eapply (appends_set_unique _ _ _ _ _ _ (set_int col_ndx row_ndx value variant)); try done. intros ?. read_value.
  - apply appends_set; try done. intros ?. read_value.
  - apply appends_set; try done. intros ?. read_value.
  - apply appends_asserted; [done|]. eexists. split; [done|]. apply (reads_set instr_Set type_Double); try done. intros ?. read_value.
  - destruct value as [s|]; [|apply appends_asserted; [done|by apply appends_null]].
    eapply (appends_set_unique _ _ _ _ _ _ (set_string col_ndx row_ndx (Some s) variant)); try done. intros ?. read_value.
  - destruct value as [s|]; [apply appends_set; try done; intros ?; read_value|].
    apply appends_asserted; [done|]. apply appends_null; try done; [by apply is_set_unique|]. unfold unique_prior. by case_bool_decide.
  - apply appends_set; try done. intros ?. read_value.
  - apply appends_set; try done. intros ?. by apply set_timestamp_value.
  - apply appends_set; try done. intros ?. read_value.
  - apply appends_set; try done. intros ?. by apply set_mixed_value.
  - apply appends_set; try done. intros ?. by apply set_link_value.
  - by apply appends_null.
  - apply appends_asserted; [done|]. eexists. split; [done|]. apply parse_one_instr. cbn [parse_instr]. reads_args. rewrite type_of_code.
    eapply reads_pure; [apply reads_error_if; by apply negb_false_iff|]. cbn beta. reads_args.
  - eexists. split; [done|]. apply parse_one_instr.
    assert (nullable && bool_decide (type = type_Mixed) = false) as Emixed by (destruct nullable; [case_bool_decide; naive_solver|done]).
    destruct nullable; cbn [parse_instr]; reads_args; rewrite type_of_code; reads_args.
  - eexists. split; [done|]. apply parse_one_instr. cbn [parse_instr]. reads_args. eapply reads_arg; [apply arg_int; by destruct type|]. cbn beta.
    destruct type; apply reads_emit.
  - apply appends_asserted; [by apply negb_true_iff, Z.eqb_neq|]. eexists. split; [done|]. apply parse_one_instr. cbn [parse_instr]. reads_args.
Qed.

(** [link_list_set_all], entry by entry *)
Lemma reads_value_as_size z : 0 <= z → int64 z → reads (C := call) read_size (encode_int t_int64 z) [] z.
Proof.
  intros H0 Hz. pose proof (read_int_signed (C := call) t_int64 t_size wf_int64 wf_size z Hz (or_intror H0)) as Hr.
  assert (in_type t_size z = true) as E; [|by rewrite E in Hr].
  apply fits_in_type. unfold fits, int64 in *. rewrite in_type_iff in Hz. change (lim_max t_int64) with 9223372036854775807 in Hz. lia.
Qed.

Definition values_bytes (values : list Z) : bytes := concat (encode_int t_int64 <$> values).

Lemma reads_set_all_loop values : ∀ fuel i,
  (length values < fuel)%nat → Forall (λ v, 0 <= v ∧ int64 v) values →
  reads (set_all_loop fuel i (i + Z.of_nat (length values))) (values_bytes values)
    (imap (λ k v, link_list_set (i + Z.of_nat k) v (i + Z.of_nat (length values))) values) tt.
Proof.
  induction values as [|v values IH]; intros fuel i Hf Hv; (destruct fuel as [|fuel]; [simpl in Hf; lia|]); cbn [set_all_loop].
  - rewrite (proj2 (Z.ltb_ge _ _)) by (cbn [length]; lia). apply reads_ret.
  - rewrite (proj2 (Z.ltb_lt _ _)) by (cbn [length]; lia). apply Forall_cons in Hv as [[H0 Hv] Hvs].
    unfold values_bytes. cbn [fmap list_fmap concat]. eapply reads_step; [by apply reads_value_as_size|]. cbn beta.
    rewrite imap_cons. rewrite Z.add_0_r. eapply (reads_bind _ _ [] _ [_]); [apply reads_emit|]. cbn beta.
    specialize (IH fuel (i + 1)). replace (i + Z.of_nat (length (v :: values))) with (i + 1 + Z.of_nat (length values)) by (cbn [length]; lia).
    assert (imap ((λ k v0, link_list_set (i + Z.of_nat k) v0 (i + 1 + Z.of_nat (length values))) ∘ S) values =
            imap (λ k v0, link_list_set (i + 1 + Z.of_nat k) v0 (i + 1 + Z.of_nat (length values))) values) as ->.
    { apply imap_ext. intros k x _. simpl. f_equal. lia. }
    apply IH; [simpl in Hf; lia|done].
Qed.

Lemma encode_int_nonempty t z : encode_int t z ≠ [].
Proof. unfold encode_int. destruct (encode_loop _ _) as [bs v]. by destruct bs. Qed.

Lemma values_length values : (length values <= length (values_bytes values))%nat.
Proof.
  unfold values_bytes. induction values as [|v values IH]; [done|]. cbn [fmap list_fmap concat]. rewrite length_app.
  pose proof (encode_int_nonempty t_int64 v). destruct (encode_int t_int64 v); [done|]. simpl in *. lia.
Qed.

Lemma reads_set_all values : Forall (λ v, 0 <= v ∧ int64 v) values →
  reads (set_all (Z.of_nat (length values))) (values_bytes values) (parsed (link_list_set_all values)) tt.
Proof.
  intros Hv i rest Hi Hc. unfold set_all. apply (reads_set_all_loop values _ 0); try done.
  fold (content i). rewrite Hc, length_app. pose proof (values_length values). lia.
Qed.
End select_encoder.

(** What is relied on of the functions that select, which are compiled into the library:
    the parser reads what they append. *)
Class SelectLaws `{Memory} `{SelectEncoder} := {
  select_reads s : wf_selection s → reads parse_one (args_bytes (select_args s)) [select s] tt
}.

Section log.
Context `{SelectLaws}.

Definition op_bytes (o : log_op) : bytes := match op_args o with Ok args => args_bytes args | _ => [] end.

Lemma reads_op o : wf_op o → ∃ args, op_args o = Ok args ∧ reads parse_one (args_bytes args) (parsed o) tt.
Proof.
  destruct o as [c|values]; cbn [wf_op op_args parsed].
  - intros Hwf. assert ((∃ s, c = select s) ∨ ∀ s, c ≠ select s) as [[s ->]|Hn] by (destruct c; [left; by eexists|by right..]).
    + eexists. split; [done|]. by apply select_reads.
    + by apply appends_call.
  - intros [Hl Hv]. eexists. split; [done|]. apply parse_one_instr. cbn [parse_instr]. eapply reads_arg; [by apply arg_size|]. cbn beta.
    rewrite args_cons. change (args_bytes []) with (@nil Z). rewrite app_nil_r. by apply reads_set_all.
Qed.

Lemma parse_one_nonempty bs cs : reads parse_one bs cs tt → bs ≠ [].
Proof.
  intros Hr ->. destruct (Hr (MkInput [] [] (0, 0)) []) as (i' & E & _); [by constructor|done|]. done.
Qed.

(** ** The whole log *)

Lemma parse_loop_spec ops : ∀ fuel i,
  Forall wf_op ops → wf_input i → content i = concat (op_bytes <$> ops) → (length ops < fuel)%nat →
  ∃ i', parse_loop fuel i = (concat (parsed <$> ops), Ok (tt, i')).
Proof.
  induction ops as [|o ops IH]; intros fuel i Hops Hi Hc Hf; (destruct fuel as [|fuel]; [simpl in Hf; lia|]); cbn [parse_loop].
  - destruct i as [b bs bufs]. unfold content in Hc. simpl in Hc. apply app_eq_nil in Hc as [-> Hbs].
    destruct bs as [|[|x b] bs]; [|by inversion Hi|done]. by eexists.
  - apply Forall_cons in Hops as [Ho Hops]. destruct (reads_op o Ho) as (args & E & Hr). cbn [fmap list_fmap concat] in Hc.
    unfold op_bytes at 1 in Hc. rewrite E in Hc. pose proof (parse_one_nonempty _ _ Hr) as Hne.
    assert (∃ i1, has_next i = ([], Ok (true, i1)) ∧ wf_input i1 ∧ content i1 = content i) as (i1 & E1 & Hi1 & Hc1).
    { destruct i as [[|x b] bs bufs]; [|by eexists]. destruct bs as [|[|x b] bs].
      - unfold content in Hc. simpl in Hc. symmetry in Hc. by apply app_eq_nil in Hc as [? _].
      - by inversion Hi.
      - eexists. split; [done|]. split; [by inversion Hi|done]. }
    rewrite <- Hc1 in Hc. destruct (Hr i1 _ Hi1 Hc) as (i2 & E2 & Hi2 & Hc2).
    destruct (IH fuel i2 Hops Hi2 Hc2) as (i3 & E3); [simpl in Hf; lia|]. exists i3.
    unfold mbind, parser_bind. rewrite E1. cbn. unfold mbind, parser_bind. rewrite E2, E3. done.
Qed.

Lemma op_bytes_nonempty o : wf_op o → op_bytes o ≠ [].
Proof. intros Ho. destruct (reads_op o Ho) as (args & E & Hr). unfold op_bytes. rewrite E. by eapply parse_one_nonempty. Qed.

Lemma ops_length ops : Forall wf_op ops → (length ops <= length (concat (op_bytes <$> ops)))%nat.
Proof.
  induction 1 as [|o ops Ho _ IH]; [done|]. cbn [fmap list_fmap concat]. rewrite length_app.
  pose proof (op_bytes_nonempty o Ho). destruct (op_bytes o); [done|]. simpl in *. lia.
Qed.

Lemma parse_log_spec ops stream :
  Forall wf_op ops → Forall (λ b, b ≠ []) stream → concat stream = concat (op_bytes <$> ops) →
  parse_log stream = (concat (parsed <$> ops), Ok tt).
Proof.
  intros Hops Hs Hc. unfold parse_log.
  destruct (parse_loop_spec ops (S (length (concat stream))) (MkInput [] stream (0, 0)) Hops Hs Hc) as (i' & ->); [|done].
  rewrite Hc. pose proof (ops_length ops Hops). lia.
Qed.
End log.
