(* ===== verification/LogEncoderTheorems.v ===== *)
(** * The encoder stays within the space it reserves

    Every instruction fits in the space that is reserved for it, whatever its arguments:
    the write position never passes the end of the buffer, and nothing that was written
    is lost when the buffer grows. *)

From S2P Require Import Prelude SafeInt SafeIntTheorems LogStream LogStreamTheorems LogEncoder LogParser LogRoundTrip.

Import Encode Encoder Parser SafeInt.

(** ** The buffer *)

Lemma buffer_reserve_spec size min : fits size → fits min → let s := Buffer.reserve size min in fits s ∧ min <= s ∧ size <= s.
Proof.
  intros Hs Hm. unfold fits in *. unfold Buffer.reserve. destruct (Z.leb_spec min size); [lia|].
  rewrite multiply_exact by (try done; try (by apply fits_in_type); lia).
  destruct (in_type t_size (size * 3)) eqn:E; cbn [default from_option]; unfold id.
  - apply in_type_iff in E. change (lim_max t_size) with (W64 - 1) in E.
    destruct (Z.ltb_spec (size * 3 / 2) min); cbn zeta; Z.to_euclidean_division_equations; lia.
  - change (lim_max t_size / 2) with 9223372036854775807. destruct (Z.ltb_spec 9223372036854775807 min); cbn zeta;
    apply not_true_iff_false in E; rewrite in_type_iff in E; change (lim_max t_size) with (W64 - 1) in E; change (lim_min t_size) with 0 in E; lia.
Qed.

Lemma reserve_extra_spec size used extra :
  fits size → 0 <= used → 0 <= extra → used + extra < W64 →
  ∃ s, Buffer.reserve_extra size used extra = Ok s ∧ fits s ∧ used + extra <= s ∧ size <= s.
Proof.
  intros Hs Hu He Hf. unfold Buffer.reserve_extra. rewrite add_exact by (try done; apply fits_in_type; unfold fits; lia).
  rewrite fits_in_type by (unfold fits; lia). eexists. split; [done|]. destruct (buffer_reserve_spec size (used + extra)) as (H1 & H2 & H3); [done|unfold fits; lia|done].
Qed.

(** ** Sizes of arguments *)

(** An argument that the encoder is ever given, other than the list of values. *)
Definition wf_arg (a : arg) : Prop :=
  match a with
  | a_instr _ | a_type _ | a_bool _ => True
  | a_int t z => wf_type t ∧ in_type t z = true
  | a_raw r => (length r <= 8)%nat
  | a_string s => fits (Z.of_nat (length s))
  | a_numbers l => Forall fits l
  | a_values _ => False
  end.

Lemma encode_int_size t z : wf_type t → in_type t z = true → Z.of_nat (length (encode_int t z)) <= max_enc_bytes_per_num.
Proof.
  intros Ht Hz. destruct (encode_int_spec t z Ht Hz) as (_ & _ & _ & _ & _ & Hl). pose proof (max_bytes_bounds t Ht). destruct Ht as [Hd Hn].
  assert (digits t <= 64) by (unfold needed in Hn; destruct (is_signed t); lia). unfold max_enc_bytes_per_num. lia.
Qed.

Lemma concat_size (t : int_type) l : wf_type t → Forall (λ z, in_type t z = true) l →
  Z.of_nat (length (concat (encode_int t <$> l))) <= max_enc_bytes_per_num * Z.of_nat (length l).
Proof.
  intros Ht. induction 1 as [|z l Hz _ IH]; [done|]. cbn [fmap list_fmap concat length]. rewrite length_app.
  pose proof (encode_int_size t z Ht Hz). unfold max_enc_bytes_per_num in *. lia.
Qed.

Lemma arg_size_bound chunk a : wf_arg a → Z.of_nat (length (arg_bytes a)) <= max_size chunk a.
Proof.
  unfold max_enc_bytes_per_num. destruct a as [| | |t z|r|s|l|l]; cbn [wf_arg arg_bytes max_size length]; unfold max_enc_bytes_per_num; try lia.
  - intros [Ht Hz]. by apply encode_int_size.
  - intros Hs. rewrite length_app. pose proof (encode_int_size t_size _ wf_size (fits_in_type _ Hs)). unfold max_enc_bytes_per_num in *. lia.
  - intros Hl. apply (concat_size t_size l wf_size). eapply Forall_impl; [exact Hl|]. apply fits_in_type.
Qed.

Lemma args_size_bound chunk args : Forall wf_arg args → Z.of_nat (length (args_bytes args)) <= max_size_list chunk args.
Proof.
  induction 1 as [|a args Ha _ IH]; [done|]. rewrite args_cons, length_app. pose proof (arg_size_bound chunk a Ha).
  change (max_size_list chunk (a :: args)) with (max_size chunk a + max_size_list chunk args). lia.
Qed.

(** ** Writing *)

Section write.
Context (chunk : nat).

(** What is written lies in the buffer. *)
Definition wf_encoder (e : encoder) : Prop := fits (capacity e) ∧ 0 <= free e.

Lemma reserve_spec e n :
  wf_encoder e → 0 <= n → Z.of_nat (length (written e)) + n < W64 →
  ∃ e', reserve e n = Ok e' ∧ written e' = written e ∧ wf_encoder e' ∧ n <= free e'.
Proof.
  intros [Hc Hf] Hn Hw. unfold reserve. destruct (Z.ltb_spec (free e) n); [|by exists e].
  destruct (reserve_extra_spec (capacity e) (Z.of_nat (length (written e))) n Hc) as (s & -> & Hs & H1 & H2); try lia.
  eexists. split; [done|]. split; [done|]. unfold wf_encoder, free in *. cbn. split; [split; [done|lia]|lia].
Qed.

Lemma advance_written e pending :
  wf_encoder e → Z.of_nat (length pending) <= free e →
  advance e pending = Ok (MkEncoder (written e ++ pending) (capacity e)) ∧ wf_encoder (MkEncoder (written e ++ pending) (capacity e)) ∧
  free (MkEncoder (written e ++ pending) (capacity e)) = free e - Z.of_nat (length pending).
Proof.
  intros [Hc Hf] Hp. unfold advance. replace (_ <=? free e) with true by lia. split; [done|].
  unfold wf_encoder, free in *. cbn. rewrite length_app. split; [split; [done|lia]|lia].
Qed.

Lemma encode_list_spec e pending args :
  Forall wf_arg args → wf_encoder e → Z.of_nat (length (pending ++ args_bytes args)) <= free e →
  ∃ e', encode_list chunk e pending args = Ok e' ∧ written e' = written e ++ pending ++ args_bytes args ∧ wf_encoder e'.
Proof.
  revert pending. induction args as [|a args IH]; intros pending Ha He Hp.
  - rewrite app_nil_r in *. destruct (advance_written e pending He Hp) as (E & Hw & _). eexists. split; [exact E|]. done.
  - apply Forall_cons in Ha as [Ha Hargs]. rewrite args_cons in *.
    assert (encode_list chunk e pending (a :: args) = encode_list chunk e (pending ++ arg_bytes a) args) as -> by (by destruct a).
    destruct (IH (pending ++ arg_bytes a) Hargs He) as (e' & -> & E & He'); [by rewrite <- app_assoc|].
    exists e'. by rewrite E, <- !app_assoc.
Qed.

Lemma max_size_nonneg a : 0 <= max_size chunk a.
Proof. destruct a; cbn [max_size]; unfold max_enc_bytes_per_num; lia. Qed.

Lemma max_size_list_nonneg args : 0 <= max_size_list chunk args.
Proof. induction args as [|a args IH]; [done|]. pose proof (max_size_nonneg a). cbn. unfold max_size_list in IH. lia. Qed.

Lemma append_spec e args :
  Forall wf_arg args → wf_encoder e → Z.of_nat (length (written e)) + max_size_list chunk args < W64 →
  ∃ e', append_simple_instr chunk e args = Ok e' ∧ written e' = written e ++ args_bytes args ∧ wf_encoder e'.
Proof.
  intros Ha He Hm. unfold append_simple_instr. destruct (reserve_spec e (max_size_list chunk args) He) as (e1 & E1 & Hw & He1 & Hf); [apply max_size_list_nonneg|done|].
  unfold mbind, result_bind. rewrite E1. pose proof (args_size_bound chunk args Ha).
  destruct (encode_list_spec e1 [] args Ha He1) as (e' & E & Hw' & He'); [cbn [app]; lia|]. exists e'. by rewrite E, Hw', Hw.
Qed.

(** The list of values goes out in chunks, each with space of its own. *)
Definition chunk_size : Z := max_enc_bytes_per_num * Z.of_nat chunk.

Lemma encode_values_spec fuel e pending l :
  (0 < chunk)%nat → Forall int64 l → wf_encoder e → (length l < fuel)%nat →
  Z.of_nat (length pending) + chunk_size <= free e →
  Z.of_nat (length (written e ++ pending ++ values_bytes l)) + chunk_size < W64 →
  ∃ e' pending', encode_values chunk fuel e pending l = Ok (e', pending') ∧ wf_encoder e' ∧
    written e' ++ pending' = written e ++ pending ++ values_bytes l ∧ Z.of_nat (length pending') <= free e'.
Proof.
  intros Hchunk. revert e pending l. induction fuel as [|fuel IH]; intros e pending l Hl He Hf Hp Hw; [lia|]. cbn [encode_values].
  assert (∀ l', Forall int64 l' → Z.of_nat (length (values_bytes l')) <= max_enc_bytes_per_num * Z.of_nat (length l')) as Hsize by (intros l' Hl'; by apply (concat_size t_int64)).
  destruct (Nat.ltb_spec chunk (length l)) as [Hlt|Hle].
  - assert (values_bytes l = values_bytes (take chunk l) ++ values_bytes (drop chunk l)) as El.
    { unfold values_bytes. by rewrite <- concat_app, <- fmap_app, take_drop. }
    fold (values_bytes (take chunk l)). pose proof (Hsize (take chunk l) (Forall_take _ _ _ Hl)) as Ht. rewrite length_take in Ht.
    rewrite El, !length_app in Hw. unfold chunk_size, max_enc_bytes_per_num in *.
    destruct (advance_written e (pending ++ values_bytes (take chunk l)) He) as (E1 & He1 & Hf1); [rewrite length_app; lia|].
    unfold mbind, result_bind. rewrite E1. destruct (reserve_spec _ (10 * Z.of_nat chunk) He1) as (e2 & E2 & Hw2 & He2 & Hf2); [lia|cbn; rewrite !length_app; lia|].
    rewrite E2. destruct (IH e2 [] (drop chunk l)) as (e' & p' & E & He' & Ew & Hp'); try done.
    + by apply Forall_drop.
    + rewrite length_drop. lia.
    + rewrite Hw2. cbn [written app]. rewrite !length_app. lia.
    + exists e', p'. split; [exact E|]. split; [done|]. split; [|done]. rewrite Ew, Hw2, El. cbn. by rewrite <- !app_assoc.
  - fold (values_bytes l). eexists e, _. split; [done|]. split; [done|]. split; [done|]. rewrite length_app.
    pose proof (Hsize l Hl). unfold chunk_size, max_enc_bytes_per_num in *. lia.
Qed.
End write.

(** ** The member functions *)

(** The functions that select append arguments that the encoder can size. *)
Class SelectFits `{Memory} `{SelectEncoder} := { select_fits s : wf_selection s → Forall wf_arg (select_args s) }.

Lemma wf_arg_size z : fits z → wf_arg (size_t z).
Proof. intros Hz. split; [done|]. by apply fits_in_type. Qed.
Lemma wf_arg_int64 z : int64 z → wf_arg (int64_t z).
Proof. done. Qed.
Lemma wf_arg_name `{Memory} s : wf_string s → wf_arg (a_string s).
Proof. intros [Hs _]. unfold max_string_size in Hs. unfold wf_arg, fits. lia. Qed.
Lemma wf_arg_nanoseconds s ns : wf_timestamp s ns → wf_arg (a_int t_int ns).
Proof.
  intros [_ Hns]. split; [done|]. unfold timestamp_ok in Hns. apply in_type_iff. change (lim_min t_int) with (-2147483648). change (lim_max t_int) with 2147483647. lia.
Qed.

Lemma wf_arg_float f : length f = 4%nat → wf_arg (a_raw f).
Proof. cbn. lia. Qed.
Lemma wf_arg_double f : length f = 8%nat → wf_arg (a_raw f).
Proof. cbn. lia. Qed.
Lemma wf_arg_seconds s ns : wf_timestamp s ns → wf_arg (int64_t s).
Proof. by intros [Hs _]. Qed.
Lemma wf_arg_binary `{Memory} s : wf_binary s → wf_arg (a_string s).
Proof. intros [Hs _]. unfold wf_arg, fits. lia. Qed.
Lemma wf_arg_instr i : wf_arg (a_instr i).
Proof. done. Qed.
Lemma wf_arg_type t : wf_arg (a_type t).
Proof. done. Qed.
Lemma wf_arg_bool b : wf_arg (a_bool b).
Proof. done. Qed.

Lemma wf_arg_null : wf_arg (a_int t_int set_null_sentinel).
Proof. done. Qed.
Lemma wf_arg_link t : wf_arg (a_int t_int (link_code t)).
Proof. by destruct t. Qed.

Create HintDb wf_args.
#[export] Hint Resolve wf_arg_null wf_arg_link Forall_app_2 : wf_args.
#[export] Hint Resolve wf_arg_float wf_arg_double wf_arg_seconds wf_arg_instr wf_arg_type wf_arg_bool fits_0 : wf_args.
#[export] Hint Resolve wf_arg_size wf_arg_int64 wf_arg_nanoseconds wadd_fits Forall_cons_2 Forall_nil_2 : wf_args.
#[export] Hint Extern 1 (wf_arg (a_string _)) => first [eapply wf_arg_name; eassumption | eapply wf_arg_binary; eassumption] : wf_args.

Lemma wf_mixed_args `{Memory} v : wf_mixed v → Forall wf_arg (mixed_args v).
Proof.
  destruct v; cbn [wf_mixed mixed_args]; intros Hv; eauto 8 with wf_args.
Qed.

(** The arguments of a call can all be sized. *)
Section calls.
Context {mem : Memory} `{!SelectEncoder, !SelectFits}.

Lemma wf_set_args variant type col row value args :
  fits col → fits row → Forall wf_arg value → set_args variant type col row value = Ok args → Forall wf_arg args.
Proof. unfold set_args, assert_ex, throw_if. intros Hc Hr Hv E. destruct (negb _); simplify_eq/=. auto 8 with wf_args. Qed.

Lemma wf_set_unique_args variant type col row prior value args :
  fits col → fits row → fits prior → Forall wf_arg value → set_unique_args variant type col row prior value = Ok args → Forall wf_arg args.
Proof.
  unfold set_unique_args, assert_ex, throw_if. intros Hc Hr Hp Hv E. destruct (negb _); simplify_eq/=.
  case_bool_decide; cbn [app]; auto 9 with wf_args.
Qed.

Lemma wf_set_null_args variant col row prior args :
  fits col → fits row → fits prior → set_null_args col row variant prior = Ok args → Forall wf_arg args.
Proof.
  unfold set_null_args, assert_ex, throw_if. intros Hc Hr Hp E. destruct (negb _); simplify_eq/=.
  case_bool_decide; cbn [app]; auto 9 with wf_args.
Qed.

Lemma asserted_ok {A} b (r : result write_error A) x : (_ ← assert_ex b; r) = Ok x → r = Ok x.
Proof. by destruct b. Qed.

Lemma wf_call_args c args : wf_call c → call_args c = Ok args → Forall wf_arg args.
Proof.
  destruct c; cbn [wf_call call_args]; intros Hwf E; destruct_and?;
    try (eapply wf_set_args; [..|exact E]; auto with wf_args; fail);
    try (eapply wf_set_unique_args; [..|exact E]; auto with wf_args; fail);
    try (by eapply wf_set_null_args; [..|exact E]);
    try (simplify_eq; auto 10 with wf_args; fail).
  - simplify_eq. by apply select_fits.
  - apply asserted_ok in E. simplify_eq. auto 8 with wf_args.
  - destruct value as [x|].
    + eapply wf_set_unique_args; [..|exact E]; auto with wf_args.
    + apply asserted_ok in E. by eapply wf_set_null_args; [..|exact E].
  - destruct value as [x|].
    + eapply wf_set_args; [..|exact E]; auto with wf_args.
    + apply asserted_ok in E. by eapply wf_set_null_args; [..|exact E].
  - eapply wf_set_args; [..|exact E]; eauto with wf_args.
  - eapply wf_set_args; [..|exact E]; eauto using wf_mixed_args.
  - apply asserted_ok in E. simplify_eq. auto 9 with wf_args.
  - apply asserted_ok in E. simplify_eq. auto 8 with wf_args.
Qed.
End calls.

(** ** Whole logs *)

Section log.
Context {mem : Memory} `{!SelectEncoder, !SelectLaws, !SelectFits}.
Context (chunk : nat) (Hchunk : (0 < chunk)%nat).

(** The calls that are requested: to set a null string or binary is to set a null, to set a whole list is to set its entries. *)
Definition requested_call (c : call) : call :=
  match c with
  | set_string col row None variant prior => set_null col row variant prior
  | set_binary col row None variant => set_null col row variant 0
  | c => c
  end.
Definition requested (o : log_op) : list call :=
  match o with
  | log c => [requested_call c]
  | link_list_set_all values => imap (λ i v, link_list_set (Z.of_nat i) v (Z.of_nat (length values))) values
  end.

(** A number of rows comes with a unique setter only, and [set_double] is called without a variant. *)
Definition writable (o : log_op) : Prop :=
  match o with
  | log (set_int _ _ _ variant prior) | log (set_string _ _ _ variant prior) | log (set_null _ _ variant prior) =>
      variant = instr_SetUnique ∨ prior = 0
  | log (set_double _ _ _ variant) => variant = instr_Set
  | _ => True
  end.

Lemma unique_prior_0 variant prior : variant = instr_SetUnique ∨ prior = 0 → unique_prior variant prior = prior.
Proof using Type. unfold unique_prior. intros [->| ->]; [done|]. by case_bool_decide. Qed.

Lemma requested_parsed o : writable o → parsed o = requested o.
Proof using Type.
  intros Hw. destruct o as [c|values]; [|done].
  destruct c; try match goal with v : option bytes |- _ => destruct v end;
    cbn [writable parsed requested parsed_call requested_call] in *; rewrite ?unique_prior_0 by done; try done; by rewrite Hw.
Qed.

(** The most bytes that an operation takes. *)
Definition arg_space (a : arg) : Z :=
  match a with a_values l => max_enc_bytes_per_num * Z.of_nat (length l) | a => max_size chunk a end.
Definition op_space (o : log_op) : Z :=
  match op_args o with Ok args => foldr (λ a n, arg_space a + n) 0 args | _ => 0 end.

Lemma plain_space args : Forall wf_arg args → foldr (λ a n, arg_space a + n) 0 args = max_size_list chunk args.
Proof using Type. induction 1 as [|a args Ha _ IH]; [done|]. cbn. rewrite IH. f_equal. by destruct a. Qed.

Lemma write_plain e args :
  Forall wf_arg args → wf_encoder e → Z.of_nat (length (written e)) + foldr (λ a n, arg_space a + n) 0 args < W64 →
  ∃ e', append_simple_instr chunk e args = Ok e' ∧ wf_encoder e' ∧ written e' = written e ++ args_bytes args ∧
    Z.of_nat (length (args_bytes args)) <= foldr (λ a n, arg_space a + n) 0 args.
Proof using Type.
  intros Ha He Hs. rewrite plain_space in * by done. destruct (append_spec chunk e args Ha He Hs) as (e' & E & Hw & He').
  exists e'. split_and!; try done. by apply args_size_bound.
Qed.

Lemma write_values e values :
  fits (Z.of_nat (length values)) → Forall int64 values → wf_encoder e →
  Z.of_nat (length (written e)) + op_space (link_list_set_all values) + chunk_size chunk < W64 →
  ∃ e', write chunk e (link_list_set_all values) = Ok e' ∧ wf_encoder e' ∧ written e' = written e ++ op_bytes (link_list_set_all values) ∧
    Z.of_nat (length (op_bytes (link_list_set_all values))) <= op_space (link_list_set_all values).
Proof using Hchunk.
  intros Hl Hv He Hs. unfold write, op_space, op_bytes in *. cbn [op_args] in *. unfold mbind, result_bind.
  set (n := Z.of_nat (length values)) in *. unfold chunk_size, max_enc_bytes_per_num in *.
  assert (foldr (λ a n, arg_space a + n) 0 [a_instr instr_LinkListSetAll; size_t n; a_values values] = 1 + (10 + (10 * n + 0))) as E0 by done. rewrite E0 in *.
  assert (args_bytes [a_instr instr_LinkListSetAll; size_t n; a_values values] = instr_code instr_LinkListSetAll :: encode_int t_size n ++ values_bytes values) as Eb.
  { rewrite !args_cons. change (args_bytes []) with (@nil Z). by rewrite app_nil_r. }
  pose proof (encode_int_size t_size n wf_size (fits_in_type n Hl)) as Hn. pose proof (concat_size t_int64 values wf_int64 Hv) as Hvs.
  fold (values_bytes values) in Hvs. unfold max_enc_bytes_per_num in *.
  unfold append_simple_instr. change (max_size_list chunk _) with (1 + (10 + (10 * Z.of_nat chunk + 0))).
  destruct (reserve_spec e (1 + (10 + (10 * Z.of_nat chunk + 0))) He) as (e1 & E1 & Hw1 & He1 & Hf1); [lia..|].
  unfold mbind, result_bind. rewrite E1. cbn [encode_list app].
  destruct (encode_values_spec chunk (S (length values)) e1 (arg_bytes (a_instr instr_LinkListSetAll) ++ arg_bytes (size_t n)) values Hchunk) as (e2 & p & E2 & He2 & Hw2 & Hp); try done; try lia.
  { unfold chunk_size, max_enc_bytes_per_num. cbn [arg_bytes size_t]. rewrite length_app. cbn [length]. lia. }
  { unfold chunk_size, max_enc_bytes_per_num. cbn [arg_bytes size_t]. rewrite Hw1, !length_app. cbn [length]. subst n. lia. }
  unfold mbind, result_bind. rewrite E2. destruct (advance_written e2 p He2 Hp) as (E3 & He3 & _). eexists. split; [exact E3|]. split; [done|]. cbn [written].
  split; [by rewrite Hw2, Hw1, Eb|]. rewrite Eb. cbn [length]. rewrite length_app. subst n. lia.
Qed.

Lemma write_op e o :
  wf_op o → wf_encoder e → Z.of_nat (length (written e)) + op_space o + chunk_size chunk < W64 →
  ∃ e', write chunk e o = Ok e' ∧ wf_encoder e' ∧ written e' = written e ++ op_bytes o ∧ Z.of_nat (length (op_bytes o)) <= op_space o.
Proof using All.
  intros Ho He Hs. destruct o as [c|values].
  - destruct (reads_op (log c) Ho) as (args & E & _). pose proof (wf_call_args c args Ho E) as Ha.
    unfold write, op_space, op_bytes in *. rewrite E in *. apply write_plain; try done. unfold chunk_size, max_enc_bytes_per_num in Hs. lia.
  - destruct Ho as [Hl Hv]. apply write_values; try done. eapply Forall_impl; [exact Hv|]. by intros v [_ ?].
Qed.

(** The space of a whole log. *)
Definition ops_space (ops : list log_op) : Z := foldr (λ o n, op_space o + n) 0 ops.

Lemma op_space_nonneg o : 0 <= op_space o.
Proof using Hchunk.
  unfold op_space. destruct (op_args o) as [args| |]; try done. induction args as [|a args IH]; [done|]. cbn.
  assert (0 <= arg_space a); [|lia]. unfold arg_space, max_enc_bytes_per_num. destruct a; cbn [max_size]; unfold max_enc_bytes_per_num; lia.
Qed.

Lemma ops_space_nonneg ops : 0 <= ops_space ops.
Proof using Hchunk. induction ops as [|o ops IH]; [done|]. cbn. pose proof (op_space_nonneg o). unfold ops_space in IH. lia. Qed.

Lemma write_all_spec ops : ∀ e,
  Forall wf_op ops → wf_encoder e → Z.of_nat (length (written e)) + ops_space ops + chunk_size chunk < W64 →
  ∃ e', write_all chunk e ops = Ok e' ∧ wf_encoder e' ∧ written e' = written e ++ concat (op_bytes <$> ops).
Proof using All.
  induction ops as [|o ops IH]; intros e Hops He Hs; cbn [write_all fmap list_fmap concat]; [exists e; by rewrite app_nil_r|].
  apply Forall_cons in Hops as [Ho Hops]. change (ops_space (o :: ops)) with (op_space o + ops_space ops) in Hs. pose proof (ops_space_nonneg ops).
  destruct (write_op e o Ho He) as (e1 & E1 & He1 & Hw1 & Hl1); [lia|]. unfold mbind, result_bind. rewrite E1.
  destruct (IH e1 Hops He1) as (e2 & E2 & He2 & Hw2); [rewrite Hw1, length_app; lia|]. exists e2. split; [done|]. split; [done|].
  by rewrite Hw2, Hw1, <- app_assoc.
Qed.

(** What is written, and what is read of it: [parsed] says which arguments the encoder leaves out. *)
Lemma log_parsed (ops : list log_op) :
  Forall wf_op ops → ops_space ops + chunk_size chunk < W64 →
  ∃ e, write_all chunk new_encoder ops = Ok e ∧ Z.of_nat (length (written e)) <= capacity e ∧
    ∀ stream, Forall (λ b, b ≠ []) stream → concat stream = written e → parse_log stream = (concat (parsed <$> ops), Ok tt).
Proof using All.
  intros Hops Hs. destruct (write_all_spec ops new_encoder Hops) as (e & E & [Hc Hf] & Hw); [done|cbn; lia|].
  exists e. split; [done|]. split; [unfold free in Hf; lia|]. intros stream Hne Hst. apply parse_log_spec; try done. by rewrite Hst, Hw.
Qed.

(** C16: whatever instructions are written, with arguments of their types, the encoder never
    writes beyond the space that it reserved nor fails an assertion, as long as the log
    is shorter than 2^64 bytes; and from the log, cut into blocks in any way, the
    parser makes exactly the calls that were requested, with all of their arguments: a null string or binary comes back as a null, and
    a list that was set at once comes back entry by entry.  The number of rows is given with unique setters only, the parser has memory
    for the strings, and [set_double] is called with [instr_Set]: it drops any other variant ([set_double_variant_lost]). *)
Theorem log_round_trip (ops : list log_op) :
  Forall wf_op ops → Forall writable ops → ops_space ops + chunk_size chunk < W64 →
  ∃ e, write_all chunk new_encoder ops = Ok e ∧ Z.of_nat (length (written e)) <= capacity e ∧
    ∀ stream, Forall (λ b, b ≠ []) stream → concat stream = written e → parse_log stream = (concat (requested <$> ops), Ok tt).
Proof using All.
  intros Hops Hw Hs. destruct (log_parsed ops Hops Hs) as (e & E & Hc & Hp). exists e. split; [done|]. split; [done|].
  intros stream Hne Hst. rewrite (Hp stream Hne Hst). f_equal. f_equal. apply list_fmap_ext. intros i o Ho.
  apply requested_parsed. rewrite Forall_forall in Hw. apply Hw. by eapply list_elem_of_lookup_2.
Qed.
End log.

(** * A log, written and read

    An encoder of selections that keeps the laws, a concrete log through encoder and
    parser, and the setter whose variant is lost. *)

Import Encode Read Encoder Parser.

(** ** Selections, as the parser expects them *)

Definition flat_path (path : list (Z * Z)) : list Z := path ≫= λ p, [p.1; p.2].

#[export] Instance expected_select : SelectEncoder := λ s,
  match s with
  | select_table g path => [a_instr instr_SelectTable; size_t (Z.of_nat (length path)); size_t g; a_numbers (flat_path path)]
  | select_descriptor path => [a_instr instr_SelectDescriptor; size_t (Z.of_nat (length path)); a_numbers path]
  | select_link_list col row target => [a_instr instr_SelectLinkList; size_t col; size_t row; size_t target]
  end.

Lemma arg_levels n : 0 <= n <= m_max_levels → reads (C := call) (read_int t_int) (arg_bytes (size_t n)) [] n.
Proof.
  unfold m_max_levels. intros Hn. assert (in_type t_size n = true) as Hs by (apply fits_in_type; unfold fits; lia).
  pose proof (read_int_signed (C := call) t_size t_int wf_size wf_int n Hs (or_introl eq_refl)) as Hr.
  assert (in_type t_int n = true) as E; [|by rewrite E in Hr].
  apply in_type_iff. change (lim_min t_int) with (-2147483648). change (lim_max t_int) with 2147483647. lia.
Qed.

Lemma reads_columns path : Forall fits path → reads (read_columns (length path)) (arg_bytes (a_numbers path)) [] path.
Proof.
  induction 1 as [|c path Hc _ IH]; cbn [read_columns length]; [apply reads_ret|].
  cbn [arg_bytes fmap list_fmap concat]. eapply reads_step; [by apply reads_size|]. cbn beta.
  rewrite <- (app_nil_r (concat _)). eapply reads_step; [exact IH|]. apply reads_ret.
Qed.

Lemma reads_path path : Forall (λ p, fits p.1 ∧ fits p.2) path → reads (read_path (length path)) (arg_bytes (a_numbers (flat_path path))) [] path.
Proof.
  induction 1 as [|[c r] path [Hc Hr] _ IH]; cbn [read_path length]; [apply reads_ret|].
  change (flat_path ((c, r) :: path)) with ([c; r] ++ flat_path path). cbn [arg_bytes app fmap list_fmap concat].
  eapply reads_step; [by apply reads_size|]. cbn beta. eapply reads_step; [by apply reads_size|]. cbn beta.
  rewrite <- (app_nil_r (concat _)). eapply reads_step; [exact IH|]. apply reads_ret.
Qed.

Lemma levels_ok n : 0 <= n <= m_max_levels → reads (C := call) (error_if ((n <? 0) || (m_max_levels <? n))) [] [] tt.
Proof. intros Hn. apply reads_error_if. lia. Qed.

#[export] Instance expected_select_laws `{Memory} : SelectLaws.
Proof.
  split. intros [g path|path|col row target]; cbn [wf_selection select_args expected_select].
  - intros (Hg & Hp & Hl & Hm). apply parse_one_instr. cbn [parse_instr].
    eapply reads_arg; [apply arg_levels; lia|]. cbn beta. eapply reads_pure; [apply levels_ok; lia|]. cbn beta.
    eapply reads_pure; [apply reads_path_room; [lia|done]|]. cbn beta.
    eapply reads_arg; [by apply arg_size|]. cbn beta. rewrite Nat2Z.id. eapply reads_arg; [by apply reads_path|]. apply reads_emit.
  - intros (Hp & Hl & Hm). apply parse_one_instr. cbn [parse_instr].
    eapply reads_arg; [apply arg_levels; lia|]. cbn beta. eapply reads_pure; [apply levels_ok; lia|]. cbn beta.
    eapply reads_pure; [apply reads_path_room; [lia|done]|]. cbn beta.
    rewrite Nat2Z.id. eapply reads_arg; [by apply reads_columns|]. apply reads_emit.
  - intros (Hc & Hr & Ht). apply parse_one_instr. cbn [parse_instr]. reads_args.
Qed.

#[export] Instance expected_select_fits `{Memory} : SelectFits.
Proof.
  split. intros [g path|path|col row target]; cbn [wf_selection select_args expected_select].
  - intros (Hg & Hp & Hl & _). unfold m_max_levels in Hl. repeat apply Forall_cons_2; try apply Forall_nil_2; auto with wf_args.
    + apply wf_arg_size. unfold fits. lia.
    + cbn. unfold flat_path. apply Forall_bind. eapply Forall_impl; [exact Hp|]. intros p [? ?]. auto with wf_args.
  - intros (Hp & Hl & _). unfold m_max_levels in Hl. repeat apply Forall_cons_2; try apply Forall_nil_2; auto with wf_args.
    apply wf_arg_size. unfold fits. lia.
  - intros (Hc & Hr & Ht). auto 8 with wf_args.
Qed.

(** ** A log *)

#[local] Existing Instance one_gibibyte.

Lemma can_hold_some n : 0 <= n <= 1000 → can_hold n.
Proof. intros Hn. split; [lia|]. intros c Hc. apply Z.leb_le. change (2 ^ 30) with 1073741824. lia. Qed.
Lemma can_hold_path_some n : 0 <= n <= 1000 → can_hold_path n.
Proof. intros Hn c Hc. apply Z.leb_le. change (2 ^ 30) with 1073741824. lia. Qed.

Definition some_ops : list log_op := [
  log (select (select_table 7 [(1, 2)]));
  log (set_int 0 npos (-9223372036854775808) instr_SetUnique 5);
  log (set_string 1 3 (Some [104; 105]) instr_Set 0);
  log (set_string 1 4 None instr_SetDefault 0);
  log (set_link 2 3 npos 6 instr_Set);
  log (set_mixed 3 0 (mixed_timestamp (-1) (-500)) instr_SetDefault);
  log (select (select_link_list 4 5 6));
  link_list_set_all [3; 1; 200];
  log (insert_column 5 type_Bool [98] true)].

Definition some_calls : list call := [
  select (select_table 7 [(1, 2)]);
  set_int 0 npos (-9223372036854775808) instr_SetUnique 5;
  set_string 1 3 (Some [104; 105]) instr_Set 0;
  set_null 1 4 instr_SetDefault 0;
  set_link 2 3 npos 6 instr_Set;
  set_mixed 3 0 (mixed_timestamp (-1) (-500)) instr_SetDefault;
  select (select_link_list 4 5 6);
  link_list_set 0 3 3; link_list_set 1 1 3; link_list_set 2 200 3;
  insert_column 5 type_Bool [98] true].

Lemma some_ops_wf : Forall wf_op some_ops.
Proof.
  unfold some_ops. repeat (apply Forall_cons_2; [|]); [..|apply Forall_nil_2]; cbn; unfold wf_string, max_string_size, fits, m_max_levels, wf_timestamp; cbn;
    split_and?; first [done | lia | apply can_hold_some; lia | apply can_hold_path_some; lia | by intros [_ ?] | repeat constructor; cbn; lia].
Qed.

Lemma some_ops_writable : Forall writable some_ops.
Proof. unfold some_ops. repeat (apply Forall_cons_2; [cbn; tauto|]). apply Forall_nil_2. Qed.

Lemma some_ops_space : ops_space 2 some_ops + chunk_size 2 < W64.
Proof. by vm_compute. Qed.

Lemma concat_singletons (l : bytes) : concat ((λ b, [b]) <$> l) = l.
Proof. induction l as [|b l IH]; [done|]. cbn [fmap list_fmap concat app]. by f_equal. Qed.
Lemma singletons_nonempty (l : bytes) : Forall (λ b, b ≠ []) ((λ b, [b]) <$> l).
Proof. apply Forall_forall. by intros b (x & -> & _)%list_elem_of_fmap. Qed.

(** The log cut after every byte. *)
Lemma log_round_trip_witness :
  ∃ e, write_all 2 new_encoder some_ops = Ok e ∧ Z.of_nat (length (written e)) <= capacity e ∧
    parse_log ((λ b, [b]) <$> written e) = (some_calls, Ok tt).
Proof.
  destruct (log_round_trip 2 (Nat.lt_0_2) some_ops some_ops_wf some_ops_writable some_ops_space) as (e & E & Hc & Hp).
  exists e. split; [exact E|]. split; [exact Hc|]. apply Hp.
  - apply singletons_nonempty.
  - apply concat_singletons.
Defined.

(** [set_double] asserts its variant and then writes [instr_Set]: what was written as a
    default is replayed as an ordinary set, unlike with the other setters. *)
Theorem set_double_variant_lost :
  let through c := match write 8 new_encoder (log c) with Ok e => Some (parse_log [written e]) | _ => None end in
  through (set_double 0 0 [0; 0; 0; 0; 0; 0; 240; 63] instr_SetDefault) = Some ([set_double 0 0 [0; 0; 0; 0; 0; 0; 240; 63] instr_Set], Ok tt) ∧
  through (set_float 0 0 [0; 0; 128; 63] instr_SetDefault) = Some ([set_float 0 0 [0; 0; 128; 63] instr_SetDefault], Ok tt).
Proof. by vm_compute. Qed.

(** A log that is no log: an unknown instruction, a log that ends within an instruction, and
    a time stamp that fails the assertion of its constructor. *)
Example bad_logs :
  parse_log [[0]] = ([], Raise BadTransactLog) ∧
  parse_log [[15; 1]] = ([], Raise BadTransactLog) ∧
  parse_log [[6; 8; 0; 0; 1; 65]] = ([], Raise AssertionFailed).
Proof. by vm_compute. Qed.
