(* ===== verification/LogTermination.v ===== *)
(** * The parser ends on every input

    Whatever bytes a stream gives, the parser comes to its end: it returns, or it throws
    one of the exceptions that are listed. *)

From S2P Require Import Prelude SafeInt LogStream LogStreamTheorems LogParser.
Import Read Parser.

(** ** Parsers that do not get stuck

    [ends k m]: on a stream without empty blocks the parser is not stuck, and takes at
    least [k] bytes when it returns; it throws [BadAlloc] only when memory was refused. *)
Definition ends `{Memory} {C A} (k : nat) (m : parser C A) : Prop :=
  ∀ i, wf_input i →
    match m i with
    | (_, Ok (_, i')) => wf_input i' ∧ (length (content i') + k <= length (content i))%nat
    | (_, Raise e) => e = BadAlloc → ∃ n, allocates n = false
    | (_, Stuck) => False
    end.

Section ends.
Context {mem : Memory} {C : Type}.

Lemma ends_weaken {A} k k' (m : parser C A) : (k' <= k)%nat → ends k m → ends k' m.
Proof.
  intros Hk Hm i Hi. specialize (Hm i Hi). destruct (m i) as [cs [[a i']| |]]; [|done..]. destruct Hm. split; [done|lia].
Qed.

Lemma ends_ret {A} (a : A) : ends 0 (C := C) (mret a).
Proof. intros i Hi. split; [done|lia]. Qed.
Lemma ends_emit (c : C) : ends 0 (emit c).
Proof. intros i Hi. split; [done|lia]. Qed.
Lemma ends_throw {A} k e : e ≠ BadAlloc → ends k (throw (C := C) (A := A) e).
Proof. intros He i _. by intros ->. Qed.

Lemma ends_bind {A B} k (m : parser C A) (f : A → parser C B) : ends k m → (∀ a, ends 0 (f a)) → ends k (m ≫= f).
Proof.
  intros Hm Hf i Hi. specialize (Hm i Hi). unfold mbind, parser_bind. destruct (m i) as [cs [[a i']| |]]; [|done..].
  destruct Hm as [Hi' Hl]. specialize (Hf a i' Hi'). destruct (f a i') as [cs' [[b i'']| |]]; [|done..]. destruct Hf. split; [done|lia].
Qed.

Lemma ends_0 {A} k (m : parser C A) : ends k m → ends 0 m.
Proof. apply ends_weaken. lia. Qed.

Lemma ends_char : ends 1 (C := C) read_char.
Proof.
  intros [[|c b] bs bufs] Hi; unfold read_char, content, wf_input in *; simpl in *.
  - destruct bs as [|[|c b] bs]; [done|by inversion Hi|]. simpl. inversion Hi. split; [done|lia].
  - split; [done|lia].
Qed.

Lemma read_blocks_ends bufs bs : ∀ size b, Forall (λ b : bytes, b ≠ []) bs →
  match read_blocks bufs size b bs with
  | Ok (_, i') => wf_input i' ∧ (length (content i') <= length (b ++ concat bs))%nat
  | Raise e => e ≠ BadAlloc
  | Stuck => False
  end.
Proof.
  induction bs as [|b' bs IH]; intros size b Hbs; simpl; destruct (size <=? Z.of_nat (length b)); try done.
  - split; [done|]. unfold content. simpl. rewrite !length_app, length_drop. lia.
  - split; [done|]. unfold content. simpl. rewrite !length_app, length_drop. lia.
  - apply Forall_cons in Hbs as [Hb' Hbs]. destruct b' as [|x b']; [done|]. specialize (IH (size - Z.of_nat (length b)) (x :: b') Hbs).
    unfold mbind, result_bind. destruct (read_blocks _ _ (x :: b') bs) as [[rest i']| |]; [|done..].
    destruct IH as [Hi' Hl]. split; [done|]. rewrite length_app. simpl in *. lia.
Qed.

Lemma ends_bytes n : ends 0 (C := C) (read_bytes n).
Proof.
  intros i Hi. unfold read_bytes. pose proof (read_blocks_ends (buffers i) (blocks i) n (block i) Hi) as Hr.
  destruct (read_blocks _ _ _ _) as [[a i']| |]; [|done..]. destruct Hr. split; [done|]. unfold content in *. lia.
Qed.

Lemma ends_read_loop t n : ∀ i value, ends (Nat.min n 1) (C := C) (read_loop t n i value).
Proof.
  induction n as [|n IH]; intros i value; cbn [read_loop]; [apply ends_ret|].
  apply (ends_weaken 1); [lia|]. apply ends_bind; [apply ends_char|]. intros part. destruct (Z.land part 128 =? 0).
  - destruct (SafeInt.shift_left _ _ _); [apply ends_ret|by apply ends_throw].
  - destruct n as [|n]; [by apply ends_throw|]. eapply ends_weaken; [|apply IH]. lia.
Qed.

Lemma ends_read_int t : 0 < digits t → ends 1 (C := C) (read_int t).
Proof.
  intros Hd. unfold read_int. apply ends_bind.
  - eapply ends_weaken; [|apply ends_read_loop]. assert (1 <= (digits t + 1 + 6) / 7) by (apply Z.div_le_lower_bound; lia). lia.
  - intros [value part]. destruct (negb _); [|apply ends_ret]. destruct (SafeInt.sub _ _ _ _); [apply ends_ret|by apply ends_throw].
Qed.
End ends.

Lemma ends_size `{Memory} : ends 1 read_size.
Proof. by apply ends_read_int. Qed.
Lemma ends_int64 `{Memory} : ends 1 read_int64.
Proof. by apply ends_read_int. Qed.
Lemma ends_int `{Memory} : ends 1 (C := call) (read_int t_int).
Proof. by apply ends_read_int. Qed.
Lemma ends_char_int `{Memory} : ends 1 (C := call) (read_int t_char).
Proof. by apply ends_read_int. Qed.
Lemma ends_parser_error `{Memory} {A} k : ends k (parser_error (A := A)).
Proof. by apply ends_throw. Qed.
Lemma ends_error_if `{Memory} b : ends 0 (error_if b).
Proof. destruct b; [by apply ends_throw|apply ends_ret]. Qed.

Lemma ends_size_0 `{Memory} : ends 0 read_size.
Proof. apply (ends_0 1), ends_size. Qed.
Lemma ends_int64_0 `{Memory} : ends 0 read_int64.
Proof. apply (ends_0 1), ends_int64. Qed.
Lemma ends_int_0 `{Memory} : ends 0 (C := call) (read_int t_int).
Proof. apply (ends_0 1), ends_int. Qed.
Lemma ends_char_int_0 `{Memory} : ends 0 (C := call) (read_int t_char).
Proof. apply (ends_0 1), ends_char_int. Qed.

Create HintDb ends_db.
#[export] Hint Resolve ends_ret ends_emit ends_throw ends_parser_error ends_error_if ends_bytes : ends_db.
#[export] Hint Resolve ends_size_0 ends_int64_0 ends_int_0 ends_char_int_0 : ends_db.

(** A parser made of others: go through its steps and its branches. *)
Ltac ends_tac :=
  repeat first
    [ solve [eauto with ends_db]
    | apply ends_throw; discriminate
    | match goal with |- ends 0 (_ ≫= _) => apply ends_bind; [|intros ?] end
    | match goal with |- context [match ?x with _ => _ end] => destruct x end ].

Lemma ends_bool `{Memory} : ends 0 read_bool.
Proof. unfold read_bool. ends_tac. Qed.
Lemma reserve_string_ends `{Memory} capacity size :
  match reserve_string capacity size with Ok _ => True | Raise e => e = BadAlloc → ∃ n, allocates n = false | Stuck => False end.
Proof.
  unfold reserve_string. destruct (negb _); [done|]. destruct (SafeInt.add _ _ _ _); [|done].
  cbv zeta. destruct (allocates _) eqn:E; [done|]. intros _. by eexists.
Qed.
Lemma ends_buffer `{Memory} size : ends 0 (read_buffer size).
Proof.
  intros i Hi. unfold read_buffer. destruct (_ <=? _); [by apply ends_bytes|]. pose proof (reserve_string_ends (buffers i).1 size) as Hr.
  destruct (reserve_string _ _) as [c|e|]; [|done..]. apply (ends_bytes size (MkInput (block i) (blocks i) (c, (buffers i).2)) Hi).
Qed.
Lemma ends_reserve_path `{Memory} n : ends 0 (reserve_path n).
Proof.
  intros i Hi. unfold reserve_path. destruct (_ <=? _); [split; [done|lia]|]. cbv zeta.
  destruct (allocates _) eqn:E; [split; [done|unfold content; simpl; lia]|]. intros _. by eexists.
Qed.
#[export] Hint Resolve ends_buffer ends_reserve_path : ends_db.

Lemma ends_string `{Memory} : ends 0 read_string.
Proof. unfold read_string. ends_tac. Qed.
Lemma ends_binary `{Memory} : ends 0 read_binary.
Proof. unfold read_binary. ends_tac. Qed.
Lemma ends_timestamp `{Memory} : ends 0 read_timestamp.
Proof. unfold read_timestamp. ends_tac. Qed.
Lemma ends_float `{Memory} : ends 0 read_float.
Proof. apply ends_bytes. Qed.
Lemma ends_double `{Memory} : ends 0 read_double.
Proof. apply ends_bytes. Qed.
#[export] Hint Resolve ends_bool ends_string ends_binary ends_timestamp ends_float ends_double : ends_db.

Lemma ends_mixed `{Memory} : ends 0 read_mixed.
Proof. unfold read_mixed. ends_tac. Qed.
#[export] Hint Resolve ends_mixed : ends_db.

Lemma ends_value `{Memory} instr type col row prior : ends 0 (parse_value instr type col row prior).
Proof. unfold parse_value. ends_tac. Qed.
#[export] Hint Resolve ends_value : ends_db.

Lemma ends_path `{Memory} n : ends 0 (read_path n).
Proof. induction n as [|n IH]; cbn [read_path]; ends_tac. Qed.
Lemma ends_columns `{Memory} n : ends 0 (read_columns n).
Proof. induction n as [|n IH]; cbn [read_columns]; ends_tac. Qed.

(** The loop over the links takes a byte in every turn, so that its fuel does not run out. *)
Lemma set_all_loop_ends `{Memory} fuel : ∀ i size inp, wf_input inp → (length (content inp) < fuel)%nat →
  match set_all_loop fuel i size inp with
  | (_, Ok (_, i')) => wf_input i' ∧ (length (content i') <= length (content inp))%nat
  | (_, Raise e) => e = BadAlloc → ∃ n, allocates n = false
  | (_, Stuck) => False
  end.
Proof.
  induction fuel as [|fuel IH]; intros i size inp Hi Hf; [lia|]. cbn [set_all_loop]. destruct (i <? size); [|done].
  pose proof (ends_size inp Hi) as Hr. unfold mbind at 1, parser_bind at 1. destruct (read_size inp) as [cs [[link inp']| |]]; [|done..].
  destruct Hr as [Hi' Hl]. unfold mbind, parser_bind. cbn. specialize (IH (i + 1) size inp' Hi').
  destruct (set_all_loop fuel (i + 1) size inp') as [cs' [[u inp'']| |]]; cbn; [|apply IH; lia|lia]. destruct IH; [lia|]. split; [done|lia].
Qed.

Lemma ends_set_all `{Memory} size : ends 0 (set_all size).
Proof.
  intros i Hi. unfold set_all. pose proof (set_all_loop_ends (S (length (content i))) 0 size i Hi) as Hl. unfold content in Hl at 3.
  destruct (set_all_loop _ 0 size i) as [cs [[u i']| |]]; [destruct Hl; [lia|]; split; [done|lia]|apply Hl; lia|lia].
Qed.
#[export] Hint Resolve ends_path ends_columns ends_set_all : ends_db.

Lemma ends_instr `{Memory} instr : ends 0 (parse_instr instr).
Proof. destruct instr; cbn [parse_instr]; unfold parse_set; ends_tac. Qed.

Lemma ends_parse_one `{Memory} : ends 1 parse_one.
Proof.
  unfold parse_one. apply ends_bind; [apply ends_char|]. intros c. destruct (instr_of c); [apply ends_instr|by apply ends_throw].
Qed.

(** ** The theorem *)

Lemma parse_loop_ends `{Memory} fuel : ∀ i, wf_input i → (length (content i) < fuel)%nat →
  match parse_loop fuel i with (_, Ok _) => True | (_, Raise e) => e = BadAlloc → ∃ n, allocates n = false | (_, Stuck) => False end.
Proof.
  induction fuel as [|fuel IH]; intros i Hi Hf; [lia|]. cbn [parse_loop].
  assert (ends 0 has_next) as Hn.
  { intros [[|x b] bs bufs] Hj; [|split; [done|lia]].
    destruct bs as [|[|x b] bs]; [split; [done|lia]|by inversion Hj|]. inversion Hj. split; [done|]. unfold content. simpl. lia. }
  specialize (Hn i Hi). unfold mbind at 1, parser_bind at 1. destruct (has_next i) as [cs1 [[more i1]| |]]; [|done..]. destruct Hn as [Hi1 Hl1].
  destruct more; [|done]. pose proof (ends_parse_one i1 Hi1) as Hr. unfold mbind, parser_bind. destruct (parse_one i1) as [cs2 [[u i2]| |]]; [|done..].
  destruct Hr as [Hi2 Hl2]. specialize (IH i2 Hi2 ltac:(lia)). by destruct (parse_loop fuel i2) as [cs3 [| |]].
Qed.

(** C17: on any bytes, cut into any blocks, with any memory, the parser ends: it makes some calls and then
    returns, throws [BadTransactLog], fails the assertion of a time stamp, or throws what its buffers throw, which are enlarged for a
    size that was read and not checked: [BufferSizeOverflow] or [std::bad_alloc], the latter only when the allocator refused; it
    neither reads beyond a block nor loops. *)
Theorem parse_log_ends `{Memory} (stream : list bytes) :
  Forall (λ b, b ≠ []) stream →
  ∃ cs, parse_log stream = (cs, Ok tt) ∨ parse_log stream = (cs, Raise BadTransactLog) ∨ parse_log stream = (cs, Raise AssertionFailed) ∨
    parse_log stream = (cs, Raise BufferSizeOverflow) ∨ (parse_log stream = (cs, Raise BadAlloc) ∧ ∃ n, allocates n = false).
Proof.
  intros Hs. unfold parse_log.
  pose proof (parse_loop_ends (S (length (concat stream))) (MkInput [] stream (0, 0)) Hs) as Hp.
  destruct (parse_loop _ _) as [cs r]. exists cs. unfold content in Hp. cbn [block blocks app] in Hp. specialize (Hp ltac:(lia)). destruct r as [[[] i]|e|]; [by left|right|done]. destruct e; auto 6.
Qed.

Section concrete.
#[local] Existing Instance one_gibibyte.

Lemma parse_log_ends_witness : ∃ cs, parse_log [[39; 200]; [1; 5; 77]] = (cs, Raise BadTransactLog).
Proof.
  destruct (parse_log_ends [[39; 200]; [1; 5; 77]]) as (cs & [E|[E|[E|[E|[E _]]]]]).
  - repeat constructor; done.
  - exfalso. by vm_compute in E.
  - by exists cs.
  - exfalso. by vm_compute in E.
  - exfalso. by vm_compute in E.
  - exfalso. by vm_compute in E.
Defined.

(** The size of a binary is not compared with what the log holds before the buffer is enlarged for it: a log of a few bytes makes the parser
    ask for any amount of memory. *)
Theorem binary_size_not_checked :
  parse_log [[6; 4; 0; 0; 255; 255; 255; 255; 255; 255; 255; 255; 255; 1]] = ([], Raise BufferSizeOverflow) ∧
  parse_log [[6; 4; 0; 0; 128; 128; 128; 128; 128; 1]] = ([], Raise BadAlloc) ∧
  parse_log [[6; 4; 0; 0; 5; 1]] = ([], Raise BadTransactLog).
Proof. by vm_compute. Qed.
End concrete.
