(* ===== verification/LogReverser.v ===== *)
(** * The reverser of a transaction log

    Model of [TransactReverser] and [ReversedNoCopyInputStream] of impl/transact_log.hpp:
    a handler of the parser that encodes the inverse of each instruction, and a stream that
    gives what it wrote with the instructions in the opposite order, so that a transaction
    can be rolled back. *)

From S2P Require Import Prelude SafeInt LogStream LogEncoder.
Import Encoder.

Module Reverser.
(** [Instr]: where an instruction begins and ends in the buffer *)
Record Instr := MkInstr { begin_ : Z; end_ : Z }.

Record reverser := MkReverser {
  m_encoder : encoder;
  m_instructions : list Instr;
  current_instr_start : Z;
  m_pending_ts_instr : Instr;
  m_pending_ds_instr : Instr;
  m_pending_lv_instr : Instr
}.

Definition no_instr : Instr := MkInstr 0 0.
Definition new_reverser : reverser := MkReverser new_encoder [] 0 no_instr no_instr no_instr.

Definition with_encoder (r : reverser) (e : encoder) : reverser :=
  MkReverser e (m_instructions r) (current_instr_start r) (m_pending_ts_instr r) (m_pending_ds_instr r) (m_pending_lv_instr r).
Definition with_ts (r : reverser) (i : Instr) : reverser :=
  MkReverser (m_encoder r) (m_instructions r) (current_instr_start r) i (m_pending_ds_instr r) (m_pending_lv_instr r).
Definition with_ds (r : reverser) (i : Instr) : reverser :=
  MkReverser (m_encoder r) (m_instructions r) (current_instr_start r) (m_pending_ts_instr r) i (m_pending_lv_instr r).
Definition with_lv (r : reverser) (i : Instr) : reverser :=
  MkReverser (m_encoder r) (m_instructions r) (current_instr_start r) (m_pending_ts_instr r) (m_pending_ds_instr r) i.

(** [transact_log_size] *)
Definition transact_log_size (r : reverser) : Z := Z.of_nat (length (written (m_encoder r))).

(** [get_inst] *)
Definition get_inst (r : reverser) : Instr * reverser :=
  let size := transact_log_size r in
  (MkInstr (current_instr_start r) size,
   MkReverser (m_encoder r) (m_instructions r) size (m_pending_ts_instr r) (m_pending_ds_instr r) (m_pending_lv_instr r)).

(** [append_instruction(instr)] *)
Definition push_instr (r : reverser) (i : Instr) : reverser :=
  MkReverser (m_encoder r) (m_instructions r ++ [i]) (current_instr_start r) (m_pending_ts_instr r) (m_pending_ds_instr r) (m_pending_lv_instr r).
(** [append_instruction()] *)
Definition append_instruction (r : reverser) : reverser := let '(i, r) := get_inst r in push_instr r i.

(** [sync_select], whose argument is one of the pending instructions: what is left of it *)
Definition sync_select (r : reverser) (pending : Instr) : reverser * Instr :=
  if negb (begin_ pending =? end_ pending) then (push_instr r pending, no_instr) else (r, pending).

Definition sync_linkview (r : reverser) : reverser :=
  let '(r, i) := sync_select r (m_pending_lv_instr r) in with_lv r i.
Definition sync_descriptor (r : reverser) : reverser :=
  let r := sync_linkview r in let '(r, i) := sync_select r (m_pending_ds_instr r) in with_ds r i.
Definition sync_table (r : reverser) : reverser :=
  let r := sync_descriptor r in let '(r, i) := sync_select r (m_pending_ts_instr r) in with_ts r i.

Section reverser.
Context `{SelectEncoder}.
Context (chunk : nat).

Definition encode (r : reverser) (c : call) : result write_error reverser :=
  e ← write chunk (m_encoder r) (log c); Ok (with_encoder r e).

(** A call of the encoder, and [append_instruction()] *)
Definition append (r : reverser) (c : call) : result write_error reverser :=
  r ← encode r c; Ok (append_instruction r).

(** The loop of [link_list_clear], from [i] down *)
Fixpoint clear_loop (i : nat) (r : reverser) (old_list_size : Z) : result write_error reverser :=
  match i with
  | O => Ok r
  | S k => r ← append r (link_list_insert (Z.of_nat i ⊖ 1) 0 (old_list_size ⊖ Z.of_nat i)); clear_loop k r old_list_size
  end.

(** The member functions; the negation of the least integer is undefined. *)
Definition handle (r : reverser) (c : call) : result write_error reverser :=
  match c with
  | select (select_table _ _ as s) =>
      r ← encode (sync_table r) (select s); let '(i, r) := get_inst r in Ok (with_ts r i)
  | select (select_descriptor _ as s) =>
      r ← encode (sync_descriptor r) (select s); let '(i, r) := get_inst r in Ok (with_ds r i)
  | select (select_link_list _ _ _ as s) =>
      r ← encode (sync_linkview r) (select s); let '(i, r) := get_inst r in Ok (with_lv r i)
  | insert_group_level_table table_ndx num_tables _ =>
      append (sync_table r) (erase_group_level_table table_ndx (num_tables ⊕ 1))
  | erase_group_level_table table_ndx num_tables =>
      append (sync_table r) (insert_group_level_table table_ndx (num_tables ⊖ 1) [])
  | rename_group_level_table _ _ => Ok (sync_table r)
  | optimize_table => Ok r
  | insert_empty_rows row n prior unordered => append r (erase_rows row n (prior ⊕ n) unordered)
  | add_row_with_key row prior _ _ => append r (erase_rows row 1 (prior ⊕ 1) true)
  | erase_rows row n prior unordered => append r (insert_empty_rows row n (prior ⊖ n) unordered)
  | swap_rows r1 r2 => append r (swap_rows r1 r2)
  | move_row from to => append r (move_row to from)
  | merge_rows row new_row =>
      r ← append r (merge_rows row row); append r (merge_rows new_row new_row)
  | set_int col row value variant prior => append r (set_int col row value variant prior)
  | add_int col row value =>
      if value =? lim_min t_int64 then Stuck else append r (add_int col row (- value))
  | set_bool col row value variant => append r (set_bool col row value variant)
  | set_float col row value variant => append r (set_float col row value variant)
  | set_double col row value variant => append r (set_double col row value variant)
  | set_string col row value variant prior => append r (set_string col row value variant prior)
  | set_binary col row value variant => append r (set_binary col row value variant)
  | set_olddatetime col row value variant => append r (set_olddatetime col row value variant)
  | set_timestamp col row s ns variant => append r (set_timestamp col row s ns variant)
  | set_table col row variant => append r (set_table col row variant)
  | set_mixed col row value variant => append r (set_mixed col row value variant)
  | set_null col row variant prior => append r (set_null col row variant prior)
  | set_link col row value target variant => append r (set_link col row value target variant)
  | insert_substring _ _ _ _ | erase_substring _ _ _ _ => Ok r
  | clear_table old_size => append r (insert_empty_rows 0 old_size 0 false)
  | add_search_index _ | remove_search_index _ | set_link_type _ _ => Ok r
  | insert_link_column col _ _ target backlink => append r (erase_link_column col target backlink)
  | erase_link_column col target backlink => append r (insert_link_column col type_Link [] target backlink)
  | insert_column col _ _ _ => append r (erase_column col)
  | erase_column col => append r (insert_column col type_Int [] false)
  | rename_column _ _ => Ok r
  | link_list_set ndx value prior => append r (link_list_set ndx value prior)
  | link_list_insert ndx _ prior => append r (link_list_erase ndx (prior ⊕ 1))
  | link_list_move from to => append r (link_list_move from to)
  | link_list_swap l1 l2 => append r (link_list_swap l1 l2)
  | link_list_erase ndx prior => append r (link_list_insert ndx 0 (prior ⊖ 1))
  | link_list_clear old_size => clear_loop (Z.to_nat old_size) r old_size
  | nullify_link col row target => append r (set_link col row 0 target instr_Set)
  | link_list_nullify ndx prior => append r (link_list_insert ndx 0 (prior ⊖ 1))
  end.

(** The whole log *)
Fixpoint handle_all (r : reverser) (cs : list call) : result write_error reverser :=
  match cs with [] => Ok r | c :: cs => r ← handle r c; handle_all r cs end.
End reverser.

(** [next_block] *)
Definition block_at (data : bytes) (i : Instr) : bytes :=
  take (Z.to_nat (end_ i - begin_ i)) (drop (Z.to_nat (begin_ i)) data).
Fixpoint next_blocks (data : bytes) (instr_order : list Instr) : list bytes :=
  match instr_order with
  | [] => []
  | i :: instrs => if begin_ i <? end_ i then block_at data i :: next_blocks data instrs else []
  end.

(** [ReversedNoCopyInputStream]: the blocks that it gives, from the last instruction *)
Definition reversed_stream (r : reverser) : list bytes :=
  let r := sync_table r in next_blocks (written (m_encoder r)) (rev (m_instructions r)).
End Reverser.
