(* ===== verification/LogReverserTheorems.v ===== *)
(** * The reversed log undoes the log

    The reversed log holds the inverse of every instruction, in the opposite order and
    under the selection of the instruction; and on a list or on the rows of a table the
    inverses bring every entry back to where it was, unless it was moved within a list. *)

From S2P Require Import Prelude SafeInt SafeIntTheorems LogStream LogStreamTheorems LogEncoder LogParser LogRoundTrip LogEncoderTheorems LogReverser.

Import Encoder Parser Reverser.

Lemma rev_fmap {A B} (f : A → B) l : f <$> rev l = rev (f <$> l).
Proof. induction l as [|a l IH]; [done|]. cbn [rev]. by rewrite fmap_app, IH. Qed.

Lemma Forall2_rev {A B} (R : A → B → Prop) l k : Forall2 R l k → Forall2 R (rev l) (rev k).
Proof. induction 1 as [|a b l k Hab _ IH]; [done|]. cbn [rev]. apply Forall2_app; [done|]. by apply Forall2_cons. Qed.

(** ** The inverse of a call

    In the order in which they are appended, the opposite of the order in which they are
    read back. *)
Definition cleared (n : Z) : list call :=
  (λ k, link_list_insert (Z.of_nat k) 0 (n ⊖ (Z.of_nat k + 1))) <$> rev (seq 0 (Z.to_nat n)).

Definition inverse (c : call) : list call :=
  match c with
  | select _ => []
  | insert_group_level_table t n _ => [erase_group_level_table t (n ⊕ 1)]
  | erase_group_level_table t n => [insert_group_level_table t (n ⊖ 1) []]
  | insert_empty_rows row n prior u => [erase_rows row n (prior ⊕ n) u]
  | add_row_with_key row prior _ _ => [erase_rows row 1 (prior ⊕ 1) true]
  | erase_rows row n prior u => [insert_empty_rows row n (prior ⊖ n) u]
  | swap_rows _ _ | set_int _ _ _ _ _ | set_bool _ _ _ _ | set_float _ _ _ _ | set_double _ _ _ _ | set_string _ _ _ _ _
  | set_binary _ _ _ _ | set_olddatetime _ _ _ _ | set_timestamp _ _ _ _ _ | set_table _ _ _ | set_mixed _ _ _ _
  | set_null _ _ _ _ | set_link _ _ _ _ _ | link_list_set _ _ _ | link_list_move _ _ | link_list_swap _ _ => [c]
  | move_row from to => [move_row to from]
  | merge_rows row new_row => [merge_rows row row; merge_rows new_row new_row]
  | add_int col row value => [add_int col row (- value)]
  | clear_table n => [insert_empty_rows 0 n 0 false]
  | insert_link_column col _ _ target backlink => [erase_link_column col target backlink]
  | erase_link_column col target backlink => [insert_link_column col type_Link [] target backlink]
  | insert_column col _ _ _ => [erase_column col]
  | erase_column col => [insert_column col type_Int [] false]
  | link_list_insert ndx _ prior => [link_list_erase ndx (prior ⊕ 1)]
  | link_list_erase ndx prior | link_list_nullify ndx prior => [link_list_insert ndx 0 (prior ⊖ 1)]
  | link_list_clear n => cleared n
  | nullify_link col row target => [set_link col row 0 target instr_Set]
  | rename_group_level_table _ _ | optimize_table | insert_substring _ _ _ _ | erase_substring _ _ _ _ | rename_column _ _
  | add_search_index _ | remove_search_index _ | set_link_type _ _ => []
  end.

(** The inverses of a log, under the selections of their calls. *)
Definition inverses (p : option scope * call) : list (option scope * call) := pair p.1 <$> inverse p.2.

Lemma inverse_level c : Forall (λ c', is_select c' = false ∧ level_of c' = level_of c) (inverse c).
Proof.
  destruct c; cbn [inverse]; repeat constructor; try done.
  unfold cleared. apply Forall_fmap, Forall_true. by intros k.
Qed.

(** ** The inverses are instructions that can be written *)

(** The negation of the least integer overflows. *)
Definition reversible (c : call) : Prop := match c with add_int _ _ value => value ≠ lim_min t_int64 | _ => True end.

Lemma int64_neg z : int64 z → z ≠ lim_min t_int64 → int64 (- z).
Proof.
  unfold int64. rewrite !in_type_iff. change (lim_min t_int64) with (-9223372036854775808). change (lim_max t_int64) with 9223372036854775807. lia.
Qed.

Lemma wf_inverse `{Memory} c : wf_call c → reversible c → Forall wf_call (inverse c).
Proof.
  destruct c; cbn [wf_call reversible inverse]; intros Hwf Hr; destruct_and?; try apply Forall_nil_2; try (apply Forall_cons_2; [|apply Forall_nil_2]); cbn [wf_call];
    split_and?; try done; auto using wadd_fits, wsub_fits, fits_0, int64_neg; try (split; [by unfold max_string_size|split; [done|]; cbn; lia]).
  - repeat apply Forall_cons_2; [by split..|apply Forall_nil_2].
  - by intros [? ?].
  - unfold cleared. apply Forall_fmap, Forall_forall. intros k Hk. apply list_elem_of_In, in_rev, in_seq in Hk. cbn [compose wf_call].
    pose proof (wsub_fits old_list_size (Z.of_nat k + 1)). unfold fits in *. lia.
Qed.

(** A log that a parser has read is read in the same way again. *)
Lemma parsed_inverse c : parsed_call c = c → Forall (λ c', parsed_call c' = c') (inverse c).
Proof.
  destruct c; cbn [inverse]; intros Hp; repeat constructor; try done.
  apply Forall_fmap, Forall_true. by intros k.
Qed.

(** ** What the reverser does, on calls

    What is appended, and the selections that are pending, which are those of the log. *)
Definition put {A} (sel : A → selection) (pending : option A) (out : list call) : list call :=
  out ++ match pending with Some a => [select (sel a)] | None => [] end.

Definition sel_table (t : Z * list (Z * Z)) : selection := select_table t.1 t.2.
Definition sel_list (l : Z * Z * Z) : selection := select_link_list l.1.1 l.1.2 l.2.

Definition put_list (ctx : context) (out : list call) : list call := put sel_list (cur_list ctx) out.
Definition put_desc (ctx : context) (out : list call) : list call := put select_descriptor (cur_desc ctx) (put_list ctx out).
Definition put_table (ctx : context) (out : list call) : list call := put sel_table (cur_table ctx) (put_desc ctx out).

Definition step (ctx : context) (out : list call) (c : call) : context * list call :=
  match c with
  | select (select_table _ _ as s) => (enter ctx s, put_table ctx out)
  | select (select_descriptor _ as s) => (enter ctx s, put_desc ctx out)
  | select (select_link_list _ _ _ as s) => (enter ctx s, put_list ctx out)
  | c => if bool_decide (level_of c = on_group) then (nothing, put_table ctx out ++ inverse c) else (ctx, out ++ inverse c)
  end.

Fixpoint steps (ctx : context) (out : list call) (cs : list call) : context * list call :=
  match cs with [] => (ctx, out) | c :: cs => let '(ctx, out) := step ctx out c in steps ctx out cs end.

(** The reversed log *)
Definition reversed (cs : list call) : list call :=
  let '(ctx, out) := steps nothing [] cs in rev (put_table ctx out).

(** *** Selections agree with what was selected when the instruction was met *)
Definition agrees (pending ctx : context) : Prop :=
  (∀ t, cur_table pending = Some t → cur_table ctx = Some t) ∧
  (∀ d, cur_desc pending = Some d → cur_desc ctx = Some d) ∧
  (∀ l, cur_list pending = Some l → cur_list ctx = Some l).

Definition reverses (pending : context) (out : list call) (spec : list (option scope * call)) : Prop :=
  ∀ ctx, agrees pending ctx → scoped ctx (rev out) = rev spec.

Lemma agrees_scope pending ctx l s : agrees pending ctx → scope_at pending l = Some s → scope_at ctx l = Some s.
Proof.
  intros (Ht & Hd & Hl) Hs. destruct pending as [[t|] [d|] [ls|]], l; try done; cbn in *;
    rewrite ?(Ht _ eq_refl), ?(Hd _ eq_refl), ?(Hl _ eq_refl); done.
Qed.

Lemma reverses_list ctx out spec : reverses ctx out spec → reverses (MkContext (cur_table ctx) (cur_desc ctx) None) (put_list ctx out) spec.
Proof.
  intros Hr ctx' (Ht & Hd & _). unfold put_list, put. destruct ctx as [ts ds [[[col row] target]|]]; cbn [cur_list]; [|rewrite app_nil_r; by apply Hr].
  rewrite rev_app_distr. cbn [rev app scoped sel_list]. apply Hr. split_and!; [done|done|]. intros l [= <-]. done.
Qed.

Lemma reverses_desc ctx out spec : reverses ctx out spec → reverses (MkContext (cur_table ctx) None None) (put_desc ctx out) spec.
Proof.
  intros Hr. apply reverses_list in Hr. intros ctx' (Ht & _). unfold put_desc, put. destruct ctx as [ts [d|] ls]; cbn [cur_desc] in *; [|rewrite app_nil_r; by apply Hr].
  rewrite rev_app_distr. cbn [rev app scoped]. apply Hr. split_and!; [done| |done]. intros d' [= <-]. done.
Qed.

Lemma reverses_table ctx out spec : reverses ctx out spec → reverses nothing (put_table ctx out) spec.
Proof.
  intros Hr. apply reverses_desc in Hr. intros ctx' _. unfold put_table, put. destruct ctx as [[[g path]|] ds ls]; cbn [cur_table] in *; [|rewrite app_nil_r; by apply Hr].
  rewrite rev_app_distr. cbn [rev app scoped sel_table]. apply Hr. split_and!; [|done|done]. intros t [= <-]. done.
Qed.

Lemma agrees_weaken pending pending' ctx :
  agrees pending ctx → (∀ t, cur_table pending' = Some t → cur_table pending = Some t) →
  (∀ d, cur_desc pending' = Some d → cur_desc pending = Some d) → (∀ l, cur_list pending' = Some l → cur_list pending = Some l) → agrees pending' ctx.
Proof. unfold agrees. naive_solver. Qed.

(** The inverses of a call come before everything else. *)
Lemma reverses_call ctx out spec c :
  is_select c = false → level_of c ≠ on_group → is_Some (scope_at ctx (level_of c)) →
  reverses ctx out spec → reverses ctx (out ++ inverse c) (spec ++ inverses (scope_at ctx (level_of c), c)).
Proof.
  intros Hs Hl [sc Hsc] Hr ctx' Ha. rewrite !rev_app_distr, scoped_app.
  assert (Forall (λ c', is_select c' = false ∧ level_of c' = level_of c) (rev (inverse c))) as Hf by (apply Forall_rev, inverse_level).
  destruct (scoped_level ctx' (level_of c) _ Hl Hf) as [-> ->]. rewrite (Hr ctx' Ha). f_equal.
  unfold inverses. cbn [fst snd]. rewrite (agrees_scope _ _ _ _ Ha Hsc), Hsc. by rewrite rev_fmap.
Qed.

Lemma group_inverse c : level_of c = on_group → inverse c = [] ∨ ∃ c', inverse c = [c'] ∧ is_select c' = false ∧ level_of c' = on_group.
Proof. destruct c; try done; cbn; intros _; [right|right|by left]; by eexists. Qed.

Lemma reverses_group out spec c :
  level_of c = on_group → reverses nothing out spec → reverses nothing (out ++ inverse c) (spec ++ inverses (Some the_group, c)).
Proof.
  intros Hl Hr ctx Ha. unfold inverses. cbn [fst snd]. destruct (group_inverse c Hl) as [-> | (c' & -> & Hs & Hl')].
  - rewrite !app_nil_r. by apply Hr.
  - rewrite !rev_app_distr. cbn [rev app fmap list_fmap]. rewrite scoped_cons by done. rewrite Hl'. cbn [scope_at]. f_equal.
    rewrite next_context_group by done. apply Hr. by split_and!.
Qed.

Lemma steps_reverse cs : ∀ ctx out spec,
  well_selected ctx cs → reverses ctx out spec →
  let '(ctx', out') := steps ctx out cs in reverses ctx' out' (spec ++ (scoped ctx cs ≫= inverses)).
Proof.
  induction cs as [|c cs IH]; intros ctx out spec Hw Hr; cbn [steps]; [by rewrite app_nil_r|].
  destruct (is_select c) eqn:Hs.
  - destruct c as [s| | | | | | | | | | | | | | | | | | | | | | | | | | | | | | | | | | | | | | | | | |]; try done.
    assert (∀ out', reverses (enter ctx s) out' spec → let '(ctx', out') := steps (enter ctx s) out' cs in reverses ctx' out' (spec ++ (scoped (enter ctx s) cs ≫= inverses))) as H.
    { intros out' Hr'. by apply IH. }
    destruct s as [g path|path|col row target]; cbn [step scoped enter] in *; apply H; intros ctx' Ha.
    + apply (reverses_table _ _ _ Hr). by split_and!.
    + apply (reverses_desc _ _ _ Hr). eapply agrees_weaken; [exact Ha|done..].
    + apply (reverses_list _ _ _ Hr). eapply agrees_weaken; [exact Ha|done..].
  - unfold well_selected in *. rewrite scoped_cons in * by done. apply Forall_cons in Hw as [Hsc Hw]. cbn [fst] in Hsc.
    assert (step ctx out c = if bool_decide (level_of c = on_group) then (nothing, put_table ctx out ++ inverse c) else (ctx, out ++ inverse c)) as E by (by destruct c).
    rewrite E. cbn [mbind list_bind]. rewrite app_assoc. case_bool_decide as Hl.
    + rewrite next_context_group in * by done. apply IH; [done|]. rewrite Hl. cbn [scope_at]. apply reverses_group; [done|]. by eapply reverses_table.
    + rewrite next_context_same in * by done. apply IH; [done|]. by apply reverses_call.
Qed.

Lemma reversed_scoped cs : well_selected nothing cs → scoped nothing (reversed cs) = rev (scoped nothing cs ≫= inverses).
Proof.
  intros Hw. unfold reversed. pose proof (steps_reverse cs nothing [] [] Hw) as Hr. destruct (steps nothing [] cs) as [ctx out].
  apply reverses_table in Hr; [|done]. by apply Hr.
Qed.

(** ** The reverser keeps the ranges of its instructions

    [instr_ok data i c]: the bytes of [data] in the range [i] are those of the call [c]. *)
Section reverser.
Context {mem : Memory} {select_encoder : SelectEncoder} {select_laws : SelectLaws}.

Abbreviation call_bytes c := (op_bytes (log c)).
Definition size (r : reverser) : Z := Z.of_nat (length (written (m_encoder r))).

Definition instr_ok (data : bytes) (i : Instr) (c : call) : Prop :=
  0 <= begin_ i < end_ i ∧ end_ i <= Z.of_nat (length data) ∧ block_at data i = call_bytes c.

Definition pending_ok {A} (data : bytes) (i : Instr) (sel : A → selection) (pending : option A) : Prop :=
  match pending with None => begin_ i = end_ i | Some a => instr_ok data i (select (sel a)) end.

Record represents (r : reverser) (ctx : context) (out : list call) : Prop := {
  rep_encoder : wf_encoder (m_encoder r);
  rep_start : current_instr_start r = size r;
  rep_instrs : Forall2 (instr_ok (written (m_encoder r))) (m_instructions r) out;
  rep_ts : pending_ok (written (m_encoder r)) (m_pending_ts_instr r) sel_table (cur_table ctx);
  rep_ds : pending_ok (written (m_encoder r)) (m_pending_ds_instr r) select_descriptor (cur_desc ctx);
  rep_lv : pending_ok (written (m_encoder r)) (m_pending_lv_instr r) sel_list (cur_list ctx)
}.

Lemma instr_ok_app data data' i c : instr_ok data i c → instr_ok (data ++ data') i c.
Proof.
  intros (Hb & He & Hd). split; [done|]. split; [rewrite length_app; lia|]. rewrite <- Hd. unfold block_at.
  rewrite drop_app_le by lia. rewrite take_app_le; [done|]. rewrite length_drop. lia.
Qed.

Lemma pending_ok_app {A} data data' i (sel : A → selection) pending : pending_ok data i sel pending → pending_ok (data ++ data') i sel pending.
Proof. destruct pending; [apply instr_ok_app|done]. Qed.

(** What is encoded is a new instruction. *)
Lemma instr_ok_new data c : wf_call c →
  instr_ok (data ++ call_bytes c) (MkInstr (Z.of_nat (length data)) (Z.of_nat (length (data ++ call_bytes c)))) c.
Proof.
  intros Hc. pose proof (op_bytes_nonempty (log c) Hc) as Hne. rewrite length_app.
  assert (0 < length (call_bytes c))%nat by (destruct (call_bytes c); [done|cbn [length]; lia]).
  split; [cbn [begin_ end_]; lia|]. split; [rewrite length_app; cbn [begin_ end_]; lia|]. unfold block_at. cbn [begin_ end_]. rewrite Nat2Z.id, drop_app_length.
  replace (Z.to_nat _) with (length (call_bytes c)) by lia. by rewrite take_ge.
Qed.

Lemma represents_push r ctx out i c :
  instr_ok (written (m_encoder r)) i c → represents r ctx out → represents (push_instr r i) ctx (out ++ [c]).
Proof. intros Hi [? ? Hf ? ? ?]. split; try done. cbn. apply Forall2_app; [done|]. by apply Forall2_cons. Qed.

Lemma represents_put r ctx out {A} (sel : A → selection) i pending :
  pending_ok (written (m_encoder r)) i sel pending → represents r ctx out →
  let '(r', i') := sync_select r i in represents r' ctx (put sel pending out) ∧ size r' = size r ∧ begin_ i' = end_ i' ∧
    m_pending_ts_instr r' = m_pending_ts_instr r ∧ m_pending_ds_instr r' = m_pending_ds_instr r ∧ m_pending_lv_instr r' = m_pending_lv_instr r.
Proof.
  intros Hp Hr. unfold sync_select, put. destruct pending as [a|]; cbn [pending_ok] in Hp.
  - pose proof Hp as (Hb & _). replace (begin_ i =? end_ i) with false by lia. cbn [negb]. split; [by apply represents_push|done].
  - rewrite Hp, Z.eqb_refl. cbn [negb]. rewrite app_nil_r. done.
Qed.

Lemma represents_lv r ctx out i : represents r ctx out → begin_ i = end_ i → represents (with_lv r i) (MkContext (cur_table ctx) (cur_desc ctx) None) out.
Proof. intros [] Hi. by split. Qed.
Lemma represents_ds r ctx out i : represents r ctx out → begin_ i = end_ i → represents (with_ds r i) (MkContext (cur_table ctx) None (cur_list ctx)) out.
Proof. intros [] Hi. by split. Qed.
Lemma represents_ts r ctx out i : represents r ctx out → begin_ i = end_ i → represents (with_ts r i) (MkContext None (cur_desc ctx) (cur_list ctx)) out.
Proof. intros [] Hi. by split. Qed.

Lemma sync_linkview_spec r ctx out : represents r ctx out →
  represents (sync_linkview r) (MkContext (cur_table ctx) (cur_desc ctx) None) (put_list ctx out) ∧ size (sync_linkview r) = size r.
Proof.
  intros Hr. unfold sync_linkview. pose proof (represents_put r ctx out sel_list _ _ (rep_lv _ _ _ Hr) Hr) as Hp.
  destruct (sync_select _ _) as [r' i']. destruct Hp as (Hr' & Hs & Hi & _). split; [by apply represents_lv|done].
Qed.

Lemma sync_descriptor_spec r ctx out : represents r ctx out →
  represents (sync_descriptor r) (MkContext (cur_table ctx) None None) (put_desc ctx out) ∧ size (sync_descriptor r) = size r.
Proof.
  intros Hr. unfold sync_descriptor. destruct (sync_linkview_spec r ctx out Hr) as [Hr1 Hs1].
  pose proof (represents_put _ _ _ select_descriptor _ _ (rep_ds _ _ _ Hr1) Hr1) as Hp.
  destruct (sync_select _ _) as [r' i']. destruct Hp as (Hr' & Hs & Hi & _). split; [by apply (represents_ds _ _ _ _ Hr')|]. by rewrite <- Hs1, <- Hs.
Qed.

Lemma sync_table_spec r ctx out : represents r ctx out →
  represents (sync_table r) nothing (put_table ctx out) ∧ size (sync_table r) = size r.
Proof.
  intros Hr. unfold sync_table. destruct (sync_descriptor_spec r ctx out Hr) as [Hr1 Hs1].
  pose proof (represents_put _ _ _ sel_table _ _ (rep_ts _ _ _ Hr1) Hr1) as Hp.
  destruct (sync_select _ _) as [r' i']. destruct Hp as (Hr' & Hs & Hi & _). split; [by apply (represents_ts _ _ _ _ Hr')|]. by rewrite <- Hs1, <- Hs.
Qed.

(** *** The stream *)

Lemma next_blocks_spec data instrs cs : Forall2 (instr_ok data) instrs cs →
  Forall (λ b, b ≠ []) (next_blocks data instrs) ∧ concat (next_blocks data instrs) = concat (op_bytes <$> (log <$> cs)).
Proof.
  induction 1 as [|i c instrs cs (Hb & He & Hd) _ [IH1 IH2]]; [done|]. cbn [next_blocks fmap list_fmap concat].
  replace (begin_ i <? end_ i) with true by lia. cbn [concat]. rewrite Hd, IH2. split; [|done].
  constructor; [|done]. rewrite <- Hd. intros E. apply (f_equal length) in E. unfold block_at in E. rewrite length_take, length_drop in E. cbn in E. lia.
Qed.

Lemma parsed_calls cs : Forall (λ c, parsed_call c = c) cs → concat (parsed <$> (log <$> cs)) = cs.
Proof. induction 1 as [|c cs Hc _ IH]; [done|]. cbn [fmap list_fmap concat parsed] in *. by rewrite Hc, IH. Qed.

Lemma new_represents : represents new_reverser nothing [].
Proof. by split. Qed.

(** ** Every call is handled as [step] says *)

Context {fits_laws : SelectFits}.
Context (chunk : nat) (Hchunk : (0 < chunk)%nat).

Definition calls_space (cs : list call) : Z := ops_space chunk (log <$> cs).

Lemma calls_space_app cs1 cs2 : calls_space (cs1 ++ cs2) = calls_space cs1 + calls_space cs2.
Proof using Type.
  unfold calls_space, ops_space. induction cs1 as [|c cs1 IH]; [done|]. cbn [app fmap list_fmap foldr] in *. rewrite IH. apply Z.add_assoc.
Qed.

Lemma calls_space_one c : calls_space [c] = op_space chunk (log c).
Proof using Type. unfold calls_space, ops_space. cbn [fmap list_fmap foldr]. apply Z.add_0_r. Qed.

Lemma calls_space_nonneg cs : 0 <= calls_space cs.
Proof using Hchunk. by apply ops_space_nonneg. Qed.

(** There is room for what is yet to be written. *)
Definition room (r : reverser) (cs : list call) : Prop := size r + calls_space cs + chunk_size chunk < W64.

Lemma encode_spec r ctx out c : wf_call c → represents r ctx out → room r [c] →
  ∃ r', encode chunk r c = Ok r' ∧ size r' <= size r + calls_space [c] ∧ represents (get_inst r').2 ctx out ∧
    instr_ok (written (m_encoder r')) (get_inst r').1 c.
Proof using All.
  intros Hc Hr Hs. unfold room in Hs. rewrite calls_space_one in *. unfold encode.
  destruct (write_op chunk Hchunk (m_encoder r) (log c) Hc (rep_encoder _ _ _ Hr) Hs) as (e & E & He & Hw & Hl).
  unfold mbind, result_bind. rewrite E. eexists. split; [done|]. split; [unfold size; cbn [with_encoder m_encoder]; rewrite Hw, length_app; lia|].
  destruct Hr as [? Hst Hf Ht Hd Hv]. unfold get_inst, transact_log_size. cbn [fst snd with_encoder m_encoder current_instr_start]. split.
  - split; unfold size; cbn; rewrite ?Hw; try done; [|by apply pending_ok_app..]. eapply Forall2_impl; [exact Hf|]. intros i c'. apply instr_ok_app.
  - rewrite Hw, Hst. by apply instr_ok_new.
Qed.

Lemma append_represents r ctx out c : wf_call c → represents r ctx out → room r [c] →
  ∃ r', append chunk r c = Ok r' ∧ represents r' ctx (out ++ [c]) ∧ size r' <= size r + calls_space [c].
Proof using All.
  intros Hc Hr Hs. destruct (encode_spec r ctx out c Hc Hr Hs) as (r1 & E & Hl & Hr1 & Hi). unfold append, mbind, result_bind. rewrite E.
  eexists. split; [done|]. unfold append_instruction. destruct (get_inst r1) as [i r2] eqn:Eg. split; [|unfold get_inst in Eg; by simplify_eq/=].
  apply represents_push; [|done]. unfold get_inst in Eg. by simplify_eq/=.
Qed.

Fixpoint append_all (r : reverser) (cs : list call) : result write_error reverser :=
  match cs with [] => Ok r | c :: cs => r ← append chunk r c; append_all r cs end.

Lemma append_all_spec cs : ∀ r ctx out, Forall wf_call cs → represents r ctx out → room r cs →
  ∃ r', append_all r cs = Ok r' ∧ represents r' ctx (out ++ cs) ∧ size r' <= size r + calls_space cs.
Proof using All.
  induction cs as [|c cs IH]; intros r ctx out Hcs Hr Hs; cbn [append_all].
  - exists r. rewrite app_nil_r. split; [done|]. split; [done|]. pose proof (calls_space_nonneg []). lia.
  - apply Forall_cons in Hcs as [Hc Hcs]. unfold room in *. pose proof (calls_space_app [c] cs) as Ha. cbn [app] in Ha. rewrite Ha in *. clear Ha. pose proof (calls_space_nonneg cs).
    destruct (append_represents r ctx out c Hc Hr) as (r1 & E1 & Hr1 & Hl1); [unfold room; lia|]. unfold mbind, result_bind. rewrite E1.
    destruct (IH r1 ctx (out ++ [c]) Hcs Hr1) as (r2 & E2 & Hr2 & Hl2); [lia|]. exists r2. rewrite <- app_assoc in Hr2. split_and!; [done|done|lia].
Qed.

Lemma append_all_one r c : append_all r [c] = append chunk r c.
Proof using Type. cbn [append_all]. unfold mbind, result_bind. by destruct (append chunk r c). Qed.

Lemma clear_loop_appends n i : ∀ r, Z.of_nat i < W64 →
  clear_loop chunk i r n = append_all r ((λ k, link_list_insert (Z.of_nat k) 0 (n ⊖ (Z.of_nat k + 1))) <$> rev (seq 0 i)).
Proof using All.
  induction i as [|i IH]; intros r Hi; [done|]. rewrite seq_S, rev_app_distr. cbn [rev app fmap list_fmap append_all clear_loop].
  rewrite Nat.add_0_l, wsub_small by lia. replace (Z.of_nat (S i) - 1) with (Z.of_nat i) by lia. replace (Z.of_nat i + 1) with (Z.of_nat (S i)) by lia.
  unfold mbind, result_bind. destruct (append chunk r _) as [r'| |]; [|done..]. apply IH. lia.
Qed.

(** A call that is no selection appends its inverse. *)
Lemma handle_call r c : is_select c = false → wf_call c → Forall wf_call (inverse c) →
  handle chunk r c = append_all (if bool_decide (level_of c = on_group) then sync_table r else r) (inverse c).
Proof using All.
  intros Hs Hwf Hi. destruct c; try done; rewrite ?bool_decide_false by done; rewrite ?bool_decide_true by done; cbn [inverse handle]; rewrite ?append_all_one; try done.
  - cbn [append_all]. unfold mbind, result_bind. destruct (append chunk r _) as [r'| |]; [|done..]. by destruct (append chunk r' _).
  - cbn [inverse] in Hi. apply Forall_singleton in Hi as (_ & _ & Hv). replace (value =? _) with false; [done|].
    symmetry. apply Z.eqb_neq. intros ->. by vm_compute in Hv.
  - cbn [wf_call] in Hwf. rewrite clear_loop_appends; [done|]. unfold fits in Hwf. lia.
Qed.

(** What the reverser writes for a call. *)
Definition emitted (c : call) : list call := match c with select s => [select s] | c => inverse c end.

Lemma handle_spec r ctx out c : wf_call c → Forall wf_call (emitted c) → represents r ctx out → room r (emitted c) →
  ∃ r', handle chunk r c = Ok r' ∧ represents r' (step ctx out c).1 (step ctx out c).2 ∧ size r' <= size r + calls_space (emitted c).
Proof using All.
  intros Hwf He Hr Hs. destruct (is_select c) eqn:Es.
  - destruct c as [s| | | | | | | | | | | | | | | | | | | | | | | | | | | | | | | | | | | | | | | | | |]; try done. cbn [emitted] in *.
    assert (∀ r1 ctx1 out1, represents r1 ctx1 out1 → size r1 = size r →
      ∃ r2, encode chunk r1 (select s) = Ok r2 ∧ size r2 <= size r + calls_space [select s] ∧ represents (get_inst r2).2 ctx1 out1 ∧
        instr_ok (written (m_encoder r2)) (get_inst r2).1 (select s)) as Henc.
    { intros r1 ctx1 out1 Hr1 Hs1. unfold room in Hs. rewrite <- Hs1 in *. by apply encode_spec. }
    destruct s as [g path|path|col row target]; cbn [handle step fst snd].
    + destruct (sync_table_spec r ctx out Hr) as [Hr1 Hs1]. destruct (Henc _ _ _ Hr1 Hs1) as (r2 & E & Hl & Hr2 & Hi).
      unfold mbind, result_bind. rewrite E. eexists. split; [done|]. cbn [get_inst fst snd] in *. split; [|exact Hl].
      destruct Hr2 as [? ? ? ? ? ?]. by split.
    + destruct (sync_descriptor_spec r ctx out Hr) as [Hr1 Hs1]. destruct (Henc _ _ _ Hr1 Hs1) as (r2 & E & Hl & Hr2 & Hi).
      unfold mbind, result_bind. rewrite E. eexists. split; [done|]. cbn [get_inst fst snd] in *. split; [|exact Hl].
      destruct Hr2 as [? ? ? ? ? ?]. by split.
    + destruct (sync_linkview_spec r ctx out Hr) as [Hr1 Hs1]. destruct (Henc _ _ _ Hr1 Hs1) as (r2 & E & Hl & Hr2 & Hi).
      unfold mbind, result_bind. rewrite E. eexists. split; [done|]. cbn [get_inst fst snd] in *. split; [|exact Hl].
      destruct Hr2 as [? ? ? ? ? ?]. by split.
  - assert (emitted c = inverse c) as Ee by (by destruct c). rewrite Ee in *. rewrite handle_call by done.
    assert (step ctx out c = if bool_decide (level_of c = on_group) then (nothing, put_table ctx out ++ inverse c) else (ctx, out ++ inverse c)) as -> by (by destruct c).
    case_bool_decide; cbn [fst snd]; [|by apply append_all_spec]. destruct (sync_table_spec r ctx out Hr) as [Hr1 Hs1].
    rewrite <- Hs1. apply append_all_spec; try done. unfold room in *. by rewrite Hs1.
Qed.

Lemma handle_all_spec cs : ∀ r ctx out,
  Forall wf_call cs → Forall wf_call (cs ≫= emitted) → represents r ctx out → room r (cs ≫= emitted) →
  ∃ r', handle_all chunk r cs = Ok r' ∧ represents r' (steps ctx out cs).1 (steps ctx out cs).2.
Proof using All.
  induction cs as [|c cs IH]; intros r ctx out Hcs He Hr Hs; cbn [handle_all steps]; [by exists r|].
  apply Forall_cons in Hcs as [Hc Hcs]. cbn [mbind list_bind] in *. apply Forall_app in He as [He1 He2].
  unfold room in *. rewrite calls_space_app in Hs. pose proof (calls_space_nonneg (cs ≫= emitted)). pose proof (calls_space_nonneg (emitted c)).
  destruct (handle_spec r ctx out c Hc He1 Hr) as (r1 & E1 & Hr1 & Hl1); [unfold room; unfold mbind in *; lia|].
  unfold mbind, result_bind. rewrite E1. destruct (step ctx out c) as [ctx1 out1]. apply IH; try done. cbn in *. unfold mbind in *. lia.
Qed.

(** ** Every call of the reversed log is one that was appended *)

Lemma put_app {A} (sel : A → selection) pending out : put sel pending out = out ++ put sel pending [].
Proof using Type. unfold put. by rewrite app_nil_l. Qed.

Lemma put_table_app ctx out : put_table ctx out = out ++ put_table ctx [].
Proof using Type.
  unfold put_table, put_desc, put_list. rewrite (put_app _ _ (put _ _ _)), (put_app _ _ (put sel_list _ out)), (put_app _ _ out).
  rewrite (put_app _ _ (put select_descriptor _ _)), (put_app select_descriptor _ (put sel_list _ _)). by rewrite !app_assoc.
Qed.

Lemma put_desc_app ctx out : put_desc ctx out = out ++ put_desc ctx [].
Proof using Type. unfold put_desc, put_list. rewrite (put_app _ _ (put _ _ _)), (put_app _ _ out), (put_app select_descriptor _ (put sel_list _ _)). by rewrite !app_assoc. Qed.

Lemma put_list_app ctx out : put_list ctx out = out ++ put_list ctx [].
Proof using Type. apply put_app. Qed.

Lemma put_table_split ctx : put_table ctx [] = put_desc ctx [] ++ put sel_table (cur_table ctx) [].
Proof using Type. apply put_app. Qed.
Lemma put_desc_split ctx : put_desc ctx [] = put_list ctx [] ++ put select_descriptor (cur_desc ctx) [].
Proof using Type. apply put_app. Qed.

Lemma step_forall (P : call → Prop) ctx out c :
  Forall P (emitted c) → Forall P out → Forall P (put_table ctx []) →
  Forall P (step ctx out c).2 ∧ Forall P (put_table (step ctx out c).1 []).
Proof using Type.
  intros Hc Ho Hx. destruct (is_select c) eqn:Es.
  - destruct c as [s| | | | | | | | | | | | | | | | | | | | | | | | | | | | | | | | | | | | | | | | | |]; try done. cbn [emitted] in Hc.
    pose proof Hx as Hx'. rewrite put_table_split, put_desc_split, !Forall_app in Hx'. destruct Hx' as [[Hl Hd] Ht].
    destruct s as [g path|path|col row target]; cbn [step fst snd enter].
    + rewrite put_table_app, Forall_app. split; [done|]. by rewrite put_table_split.
    + rewrite put_desc_app, put_desc_split, !Forall_app. split; [done|]. rewrite put_table_split, put_desc_split, !Forall_app. done.
    + rewrite put_list_app, !Forall_app. split; [done|]. rewrite put_table_split, put_desc_split, !Forall_app. done.
  - assert (emitted c = inverse c) as Ee by (by destruct c). rewrite Ee in Hc.
    assert (step ctx out c = if bool_decide (level_of c = on_group) then (nothing, put_table ctx out ++ inverse c) else (ctx, out ++ inverse c)) as -> by (by destruct c).
    case_bool_decide; cbn [fst snd]; [rewrite (put_table_app ctx out)|]; rewrite !Forall_app; [|done]. split; [done|]. by constructor.
Qed.

Lemma steps_forall (P : call → Prop) cs : ∀ ctx out,
  Forall P (cs ≫= emitted) → Forall P out → Forall P (put_table ctx []) →
  Forall P (steps ctx out cs).2 ∧ Forall P (put_table (steps ctx out cs).1 []).
Proof using Type.
  induction cs as [|c cs IH]; intros ctx out Hc Ho Hx; [done|]. cbn [mbind list_bind] in Hc. apply Forall_app in Hc as [Hc Hcs].
  cbn [steps]. destruct (step_forall P ctx out c Hc Ho Hx) as [H1 H2]. destruct (step ctx out c) as [ctx1 out1]. by apply IH.
Qed.

Lemma reversed_forall (P : call → Prop) cs : Forall P (cs ≫= emitted) → Forall P (reversed cs).
Proof using Type.
  intros Hc. unfold reversed. destruct (steps_forall P cs nothing [] Hc) as [H1 H2]; [by constructor..|].
  destruct (steps nothing [] cs) as [ctx out]. apply Forall_rev. rewrite put_table_app. by apply Forall_app.
Qed.

(** ** The stream holds the calls that were appended *)

Lemma emitted_forall (P : call → Prop) (Q : call → Prop) cs :
  (∀ s, P (select s) → Q (select s)) → (∀ c, P c → Forall Q (inverse c)) → Forall P cs → Forall Q (cs ≫= emitted).
Proof using Type.
  intros Hs Hi Hcs. apply Forall_bind. eapply Forall_impl; [exact Hcs|]. intros c Hc. change (Forall Q (emitted c)).
  destruct (is_select c) eqn:Es; [destruct c; try done; repeat constructor; by apply Hs|].
  assert (emitted c = inverse c) as -> by (by destruct c). by apply Hi.
Qed.

(** A log as a parser reads it, all of whose instructions can be reversed. *)
Definition wf_log (cs : list call) : Prop := Forall (λ c, wf_call c ∧ parsed_call c = c ∧ reversible c) cs.

Lemma reverser_reads cs : wf_log cs → calls_space (cs ≫= emitted) + chunk_size chunk < W64 →
  ∃ r, handle_all chunk new_reverser cs = Ok r ∧ parse_log (reversed_stream r) = (reversed cs, Ok tt).
Proof using All.
  intros Hcs Hs.
  assert (Forall wf_call cs) as Hwf by (eapply Forall_impl; [exact Hcs|naive_solver]).
  assert (Forall wf_call (cs ≫= emitted)) as Hem by (eapply emitted_forall; [| |exact Hcs]; [by intros s [? _]|intros c (? & _ & ?); by apply wf_inverse]).
  assert (Forall (λ c, parsed_call c = c) (cs ≫= emitted)) as Hpa by (eapply emitted_forall; [| |exact Hcs]; [done|intros c (_ & ? & _); by apply parsed_inverse]).
  destruct (handle_all_spec cs new_reverser nothing [] Hwf Hem new_represents) as (r & E & Hr); [exact Hs|]. exists r. split; [done|].
  pose proof (reversed_forall _ _ Hem) as Hem'. pose proof (reversed_forall _ _ Hpa) as Hpa'. unfold reversed in *.
  destruct (steps nothing [] cs) as [ctx out]. cbn [fst snd] in Hr. destruct (sync_table_spec r ctx out Hr) as [[_ _ Hf _ _ _] _].
  unfold reversed_stream. destruct (next_blocks_spec _ _ _ (Forall2_rev _ _ _ Hf)) as [Hne Hc].
  rewrite (parse_log_spec (log <$> rev (put_table ctx out))); [by rewrite parsed_calls|by apply Forall_fmap|done|done].
Qed.
End reverser.

(** * A reversed log puts every entry back

    Where the instructions on a list, or on the rows of a table, move its entries; and
    that reversing a log brings every entry that is left back to its old place. *)

Import Encoder Parser Reverser.

(** ** Where an entry goes *)

Definition after_insert (ndx n p : Z) : Z := if ndx <=? p then p + n else p.
Definition after_erase (ndx n p : Z) : option Z :=
  if p <? ndx then Some p else if p <? ndx + n then None else Some (p - n).
Definition after_move (from to p : Z) : Z :=
  if p =? from then to else if (from <? p) && (p <=? to) then p - 1 else if (to <=? p) && (p <? from) then p + 1 else p.
Definition after_swap (a b p : Z) : Z := if p =? a then b else if p =? b then a else p.

(** The place of the entry at [p] after a call; nothing if it is gone. *)
Definition place (c : call) (p : Z) : option Z :=
  match c with
  | insert_empty_rows ndx n _ _ => Some (after_insert ndx n p)
  | erase_rows ndx n _ _ => after_erase ndx n p
  | swap_rows a b | link_list_swap a b => Some (after_swap a b p)
  | move_row from to | link_list_move from to => Some (after_move from to p)
  | clear_table _ | link_list_clear _ => None
  | link_list_insert ndx _ _ => Some (after_insert ndx 1 p)
  | link_list_erase ndx _ | link_list_nullify ndx _ => after_erase ndx 1 p
  | _ => Some p
  end.
Definition places (cs : list call) (p : Z) : option Z := foldl (λ q c, q ≫= place c) (Some p) cs.

(** The calls that keep the order of the rows, and are reversed; [link_list_move] is not. *)
Definition ordered (c : call) : bool :=
  match c with
  | insert_empty_rows _ n _ unordered | erase_rows _ n _ unordered => (0 <=? n) && negb unordered
  | add_row_with_key _ _ _ _ | link_list_move _ _ => false
  | _ => true
  end.

(** ** One call *)

Lemma places_app cs1 cs2 p : places (cs1 ++ cs2) p = places cs1 p ≫= places cs2.
Proof.
  unfold places. rewrite foldl_app. destruct (foldl _ (Some p) cs1) as [q|]; [done|]. cbn [mbind option_bind].
  induction cs2 as [|c cs2 IH]; [done|]. exact IH.
Qed.

Lemma places_one c p : places [c] p = place c p.
Proof. done. Qed.

Lemma erase_insert ndx n p : 0 <= n → after_erase ndx n (after_insert ndx n p) = Some p.
Proof.
  intros Hn. unfold after_erase, after_insert. destruct (ndx <=? p) eqn:E1.
  - replace (p + n <? ndx) with false by lia. replace (p + n <? ndx + n) with false by lia. f_equal. lia.
  - by replace (p <? ndx) with true by lia.
Qed.

Lemma insert_erase ndx n p q : 0 <= n → after_erase ndx n p = Some q → after_insert ndx n q = p.
Proof.
  intros Hn. unfold after_erase, after_insert. destruct (p <? ndx) eqn:E1; [|destruct (p <? ndx + n) eqn:E2; [done|]]; intros [= <-].
  - by replace (ndx <=? p) with false by lia.
  - replace (ndx <=? p - n) with true by lia. lia.
Qed.

Lemma swap_swap a b p : after_swap a b (after_swap a b p) = p.
Proof. unfold after_swap. repeat case_match; lia. Qed.

Lemma move_move from to p : after_move to from (after_move from to p) = p.
Proof. unfold after_move. repeat case_match; lia. Qed.

Lemma place_inverse c p q : ordered c = true → place c p = Some q → places (rev (inverse c)) q = Some p.
Proof.
  destruct c; cbn [place ordered inverse rev app]; intros Ho Hp; simplify_eq; try done; rewrite ?places_one; cbn [place].
  - apply erase_insert. lia.
  - apply andb_true_iff in Ho as [Hn _]. f_equal. apply insert_erase; [lia|done].
  - f_equal. apply swap_swap.
  - f_equal. apply move_move.
  - by apply erase_insert.
  - f_equal. apply swap_swap.
  - f_equal. by apply (insert_erase _ 1).
  - f_equal. by apply (insert_erase _ 1).
Qed.

Lemma places_inverse cs : ∀ p q, Forall (λ c, ordered c = true) cs → places cs p = Some q → places (rev (cs ≫= inverse)) q = Some p.
Proof.
  induction cs as [|c cs IH]; intros p q Ho; [by intros [= ->]|]. apply Forall_cons in Ho as [Hc Hcs].
  change (c :: cs) with ([c] ++ cs) at 1. rewrite places_app, places_one. intros (r & Hr & Hq)%bind_Some.
  cbn [mbind list_bind]. rewrite rev_app_distr, places_app. rewrite (IH r q Hcs Hq). cbn [mbind option_bind]. by apply place_inverse.
Qed.

(** ** One table or one list in a log *)

Definition calls_at (s : scope) (l : list (option scope * call)) : list call := (filter (λ p, p.1 = Some s) l).*2.

Lemma calls_at_rev s l : calls_at s (rev l) = rev (calls_at s l).
Proof.
  unfold calls_at. rewrite <- rev_fmap. f_equal. induction l as [|x l IH]; [done|]. cbn [rev]. rewrite filter_app, IH, !filter_cons.
  case_decide; cbn [rev]; [done|]. by rewrite filter_nil, app_nil_r.
Qed.

Lemma calls_at_app s l k : calls_at s (l ++ k) = calls_at s l ++ calls_at s k.
Proof. unfold calls_at. by rewrite filter_app, fmap_app. Qed.

Lemma calls_at_pair s s' cs : calls_at s (pair s' <$> cs) = if decide (s' = Some s) then cs else [].
Proof.
  unfold calls_at. induction cs as [|c cs IH]; [by case_decide|]. rewrite fmap_cons, filter_cons. cbn [fst].
  case_decide; rewrite ?fmap_cons, IH; [|done]. done.
Qed.

Lemma calls_at_cons s s' c l : calls_at s ((s', c) :: l) = (if decide (s' = Some s) then [c] else []) ++ calls_at s l.
Proof. unfold calls_at. rewrite filter_cons. cbn [fst]. by case_decide. Qed.

Lemma calls_at_inverses s l : calls_at s (l ≫= inverses) = calls_at s l ≫= inverse.
Proof.
  induction l as [|[s' c] l IH]; [done|]. rewrite bind_cons, calls_at_app, IH, calls_at_cons, bind_app. f_equal.
  unfold inverses. cbn [fst snd]. rewrite calls_at_pair. case_decide; [|done]. by rewrite bind_cons, app_nil_r.
Qed.

Section places.
Context `{SelectLaws}.
Context {fits_laws : SelectFits}.
Context (chunk : nat) (Hchunk : (0 < chunk)%nat).

(** C20: an entry of a list, or a row of a table, that a log takes from [p] to [q] is
    taken from [q] to [p] by the reversed log, whatever the log does to it and to other
    tables and lists in between, as long as it has no [link_list_move] on the list and no
    unordered insertion or removal of rows; the parser has memory for the strings and paths of the log. *)
Theorem reversal_restores_places (cs : list call) (s : scope) (p q : Z) :
  wf_log cs → well_selected nothing cs → calls_space chunk (cs ≫= emitted) + chunk_size chunk < W64 →
  Forall (λ c, ordered c = true) (calls_at s (scoped nothing cs)) → places (calls_at s (scoped nothing cs)) p = Some q →
  ∃ r cs', handle_all chunk new_reverser cs = Ok r ∧ parse_log (reversed_stream r) = (cs', Ok tt) ∧
    places (calls_at s (scoped nothing cs')) q = Some p.
Proof using All.
  intros Hcs Hw Hs Ho Hp. destruct (reverser_reads chunk Hchunk cs Hcs Hs) as (r & E & Hr). exists r, (reversed cs). split_and!; [done..|].
  rewrite (reversed_scoped cs Hw), calls_at_rev, calls_at_inverses. by apply places_inverse.
Qed.
End places.

(** ** A log that is rolled back *)

#[local] Existing Instance one_gibibyte.

Definition a_log : list call := [
  select (select_table 3 []);
  insert_empty_rows 0 2 4 false;
  select (select_descriptor []); insert_column 1 type_Bool [98] false;
  select (select_link_list 0 1 2); link_list_insert 0 5 3; link_list_swap 0 2; link_list_erase 1 4;
  insert_group_level_table 1 7 [97];
  select (select_table 4 []); move_row 3 1;
  select (select_link_list 0 0 2); link_list_clear 2].

Lemma a_log_wf : wf_log a_log.
Proof.
  unfold a_log, wf_log. repeat (apply Forall_cons_2; [|]); [..|apply Forall_nil_2]; cbn; unfold wf_string, max_string_size, fits, m_max_levels; cbn;
    split_and?; first [done | lia | apply can_hold_some; lia | apply can_hold_path_some; lia | by intros [_ ?] | constructor].
Qed.

Lemma a_log_selected : well_selected nothing a_log.
Proof. unfold well_selected. cbn. repeat constructor; by eexists. Qed.

(** The entry at 1 of the list at 3: inserting takes it to 2, and the swap to 0. *)
Lemma restores_witness :
  ∃ r cs', handle_all 8 new_reverser a_log = Ok r ∧ parse_log (reversed_stream r) = (cs', Ok tt) ∧
    places (calls_at (the_list (3, []) (0, 1, 2)) (scoped nothing cs')) 0 = Some 1.
Proof.
  apply (reversal_restores_places 8 (Nat.lt_0_succ 7) a_log (the_list (3, []) (0, 1, 2)) 1 0 a_log_wf a_log_selected).
  - by vm_compute.
  - vm_compute. repeat constructor.
  - by vm_compute.
Defined.

(** The inverse of a move in a list is the same move, unlike that of a move of a row: the
    entry that went from 0 to 2 does not come back. *)
Example list_move_not_reversed :
  let cs := [select (select_table 3 []); select (select_link_list 0 1 2); link_list_move 0 2] in
  let list := the_list (3, []) (0, 1, 2) in
  reversed cs = [select (select_table 3 []); select (select_link_list 0 1 2); link_list_move 0 2] ∧
  places (calls_at list (scoped nothing cs)) 0 = Some 2 ∧ places (calls_at list (scoped nothing (reversed cs))) 2 = Some 1.
Proof. by vm_compute. Qed.

(** The insertions that undo a clear come in order, but their sizes go down instead of up. *)
Example clear_reversed_sizes :
  reversed [select (select_table 3 []); select (select_link_list 0 1 2); link_list_clear 3] =
    [select (select_table 3 []); select (select_link_list 0 1 2); link_list_insert 0 0 2; link_list_insert 1 0 1; link_list_insert 2 0 0].
Proof. by vm_compute. Qed.
