(* ===== verification/LogConvenient.v ===== *)
(** * The encoder that selects by itself

    Model of [TransactLogConvenientEncoder] of impl/transact_log.hpp: every operation on a
    table, a descriptor or a link list selects it first, unless it is remembered as
    selected, and then calls the encoder. *)

From S2P Require Import Prelude SafeInt LogStream.

Module Convenient.
Section convenient.
(** Tables, specs, descriptors and link lists are known by their addresses; what they hold
    when an operation comes, and what a selection writes, is up to the library. *)
Context {Table Spec Descriptor LinkView World : Type}.
Context `{!EqDecision Table, !EqDecision Spec, !EqDecision LinkView}.

Class Library := {
  get_spec : Descriptor → Spec;
  get_root_table : Descriptor → Table;
  table_size : World → Table → Z;
  list_size : World → LinkView → Z;
  get_column_link_target : World → Table → Z → Z;
  get_column_type : World → Descriptor → Z → DataType;
  is_root : World → Descriptor → bool;
  is_group_level : World → Table → bool;
  get_index_in_group : World → Table → Z;
  get_link_target_table : World → Table → Z → Table;
  find_backlink_column : World → Table → Z → Z → Z
}.

(** What was passed to [m_encoder], and the caches *)
Record conv := MkConv {
  m_encoder : list log_op;
  m_selected_table : option Table;
  m_selected_spec : option Spec;
  m_selected_link_list : option LinkView
}.

Definition emit_op (s : conv) (o : log_op) : conv :=
  MkConv (m_encoder s ++ [o]) (m_selected_table s) (m_selected_spec s) (m_selected_link_list s).
Definition with_spec (s : conv) (x : option Spec) : conv := MkConv (m_encoder s) (m_selected_table s) x (m_selected_link_list s).
Definition with_list (s : conv) (x : option LinkView) : conv := MkConv (m_encoder s) (m_selected_table s) (m_selected_spec s) x.
Definition with_table (s : conv) (x : option Table) : conv := MkConv (m_encoder s) x (m_selected_spec s) (m_selected_link_list s).

(** A way to select: the functions [do_select_table], [do_select_desc] and
    [do_select_link_list] of the library, or those below. *)
Class Selector := {
  sel_table : World → conv → Table → conv;
  sel_desc : World → conv → Descriptor → conv;
  sel_link_list : World → conv → LinkView → conv
}.

(** [unselect_all] *)
Definition unselect_all (s : conv) : conv := MkConv (m_encoder s) None None None.

Section cached.
Context `{Library} (do_select : Selector).

Definition select_table (w : World) (s : conv) (table : Table) : conv :=
  let s := if decide (m_selected_table s = Some table) then s else sel_table w s table in
  with_list (with_spec s None) None.

Definition select_desc (w : World) (s : conv) (desc : Descriptor) : conv :=
  let s := if decide (m_selected_spec s = Some (get_spec desc)) then s else sel_desc w s desc in
  with_list s None.

Definition select_link_list (w : World) (s : conv) (list : LinkView) : conv :=
  let s := if decide (m_selected_link_list s = Some list) then s else sel_link_list w s list in
  with_spec s None.

Definition cached : Selector := {| sel_table := select_table; sel_desc := select_desc; sel_link_list := select_link_list |}.
End cached.

(** ** The operations *)

Inductive request :=
  | r_insert_group_level_table (table_ndx num_tables : Z) (name : bytes)
  | r_erase_group_level_table (table_ndx num_tables : Z)
  | r_rename_group_level_table (table_ndx : Z) (new_name : bytes)
  | r_insert_column (desc : Descriptor) (col_ndx : Z) (type : DataType) (name : bytes) (link : option (Table * Z)) (nullable : bool)
  | r_erase_column (desc : Descriptor) (col_ndx : Z)
  | r_rename_column (desc : Descriptor) (col_ndx : Z) (name : bytes)
  | r_set_int (t : Table) (col_ndx ndx value : Z) (variant : Instruction)
  | r_add_int (t : Table) (col_ndx ndx value : Z)
  | r_set_bool (t : Table) (col_ndx ndx : Z) (value : bool) (variant : Instruction)
  | r_set_float (t : Table) (col_ndx ndx : Z) (value : bytes) (variant : Instruction)
  | r_set_double (t : Table) (col_ndx ndx : Z) (value : bytes) (variant : Instruction)
  | r_set_string (t : Table) (col_ndx ndx : Z) (value : option bytes) (variant : Instruction)
  | r_set_binary (t : Table) (col_ndx ndx : Z) (value : option bytes) (variant : Instruction)
  | r_set_olddatetime (t : Table) (col_ndx ndx value : Z) (variant : Instruction)
  | r_set_timestamp (t : Table) (col_ndx ndx seconds nanoseconds : Z) (variant : Instruction)
  | r_set_table (t : Table) (col_ndx ndx : Z) (variant : Instruction)
  | r_set_mixed (t : Table) (col_ndx ndx : Z) (value : Mixed) (variant : Instruction)
  | r_set_link (t : Table) (col_ndx ndx value : Z) (variant : Instruction)
  | r_set_null (t : Table) (col_ndx row_ndx : Z) (variant : Instruction)
  | r_set_link_list (l : LinkView) (values : list Z)
  | r_insert_substring (t : Table) (col_ndx row_ndx pos : Z) (value : bytes)
  | r_erase_substring (t : Table) (col_ndx row_ndx pos size : Z)
  | r_insert_empty_rows (t : Table) (row_ndx num_rows_to_insert prior_num_rows : Z)
  | r_add_row_with_key (t : Table) (row_ndx prior_num_rows key_col_ndx key : Z)
  | r_erase_rows (t : Table) (row_ndx num_rows_to_erase prior_num_rows : Z) (is_move_last_over : bool)
  | r_swap_rows (t : Table) (row_ndx_1 row_ndx_2 : Z)
  | r_move_row (t : Table) (from_ndx to_ndx : Z)
  | r_merge_rows (t : Table) (row_ndx new_row_ndx : Z)
  | r_add_search_index (desc : Descriptor) (col_ndx : Z)
  | r_remove_search_index (desc : Descriptor) (col_ndx : Z)
  | r_set_link_type (t : Table) (col_ndx : Z) (link_type : LinkType)
  | r_clear_table (t : Table) (prior_num_rows : Z)
  | r_optimize_table (t : Table)
  | r_link_list_set (l : LinkView) (link_ndx value : Z)
  | r_link_list_insert (l : LinkView) (link_ndx value : Z)
  | r_link_list_move (l : LinkView) (from_link_ndx to_link_ndx : Z)
  | r_link_list_swap (l : LinkView) (link_ndx_1 link_ndx_2 : Z)
  | r_link_list_erase (l : LinkView) (link_ndx : Z)
  | r_nullify_link (t : Table) (col_ndx ndx : Z)
  | r_link_list_nullify (l : LinkView) (link_ndx : Z).

Section perform.
Context `{Library} (selector : Selector) (w : World).

Definition on_group (s : conv) (c : call) : option conv := Some (emit_op (unselect_all s) (log c)).
Definition on_table (s : conv) (t : Table) (c : call) : option conv := Some (emit_op (sel_table w s t) (log c)).
Definition on_desc (s : conv) (d : Descriptor) (c : call) : option conv := Some (emit_op (sel_desc w s d) (log c)).
Definition on_list (s : conv) (l : LinkView) (o : log_op) : option conv := Some (emit_op (sel_link_list w s l) o).

(** [variant == instr_SetUnique ? t->size() : 0] *)
Definition unique_size (t : Table) (variant : Instruction) : Z := if bool_decide (variant = instr_SetUnique) then table_size w t else 0.

(** The backlink column of a link column of [origin_table] *)
Definition backlink_column (target origin_table : Table) (col_ndx : Z) : Z :=
  find_backlink_column w target (get_index_in_group w origin_table) col_ndx.

Definition insert_column (s : conv) (desc : Descriptor) (col_ndx : Z) (type : DataType) (name : bytes) (link : option (Table * Z)) (nullable : bool) : option conv :=
  match link with
  | Some (target_table, m_backlink_col_ndx) =>
      let origin_table := get_root_table desc in
      let backlink_col_ndx := backlink_column target_table origin_table col_ndx in
      REALM_ASSERT (is_group_level w origin_table) ;;
      REALM_ASSERT (backlink_col_ndx =? m_backlink_col_ndx) ;;
      on_desc s desc (insert_link_column col_ndx type name (get_index_in_group w target_table) backlink_col_ndx)
  | None => on_desc s desc (LogStream.insert_column col_ndx type name nullable)
  end.

Definition erase_column (s : conv) (desc : Descriptor) (col_ndx : Z) : option conv :=
  let type := get_column_type w desc col_ndx in
  if negb (is_link_type type) then on_desc s desc (LogStream.erase_column col_ndx) else
  let origin_table := get_root_table desc in
  let target_table := get_link_target_table w origin_table col_ndx in
  REALM_ASSERT (is_root w desc) ;;
  REALM_ASSERT (is_group_level w origin_table) ;;
  on_desc s desc (erase_link_column col_ndx (get_index_in_group w target_table) (backlink_column target_table origin_table col_ndx)).

Definition perform (s : conv) (r : request) : option conv :=
  match r with
  | r_insert_group_level_table t n name => on_group s (insert_group_level_table t n name)
  | r_erase_group_level_table t n => on_group s (erase_group_level_table t n)
  | r_rename_group_level_table t name => on_group s (rename_group_level_table t name)
  | r_insert_column d col type name link nullable => insert_column s d col type name link nullable
  | r_erase_column d col => erase_column s d col
  | r_rename_column d col name => on_desc s d (rename_column col name)
  | r_set_int t col ndx value variant => on_table s t (set_int col ndx value variant (unique_size t variant))
  | r_add_int t col ndx value => on_table s t (add_int col ndx value)
  | r_set_bool t col ndx value variant => on_table s t (set_bool col ndx value variant)
  | r_set_float t col ndx value variant => on_table s t (set_float col ndx value variant)
  | r_set_double t col ndx value variant => on_table s t (set_double col ndx value variant)
  | r_set_string t col ndx value variant => on_table s t (set_string col ndx value variant (unique_size t variant))
  | r_set_binary t col ndx value variant => on_table s t (set_binary col ndx value variant)
  | r_set_olddatetime t col ndx value variant => on_table s t (set_olddatetime col ndx value variant)
  | r_set_timestamp t col ndx sec ns variant => on_table s t (set_timestamp col ndx sec ns variant)
  | r_set_table t col ndx variant => on_table s t (set_table col ndx variant)
  | r_set_mixed t col ndx value variant => on_table s t (set_mixed col ndx value variant)
  | r_set_link t col ndx value variant => on_table s t (set_link col ndx value (get_column_link_target w t col) variant)
  | r_set_null t col row variant => on_table s t (set_null col row variant (unique_size t variant))
  | r_set_link_list l values => on_list s l (link_list_set_all values)
  | r_insert_substring t col row pos value =>
      if (0 <? length value)%nat then on_table s t (insert_substring col row pos value) else Some s
  | r_erase_substring t col row pos size =>
      if 0 <? size then on_table s t (erase_substring col row pos size) else Some s
  | r_insert_empty_rows t row n prior => on_table s t (insert_empty_rows row n prior false)
  | r_add_row_with_key t row prior col key => on_table s t (add_row_with_key row prior col key)
  | r_erase_rows t row n prior is_move_last_over => on_table s t (erase_rows row n prior is_move_last_over)
  | r_swap_rows t r1 r2 => REALM_ASSERT (r1 <? r2) ;; on_table s t (swap_rows r1 r2)
  | r_move_row t from to => REALM_ASSERT (negb (from =? to)) ;; on_table s t (move_row from to)
  | r_merge_rows t row new_row => on_table s t (merge_rows row new_row)
  | r_add_search_index d col => on_desc s d (add_search_index col)
  | r_remove_search_index d col => on_desc s d (remove_search_index col)
  | r_set_link_type t col type => on_table s t (set_link_type col type)
  | r_clear_table t prior => on_table s t (clear_table prior)
  | r_optimize_table t => on_table s t optimize_table
  | r_link_list_set l ndx value => on_list s l (log (link_list_set ndx value (list_size w l)))
  | r_link_list_insert l ndx value => on_list s l (log (link_list_insert ndx value (list_size w l ⊖ 1)))
  | r_link_list_move l from to => on_list s l (log (link_list_move from to))
  | r_link_list_swap l l1 l2 => on_list s l (log (link_list_swap l1 l2))
  | r_link_list_erase l ndx => on_list s l (log (link_list_erase ndx (list_size w l)))
  | r_nullify_link t col ndx => on_table s t (nullify_link col ndx (get_column_link_target w t col))
  | r_link_list_nullify l ndx => on_list s l (log (link_list_nullify ndx (list_size w l)))
  end.
End perform.

(** ** What happens to an encoder *)

Inductive event :=
  | requested (r : request)
  | reset_selection_caches
  | on_table_destroyed (t : Table)
  | on_spec_destroyed (x : Spec)
  | on_link_list_destroyed (l : LinkView).

Definition happens `{Library} (selector : Selector) (w : World) (s : conv) (e : event) : option conv :=
  match e with
  | requested r => perform selector w s r
  | reset_selection_caches => Some (unselect_all s)
  | on_table_destroyed t => Some (if decide (m_selected_table s = Some t) then with_table s None else s)
  | on_spec_destroyed x => Some (if decide (m_selected_spec s = Some x) then with_spec s None else s)
  | on_link_list_destroyed l => Some (if decide (m_selected_link_list s = Some l) then with_list s None else s)
  end.

(** A sequence of events, each in the state that the library is in *)
Fixpoint happen `{Library} (selector : Selector) (s : conv) (es : list (World * event)) : option conv :=
  match es with [] => Some s | (w, e) :: es => s ← happens selector w s e; happen selector s es end.

Definition new_conv : conv := MkConv [] None None None.
End convenient.
End Convenient.
