(* ===== verification/LogConvenientTheorems.v ===== *)
(** * The selection caches are never stale

    What the encoder that selects by itself writes is read as exactly the requested
    instructions, each on the table, descriptor or list that it was requested for,
    although most selections are left out and tables, descriptors and lists come to other
    places as the library changes. *)

From S2P Require Import Prelude SafeInt LogStream LogEncoder LogRoundTrip LogConvenient.

Import Convenient.

Section caches.
Context {Table Spec Descriptor LinkView World : Type}.
Context `{!EqDecision Table, !EqDecision Spec, !EqDecision LinkView}.
Context {library : Library (Table := Table) (Spec := Spec) (Descriptor := Descriptor) (LinkView := LinkView) (World := World)}.

Abbreviation conv := (conv (Table := Table) (Spec := Spec) (LinkView := LinkView)).
Abbreviation request := (request (Table := Table) (Descriptor := Descriptor) (LinkView := LinkView)).
Abbreviation event := (event (Table := Table) (Spec := Spec) (Descriptor := Descriptor) (LinkView := LinkView)).
Abbreviation Selector := (Selector (Table := Table) (Spec := Spec) (Descriptor := Descriptor) (LinkView := LinkView) (World := World)).

(** ** Where the library has what is selected *)
Class Places := {
  table_at : World → Table → Z * list (Z * Z);
  spec_at : World → Spec → (Z * list (Z * Z)) * list Z;
  list_at : World → LinkView → (Z * list (Z * Z)) * (Z * Z * Z)
}.
Context {places : Places}.

(** What a parser reads of the log so far, and what is then selected *)
Definition calls (s : conv) : list call := concat (parsed <$> m_encoder s).
Definition selected (s : conv) : context := context_after nothing (calls s).

(** Whatever is remembered as selected is selected in the log. *)
Definition valid (w : World) (s : conv) : Prop :=
  (∀ t, m_selected_table s = Some t → cur_table (selected s) = Some (table_at w t)) ∧
  (∀ x, m_selected_spec s = Some x → cur_table (selected s) = Some (spec_at w x).1 ∧ cur_desc (selected s) = Some (spec_at w x).2) ∧
  (∀ l, m_selected_link_list s = Some l → cur_table (selected s) = Some (list_at w l).1 ∧ cur_list (selected s) = Some (list_at w l).2).

Definition selects (s s' : conv) : Prop := ∃ sels, m_encoder s' = m_encoder s ++ ((λ x, log (select x)) <$> sels).

(** What is relied on of the functions that select, which are compiled into the
    library: they write selections, and remember what is then selected. *)
Class SelectorLaws (do_select : Selector) := {
  sel_table_law w s t : valid w s → selects s (sel_table w s t) ∧ valid w (sel_table w s t) ∧ m_selected_table (sel_table w s t) = Some t;
  sel_desc_law w s d : valid w s → selects s (sel_desc w s d) ∧ valid w (sel_desc w s d) ∧ m_selected_spec (sel_desc w s d) = Some (get_spec d);
  sel_list_law w s l : valid w s → selects s (sel_link_list w s l) ∧ valid w (sel_link_list w s l) ∧ m_selected_link_list (sel_link_list w s l) = Some l
}.

(** ** What a request is for *)

Inductive target := t_group | t_table (t : Table) | t_desc (d : Descriptor) | t_list (l : LinkView).

(** Nothing is done about an empty substring. *)
Definition target_of (r : request) : option target :=
  match r with
  | r_insert_group_level_table _ _ _ | r_erase_group_level_table _ _ | r_rename_group_level_table _ _ => Some t_group
  | r_insert_column d _ _ _ _ _ | r_erase_column d _ | r_rename_column d _ _ | r_add_search_index d _ | r_remove_search_index d _ => Some (t_desc d)
  | r_set_link_list l _ | r_link_list_set l _ _ | r_link_list_insert l _ _ | r_link_list_move l _ _ | r_link_list_swap l _ _
  | r_link_list_erase l _ | r_link_list_nullify l _ => Some (t_list l)
  | r_insert_substring t _ _ _ value => if (0 <? length value)%nat then Some (t_table t) else None
  | r_erase_substring t _ _ _ size => if 0 <? size then Some (t_table t) else None
  | r_set_int t _ _ _ _ | r_add_int t _ _ _ | r_set_bool t _ _ _ _ | r_set_float t _ _ _ _ | r_set_double t _ _ _ _
  | r_set_string t _ _ _ _ | r_set_binary t _ _ _ _ | r_set_olddatetime t _ _ _ _ | r_set_timestamp t _ _ _ _ _ | r_set_table t _ _ _
  | r_set_mixed t _ _ _ _ | r_set_link t _ _ _ _ | r_set_null t _ _ _ | r_insert_empty_rows t _ _ _ | r_add_row_with_key t _ _ _ _
  | r_erase_rows t _ _ _ _ | r_swap_rows t _ _ | r_move_row t _ _ | r_merge_rows t _ _ | r_set_link_type t _ _ | r_clear_table t _
  | r_optimize_table t | r_nullify_link t _ _ => Some (t_table t)
  end.

Definition target_scope (w : World) (x : target) : scope :=
  match x with
  | t_group => the_group
  | t_table t => the_table (table_at w t)
  | t_desc d => the_descriptor (spec_at w (get_spec d)).1 (spec_at w (get_spec d)).2
  | t_list l => the_list (list_at w l).1 (list_at w l).2
  end.

Definition target_level (x : target) : level :=
  match x with t_group => LogStream.on_group | t_table _ => LogStream.on_table | t_desc _ => LogStream.on_descriptor | t_list _ => LogStream.on_list end.

(** A selector that selects nothing, to see what a request writes *)
Definition no_select : Selector := {| sel_table _ s _ := s; sel_desc _ s _ := s; sel_link_list _ s _ := s |}.

(** The calls that a request stands for, on what it is for *)
Definition intended (p : World * event) : list (option scope * call) :=
  match p.2 with
  | requested r =>
      match target_of r, perform no_select p.1 new_conv r with
      | Some x, Some s => pair (Some (target_scope p.1 x)) <$> calls s
      | _, _ => []
      end
  | _ => []
  end.

(** No assertion fails. *)
Definition asserted (p : World * event) : Prop :=
  match p.2 with requested r => is_Some (perform no_select p.1 new_conv r) | _ => True end.

(** ** What stays at its place

    An instruction on a table may move everything but the table, one on a descriptor or a list
    everything but it and its table, and one on the group everything; what is destroyed
    may come back at another place, when its address is used again. *)
Definition same_place (w w' : World) (x : target) : Prop :=
  match x with
  | t_group => True
  | t_table t => table_at w' t = table_at w t
  | t_desc d => spec_at w' (get_spec d) = spec_at w (get_spec d) ∧
      ∀ t, table_at w t = (spec_at w (get_spec d)).1 → table_at w' t = table_at w t
  | t_list l => list_at w' l = list_at w l ∧ ∀ t, table_at w t = (list_at w l).1 → table_at w' t = table_at w t
  end.

Definition same_but (w w' : World) (t : option Table) (x : option Spec) (l : option LinkView) : Prop :=
  (∀ t', t ≠ Some t' → table_at w' t' = table_at w t') ∧ (∀ x', x ≠ Some x' → spec_at w' x' = spec_at w x') ∧
  (∀ l', l ≠ Some l' → list_at w' l' = list_at w l').

Definition preserved (w : World) (e : event) (w' : World) : Prop :=
  match e with
  | requested r => match target_of r with Some x => same_place w w' x | None => same_but w w' None None None end
  | reset_selection_caches => True
  | on_table_destroyed t => same_but w w' (Some t) None None
  | on_spec_destroyed x => same_but w w' None (Some x) None
  | on_link_list_destroyed l => same_but w w' None None (Some l)
  end.

Fixpoint plausible (es : list (World * event)) : Prop :=
  match es with
  | (w, e) :: es => match es with (w', _) :: _ => preserved w e w' | [] => True end ∧ plausible es
  | [] => True
  end.

(** ** Every request selects and writes one operation *)

Definition select_target (selector : Selector) (w : World) (s : conv) (x : target) : conv :=
  match x with
  | t_group => unselect_all s
  | t_table t => sel_table w s t
  | t_desc d => sel_desc w s d
  | t_list l => sel_link_list w s l
  end.

Definition of_level (l : level) (o : log_op) : Prop :=
  Forall (λ c, is_select c = false ∧ level_of c = l) (parsed o) ∧ (l = LogStream.on_group → ∃ c, parsed o = [c]).

Lemma perform_cases w r :
  match target_of r with
  | None => ∀ selector s, perform selector w s r = Some s
  | Some x => (∀ selector s, perform selector w s r = None) ∨
      ∃ o, of_level (target_level x) o ∧ ∀ selector s, perform selector w s r = Some (emit_op (select_target selector w s x) o)
  end.
Proof using Type.
  assert (∀ l c, is_select (parsed_call c) = false → level_of (parsed_call c) = l → of_level l (log c)) as Hl.
  { intros l c Hs Hc. split; [by apply Forall_cons_2|]. intros _. by eexists. }
  destruct r; cbn [target_of perform]; try (right; eexists; split; [|by intros]; by apply Hl).
  - destruct link as [[target backlink]|]; [|right; eexists; split; [|by intros]; by apply Hl]. unfold insert_column.
    destruct (is_group_level w (get_root_table desc)); [|by left]. destruct (_ =? backlink); [|by left].
    right. eexists. split; [|by intros]. by apply Hl.
  - unfold erase_column. destruct (negb _); [right; eexists; split; [|by intros]; by apply Hl|].
    destruct (is_root w desc); [|by left]. destruct (is_group_level w _); [|by left]. right. eexists. split; [|by intros]. by apply Hl.
  - right. eexists. split; [|by intros]. apply Hl; by destruct value.
  - right. eexists. split; [|by intros]. apply Hl; by destruct value.
  - right. eexists. split; [|by intros]. split; [|done]. cbn. apply Forall_lookup. intros i c (v & _ & ->)%list_lookup_imap_Some. done.
  - destruct (_ <? _)%nat; [|done]. right. eexists. split; [|by intros]. by apply Hl.
  - destruct (0 <? size); [|done]. right. eexists. split; [|by intros]. by apply Hl.
  - destruct (row_ndx_1 <? row_ndx_2); [|by left]. right. eexists. split; [|by intros]. by apply Hl.
  - destruct (negb _); [|by left]. right. eexists. split; [|by intros]. by apply Hl.
Qed.

(** ** A request selects what it is for *)

Section laws.
Context (do_select : Selector) {laws : SelectorLaws do_select}.

Lemma calls_selects s s' : selects s s' → ∃ sels, calls s' = calls s ++ (select <$> sels).
Proof using Type.
  intros [sels E]. exists sels. unfold calls. rewrite E, fmap_app, concat_app. f_equal. clear E.
  induction sels as [|x sels IH]; [done|]. cbn [fmap list_fmap concat] in *. by rewrite IH.
Qed.

Lemma scoped_selects sels : ∀ ctx, scoped ctx (select <$> sels) = [].
Proof using Type. induction sels as [|x sels IH]; intros ctx; [done|]. apply IH. Qed.

Lemma selects_refl s : selects s s.
Proof using Type. exists []. by rewrite app_nil_r. Qed.

(** Dropping what is remembered keeps the caches valid. *)
Lemma valid_drop w s s' : valid w s → m_encoder s' = m_encoder s →
  (m_selected_table s' = m_selected_table s ∨ m_selected_table s' = None) →
  (m_selected_spec s' = m_selected_spec s ∨ m_selected_spec s' = None) →
  (m_selected_link_list s' = m_selected_link_list s ∨ m_selected_link_list s' = None) → valid w s'.
Proof using Type.
  intros (Ht & Hx & Hl) He Et Ex El. unfold valid, selected, calls in *. rewrite He. split_and!.
  - intros t. destruct Et as [->| ->]; [apply Ht|done].
  - intros x. destruct Ex as [->| ->]; [apply Hx|done].
  - intros l. destruct El as [->| ->]; [apply Hl|done].
Qed.

(** What is remembered when the selection is done: the target, and no more than its table *)
Definition focused (w : World) (s : conv) (x : target) : Prop :=
  match x with
  | t_group => m_selected_table s = None ∧ m_selected_spec s = None ∧ m_selected_link_list s = None
  | t_table t => m_selected_table s = Some t ∧ m_selected_spec s = None ∧ m_selected_link_list s = None
  | t_desc d => m_selected_spec s = Some (get_spec d) ∧ m_selected_link_list s = None
  | t_list l => m_selected_link_list s = Some l ∧ m_selected_spec s = None
  end.

Lemma select_target_spec w s x : valid w s →
  let s' := select_target (cached do_select) w s x in
  selects s s' ∧ valid w s' ∧ focused w s' x ∧ scope_at (selected s') (target_level x) = Some (target_scope w x).
Proof using laws.
  intros Hv. destruct x as [|t|d|l]; cbn [select_target cached sel_table sel_desc sel_link_list target_level target_scope scope_at].
  - split; [exists []; by rewrite app_nil_r|]. split; [eapply valid_drop; [exact Hv|by cbn; auto..]|done].
  - unfold select_table. case_decide as Hd.
    + split; [exists []; by rewrite app_nil_r|]. split; [eapply valid_drop; [exact Hv|by cbn; auto..]|]. split; [done|].
      destruct Hv as (Ht & _). change (selected (with_list (with_spec s None) None)) with (selected s). by rewrite (Ht _ Hd).
    + destruct (sel_table_law w s t Hv) as (Hs & Hv' & E). split; [exact Hs|]. split; [eapply valid_drop; [exact Hv'|by cbn; auto..]|]. split; [done|].
      destruct Hv' as (Ht & _). change (selected (with_list (with_spec ?s' None) None)) with (selected s'). by rewrite (Ht _ E).
  - unfold select_desc. set (s1 := if decide _ then s else _).
    assert (selects s s1 ∧ valid w s1 ∧ m_selected_spec s1 = Some (get_spec d)) as (Hs & Hv' & E).
    { subst s1. case_decide; [by auto using selects_refl|by apply sel_desc_law]. }
    split; [exact Hs|]. split; [eapply valid_drop; [exact Hv'|by cbn; auto..]|]. split; [done|].
    destruct Hv' as (_ & Hx & _). change (selected (with_list s1 None)) with (selected s1). destruct (Hx _ E) as [-> ->]. done.
  - unfold select_link_list. set (s1 := if decide _ then s else _).
    assert (selects s s1 ∧ valid w s1 ∧ m_selected_link_list s1 = Some l) as (Hs & Hv' & E).
    { subst s1. case_decide; [by auto using selects_refl|by apply sel_list_law]. }
    split; [exact Hs|]. split; [eapply valid_drop; [exact Hv'|by cbn; auto..]|]. split; [done|].
    destruct Hv' as (_ & _ & Hl). change (selected (with_spec s1 None)) with (selected s1). destruct (Hl _ E) as [-> ->]. done.
Qed.

(** *** The instruction is then written *)

Lemma calls_emit s o : calls (emit_op s o) = calls s ++ parsed o.
Proof using Type. unfold calls. cbn [emit_op m_encoder]. rewrite fmap_app, concat_app. cbn [fmap list_fmap concat]. by rewrite app_nil_r. Qed.

Lemma context_after_app cs1 cs2 ctx : context_after ctx (cs1 ++ cs2) = context_after (context_after ctx cs1) cs2.
Proof using Type. apply fold_left_app. Qed.

(** Only an instruction on the group unselects anything. *)
Lemma scoped_op ctx l o : of_level l o →
  scoped ctx (parsed o) = pair (scope_at ctx l) <$> parsed o ∧
  (l ≠ LogStream.on_group → context_after ctx (parsed o) = ctx).
Proof using Type.
  intros [Ho Hg]. destruct (decide (l = LogStream.on_group)) as [->|Hl].
  - destruct (Hg eq_refl) as [c E]. rewrite E in *. apply Forall_singleton in Ho as [Hs Hc]. rewrite scoped_cons by done. by rewrite Hc.
  - destruct (scoped_level ctx l (parsed o) Hl Ho) as [-> ->]. done.
Qed.

(** The context of a log that has been extended *)
Lemma scoped_calls s s' o : selects s s' → scoped nothing (calls (emit_op s' o)) = scoped nothing (calls s) ++ scoped (selected s') (parsed o).
Proof using Type.
  intros Hs. destruct (calls_selects s s' Hs) as [sels E]. rewrite calls_emit, scoped_app. fold (selected s'). f_equal.
  by rewrite E, scoped_app, scoped_selects, app_nil_r.
Qed.

(** What is at its place in the next state of the library is still selected. *)
Lemma focused_valid w w' s s' x :
  focused w s x → valid w s → same_place w w' x → m_selected_table s' = m_selected_table s → m_selected_spec s' = m_selected_spec s →
  m_selected_link_list s' = m_selected_link_list s → (target_level x ≠ LogStream.on_group → selected s' = selected s) → valid w' s'.
Proof using Type.
  intros Hf (Ht & Hx & Hl) Hp Et Ex El Ec. destruct x as [|t|d|l]; cbn [focused same_place target_level] in *.
  - destruct Hf as (F1 & F2 & F3). unfold valid. rewrite Et, Ex, El, F1, F2, F3. done.
  - destruct Hf as (F1 & F2 & F3). unfold valid. rewrite Et, Ex, El, Ec, F1, F2, F3 by done. split_and!; [|done..].
    intros t' [= <-]. rewrite Hp. by apply Ht.
  - destruct Hf as (F1 & F2). destruct Hp as [Hp Hpt]. unfold valid. rewrite Et, Ex, El, Ec, F1, F2 by done. destruct (Hx _ F1) as [Hx1 Hx2]. split_and!.
    + intros t E. specialize (Ht _ E). rewrite Ht in Hx1. injection Hx1 as Hx1. by rewrite Ht, Hpt.
    + intros x [= <-]. by rewrite Hp.
    + done.
  - destruct Hf as (F1 & F2). destruct Hp as [Hp Hpt]. unfold valid. rewrite Et, Ex, El, Ec, F1, F2 by done. destruct (Hl _ F1) as [Hx1 Hx2]. split_and!.
    + intros t E. specialize (Ht _ E). rewrite Ht in Hx1. injection Hx1 as Hx1. by rewrite Ht, Hpt.
    + done.
    + intros l' [= <-]. by rewrite Hp.
Qed.

Lemma same_but_valid w w' s s' t x l :
  valid w s → same_but w w' t x l → m_encoder s' = m_encoder s →
  (∀ t', m_selected_table s' = Some t' → m_selected_table s = Some t' ∧ t ≠ Some t') →
  (∀ x', m_selected_spec s' = Some x' → m_selected_spec s = Some x' ∧ x ≠ Some x') →
  (∀ l', m_selected_link_list s' = Some l' → m_selected_link_list s = Some l' ∧ l ≠ Some l') → valid w' s'.
Proof using Type.
  intros (Ht & Hx & Hl) (St & Sx & Sl) He Et Ex El. unfold valid, selected, calls in *. rewrite He. split_and!.
  - intros t' (E & Hn)%Et. rewrite St by done. by apply Ht.
  - intros x' (E & Hn)%Ex. rewrite Sx by done. by apply Hx.
  - intros l' (E & Hn)%El. rewrite Sl by done. by apply Hl.
Qed.

(** ** One event *)
Lemma happens_spec w s e : valid w s → asserted (w, e) →
  ∃ s', happens (cached do_select) w s e = Some s' ∧ scoped nothing (calls s') = scoped nothing (calls s) ++ intended (w, e) ∧
    ∀ w', preserved w e w' → valid w' s'.
Proof using laws.
  intros Hv Ha. destruct e as [r| |t|x|l]; cbn [happens].
  - unfold asserted, intended in *. cbn [fst snd preserved] in *. pose proof (perform_cases w r) as Hp. destruct (target_of r) as [x|].
    + destruct Hp as [Hp|(o & Ho & Hp)]; [rewrite Hp in Ha; by destruct Ha|]. rewrite !Hp. eexists. split; [done|].
      destruct (select_target_spec w s x Hv) as (Hs & Hv' & Hf & Hsc). set (s1 := select_target _ w s x) in *.
      destruct (scoped_op (selected s1) _ o Ho) as [Eo Ec]. split.
      * rewrite (scoped_calls s s1 o Hs), Eo, Hsc, calls_emit. f_equal. assert (calls (select_target no_select w new_conv x) = []) as -> by (by destruct x). done.
      * intros w' Hpr. eapply focused_valid; try done. intros Hl. unfold selected. rewrite calls_emit, context_after_app. by apply Ec.
    + rewrite Hp. exists s. split; [done|]. rewrite app_nil_r. split; [done|]. intros w' Hpr. by eapply same_but_valid.
  - eexists. split; [done|]. unfold intended. cbn [snd]. rewrite app_nil_r. done.
  - eexists. split; [done|]. unfold intended. cbn [snd]. rewrite app_nil_r. split; [by case_decide|]. intros w' Hpr.
    eapply same_but_valid; [exact Hv|exact Hpr|by case_decide|..]; case_decide; cbn; naive_solver congruence.
  - eexists. split; [done|]. unfold intended. cbn [snd]. rewrite app_nil_r. split; [by case_decide|]. intros w' Hpr.
    eapply same_but_valid; [exact Hv|exact Hpr|by case_decide|..]; case_decide; cbn; naive_solver congruence.
  - eexists. split; [done|]. unfold intended. cbn [snd]. rewrite app_nil_r. split; [by case_decide|]. intros w' Hpr.
    eapply same_but_valid; [exact Hv|exact Hpr|by case_decide|..]; case_decide; cbn; naive_solver congruence.
Qed.

Lemma happen_spec es : ∀ s, match es with (w, _) :: _ => valid w s | [] => True end → plausible es → Forall asserted es →
  ∃ s', happen (cached do_select) s es = Some s' ∧ scoped nothing (calls s') = scoped nothing (calls s) ++ (es ≫= intended).
Proof using laws.
  induction es as [|[w e] es IH]; intros s Hv Hp Ha; cbn [happen]; [exists s; by rewrite app_nil_r|].
  apply Forall_cons in Ha as [Ha Has]. destruct Hp as [Hp Hps]. destruct (happens_spec w s e Hv Ha) as (s1 & E1 & Hs1 & Hv1). rewrite E1.
  destruct (IH s1) as (s2 & E2 & Hs2); [by destruct es as [|[w' e'] es]; [|apply Hv1]|done|done|].
  exists s2. split; [done|]. by rewrite Hs2, Hs1, bind_cons, app_assoc.
Qed.

(** C21: over any sequence of requests, of destructions of tables, descriptors and lists
    whose addresses may be used again, and of resets, a parser reads from the log the
    requested instructions, in order and nothing else, each on what it was requested for
    at the place where that is then; and the encoder stops only at a failed assertion. *)
Theorem caches_correct (es : list (World * event)) :
  plausible es → Forall asserted es →
  ∃ s, happen (cached do_select) new_conv es = Some s ∧ scoped nothing (calls s) = es ≫= intended.
Proof using laws.
  intros Hp Ha. destruct (happen_spec es new_conv) as (s & E & Hs); [by destruct es as [|[w e] es]|done|done|]. by exists s.
Qed.
End laws.
End caches.

(** * A library in which the encoder selects by itself

    Functions that select and keep the laws, and a concrete run in which a table is
    inserted before the one that is in use, and an address is used again. *)

Import Convenient.

(** The state of the library is the index of the first table; a descriptor and its spec
    are the root of a table, and a list is in column 0 of its table. *)
#[local] Instance some_library : Library (Table := Z) (Spec := Z) (Descriptor := Z) (LinkView := Z) (World := Z) := {|
  get_spec d := d; get_root_table d := d; table_size w t := 5; list_size w l := 3; get_column_link_target w t col := 1;
  get_column_type w d col := if col =? 0 then type_LinkList else type_Int; is_root w d := true; is_group_level w t := true;
  get_index_in_group w t := w + t; get_link_target_table w t col := 1; find_backlink_column w t origin col := 2
|}.

#[local] Instance some_places : Places (Table := Z) (Spec := Z) (LinkView := Z) (World := Z) := {|
  table_at w t := (w + t, []); spec_at w x := ((w + x, []), []); list_at w l := ((w + l, []), (0, 1, 1))
|}.

Abbreviation sconv := (conv (Table := Z) (Spec := Z) (LinkView := Z)).

Definition do_select_table (w : Z) (s : sconv) (t : Z) : sconv :=
  MkConv (m_encoder (emit_op s (log (select (LogStream.select_table (w + t) []))))) (Some t) None None.
Definition ensure_table (w : Z) (s : sconv) (t : Z) : sconv :=
  if decide (m_selected_table s = Some t) then s else do_select_table w s t.
Definition do_select_desc (w : Z) (s : sconv) (d : Z) : sconv :=
  let s := ensure_table w s d in
  MkConv (m_encoder (emit_op s (log (select (select_descriptor []))))) (m_selected_table s) (Some d) None.
Definition do_select_link_list (w : Z) (s : sconv) (l : Z) : sconv :=
  let s := ensure_table w s l in
  MkConv (m_encoder (emit_op s (log (select (LogStream.select_link_list 0 1 1))))) (m_selected_table s) None (Some l).

Definition some_select : Selector := {| sel_table := do_select_table; sel_desc := do_select_desc; sel_link_list := do_select_link_list |}.

Lemma selected_select (s s' : sconv) x : m_encoder s' = m_encoder (emit_op s (log (select x))) → selected s' = enter (selected s) x.
Proof.
  intros E. unfold selected. replace (calls s') with (calls (emit_op s (log (select x)))) by (unfold calls; by rewrite E).
  by rewrite calls_emit, context_after_app.
Qed.

Lemma selects_one (s s' : sconv) x : m_encoder s' = m_encoder (emit_op s (log (select x))) → selects s s'.
Proof. intros E. by exists [x]. Qed.

Lemma selects_trans (s s1 s2 : sconv) : selects s s1 → selects s1 s2 → selects s s2.
Proof. intros [x1 E1] [x2 E2]. exists (x1 ++ x2). by rewrite E2, E1, fmap_app, app_assoc. Qed.

Lemma ensure_table_spec w s t : valid w s →
  selects s (ensure_table w s t) ∧ m_selected_table (ensure_table w s t) = Some t ∧ cur_table (selected (ensure_table w s t)) = Some (w + t, []).
Proof.
  intros Hv. unfold ensure_table. case_decide as Hd.
  - split; [apply selects_refl|]. split; [done|]. destruct Hv as (Ht & _). by apply Ht.
  - split; [by eapply selects_one|]. split; [done|]. by rewrite (selected_select s _ (LogStream.select_table (w + t) [])).
Qed.

#[local] Instance some_laws : SelectorLaws some_select.
Proof.
  split.
  - intros w s t Hv. cbn [some_select sel_table]. split; [by eapply selects_one|]. split; [|done].
    unfold valid. rewrite (selected_select s _ (LogStream.select_table (w + t) [])) by done. split_and!; [|done..]. by intros t' [= <-].
  - intros w s d Hv. cbn [some_select sel_desc]. destruct (ensure_table_spec w s d Hv) as (Hs & Et & Ec).
    split; [eapply selects_trans; [exact Hs|by eapply selects_one]|]. split; [|done].
    unfold valid. rewrite (selected_select (ensure_table w s d) _ (select_descriptor [])) by done.
    cbn [enter do_select_desc m_selected_table m_selected_spec m_selected_link_list cur_table cur_desc]. rewrite Ec, Et. split_and!; [|..|done]; by intros x [= <-].
  - intros w s l Hv. cbn [some_select sel_link_list]. destruct (ensure_table_spec w s l Hv) as (Hs & Et & Ec).
    split; [eapply selects_trans; [exact Hs|by eapply selects_one]|]. split; [|done].
    unfold valid. rewrite (selected_select (ensure_table w s l) _ (LogStream.select_link_list 0 1 1)) by done.
    cbn [enter do_select_link_list m_selected_table m_selected_spec m_selected_link_list cur_table cur_list]. rewrite Ec, Et. split_and!; [|done|]; by intros x [= <-].
Qed.

(** A table is written to twice, inserted before, and written to again; a list is used
    twice; and the table's address is used for another one. *)
Definition some_events : list (Z * event (Table := Z) (Spec := Z) (Descriptor := Z) (LinkView := Z)) := [
  (0, requested (r_set_int 2 0 4 7 instr_SetUnique));
  (0, requested (r_set_bool 2 1 4 true instr_Set));
  (0, requested (r_link_list_insert 2 0 9));
  (0, requested (r_link_list_erase 2 1));
  (0, requested (r_erase_column 2 0));
  (0, requested (r_erase_column 2 1));
  (0, requested (r_insert_group_level_table 0 6 [97]));
  (1, requested (r_add_int 2 0 4 (-1)));
  (1, requested (r_erase_substring 2 3 0 0 0));
  (1, on_table_destroyed 2);
  (1, requested (r_move_row 2 3 1))].

Definition written_log : list call := [
  select (LogStream.select_table 2 []); set_int 0 4 7 instr_SetUnique 5; set_bool 1 4 true instr_Set;
  select (LogStream.select_link_list 0 1 1); link_list_insert 0 9 2; link_list_erase 1 3;
  select (select_descriptor []); erase_link_column 0 1 2; LogStream.erase_column 1;
  insert_group_level_table 0 6 [97];
  select (LogStream.select_table 3 []); add_int 0 4 (-1);
  select (LogStream.select_table 3 []); move_row 3 1].

Lemma some_events_plausible : plausible some_events.
Proof. cbn. unfold same_but. repeat split; try done; by intros. Qed.

Lemma caches_witness :
  (calls <$> happen (cached some_select) new_conv some_events = Some written_log) ∧
  scoped nothing written_log = some_events ≫= intended.
Proof.
  assert (Forall asserted some_events) as Ha by (repeat constructor; by eexists).
  destruct (caches_correct some_select some_events some_events_plausible Ha) as (s & E & Hs).
  assert (calls <$> happen (cached some_select) new_conv some_events = Some written_log) as Hl by (by vm_compute).
  split; [exact Hl|]. rewrite E in Hl. injection Hl as <-. exact Hs.
Defined.
