(* ===== verification/Utf8.v ===== *)
(** * Transcoding between UTF-8 and UTF-16

    Model of [Utf8x16] of util/utf8.hpp: both directions, which stop at invalid input or
    when the output buffer is full, and the functions that find the size of the buffer. *)

From S2P Require Import Prelude SafeInt SafeIntTheorems.

Module Utf8x16.
(** What one turn of a loop does: it takes some input and writes some output, or it stops,
    because there is no room or because the input is invalid. *)
Inductive turn := Took (n : nat) (out : list Z) | Full | Invalid.

(** A continuation byte *)
Definition continues (v : Z) : bool := Z.land v 0xC0 =? 0x80.

(** A turn of [to_utf16], with [room] units left in the output *)
Definition utf16_turn (inp : list Z) (room : nat) : turn :=
  match inp with
  | [] => Full
  | v1 :: more =>
      if (room =? 0)%nat then Full else
      if v1 <? 0x80 then Took 1 [v1] else
      if v1 <? 0xC0 then Invalid else
      if v1 <? 0xE0 then
        match more with
        | v2 :: _ =>
            if negb (continues v2) then Invalid else
            let v := Z.lor (Z.shiftl (Z.land v1 0x1F) 6) (Z.land v2 0x3F) in
            if v <? 0x80 then Invalid else Took 2 [v]
        | _ => Invalid
        end else
      if v1 <? 0xF0 then
        match more with
        | v2 :: v3 :: _ =>
            if negb (continues v2) || negb (continues v3) then Invalid else
            let v := Z.lor (Z.lor (Z.shiftl (Z.land v1 0x0F) 12) (Z.shiftl (Z.land v2 0x3F) 6)) (Z.land v3 0x3F) in
            if v <? 0x800 then Invalid else
            if (0xD800 <=? v) && (v <? 0xE000) then Invalid else Took 3 [v]
        | _ => Invalid
        end else
      if (room =? 1)%nat then Full else
      if v1 <? 0xF8 then
        match more with
        | v2 :: v3 :: v4 :: _ =>
            if negb (continues v2) || negb (continues v3) || negb (continues v4) then Invalid else
            let v := Z.lor (Z.lor (Z.lor (Z.shiftl (Z.land v1 0x07) 18) (Z.shiftl (Z.land v2 0x3F) 12)) (Z.shiftl (Z.land v3 0x3F) 6)) (Z.land v4 0x3F) in
            if v <? 0x10000 then Invalid else
            if 0x110000 <=? v then Invalid else
            let v := v - 0x10000 in
            Took 4 [0xD800 + v / 0x400; 0xDC00 + v mod 0x400]
        | _ => Invalid
        end
      else Invalid
  end.

(** A turn of [to_utf8] *)
Definition utf8_turn (inp : list Z) (room : nat) : turn :=
  match inp with
  | [] => Full
  | v1 :: more =>
      if v1 <? 0x80 then (if (room =? 0)%nat then Full else Took 1 [v1]) else
      if v1 <? 0x800 then (if (room <? 2)%nat then Full else Took 1 [0xC0 + v1 / 0x40; 0x80 + v1 mod 0x40]) else
      if (v1 <? 0xD800) || (0xE000 <=? v1) then
        (if (room <? 3)%nat then Full else Took 1 [0xE0 + v1 / 0x1000; 0x80 + v1 / 0x40 mod 0x40; 0x80 + v1 mod 0x40]) else
      if (room <? 4)%nat then Full else
      if 0xDC00 <=? v1 then Invalid else
      match more with
      | [] => Invalid
      | v2 :: _ =>
          if (v2 <? 0xDC00) || (0xE000 <=? v2) then Invalid else
          let v := 0x10000 + ((v1 - 0xD800) * 0x400 + (v2 - 0xDC00)) in
          Took 2 [0xF0 + v / 0x40000; 0x80 + v / 0x1000 mod 0x40; 0x80 + v / 0x40 mod 0x40; 0x80 + v mod 0x40]
      end
  end.

(** The loops: whether no input is invalid, the input that is left, and the output; every
    turn takes some input *)
Fixpoint transcode (a_turn : list Z → nat → turn) (fuel : nat) (inp : list Z) (room : nat) : option (bool * list Z * list Z) :=
  match inp with
  | [] => Some (true, [], [])
  | _ :: _ =>
      match fuel with
      | O => None
      | S fuel =>
          match a_turn inp room with
          | Full => Some (true, inp, [])
          | Invalid => Some (false, inp, [])
          | Took n out =>
              '(ok, rest, more) ← transcode a_turn fuel (drop n inp) (room - length out);
              Some (ok, rest, out ++ more)
          end
      end
  end.

Definition to_utf16 (inp : list Z) (room : nat) : option (bool * list Z * list Z) := transcode utf16_turn (length inp) inp room.
Definition to_utf8 (inp : list Z) (room : nat) : option (bool * list Z * list Z) := transcode utf8_turn (length inp) inp room.

(** ** The sizes *)

(** How many bytes a turn of [find_utf16_buf_size] takes, and the units they need *)
Definition utf16_size_turn (inp : list Z) : option (nat * Z) :=
  match inp with
  | [] => None
  | v1 :: _ =>
      let left := Z.of_nat (length inp) in
      if v1 <? 0x80 then Some (1%nat, 1) else
      if v1 <? 0xC0 then None else
      if v1 <? 0xE0 then (if left <? 2 then None else Some (2%nat, 1)) else
      if v1 <? 0xF0 then (if left <? 3 then None else Some (3%nat, 1)) else
      if v1 <? 0xF8 then (if left <? 4 then None else Some (4%nat, 2)) else None
  end.

(** The same for [find_utf8_buf_size], which also stops before the sum overflows *)
Definition utf8_size_turn (inp : list Z) : option (nat * Z) :=
  match inp with
  | [] => None
  | v :: more =>
      if v <? 0x80 then Some (1%nat, 1) else
      if v <? 0x800 then Some (1%nat, 2) else
      if (v <? 0xD800) || (0xE000 <=? v) then Some (1%nat, 3) else
      match more with [] => None | _ :: _ => Some (2%nat, 4) end
  end.

(** The loops, from [num_out]: the size, and the input that is left *)
Fixpoint find_utf16_loop (fuel : nat) (inp : list Z) (num_out : Z) : option (Z * list Z) :=
  match inp, fuel with
  | [], _ => Some (num_out, [])
  | _ :: _, O => None
  | _ :: _, S fuel =>
      match utf16_size_turn inp with
      | None => Some (num_out, inp)
      | Some (n, k) => find_utf16_loop fuel (drop n inp) (num_out ⊕ k)
      end
  end.

Fixpoint find_utf8_loop (fuel : nat) (inp : list Z) (num_out : Z) : option (Z * list Z) :=
  match inp, fuel with
  | [], _ => Some (num_out, [])
  | _ :: _, O => None
  | _ :: _, S fuel =>
      match utf8_size_turn inp with
      | None => Some (num_out, inp)
      | Some (n, k) =>
          match SafeInt.add t_size t_int num_out k with
          | None => Some (num_out, inp)
          | Some num_out => find_utf8_loop fuel (drop n inp) num_out
          end
      end
  end.

Definition find_utf16_buf_size (inp : list Z) : option (Z * list Z) := find_utf16_loop (length inp) inp 0.
Definition find_utf8_buf_size (inp : list Z) : option (Z * list Z) := find_utf8_loop (length inp) inp 0.
End Utf8x16.

(** * UTF-8 and UTF-16: the encodings of a code point

    What each turn of the transcoding loops and of the size loops does, in terms of the
    encodings of the code points of Unicode. *)

Import Utf8x16.

(** ** Code points and their encodings *)

Definition scalar (c : Z) : Prop := 0 <= c < 0xD800 ∨ 0xE000 <= c < 0x110000.

Definition enc8 (c : Z) : list Z :=
  if c <? 0x80 then [c] else
  if c <? 0x800 then [0xC0 + c / 0x40; 0x80 + c mod 0x40] else
  if c <? 0x10000 then [0xE0 + c / 0x1000; 0x80 + c / 0x40 mod 0x40; 0x80 + c mod 0x40] else
  [0xF0 + c / 0x40000; 0x80 + c / 0x1000 mod 0x40; 0x80 + c / 0x40 mod 0x40; 0x80 + c mod 0x40].

Definition enc16 (c : Z) : list Z :=
  if c <? 0x10000 then [c] else [0xD800 + (c - 0x10000) / 0x400; 0xDC00 + (c - 0x10000) mod 0x400].

(** Text in either encoding *)
Definition utf8 (cs : list Z) : list Z := concat (enc8 <$> cs).
Definition utf16 (cs : list Z) : list Z := concat (enc16 <$> cs).

Definition byte (b : Z) : Prop := 0 <= b < 0x100.
Definition unit16 (u : Z) : Prop := 0 <= u < 0x10000.

(** ** Bits of a byte *)

Lemma below_256 (P : Z → bool) : forallb P (Z.of_nat <$> seq 0 256) = true → ∀ b, byte b → P b = true.
Proof.
  intros H b Hb. rewrite forallb_forall in H. apply H. apply list_elem_of_In, list_elem_of_fmap. exists (Z.to_nat b).
  unfold byte in Hb. split; [lia|]. apply elem_of_seq. lia.
Qed.

Lemma continues_spec b : byte b → continues b = (0x80 <=? b) && (b <? 0xC0).
Proof. intros Hb. apply Bool.eqb_prop. revert b Hb. apply below_256. by vm_compute. Qed.

Lemma low_6 b : Z.land b 0x3F = b mod 0x40.
Proof. apply (Z.land_ones b 6). lia. Qed.
Lemma low_5 b : Z.land b 0x1F = b mod 0x20.
Proof. apply (Z.land_ones b 5). lia. Qed.
Lemma low_4 b : Z.land b 0x0F = b mod 0x10.
Proof. apply (Z.land_ones b 4). lia. Qed.
Lemma low_3 b : Z.land b 0x07 = b mod 0x08.
Proof. apply (Z.land_ones b 3). lia. Qed.

(** Bits that do not overlap are added. *)
Lemma lor_add a b n : 0 <= n → 0 <= b < 2 ^ n → a mod 2 ^ n = 0 → Z.lor a b = a + b.
Proof.
  intros Hn Hb Ha. rewrite <- Z.add_lor_land. assert (Z.land a b = 0) as ->; [|lia].
  apply Z.bits_inj'. intros i Hi. rewrite Z.land_spec, Z.bits_0. destruct (Z.lt_ge_cases i n) as [Hin|Hin].
  - apply Z.mod_divide in Ha; [|apply Z.pow_nonzero; lia]. destruct Ha as [k ->]. by rewrite Z.mul_pow2_bits_low.
  - replace b with (b mod 2 ^ n) by (by apply Z.mod_small). by rewrite Z.mod_pow2_bits_high, andb_false_r by lia.
Qed.

Ltac zdiv := Z.to_euclidean_division_equations; lia.

Lemma two_bytes v1 v2 : 0xC0 <= v1 < 0xE0 → 0x80 <= v2 < 0xC0 →
  Z.lor (Z.shiftl (Z.land v1 0x1F) 6) (Z.land v2 0x3F) = (v1 - 0xC0) * 0x40 + (v2 - 0x80).
Proof.
  intros H1 H2. rewrite low_5, low_6, Z.shiftl_mul_pow2 by lia. change (2 ^ 6) with 0x40.
  rewrite (lor_add _ _ 6); [zdiv|lia|change (2 ^ 6) with 0x40; zdiv|change (2 ^ 6) with 0x40; zdiv].
Qed.

Lemma three_bytes v1 v2 v3 : 0xE0 <= v1 < 0xF0 → 0x80 <= v2 < 0xC0 → 0x80 <= v3 < 0xC0 →
  Z.lor (Z.lor (Z.shiftl (Z.land v1 0x0F) 12) (Z.shiftl (Z.land v2 0x3F) 6)) (Z.land v3 0x3F) =
    (v1 - 0xE0) * 0x1000 + (v2 - 0x80) * 0x40 + (v3 - 0x80).
Proof.
  intros H1 H2 H3. rewrite low_4, !low_6, !Z.shiftl_mul_pow2 by lia. change (2 ^ 6) with 0x40. change (2 ^ 12) with 0x1000.
  assert (v1 mod 0x10 = v1 - 0xE0) as -> by zdiv. assert (v2 mod 0x40 = v2 - 0x80) as -> by zdiv. assert (v3 mod 0x40 = v3 - 0x80) as -> by zdiv.
  rewrite (lor_add _ ((v2 - 0x80) * 0x40) 12); [|lia|change (2 ^ 12) with 0x1000; lia|change (2 ^ 12) with 0x1000; zdiv].
  rewrite (lor_add _ (v3 - 0x80) 6); [lia|lia|change (2 ^ 6) with 0x40; lia|change (2 ^ 6) with 0x40; zdiv].
Qed.

Lemma four_bytes v1 v2 v3 v4 : 0xF0 <= v1 < 0xF8 → 0x80 <= v2 < 0xC0 → 0x80 <= v3 < 0xC0 → 0x80 <= v4 < 0xC0 →
  Z.lor (Z.lor (Z.lor (Z.shiftl (Z.land v1 0x07) 18) (Z.shiftl (Z.land v2 0x3F) 12)) (Z.shiftl (Z.land v3 0x3F) 6)) (Z.land v4 0x3F) =
    (v1 - 0xF0) * 0x40000 + (v2 - 0x80) * 0x1000 + (v3 - 0x80) * 0x40 + (v4 - 0x80).
Proof.
  intros H1 H2 H3 H4. rewrite low_3, !low_6, !Z.shiftl_mul_pow2 by lia. change (2 ^ 6) with 0x40. change (2 ^ 12) with 0x1000. change (2 ^ 18) with 0x40000.
  assert (v1 mod 0x08 = v1 - 0xF0) as -> by zdiv. assert (v2 mod 0x40 = v2 - 0x80) as -> by zdiv.
  assert (v3 mod 0x40 = v3 - 0x80) as -> by zdiv. assert (v4 mod 0x40 = v4 - 0x80) as -> by zdiv.
  rewrite (lor_add _ ((v2 - 0x80) * 0x1000) 18); [|lia|change (2 ^ 18) with 0x40000; lia|change (2 ^ 18) with 0x40000; zdiv].
  rewrite (lor_add _ ((v3 - 0x80) * 0x40) 12); [|lia|change (2 ^ 12) with 0x1000; lia|change (2 ^ 12) with 0x1000; zdiv].
  rewrite (lor_add _ (v4 - 0x80) 6); [lia|lia|change (2 ^ 6) with 0x40; lia|change (2 ^ 6) with 0x40; zdiv].
Qed.

(** ** A turn takes the encoding of a code point and writes the other one *)

Definition takes (encA encB : Z → list Z) (inp : list Z) (room n : nat) (out : list Z) : Prop :=
  ∃ c, scalar c ∧ inp = encA c ++ drop n inp ∧ n = length (encA c) ∧ out = encB c ∧ (length out <= room)%nat.

Lemma takes_intro encA encB c n rest inp room out :
  scalar c → inp = encA c ++ rest → n = length (encA c) → out = encB c → (length out <= room)%nat → takes encA encB inp room n out.
Proof. intros Hc -> -> -> Hr. exists c. by rewrite drop_app_length. Qed.

Lemma enc8_1 c : 0 <= c < 0x80 → enc8 c = [c].
Proof. intros Hc. unfold enc8. by replace (c <? 0x80) with true by lia. Qed.
Lemma enc8_2 c : 0x80 <= c < 0x800 → enc8 c = [0xC0 + c / 0x40; 0x80 + c mod 0x40].
Proof. intros Hc. unfold enc8. replace (c <? 0x80) with false by lia. by replace (c <? 0x800) with true by lia. Qed.
Lemma enc8_3 c : 0x800 <= c < 0x10000 → enc8 c = [0xE0 + c / 0x1000; 0x80 + c / 0x40 mod 0x40; 0x80 + c mod 0x40].
Proof.
  intros Hc. unfold enc8. replace (c <? 0x80) with false by lia. replace (c <? 0x800) with false by lia. by replace (c <? 0x10000) with true by lia.
Qed.
Lemma enc8_4 c : 0x10000 <= c → enc8 c = [0xF0 + c / 0x40000; 0x80 + c / 0x1000 mod 0x40; 0x80 + c / 0x40 mod 0x40; 0x80 + c mod 0x40].
Proof.
  intros Hc. unfold enc8. replace (c <? 0x80) with false by lia. replace (c <? 0x800) with false by lia. by replace (c <? 0x10000) with false by lia.
Qed.
Lemma enc16_1 c : c < 0x10000 → enc16 c = [c].
Proof. intros Hc. unfold enc16. by replace (c <? 0x10000) with true by lia. Qed.
Lemma enc16_2 c : 0x10000 <= c → enc16 c = [0xD800 + (c - 0x10000) / 0x400; 0xDC00 + (c - 0x10000) mod 0x400].
Proof. intros Hc. unfold enc16. by replace (c <? 0x10000) with false by lia. Qed.

(** Decide the next condition of a turn. *)
Ltac decide_if E := match goal with |- context [if ?b then _ else _] => destruct b eqn:E end.

Lemma utf16_turn_took inp room n out : Forall byte inp → utf16_turn inp room = Took n out → takes enc8 enc16 inp room n out.
Proof.
  intros Hb. destruct inp as [|v1 more]; [done|]. cbn [utf16_turn]. cbv zeta. apply Forall_cons in Hb as [H1 Hb]. unfold byte in H1.
  decide_if Er; [done|]. apply Nat.eqb_neq in Er.
  decide_if E1.
  { intros [= <- <-]. eapply (takes_intro _ _ v1 _ more); [left; lia|by rewrite enc8_1 by lia|by rewrite enc8_1 by lia|by rewrite enc16_1 by lia|simpl; lia]. }
  decide_if E2; [done|]. decide_if E3.
  { destruct more as [|v2 more]; [done|]. apply Forall_cons in Hb as [H2 _]. rewrite continues_spec by done.
    decide_if E4; [done|]. rewrite two_bytes by lia. decide_if E5; [done|]. intros [= <- <-].
    set (c := (v1 - 0xC0) * 0x40 + (v2 - 0x80)).
    assert (enc8 c = [v1; v2]) as Ec by (rewrite enc8_2 by lia; subst c; f_equal; [zdiv|f_equal; zdiv]).
    eapply (takes_intro _ _ c _ more); [left; lia|by rewrite Ec|by rewrite Ec|by rewrite enc16_1 by lia|simpl; lia]. }
  decide_if E4.
  { destruct more as [|v2 [|v3 more]]; [done..|]. apply Forall_cons in Hb as [H2 Hb]. apply Forall_cons in Hb as [H3 _]. rewrite !continues_spec by done.
    decide_if E5; [done|]. rewrite three_bytes by lia. decide_if E6; [done|].
    decide_if E7; [done|]. intros [= <- <-].
    set (c := (v1 - 0xE0) * 0x1000 + (v2 - 0x80) * 0x40 + (v3 - 0x80)) in *.
    assert (enc8 c = [v1; v2; v3]) as Ec by (rewrite enc8_3 by lia; subst c; f_equal; [zdiv|f_equal; [zdiv|f_equal; zdiv]]).
    eapply (takes_intro _ _ c _ more); [unfold scalar; lia|by rewrite Ec|by rewrite Ec|by rewrite enc16_1 by lia|simpl; lia]. }
  decide_if Er1; [done|]. apply Nat.eqb_neq in Er1. decide_if E5; [|done].
  destruct more as [|v2 [|v3 [|v4 more]]]; [done..|]. apply Forall_cons in Hb as [H2 Hb]. apply Forall_cons in Hb as [H3 Hb]. apply Forall_cons in Hb as [H4 _].
  rewrite !continues_spec by done. decide_if E6; [done|]. rewrite four_bytes by lia. decide_if E7; [done|].
  decide_if E8; [done|]. intros [= <- <-].
  set (c := (v1 - 0xF0) * 0x40000 + (v2 - 0x80) * 0x1000 + (v3 - 0x80) * 0x40 + (v4 - 0x80)) in *.
  assert (enc8 c = [v1; v2; v3; v4]) as Ec by (rewrite enc8_4 by lia; subst c; f_equal; [zdiv|f_equal; [zdiv|f_equal; [zdiv|f_equal; zdiv]]]).
  eapply (takes_intro _ _ c _ more); [unfold scalar; lia|by rewrite Ec|by rewrite Ec|by rewrite enc16_2 by lia|simpl; lia].
Qed.

Lemma scalar_cases c : scalar c → (0 <= c < 0x80) ∨ (0x80 <= c < 0x800) ∨ (0x800 <= c < 0x10000 ∧ ¬ 0xD800 <= c < 0xE000) ∨ (0x10000 <= c < 0x110000).
Proof. unfold scalar. lia. Qed.

Ltac decide_in H E := match type of H with context [if ?b then _ else _] => destruct b eqn:E end.

(** Conditions that hold, or do not. *)
Ltac if_true := match goal with |- context [if ?b then _ else _] => replace b with true by (symmetry; zdiv) end.
Ltac if_false := match goal with |- context [if ?b then _ else _] => replace b with false by (symmetry; zdiv) end.

Lemma continuation x : continues (0x80 + x mod 0x40) = true.
Proof. rewrite continues_spec; [zdiv|]. unfold byte. zdiv. Qed.

Lemma utf16_turn_takes c rest room : scalar c →
  utf16_turn (enc8 c ++ rest) room = if (length (enc16 c) <=? room)%nat then Took (length (enc8 c)) (enc16 c) else Full.
Proof.
  intros Hc. destruct (scalar_cases c Hc) as [H1|[H1|[[H1 H2]|H1]]].
  - rewrite enc8_1, enc16_1 by lia. cbn [utf16_turn app length]. destruct room as [|room]; [done|]. cbn [Nat.eqb Nat.leb]. by if_true.
  - rewrite enc8_2, enc16_1 by lia. cbn [utf16_turn app length]. destruct room as [|room]; [done|]. cbn [Nat.eqb Nat.leb].
    do 2 if_false. if_true. rewrite continuation. cbn [negb]. rewrite two_bytes by zdiv.
    replace ((_ - _) * _ + _) with c by zdiv. by if_false.
  - rewrite enc8_3, enc16_1 by lia. cbn [utf16_turn app length]. destruct room as [|room]; [done|]. cbn [Nat.eqb Nat.leb].
    do 3 if_false. if_true. rewrite !continuation. cbn [negb orb]. rewrite three_bytes by zdiv.
    replace ((_ - _) * _ + _ * _ + _) with c by zdiv. if_false. by if_false.
  - rewrite enc8_4, enc16_2 by lia. cbn [utf16_turn app length]. destruct room as [|[|room]]; [done|..]; cbn [Nat.eqb Nat.leb]; do 4 if_false; [done|].
    if_true. rewrite !continuation. cbn [negb orb]. rewrite four_bytes by zdiv.
    replace ((_ - _) * _ + _ * _ + _ * _ + _) with c by zdiv. do 2 if_false. done.
Qed.

(** *** From UTF-16 to UTF-8 *)

Lemma utf8_turn_took inp room n out : Forall unit16 inp → utf8_turn inp room = Took n out → takes enc16 enc8 inp room n out.
Proof.
  intros Hb. destruct inp as [|v1 more]; [done|]. cbn [utf8_turn]. cbv zeta. apply Forall_cons in Hb as [H1 Hb]. unfold unit16 in H1.
  decide_if E1; [decide_if E; [done|]|decide_if E2; [decide_if E; [done|]|decide_if E3; [decide_if E; [done|]|decide_if E; [done|]]]].
  - intros [= <- <-]. apply Nat.eqb_neq in E.
    eapply (takes_intro _ _ v1 _ more); [left; lia|by rewrite enc16_1 by lia|by rewrite enc16_1 by lia|by rewrite enc8_1 by lia|simpl; lia].
  - intros [= <- <-]. apply Nat.ltb_ge in E.
    eapply (takes_intro _ _ v1 _ more); [left; lia|by rewrite enc16_1 by lia|by rewrite enc16_1 by lia|by rewrite enc8_2 by lia|simpl; lia].
  - intros [= <- <-]. apply Nat.ltb_ge in E.
    eapply (takes_intro _ _ v1 _ more); [unfold scalar; lia|by rewrite enc16_1 by lia|by rewrite enc16_1 by lia|by rewrite enc8_3 by lia|simpl; lia].
  - apply Nat.ltb_ge in E. decide_if E4; [done|]. destruct more as [|v2 more]; [done|]. decide_if E5; [done|]. intros [= <- <-].
    set (c := 0x10000 + ((v1 - 0xD800) * 0x400 + (v2 - 0xDC00))).
    assert (enc16 c = [v1; v2]) as Ec by (rewrite enc16_2 by lia; subst c; f_equal; [zdiv|f_equal; zdiv]).
    eapply (takes_intro _ _ c _ more); [unfold scalar; lia|by rewrite Ec|by rewrite Ec|by rewrite enc8_4 by lia|simpl; lia].
Qed.

Lemma utf8_turn_takes c rest room : scalar c →
  utf8_turn (enc16 c ++ rest) room = if (length (enc8 c) <=? room)%nat then Took (length (enc16 c)) (enc8 c) else Full.
Proof.
  intros Hc. destruct (scalar_cases c Hc) as [H1|[H1|[[H1 H2]|H1]]].
  - rewrite enc8_1, enc16_1 by lia. cbn [utf8_turn app length]. if_true. by destruct room.
  - rewrite enc8_2, enc16_1 by lia. cbn [utf8_turn app length]. if_false. if_true. by destruct room as [|[|room]].
  - rewrite enc8_3, enc16_1 by lia. cbn [utf8_turn app length]. do 2 if_false. if_true. by destruct room as [|[|[|room]]].
  - rewrite enc8_4, enc16_2 by lia. cbn [utf8_turn app length]. do 3 if_false. destruct room as [|[|[|[|room]]]]; [done..|]. cbn [Nat.ltb Nat.leb].
    do 2 if_false. cbv zeta. replace (0x10000 + _) with c by zdiv. done.
Qed.

(** ** A turn of a size loop agrees with the turn of the transcoding loop *)

Definition size_agrees (size_turn : list Z → option (nat * Z)) (a_turn : list Z → nat → turn) : Prop :=
  ∀ inp n k, size_turn inp = Some (n, k) → (0 < n <= length inp)%nat ∧ 0 < k <= 4 ∧
    ∀ room, k <= Z.of_nat room → a_turn inp room = Invalid ∨ ∃ out, a_turn inp room = Took n out ∧ Z.of_nat (length out) = k.

Lemma utf16_size_agrees : size_agrees utf16_size_turn utf16_turn.
Proof.
  intros inp n k. destruct inp as [|v1 more]; [done|]. intros Hs. cbn [utf16_size_turn] in Hs. cbv zeta in Hs.
  decide_in Hs E1; [|decide_in Hs E2; [done|decide_in Hs E3; [decide_in Hs E; [done|]|decide_in Hs E4; [decide_in Hs E; [done|]|decide_in Hs E5; [decide_in Hs E; [done|]|done]]]]];
    injection Hs as <- <-; (split; [cbn [length] in *; try apply Z.ltb_ge in E; lia|]); (split; [lia|]); intros room Hr; cbn [utf16_turn]; cbv zeta; rewrite ?E1, ?E2, ?E3, ?E4, ?E5;
    (replace (room =? 0)%nat with false by (symmetry; apply Nat.eqb_neq; lia)).
  - right. by eexists.
  - destruct more as [|v2 more]; [by left|]. decide_if E6; [by left|]. decide_if E7; [by left|]. right. by eexists.
  - destruct more as [|v2 [|v3 more]]; [by left..|]. decide_if E6; [by left|]. decide_if E7; [by left|]. decide_if E8; [by left|]. right. by eexists.
  - replace (room =? 1)%nat with false by (symmetry; apply Nat.eqb_neq; lia).
    destruct more as [|v2 [|v3 [|v4 more]]]; [by left..|]. decide_if E6; [by left|]. decide_if E7; [by left|]. decide_if E8; [by left|]. right. by eexists.
Qed.

Lemma utf8_size_agrees : size_agrees utf8_size_turn utf8_turn.
Proof.
  intros inp n k. destruct inp as [|v1 more]; [done|]. intros Hs. cbn [utf8_size_turn] in Hs.
  decide_in Hs E1; [|decide_in Hs E2; [|decide_in Hs E3; [|destruct more as [|v2 more]; [done|]]]];
    injection Hs as <- <-; (split; [cbn [length]; lia|]); (split; [lia|]); intros room Hr; cbn [utf8_turn]; cbv zeta; rewrite ?E1, ?E2, ?E3.
  - replace (room =? 0)%nat with false by (symmetry; apply Nat.eqb_neq; lia). right. by eexists.
  - replace (room <? 2)%nat with false by (symmetry; apply Nat.ltb_ge; lia). right. by eexists.
  - replace (room <? 3)%nat with false by (symmetry; apply Nat.ltb_ge; lia). right. by eexists.
  - replace (room <? 4)%nat with false by (symmetry; apply Nat.ltb_ge; lia). decide_if E4; [by left|]. decide_if E5; [by left|]. right. by eexists.
Qed.

(** On the encoding of a code point *)
Lemma utf16_size_takes c rest : scalar c → utf16_size_turn (enc8 c ++ rest) = Some (length (enc8 c), Z.of_nat (length (enc16 c))).
Proof.
  intros Hc. destruct (scalar_cases c Hc) as [H1|[H1|[[H1 H2]|H1]]].
  - rewrite enc8_1, enc16_1 by lia. cbn [utf16_size_turn app length]. by if_true.
  - rewrite enc8_2, enc16_1 by lia. cbn [utf16_size_turn app length]. do 2 if_false. if_true. cbv zeta. by rewrite (proj2 (Z.ltb_ge _ _)) by lia.
  - rewrite enc8_3, enc16_1 by lia. cbn [utf16_size_turn app length]. do 3 if_false. if_true. cbv zeta. by rewrite (proj2 (Z.ltb_ge _ _)) by lia.
  - rewrite enc8_4, enc16_2 by lia. cbn [utf16_size_turn app length]. do 4 if_false. if_true. cbv zeta. by rewrite (proj2 (Z.ltb_ge _ _)) by lia.
Qed.

Lemma utf8_size_takes c rest : scalar c → utf8_size_turn (enc16 c ++ rest) = Some (length (enc16 c), Z.of_nat (length (enc8 c))).
Proof.
  intros Hc. destruct (scalar_cases c Hc) as [H1|[H1|[[H1 H2]|H1]]].
  - rewrite enc8_1, enc16_1 by lia. cbn [utf8_size_turn app length]. by if_true.
  - rewrite enc8_2, enc16_1 by lia. cbn [utf8_size_turn app length]. if_false. by if_true.
  - rewrite enc8_3, enc16_1 by lia. cbn [utf8_size_turn app length]. do 2 if_false. by if_true.
  - rewrite enc8_4, enc16_2 by lia. cbn [utf8_size_turn app length]. by do 3 if_false.
Qed.

(** * What the transcoding of text promises

    Both directions convert the longest valid prefix that fits, the sizes are exact, and
    each direction undoes the other. *)

Import Utf8x16.

(** ** Either direction *)

Section direction.
Context (encA encB : Z → list Z) (a_turn : list Z → nat → turn) (size_turn : list Z → option (nat * Z)) (ok : Z → Prop) (width : nat).
Context (took : ∀ inp room n out, Forall ok inp → a_turn inp room = Took n out → takes encA encB inp room n out).
Context (turn_takes : ∀ c rest room, scalar c →
  a_turn (encA c ++ rest) room = if (length (encB c) <=? room)%nat then Took (length (encA c)) (encB c) else Full).
Context (turn_full : ∀ inp room, a_turn inp room = Full → inp = [] ∨ (room < width)%nat).
Context (nonempty : ∀ c, (0 < length (encA c))%nat).
Context (agrees : size_agrees size_turn a_turn).
Context (size_takes : ∀ c rest, scalar c → size_turn (encA c ++ rest) = Some (length (encA c), Z.of_nat (length (encB c)))).

Abbreviation textA cs := (concat (encA <$> cs)).
Abbreviation textB cs := (concat (encB <$> cs)).

(** What is transcoded, and why it stopped: at the end, at a character that does not
    fit, or at one that is invalid *)
Definition transcodes (inp : list Z) (room : nat) (res : option (bool * list Z * list Z)) : Prop :=
  ∃ valid rest cs, res = Some (valid, rest, textB cs) ∧ Forall scalar cs ∧ inp = textA cs ++ rest ∧ (length (textB cs) <= room)%nat ∧
    (valid = true → rest = [] ∨ (room < length (textB cs) + width)%nat) ∧
    (valid = false → rest ≠ []) ∧
    ∀ c rest', scalar c → rest = encA c ++ rest' → valid = true ∧ (room < length (textB cs) + length (encB c))%nat.

Lemma transcode_spec fuel : ∀ inp room, Forall ok inp → (length inp <= fuel)%nat → transcodes inp room (transcode a_turn fuel inp room).
Proof using took turn_takes turn_full nonempty.
  induction fuel as [|fuel IH]; intros inp room Hok Hf.
  { destruct inp; [|simpl in Hf; lia]. exists true, [], []. split_and!; try done; [simpl; lia|by left|].
    intros c rest' _ E. pose proof (nonempty c). destruct (encA c); [simpl in *; lia|done]. }
  destruct inp as [|x inp].
  { exists true, [], []. split_and!; try done; [simpl; lia|by left|].
    intros c rest' _ E. pose proof (nonempty c). destruct (encA c); [simpl in *; lia|done]. }
  cbn [transcode]. destruct (a_turn (x :: inp) room) as [n out| |] eqn:E.
  - destruct (took _ _ _ _ Hok E) as (c & Hc & Hinp & Hn & -> & Hr). set (more := drop n (x :: inp)) in *.
    assert (Forall ok more) as Hok' by by apply Forall_drop.
    destruct (IH more (room - length (encB c))%nat Hok') as (valid & rest & cs & -> & Hcs & Hm & Hl & Ht & Hv & Hs).
    { pose proof (nonempty c). apply (f_equal length) in Hinp. rewrite length_app in Hinp. cbn [length] in *. lia. }
    exists valid, rest, (c :: cs). cbn [fmap list_fmap concat]. rewrite length_app. split_and!; try done.
    + by constructor.
    + by rewrite Hinp, Hm, <- app_assoc.
    + lia.
    + intros H. destruct (Ht H); [by left|right; lia].
    + intros c' rest' Hc' Hrest. destruct (Hs c' rest' Hc' Hrest). split; [done|lia].
  - exists true, (x :: inp), []. split_and!; try done; [cbn; lia| |].
    + intros _. right. destruct (turn_full _ _ E); [done|cbn; lia].
    + intros c rest' Hc Hrest. rewrite Hrest, turn_takes in E by done. destruct (Nat.leb_spec (length (encB c)) room); [done|]. cbn. split; [done|lia].
  - exists false, (x :: inp), []. split_and!; try done; [cbn; lia|].
    intros c rest' Hc Hrest. rewrite Hrest, turn_takes in E by done. by destruct (_ <=? _)%nat.
Qed.

(** *** A valid text with enough room *)
Lemma transcode_text cs fuel room : Forall scalar cs → (length (textA cs) <= fuel)%nat → (length (textB cs) <= room)%nat →
  transcode a_turn fuel (textA cs) room = Some (true, [], textB cs).
Proof using turn_takes nonempty.
  intros Hcs. revert fuel room. induction Hcs as [|c cs Hc Hcs IH]; intros fuel room Hf Hr; [by destruct fuel|].
  cbn [fmap list_fmap concat] in *. rewrite length_app in *. pose proof (nonempty c).
  destruct fuel as [|fuel]; [lia|]. cbn [transcode]. destruct (encA c ++ textA cs) as [|x l] eqn:E.
  { destruct (encA c); [simpl in *; lia|done]. }
  rewrite <- E, turn_takes by done. rewrite (proj2 (Nat.leb_le _ _)) by lia. rewrite drop_app_length, IH by lia. done.
Qed.

(** *** The size is enough *)

(** A size loop without overflow *)
Fixpoint sizes (fuel : nat) (inp : list Z) (num_out : Z) : option (Z * list Z) :=
  match inp, fuel with
  | [], _ => Some (num_out, [])
  | _ :: _, O => None
  | _ :: _, S fuel => match size_turn inp with None => Some (num_out, inp) | Some (n, k) => sizes fuel (drop n inp) (num_out + k) end
  end.

Lemma sizes_enough fuel : ∀ fuel' inp num total, (length inp <= fuel')%nat → sizes fuel inp num = Some (total, []) → num <= total ∧
  ∀ room, Z.of_nat room = total - num →
    (∃ rest out, transcode a_turn fuel' inp room = Some (false, rest, out)) ∨ ∃ out, transcode a_turn fuel' inp room = Some (true, [], out) ∧ length out = room.
Proof using agrees.
  induction fuel as [|fuel IH]; intros fuel' inp num total Hf Hs.
  { destruct inp; [|done]. injection Hs as <-. split; [lia|]. intros room Hr. right. exists []. split; [by destruct fuel'|simpl; lia]. }
  destruct inp as [|x inp]; [injection Hs as <-; split; [lia|]; intros room Hr; right; exists []; split; [by destruct fuel'|simpl; lia]|].
  cbn [sizes] in Hs. destruct (size_turn (x :: inp)) as [[n k]|] eqn:E; [|done]. destruct (agrees _ _ _ E) as (Hn & Hk & Ha).
  destruct fuel' as [|fuel']; [simpl in Hf; lia|].
  destruct (IH fuel' (drop n (x :: inp)) (num + k) total) as [Hle Hall]; [rewrite length_drop; simpl in *; lia|done|].
  split; [lia|]. intros room Hr. cbn [transcode]. destruct (Ha room) as [->|(out & -> & Hout)]; [lia|left; by eexists _, _|].
  destruct (Hall (room - length out)%nat) as [(rest & out' & ->)|(out' & -> & Hl)]; [lia|left; by eexists _, _|].
  right. eexists. split; [done|]. rewrite length_app. lia.
Qed.

Lemma sizes_text cs : ∀ fuel num, Forall scalar cs → (length (textA cs) <= fuel)%nat → sizes fuel (textA cs) num = Some (num + Z.of_nat (length (textB cs)), []).
Proof using size_takes nonempty.
  induction cs as [|c cs IH]; intros fuel num Hcs Hf; [destruct fuel; cbn; f_equal; f_equal; lia|].
  apply Forall_cons in Hcs as [Hc Hcs]. cbn [fmap list_fmap concat] in *. rewrite length_app in *. pose proof (nonempty c).
  destruct fuel as [|fuel]; [lia|]. cbn [sizes]. destruct (encA c ++ textA cs) as [|x l] eqn:E.
  { destruct (encA c); [simpl in *; lia|done]. }
  rewrite <- E, size_takes, drop_app_length, IH by (done || lia). f_equal. f_equal. lia.
Qed.
End direction.

(** ** Both directions *)

Lemma enc8_length c : (0 < length (enc8 c) <= 4)%nat.
Proof. unfold enc8. repeat case_match; simpl; lia. Qed.
Lemma enc16_length c : (0 < length (enc16 c) <= 2)%nat.
Proof. unfold enc16. case_match; simpl; lia. Qed.

Lemma utf16_turn_full inp room : utf16_turn inp room = Full → inp = [] ∨ (room < 2)%nat.
Proof.
  destruct inp as [|v1 more]; [by left|]. cbn [utf16_turn]. cbv zeta. intros H. right. destruct room as [|[|room]]; [lia..|]. exfalso. cbn [Nat.eqb] in H.
  destruct more as [|v2 [|v3 [|v4 more]]]; repeat case_match; done.
Qed.
Lemma utf8_turn_full inp room : utf8_turn inp room = Full → inp = [] ∨ (room < 4)%nat.
Proof.
  destruct inp as [|v1 more]; [by left|]. cbn [utf8_turn]. cbv zeta. intros H. right. destruct room as [|[|[|[|room]]]]; [lia..|]. exfalso. cbn in H.
  destruct more as [|v2 more]; repeat case_match; done.
Qed.

(** The size loops do not overflow before the sum does. *)
Lemma find_utf16_sizes fuel : ∀ inp num, 0 <= num → num + 4 * Z.of_nat (length inp) < W64 → find_utf16_loop fuel inp num = sizes utf16_size_turn fuel inp num.
Proof.
  induction fuel as [|fuel IH]; intros [|x inp] num Hn Hl; [done..|]. cbn [find_utf16_loop sizes].
  destruct (utf16_size_turn (x :: inp)) as [[n k]|] eqn:E; [|done]. destruct (utf16_size_agrees _ _ _ E) as (H1 & H2 & _).
  rewrite wadd_small by (cbn [length] in *; lia). apply IH; [lia|]. rewrite length_drop. cbn [length] in *. lia.
Qed.

Lemma add_size num k : 0 <= num < W64 → 0 < k <= 4 → SafeInt.add t_size t_int num k = if num + k <? W64 then Some (num + k) else None.
Proof.
  intros Hn Hk. rewrite SafeIntTheorems.add_exact; [|done..| |].
  - unfold in_type. change (lim_min t_size) with 0. change (lim_max t_size) with npos.
    destruct (Z.ltb_spec (num + k) W64); [by rewrite (proj2 (andb_true_iff _ _)) by lia|]. by rewrite (proj2 (andb_false_iff _ _)) by lia.
  - unfold in_type. change (lim_min t_size) with 0. change (lim_max t_size) with npos. lia.
  - unfold in_type. change (lim_min t_int) with (-2147483648). change (lim_max t_int) with 2147483647. lia.
Qed.

(** The sum of [find_utf8_buf_size] is the exact one whenever all of the input is consumed. *)
Lemma find_utf8_sizes fuel : ∀ inp num total, 0 <= num < W64 → find_utf8_loop fuel inp num = Some (total, []) → sizes utf8_size_turn fuel inp num = Some (total, []).
Proof.
  induction fuel as [|fuel IH]; intros [|x inp] num total Hn Hl; [done..|]. cbn [find_utf8_loop sizes] in *.
  destruct (utf8_size_turn (x :: inp)) as [[n k]|] eqn:E; [|done]. destruct (utf8_size_agrees _ _ _ E) as (H1 & H2 & _).
  rewrite add_size in Hl by lia. destruct (num + k <? W64) eqn:Ew; [|done]. apply IH; [lia|done].
Qed.

Lemma find_utf8_exact fuel : ∀ inp num total, 0 <= num < W64 → total < W64 → sizes utf8_size_turn fuel inp num = Some (total, []) → find_utf8_loop fuel inp num = Some (total, []).
Proof.
  induction fuel as [|fuel IH]; intros [|x inp] num total Hn Ht Hl; [done..|]. cbn [find_utf8_loop sizes] in *.
  destruct (utf8_size_turn (x :: inp)) as [[n k]|] eqn:E; [|done]. destruct (utf8_size_agrees _ _ _ E) as (H1 & H2 & _).
  destruct (sizes_enough utf8_turn _ utf8_size_agrees fuel (length (drop n (x :: inp))) _ (num + k) total (Nat.le_refl _) Hl) as [Hle _].
  rewrite add_size by lia. replace (num + k <? W64) with true by lia. apply IH; [lia|done|done].
Qed.

(** C26: from any bytes and any room, both directions end without reading or writing out of
    bounds; they convert exactly the encodings of some code points at the beginning of the input, stop
    with [true] only at the end or when the buffer has less room than one more character may
    need, and with [false] only at something that is not the encoding of a code point. *)
Theorem transcode_correct (room : nat) :
  (∀ inp, Forall byte inp → transcodes enc8 enc16 2 inp room (to_utf16 inp room)) ∧
  (∀ inp, Forall unit16 inp → transcodes enc16 enc8 4 inp room (to_utf8 inp room)).
Proof.
  split; intros inp Hok.
  - apply (transcode_spec enc8 enc16 utf16_turn byte 2 utf16_turn_took utf16_turn_takes utf16_turn_full); [apply enc8_length|done|done].
  - apply (transcode_spec enc16 enc8 utf8_turn unit16 4 utf8_turn_took utf8_turn_takes utf8_turn_full); [apply enc16_length|done|done].
Qed.

Lemma enc_lengths cs : (length (utf8 cs) <= 4 * length (utf16 cs))%nat ∧ (length (utf16 cs) <= 2 * length (utf8 cs))%nat.
Proof.
  unfold utf8, utf16. induction cs as [|c cs [IH1 IH2]]; [done|]. cbn [fmap list_fmap concat]. rewrite !length_app.
  pose proof (enc8_length c). pose proof (enc16_length c). cbn in IH1, IH2. lia.
Qed.

(** For any text, the size functions give exactly the length of the other encoding, which is
    what the transcoding then fills, in either direction: the text is read back as it was. *)
Theorem transcode_round_trip (cs : list Z) :
  Forall scalar cs → 4 * Z.of_nat (length (utf8 cs)) < W64 →
  find_utf16_buf_size (utf8 cs) = Some (Z.of_nat (length (utf16 cs)), []) ∧
  to_utf16 (utf8 cs) (length (utf16 cs)) = Some (true, [], utf16 cs) ∧
  find_utf8_buf_size (utf16 cs) = Some (Z.of_nat (length (utf8 cs)), []) ∧
  to_utf8 (utf16 cs) (length (utf8 cs)) = Some (true, [], utf8 cs).
Proof.
  intros Hcs Hl. split_and!.
  - unfold find_utf16_buf_size. rewrite find_utf16_sizes by lia.
    apply (sizes_text enc8 enc16 utf16_size_turn (λ c, proj1 (enc8_length c)) utf16_size_takes); [done|apply Nat.le_refl].
  - apply (transcode_text enc8 enc16 utf16_turn utf16_turn_takes (λ c, proj1 (enc8_length c))); [done|apply Nat.le_refl|apply Nat.le_refl].
  - apply find_utf8_exact; [lia|lia|].
    apply (sizes_text enc16 enc8 utf8_size_turn (λ c, proj1 (enc16_length c)) utf8_size_takes); [done|apply Nat.le_refl].
  - apply (transcode_text enc16 enc8 utf8_turn utf8_turn_takes (λ c, proj1 (enc16_length c))); [done|apply Nat.le_refl|apply Nat.le_refl].
Qed.

(** Whatever the input, when a size function has examined all of it, a buffer of the size that it
    returns never runs full before the end: the transcoding fills it exactly, or finds invalid input;
    and the size does not overflow. *)
Theorem buf_size_enough :
  (∀ inp total room, 4 * Z.of_nat (length inp) < W64 → find_utf16_buf_size inp = Some (total, []) → Z.of_nat room = total →
    (∃ rest out, to_utf16 inp room = Some (false, rest, out)) ∨ ∃ out, to_utf16 inp room = Some (true, [], out) ∧ length out = room) ∧
  (∀ inp total room, find_utf8_buf_size inp = Some (total, []) → Z.of_nat room = total →
    (∃ rest out, to_utf8 inp room = Some (false, rest, out)) ∨ ∃ out, to_utf8 inp room = Some (true, [], out) ∧ length out = room).
Proof.
  split.
  - intros inp total room Hl Hs Hr. unfold find_utf16_buf_size in Hs. rewrite find_utf16_sizes in Hs by lia.
    apply (sizes_enough utf16_turn _ utf16_size_agrees _ (length inp) _ _ _ (Nat.le_refl _) Hs). lia.
  - intros inp total room Hs Hr. apply find_utf8_sizes in Hs; [|lia].
    apply (sizes_enough utf8_turn _ utf8_size_agrees _ (length inp) _ _ _ (Nat.le_refl _) Hs). lia.
Qed.

(** ** Instances: a text with characters of every length, in buffers of several sizes, and invalid input *)
Definition some_text : list Z := [0x41; 0xE9; 0x20AC; 0x1F600].

Lemma round_trip_witness :
  to_utf16 [0x41; 0xC3; 0xA9; 0xE2; 0x82; 0xAC; 0xF0; 0x9F; 0x98; 0x80] 5 = Some (true, [], [0x41; 0xE9; 0x20AC; 0xD83D; 0xDE00]) ∧
  find_utf8_buf_size [0x41; 0xE9; 0x20AC; 0xD83D; 0xDE00] = Some (10, []).
Proof.
  assert (Forall scalar some_text) as Hs by (repeat constructor; unfold scalar; lia).
  destruct (transcode_round_trip some_text Hs) as (_ & H1 & H2 & _); [by vm_compute|]. split; [exact H1|exact H2].
Defined.

Lemma transcode_witness :
  transcodes enc8 enc16 2 [0x41; 0xC3; 0xA9; 0xED; 0xA0; 0x80] 8 (Some (false, [0xED; 0xA0; 0x80], [0x41; 0xE9])) ∧
  transcodes enc16 enc8 4 [0x41; 0xD83D; 0xDE00] 4 (Some (true, [0xD83D; 0xDE00], [0x41])).
Proof.
  split.
  - apply (proj1 (transcode_correct 8)). repeat constructor; unfold byte; lia.
  - apply (proj2 (transcode_correct 4)). repeat constructor; unfold unit16; lia.
Defined.

(** A lone half of a surrogate pair *)
Lemma buf_size_witness :
  (∃ rest out, to_utf8 [0x41; 0xDE00; 0x42] 5 = Some (false, rest, out)) ∨ ∃ out, to_utf8 [0x41; 0xDE00; 0x42] 5 = Some (true, [], out) ∧ length out = 5%nat.
Proof. apply (proj2 buf_size_enough [0x41; 0xDE00; 0x42] 5); by vm_compute. Defined.

(** The size functions only look at the first byte of a character: they count sequences
    that the transcoding rejects, as their documentation says. *)
Example sizes_are_no_validation :
  find_utf16_buf_size [0xC3; 0x28] = Some (1, []) ∧ to_utf16 [0xC3; 0x28] 1 = Some (false, [0xC3; 0x28], []).
Proof. by vm_compute. Qed.
