(* ===== verification/ArrayDirect.v ===== *)
(** * Arrays of small integers: direct access and binary search

    Model of array_direct.hpp and of the getters of array.hpp.  The elements of an array have
    0, 1, 2, 4, 8, 16, 32 or 64 bits and lie one after the other in its data; those of a byte or
    more are signed and little-endian, as the machine has them. *)

From S2P Require Import Prelude.

(** ** Memory *)

(** The value of [w] bits as a signed integer *)
Definition signed (w z : Z) : Z :=
  let m := z mod 2 ^ w in if m <? 2 ^ (w - 1) then m else m - 2 ^ w.

Definition is_byte (b : Z) : Prop := 0 <= b < 256.

(** A sequence of bytes as a number, and back *)
Fixpoint little_endian (bs : list Z) : Z :=
  match bs with [] => 0 | b :: bs => b + 256 * little_endian bs end.
Fixpoint le_bytes (n : nat) (z : Z) : list Z :=
  match n with O => [] | S n => z mod 256 :: le_bytes n (z / 256) end.

(** Reading and writing an integer of [n] bytes, which is stuck out of bounds *)
Definition load (data : list Z) (off n : Z) : option Z :=
  if (0 <=? off) && (off + n <=? Z.of_nat (length data))
  then Some (little_endian (take (Z.to_nat n) (drop (Z.to_nat off) data))) else None.
Definition store (data : list Z) (off n z : Z) : option (list Z) :=
  if (0 <=? off) && (off + n <=? Z.of_nat (length data))
  then Some (take (Z.to_nat off) data ++ le_bytes (Z.to_nat n) z ++ drop (Z.to_nat (off + n)) data) else None.

Module Direct.
(** ** Elements *)

Definition get_direct (w : Z) (data : list Z) (ndx : Z) : option Z :=
  if w =? 0 then Some 0 else
  if w =? 1 then
    c ← load data (Z.shiftr ndx 3) 1; Some (Z.land (Z.shiftr (signed 8 c) (Z.land ndx 7)) 0x01) else
  if w =? 2 then
    c ← load data (Z.shiftr ndx 2) 1; Some (Z.land (Z.shiftr (signed 8 c) (Z.shiftl (Z.land ndx 3) 1)) 0x03) else
  if w =? 4 then
    c ← load data (Z.shiftr ndx 1) 1; Some (Z.land (Z.shiftr (signed 8 c) (Z.shiftl (Z.land ndx 1) 2)) 0x0F) else
  if w =? 8 then c ← load data ndx 1; Some (signed 8 c) else
  if w =? 16 then c ← load data (ndx * 2) 2; Some (signed 16 c) else
  if w =? 32 then c ← load data (ndx * 4) 4; Some (signed 32 c) else
  if w =? 64 then c ← load data (ndx * 8) 8; Some (signed 64 c) else
  None.

(** The new byte when [mask] is its field at [bit_ndx] *)
Definition set_bits (c mask bit_ndx value : Z) : Z :=
  Z.lor (Z.ldiff c (Z.shiftl mask bit_ndx)) (Z.shiftl (Z.land value mask) bit_ndx) mod 256.

Definition in_bits (w value : Z) : bool := (- 2 ^ (w - 1) <=? value) && (value <=? 2 ^ (w - 1) - 1).

Definition set_direct (w : Z) (data : list Z) (ndx value : Z) : option (list Z) :=
  if w =? 0 then REALM_ASSERT (value =? 0);; Some data else
  if w =? 1 then
    REALM_ASSERT ((0 <=? value) && (value <=? 0x01));;
    c ← load data (ndx / 8) 1; store data (ndx / 8) 1 (set_bits c 0x01 (ndx mod 8) value) else
  if w =? 2 then
    REALM_ASSERT ((0 <=? value) && (value <=? 0x03));;
    c ← load data (ndx / 4) 1; store data (ndx / 4) 1 (set_bits c 0x03 (ndx mod 4 * 2) value) else
  if w =? 4 then
    REALM_ASSERT ((0 <=? value) && (value <=? 0x0F));;
    c ← load data (ndx / 2) 1; store data (ndx / 2) 1 (set_bits c 0x0F (ndx mod 2 * 4) value) else
  if w =? 8 then REALM_ASSERT (in_bits 8 value);; store data ndx 1 (value mod 2 ^ 8) else
  if w =? 16 then REALM_ASSERT (in_bits 16 value);; store data (ndx * 2) 2 (value mod 2 ^ 16) else
  if w =? 32 then REALM_ASSERT (in_bits 32 value);; store data (ndx * 4) 4 (value mod 2 ^ 32) else
  if w =? 64 then REALM_ASSERT (in_bits 64 value);; store data (ndx * 8) 8 (value mod 2 ^ 64) else
  None.

(** [for (size_t i = begin; i != end; ++i)], [n] times *)
Fixpoint fill_from (w : Z) (data : list Z) (i : Z) (n : nat) (value : Z) : option (list Z) :=
  match n with
  | O => Some data
  | S n => data ← set_direct w data i value; fill_from w data (i + 1) n value
  end.
Definition fill_direct (w : Z) (data : list Z) (from to value : Z) : option (list Z) :=
  fill_from w data from (Z.to_nat (to - from)) value.

(** The conversions have no effect on elements that are positive, and on refs. *)
Definition get_two (w : Z) (data : list Z) (ndx : Z) : option (Z * Z) :=
  a ← get_direct w data (ndx + 0); b ← get_direct w data (ndx + 1);
  REALM_ASSERT ((0 <=? a) && (0 <=? b));; Some (a, b).

Definition to_ref (v : Z) : option Z := REALM_ASSERT (v mod 8 =? 0);; Some (wrap v).

Definition get_three (w : Z) (data : list Z) (ndx : Z) : option (Z * Z * Z) :=
  a ← get_direct w data (ndx + 0); v0 ← to_ref a;
  b ← get_direct w data (ndx + 1); v1 ← to_ref b;
  c ← get_direct w data (ndx + 2); v2 ← to_ref c;
  Some (v0, v1, v2).

(** ** Binary search

    A step, which is written out three times in the unrolled loop: [goes_right] compares the
    probe with the value. *)
Definition probe_step (goes_right : Z → bool) (w : Z) (data : list Z) (s : Z * Z) : option (Z * Z) :=
  let '(low, size) := s in
  let half := size / 2 in
  let other_half := size - half in
  let probe := low + half in
  let other_low := low + other_half in
  v ← get_direct w data probe;
  Some (if goes_right v then other_low else low, half).

Definition unrolled_steps (goes_right : Z → bool) (w : Z) (data : list Z) (s : Z * Z) : option (Z * Z) :=
  s ← probe_step goes_right w data s; s ← probe_step goes_right w data s; probe_step goes_right w data s.

(** Both loops; the size halves, which bounds the turns by its bits. *)
Definition search (goes_right : Z → bool) (w : Z) (data : list Z) (size : Z) : option Z :=
  let fuel := S (Z.to_nat (Z.log2_up (size + 1))) in
  s ← loop fuel (λ s, Some (8 <=? s.2)) (unrolled_steps goes_right w data) (0, size);
  s ← loop fuel (λ s, Some (0 <? s.2)) (probe_step goes_right w data) s;
  Some s.1.

Definition lower_bound (w : Z) (data : list Z) (size value : Z) : option Z := search (λ v, v <? value) w data size.
Definition upper_bound (w : Z) (data : list Z) (size value : Z) : option Z := search (λ v, v <=? value) w data size.
End Direct.

(** *** Some data: elements of four bits and of a byte *)
Example get_nibbles : Direct.get_direct 4 [0x5f; 0xd0] <$> [0; 1; 2; 3] = Some <$> [15; 5; 0; 13].
Proof. reflexivity. Qed.
Example get_signed : Direct.get_direct 8 [0x5f; 0xd0] 1 = Some (-48).
Proof. reflexivity. Qed.
Example set_a_bit : Direct.set_direct 1 [0x5f; 0xd0] 9 1 = Some [0x5f; 0xd2].
Proof. reflexivity. Qed.
Example search_nibbles :
  (Direct.lower_bound 4 [0x33; 0x44; 0x55; 0x76; 0x99] 10 5, Direct.upper_bound 4 [0x33; 0x44; 0x55; 0x76; 0x99] 10 5) = (Some 4, Some 6).
Proof. reflexivity. Qed.
