(* ===== verification/ArrayAccess.v ===== *)
(** * The elements of an array as digits of a number

    The data of an array is one long little-endian number; an element of [w] bits is a digit of it
    in base [2 ^ w].  Reading gives the digit, writing replaces it. *)

From S2P Require Import Prelude ArrayDirect.

Import Direct.

(** Equations between comparisons, by the cases of their atoms *)
Ltac bool_lia :=
  repeat match goal with
  | |- context [?a <=? ?b] => destruct (Z.leb_spec a b)
  | |- context [?a <? ?b] => destruct (Z.ltb_spec a b)
  | |- context [?a =? ?b] => destruct (Z.eqb_spec a b)
  end; cbn [andb orb negb]; (reflexivity || (exfalso; lia)).

(** ** Digits *)

(** The field of [w] bits at bit [b] *)
Definition field (w b N : Z) : Z := N / 2 ^ b mod 2 ^ w.
Definition digit (w N i : Z) : Z := field w (w * i) N.

Lemma pow2_pos n : 0 <= n → 0 < 2 ^ n.
Proof. apply Z.pow_pos_nonneg. lia. Qed.

Lemma field_bounds w b N : 0 <= w → 0 <= field w b N < 2 ^ w.
Proof. intros Hw. apply Z.mod_pos_bound. by apply pow2_pos. Qed.

Lemma field_testbit w b N i : 0 <= w → 0 <= b → 0 <= i → Z.testbit (field w b N) i = (i <? w) && Z.testbit N (i + b).
Proof.
  intros Hw Hb Hi. unfold field. destruct (Z.ltb_spec i w).
  - by rewrite Z.mod_pow2_bits_low, Z.div_pow2_bits by lia.
  - by rewrite Z.mod_pow2_bits_high by lia.
Qed.

(** Two numbers whose bits agree *)
Lemma field_ext w b N b' N' : 0 <= w → 0 <= b → 0 <= b' →
  (∀ i, 0 <= i < w → Z.testbit N (i + b) = Z.testbit N' (i + b')) → field w b N = field w b' N'.
Proof.
  intros Hw Hb Hb' H. apply Z.bits_inj'. intros i Hi. rewrite !field_testbit by lia.
  destruct (Z.ltb_spec i w); [|done]. cbn. apply H. lia.
Qed.

(** A field of a field *)
Lemma field_field w b w' b' N : 0 <= w → 0 <= b → 0 <= b' → b + w <= w' → field w b (field w' b' N) = field w (b + b') N.
Proof.
  intros Hw Hb Hb' H. apply field_ext; [lia..|]. intros i Hi. rewrite field_testbit by lia.
  replace (i + b <? w') with true by lia. cbn. f_equal. lia.
Qed.

(** Replacing a field *)
Lemma field_replaced w b N v w' b' : 0 <= w → 0 <= b → 0 <= w' → 0 <= b' → 0 <= v < 2 ^ w →
  (b' + w' <= b ∨ b + w <= b' → field w' b' (N + (v - field w b N) * 2 ^ b) = field w' b' N) ∧ field w b (N + (v - field w b N) * 2 ^ b) = v.
Proof.
  intros Hw Hb Hw' Hb' Hv. pose proof (pow2_pos w Hw) as Pw. pose proof (pow2_pos b Hb) as Pb. unfold field.
  (* split the number at both ends of the field *)
  set (q := N / 2 ^ b) in *. set (hi := q / 2 ^ w). set (lo := N mod 2 ^ b).
  assert (N = lo + 2 ^ b * q) as EN by (unfold lo, q; pose proof (Z.div_mod N (2 ^ b)); lia).
  assert (q = q mod 2 ^ w + 2 ^ w * hi) as Eq by (unfold hi; pose proof (Z.div_mod q (2 ^ w)); lia).
  assert (N + (v - q mod 2 ^ w) * 2 ^ b = lo + 2 ^ b * (v + 2 ^ w * hi)) as -> by nia.
  assert (0 <= lo < 2 ^ b) as Hlo by (apply Z.mod_pos_bound; lia).
  assert (∀ x, (lo + 2 ^ b * x) / 2 ^ b = x) as Hdiv by (intros x; rewrite (Z.mul_comm (2 ^ b)), Z.div_add, Z.div_small by lia; lia).
  assert (∀ a : Z, 0 <= a → a < 2 ^ w → ∀ h, (a + 2 ^ w * h) mod 2 ^ w = a) as Hmod by (intros a ? ? h; rewrite (Z.mul_comm (2 ^ w)), Z_mod_plus_full, Z.mod_small by lia; lia).
  split; [|by rewrite Hdiv, Hmod by lia].
  intros [H|H].
  - (* below *)
    assert (∀ x, (lo + 2 ^ b * x) / 2 ^ b' mod 2 ^ w' = lo / 2 ^ b' mod 2 ^ w') as Hlow; [|by rewrite EN, !Hlow].
    intros x. apply (field_ext w' b' _ b' lo); [lia..|]. intros i Hi.
    transitivity (Z.testbit ((lo + 2 ^ b * x) mod 2 ^ b) (i + b')); [by rewrite Z.mod_pow2_bits_low by lia|].
    by rewrite (Z.mul_comm (2 ^ b)), Z_mod_plus_full, Z.mod_small by lia.
  - (* above *)
    assert (∀ a, 0 <= a < 2 ^ w → (lo + 2 ^ b * (a + 2 ^ w * hi)) / 2 ^ b' = hi / 2 ^ (b' - (b + w))) as Hhigh.
    { intros a Ha. replace b' with (b + (w + (b' - (b + w)))) at 1 by lia. rewrite Z.pow_add_r, <- Z.div_div by lia.
      rewrite Hdiv, Z.pow_add_r, <- Z.div_div by lia.
      by rewrite (Z.mul_comm (2 ^ w)), Z.div_add, (Z.div_small a), Z.add_0_l by lia. }
    rewrite Hhigh by lia. rewrite EN, Eq. rewrite Hhigh; [done|]. apply Z.mod_pos_bound. lia.
Qed.

(** ** Bytes *)

Lemma little_endian_app bs bs' : little_endian (bs ++ bs') = little_endian bs + 2 ^ (8 * Z.of_nat (length bs)) * little_endian bs'.
Proof.
  induction bs as [|b bs IH]; [change (2 ^ (8 * Z.of_nat (length (@nil Z)))) with 1; cbn; lia|]. cbn [little_endian app length].
  replace (8 * Z.of_nat (S (length bs))) with (8 + 8 * Z.of_nat (length bs)) by lia.
  rewrite Z.pow_add_r, IH by lia. change (2 ^ 8) with 256. ring.
Qed.

Lemma little_endian_bounds bs : Forall is_byte bs → 0 <= little_endian bs < 2 ^ (8 * Z.of_nat (length bs)).
Proof.
  induction 1 as [|b bs Hb Hbs IH]; [done|]. cbn [little_endian length].
  replace (8 * Z.of_nat (S (length bs))) with (8 + 8 * Z.of_nat (length bs)) by lia.
  rewrite Z.pow_add_r by lia. change (2 ^ 8) with 256. unfold is_byte in *. lia.
Qed.

Lemma le_bytes_length n z : length (le_bytes n z) = n.
Proof. revert z. induction n; intros; cbn; [done|]. by f_equal. Qed.
Lemma le_bytes_are_bytes n z : Forall is_byte (le_bytes n z).
Proof. revert z. induction n; intros; cbn; [constructor|]. constructor; [apply Z.mod_pos_bound; lia|done]. Qed.
Lemma little_endian_le_bytes n z : little_endian (le_bytes n z) = z mod 2 ^ (8 * Z.of_nat n).
Proof.
  revert z. induction n as [|n IH]; intros z; [change (2 ^ (8 * Z.of_nat 0)) with 1; cbn [le_bytes little_endian]; by rewrite Z.mod_1_r|].
  cbn [le_bytes little_endian]. rewrite IH. replace (8 * Z.of_nat (S n)) with (8 + 8 * Z.of_nat n) by lia.
  rewrite Z.pow_add_r by lia. change (2 ^ 8) with 256. by rewrite Z.rem_mul_r by (lia || apply Z.pow_nonzero; lia).
Qed.

(** Data in three parts *)
Lemma split_data (data : list Z) off n : 0 <= off → 0 <= n → off + n <= Z.of_nat (length data) →
  ∃ l mid r, data = l ++ mid ++ r ∧ Z.of_nat (length l) = off ∧ Z.of_nat (length mid) = n ∧
    take (Z.to_nat off) data = l ∧ take (Z.to_nat n) (drop (Z.to_nat off) data) = mid ∧ drop (Z.to_nat (off + n)) data = r.
Proof.
  intros Ho Hn Hl. exists (take (Z.to_nat off) data), (take (Z.to_nat n) (drop (Z.to_nat off) data)), (drop (Z.to_nat (off + n)) data).
  split_and!; try done.
  - replace (Z.to_nat (off + n)) with (Z.to_nat off + Z.to_nat n)%nat by lia. rewrite <- drop_drop, take_drop, take_drop. done.
  - rewrite length_take. lia.
  - rewrite length_take, length_drop. lia.
Qed.

(** Reading some bytes is reading a field. *)
Lemma load_field data off n : Forall is_byte data → 0 <= off → 0 <= n → off + n <= Z.of_nat (length data) →
  load data off n = Some (field (8 * n) (8 * off) (little_endian data)).
Proof.
  intros Hb Ho Hn Hl. unfold load. replace ((0 <=? off) && (off + n <=? Z.of_nat (length data))) with true by lia. f_equal.
  destruct (split_data data off n Ho Hn Hl) as (l & mid & r & E & El & Em & _ & -> & _). subst data.
  apply Forall_app in Hb as [Hl' Hb]. apply Forall_app in Hb as [Hm Hr]. unfold field.
  pose proof (little_endian_bounds _ Hl') as B1. pose proof (little_endian_bounds _ Hm) as B2. rewrite El in B1. rewrite Em in B2.
  rewrite little_endian_app, little_endian_app, El, Em.
  rewrite (Z.mul_comm (2 ^ (8 * off))), Z.div_add, Z.div_small, Z.add_0_l by lia.
  by rewrite (Z.mul_comm (2 ^ (8 * n))), Z_mod_plus_full, Z.mod_small by lia.
Qed.

(** Writing some bytes replaces a field. *)
Lemma store_field data off n z : Forall is_byte data → 0 <= off → 0 <= n → off + n <= Z.of_nat (length data) → 0 <= z < 2 ^ (8 * n) →
  ∃ data', store data off n z = Some data' ∧ length data' = length data ∧ Forall is_byte data' ∧
    little_endian data' = little_endian data + (z - field (8 * n) (8 * off) (little_endian data)) * 2 ^ (8 * off).
Proof.
  intros Hb Ho Hn Hl Hz. pose proof (load_field data off n Hb Ho Hn Hl) as L. unfold load in L. unfold store.
  replace ((0 <=? off) && (off + n <=? Z.of_nat (length data))) with true in * by lia. injection L as L.
  destruct (split_data data off n Ho Hn Hl) as (l & mid & r & E & El & Em & -> & Eq & ->). rewrite Eq in L. subst data.
  apply Forall_app in Hb as [Hl' Hb]. apply Forall_app in Hb as [Hm Hr]. eexists. split; [done|]. split_and!.
  - rewrite !length_app, le_bytes_length. lia.
  - apply Forall_app. split; [done|]. apply Forall_app. split; [apply le_bytes_are_bytes|done].
  - rewrite <- L, !little_endian_app, little_endian_le_bytes, le_bytes_length, El, Em, Z2Nat.id by lia.
    rewrite (Z.mod_small z) by lia. ring.
Qed.

(** *** Signed values *)
Lemma signed_small w z : 0 < w → - 2 ^ (w - 1) <= z < 2 ^ (w - 1) → signed w (z mod 2 ^ w) = z.
Proof.
  intros Hw Hz. unfold signed. rewrite Zmod_mod. assert (2 ^ w = 2 * 2 ^ (w - 1)) as E by (rewrite <- Z.pow_succ_r by lia; f_equal; lia).
  destruct (Z_lt_le_dec z 0).
  - rewrite <- (Z_mod_plus_full z 1), Z.mod_small by lia. replace (_ <? _) with false by lia. lia.
  - rewrite Z.mod_small by lia. replace (_ <? _) with true by lia. lia.
Qed.
Lemma signed_bounds w z : 0 < w → - 2 ^ (w - 1) <= signed w z < 2 ^ (w - 1).
Proof.
  intros Hw. unfold signed. assert (2 ^ w = 2 * 2 ^ (w - 1)) as E by (rewrite <- Z.pow_succ_r by lia; f_equal; lia).
  pose proof (Z.mod_pos_bound z (2 ^ w)). destruct (Z.ltb_spec (z mod 2 ^ w) (2 ^ (w - 1))); lia.
Qed.
Lemma signed_mod w z : 0 < w → signed w z mod 2 ^ w = z mod 2 ^ w.
Proof.
  intros Hw. pose proof (pow2_pos w ltac:(lia)). pose proof (Z.mod_pos_bound z (2 ^ w)). unfold signed. destruct (_ <? _).
  - by apply Zmod_mod.
  - replace (z mod 2 ^ w - 2 ^ w) with (z mod 2 ^ w + (-1) * 2 ^ w) by lia. by rewrite Z_mod_plus_full, Zmod_mod.
Qed.

(** * Reading and writing elements

    For every width an element that is written is read back, and no other element changes;
    the binary searches give the bounds they are named after. *)

Import Direct.

(** ** The elements of some data *)

Definition widths : list Z := [0; 1; 2; 4; 8; 16; 32; 64].
Definition value_of (w d : Z) : Z := if w <? 8 then d else signed w d.
Definition elem (w : Z) (data : list Z) (i : Z) : Z := value_of w (digit w (little_endian data) i).

(** The data has room for [n] elements. *)
Definition holds (w : Z) (data : list Z) (n : Z) : Prop := Forall is_byte data ∧ w * n <= 8 * Z.of_nat (length data).

(** A value that an element of [w] bits can have *)
Definition storable (w v : Z) : bool :=
  if w =? 0 then v =? 0 else if w <? 8 then (0 <=? v) && (v <? 2 ^ w) else in_bits w v.

Lemma width_cases w (P : Z → Prop) : In w widths → P 0 → P 1 → P 2 → P 4 → P 8 → P 16 → P 32 → P 64 → P w.
Proof. unfold widths. intros H. simpl in H. repeat (destruct H as [<-|H]; [done|]). done. Qed.
Ltac by_width w := match goal with H : In w widths |- _ => revert H; let Hw := fresh in intros Hw; pattern w; apply (width_cases w _ Hw); clear Hw end.

Lemma land_ones_field w k c : 0 <= w → 0 <= k → Z.land (Z.shiftr c k) (2 ^ w - 1) = field w k c.
Proof.
  intros Hw Hk. replace (2 ^ w - 1) with (Z.ones w) by (rewrite Z.ones_equiv; lia).
  by rewrite Z.land_ones, Z.shiftr_div_pow2 by lia.
Qed.

Lemma signed_field w k c : 0 <= w → 0 <= k → k + w <= 8 → field w k (signed 8 c) = field w k c.
Proof.
  intros Hw Hk H. rewrite <- (Z.add_0_r k), <- (field_field w k 8 0 (signed 8 c)), <- (field_field w k 8 0 c) by lia.
  f_equal. unfold field. rewrite !Z.div_1_r. by apply signed_mod.
Qed.

(** Elements of less than a byte *)
Lemma get_small data w off k i : holds w data (i + 1) → 0 <= w → 0 <= k → k + w <= 8 → 0 <= off → 8 * off + k = w * i → 0 < w → w < 8 →
  (c ← load data off 1; Some (Z.land (Z.shiftr (signed 8 c) k) (2 ^ w - 1))) = Some (elem w data i).
Proof.
  intros [Hb Hl] Hw Hk Hkw Ho E Hw0 Hw8. rewrite load_field by (done || lia). cbn. f_equal.
  rewrite land_ones_field, signed_field, field_field by lia. unfold elem, value_of, digit.
  replace (w <? 8) with true by lia. f_equal. lia.
Qed.

(** Elements of some bytes *)
Lemma get_large data w n i : holds w data (i + 1) → 0 <= i → w = 8 * n → 8 <= w →
  (c ← load data (i * n) n; Some (signed w c)) = Some (elem w data i).
Proof.
  intros [Hb Hl] Hi -> Hn. rewrite load_field by (done || lia). cbn. f_equal.
  unfold elem, value_of, digit. replace (8 * n <? 8) with false by lia. do 2 f_equal. lia.
Qed.

Lemma get_elem w data i : In w widths → holds w data (i + 1) → 0 <= i → get_direct w data i = Some (elem w data i).
Proof.
  intros Hw Hd Hi. revert Hd. by_width w; intros Hd.
  - unfold elem, value_of, digit, field. cbn. by rewrite Z.mod_1_r.
  - apply (get_small data 1 (Z.shiftr i 3) (Z.land i 7)); try lia; try done.
    all: change 7 with (Z.ones 3); rewrite ?Z.land_ones, ?Z.shiftr_div_pow2 by lia; change (2 ^ 3) with 8; Z.to_euclidean_division_equations; lia.
  - apply (get_small data 2 (Z.shiftr i 2) (Z.shiftl (Z.land i 3) 1)); try lia; try done.
    all: change 3 with (Z.ones 2); rewrite ?Z.shiftl_mul_pow2, ?Z.land_ones, ?Z.shiftr_div_pow2 by lia; change (2 ^ 2) with 4; Z.to_euclidean_division_equations; lia.
  - apply (get_small data 4 (Z.shiftr i 1) (Z.shiftl (Z.land i 1) 2)); try lia; try done.
    all: rewrite ?Z.shiftl_mul_pow2, ?(Z.land_ones _ 1), ?Z.shiftr_div_pow2 by lia; change (Z.land i 1) with (Z.land i (Z.ones 1)); rewrite ?Z.land_ones by lia; change (2 ^ 1) with 2; change (2 ^ 2) with 4; Z.to_euclidean_division_equations; lia.
  - pose proof (get_large data 8 1 i Hd Hi) as H. replace (i * 1) with i in H by lia. by apply H.
  - by apply (get_large data 16 2).
  - by apply (get_large data 32 4).
  - by apply (get_large data 64 8).
Qed.

(** ** Writing *)

(** What writing an element does to the data *)
Definition written (w : Z) (data : list Z) (i v : Z) (data' : list Z) : Prop :=
  length data' = length data ∧ Forall is_byte data' ∧
  little_endian data' = little_endian data + (v mod 2 ^ w - digit w (little_endian data) i) * 2 ^ (w * i).

(** The bit operations on one byte, for every byte, place and value *)
Lemma set_bits_spec w c k v : In w [1; 2; 4] → is_byte c → 0 <= k → k mod w = 0 → k + w <= 8 → 0 <= v < 2 ^ w →
  set_bits c (2 ^ w - 1) k v = c + (v - field w k c) * 2 ^ k ∧ is_byte (set_bits c (2 ^ w - 1) k v).
Proof.
  intros Hw Hc Hk Hkw Hk8 Hv. split; [|by apply Z.mod_pos_bound].
  assert (forallb (λ c : nat, forallb (λ k : nat, forallb (λ v : nat,
      implb ((k mod Z.to_nat w =? 0)%nat && (Z.of_nat k + w <=? 8) && (Z.of_nat v <? 2 ^ w))
        (set_bits (Z.of_nat c) (2 ^ w - 1) (Z.of_nat k) (Z.of_nat v) =? Z.of_nat c + (Z.of_nat v - field w (Z.of_nat k) (Z.of_nat c)) * 2 ^ Z.of_nat k))
      (seq 0 16)) (seq 0 8)) (seq 0 256) = true) as H.
  { destruct Hw as [<-|[<-|[<-|[]]]]; vm_compute; reflexivity. }
  assert (2 ^ w <= 16 ∧ 0 < w) as [Hp Hw0] by (destruct Hw as [<-|[<-|[<-|[]]]]; lia). unfold is_byte in Hc.
  rewrite forallb_forall in H. specialize (H (Z.to_nat c)). rewrite in_seq in H. specialize (H ltac:(lia)).
  rewrite forallb_forall in H. specialize (H (Z.to_nat k)). rewrite in_seq in H. specialize (H ltac:(lia)).
  rewrite forallb_forall in H. specialize (H (Z.to_nat v)). rewrite in_seq in H. specialize (H ltac:(lia)).
  rewrite !Z2Nat.id in H by lia. replace ((Z.to_nat k mod Z.to_nat w =? 0)%nat) with true in H.
  - replace (k + w <=? 8) with true in H by lia. replace (v <? 2 ^ w) with true in H by lia. cbn [implb andb] in H. lia.
  - symmetry. apply Nat.eqb_eq. rewrite <- Z2Nat.inj_mod by lia. by rewrite Hkw.
Qed.

Lemma set_small data w off k i v : holds w data (i + 1) → In w [1; 2; 4] → 0 <= k → k mod w = 0 → k + w <= 8 → 0 <= off → 8 * off + k = w * i → 0 <= v < 2 ^ w →
  ∃ data', (c ← load data off 1; store data off 1 (set_bits c (2 ^ w - 1) k v)) = Some data' ∧ written w data i v data'.
Proof.
  intros [Hb Hl] Hw Hk Hkw Hk8 Ho E Hv.
  assert (0 < w) as Hw0 by (destruct Hw as [<-|[<-|[<-|[]]]]; lia).
  rewrite load_field by (done || lia). cbn. set (c := field _ _ _).
  assert (is_byte c) as Hc by (apply (field_bounds 8); lia).
  destruct (set_bits_spec w c k v Hw Hc Hk Hkw Hk8 Hv) as [Es Hs].
  destruct (store_field data off 1 (set_bits c (2 ^ w - 1) k v) Hb Ho ltac:(lia) ltac:(lia) Hs) as (data' & -> & H1 & H2 & H3).
  exists data'. split; [done|]. split_and!; [done..|]. rewrite H3, Es. change (field (8 * 1) (8 * off) (little_endian data)) with c.
  assert (field w k c = digit w (little_endian data) i) as -> by (unfold c, digit; rewrite field_field by lia; f_equal; lia).
  set (d := digit _ _ _). rewrite (Z.mod_small v) by done. rewrite <- E, Z.pow_add_r by lia. ring.
Qed.

Lemma set_large data w n i v : holds w data (i + 1) → 0 <= i → w = 8 * n → 8 <= w →
  ∃ data', store data (i * n) n (v mod 2 ^ w) = Some data' ∧ written w data i v data'.
Proof.
  intros [Hb Hl] Hi -> Hn. pose proof (pow2_pos (8 * n)).
  destruct (store_field data (i * n) n (v mod 2 ^ (8 * n)) Hb) as (data' & -> & H1 & H2 & H3); [lia..|apply Z.mod_pos_bound; lia|].
  exists data'. split; [done|]. split_and!; [done..|]. rewrite H3. unfold digit. do 3 f_equal; [f_equal|]; lia.
Qed.

Lemma set_written w data i v : In w widths → holds w data (i + 1) → 0 <= i → storable w v = true →
  ∃ data', set_direct w data i v = Some data' ∧ written w data i v data'.
Proof.
  intros Hw Hd Hi. revert Hd. by_width w; intros Hd Hv; unfold storable in Hv; cbn [Z.eqb Z.ltb Z.compare Pos.compare Pos.compare_cont Pos.eqb] in Hv.
  - apply Z.eqb_eq in Hv as ->. exists data. split; [done|]. split_and!; [done|apply Hd|]. unfold digit, field. change (2 ^ 0) with 1. rewrite !Z.mod_1_r. lia.
  - unfold set_direct. cbn [Z.eqb Pos.eqb]. replace ((0 <=? v) && (v <=? 1)) with true by (change (2 ^ 1) with 2 in Hv; lia). cbn [check mbind option_bind].
    apply (set_small data 1 (i / 8)); try (done || by left); Z.to_euclidean_division_equations; lia.
  - unfold set_direct. cbn [Z.eqb Pos.eqb]. replace ((0 <=? v) && (v <=? 3)) with true by (change (2 ^ 2) with 4 in Hv; lia). cbn [check mbind option_bind].
    apply (set_small data 2 (i / 4)); try (done || by right; left); Z.to_euclidean_division_equations; lia.
  - unfold set_direct. cbn [Z.eqb Pos.eqb]. replace ((0 <=? v) && (v <=? 15)) with true by (change (2 ^ 4) with 16 in Hv; lia). cbn [check mbind option_bind].
    apply (set_small data 4 (i / 2)); try (done || by right; right; left); Z.to_euclidean_division_equations; lia.
  - unfold set_direct. cbn [Z.eqb Pos.eqb]. rewrite Hv. pose proof (set_large data 8 1 i v) as H. change (8 * 1) with 8 in H.
    replace (i * 1) with i in H by lia. by apply H.
  - unfold set_direct. cbn [Z.eqb Pos.eqb]. rewrite Hv. by apply (set_large data 16 2).
  - unfold set_direct. cbn [Z.eqb Pos.eqb]. rewrite Hv. by apply (set_large data 32 4).
  - unfold set_direct. cbn [Z.eqb Pos.eqb]. rewrite Hv. by apply (set_large data 64 8).
Qed.

Lemma value_of_stored w v : In w widths → storable w v = true → value_of w (v mod 2 ^ w) = v.
Proof.
  intros Hw. by_width w; unfold storable, value_of, in_bits; cbn [Z.eqb Z.ltb Z.compare Pos.compare Pos.compare_cont Pos.eqb]; intros H.
  1: (change (2 ^ 0) with 1; rewrite Z.mod_1_r; lia).
  1-3: apply Z.mod_small; lia.
  all: apply signed_small; [done|]; apply andb_true_iff in H as [H1 H2]; apply Z.leb_le in H1, H2; lia.
Qed.

Lemma elem_storable w data i : In w widths → 0 <= i → storable w (elem w data i) = true.
Proof.
  intros Hw Hi. unfold elem. assert (0 <= w) as Hw0 by (by_width w; lia). pose proof (field_bounds w (w * i) (little_endian data) Hw0) as B.
  fold (digit w (little_endian data) i) in B. set (d := digit _ _ _) in *. clearbody d. revert B.
  by_width w; unfold storable, value_of, in_bits; cbn [Z.eqb Z.ltb Z.compare Pos.compare Pos.compare_cont Pos.eqb]; intros B.
  1-4: lia.
  - pose proof (signed_bounds 8 d). lia.
  - pose proof (signed_bounds 16 d). lia.
  - pose proof (signed_bounds 32 d). lia.
  - pose proof (signed_bounds 64 d). lia.
Qed.

(** *** Every element after a write *)
Lemma written_elem w data i v data' j : In w widths → 0 <= i → 0 <= j → storable w v = true → written w data i v data' →
  elem w data' j = if j =? i then v else elem w data j.
Proof.
  intros Hw Hi Hj Hv (_ & _ & E). unfold elem. rewrite E.
  assert (0 <= w) as Hw0 by (by_width w; lia). pose proof (pow2_pos w Hw0).
  destruct (field_replaced w (w * i) (little_endian data) (v mod 2 ^ w) w (w * j)) as [H1 H2]; [lia|nia|lia|nia|apply Z.mod_pos_bound; lia|].
  fold (digit w (little_endian data) i) in H1, H2. destruct (Z.eqb_spec j i) as [->|Hne].
  - unfold digit at 1. rewrite H2. by apply value_of_stored.
  - f_equal. apply H1. destruct (Z.lt_ge_cases j i); [left|right]; nia.
Qed.

Lemma holds_le w data n m : 0 <= w → holds w data n → m <= n → holds w data m.
Proof. intros Hw [Hb Hl] H. split; [done|nia]. Qed.
Lemma holds_length w data data' n : holds w data n → length data' = length data → Forall is_byte data' → holds w data' n.
Proof. intros [_ H] E Hb. split; [done|by rewrite E]. Qed.

(** * What access to an array promises

    Reads after writes, filling a range, and the bounds that binary search finds. *)

Import Direct.

(** ** Filling a range *)
Lemma fill_from_spec w v n : ∀ data i, In w widths → holds w data (i + Z.of_nat n) → 0 <= i → storable w v = true →
  ∃ data', fill_from w data i n v = Some data' ∧ length data' = length data ∧ Forall is_byte data' ∧
    ∀ j, 0 <= j → elem w data' j = if (i <=? j) && (j <? i + Z.of_nat n) then v else elem w data j.
Proof.
  induction n as [|n IH]; intros data i Hw Hd Hi Hv.
  { exists data. split; [done|]. split_and!; [done|apply Hd|]. intros j Hj. destruct ((i <=? j) && (j <? i + Z.of_nat 0)) eqn:E; [|done].
    apply andb_true_iff in E as [E1%Z.leb_le E2%Z.ltb_lt]. cbn in E2. lia. }
  assert (0 <= w) as Hw0 by (by_width w; lia). cbn [fill_from].
  destruct (set_written w data i v Hw) as (data1 & -> & Hwr); [eapply holds_le; [done..|lia]|done|done|]. cbn.
  pose proof (written_elem w data i v data1) as He. destruct Hwr as (H1 & H2 & H3).
  destruct (IH data1 (i + 1) Hw) as (data' & -> & L & B & E); [|lia|done|].
  { eapply holds_length; [|done|done]. eapply holds_le; [done..|lia]. }
  exists data'. split; [done|]. split_and!; [by rewrite L|done|]. intros j Hj. rewrite E, He by done.
  destruct (Z.eqb_spec j i) as [->|Hne].
  - by replace ((i <=? i) && (i <? i + Z.of_nat (S n))) with true by bool_lia; destruct (_ && _).
  - by replace ((i + 1 <=? j) && (j <? i + 1 + Z.of_nat n)) with ((i <=? j) && (j <? i + Z.of_nat (S n))) by bool_lia.
Qed.

(** C25: for every width an element that is written is read back and all other elements stay, whatever
    bytes share them; filling writes exactly its range; nothing outside the data is touched. *)
Theorem access_correct (w : Z) (data : list Z) (first last v n : Z) :
  In w widths → holds w data n → 0 <= first <= last → last <= n → storable w v = true →
  ∃ data', fill_direct w data first last v = Some data' ∧ length data' = length data ∧ Forall is_byte data' ∧
    ∀ j, 0 <= j < n → get_direct w data' j = if (first <=? j) && (j <? last) then Some v else get_direct w data j.
Proof.
  intros Hw Hd Hf Hl Hv. assert (0 <= w) as Hw0 by (by_width w; lia). unfold fill_direct.
  destruct (fill_from_spec w v (Z.to_nat (last - first)) data first Hw) as (data' & -> & L & B & E); [eapply holds_le; [done..|lia]|lia|done|].
  exists data'. split; [done|]. split_and!; [done..|]. intros j Hj.
  rewrite (get_elem w data'), (get_elem w data), E by (done || lia || (try (eapply holds_length; [|done..]); eapply holds_le; [done..|lia])).
  replace (first + Z.of_nat (Z.to_nat (last - first))) with last by lia. by destruct (_ && _).
Qed.

(** ** Binary search *)
Lemma halving n : 0 < n → (Z.to_nat (Z.log2_up (n / 2 + 1)) < Z.to_nat (Z.log2_up (n + 1)))%nat.
Proof.
  intros Hn. assert (1 <= Z.log2_up (n + 1)) as H1 by (apply (Z.log2_up_le_mono 2); lia).
  assert (n + 1 <= 2 ^ Z.log2_up (n + 1)) as H2 by (apply Z.log2_up_le_pow2; lia).
  replace (Z.log2_up (n + 1)) with (Z.succ (Z.log2_up (n + 1) - 1)) in H2 by lia. rewrite Z.pow_succ_r in H2 by lia.
  assert (n / 2 + 1 <= 2 ^ (Z.log2_up (n + 1) - 1)) as H3 by (Z.to_euclidean_division_equations; lia).
  apply Z.log2_up_le_pow2 in H3; [|Z.to_euclidean_division_equations; lia]. pose proof (Z.log2_up_nonneg (n / 2 + 1)). lia.
Qed.

Section searching.
Context (w : Z) (data : list Z) (size : Z) (goes_right : Z → bool).
Context (Hw : In w widths) (Hd : holds w data size) (Hs : 0 <= size).
(** The elements at which the search goes on to the right come first. *)
Context (partitioned : ∀ i j, 0 <= i <= j → j < size → goes_right (elem w data j) = true → goes_right (elem w data i) = true).

(** Where the bound can still be *)
Definition around (s : Z * Z) : Prop := let '(low, n) := s in 0 <= low ∧ 0 <= n ∧ low + n <= size ∧
  (∀ j, 0 <= j < low → goes_right (elem w data j) = true) ∧ (∀ j, low + n <= j < size → goes_right (elem w data j) = false).

Lemma probe_around low n : around (low, n) → 0 < n → ∃ low', probe_step goes_right w data (low, n) = Some (low', n / 2) ∧ around (low', n / 2).
Proof using All.
  intros (H1 & H2 & H3 & HL & HR) Hn. unfold probe_step. assert (0 <= w) as Hw0 by (clear - Hw; by_width w; lia).
  assert (0 <= n / 2 < n) as Hh by (Z.to_euclidean_division_equations; lia).
  rewrite get_elem; [|done|eapply holds_le; [done..|lia]|lia]. cbn. eexists. split; [done|].
  assert (n - n / 2 <= n / 2 + 1 ∧ n / 2 <= n - n / 2) as Ho by (Z.to_euclidean_division_equations; lia).
  destruct (goes_right (elem w data (low + n / 2))) eqn:E; unfold around; split_and!; try lia.
  - intros j Hj. apply (partitioned j (low + n / 2)); [lia|lia|done].
  - intros j Hj. apply HR. lia.
  - intros j Hj. apply HL. lia.
  - intros j Hj. destruct (goes_right (elem w data j)) eqn:Ej; [|done]. rewrite <- E. symmetry. apply (partitioned _ j); [lia|lia|done].
Qed.

Lemma unrolled_around low n : around (low, n) → 8 <= n → ∃ low', unrolled_steps goes_right w data (low, n) = Some (low', n / 2 / 2 / 2) ∧ around (low', n / 2 / 2 / 2).
Proof using All.
  intros H Hn. unfold unrolled_steps.
  destruct (probe_around low n H) as (l1 & -> & H1); [lia|]. cbn [mbind option_bind].
  destruct (probe_around l1 (n / 2) H1) as (l2 & -> & H2); [Z.to_euclidean_division_equations; lia|]. cbn [mbind option_bind].
  destruct (probe_around l2 (n / 2 / 2) H2) as (l3 & -> & H3); [Z.to_euclidean_division_equations; lia|]. by exists l3.
Qed.

Lemma search_spec : ∃ low, search goes_right w data size = Some low ∧ 0 <= low <= size ∧
  (∀ j, 0 <= j < low → goes_right (elem w data j) = true) ∧ (∀ j, low <= j < size → goes_right (elem w data j) = false).
Proof using All.
  unfold search. set (m := λ s : Z * Z, Z.to_nat (Z.log2_up (s.2 + 1))).
  assert (∀ s, around s → (m s <= m (0%Z, size))%nat) as Hm.
  { intros [low n] (? & ? & ? & _). unfold m. cbn. pose proof (Z.log2_up_le_mono (n + 1) (size + 1)). lia. }
  destruct (loop_rule around m (λ s, Some (8 <=? s.2)) (unrolled_steps goes_right w data) (S (m (0, size))) (0, size)) as ([low n] & E1 & H1 & _).
  { split_and!; try lia; intros; lia. }
  { intros [low n] H. eexists. split; [done|]. cbn. intros Hn%Z.leb_le. destruct (unrolled_around low n H Hn) as (low' & E & H').
    eexists. split; [exact E|]. split; [done|]. unfold m. cbn.
    pose proof (halving n). pose proof (halving (n / 2)). pose proof (halving (n / 2 / 2)). Z.to_euclidean_division_equations; lia. }
  { lia. }
  change (S (Z.to_nat (Z.log2_up (size + 1)))) with (S (m (0, size))). rewrite E1. cbn [mbind option_bind].
  destruct (loop_rule around m (λ s, Some (0 <? s.2)) (probe_step goes_right w data) (S (m (0, size))) (low, n)) as ([low' n'] & E2 & (H2 & H3 & H4 & HL & HR) & Ec).
  { done. }
  { intros [low' n'] H. eexists. split; [done|]. cbn. intros Hn%Z.ltb_lt. destruct (probe_around low' n' H Hn) as (low'' & E & H').
    eexists. split; [exact E|]. split; [done|]. unfold m. cbn. by apply halving. }
  { specialize (Hm _ H1). lia. }
  rewrite E2. cbn. injection Ec as Ec%Z.ltb_ge. cbn in Ec. exists low'. split_and!; try lia; [done|done|].
  intros j Hj. apply HR. lia.
Qed.
End searching.

Definition sorted (w : Z) (data : list Z) (size : Z) : Prop := ∀ i j, 0 <= i <= j → j < size → elem w data i <= elem w data j.

(** C24: on sorted data of any width and size the binary searches end, read no element outside of the data, and return
    the first element that is not less than the value, and the first that is greater. *)
Theorem binary_search_correct (w : Z) (data : list Z) (size value : Z) :
  In w widths → holds w data size → 0 <= size → sorted w data size →
  (∃ low, lower_bound w data size value = Some low ∧ 0 <= low <= size ∧
     (∀ j, 0 <= j < low → elem w data j < value) ∧ (∀ j, low <= j < size → value <= elem w data j)) ∧
  (∃ low, upper_bound w data size value = Some low ∧ 0 <= low <= size ∧
     (∀ j, 0 <= j < low → elem w data j <= value) ∧ (∀ j, low <= j < size → value < elem w data j)).
Proof.
  intros Hw Hd Hs Hsorted. split.
  - destruct (search_spec w data size (λ v, v <? value) Hw Hd Hs) as (low & E & Hl & HL & HR).
    { intros i j Hij Hj ?%Z.ltb_lt. apply Z.ltb_lt. specialize (Hsorted i j Hij Hj). lia. }
    exists low. split; [done|]. split_and!; try lia; intros j Hj; [by apply Z.ltb_lt, HL|by apply Z.ltb_ge, HR].
  - destruct (search_spec w data size (λ v, v <=? value) Hw Hd Hs) as (low & E & Hl & HL & HR).
    { intros i j Hij Hj ?%Z.leb_le. apply Z.leb_le. specialize (Hsorted i j Hij Hj). lia. }
    exists low. split; [done|]. split_and!; try lia; intros j Hj; [by apply Z.leb_le, HL|by apply Z.leb_gt, HR].
Qed.

(** ** Instances: a nibble between others, and a search for a value that is there twice *)
Lemma some_nibbles : holds 4 [0x33; 0x44; 0x55; 0x76; 0x99] 10.
Proof. split; [|cbn; lia]. repeat (apply Forall_cons_2; [unfold is_byte; lia|]). apply Forall_nil_2. Qed.

Lemma access_witness : ∃ data', fill_direct 4 [0x33; 0x44; 0x55; 0x76; 0x99] 3 6 0xE = Some data' ∧ get_direct 4 data' 5 = Some 0xE ∧ get_direct 4 data' 6 = Some 6.
Proof.
  destruct (access_correct 4 [0x33; 0x44; 0x55; 0x76; 0x99] 3 6 0xE 10) as (data' & E & _ & _ & G); [by vm_compute; tauto|apply some_nibbles|lia|lia|done|].
  exists data'. split; [exact E|]. split; [exact (G 5 ltac:(lia))|exact (G 6 ltac:(lia))].
Defined.

Lemma binary_search_witness : ∃ low, lower_bound 4 [0x33; 0x44; 0x55; 0x76; 0x99] 10 5 = Some low ∧ ∀ j, low <= j < 10 → 5 <= elem 4 [0x33; 0x44; 0x55; 0x76; 0x99] j.
Proof.
  destruct (proj1 (binary_search_correct 4 [0x33; 0x44; 0x55; 0x76; 0x99] 10 5 ltac:(by vm_compute; tauto) some_nibbles ltac:(lia)
    ltac:(intros i j Hi Hj; assert (∀ k, 0 <= k < 10 → k = 0 ∨ k = 1 ∨ k = 2 ∨ k = 3 ∨ k = 4 ∨ k = 5 ∨ k = 6 ∨ k = 7 ∨ k = 8 ∨ k = 9) as C by lia;
      destruct (C i ltac:(lia)) as [->|[->|[->|[->|[->|[->|[->|[->|[->| ->]]]]]]]]]; destruct (C j ltac:(lia)) as [->|[->|[->|[->|[->|[->|[->|[->|[->| ->]]]]]]]]]; by (vm_compute; discriminate) || lia))) as (low & E & _ & _ & H).
  by exists low.
Defined.
