(* ===== verification/WordTricks.v ===== *)
(** * Conditions, and what a search does with a match

    Model of the conditions of query_conditions.hpp on integers and of [QueryState<int64_t>] of array.hpp,
    the state that every match of a search updates: an aggregate, a list of indices, or a callback. *)

From S2P Require Import Prelude ArrayDirect.

(** ** Conditions *)

Inductive Cond := Equal | NotEqual | Greater | Less | NoCond | NotNull.
#[export] Instance Cond_eq_dec : EqDecision Cond.
Proof. solve_decision. Defined.

Module Condition.
(** [operator()], with which of the values are null *)
Definition test (c : Cond) (v1 v2 : Z) (v1null v2null : bool) : bool :=
  match c with
  | Equal => (v1null && v2null) || (negb v1null && negb v2null && (v1 =? v2))
  | NotEqual =>
      if negb v1null && negb v2null then negb (v1 =? v2) else
      if v1null && v2null then false else true
  | Greater => if v1null || v2null then false else v2 <? v1
  | Less => if v1null || v2null then false else v1 <? v2
  | NoCond => true
  | NotNull => negb v1null
  end.

(** Whether some value, or every value, between the bounds can fulfil the condition *)
Definition can_match (c : Cond) (v lbound ubound : Z) : bool :=
  match c with
  | Equal => (lbound <=? v) && (v <=? ubound)
  | NotEqual => negb ((v =? 0) && (ubound =? 0) && (lbound =? 0))
  | Greater => v <? ubound
  | Less => lbound <? v
  | NoCond | NotNull => true
  end.
Definition will_match (c : Cond) (v lbound ubound : Z) : bool :=
  match c with
  | Equal => (v =? 0) && (ubound =? 0) && (lbound =? 0)
  | NotEqual => (ubound <? v) || (v <? lbound)
  | Greater => v <? lbound
  | Less => ubound <? v
  | NoCond | NotNull => true
  end.
End Condition.

(** ** What a search does *)

Inductive Action :=
  | act_ReturnFirst | act_Sum | act_Max | act_Min | act_Count | act_FindAll
  | act_CallIdx | act_CallbackIdx | act_CallbackVal | act_CallbackNone | act_CallbackBoth | act_Average.
#[export] Instance Action_eq_dec : EqDecision Action.
Proof. solve_decision. Defined.

(** A conversion to [int64_t] *)
Definition int64 (z : Z) : Z := signed 64 z.

(** The operations on words that are compiled into the library, and the value of
    a shift of a word by all of its 64 bits, which the language leaves undefined *)
Class Machine := {
  round_up : Z → Z → Z;
  first_set_bit64 : Z → Z;
  fast_popcount64 : Z → Z;
  undefined_shift : Z → Z }.

(** What a search calls for every match, and for a word of matches at once: it is told whether
    to go on, or whether the matches have been consumed. *)
Class Consumer (St : Type) := {
  find_action : Z → option Z → St → option (bool * St);
  find_action_pattern : Z → Z → St → option (bool * St) }.

Module Query.
Section query.
(** The column of the found indices, or the state of the callback *)
Context {C : Type} (add_to_column : Z → C → C) (callback : Z → C → bool * C) {MC : Machine}.

(** [m_state] is the address of the column when all matches are collected; the column
    itself, or what the callback refers to, is [akku]. *)
Record QueryState := { m_state : Z; m_match_count : Z; m_limit : Z; m_minmax_index : Z; akku : C }.

Definition with_state (s : QueryState) (st : Z) : QueryState :=
  {| m_state := st; m_match_count := m_match_count s; m_limit := m_limit s; m_minmax_index := m_minmax_index s; akku := akku s |}.
Definition with_count (s : QueryState) (n : Z) : QueryState :=
  {| m_state := m_state s; m_match_count := n; m_limit := m_limit s; m_minmax_index := m_minmax_index s; akku := akku s |}.
Definition with_minmax (s : QueryState) (i : Z) : QueryState :=
  {| m_state := m_state s; m_match_count := m_match_count s; m_limit := m_limit s; m_minmax_index := i; akku := akku s |}.
Definition with_akku (s : QueryState) (c : C) : QueryState :=
  {| m_state := m_state s; m_match_count := m_match_count s; m_limit := m_limit s; m_minmax_index := m_minmax_index s; akku := c |}.

Definition uses_val (action : Action) : bool :=
  match action with act_Max | act_Min | act_Sum => true | _ => false end.

Definition init (action : Action) (c : C) (limit : Z) (s : QueryState) : option QueryState :=
  let s := {| m_state := m_state s; m_match_count := 0; m_limit := limit; m_minmax_index := npos; akku := c |} in
  match action with
  | act_Max => Some (with_state s (- 0x7fffffffffffffff - 1))
  | act_Min => Some (with_state s 0x7fffffffffffffff)
  | act_ReturnFirst => Some (with_state s (int64 npos))
  | act_Sum => Some (with_state s 0)
  | act_Count => Some (with_state s 0)
  | act_FindAll => Some s
  | act_CallbackIdx => Some s
  | _ => None
  end.

(** [match<action, true>]: whether the pattern was consumed *)
Definition match_pattern (action : Action) (indexpattern : Z) (s : QueryState) : bool * QueryState :=
  match action with
  | act_Count =>
      if m_limit s <=? m_match_count s ⊕ 64 then (false, s) else
      let s := with_state s (int64 (m_state s + fast_popcount64 indexpattern)) in
      (true, with_count s (wrap (m_state s)))
  | _ => (false, s)
  end.

(** [match<action, false>] of a value: whether to go on *)
Definition match_value (action : Action) (index value : Z) (s : QueryState) : option (bool * QueryState) :=
  let s := with_count s (m_match_count s ⊕ 1) in
  let go_on s := Some (m_match_count s <? m_limit s, s) in
  match action with
  | act_Max => go_on (if m_state s <? value then with_minmax (with_state s value) index else s)
  | act_Min => go_on (if value <? m_state s then with_minmax (with_state s value) index else s)
  | act_Sum => go_on (with_state s (int64 (m_state s + value)))
  | act_Count => let s := with_state s (int64 (m_state s + 1)) in go_on (with_count s (wrap (m_state s)))
  | act_FindAll => go_on (with_akku s (add_to_column index (akku s)))
  | act_ReturnFirst => Some (false, with_state s (int64 index))
  | _ => None
  end.

(** [match<action, false>] of a value or null *)
Definition match_optional (action : Action) (index : Z) (value : option Z) (s : QueryState) : option (bool * QueryState) :=
  match value with
  | Some value => match_value action index value s
  | None =>
      let go_on s := Some (m_match_count s <? m_limit s, s) in
      match action with
      | act_Count => let s := with_state s (int64 (m_state s + 1)) in go_on (with_count s (wrap (m_state s)))
      | act_FindAll => go_on (with_akku s (add_to_column index (akku s)))
      | act_ReturnFirst => Some (false, with_state (with_count s (m_match_count s ⊕ 1)) (int64 index))
      | _ => go_on s
      end
  end.

(** [Array::find_action] and [Array::find_action_pattern] *)
Definition do_find_action (action : Action) (index : Z) (value : option Z) (s : QueryState) : option (bool * QueryState) :=
  match action with
  | act_CallbackIdx => let '(go, c) := callback index (akku s) in Some (go, with_akku s c)
  | _ => match_optional action index value s
  end.
Definition do_find_action_pattern (action : Action) (index pattern : Z) (s : QueryState) : option (bool * QueryState) :=
  match action with
  | act_CallbackIdx => Some (false, s)
  | _ => Some (match_pattern action pattern s)
  end.

(** The consumer of a search with a given action *)
#[local] Instance query_consumer (action : Action) : Consumer QueryState := {
  find_action := do_find_action action;
  find_action_pattern := do_find_action_pattern action }.
End query.
End Query.
Arguments Query.QueryState C : clear implicits.

(** * Searching in words of packed elements

    Model of the functions of array.hpp that examine a word of 64 bits, which holds 64, 32, 16, 8, 4, 2
    elements or one, without taking it apart. *)

(** [~0ULL] *)
Abbreviation ones64 := 18446744073709551615%Z.

Definition no0 (v : Z) : Z := if v =? 0 then 1 else v.

(** [(1ULL << width) - 1], and all bits for 64 *)
Definition width_mask (w : Z) : Z := if w =? 64 then ones64 else Z.shiftl 1 w - 1.

Module Words.
Section words.
Context {MC : Machine}.

(** [v >> n] and [v << n] on [uint64_t] *)
Definition shr64 (v n : Z) : Z := if n <? 64 then Z.shiftr v n else undefined_shift v.
Definition shl64 (v n : Z) : Z := if n <? 64 then wrap (Z.shiftl v n) else undefined_shift v.
Definition not64 (v : Z) : Z := Z.lxor v ones64.

(** [a |= (a >> n) & c] *)
Definition smear (a n c : Z) : Z := Z.lor a (Z.land (shr64 a n) c).

(** The last steps of [cascade] *)
Definition isolate (zero : bool) (a m : Z) : Z := let a := Z.land a m in if zero then Z.lxor a m else a.

Definition cascade (w : Z) (zero : bool) (a : Z) : option Z :=
  let m1 := 0x5555555555555555 in
  if w =? 1 then Some (if zero then not64 a else a) else
  if w =? 2 then
    let c1 := ones64 / 0x3 * 0x1 in
    Some (isolate zero (smear a 1 c1) m1) else
  if w =? 4 then
    let m := ones64 / 0xF * 0x1 in
    let c1 := ones64 / 0xF * 0x7 in let c2 := ones64 / 0xF * 0x3 in
    Some (isolate zero (smear (smear a 1 c1) 2 c2) m) else
  if w =? 8 then
    let m := ones64 / 0xFF * 0x1 in
    let c1 := ones64 / 0xFF * 0x7F in let c2 := ones64 / 0xFF * 0x3F in let c3 := ones64 / 0xFF * 0x0F in
    Some (isolate zero (smear (smear (smear a 1 c1) 2 c2) 4 c3) m) else
  if w =? 16 then
    let m := ones64 / 0xFFFF * 0x1 in
    let c1 := ones64 / 0xFFFF * 0x7FFF in let c2 := ones64 / 0xFFFF * 0x3FFF in
    let c3 := ones64 / 0xFFFF * 0x0FFF in let c4 := ones64 / 0xFFFF * 0x00FF in
    Some (isolate zero (smear (smear (smear (smear a 1 c1) 2 c2) 4 c3) 8 c4) m) else
  if w =? 32 then
    let m := ones64 / 0xFFFFFFFF * 0x1 in
    let c1 := ones64 / 0xFFFFFFFF * 0x7FFFFFFF in let c2 := ones64 / 0xFFFFFFFF * 0x3FFFFFFF in
    let c3 := ones64 / 0xFFFFFFFF * 0x0FFFFFFF in let c4 := ones64 / 0xFFFFFFFF * 0x00FFFFFF in
    let c5 := ones64 / 0xFFFFFFFF * 0x0000FFFF in
    Some (isolate zero (smear (smear (smear (smear (smear a 1 c1) 2 c2) 4 c3) 8 c4) 16 c5) m) else
  if w =? 64 then Some (Z.b2z (Bool.eqb (a =? 0) zero)) else
  None.

(** As an unsigned word *)
Definition lower_bits (w : Z) : option Z :=
  if w =? 1 then Some 0xFFFFFFFFFFFFFFFF else
  if w =? 2 then Some 0x5555555555555555 else
  if w =? 4 then Some 0x1111111111111111 else
  if w =? 8 then Some 0x0101010101010101 else
  if w =? 16 then Some 0x0001000100010001 else
  if w =? 32 then Some 0x0000000100000001 else
  if w =? 64 then Some 0x0000000000000001 else
  None.

(** Whether any element of a word is 0 *)
Definition test_zero (w value : Z) : option bool :=
  lower ← lower_bits w;
  let upper := shl64 lower (if w =? 0 then 0 else w - 1) in
  let has_zero_byte := Z.land (Z.land (value ⊖ lower) (not64 value)) upper in
  Some (negb (has_zero_byte =? 0)).

(** [((v >> (width * start)) & mask) == 0] *)
Definition is_zero_at (w v start : Z) : bool := Z.land (shr64 v (w * start)) (width_mask w) =? 0.

(** The last loop of [find_zero] *)
Fixpoint find_zero_loop (fuel : nat) (eq : bool) (w v start : Z) : option Z :=
  match fuel with
  | O => None
  | S fuel =>
      if Bool.eqb eq (negb (is_zero_at w v start)) then
        REALM_ASSERT (start <=? 8 * 8);; find_zero_loop fuel eq w v (start + 1)
      else Some start
  end.

(** Finds the first zero (or non-zero) element of a word that has one *)
Definition find_zero (eq : bool) (w v : Z) : option Z :=
  if Bool.eqb eq (is_zero_at w v 0) then Some 0 else
  start ←
    (if w <=? 8 then
       has_zero_byte ← test_zero w (Z.lor v 0xffffffff00000000);
       if (if eq then negb has_zero_byte else Z.land v 0x00000000ffffffff =? 0) then
         let start := 64 / no0 w / 2 in
         if w <=? 4 then
           has_zero_byte ← test_zero w (Z.lor v 0xffff000000000000);
           if (if eq then negb has_zero_byte else Z.land v 0x0000ffffffffffff =? 0) then Some (start + 64 / no0 w / 4) else Some start
         else Some start
       else
         if w <=? 4 then
           has_zero_byte ← test_zero w (Z.lor v 0xffffffffffff0000);
           if (if eq then negb has_zero_byte else Z.land v 0x000000000000ffff =? 0) then Some (0 + 64 / no0 w / 4) else Some 0
         else Some 0
     else Some 0);
  find_zero_loop 66 eq w v start.

(** The constant for the comparison of all elements of a word with [v] *)
Definition find_gtlt_magic (gt : bool) (w v : Z) : Z :=
  let mask1 := width_mask w in
  let mask2 := Z.shiftr mask1 1 in
  if gt then wrap (ones64 / no0 mask1 * (mask2 ⊖ v)) else wrap (ones64 / no0 mask1 * wrap v).

(** ** Passing the matches of a word to the consumer *)

Context {St : Type} {CO : Consumer St}.

(** The loop of [find_gtlt_fast]: [m] has the highest bit of every element that matches. *)
Fixpoint gtlt_fast_loop (fuel : nat) (w mask1 chunk m p baseindex : Z) (s : St) : option (bool * St) :=
  if m =? 0 then Some (true, s) else
  match fuel with
  | O => None
  | S fuel =>
      '(consumed, s) ← find_action_pattern baseindex (shr64 m (no0 w - 1)) s;
      if (consumed : bool) then Some (true, s) else
      let t := first_set_bit64 m / no0 w in
      let p := p + t in
      '(go, s) ← find_action (p ⊕ baseindex) (Some (int64 (Z.land (shr64 chunk (p * w)) mask1))) s;
      if (go : bool) then
        let m := if (t + 1) * w =? 64 then 0 else shr64 m ((t + 1) * w) in
        gtlt_fast_loop fuel w mask1 chunk m (p + 1) baseindex s
      else Some (false, s)
  end.

Definition find_gtlt_fast (gt : bool) (w chunk magic baseindex : Z) (s : St) : option (bool * St) :=
  let mask1 := width_mask w in
  let mask2 := Z.shiftr mask1 1 in
  let m := if gt then Z.land (Z.lor (chunk ⊕ magic) chunk) (wrap (ones64 / no0 mask1 * (mask2 + 1)))
           else Z.land (Z.land (chunk ⊖ magic) (not64 chunk)) (wrap (ones64 / no0 mask1 * (mask2 + 1))) in
  gtlt_fast_loop 65 w mask1 chunk m 0 baseindex s.

(** The lowest element of a chunk as [find_gtlt] reads it *)
Definition lowest (w chunk : Z) : Z := if w <? 8 then Z.land chunk (width_mask w) else signed w chunk.

(** [n] elements from the lowest on, of which [t] have been shifted out; the code writes them out one by one. *)
Fixpoint gtlt_each (n : nat) (gt : bool) (w v chunk t baseindex : Z) (s : St) : option (bool * St) :=
  match n with
  | O => Some (true, s)
  | S n =>
      let e := lowest w chunk in
      '(go, s) ← (if (if gt then v <? e else e <? v) then find_action (t ⊕ baseindex) (Some e) s else Some (true, s));
      if (go : bool) then gtlt_each n gt w v (shr64 chunk w) (t + 1) baseindex s else Some (false, s)
  end.

(** With elements of 64 bits the code compares [v] with itself. *)
Definition find_gtlt (gt : bool) (w v chunk baseindex : Z) (s : St) : option (bool * St) :=
  if (w =? 1) || (w =? 2) || (w =? 4) || (w =? 8) || (w =? 16) || (w =? 32)
  then gtlt_each (Z.to_nat (64 / w)) gt w v chunk 0 baseindex s
  else if w =? 64
  then (if (if gt then v <? v else v <? v) then find_action (0 ⊕ baseindex) (Some v) s else Some (true, s))
  else Some (true, s).
End words.
End Words.

(** *** The examples of the code's comments *)
Section examples.
#[local] Instance no_machine : Machine := {| round_up p _ := p; first_set_bit64 x := x; fast_popcount64 x := x; undefined_shift x := x |}.
Example cascade_example : Words.cascade 4 true 0x5fd07a107610f610 = Some 0x0001000100010001.
Proof. reflexivity. Qed.
Example test_zero_example : (Words.test_zero 8 0x1234560078ffee01, Words.test_zero 8 0x1234567878ffee01) = (Some true, Some false).
Proof. reflexivity. Qed.
Example find_zero_example : Words.find_zero true 4 0x5fd07a107610f617 = Some 4.
Proof. reflexivity. Qed.
End examples.
