(* ===== verification/WordTricksTheorems.v ===== *)
(** * Words as lists of elements

    A word is packed from its elements, the lowest first; the bit operations that respect the elements
    are maps over them. *)

From S2P Require Import Prelude ArrayDirect ArrayAccess WordTricks.

Section packing.
Context (w : Z) (Hw : 0 < w).

Fixpoint pack (ds : list Z) : Z := match ds with [] => 0 | d :: ds => d + 2 ^ w * pack ds end.
Fixpoint unpack (n : nat) (x : Z) : list Z :=
  match n with O => [] | S n => x mod 2 ^ w :: unpack n (x / 2 ^ w) end.

Definition digits_ok (ds : list Z) : Prop := Forall (λ d, 0 <= d < 2 ^ w) ds.

Lemma radix_pos : 0 < 2 ^ w.
Proof using Hw. apply pow2_pos. lia. Qed.

Lemma radix_two : 2 <= 2 ^ w.
Proof using Hw. apply (Z.pow_le_mono_r 2 1); lia. Qed.

(** ** Packing and unpacking *)
Lemma pack_bounds ds : digits_ok ds → 0 <= pack ds < 2 ^ (w * Z.of_nat (length ds)).
Proof using Hw.
  pose proof radix_pos. induction 1 as [|d ds Hd Hds IH]; [rewrite Z.mul_0_r; done|]. cbn [pack length].
  replace (w * Z.of_nat (S (length ds))) with (w + w * Z.of_nat (length ds)) by lia. rewrite Z.pow_add_r by nia. nia.
Qed.

Lemma unpack_length n x : length (unpack n x) = n.
Proof using Type. revert x. induction n; intros; cbn; [done|by f_equal]. Qed.
Lemma unpack_ok n x : digits_ok (unpack n x).
Proof using Hw.
  pose proof radix_pos. revert x. induction n as [|n IH]; intros x; cbn; [constructor|]. constructor; [by apply Z.mod_pos_bound|apply IH].
Qed.

Lemma pack_unpack n x : 0 <= x < 2 ^ (w * Z.of_nat n) → pack (unpack n x) = x.
Proof using Hw.
  pose proof radix_pos. revert x. induction n as [|n IH]; intros x Hx; [rewrite Z.mul_0_r in Hx; cbn in *; lia|]. cbn [unpack pack].
  replace (w * Z.of_nat (S n)) with (w + w * Z.of_nat n) in Hx by lia. rewrite Z.pow_add_r in Hx by nia.
  rewrite IH; [pose proof (Z.div_mod x (2 ^ w)); lia|]. split; [apply Z.div_pos; lia|apply Z.div_lt_upper_bound; lia].
Qed.

Lemma unpack_lookup n x i : (i < n)%nat → unpack n x !! i = Some (field w (w * Z.of_nat i) x).
Proof using Hw.
  pose proof radix_pos. revert x i. induction n as [|n IH]; intros x i Hi; [lia|]. destruct i as [|i]; cbn [unpack].
  - unfold field. rewrite Z.mul_0_r, Z.div_1_r. done.
  - cbn. rewrite IH by lia. f_equal. unfold field. replace (w * Z.of_nat (S i)) with (w + w * Z.of_nat i) by lia.
    by rewrite Z.pow_add_r, Z.div_div by nia.
Qed.

(** ** The bits of a word *)
Lemma testbit_cons d x i : 0 <= d < 2 ^ w → 0 <= i → Z.testbit (d + 2 ^ w * x) i = if i <? w then Z.testbit d i else Z.testbit x (i - w).
Proof using Hw.
  intros Hd Hi. destruct (Z.ltb_spec i w).
  - rewrite <- (Z.mod_pow2_bits_low _ w), (Z.mul_comm (2 ^ w)), Z_mod_plus_full, Z.mod_small by lia. done.
  - replace i with (i - w + w) at 1 by lia. rewrite <- Z.div_pow2_bits by lia.
    by rewrite (Z.mul_comm (2 ^ w)), Z.div_add, Z.div_small by lia.
Qed.

Lemma testbit_pack ds i : digits_ok ds → 0 <= i → Z.testbit (pack ds) i = Z.testbit (nth (Z.to_nat (i / w)) ds 0) (i mod w).
Proof using Hw.
  intros Hds. revert i. induction Hds as [|d ds Hd Hds IH]; intros i Hi.
  { cbn. rewrite Z.bits_0. destruct (Z.to_nat _); by rewrite Z.bits_0. }
  cbn [pack]. rewrite testbit_cons by done. destruct (Z.ltb_spec i w).
  - rewrite Z.div_small, Z.mod_small by lia. done.
  - rewrite IH by lia. assert (i / w = (i - w) / w + 1) as -> by (rewrite <- Z.div_add by lia; f_equal; lia).
    assert (i mod w = (i - w) mod w) as -> by (rewrite <- (Z_mod_plus_full (i - w) 1); f_equal; lia).
    rewrite Z2Nat.inj_add by (apply Z.div_pos || lia; lia). by rewrite Nat.add_1_r.
Qed.

(** The bits of an element, and those above all elements *)
Lemma testbit_element ds (i : nat) d b : digits_ok ds → ds !! i = Some d → 0 <= b < w → Z.testbit (pack ds) (w * Z.of_nat i + b) = Z.testbit d b.
Proof using Hw.
  intros Hds Hd Hb. rewrite testbit_pack by (done || nia).
  rewrite Z.mul_comm, Z.add_comm, Z_mod_plus_full, Z.div_add, Z.div_small, Z.mod_small by lia.
  by rewrite Z.add_0_l, Nat2Z.id, (nth_lookup_Some _ _ _ _ Hd).
Qed.
Lemma testbit_above ds i : digits_ok ds → w * Z.of_nat (length ds) <= i → Z.testbit (pack ds) i = false.
Proof using Hw.
  intros Hds Hi. rewrite testbit_pack by (done || nia). rewrite nth_overflow; [by rewrite Z.bits_0|].
  assert (Z.of_nat (length ds) <= i / w) by (apply Z.div_le_lower_bound; lia). lia.
Qed.

(** A word with the bits of some elements is packed from them. *)
Lemma pack_ext ds x : digits_ok ds → (∀ i, w * Z.of_nat (length ds) <= i → Z.testbit x i = false) →
  (∀ (i : nat) d b, ds !! i = Some d → 0 <= b < w → Z.testbit x (w * Z.of_nat i + b) = Z.testbit d b) → x = pack ds.
Proof using Hw.
  intros Hds Hx H. apply Z.bits_inj'. intros i Hi.
  destruct (Z.lt_ge_cases i (w * Z.of_nat (length ds))) as [Hl|Hl]; [|by rewrite Hx, testbit_above].
  pose proof (Z.mod_pos_bound i w Hw). pose proof (Z.div_mod i w ltac:(lia)). assert (0 <= i / w) by (apply Z.div_pos; lia).
  destruct (lookup_lt_is_Some_2 ds (Z.to_nat (i / w))) as [d Hd]; [nia|].
  replace i with (w * Z.of_nat (Z.to_nat (i / w)) + i mod w) by lia. by rewrite (H _ _ _ Hd), (testbit_element _ _ _ _ Hds Hd).
Qed.

(** *** Operations on the bits of two words *)
Lemma pack_op (op : Z → Z → Z) (f : bool → bool → bool) ds es :
  (∀ a b i, Z.testbit (op a b) i = f (Z.testbit a i) (Z.testbit b i)) → f false false = false →
  digits_ok ds → digits_ok es → length ds = length es →
  op (pack ds) (pack es) = pack (zip_with op ds es) ∧ digits_ok (zip_with op ds es).
Proof using Hw.
  intros Hop Hf. pose proof radix_pos. revert es. induction ds as [|d ds IH]; intros [|e es] Hds Hes Hl; try done.
  - split; [|constructor]. cbn. apply Z.bits_inj'. intros i Hi. by rewrite Hop, Z.bits_0.
  - apply Forall_cons in Hds as [Hd Hds], Hes as [He Hes]. injection Hl as Hl. destruct (IH es Hds Hes Hl) as [E Hok].
    assert (0 <= op d e < 2 ^ w) as Hde.
    { assert (op d e = op d e mod 2 ^ w) as ->; [|by apply Z.mod_pos_bound]. apply Z.bits_inj'. intros i Hi. destruct (Z.lt_ge_cases i w).
      - by rewrite Z.mod_pow2_bits_low by lia.
      - rewrite Z.mod_pow2_bits_high, Hop by lia.
        assert (∀ y, 0 <= y < 2 ^ w → Z.testbit y i = false) as Hy; [|by rewrite !Hy].
        intros y Hy. rewrite <- (Z.mod_small y (2 ^ w)) by lia. apply Z.mod_pow2_bits_high. lia. }
    cbn [zip_with pack]. split; [|by constructor]. apply Z.bits_inj'. intros i Hi.
    rewrite Hop, !testbit_cons by done. destruct (i <? w); [by rewrite Hop|]. by rewrite <- E, Hop.
Qed.

Lemma pack_land ds es : digits_ok ds → digits_ok es → length ds = length es → Z.land (pack ds) (pack es) = pack (zip_with Z.land ds es) ∧ digits_ok (zip_with Z.land ds es).
Proof using Hw. intros. apply (pack_op _ andb); try done. intros. apply Z.land_spec. Qed.
Lemma pack_lor ds es : digits_ok ds → digits_ok es → length ds = length es → Z.lor (pack ds) (pack es) = pack (zip_with Z.lor ds es) ∧ digits_ok (zip_with Z.lor ds es).
Proof using Hw. intros. apply (pack_op _ orb); try done. intros. apply Z.lor_spec. Qed.
Lemma pack_lxor ds es : digits_ok ds → digits_ok es → length ds = length es → Z.lxor (pack ds) (pack es) = pack (zip_with Z.lxor ds es) ∧ digits_ok (zip_with Z.lxor ds es).
Proof using Hw. intros. apply (pack_op _ xorb); try done. intros. apply Z.lxor_spec. Qed.

(** *** Parts of a word *)
Lemma pack_app ds es : pack (ds ++ es) = pack ds + 2 ^ (w * Z.of_nat (length ds)) * pack es.
Proof using Hw.
  induction ds as [|d ds IH]; [rewrite Z.mul_0_r; cbn [pack app length]; lia|]. cbn [pack app length]. rewrite IH.
  replace (w * Z.of_nat (S (length ds))) with (w + w * Z.of_nat (length ds)) by lia. rewrite Z.pow_add_r by nia. ring.
Qed.

Lemma pack_zeros n : pack (replicate n 0) = 0.
Proof using Type. induction n; cbn; [done|]. rewrite IHn. lia. Qed.

Lemma zeros_ok n : digits_ok (replicate n 0).
Proof using Hw. pose proof radix_pos. apply Forall_replicate. lia. Qed.

(** Shifting whole elements out *)
Lemma pack_drop ds (k : nat) : digits_ok ds → Z.shiftr (pack ds) (w * Z.of_nat k) = pack (drop k ds).
Proof using Hw.
  intros Hds. pose proof radix_pos. rewrite Z.shiftr_div_pow2 by nia. destruct (Nat.le_gt_cases k (length ds)) as [Hk|Hk].
  - rewrite <- (take_drop k ds) at 1. rewrite pack_app, length_take, Nat.min_l by done. pose proof (pow2_pos (w * Z.of_nat k) ltac:(nia)).
    pose proof (pack_bounds (take k ds) (Forall_take _ _ _ Hds)) as B. rewrite length_take, Nat.min_l in B by done.
    rewrite Z.mul_comm, Z.div_add, Z.div_small by lia. lia.
  - rewrite drop_ge by lia. cbn. apply Z.div_small. pose proof (pack_bounds ds Hds) as B. split; [lia|]. eapply Z.lt_le_trans; [apply B|].
    apply Z.pow_le_mono_r; nia.
Qed.

Lemma pack_head d ds : 0 <= d < 2 ^ w → pack (d :: ds) mod 2 ^ w = d.
Proof using Type. intros Hd. cbn. by rewrite Z.mul_comm, Z_mod_plus_full, Z.mod_small. Qed.

Lemma pack_zero ds : digits_ok ds → pack ds = 0 ↔ Forall (λ d, d = 0) ds.
Proof using Hw.
  pose proof radix_pos as R. intros Hok. split.
  - induction Hok as [|d ds Hd Hds IH]; intros E; [constructor|]. cbn in E. pose proof (pack_bounds ds Hds). constructor; [nia|]. apply IH. nia.
  - intros Hz. rewrite <- (pack_zeros (length ds)). f_equal. clear Hok. induction Hz as [|d ds -> _ IH]; cbn; [done|by f_equal].
Qed.

(** *** Arithmetic on all elements *)
Lemma pack_add ds es : length ds = length es → pack ds + pack es = pack (zip_with Z.add ds es).
Proof using Type. revert es. induction ds as [|d ds IH]; intros [|e es] H; try done. cbn. rewrite <- IH by (injection H; done). ring. Qed.
Lemma pack_mul c ds : c * pack ds = pack ((λ d, c * d) <$> ds).
Proof using Type. induction ds as [|d ds IH]; cbn; [lia|]. change (list_fmap _ _ _ ds) with ((λ d, c * d) <$> ds). rewrite <- IH. ring. Qed.
Lemma pack_replicate c n : c * pack (replicate n 1) = pack (replicate n c).
Proof using Type. rewrite pack_mul, fmap_replicate. by rewrite Z.mul_1_r. Qed.
End packing.

(** ** Counting bits *)
Fixpoint bits_set (n : nat) (x : Z) : nat :=
  match n with O => O | S n => (Nat.b2n (Z.odd x) + bits_set n (Z.shiftr x 1))%nat end.

Lemma bits_set_app n m x : bits_set (n + m) x = (bits_set n x + bits_set m (Z.shiftr x (Z.of_nat n)))%nat.
Proof.
  revert x. induction n as [|n IH]; intros x; [done|]. cbn [Nat.add bits_set]. rewrite IH, Z.shiftr_shiftr by lia.
  replace (1 + Z.of_nat n) with (Z.of_nat (S n)) by lia. lia.
Qed.

Lemma bits_set_low n x y : 0 <= y → (∀ i, 0 <= i < Z.of_nat n → Z.testbit x i = Z.testbit y i) → bits_set n x = bits_set n y.
Proof.
  revert x y. induction n as [|n IH]; intros x y Hy H; [done|]. cbn [bits_set]. rewrite <- !Z.bit0_odd, H by lia. f_equal.
  apply IH; [by apply Z.shiftr_nonneg|]. intros i Hi. rewrite !Z.shiftr_spec by lia. apply H. lia.
Qed.

(** *** In a word whose elements are 0 or 1 *)
Lemma bits_set_flag w (b : bool) : (0 < w)%nat → bits_set w (Z.b2z b) = Nat.b2n b.
Proof.
  intros Hw. destruct w as [|w]; [lia|]. cbn [bits_set]. replace (Z.odd (Z.b2z b)) with b by (by destruct b).
  replace (Z.shiftr (Z.b2z b) 1) with 0 by (by destruct b). assert (∀ n, bits_set n 0 = 0%nat) as -> by (intros n; induction n; cbn; [done|apply IHn]). lia.
Qed.

Lemma bits_set_pack (w : nat) (fl : list bool) : (0 < w)%nat →
  bits_set (w * length fl) (pack (Z.of_nat w) (Z.b2z <$> fl)) = length (filter (λ b, b = true) fl).
Proof.
  intros Hw. induction fl as [|b fl IH]; [rewrite Nat.mul_0_r; done|]. cbn [fmap list_fmap length pack]. rewrite Nat.mul_succ_r, Nat.add_comm, bits_set_app.
  change (list_fmap _ _ Z.b2z fl) with (Z.b2z <$> fl). set (x := pack _ _) in *.
  assert (0 <= Z.b2z b < 2 ^ Z.of_nat w) as Hb.
  { assert (2 ^ 1 <= 2 ^ Z.of_nat w) by (apply Z.pow_le_mono_r; lia). destruct b; cbn; lia. }
  rewrite (bits_set_low w _ (Z.b2z b)) by (lia || (intros i Hi; rewrite testbit_cons by lia; by replace (i <? Z.of_nat w) with true by bool_lia)).
  rewrite Z.shiftr_div_pow2, Z.mul_comm, Z.div_add, Z.div_small, Z.add_0_l, IH, bits_set_flag by lia.
  rewrite filter_cons. by destruct b.
Qed.

(** * What the bit operations on words compute

    For every width, the functions that examine a word at once are functions of its elements. *)

(** What the compiled operations on words are for; nothing is known of an undefined shift but that its
    result is a word. *)
Class MachineLaws {MC : Machine} := {
  round_up_spec p align : 0 <= p → 0 < align → p + align < W64 → round_up p align mod align = 0 ∧ p <= round_up p align < p + align;
  first_set_bit64_spec x : 0 < x < W64 → 0 <= first_set_bit64 x < 64 ∧ Z.testbit x (first_set_bit64 x) = true ∧ ∀ i, 0 <= i < first_set_bit64 x → Z.testbit x i = false;
  fast_popcount64_spec x : 0 <= x < W64 → fast_popcount64 x = Z.of_nat (bits_set 64 x);
  undefined_shift_word x : 0 <= undefined_shift x < W64 }.

(** The widths of elements that a word can hold, and how many *)
Definition word_widths : list Z := [1; 2; 4; 8; 16; 32; 64].
Definition per_word (w : Z) : nat := Z.to_nat (64 / w).

Lemma word_width_cases w (P : Z → Prop) : In w word_widths → P 1 → P 2 → P 4 → P 8 → P 16 → P 32 → P 64 → P w.
Proof. unfold word_widths. intros H. simpl in H. repeat (destruct H as [<-|H]; [done|]). done. Qed.
Ltac by_word_width w := match goal with H : In w word_widths |- _ => pattern w; apply (word_width_cases w _ H); clear H end.

Lemma word_width_pos w : In w word_widths → 0 < w.
Proof. intros Hw. by by_word_width w. Qed.
Lemma per_word_bits w : In w word_widths → w * Z.of_nat (per_word w) = 64.
Proof. intros Hw. by by_word_width w. Qed.
Lemma per_word_bound w : In w word_widths → (1 <= per_word w <= 64)%nat.
Proof. intros Hw. by_word_width w; vm_compute; lia. Qed.
Lemma per_word_div w : In w word_widths → 64 / no0 w = Z.of_nat (per_word w).
Proof. intros Hw. by by_word_width w. Qed.

(** ** Elements *)
Section digits.
Context (w : Z) (Hw : 0 < w).
Abbreviation top := (2 ^ (w - 1)).

Lemma top_half : 2 ^ w = 2 * top ∧ 0 < top.
Proof using Hw. split; [rewrite <- Z.pow_succ_r by lia; f_equal; lia|apply pow2_pos; lia]. Qed.

Lemma top_bit a : 0 <= a < 2 ^ w → Z.testbit a (w - 1) = (top <=? a).
Proof using Hw.
  intros Ha. destruct top_half as [E P]. pose proof (Z.testbit_spec' a (w - 1) ltac:(lia)) as T.
  assert (a / top = if top <=? a then 1 else 0) as D.
  { destruct (Z.leb_spec top a); symmetry; [apply (Z.div_unique _ _ 1 (a - top))|apply (Z.div_unique _ _ 0 a)]; lia. }
  rewrite D in T. destruct (top <=? a), (Z.testbit a (w - 1)); cbn in T; done.
Qed.

Lemma land_top a : 0 <= a < 2 ^ w → Z.land a top = if top <=? a then top else 0.
Proof using Hw.
  intros Ha. rewrite <- top_bit by done. apply Z.bits_inj'. intros i Hi. rewrite Z.land_spec, Z.pow2_bits_eqb by lia.
  destruct (Z.eqb_spec (w - 1) i) as [<-|Hne].
  - destruct (Z.testbit a (w - 1)); cbn; [by rewrite Z.pow2_bits_true by lia|by rewrite Z.bits_0].
  - rewrite andb_false_r. destruct (Z.testbit a (w - 1)); [|by rewrite Z.bits_0]. symmetry. apply Z.pow2_bits_false. lia.
Qed.

Lemma land_digit a b : 0 <= a < 2 ^ w → 0 <= b < 2 ^ w → 0 <= Z.land a b < 2 ^ w.
Proof using Hw.
  intros Ha Hb. destruct (pack_land w Hw [a] [b]) as [_ H]; [by apply Forall_cons_2; [|apply Forall_nil_2]..|done|].
  by apply Forall_cons in H as [H _].
Qed.

Lemma land_cons a x b y : 0 <= a < 2 ^ w → 0 <= b < 2 ^ w → Z.land (a + 2 ^ w * x) (b + 2 ^ w * y) = Z.land a b + 2 ^ w * Z.land x y.
Proof using Hw.
  intros Ha Hb. apply Z.bits_inj'. intros i Hi. rewrite Z.land_spec, !(testbit_cons w Hw) by (done || by apply land_digit).
  destruct (i <? w); by rewrite Z.land_spec.
Qed.

Lemma not_top d : 0 <= d < 2 ^ w → (top <=? 2 ^ w - 1 - d) = negb (top <=? d).
Proof using Hw. intros Hd. destruct top_half. destruct (Z.leb_spec top d); [apply Z.leb_gt|apply Z.leb_le]; lia. Qed.

(** Subtracting 1 from all elements at once borrows out of an element only if it is 0, or an
    element below it is: the lowest 0 sets its highest bit. *)
Lemma land_top3 a b : 0 <= a < 2 ^ w → 0 <= b < 2 ^ w → Z.land (Z.land a b) top = if (top <=? a) && (top <=? b) then top else 0.
Proof using Hw.
  intros Ha Hb. rewrite land_top by by apply land_digit. rewrite <- !top_bit, Z.land_spec by (done || by apply land_digit). done.
Qed.

Lemma zero_bits ds : digits_ok w ds →
  let n := Z.of_nat (length ds) in
  let x := Z.land (Z.land ((pack w ds - pack w (replicate (length ds) 1)) mod 2 ^ (w * n)) (pack w ((λ d, 2 ^ w - 1 - d) <$> ds))) (pack w (replicate (length ds) top)) in
  (x =? 0) = negb (existsb (λ d, d =? 0) ds).
Proof using Hw.
  intros Hds. cbv zeta. induction Hds as [|d ds Hd Hds IH]; [done|]. destruct top_half as [E P].
  cbn [length replicate pack fmap list_fmap existsb]. change (list_fmap _ _ (λ d, 2 ^ w - 1 - d) ds) with ((λ d, 2 ^ w - 1 - d) <$> ds).
  set (x := pack w ds) in *. set (l := pack w (replicate (length ds) 1)) in *.
  replace (w * Z.of_nat (S (length ds))) with (w + w * Z.of_nat (length ds)) by lia. rewrite Z.pow_add_r by nia.
  rewrite Z.rem_mul_r by (lia || apply pow2_pos; nia).
  assert (∀ a k, 0 <= a < 2 ^ w → d - 1 = a + 2 ^ w * k → (d + 2 ^ w * x - (1 + 2 ^ w * l)) mod 2 ^ w = a ∧ (d + 2 ^ w * x - (1 + 2 ^ w * l)) / 2 ^ w = x - l + k) as Hdiv.
  { intros a j Ha Ej. replace (d + 2 ^ w * x - (1 + 2 ^ w * l)) with (a + (x - l + j) * 2 ^ w) by nia.
    rewrite Z_mod_plus_full, Z.mod_small, Z.div_add, Z.div_small by lia. lia. }
  destruct (Z.eqb_spec d 0) as [->|Hne]; cbn [orb negb].
  - destruct (Hdiv (2 ^ w - 1) (-1)) as [-> ->]; [lia|lia|]. rewrite !land_cons by (lia || by apply land_digit; lia).
    rewrite land_top3 by lia. replace (top <=? 2 ^ w - 1) with true by bool_lia. replace (top <=? 2 ^ w - 1 - 0) with true by bool_lia. cbn [andb].
    set (y := Z.land _ (pack w (replicate _ _))). assert (0 <= y).
    { apply Z.land_nonneg. right. apply (pack_bounds w Hw). apply Forall_replicate. lia. }
    apply Z.eqb_neq. nia.
  - destruct (Hdiv (d - 1) 0) as [-> ->]; [lia|lia|]. rewrite Z.add_0_r, !land_cons by (lia || by apply land_digit; lia).
    rewrite land_top3, not_top by lia. replace ((top <=? d - 1) && negb (top <=? d)) with false by bool_lia.
    rewrite <- IH. set (y := Z.land _ (pack w (replicate _ _))). destruct (Z.eqb_spec y 0) as [->|]; [by rewrite Z.mul_0_r|]. apply Z.eqb_neq. nia.
Qed.
End digits.

(** ** Constants that repeat an element *)
Section words.
Context {MC : Machine} {ML : MachineLaws} (w : Z) (Hw : In w word_widths).
Abbreviation n := (per_word w).
Abbreviation rep c := (pack w (replicate n c)).

Lemma word_bits : 2 ^ (w * Z.of_nat n) = W64.
Proof using Hw. by rewrite per_word_bits. Qed.

Lemma pack_word ds : digits_ok w ds → length ds = n → 0 <= pack w ds < W64.
Proof using Hw. intros Hds Hl. rewrite <- word_bits, <- Hl. apply pack_bounds; [by apply word_width_pos|done]. Qed.

Lemma unpack_word x : 0 <= x < W64 → pack w (unpack w n x) = x.
Proof using Hw. intros Hx. apply pack_unpack; [by apply word_width_pos|by rewrite word_bits]. Qed.

Lemma ones_word : ones64 = rep (2 ^ w - 1).
Proof using Hw. by by_word_width w. Qed.
Lemma mask_word : width_mask w = 2 ^ w - 1.
Proof using Hw. by by_word_width w. Qed.
Lemma lower_word : Words.lower_bits w = Some (rep 1).
Proof using Hw. by by_word_width w. Qed.
Lemma upper_word : Words.shl64 (rep 1) (w - 1) = rep (2 ^ (w - 1)).
Proof using Hw. by by_word_width w. Qed.
Lemma ones_div_word : ones64 / (2 ^ w - 1) = rep 1.
Proof using Hw. by by_word_width w. Qed.

Lemma rep_ok c m : 0 <= c < 2 ^ w → digits_ok w (replicate m c).
Proof using Type. intros Hc. by apply Forall_replicate. Qed.

Lemma zip_replicate {A B C} (f : A → B → C) l m b : length l = m → zip_with f l (replicate m b) = (λ a, f a b) <$> l.
Proof using Type. intros <-. induction l as [|a l IH]; cbn; [done|by f_equal]. Qed.

Lemma lxor_ones d : 0 <= d < 2 ^ w → Z.lxor d (2 ^ w - 1) = 2 ^ w - 1 - d.
Proof using Hw.
  intros Hd. pose proof (word_width_pos w Hw). replace (2 ^ w - 1) with (Z.ones w) by (rewrite Z.ones_equiv; lia).
  rewrite Z.sub_nocarry_ldiff.
  - apply Z.bits_inj'. intros i Hi. rewrite Z.lxor_spec, Z.ldiff_spec, Z.testbit_ones_nonneg by lia.
    destruct (Z.ltb_spec i w); [by destruct (Z.testbit d i)|]. rewrite <- (Z.mod_small d (2 ^ w)), Z.mod_pow2_bits_high by lia. done.
  - apply Z.bits_inj'. intros i Hi. rewrite Z.ldiff_spec, Z.testbit_ones_nonneg, Z.bits_0 by lia.
    destruct (Z.ltb_spec i w); [by rewrite andb_false_r|]. rewrite <- (Z.mod_small d (2 ^ w)), Z.mod_pow2_bits_high by lia. done.
Qed.

Lemma not_word ds : digits_ok w ds → length ds = n → Words.not64 (pack w ds) = pack w ((λ d, 2 ^ w - 1 - d) <$> ds).
Proof using Hw.
  intros Hds Hl. pose proof (word_width_pos w Hw) as H0. pose proof (radix_pos w H0) as R. unfold Words.not64. rewrite ones_word.
  destruct (pack_lxor w H0 ds (replicate n (2 ^ w - 1))) as [-> _]; [done|apply rep_ok; lia|by rewrite length_replicate|].
  rewrite zip_replicate by done. f_equal. apply list_fmap_ext. intros i d Hd. apply lxor_ones. by apply (Forall_lookup_1 _ _ _ _ Hds Hd).
Qed.

(** ** [test_zero] *)
Lemma test_zero_spec ds : digits_ok w ds → length ds = n → Words.test_zero w (pack w ds) = Some (existsb (λ d, d =? 0) ds).
Proof using Hw.
  intros Hds Hl. pose proof (word_width_pos w Hw) as H0. unfold Words.test_zero. rewrite lower_word. cbn [mbind option_bind].
  replace (w =? 0) with false by bool_lia. rewrite upper_word, not_word by done. f_equal.
  unfold wsub, wrap. rewrite <- word_bits, <- Hl. rewrite zero_bits by done. apply negb_involutive.
Qed.

(** ** [find_zero] *)

(** Whether an element is what is looked for *)
Definition sought (eq : bool) (d : Z) : bool := Bool.eqb eq (d =? 0).

Lemma shr_word ds (k : nat) : digits_ok w ds → (k < n)%nat → Words.shr64 (pack w ds) (w * Z.of_nat k) = pack w (drop k ds).
Proof using Hw.
  intros Hds Hk. pose proof (word_width_pos w Hw) as H0. unfold Words.shr64. pose proof (per_word_bits w Hw).
  rewrite (proj2 (Z.ltb_lt (w * Z.of_nat k) 64)) by nia. by apply pack_drop.
Qed.

Lemma land_mask x : 0 <= x → Z.land x (width_mask w) = x mod 2 ^ w.
Proof using Hw.
  intros Hx. pose proof (word_width_pos w Hw). rewrite mask_word. replace (2 ^ w - 1) with (Z.ones w) by (rewrite Z.ones_equiv; lia).
  by apply Z.land_ones; lia.
Qed.

Lemma is_zero_at_spec ds (k : nat) d : digits_ok w ds → length ds = n → ds !! k = Some d → Words.is_zero_at w (pack w ds) (Z.of_nat k) = (d =? 0).
Proof using Hw.
  intros Hds Hl Hk. pose proof (word_width_pos w Hw) as H0. unfold Words.is_zero_at. pose proof (lookup_lt_Some _ _ _ Hk).
  rewrite shr_word, land_mask by (done || lia || apply (pack_bounds w H0); by apply Forall_drop).
  rewrite (drop_S _ _ _ Hk), pack_head; [done|]. by apply (Forall_lookup_1 _ _ _ _ Hds Hk).
Qed.

Lemma find_zero_loop_spec eq ds fuel : ∀ k : nat, digits_ok w ds → length ds = n →
  existsb (sought eq) (drop k ds) = true → (length ds - k < fuel)%nat →
  Words.find_zero_loop fuel eq w (pack w ds) (Z.of_nat k) = Some (Z.of_nat (k + find_if (sought eq) (drop k ds))).
Proof using Hw.
  induction fuel as [|fuel IH]; intros k Hds Hl Hex Hf; [lia|]. cbn [Words.find_zero_loop].
  destruct (ds !! k) as [d|] eqn:E; [|apply lookup_ge_None in E; rewrite drop_ge in Hex by done; done].
  rewrite (is_zero_at_spec ds k d) by done. rewrite (drop_S _ _ _ E) in *. cbn [existsb find_if] in *.
  pose proof (lookup_lt_Some _ _ _ E). pose proof (per_word_bound w Hw).
  replace (Bool.eqb eq (negb (d =? 0))) with (negb (sought eq d)) by (unfold sought; by destruct eq, (d =? 0)).
  destruct (sought eq d); cbn [negb orb] in *; [by rewrite Nat.add_0_r|].
  replace (Z.of_nat k <=? 8 * 8) with true by bool_lia. cbn [check mbind option_bind].
  replace (Z.of_nat k + 1) with (Z.of_nat (S k)) by lia. rewrite IH by (done || lia). do 2 f_equal. lia.
Qed.

(** The masks of the bisection: its first [k] elements decide. *)
Lemma none_before (eq : bool) ds (k : nat) hi lo : digits_ok w ds → length ds = n → (k <= n)%nat →
  hi = pack w (replicate k 0 ++ replicate (n - k) (2 ^ w - 1)) → lo = pack w (replicate k (2 ^ w - 1) ++ replicate (n - k) 0) →
  ∃ b : bool, Words.test_zero w (Z.lor (pack w ds) hi) = Some b ∧
    (if eq then negb b else Z.land (pack w ds) lo =? 0) = negb (existsb (sought eq) (take k ds)).
Proof using Hw.
  intros Hds Hl Hk -> ->. pose proof (word_width_pos w Hw) as H0. pose proof (radix_pos w H0) as R.
  pose proof (radix_two w H0) as R2.
  assert (∀ a b, 0 <= a < 2 ^ w → 0 <= b < 2 ^ w → digits_ok w (replicate k a ++ replicate (n - k) b)) as Hok.
  { intros a b Ha Hb. apply Forall_app; split; by apply rep_ok. }
  assert (∀ (f : Z → Z → Z) a b, zip_with f ds (replicate k a ++ replicate (n - k) b) = ((λ d, f d a) <$> take k ds) ++ ((λ d, f d b) <$> drop k ds)) as Hzip.
  { intros f a b. rewrite <- (take_drop k ds) at 1. rewrite zip_with_app by (rewrite length_take, length_replicate; lia).
    by rewrite !zip_replicate by (rewrite ?length_take, ?length_drop; lia). }
  destruct (pack_lor w H0 ds (replicate k 0 ++ replicate (n - k) (2 ^ w - 1))) as [-> Hok1]; [done|apply Hok; lia|rewrite length_app, !length_replicate; lia|].
  destruct (pack_land w H0 ds (replicate k (2 ^ w - 1) ++ replicate (n - k) 0)) as [-> Hok2]; [done|apply Hok; lia|rewrite length_app, !length_replicate; lia|].
  rewrite Hzip in Hok1. rewrite !Hzip. rewrite test_zero_spec; [|done|rewrite length_app, !length_fmap, length_take, length_drop; lia].
  eexists. split; [done|]. destruct eq.
  - rewrite existsb_app. f_equal.
    assert (existsb (λ d, d =? 0) ((λ d, Z.lor d (2 ^ w - 1)) <$> drop k ds) = false) as ->.
    { apply not_true_iff_false. rewrite existsb_exists. intros (x & Hx & Ex%Z.eqb_eq). apply list_elem_of_In, list_elem_of_fmap in Hx as (d & -> & _).
      apply Z.lor_eq_0_iff in Ex. lia. }
    rewrite orb_false_r. clear. induction (take k ds) as [|d l IH]; [done|]. cbn [fmap list_fmap existsb]. apply (f_equal2 orb); [rewrite Z.lor_0_r; unfold sought; by destruct (d =? 0)|exact IH].
  - rewrite (pack_app w H0). replace ((λ d, Z.land d 0) <$> drop k ds) with (replicate (length (drop k ds)) 0).
    2: { clear. induction (drop k ds) as [|d l IH]; [done|]. cbn. rewrite Z.land_0_r. by f_equal. }
    rewrite pack_zeros, Z.mul_0_r, Z.add_0_r.
    replace ((λ d, Z.land d (2 ^ w - 1)) <$> take k ds) with (take k ds).
    2: { pose proof (Forall_take _ k _ Hds) as Ht. clear - Ht H0. induction Ht as [|d l Hd Hl IH]; [done|]. cbn. f_equal; [|done].
         replace (2 ^ w - 1) with (Z.ones w) by (rewrite Z.ones_equiv; lia). rewrite Z.land_ones, Z.mod_small by lia. done. }
    pose proof (Forall_take _ k _ Hds) as Ht. apply eq_true_iff_eq. rewrite Z.eqb_eq, (pack_zero w H0) by done. rewrite negb_true_iff, <- not_true_iff_false, existsb_exists, Forall_forall.
    unfold sought. split.
    + intros H (x & Hx & Ex). apply list_elem_of_In in Hx. rewrite (H x Hx) in Ex. done.
    + intros H x Hx. destruct (Z.eq_dec x 0); [done|]. destruct H. exists x. split; [by apply list_elem_of_In|]. by replace (x =? 0) with false by bool_lia.
Qed.
End words.

Section bisection.
Context {MC : Machine} {ML : MachineLaws}.

Lemma find_if_drop {A} (p : A → bool) l k : existsb p (take k l) = false → find_if p l = (length (take k l) + find_if p (drop k l))%nat.
Proof using Type.
  revert l. induction k as [|k IH]; intros [|a l] H; try done. cbn [take firstn drop skipn existsb find_if length] in *.
  apply orb_false_iff in H as [-> H]. by rewrite (IH l H).
Qed.
Lemma existsb_drop {A} (p : A → bool) l k : existsb p (take k l) = false → existsb p (drop k l) = existsb p l.
Proof using Type. intros H. rewrite <- (take_drop k l) at 2. by rewrite existsb_app, H. Qed.

(** The start that the bisection computes *)
Definition bisected (eq : bool) (w v : Z) : option Z :=
  if w <=? 8 then
    has_zero_byte ← Words.test_zero w (Z.lor v 0xffffffff00000000);
    if (if eq then negb has_zero_byte else Z.land v 0x00000000ffffffff =? 0) then
      if w <=? 4 then
        has_zero_byte ← Words.test_zero w (Z.lor v 0xffff000000000000);
        if (if eq then negb has_zero_byte else Z.land v 0x0000ffffffffffff =? 0) then Some (64 / no0 w / 2 + 64 / no0 w / 4) else Some (64 / no0 w / 2)
      else Some (64 / no0 w / 2)
    else
      if w <=? 4 then
        has_zero_byte ← Words.test_zero w (Z.lor v 0xffffffffffff0000);
        if (if eq then negb has_zero_byte else Z.land v 0x000000000000ffff =? 0) then Some (0 + 64 / no0 w / 4) else Some 0
      else Some 0
  else Some 0.

Ltac cut w ds eq k hi lo :=
  let b := fresh "b" in let E1 := fresh in let E2 := fresh in
  destruct (none_before w ltac:(vm_compute; tauto) eq ds k hi lo) as (b & E1 & E2);
  [done|done|by apply Nat.leb_le|by vm_compute|by vm_compute|]; rewrite E1; cbn [mbind option_bind]; rewrite E2; clear E1 E2.
Ltac found k := exists k; split; [reflexivity|first [done|by apply negb_true_iff]].

Lemma bisected_spec (eq : bool) w ds : In w word_widths → digits_ok w ds → length ds = per_word w →
  ∃ k : nat, bisected eq w (pack w ds) = Some (Z.of_nat k) ∧ existsb (sought eq) (take k ds) = false.
Proof using ML.
  intros Hw. revert ds. by_word_width w; intros ds Hds Hl; unfold bisected.
  5-7: by found 0%nat.
  - change (1 <=? 8) with true. change (1 <=? 4) with true. cbv iota.
    cut 1 ds eq 32%nat 0xffffffff00000000 0x00000000ffffffff. destruct (negb (existsb _ (take 32 ds))) eqn:H1.
    + cut 1 ds eq 48%nat 0xffff000000000000 0x0000ffffffffffff. destruct (negb (existsb _ (take 48 ds))) eqn:H2; [found 48%nat|found 32%nat].
    + cut 1 ds eq 16%nat 0xffffffffffff0000 0x000000000000ffff. destruct (negb (existsb _ (take 16 ds))) eqn:H2; [found 16%nat|found 0%nat].
  - change (2 <=? 8) with true. change (2 <=? 4) with true. cbv iota.
    cut 2 ds eq 16%nat 0xffffffff00000000 0x00000000ffffffff. destruct (negb (existsb _ (take 16 ds))) eqn:H1.
    + cut 2 ds eq 24%nat 0xffff000000000000 0x0000ffffffffffff. destruct (negb (existsb _ (take 24 ds))) eqn:H2; [found 24%nat|found 16%nat].
    + cut 2 ds eq 8%nat 0xffffffffffff0000 0x000000000000ffff. destruct (negb (existsb _ (take 8 ds))) eqn:H2; [found 8%nat|found 0%nat].
  - change (4 <=? 8) with true. change (4 <=? 4) with true. cbv iota.
    cut 4 ds eq 8%nat 0xffffffff00000000 0x00000000ffffffff. destruct (negb (existsb _ (take 8 ds))) eqn:H1.
    + cut 4 ds eq 12%nat 0xffff000000000000 0x0000ffffffffffff. destruct (negb (existsb _ (take 12 ds))) eqn:H2; [found 12%nat|found 8%nat].
    + cut 4 ds eq 4%nat 0xffffffffffff0000 0x000000000000ffff. destruct (negb (existsb _ (take 4 ds))) eqn:H2; [found 4%nat|found 0%nat].
  - change (8 <=? 8) with true. change (8 <=? 4) with false. cbv iota.
    cut 8 ds eq 4%nat 0xffffffff00000000 0x00000000ffffffff. destruct (negb (existsb _ (take 4 ds))) eqn:H1; [found 4%nat|found 0%nat].
Qed.

Lemma find_zero_spec (eq : bool) w ds : In w word_widths → digits_ok w ds → length ds = per_word w → existsb (sought eq) ds = true →
  Words.find_zero eq w (pack w ds) = Some (Z.of_nat (find_if (sought eq) ds)).
Proof using ML.
  intros Hw Hds Hl Hex. unfold Words.find_zero. pose proof (per_word_bound w Hw).
  destruct ds as [|d ds]; [done|]. rewrite (is_zero_at_spec w Hw (d :: ds) 0 d) by done.
  destruct (Bool.eqb eq (d =? 0)) eqn:E0; [cbn [find_if]; unfold sought; by rewrite E0|].
  destruct (bisected_spec eq w (d :: ds) Hw Hds Hl) as (k & Ek & Hk). fold (bisected eq w (pack w (d :: ds))).
  rewrite Ek. cbn [mbind option_bind].
  rewrite (find_zero_loop_spec w Hw eq (d :: ds) 66 k) by (done || (by rewrite existsb_drop) || lia).
  rewrite (find_if_drop (sought eq) (d :: ds) k Hk). do 2 f_equal. f_equal. rewrite length_take.
  destruct (Nat.le_gt_cases k (length (d :: ds))); [lia|]. exfalso. rewrite take_ge in Hk by lia. by rewrite Hex in Hk.
Qed.
End bisection.

(** ** [cascade] *)
Section cascading.
Context {MC : Machine} {ML : MachineLaws}.

(** Whether one of [m] bits from [b] on is set *)
Definition any_bit (d b : Z) (m : nat) : bool := existsb (λ i, Z.testbit d (b + Z.of_nat i)) (seq 0 m).

Definition smeared (k d : Z) : Z := Z.lor d (Z.shiftr d k).

Lemma any_bit_double d b m : any_bit d b (m + m) = any_bit d b m || any_bit d (b + Z.of_nat m) m.
Proof using Type.
  unfold any_bit. rewrite seq_app, existsb_app. f_equal. rewrite <- (Nat.add_0_r (0 + m)), <- fmap_add_seq. cbn [Nat.add].
  induction (seq 0 m) as [|i l IH]; [done|]. cbn [fmap list_fmap existsb]. change (list_fmap _ _ (Nat.add m) l) with (Nat.add m <$> l). rewrite IH. f_equal. f_equal. lia.
Qed.

Lemma smeared_any d x m : (∀ b, 0 <= b → Z.testbit x b = any_bit d b m) → ∀ b, 0 <= b → Z.testbit (smeared (Z.of_nat m) x) b = any_bit d b (m + m).
Proof using Type. intros H b Hb. unfold smeared. by rewrite Z.lor_spec, Z.shiftr_spec, !H, any_bit_double by lia. Qed.

Lemma any_bit_all d w : (0 < w)%nat → 0 <= d < 2 ^ Z.of_nat w → any_bit d 0 w = negb (d =? 0).
Proof using Type.
  intros Hw Hd. apply eq_true_iff_eq. unfold any_bit. rewrite existsb_exists, negb_true_iff, Z.eqb_neq. split.
  - intros (i & _ & H) ->. by rewrite Z.bits_0 in H.
  - intros Hne. exists (Z.to_nat (Z.log2 d)). pose proof (Z.log2_nonneg d). split.
    + apply in_seq. assert (Z.log2 d < Z.of_nat w) by (apply Z.log2_lt_pow2; lia). lia.
    + rewrite Z.add_0_l, Z2Nat.id by lia. apply Z.bit_log2. lia.
Qed.

Section one_width.
Context (w : Z) (Hw : In w word_widths).
Abbreviation n := (per_word w).

Lemma smear_word ds k c : digits_ok w ds → length ds = n → 0 < k < w → c = pack w (replicate n (2 ^ (w - k) - 1)) →
  Words.smear (pack w ds) k c = pack w (smeared k <$> ds) ∧ digits_ok w (smeared k <$> ds).
Proof using Hw.
  intros Hds Hl Hk ->. pose proof (word_width_pos w Hw) as H0. pose proof (per_word_bits w Hw). pose proof (per_word_bound w Hw).
  assert (2 ^ (w - k) <= 2 ^ w) as Hp by (apply Z.pow_le_mono_r; lia). pose proof (pow2_pos (w - k) ltac:(lia)).
  assert (digits_ok w (replicate n (2 ^ (w - k) - 1))) as Hc by (apply Forall_replicate; lia).
  assert (digits_ok w ((λ d, Z.shiftr d k) <$> ds)) as Hs.
  { apply Forall_fmap. eapply Forall_impl; [exact Hds|]. intros d Hd. cbn in Hd |- *. rewrite Z.shiftr_div_pow2 by lia. pose proof (pow2_pos k ltac:(lia)).
    split; [apply Z.div_pos; lia|]. apply Z.div_lt_upper_bound; nia. }
  assert (Z.land (Words.shr64 (pack w ds) k) (pack w (replicate n (2 ^ (w - k) - 1))) = pack w ((λ d, Z.shiftr d k) <$> ds)) as E.
  { unfold Words.shr64. rewrite (proj2 (Z.ltb_lt k 64)) by nia. apply (pack_ext w H0); [done| |].
    - rewrite length_fmap. intros i Hi. rewrite Z.land_spec, (testbit_above w H0 (replicate _ _)) by (done || (rewrite length_replicate; lia)). apply andb_false_r.
    - intros i d b Hd Hb. rewrite list_lookup_fmap in Hd. destruct (ds !! i) as [e|] eqn:He; [|done]. injection Hd as <-. pose proof (lookup_lt_Some _ _ _ He).
      rewrite Z.land_spec, Z.shiftr_spec, (testbit_element w H0 _ i (2 ^ (w - k) - 1) b Hc) by (nia || (apply lookup_replicate; split; [done|lia])).
      replace (2 ^ (w - k) - 1) with (Z.ones (w - k)) by (rewrite Z.ones_equiv; lia). rewrite Z.testbit_ones_nonneg, Z.shiftr_spec by lia.
      destruct (Z.ltb_spec b (w - k)).
      + rewrite andb_true_r, <- Z.add_assoc. apply (testbit_element w H0); [done|done|lia].
      + rewrite andb_false_r, <- (Z.mod_small e (2 ^ w)) by (apply (Forall_lookup_1 _ _ _ _ Hds He)). by rewrite Z.mod_pow2_bits_high by lia. }
  unfold Words.smear. rewrite E. destruct (pack_lor w H0 ds ((λ d, Z.shiftr d k) <$> ds)) as [E1 E2]; [done|done|by rewrite length_fmap|].
  assert (zip_with Z.lor ds ((λ d, Z.shiftr d k) <$> ds) = smeared k <$> ds) as Ez by (clear; induction ds as [|d ds IH]; cbn; [done|by f_equal]).
  by rewrite <- Ez.
Qed.

(** The elements after some smearing: bit [b] of each says whether one of its [m] bits from [b] on was set. *)
Definition smears (m : nat) (ds xs : list Z) : Prop := Forall2 (λ d x, ∀ b, 0 <= b → Z.testbit x b = any_bit d b m) ds xs.

Lemma smears_1 ds : smears 1 ds ds.
Proof using Type. apply Forall_Forall2_diag, Forall_true. intros d b Hb. unfold any_bit. cbn. by rewrite Z.add_0_r, orb_false_r. Qed.
Lemma smears_double m ds xs k : smears m ds xs → k = Z.of_nat m → smears (m + m) ds (smeared k <$> xs).
Proof using Type. intros H ->. apply Forall2_fmap_r. eapply Forall2_impl; [exact H|]. intros d x Hx b Hb. by apply (smeared_any d x m). Qed.

Lemma isolate_word (zero : bool) ds xs m : digits_ok w ds → digits_ok w xs → length ds = n → smears (Z.to_nat w) ds xs → m = pack w (replicate n 1) →
  Words.isolate zero (pack w xs) m = pack w ((λ d, Z.b2z (sought zero d)) <$> ds).
Proof using Hw.
  intros Hds Hxs Hl Hsm ->. pose proof (word_width_pos w Hw) as H0. pose proof (Forall2_length _ _ _ Hsm) as Hl'.
  pose proof (radix_two w H0) as R2.
  unfold Words.isolate. assert (digits_ok w (replicate n 1)) as H1 by (apply Forall_replicate; lia).
  destruct (pack_land w H0 xs (replicate n 1)) as [-> Hok]; [done|done|rewrite length_replicate; lia|].
  rewrite zip_replicate in * by lia.
  assert ((λ x, Z.land x 1) <$> xs = (λ d, Z.b2z (negb (d =? 0))) <$> ds) as E.
  { clear - Hsm Hds H0. revert Hds. induction Hsm as [|d x ds xs Hx _ IH]; intros Hds; [done|]. apply Forall_cons in Hds as [Hd Hds]. cbn.
    apply (f_equal2 cons); [|by apply IH]. assert (any_bit d 0 (Z.to_nat w) = negb (d =? 0)) as <- by (apply any_bit_all; [lia|rewrite Z2Nat.id by lia; exact Hd]).
    rewrite <- Hx by lia. change 1 with (Z.ones 1). rewrite Z.land_ones by lia. change (2 ^ 1) with 2. by rewrite Z.bit0_mod. }
  rewrite E in *. destruct zero.
  - destruct (pack_lxor w H0 ((λ d, Z.b2z (negb (d =? 0))) <$> ds) (replicate n 1)) as [-> _]; [done|done|by rewrite length_fmap, length_replicate|].
    rewrite zip_replicate by (by rewrite length_fmap). rewrite <- list_fmap_compose. f_equal. apply list_fmap_ext. intros i d _. cbn. by destruct (d =? 0).
  - f_equal.
Qed.
End one_width.

(** One line [a |= (a >> k) & c] of the code *)
Ltac smear_step w k :=
  match goal with Hs : smears _ ?ds ?xs |- context [Words.smear (pack w ?xs) k ?c] =>
    let E := fresh in let Hok := fresh "Hok" in
    destruct (smear_word w ltac:(vm_compute; tauto) xs k c) as [E Hok];
      [assumption|rewrite ?length_fmap; assumption|lia|by vm_compute|]; rewrite E; clear E; apply (smears_double _ _ _ k) in Hs; [|reflexivity] end.
Ltac isolate_step w :=
  f_equal; match goal with Hs : smears _ ?ds ?xs |- _ => apply (isolate_word w ltac:(vm_compute; tauto) _ ds xs); [assumption|assumption|assumption|exact Hs|by vm_compute] end.

Lemma cascade_spec (zero : bool) w ds : In w word_widths → digits_ok w ds → length ds = per_word w →
  Words.cascade w zero (pack w ds) = Some (pack w ((λ d, Z.b2z (sought zero d)) <$> ds)).
Proof using ML.
  intros Hw. revert ds. by_word_width w; intros ds Hds Hl; pose proof (smears_1 ds) as Hs; unfold Words.cascade; cbn [Z.eqb Pos.eqb]; cbv zeta.
  - f_equal. destruct zero.
    + rewrite (not_word 1) by (done || by left). f_equal. apply list_fmap_ext. intros i d Hd. apply (Forall_lookup_1 _ _ _ _ Hds) in Hd. change (2 ^ 1) with 2 in *.
      assert (d = 0 ∨ d = 1) as [->| ->] by lia; done.
    + f_equal. rewrite <- (list_fmap_id ds) at 1. apply list_fmap_ext. intros i d Hd. apply (Forall_lookup_1 _ _ _ _ Hds) in Hd. change (2 ^ 1) with 2 in *.
      assert (d = 0 ∨ d = 1) as [->| ->] by lia; done.
  - smear_step 2 1. isolate_step 2.
  - smear_step 4 1. smear_step 4 2. isolate_step 4.
  - smear_step 8 1. smear_step 8 2. smear_step 8 4. isolate_step 8.
  - smear_step 16 1. smear_step 16 2. smear_step 16 4. smear_step 16 8. isolate_step 16.
  - smear_step 32 1. smear_step 32 2. smear_step 32 4. smear_step 32 8. smear_step 32 16. isolate_step 32.
  - destruct ds as [|d [|? ds]]; [done| |done]. cbn [fmap list_fmap pack]. rewrite !Z.mul_0_r, !Z.add_0_r. unfold sought.
    do 2 f_equal. by destruct zero, (d =? 0).
Qed.
End cascading.
