(* ===== verification/ArrayFind.v ===== *)
(** * Searching in an array

    Model of the finding code of array.hpp without the vector instructions of other processors:
    [find_optimized] and what it calls, for every condition, width and action. *)

From S2P Require Import Prelude ArrayDirect WordTricks.

(** An attached array; the bounds are those of values that its width can store. *)
Record Array := { m_data : list Z; m_size : Z; m_width : Z; m_lbound : Z; m_ubound : Z }.

(** The aggregates of a range, which are compiled into the library: a sum, and an extreme
    value with its index *)
Class Aggregates := {
  sum : Array → Z → Z → Z;
  maximum : Array → Z → Z → option (Z * Z);
  minimum : Array → Z → Z → option (Z * Z) }.

Module Find.
Section find.
Context {MC : Machine}.

(** [get<w>], whose code is that of [get_direct] *)
Definition get (w : Z) (a : Array) (ndx : Z) : option Z := Direct.get_direct w (m_data a) ndx.

(** An [int64_t] of the data, as a word *)
Definition word_at (a : Array) (p : Z) : option Z := load (m_data a) p 8.

(** [if (start < ee)] the number of turns of [for (; start < ee; ++start)] *)
Definition turns (start ee : Z) : nat := Z.to_nat (ee - start).

Section consumer.
Context {St : Type} {CO : Consumer St}.

(** [for (; start < ee; ++start) if (test(get(start))) if (!find_action(...)) return false;] *)
Fixpoint each (n : nat) (test : Z → bool) (w : Z) (a : Array) (start baseindex : Z) (s : St) : option (bool * St) :=
  match n with
  | O => Some (true, s)
  | S n =>
      v ← get w a start;
      '(go, s) ← (if test v then find_action (start ⊕ baseindex) (Some v) s else Some (true, s));
      if (go : bool) then each n test w a (start + 1) baseindex s else Some (false, s)
  end.

(** ** [compare_equality] *)

(** The matches of a word; the result says whether to go on with the next word. *)
Fixpoint equality_matches (fuel : nat) (eq : bool) (w : Z) (a : Array) (start baseindex v2 i : Z) (s : St) : option (bool * St) :=
  more ← (if eq then Words.test_zero w v2 else Some (negb (v2 =? 0)));
  if negb more then Some (true, s) else
  match fuel with
  | O => None
  | S fuel =>
      pattern ← Words.cascade w eq v2;
      '(consumed, s) ← find_action_pattern (start ⊕ baseindex) pattern s;
      if (consumed : bool) then Some (true, s) else
      t ← Words.find_zero eq w v2;
      let i := i + t in
      if 64 / no0 w <=? i then Some (true, s) else
      v ← get w a (start + i);
      '(go, s) ← find_action (i + start ⊕ baseindex) (Some v) s;
      if (go : bool) then equality_matches fuel eq w a start baseindex (Words.shr64 v2 ((t + 1) * w)) (i + 1) s
      else Some (false, s)
  end.

(** The number of turns of [while (p < e)] over words, for byte offsets [p] and [e] *)
Definition word_turns (p e : Z) : nat := Z.to_nat ((e - p + 7) / 8).

(** The index of the first element of the word at [p] *)
Definition first_of (w p : Z) : Z := p / 8 * 8 * 8 / no0 w.

Fixpoint equality_words (n : nat) (eq : bool) (w : Z) (a : Array) (valuemask p baseindex : Z) (s : St) : option (bool * St) :=
  match n with
  | O => Some (true, s)
  | S n =>
      chunk ← word_at a p;
      '(go, s) ← equality_matches 65 eq w a (first_of w p) baseindex (Z.lxor chunk valuemask) 0 s;
      if (go : bool) then equality_words n eq w a valuemask (p + 8) baseindex s else Some (false, s)
  end.

Definition in_array (a : Array) (start last : Z) : bool :=
  (start <=? m_size a) && ((last <=? m_size a) || (last =? npos)) && (start <=? last).

Definition compare_equality (eq : bool) (w : Z) (a : Array) (value start last baseindex : Z) (s : St) : option (bool * St) :=
  REALM_ASSERT (in_array a start last);;
  let test v := if eq then v =? value else negb (v =? value) in
  let ee := round_up start (64 / no0 w) in
  let ee := if last <? ee then last else ee in
  '(go, s) ← each (turns start ee) test w a start baseindex s;
  if negb go then Some (false, s) else
  let start := Z.max start ee in
  if last <=? start then Some (true, s) else
  '(go, s, start) ←
    (if negb (w =? 32) && negb (w =? 64) then
       let p := start * w / 8 in
       let e := last * w / 8 - 8 in
       let mask := width_mask w in
       let valuemask := wrap (ones64 / no0 mask * Z.land (wrap value) mask) in
       '(go, s) ← equality_words (word_turns p e) eq w a valuemask p baseindex s;
       Some (go, s, first_of w (p + 8 * Z.of_nat (word_turns p e)))
     else Some (true, s, start));
  if negb go then Some (false, s) else
  each (turns start last) test w a start baseindex s.

(** ** [compare_relation] *)

(** The loops over words: [fast] is whether the comparison of whole words can be used. *)
Fixpoint relation_words (n : nat) (gt fast : bool) (w : Z) (a : Array) (value magic p baseindex : Z) (s : St) : option (bool * St) :=
  match n with
  | O => Some (true, s)
  | S n =>
      v ← word_at a p;
      lower ← Words.lower_bits w;
      let upper := Z.land (Words.shl64 lower (no0 w - 1)) v in
      '(go, s) ← (if fast && (upper =? 0) then Words.find_gtlt_fast gt w v magic (first_of w p ⊕ baseindex) s
                  else Words.find_gtlt gt w value v (first_of w p ⊕ baseindex) s);
      if (go : bool) then relation_words n gt fast w a value magic (p + 8) baseindex s else Some (false, s)
  end.

(** Whether the bit hacks work for this value *)
Definition fast_relation (gt : bool) (w value magic : Z) : bool :=
  let mask := width_mask w in
  negb (value =? int64 (Z.land magic mask)) && (0 <=? value) && (2 <=? w) && (value <=? int64 (Z.shiftr mask 1 ⊖ (if gt then 1 else 0))).

Definition compare_relation (gt : bool) (w : Z) (a : Array) (value start last baseindex : Z) (s : St) : option (bool * St) :=
  REALM_ASSERT (in_array a start last);;
  let test v := if gt then value <? v else v <? value in
  let ee := round_up start (64 / no0 w) in
  let ee := if last <? ee then last else ee in
  '(go, s) ← each (turns start ee) test w a start baseindex s;
  if negb go then Some (false, s) else
  let start := Z.max start ee in
  if last <=? start then Some (true, s) else
  let p := start * w / 8 in
  let e := last * w / 8 - 8 in
  '(go, s, start) ←
    (if (w =? 1) || (w =? 2) || (w =? 4) || (w =? 8) || (w =? 16) then
       let magic := Words.find_gtlt_magic gt w value in
       '(go, s) ← relation_words (word_turns p e) gt (fast_relation gt w value magic) w a value magic p baseindex s;
       Some (go, s, first_of w (p + 8 * Z.of_nat (word_turns p e)))
     else Some (true, s, start));
  if negb go then Some (false, s) else
  each (turns start last) test w a start baseindex s.

Definition compare (c : Cond) (w : Z) (a : Array) (value start last baseindex : Z) (s : St) : option (bool * St) :=
  match c with
  | Equal => compare_equality true w a value start last baseindex s
  | NotEqual => compare_equality false w a value start last baseindex s
  | Greater => compare_relation true w a value start last baseindex s
  | Less => compare_relation false w a value start last baseindex s
  | _ => None
  end.

(** ** [compare_leafs]: the elements of one array against those of another *)
Fixpoint compare_leafs_each (n : nat) (c : Cond) (a foreign : Array) (start baseindex : Z) (s : St) : option (bool * St) :=
  match n with
  | O => Some (true, s)
  | S n =>
      v ← get (m_width a) a start; fv ← get (m_width foreign) foreign start;
      '(go, s) ← (if Condition.test c v fv false false then find_action (start ⊕ baseindex) (Some v) s else Some (true, s));
      if (go : bool) then compare_leafs_each n c a foreign (start + 1) baseindex s else Some (false, s)
  end.

(** When both have no bits, all comparisons are the same; the loop after them then has no turn left. *)
Fixpoint all_zero (n : nat) (start baseindex : Z) (s : St) : option (bool * St) :=
  match n with
  | O => Some (true, s)
  | S n =>
      '(go, s) ← find_action (start ⊕ baseindex) (Some 0) s;
      if (go : bool) then all_zero n (start + 1) baseindex s else Some (false, s)
  end.

Definition compare_leafs_4 (c : Cond) (a foreign : Array) (start last baseindex : Z) (s : St) : option (bool * St) :=
  if (m_width a =? 0) && (m_width foreign =? 0) then
    if Condition.test c 0 0 false false then
      '(go, s) ← all_zero (turns start last) start baseindex s;
      if (go : bool) then compare_leafs_each (turns (Z.max start last) last) c a foreign (Z.max start last) baseindex s else Some (false, s)
    else Some (true, s)
  else compare_leafs_each (turns start last) c a foreign start baseindex s.

Definition compare_leafs (c : Cond) (a foreign : Array) (start last baseindex : Z) (s : St) : option (bool * St) :=
  REALM_ASSERT (start <=? last);;
  if start =? last then Some (true, s) else
  '(go, s) ← compare_leafs_each 1 c a foreign start baseindex s;
  if negb go then Some (false, s) else
  let start := start + 1 in
  if start + 3 <? last then
    '(go, s) ← compare_leafs_each 3 c a foreign start baseindex s;
    if negb go then Some (false, s) else compare_leafs_4 c a foreign (start + 3) last baseindex s
  else if start =? last then Some (true, s)
  else compare_leafs_4 c a foreign start last baseindex s.
End consumer.

(** ** [find_optimized] *)
Section optimized.
Context {C : Type} (add_to_column : Z → C → C) (callback : Z → C → bool * C) {AG : Aggregates}.
Context (c : Cond) (action : Action).
#[local] Instance consumer : Consumer (Query.QueryState C) := Query.query_consumer add_to_column callback action.

(** The simple loop over an array that may hold nulls *)
Fixpoint find_nullable (n : nat) (w : Z) (a : Array) (null_value value : Z) (find_null : bool) (start2 baseindex : Z) (s : Query.QueryState C) : option (bool * Query.QueryState C) :=
  match n with
  | O => Some (true, s)
  | S n =>
      v ← get w a (start2 + 1);
      let value_is_null := v =? null_value in
      '(go, s) ← (if Condition.test c v value value_is_null find_null
                  then find_action (start2 ⊕ baseindex) (if value_is_null then None else Some v) s else Some (true, s));
      if (go : bool) then find_nullable n w a null_value value find_null (start2 + 1) baseindex s else Some (false, s)
  end.

(** The tests of the first few items, which the code writes out four times *)
Fixpoint first_items (n : nat) (w : Z) (a : Array) (value start2 last baseindex : Z) (s : Query.QueryState C) : option (bool * Query.QueryState C * Z) :=
  match n with
  | O => Some (true, s, start2)
  | S n =>
      '(go, s) ←
        (if start2 <? m_size a then
           v ← get w a start2;
           if Condition.test c v value false false && (start2 <? last) then find_action (start2 ⊕ baseindex) (Some v) s else Some (true, s)
         else Some (true, s));
      if (go : bool) then first_items n w a value (start2 + 1) last baseindex s else Some (false, s, start2)
  end.

(** All elements match: an aggregate is computed at once. *)
Definition all_match (w : Z) (a : Array) (start2 last baseindex : Z) (s : Query.QueryState C) : option (bool * Query.QueryState C) :=
  end2 ←
    (if decide (action = act_CallbackIdx) then Some last else
     REALM_ASSERT (Query.m_match_count s <? Query.m_limit s);;
     let process := Query.m_limit s ⊖ Query.m_match_count s in
     Some (if process <? last - start2 then start2 + process else last));
  match action with
  | act_Sum | act_Max | act_Min =>
      '(res, res_ndx) ← (match action with
                         | act_Sum => Some (sum a start2 end2, 0)
                         | act_Max => maximum a start2 end2
                         | _ => minimum a start2 end2
                         end);
      '(_, s) ← find_action (res_ndx ⊕ baseindex) (Some res) s;
      Some (true, Query.with_count s (Query.m_match_count s ⊕ (end2 - start2 - 1)))
  | act_Count => Some (true, Query.with_state s (int64 (Query.m_state s + (end2 - start2))))
  | _ => each (turns start2 end2) (λ _, true) w a start2 baseindex s
  end.

(** From where the array holds what is searched for *)
Definition find_from (w : Z) (a : Array) (value start2 last baseindex : Z) (s : Query.QueryState C) : option (bool * Query.QueryState C) :=
  '(go, s, start2) ← (if 0 <? start2 then first_items 4 w a value start2 last baseindex s else Some (true, s, start2));
  if negb go then Some (false, s) else
  if negb ((start2 <? m_size a) && (start2 <? last)) then Some (true, s) else
  let last := if last =? npos then m_size a else last in
  if negb (Condition.can_match c value (m_lbound a) (m_ubound a)) then Some (true, s) else
  if Condition.will_match c value (m_lbound a) (m_ubound a) then all_match w a start2 last baseindex s else
  REALM_ASSERT (negb (m_width a =? 0));;
  compare c w a value start2 last baseindex s.

Definition find_optimized (w : Z) (a : Array) (value start last baseindex : Z) (s : Query.QueryState C) (nullable_array find_null : bool) : option (bool * Query.QueryState C) :=
  REALM_ASSERT (negb (find_null && negb nullable_array));;
  REALM_ASSERT (in_array a start last);;
  let last := if last =? npos then (if nullable_array then m_size a ⊖ 1 else m_size a) else last in
  if nullable_array then
    null_value ← get (m_width a) a 0;
    if decide (c = Equal) then
      if negb find_null && (value =? null_value) then Some (true, s) else
      find_from w a (if find_null then null_value else value) (start + 1) (last + 1) (baseindex ⊖ 1) s
    else find_nullable (turns start last) w a null_value value find_null start baseindex s
  else find_from w a value start last baseindex s.

(** [find] chooses the code for the width. *)
Definition find (a : Array) (value start last baseindex : Z) (s : Query.QueryState C) (nullable_array find_null : bool) : option (bool * Query.QueryState C) :=
  find_optimized (m_width a) a value start last baseindex s nullable_array find_null.
End optimized.

(** [find_first]: the search with [act_ReturnFirst], on a fresh state *)
Definition find_first {AG : Aggregates} (c : Cond) (a : Array) (value start last : Z) : option Z :=
  REALM_ASSERT (in_array a start last);;
  let s := {| Query.m_state := 0; Query.m_match_count := 0; Query.m_limit := 0; Query.m_minmax_index := 0; Query.akku := tt |} in
  s ← Query.init act_ReturnFirst tt 1 s;
  '(_, s) ← find (λ _ c, c) (λ _ c, (true, c)) c act_ReturnFirst a value start last 0 s false false;
  Some (wrap (Query.m_state s)).
End find.
End Find.
