(* ===== verification/ArrayScan.v ===== *)
(** * Searching word by word

    The reference for a search is a scan: the elements one by one, in order.  The loops of array.hpp that examine
    whole words are proved equal to it, for any consumer of matches that keeps to some laws. *)

From S2P Require Import Prelude ArrayDirect ArrayAccess WordTricks WordTricksTheorems ArrayFind.

Import Find.

(** ** The reference *)
Section scan.
Context {St : Type} {CO : Consumer St}.

Fixpoint scan (test : Z → bool) (els : list Z) (i baseindex : Z) (s : St) : option (bool * St) :=
  match els with
  | [] => Some (true, s)
  | v :: els =>
      '(go, s) ← (if test v then find_action (i ⊕ baseindex) (Some v) s else Some (true, s));
      if (go : bool) then scan test els (i + 1) baseindex s else Some (false, s)
  end.

(** The consumer refuses whole words of matches. *)
Definition refuses (s : St) : Prop := ∀ i p, find_action_pattern i p s = Some (false, s).
End scan.

(** What a search relies on: [Inv n] holds of states to which [n] more elements can be passed.
    Refusing a word changes nothing, and the consumer then refuses all further ones; consuming it
    has the same effect as all of its matches. *)
Class ConsumerLaws {St : Type} {MC : Machine} (CO : Consumer St) (Inv : nat → St → Prop) := {
  inv_le n m s : (m <= n)%nat → Inv n s → Inv m s;
  action_inv n i v s go s' : Inv (S n) s → find_action i (Some v) s = Some (go, s') → Inv n s';
  pattern_decides n i p s : Inv n s → refuses s ∨ ∃ s', find_action_pattern i p s = Some (true, s');
  refuses_persists n i v s go s' : Inv (S n) s → refuses s → find_action i (Some v) s = Some (go, s') → refuses s';
  pattern_consumes n i p s s' test els j baseindex : Inv n s → (length els <= n)%nat → (length els <= 64)%nat → find_action_pattern i p s = Some (true, s') →
    fast_popcount64 p = Z.of_nat (length (filter (λ v, test v = true) els)) → scan test els j baseindex s = Some (true, s') }.

Section laws.
Context {St : Type} {MC : Machine} {ML : MachineLaws} {CO : Consumer St} {Inv : nat → St → Prop} {CL : ConsumerLaws CO Inv}.

(** ** Scans *)
Lemma scan_app test l1 l2 i b s : scan test (l1 ++ l2) i b s = ('(go, s) ← scan test l1 i b s; if (go : bool) then scan test l2 (i + Z.of_nat (length l1)) b s else Some (false, s)).
Proof using Type.
  revert i s. induction l1 as [|v l1 IH]; intros i s; [cbn; by rewrite Z.add_0_r|]. cbn [scan app].
  destruct (if test v then _ else _) as [[[] s1]|]; [|done..]. cbn. rewrite IH. by replace (i + 1 + Z.of_nat (length l1)) with (i + Z.of_nat (S (length l1))) by lia.
Qed.

Lemma scan_none test els i b s : existsb test els = false → scan test els i b s = Some (true, s).
Proof using Type.
  revert i s. induction els as [|v els IH]; intros i s H; [done|]. cbn in *. apply orb_false_iff in H as [-> H]. cbn. by apply IH.
Qed.

Lemma scan_ext test test' els i b s : (∀ v, v ∈ els → test v = test' v) → scan test els i b s = scan test' els i b s.
Proof using Type.
  revert i s. induction els as [|v els IH]; intros i s H; [done|]. cbn. rewrite (H v) by left.
  destruct (if test' v then _ else _) as [[[] s1]|]; [|done..]. cbn. apply IH. intros u Hu. apply H. by right.
Qed.

Lemma scan_inv test els n i b s go s' : Inv (length els + n) s → scan test els i b s = Some (go, s') → Inv n s'.
Proof using CL.
  revert i s. induction els as [|v els IH]; intros i s Hi H; [by injection H as <- <-|]. cbn in H.
  destruct (test v); [|eapply IH; [|exact H]; eapply inv_le; [|exact Hi]; cbn; lia].
  destruct (find_action _ _ _) as [[go1 s1]|] eqn:E; [|done]. apply (action_inv (length els + n)) in E; [|exact Hi]. destruct go1; cbn in H; [by eapply IH|].
  injection H as <- <-. eapply inv_le; [|exact E]. lia.
Qed.

(** To the first match *)
Lemma scan_first test els i b s : existsb test els = true →
  scan test els i b s = (v ← els !! find_if test els;
    '(go, s) ← find_action (i + Z.of_nat (find_if test els) ⊕ b) (Some v) s;
    if (go : bool) then scan test (drop (S (find_if test els)) els) (i + Z.of_nat (S (find_if test els))) b s else Some (false, s)).
Proof using Type.
  revert i. induction els as [|v els IH]; intros i H; [done|]. cbn [scan existsb find_if] in *. destruct (test v).
  - cbn. by rewrite Z.add_0_r.
  - cbn in H |- *. rewrite IH by done. replace (i + 1 + Z.of_nat (find_if test els)) with (i + Z.of_nat (S (find_if test els))) by lia.
    by replace (i + 1 + Z.of_nat (S (find_if test els))) with (i + Z.of_nat (S (S (find_if test els)))) by lia.
Qed.

Lemma find_if_lt {A} (p : A → bool) l : existsb p l = true → (find_if p l < length l)%nat.
Proof using Type. induction l as [|a l IH]; [done|]. cbn. destruct (p a); [lia|]. intros H. specialize (IH H). lia. Qed.

(** ** The elements of an array *)
Definition elems (w : Z) (a : Array) (start : Z) (n : nat) : list Z := (λ i : nat, elem w (m_data a) (start + Z.of_nat i)) <$> seq 0 n.

Lemma elems_length w a start n : length (elems w a start n) = n.
Proof using Type. unfold elems. by rewrite length_fmap, length_seq. Qed.
Lemma array_elems_app w a start n m : elems w a start (n + m) = elems w a start n ++ elems w a (start + Z.of_nat n) m.
Proof using Type.
  unfold elems. rewrite seq_app, fmap_app. f_equal. rewrite <- (Nat.add_0_r (0 + n)), <- fmap_add_seq, <- list_fmap_compose.
  apply list_fmap_ext. intros i x _. cbn. f_equal. lia.
Qed.
Lemma elems_lookup w a start n i : (i < n)%nat → elems w a start n !! i = Some (elem w (m_data a) (start + Z.of_nat i)).
Proof using Type. intros Hi. unfold elems. rewrite list_lookup_fmap, lookup_seq_lt by lia. done. Qed.
Lemma elems_S w a start n : elems w a start (S n) = elem w (m_data a) start :: elems w a (start + 1) n.
Proof using Type. change (S n) with (1 + n)%nat. rewrite array_elems_app. cbn. by rewrite Z.add_0_r. Qed.

(** An array of a width whose data holds its elements *)
Definition array_ok (w : Z) (a : Array) : Prop := In w widths ∧ holds w (m_data a) (m_size a) ∧ 0 <= m_size a < W64 - 64.

Lemma array_get w a i : array_ok w a → 0 <= i < m_size a → get w a i = Some (elem w (m_data a) i).
Proof using Type.
  intros (Hw & Hd & Hs) Hi. apply get_elem; [done| |lia]. eapply holds_le; [by by_width w|exact Hd|lia].
Qed.

(** One by one *)
Lemma each_scan n test w a start b s : array_ok w a → 0 <= start → start + Z.of_nat n <= m_size a →
  each n test w a start b s = scan test (elems w a start n) start b s.
Proof using Type.
  intros Ha. revert start s. induction n as [|n IH]; intros start s Hs Hn; [done|]. rewrite elems_S. cbn [each scan].
  rewrite array_get by (done || lia). cbn [mbind option_bind]. destruct (if test _ then _ else _) as [[[] s1]|]; [|done..]. cbn. apply IH; lia.
Qed.
End laws.

(** * The loops over words are scans

    [compare_equality] and [compare_relation], for any width, any part of an array and any consumer. *)

Import Find.

(** ** Words of an array *)
Section words.
Context {MC : Machine} {ML : MachineLaws} (w : Z) (Hw : In w word_widths).
Abbreviation n := (per_word w).

Lemma word_width : In w widths.
Proof using Hw. clear ML MC. by_word_width w; vm_compute; tauto. Qed.

Lemma value_of_inj d e : 0 <= d < 2 ^ w → 0 <= e < 2 ^ w → value_of w d = value_of w e → d = e.
Proof using Hw.
  intros Hd He. pose proof (word_width_pos w Hw). unfold value_of. destruct (w <? 8); [done|]. intros E.
  apply (f_equal (λ z, z mod 2 ^ w)) in E. rewrite !signed_mod, !Z.mod_small in E by lia. done.
Qed.

Lemma first_of_word (q : nat) : first_of w (8 * Z.of_nat q) = Z.of_nat (q * n).
Proof using Hw.
  pose proof (per_word_bits w Hw). pose proof (word_width_pos w Hw). unfold first_of, no0. replace (w =? 0) with false by bool_lia.
  replace (8 * Z.of_nat q / 8) with (Z.of_nat q) by (rewrite Z.mul_comm, Z.div_mul; lia).
  symmetry. apply Z.div_unique_exact; [lia|]. rewrite Nat2Z.inj_mul. nia.
Qed.

Lemma word_elems a (q : nat) : array_ok w a → 8 * Z.of_nat q + 8 <= Z.of_nat (length (m_data a)) →
  ∃ ds, digits_ok w ds ∧ length ds = n ∧ word_at a (8 * Z.of_nat q) = Some (pack w ds) ∧ elems w a (Z.of_nat (q * n)) n = value_of w <$> ds.
Proof using Hw.
  intros (_ & [Hb _] & _) Hl. pose proof (per_word_bits w Hw) as Hn. pose proof (word_width_pos w Hw) as H0.
  set (x := field 64 (8 * (8 * Z.of_nat q)) (little_endian (m_data a))).
  assert (0 <= x < 2 ^ 64) as Hx by (apply field_bounds; lia).
  exists (unpack w n x). split_and!.
  - by apply unpack_ok.
  - apply unpack_length.
  - unfold word_at. rewrite load_field by (done || lia). by rewrite (unpack_word w Hw).
  - apply list_eq. intros i. rewrite list_lookup_fmap. destruct (Nat.lt_ge_cases i n) as [Hi|Hi].
    + rewrite elems_lookup, unpack_lookup by done. cbn. f_equal. unfold elem, digit, x. rewrite field_field by nia. do 2 f_equal. nia.
    + rewrite !lookup_ge_None_2; [done|by rewrite unpack_length|by rewrite elems_length].
Qed.

Lemma pack_pad (ds : list Z) m : pack w (ds ++ replicate m 0) = pack w ds.
Proof using Hw. rewrite (pack_app w (word_width_pos w Hw)), pack_zeros. lia. Qed.

(** Shifting elements out, which is undefined for all of them *)
Lemma shift_out ds k : digits_ok w ds → length ds = n → (k <= n)%nat →
  ∃ extra, Words.shr64 (pack w ds) (Z.of_nat k * w) = pack w (drop k ds ++ extra) ∧ digits_ok w (drop k ds ++ extra) ∧ length (drop k ds ++ extra) = n.
Proof using Hw ML.
  intros Hds Hl Hk. pose proof (word_width_pos w Hw) as H0. destruct (decide (k = n)) as [->|Hne].
  - exists (unpack w n (undefined_shift (pack w ds))). rewrite drop_ge by lia. split_and!; [|by apply unpack_ok|apply unpack_length].
    unfold Words.shr64. rewrite Z.mul_comm, per_word_bits by done. cbn. rewrite (unpack_word w Hw); [done|apply undefined_shift_word].
  - exists (replicate k 0). rewrite Z.mul_comm, (shr_word w Hw), pack_pad by (done || lia). split_and!; [done| |].
    + apply Forall_app. split; [by apply Forall_drop|by apply zeros_ok].
    + rewrite length_app, length_drop, length_replicate. lia.
Qed.

(** The number of matches that [cascade] marks *)
Lemma popcount_flags (fl : list bool) : length fl = n → fast_popcount64 (pack w (Z.b2z <$> fl)) = Z.of_nat (length (filter (λ b, b = true) fl)).
Proof using Hw ML.
  intros Hl. pose proof (word_width_pos w Hw) as H0. pose proof (per_word_bits w Hw). pose proof (radix_two w H0).
  rewrite fast_popcount64_spec.
  - pose proof (bits_set_pack (Z.to_nat w) fl ltac:(lia)) as E. rewrite Z2Nat.id in E by lia. rewrite <- E. do 2 f_equal. nia.
  - apply (pack_word w Hw); [|by rewrite length_fmap]. apply Forall_fmap, Forall_true. intros []; cbn; lia.
Qed.
End words.

(** Two lists on which two tests agree *)
Lemma agree_exists {A B} (p : A → bool) (q : B → bool) l l' : Forall2 (λ a b, p a = q b) l l' → existsb p l = existsb q l'.
Proof. induction 1 as [|a b l l' E _ IH]; cbn; [done|by rewrite E, IH]. Qed.
Lemma agree_find {A B} (p : A → bool) (q : B → bool) l l' : Forall2 (λ a b, p a = q b) l l' → find_if p l = find_if q l'.
Proof. induction 1 as [|a b l l' E _ IH]; cbn; [done|by rewrite E, IH]. Qed.
Lemma agree_count {A B} (p : A → bool) (q : B → bool) l l' : Forall2 (λ a b, p a = q b) l l' → length (filter (λ b, b = true) (q <$> l')) = length (filter (λ a, p a = true) l).
Proof. induction 1 as [|a b l l' E _ IH]; [done|]. cbn [fmap list_fmap]. rewrite !filter_cons, <- E. destruct (p a); cbn; [by apply (f_equal S)|done]. Qed.
Lemma find_if_app_l {A} (p : A → bool) l l' : existsb p l = true → find_if p (l ++ l') = find_if p l.
Proof. induction l as [|a l IH]; [done|]. cbn. destruct (p a); [done|]. intros H. by rewrite IH. Qed.
Lemma find_if_app_r {A} (p : A → bool) l l' : existsb p l = false → find_if p (l ++ l') = (length l + find_if p l')%nat.
Proof. induction l as [|a l IH]; [done|]. cbn. destruct (p a); [done|]. intros H. by rewrite IH. Qed.

(** ** [compare_equality] *)
Section equality.
Context {St : Type} {MC : Machine} {ML : MachineLaws} {CO : Consumer St} {Inv : nat → St → Prop} {CL : ConsumerLaws CO Inv}.
Context (w : Z) (Hw : In w word_widths) (a : Array) (Ha : array_ok w a) (eq : bool) (test : Z → bool).
Abbreviation n := (per_word w).

Lemma more_matches zs : digits_ok w zs → length zs = n →
  (if eq then Words.test_zero w (pack w zs) else Some (negb (pack w zs =? 0))) = Some (existsb (sought eq) zs).
Proof using Hw ML.
  intros Hz Hl. pose proof (word_width_pos w Hw) as H0. destruct eq.
  - rewrite (test_zero_spec w Hw) by done. f_equal. clear. induction zs as [|z zs IH]; [done|]. cbn [existsb]. rewrite IH. unfold sought. by destruct (z =? 0).
  - f_equal. apply eq_true_iff_eq. rewrite negb_true_iff, Z.eqb_neq, (pack_zero w H0), existsb_exists by done. split.
    + intros H. apply not_Forall_Exists in H; [|solve_decision]. apply Exists_exists in H as (x & Hx & Hne). exists x. split; [by apply list_elem_of_In|].
      unfold sought. by rewrite (proj2 (Z.eqb_neq x 0) Hne).
    + intros (x & Hx & E) H. rewrite Forall_forall in H. apply list_elem_of_In in Hx. rewrite (H x Hx) in E. done.
Qed.

(** The matches of a word from its [k]th element on, when [xs] holds what is left of the compared word; the
    bits that have been shifted in are [extra], and matches among them are none of the array. *)
Lemma equality_matches_spec (start : nat) b fuel : ∀ (k : nat) els xs extra s,
  els = elems w a (Z.of_nat (start + k)) (n - k) → Forall2 (λ v x, test v = sought eq x) els xs → (k <= n)%nat →
  Z.of_nat (start + n) <= m_size a →
  digits_ok w (xs ++ extra) → length (xs ++ extra) = n → Inv (n - k) s → (k = 0%nat ∧ extra = [] ∨ refuses s) → (n - k < fuel)%nat →
  equality_matches fuel eq w a (Z.of_nat start) b (pack w (xs ++ extra)) (Z.of_nat k) s = scan test els (Z.of_nat (start + k)) b s.
Proof using All.
  induction fuel as [|fuel IH]; intros k els xs extra s -> Hag Hk Hsize Hok Hl Hi Hr Hf; [lia|].
  pose proof (Forall2_length _ _ _ Hag) as Hxs. rewrite elems_length in Hxs. pose proof (word_width_pos w Hw) as H0.
  cbn [equality_matches]. rewrite more_matches by done. cbn [mbind option_bind].
  destruct (existsb (sought eq) (xs ++ extra)) eqn:Hex; cbn [negb].
  2: { rewrite existsb_app in Hex. apply orb_false_iff in Hex as [Hex _]. rewrite scan_none; [done|]. by rewrite (agree_exists _ _ _ _ Hag). }
  rewrite cascade_spec by done. cbn [mbind option_bind].
  destruct (pattern_decides (n - k) (Z.of_nat start ⊕ b) (pack w ((λ d, Z.b2z (sought eq d)) <$> xs ++ extra)) s Hi) as [Href|(s' & Econs)].
  2: { rewrite Econs. cbn. destruct Hr as [[-> ->]|Hr]; [|by rewrite Hr in Econs]. symmetry. rewrite app_nil_r in *.
       eapply (pattern_consumes (n - 0)); [exact Hi|rewrite elems_length; lia|rewrite elems_length; pose proof (per_word_bound w Hw); lia|exact Econs|].
       rewrite (list_fmap_compose (sought eq) Z.b2z), popcount_flags by (done || by rewrite length_fmap). f_equal. by apply agree_count. }
  rewrite Href, find_zero_spec by done. cbn [mbind option_bind]. rewrite per_word_div by done.
  destruct (existsb (sought eq) xs) eqn:Hexs.
  2: { rewrite find_if_app_r by done. replace (Z.of_nat n <=? _) with true by bool_lia. rewrite scan_none; [done|]. by rewrite (agree_exists _ _ _ _ Hag). }
  rewrite find_if_app_l by done. set (t := find_if (sought eq) xs). assert (t < length xs)%nat as Ht by by apply find_if_lt.
  replace (Z.of_nat n <=? Z.of_nat k + Z.of_nat t) with false by bool_lia.
  rewrite array_get by (done || lia). cbn [mbind option_bind].
  rewrite (scan_first test (elems _ _ _ _)) by by rewrite (agree_exists _ _ _ _ Hag). rewrite (agree_find _ _ _ _ Hag). fold t.
  rewrite elems_lookup by lia. cbn [mbind option_bind].
  replace (Z.of_nat k + Z.of_nat t + Z.of_nat start) with (Z.of_nat (start + k) + Z.of_nat t) by lia.
  replace (Z.of_nat start + (Z.of_nat k + Z.of_nat t)) with (Z.of_nat (start + k) + Z.of_nat t) by lia.
  destruct (find_action _ _ s) as [[[] s1]|] eqn:Eact; [|done..]. cbn [mbind option_bind].
  replace ((Z.of_nat t + 1) * w) with (Z.of_nat (S t) * w) by lia.
  destruct (shift_out w Hw (xs ++ extra) (S t)) as (extra' & -> & Hok' & Hl'); [done|done|lia|].
  rewrite drop_app_le in * by lia. rewrite <- app_assoc in *.
  replace (Z.of_nat k + Z.of_nat t + 1) with (Z.of_nat (k + S t)) by lia.
  replace (Z.of_nat (start + k) + Z.of_nat (S t)) with (Z.of_nat (start + (k + S t))) by lia.
  assert (drop (S t) (elems w a (Z.of_nat (start + k)) (n - k)) = elems w a (Z.of_nat (start + (k + S t))) (n - (k + S t))) as Ed.
  { replace (n - k)%nat with (S t + (n - (k + S t)))%nat by lia. rewrite array_elems_app, drop_app_le, drop_ge by (rewrite elems_length; lia). cbn [app]. f_equal. lia. }
  assert (Inv (n - (k + S t)) s1) as Hi1.
  { eapply inv_le; [|eapply (action_inv (n - k - 1)); [|exact Eact]]; [lia|]. by replace (S (n - k - 1)) with (n - k)%nat by lia. }
  rewrite Ed. apply IH; [done| |lia|done|done|done|done| |lia].
  - rewrite <- Ed. by apply Forall2_drop.
  - right. eapply (refuses_persists (n - k - 1)); [|exact Href|exact Eact]. by replace (S (n - k - 1)) with (n - k)%nat by lia.
Qed.
End equality.

(** ** A search in three parts: to the first whole word, word by word, and the rest *)
Section parts.
Context {St : Type} {MC : Machine} {ML : MachineLaws} {CO : Consumer St} {Inv : nat → St → Prop} {CL : ConsumerLaws CO Inv}.
Context (w : Z) (Hw : In w word_widths) (a : Array) (Ha : array_ok w a) (test : Z → bool) (b : Z).
Abbreviation n := (per_word w).

(** What the part in the middle does: it scans some words from the [q]th on. *)
Definition scans_words (last : Z) (mid : Z → St → option (bool * St * Z)) : Prop :=
  ∀ (q : nat) s, Z.of_nat (q * n) < last → Inv (Z.to_nat (last - Z.of_nat (q * n))) s →
  ∃ m : nat, Z.of_nat ((q + m) * n) <= last ∧
    mid (Z.of_nat (q * n)) s = ('(go, s) ← scan test (elems w a (Z.of_nat (q * n)) (m * n)) (Z.of_nat (q * n)) b s; Some (go, s, Z.of_nat ((q + m) * n))).

Lemma scan_elems_app start n1 n2 s : scan test (elems w a start (n1 + n2)) start b s =
  ('(go, s) ← scan test (elems w a start n1) start b s; if (go : bool) then scan test (elems w a (start + Z.of_nat n1) n2) (start + Z.of_nat n1) b s else Some (false, s)).
Proof using Type. by rewrite array_elems_app, scan_app, elems_length. Qed.

Lemma rounded_up start : 0 <= start <= m_size a → ∃ q : nat, round_up start (64 / no0 w) = Z.of_nat (q * n) ∧ start <= Z.of_nat (q * n).
Proof using Hw ML Ha.
  intros Hs. destruct Ha as (_ & _ & Hsz). rewrite per_word_div by done. pose proof (per_word_bound w Hw).
  destruct (round_up_spec start (Z.of_nat n)) as [E1 E2]; [lia..|]. exists (Z.to_nat (round_up start (Z.of_nat n) / Z.of_nat n)).
  rewrite Nat2Z.inj_mul, Z2Nat.id by (apply Z.div_pos; lia). pose proof (Z.div_mod (round_up start (Z.of_nat n)) (Z.of_nat n)). lia.
Qed.

Lemma three_parts start last mid s : 0 <= start <= last → last <= m_size a → Inv (Z.to_nat (last - start)) s → scans_words last mid →
  (let ee := round_up start (64 / no0 w) in
   let ee := if last <? ee then last else ee in
   '(go, s) ← each (turns start ee) test w a start b s;
   if negb go then Some (false, s) else
   let start := Z.max start ee in
   if last <=? start then Some (true, s) else
   '(go, s, start) ← mid start s;
   if negb go then Some (false, s) else
   each (turns start last) test w a start b s) = scan test (elems w a start (Z.to_nat (last - start))) start b s.
Proof using All.
  intros Hs Hl Hi Hmid. cbv zeta. destruct (rounded_up start) as (q & -> & Hq); [lia|].
  set (ee := if last <? _ then last else _).
  assert (start <= ee <= last ∧ (ee < last → ee = Z.of_nat (q * n))) as [He Hw'] by (unfold ee; destruct (Z.ltb_spec last (Z.of_nat (q * n))); lia).
  clearbody ee. unfold turns. rewrite each_scan by (done || lia).
  replace (Z.to_nat (last - start)) with (Z.to_nat (ee - start) + Z.to_nat (last - ee))%nat in * by lia. rewrite scan_elems_app.
  destruct (scan test (elems w a start (Z.to_nat (ee - start))) start b s) as [[[] s1]|] eqn:E1; [|done..]. cbn [mbind option_bind negb].
  replace (start + Z.of_nat (Z.to_nat (ee - start))) with ee by lia. replace (Z.max start ee) with ee by lia.
  destruct (Z.leb_spec last ee) as [H|H]; [by replace (Z.to_nat (last - ee)) with 0%nat by lia|].
  rewrite (Hw' H) in *. destruct (Hmid q s1) as (m & Hm & ->); [lia|eapply scan_inv; [|exact E1]; by rewrite elems_length|].
  replace (Z.to_nat (last - Z.of_nat (q * n))) with (m * n + Z.to_nat (last - Z.of_nat ((q + m) * n)))%nat by nia. rewrite scan_elems_app.
  destruct (scan test (elems _ _ _ (m * n)) _ _ _) as [[[] s2]|]; [|done..]. cbn [mbind option_bind negb].
  replace (Z.of_nat (q * n) + Z.of_nat (m * n)) with (Z.of_nat ((q + m) * n)) by nia. by rewrite each_scan by (done || lia).
Qed.
End parts.

(** ** Word by word *)
Section word_by_word.
Context {St : Type} {MC : Machine} {ML : MachineLaws} {CO : Consumer St} {Inv : nat → St → Prop} {CL : ConsumerLaws CO Inv}.
Context (w : Z) (Hw : In w word_widths) (a : Array) (Ha : array_ok w a).
Abbreviation n := (per_word w).

(** How many words the loops examine, all of them inside of the range *)
Lemma word_turns_spec (q : nat) last : Z.of_nat (q * n) < last → last <= m_size a →
  ∃ m : nat, word_turns (Z.of_nat (q * n) * w / 8) (last * w / 8 - 8) = m ∧ Z.of_nat ((q + m) * n) <= last ∧
    Z.of_nat (q * n) * w / 8 = 8 * Z.of_nat q ∧ (8 * Z.of_nat (q + m) <= Z.of_nat (length (m_data a)) ∨ m = 0%nat).
Proof using Hw Ha.
  intros Hq Hl. destruct Ha as (_ & [_ Hd] & _). pose proof (per_word_bits w Hw) as Hn. pose proof (word_width_pos w Hw) as H0.
  assert (Z.of_nat (q * n) * w = 64 * Z.of_nat q) as Eq by nia. eexists. split; [done|]. unfold word_turns. rewrite Eq.
  assert (64 * Z.of_nat q / 8 = 8 * Z.of_nat q) as -> by (symmetry; apply Z.div_unique_exact; lia).
  set (e := last * w / 8). assert (8 * e <= last * w) as He by (apply Z.mul_div_le; lia).
  assert (8 * e <= 8 * Z.of_nat (length (m_data a))) by nia.
  set (m := Z.to_nat ((e - 8 - 8 * Z.of_nat q + 7) / 8)).
  assert (m = 0%nat ∨ 8 * (Z.of_nat q + Z.of_nat m) <= e) as [->|Hm] by (unfold m; Z.to_euclidean_division_equations; lia).
  - rewrite Nat.add_0_r. split_and!; [lia|done|by right].
  - split_and!; [|done|left; lia]. assert (Z.of_nat ((q + m) * n) * w <= last * w) by nia. nia.
Qed.

(** A loop over words, each of which is scanned *)
Lemma words_scan (test : Z → bool) b (body : Z → St → option (bool * St)) (loop : nat → Z → St → option (bool * St)) :
  (∀ p s, loop 0%nat p s = Some (true, s)) →
  (∀ k p s, loop (S k) p s = ('(go, s) ← body p s; if (go : bool) then loop k (p + 8) s else Some (false, s))) →
  (∀ (q : nat) s, 8 * Z.of_nat q + 8 <= Z.of_nat (length (m_data a)) → Z.of_nat ((q + 1) * n) <= m_size a → Inv n s →
     body (8 * Z.of_nat q) s = scan test (elems w a (Z.of_nat (q * n)) n) (Z.of_nat (q * n)) b s) →
  ∀ m q s, 8 * Z.of_nat (q + m) <= Z.of_nat (length (m_data a)) ∨ m = 0%nat → Z.of_nat ((q + m) * n) <= m_size a → Inv (m * n) s →
    loop m (8 * Z.of_nat q) s = scan test (elems w a (Z.of_nat (q * n)) (m * n)) (Z.of_nat (q * n)) b s.
Proof using CL.
  intros H0 HS Hbody m. induction m as [|m IH]; intros q s Hl Hsz Hi; [by rewrite H0|].
  rewrite HS, Hbody; [|lia|nia|eapply inv_le; [|exact Hi]; cbn; lia]. cbn [Nat.mul]. rewrite scan_elems_app.
  destruct (scan test _ _ _ s) as [[[] s1]|] eqn:E; [|done..]. cbn [mbind option_bind].
  replace (8 * Z.of_nat q + 8) with (8 * Z.of_nat (S q)) by lia. replace (Z.of_nat (q * n) + Z.of_nat n) with (Z.of_nat (S q * n)) by nia.
  apply IH; [left; lia|nia|]. eapply scan_inv; [|exact E]. by rewrite elems_length.
Qed.

Lemma middle_scans (test : Z → bool) b (words : nat → Z → St → option (bool * St)) last : last <= m_size a →
  (∀ m q s, 8 * Z.of_nat (q + m) <= Z.of_nat (length (m_data a)) ∨ m = 0%nat → Z.of_nat ((q + m) * n) <= m_size a → Inv (m * n) s →
    words m (8 * Z.of_nat q) s = scan test (elems w a (Z.of_nat (q * n)) (m * n)) (Z.of_nat (q * n)) b s) →
  scans_words (Inv := Inv) w a test b last (λ start s,
    let p := start * w / 8 in let e := last * w / 8 - 8 in
    '(go, s) ← words (word_turns p e) p s; Some (go, s, first_of w (p + 8 * Z.of_nat (word_turns p e)))).
Proof using Hw Ha CL.
  intros Hl Hwords q s Hq Hi. destruct (word_turns_spec q last Hq Hl) as (m & Em & Hm & Ep & Hd). exists m. split; [done|]. cbv zeta.
  rewrite Em, Ep, (Hwords m q s Hd); [|lia|eapply inv_le; [|exact Hi]; nia].
  replace (8 * Z.of_nat q + 8 * Z.of_nat m) with (8 * Z.of_nat (q + m)) by lia. by rewrite first_of_word.
Qed.

Lemma no_middle (test : Z → bool) b last : scans_words (Inv := Inv) w a test b last (λ start s, Some (true, s, start)).
Proof using Type. intros q s Hq Hi. exists 0%nat. split; [rewrite Nat.add_0_r; lia|]. cbn. by rewrite Nat.add_0_r. Qed.

(** *** Equality *)
Definition equality_test (eq : bool) (value v : Z) : bool := if eq then v =? value else negb (v =? value).

Lemma valuemask_word value : wrap (ones64 / no0 (width_mask w) * Z.land (wrap value) (width_mask w)) = pack w (replicate n (value mod 2 ^ w)).
Proof using Hw.
  pose proof (word_width_pos w Hw) as H0. pose proof (radix_pos w H0) as R. pose proof (per_word_bits w Hw) as Hn. pose proof (per_word_bound w Hw).
  rewrite (land_mask w Hw) by apply wrap_fits.
  assert (wrap value mod 2 ^ w = value mod 2 ^ w) as ->.
  { unfold wrap. rewrite <- (word_bits w Hw). apply Z.mod_mod_divide.
    exists (2 ^ (w * Z.of_nat n - w)). rewrite <- Z.pow_add_r by nia. f_equal. lia. }
  rewrite (mask_word w Hw). unfold no0. pose proof (radix_two w H0).
  replace (2 ^ w - 1 =? 0) with false by bool_lia. rewrite (ones_div_word w Hw), Z.mul_comm, pack_replicate. apply wrap_small.
  apply (pack_word w Hw); [|by rewrite length_replicate]. apply Forall_replicate. by apply Z.mod_pos_bound.
Qed.

Lemma equality_words_spec (eq : bool) value b : storable w value = true → ∀ m q s,
  8 * Z.of_nat (q + m) <= Z.of_nat (length (m_data a)) ∨ m = 0%nat → Z.of_nat ((q + m) * n) <= m_size a → Inv (m * n) s →
  equality_words m eq w a (pack w (replicate n (value mod 2 ^ w))) (8 * Z.of_nat q) b s =
  scan (equality_test eq value) (elems w a (Z.of_nat (q * n)) (m * n)) (Z.of_nat (q * n)) b s.
Proof using All.
  intros Hv m q s. pose proof (word_width_pos w Hw) as H0. pose proof (radix_pos w H0) as R.
  set (vm := value mod 2 ^ w). assert (0 <= vm < 2 ^ w) as Hvm by by apply Z.mod_pos_bound.
  apply (words_scan (equality_test eq value) b
    (λ p s, chunk ← word_at a p; equality_matches 65 eq w a (first_of w p) b (Z.lxor chunk (pack w (replicate n vm))) 0 s)
    (λ m p s, equality_words m eq w a (pack w (replicate n vm)) p b s)); [done| |].
  { intros k p s'. cbn [equality_words]. by destruct (word_at a p). }
  clear m q s. intros q s Hl Hsz Hi. destruct (word_elems w Hw a q Ha Hl) as (ds & Hds & Hn & -> & Eels). cbn [mbind option_bind].
  destruct (pack_lxor w H0 ds (replicate n vm)) as [-> Hok]; [done|by apply Forall_replicate|by rewrite length_replicate|].
  rewrite zip_replicate in * by done. rewrite first_of_word, <- (app_nil_r ((λ d, Z.lxor d vm) <$> ds)) by done.
  pose proof (per_word_bound w Hw).
  change 0 with (Z.of_nat 0) at 1. rewrite (equality_matches_spec w Hw a Ha eq (equality_test eq value) (q * n) b 65 0 (elems w a (Z.of_nat (q * n)) n)); rewrite ?Nat.add_0_r, ?Nat.sub_0_r, ?app_nil_r; try done; try lia.
  - rewrite Eels. apply Forall2_fmap_2, Forall_Forall2_diag. eapply Forall_impl; [exact Hds|]. intros d Hd. cbn in Hd.
    assert ((value_of w d =? value) = (Z.lxor d vm =? 0)) as E.
    { apply eq_true_iff_eq. rewrite !Z.eqb_eq, Z.lxor_eq_0_iff. rewrite <- (value_of_stored w value) by (done || by apply word_width). fold vm.
      split; [by apply value_of_inj|by intros ->]. }
    unfold equality_test, sought. rewrite E. by destruct eq, (_ =? 0).
  - by rewrite length_fmap.
  - by left.
Qed.

Lemma compare_equality_spec (eq : bool) value start last b s : storable w value = true → 0 <= start <= last → last <= m_size a →
  Inv (Z.to_nat (last - start)) s →
  compare_equality eq w a value start last b s = scan (equality_test eq value) (elems w a start (Z.to_nat (last - start))) start b s.
Proof using All.
  intros Hv Hs Hl Hi. unfold compare_equality. replace (in_array a start last) with true by (unfold in_array; bool_lia). cbn [check mbind option_bind].
  rewrite valuemask_word. destruct (negb (w =? 32) && negb (w =? 64)).
  - apply (three_parts w Hw a Ha (equality_test eq value) b start last (λ start s,
      let p := start * w / 8 in let e := last * w / 8 - 8 in
      '(go, s) ← equality_words (word_turns p e) eq w a (pack w (replicate n (value mod 2 ^ w))) p b s;
      Some (go, s, first_of w (p + 8 * Z.of_nat (word_turns p e))))); [done..|].
    apply (middle_scans _ b (λ m p s, equality_words m eq w a _ p b s)); [done|]. by apply equality_words_spec.
  - by apply (three_parts w Hw a Ha (equality_test eq value) b start last (λ start s, Some (true, s, start))), no_middle.
Qed.
End word_by_word.

(** * The comparison of whole words

    [find_gtlt] and [find_gtlt_fast] scan the elements of a word; [compare_relation] scans a part of an array. *)

Import Find.

Definition relation_test (gt : bool) (value v : Z) : bool := if gt then value <? v else v <? value.

Lemma wadd_swap t f b : t ⊕ (f ⊕ b) = (f + t) ⊕ b.
Proof. unfold wadd. rewrite wrap_add_r. f_equal. lia. Qed.

Section relation.
Context {St : Type} {MC : Machine} {ML : MachineLaws} {CO : Consumer St} {Inv : nat → St → Prop} {CL : ConsumerLaws CO Inv}.
Context (w : Z) (Hw : In w word_widths) (Hw64 : w < 64).
Abbreviation n := (per_word w).
Abbreviation top := (2 ^ (w - 1)).

(** ** One element after the other *)
Lemma lowest_spec d ds : digits_ok w (d :: ds) → Words.lowest w (pack w (d :: ds)) = value_of w d.
Proof using Hw.
  intros Hok. pose proof (word_width_pos w Hw) as H0. pose proof (pack_bounds w H0 _ Hok). apply Forall_cons in Hok as [Hd Hds].
  unfold Words.lowest, value_of. destruct (w <? 8); [by rewrite (land_mask w Hw), pack_head by lia|].
  unfold signed. by rewrite pack_head, (Z.mod_small d) by done.
Qed.

Lemma gtlt_each_spec (gt : bool) v f b ds : ∀ t s, digits_ok w ds →
  Words.gtlt_each (length ds) gt w v (pack w ds) t (f ⊕ b) s = scan (relation_test gt v) (value_of w <$> ds) (f + t) b s.
Proof using Hw Hw64.
  pose proof (word_width_pos w Hw) as H0. induction ds as [|d ds IH]; intros t s Hok; [done|]. cbn [length Words.gtlt_each fmap list_fmap scan].
  rewrite lowest_spec by done. rewrite wadd_swap. change (if gt then _ else _) with (relation_test gt v (value_of w d)) at 1.
  destruct (if relation_test gt v (value_of w d) then _ else _) as [[[] s1]|]; [|done..]. cbn [mbind option_bind].
  unfold Words.shr64. rewrite (proj2 (Z.ltb_lt w 64)) by lia. replace w with (w * Z.of_nat 1) at 3 by lia. rewrite (pack_drop w H0 (d :: ds) 1) by done.
  apply Forall_cons in Hok as [_ Hok]. change (drop 1 (d :: ds)) with ds. rewrite IH by done. f_equal. lia.
Qed.

Lemma find_gtlt_spec (gt : bool) v f b ds s : digits_ok w ds → length ds = n →
  Words.find_gtlt gt w v (pack w ds) (f ⊕ b) s = scan (relation_test gt v) (value_of w <$> ds) f b s.
Proof using Hw Hw64.
  intros Hok Hl. unfold Words.find_gtlt. pose proof (gtlt_each_spec gt v f b ds 0 s Hok) as E. rewrite Z.add_0_r, Hl in E. rewrite <- E.
  assert ((w =? 1) || (w =? 2) || (w =? 4) || (w =? 8) || (w =? 16) || (w =? 32) = true) as ->; [|done].
  clear - Hw Hw64. revert Hw64. by_word_width w; intros; done || lia.
Qed.

(** ** All elements at once *)
Context (Hw2 : 2 <= w) (v : Z).

(** The highest bits of the elements that match, and nothing else *)
Definition marks (ds : list Z) : Z := top * pack w ((λ d, Z.b2z (relation_test true v d)) <$> ds).

Lemma flags_ok ds : digits_ok w ((λ d, Z.b2z (relation_test true v d)) <$> ds).
Proof using Hw Hw2 Hw64 ML. pose proof (radix_two w (word_width_pos w Hw)). apply Forall_fmap, Forall_true. intros d. cbn. destruct (v <? d); cbn; lia. Qed.

Lemma marks_digits ds : marks ds = pack w ((λ d, if relation_test true v d then top else 0) <$> ds).
Proof using Type. unfold marks. rewrite pack_mul, <- list_fmap_compose. f_equal. apply list_fmap_ext. intros i d _. unfold compose. destruct (relation_test true v d); unfold Z.b2z; lia. Qed.
Lemma marks_ok ds : digits_ok w ((λ d, if relation_test true v d then top else 0) <$> ds).
Proof using Hw Hw2 Hw64 ML. pose proof (top_half w (word_width_pos w Hw)). apply Forall_fmap, Forall_true. intros d. unfold compose. destruct (relation_test true v d); lia. Qed.

Lemma marks_zero ds : (marks ds =? 0) = negb (existsb (relation_test true v) ds).
Proof using Hw Hw2 Hw64 ML.
  pose proof (word_width_pos w Hw) as H0. destruct (top_half w H0). apply eq_true_iff_eq. rewrite Z.eqb_eq, negb_true_iff, <- not_true_iff_false, existsb_exists. rewrite marks_digits, (pack_zero w H0) by apply marks_ok.
  rewrite Forall_fmap, Forall_forall. split.
  - intros H' (d & Hd & E). apply list_elem_of_In in Hd. specialize (H' d Hd). unfold compose in H'. rewrite E in H'. lia.
  - intros H' d Hd. unfold compose. destruct (relation_test true v d) eqn:E; [|done]. destruct H'. exists d. split; [by apply list_elem_of_In|done].
Qed.

Lemma first_mark ds : digits_ok w ds → (length ds <= n)%nat → existsb (relation_test true v) ds = true →
  first_set_bit64 (marks ds) / no0 w = Z.of_nat (find_if (relation_test true v) ds).
Proof using Hw Hw2 Hw64 ML.
  intros Hok Hl Hex. pose proof (word_width_pos w Hw) as H0. destruct (top_half w H0) as [_ Ht]. pose proof (per_word_bits w Hw) as Hn.
  assert (0 < marks ds < W64) as Hm.
  { pose proof (marks_zero ds) as E. rewrite Hex in E. apply Z.eqb_neq in E. rewrite marks_digits in *. pose proof (pack_bounds w H0 _ (marks_ok ds)) as B. rewrite length_fmap in B.
    split; [lia|]. eapply Z.lt_le_trans; [apply B|]. rewrite <- (word_bits w Hw). apply Z.pow_le_mono_r; nia. }
  destruct (first_set_bit64_spec _ Hm) as (Hf & Hset & Hfirst). set (f := first_set_bit64 (marks ds)) in *. rewrite marks_digits in Hset, Hfirst.
  set (ms := (λ d, if relation_test true v d then top else 0) <$> ds) in *. set (t := find_if (relation_test true v) ds).
  assert (∀ i d bit, ds !! i = Some d → 0 <= bit < w → Z.testbit (pack w ms) (w * Z.of_nat i + bit) = relation_test true v d && (bit =? w - 1)) as Hbit.
  { intros i d bit Hd Hb. rewrite (testbit_element w H0 ms i (if relation_test true v d then top else 0)); [|apply marks_ok|unfold ms; by rewrite list_lookup_fmap, Hd|done].
    destruct (relation_test true v d); [|by rewrite Z.bits_0]. rewrite Z.pow2_bits_eqb by lia. cbn. apply Z.eqb_sym. }
  assert (∃ d, ds !! t = Some d ∧ relation_test true v d = true ∧ ∀ i e, (i < t)%nat → ds !! i = Some e → relation_test true v e = false) as (d & Hd & Htest & Hbefore).
  { clear - Hex. unfold t. clear t. induction ds as [|d ds IH]; [done|]. cbn [existsb find_if] in Hex |- *. destruct (relation_test true v d) eqn:E.
    - exists d. split_and!; [done|done|]. intros i e Hi. lia.
    - destruct (IH Hex) as (d' & H1 & H2 & H3). exists d'. split_and!; [done|done|]. intros [|i] e Hi He; [by injection He as <-|]. eapply H3; [|exact He]. lia. }
  pose proof (lookup_lt_Some _ _ _ Hd) as Htl.
  assert (f <= w * Z.of_nat t + (w - 1)) as Hle.
  { apply Z.nlt_ge. intros Hlt. specialize (Hfirst (w * Z.of_nat t + (w - 1)) ltac:(nia)). rewrite (Hbit t d) in Hfirst by (done || lia). rewrite Htest, Z.eqb_refl in Hfirst. done. }
  pose proof (Z.div_mod f w ltac:(lia)) as Ef. pose proof (Z.mod_pos_bound f w H0) as Bf. assert (0 <= f / w) by (apply Z.div_pos; lia).
  unfold no0. replace (w =? 0) with false by bool_lia.
  assert (f / w <= Z.of_nat t) by nia. destruct (Z.eq_dec (f / w) (Z.of_nat t)); [done|]. exfalso.
  destruct (lookup_lt_is_Some_2 ds (Z.to_nat (f / w))) as [e He]; [lia|]. specialize (Hbefore (Z.to_nat (f / w)) e ltac:(lia) He).
  specialize (Hbit _ e (f mod w) He Bf). rewrite Z2Nat.id, <- Ef, Hset, Hbefore in Hbit by lia. done.
Qed.

(** What is left of the marks *)
Lemma marks_drop ds k : Z.shiftr (marks ds) (w * Z.of_nat k) = marks (drop k ds).
Proof using Hw Hw2 Hw64 ML. rewrite !marks_digits, (pack_drop w (word_width_pos w Hw)) by apply marks_ok. by rewrite fmap_drop. Qed.

Lemma marks_flags ds : Words.shr64 (marks ds) (no0 w - 1) = pack w ((λ d, Z.b2z (relation_test true v d)) <$> ds).
Proof using Hw Hw2 Hw64 ML.
  pose proof (top_half w (word_width_pos w Hw)) as [_ Ht]. unfold Words.shr64, no0. replace (w =? 0) with false by bool_lia. rewrite (proj2 (Z.ltb_lt (w - 1) 64)) by lia.
  unfold marks. rewrite Z.shiftr_div_pow2, Z.mul_comm by lia. apply Z.div_mul. lia.
Qed.

Lemma gtlt_fast_loop_spec (ds : list Z) f b fuel : digits_ok w ds → length ds = n → Forall (λ d, d < 2 ^ 63) ds → ∀ (p : nat) s,
  (p <= n)%nat → Inv (n - p) s → (p = 0%nat ∨ refuses s) → (n - p < fuel)%nat →
  Words.gtlt_fast_loop fuel w (width_mask w) (pack w ds) (marks (drop p ds)) (Z.of_nat p) (f ⊕ b) s =
  scan (relation_test true v) (drop p ds) (f + Z.of_nat p) b s.
Proof using All.
  intros Hok Hl Hsmall. pose proof (word_width_pos w Hw) as H0. pose proof (per_word_bits w Hw) as Hn. pose proof (per_word_bound w Hw).
  induction fuel as [|fuel IH]; intros p s Hp Hi Hr Hf; [lia|]. cbn [Words.gtlt_fast_loop]. rewrite marks_zero.
  destruct (existsb (relation_test true v) (drop p ds)) eqn:Hex; cbn [negb]; [|by rewrite scan_none].
  rewrite marks_flags.
  destruct (pattern_decides (n - p) (f ⊕ b) (pack w ((λ d, Z.b2z (relation_test true v d)) <$> drop p ds)) s Hi) as [Href|(s' & Econs)].
  2: { rewrite Econs. cbn [mbind option_bind]. destruct Hr as [->|Hr]; [|by rewrite Hr in Econs]. symmetry. change (drop 0 ds) with ds in *.
       eapply (pattern_consumes (n - 0)); [exact Hi|lia|lia|exact Econs|].
       rewrite (list_fmap_compose (relation_test true v) Z.b2z), (popcount_flags w Hw) by (by rewrite length_fmap). f_equal.
       apply agree_count. by apply Forall_Forall2_diag, Forall_true. }
  rewrite Href. cbn [mbind option_bind]. rewrite first_mark by (done || (by apply Forall_drop) || (rewrite length_drop; lia)).
  set (t := find_if (relation_test true v) (drop p ds)). assert (t < length (drop p ds))%nat as Ht by by apply find_if_lt. rewrite length_drop in Ht.
  rewrite (scan_first (relation_test true v) (drop p ds)) by done. fold t. rewrite lookup_drop.
  destruct (lookup_lt_is_Some_2 ds (p + t)) as [d Hd]; [lia|]. rewrite Hd. cbn [mbind option_bind].
  assert (Z.land (Words.shr64 (pack w ds) ((Z.of_nat p + Z.of_nat t) * w)) (width_mask w) = d) as ->.
  { replace ((Z.of_nat p + Z.of_nat t) * w) with (w * Z.of_nat (p + t)) by lia. rewrite (shr_word w Hw), (land_mask w Hw) by (done || lia || (apply (pack_bounds w H0); by apply Forall_drop)).
    rewrite (drop_S _ _ _ Hd). apply pack_head. by apply (Forall_lookup_1 _ _ _ _ Hok Hd). }
  assert (int64 d = d) as ->.
  { pose proof (Forall_lookup_1 _ _ _ _ Hok Hd) as B. pose proof (Forall_lookup_1 _ _ _ _ Hsmall Hd) as B'. cbn beta in B, B'.
    unfold int64. rewrite <- (Z.mod_small d (2 ^ 64)) at 1 by (change (2 ^ 64) with (2 * 2 ^ 63); lia).
    apply signed_small; [done|]. change (64 - 1) with 63. lia. }
  rewrite wadd_swap. replace (f + (Z.of_nat p + Z.of_nat t)) with (f + Z.of_nat p + Z.of_nat t) by lia.
  destruct (find_action _ _ s) as [[[] s1]|] eqn:Eact; [|done..]. cbn [mbind option_bind].
  assert ((if (Z.of_nat t + 1) * w =? 64 then 0 else Words.shr64 (marks (drop p ds)) ((Z.of_nat t + 1) * w)) = marks (drop (p + S t) ds)) as ->.
  { destruct (Z.eqb_spec ((Z.of_nat t + 1) * w) 64).
    - rewrite drop_ge by nia. unfold marks. cbn. lia.
    - unfold Words.shr64. rewrite (proj2 (Z.ltb_lt ((Z.of_nat t + 1) * w) 64)) by nia. replace ((Z.of_nat t + 1) * w) with (w * Z.of_nat (S t)) by lia. by rewrite marks_drop, drop_drop. }
  rewrite drop_drop. replace (Z.of_nat p + Z.of_nat t + 1) with (Z.of_nat (p + S t)) by lia.
  replace (f + Z.of_nat p + Z.of_nat (S t)) with (f + Z.of_nat (p + S t)) by lia.
  assert (Inv (n - p - 1) s1) as Hi1 by (eapply action_inv; [|exact Eact]; by replace (S (n - p - 1)) with (n - p)%nat by lia).
  apply IH; [lia|eapply inv_le; [|exact Hi1]; lia| |lia]. right.
  eapply (refuses_persists (n - p - 1)); [|exact Href|exact Eact]. by replace (S (n - p - 1)) with (n - p)%nat by lia.
Qed.

(** The constant of the comparison marks the elements that are greater. *)
Lemma compare_word ds : digits_ok w ds → length ds = n → Forall (λ d, d < top) ds → 0 <= v → v <= top - 1 - 1 →
  Z.land (Z.lor (pack w ds ⊕ Words.find_gtlt_magic true w v) (pack w ds)) (wrap (ones64 / no0 (width_mask w) * (Z.shiftr (width_mask w) 1 + 1))) = marks ds.
Proof using Hw Hw2 Hw64 ML.
  intros Hok Hl Hs Hv1 Hv2. pose proof (word_width_pos w Hw) as H0. destruct (top_half w H0) as [E P]. pose proof (radix_two w H0).
  unfold Words.find_gtlt_magic. rewrite (mask_word w Hw). unfold no0. replace (2 ^ w - 1 =? 0) with false by bool_lia. rewrite (ones_div_word w Hw).
  replace (Z.shiftr (2 ^ w - 1) 1) with (top - 1) by (rewrite Z.shiftr_div_pow2 by lia; change (2 ^ 1) with 2; Z.to_euclidean_division_equations; lia).
  assert (∀ c, 0 <= c < 2 ^ w → wrap (pack w (replicate n 1) * c) = pack w (replicate n c)) as Hrep.
  { intros c Hc. rewrite Z.mul_comm, pack_replicate. apply wrap_small. apply (pack_word w Hw); [by apply rep_ok|by rewrite length_replicate]. }
  assert (2 ^ w <= W64) as HW by (change W64 with (2 ^ 64); apply Z.pow_le_mono_r; lia).
  rewrite wsub_small by lia. rewrite !Hrep by lia. replace (top - 1 + 1) with top by lia.
  set (c := top - 1 - v).
  assert (digits_ok w ((λ d, d + c) <$> ds)) as Hok1.
  { apply Forall_fmap. apply Forall_forall. intros d Hd. unfold compose.
    pose proof (proj1 (Forall_forall _ _) Hok d Hd) as B1. pose proof (proj1 (Forall_forall _ _) Hs d Hd) as B2. cbn beta in B1, B2. unfold c. lia. }
  assert (pack w ds ⊕ pack w (replicate n c) = pack w ((λ d, d + c) <$> ds)) as ->.
  { unfold wadd. rewrite pack_add, zip_replicate by (done || by rewrite length_replicate). apply wrap_small. apply (pack_word w Hw); [done|by rewrite length_fmap]. }
  destruct (pack_lor w H0 ((λ d, d + c) <$> ds) ds) as [-> Hok2]; [done|done|by rewrite length_fmap|].
  destruct (pack_land w H0 (zip_with Z.lor ((λ d, d + c) <$> ds) ds) (replicate n top)) as [-> _]; [done|apply rep_ok; lia|by rewrite length_zip_with, length_fmap, length_replicate, Nat.min_id|].
  rewrite zip_replicate by (by rewrite length_zip_with, length_fmap, Nat.min_id). rewrite marks_digits. f_equal.
  clear Hl. revert Hs Hok Hok1 Hok2. induction ds as [|d ds IH]; intros Hs Hok Hok1 Hok2; [done|]. cbn [fmap list_fmap zip_with] in *.
  apply Forall_cons in Hs as [Hs Hs'], Hok as [Hd Hok], Hok1 as [Hd1 Hok1], Hok2 as [Hd2 Hok2]. f_equal; [|by apply IH].
  rewrite (land_top w H0), <- (top_bit w H0), Z.lor_spec, !(top_bit w H0) by done. cbn beta in *.
  replace (top <=? d) with false by bool_lia. rewrite orb_false_r. unfold relation_test, c. by replace (v <? d) with (top <=? d + (top - 1 - v)) by bool_lia.
Qed.
End relation.

Section relation_words.
Context {St : Type} {MC : Machine} {ML : MachineLaws} {CO : Consumer St} {Inv : nat → St → Prop} {CL : ConsumerLaws CO Inv}.
Context (w : Z) (Hw : In w word_widths) (a : Array) (Ha : array_ok w a).
Abbreviation n := (per_word w).
Abbreviation top := (2 ^ (w - 1)).

Lemma half_mask : Z.shiftr (width_mask w) 1 = top - 1.
Proof using Hw. by by_word_width w. Qed.

(** When the code uses the comparison of whole words: never for [Less] *)
Lemma fast_relation_spec (gt : bool) value : w < 64 → fast_relation gt w value (Words.find_gtlt_magic gt w value) = true →
  gt = true ∧ 2 <= w ∧ 0 <= value ∧ value <= top - 1 - 1.
Proof using Hw.
  intros Hw64. pose proof (word_width_pos w Hw) as H0. destruct (top_half w H0) as [E P]. unfold fast_relation. rewrite half_mask.
  assert (top <= 2 ^ 62) as Ht by (apply Z.pow_le_mono_r; lia).
  rewrite !andb_true_iff, negb_true_iff, Z.eqb_neq, !Z.leb_le. intros [[[Hne Hv] H2] Hle].
  assert (∀ x, 0 <= x < 2 ^ 63 → int64 x = x) as Hint.
  { intros x Hx. unfold int64. rewrite <- (Z.mod_small x (2 ^ 64)) at 1 by (change (2 ^ 64) with (2 * 2 ^ 63); lia). apply signed_small; [done|]. change (64 - 1) with 63. lia. }
  change (2 ^ 62) with 4611686018427387904 in Ht. change (2 ^ 63) with 9223372036854775808 in Hint.
  destruct gt.
  - assert (1 < top) by (apply (Z.pow_lt_mono_r 2 0); lia). rewrite wsub_small in Hle by lia. rewrite Hint in Hle by lia. lia.
  - exfalso. apply Hne. rewrite wsub_small in Hle by lia. rewrite Hint in Hle by lia.
    unfold Words.find_gtlt_magic. rewrite (mask_word w Hw). unfold no0. pose proof (radix_two w H0). replace (2 ^ w - 1 =? 0) with false by bool_lia.
    rewrite (ones_div_word w Hw), (wrap_small value), Z.mul_comm, pack_replicate by lia. rewrite wrap_small by (apply (pack_word w Hw); [apply rep_ok; lia|by rewrite length_replicate]).
    rewrite <- (mask_word w Hw), (land_mask w Hw) by (apply (pack_bounds w H0), rep_ok; lia). pose proof (per_word_bound w Hw).
    destruct n as [|k] eqn:En; [lia|]. cbn [replicate]. rewrite pack_head, Hint by lia. done.
Qed.

Lemma no_tops ds : digits_ok w ds → length ds = n → Z.land (Words.shl64 (pack w (replicate n 1)) (no0 w - 1)) (pack w ds) = 0 → Forall (λ d, d < top) ds.
Proof using Hw.
  intros Hok Hl. pose proof (word_width_pos w Hw) as H0. destruct (top_half w H0) as [E P]. unfold no0. replace (w =? 0) with false by bool_lia.
  rewrite (upper_word w Hw), Z.land_comm. destruct (pack_land w H0 ds (replicate n top)) as [-> Hok']; [done|apply rep_ok; lia|by rewrite length_replicate|].
  rewrite zip_replicate in * by done. rewrite (pack_zero w H0) by done. rewrite Forall_fmap. intros Hz. eapply Forall_impl; [exact (proj2 (Forall_and _ _) (conj Hz Hok))|].
  intros d [Hd Hd']. unfold compose in Hd. rewrite (land_top w H0) in Hd by done. destruct (Z.leb_spec top d); lia.
Qed.

Lemma value_small d : 0 <= d < top → value_of w d = d.
Proof using Hw.
  intros Hd. pose proof (word_width_pos w Hw) as H0. destruct (top_half w H0). unfold value_of, signed. destruct (w <? 8); [done|].
  rewrite Z.mod_small by lia. by replace (d <? top) with true by bool_lia.
Qed.

Lemma relation_words_spec (gt : bool) value b : w < 64 → ∀ m q s,
  8 * Z.of_nat (q + m) <= Z.of_nat (length (m_data a)) ∨ m = 0%nat → Z.of_nat ((q + m) * n) <= m_size a → Inv (m * n) s →
  relation_words m gt (fast_relation gt w value (Words.find_gtlt_magic gt w value)) w a value (Words.find_gtlt_magic gt w value) (8 * Z.of_nat q) b s =
  scan (relation_test gt value) (elems w a (Z.of_nat (q * n)) (m * n)) (Z.of_nat (q * n)) b s.
Proof using All.
  intros Hw64 m q s. pose proof (word_width_pos w Hw) as H0. destruct (top_half w H0) as [E P]. set (magic := Words.find_gtlt_magic gt w value).
  apply (words_scan w a (relation_test gt value) b
    (λ p s, v ← word_at a p; lower ← Words.lower_bits w;
       if fast_relation gt w value magic && (Z.land (Words.shl64 lower (no0 w - 1)) v =? 0) then Words.find_gtlt_fast gt w v magic (first_of w p ⊕ b) s
       else Words.find_gtlt gt w value v (first_of w p ⊕ b) s)
    (λ m p s, relation_words m gt (fast_relation gt w value magic) w a value magic p b s)); [done| |].
  { intros k p s'. cbn [relation_words]. destruct (word_at a p); [|done]. by destruct (Words.lower_bits w). }
  clear m q s. intros q s Hl Hsz Hi. destruct (word_elems w Hw a q Ha Hl) as (ds & Hds & Hn & -> & ->). rewrite (lower_word w Hw). cbn [mbind option_bind].
  rewrite first_of_word by done. destruct (fast_relation gt w value magic && _) eqn:Efast; [|by apply find_gtlt_spec].
  apply andb_true_iff in Efast as [Efast Etops%Z.eqb_eq]. apply fast_relation_spec in Efast as (-> & H2 & Hv1 & Hv2); [|done].
  pose proof (no_tops ds Hds Hn Etops) as Hs. pose proof (per_word_bound w Hw).
  assert (value_of w <$> ds = ds) as ->.
  { rewrite <- (list_fmap_id ds) at 2. apply list_fmap_ext. intros i d Hd. apply value_small.
    pose proof (Forall_lookup_1 _ _ _ _ Hds Hd). pose proof (Forall_lookup_1 _ _ _ _ Hs Hd). cbn in *. lia. }
  unfold Words.find_gtlt_fast. unfold magic. rewrite (compare_word w Hw Hw64 H2 value) by done.
  change ds with (drop 0 ds) at 2 3. rewrite <- (Z.add_0_r (Z.of_nat (q * n))) at 2. change 0 with (Z.of_nat 0).
  apply (gtlt_fast_loop_spec w Hw Hw64 H2 value ds); [done|done| |lia|by rewrite Nat.sub_0_r|by left|lia].
  eapply Forall_impl; [exact Hs|]. intros d Hd. cbn in Hd. eapply Z.lt_trans; [exact Hd|]. apply Z.pow_lt_mono_r; lia.
Qed.

Lemma compare_relation_spec (gt : bool) value start last b s : 0 <= start <= last → last <= m_size a → Inv (Z.to_nat (last - start)) s →
  compare_relation gt w a value start last b s = scan (relation_test gt value) (elems w a start (Z.to_nat (last - start))) start b s.
Proof using All.
  intros Hs Hl Hi. unfold compare_relation. replace (in_array a start last) with true by (unfold in_array; bool_lia). cbn [check mbind option_bind].
  destruct ((w =? 1) || (w =? 2) || (w =? 4) || (w =? 8) || (w =? 16)) eqn:Ew.
  - apply (three_parts w Hw a Ha (relation_test gt value) b start last (λ start s,
      let p := start * w / 8 in let e := last * w / 8 - 8 in
      '(go, s) ← relation_words (word_turns p e) gt (fast_relation gt w value (Words.find_gtlt_magic gt w value)) w a value (Words.find_gtlt_magic gt w value) p b s;
      Some (go, s, first_of w (p + 8 * Z.of_nat (word_turns p e))))); [done..|].
    apply (middle_scans w Hw a Ha _ b (λ m p s, relation_words m gt _ w a value _ p b s)); [done|]. apply relation_words_spec.
    rewrite !orb_true_iff, !Z.eqb_eq in Ew. lia.
  - by apply (three_parts w Hw a Ha (relation_test gt value) b start last (λ start s, Some (true, s, start))), no_middle.
Qed.
End relation_words.
