(* ===== verification/ArrayFindTheorems.v ===== *)
(** * What matches do to the state of a query

    The state of [QueryState<int64_t>] keeps to what searches rely on, for every action; and how many matches
    it accepts. *)

From S2P Require Import Prelude ArrayDirect ArrayAccess WordTricks WordTricksTheorems ArrayFind ArrayScan.

Import Find Query.

Lemma int64_small x : - 2 ^ 63 <= x < 2 ^ 63 → int64 x = x.
Proof.
  intros Hx. unfold int64. rewrite <- (signed_small 64 x) at 2 by (done || (change (64 - 1) with 63; lia)). unfold signed. by rewrite Zmod_mod.
Qed.

Section actions.
Context {C : Type} (add_to_column : Z → C → C) (callback : Z → C → bool * C) {MC : Machine} {ML : MachineLaws} (action : Action).
#[local] Instance CO0 : Consumer (QueryState C) := query_consumer add_to_column callback action.

(** [n] more matches can be counted without overflow, and the two counts agree. *)
Definition countable (n : nat) (s : QueryState C) : Prop :=
  action = act_Count → m_state s = m_match_count s ∧ 0 <= m_match_count s ∧ m_match_count s + Z.of_nat n + 64 < 2 ^ 63.

Lemma count_step i v s n : action = act_Count → countable (S n) s →
  find_action i (Some v) s = Some (m_match_count s + 1 <? m_limit s, with_count (with_state s (m_state s + 1)) (m_match_count s + 1)).
Proof using Type.
  intros Ha H. destruct (H Ha) as (E & H1 & H2). change (2 ^ 63) with 9223372036854775808 in H2.
  cbn. unfold do_find_action, match_optional, match_value. rewrite Ha. cbn. rewrite int64_small by (change (2 ^ 63) with 9223372036854775808; lia).
  rewrite wrap_small by lia. rewrite E. done.
Qed.

Lemma not_count_refuses s : action ≠ act_Count → refuses s.
Proof using Type. intros Ha i p. cbn. destruct action; done. Qed.

(** Scanning while counting *)
Lemma count_scan test els n : ∀ j b s, action = act_Count → countable (length els + n) s →
  m_match_count s + Z.of_nat (length els) < m_limit s →
  let k := Z.of_nat (length (filter (λ v, test v = true) els)) in
  scan test els j b s = Some (true, with_count (with_state s (m_state s + k)) (m_match_count s + k)).
Proof using Type.
  induction els as [|v els IH]; intros j b s Ha Hc Hl; cbv zeta.
  { cbn. rewrite !Z.add_0_r. by destruct s. }
  cbn [scan]. rewrite filter_cons. destruct (test v) eqn:E; [|rewrite decide_False by congruence].
  - rewrite decide_True by done. rewrite (count_step _ _ _ (length els + n)) by done. cbn [mbind option_bind length] in *. replace (m_match_count s + 1 <? m_limit s) with true by bool_lia.
    rewrite (IH (j + 1) b); [|done| |cbn; lia].
    + cbn. do 2 f_equal. unfold with_count, with_state. cbn. f_equal; lia.
    + intros _. destruct (Hc Ha) as (H1 & H2 & H3). cbn in *. lia.
  - cbn [mbind option_bind length] in *. apply IH; [done| |lia]. intros _. destruct (Hc Ha) as (H1 & H2 & H3). lia.
Qed.

#[local] Instance query_laws : ConsumerLaws CO0 countable.
Proof using ML.
  split.
  - intros n m s Hle H Ha. destruct (H Ha) as (H1 & H2 & H3). lia.
  - intros n i v s go s' H E Ha. rewrite (count_step i v s n) in E by done. injection E as <- <-. destruct (H Ha) as (H1 & H2 & H3). cbn. lia.
  - intros n i p s H. destruct (decide (action = act_Count)) as [Ha|Ha]; [|left; by apply not_count_refuses].
    destruct (m_limit s <=? m_match_count s ⊕ 64) eqn:E.
    + left. intros i' p'. cbn. rewrite Ha. cbn. by rewrite E.
    + right. cbn. rewrite Ha. cbn. rewrite E. by eexists.
  - intros n i v s go s' H Hr E. destruct (decide (action = act_Count)) as [Ha|Ha]; [|by apply not_count_refuses].
    rewrite (count_step i v s n) in E by done. injection E as <- <-. specialize (Hr 0 0). cbn in Hr. intros i' p'. cbn. rewrite Ha in Hr |- *. cbn in *.
    destruct (H Ha) as (H1 & H2 & H3). change (2 ^ 63) with 9223372036854775808 in H3. wsimp.
    destruct (m_limit s <=? m_match_count s + 64) eqn:E'; [|done]. by replace (m_limit s <=? m_match_count s + 1 + 64) with true by bool_lia.
  - intros n i p s s' test els j b H Hn H64 E Hp. destruct (decide (action = act_Count)) as [Ha|Ha]; [|by rewrite (not_count_refuses s Ha) in E].
    cbn in E. rewrite Ha in E. cbn in E. destruct (H Ha) as (H1 & H2 & H3). change (2 ^ 63) with 9223372036854775808 in H3.
    wsimp. destruct (m_limit s <=? m_match_count s + 64) eqn:E'; [done|]. injection E as <-.
    rewrite (count_scan test els (n - length els)); [|done|by replace (length els + (n - length els))%nat with n by lia|lia].
    rewrite Hp. set (k := length _). assert (k <= length els)%nat by apply length_filter.
    rewrite int64_small by (change (2 ^ 63) with 9223372036854775808; lia). rewrite (wrap_small (_ + _)) by lia. rewrite H1. done.
Qed.

(** ** How many matches are accepted *)

(** The number of matches is below the limit. *)
Definition accepting (s : QueryState C) : Prop := 0 <= m_match_count s < m_limit s ∧ m_limit s < W64.

(** A match after which the search goes on *)
Lemma match_accepted i v s s' n : action ≠ act_CallbackIdx → countable (S n) s → accepting s → find_action i (Some v) s = Some (true, s') →
  m_match_count s' = m_match_count s + 1 ∧ m_limit s' = m_limit s ∧ accepting s'.
Proof using Type.
  intros Hcb Hc [Hs Hl] E. destruct (decide (action = act_Count)) as [Ha|Ha].
  { rewrite (count_step i v s n) in E by done. injection E as E <-. unfold accepting. cbn. lia. }
  cbn in E. unfold do_find_action, match_optional, match_value in E.
  assert (m_match_count s ⊕ 1 = m_match_count s + 1) as Ec by (apply wadd_small; lia).
  destruct action; try done; injection E as E <-; apply Z.ltb_lt in E; revert E; cbn; repeat case_match; cbn; rewrite Ec; unfold accepting; cbn; rewrite ?Ec; lia.
Qed.

Lemma scan_accepting test els n : ∀ i b s s', countable (length els + n) s → accepting s → scan test els i b s = Some (true, s') → accepting s'.
Proof using ML.
  induction els as [|v els IH]; intros i b s s' Hc Ha E; [by injection E as <-|]. cbn [scan] in E. destruct (test v).
  - destruct (find_action _ _ s) as [[[] s1]|] eqn:E1; [|done..]. cbn [mbind option_bind] in E. eapply IH; [|clear IH|exact E].
    + eapply action_inv; [|exact E1]. exact Hc.
    + destruct (decide (action = act_CallbackIdx)) as [Hcb|Hcb]; [|by eapply (match_accepted _ _ _ _ (length els + n)) in E1 as (_ & _ & ?)].
      cbn in E1. rewrite Hcb in E1. cbn in E1. destruct (callback _ _). by injection E1 as _ <-.
  - eapply IH; [|exact Ha|exact E]. eapply inv_le; [|exact Hc]. cbn. lia.
Qed.

(** Matches up to the limit end the search. *)
Lemma scan_exhausts els : ∀ i b s s' n, action ≠ act_CallbackIdx → countable (length els + n) s → accepting s →
  m_match_count s + Z.of_nat (length els) = m_limit s → scan (λ _, true) els i b s ≠ Some (true, s').
Proof using ML.
  induction els as [|v els IH]; intros i b s s' n Hcb Hc Ha Hl E; cbn [length] in *.
  { destruct Ha. lia. }
  cbn [scan] in E. destruct (find_action _ _ s) as [[[] s1]|] eqn:E1; [|done..]. cbn [mbind option_bind] in E.
  destruct (match_accepted _ _ _ _ (length els + n) Hcb Hc Ha E1) as (H1 & H2 & H3).
  eapply (IH _ _ s1 s' n); [done|eapply action_inv; [|exact E1]; exact Hc|done|lia|exact E].
Qed.
End actions.

(** * What a search in an array promises

    [find] is a scan, for every condition, width, action, and part of the array; aggregates that are
    computed at once agree with it; [find_first] finds the first. *)

Import Find Query.

(** The bounds are those of the values that the width can store. *)
Definition bounds_ok (a : Array) : Prop := ∀ v, storable (m_width a) v = (m_lbound a <=? v) && (v <=? m_ubound a).

(** The test of a condition on a value that is not null *)
Abbreviation holds_of c value := (λ v, Condition.test c v value false false).

Section conditions.
Context (a : Array) (Hb : bounds_ok a) (Ha : array_ok (m_width a) a) (c : Cond) (value : Z).
Abbreviation w := (m_width a).

Lemma elem_bounds i : 0 <= i → m_lbound a <= elem w (m_data a) i <= m_ubound a.
Proof using Hb Ha. intros Hi. pose proof (elem_storable w (m_data a) i (proj1 Ha) Hi) as E. rewrite Hb in E. lia. Qed.

Lemma elems_bounds start n v : 0 <= start → v ∈ elems w a start n → m_lbound a <= v <= m_ubound a.
Proof using Hb Ha. intros Hs Hv. unfold elems in Hv. apply list_elem_of_fmap in Hv as (i & -> & _). apply elem_bounds. lia. Qed.

Lemma cannot_match start n : 0 <= start → Condition.can_match c value (m_lbound a) (m_ubound a) = false → existsb (holds_of c value) (elems w a start n) = false.
Proof using Hb Ha.
  intros Hs H. apply not_true_iff_false. rewrite existsb_exists. intros (v & Hv & E). apply list_elem_of_In in Hv. apply elems_bounds in Hv; [|done].
  destruct c; cbn in *; lia.
Qed.

Lemma must_match start n v : 0 <= start → Condition.will_match c value (m_lbound a) (m_ubound a) = true → v ∈ elems w a start n → Condition.test c v value false false = true.
Proof using Hb Ha. intros Hs H Hv. apply elems_bounds in Hv; [|done]. destruct c; cbn in *; lia. Qed.

(** What is known when the elements have to be compared *)
Lemma to_compare : Condition.can_match c value (m_lbound a) (m_ubound a) = true → Condition.will_match c value (m_lbound a) (m_ubound a) = false →
  w ≠ 0 ∧ In w word_widths ∧ (c = Equal ∨ c = NotEqual → storable w value = true) ∧ (c = Equal ∨ c = NotEqual ∨ c = Greater ∨ c = Less).
Proof using Hb Ha.
  intros H1 H2. assert (w ≠ 0) as Hw0.
  { intros E. assert (m_lbound a = 0 ∧ m_ubound a = 0) as [E1 E2].
    { pose proof (Hb 0) as B0. pose proof (Hb (m_lbound a)) as B1. pose proof (Hb (m_ubound a)) as B2. unfold storable in *. rewrite E in *. cbn in *. lia. }
    rewrite E1, E2 in *. destruct c; cbn in *; lia. }
  split; [done|]. split; [|split].
  - destruct Ha as ([E|Hw] & _); [by symmetry in E|exact Hw].
  - rewrite Hb. intros [E|E]; rewrite E in *; cbn in *; lia.
  - destruct c; cbn in *; tauto || lia.
Qed.
End conditions.

Section finding.
Context {C : Type} (add_to_column : Z → C → C) (callback : Z → C → bool * C) {MC : Machine} {ML : MachineLaws} {AG : Aggregates}.
Context (c : Cond) (action : Action) (a : Array) (Hb : bounds_ok a) (Ha : array_ok (m_width a) a) (value : Z).
Abbreviation w := (m_width a).
#[local] Instance CO : Consumer (QueryState C) := query_consumer add_to_column callback action.
#[local] Instance CL : ConsumerLaws CO (countable action) := query_laws add_to_column callback action.

(** [compare] is a scan. *)
Lemma compare_spec start last b s : Condition.can_match c value (m_lbound a) (m_ubound a) = true → Condition.will_match c value (m_lbound a) (m_ubound a) = false →
  0 <= start <= last → last <= m_size a → countable action (Z.to_nat (last - start)) s →
  compare c w a value start last b s = scan (holds_of c value) (elems w a start (Z.to_nat (last - start))) start b s.
Proof using ML Hb Ha.
  intros H1 H2 Hs Hl Hc. destruct (to_compare a Hb Ha c value H1 H2) as (_ & Hw & Hv & Hcond).
  destruct c; cbn [compare]; try by destruct Hcond as [|[|[|]]].
  - rewrite (compare_equality_spec w Hw a Ha true) by (done || (apply Hv; by left)). apply scan_ext. intros v _. done.
  - rewrite (compare_equality_spec w Hw a Ha false) by (done || (apply Hv; by right)). by apply scan_ext.
  - rewrite (compare_relation_spec w Hw a Ha true) by done. by apply scan_ext.
  - rewrite (compare_relation_spec w Hw a Ha false) by done. by apply scan_ext.
Qed.

(** The tests of the first items *)
Lemma first_items_spec {R} (K : QueryState C → Z → option R) (F : QueryState C → option R) last b n : ∀ start2 s, 0 <= start2 → last <= m_size a →
  ('(go, s, start2) ← first_items add_to_column callback c action n w a value start2 last b s; if negb go then F s else K s start2) =
  ('(go, s) ← scan (holds_of c value) (elems w a start2 (Nat.min n (Z.to_nat (last - start2)))) start2 b s; if negb go then F s else K s (start2 + Z.of_nat n)).
Proof using Ha.
  induction n as [|n IH]; intros start2 s Hs Hl; [cbn; by rewrite Z.add_0_r|]. cbn [first_items].
  destruct (Z.lt_ge_cases start2 last) as [Hlt|Hge].
  - replace (start2 <? m_size a) with true by bool_lia. rewrite array_get by (done || lia). cbn [mbind option_bind].
    replace (start2 <? last) with true by bool_lia. rewrite andb_true_r.
    replace (Nat.min (S n) (Z.to_nat (last - start2))) with (S (Nat.min n (Z.to_nat (last - (start2 + 1))))) by lia. rewrite elems_S. cbn [scan].
    destruct (if Condition.test c _ _ _ _ then _ else _) as [[[] s1]|]; [|done..]. cbn [mbind option_bind]. rewrite IH by lia.
    by replace (start2 + 1 + Z.of_nat n) with (start2 + Z.of_nat (S n)) by lia.
  - replace (start2 <? last) with false by bool_lia. replace (Nat.min (S n) (Z.to_nat (last - start2))) with 0%nat by lia.
    destruct (Z.ltb_spec start2 (m_size a)) as [H|H].
    + rewrite array_get by (done || lia). cbn [mbind option_bind]. rewrite andb_false_r. cbn [mbind option_bind]. rewrite IH by lia.
      replace (Nat.min n (Z.to_nat (last - (start2 + 1)))) with 0%nat by lia. cbn. by replace (start2 + 1 + Z.of_nat n) with (start2 + Z.of_nat (S n)) by lia.
    + cbn [mbind option_bind]. rewrite IH by lia.
      replace (Nat.min n (Z.to_nat (last - (start2 + 1)))) with 0%nat by lia. cbn. by replace (start2 + 1 + Z.of_nat n) with (start2 + Z.of_nat (S n)) by lia.
Qed.

(** The matches up to the limit, when all elements match *)
Definition until (start2 last : Z) (s : QueryState C) : Z :=
  if decide (action = act_CallbackIdx) then last else
  let process := m_limit s - m_match_count s in if process <? last - start2 then start2 + process else last.

Lemma scan_until start2 last b s : 0 <= start2 <= last → last <= m_size a → accepting s → countable action (Z.to_nat (last - start2)) s →
  scan (λ _, true) (elems w a start2 (Z.to_nat (last - start2))) start2 b s = scan (λ _, true) (elems w a start2 (Z.to_nat (until start2 last s - start2))) start2 b s.
Proof using ML.
  intros Hs Hl Hacc Hc. unfold until. destruct (decide (action = act_CallbackIdx)) as [|Hcb]; [done|]. cbv zeta. destruct (Z.ltb_spec (m_limit s - m_match_count s) (last - start2)) as [H|H]; [|done].
  destruct Hacc as [Hacc1 Hacc2]. set (k := Z.to_nat (m_limit s - m_match_count s)). replace (Z.to_nat (start2 + (m_limit s - m_match_count s) - start2)) with k by lia.
  replace (Z.to_nat (last - start2)) with (k + (Z.to_nat (last - start2) - k))%nat in * by lia. rewrite scan_elems_app.
  destruct (scan (λ _, true) (elems w a start2 k) start2 b s) as [[[] s']|] eqn:E; [|done..]. exfalso.
  eapply (scan_exhausts add_to_column callback action); [done|rewrite elems_length; exact Hc|done|rewrite elems_length; lia|exact E].
Qed.

Definition aggregates : bool := match action with act_Sum | act_Max | act_Min | act_Count => true | _ => false end.

Lemma all_match_each start2 last b s : aggregates = false → 0 <= start2 <= last → last <= m_size a → accepting s → countable action (Z.to_nat (last - start2)) s →
  all_match add_to_column callback action w a start2 last b s = scan (λ _, true) (elems w a start2 (Z.to_nat (last - start2))) start2 b s.
Proof using ML Ha.
  intros Hag Hs Hl Hacc Hc. rewrite scan_until by done. unfold all_match. destruct Hacc as [Hacc1 Hacc2].
  set (go := λ end2, each (turns start2 end2) (λ _, true) w a start2 b s).
  transitivity (go (until start2 last s)).
  - unfold until. destruct (decide (action = act_CallbackIdx)) as [Hcb|Hcb].
    + cbn [mbind option_bind]. by rewrite Hcb at 1.
    + replace (m_match_count s <? m_limit s) with true by bool_lia. cbn [check mbind option_bind]. rewrite wsub_small by lia.
      unfold go, CO. unfold aggregates in Hag. by destruct action.
  - unfold go, turns. apply each_scan; [done|lia|]. unfold until. repeat case_match; lia.
Qed.

(** After the first items *)
Definition find_rest (last b : Z) (s : QueryState C) (start2 : Z) : option (bool * QueryState C) :=
  if negb ((start2 <? m_size a) && (start2 <? last)) then Some (true, s) else
  let last := if last =? npos then m_size a else last in
  if negb (Condition.can_match c value (m_lbound a) (m_ubound a)) then Some (true, s) else
  if Condition.will_match c value (m_lbound a) (m_ubound a) then all_match add_to_column callback action w a start2 last b s else
  REALM_ASSERT (negb (m_width a =? 0));;
  compare c w a value start2 last b s.

(** The first four elements one by one, unless the search begins with the first, and then the rest *)
Lemma find_from_rest start2 last b s : 0 <= start2 → last <= m_size a →
  find_from add_to_column callback c action w a value start2 last b s =
  if 0 <? start2 then
    '(go, s) ← scan (holds_of c value) (elems w a start2 (Nat.min 4 (Z.to_nat (last - start2)))) start2 b s;
    if negb go then Some (false, s) else find_rest last b s (start2 + Z.of_nat 4)
  else find_rest last b s start2.
Proof using Ha.
  intros Hs Hl. unfold find_from. destruct (0 <? start2); [|done]. by apply (first_items_spec (find_rest last b) (λ s, Some (false, s))).
Qed.

(** What is computed at once: an aggregate, when all elements match *)
Definition at_once : bool := aggregates && Condition.will_match c value (m_lbound a) (m_ubound a).

Lemma rest_compared start2 last b s : Condition.will_match c value (m_lbound a) (m_ubound a) = false → 0 <= start2 → last <= m_size a → countable action (Z.to_nat (last - start2)) s →
  find_rest last b s start2 = scan (holds_of c value) (elems w a start2 (Z.to_nat (last - start2))) start2 b s.
Proof using ML Hb Ha.
  intros Hw Hs Hl Hc. unfold find_rest. rewrite Hw. destruct (negb _) eqn:E.
  { replace (Z.to_nat (last - start2)) with 0%nat by (destruct (Z.ltb_spec start2 (m_size a)), (Z.ltb_spec start2 last); cbn in E; try done; lia). done. }
  assert (start2 < last) as Hlt by (destruct (Z.ltb_spec start2 (m_size a)), (Z.ltb_spec start2 last); done).
  destruct (proj2 Ha) as [_ Hsz]. replace (last =? npos) with false by bool_lia. cbv zeta.
  destruct (Condition.can_match c value (m_lbound a) (m_ubound a)) eqn:Hcan; cbn [negb].
  - destruct (to_compare a Hb Ha c value Hcan Hw) as (H0 & _). replace (m_width a =? 0) with false by bool_lia. cbn [negb check mbind option_bind].
    apply compare_spec; (done || lia).
  - rewrite scan_none; [done|]. by apply cannot_match.
Qed.

Lemma rest_spec start2 last b s : at_once = false → 0 <= start2 → last <= m_size a → accepting s → countable action (Z.to_nat (last - start2)) s →
  find_rest last b s start2 = scan (holds_of c value) (elems w a start2 (Z.to_nat (last - start2))) start2 b s.
Proof using ML Hb Ha.
  intros Hat Hs Hl Hacc Hc. destruct (Condition.will_match c value (m_lbound a) (m_ubound a)) eqn:Hw; [|by apply rest_compared].
  unfold at_once in Hat. rewrite Hw, andb_true_r in Hat. unfold find_rest. rewrite Hw.
  rewrite (scan_ext (holds_of c value) (λ _, true)) by (intros v Hv; by eapply (must_match a Hb Ha)).
  destruct (negb _) eqn:E.
  { replace (Z.to_nat (last - start2)) with 0%nat by (destruct (Z.ltb_spec start2 (m_size a)), (Z.ltb_spec start2 last); cbn in E; try done; lia). done. }
  assert (start2 < last) as Hlt by (destruct (Z.ltb_spec start2 (m_size a)), (Z.ltb_spec start2 last); done).
  destruct (proj2 Ha) as [_ Hsz]. replace (last =? npos) with false by bool_lia. cbv zeta.
  assert (Condition.can_match c value (m_lbound a) (m_ubound a) = true) as ->.
  { pose proof (elem_bounds a Hb Ha 0). destruct c; cbn in *; lia. }
  cbn [negb]. apply all_match_each; (done || lia).
Qed.

Lemma find_from_spec start2 last b s : at_once = false → 0 <= start2 <= last → last <= m_size a → accepting s → countable action (Z.to_nat (last - start2)) s →
  find_from add_to_column callback c action w a value start2 last b s = scan (holds_of c value) (elems w a start2 (Z.to_nat (last - start2))) start2 b s.
Proof using ML Hb Ha.
  intros Hat Hs Hl Hacc Hc. rewrite find_from_rest by (done || lia). destruct (Z.ltb_spec 0 start2) as [H|H]; [|apply rest_spec; (done || lia)].
  replace (Z.to_nat (last - start2)) with (Nat.min 4 (Z.to_nat (last - start2)) + Z.to_nat (last - (start2 + Z.of_nat 4)))%nat in Hc |- * at 2 by lia.
  rewrite scan_elems_app. set (k := Nat.min 4 _) in *.
  destruct (scan (holds_of c value) (elems w a start2 k) start2 b s) as [[[] s1]|] eqn:E; [|done..]. cbn [mbind option_bind negb].
  assert (accepting s1) as Hacc1 by (eapply (scan_accepting add_to_column callback action); [rewrite elems_length; exact Hc|exact Hacc|exact E]).
  assert (countable action (Z.to_nat (last - (start2 + Z.of_nat 4))) s1) as Hc1 by (eapply scan_inv; [|exact E]; by rewrite elems_length).
  rewrite rest_spec by (done || lia).
  destruct (Z.le_gt_cases (start2 + Z.of_nat 4) last); [|by replace (Z.to_nat (last - (start2 + Z.of_nat 4))) with 0%nat by lia].
  by replace (Z.of_nat k) with (Z.of_nat 4) by lia.
Qed.
End finding.

(** * Aggregates that are computed at once

    Where all elements match, [find_optimized] takes an aggregate of a range instead of passing the elements one by one:
    the aggregate is that of a scan. *)

Import Find Query.

(** What the compiled aggregates return: the sum as the machine computes it, and an extreme value with an index
    where it is *)
Class AggregateLaws {AG : Aggregates} := {
  sum_spec a i j : array_ok (m_width a) a → 0 <= i <= j → j <= m_size a → sum a i j = int64 (foldr Z.add 0 (elems (m_width a) a i (Z.to_nat (j - i))));
  maximum_spec a i j : array_ok (m_width a) a → 0 <= i < j → j <= m_size a →
    ∃ k, i <= k < j ∧ maximum a i j = Some (elem (m_width a) (m_data a) k, k) ∧ ∀ l, i <= l < j → elem (m_width a) (m_data a) l <= elem (m_width a) (m_data a) k;
  minimum_spec a i j : array_ok (m_width a) a → 0 <= i < j → j <= m_size a →
    ∃ k, i <= k < j ∧ minimum a i j = Some (elem (m_width a) (m_data a) k, k) ∧ ∀ l, i <= l < j → elem (m_width a) (m_data a) k <= elem (m_width a) (m_data a) l }.

Lemma int64_add_l x y : int64 (int64 x + y) = int64 (x + y).
Proof. unfold int64, signed. fold (signed 64 x). change (if _ <? _ then x mod 2 ^ 64 else _) with (signed 64 x). rewrite <- (Zplus_mod_idemp_l (signed 64 x)), signed_mod, Zplus_mod_idemp_l by done. done. Qed.
Lemma int64_add_r x y : int64 (x + int64 y) = int64 (x + y).
Proof. by rewrite Z.add_comm, int64_add_l, Z.add_comm. Qed.

Section scans.
Context {C : Type} (add_to_column : Z → C → C) (callback : Z → C → bool * C) {MC : Machine} {ML : MachineLaws}.
Abbreviation scan_all action := (scan (CO := query_consumer add_to_column callback action) (λ _, true)).

(** Scans of at most as many matches as are accepted *)
Lemma sum_scan els : ∀ i b (s : QueryState C), els ≠ [] → accepting s → m_match_count s + Z.of_nat (length els) <= m_limit s →
  ∃ go, scan_all act_Sum els i b s = Some (go, with_count (with_state s (int64 (m_state s + foldr Z.add 0 els))) (m_match_count s + Z.of_nat (length els))).
Proof using Type.
  induction els as [|v els IH]; intros i b s Hne [H1 H2] Hl; [done|]. cbn [scan length] in *. cbn [find_action query_consumer do_find_action match_optional match_value mbind option_bind].
  cbn [m_match_count with_state with_count m_limit m_state]. rewrite (wadd_small (m_match_count s)) by lia. cbn [mbind option_bind].
  destruct els as [|u els].
  - cbn [foldr]. rewrite Z.add_0_r. destruct (_ <? _); eexists; done.
  - replace (m_match_count s + 1 <? m_limit s) with true by (cbn [length] in Hl; bool_lia). cbn [mbind option_bind].
    edestruct (IH (i + 1) b) as [go ->]; [done|split; cbn [m_match_count m_limit with_state with_count] in *; cbn [length] in Hl; lia|cbn [m_match_count m_limit with_state with_count length] in *; lia|].
    exists go. unfold with_count, with_state. cbn [m_state m_match_count m_limit m_minmax_index akku foldr length]. rewrite int64_add_l. do 3 f_equal; [f_equal|]; lia.
Qed.

Lemma count_scan_all els : ∀ i b (s : QueryState C) n, els ≠ [] → countable act_Count (length els + n) s → accepting s → m_match_count s + Z.of_nat (length els) <= m_limit s →
  ∃ go, scan_all act_Count els i b s = Some (go, with_count (with_state s (m_state s + Z.of_nat (length els))) (m_match_count s + Z.of_nat (length els))).
Proof using Type.
  induction els as [|v els IH]; intros i b s n Hne Hc [H1 H2] Hl; [done|]. cbn [scan length] in *.
  rewrite (count_step add_to_column callback act_Count _ _ s (length els + n)) by done. cbn [mbind option_bind].
  destruct els as [|u els]; [destruct (_ <? _); eexists; done|].
  replace (m_match_count s + 1 <? m_limit s) with true by (cbn [length] in Hl; bool_lia). cbn [mbind option_bind].
  destruct (IH (i + 1) b (with_count (with_state s (m_state s + 1)) (m_match_count s + 1)) n) as [go ->]; [done| |split; cbn [m_match_count m_limit with_state with_count] in *; cbn [length] in Hl; lia|cbn [m_match_count m_limit with_state with_count length] in *; lia|].
  { intros _. destruct (Hc eq_refl) as (E & H3 & H4). cbn [m_state m_match_count with_state with_count length] in *. lia. }
  exists go. unfold with_count, with_state. cbn [m_state m_match_count m_limit m_minmax_index akku length]. do 3 f_equal; lia.
Qed.

(** [better] is the order of the extremes. *)
Lemma extreme_scan action (better : Z → Z → bool) (pick : Z → Z → Z) els : action = act_Max ∧ better = (λ old new, old <? new) ∧ pick = Z.max ∨ action = act_Min ∧ better = (λ old new, new <? old) ∧ pick = Z.min →
  ∀ i b (s : QueryState C), els ≠ [] → accepting s → m_match_count s + Z.of_nat (length els) <= m_limit s →
  ∃ go s', scan_all action els i b s = Some (go, s') ∧ m_state s' = fold_left pick els (m_state s) ∧ m_match_count s' = m_match_count s + Z.of_nat (length els).
Proof using Type.
  intros Hact. induction els as [|v els IH]; intros i b s Hne [H1 H2] Hl; [done|]. cbn [scan length fold_left] in *.
  set (s1 := with_count s (m_match_count s ⊕ 1)). set (s2 := if better (m_state s) v then with_minmax (with_state s1 v) (i ⊕ b) else s1).
  assert (find_action (Consumer := query_consumer add_to_column callback action) (i ⊕ b) (Some v) s = Some (m_match_count s2 <? m_limit s2, s2)) as ->
    by (destruct Hact as [(-> & -> & ->)|(-> & -> & ->)]; done).
  assert (m_match_count s2 = m_match_count s + 1 ∧ m_limit s2 = m_limit s ∧ m_state s2 = pick (m_state s) v) as (E1 & E2 & E3).
  { unfold s2, s1. rewrite (wadd_small (m_match_count s)) by lia. destruct Hact as [(-> & -> & ->)|(-> & -> & ->)]; case_match; cbn [m_match_count m_limit m_state with_count with_state with_minmax]; split_and!; try done; lia. }
  clearbody s2. rewrite E1, E2. cbn [mbind option_bind]. destruct els as [|u els].
  - cbn [fold_left]. destruct (_ <? _); eexists _, s2; split_and!; (done || (cbn [length]; lia)).
  - replace (m_match_count s + 1 <? m_limit s) with true by (cbn [length] in Hl; bool_lia).
    destruct (IH (i + 1) b s2) as (go & s' & -> & E4 & E5); [done|split; cbn [length] in Hl; lia|cbn [length] in *; lia|].
    exists go, s'. split; [done|]. rewrite E4, E3, E5, E1. split; [done|cbn [length]; lia].
Qed.

Lemma fold_max els : ∀ m r, r ∈ els → (∀ v, v ∈ els → v <= r) → fold_left Z.max els m = Z.max m r.
Proof using Type.
  assert (∀ els m r, (∀ v, v ∈ els → v <= r) → r <= m → fold_left Z.max els m = m) as Hless.
  { clear. induction els as [|v els IH]; intros m r Hle Hm; [done|]. cbn. assert (v <= r) by (apply Hle; by left). rewrite Z.max_l by lia. apply (IH m r); [|done]. intros u Hu. apply Hle. by right. }
  induction els as [|v els IH]; intros m r Hr Hle; [by apply not_elem_of_nil in Hr|]. cbn. apply elem_of_cons in Hr as [->|Hr].
  - apply (Hless _ _ v); [intros u Hu; apply Hle; by right|lia].
  - rewrite (IH _ r) by (done || (intros u Hu; apply Hle; by right)). assert (v <= r) by (apply Hle; by left). lia.
Qed.
Lemma fold_min els : ∀ m r, r ∈ els → (∀ v, v ∈ els → r <= v) → fold_left Z.min els m = Z.min m r.
Proof using Type.
  assert (∀ els m r, (∀ v, v ∈ els → r <= v) → m <= r → fold_left Z.min els m = m) as Hless.
  { clear. induction els as [|v els IH]; intros m r Hle Hm; [done|]. cbn. assert (r <= v) by (apply Hle; by left). rewrite Z.min_l by lia. apply (IH m r); [|done]. intros u Hu. apply Hle. by right. }
  induction els as [|v els IH]; intros m r Hr Hle; [by apply not_elem_of_nil in Hr|]. cbn. apply elem_of_cons in Hr as [->|Hr].
  - apply (Hless _ _ v); [intros u Hu; apply Hle; by right|lia].
  - rewrite (IH _ r) by (done || (intros u Hu; apply Hle; by right)). assert (r <= v) by (apply Hle; by left). lia.
Qed.
End scans.

(** ** [all_match] *)
Section all_match.
Context {C : Type} (add_to_column : Z → C → C) (callback : Z → C → bool * C) {MC : Machine} {ML : MachineLaws} {AG : Aggregates} {AL : AggregateLaws}.
Context (a : Array) (Ha : array_ok (m_width a) a).
Abbreviation w := (m_width a).
Abbreviation consumer action := (query_consumer add_to_column callback action).

(** The aggregate is the same, and so is the number of matches unless they are what is counted. *)
Definition same_aggregate (action : Action) (s s' : QueryState C) : Prop := m_state s = m_state s' ∧ (action ≠ act_Count → m_match_count s = m_match_count s').

Lemma elems_member start n k : start <= k < start + Z.of_nat n → elem w (m_data a) k ∈ elems w a start n.
Proof using Type.
  intros Hk. apply (list_elem_of_lookup_2 _ (Z.to_nat (k - start))). rewrite elems_lookup by lia. do 2 f_equal. lia.
Qed.
Lemma elems_range start n v : v ∈ elems w a start n → ∃ k, start <= k < start + Z.of_nat n ∧ v = elem w (m_data a) k.
Proof using Type.
  intros Hv. unfold elems in Hv. apply list_elem_of_fmap in Hv as (i & -> & Hi). apply elem_of_seq in Hi. exists (start + Z.of_nat i). split; [lia|done].
Qed.

(** The range that is aggregated, and the effect of the aggregate *)
Context (start2 last b : Z) (s : QueryState C) (Hs : 0 <= start2 < last) (Hl : last <= m_size a) (Hacc : accepting s).

Lemma until_range action : aggregates action = true → let end2 := until action start2 last s in
  start2 < end2 <= last ∧ m_match_count s + (end2 - start2) <= m_limit s ∧
  elems w a start2 (Z.to_nat (end2 - start2)) ≠ [] ∧ Z.of_nat (length (elems w a start2 (Z.to_nat (end2 - start2)))) = end2 - start2.
Proof using Hs Hacc.
  intros Hag end2. assert (start2 < end2 <= last ∧ m_match_count s + (end2 - start2) <= m_limit s) as [H1 H2].
  { unfold end2, until. destruct Hacc as [H1 H2]. rewrite decide_False by (intros ->; done). cbv zeta. case_match; lia. }
  rewrite elems_length. split_and!; try lia. intros E. apply (f_equal length) in E. rewrite elems_length in E. cbn in E. lia.
Qed.

Lemma all_match_until action : aggregates action = true →
  all_match add_to_column callback action w a start2 last b s =
  let end2 := until action start2 last s in
  match action with
  | act_Sum | act_Max | act_Min =>
      '(res, res_ndx) ← (match action with act_Sum => Some (sum a start2 end2, 0) | act_Max => maximum a start2 end2 | _ => minimum a start2 end2 end);
      '(_, s) ← do_find_action add_to_column callback action (res_ndx ⊕ b) (Some res) s;
      Some (true, with_count s (m_match_count s ⊕ (end2 - start2 - 1)))
  | act_Count => Some (true, with_state s (int64 (m_state s + (end2 - start2))))
  | _ => None
  end.
Proof using Hs Hacc.
  intros Hag. unfold all_match, until. destruct Hacc as [H1 H2]. rewrite !decide_False by (intros ->; done).
  replace (m_match_count s <? m_limit s) with true by bool_lia. cbn [check mbind option_bind]. rewrite wsub_small by lia.
  unfold aggregates in Hag. by destruct action.
Qed.

Lemma counted_rest n : 0 < n → m_match_count s + n <= m_limit s → m_match_count s ⊕ 1 ⊕ (n - 1) = m_match_count s + n.
Proof using Hacc. destruct Hacc as [H1 H2]. intros Hn Hle. rewrite (wadd_small (m_match_count s) 1) by lia. rewrite wadd_small; lia. Qed.

Lemma all_match_extreme action (pick : Z → Z → Z) : action = act_Max ∧ pick = Z.max ∨ action = act_Min ∧ pick = Z.min →
  ∃ go s1 go' s2, all_match add_to_column callback action w a start2 last b s = Some (go, s1) ∧
    scan (CO := consumer action) (λ _, true) (elems w a start2 (Z.to_nat (until action start2 last s - start2))) start2 b s = Some (go', s2) ∧ same_aggregate action s1 s2.
Proof using Ha Hs Hl Hacc AL.
  intros Hact. assert (aggregates action = true) as Hag by (destruct Hact as [[-> _]|[-> _]]; done).
  destruct (until_range action Hag) as (H1 & H2 & Hne & Hlen). rewrite (all_match_until action Hag). cbv zeta. set (end2 := until action start2 last s) in *.
  destruct (extreme_scan add_to_column callback action (if decide (action = act_Max) then λ old new, old <? new else λ old new, new <? old) pick
    (elems w a start2 (Z.to_nat (end2 - start2)))) with (i := start2) (b := b) (s := s) as (go' & s2 & Escan & Est & Ecnt); [|done|done|lia|].
  { destruct Hact as [[-> ->]|[-> ->]]; [left|right]; done. }
  assert (∃ k res, start2 <= k < end2 ∧ (match action with act_Sum => Some (sum a start2 end2, 0) | act_Max => maximum a start2 end2 | _ => minimum a start2 end2 end) = Some (res, k) ∧
    fold_left pick (elems w a start2 (Z.to_nat (end2 - start2))) (m_state s) = pick (m_state s) res) as (k & res & Hk & -> & Efold).
  { destruct Hact as [[-> ->]|[-> ->]].
    - destruct (maximum_spec a start2 end2 Ha) as (k & Hk & -> & Hmax); [lia..|]. exists k, (elem w (m_data a) k). split_and!; try done; try lia.
      apply fold_max; [apply elems_member; lia|]. intros v Hv. apply elems_range in Hv as (l & Hlr & ->). apply Hmax. lia.
    - destruct (minimum_spec a start2 end2 Ha) as (k & Hk & -> & Hmin); [lia..|]. exists k, (elem w (m_data a) k). split_and!; try done; try lia.
      apply fold_min; [apply elems_member; lia|]. intros v Hv. apply elems_range in Hv as (l & Hlr & ->). apply Hmin. lia. }
  rewrite Efold in Est. rewrite Hlen in Ecnt. pose proof (counted_rest (end2 - start2) ltac:(lia) ltac:(lia)) as Ecount.
  destruct Hact as [[-> ->]|[-> ->]]; cbn [mbind option_bind do_find_action match_optional match_value].
  - destruct (Z.ltb_spec (m_state (with_count s (m_match_count s ⊕ 1))) res) as [H|H]; cbn [mbind option_bind];
      (eexists _, _, go', s2; split; [done|]; split; [exact Escan|]; split; [rewrite Est; cbn in *; lia|intros _; rewrite Ecnt; exact Ecount]).
  - destruct (Z.ltb_spec res (m_state (with_count s (m_match_count s ⊕ 1)))) as [H|H]; cbn [mbind option_bind];
      (eexists _, _, go', s2; split; [done|]; split; [exact Escan|]; split; [rewrite Est; cbn in *; lia|intros _; rewrite Ecnt; exact Ecount]).
Qed.

Lemma all_match_aggregate action : aggregates action = true → countable action (Z.to_nat (last - start2)) s →
  ∃ go s1 go' s2, all_match add_to_column callback action w a start2 last b s = Some (go, s1) ∧
    scan (CO := consumer action) (λ _, true) (elems w a start2 (Z.to_nat (last - start2))) start2 b s = Some (go', s2) ∧ same_aggregate action s1 s2.
Proof using All.
  intros Hag Hc. rewrite (scan_until add_to_column callback action a start2 last b s) by (done || lia).
  destruct (decide (action = act_Max)) as [->|H1]; [apply (all_match_extreme _ Z.max); by left|].
  destruct (decide (action = act_Min)) as [->|H2]; [apply (all_match_extreme _ Z.min); by right|].
  destruct (until_range action Hag) as (H3 & H4 & Hne & Hlen). rewrite (all_match_until action Hag). cbv zeta.
  assert (action = act_Sum ∨ action = act_Count) as [->| ->] by (clear - Hag H1 H2; destruct action; auto; done).
  - set (end2 := until act_Sum start2 last s) in *. destruct (sum_scan add_to_column callback _ start2 b s Hne Hacc ltac:(lia)) as (go' & Escan).
    eexists _, _, go', _. split; [done|]. split; [exact Escan|]. split.
    + cbn [m_state with_count with_state]. rewrite sum_spec by (done || lia). apply int64_add_r.
    + intros _. cbn [m_match_count with_count with_state]. rewrite Hlen. apply (counted_rest (end2 - start2)); lia.
  - set (end2 := until act_Count start2 last s) in *.
    destruct (count_scan_all add_to_column callback _ start2 b s (Z.to_nat (last - start2) - length (elems w a start2 (Z.to_nat (end2 - start2)))) Hne) as (go' & Escan); [|done|lia|].
    { by replace (_ + _)%nat with (Z.to_nat (last - start2)) by lia. }
    eexists _, _, go', _. split; [done|]. split; [exact Escan|]. split; [|done].
    cbn [m_state with_count with_state]. rewrite Hlen. apply int64_small. destruct (Hc eq_refl) as (E1 & E2 & E3).
    change (2 ^ 63) with 9223372036854775808 in *. lia.
Qed.
End all_match.
