(* ===== verification/ArrayFindResults.v ===== *)
(** * The results of a search

    A search is the scan of its part of the array; the tests on whole words; the first match. *)

From S2P Require Import Prelude ArrayDirect ArrayAccess WordTricks WordTricksTheorems ArrayFind ArrayScan ArrayFindTheorems.

Import Find Query.

(** The part of an array that is searched: [npos] stands for its end. *)
Definition range_end (a : Array) (last : Z) : Z := if last =? npos then m_size a else last.
Definition part (a : Array) (start last : Z) : list Z := elems (m_width a) a start (Z.to_nat (range_end a last - start)).

Definition well_formed (a : Array) : Prop := array_ok (m_width a) a ∧ bounds_ok a.

Lemma find_is_from {C} (add_to_column : Z → C → C) callback {MC : Machine} {AG : Aggregates} c action a value start last b s :
  well_formed a → 0 <= start <= range_end a last → range_end a last <= m_size a →
  find add_to_column callback c action a value start last b s false false =
  find_from add_to_column callback c action (m_width a) a value start (range_end a last) b s.
Proof.
  intros [(Hw & Hd & Hsz) _] Hs Hl. unfold find, find_optimized, range_end in *. cbn [andb negb check mbind option_bind].
  replace (in_array a start last) with true; [done|]. unfold in_array. destruct (Z.eqb_spec last npos) as [->|]; bool_lia.
Qed.

(** C22: for every condition, width, action and part of an array that is not nullable, but for those calls that are answered at once for
    the whole part ([at_once], where the limit is not kept: [count_exceeds_limit]), a search that uses whole words, bounds and tests without a loop
    passes exactly the matching elements to its action, in order, and ends where the action ends it; it never reads outside of
    the data, whatever a shift by all bits of a word yields. *)
Theorem find_correct {C} (add_to_column : Z → C → C) (callback : Z → C → bool * C) {MC : Machine} {ML : MachineLaws} {AG : Aggregates}
    (c : Cond) (action : Action) (a : Array) (value start last b : Z) (s : QueryState C) :
  well_formed a → 0 <= start <= range_end a last → range_end a last <= m_size a →
  accepting s → countable action (length (part a start last)) s → at_once c action a value = false →
  find add_to_column callback c action a value start last b s false false =
  scan (CO := query_consumer add_to_column callback action) (λ v, Condition.test c v value false false) (part a start last) start b s.
Proof.
  intros Hwf Hs Hl Hacc Hc Hat. unfold part in *. rewrite elems_length in Hc. rewrite find_is_from by done. destruct Hwf as [Ha Hb].
  by apply find_from_spec.
Qed.

(** Aggregates accept every value. *)
Lemma scan_total {C} (add_to_column : Z → C → C) callback {MC : Machine} action test els : aggregates action = true → ∀ i b s,
  ∃ go s', scan (CO := query_consumer add_to_column callback action) test els i b s = Some (go, s').
Proof.
  intros Hag. induction els as [|v els IH]; intros i b s; [by exists true, s|]. cbn [scan].
  assert (∃ go s', (if test v then find_action (Consumer := query_consumer add_to_column callback action) (i ⊕ b) (Some v) s else Some (true, s)) = Some (go, s')) as (go & s' & ->).
  { destruct (test v); [|by exists true, s]. destruct action; try done; eexists _, _; reflexivity. }
  cbn [mbind option_bind]. destruct go; [apply IH|by exists false, s'].
Qed.

(** The rest of a search when all elements match *)
Lemma rest_aggregates {C} (add_to_column : Z → C → C) callback {MC : Machine} {ML : MachineLaws} {AG : Aggregates} {AL : AggregateLaws} c action a value start2 last b (s : QueryState C) :
  well_formed a → 0 <= start2 → last <= m_size a → accepting s → countable action (Z.to_nat (last - start2)) s → aggregates action = true →
  Condition.will_match c value (m_lbound a) (m_ubound a) = true →
  ∃ go s1 go' s2, find_rest add_to_column callback c action a value last b s start2 = Some (go, s1) ∧
    scan (CO := query_consumer add_to_column callback action) (λ v, Condition.test c v value false false) (elems (m_width a) a start2 (Z.to_nat (last - start2))) start2 b s = Some (go', s2) ∧
    same_aggregate action s1 s2.
Proof.
  intros [Ha Hb] Hs Hl Hacc Hc Hag Hw. rewrite (scan_ext _ (λ _, true)) by (intros v Hv; by eapply (must_match a Hb Ha)).
  unfold find_rest. rewrite Hw. destruct (Z.lt_ge_cases start2 last) as [H|H].
  - replace (start2 <? m_size a) with true by bool_lia. replace (start2 <? last) with true by bool_lia. destruct (proj2 Ha) as [_ Hsz].
    replace (last =? npos) with false by bool_lia. cbn [andb negb]. cbv zeta.
    assert (Condition.can_match c value (m_lbound a) (m_ubound a) = true) as -> by (pose proof (elem_bounds a Hb Ha 0); destruct c; cbn in *; lia).
    cbn [negb]. apply all_match_aggregate; (done || lia).
  - replace (start2 <? last) with false by bool_lia. rewrite andb_false_r. cbn [negb]. replace (Z.to_nat (last - start2)) with 0%nat by lia.
    exists true, s, true, s. do 2 (split; [done|]). by split.
Qed.

(** Where every element is known to match, the aggregates that are computed at once are those of a scan: the sum with
    the overflow of the machine, the extreme value, the count, up to the limit. *)
Theorem aggregates_correct {C} (add_to_column : Z → C → C) (callback : Z → C → bool * C) {MC : Machine} {ML : MachineLaws} {AG : Aggregates} {AL : AggregateLaws}
    (c : Cond) (action : Action) (a : Array) (value start last b : Z) (s : QueryState C) :
  well_formed a → 0 <= start <= range_end a last → range_end a last <= m_size a →
  accepting s → countable action (length (part a start last)) s → aggregates action = true →
  ∃ go s1 go' s2,
    find add_to_column callback c action a value start last b s false false = Some (go, s1) ∧
    scan (CO := query_consumer add_to_column callback action) (λ v, Condition.test c v value false false) (part a start last) start b s = Some (go', s2) ∧
    same_aggregate action s1 s2.
Proof.
  intros Hwf Hs Hl Hacc Hc Hag. unfold part in *. rewrite elems_length in Hc. rewrite find_is_from by done.
  destruct (Condition.will_match c value (m_lbound a) (m_ubound a)) eqn:Hw.
  2: { pose proof Hwf as [Ha Hb]. rewrite find_from_spec; try done; [|by unfold at_once; rewrite Hw, andb_false_r].
       destruct (scan_total add_to_column callback action (λ v, Condition.test c v value false false) (elems (m_width a) a start (Z.to_nat (range_end a last - start))) Hag start b s) as (go & s' & E).
       exists go, s', go, s'. do 2 (split; [exact E|]). by split. }
  set (last' := range_end a last) in *. rewrite find_from_rest by (lia || apply Hwf). unfold ArrayFindTheorems.CO.
  destruct (Z.ltb_spec 0 start) as [H|H]; [|apply rest_aggregates; (done || lia)].
  set (k := Nat.min 4 _). assert (Z.to_nat (last' - start) = k + Z.to_nat (last' - (start + Z.of_nat 4)))%nat as Ek by lia.
  rewrite Ek in Hc |- *. rewrite scan_elems_app.
  destruct (scan_total add_to_column callback action (λ v, Condition.test c v value false false) (elems (m_width a) a start k) Hag start b s) as (go & s' & E).
  rewrite E. cbn [mbind option_bind]. destruct go; cbn [negb]; [|exists false, s', false, s'; do 2 (split; [done|]); by split].
  assert (accepting s') as Hacc' by (eapply (scan_accepting add_to_column callback action); [rewrite elems_length; exact Hc|exact Hacc|exact E]).
  assert (countable action (Z.to_nat (last' - (start + Z.of_nat 4))) s') as Hc' by (eapply (scan_inv (CL := query_laws add_to_column callback action)); [|exact E]; by rewrite elems_length).
  destruct (rest_aggregates add_to_column callback c action a value (start + Z.of_nat 4) last' b s') as (go & s1 & go' & s2 & E1 & E2 & Hsame); [done|lia|done|done|done|done|done|].
  exists go, s1, go', s2. split; [done|]. split; [|done]. rewrite <- E2.
  destruct (Z.le_gt_cases (start + Z.of_nat 4) last'); [by replace (Z.of_nat k) with (Z.of_nat 4) by lia|].
  by replace (Z.to_nat (last' - (start + Z.of_nat 4))) with 0%nat by lia.
Qed.

(** *** The first match *)
Lemma scan_return_first {MC : Machine} test els : ∀ i b (s : QueryState unit),
  scan (CO := query_consumer (λ _ c, c) (λ _ c, (true, c)) act_ReturnFirst) test els i b s =
  Some (if existsb test els then (false, with_state (with_count s (m_match_count s ⊕ 1)) (int64 (i + Z.of_nat (find_if test els) ⊕ b))) else (true, s)).
Proof.
  induction els as [|v els IH]; intros i b s; [done|]. cbn [scan existsb find_if]. destruct (test v); cbn [orb].
  - cbn [mbind option_bind find_action query_consumer do_find_action match_optional match_value]. by rewrite Z.add_0_r.
  - cbn [mbind option_bind]. rewrite IH. destruct (existsb test els); [|done]. do 4 f_equal. f_equal. lia.
Qed.

Lemma wrap_int64 x : fits x → wrap (int64 x) = x.
Proof. intros Hx. unfold wrap, int64. change W64 with (2 ^ 64). rewrite signed_mod by done. by apply Z.mod_small. Qed.

(** [find_first] returns the index of the first element that fulfils the condition, and [npos] exactly when there is none. *)
Theorem find_first_correct {MC : Machine} {ML : MachineLaws} {AG : Aggregates} (c : Cond) (a : Array) (value start last : Z) :
  well_formed a → 0 <= start <= range_end a last → range_end a last <= m_size a →
  let test v := Condition.test c v value false false in
  find_first c a value start last =
  Some (if existsb test (part a start last) then start + Z.of_nat (find_if test (part a start last)) else npos).
Proof.
  intros Hwf Hs Hl test. pose proof Hwf as [(Hw & Hd & Hsz) _]. unfold find_first.
  replace (in_array a start last) with true by (unfold in_array, range_end in *; destruct (Z.eqb_spec last npos) as [->|]; bool_lia).
  cbn [check mbind option_bind init with_state m_state m_match_count m_limit m_minmax_index akku].
  rewrite find_correct; try done.
  rewrite scan_return_first. cbn [mbind option_bind]. fold test. destruct (existsb test (part a start last)) eqn:E.
  - cbn [m_state with_state]. apply find_if_lt in E. unfold part in E at 2. rewrite elems_length in E.
    f_equal. rewrite wadd_small by lia. rewrite Z.add_0_r. apply wrap_int64. unfold fits. lia.
  - reflexivity.
Qed.

(** ** The tests on whole words *)

(** C23: for every width and word, the bit operations find whether an element is 0, which one is the first that is (or is not), and
    mark all of them, as an examination of the elements one by one does. *)
Theorem word_tricks_correct {MC : Machine} {ML : MachineLaws} (w x : Z) (zero : bool) :
  In w word_widths → 0 <= x < W64 → let els := unpack w (per_word w) x in
  Words.test_zero w x = Some (existsb (λ d, d =? 0) els) ∧
  Words.cascade w zero x = Some (pack w ((λ d, Z.b2z (sought zero d)) <$> els)) ∧
  (existsb (sought zero) els = true → Words.find_zero zero w x = Some (Z.of_nat (find_if (sought zero) els))).
Proof.
  intros Hw Hx. cbv zeta. pose proof (word_width_pos w Hw) as H0.
  assert (digits_ok w (unpack w (per_word w) x)) as Hok by by apply unpack_ok. pose proof (unpack_length w (per_word w) x) as Hl.
  pose proof (unpack_word w Hw x Hx) as E. set (els := unpack w (per_word w) x) in *. rewrite <- E.
  split_and!; [by apply test_zero_spec|by apply cascade_spec|by apply find_zero_spec].
Qed.

(** * Searching in an array that may hold nulls

    The first element of such an array is the value that stands for null.  A search treats the others as values or
    nulls, although [Equal] is found by the code that knows of no nulls. *)

Import Find Query.

Section nulls.
Context {C : Type} (add_to_column : Z → C → C) (callback : Z → C → bool * C) {MC : Machine} {ML : MachineLaws} {AG : Aggregates}.
Context (c : Cond) (action : Action) (a : Array) (Hwf : well_formed a) (Hsize : 1 <= m_size a).
Abbreviation w := (m_width a).
#[local] Instance CO : Consumer (QueryState C) := query_consumer add_to_column callback action.

(** The reference: a scan of values and nulls *)
Fixpoint scan_nulls (value : Z) (find_null : bool) (els : list (option Z)) (i b : Z) (s : QueryState C) : option (bool * QueryState C) :=
  match els with
  | [] => Some (true, s)
  | v :: els =>
      '(go, s) ← (if Condition.test c (default 0 v) value (negb (bool_decide (is_Some v))) find_null then find_action (i ⊕ b) v s else Some (true, s));
      if (go : bool) then scan_nulls value find_null els (i + 1) b s else Some (false, s)
  end.

(** The null value, and the elements behind it *)
Definition null_value : Z := elem w (m_data a) 0.
Definition nullable (v : Z) : option Z := if v =? null_value then None else Some v.
Definition nullable_part (start last : Z) : list (option Z) := nullable <$> elems w a (start + 1) (Z.to_nat (last - start)).

(** One element, as a value or null *)
Lemma nullable_test v value find_null :
  Condition.test c (default 0 (nullable v)) value (negb (bool_decide (is_Some (nullable v)))) find_null = Condition.test c v value (v =? null_value) find_null.
Proof using Type.
  unfold nullable. destruct (v =? null_value).
  - rewrite bool_decide_false by (by intros [? ?]). by destruct c, find_null.
  - by rewrite bool_decide_true.
Qed.

Lemma find_nullable_spec value find_null b n : ∀ start s, 0 <= start → start + Z.of_nat n <= m_size a - 1 →
  find_nullable add_to_column callback c action n w a null_value value find_null start b s =
  scan_nulls value find_null (nullable <$> elems w a (start + 1) n) start b s.
Proof using Hwf.
  induction n as [|n IH]; intros start s Hs Hl; [done|]. cbn [find_nullable]. rewrite elems_S. cbn [fmap list_fmap scan_nulls].
  rewrite array_get by (apply Hwf || lia). cbn [mbind option_bind]. rewrite nullable_test. unfold nullable at 1.
  destruct (if Condition.test _ _ _ _ _ then _ else _) as [[[] s1]|]; [|done..]. cbn [mbind option_bind]. apply IH; lia.
Qed.

Lemma scan_shifted test els b : ∀ i s, scan test els (i + 1) (b ⊖ 1) s = scan test els i b s.
Proof using Type.
  induction els as [|v els IH]; intros i s; [done|]. cbn [scan]. replace (i + 1 ⊕ (b ⊖ 1)) with (i ⊕ b) by wring.
  destruct (if test v then _ else _) as [[[] s1]|]; [|done..]. cbn [mbind option_bind]. apply IH.
Qed.

(** Values that are not null are found as such. *)
Lemma scan_values value els b : value ≠ null_value → c = Equal → ∀ i s, scan (λ v, v =? value) els i b s = scan_nulls value false (nullable <$> els) i b s.
Proof using Type.
  intros Hv Hc. induction els as [|v els IH]; intros i s; [done|]. cbn [scan fmap list_fmap scan_nulls]. rewrite nullable_test.
  assert (Condition.test c v value (v =? null_value) false = (v =? value)) as -> by (rewrite Hc; cbn; bool_lia).
  destruct (Z.eqb_spec v value) as [->|]; [|cbn [mbind option_bind]; apply IH].
  assert (nullable value = Some value) as -> by (unfold nullable; by replace (value =? null_value) with false by bool_lia).
  destruct (find_action _ _ s) as [[[] s1]|]; [|done..]. cbn [mbind option_bind]. apply IH.
Qed.

Lemma scan_no_value els b : c = Equal → ∀ i s, scan_nulls null_value false (nullable <$> els) i b s = Some (true, s).
Proof using Type.
  intros Hc. induction els as [|v els IH]; intros i s; [done|]. cbn [fmap list_fmap scan_nulls]. rewrite nullable_test.
  assert (Condition.test c v null_value (v =? null_value) false = false) as -> by (rewrite Hc; cbn; bool_lia). apply IH.
Qed.

Definition nullable_end (last : Z) : Z := if last =? npos then m_size a - 1 else last.

Lemma nullable_begin value start last b s find_null : 0 <= start <= nullable_end last → nullable_end last <= m_size a - 1 →
  find add_to_column callback c action a value start last b s true find_null =
  if decide (c = Equal) then
    if negb find_null && (value =? null_value) then Some (true, s) else
    find_from add_to_column callback c action w a (if find_null then null_value else value) (start + 1) (nullable_end last + 1) (b ⊖ 1) s
  else find_nullable add_to_column callback c action (turns start (nullable_end last)) w a null_value value find_null start b s.
Proof using Hwf Hsize.
  intros Hs Hl. pose proof Hwf as [(Hw & Hd & Hsz) _]. unfold find, find_optimized, nullable_end in *. rewrite andb_false_r. cbn [negb check mbind option_bind].
  replace (in_array a start last) with true by (unfold in_array; destruct (Z.eqb_spec last npos) as [->|]; bool_lia). cbn [check mbind option_bind].
  rewrite (array_get w a 0) by (apply Hwf || lia). cbn [mbind option_bind]. rewrite wsub_small by lia. done.
Qed.

(** Whatever is searched for, but for null with [Equal]: a scan of values and nulls.  Searching for null with
    [Equal] finds the nulls, as values. *)
Theorem nullable_correct (value start last b : Z) (s : QueryState C) (find_null : bool) :
  0 <= start <= nullable_end last → nullable_end last <= m_size a - 1 → accepting s → countable action (Z.to_nat (nullable_end last - start)) s →
  at_once c action a (if find_null then null_value else value) = false →
  find add_to_column callback c action a value start last b s true find_null =
  if decide (c = Equal ∧ find_null = true)
  then scan (λ v, v =? null_value) (elems w a (start + 1) (Z.to_nat (nullable_end last - start))) start b s
  else scan_nulls value find_null (nullable_part start (nullable_end last)) start b s.
Proof using ML Hwf Hsize.
  intros Hs Hl Hacc Hc Hat. rewrite nullable_begin by done. pose proof Hwf as [Ha Hb]. destruct (decide (c = Equal)) as [Heq|Hne].
  2: { rewrite decide_False by tauto. apply find_nullable_spec; unfold turns; lia. }
  assert (∀ v, at_once c action a v = false →
    find_from add_to_column callback c action w a v (start + 1) (nullable_end last + 1) (b ⊖ 1) s = scan (λ u, u =? v) (elems w a (start + 1) (Z.to_nat (nullable_end last - start))) start b s) as Hfrom.
  { intros v Hv. rewrite (find_from_spec add_to_column callback c action a Hb Ha v) by (done || lia || by replace (nullable_end last + 1 - (start + 1)) with (nullable_end last - start) by lia).
    replace (nullable_end last + 1 - (start + 1)) with (nullable_end last - start) by lia. rewrite <- (scan_shifted (λ u, u =? v)). apply scan_ext. intros u _. by rewrite Heq. }
  destruct find_null; cbn [negb andb].
  - rewrite decide_True by done. by apply Hfrom.
  - rewrite decide_False by (by intros [_ ?]). unfold nullable_part. destruct (Z.eqb_spec value null_value) as [->|Hv]; [by rewrite scan_no_value|].
    rewrite Hfrom by done. by apply scan_values.
Qed.
End nulls.

(** * Comparing two arrays

    [compare_leafs] compares the elements of two arrays one by one, with a few of them first and a shortcut for
    arrays without bits. *)

Import Find.

Section leafs.
Context {St : Type} {MC : Machine} {CO : Consumer St} (c : Cond) (a foreign : Array).
Context (Ha : array_ok (m_width a) a) (Hf : array_ok (m_width foreign) foreign).

(** The reference: pairs of elements in order, the first of which is the match *)
Fixpoint scan_pairs (n : nat) (start b : Z) (s : St) : option (bool * St) :=
  match n with
  | O => Some (true, s)
  | S n =>
      let v := elem (m_width a) (m_data a) start in
      '(go, s) ← (if Condition.test c v (elem (m_width foreign) (m_data foreign) start) false false then find_action (start ⊕ b) (Some v) s else Some (true, s));
      if (go : bool) then scan_pairs n (start + 1) b s else Some (false, s)
  end.

Lemma scan_pairs_app n m : ∀ start b s, scan_pairs (n + m) start b s =
  ('(go, s) ← scan_pairs n start b s; if negb go then Some (false, s) else scan_pairs m (start + Z.of_nat n) b s).
Proof using Type.
  induction n as [|n IH]; intros start b s; [cbn; by rewrite Z.add_0_r|]. cbn [Nat.add scan_pairs].
  destruct (if Condition.test _ _ _ _ _ then _ else _) as [[[] s1]|]; [|done..]. cbn [mbind option_bind]. rewrite IH.
  by replace (start + 1 + Z.of_nat n) with (start + Z.of_nat (S n)) by lia.
Qed.

Lemma each_pairs n : ∀ start b s, 0 <= start → start + Z.of_nat n <= m_size a → start + Z.of_nat n <= m_size foreign →
  compare_leafs_each n c a foreign start b s = scan_pairs n start b s.
Proof using Ha Hf.
  induction n as [|n IH]; intros start b s Hs H1 H2; [done|]. cbn [compare_leafs_each scan_pairs].
  rewrite !array_get by (done || lia). cbn [mbind option_bind].
  destruct (if Condition.test _ _ _ _ _ then _ else _) as [[[] s1]|]; [|done..]. cbn [mbind option_bind]. apply IH; lia.
Qed.

(** Elements without bits *)
Lemma elem_zero data i : elem 0 data i = 0.
Proof using Type. unfold elem, value_of, digit, field. cbn. by rewrite Z.mod_1_r. Qed.

Lemma zero_pairs n : m_width a = 0 → m_width foreign = 0 → ∀ start b s,
  scan_pairs n start b s = if Condition.test c 0 0 false false then all_zero n start b s else Some (true, s).
Proof using Type.
  intros E1 E2. induction n as [|n IH]; intros start b s; [by destruct (Condition.test _ _ _ _ _)|]. cbn [scan_pairs all_zero]. rewrite E1, E2, !elem_zero.
  destruct (Condition.test c 0 0 false false); [|cbn [mbind option_bind]; apply IH].
  destruct (find_action _ _ s) as [[[] s1]|]; [|done..]. cbn [mbind option_bind]. apply IH.
Qed.

Lemma leafs_4_pairs start last b s : 0 <= start <= last → last <= m_size a → last <= m_size foreign →
  compare_leafs_4 c a foreign start last b s = scan_pairs (Z.to_nat (last - start)) start b s.
Proof using Ha Hf.
  intros Hs H1 H2. unfold compare_leafs_4, turns. destruct (Z.eqb_spec (m_width a) 0) as [E1|]; [|apply each_pairs; lia].
  destruct (Z.eqb_spec (m_width foreign) 0) as [E2|]; [|apply each_pairs; lia]. cbn [andb]. rewrite zero_pairs by done.
  destruct (Condition.test c 0 0 false false); [|done]. destruct (all_zero _ _ _ _) as [[[] s1]|]; [|done..]. cbn [mbind option_bind].
  by replace (Z.to_nat (last - Z.max start last)) with 0%nat by lia.
Qed.

(** A comparison of two arrays passes exactly the elements that fulfil the condition, in order. *)
Theorem compare_leafs_correct (start last b : Z) (s : St) : 0 <= start <= last → last <= m_size a → last <= m_size foreign →
  compare_leafs c a foreign start last b s = scan_pairs (Z.to_nat (last - start)) start b s.
Proof using Ha Hf.
  intros Hs H1 H2. unfold compare_leafs. replace (start <=? last) with true by bool_lia. cbn [check mbind option_bind].
  destruct (Z.eqb_spec start last) as [->|Hne]; [by rewrite Z.sub_diag|].
  replace (Z.to_nat (last - start)) with (1 + Z.to_nat (last - (start + 1)))%nat by lia. rewrite scan_pairs_app, each_pairs by lia.
  destruct (scan_pairs 1 start b s) as [[[] s1]|]; [|done..]. cbn [mbind option_bind negb]. change (start + Z.of_nat 1) with (start + 1).
  destruct (Z.ltb_spec (start + 1 + 3) last).
  - replace (Z.to_nat (last - (start + 1))) with (3 + Z.to_nat (last - (start + 1 + 3)))%nat by lia. rewrite scan_pairs_app, each_pairs by lia.
    destruct (scan_pairs 3 _ b s1) as [[[] s2]|]; [|done..]. cbn [mbind option_bind negb]. apply leafs_4_pairs; lia.
  - destruct (Z.eqb_spec (start + 1) last) as [->|]; [by rewrite Z.sub_diag|]. apply leafs_4_pairs; lia.
Qed.
End leafs.

(** * Searches in some arrays

    A machine and aggregates that keep to the laws, with which the theorems on searches are applied; and
    what the code does that a scan does not. *)

Import Find Query.

(** ** A machine *)
#[local] Instance a_machine : Machine := {
  round_up p align := let r := p mod align in if r =? 0 then p else p + align - r;
  first_set_bit64 x := Z.of_nat (find_if (λ i, Z.testbit x (Z.of_nat i)) (seq 0 64));
  fast_popcount64 x := Z.of_nat (bits_set 64 x);
  undefined_shift := wrap }.

Lemma find_if_member {A} (p : A → bool) l x : x ∈ l → p x = true → ∃ y, l !! find_if p l = Some y ∧ p y = true ∧ ∀ i z, (i < find_if p l)%nat → l !! i = Some z → p z = false.
Proof.
  intros Hx Hp. induction l as [|a l IH]; [by apply not_elem_of_nil in Hx|]. cbn. destruct (p a) eqn:E.
  - exists a. split_and!; [done|done|]. intros i z Hi. lia.
  - apply elem_of_cons in Hx as [->|Hx]; [by rewrite Hp in E|]. destruct (IH Hx) as (y & H1 & H2 & H3). exists y. split_and!; [done|done|].
    intros [|i] z Hi Hz; [by injection Hz as <-|]. apply (H3 i); [lia|done].
Qed.

#[local] Instance a_machine_laws : MachineLaws (MC := a_machine).
Proof.
  split.
  - intros p align Hp Ha _. cbn. pose proof (Z.mod_pos_bound p align). destruct (Z.eqb_spec (p mod align) 0); [lia|]. split; [|lia].
    replace (p + align - p mod align) with (align * (p / align) + 1 * align) by (pose proof (Z.div_mod p align); lia).
    rewrite Z_mod_plus_full, Z.mul_comm. apply Z_mod_mult.
  - intros x Hx. assert (Z.to_nat (Z.log2 x) ∈ seq 0 64) as Hin.
    { apply elem_of_seq. pose proof (Z.log2_nonneg x). assert (Z.log2 x < 64) by (apply Z.log2_lt_pow2; [lia|apply Hx]). lia. }
    destruct (find_if_member (λ i, Z.testbit x (Z.of_nat i)) (seq 0 64) _ Hin) as (y & H1 & H2 & H3).
    { cbn. rewrite Z2Nat.id by apply Z.log2_nonneg. apply Z.bit_log2. lia. }
    cbn [first_set_bit64 a_machine]. set (k := find_if _ _) in *. pose proof (lookup_lt_Some _ _ _ H1) as Hk. rewrite length_seq in Hk.
    rewrite lookup_seq_lt in H1 by done. injection H1 as <-. split_and!; [lia|lia|done|]. intros i Hi.
    specialize (H3 (Z.to_nat i) (Z.to_nat i) ltac:(lia)). rewrite Z2Nat.id in H3 by lia. apply H3. apply lookup_seq_lt. lia.
  - done.
  - intros x. apply wrap_fits.
Qed.

(** The extreme of a range with its first index *)
Fixpoint extreme (better : Z → Z → bool) (els : list Z) (i : Z) : option (Z * Z) :=
  match els with
  | [] => None
  | v :: els => match extreme better els (i + 1) with Some (u, k) => if better v u then Some (u, k) else Some (v, i) | None => Some (v, i) end
  end.

#[local] Instance some_aggregates : Aggregates := {
  sum a i j := int64 (foldr Z.add 0 (elems (m_width a) a i (Z.to_nat (j - i))));
  maximum a i j := extreme (λ old new, old <? new) (elems (m_width a) a i (Z.to_nat (j - i))) i;
  minimum a i j := extreme (λ old new, new <? old) (elems (m_width a) a i (Z.to_nat (j - i))) i }.

Lemma extreme_spec (better : Z → Z → bool) (le : Z → Z → Prop) : (∀ x y, if better x y then le x y else le y x) → (∀ x y z, le x y → le y z → le x z) → (∀ x, le x x) → ∀ els i, els ≠ [] →
  ∃ k v, (k < length els)%nat ∧ extreme better els i = Some (v, i + Z.of_nat k) ∧ els !! k = Some v ∧ ∀ u, u ∈ els → le u v.
Proof.
  intros Hb Ht Hr. induction els as [|v els IH]; intros i Hne; [done|]. cbn [extreme].
  destruct els as [|u els].
  { exists 0%nat, v. split_and!; [cbn; lia|cbn; by rewrite Z.add_0_r|done|]. intros u Hu. by apply list_elem_of_singleton in Hu as ->. }
  destruct (IH (i + 1)) as (k & x & Hk & -> & Hx & Hle); [done|]. specialize (Hb v x). destruct (better v x).
  - exists (S k), x. split_and!; [cbn in *; lia|do 2 f_equal; lia|done|]. intros y Hy. apply elem_of_cons in Hy as [->|Hy]; [done|by apply Hle].
  - exists 0%nat, v. split_and!; [cbn; lia|do 2 f_equal; lia|done|]. intros y Hy. apply elem_of_cons in Hy as [->|Hy]; [done|]. eapply Ht; [by apply Hle|done].
Qed.

#[local] Instance some_aggregate_laws : AggregateLaws.
Proof.
  assert (∀ (better : Z → Z → bool) (le : Z → Z → Prop) a i j, (∀ x y, if better x y then le x y else le y x) → (∀ x y z, le x y → le y z → le x z) → (∀ x, le x x) → 0 <= i < j →
    ∃ k, i <= k < j ∧ extreme better (elems (m_width a) a i (Z.to_nat (j - i))) i = Some (elem (m_width a) (m_data a) k, k) ∧
      ∀ l, i <= l < j → le (elem (m_width a) (m_data a) l) (elem (m_width a) (m_data a) k)) as H.
  { intros better le a i j H1 H2 H3 Hi. destruct (extreme_spec better le H1 H2 H3 (elems (m_width a) a i (Z.to_nat (j - i))) i) as (k & v & Hk & -> & Hv & Hle).
    { intros E. apply (f_equal length) in E. rewrite elems_length in E. cbn in E. lia. }
    rewrite elems_length in Hk. rewrite elems_lookup in Hv by done. injection Hv as <-. exists (i + Z.of_nat k). split_and!; [lia|lia|done|].
    intros l Hl. apply Hle. apply elems_member. lia. }
  split.
  - done.
  - intros a i j _ Hi _. apply (H _ Z.le); [intros x y; destruct (Z.ltb_spec x y); lia|lia|lia|done].
  - intros a i j _ Hi _. apply (H _ (λ x y, y <= x)); [intros x y; destruct (Z.ltb_spec y x); lia|lia|lia|done].
Qed.

(** ** Some arrays *)
Definition bytes_array (data : list Z) : Array := {| m_data := data; m_size := Z.of_nat (length data); m_width := 8; m_lbound := -128; m_ubound := 127 |}.
Definition some_bytes : Array := bytes_array [7; 0; 5; 9; 5; 1; 255; 5; 3; 5; 5; 250; 0; 0; 5; 2; 6; 8; 5; 100; 128; 4; 5; 3].
(** An array of zeros, which has no bits *)
Definition zeros (n : Z) : Array := {| m_data := []; m_size := n; m_width := 0; m_lbound := 0; m_ubound := 0 |}.

Lemma bytes_ok data : Forall is_byte data → Z.of_nat (length data) < 2 ^ 24 → well_formed (bytes_array data).
Proof.
  intros Hd Hl. split; [split; [by vm_compute; tauto|split; [split; [done|cbn; lia]|cbn in *; lia]]|]. intros v. done.
Qed.
Lemma some_bytes_ok : well_formed some_bytes.
Proof. apply bytes_ok; [|done]. repeat (apply Forall_cons_2; [unfold is_byte; lia|]). apply Forall_nil_2. Qed.
Lemma zeros_wf n : 0 <= n < 2 ^ 24 → well_formed (zeros n).
Proof.
  intros Hn. split; [split; [by vm_compute; tauto|split; [split; [constructor|cbn; lia]|cbn in *; lia]]|].
  intros v. cbn. destruct (Z.eqb_spec v 0); lia.
Qed.

Definition fresh (st limit : Z) : QueryState (list Z) := {| m_state := st; m_match_count := 0; m_limit := limit; m_minmax_index := npos; akku := [] |}.
Abbreviation collect := (λ (i : Z) (l : list Z), l ++ [i]).
Abbreviation ignore := (λ (_ : Z) (l : list Z), (true, l)).

(** ** Instances: all matches from the second element on, a maximum with a limit, the first match of three, and some words *)
Lemma find_witness : (λ r, (r.1, akku r.2)) <$> find collect ignore Equal act_FindAll some_bytes 5 1 npos 1000 (fresh 0 6) false false =
  Some (false, [1002; 1004; 1007; 1009; 1010; 1014]).
Proof.
  rewrite (find_correct collect ignore Equal act_FindAll some_bytes 5 1 npos 1000 (fresh 0 6) some_bytes_ok); [by vm_compute|by vm_compute|by vm_compute|by vm_compute|done|done].
Defined.

Lemma aggregates_witness : ∃ go s1, find collect ignore Less act_Max some_bytes 200 2 npos 0 (fresh (-1) 8) false false = Some (go, s1) ∧ m_state s1 = 9 ∧ m_match_count s1 = 8.
Proof.
  destruct (aggregates_correct collect ignore Less act_Max some_bytes 200 2 npos 0 (fresh (-1) 8) some_bytes_ok) as (go & s1 & go' & s2 & E1 & E2 & E3 & E4); [by vm_compute|by vm_compute|by vm_compute|done|done|].
  exists go, s1. split; [exact E1|]. vm_compute in E2. injection E2 as _ <-. split; [exact E3|]. apply E4. done.
Defined.

Lemma find_first_witness : find_first Greater some_bytes 9 1 npos = Some 19 ∧ find_first Less some_bytes (-100) 0 20 = Some npos.
Proof.
  split.
  - rewrite (find_first_correct Greater some_bytes 9 1 npos some_bytes_ok); by vm_compute.
  - rewrite (find_first_correct Less some_bytes (-100) 0 20 some_bytes_ok); by vm_compute.
Defined.

Lemma word_tricks_witness : Words.test_zero 4 0x5fd07a107610f617 = Some true ∧ Words.find_zero true 4 0x5fd07a107610f617 = Some 4.
Proof.
  destruct (word_tricks_correct 4 0x5fd07a107610f617 true ltac:(by vm_compute; tauto) ltac:(lia)) as (E1 & _ & E2). split; [exact E1|exact (E2 eq_refl)].
Defined.

(** ** What the code does that a scan does not *)

(** The limit of a count: when all elements of a leaf match, they are added to the count but
    not to the matches that the limit is compared with, so that the next leaf is counted as if nothing had been. *)
Example count_exceeds_limit :
  (r ← find collect ignore Equal act_Count (zeros 3) 0 0 npos 0 (fresh 0 4) false false;
   r ← find collect ignore Equal act_Count (zeros 3) 0 0 npos 3 r.2 false false; Some (m_state r.2)) = Some 6 ∧
  (r ← scan (CO := query_consumer collect ignore act_Count) (λ v, v =? 0) (replicate 6 0) 0 0 (fresh 0 4); Some (m_state r.2)) = Some 4.
Proof. split; reflexivity. Qed.

(** Nulls that are collected are not counted against the limit, values are. *)
Example nulls_exceed_limit :
  (r ← find collect ignore NotEqual act_FindAll (bytes_array [9; 9; 9; 9; 1; 1; 1]) 5 0 npos 0 (fresh 0 2) true false; Some (akku r.2)) = Some [0; 1; 2; 3; 4].
Proof. reflexivity. Qed.

(** The comparison of whole words for [Less] marks an element that is equal, if the one below is less. *)
Example less_would_be_wrong :
  (r ← Words.find_gtlt_fast (CO := query_consumer collect ignore act_FindAll) false 8 0x7f7f7f7f7f7f0201 (Words.find_gtlt_magic false 8 2) 0 (fresh 0 100); Some (akku r.2)) = Some [0; 1].
Proof. reflexivity. Qed.
