(* ===== verification/ArrayHeader.v ===== *)
(** * The header of an array, and tagged integers

    Model of the header functions of array.hpp: eight bytes that hold the flags, the kind and size of the elements, the number of
    elements and the capacity; of the size in bytes that follows from them; and of [RefOrTagged]. *)

From S2P Require Import Prelude SafeInt SafeIntTheorems ArrayDirect ArrayAccess WordTricks.

Module Header.
Inductive WidthType := wtype_Bits | wtype_Multiply | wtype_Ignore.
Inductive Type_ := type_Normal | type_InnerBptreeNode | type_HasRefs.

Definition header_size : Z := 8.
Definition max_array_size : Z := 0x00ffffff.

Definition wtype_value (t : WidthType) : Z := match t with wtype_Bits => 0 | wtype_Multiply => 1 | wtype_Ignore => 2 end.

(** A byte of the header, which has eight *)
Definition at_ (h : list Z) (i : nat) : Z := nth i h 0.

(** ** The fields *)
Definition get_is_inner_bptree_node_from_header (h : list Z) : bool := negb (Z.land (at_ h 4) 0x80 =? 0).
Definition get_hasrefs_from_header (h : list Z) : bool := negb (Z.land (at_ h 4) 0x40 =? 0).
Definition get_context_flag_from_header (h : list Z) : bool := negb (Z.land (at_ h 4) 0x20 =? 0).
(** As the number that is cast to [WidthType] *)
Definition get_wtype_from_header (h : list Z) : Z := Z.shiftr (Z.land (at_ h 4) 0x18) 3.
Definition get_width_from_header (h : list Z) : Z := Z.shiftr (Z.shiftl 1 (Z.land (at_ h 4) 0x07)) 1.
Definition get_size_from_header (h : list Z) : Z := Z.shiftl (at_ h 5) 16 + Z.shiftl (at_ h 6) 8 + at_ h 7.
Definition get_capacity_from_header (h : list Z) : Z := Z.shiftl (at_ h 0) 19 + Z.shiftl (at_ h 1) 11 + Z.shiftl (at_ h 2) 3.

(** [h[4] = uchar((int(h[4]) & ~mask) | value)] *)
Definition set_field (mask value : Z) (h : list Z) : list Z := <[4%nat := Z.lor (Z.ldiff (at_ h 4) mask) value mod 256]> h.

Definition set_header_is_inner_bptree_node (value : bool) (h : list Z) : list Z := set_field 0x80 (Z.shiftl (Z.b2z value) 7) h.
Definition set_header_hasrefs (value : bool) (h : list Z) : list Z := set_field 0x40 (Z.shiftl (Z.b2z value) 6) h.
Definition set_header_context_flag (value : bool) (h : list Z) : list Z := set_field 0x20 (Z.shiftl (Z.b2z value) 5) h.
Definition set_header_wtype (value : WidthType) (h : list Z) : list Z := set_field 0x18 (Z.shiftl (wtype_value value) 3) h.

(** [while (value) { ++w; value >>= 1; }], for at most 31 bits *)
Fixpoint bits_of (fuel : nat) (value w : Z) : option Z :=
  if value =? 0 then Some w else match fuel with O => None | S fuel => bits_of fuel (Z.shiftr value 1) (w + 1) end.
Definition set_header_width (value : Z) (h : list Z) : option (list Z) :=
  w ← bits_of 31 value 0;
  REALM_ASSERT (w <? 8);;
  Some (set_field 0x7 w h).

Definition set_header_size (value : Z) (h : list Z) : option (list Z) :=
  REALM_ASSERT (value <=? max_array_size);;
  let h := <[5%nat := Z.land (Z.shiftr value 16) 0x000000FF]> h in
  let h := <[6%nat := Z.land (Z.shiftr value 8) 0x000000FF]> h in
  Some (<[7%nat := Z.land value 0x000000FF]> h).

Definition set_header_capacity (value : Z) (h : list Z) : option (list Z) :=
  REALM_ASSERT (value <=? Z.shiftl 0xffffff 3);;
  let h := <[0%nat := Z.land (Z.shiftr value 19) 0x000000FF]> h in
  let h := <[1%nat := Z.land (Z.shiftr value 11) 0x000000FF]> h in
  Some (<[2%nat := Z.land (Z.shiftr value 3) 0x000000FF]> h).

Definition get_type_from_header (h : list Z) : Type_ :=
  if get_is_inner_bptree_node_from_header h then type_InnerBptreeNode
  else if get_hasrefs_from_header h then type_HasRefs else type_Normal.

(** ** The size in bytes *)
Definition calc_byte_size (wtype : WidthType) (size width : Z) : option Z :=
  num_bytes ←
    (match wtype with
     | wtype_Bits =>
         REALM_ASSERT (size <? 0x1000000);;
         let num_bits := wrap (size * width) in
         Some (Z.shiftr (num_bits ⊕ 7) 3)
     | wtype_Multiply => Some (wrap (size * width))
     | wtype_Ignore => Some size
     end);
  let num_bytes := Z.ldiff (num_bytes ⊕ 7) 7 in
  Some (num_bytes ⊕ header_size).

(** A number that is no [WidthType] adds nothing in the switch. *)
Definition get_byte_size_from_header (h : list Z) : option Z :=
  let size := get_size_from_header h in
  let width := get_width_from_header h in
  let wtype := get_wtype_from_header h in
  if wtype =? 0 then calc_byte_size wtype_Bits size width else
  if wtype =? 1 then calc_byte_size wtype_Multiply size width else
  if wtype =? 2 then calc_byte_size wtype_Ignore size width else
  Some (Z.ldiff (0 ⊕ 7) 7 ⊕ header_size).

Definition init_header (h : list Z) (is_inner_bptree_node has_refs context_flag : bool) (width_type : WidthType) (width size capacity : Z) : option (list Z) :=
  let h := replicate 8 0 ++ drop 8 h in
  let h := set_header_is_inner_bptree_node is_inner_bptree_node h in
  let h := set_header_hasrefs has_refs h in
  let h := set_header_context_flag context_flag h in
  let h := set_header_wtype width_type h in
  h ← set_header_width width h;
  h ← set_header_size size h;
  set_header_capacity capacity h.
End Header.

(** ** [RefOrTagged]: an element is a reference, or an integer that is marked by its lowest bit *)
Module RefOrTagged.
Definition is_ref (m_value : Z) : bool := Z.land m_value 1 =? 0.
Definition is_tagged (m_value : Z) : bool := negb (is_ref m_value).
Definition get_as_ref (m_value : Z) : option Z := Direct.to_ref m_value.
Definition get_as_int (m_value : Z) : Z := Z.shiftr (Z.land (wrap m_value) 0xFFFFFFFFFFFFFFFF) 1.

Definition from_ref (v : Z) : option Z := REALM_ASSERT (v mod 8 =? 0);; Some (SafeInt.from_twos_compl t_int64 64 v).
Definition make_ref (ref : Z) : option Z := from_ref ref.
Definition make_tagged (i : Z) : option Z :=
  REALM_ASSERT (i <? Z.shiftl 1 63);;
  Some (SafeInt.from_twos_compl t_int64 64 (Z.lor (wrap (Z.shiftl i 1)) 1)).
End RefOrTagged.

(** * What the header of an array promises

    Every field is read as it was written and no other changes; the size in bytes is enough and aligned; tagged integers
    and references are told apart. *)

Import Header.

(** The fields of a header *)
Record fields := { f_inner : bool; f_hasrefs : bool; f_context : bool; f_wtype : Z; f_width : Z; f_size : Z; f_capacity : Z }.
Definition read_fields (h : list Z) : fields :=
  {| f_inner := get_is_inner_bptree_node_from_header h; f_hasrefs := get_hasrefs_from_header h; f_context := get_context_flag_from_header h;
     f_wtype := get_wtype_from_header h; f_width := get_width_from_header h; f_size := get_size_from_header h; f_capacity := get_capacity_from_header h |}.

Definition is_header (h : list Z) : Prop := length h = 8%nat ∧ Forall is_byte h.

(** A field of the fifth byte can be set without the others. *)
Definition flags (b : Z) : bool * bool * bool * Z * Z :=
  let h := [0; 0; 0; 0; b] in
  (get_is_inner_bptree_node_from_header h, get_hasrefs_from_header h, get_context_flag_from_header h, get_wtype_from_header h, get_width_from_header h).
Definition set_byte (mask value b : Z) : Z := Z.lor (Z.ldiff b mask) value mod 256.

Definition flags_eqb (x y : bool * bool * bool * Z * Z) : bool := bool_decide (x = y).

Lemma flags_table : forallb (λ n : nat, let b := Z.of_nat n in
  match flags b with (i, r, c, t, w) =>
    forallb (λ v, flags_eqb (flags (set_byte 0x80 (Z.shiftl (Z.b2z v) 7) b)) (v, r, c, t, w) &&
                  flags_eqb (flags (set_byte 0x40 (Z.shiftl (Z.b2z v) 6) b)) (i, v, c, t, w) &&
                  flags_eqb (flags (set_byte 0x20 (Z.shiftl (Z.b2z v) 5) b)) (i, r, v, t, w)) [false; true] &&
    forallb (λ v, flags_eqb (flags (set_byte 0x18 (Z.shiftl v 3) b)) (i, r, c, v, w)) [0; 1; 2] &&
    forallb (λ v, flags_eqb (flags (set_byte 0x7 v b)) (i, r, c, t, Z.shiftr (Z.shiftl 1 v) 1)) [0; 1; 2; 3; 4; 5; 6; 7]
  end) (seq 0 256) = true.
Proof. by vm_compute. Qed.

Lemma flags_set b i r c t w : is_byte b → flags b = (i, r, c, t, w) →
  (∀ v, flags (set_byte 0x80 (Z.shiftl (Z.b2z v) 7) b) = (v, r, c, t, w)) ∧
  (∀ v, flags (set_byte 0x40 (Z.shiftl (Z.b2z v) 6) b) = (i, v, c, t, w)) ∧
  (∀ v, flags (set_byte 0x20 (Z.shiftl (Z.b2z v) 5) b) = (i, r, v, t, w)) ∧
  (∀ v, flags (set_byte 0x18 (Z.shiftl (wtype_value v) 3) b) = (i, r, c, wtype_value v, w)) ∧
  (∀ v, 0 <= v < 8 → flags (set_byte 0x7 v b) = (i, r, c, t, Z.shiftr (Z.shiftl 1 v) 1)).
Proof.
  intros Hb E. pose proof (proj1 (forallb_forall _ _) flags_table (Z.to_nat b)) as T. rewrite in_seq in T. unfold is_byte in Hb. specialize (T ltac:(lia)).
  cbv zeta in T. rewrite Z2Nat.id in T by lia. rewrite E in T.
  apply andb_true_iff in T as [T T3]. apply andb_true_iff in T as [T1 T2]. rewrite forallb_forall in T1, T2, T3.
  assert (∀ v, flags_eqb (flags (set_byte 0x80 (Z.shiftl (Z.b2z v) 7) b)) (v, r, c, t, w) = true ∧
               flags_eqb (flags (set_byte 0x40 (Z.shiftl (Z.b2z v) 6) b)) (i, v, c, t, w) = true ∧
               flags_eqb (flags (set_byte 0x20 (Z.shiftl (Z.b2z v) 5) b)) (i, r, v, t, w) = true) as T1'.
  { intros v. specialize (T1 v). assert (In v [false; true]) as Hv by (destruct v; cbn; tauto).
    specialize (T1 Hv). apply andb_true_iff in T1 as [T1 ?]. by apply andb_true_iff in T1 as [? ?]. }
  split_and!; intros v; [apply (bool_decide_eq_true_1 _), (T1' v)..| |].
  - apply (bool_decide_eq_true_1 _), T2. destruct v; cbn; tauto.
  - intros Hv. apply (bool_decide_eq_true_1 _), T3. cbn. lia.
Qed.

(** Headers by their bytes *)
Lemma header_cases h (P : list Z → Prop) : is_header h → (∀ b0 b1 b2 b3 b4 b5 b6 b7, is_header [b0; b1; b2; b3; b4; b5; b6; b7] → is_byte b4 → P [b0; b1; b2; b3; b4; b5; b6; b7]) → P h.
Proof.
  intros [Hl Hb] H. do 8 (destruct h as [|? h]; [done|]). destruct h; [|done]. apply H; [done|].
  do 4 apply Forall_cons in Hb as [_ Hb]. by apply Forall_cons in Hb as [Hb _].
Qed.

Lemma set_field_header mask value h : is_header h → is_header (set_field mask value h) ∧ set_field mask value h = <[4%nat := set_byte mask value (at_ h 4)]> h.
Proof.
  intros [Hl Hb]. split; [|done]. split; [by unfold set_field; rewrite length_insert|]. apply Forall_insert; [done|]. apply Z.mod_pos_bound. lia.
Qed.

(** The fields after one of the fifth byte is set *)
Lemma fields_set mask value h (F : fields → fields) : is_header h →
  (∀ i r c t w, flags (at_ h 4) = (i, r, c, t, w) → flags (set_byte mask value (at_ h 4)) =
     let f := F {| f_inner := i; f_hasrefs := r; f_context := c; f_wtype := t; f_width := w; f_size := get_size_from_header h; f_capacity := get_capacity_from_header h |} in
     (f_inner f, f_hasrefs f, f_context f, f_wtype f, f_width f)) →
  (∀ f, f_size (F f) = f_size f ∧ f_capacity (F f) = f_capacity f) → read_fields (set_field mask value h) = F (read_fields h).
Proof.
  intros Hh. pattern h. apply (header_cases h _ Hh). clear h Hh. intros b0 b1 b2 b3 b4 b5 b6 b7 Hh Hb HF Hkeep.
  specialize (HF _ _ _ _ _ eq_refl). cbv zeta in HF.
  change {| f_inner := _; f_hasrefs := _; f_context := _; f_wtype := _; f_width := _; f_size := _; f_capacity := _ |} with (read_fields [b0; b1; b2; b3; b4; b5; b6; b7]) in HF.
  destruct (Hkeep (read_fields [b0; b1; b2; b3; b4; b5; b6; b7])) as [E1 E2]. set (f := F _) in *.
  injection HF as H1 H2 H3 H4 H5. change (read_fields (set_field mask value [b0; b1; b2; b3; b4; b5; b6; b7])) with
    {| f_inner := get_is_inner_bptree_node_from_header [b0; b1; b2; b3; set_byte mask value b4];
       f_hasrefs := get_hasrefs_from_header [b0; b1; b2; b3; set_byte mask value b4]; f_context := get_context_flag_from_header [b0; b1; b2; b3; set_byte mask value b4];
       f_wtype := get_wtype_from_header [b0; b1; b2; b3; set_byte mask value b4]; f_width := get_width_from_header [b0; b1; b2; b3; set_byte mask value b4];
       f_size := f_size (read_fields [b0; b1; b2; b3; b4; b5; b6; b7]); f_capacity := f_capacity (read_fields [b0; b1; b2; b3; b4; b5; b6; b7]) |}.
  rewrite <- E1, <- E2. destruct f. cbn in *. by subst.
Qed.

(** ** Every setter *)
Definition with_inner v f := {| f_inner := v; f_hasrefs := f_hasrefs f; f_context := f_context f; f_wtype := f_wtype f; f_width := f_width f; f_size := f_size f; f_capacity := f_capacity f |}.
Definition with_hasrefs v f := {| f_inner := f_inner f; f_hasrefs := v; f_context := f_context f; f_wtype := f_wtype f; f_width := f_width f; f_size := f_size f; f_capacity := f_capacity f |}.
Definition with_context v f := {| f_inner := f_inner f; f_hasrefs := f_hasrefs f; f_context := v; f_wtype := f_wtype f; f_width := f_width f; f_size := f_size f; f_capacity := f_capacity f |}.
Definition with_wtype v f := {| f_inner := f_inner f; f_hasrefs := f_hasrefs f; f_context := f_context f; f_wtype := v; f_width := f_width f; f_size := f_size f; f_capacity := f_capacity f |}.
Definition with_width v f := {| f_inner := f_inner f; f_hasrefs := f_hasrefs f; f_context := f_context f; f_wtype := f_wtype f; f_width := v; f_size := f_size f; f_capacity := f_capacity f |}.
Definition with_size v f := {| f_inner := f_inner f; f_hasrefs := f_hasrefs f; f_context := f_context f; f_wtype := f_wtype f; f_width := f_width f; f_size := v; f_capacity := f_capacity f |}.
Definition with_capacity v f := {| f_inner := f_inner f; f_hasrefs := f_hasrefs f; f_context := f_context f; f_wtype := f_wtype f; f_width := f_width f; f_size := f_size f; f_capacity := v |}.

(** A setter gives a header in which one field has changed. *)
Definition sets (g : list Z → option (list Z)) (F : fields → fields) : Prop := ∀ h, is_header h → ∃ h', g h = Some h' ∧ is_header h' ∧ read_fields h' = F (read_fields h).

Lemma sets_field mask value F : (∀ b i r c t w s k, is_byte b → flags b = (i, r, c, t, w) → flags (set_byte mask value b) =
     let f := F {| f_inner := i; f_hasrefs := r; f_context := c; f_wtype := t; f_width := w; f_size := s; f_capacity := k |} in
     (f_inner f, f_hasrefs f, f_context f, f_wtype f, f_width f)) →
  (∀ f, f_size (F f) = f_size f ∧ f_capacity (F f) = f_capacity f) → sets (λ h, Some (set_field mask value h)) F.
Proof.
  intros HF Hkeep h Hh. eexists. split; [done|]. split; [by apply set_field_header|]. apply fields_set; [done| |done].
  intros i r c t w E. apply HF; [|done]. destruct Hh as [Hl Hb]. unfold at_. destruct (nth_lookup_or_length h 4 0); [|lia]. by apply (Forall_lookup_1 _ h 4).
Qed.

Ltac with_flags := apply sets_field; [intros b i r c t w s cap Hb E; destruct (flags_set b i r c t w Hb E) as (H1 & H2 & H3 & H4 & H5)|done].

Lemma sets_inner v : sets (λ h, Some (set_header_is_inner_bptree_node v h)) (with_inner v).
Proof. with_flags. apply H1. Qed.
Lemma sets_hasrefs v : sets (λ h, Some (set_header_hasrefs v h)) (with_hasrefs v).
Proof. with_flags. apply H2. Qed.
Lemma sets_context v : sets (λ h, Some (set_header_context_flag v h)) (with_context v).
Proof. with_flags. apply H3. Qed.
Lemma sets_wtype v : sets (λ h, Some (set_header_wtype v h)) (with_wtype (wtype_value v)).
Proof. with_flags. apply H4. Qed.

Lemma sets_width width : In width widths → sets (set_header_width width) (with_width width).
Proof.
  intros Hw. assert (∃ k, bits_of 31 width 0 = Some k ∧ 0 <= k < 8 ∧ Z.shiftr (Z.shiftl 1 k) 1 = width) as (k & Ek & Hk & Ew).
  { by_width width; eexists; (split; [reflexivity|done]). }
  assert (sets (λ h, Some (set_field 0x7 k h)) (with_width width)) as Hs by (with_flags; rewrite H5, Ew; done).
  intros h Hh. unfold set_header_width. rewrite Ek. cbn [mbind option_bind]. replace (k <? 8) with true by bool_lia. by apply Hs.
Qed.

(** Three bytes of a number *)
Lemma three_byte_sum v : 0 <= v < 2 ^ 24 →
  Z.shiftl (Z.land (Z.shiftr v 16) 255) 16 + Z.shiftl (Z.land (Z.shiftr v 8) 255) 8 + Z.land v 255 = v.
Proof.
  intros Hv. change 255 with (Z.ones 8). rewrite !Z.land_ones, !Z.shiftl_mul_pow2, !Z.shiftr_div_pow2 by lia.
  change (2 ^ 8) with 256. change (2 ^ 16) with 65536. change (2 ^ 24) with 16777216 in Hv. Z.to_euclidean_division_equations; lia.
Qed.
Lemma byte_of v : is_byte (Z.land v 255).
Proof. change 255 with (Z.ones 8). rewrite Z.land_ones by lia. apply Z.mod_pos_bound. done. Qed.

Lemma sets_size size : 0 <= size <= max_array_size → sets (set_header_size size) (with_size size).
Proof.
  intros Hs h Hh. unfold set_header_size. replace (size <=? max_array_size) with true by bool_lia. cbn [check mbind option_bind]. eexists. split; [done|].
  pattern h. apply (header_cases h _ Hh). clear h Hh. intros b0 b1 b2 b3 b4 b5 b6 b7 Hh _. split.
  - destruct Hh as [_ Hb]. split; [done|]. repeat apply Forall_insert; (done || apply byte_of).
  - cbn [insert list_insert]. unfold read_fields, with_size.
    assert (get_size_from_header [b0; b1; b2; b3; b4; Z.land (Z.shiftr size 16) 255; Z.land (Z.shiftr size 8) 255; Z.land size 255] = size) as ->; [|reflexivity].
    unfold get_size_from_header, at_. cbn [nth]. apply three_byte_sum. unfold max_array_size in Hs. change (2 ^ 24) with 16777216. lia.
Qed.

Lemma sets_capacity capacity : 0 <= capacity <= Z.shiftl 0xffffff 3 → sets (set_header_capacity capacity) (with_capacity (capacity / 8 * 8)).
Proof.
  intros Hs h Hh. unfold set_header_capacity. replace (capacity <=? Z.shiftl 0xffffff 3) with true by bool_lia. cbn [check mbind option_bind]. eexists. split; [done|].
  pattern h. apply (header_cases h _ Hh). clear h Hh. intros b0 b1 b2 b3 b4 b5 b6 b7 Hh _. split.
  - destruct Hh as [_ Hb]. split; [done|]. repeat apply Forall_insert; (done || apply byte_of).
  - cbn [insert list_insert]. unfold read_fields, with_capacity.
    assert (get_capacity_from_header [Z.land (Z.shiftr capacity 19) 255; Z.land (Z.shiftr capacity 11) 255; Z.land (Z.shiftr capacity 3) 255; b3; b4; b5; b6; b7] = capacity / 8 * 8) as ->; [|reflexivity].
    unfold get_capacity_from_header, at_. cbn [nth].
    change (Z.shiftl 0xffffff 3) with (16777215 * 8) in Hs.
    assert (capacity / 8 = Z.shiftr capacity 3) as E by (by rewrite Z.shiftr_div_pow2 by lia).
    pose proof (three_byte_sum (capacity / 8) ltac:(change (2 ^ 24) with 16777216; Z.to_euclidean_division_equations; lia)) as T.
    rewrite E in *. rewrite !Z.shiftr_shiftr, !Z.shiftl_mul_pow2 in * by lia. change (3 + 16) with 19 in T. change (3 + 8) with 11 in T.
    change (2 ^ 19) with 524288. change (2 ^ 11) with 2048. change (2 ^ 3) with 8. change (2 ^ 16) with 65536 in T. change (2 ^ 8) with 256 in T. lia.
Qed.

(** ** Properties *)

(** A header that is initialized gives back its three flags, the kind and width of the elements, their number, and the capacity
    in units of eight bytes; setting one of them later changes no other. *)
Theorem header_round_trip (h : list Z) (inner refs context : bool) (wtype : WidthType) (width size capacity : Z) :
  length h = 8%nat → In width widths → 0 <= size <= max_array_size → 0 <= capacity <= Z.shiftl 0xffffff 3 →
  ∃ h', init_header h inner refs context wtype width size capacity = Some h' ∧ is_header h' ∧
    read_fields h' = {| f_inner := inner; f_hasrefs := refs; f_context := context; f_wtype := wtype_value wtype; f_width := width; f_size := size; f_capacity := capacity / 8 * 8 |} ∧
    sets (λ h, Some (set_header_hasrefs (negb refs) h)) (with_hasrefs (negb refs)) ∧
    ∀ size', 0 <= size' <= max_array_size → ∃ h'', set_header_size size' h' = Some h'' ∧ read_fields h'' = with_size size' (read_fields h').
Proof.
  intros Hl Hw Hs Hc. unfold init_header. rewrite drop_ge, app_nil_r by lia.
  assert (is_header (replicate 8 0)) as H0 by (split; [done|apply Forall_replicate; done]). set (h0 := replicate 8 0) in *. clearbody h0.
  destruct (sets_inner inner _ H0) as (h1 & [= <-] & H1 & E1). destruct (sets_hasrefs refs _ H1) as (h2 & [= <-] & H2 & E2).
  destruct (sets_context context _ H2) as (h3 & [= <-] & H3 & E3). destruct (sets_wtype wtype _ H3) as (h4 & [= <-] & H4 & E4).
  destruct (sets_width width Hw _ H4) as (h5 & -> & H5 & E5). cbn [mbind option_bind].
  destruct (sets_size size Hs _ H5) as (h6 & -> & H6 & E6). cbn [mbind option_bind].
  destruct (sets_capacity capacity Hc _ H6) as (h7 & -> & H7 & E7). exists h7. split_and!; [done|done| |apply sets_hasrefs|].
  - by rewrite E7, E6, E5, E4, E3, E2, E1.
  - intros size' Hs'. destruct (sets_size size' Hs' _ H7) as (h8 & E8 & _ & E9). exists h8. by split.
Qed.

(** The size in bytes of an array is a multiple of eight and does not overflow; after the header there is room for all
    elements of its width, and less than one word more. *)
Theorem byte_size_enough (size width : Z) : 0 <= size <= max_array_size → In width widths →
  ∃ n, calc_byte_size wtype_Bits size width = Some n ∧ n mod 8 = 0 ∧ 8 * (n - header_size) < width * size + 64 ∧
    ∀ data, Forall is_byte data → Z.of_nat (length data) = n - header_size → holds width data size.
Proof.
  intros Hs Hw. unfold max_array_size in Hs. assert (0 <= width <= 64) as Hwb by (by_width width; lia).
  unfold calc_byte_size. replace (size <? 0x1000000) with true by bool_lia. cbn [check mbind option_bind].
  assert (0 <= size * width <= 1073741760) as Hbits by nia. set (bits := size * width) in *.
  rewrite (wrap_small bits) by lia. rewrite (wadd_small bits) by lia. rewrite Z.shiftr_div_pow2 by lia. change (2 ^ 3) with 8.
  assert (0 <= (bits + 7) / 8 <= 134217721) as Hb1 by (Z.to_euclidean_division_equations; lia). rewrite (wadd_small ((bits + 7) / 8)) by lia.
  assert (∀ x, Z.ldiff x 7 = x / 8 * 8) as Hldiff.
  { intros x. change 7 with (Z.ones 3). rewrite Z.ldiff_ones_r, Z.shiftl_mul_pow2, Z.shiftr_div_pow2 by lia. done. }
  rewrite Hldiff. unfold header_size. eexists. split; [done|]. rewrite wadd_small by (Z.to_euclidean_division_equations; lia).
  split_and!.
  - rewrite Z.add_comm. change 8 with (1 * 8) at 1. rewrite <- Z.mul_add_distr_r. apply Z_mod_mult.
  - replace (width * size) with bits by (unfold bits; lia). Z.to_euclidean_division_equations; lia.
  - intros data Hd El. split; [done|]. rewrite El. replace (width * size) with bits by (unfold bits; lia). Z.to_euclidean_division_equations; lia.
Qed.

(** *** Tagged integers *)
Lemma from_word x : fits x → SafeInt.from_twos_compl t_int64 64 x = signed 64 x ∧ wrap (signed 64 x) = x.
Proof.
  intros Hx. assert (wrap (signed 64 x) = x) as E by (unfold wrap; change W64 with (2 ^ 64); rewrite signed_mod by done; by apply Z.mod_small). split; [|done].
  rewrite <- E at 1. change (wrap (signed 64 x)) with (SafeInt.cast_to_unsigned 64 (signed 64 x)). apply from_twos_compl_spec; [done|done|done|].
  pose proof (signed_bounds 64 x eq_refl). change (64 - 1) with 63 in H. unfold in_type. change (lim_min t_int64) with (- 2 ^ 63). change (lim_max t_int64) with (2 ^ 63 - 1). bool_lia.
Qed.

Lemma lowest_bit x : fits x → (Z.land (signed 64 x) 1 =? 0) = (x mod 2 =? 0).
Proof.
  intros Hx. f_equal. change 1 with (Z.ones 1) at 1. rewrite Z.land_ones by lia. change (2 ^ 1) with 2. pose proof (signed_mod 64 x eq_refl) as E.
  change (2 ^ 64) with 18446744073709551616 in E. Z.to_euclidean_division_equations; lia.
Qed.

(** A tagged integer and a reference are what they were made from, and told apart. *)
Theorem ref_or_tagged_correct (i r : Z) : 0 <= i < 2 ^ 63 → fits r → r mod 8 = 0 →
  (∃ v, RefOrTagged.make_tagged i = Some v ∧ RefOrTagged.is_tagged v = true ∧ RefOrTagged.get_as_int v = i) ∧
  (∃ v, RefOrTagged.make_ref r = Some v ∧ RefOrTagged.is_ref v = true ∧ RefOrTagged.get_as_ref v = Some r).
Proof.
  intros Hi Hr H8. change (2 ^ 63) with 9223372036854775808 in Hi. split.
  - assert (Z.lor (wrap (Z.shiftl i 1)) 1 = 2 * i + 1) as E.
    { rewrite Z.shiftl_mul_pow2, wrap_small by lia. change (2 ^ 1) with 2. rewrite Z.mul_comm. by destruct i as [|p|p]; [|reflexivity|lia]. }
    unfold RefOrTagged.make_tagged. change (Z.shiftl 1 63) with 9223372036854775808. replace (i <? 9223372036854775808) with true by bool_lia. cbn [check mbind option_bind].
    assert (fits (2 * i + 1)) as Hf by (unfold fits; lia). rewrite E. destruct (from_word _ Hf) as [-> Ew]. eexists. split; [done|]. split.
    + unfold RefOrTagged.is_tagged, RefOrTagged.is_ref. rewrite lowest_bit by done. replace ((2 * i + 1) mod 2) with 1 by (Z.to_euclidean_division_equations; lia). done.
    + unfold RefOrTagged.get_as_int. rewrite Ew. change 0xFFFFFFFFFFFFFFFF with (Z.ones 64). rewrite Z.land_ones, Z.shiftr_div_pow2 by lia.
      rewrite Z.mod_small by (unfold fits in Hf; lia). change (2 ^ 1) with 2. Z.to_euclidean_division_equations; lia.
  - unfold RefOrTagged.make_ref, RefOrTagged.from_ref. rewrite H8. cbn [Z.eqb check mbind option_bind].
    destruct (from_word _ Hr) as [-> Ew]. eexists. split; [done|]. split.
    + unfold RefOrTagged.is_ref. rewrite lowest_bit by done. replace (r mod 2) with 0 by (Z.to_euclidean_division_equations; lia). done.
    + unfold RefOrTagged.get_as_ref, Direct.to_ref. replace (signed 64 r mod 8) with 0; [cbn [Z.eqb check mbind option_bind]; by rewrite Ew|].
      pose proof (signed_mod 64 r eq_refl) as E. change (2 ^ 64) with 18446744073709551616 in E. Z.to_euclidean_division_equations; lia.
Qed.

(** ** Instances *)
Lemma header_witness : ∃ h, Header.init_header (replicate 8 170) false true false Header.wtype_Multiply 16 1000 2053 = Some h ∧
  h = [0; 1; 0; 0; 77; 0; 3; 232] ∧ f_capacity (read_fields h) = 2048.
Proof.
  destruct (header_round_trip (replicate 8 170) false true false Header.wtype_Multiply 16 1000 2053 eq_refl) as (h & E & _ & R & _); [by vm_compute; tauto|by vm_compute|by vm_compute|].
  exists h. split; [exact E|]. split; [vm_compute in E; by injection E|by rewrite R].
Defined.
