(* ===== verification/Group.v ===== *)
(** * Groups of tables, as the object store sees them

    The tables of a file are kept by the Realm core, which is compiled.  What the object store
    asks of it is a class: the tables that can be observed, and the functions of
    core/realm/group.hpp, core/realm/table.hpp and core/realm/sync/object.hpp that change them, with
    laws that say what their documentation says.  A table accessor is the name of its table: names are unique, and an
    accessor stays with its table when others move. *)

From Stdlib Require Import String.
From stdpp Require Import strings.
From S2P Require Import Prelude LogStream.
Open Scope Z_scope.

(** ** What can be observed *)

(** The type of a column: the target of a link is the name of a table, the columns of a subtable are [d_sub]. *)
#[warnings="-register-all"]
Inductive Descriptor := Desc { d_type : DataType; d_name : string; d_nullable : bool; d_target : string; d_sub : list Descriptor }.

Record Column (V : Type) := MkColumn { c_desc : Descriptor; c_indexed : bool; c_values : list V }.
Arguments MkColumn {V}.
Arguments c_desc {V}.
Arguments c_indexed {V}.
Arguments c_values {V}.
Record Table (V : Type) := MkTable { t_name : string; t_columns : list (Column V); t_rows : nat }.
Arguments MkTable {V}.
Arguments t_name {V}.
Arguments t_columns {V}.
Arguments t_rows {V}.

(** The values of the columns that the object store reads itself, and the value of a new row *)
Class Values (V : Type) := {
  of_int : Z → V; to_int : V → Z;
  of_string : string → V; to_string : V → string;
  default_of : Descriptor → V }.

Class Core (G V : Type) := {
  tables : G → list (Table V);
  core_add_table : string → G → G;
  core_remove_table : string → G → G;
  core_insert_column : string → nat → Descriptor → G → G;
  core_remove_column : string → nat → G → G;
  core_rename_column : string → nat → string → G → G;
  core_set_search_index : string → nat → bool → G → G;
  core_add_empty_row : string → G → G;
  core_move_last_over : string → nat → G → G;
  core_set : string → nat → nat → V → G → G;
  core_distinct_view_size : string → nat → G → nat;
  sync_has_object_ids : bool;
  sync_create_table : string → G → G;
  sync_create_table_with_primary_key : string → DataType → string → bool → G → G;
  sync_set_up_basic_permissions : bool → G → G;
  sync_add_user_to_role : string → string → G → G;
  sync_set_class_permissions_for_role : string → string → Z → G → G }.

(** ** Their effects *)

Section effects.
Context {V : Type} {VA : Values V}.

Definition new_column (d : Descriptor) (rows : nat) : Column V := MkColumn d false (replicate rows (default_of d)).
Definition with_columns (f : list (Column V) → list (Column V)) (t : Table V) : Table V := MkTable (t_name t) (f (t_columns t)) (t_rows t).
Definition insert_at {A} (i : nat) (x : A) (l : list A) : list A := take i l ++ x :: drop i l.

Definition set_name (n : string) (d : Descriptor) : Descriptor := Desc (d_type d) n (d_nullable d) (d_target d) (d_sub d).
Definition set_nullable (b : bool) (d : Descriptor) : Descriptor := Desc (d_type d) (d_name d) b (d_target d) (d_sub d).
Definition rename_desc (n : string) (c : Column V) : Column V := MkColumn (set_name n (c_desc c)) (c_indexed c) (c_values c).
Definition with_index (b : bool) (c : Column V) : Column V := MkColumn (c_desc c) b (c_values c).
Definition set_cell (r : nat) (v : V) (c : Column V) : Column V := MkColumn (c_desc c) (c_indexed c) (<[r := v]> (c_values c)).
Definition add_cell (c : Column V) : Column V := MkColumn (c_desc c) (c_indexed c) (c_values c ++ [default_of (c_desc c)]).
Definition drop_cell (r : nat) (c : Column V) : Column V :=
  MkColumn (c_desc c) (c_indexed c)
    (match last (c_values c) with Some v => removelast (<[r := v]> (c_values c)) | None => [] end).

Definition add_row (t : Table V) : Table V := MkTable (t_name t) (add_cell <$> t_columns t) (S (t_rows t)).
Definition drop_row (r : nat) (t : Table V) : Table V := MkTable (t_name t) (drop_cell r <$> t_columns t) (pred (t_rows t)).

Definition on_table (n : string) (f : Table V → Table V) (ts : list (Table V)) : list (Table V) :=
  (λ t, if bool_decide (t_name t = n) then f t else t) <$> ts.

Definition named (n : string) (t : Table V) : bool := bool_decide (t_name t = n).
Definition find_table (n : string) (ts : list (Table V)) : option (Table V) := ts !! find_if (named n) ts.
Definition find_column (n : string) (t : Table V) : nat := find_if (λ c, bool_decide (d_name (c_desc c) = n)) (t_columns t).

Definition is_link (d : Descriptor) : bool := bool_decide (d_type d = type_Link) || bool_decide (d_type d = type_LinkList).
End effects.

(** The names that the object store and the core agree on *)
Definition object_id_column_name : string := "!OID".
Definition pk_table_name : string := "pk".
Definition class_prefix : string := "class_".

(** The columns with which a table begins that is created through sync: at most one for the ids of the objects *)
Definition id_columns {V} (cs : list (Column V)) : Prop := Forall (λ c, d_name (c_desc c) = object_id_column_name) cs.

(** The row that names the primary key of a class *)
Definition add_key_row {V} {VA : Values V} (cls key : string) (t : Table V) : Table V :=
  let r := t_rows t in
  let t := add_row t in
  with_columns (λ cs, alter (set_cell r (of_string key)) 1%nat (alter (set_cell r (of_string cls)) 0%nat cs)) t.

Class CoreLaws (G V : Type) {VA : Values V} {CG : Core G V} := {
  to_of_int z : - 2 ^ 63 <= z < 2 ^ 63 → to_int (of_int z) = z;
  to_of_string s : to_string (of_string s) = s;
  names_unique_law g : NoDup (t_name <$> tables g);
  rows_law g t : t ∈ tables g → Forall (λ c, length (c_values c) = t_rows t) (t_columns t);
  add_table_law n g : find_table n (tables g) = None → tables (core_add_table n g) ≡ₚ MkTable n [] 0%nat :: tables g;
  remove_table_law n g : tables (core_remove_table n g) ≡ₚ filter (λ t, t_name t ≠ n) (tables g);
  insert_column_law n i d g t : find_table n (tables g) = Some t → (i <= length (t_columns t))%nat →
    tables (core_insert_column n i d g) ≡ₚ on_table n (λ t, with_columns (insert_at i (new_column d (t_rows t))) t) (tables g);
  remove_column_law n i g t : find_table n (tables g) = Some t → (i < length (t_columns t))%nat →
    tables (core_remove_column n i g) ≡ₚ on_table n (with_columns (delete i)) (tables g);
  rename_column_law n i m g t : find_table n (tables g) = Some t → (i < length (t_columns t))%nat →
    tables (core_rename_column n i m g) ≡ₚ on_table n (with_columns (alter (rename_desc m) i)) (tables g);
  search_index_law n i b g t : find_table n (tables g) = Some t → (i < length (t_columns t))%nat →
    tables (core_set_search_index n i b g) ≡ₚ on_table n (with_columns (alter (with_index b) i)) (tables g);
  add_empty_row_law n g t : find_table n (tables g) = Some t → t_columns t ≠ [] → tables (core_add_empty_row n g) ≡ₚ on_table n add_row (tables g);
  move_last_over_law n r g t : find_table n (tables g) = Some t → (r < t_rows t)%nat → Forall (λ c, is_link (c_desc c) = false) (t_columns t) →
    tables (core_move_last_over n r g) ≡ₚ on_table n (drop_row r) (tables g);
  set_law n i r v g t : find_table n (tables g) = Some t → (i < length (t_columns t))%nat → (r < t_rows t)%nat →
    tables (core_set n i r v g) ≡ₚ on_table n (with_columns (alter (set_cell r v) i)) (tables g);
  distinct_law n i g t c : find_table n (tables g) = Some t → t_columns t !! i = Some c →
    core_distinct_view_size n i g = t_rows t ↔ NoDup (c_values c);
  create_table_law n g : (∀ t, find_table n (tables g) = Some t → tables (sync_create_table n g) ≡ₚ tables g) ∧
    (find_table n (tables g) = None → ∃ ids, id_columns ids ∧ tables (sync_create_table n g) ≡ₚ MkTable n ids 0 :: tables g);
  create_with_key_law cls ty key nullable g : let n := (class_prefix ++ cls)%string in
    (∀ t, find_table n (tables g) = Some t → tables (sync_create_table_with_primary_key n ty key nullable g) ≡ₚ tables g) ∧
    (find_table n (tables g) = None → find_table pk_table_name (tables g) ≠ None → ∃ ids, id_columns ids ∧
      tables (sync_create_table_with_primary_key n ty key nullable g) ≡ₚ
        MkTable n (ids ++ [with_index true (new_column (Desc ty key nullable "" []) 0)]) 0 :: on_table pk_table_name (add_key_row cls key) (tables g)) }.

(** ** Groups as lists of tables

    The class can be implemented: a group is the list of its tables, and a change that would break the form of the list is refused. *)
Module Lists.
Inductive value := VNull | VInt (z : Z) | VString (s : string) | VRow (r : nat).
#[export] Instance value_dec : EqDecision value.
Proof. solve_decision. Defined.
#[export] Instance value_values : Values value := {|
  of_int := VInt; to_int v := match v with VInt z => z | _ => 0 end;
  of_string := VString; to_string v := match v with VString s => s | _ => ""%string end;
  default_of d := if d_nullable d then VNull else match d_type d with type_Int => VInt 0 | type_String => VString "" | _ => VNull end |}.

Definition rows_fit (t : Table value) : Prop := Forall (λ c, length (c_values c) = t_rows t) (t_columns t).
#[export] Instance rows_fit_dec t : Decision (rows_fit t).
Proof. unfold rows_fit. apply _. Defined.
Definition well_formed (ts : list (Table value)) : Prop := NoDup (t_name <$> ts) ∧ Forall rows_fit ts.
#[export] Instance well_formed_dec ts : Decision (well_formed ts).
Proof. unfold well_formed. apply _. Defined.

Record group := Group { group_tables : list (Table value); group_form : bool_decide (well_formed group_tables) = true }.
Definition assign (ts : list (Table value)) (g : group) : group :=
  match Bool.bool_dec (bool_decide (well_formed ts)) true with left H => Group ts H | right _ => g end.
Lemma assigned ts g : well_formed ts → group_tables (assign ts g) = ts.
Proof. intros H. unfold assign. destruct (Bool.bool_dec _ true) as [E|E]; [done|]. by rewrite bool_decide_true in E. Qed.
Lemma group_well_formed g : well_formed (group_tables g).
Proof. exact (bool_decide_eq_true_1 _ (group_form g)). Qed.

Definition update (n : string) (f : Table value → Table value) (g : group) : group := assign (on_table n f (group_tables g)) g.
Definition new_table (t : Table value) (g : group) : group :=
  match find_table (t_name t) (group_tables g) with Some _ => g | None => assign (t :: group_tables g) g end.

#[export] Instance group_core : Core group value := {|
  tables := group_tables;
  core_add_table n := new_table (MkTable n [] 0);
  core_remove_table n g := assign (filter (λ t, t_name t ≠ n) (group_tables g)) g;
  core_insert_column n i d := update n (λ t, with_columns (insert_at i (new_column d (t_rows t))) t);
  core_remove_column n i := update n (with_columns (delete i));
  core_rename_column n i m := update n (with_columns (alter (rename_desc m) i));
  core_set_search_index n i b := update n (with_columns (alter (with_index b) i));
  core_add_empty_row n := update n add_row;
  core_move_last_over n r := update n (drop_row r);
  core_set n i r v := update n (with_columns (alter (set_cell r v) i));
  core_distinct_view_size n i g :=
    default 0%nat (t ← find_table n (group_tables g); c ← t_columns t !! i; Some (length (remove_dups (c_values c))));
  sync_has_object_ids := false;
  sync_create_table n := new_table (MkTable n [] 0);
  sync_create_table_with_primary_key n ty key nullable g :=
    match find_table n (group_tables g) with
    | Some _ => g
    | None =>
        let cls := String.substring (String.length class_prefix) (String.length n) n in
        assign (MkTable n [with_index true (new_column (Desc ty key nullable "" []) 0)] 0 :: on_table pk_table_name (add_key_row cls key) (group_tables g)) g
    end;
  sync_set_up_basic_permissions _ g := g;
  sync_add_user_to_role _ _ g := g;
  sync_set_class_permissions_for_role _ _ _ g := g |}.

Lemma on_table_names n f (ts : list (Table value)) : (∀ t, t_name (f t) = t_name t) → t_name <$> on_table n f ts = t_name <$> ts.
Proof. intros Hf. unfold on_table. rewrite <- list_fmap_compose. apply list_fmap_ext. intros _ t _. cbn. case_bool_decide; [apply Hf|done]. Qed.
Lemma updated n f g : (∀ t, t_name (f t) = t_name t) → (∀ t, t_name t = n → t ∈ group_tables g → rows_fit t → rows_fit (f t)) → group_tables (update n f g) = on_table n f (group_tables g).
Proof.
  intros Hn Hf. unfold update. apply assigned. destruct (group_well_formed g) as [H1 H2]. split; [by rewrite on_table_names|].
  apply Forall_forall. intros t (u & -> & Hu)%list_elem_of_fmap. rewrite Forall_forall in H2. specialize (H2 u Hu). case_bool_decide; [by apply Hf|done].
Qed.
Lemma fit_columns f (t : Table value) : (∀ c, c ∈ t_columns t → length (c_values c) = t_rows t → length (c_values (f c)) = t_rows t) → ∀ i, rows_fit t → rows_fit (with_columns (alter f i) t).
Proof.
  intros Hf i Ht. unfold rows_fit in *. cbn. rewrite Forall_forall in Ht. apply Forall_lookup_2. intros j c Hc. destruct (decide (j = i)) as [->|Hne].
  - rewrite list_lookup_alter_eq in Hc. destruct (t_columns t !! i) as [c'|] eqn:E; [|done]. injection Hc as <-. apply list_elem_of_lookup_2 in E. by apply Hf; [|apply Ht].
  - rewrite list_lookup_alter_ne in Hc by done. apply Ht. by eapply list_elem_of_lookup_2.
Qed.
Lemma not_found n (ts : list (Table value)) : find_table n ts = None → n ∉ t_name <$> ts.
Proof.
  unfold find_table. destruct (find_if_spec (named n) ts) as [[_ Hall]|(l1 & a & l2 & -> & -> & _)]; [|by rewrite list_lookup_middle].
  intros _ (t & -> & Ht)%list_elem_of_fmap. rewrite Forall_forall in Hall. specialize (Hall t Ht). unfold named in Hall. by rewrite bool_decide_true in Hall.
Qed.
Lemma found n (ts : list (Table value)) t : find_table n ts = Some t → t ∈ ts ∧ t_name t = n.
Proof.
  unfold find_table. destruct (find_if_spec (named n) ts) as [[-> _]|(l1 & a & l2 & -> & -> & _ & Ha)]; [by rewrite lookup_ge_None_2|]. rewrite list_lookup_middle by done.
  intros [= ->]. split; [apply elem_of_app; right; by left|]. unfold named in Ha. by case_bool_decide.
Qed.
Lemma remove_dups_length (l : list value) : (length (remove_dups l) <= length l)%nat ∧ (length (remove_dups l) = length l ↔ NoDup l).
Proof.
  induction l as [|x l [IH1 IH2]]; [split; [done|]; split; [constructor|done]|]. cbn [remove_dups]. rewrite NoDup_cons. case_decide as Hx.
  - split; [cbn; lia|]. split; [cbn; lia|]. intros [Hn _]. done.
  - cbn. split; [lia|]. rewrite <- IH2. split; [intros E; split; [done|lia]|intros [_ ->]; done].
Qed.
Lemma drop_cell_length r (c : Column value) : (r < length (c_values c))%nat → length (c_values (drop_cell r c)) = pred (length (c_values c)).
Proof.
  intros Hr. cbn. destruct (last (c_values c)) as [v|] eqn:El; [|apply last_None in El; rewrite El in Hr; cbn in Hr; lia].
  rewrite removelast_firstn_len, length_take, length_insert. lia.
Qed.
Lemma class_of_prefixed cls : String.substring (String.length class_prefix) (String.length (class_prefix ++ cls)) (class_prefix ++ cls) = cls.
Proof.
  assert (∀ s k, (String.length s <= k)%nat → String.substring 0 k s = s) as H.
  { intros s. induction s as [|a s IH]; intros k Hk; [by destruct k|]. destruct k as [|k]; simpl in Hk; [lia|]. simpl. rewrite IH; [done|lia]. }
  unfold class_prefix. simpl. apply H. change ("" ++ cls)%string with cls. lia.
Qed.

Lemma same_table g t u : t ∈ group_tables g → u ∈ group_tables g → t_name t = t_name u → t = u.
Proof.
  intros Ht Hu E. destruct (group_well_formed g) as [Hnd _]. apply list_elem_of_lookup in Ht as [i Hi], Hu as [j Hj].
  assert (i = j) as ->; [|congruence]. eapply (NoDup_lookup _ i j); [exact Hnd|..]; rewrite list_lookup_fmap, ?Hi, ?Hj; simpl; by f_equal.
Qed.
Lemma fit_columns2 r v w (t : Table value) : rows_fit t → rows_fit (with_columns (λ cs, alter (set_cell r v) 1%nat (alter (set_cell r w) 0%nat cs)) t).
Proof.
  intros Ht. assert (∀ r v i (u : Table value), rows_fit u → rows_fit (with_columns (alter (set_cell r v) i) u)) as Hset.
  { intros r' v' i u. apply fit_columns. intros c _ Hc. cbn. by rewrite length_insert. }
  exact (Hset r v 1%nat _ (Hset r w 0%nat t Ht)).
Qed.

#[export] Instance group_laws : CoreLaws group value.
Proof.
  split.
  - done.
  - done.
  - intros g. apply group_well_formed.
  - intros g t Ht. destruct (group_well_formed g) as [_ Hf]. rewrite Forall_forall in Hf. by apply Hf.
  - intros n g Hn. unfold tables, core_add_table, group_core in *. unfold new_table. cbn [t_name]. rewrite Hn. rewrite assigned; [done|].
    destruct (group_well_formed g) as [H1 H2]. split; [apply NoDup_cons; split; [by apply not_found|done]|]. constructor; [by constructor|done].
  - intros n g. cbn. rewrite assigned; [done|]. destruct (group_well_formed g) as [H1 H2]. split.
    + eapply sublist_NoDup; [exact H1|apply (fmap_sublist t_name), sublist_filter].
    + apply Forall_forall. intros t [_ Ht]%list_elem_of_filter. rewrite Forall_forall in H2. by apply H2.
  - intros n i d g t Ht Hi. cbn. rewrite updated; [done|done|]. intros u _ _ Hu. unfold rows_fit in *. cbn. unfold insert_at. apply Forall_app. split; [by apply Forall_take|].
    constructor; [cbn; by rewrite length_replicate|by apply Forall_drop].
  - intros n i g t Ht Hi. cbn. rewrite updated; [done|done|]. intros u _ _ Hu. unfold rows_fit in *. cbn. by apply Forall_delete.
  - intros n i m g t Ht Hi. cbn. rewrite updated; [done|done|]. intros u _ _. by apply fit_columns.
  - intros n i b g t Ht Hi. cbn. rewrite updated; [done|done|]. intros u _ _. by apply fit_columns.
  - intros n g t Ht Hcs. cbn. rewrite updated; [done|done|]. intros u _ _ Hu. unfold rows_fit in *. cbn. rewrite Forall_fmap. eapply Forall_impl; [exact Hu|].
    intros c Hc. cbn. rewrite length_app, Hc. cbn. lia.
  - intros n r g t Ht Hr _. cbn. rewrite updated; [done|done|]. intros u Hun Hin Hu. unfold rows_fit in *. cbn [drop_row t_columns t_rows]. rewrite Forall_fmap.
    assert (u = t) as -> by (apply (same_table g); [done|by apply (found n)|by rewrite Hun; destruct (found _ _ _ Ht)]).
    eapply Forall_impl; [exact Hu|]. intros c Hc. change (length (c_values (drop_cell r c)) = pred (t_rows t)). rewrite drop_cell_length by (by rewrite Hc). by rewrite Hc.
  - intros n i r v g t Ht Hi Hr. cbn. rewrite updated; [done|done|]. intros u _ _. apply fit_columns. intros c _ Hc. cbn. by rewrite length_insert.
  - intros n i g t c Ht Hc. change (find_table n (group_tables g) = Some t) in Ht. unfold core_distinct_view_size, group_core. rewrite Ht. cbn [mbind option_bind]. rewrite Hc. cbn [mbind option_bind default]. destruct (found _ _ _ Ht) as [Hin _]. destruct (group_well_formed g) as [_ Hf]. rewrite Forall_forall in Hf.
    specialize (Hf t Hin). unfold rows_fit in Hf. rewrite Forall_forall in Hf. rewrite <- (Hf c); [apply remove_dups_length|]. by eapply list_elem_of_lookup_2.
  - intros n g. unfold sync_create_table, tables, group_core, new_table. cbn [t_name]. split; [by intros t ->|]. intros Hn. exists []. split; [constructor|]. rewrite Hn, assigned; [done|].
    destruct (group_well_formed g) as [H1 H2]. split; [apply NoDup_cons; split; [by apply not_found|done]|]. constructor; [by constructor|done].
  - intros cls ty key nullable g n. unfold sync_create_table_with_primary_key, tables, group_core. split; [by intros t ->|]. intros Hn Hpk. exists []. split; [constructor|]. rewrite Hn. unfold n. rewrite class_of_prefixed.
    rewrite assigned; [done|]. destruct (group_well_formed g) as [H1 H2]. split.
    + rewrite fmap_cons. cbn [t_name]. rewrite on_table_names by done. apply NoDup_cons. split; [by apply not_found|done].
    + constructor; [by repeat constructor|]. apply Forall_forall. intros t (u & -> & Hu)%list_elem_of_fmap. rewrite Forall_forall in H2. specialize (H2 u Hu). case_bool_decide; [|done].
      unfold add_key_row. apply fit_columns2. unfold rows_fit in *. cbn. rewrite Forall_fmap. eapply Forall_impl; [exact H2|]. intros c Hc. cbn. rewrite length_app, Hc. cbn. lia.
Qed.
End Lists.
