(* ===== verification/ObjectStore.v ===== *)
(** * Schemas in a group

    Model of object_store.cpp and of the constructor of ObjectSchema from a group: the metadata tables, the columns
    of a class, the application of changes in every mode, and the schema that a group holds.
    A function that changes the group takes and gives it; what needs a table or a column that is not there is stuck. *)

From Stdlib Require Import String.
From stdpp Require Import strings.
From S2P Require Import Prelude ChangeCalculation Schema SchemaCompare LogStream Group.
Import Class_ Compare.
Open Scope string_scope.
Open Scope list_scope.
Open Scope Z_scope.

Inductive store_exception :=
  | SchemaException (e : schema_exception)
  | DuplicatePrimaryKeyValue (object_type property : string)
  | LogicError (e : exception).

Inductive SchemaMode := Automatic | Immutable | ReadOnlyAlternative | ResetFile | Additive | Manual.
#[export] Instance SchemaMode_dec : EqDecision SchemaMode.
Proof. solve_decision. Defined.

Definition with_type (p : Property) (t : PropertyType) : Property :=
  MkProperty (name p) (public_name p) t (object_type p) (link_origin_property_name p) (is_primary p) (is_indexed p) (table_column p).

Module Store.
(** ** Names *)
Definition NotVersioned : Z := npos.
Definition ArrayColumnName : string := "!ARRAY_VALUE".
Definition c_metadataTableName : string := "metadata".
Definition c_versionColumnName : string := "version".
Definition c_primaryKeyTableName : string := pk_table_name.
Definition c_primaryKeyObjectClassColumnName : string := "pk_table".
Definition c_primaryKeyPropertyNameColumnName : string := "pk_property".

(** [begins_with] and [substr] *)
Fixpoint strip_prefix (p s : string) : option string :=
  match p, s with
  | "", _ => Some s
  | String a p, String b s => if bool_decide (a = b) then strip_prefix p s else None
  | _, "" => None
  end.
Definition object_type_for_table_name (table_name : string) : string := default "" (strip_prefix class_prefix table_name).
Definition table_name_for_object_type (object_type : string) : string := class_prefix ++ object_type.

(** ** Types *)
Definition to_core_type (t : PropertyType) : option DataType :=
  let t := base_type t in
  if t =? PT_Int then Some type_Int else if t =? PT_Bool then Some type_Bool else if t =? PT_Float then Some type_Float
  else if t =? PT_Double then Some type_Double else if t =? PT_String then Some type_String
  else if t =? PT_Date then Some type_Timestamp else if t =? PT_Data then Some type_Binary else None.

(** [ObjectSchema::from_core_type] *)
Fixpoint from_core_type (d : Descriptor) : option PropertyType :=
  let optional := if d_nullable d then PT_Nullable else 0 in
  match d_type d with
  | type_Int => Some (Z.lor PT_Int optional)
  | type_Float => Some (Z.lor PT_Float optional)
  | type_Double => Some (Z.lor PT_Double optional)
  | type_Bool => Some (Z.lor PT_Bool optional)
  | type_String => Some (Z.lor PT_String optional)
  | type_Binary => Some (Z.lor PT_Data optional)
  | type_Timestamp => Some (Z.lor PT_Date optional)
  | type_Mixed => Some (Z.lor PT_Any optional)
  | type_Link => Some (Z.lor PT_Object PT_Nullable)
  | type_LinkList => Some (Z.lor PT_Object PT_Array)
  | type_Table => match d_sub d with sub :: _ => t ← from_core_type sub; Some (Z.lor t PT_Array) | [] => None end
  | type_OldDateTime => None
  end.

Definition to_int64 (v : Z) : Z := if v <? 2 ^ 63 then v else v - 2 ^ 64.

Section store.
Context {G V : Type} {VA : Values V} {CG : Core G V}.

(** ** Calls of the core, which need their table and column *)
Definition get_table (n : string) (g : G) : option (Table V) := find_table n (tables g).
Definition position (i : Z) (n : nat) : option nat := if (0 <=? i) && (i <? Z.of_nat n) then Some (Z.to_nat i) else None.
Definition get_column (i : Z) (t : Table V) : option (Column V) := k ← position i (length (t_columns t)); t_columns t !! k.
Definition get_column_index (n : string) (t : Table V) : Z :=
  if (find_column n t <? length (t_columns t))%nat then Z.of_nat (find_column n t) else npos.

Definition add_columns (table : string) (i : Z) (d : Descriptor) (g : G) : option G :=
  t ← get_table table g; k ← position i (S (length (t_columns t))); Some (core_insert_column table k d g).
Definition at_column (table : string) (i : Z) (f : nat → G → G) (g : G) : option G :=
  t ← get_table table g; k ← position i (length (t_columns t)); Some (f k g).
Definition remove_column (table : string) (i : Z) : G → option G := at_column table i (core_remove_column table).
Definition rename_column (table : string) (i : Z) (n : string) : G → option G := at_column table i (λ k, core_rename_column table k n).
Definition add_search_index (table : string) (i : Z) : G → option G := at_column table i (λ k, core_set_search_index table k true).
Definition remove_search_index (table : string) (i : Z) : G → option G := at_column table i (λ k, core_set_search_index table k false).
Definition get_or_add_table (n : string) (g : G) : G := match get_table n g with Some _ => g | None => core_add_table n g end.

(** The getters and setters of a type need a column of that type. *)
Definition typed_column (ty : DataType) (table : string) (i : Z) (g : G) : option (nat * Table V * Column V) :=
  t ← get_table table g; k ← position i (length (t_columns t)); c ← t_columns t !! k;
  if bool_decide (d_type (c_desc c) = ty) then Some (k, t, c) else None.
Definition get_value (ty : DataType) (table : string) (i : Z) (row : nat) (g : G) : option V :=
  '(_, c) ← typed_column ty table i g; c_values c !! row.
Definition set_value (ty : DataType) (table : string) (i : Z) (row : nat) (v : V) (g : G) : option G :=
  '(k, t, _) ← typed_column ty table i g; REALM_ASSERT (Nat.ltb row (t_rows t));; Some (core_set table k row v g).
Definition find_first_string (table : string) (i : Z) (s : string) (g : G) : option (option nat) :=
  '(_, c) ← typed_column type_String table i g;
  let row := find_if (λ v, bool_decide (to_string v = s)) (c_values c) in
  Some (if (row <? length (c_values c))%nat then Some row else None).

(** ** The metadata tables *)
Definition create_metadata_tables (g : G) : option G :=
  let g := get_or_add_table c_primaryKeyTableName g in
  let g := get_or_add_table c_metadataTableName g in
  m ← get_table c_metadataTableName g;
  g ← (if decide (t_columns m = []) then
         g ← add_columns c_metadataTableName 0 (Desc type_Int c_versionColumnName false "" []) g;
         set_value type_Int c_metadataTableName 0 0 (of_int (to_int64 NotVersioned)) (core_add_empty_row c_metadataTableName g)
       else Some g);
  pk ← get_table c_primaryKeyTableName g;
  g ← (if decide (t_columns pk = []) then
         g ← add_columns c_primaryKeyTableName 0 (Desc type_String c_primaryKeyObjectClassColumnName false "" []) g;
         add_columns c_primaryKeyTableName 1 (Desc type_String c_primaryKeyPropertyNameColumnName false "" []) g
       else Some g);
  add_search_index c_primaryKeyTableName 0 g.

Definition set_version (version : Z) (g : G) : option G := set_value type_Int c_metadataTableName 0 0 (of_int (to_int64 version)) g.
Definition set_schema_version (version : Z) (g : G) : option G := g ← create_metadata_tables g; set_version version g.
Definition get_schema_version (g : G) : option Z :=
  match get_table c_metadataTableName g with
  | None => Some NotVersioned
  | Some t => if decide (t_columns t = []) then Some NotVersioned else v ← get_value type_Int c_metadataTableName 0 0 g; Some (wrap (to_int v))
  end.

Definition get_primary_key_for_object (object_type : string) (g : G) : option string :=
  match get_table c_primaryKeyTableName g with
  | None => Some ""
  | Some _ =>
      row ← find_first_string c_primaryKeyTableName 0 object_type g;
      match row with
      | None => Some ""
      | Some row => v ← get_value type_String c_primaryKeyTableName 1 row g; Some (to_string v)
      end
  end.

Definition set_primary_key_for_object (object_type primary_key : string) (g : G) : option G :=
  row ← find_first_string c_primaryKeyTableName 0 object_type g;
  if sync_has_object_ids then
    if decide (primary_key = "") then REALM_ASSERT (bool_decide (row = None));; Some g
    else r ← row; v ← get_value type_String c_primaryKeyTableName 1 r g;
         REALM_ASSERT (bool_decide (to_string v = primary_key));; Some g
  else
  match row with
  | None =>
      if decide (primary_key = "") then Some g else
      t ← get_table c_primaryKeyTableName g;
      let row := t_rows t in
      let g := core_add_empty_row c_primaryKeyTableName g in
      g ← set_value type_String c_primaryKeyTableName 0 row (of_string object_type) g;
      set_value type_String c_primaryKeyTableName 1 row (of_string primary_key) g
  | Some row =>
      if decide (primary_key = "") then Some (core_move_last_over c_primaryKeyTableName row g)
      else set_value type_String c_primaryKeyTableName 1 row (of_string primary_key) g
  end.

(** ** Columns *)
Definition insert_column (table : string) (p : Property) (col_ndx : Z) (g : G) : option G :=
  REALM_ASSERT (negb (type_eqb (type p) PT_LinkingObjects));;
  if type_eqb (type p) PT_Object then
    let target_name := table_name_for_object_type (object_type p) in
    _ ← get_table target_name g;
    add_columns table col_ndx (Desc (if is_array (type p) then type_LinkList else type_Link) (name p) false target_name []) g
  else if is_array (type p) then
    ty ← to_core_type (base_type (type p));
    add_columns table col_ndx (Desc type_Table (name p) false "" [Desc ty ArrayColumnName (is_nullable (type p)) "" []]) g
  else
    ty ← to_core_type (type p);
    g ← add_columns table col_ndx (Desc ty (name p) (is_nullable (type p)) "" []) g;
    if Props.requires_index p then add_search_index table col_ndx g else Some g.

Definition add_column (table : string) (p : Property) (g : G) : option G :=
  t ← get_table table g; insert_column table p (Z.of_nat (length (t_columns t))) g.

Definition replace_column (table : string) (old_property new_property : Property) (g : G) : option G :=
  g ← insert_column table new_property (table_column old_property) g; remove_column table (table_column old_property + 1) g.

Definition create_table (os : ObjectSchema) (g : G) : option G :=
  let name := table_name_for_object_type (class_name os) in
  match primary_key_property os with
  | Some pk => ty ← to_core_type (type pk); Some (sync_create_table_with_primary_key name ty (Schema.name pk) (is_nullable (type pk)) g)
  | None => Some (sync_create_table name g)
  end.

Definition add_initial_columns (os : ObjectSchema) (g : G) : option G :=
  let name := table_name_for_object_type (class_name os) in
  foldM (λ p g, if is_primary p then Some g else add_column name p g) (persisted_properties os) g.

(** The values of the next column, row by row *)
Fixpoint copy_rows (n : nat) (ty : DataType) (table : string) (col : Z) (i : nat) (g : G) : option G :=
  match n with
  | O => Some g
  | S n => v ← get_value ty table (col + 1) i g; g ← set_value ty table col i v g; copy_rows n ty table col (S i) g
  end.
Definition copy_property_values (p : Property) (table : string) (g : G) : option G :=
  match to_core_type (type p) with
  | Some ty => t ← get_table table g; copy_rows (t_rows t) ty table (table_column p) 0 g
  | None => Some g
  end.

Definition make_property_optional (table : string) (p : Property) (g : G) : option G :=
  let p := with_type p (Z.lor (type p) PT_Nullable) in
  g ← insert_column table p (table_column p) g;
  g ← copy_property_values p table g;
  remove_column table (table_column p + 1) g.

Definition make_property_required (table : string) (p : Property) (g : G) : option G :=
  let p := with_type p (Z.land (type p) (255 - PT_Nullable)) in
  g ← insert_column table p (table_column p) g;
  remove_column table (table_column p + 1) g.

(** ** Uniqueness of primary keys *)
Definition validate_primary_column_uniqueness (object_type primary_property : string) (g : G) : result store_exception unit :=
  let table := table_name_for_object_type object_type in
  t ← lift (get_table table g);
  k ← lift (position (get_column_index primary_property t) (length (t_columns t)));
  throw_if (negb (core_distinct_view_size table k g =? t_rows t)%nat) (DuplicatePrimaryKeyValue object_type primary_property).

Fixpoint validate_rows (n : nat) (i : nat) (g : G) : result store_exception unit :=
  match n with
  | O => Ok tt
  | S n =>
      cls ← lift (get_value type_String c_primaryKeyTableName 0 i g);
      key ← lift (get_value type_String c_primaryKeyTableName 1 i g);
      _ ← validate_primary_column_uniqueness (to_string cls) (to_string key) g;
      validate_rows n (S i) g
  end.
Definition validate_primary_keys (g : G) : result store_exception unit :=
  t ← lift (get_table c_primaryKeyTableName g); validate_rows (t_rows t) 0 g.

(** ** The schema that a group holds *)
Definition property_for_column_index (column_index : nat) (c : Column V) : option (option Property) :=
  let d := c_desc c in
  if bool_decide (d_name d = object_id_column_name) then Some None else
  if bool_decide (d_type d = type_Table) &&
     negb (match d_sub d with [sub] => bool_decide (d_name sub = ArrayColumnName) | _ => false end) then Some None else
  type ← from_core_type d;
  let object_type := if type_eqb type PT_Object then object_type_for_table_name (d_target d) else "" in
  Some (Some (MkProperty (d_name d) "" type object_type "" false (c_indexed c) (Z.of_nat column_index))).

(** The loop over the columns *)
Fixpoint properties_from (i : nat) (cs : list (Column V)) : option (list Property) :=
  match cs with
  | [] => Some []
  | c :: cs => p ← property_for_column_index i c; ps ← properties_from (S i) cs; Some (match p with Some p => p :: ps | None => ps end)
  end.

Definition make_primary (p : Property) : Property :=
  MkProperty (name p) (public_name p) (type p) (object_type p) (link_origin_property_name p) true (is_indexed p) (table_column p).

(** [ObjectSchema::set_primary_key_property], for a class without computed properties *)
Definition set_primary_key_property (key : string) (ps : list Property) : list Property :=
  if bool_decide (key = "") then ps else alter make_primary (find_if (λ p, bool_decide (name p = key)) ps) ps.

(** The constructor of [ObjectSchema] from a table of the group *)
Definition object_schema (name : string) (t : Table V) (g : G) : option ObjectSchema :=
  ps ← properties_from 0 (t_columns t);
  key ← get_primary_key_for_object name g;
  Some (MkObjectSchema name (set_primary_key_property key ps) [] key).

Fixpoint classes_from (ts : list (Table V)) (g : G) : option (list ObjectSchema) :=
  match ts with
  | [] => Some []
  | t :: ts =>
      let object_type := object_type_for_table_name (t_name t) in
      if bool_decide (object_type = "") then classes_from ts g else
      os ← object_schema object_type t g; oss ← classes_from ts g; Some (os :: oss)
  end.

Context {SO : Sorts} {PA : Partitions}.

Definition schema_from_group (g : G) : option Schema := types ← classes_from (tables g) g; Some (make_schema types).

Definition set_columns (t : Table V) (os : ObjectSchema) : ObjectSchema :=
  MkObjectSchema (class_name os) ((λ p, set_column p (get_column_index (name p) t)) <$> persisted_properties os) (computed_properties os) (primary_key os).
Definition set_schema_columns (g : G) (schema : Schema) : Schema :=
  (λ os, match get_table (table_name_for_object_type (class_name os)) g with Some t => set_columns t os | None => os end) <$> schema.

(** ** The application of changes

    [TableHelper]: the table of a class, which has to be there.  It keeps the last accessor, and
    an accessor stays with its table. *)
Definition table (os : ObjectSchema) (g : G) : option string :=
  let n := table_name_for_object_type (class_name os) in _ ← get_table n g; Some n.

(** What the appliers have in common *)
Definition apply_index (c : SchemaChange) (g : G) : option G :=
  match c with
  | AddIndex os p => n ← table os g; add_search_index n (table_column p) g
  | RemoveIndex os p => n ← table os g; remove_search_index n (table_column p) g
  | _ => Some g
  end.

(** [apply_non_migration_changes]: everything else is an error, after the changes have been applied. *)
Definition non_migration_applier (c : SchemaChange) (g : G) : option G :=
  match c with
  | AddTable os => create_table os g
  | AddInitialProperties os => add_initial_columns os g
  | _ => apply_index c g
  end.
Definition apply_non_migration_changes (changes : list SchemaChange) (g : G) : result store_exception G :=
  g ← lift (foldM non_migration_applier changes g);
  match verify_no_migration_required changes with
  | Ok _ => Ok g
  | Raise e => Raise (SchemaException e)
  | Stuck => Stuck
  end.

(** The applier of [apply_pre_migration_changes] *)
Definition pre_migration_applier (c : SchemaChange) (g : G) : option G :=
  match c with
  | AddTable os => create_table os g
  | AddInitialProperties os => add_initial_columns os g
  | AddProperty os p => n ← table os g; add_column n p g
  | ChangePropertyType os old_property new_property => n ← table os g; replace_column n old_property new_property g
  | MakePropertyNullable os p => n ← table os g; make_property_optional n p g
  | MakePropertyRequired os p => n ← table os g; make_property_required n p g
  | ChangePrimaryKey os p => set_primary_key_for_object (class_name os) (match p with Some p => name p | None => "" end) g
  | AddIndex _ _ | RemoveIndex _ _ => apply_index c g
  | RemoveTable _ | RemoveProperty _ _ => Some g
  end.
Definition apply_pre_migration_changes (changes : list SchemaChange) (g : G) : option G := foldM pre_migration_applier changes g.

(** [create_initial_tables], which removes columns at once *)
Definition initial_applier (c : SchemaChange) (g : G) : option G :=
  match c with
  | RemoveProperty os p => n ← table os g; remove_column n (table_column p) g
  | _ => pre_migration_applier c g
  end.
Definition create_initial_tables (changes : list SchemaChange) (g : G) : option G := foldM initial_applier changes g.

Definition additive_applier (update_indexes : bool) (c : SchemaChange) (g : G) : option G :=
  match c with
  | AddTable os => create_table os g
  | AddInitialProperties os => add_initial_columns os g
  | AddProperty os p => n ← table os g; add_column n p g
  | AddIndex _ _ | RemoveIndex _ _ => if update_indexes then apply_index c g else Some g
  | _ => Some g
  end.
Definition apply_additive_changes (changes : list SchemaChange) (update_indexes : bool) (g : G) : option G := foldM (additive_applier update_indexes) changes g.

(** The applier of [apply_post_migration_changes] *)
Definition post_migration_applier (initial_schema : Schema) (did_reread_schema : bool) (c : SchemaChange) (g : G) : result store_exception G :=
  match c with
  | RemoveProperty os p =>
      _ ← (if decide (initial_schema = []) then Ok tt else
             found ← lift (find_class initial_schema (class_name os));
             initial ← lift found;
             throw_if (match property_for_name initial (name p) with Some _ => false | None => true end)
               (LogicError ("Renamed property '%1.%2' does not exist.", [class_name os; name p])));
      lift (n ← table os g; remove_column n (table_column p) g)
  | ChangePrimaryKey os (Some p) => _ ← validate_primary_column_uniqueness (class_name os) (name p) g; Ok g
  | AddTable os => lift (create_table os g)
  | AddInitialProperties os => lift (if did_reread_schema then add_initial_columns os g else Some g)
  | AddIndex _ _ | RemoveIndex _ _ => lift (apply_index c g)
  | _ => Ok g
  end.
Fixpoint apply_post_migration_changes (initial_schema : Schema) (did_reread_schema : bool) (changes : list SchemaChange) (g : G) : result store_exception G :=
  match changes with
  | [] => Ok g
  | c :: changes => g ← post_migration_applier initial_schema did_reread_schema c g; apply_post_migration_changes initial_schema did_reread_schema changes g
  end.

(** ** Permissions of a synchronized file *)
Section permissions.
Context (initialize_schema : G → option G).

(** [roles->get_column_index("name")] and the like *)
Definition find_object (object_type property value : string) (g : G) : option (option nat) :=
  let n := table_name_for_object_type object_type in
  t ← get_table n g; find_first_string n (get_column_index property t) value g.

Definition ensure_private_role_exists_for_user (link : nat → V) (sync_user_id : string) (g : G) : option G :=
  let private_role_name := ("__User:" ++ sync_user_id)%string in
  private_role_ndx ← find_object "__Role" "name" private_role_name g;
  match private_role_ndx with
  | Some _ => Some g
  | None =>
      let g := sync_add_user_to_role sync_user_id private_role_name g in
      private_role_ndx ← find_object "__Role" "name" private_role_name g;
      user_ndx ← find_object "__User" "id" sync_user_id g;
      role ← private_role_ndx; user ← user_ndx;
      let users := table_name_for_object_type "__User" in
      t ← get_table users g; set_value type_Link users (get_column_index "role" t) user (link role) g
  end.

(** [ComputedPrivileges::All] *)
Definition all_privileges : Z := 127.

Definition create_default_permissions (link : nat → V) (changes : list SchemaChange) (sync_user_id : string) (g : G) : option G :=
  g ← initialize_schema g;
  let g := sync_set_up_basic_permissions true g in
  let g := sync_add_user_to_role sync_user_id "everyone" g in
  g ← ensure_private_role_exists_for_user link sync_user_id g;
  Some (foldl (λ g c, match c with AddTable os => sync_set_class_permissions_for_role (class_name os) "everyone" all_privileges g | _ => g end) g changes).

(** ** [apply_schema_changes]

    The migration function is client code: it changes the group and, through [rename_property], the target schema. *)
Definition apply_schema_changes (link : nat → V) (schema_version : Z) (target_schema_version : Z) (mode : SchemaMode)
    (changes : list SchemaChange) (sync_user_id : option string) (migration_function : option (G → Schema → result store_exception (G * Schema)))
    (target_schema : Schema) (g : G) : result store_exception (G * Schema) :=
  g ← lift (create_metadata_tables g);
  let migrate g target :=
    match migration_function with Some f => f g target | None => Ok (g, target) end in
  if decide (mode = Additive) then
    let target_schema_is_newer := (schema_version <? target_schema_version) || (schema_version =? NotVersioned) in
    g ← lift (apply_additive_changes changes true g);
    g ← lift (if target_schema_is_newer then set_schema_version target_schema_version g else Some g);
    g ← lift (match sync_user_id with Some user => create_default_permissions link changes user g | None => Some g end);
    Ok (g, set_schema_columns g target_schema)
  else if schema_version =? NotVersioned then
    g ← lift (create_initial_tables changes g);
    g ← lift (set_schema_version target_schema_version g);
    Ok (g, set_schema_columns g target_schema)
  else if decide (mode = Manual) then
    '(g, target_schema) ← migrate g (set_schema_columns g target_schema);
    schema ← lift (schema_from_group g);
    _ ← (match verify_no_changes_required (compare schema target_schema false) with
         | Ok _ => Ok tt | Raise e => Raise (SchemaException e) | Stuck => Stuck end);
    _ ← validate_primary_keys g;
    let target_schema := set_schema_columns g target_schema in
    g ← lift (set_schema_version target_schema_version g);
    Ok (g, target_schema)
  else if schema_version =? target_schema_version then
    g ← apply_non_migration_changes changes g;
    Ok (g, set_schema_columns g target_schema)
  else
    old_schema ← lift (schema_from_group g);
    g ← lift (apply_pre_migration_changes changes g);
    '(g, target_schema) ←
      (if decide (migration_function = None) then
         g ← apply_post_migration_changes [] false changes g; Ok (g, target_schema)
       else
         '(g, target_schema) ← migrate g (set_schema_columns g target_schema);
         schema ← lift (schema_from_group g);
         g ← apply_post_migration_changes old_schema true (compare schema target_schema false) g;
         _ ← validate_primary_keys g;
         Ok (g, target_schema));
    g ← lift (set_schema_version target_schema_version g);
    Ok (g, set_schema_columns g target_schema).
End permissions.

(** ** Deleting, emptiness and renaming *)
Definition delete_data_for_object (object_type : string) (g : G) : option G :=
  let n := table_name_for_object_type object_type in
  match get_table n g with
  | Some _ => set_primary_key_for_object object_type "" (core_remove_table n g)
  | None => Some g
  end.

Definition is_empty (g : G) : bool :=
  forallb (λ t, let object_type := object_type_for_table_name (t_name t) in
                bool_decide (object_type = "") || (match strip_prefix "__" object_type with Some _ => true | None => false end) || (t_rows t =? 0)%nat)
    (tables g).

Definition rename_error (format : string) (args : list string) : result store_exception (G * Schema) := Raise (LogicError (format, args)).

(** The columns of the target after the column [column_to_remove] was removed *)
Definition renumber (column_to_remove old_column : Z) (p : Property) : Property :=
  if table_column p =? column_to_remove then set_column p old_column
  else if column_to_remove <? table_column p then set_column p (table_column p ⊖ 1) else p.

Definition on_class (object_type : string) (f : Property → Property) (schema : Schema) : Schema :=
  (λ os, if bool_decide (class_name os = object_type)
         then MkObjectSchema (class_name os) (f <$> persisted_properties os) (computed_properties os) (primary_key os) else os) <$> schema.

Definition rename_property (target_schema : Schema) (object_type old_name new_name : string) (g : G) : result store_exception (G * Schema) :=
  let n := table_name_for_object_type object_type in
  match get_table n g with
  | None => rename_error "Cannot rename properties for type '%1' because it does not exist." [object_type]
  | Some t =>
      found ← lift (find_class target_schema object_type);
      match found with
      | None => rename_error "Cannot rename properties for type '%1' because it has been removed from the Realm." [object_type]
      | Some target_object_schema =>
          match property_for_name target_object_schema old_name with
          | Some _ => rename_error "Cannot rename property '%1.%2' to '%3' because the source property still exists." [object_type; old_name; new_name]
          | None =>
              table_object_schema ← lift (object_schema object_type t g);
              match property_for_name table_object_schema old_name, property_for_name table_object_schema new_name with
              | None, _ => rename_error "Cannot rename property '%1.%2' because it does not exist." [object_type; old_name]
              | Some old_property, None =>
                  g ← lift (rename_column n (table_column old_property) new_name g); Ok (g, target_schema)
              | Some old_property, Some new_property =>
                  if negb (type_eqb (type old_property) (type new_property)) || negb (bool_decide (Schema.object_type old_property = Schema.object_type new_property))
                  then rename_error "Cannot rename property '%1.%2' to '%3' because it would change from type '%4' to '%5'."
                         [object_type; old_name; new_name; default "" (Props.type_string old_property); default "" (Props.type_string new_property)]
                  else if is_nullable (type old_property) && negb (is_nullable (type new_property))
                  then rename_error "Cannot rename property '%1.%2' to '%3' because it would change from optional to required." [object_type; old_name; new_name]
                  else
                    let column_to_remove := table_column new_property in
                    g ← lift (rename_column n (table_column old_property) new_name g);
                    g ← lift (remove_column n column_to_remove g);
                    let target_schema := on_class object_type (renumber column_to_remove (table_column old_property)) target_schema in
                    g ← lift (if is_nullable (type new_property) && negb (is_nullable (type old_property))
                              then make_property_optional n (set_column new_property (table_column old_property)) g else Some g);
                    Ok (g, target_schema)
              end
          end
      end
  end.
End store.
End Store.
