(* ===== verification/ObjectStoreSchema.v ===== *)
(** * What the object store does to a group

    Every call is described by the table it changes and what becomes of its columns; all other
    tables stay.  The proofs use the laws of the core only. *)

From Stdlib Require Import String.
From stdpp Require Import strings.
From S2P Require Import Prelude ChangeCalculation Schema SchemaValidationTheorems SchemaCompare SchemaCompareTheorems LogStream Group ObjectStore.

Import Class_ Compare Store.
Open Scope Z_scope.

Section finding.
Context {V : Type}.
Implicit Types (ts : list (Table V)) (t : Table V).

Lemma find_table_in n ts t : NoDup (t_name <$> ts) → find_table n ts = Some t ↔ t ∈ ts ∧ t_name t = n.
Proof.
  intros Hnd. unfold find_table. destruct (find_if_spec (named n) ts) as [[-> Hall]|(l1 & a & l2 & -> & -> & Hl1 & Ha)].
  - rewrite lookup_ge_None_2 by done. split; [done|]. intros [Hin <-]. rewrite Forall_forall in Hall. specialize (Hall t Hin). unfold named in Hall. by case_bool_decide.
  - rewrite list_lookup_middle by done. unfold named in Ha. case_bool_decide as Hn; [|done]. split.
    + intros [= ->]. split; [|done]. apply elem_of_app. right. apply elem_of_cons. by left.
    + intros [Hin Ht]. f_equal. rewrite fmap_app, fmap_cons in Hnd. apply NoDup_app in Hnd as (_ & Hd & [Hnot _]%NoDup_cons).
      apply elem_of_app in Hin as [Hin|[->|Hin]%elem_of_cons]; [|done|]; exfalso.
      * apply (Hd (t_name t)); [by apply list_elem_of_fmap_2|]. rewrite Ht, <- Hn. apply elem_of_cons. by left.
      * apply Hnot. rewrite Hn, <- Ht. by apply list_elem_of_fmap_2.
Qed.

Lemma find_table_perm n ts ts' : NoDup (t_name <$> ts) → ts ≡ₚ ts' → find_table n ts = find_table n ts'.
Proof.
  intros Hnd Hp. apply option_eq. intros t. rewrite !find_table_in; [by rewrite Hp|by rewrite <- Hp|done].
Qed.

Lemma find_table_cons n t ts : find_table n (t :: ts) = if decide (t_name t = n) then Some t else find_table n ts.
Proof. unfold find_table. cbn [find_if]. unfold named at 1. case_decide; [by rewrite bool_decide_true|by rewrite bool_decide_false]. Qed.

Lemma find_table_name n ts t : find_table n ts = Some t → t_name t = n.
Proof.
  induction ts as [|u ts IH]; [done|]. rewrite find_table_cons. case_decide; [by intros [= <-]|done].
Qed.

Lemma find_on_table m n F ts : (∀ t, t_name (F t) = t_name t) →
  find_table m (on_table n F ts) = (if decide (m = n) then F else id) <$> find_table m ts.
Proof.
  intros HF. induction ts as [|t ts IH]; [done|]. unfold on_table in *. rewrite fmap_cons, !find_table_cons, IH.
  destruct (decide (t_name t = n)) as [E|E].
  - rewrite bool_decide_true by done. rewrite HF. destruct (decide (t_name t = m)) as [E'|E']; [|done]. rewrite decide_True by congruence. done.
  - rewrite bool_decide_false by done. destruct (decide (t_name t = m)) as [E'|E']; [|done]. rewrite decide_False by congruence. done.
Qed.

Lemma find_filter_name m n ts : find_table m (filter (λ t, t_name t ≠ n) ts) = if decide (m = n) then None else find_table m ts.
Proof.
  induction ts as [|t ts IH]; [by case_decide|]. rewrite filter_cons, !find_table_cons. destruct (decide (t_name t ≠ n)) as [E|E].
  - rewrite find_table_cons, IH. destruct (decide (t_name t = m)); [|done]. by rewrite decide_False by congruence.
  - rewrite IH. apply dec_stable in E. repeat case_decide; congruence.
Qed.

Lemma with_columns_id t : with_columns id t = t.
Proof. by destruct t. Qed.
End finding.

(** ** Columns of lists *)
Lemma column_inserted_length {A} i (x : A) l : (i <= length l)%nat → length (insert_at i x l) = S (length l).
Proof. intros Hi. unfold insert_at. rewrite length_app, length_take. cbn. rewrite length_drop. lia. Qed.
Lemma insert_at_end {A} (x : A) l : insert_at (length l) x l = l ++ [x].
Proof. unfold insert_at. by rewrite take_ge, drop_ge. Qed.
Lemma insert_at_lookup {A} i (x : A) l : (i <= length l)%nat → insert_at i x l !! i = Some x.
Proof. intros Hi. unfold insert_at. apply list_lookup_middle. rewrite length_take. lia. Qed.
Lemma insert_at_next {A} i (x : A) l : (i <= length l)%nat → insert_at i x l !! S i = l !! i.
Proof.
  intros Hi. unfold insert_at. rewrite lookup_app_r by (rewrite length_take; lia). rewrite length_take.
  replace (S i - i `min` length l)%nat with 1%nat by lia. rewrite lookup_cons_ne_0 by done. cbn [pred]. by rewrite lookup_drop, Nat.add_0_r.
Qed.
Lemma replaced {A} i (x : A) l : (i < length l)%nat → delete (S i) (insert_at i x l) = <[i := x]> l.
Proof.
  intros Hi. unfold insert_at. rewrite insert_take_drop by done. rewrite delete_take_drop.
  destruct (drop i l) as [|y l'] eqn:E; [apply (f_equal length) in E; rewrite length_drop in E; cbn in E; lia|].
  assert (drop (S i) l = l') as -> by (replace (S i) with (i + 1)%nat by lia; by rewrite <- drop_drop, E).
  rewrite take_app, drop_app, length_take. replace (S i - i `min` length l)%nat with 1%nat by lia.
  replace (S (S i) - i `min` length l)%nat with 2%nat by lia. cbn. rewrite take_take, drop_ge by (rewrite length_take; lia).
  replace (S i `min` i)%nat with i by lia. cbn. by rewrite <- app_assoc.
Qed.
Lemma alter_insert_at {A} f i (x : A) l : (i <= length l)%nat → alter f i (insert_at i x l) = insert_at i (f x) l.
Proof.
  intros Hi. unfold insert_at. rewrite alter_app_r_alt by (rewrite length_take; lia). by rewrite length_take, Nat.min_l, Nat.sub_diag by lia.
Qed.

(** ** Calls *)
Section effects.
Context {G V : Type} {VA : Values V} {CG : Core G V} {CL : CoreLaws G V}.
Implicit Types (g : G) (t : Table V) (n m : string).

(** Only the table [n] changes, by [F]. *)
Definition updates g n (F : Table V → Table V) (g' : G) : Prop :=
  ∀ m, get_table m g' = (if decide (m = n) then F else id) <$> get_table m g.

Lemma updates_at g n F g' t : updates g n F g' → get_table n g = Some t → get_table n g' = Some (F t).
Proof. intros Hu Ht. by rewrite Hu, Ht, decide_True. Qed.
Lemma updates_other g n F g' m : updates g n F g' → m ≠ n → get_table m g' = get_table m g.
Proof. intros Hu Hm. rewrite Hu, decide_False by done. by destruct (get_table m g). Qed.
Lemma updates_id g n : updates g n id g.
Proof. intros m. case_decide; by destruct (get_table m g). Qed.
Lemma updates_trans g n F g1 F' g2 : updates g n F g1 → updates g1 n F' g2 → updates g n (F' ∘ F) g2.
Proof. intros H1 H2 m. rewrite H2, H1. case_decide; by destruct (get_table m g). Qed.
Lemma updates_ext g n F F' g' t : get_table n g = Some t → F t = F' t → updates g n F g' → updates g n F' g'.
Proof. intros Ht HF Hu m. rewrite Hu. case_decide as Hm; [|done]. subst m. rewrite Ht. cbn. by rewrite HF. Qed.

Lemma by_law g n F g' : (∀ t, t_name (F t) = t_name t) → tables g' ≡ₚ on_table n F (tables g) → updates g n F g'.
Proof.
  intros HF Hp m. unfold get_table. rewrite (find_table_perm m _ _ (names_unique_law g') Hp). by apply find_on_table.
Qed.

Lemma position_of i k : (i < k)%nat → position (Z.of_nat i) k = Some i.
Proof. intros Hi. unfold position. replace ((0 <=? Z.of_nat i) && (Z.of_nat i <? Z.of_nat k)) with true by (symmetry; apply andb_true_iff; lia). by rewrite Nat2Z.id. Qed.
Lemma get_table_in g n t : get_table n g = Some t ↔ t ∈ tables g ∧ t_name t = n.
Proof. apply find_table_in, names_unique_law. Qed.
Lemma get_table_name g n t : get_table n g = Some t → t_name t = n.
Proof. apply find_table_name. Qed.
Lemma column_rows g n t i c : get_table n g = Some t → t_columns t !! i = Some c → length (c_values c) = t_rows t.
Proof. intros [Ht _]%get_table_in Hc. exact (Forall_lookup_1 _ _ _ _ (rows_law g t Ht) Hc). Qed.

Abbreviation columns f := (with_columns (V := V) f).

Lemma add_columns_spec n i d g t : get_table n g = Some t → (i <= length (t_columns t))%nat →
  ∃ g', add_columns n (Z.of_nat i) d g = Some g' ∧ updates g n (columns (insert_at i (new_column d (t_rows t)))) g'.
Proof.
  intros Ht Hi. unfold add_columns. rewrite Ht. cbn [mbind option_bind]. rewrite position_of by lia. cbn. eexists. split; [done|].
  eapply updates_ext; [exact Ht| |apply by_law; [|by eapply insert_column_law]]; done.
Qed.

Lemma at_column_spec n i f F g t : get_table n g = Some t → (i < length (t_columns t))%nat →
  tables (f i g) ≡ₚ on_table n (columns F) (tables g) → at_column n (Z.of_nat i) f g = Some (f i g) ∧ updates g n (columns F) (f i g).
Proof.
  intros Ht Hi Hp. unfold at_column. rewrite Ht. cbn [mbind option_bind]. rewrite position_of by lia. split; [done|]. by apply by_law.
Qed.
Lemma remove_column_spec n i g t : get_table n g = Some t → (i < length (t_columns t))%nat →
  ∃ g', remove_column n (Z.of_nat i) g = Some g' ∧ updates g n (columns (delete i)) g'.
Proof. intros Ht Hi. eexists. eapply at_column_spec; [done|done|by eapply remove_column_law]. Qed.
Lemma rename_column_spec n i m g t : get_table n g = Some t → (i < length (t_columns t))%nat →
  ∃ g', rename_column n (Z.of_nat i) m g = Some g' ∧ updates g n (columns (alter (rename_desc m) i)) g'.
Proof. intros Ht Hi. eexists. eapply (at_column_spec n i (λ k, core_rename_column n k m)); [done|done|by eapply rename_column_law]. Qed.
Lemma add_search_index_spec n i g t : get_table n g = Some t → (i < length (t_columns t))%nat →
  ∃ g', add_search_index n (Z.of_nat i) g = Some g' ∧ updates g n (columns (alter (with_index true) i)) g'.
Proof. intros Ht Hi. eexists. eapply (at_column_spec n i (λ k, core_set_search_index n k true)); [done|done|by eapply search_index_law]. Qed.
Lemma remove_search_index_spec n i g t : get_table n g = Some t → (i < length (t_columns t))%nat →
  ∃ g', remove_search_index n (Z.of_nat i) g = Some g' ∧ updates g n (columns (alter (with_index false) i)) g'.
Proof. intros Ht Hi. eexists. eapply (at_column_spec n i (λ k, core_set_search_index n k false)); [done|done|by eapply search_index_law]. Qed.

(** *** Cells *)
Lemma get_value_spec ty n i r g t c v : get_table n g = Some t → t_columns t !! i = Some c → d_type (c_desc c) = ty → c_values c !! r = Some v →
  get_value ty n (Z.of_nat i) r g = Some v.
Proof.
  intros Ht Hc Hty Hv. unfold get_value, typed_column. rewrite Ht. cbn [mbind option_bind]. rewrite position_of by (by eapply lookup_lt_Some).
  cbn [mbind option_bind]. rewrite Hc. cbn [mbind option_bind]. by rewrite bool_decide_true.
Qed.
Lemma set_value_spec ty n i r v g t c : get_table n g = Some t → t_columns t !! i = Some c → d_type (c_desc c) = ty → (r < t_rows t)%nat →
  ∃ g', set_value ty n (Z.of_nat i) r v g = Some g' ∧ updates g n (columns (alter (set_cell r v) i)) g'.
Proof.
  intros Ht Hc Hty Hr. pose proof (lookup_lt_Some _ _ _ Hc) as Hi. unfold set_value, typed_column. rewrite Ht. cbn [mbind option_bind].
  rewrite position_of by done. cbn [mbind option_bind]. rewrite Hc. cbn [mbind option_bind]. rewrite bool_decide_true by done. cbn [mbind option_bind].
  replace (Nat.ltb r (t_rows t)) with true by (symmetry; by apply Nat.ltb_lt). cbn. eexists. split; [done|]. apply by_law; [done|]. by eapply set_law.
Qed.

(** ** The column of a property *)
Definition desc_for (p : Property) : option Descriptor :=
  if type_eqb (type p) PT_LinkingObjects then None else
  if type_eqb (type p) PT_Object then
    Some (Desc (if is_array (type p) then type_LinkList else type_Link) (name p) false (table_name_for_object_type (object_type p)) [])
  else if is_array (type p) then
    ty ← to_core_type (base_type (type p)); Some (Desc type_Table (name p) false "" [Desc ty ArrayColumnName (is_nullable (type p)) "" []])
  else ty ← to_core_type (type p); Some (Desc ty (name p) (is_nullable (type p)) "" []).
Definition index_for (p : Property) : bool := negb (type_eqb (type p) PT_Object) && negb (is_array (type p)) && Props.requires_index p.
Definition column_for (p : Property) (d : Descriptor) (rows : nat) : Column V := with_index (index_for p) (new_column d rows).

(** What a new column needs: a type that can be stored, and the table it links to *)
Definition creatable (p : Property) (d : Descriptor) (g : G) : Prop :=
  desc_for p = Some d ∧ (type_eqb (type p) PT_Object = true → is_Some (get_table (table_name_for_object_type (object_type p)) g)).

Lemma insert_column_spec n p i d g t : get_table n g = Some t → (i <= length (t_columns t))%nat → creatable p d g →
  ∃ g', insert_column n p (Z.of_nat i) g = Some g' ∧ updates g n (columns (insert_at i (column_for p d (t_rows t)))) g'.
Proof.
  intros Ht Hi [Hd Hlink]. unfold insert_column, column_for, index_for. unfold desc_for in Hd. destruct (type_eqb (type p) PT_LinkingObjects); [done|]. cbn [negb check mbind option_bind].
  destruct (type_eqb (type p) PT_Object).
  - injection Hd as <-. destruct (Hlink eq_refl) as [u Hu]. rewrite Hu. cbn [mbind option_bind negb andb]. by apply add_columns_spec.
  - destruct (is_array (type p)).
    + destruct (to_core_type (base_type (type p))); [|done]. injection Hd as <-. cbn [mbind option_bind negb andb]. by apply add_columns_spec.
    + destruct (to_core_type (type p)) as [ty|]; [|done]. injection Hd as <-. cbn [mbind option_bind negb andb].
      destruct (add_columns_spec n i (Desc ty (name p) (is_nullable (type p)) "" []) g t Ht Hi) as (g1 & -> & H1). cbn [mbind option_bind].
      destruct (Props.requires_index p); [|by eauto]. pose proof (updates_at _ _ _ _ _ H1 Ht) as Ht1.
      destruct (add_search_index_spec n i g1 _ Ht1) as (g2 & -> & H2); [cbn; rewrite column_inserted_length; lia|].
      exists g2. split; [done|]. eapply updates_ext; [exact Ht| |eapply updates_trans; [exact H1|exact H2]].
      unfold with_columns. cbn. by rewrite alter_insert_at.
Qed.

Lemma add_column_spec n p d g t : get_table n g = Some t → creatable p d g →
  ∃ g', add_column n p g = Some g' ∧ updates g n (columns (λ cs, cs ++ [column_for p d (t_rows t)])) g'.
Proof.
  intros Ht Hc. unfold add_column. rewrite Ht. cbn [mbind option_bind].
  destruct (insert_column_spec n p _ d g t Ht (le_n _) Hc) as (g' & -> & Hu). exists g'. split; [done|].
  eapply updates_ext; [exact Ht| |exact Hu]. unfold with_columns. by rewrite insert_at_end.
Qed.

(** Inserting a column and removing the next one replaces it. *)
Lemma replace_by_insertion n p i d g t : get_table n g = Some t → (i < length (t_columns t))%nat → creatable p d g →
  ∃ g', (g ← insert_column n p (Z.of_nat i) g; remove_column n (Z.of_nat i + 1) g) = Some g' ∧
    updates g n (columns (insert i (column_for p d (t_rows t)))) g'.
Proof.
  intros Ht Hi Hc. destruct (insert_column_spec n p i d g t Ht ltac:(lia) Hc) as (g1 & -> & H1). cbn [mbind option_bind].
  replace (Z.of_nat i + 1) with (Z.of_nat (S i)) by lia. pose proof (updates_at _ _ _ _ _ H1 Ht) as Ht1.
  destruct (remove_column_spec n (S i) g1 _ Ht1) as (g2 & -> & H2); [cbn; rewrite column_inserted_length; lia|]. exists g2. split; [done|].
  eapply updates_ext; [exact Ht| |eapply updates_trans; [exact H1|exact H2]]. unfold with_columns. cbn. by rewrite replaced.
Qed.

Definition with_values (vs : list V) (c : Column V) : Column V := MkColumn (c_desc c) (c_indexed c) vs.

Lemma take_set (k : nat) (v : V) l l' : take k l = take k l' → l' !! k = Some v → (k < length l)%nat → take (S k) (<[k := v]> l) = take (S k) l'.
Proof.
  intros Ht Hv Hk. rewrite (take_S_r l' k v Hv), <- Ht. rewrite (take_S_r _ k v); [|by apply list_lookup_insert_eq]. by rewrite take_insert_ge by lia.
Qed.

Lemma copy_rows_spec rest ty n i k g t c c' : get_table n g = Some t → t_columns t !! i = Some c → t_columns t !! S i = Some c' →
  d_type (c_desc c) = ty → d_type (c_desc c') = ty → (k + rest = t_rows t)%nat → take k (c_values c) = take k (c_values c') →
  ∃ g', copy_rows rest ty n (Z.of_nat i) k g = Some g' ∧ updates g n (columns (alter (with_values (c_values c')) i)) g'.
Proof.
  revert k g t c. induction rest as [|rest IH]; intros k g t c Ht Hc Hc' Hty Hty' Hk Htk.
  - exists g. split; [done|]. eapply updates_ext; [exact Ht| |apply updates_id]. unfold with_columns. destruct t as [tn cs rows]. cbn in *. f_equal.
    rewrite !take_ge in Htk by (rewrite ?(column_rows _ _ _ _ _ Ht Hc), ?(column_rows _ _ _ _ _ Ht Hc'); cbn; lia).
    apply list_eq. intros j. destruct (decide (j = i)) as [->|Hne]; [|by rewrite list_lookup_alter_ne].
    rewrite list_lookup_alter_eq, Hc. cbn. f_equal. unfold with_values. rewrite <- Htk. by destruct c.
  - pose proof (column_rows _ _ _ _ _ Ht Hc) as Hl. pose proof (column_rows _ _ _ _ _ Ht Hc') as Hl'. cbn [copy_rows].
    destruct (lookup_lt_is_Some_2 (c_values c') k) as [v Hv]; [lia|]. replace (Z.of_nat i + 1) with (Z.of_nat (S i)) by lia.
    rewrite (get_value_spec ty n (S i) k g t c' v) by done. cbn [mbind option_bind].
    destruct (set_value_spec ty n i k v g t c) as (g1 & -> & H1); [done|done|done|lia|]. cbn [mbind option_bind].
    pose proof (updates_at _ _ _ _ _ H1 Ht) as Ht1.
    destruct (IH (S k) g1 _ (set_cell k v c) Ht1) as (g2 & -> & H2).
    + cbn. by rewrite list_lookup_alter_eq, Hc.
    + cbn. by rewrite list_lookup_alter_ne by lia.
    + done.
    + done.
    + cbn. lia.
    + cbn. apply take_set; [done|done|lia].
    + exists g2. split; [done|]. eapply updates_ext; [exact Ht| |eapply updates_trans; [exact H1|exact H2]].
      unfold with_columns. cbn. f_equal. by rewrite list_alter_alter_eq.
Qed.

Definition optional (p : Property) : Property := with_type p (Z.lor (type p) PT_Nullable).
Definition mandatory (p : Property) : Property := with_type p (Z.land (type p) (255 - PT_Nullable)).

Lemma make_property_required_spec n p i d g t : get_table n g = Some t → table_column p = Z.of_nat i → (i < length (t_columns t))%nat → creatable (mandatory p) d g →
  ∃ g', make_property_required n p g = Some g' ∧ updates g n (columns (insert i (column_for (mandatory p) d (t_rows t)))) g'.
Proof.
  intros Ht Hp Hi Hc. unfold make_property_required. change (table_column (with_type _ _)) with (table_column p). rewrite Hp.
  destruct (replace_by_insertion n (mandatory p) i d g t Ht Hi Hc) as (g' & E & Hu). exists g'. by split.
Qed.

Lemma replace_column_spec n old p i d g t : get_table n g = Some t → table_column old = Z.of_nat i → (i < length (t_columns t))%nat → creatable p d g →
  ∃ g', replace_column n old p g = Some g' ∧ updates g n (columns (insert i (column_for p d (t_rows t)))) g'.
Proof.
  intros Ht Hp Hi Hc. unfold replace_column. rewrite Hp.
  destruct (replace_by_insertion n p i d g t Ht Hi Hc) as (g' & E & Hu). exists g'. by split.
Qed.

(** The values are kept if they have the type of the property, or if there are none. *)
Lemma make_property_optional_spec n p i d g t c : get_table n g = Some t → table_column p = Z.of_nat i → t_columns t !! i = Some c → creatable (optional p) d g →
  (∃ ty, to_core_type (type (optional p)) = Some ty ∧ (t_rows t = 0%nat ∨ d_type (c_desc c) = ty ∧ d_type d = ty)) →
  ∃ g', make_property_optional n p g = Some g' ∧ updates g n (columns (insert i (with_values (c_values c) (column_for (optional p) d (t_rows t))))) g'.
Proof.
  intros Ht Hp Hc Hcr (ty & Hty & Hcase). pose proof (lookup_lt_Some _ _ _ Hc) as Hi. unfold make_property_optional. fold (optional p).
  change (table_column (optional p)) with (table_column p). rewrite Hp.
  destruct (insert_column_spec n (optional p) i d g t Ht ltac:(lia) Hcr) as (g1 & -> & H1). cbn [mbind option_bind].
  pose proof (updates_at _ _ _ _ _ H1 Ht) as Ht1. unfold copy_property_values. rewrite Hty, Ht1. cbn [mbind option_bind t_rows with_columns].
  change (table_column (optional p)) with (table_column p). rewrite Hp.
  assert (∃ g2, copy_rows (t_rows t) ty n (Z.of_nat i) 0 g1 = Some g2 ∧
    updates g1 n (columns (alter (with_values (c_values c)) i)) g2) as (g2 & -> & H2).
  { destruct Hcase as [H0|[Hty1 Hty2]].
    - rewrite H0. exists g1. split; [done|]. eapply updates_ext; [exact Ht1| |apply updates_id]. unfold with_columns. cbn [t_name t_columns t_rows id]. f_equal.
      rewrite alter_insert_at by lia. f_equal. unfold with_values, column_for, with_index, new_column. cbn. f_equal.
      pose proof (column_rows _ _ _ _ _ Ht Hc) as Hl. rewrite H0 in *. symmetry. by apply nil_length_inv.
    - eapply (copy_rows_spec (t_rows t) ty n i 0 g1 _ (column_for (optional p) d (t_rows t)) c Ht1); cbn.
      + by apply insert_at_lookup; lia.
      + rewrite insert_at_next by lia. done.
      + done.
      + done.
      + done.
      + done. }
  cbn [mbind option_bind]. pose proof (updates_at _ _ _ _ _ H2 Ht1) as Ht2. replace (Z.of_nat i + 1) with (Z.of_nat (S i)) by lia.
  destruct (remove_column_spec n (S i) g2 _ Ht2) as (g3 & -> & H3); [cbn; rewrite length_alter, column_inserted_length; lia|]. exists g3. split; [done|].
  eapply updates_ext; [exact Ht| |eapply updates_trans; [eapply updates_trans; [exact H1|exact H2]|exact H3]].
  unfold with_columns. cbn. f_equal. rewrite alter_insert_at by lia. by rewrite replaced.
Qed.
End effects.

(** * The schema that a group holds

    What [schema_from_group] reads, as statements about the columns of the tables and the primary keys;
    and that a column that was created for a property is read as that property. *)

Import Class_ Compare Store.
Open Scope Z_scope.

(** ** Names of tables *)
Lemma strip_prefix_app p s : strip_prefix p (p ++ s)%string = Some s.
Proof. induction p as [|a p IH]; [by destruct s|]. simpl. by rewrite bool_decide_true. Qed.
Lemma strip_prefix_inv p s r : strip_prefix p s = Some r → s = (p ++ r)%string.
Proof.
  revert s. induction p as [|a p IH]; intros s; [by destruct s; intros [= <-]|]. destruct s as [|b s]; [done|]. simpl. case_bool_decide as E; [|done].
  intros H. by rewrite (IH s H), E.
Qed.
Lemma object_type_of_table cls : object_type_for_table_name (table_name_for_object_type cls) = cls.
Proof. unfold object_type_for_table_name, table_name_for_object_type. by rewrite strip_prefix_app. Qed.
Lemma table_of_object_type n : object_type_for_table_name n ≠ ""%string → n = table_name_for_object_type (object_type_for_table_name n).
Proof.
  unfold object_type_for_table_name, table_name_for_object_type. destruct (strip_prefix class_prefix n) as [r|] eqn:E; [|done]. intros _. cbn. by apply strip_prefix_inv.
Qed.
Lemma table_name_inj a b : table_name_for_object_type a = table_name_for_object_type b → a = b.
Proof. intros E. by rewrite <- (object_type_of_table a), E, object_type_of_table. Qed.
Lemma table_name_apart cls : table_name_for_object_type cls ≠ pk_table_name ∧ table_name_for_object_type cls ≠ c_metadataTableName.
Proof. done. Qed.

(** ** Types *)
Lemma flags_cases t : base_type t = t → 0 <= t < 64 → ∀ a n : bool,
  base_type (Z.lor (Z.lor t (if n then PT_Nullable else 0)) (if a then PT_Array else 0)) = t ∧
  is_nullable (Z.lor (Z.lor t (if n then PT_Nullable else 0)) (if a then PT_Array else 0)) = n ∧
  is_array (Z.lor (Z.lor t (if n then PT_Nullable else 0)) (if a then PT_Array else 0)) = a.
Proof.
  intros _ Ht. assert (Forall (λ k, ∀ a n : bool,
    base_type (Z.lor (Z.lor k (if n then PT_Nullable else 0)) (if a then PT_Array else 0)) = k ∧
    is_nullable (Z.lor (Z.lor k (if n then PT_Nullable else 0)) (if a then PT_Array else 0)) = n ∧
    is_array (Z.lor (Z.lor k (if n then PT_Nullable else 0)) (if a then PT_Array else 0)) = a) (Z.of_nat <$> seq 0 64)) as Hall.
  { cbn. repeat (apply Forall_cons_2; [by intros [] []|]). apply Forall_nil_2. }
  rewrite Forall_forall in Hall. apply Hall. apply list_elem_of_fmap. exists (Z.to_nat t). split; [lia|]. apply elem_of_seq. lia.
Qed.

(** A property type without other bits than these *)
Lemma base_type_range t : 0 <= base_type t < 64.
Proof. unfold base_type. change (255 - PT_Flags) with (Z.ones 6). rewrite Z.land_ones by lia. by apply Z.mod_pos_bound. Qed.
Lemma base_type_idem t : base_type (base_type t) = base_type t.
Proof. unfold base_type. rewrite <- Z.land_assoc. done. Qed.

(** What [from_core_type] makes of a type that [to_core_type] knows *)
Definition core_types : list (PropertyType * DataType) :=
  [(PT_Int, type_Int); (PT_Bool, type_Bool); (PT_Float, type_Float); (PT_Double, type_Double); (PT_String, type_String); (PT_Date, type_Timestamp); (PT_Data, type_Binary)].
Lemma to_core_type_cases t ty : to_core_type t = Some ty → (base_type t, ty) ∈ core_types.
Proof.
  unfold to_core_type, core_types. intros H.
  repeat match type of H with context [?a =? ?b] => destruct (Z.eqb_spec a b) as [->|_]; [injection H as <-; repeat (apply elem_of_cons; (by left) || right)|] end. done.
Qed.
Lemma from_core_plain b ty d : (b, ty) ∈ core_types → d_type d = ty → from_core_type d = Some (Z.lor b (if d_nullable d then PT_Nullable else 0)).
Proof.
  destruct d as [dt dn dl dg ds]. cbn [d_type d_nullable]. intros Hin ->. unfold core_types in Hin.
  repeat (apply elem_of_cons in Hin as [[= -> ->]|Hin]; [done|]). by apply not_elem_of_nil in Hin.
Qed.
Lemma core_types_base b ty : (b, ty) ∈ core_types → base_type b = b ∧ 0 <= b < 64 ∧ b ≠ PT_Object ∧ b ≠ PT_LinkingObjects ∧ ty ≠ type_Table.
Proof.
  unfold core_types. intros Hin. repeat (apply elem_of_cons in Hin as [[= -> ->]|Hin]; [done|]). by apply not_elem_of_nil in Hin.
Qed.

(** ** Reading a column *)
Section reading.
Context {V : Type} {VA : Values V}.
Implicit Types (c : Column V) (cs : list (Column V)).

(** A column that belongs to a property, and the property without its key and position *)
Definition visible (d : Descriptor) : bool :=
  negb (bool_decide (d_name d = object_id_column_name)) &&
  negb (bool_decide (d_type d = type_Table) && negb (match d_sub d with [sub] => bool_decide (d_name sub = ArrayColumnName) | _ => false end)).

Lemma property_for_column i c : property_for_column_index i c =
  if visible (c_desc c) then
    ty ← from_core_type (c_desc c);
    Some (Some (MkProperty (d_name (c_desc c)) "" ty (if type_eqb ty PT_Object then object_type_for_table_name (d_target (c_desc c)) else "") "" false (c_indexed c) (Z.of_nat i)))
  else Some None.
Proof. unfold property_for_column_index, visible. case_bool_decide; [done|]. cbn [negb andb]. by destruct (_ && _). Qed.

(** What the column of a property has to look like *)
Record reads_as (d : Descriptor) (p : Property) : Prop := {
  ra_visible : visible d = true;
  ra_name : d_name d = name p;
  ra_type : ∃ ty, from_core_type d = Some ty ∧ base_type ty = base_type (type p) ∧ is_array ty = is_array (type p) ∧ is_nullable ty = is_nullable (type p);
  ra_target : (if bool_decide (base_type (type p) = PT_Object) then object_type_for_table_name (d_target d) else ""%string) = object_type p }.

Definition stored_type (p : Property) : Prop :=
  (base_type (type p) = PT_Object → is_nullable (type p) = negb (is_array (type p))) ∧
  (base_type (type p) ≠ PT_Object → base_type (type p) ≠ PT_LinkingObjects → object_type p = ""%string) ∧
  name p ≠ object_id_column_name.

Lemma desc_reads p d : desc_for p = Some d → stored_type p → reads_as d p.
Proof.
  intros Hd (Hobj & Hplain & Hname). unfold desc_for in Hd. unfold type_eqb in Hd. change (base_type PT_LinkingObjects) with PT_LinkingObjects in Hd.
  change (base_type PT_Object) with PT_Object in Hd. destruct (Z.eqb_spec (base_type (type p)) PT_LinkingObjects) as [|Hl]; [done|].
  destruct (Z.eqb_spec (base_type (type p)) PT_Object) as [Ho|Ho].
  - injection Hd as <-. specialize (Hobj Ho). split.
    + unfold visible. cbn. rewrite bool_decide_false by done. by destruct (is_array (type p)).
    + done.
    + rewrite Ho, Hobj. destruct (is_array (type p)); eexists; (split; [reflexivity|by vm_compute]).
    + rewrite bool_decide_true by done. cbn. apply object_type_of_table.
  - destruct (is_array (type p)) eqn:Ea.
    + destruct (to_core_type (base_type (type p))) as [ty|] eqn:Ety; [|done]. injection Hd as <-. apply to_core_type_cases in Ety. rewrite base_type_idem in Ety.
      destruct (core_types_base _ _ Ety) as (Hb & Hr & _). pose proof (flags_cases _ Hb Hr true (is_nullable (type p))) as Hf. split.
      * unfold visible. cbn. by rewrite bool_decide_false by done.
      * done.
      * match goal with |- context [Desc type_Table ?n ?b ?g [?sub]] =>
          change (from_core_type (Desc type_Table n b g [sub])) with (t ← from_core_type sub; Some (Z.lor t PT_Array)) end.
        rewrite (from_core_plain _ _ _ Ety) by done. cbn [mbind option_bind d_nullable]. eexists. split; [done|]. rewrite Ea. tauto.
      * rewrite bool_decide_false by done. symmetry. by apply Hplain.
    + destruct (to_core_type (type p)) as [ty|] eqn:Ety; [|done]. injection Hd as <-. apply to_core_type_cases in Ety.
      destruct (core_types_base _ _ Ety) as (Hb & Hr & _ & _ & Ht). pose proof (flags_cases _ Hb Hr false (is_nullable (type p))) as Hf. rewrite Z.lor_0_r in Hf. split.
      * unfold visible. cbn. rewrite bool_decide_false by done. by rewrite bool_decide_false by done.
      * done.
      * rewrite (from_core_plain _ _ _ Ety) by done. cbn [d_nullable]. eexists. split; [done|]. rewrite Ea. tauto.
      * rewrite bool_decide_false by done. symmetry. by apply Hplain.
Qed.

Lemma properties_from_in i cs ps p : properties_from i cs = Some ps →
  p ∈ ps ↔ ∃ j c, cs !! j = Some c ∧ property_for_column_index (i + j) c = Some (Some p).
Proof.
  revert i ps. induction cs as [|c cs IH]; intros i ps; cbn [properties_from].
  { intros [= <-]. split; [by intros ?%not_elem_of_nil|by intros (j & c & Hj & _)]. }
  destruct (property_for_column_index i c) as [o|] eqn:Eo; [|done]. cbn [mbind option_bind].
  destruct (properties_from (S i) cs) as [ps'|] eqn:Eps; [|done]. cbn [mbind option_bind]. specialize (IH (S i) ps' Eps).
  assert (p ∈ ps' ↔ ∃ j c', cs !! j = Some c' ∧ property_for_column_index (i + S j) c' = Some (Some p)) as IH'.
  { rewrite IH. by setoid_rewrite Nat.add_succ_r. }
  clear IH. intros [= <-]. split.
  - intros Hp. assert (o = Some p ∨ p ∈ ps') as [->|Hin] by (destruct o; [apply elem_of_cons in Hp as [->|]|]; auto).
    + exists 0%nat, c. split; [done|]. by rewrite Nat.add_0_r.
    + apply IH' in Hin as (j & c' & H1 & H2). by exists (S j), c'.
  - intros ([|j] & c' & H1 & H2).
    + injection H1 as <-. rewrite Nat.add_0_r, Eo in H2. injection H2 as ->. apply elem_of_cons. by left.
    + assert (p ∈ ps') as Hin by (apply IH'; eauto). destruct o; [apply elem_of_cons; by right|done].
Qed.

Lemma properties_from_total i cs : (∀ j c, cs !! j = Some c → is_Some (property_for_column_index (i + j) c)) → is_Some (properties_from i cs).
Proof.
  revert i. induction cs as [|c cs IH]; intros i Hall; cbn [properties_from]; [by eexists|].
  destruct (Hall 0%nat c eq_refl) as [o Ho]. rewrite Nat.add_0_r in Ho. rewrite Ho. cbn [mbind option_bind].
  destruct (IH (S i)) as [ps ->]; [|cbn; by eexists]. intros j c' Hj. rewrite Nat.add_succ_l, <- Nat.add_succ_r. by apply (Hall (S j)).
Qed.
Lemma properties_from_some i cs : is_Some (properties_from i cs) → ∀ j c, cs !! j = Some c → is_Some (property_for_column_index (i + j) c).
Proof.
  revert i. induction cs as [|c cs IH]; intros i Hs [|j] c' Hj; try done; cbn [properties_from] in Hs.
  - injection Hj as <-. rewrite Nat.add_0_r. destruct (property_for_column_index i c); [by eexists|by destruct Hs].
  - destruct (property_for_column_index i c); [|by destruct Hs]. cbn [mbind option_bind] in Hs. destruct (properties_from (S i) cs) as [ps|] eqn:E; [|by destruct Hs].
    replace (i + S j)%nat with (S i + j)%nat by lia. apply (IH (S i)); [by eexists|done].
Qed.

Lemma column_property i c p : property_for_column_index i c = Some (Some p) → table_column p = Z.of_nat i.
Proof. rewrite property_for_column. destruct (visible _); [|done]. destruct (from_core_type _); [|done]. cbn. by intros [= <-]. Qed.

Lemma properties_from_increasing i cs ps : properties_from i cs = Some ps → NoDup (table_column <$> ps).
Proof.
  revert i ps. induction cs as [|c cs IH]; intros i ps H; [cbn in H; injection H as <-; constructor|]. cbn [properties_from] in H.
  destruct (property_for_column_index i c) as [o|] eqn:Eo; [|done]. cbn [mbind option_bind] in H.
  destruct (properties_from (S i) cs) as [ps'|] eqn:Eps; [|done]. cbn [mbind option_bind] in H. injection H as <-. specialize (IH _ _ Eps).
  destruct o as [p|]; [|done]. rewrite fmap_cons. apply NoDup_cons. split; [|done]. rewrite (column_property _ _ _ Eo).
  intros (p' & E & (j & c' & _ & Hp')%(properties_from_in _ _ _ _ Eps))%list_elem_of_fmap. rewrite (column_property _ _ _ Hp') in E. lia.
Qed.

(** *** The primary key *)
Definition keyed (key : string) (p p0 : Property) : Prop := p = p0 ∨ p = make_primary p0 ∧ key ≠ ""%string ∧ name p0 = key.
Lemma set_primary_spec key ps : Forall2 (keyed key) (set_primary_key_property key ps) ps.
Proof.
  assert (∀ l, Forall2 (keyed key) l l) as Hrefl by (intros l; apply Forall_Forall2_diag, Forall_forall; intros p _; by left).
  unfold set_primary_key_property. case_bool_decide as Hk; [done|]. induction ps as [|p ps IH]; [done|]. cbn [find_if].
  case_bool_decide as Hn; cbn; [|by constructor; [left|]]. constructor; [by right|]. apply Hrefl.
Qed.

(** The property that a class has for a column of its table *)
Record shows (os : ObjectSchema) (i : nat) (c : Column V) (p : Property) : Prop := {
  sh_visible : visible (c_desc c) = true;
  sh_name : name p = d_name (c_desc c);
  sh_type : from_core_type (c_desc c) = Some (type p);
  sh_target : object_type p = if type_eqb (type p) PT_Object then object_type_for_table_name (d_target (c_desc c)) else ""%string;
  sh_indexed : is_indexed p = c_indexed c;
  sh_column : table_column p = Z.of_nat i;
  sh_primary : is_primary p = true → primary_key os ≠ ""%string ∧ name p = primary_key os }.

Lemma shown os i c p0 p : property_for_column_index i c = Some (Some p0) → keyed (primary_key os) p p0 → shows os i c p.
Proof.
  rewrite property_for_column. destruct (visible (c_desc c)) eqn:Ev; [|done]. destruct (from_core_type (c_desc c)) as [ty|] eqn:Ety; [|done].
  cbn [mbind option_bind]. intros [= <-] [->|(-> & H1 & H2)]; by split.
Qed.

Context {G : Type} {CG : Core G V}.

Record read_from (os : ObjectSchema) (t : Table V) : Prop := {
  rf_computed : computed_properties os = [];
  rf_property p : p ∈ persisted_properties os → ∃ i c, t_columns t !! i = Some c ∧ shows os i c p;
  rf_column i c : t_columns t !! i = Some c → visible (c_desc c) = true → ∃ p, p ∈ persisted_properties os ∧ shows os i c p;
  rf_distinct : NoDup (table_column <$> persisted_properties os) }.

Lemma object_schema_reads n t (g : G) os : object_schema n t g = Some os →
  class_name os = n ∧ get_primary_key_for_object n g = Some (primary_key os) ∧ read_from os t.
Proof.
  unfold object_schema. destruct (properties_from 0 (t_columns t)) as [ps|] eqn:Eps; [|done]. cbn [mbind option_bind].
  destruct (get_primary_key_for_object n g) as [key|]; [|done]. cbn [mbind option_bind]. intros [= <-]. split; [done|]. split; [done|].
  set (os := MkObjectSchema _ _ _ _). pose proof (set_primary_spec key ps) as Hk. split.
  - done.
  - intros p Hp. apply list_elem_of_lookup in Hp as [j Hj]. destruct (Forall2_lookup_l _ _ _ _ _ Hk Hj) as (p0 & Hp0 & Hkey).
    apply list_elem_of_lookup_2, (properties_from_in _ _ _ _ Eps) in Hp0 as (i & c & H1 & H2). exists i, c. split; [done|]. by eapply (shown os).
  - intros i c Hc Hv. pose proof (properties_from_some 0 (t_columns t) ltac:(by eexists) i c Hc) as [o Ho]. rewrite Nat.add_0_l in Ho.
    pose proof Ho as Ho'. rewrite property_for_column, Hv in Ho'. destruct (from_core_type (c_desc c)); [|done]. cbn in Ho'.
    destruct o as [p0|]; [|done]. assert (p0 ∈ ps) as Hin by (apply (properties_from_in _ _ _ _ Eps); by exists i, c).
    apply list_elem_of_lookup in Hin as [j Hj]. destruct (Forall2_lookup_r _ _ _ _ _ Hk Hj) as (p & Hp & Hkey). exists p.
    split; [by eapply list_elem_of_lookup_2|]. by eapply (shown os).
  - cbn. replace (table_column <$> set_primary_key_property key ps) with (table_column <$> ps); [by eapply properties_from_increasing|].
    apply list_eq_Forall2. apply Forall2_fmap. apply Forall2_flip. eapply Forall2_impl; [exact Hk|]. intros p p0 [->|(-> & _)]; done.
Qed.

Lemma object_schema_total n t (g : G) : (∀ i c, t_columns t !! i = Some c → visible (c_desc c) = true → is_Some (from_core_type (c_desc c))) →
  is_Some (get_primary_key_for_object n g) → is_Some (object_schema n t g).
Proof.
  intros Hall [key Hkey]. unfold object_schema. destruct (properties_from_total 0 (t_columns t)) as [ps ->].
  - intros j c Hj. rewrite property_for_column. destruct (visible (c_desc c)) eqn:Ev; [|by eexists]. destruct (Hall j c Hj Ev) as [ty ->]. cbn. by eexists.
  - cbn [mbind option_bind]. rewrite Hkey. cbn. by eexists.
Qed.
End reading.

(** ** The whole schema *)
Section schema.
Context {G V : Type} {VA : Values V} {CG : Core G V} {CL : CoreLaws G V} `{SL : SortLaws}.
Implicit Types (g : G) (t : Table V).

Lemma classes_from_in ts g oss os : classes_from ts g = Some oss →
  os ∈ oss ↔ ∃ t, t ∈ ts ∧ object_type_for_table_name (t_name t) ≠ ""%string ∧ object_schema (object_type_for_table_name (t_name t)) t g = Some os.
Proof.
  revert oss. induction ts as [|t ts IH]; intros oss; cbn [classes_from].
  { intros [= <-]. split; [by intros ?%not_elem_of_nil|by intros (t & ?%not_elem_of_nil & _)]. }
  case_bool_decide as Hn.
  - intros Hrest. rewrite (IH _ Hrest). split; [intros (u & Hu & Hr); exists u; split; [apply elem_of_cons; by right|done]|].
    intros (u & [->|Hu]%elem_of_cons & Hne & Ho); [done|by exists u].
  - destruct (object_schema _ t g) as [o|] eqn:Eo; [|done]. cbn [mbind option_bind]. destruct (classes_from ts g) as [oss'|]; [|done].
    cbn [mbind option_bind]. intros [= <-]. rewrite elem_of_cons, (IH _ eq_refl). split.
    + intros [->|(u & Hu & Hr)]; [exists t; split; [apply elem_of_cons; by left|done]|exists u; split; [apply elem_of_cons; by right|done]].
    + intros (u & [->|Hu]%elem_of_cons & Hne & Ho); [left; congruence|right; by exists u].
Qed.

Lemma classes_from_total ts g : (∀ t, t ∈ ts → object_type_for_table_name (t_name t) ≠ ""%string → is_Some (object_schema (object_type_for_table_name (t_name t)) t g)) →
  is_Some (classes_from ts g).
Proof.
  induction ts as [|t ts IH]; intros Hall; [by eexists|]. cbn [classes_from].
  destruct IH as [oss Hoss]; [intros u Hu; apply Hall; apply elem_of_cons; by right|]. case_bool_decide as Hn; [by eexists|].
  destruct (Hall t) as [os ->]; [apply elem_of_cons; by left|done|]. cbn [mbind option_bind]. rewrite Hoss. by eexists.
Qed.

(** The class of a table, where the table is a class *)
Definition class_in g (cls : string) (t : Table V) (os : ObjectSchema) : Prop :=
  cls ≠ ""%string ∧ get_table (table_name_for_object_type cls) g = Some t ∧ object_schema cls t g = Some os.

Lemma schema_in g s os : schema_from_group g = Some s → os ∈ s ↔ ∃ t, class_in g (class_name os) t os.
Proof.
  unfold schema_from_group. destruct (classes_from (tables g) g) as [oss|] eqn:E; [|done]. cbn [mbind option_bind]. intros [= <-].
  unfold make_schema. rewrite sort_by_perm, (classes_from_in _ _ _ os E). unfold class_in. split.
  - intros (t & Ht & Hn & Ho). destruct (object_schema_reads _ _ _ _ Ho) as (Ec & _). rewrite Ec. exists t.
    split; [done|]. split; [|done]. apply get_table_in. split; [done|]. by apply table_of_object_type.
  - intros (t & Hn & Ht & Ho). pose proof (get_table_name _ _ _ Ht) as En. apply get_table_in in Ht as [Hin _]. exists t.
    rewrite En, object_type_of_table. done.
Qed.

Lemma schema_total g : (∀ cls t, cls ≠ ""%string → get_table (table_name_for_object_type cls) g = Some t → is_Some (object_schema cls t g)) → is_Some (schema_from_group g).
Proof.
  intros Hall. unfold schema_from_group. destruct (classes_from_total (tables g) g) as [oss ->]; [|cbn; by eexists].
  intros t Ht Hn. apply Hall; [done|]. apply get_table_in. split; [done|]. by apply table_of_object_type.
Qed.

Lemma schema_readable g cls t : is_Some (schema_from_group g) → cls ≠ ""%string → get_table (table_name_for_object_type cls) g = Some t → is_Some (object_schema cls t g).
Proof.
  unfold schema_from_group. intros [s Hs] Hn Ht. destruct (classes_from (tables g) g) as [oss|] eqn:E; [|done]. clear s Hs.
  pose proof (get_table_name _ _ _ Ht) as En. apply get_table_in in Ht as [Hin _]. revert oss E Hin. induction (tables g) as [|u ts IH]; intros oss E Hin; [by apply not_elem_of_nil in Hin|].
  cbn [classes_from] in E. apply elem_of_cons in Hin as [->|Hin].
  - rewrite En, object_type_of_table, bool_decide_false in E by done. destruct (object_schema cls u g); [by eexists|done].
  - case_bool_decide; [by eapply IH|]. destruct (object_schema _ u g); [|done]. cbn [mbind option_bind] in E.
    destruct (classes_from ts g); [|done]. by eapply IH.
Qed.

Lemma schema_strict g s : schema_from_group g = Some s → strict s.
Proof.
  unfold schema_from_group. destruct (classes_from (tables g) g) as [oss|] eqn:E; [|done]. cbn [mbind option_bind]. intros [= <-].
  apply strict_of_ordered; [apply make_schema_ordered|]. unfold make_schema. rewrite sort_by_perm.
  pose proof (names_unique_law g) as Hnd. revert oss E Hnd. induction (tables g) as [|t ts IH]; intros oss E Hnd; cbn [classes_from] in E; [injection E as <-; constructor|].
  rewrite fmap_cons in Hnd. apply NoDup_cons in Hnd as [Hnot Hnd]. case_bool_decide as Hn; [by apply IH|].
  destruct (object_schema _ t g) as [os|] eqn:Eo; [|done]. cbn [mbind option_bind] in E. destruct (classes_from ts g) as [oss'|] eqn:E'; [|done].
  cbn [mbind option_bind] in E. injection E as <-. rewrite fmap_cons. apply NoDup_cons. split; [|by apply IH].
  destruct (object_schema_reads _ _ _ _ Eo) as (Ec & _). rewrite Ec.
  intros (os' & Ec' & (u & Hu & Hun & Ho)%(classes_from_in _ _ _ _ E'))%list_elem_of_fmap. destruct (object_schema_reads _ _ _ _ Ho) as (Eu & _).
  apply Hnot. rewrite (table_of_object_type _ Hn), Ec', Eu, <- (table_of_object_type _ Hun). by apply list_elem_of_fmap_2.
Qed.
End schema.
