(* ===== verification/ObjectStoreKeys.v ===== *)
(** * Metadata tables and primary keys

    The table of primary keys as a list of pairs of a class and the name of its key. *)

From Stdlib Require Import String.
From stdpp Require Import strings.
From S2P Require Import Prelude ChangeCalculation Schema SchemaCompare LogStream Group ObjectStore ObjectStoreSchema.
Import Class_ Compare Store.
Open Scope Z_scope.

(** ** Association lists *)
Abbreviation keys := (list (string * string)).
Definition assoc (cls : string) (ps : keys) : string := default ""%string (snd <$> ps !! find_if (λ x, bool_decide (x.1 = cls)) ps).

Lemma assoc_cons cls x ps : assoc cls (x :: ps) = if decide (x.1 = cls) then x.2 else assoc cls ps.
Proof. unfold assoc. cbn [find_if]. case_decide; [by rewrite bool_decide_true|by rewrite bool_decide_false]. Qed.
Lemma assoc_in cls k ps : NoDup ps.*1 → (cls, k) ∈ ps → assoc cls ps = k.
Proof.
  induction ps as [|x ps IH]; [by intros _ ?%not_elem_of_nil|]. rewrite assoc_cons. intros [Hx Hnd]%NoDup_cons [<-|Hin]%elem_of_cons; [by rewrite decide_True|].
  rewrite decide_False; [by apply IH|]. intros Hc. apply Hx. rewrite Hc. exact (list_elem_of_fmap_2 fst _ _ Hin).
Qed.
Lemma assoc_none cls ps : cls ∉ ps.*1 → assoc cls ps = ""%string.
Proof.
  induction ps as [|x ps IH]; [done|]. rewrite assoc_cons, fmap_cons, not_elem_of_cons. intros [Hx Hin]. rewrite decide_False by done. by apply IH.
Qed.
Lemma assoc_perm cls ps ps' : NoDup ps.*1 → ps ≡ₚ ps' → assoc cls ps = assoc cls ps'.
Proof.
  intros Hnd Hp. assert (NoDup ps'.*1) as Hnd' by (by rewrite <- Hp). destruct (decide (cls ∈ ps.*1)) as [Hin|Hin].
  - apply list_elem_of_fmap in Hin as ([c k] & -> & Hin). cbn. rewrite (assoc_in c k ps) by done. symmetry. apply assoc_in; [done|]. by rewrite <- Hp.
  - rewrite !assoc_none; [done|by rewrite <- Hp|done].
Qed.

(** The last entry in the place of another *)
Definition moved_over {A} (r : nat) (x : A) (l : list A) : list A := removelast (<[r := x]> l).
Lemma moved_over_perm {A} r (x y : A) l : l !! r = Some y → last l = Some x → l ≡ₚ y :: moved_over r x l.
Proof.
  intros Hr Hl. apply last_Some in Hl as [l' ->]. unfold moved_over. destruct (decide (r = length l')) as [->|Hne].
  - rewrite list_lookup_middle in Hr by done. injection Hr as ->. rewrite list_insert_id by (by apply list_lookup_middle). rewrite removelast_last. by rewrite Permutation_app_comm.
  - assert (r < length l')%nat as Hlt by (apply lookup_lt_Some in Hr; rewrite length_app in Hr; cbn in Hr; lia).
    rewrite lookup_app_l in Hr by done. rewrite insert_app_l by done. rewrite removelast_last. rewrite insert_take_drop by done.
    rewrite <- (take_drop_middle l' r y Hr) at 1. rewrite <- app_assoc. cbn. rewrite <- !Permutation_middle, app_nil_r. done.
Qed.
Lemma moved_over_fmap {A B} (f : A → B) r x l : f <$> moved_over r x l = moved_over r (f x) (f <$> l).
Proof. unfold moved_over. rewrite !removelast_firstn_len, <- list_fmap_insert, length_fmap. by rewrite fmap_take. Qed.

Section keys.
Context {G V : Type} {VA : Values V} {CG : Core G V} {CL : CoreLaws G V}.
Implicit Types (g : G) (t : Table V) (ps : keys).

Record has_keys g ps : Prop := {
  hk_table : ∃ t c0 c1, get_table pk_table_name g = Some t ∧ t_columns t = [c0; c1] ∧ d_type (c_desc c0) = type_String ∧ d_type (c_desc c1) = type_String ∧
    to_string <$> c_values c0 = ps.*1 ∧ to_string <$> c_values c1 = ps.*2;
  hk_distinct : NoDup ps.*1 }.

Lemma has_keys_frame g g' ps : get_table pk_table_name g' = get_table pk_table_name g → has_keys g ps → has_keys g' ps.
Proof. intros E [Ht Hd]. split; [by rewrite E|done]. Qed.

Lemma typed_column_spec ty n i g t c : get_table n g = Some t → t_columns t !! i = Some c → d_type (c_desc c) = ty →
  typed_column ty n (Z.of_nat i) g = Some (i, t, c).
Proof.
  intros Ht Hc Hty. unfold typed_column. rewrite Ht. cbn [mbind option_bind]. rewrite position_of by (by eapply lookup_lt_Some). cbn [mbind option_bind].
  rewrite Hc. cbn [mbind option_bind]. by rewrite bool_decide_true.
Qed.

Lemma find_if_fmap {A B} (f : A → B) (p : B → bool) l : find_if p (f <$> l) = find_if (λ x, p (f x)) l.
Proof. induction l as [|x l IH]; [done|]. cbn. by rewrite IH. Qed.

(** The row of a class *)
Lemma find_key_row g ps cls : has_keys g ps →
  find_first_string pk_table_name 0 cls g = Some (if decide (cls ∈ ps.*1) then Some (find_if (λ x, bool_decide (x.1 = cls)) ps) else None).
Proof.
  intros [(t & c0 & c1 & Ht & Hcs & Hty & _ & Hv0 & _) _]. unfold find_first_string.
  change 0 with (Z.of_nat 0). rewrite (typed_column_spec type_String pk_table_name 0 g t c0) by (done || by rewrite Hcs). cbn [mbind option_bind].
  assert (find_if (λ v, bool_decide (to_string v = cls)) (c_values c0) = find_if (λ x, bool_decide (x.1 = cls)) ps) as ->.
  { transitivity (find_if (λ s, bool_decide (s = cls)) (to_string <$> c_values c0)); [symmetry; exact (find_if_fmap to_string (λ s, bool_decide (s = cls)) _)|].
    rewrite Hv0. exact (find_if_fmap fst (λ s, bool_decide (s = cls)) _). }
  assert (length (c_values c0) = length ps) as -> by (apply (f_equal length) in Hv0; by rewrite !length_fmap in Hv0). f_equal.
  destruct (find_if_spec (λ x : string * string, bool_decide (x.1 = cls)) ps) as [[-> Hall]|(l1 & a & l2 & -> & -> & _ & Ha)].
  - replace (length ps <? length ps)%nat with false by (symmetry; apply Nat.ltb_ge; lia). rewrite decide_False; [done|]. intros (x & -> & Hx)%list_elem_of_fmap.
    rewrite Forall_forall in Hall. specialize (Hall x Hx). by rewrite bool_decide_true in Hall.
  - rewrite length_app. cbn [length]. replace (length l1 <? length l1 + S (length l2))%nat with true by (symmetry; apply Nat.ltb_lt; lia).
    case_bool_decide as E; [|done]. rewrite decide_True; [done|]. rewrite <- E. apply list_elem_of_fmap_2, elem_of_app. right. apply elem_of_cons. by left.
Qed.

Lemma key_row ps cls : NoDup ps.*1 → cls ∈ ps.*1 → ps !! find_if (λ x, bool_decide (x.1 = cls)) ps = Some (cls, assoc cls ps).
Proof.
  intros Hnd (x & -> & Hx)%list_elem_of_fmap. unfold assoc.
  destruct (find_if_spec (λ y : string * string, bool_decide (y.1 = x.1)) ps) as [[_ Hall]|(l1 & a & l2 & -> & -> & _ & Ha)].
  - rewrite Forall_forall in Hall. specialize (Hall x Hx). by rewrite bool_decide_true in Hall.
  - rewrite list_lookup_middle by done. cbn. case_bool_decide as E; [|done]. destruct a. cbn in *. by subst.
Qed.

Lemma get_key g ps cls : has_keys g ps → get_primary_key_for_object cls g = Some (assoc cls ps).
Proof.
  intros Hk. pose proof Hk as [(t & c0 & c1 & Ht & Hcs & _ & Hty & _ & Hv1) Hnd]. unfold get_primary_key_for_object. change c_primaryKeyTableName with pk_table_name.
  rewrite Ht, (find_key_row g ps cls Hk). cbn [mbind option_bind]. destruct (decide (cls ∈ ps.*1)) as [Hin|Hin]; [|by rewrite assoc_none].
  pose proof (key_row ps cls Hnd Hin) as Hrow. set (r := find_if _ ps) in *.
  assert ((to_string <$> c_values c1) !! r = Some (assoc cls ps)) as Hl by (by rewrite Hv1, list_lookup_fmap, Hrow).
  rewrite list_lookup_fmap in Hl. destruct (c_values c1 !! r) as [v|] eqn:Ev; [|done]. injection Hl as Hl.
  change 1 with (Z.of_nat 1). rewrite (get_value_spec type_String pk_table_name 1 r g t c1 v) by (done || by rewrite Hcs). cbn. by rewrite Hl.
Qed.

(** *** Changing a key *)
Lemma key_columns g ps : has_keys g ps → ∃ t c0 c1, get_table pk_table_name g = Some t ∧ t = MkTable pk_table_name [c0; c1] (length ps) ∧
  d_type (c_desc c0) = type_String ∧ d_type (c_desc c1) = type_String ∧ to_string <$> c_values c0 = ps.*1 ∧ to_string <$> c_values c1 = ps.*2.
Proof.
  intros [(t & c0 & c1 & Ht & Hcs & Hty0 & Hty1 & Hv0 & Hv1) _]. exists t, c0, c1. split_and!; try done.
  pose proof (get_table_name _ _ _ Ht) as Hn. pose proof (column_rows g _ t 0 c0 Ht ltac:(by rewrite Hcs)) as Hr.
  apply (f_equal length) in Hv0. rewrite !length_fmap in Hv0. destruct t as [tn tcs tr]. cbn in *. f_equal; [done|done|lia].
Qed.

(** Every other table stays. *)
Definition only_keys g g' : Prop := ∀ m, m ≠ pk_table_name → get_table m g' = get_table m g.

Lemma updates_only_keys g F g' : updates g pk_table_name F g' → only_keys g g'.
Proof. intros Hu m Hm. by eapply updates_other. Qed.

Lemma set_string_spec i r v g t c : get_table pk_table_name g = Some t → t_columns t !! i = Some c → d_type (c_desc c) = type_String → (r < t_rows t)%nat →
  ∃ g', set_value type_String pk_table_name (Z.of_nat i) r (of_string v) g = Some g' ∧ updates g pk_table_name (with_columns (alter (set_cell r (of_string v)) i)) g'.
Proof. intros. by eapply set_value_spec. Qed.

(** A row that is added *)
Lemma keys_added_at g ps cls key t g' : has_keys g ps → cls ∉ ps.*1 → get_table pk_table_name g = Some t →
  get_table pk_table_name g' = Some (add_key_row cls key t) → has_keys g' (ps ++ [(cls, key)]).
Proof.
  intros Hk Hcls Ht Ht'. destruct (key_columns g ps Hk) as (t0 & c0 & c1 & Ht0 & Et & Hty0 & Hty1 & Hv0 & Hv1). rewrite Ht in Ht0. injection Ht0 as <-. split.
  - do 3 eexists. split; [exact Ht'|]. rewrite Et. unfold add_key_row, with_columns, add_row. cbn [t_columns t_rows fmap list_fmap]. split; [reflexivity|]. cbn [set_cell add_cell c_desc c_values].
    split; [done|]. split; [done|].
    assert (∀ c l x, to_string <$> c_values c = l → length l = length ps → to_string <$> <[length ps := of_string x]> (c_values c ++ [default_of (c_desc c)]) = l ++ [x]) as Hset.
    { intros c l x Hc Hl. rewrite list_fmap_insert, fmap_app, Hc, to_of_string. rewrite <- Hl. by rewrite insert_app_r_alt, Nat.sub_diag by done. }
    split; rewrite fmap_app; apply Hset; rewrite ?length_fmap; done.
  - rewrite fmap_app. apply NoDup_app. split; [by apply hk_distinct with g|]. split; [|by apply NoDup_singleton]. intros x Hx ->%list_elem_of_singleton. done.
Qed.
Lemma keys_added g ps cls key g' : has_keys g ps → cls ∉ ps.*1 → updates g pk_table_name (add_key_row cls key) g' → has_keys g' (ps ++ [(cls, key)]).
Proof.
  intros Hk Hcls Hu. destruct (key_columns g ps Hk) as (t & _ & _ & Ht & _). eapply keys_added_at; [done|done|exact Ht|]. by eapply updates_at.
Qed.

Lemma assoc_snoc cls key cls' ps : cls ∉ ps.*1 → assoc cls' (ps ++ [(cls, key)]) = if decide (cls' = cls) then key else assoc cls' ps.
Proof.
  induction ps as [|x ps IH]; cbn [app].
  - intros _. rewrite assoc_cons. cbn. by repeat case_decide.
  - rewrite fmap_cons, not_elem_of_cons. intros [Hx Hin]. rewrite !assoc_cons, IH by done. repeat case_decide; congruence.
Qed.

Lemma set_primary_key_spec g ps cls key : sync_has_object_ids = false → has_keys g ps →
  ∃ g' ps', set_primary_key_for_object cls key g = Some g' ∧ has_keys g' ps' ∧ only_keys g g' ∧
    (∀ cls', assoc cls' ps' = if decide (cls' = cls) then key else assoc cls' ps) ∧ ∀ cls', cls' ∈ ps'.*1 → cls' ∈ ps.*1 ∨ cls' = cls.
Proof.
  intros Hids Hk. pose proof (hk_distinct _ _ Hk) as Hnd. unfold set_primary_key_for_object. change c_primaryKeyTableName with pk_table_name.
  rewrite (find_key_row g ps cls Hk), Hids. cbn [mbind option_bind].
  destruct (key_columns g ps Hk) as (t & c0 & c1 & Ht & Et & Hty0 & Hty1 & Hv0 & Hv1).
  destruct (decide (cls ∈ ps.*1)) as [Hin|Hin].
  - pose proof (key_row ps cls Hnd Hin) as Hrow. set (r := find_if _ ps) in *. pose proof (lookup_lt_Some _ _ _ Hrow) as Hr.
    destruct (decide (key = ""%string)) as [->|Hkey].
    + destruct (last ps) as [x|] eqn:El; [|apply last_None in El; by rewrite El in Hin; apply not_elem_of_nil in Hin].
      pose proof (moved_over_perm r x _ ps Hrow El) as Hp.
      assert (updates g pk_table_name (drop_row r) (core_move_last_over pk_table_name r g)) as Hu.
      { apply by_law; [done|]. eapply move_last_over_law; [exact Ht|by rewrite Et|]. rewrite Et. cbn. repeat constructor; unfold is_link; by rewrite ?Hty0, ?Hty1. }
      exists (core_move_last_over pk_table_name r g), (moved_over r x ps). split; [done|]. split; [|split; [by eapply updates_only_keys|split]].
      * pose proof (updates_at _ _ _ _ _ Hu Ht) as Ht'. split.
        -- do 3 eexists. split; [exact Ht'|]. rewrite Et. cbn [drop_row t_columns fmap list_fmap]. split; [reflexivity|]. cbn [drop_cell c_desc c_values].
           split; [done|]. split; [done|].
           assert (∀ c (f : string * string → string), to_string <$> c_values c = f <$> ps →
             to_string <$> match last (c_values c) with Some v => removelast (<[r := v]> (c_values c)) | None => [] end = f <$> moved_over r x ps) as Hdrop.
           { intros c f Hc. rewrite moved_over_fmap, <- Hc. assert (last (to_string <$> c_values c) = Some (f x)) as Hl by (by rewrite Hc, fmap_last, El).
             rewrite fmap_last in Hl. destruct (last (c_values c)) as [v|]; [|done]. injection Hl as <-. exact (moved_over_fmap to_string r v _). }
           split; by apply Hdrop.
        -- rewrite Hp in Hnd. cbn in Hnd. by apply NoDup_cons in Hnd as [_ ?].
      * intros cls'. assert (NoDup ((cls, assoc cls ps) :: moved_over r x ps).*1) as Hnd' by (by rewrite <- Hp). rewrite (assoc_perm cls' _ _ Hnd Hp), assoc_cons.
        rewrite fmap_cons in Hnd'. apply NoDup_cons in Hnd' as [Hnot _]. cbn [fst snd] in *. destruct (decide (cls = cls')) as [<-|E1]; destruct (decide (_ = _)); try congruence.
        by rewrite assoc_none.
      * intros cls' Hcls'. left. rewrite Hp, fmap_cons. apply elem_of_cons. by right.
    + destruct (set_string_spec 1 r key g t c1) as (g' & E & Hu); [done|by rewrite Et|done|by rewrite Et|]. change (Z.of_nat 1) with 1 in E. rewrite E.
      exists g', (<[r := (cls, key)]> ps). split; [done|]. split; [|split; [by eapply updates_only_keys|split]].
      * pose proof (updates_at _ _ _ _ _ Hu Ht) as Ht'. split.
        -- do 3 eexists. split; [exact Ht'|]. rewrite Et. cbn [with_columns t_columns alter list_alter]. split; [reflexivity|]. cbn [set_cell c_desc c_values].
           split; [done|]. split; [done|]. rewrite !list_fmap_insert, Hv0, Hv1, to_of_string. split; [|done]. cbn [fst]. symmetry. apply list_insert_id. by rewrite list_lookup_fmap, Hrow.
        -- rewrite list_fmap_insert. cbn [fst]. rewrite list_insert_id; [done|]. by rewrite list_lookup_fmap, Hrow.
      * intros cls'. clear - Hrow Hnd Hr. subst r. revert Hrow Hnd Hr. induction ps as [|y ps IH]; [done|]. cbn [find_if]. case_bool_decide as E.
        -- intros _ _ _. change (<[0%nat := (cls, key)]> (y :: ps)) with ((cls, key) :: ps). rewrite !assoc_cons. cbn [fst snd]. repeat case_decide; congruence.
        -- intros Hrow [_ Hnd]%NoDup_cons Hr. set (k := find_if _ ps) in *. change (<[S k := (cls, key)]> (y :: ps)) with (y :: <[k := (cls, key)]> ps).
           change ((y :: ps) !! S k) with (ps !! k) in Hrow. rewrite !assoc_cons. rewrite IH; [|by rewrite Hrow, assoc_cons, decide_False by done|done|cbn in Hr; lia].
           repeat case_decide; congruence.
      * intros cls'. rewrite list_fmap_insert. cbn [fst]. rewrite list_insert_id; [by left|]. by rewrite list_lookup_fmap, Hrow.
  - destruct (decide (key = ""%string)) as [->|Hkey].
    + exists g, ps. split; [done|]. split; [done|]. split; [done|]. split; [|by auto]. intros cls'. case_decide as E; [|done]. subst. by apply assoc_none.
    + rewrite Ht. cbn [mbind option_bind]. replace (t_rows t) with (length ps) by (by rewrite Et).
      set (g1 := core_add_empty_row pk_table_name g). assert (updates g pk_table_name add_row g1) as H1.
      { apply by_law; [done|]. eapply add_empty_row_law; [exact Ht|by rewrite Et]. }
      pose proof (updates_at _ _ _ _ _ H1 Ht) as Ht1. destruct (set_string_spec 0 (length ps) cls g1 _ (add_cell c0) Ht1) as (g2 & E2 & H2);
        [by rewrite Et|done|by rewrite Et; cbn; lia|]. change (Z.of_nat 0) with 0 in E2. rewrite E2. cbn [mbind option_bind].
      pose proof (updates_at _ _ _ _ _ H2 Ht1) as Ht2. destruct (set_string_spec 1 (length ps) key g2 _ (add_cell c1) Ht2) as (g3 & E3 & H3);
        [by rewrite Et|done|by rewrite Et; cbn; lia|]. change (Z.of_nat 1) with 1 in E3. rewrite E3.
      assert (updates g pk_table_name (add_key_row cls key) g3) as Hu.
      { eapply updates_ext; [exact Ht| |eapply updates_trans; [eapply updates_trans; [exact H1|exact H2]|exact H3]]. by rewrite Et. }
      exists g3, (ps ++ [(cls, key)]). split; [done|]. split; [by eapply keys_added|]. split; [by eapply updates_only_keys|].
      split; [intros cls'; by apply assoc_snoc|]. intros cls'. rewrite fmap_app, elem_of_app. cbn. rewrite list_elem_of_singleton. tauto.
Qed.

(** ** New tables *)
Lemma get_added n t g g' : t_name t = n → tables g' ≡ₚ t :: tables g → ∀ m, get_table m g' = if decide (m = n) then Some t else get_table m g.
Proof.
  intros Hn Hp m. unfold get_table. rewrite (find_table_perm m _ _ (names_unique_law g') Hp), find_table_cons, Hn. repeat case_decide; congruence.
Qed.
Lemma get_same g g' : tables g' ≡ₚ tables g → ∀ m, get_table m g' = get_table m g.
Proof. intros Hp m. unfold get_table. by rewrite (find_table_perm m _ _ (names_unique_law g') Hp). Qed.

(** The primary key of a class, if it has one, can be made a column. *)
Definition key_creatable (os : ObjectSchema) : Prop :=
  match primary_key_property os with
  | Some pk => ∃ ty, to_core_type (type pk) = Some ty ∧ is_array (type pk) = false ∧ is_primary pk = true
  | None => True
  end.
Definition key_columns_of (os : ObjectSchema) : list (Column V) :=
  match primary_key_property os with
  | Some pk => match desc_for pk with Some d => [column_for pk d 0] | None => [] end
  | None => []
  end.
Definition key_name (os : ObjectSchema) : string := match primary_key_property os with Some pk => name pk | None => ""%string end.

Lemma key_column pk ty : to_core_type (type pk) = Some ty → is_array (type pk) = false → is_primary pk = true →
  let d := Desc ty (name pk) (is_nullable (type pk)) "" [] in desc_for pk = Some d ∧ column_for pk d 0 = with_index (V := V) true (new_column d 0).
Proof.
  intros Hty Ha Hp. pose proof (to_core_type_cases _ _ Hty) as Hin. destruct (core_types_base _ _ Hin) as (Hb & _ & Ho & Hl & _).
  assert (type_eqb (type pk) PT_Object = false ∧ type_eqb (type pk) PT_LinkingObjects = false) as [E1 E2].
  { unfold type_eqb. change (base_type PT_Object) with PT_Object. change (base_type PT_LinkingObjects) with PT_LinkingObjects. split; by apply Z.eqb_neq. }
  unfold desc_for, column_for, index_for, Props.requires_index. by rewrite E1, E2, Ha, Hty, Hp.
Qed.

Lemma create_table_exists os g t : key_creatable os → get_table (table_name_for_object_type (class_name os)) g = Some t →
  ∃ g', create_table os g = Some g' ∧ ∀ m, get_table m g' = get_table m g.
Proof.
  intros Hk Ht. unfold create_table, key_creatable in *. destruct (primary_key_property os) as [pk|].
  - destruct Hk as (ty & -> & _). cbn [mbind option_bind]. eexists. split; [done|]. apply get_same. by eapply (proj1 (create_with_key_law (class_name os) _ _ _ g)).
  - eexists. split; [done|]. apply get_same. by eapply (proj1 (create_table_law _ g)).
Qed.

Lemma create_table_new os g ps : let n := table_name_for_object_type (class_name os) in
  key_creatable os → get_table n g = None → has_keys g ps → class_name os ∉ ps.*1 →
  ∃ g' ids ps', create_table os g = Some g' ∧ id_columns ids ∧ get_table n g' = Some (MkTable n (ids ++ key_columns_of os) 0) ∧
    (∀ m, m ≠ n → m ≠ pk_table_name → get_table m g' = get_table m g) ∧ has_keys g' ps' ∧
    (∀ cls, assoc cls ps' = if decide (cls = class_name os) then key_name os else assoc cls ps) ∧ ∀ cls, cls ∈ ps'.*1 → cls ∈ ps.*1 ∨ cls = class_name os.
Proof.
  intros n Hk Hn Hkeys Hcls. unfold create_table, key_creatable, key_columns_of, key_name in *. fold n.
  destruct (primary_key_property os) as [pk|].
  - destruct Hk as (ty & Hty & Ha & Hp). destruct (key_column pk ty Hty Ha Hp) as [-> ->]. rewrite Hty. cbn [mbind option_bind].
    pose proof (key_columns g ps Hkeys) as (t & _ & _ & Ht & _).
    destruct (proj2 (create_with_key_law (class_name os) ty (name pk) (is_nullable (type pk)) g) Hn) as (ids & Hids & Hp'); [unfold get_table in Ht; by rewrite Ht|].
    change (class_prefix ++ class_name os)%string with n in Hp'. set (g' := sync_create_table_with_primary_key n ty (name pk) (is_nullable (type pk)) g) in *.
    assert (∀ m, get_table m g' = if decide (m = n) then Some (MkTable n (ids ++ [with_index true (new_column (Desc ty (name pk) (is_nullable (type pk)) "" []) 0)]) 0)
      else (if decide (m = pk_table_name) then add_key_row (class_name os) (name pk) else id) <$> get_table m g) as Hget.
    { intros m. unfold get_table. rewrite (find_table_perm m _ _ (names_unique_law g') Hp'), find_table_cons. cbn [t_name].
      destruct (decide (n = m)) as [->|E]; [by rewrite decide_True|]. rewrite (decide_False (P := m = n)) by done. by apply find_on_table. }
    assert (n ≠ pk_table_name) as Hne by apply table_name_apart.
    exists g', ids, (ps ++ [(class_name os, name pk)]). split; [done|]. split; [done|]. split; [by rewrite Hget, decide_True|]. split.
    { intros m H1 H2. rewrite Hget, !decide_False by done. by destruct (get_table m g). }
    split.
    + pose proof (key_columns g ps Hkeys) as (u & c0 & c1 & Hu & Eu & _).
      assert (get_table pk_table_name g' = Some (add_key_row (class_name os) (name pk) u)) as Hu' by (rewrite Hget, decide_False, decide_True, Hu by done; done).
      by eapply keys_added_at.
    + split; [intros cls; by apply assoc_snoc|]. intros cls. rewrite fmap_app, elem_of_app. cbn. rewrite list_elem_of_singleton. tauto.
  - destruct (proj2 (create_table_law n g) Hn) as (ids & Hids & Hp'). set (g' := sync_create_table n g) in *. pose proof (get_added n (MkTable n ids 0) g g' eq_refl Hp') as Hget.
    exists g', ids, ps. split; [done|]. split; [done|]. rewrite app_nil_r. split; [by rewrite Hget, decide_True|].
    split; [intros m H1 _; by rewrite Hget, decide_False|]. split; [|split].
    + eapply has_keys_frame; [|exact Hkeys]. rewrite Hget. apply decide_False. intros E. by apply (proj1 (table_name_apart (class_name os))).
    + intros cls. case_decide as E; [|done]. subst. by apply assoc_none.
    + auto.
Qed.
End keys.

(** ** The version *)
Section version.
Context {G V : Type} {VA : Values V} {CG : Core G V} {CL : CoreLaws G V}.
Implicit Types (g : G) (t : Table V) (ps : keys).

Definition has_meta g : Prop :=
  ∃ t c v, get_table c_metadataTableName g = Some t ∧ t_columns t !! 0%nat = Some c ∧ d_type (c_desc c) = type_Int ∧ c_values c !! 0%nat = Some v.
Lemma has_meta_frame g g' : get_table c_metadataTableName g' = get_table c_metadataTableName g → has_meta g → has_meta g'.
Proof. intros E (t & c & v & Ht & Hr). exists t, c, v. by rewrite E. Qed.

Lemma version_frame g g' : get_table c_metadataTableName g' = get_table c_metadataTableName g → get_schema_version g' = get_schema_version g.
Proof. intros E. unfold get_schema_version, get_value, typed_column. by rewrite E. Qed.

Lemma int64_round version : 0 <= version < W64 → wrap (to_int64 version) = version.
Proof. intros Hv. unfold wrap, to_int64. change (2 ^ 63) with 9223372036854775808. change (2 ^ 64) with W64. destruct (Z.ltb_spec version 9223372036854775808); Z.to_euclidean_division_equations; lia. Qed.

Lemma set_version_spec g version : has_meta g → 0 <= version < W64 →
  ∃ g', set_version version g = Some g' ∧ has_meta g' ∧ get_schema_version g' = Some version ∧ ∀ m, m ≠ c_metadataTableName → get_table m g' = get_table m g.
Proof.
  intros (t & c & v & Ht & Hc & Hty & Hv) Hver. pose proof (column_rows _ _ _ _ _ Ht Hc) as Hr. apply lookup_lt_Some in Hv as Hv'.
  unfold set_version. change 0 with (Z.of_nat 0) at 1. destruct (set_value_spec type_Int c_metadataTableName 0 0 (of_int (to_int64 version)) g t c) as (g' & -> & Hu); [done|done|done|lia|].
  pose proof (updates_at _ _ _ _ _ Hu Ht) as Ht'. set (c' := set_cell 0 (of_int (to_int64 version)) c).
  assert (t_columns (with_columns (alter (set_cell 0 (of_int (to_int64 version))) 0%nat) t) !! 0%nat = Some c') as Hc' by (cbn; by rewrite list_lookup_alter_eq, Hc).
  assert (c_values c' !! 0%nat = Some (of_int (to_int64 version))) as Hx by (cbn; by apply list_lookup_insert_eq).
  exists g'. split; [done|]. split; [by do 3 eexists|]. split.
  - unfold get_schema_version. rewrite Ht'. rewrite decide_False by (intros E; by rewrite E in Hc'). change 0 with (Z.of_nat 0).
    rewrite (get_value_spec type_Int c_metadataTableName 0 0 g' _ c' _ Ht' Hc' Hty Hx). cbn [mbind option_bind]. rewrite to_of_int; [by rewrite int64_round|].
    unfold to_int64. change (2 ^ 63) with 9223372036854775808 in *. change (2 ^ 64) with W64. destruct (Z.ltb_spec version 9223372036854775808); lia.
  - intros m Hm. by eapply updates_other.
Qed.

(** The metadata tables are both as they should be, or not there yet. *)
Definition prepared g ps : Prop :=
  (has_keys g ps ∨ get_table pk_table_name g = None ∧ ps = []) ∧ (has_meta g ∨ get_table c_metadataTableName g = None).

Lemma get_or_add_spec n g : let g' := get_or_add_table n g in
  is_Some (get_table n g') ∧ (get_table n g = None → get_table n g' = Some (MkTable n [] 0)) ∧ (is_Some (get_table n g) → g' = g) ∧
  ∀ m, m ≠ n → get_table m g' = get_table m g.
Proof.
  unfold get_or_add_table. destruct (get_table n g) as [t|] eqn:E; [by rewrite E|].
  pose proof (get_added n (MkTable n [] 0) g (core_add_table n g) eq_refl (add_table_law n g E)) as Hget. cbn [t_name] in Hget.
  rewrite Hget, decide_True by done. split; [by eexists|]. split; [done|]. split; [by intros [? ?]|]. intros m Hm. rewrite Hget. by rewrite decide_False.
Qed.

Lemma prepare_meta g : has_meta g ∨ get_table c_metadataTableName g = Some (MkTable c_metadataTableName [] 0) →
  ∃ m, get_table c_metadataTableName g = Some m ∧ ∃ g',
    (if decide (t_columns m = []) then
       g ← add_columns c_metadataTableName 0 (Desc type_Int c_versionColumnName false "" []) g;
       set_value type_Int c_metadataTableName 0 0 (of_int (to_int64 NotVersioned)) (core_add_empty_row c_metadataTableName g)
     else Some g) = Some g' ∧ has_meta g' ∧ get_schema_version g' = get_schema_version g ∧ ∀ m, m ≠ c_metadataTableName → get_table m g' = get_table m g.
Proof.
  intros [Hm|Ht].
  - pose proof Hm as (t & c & v & Ht & Hc & _). exists t. split; [done|]. exists g. rewrite decide_False by (intros E; by rewrite E in Hc). done.
  - eexists. split; [exact Ht|]. cbn [t_columns]. rewrite decide_True by done. set (n := c_metadataTableName) in *. change 0 with (Z.of_nat 0).
    destruct (add_columns_spec n 0 (Desc type_Int c_versionColumnName false "" []) g _ Ht ltac:(cbn; lia)) as (g1 & -> & H1). cbn [mbind option_bind].
    pose proof (updates_at _ _ _ _ _ H1 Ht) as Ht1. assert (updates g1 n add_row (core_add_empty_row n g1)) as H2.
    { apply by_law; [done|]. by eapply add_empty_row_law; [exact Ht1|]. }
    pose proof (updates_at _ _ _ _ _ H2 Ht1) as Ht2. destruct (set_value_spec type_Int n 0 0 (of_int (to_int64 NotVersioned)) _ _ _ Ht2 eq_refl eq_refl) as (g3 & -> & H3); [cbn; lia|].
    pose proof (updates_at _ _ _ _ _ H3 Ht2) as Ht3. exists g3. split; [done|]. split; [by do 3 eexists|]. split.
    { unfold get_schema_version. change c_metadataTableName with n. rewrite Ht3, decide_False by (intros E; by apply (f_equal (λ l, l !! 0%nat)) in E). rewrite Ht, decide_True by done. change 0 with (Z.of_nat 0).
      erewrite (get_value_spec type_Int n 0 0 g3); [|exact Ht3|reflexivity|done|reflexivity]. cbn [mbind option_bind]. rewrite to_of_int; [done|].
      by vm_compute. }
    intros m Hm. rewrite (updates_other _ _ _ _ m H3 Hm), (updates_other _ _ _ _ m H2 Hm). by eapply updates_other.
Qed.

Lemma prepare_keys g ps : has_keys g ps ∨ get_table pk_table_name g = Some (MkTable pk_table_name [] 0) ∧ ps = [] →
  ∃ t, get_table pk_table_name g = Some t ∧ ∃ g',
    (g ← (if decide (t_columns t = []) then
            g ← add_columns pk_table_name 0 (Desc type_String c_primaryKeyObjectClassColumnName false "" []) g;
            add_columns pk_table_name 1 (Desc type_String c_primaryKeyPropertyNameColumnName false "" []) g
          else Some g);
     add_search_index pk_table_name 0 g) = Some g' ∧ has_keys g' ps ∧ only_keys g g'.
Proof.
  assert (∀ g, has_keys g ps → ∃ g', add_search_index pk_table_name 0 g = Some g' ∧ has_keys g' ps ∧ only_keys g g') as Hindex.
  { clear g. intros g Hk. destruct (key_columns g ps Hk) as (t & c0 & c1 & Ht & Et & H0 & H1 & Hv0 & Hv1).
    destruct (add_search_index_spec pk_table_name 0 g t Ht) as (g' & E & Hu); [rewrite Et; cbn; lia|]. exists g'. split; [done|]. split; [|by eapply updates_only_keys].
    split; [|by eapply hk_distinct]. do 3 eexists. split; [by eapply updates_at|]. rewrite Et. cbn [with_columns t_columns]. split; [reflexivity|]. done. }
  intros [Hk|[Ht ->]].
  - pose proof (key_columns g ps Hk) as (t & c0 & c1 & Ht & Et & _). exists t. split; [done|]. rewrite decide_False by (by rewrite Et). by apply Hindex.
  - eexists. split; [exact Ht|]. cbn [t_columns]. rewrite decide_True by done. set (n := pk_table_name) in *.
    destruct (add_columns_spec n 0 (Desc type_String c_primaryKeyObjectClassColumnName false "" []) g _ Ht ltac:(cbn; lia)) as (g1 & E1 & H1).
    change (Z.of_nat 0) with 0 in E1. rewrite E1. cbn [mbind option_bind]. pose proof (updates_at _ _ _ _ _ H1 Ht) as Ht1.
    destruct (add_columns_spec n 1 (Desc type_String c_primaryKeyPropertyNameColumnName false "" []) g1 _ Ht1 ltac:(cbn; lia)) as (g2 & E2 & H2).
    change (Z.of_nat 1) with 1 in E2. rewrite E2. cbn [mbind option_bind]. pose proof (updates_at _ _ _ _ _ H2 Ht1) as Ht2.
    destruct (Hindex g2) as (g3 & E3 & Hk & Ho).
    { split; [|constructor]. do 3 eexists. split; [exact Ht2|]. cbn. by split_and!. }
    exists g3. split; [done|]. split; [done|]. intros m Hm. rewrite (Ho m Hm), (updates_other _ _ _ _ m H2 Hm). by eapply updates_other.
Qed.

Lemma create_metadata_tables_spec g ps : prepared g ps →
  ∃ g', create_metadata_tables g = Some g' ∧ has_keys g' ps ∧ has_meta g' ∧ get_schema_version g' = get_schema_version g ∧ ∀ m, m ≠ pk_table_name → m ≠ c_metadataTableName → get_table m g' = get_table m g.
Proof.
  intros [Hk Hm]. unfold create_metadata_tables. change c_primaryKeyTableName with pk_table_name.
  destruct (get_or_add_spec pk_table_name g) as (_ & Hnew1 & Hold1 & Ho1). set (g1 := get_or_add_table pk_table_name g) in *.
  destruct (get_or_add_spec c_metadataTableName g1) as (_ & Hnew2 & Hold2 & Ho2). set (g2 := get_or_add_table c_metadataTableName g1) in *.
  assert (get_table c_metadataTableName g1 = get_table c_metadataTableName g) as Em by (by apply Ho1).
  destruct (prepare_meta g2) as (m & -> & g3 & E3 & Hm3 & Hver & Ho3).
  { destruct Hm as [Hm|Hm]; [left|right; apply Hnew2; congruence]. rewrite Hold2; [by eapply has_meta_frame|]. destruct Hm as (t & _ & _ & Ht & _). rewrite Em, Ht. by eexists. }
  cbn [mbind option_bind]. rewrite E3. cbn [mbind option_bind].
  assert (get_table pk_table_name g3 = get_table pk_table_name g1) as Ep by (rewrite Ho3, Ho2; done).
  destruct (prepare_keys g3 ps) as (t & -> & g4 & E4 & Hk4 & Ho4).
  { destruct Hk as [Hk|[Hk ->]]; [left|right; split; [|done]; rewrite Ep; by apply Hnew1]. eapply has_keys_frame; [|exact Hk].
    rewrite Ep, Hold1; [done|]. destruct (hk_table _ _ Hk) as (t & _ & _ & -> & _). by eexists. }
  cbn [mbind option_bind]. exists g4. split; [exact E4|]. split; [done|]. split; [eapply has_meta_frame; [|exact Hm3]; by apply Ho4|]. split.
  { rewrite (version_frame g3 g4), Hver by (by apply Ho4). destruct (get_table c_metadataTableName g) as [t0|] eqn:Eg.
    - apply version_frame. by rewrite Hold2, Em by (rewrite Em; by eexists).
    - unfold get_schema_version. by rewrite Eg, Hnew2 by congruence. }
  intros n H1 H2. rewrite (Ho4 n H1), (Ho3 n H2), (Ho2 n H2). by apply Ho1.
Qed.

(** ** The first columns of a class *)
Definition new_columns (rows : nat) (l : list Property) : list (Column V) := omap (λ p, d ← desc_for p; Some (column_for p d rows)) l.

Lemma new_columns_in rows l c : c ∈ new_columns rows l ↔ ∃ p d, p ∈ l ∧ desc_for p = Some d ∧ c = column_for p d rows.
Proof.
  unfold new_columns. rewrite list_elem_of_omap. split.
  - intros (p & Hp & Hc). destruct (desc_for p) as [d|] eqn:E; [|done]. injection Hc as <-. by exists p, d.
  - intros (p & d & Hp & Hd & ->). exists p. by rewrite Hd.
Qed.

Definition linkable g (p : Property) : Prop :=
  is_Some (desc_for p) ∧ (type_eqb (type p) PT_Object = true → is_Some (get_table (table_name_for_object_type (object_type p)) g)).

Lemma linkable_updates g n F g' p : updates g n F g' → linkable g p → linkable g' p.
Proof. intros Hu [Hd Hl]. split; [done|]. intros Ho. destruct (Hl Ho) as [t Ht]. rewrite Hu, Ht. by eexists. Qed.

Lemma add_initial_columns_spec os g t : let n := table_name_for_object_type (class_name os) in
  get_table n g = Some t → (∀ p, p ∈ persisted_properties os → is_primary p = false → linkable g p) →
  ∃ g', add_initial_columns os g = Some g' ∧
    updates g n (with_columns (λ cs, cs ++ new_columns (t_rows t) (filter (λ p, is_primary p = false) (persisted_properties os)))) g'.
Proof.
  intros n Ht. unfold add_initial_columns. fold n. generalize (persisted_properties os) as l. intros l. revert g t Ht.
  induction l as [|p l IH]; intros g t Ht Hl; cbn [foldM].
  - exists g. split; [done|]. eapply updates_ext; [exact Ht| |apply updates_id]. unfold with_columns. cbn. rewrite app_nil_r. by destruct t.
  - destruct (is_primary p) eqn:Ep; cbn [mbind option_bind].
    + rewrite filter_cons_False by congruence. apply IH; [done|]. intros q Hq. apply Hl. apply elem_of_cons. by right.
    + destruct (Hl p) as [[d Hd] Hlink]; [apply elem_of_cons; by left|done|]. destruct (add_column_spec n p d g t Ht) as (g1 & -> & H1); [by split|]. cbn [mbind option_bind].
      pose proof (updates_at _ _ _ _ _ H1 Ht) as Ht1. destruct (IH g1 _ Ht1) as (g2 & -> & H2).
      { intros q Hq Hp. eapply linkable_updates; [exact H1|]. apply Hl; [apply elem_of_cons; by right|done]. }
      exists g2. split; [done|]. eapply updates_ext; [exact Ht| |eapply updates_trans; [exact H1|exact H2]].
      unfold with_columns, compose. cbn [t_name t_columns t_rows]. f_equal. rewrite filter_cons_True by done. unfold new_columns. cbn [omap list_omap]. rewrite Hd. cbn. by rewrite <- app_assoc.
Qed.
End version.
