(* ===== verification/ObjectStoreMigration.v ===== *)
(** * Migrating a group to a schema

    What becomes of every column while the changes between two schemas are applied, in whatever order
    the comparison lists them. *)

From Stdlib Require Import String.
From stdpp Require Import strings.
From S2P Require Import Prelude ChangeCalculation Schema SchemaValidationTheorems SchemaCompare SchemaCompareTheorems LogStream Group ObjectStore ObjectStoreSchema ObjectStoreKeys.
Import Class_ Validate Compare Store.
Open Scope Z_scope.

(** ** Flags *)
Lemma optional_flags t : base_type (Z.lor t PT_Nullable) = base_type t ∧ is_array (Z.lor t PT_Nullable) = is_array t ∧ is_nullable (Z.lor t PT_Nullable) = true.
Proof.
  unfold base_type, is_array, is_nullable. rewrite !Z.land_lor_distr_l. change (Z.land PT_Nullable (255 - PT_Flags)) with 0. change (Z.land PT_Nullable PT_Array) with 0.
  rewrite !Z.lor_0_r. split_and!; [done|done|]. apply Z.eqb_eq. change (Z.land PT_Nullable PT_Nullable) with PT_Nullable.
  apply Z.bits_inj. intros i. rewrite Z.lor_spec, Z.land_spec. by destruct (Z.testbit t i), (Z.testbit PT_Nullable i).
Qed.
Lemma mandatory_flags t : base_type (Z.land t (255 - PT_Nullable)) = base_type t ∧ is_array (Z.land t (255 - PT_Nullable)) = is_array t ∧
  is_nullable (Z.land t (255 - PT_Nullable)) = false.
Proof.
  unfold base_type, is_array, is_nullable. rewrite <- !Z.land_assoc. change (Z.land (255 - PT_Nullable) (255 - PT_Flags)) with (255 - PT_Flags).
  change (Z.land (255 - PT_Nullable) PT_Array) with PT_Array. change (Z.land (255 - PT_Nullable) PT_Nullable) with 0. by rewrite Z.land_0_r.
Qed.

Lemma eqb_by_base a b t : base_type a = base_type b → type_eqb a t = type_eqb b t.
Proof. unfold type_eqb. by intros ->. Qed.
Lemma core_by_base a b : base_type a = base_type b → to_core_type a = to_core_type b.
Proof. unfold to_core_type. by intros ->. Qed.

Lemma desc_by_base p q : base_type (type p) = base_type (type q) → is_array (type p) = is_array (type q) → is_Some (desc_for q) → is_Some (desc_for p).
Proof.
  intros Hb Ha. unfold desc_for. rewrite !(eqb_by_base (type p) (type q) _ Hb), Ha, Hb, (core_by_base (type p) (type q) Hb).
  destruct (type_eqb (type q) PT_LinkingObjects); [done|]. destruct (type_eqb (type q) PT_Object); [by eexists|].
  destruct (is_array (type q)); [destruct (to_core_type (base_type (type q)))|destruct (to_core_type (type q))]; try by eexists.
  all: by intros [? ?].
Qed.

Lemma stored_type_core d ty t : from_core_type d = Some t → is_array t = false → (base_type t, ty) ∈ core_types → d_type d = ty.
Proof.
  destruct d as [dt dn dl dg ds]. intros H Ha Hin.
  assert (∀ b : PropertyType, base_type (Z.lor b (if dl then PT_Nullable else 0)) = base_type b) as Hb by (intros b; destruct dl; [apply optional_flags|by rewrite Z.lor_0_r]).
  destruct dt; cbn in H; try (injection H as <-; rewrite ?Hb in Hin; unfold core_types in Hin;
    repeat (apply elem_of_cons in Hin as [E|Hin]; [first [discriminate E|injection E as ->; done]|]); by apply not_elem_of_nil in Hin); try done.
  destruct ds as [|sub ds]; [done|]. destruct (from_core_type sub) as [u|]; [|done]. cbn in H. injection H as <-.
  unfold is_array in Ha. rewrite Z.land_lor_distr_l in Ha. change (Z.land PT_Array PT_Array) with PT_Array in Ha. apply Z.eqb_neq in Ha. exfalso. apply Ha.
  apply Z.bits_inj. intros i. rewrite Z.lor_spec, Z.land_spec. by destruct (Z.testbit u i), (Z.testbit PT_Array i).
Qed.

(** ** The changes of a property *)
Definition converter (e : ObjectSchema) (p q : Property) : option SchemaChange :=
  if decide (same_type p q) then
    match is_nullable (type p), is_nullable (type q) with
    | true, false => Some (MakePropertyRequired e p)
    | false, true => Some (MakePropertyNullable e p)
    | _, _ => None
    end
  else Some (ChangePropertyType e p q).
Definition index_change (e : ObjectSchema) (p q : Property) : option SchemaChange :=
  if decide (same_type p q) then
    if Props.requires_index q then if is_indexed p then None else Some (AddIndex e p)
    else if Props.requires_index p then Some (RemoveIndex e p) else None
  else None.

Inductive origin (e t : ObjectSchema) (c : SchemaChange) : Prop :=
  | from_converter p q : kept e t p q → converter e p q = Some c → origin e t c
  | from_index p q : kept e t p q → index_change e p q = Some c → origin e t c
  | from_removal p : p ∈ persisted_properties e → (∀ q, q ∈ persisted_properties t → name q ≠ name p) → c = RemoveProperty e p → origin e t c
  | from_key : primary_key e ≠ primary_key t → c = ChangePrimaryKey e (primary_key_property t) → origin e t c
  | from_new q : q ∈ persisted_properties t → (∀ p, p ∈ all_properties e → name p ≠ name q) → c = AddProperty e q → origin e t c.

Lemma class_change_origin e t c : class_change e t c ↔ origin e t c.
Proof.
  unfold converter, index_change. split.
  - destruct 1 as [p Hp Hn|p q Hk Hs|p q Hk Hs E1 E2|p q Hk Hs E1 E2|p q Hk Hs E1 E2|p q Hk Hs E1 E2|Hne|q Hq Hn].
    + by eapply from_removal.
    + eapply from_converter; [done|]. unfold converter. by rewrite decide_False.
    + eapply from_converter; [done|]. unfold converter. by rewrite decide_True, E1, E2.
    + eapply from_converter; [done|]. unfold converter. by rewrite decide_True, E1, E2.
    + eapply from_index; [done|]. unfold index_change. by rewrite decide_True, E1, E2.
    + eapply from_index; [done|]. unfold index_change. by rewrite decide_True, E1, E2.
    + by eapply from_key.
    + by eapply from_new.
  - destruct 1 as [p q Hk Hc|p q Hk Hc|p Hp Hn ->|Hne ->|q Hq Hn ->].
    + unfold converter in Hc. case_decide as Hs; [|injection Hc as <-; by constructor].
      destruct (is_nullable (type p)) eqn:E1, (is_nullable (type q)) eqn:E2; try done; injection Hc as <-; by econstructor.
    + unfold index_change in Hc. case_decide as Hs; [|done]. destruct (Props.requires_index q) eqn:E1.
      * destruct (is_indexed p) eqn:E2; [done|]. injection Hc as <-. by econstructor.
      * destruct (Props.requires_index p) eqn:E2; [|done]. injection Hc as <-. by econstructor.
    + by constructor.
    + by constructor.
    + by constructor.
Qed.

(** ** What a change does to the columns of its table *)
Definition owner (c : SchemaChange) : string :=
  match c with
  | AddTable o | RemoveTable o | AddInitialProperties o | AddProperty o _ | RemoveProperty o _ | ChangePropertyType o _ _
  | MakePropertyNullable o _ | MakePropertyRequired o _ | AddIndex o _ | RemoveIndex o _ | ChangePrimaryKey o _ => class_name o
  end.
Definition place (c : SchemaChange) : nat :=
  match c with
  | ChangePropertyType _ p _ | MakePropertyNullable _ p | MakePropertyRequired _ p | AddIndex _ p | RemoveIndex _ p | RemoveProperty _ p => Z.to_nat (table_column p)
  | _ => 0
  end.
(** What may come after the first removal *)
Definition is_late (c : SchemaChange) : bool := match c with RemoveProperty _ _ | AddInitialProperties _ => true | _ => false end.
Lemma late_no_index c : is_late c = true → is_index_change c = false.
Proof. by destruct c. Qed.

Definition appended (c : SchemaChange) : list Property :=
  match c with
  | AddProperty _ p => [p]
  | AddInitialProperties o => filter (λ p, is_primary p = false) (persisted_properties o)
  | _ => []
  end.
Definition appended_by (cls : string) (l : list SchemaChange) : list Property := l ≫= λ c, if decide (owner c = cls) then appended c else [].

Section columns.
Context {V : Type} {VA : Values V}.
Implicit Types x : Column V.

Definition new_col (p : Property) (rows : nat) : Column V :=
  column_for p (default (Desc type_Int (name p) false "" []) (desc_for p)) rows.

Definition on_cell (rows : nat) (c : SchemaChange) (x : Column V) : Column V :=
  match c with
  | ChangePropertyType _ _ q => new_col q rows
  | MakePropertyNullable _ p => with_values (c_values x) (new_col (optional p) rows)
  | MakePropertyRequired _ p => new_col (mandatory p) rows
  | AddIndex _ _ => with_index true x
  | RemoveIndex _ _ => with_index false x
  | _ => x
  end.
Definition change_columns (rows : nat) (c : SchemaChange) (cs : list (Column V)) : list (Column V) :=
  alter (on_cell rows c) (place c) cs ++ new_columns rows (appended c).
Definition columns_after (cls : string) (rows : nat) (l : list SchemaChange) (cs : list (Column V)) : list (Column V) :=
  foldl (λ cs c, if decide (owner c = cls) then change_columns rows c cs else cs) cs l.
Definition cell_after (cls : string) (rows i : nat) (l : list SchemaChange) (x : Column V) : Column V :=
  foldl (λ x c, if decide (owner c = cls ∧ place c = i) then on_cell rows c x else x) x l.

Lemma columns_after_snoc cls rows l c cs : columns_after cls rows (l ++ [c]) cs =
  if decide (owner c = cls) then change_columns rows c (columns_after cls rows l cs) else columns_after cls rows l cs.
Proof. unfold columns_after. by rewrite foldl_snoc. Qed.
Lemma cell_after_snoc cls rows i l c x : cell_after cls rows i (l ++ [c]) x =
  if decide (owner c = cls ∧ place c = i) then on_cell rows c (cell_after cls rows i l x) else cell_after cls rows i l x.
Proof. unfold cell_after. by rewrite foldl_snoc. Qed.
Lemma appended_by_snoc cls l c : appended_by cls (l ++ [c]) = appended_by cls l ++ if decide (owner c = cls) then appended c else [].
Proof. unfold appended_by. rewrite bind_app. cbn. by rewrite app_nil_r. Qed.
Lemma new_columns_app rows l k : new_columns (V := V) rows (l ++ k) = new_columns rows l ++ new_columns rows k.
Proof. apply omap_app. Qed.

Lemma imap_alter {A} (f : nat → A → A) (g : A → A) k (l : list A) : alter g k (imap f l) = imap (λ i y, if decide (k = i) then g (f i y) else f i y) l.
Proof.
  apply list_eq. intros i. rewrite list_lookup_imap. destruct (decide (k = i)) as [->|Hne].
  - rewrite list_lookup_alter_eq, list_lookup_imap. by destruct (l !! i).
  - by rewrite list_lookup_alter_ne, list_lookup_imap by done.
Qed.

(** A change concerns one of the columns that were there first, or adds columns. *)
Definition placed (rows : nat) (c : SchemaChange) (k : nat) : Prop := (place c < k)%nat ∨ ∀ x, on_cell rows c x = x.

Lemma columns_split cls rows l cs : (∀ c, c ∈ l → owner c = cls → placed rows c (length cs)) →
  columns_after cls rows l cs = imap (λ i, cell_after cls rows i l) cs ++ new_columns rows (appended_by cls l).
Proof.
  induction l as [|c l IH] using rev_ind; intros Hl.
  - cbn. rewrite app_nil_r. symmetry. apply list_eq. intros i. rewrite list_lookup_imap. by destruct (cs !! i).
  - rewrite columns_after_snoc, IH by (intros c' Hc'; apply Hl; apply elem_of_app; by left). rewrite appended_by_snoc.
    case_decide as Ho.
    + rewrite new_columns_app, app_assoc. unfold change_columns. f_equal.
      assert (∀ i x, cell_after cls rows i (l ++ [c]) x = if decide (place c = i) then on_cell rows c (cell_after cls rows i l x) else cell_after cls rows i l x) as Hs.
      { intros i x. rewrite cell_after_snoc. repeat case_decide; naive_solver. }
      destruct (Hl c ltac:(apply elem_of_app; right; by left) Ho) as [Hp|Hid].
      * rewrite alter_app_l by (rewrite length_imap; done). f_equal. rewrite imap_alter. apply imap_ext. intros i x _. by rewrite Hs.
      * transitivity (imap (λ i, cell_after cls rows i l) cs ++ new_columns rows (appended_by cls l)).
        -- apply list_eq. intros i. destruct (decide (i = place c)) as [->|Hne]; [rewrite list_lookup_alter_eq|by rewrite list_lookup_alter_ne].
           destruct (_ !! _) as [x|]; [|done]. cbn. by rewrite Hid.
        -- f_equal. apply imap_ext. intros i x _. rewrite Hs. case_decide; [by rewrite Hid|done].
    + rewrite app_nil_r. f_equal. apply imap_ext. intros i x _. rewrite cell_after_snoc, decide_False by naive_solver. done.
Qed.

(** *** After the migration: indexes again, and the columns that go *)
Definition post_columns (c : SchemaChange) (cs : list (Column V)) : list (Column V) :=
  match c with
  | AddIndex _ _ | RemoveIndex _ _ => alter (on_cell 0 c) (place c) cs
  | RemoveProperty _ _ => delete (place c) cs
  | _ => cs
  end.
Definition post_after (cls : string) (l : list SchemaChange) (cs : list (Column V)) : list (Column V) :=
  foldl (λ cs c, if decide (owner c = cls) then post_columns c cs else cs) cs l.
End columns.

(** ** The columns of a class that both schemas have *)
Definition removed (cls : string) (l : list SchemaChange) : list nat :=
  l ≫= λ c, match c with RemoveProperty o _ => if decide (class_name o = cls) then [place c] else [] | _ => [] end.
Definition without {A} (d : list nat) (l : list A) : list A := omap id (imap (λ i x, if decide (i ∈ d) then None else Some x) l).

Lemma imap_none {A} (d : list nat) k (l : list A) : (∀ i, i ∈ d → (i < k)%nat) → omap id (imap (λ i x, if decide ((k + i)%nat ∈ d) then None else Some x) l) = l.
Proof.
  revert k. induction l as [|x l IH]; intros k Hd; [done|]. rewrite imap_cons. cbn [omap list_omap]. rewrite decide_False by (intros Hin; specialize (Hd _ Hin); lia).
  cbn [id]. f_equal. rewrite <- (IH (S k)) at 2 by (intros i Hi; specialize (Hd i Hi); lia). f_equal. apply imap_ext. intros i y _. cbn. by rewrite Nat.add_succ_r.
Qed.
Lemma without_nil {A} (l : list A) : without [] l = l.
Proof. apply (imap_none [] 0). by intros i ?%not_elem_of_nil. Qed.
Lemma without_app {A} d (l l' : list A) : (∀ i, i ∈ d → (i < length l)%nat) → without d (l ++ l') = without d l ++ l'.
Proof. intros Hd. unfold without. rewrite imap_app, omap_app. f_equal. by apply imap_none. Qed.

(** From the last to the first, no removal moves a column that is still to be removed. *)
Lemma delete_descending {A} d (l : list A) : Sorted.StronglySorted (λ a b, (b < a)%nat) d → (∀ i, i ∈ d → (i < length l)%nat) →
  foldl (λ l i, delete i l) l d = without d l.
Proof.
  revert l. induction d as [|k d IH]; intros l Hs Hd; [symmetry; apply without_nil|]. apply Sorted.StronglySorted_inv in Hs as [Hs Hk]. rewrite Forall_forall in Hk.
  assert (k < length l)%nat as Hlt by (apply Hd; by left). cbn [foldl]. rewrite IH; [|done|].
  - destruct (lookup_lt_is_Some_2 l k Hlt) as [x Hx].
    rewrite delete_take_drop. rewrite <- (take_drop_middle l k x Hx) at 3.
    rewrite without_app by (intros i Hi; rewrite length_take; specialize (Hk i Hi); lia).
    unfold without. rewrite imap_app, omap_app. f_equal.
    + f_equal. apply imap_ext. intros i y Hy%lookup_lt_Some. rewrite length_take in Hy. apply decide_ext. rewrite elem_of_cons. split; [auto|intros [->|?]; [lia|done]].
    + rewrite imap_cons. cbn [omap list_omap compose]. rewrite decide_True by (rewrite length_take, Nat.min_l, Nat.add_0_r by lia; by left). cbn [id].
      rewrite <- (imap_none (k :: d) (S k) (drop (S k) l)) at 1.
      * f_equal. apply imap_ext. intros i y _. cbn. rewrite length_take, Nat.min_l by lia. by rewrite Nat.add_succ_r.
      * intros i [->|Hi]%elem_of_cons; [lia|]. specialize (Hk i Hi). lia.
  - intros i Hi. rewrite length_delete by (by apply lookup_lt_is_Some_2). specialize (Hk i Hi). lia.
Qed.

Section pair.
Context {V : Type} {VA : Values V} (e t : ObjectSchema).
Implicit Types (x : Column V) (p q : Property) (l : list SchemaChange).

(** The column of [p] once it is the column of [q], but for the index *)
Definition content (p q : Property) (rows : nat) (x : Column V) : Column V :=
  if decide (same_type p q) then
    match is_nullable (type p), is_nullable (type q) with
    | true, false => new_col (mandatory p) rows
    | false, true => with_values (c_values x) (new_col (optional p) rows)
    | _, _ => x
    end
  else new_col q rows.

Definition done_by (k : option SchemaChange) l : bool := match k with Some k => bool_decide (k ∈ l) | None => true end.
Lemma done_by_snoc k l c : done_by k (l ++ [c]) = done_by k l || bool_decide (k = Some c).
Proof.
  unfold done_by. destruct k as [k|]; [|done]. destruct (decide (k ∈ l)) as [H|H].
  - rewrite (bool_decide_true (k ∈ l)) by done. apply bool_decide_true, elem_of_app. by left.
  - rewrite (bool_decide_false (k ∈ l)) by done. apply bool_decide_ext. rewrite elem_of_app, list_elem_of_singleton. naive_solver.
Qed.

(** Where an index can be stored *)
Definition indexable (q : Property) : Prop := Props.requires_index q = true → base_type (type q) ≠ PT_Object ∧ is_array (type q) = false.

Lemma index_for_plain q : (Props.requires_index q = true → base_type (type q) ≠ PT_Object ∧ is_array (type q) = false) → index_for q = Props.requires_index q.
Proof.
  intros Hq. unfold index_for, type_eqb. change (base_type PT_Object) with PT_Object. destruct (Props.requires_index q) eqn:E; [|by rewrite andb_false_r].
  destruct (Hq eq_refl) as [Hb ->]. apply Z.eqb_neq in Hb. by rewrite Hb.
Qed.

Lemma indexed_kept p q p' : same_type p q → indexable q → index_change e p q = None → base_type (type p') = base_type (type p) → is_array (type p') = is_array (type p) →
  Props.requires_index p' = Props.requires_index p → index_for p' = Props.requires_index q.
Proof.
  intros Hs Hq Hi Hb Ha Hr. unfold index_change in Hi. rewrite decide_True in Hi by done. destruct Hs as (H1 & _ & H3).
  assert (Props.requires_index p = Props.requires_index q) as E.
  { destruct (Props.requires_index q) eqn:Eq; [|by destruct (Props.requires_index p)]. unfold Props.requires_index. destruct (is_indexed p); [by rewrite orb_true_r|done]. }
  rewrite <- E, <- Hr. apply index_for_plain. rewrite Hr, E, Hb, Ha, H1, H3. apply Hq.
Qed.

(** The index of the new column, where the index does not change by itself *)
Lemma content_index p q rows x : indexable q → index_change e p q = None → converter e p q ≠ None → c_indexed (content p q rows x) = Props.requires_index q.
Proof.
  intros Hq Hi Hc. unfold content, converter in *. case_decide as Hs; [|by apply index_for_plain].
  destruct (is_nullable (type p)), (is_nullable (type q)); try done.
  - eapply indexed_kept; try done; by apply mandatory_flags.
  - eapply indexed_kept; try done; by apply optional_flags.
Qed.

Lemma with_index_twice a b x : with_index a (with_index b x) = with_index a x.
Proof. done. Qed.
Lemma with_own_index x : with_index (c_indexed x) x = x.
Proof. by destruct x. Qed.
Lemma content_with_index p q rows x b : converter e p q = None → content p q rows x = x ∧ with_index b (content p q rows x) = with_index b x.
Proof.
  unfold converter, content. case_decide; [|done]. by destruct (is_nullable (type p)), (is_nullable (type q)).
Qed.

(** What is known of the column of [p] after some of the changes *)
Definition cell_state l (rows : nat) p q (x0 x : Column V) : Prop :=
  ∃ b, x = with_index b (if done_by (converter e p q) l then content p q rows x0 else x0) ∧
    (index_change e p q = None → done_by (converter e p q) l = true → b = Props.requires_index q) ∧
    (converter e p q = None → done_by (index_change e p q) l = true → b = Props.requires_index q).

Lemma cell_initial rows p q x0 : is_indexed p = c_indexed x0 → cell_state [] rows p q x0 x0.
Proof.
  intros Hi. exists (c_indexed x0). split.
  - destruct (done_by (converter e p q) []) eqn:E; [|by rewrite with_own_index]. unfold done_by in E. destruct (converter e p q) eqn:Ec; [by apply bool_decide_eq_true, not_elem_of_nil in E|].
    destruct (content_with_index p q rows x0 (c_indexed x0) Ec) as [-> _]. by rewrite with_own_index.
  - assert (converter e p q = None → index_change e p q = None → c_indexed x0 = Props.requires_index q) as Hw.
    { intros Hc Hx. rewrite <- Hi. unfold converter, index_change in *. case_decide; [|done]. destruct (Props.requires_index q); [by destruct (is_indexed p)|].
      destruct (Props.requires_index p) eqn:Er; [done|]. unfold Props.requires_index in Er. by apply orb_false_iff in Er as [_ ?]. }
    split.
    + intros Hx Hd. apply Hw; [|done]. unfold done_by in Hd. destruct (converter e p q); [by apply bool_decide_eq_true, not_elem_of_nil in Hd|done].
    + intros Hc Hd. apply Hw; [done|]. unfold done_by in Hd. destruct (index_change e p q); [by apply bool_decide_eq_true, not_elem_of_nil in Hd|done].
Qed.

Lemma index_changes_index p q c : index_change e p q = Some c → ∀ rows x, on_cell (V := V) rows c x = with_index (Props.requires_index q) x.
Proof.
  unfold index_change. case_decide; [|done]. destruct (Props.requires_index q).
  - destruct (is_indexed p); [done|]. by intros [= <-].
  - destruct (Props.requires_index p); [|done]. by intros [= <-].
Qed.
Lemma converter_converts p q c : converter e p q = Some c → ∀ l rows x0 b,
  ∃ b', on_cell rows c (with_index b (if done_by (Some c) l then content p q rows x0 else x0)) = with_index b' (content p q rows x0) ∧ b' = c_indexed (content p q rows x0).
Proof.
  intros Hc l rows x0 b. exists (c_indexed (content p q rows x0)). rewrite with_own_index. split; [|done].
  unfold converter, content in *. case_decide; [|by injection Hc as <-].
  destruct (is_nullable (type p)), (is_nullable (type q)); try done; injection Hc as <-; [done|]. by destruct (done_by _ l).
Qed.

Lemma converter_not_index p q c : converter e p q = Some c → index_change e p q = Some c → False.
Proof.
  unfold converter, index_change. case_decide; [|done].
  destruct (is_nullable (type p)), (is_nullable (type q)); try done; intros [= <-]; destruct (Props.requires_index q), (is_indexed p), (Props.requires_index p); done.
Qed.

Lemma cell_converted l rows p q x0 x c : indexable q → converter e p q = Some c → cell_state l rows p q x0 x → cell_state (l ++ [c]) rows p q x0 (on_cell rows c x).
Proof.
  intros Hq Hc (b & -> & H1 & H2). rewrite Hc. destruct (converter_converts p q c Hc l rows x0 b) as (b' & -> & Eb). exists b'. rewrite Hc, done_by_snoc, (bool_decide_true (Some c = Some c)), orb_true_r by done.
  split; [done|]. split; [|done]. intros Hi _. rewrite Eb. apply content_index; [done|done|by rewrite Hc].
Qed.
Lemma cell_reindexed l rows p q x0 x c : index_change e p q = Some c → cell_state l rows p q x0 x → cell_state (l ++ [c]) rows p q x0 (on_cell rows c x).
Proof.
  intros Hi (b & -> & H1 & H2). rewrite (index_changes_index p q c Hi), with_index_twice. exists (Props.requires_index q). split; [|done]. f_equal.
  rewrite done_by_snoc, bool_decide_false, orb_false_r; [done|]. intros Hc. by eapply converter_not_index.
Qed.
Lemma cell_same l rows p q x0 x c : converter e p q ≠ Some c → index_change e p q ≠ Some c → cell_state l rows p q x0 x → cell_state (l ++ [c]) rows p q x0 x.
Proof. intros Hc Hi (b & Hx & H12). exists b. by rewrite !done_by_snoc, !bool_decide_false, !orb_false_r. Qed.
End pair.

(** ** All columns of the class *)
Section class.
Context {G V : Type} {VA : Values V} {CG : Core G V} (e t : ObjectSchema) (tb : Table V).
Hypothesis Hread : read_from e tb.
Hypothesis Hnames : names_unique t.
Hypothesis Hindexable : ∀ q, q ∈ persisted_properties t → indexable q.
Implicit Types (x : Column V) (p q : Property) (l : list SchemaChange).

Definition cell_of (p : Property) : nat := Z.to_nat (table_column p).

Lemma cell_shown p : p ∈ persisted_properties e → ∃ x, t_columns tb !! cell_of p = Some x ∧ shows e (cell_of p) x p.
Proof.
  intros Hp. destruct (rf_property _ _ Hread p Hp) as (i & x & Hx & Hs). unfold cell_of. rewrite (sh_column _ _ _ _ Hs), Nat2Z.id. by exists x.
Qed.
Lemma cell_inj p p' : p ∈ persisted_properties e → p' ∈ persisted_properties e → cell_of p = cell_of p' → p = p'.
Proof.
  intros Hp Hp' E. destruct (cell_shown p Hp) as (x & _ & Hs). destruct (cell_shown p' Hp') as (x' & _ & Hs').
  apply sh_column in Hs, Hs'. rewrite <- E, <- Hs in Hs'. apply list_elem_of_lookup in Hp as [i Hi], Hp' as [j Hj].
  assert (i = j) as ->; [|congruence]. eapply (NoDup_lookup _ i j); [exact (rf_distinct _ _ Hread)|..]; rewrite list_lookup_fmap, ?Hi, ?Hj; simpl; by f_equal.
Qed.
Lemma kept_unique p q q' : kept e t p q → kept e t p q' → q = q'.
Proof. intros (_ & Hq & E) (_ & Hq' & E'). eapply name_unique; [exact Hnames|apply elem_of_app; by left..|congruence]. Qed.

Lemma index_change_place p q c : index_change e p q = Some c → place c = cell_of p ∧ owner c = class_name e ∧ is_index_change c = true.
Proof.
  unfold index_change. case_decide; [|done]. destruct (Props.requires_index q); [destruct (is_indexed p); [done|]|destruct (Props.requires_index p); [|done]]; by intros [= <-].
Qed.
Lemma converter_place p q c : converter e p q = Some c → place c = cell_of p ∧ owner c = class_name e ∧ is_index_change c = false.
Proof. unfold converter. case_decide; [|by intros [= <-]]. destruct (is_nullable (type p)), (is_nullable (type q)); by intros [= <-]. Qed.

Lemma not_removal p q c : converter e p q = Some c ∨ index_change e p q = Some c → ∀ o p', c ≠ RemoveProperty o p'.
Proof.
  unfold converter, index_change. intros [H|H] o p' ->; case_decide; try done.
  - by destruct (is_nullable (type p)), (is_nullable (type q)).
  - by destruct (Props.requires_index q), (is_indexed p), (Props.requires_index p).
Qed.

(** The changes that bear on the column of [p] *)
Lemma bearing p q c : kept e t p q → origin e t c → place c = cell_of p →
  (∀ rows x, on_cell rows c x = x) ∧ is_index_change c = false ∨ converter e p q = Some c ∨ index_change e p q = Some c.
Proof.
  intros Hk Ho Hpl. destruct Ho as [p' q' Hk' Hc|p' q' Hk' Hc|p' Hp' Hn ->|Hne ->|q' Hq' Hn ->]; [right; left|right; right|left; done..].
  - destruct (converter_place _ _ _ Hc) as (E & _). assert (p' = p) as -> by (apply cell_inj; [apply Hk'|apply Hk|congruence]). by rewrite (kept_unique p q q' Hk Hk').
  - destruct (index_change_place _ _ _ Hc) as (E & _). assert (p' = p) as -> by (apply cell_inj; [apply Hk'|apply Hk|congruence]). by rewrite (kept_unique p q q' Hk Hk').
Qed.
Lemma bearing_none i c : (∀ p q, kept e t p q → cell_of p ≠ i) → origin e t c → place c = i → (∀ rows x, on_cell rows c x = x) ∧ is_index_change c = false.
Proof.
  intros Hi Ho Hpl. destruct Ho as [p' q' Hk' Hc|p' q' Hk' Hc|p' Hp' Hn ->|Hne ->|q' Hq' Hn ->]; try done; exfalso; apply (Hi p' q' Hk'); rewrite <- Hpl; symmetry.
  - by eapply converter_place.
  - by eapply index_change_place.
Qed.

Definition all_from l : Prop := ∀ c, c ∈ l → owner c = class_name e → origin e t c.
Lemma all_from_snoc l c : all_from (l ++ [c]) → all_from l ∧ (owner c = class_name e → origin e t c).
Proof. intros H. split; [intros c' Hc'; apply H|apply H]; apply elem_of_app; [by left|right; by left]. Qed.
Lemma all_from_app l l' : all_from (l ++ l') → all_from l ∧ all_from l'.
Proof. intros H. split; intros c Hc; apply H; apply elem_of_app; auto. Qed.

Lemma cell_progress l rows p q x0 : all_from l → kept e t p q → is_indexed p = c_indexed x0 →
  cell_state e l rows p q x0 (cell_after (class_name e) rows (cell_of p) l x0).
Proof.
  intros Hl Hk Hi. induction l as [|c l IH] using rev_ind; [by apply cell_initial|]. apply all_from_snoc in Hl as [Hl Hc]. specialize (IH Hl). rewrite cell_after_snoc.
  case_decide as Hb.
  - destruct Hb as [Ho Hpl]. destruct (decide (converter e p q = Some c)) as [E|E]; [apply cell_converted; [apply Hindexable, Hk|done|done]|].
    destruct (decide (index_change e p q = Some c)) as [E'|E']; [by apply cell_reindexed|].
    destruct (bearing p q c Hk (Hc Ho) Hpl) as [[-> _]|[?|?]]; [by apply cell_same|done|done].
  - apply cell_same; [..|done]; intros E; apply Hb.
    + destruct (converter_place _ _ _ E) as (? & ? & _). done.
    + destruct (index_change_place _ _ _ E) as (? & ? & _). done.
Qed.
Lemma cell_untouched l rows i x0 : all_from l → (∀ p q, kept e t p q → cell_of p ≠ i) → cell_after (class_name e) rows i l x0 = x0.
Proof.
  intros Hl Hi. induction l as [|c l IH] using rev_ind; [done|]. apply all_from_snoc in Hl as [Hl Hc]. rewrite cell_after_snoc, (IH Hl).
  case_decide as Hb; [|done]. destruct Hb as [Ho Hpl]. by destruct (bearing_none i c Hi (Hc Ho) Hpl) as [-> _].
Qed.

(** The indexes, once more *)
Definition index_cell (i : nat) l (x : Column V) : Column V :=
  foldl (λ x c, if decide (owner c = class_name e ∧ place c = i ∧ is_index_change c = true) then on_cell 0 c x else x) x l.
Lemma index_cell_snoc i l c x : index_cell i (l ++ [c]) x =
  if decide (owner c = class_name e ∧ place c = i ∧ is_index_change c = true) then on_cell 0 c (index_cell i l x) else index_cell i l x.
Proof. unfold index_cell. by rewrite foldl_snoc. Qed.

Lemma index_cell_kept l p q x : all_from l → kept e t p q →
  index_cell (cell_of p) l x = match index_change e p q with Some k => if bool_decide (k ∈ l) then with_index (Props.requires_index q) x else x | None => x end.
Proof.
  intros Hl Hk. induction l as [|c l IH] using rev_ind.
  { destruct (index_change e p q); [by rewrite bool_decide_false by apply not_elem_of_nil|done]. }
  apply all_from_snoc in Hl as [Hl Hc]. rewrite index_cell_snoc, (IH Hl). clear IH. destruct (decide (index_change e p q = Some c)) as [E|E].
  - destruct (index_change_place _ _ _ E) as (H1 & H2 & H3). rewrite decide_True by done. rewrite E, (bool_decide_true (c ∈ l ++ [c])) by (apply elem_of_app; right; by left).
    rewrite (index_changes_index _ _ _ _ E). by destruct (bool_decide (c ∈ l)).
  - assert (∀ k, index_change e p q = Some k → bool_decide (k ∈ l ++ [c]) = bool_decide (k ∈ l)) as Hm.
    { intros k Ek. apply bool_decide_ext. rewrite elem_of_app, list_elem_of_singleton. split; [intros [?| ->]; [done|by rewrite Ek in E]|by left]. }
    case_decide as Hb; [exfalso; destruct Hb as (Ho & Hpl & Hx); destruct (bearing p q c Hk (Hc Ho) Hpl) as [[_ ?]|[Ek|?]]; [congruence| |done];
      destruct (converter_place _ _ _ Ek) as (_ & _ & ?); congruence|].
    destruct (index_change e p q) as [k|]; [|done]. by rewrite Hm.
Qed.
Lemma index_cell_other l i x : all_from l → (∀ p q, kept e t p q → cell_of p ≠ i) → index_cell i l x = x.
Proof.
  intros Hl Hi. induction l as [|c l IH] using rev_ind; [done|]. apply all_from_snoc in Hl as [Hl Hc]. rewrite index_cell_snoc, (IH Hl).
  case_decide as Hb; [|done]. destruct Hb as (Ho & Hpl & Hx). destruct (bearing_none i c Hi (Hc Ho) Hpl) as [_ ?]. congruence.
Qed.

Lemma post_indexes l cs : (∀ c, c ∈ l → is_not_remove c = true) → post_after (class_name e) l cs = imap (λ i, index_cell i l) cs.
Proof.
  intros Hl. induction l as [|c l IH] using rev_ind.
  - cbn. symmetry. apply list_eq. intros i. rewrite list_lookup_imap. by destruct (cs !! i).
  - unfold post_after. rewrite foldl_snoc. fold (post_after (class_name e) l cs). rewrite IH by (intros c' Hc'; apply Hl; apply elem_of_app; by left).
    assert (is_not_remove c = true) as Hnr by (apply Hl; apply elem_of_app; right; by left).
    assert (∀ i x, index_cell i (l ++ [c]) x = if decide (owner c = class_name e ∧ place c = i ∧ is_index_change c = true) then on_cell 0 c (index_cell i l x) else index_cell i l x) as Hs
      by (intros; apply index_cell_snoc).
    case_decide as Ho; [|apply imap_ext; intros i x _; rewrite Hs, decide_False by naive_solver; done].
    destruct (is_index_change c) eqn:Ei.
    + assert (∀ cs : list (Column V), post_columns c cs = alter (on_cell 0 c) (place c) cs) as -> by (intros; by destruct c). rewrite imap_alter.
      apply imap_ext. intros i x _. rewrite Hs. repeat case_decide; naive_solver.
    + assert (∀ cs : list (Column V), post_columns c cs = cs) as -> by (intros; by destruct c).
      apply imap_ext. intros i x _. rewrite Hs, decide_False by naive_solver. done.
Qed.
Lemma post_removals l cs : (∀ c, c ∈ l → is_index_change c = false) → post_after (class_name e) l cs = foldl (λ cs i, delete i cs) cs (removed (class_name e) l).
Proof.
  revert cs. induction l as [|c l IH]; intros cs Hl; [done|].
  assert (is_index_change c = false) as Hi by (apply Hl; by left).
  change (post_after (class_name e) (c :: l) cs) with (post_after (class_name e) l (if decide (owner c = class_name e) then post_columns c cs else cs)).
  rewrite IH by (intros c' Hc'; apply Hl; by right). clear IH Hl. unfold removed. rewrite bind_cons, foldl_app. f_equal.
  destruct c; try done; cbn [owner post_columns]; by case_decide.
Qed.

(** ** What becomes of the columns of a class *)
Definition fate (rows i : nat) (x : Column V) : option (Column V) :=
  match list_find (λ p, cell_of p = i) (persisted_properties e) with
  | None => Some x
  | Some (_, p) =>
      match list_find (λ q, name q = name p) (persisted_properties t) with
      | None => None
      | Some (_, q) => Some (with_index (Props.requires_index q) (content p q rows x))
      end
  end.
Definition migrated (rows : nat) (cs : list (Column V)) : list (Column V) := omap id (imap (fate rows) cs).

Lemma fate_kept rows x p q : kept e t p q → fate rows (cell_of p) x = Some (with_index (Props.requires_index q) (content p q rows x)).
Proof.
  intros Hk. unfold fate. destruct (list_find _ (persisted_properties e)) as [[k p']|] eqn:E.
  - apply list_find_Some in E as (Hp' & Ec & _). assert (p' = p) as -> by (apply cell_inj; [by eapply list_elem_of_lookup_2|apply Hk|done]).
    destruct (list_find _ (persisted_properties t)) as [[k' q']|] eqn:E'.
    + apply list_find_Some in E' as (Hq' & En & _). assert (q' = q) as ->; [|done]. symmetry. eapply kept_unique; [exact Hk|]. split; [apply Hk|]. split; [by eapply list_elem_of_lookup_2|done].
    + apply list_find_None in E'. rewrite Forall_forall in E'. destruct Hk as (_ & Hq & En). by destruct (E' q Hq).
  - apply list_find_None in E. rewrite Forall_forall in E. destruct (E p); [apply Hk|done].
Qed.
Lemma fate_gone rows x p : p ∈ persisted_properties e → (∀ q, q ∈ persisted_properties t → name q ≠ name p) → fate rows (cell_of p) x = None.
Proof.
  intros Hp Hn. unfold fate. destruct (list_find _ (persisted_properties e)) as [[k p']|] eqn:E.
  - apply list_find_Some in E as (Hp' & Ec & _). assert (p' = p) as -> by (apply cell_inj; [by eapply list_elem_of_lookup_2|done|done]).
    destruct (list_find _ (persisted_properties t)) as [[k' q']|] eqn:E'; [|done]. apply list_find_Some in E' as (Hq' & En & _).
    destruct (Hn q'); [by eapply list_elem_of_lookup_2|done].
  - apply list_find_None in E. rewrite Forall_forall in E. by destruct (E p Hp).
Qed.
Lemma fate_hidden rows i x : (∀ p, p ∈ persisted_properties e → cell_of p ≠ i) → fate rows i x = Some x.
Proof.
  intros Hi. unfold fate. destruct (list_find _ (persisted_properties e)) as [[k p']|] eqn:E; [|done].
  apply list_find_Some in E as (Hp' & Ec & _). destruct (Hi p'); [by eapply list_elem_of_lookup_2|done].
Qed.

(** Every column is that of a kept property, that of one that goes, or none. *)
Lemma cell_cases i : (∃ p q, kept e t p q ∧ cell_of p = i) ∨
  (∃ p, p ∈ persisted_properties e ∧ (∀ q, q ∈ persisted_properties t → name q ≠ name p) ∧ cell_of p = i) ∨
  ∀ p, p ∈ persisted_properties e → cell_of p ≠ i.
Proof.
  destruct (list_find (λ p, cell_of p = i) (persisted_properties e)) as [[k p]|] eqn:E.
  - apply list_find_Some in E as (Hp & Ec & _). apply list_elem_of_lookup_2 in Hp. destruct (column_dec t p) as [(q & Hq & En)|Hn]; [left|right; left].
    + exists p, q. by split.
    + by exists p.
  - right; right. apply list_find_None in E. by rewrite Forall_forall in E.
Qed.

(** The changes of the class, in an order in which nothing else comes after a removal *)
Record class_plan l a b : Prop := {
  cp_split : l = a ++ b;
  cp_from : all_from l;
  cp_all c : class_change e t c → c ∈ l;
  cp_before c : c ∈ a → is_not_remove c = true;
  cp_after c : c ∈ b → is_late c = true;
  cp_descend : Sorted.StronglySorted (λ i j, (j < i)%nat) (removed (class_name e) l) }.

Lemma removed_in l i : all_from l → i ∈ removed (class_name e) l ↔ ∃ p, p ∈ persisted_properties e ∧ (∀ q, q ∈ persisted_properties t → name q ≠ name p) ∧ cell_of p = i ∧ RemoveProperty e p ∈ l.
Proof.
  intros Hl. unfold removed. rewrite list_elem_of_bind. split.
  - intros (c & Hi & Hc). destruct c as [| | | |o p| | | | | |]; try by apply not_elem_of_nil in Hi. case_decide as Eo; [|by apply not_elem_of_nil in Hi].
    apply list_elem_of_singleton in Hi as ->. destruct (Hl _ Hc Eo) as [p' q' Hk Hc'|p' q' Hk Hc'|p' Hp' Hn E| |]; try done.
    + by destruct (not_removal p' q' _ (or_introl Hc') o p).
    + by destruct (not_removal p' q' _ (or_intror Hc') o p).
    + injection E as -> ->. by exists p'.
  - intros (p & Hp & Hn & <- & Hin). exists (RemoveProperty e p). split; [|done]. rewrite decide_True by done. by left.
Qed.
Lemma removed_app l l' cls : removed cls (l ++ l') = removed cls l ++ removed cls l'.
Proof. apply bind_app. Qed.
Lemma nothing_removed l cls : (∀ c, c ∈ l → is_not_remove c = true) → removed cls l = [].
Proof.
  intros Hl. induction l as [|c l IH]; [done|]. unfold removed in *. rewrite bind_cons, IH by (intros c' Hc'; apply Hl; by right).
  specialize (Hl c ltac:(by left)). by destruct c.
Qed.

(** The column after all changes, before and after the removals *)
Lemma cell_result l a b rows i x0 : class_plan l a b → t_columns tb !! i = Some x0 →
  (if decide (i ∈ removed (class_name e) l) then None else Some (index_cell i a (cell_after (class_name e) rows i l x0))) = fate rows i x0.
Proof.
  intros Hp Hx. pose proof (cp_from _ _ _ Hp) as Hl. assert (all_from a) as Ha by (rewrite (cp_split _ _ _ Hp) in Hl; by apply all_from_app in Hl as [? _]).
  destruct (cell_cases i) as [(p & q & Hk & <-)|[(p & Hpe & Hn & <-)|Hh]].
  - rewrite decide_False; [|intros (p' & Hp' & Hn' & Ec & _)%(removed_in l _ Hl); assert (p' = p) as -> by (apply cell_inj; [done|apply Hk|done]); destruct Hk as (_ & Hq & En); by destruct (Hn' q Hq)].
    rewrite (fate_kept rows x0 p q Hk). f_equal. rewrite (index_cell_kept a p q _ Ha Hk).
    destruct (cell_shown p ltac:(apply Hk)) as (x1 & Hx1 & Hs). rewrite Hx in Hx1. injection Hx1 as <-.
    destruct (cell_progress l rows p q x0 Hl Hk (sh_indexed _ _ _ _ Hs)) as (i & -> & H1 & H2).
    assert (done_by (converter e p q) l = true) as Hd.
    { unfold done_by. destruct (converter e p q) as [k|] eqn:Ek; [|done]. apply bool_decide_eq_true, (cp_all _ _ _ Hp), class_change_origin. by eapply from_converter. }
    rewrite Hd. destruct (index_change e p q) as [k|] eqn:Ek; [|by rewrite H1]. rewrite bool_decide_true; [done|].
    assert (k ∈ l) as Hin by (apply (cp_all _ _ _ Hp), class_change_origin; by eapply from_index). rewrite (cp_split _ _ _ Hp) in Hin.
    apply elem_of_app in Hin as [?|Hin]; [done|]. apply (cp_after _ _ _ Hp), late_no_index in Hin. destruct (index_change_place _ _ _ Ek) as (_ & _ & ?). congruence.
  - rewrite (fate_gone rows x0 p Hpe Hn), decide_True; [done|]. apply removed_in; [done|]. exists p. split; [done|]. split; [done|]. split; [done|].
    apply (cp_all _ _ _ Hp). by constructor.
  - rewrite (fate_hidden rows i x0 Hh), decide_False; [|intros (p' & Hp' & _ & Ec & _)%(removed_in l _ Hl); by destruct (Hh p' Hp')].
    assert (∀ p q, kept e t p q → cell_of p ≠ i) as Hi by (intros p q (Hpe & _); by apply Hh). by rewrite (cell_untouched l rows i x0 Hl Hi), (index_cell_other a i x0 Ha Hi).
Qed.

Lemma all_placed l rows c : all_from l → c ∈ l → owner c = class_name e → placed (V := V) rows c (length (t_columns tb)).
Proof.
  intros Hl Hc Ho. assert (∀ p, p ∈ persisted_properties e → (cell_of p < length (t_columns tb))%nat) as Hlt.
  { intros p Hp. destruct (cell_shown p Hp) as (x & Hx & _). by eapply lookup_lt_Some. }
  destruct (Hl c Hc Ho) as [p q Hk Hcc|p q Hk Hcc|p Hp Hn ->|Hne ->|q Hq Hn ->]; [left|left|right; done..].
  - destruct (converter_place _ _ _ Hcc) as (-> & _). apply Hlt, Hk.
  - destruct (index_change_place _ _ _ Hcc) as (-> & _). apply Hlt, Hk.
Qed.

(** Both passes together: the columns that stay, in their order and converted, and then the new ones *)
Lemma class_migrated l a b rows : class_plan l a b →
  post_after (class_name e) l (columns_after (class_name e) rows l (t_columns tb)) = migrated rows (t_columns tb) ++ new_columns rows (appended_by (class_name e) l).
Proof.
  intros Hp. pose proof (cp_from _ _ _ Hp) as Hl. rewrite columns_split by (intros c Hc Ho; by eapply all_placed). set (new := new_columns _ _). set (cs := imap _ (t_columns tb)).
  assert (all_from a) as Ha by (rewrite (cp_split _ _ _ Hp) in Hl; by apply all_from_app in Hl as [? _]).
  assert (removed (class_name e) l = removed (class_name e) b) as Er by (rewrite (cp_split _ _ _ Hp), removed_app, (nothing_removed a) by apply (cp_before _ _ _ Hp); done).
  assert (∀ i, (∃ p, p ∈ persisted_properties e ∧ cell_of p = i) → (i < length (t_columns tb))%nat) as Hlt.
  { intros i (p & Hpe & <-). destruct (cell_shown p Hpe) as (x & Hx & _). by eapply lookup_lt_Some. }
  assert (post_after (class_name e) l (cs ++ new) = post_after (class_name e) b (post_after (class_name e) a (cs ++ new))) as -> by (rewrite (cp_split _ _ _ Hp) at 1; apply foldl_app).
  rewrite (post_indexes a) by apply (cp_before _ _ _ Hp). rewrite post_removals by (intros c Hc; by apply late_no_index, (cp_after _ _ _ Hp)). rewrite <- Er, imap_app.
  assert (imap (λ n, index_cell (length cs + n) a) new = new) as ->.
  { apply list_eq. intros i. rewrite list_lookup_imap. destruct (new !! i) as [x|]; [|done]. cbn. rewrite index_cell_other; [done..|].
       intros p q Hk Ec. specialize (Hlt (length cs + i)%nat). unfold cs in Hlt. rewrite length_imap in Hlt. unfold cs in Ec. rewrite length_imap in Ec.
       assert (length (t_columns tb) + i < length (t_columns tb))%nat; [|lia]. apply Hlt. exists p. split; [apply Hk|done]. }
  assert (∀ i, i ∈ removed (class_name e) l → (i < length (t_columns tb))%nat) as Hrm by (intros i (p & Hpe & _ & Ec & _)%(removed_in l _ Hl); apply Hlt; by exists p).
  rewrite delete_descending; [|by apply (cp_descend _ _ _ Hp)|intros i Hi; rewrite length_app, length_imap; unfold cs; rewrite length_imap; specialize (Hrm i Hi); lia].
  rewrite without_app by (intros i Hi; rewrite length_imap; unfold cs; rewrite length_imap; by apply Hrm).
  apply (f_equal (λ k : list (Column V), k ++ new)). unfold without, migrated, cs. f_equal. apply list_eq. intros i. rewrite !list_lookup_imap. destruct (t_columns tb !! i) as [x0|] eqn:Ex; [|done]. cbn. f_equal.
  by apply (cell_result l a b).
Qed.
End class.
