(* ===== verification/ObjectStorePlan.v ===== *)
(** * The order of the changes

    What the appliers rely on besides the set of the changes: every change is listed once, the new tables come
    first, and after a column was removed only others are removed and new tables filled. *)

From Stdlib Require Import String Sorted.
From stdpp Require Import strings sorting.
From S2P Require Import Prelude ChangeCalculation Schema SchemaValidationTheorems SchemaCompare SchemaCompareTheorems LogStream Group ObjectStore ObjectStoreSchema ObjectStoreKeys ObjectStoreMigration.
Import Class_ Validate Compare Store.
Open Scope Z_scope.

(** [std::partition] leaves what it finds in place up to the first element that has to move: the standard does not
    say so.  The partition of libc++ and libstdc++ does ([swapping_partition] below), and so does a stable one. *)
Class PartitionInPlace `{Partitions} :=
  partition_prefix : ∀ A (p : A → bool) l1 l2, Forall (λ x, p x = true) l1 → partition p (l1 ++ l2) = l1 ++ partition p l2.

#[export] Instance stable_partition_in_place : PartitionInPlace.
Proof.
  intros A p l1 l2 Hl. unfold partition, stable_partition. rewrite !filter_app.
  rewrite (filter_all (λ x, p x = true) l1 Hl), (filter_none (λ x, p x = false) l1); [by rewrite <- app_assoc|]. eapply Forall_impl; [exact Hl|]. by intros x ->.
Qed.

(** The partition of the standard libraries: the first element that is out of place is swapped with the last one that is, again and again.
    [split_last] is the search from the end: the elements before the last one with [p], that one, and those after it. *)
Fixpoint split_last {A} (p : A → bool) (l : list A) : option (list A * A * list A) :=
  match l with
  | [] => None
  | x :: l => match split_last p l with
              | Some (l1, y, l2) => Some (x :: l1, y, l2)
              | None => if p x then Some ([], x, l) else None
              end
  end.
Fixpoint swap_partition {A} (p : A → bool) (fuel : nat) (l : list A) : list A :=
  match fuel, l with
  | S fuel, x :: l =>
      if p x then x :: swap_partition p fuel l else
      match split_last p l with Some (l1, y, l2) => y :: swap_partition p fuel l1 ++ x :: l2 | None => x :: l end
  | _, _ => l
  end.
Definition swapping_partition : Partitions := λ A p l, swap_partition p (length l) l.

Section swapping.
Context {A : Type} (p : A → bool).

Lemma split_last_spec (l : list A) :
  match split_last p l with
  | Some (l1, y, l2) => l = l1 ++ y :: l2 ∧ p y = true ∧ Forall (λ x, p x = false) l2
  | None => Forall (λ x, p x = false) l
  end.
Proof.
  induction l as [|x l IH]; cbn [split_last]; [constructor|]. destruct (split_last p l) as [[[l1 y] l2]|].
  - destruct IH as (-> & ? & ?). by split_and!.
  - destruct (p x) eqn:E; [by split_and!|by constructor].
Qed.

Lemma swap_partition_spec fuel : ∀ l : list A, (length l <= fuel)%nat →
  swap_partition p fuel l ≡ₚ l ∧ ∃ l1 l2, swap_partition p fuel l = l1 ++ l2 ∧ Forall (λ x, p x = true) l1 ∧ Forall (λ x, p x = false) l2.
Proof.
  induction fuel as [|fuel IH]; intros [|x l] Hl; cbn [swap_partition length] in *; try lia; try (split; [done|]; exists [], []; by split_and!).
  destruct (p x) eqn:E.
  - destruct (IH l) as (Hp & l1 & l2 & El & H1 & H2); [lia|]. split; [by rewrite Hp|]. rewrite El. exists (x :: l1), l2. split_and!; [done|by constructor|done].
  - pose proof (split_last_spec l) as Hs. destruct (split_last p l) as [[[l1 y] l2]|].
    + destruct Hs as (-> & Hy & H2). rewrite length_app in Hl. cbn [length] in Hl.
      destruct (IH l1) as (Hp & k1 & k2 & Ek & Hk1 & Hk2); [lia|]. split.
      * rewrite Hp. rewrite <- !Permutation_middle. apply perm_swap.
      * rewrite Ek. exists (y :: k1), (k2 ++ x :: l2). split; [by rewrite <- app_assoc|]. split; [by constructor|].
        apply Forall_app. split; [done|by constructor].
    + split; [done|]. exists [], (x :: l). split_and!; [done|constructor|by constructor].
Qed.
End swapping.

Lemma swapping_partition_laws : @PartitionLaws swapping_partition.
Proof. split; intros A p l; apply (swap_partition_spec p (length l) l); lia. Qed.

Lemma swapping_partition_in_place : @PartitionInPlace swapping_partition.
Proof.
  intros A p l1 l2. unfold partition, swapping_partition. induction 1 as [|x l1 Hx _ IH]; [done|].
  cbn [app length swap_partition]. rewrite Hx. by rewrite IH.
Qed.

(** It does not keep the order of the others. *)
Example swapping_partition_swaps : swapping_partition Z (λ x, x <? 3) [1; 2; 7; 5; 0; 6; 2] = [1; 2; 2; 0; 5; 6; 7].
Proof. reflexivity. Qed.

Definition is_add_table (c : SchemaChange) : bool := match c with AddTable _ => true | _ => false end.

(** ** A change is listed once *)
Lemma zip_distinct a b : strict a → strict b → NoDup (zip_matching a b).
Proof.
  assert (∀ x (s : Schema), (∀ y, y ∈ s → str_lt (class_name x) (class_name y) = true) → x ∉ s) as Hirr by (intros x s Hx Hin; specialize (Hx x Hin); by rewrite no_irrefl in Hx).
  assert (∀ s, strict s → NoDup s) as Hnd.
  { induction s as [|x s IH]; intros Hs; [constructor|]. apply strict_cons in Hs as [Hx Hs]. apply NoDup_cons. split; [by apply Hirr|by apply IH]. }
  revert b. induction a as [|x a IHa]; intros b Ha Hb.
  { assert (zip_matching [] b = (λ y, (None, Some y)) <$> b) as -> by (by destruct b). apply NoDup_fmap_2; [by intros ?? [= ->]|by apply Hnd]. }
  induction b as [|y b IHb].
  { assert (zip_matching (x :: a) [] = (λ x, (Some x, None)) <$> x :: a) as -> by (simpl; by rewrite ?app_nil_r). apply NoDup_fmap_2; [by intros ?? [= ->]|by apply Hnd]. }
  cbn [zip_matching]. pose proof Ha as [Hx Ha']%strict_cons. pose proof Hb as [Hy Hb']%strict_cons.
  case_bool_decide as E; [|destruct (str_lt (class_name x) (class_name y))]; apply NoDup_cons; (split; [|by auto]).
  - intros Hin%zip_spec; [|done..]. destruct Hin as [Hin _]. by apply (Hirr x a).
  - intros Hin%zip_spec; [|done..]. destruct Hin as [Hin _]. by apply (Hirr x a).
  - intros Hin. change ((None, Some y) ∈ zip_matching (x :: a) b) in Hin. apply zip_spec in Hin as [Hin _]; [|done..]. by apply (Hirr y b).
Qed.

(** The property whose change it is *)
Definition subject (c : SchemaChange) : option Property :=
  match c with
  | RemoveProperty _ p | ChangePropertyType _ p _ | MakePropertyNullable _ p | MakePropertyRequired _ p | AddIndex _ p | RemoveIndex _ p => Some p
  | _ => None
  end.
Ltac few_changes :=
  repeat first [apply conj|apply NoDup_nil_2|apply NoDup_singleton|apply Forall_nil_2|apply Forall_cons_2|done
               |apply NoDup_cons_2; [by rewrite list_elem_of_singleton|]].
Lemma property_changes_once e t p : NoDup (property_changes e t p) ∧ ∀ c, c ∈ property_changes e t p → subject c = Some p ∧ owner c = class_name e.
Proof.
  rewrite <- Forall_forall. unfold property_changes. destruct (property_for_name t (name p)) as [q|]; [|few_changes].
  destruct (property_is_computed t q); [few_changes|]. destruct (_ || _); [few_changes|].
  destruct (negb (Bool.eqb (is_nullable (type p)) (is_nullable (type q)))), (is_nullable (type p)), (Props.requires_index q), (negb (is_indexed p)), (Props.requires_index p);
    cbn [app]; few_changes.
Qed.

Lemma class_changes_once e t : NoDup (table_column <$> persisted_properties e) → names_unique t → NoDup (class_changes e t).
Proof.
  intros He Ht. unfold class_changes. assert (NoDup (persisted_properties e)) as Hpe by (by eapply NoDup_fmap_1).
  assert (NoDup (persisted_properties t)) as Hpt.
  { unfold names_unique, all_properties in Ht. rewrite fmap_app in Ht. apply NoDup_app in Ht as [Ht _]. by eapply NoDup_fmap_1. }
  assert (∀ c, c ∈ concat (property_changes e t <$> persisted_properties e) → subject c ≠ None) as Hs.
  { intros c (p & _ & Hc)%in_property_changes. destruct (proj2 (property_changes_once e t p) c Hc) as [-> _]. done. }
  apply NoDup_app. split; [|split; [|apply NoDup_app; split; [|split]]].
  - change (concat (property_changes e t <$> persisted_properties e)) with (concat (map (property_changes e t) (persisted_properties e))).
    rewrite <- flat_map_concat_map. change (flat_map (property_changes e t) (persisted_properties e)) with (persisted_properties e ≫= property_changes e t).
    apply NoDup_bind; [|intros p _; apply property_changes_once|done]. intros p p' c _ _ Hc Hc'.
    apply property_changes_once in Hc as [E _], Hc' as [E' _]. congruence.
  - intros c Hc Hin. apply (Hs c Hc). apply elem_of_app in Hin as [[_ ->]%in_primary_key_changes|(q & _ & _ & ->)%in_added_properties]; done.
  - unfold primary_key_changes. destruct (negb _); few_changes.
  - intros c [_ ->]%in_primary_key_changes (q & _ & _ & E)%in_added_properties. done.
  - unfold added_properties. induction (persisted_properties t) as [|q l IH]; [constructor|]. apply NoDup_cons in Hpt as [Hq Hl].
    cbn [omap list_omap]. destruct (property_for_name e (name q)); [by apply IH|]. apply NoDup_cons. split; [|by apply IH].
    intros (q' & Hq' & E)%list_elem_of_omap. destruct (property_for_name e (name q')); [done|]. by injection E as ->.
Qed.

(** Whose change it is, for the changes of a pair *)
Lemma class_change_owner e t c : class_change e t c → owner c = class_name e ∧ is_add_table c = false.
Proof. by destruct 1. Qed.

Section plan.
Context `{SL : SortLaws} `{PL : PartitionLaws} {PP : PartitionInPlace} (s target : Schema).
Hypothesis Hs : strict s.
Hypothesis Ht : strict target.
Hypothesis Hcolumns : ∀ e, e ∈ s → NoDup (table_column <$> persisted_properties e).
Hypothesis Hnames : ∀ t, t ∈ target → names_unique t.

Abbreviation pairs := (zip_matching target s).
Abbreviation new_tables := (omap (table_change false) pairs).

Lemma strict_unique (l : Schema) a b : strict l → a ∈ l → b ∈ l → class_name a = class_name b → a = b.
Proof.
  intros Hl. induction l as [|x l IH]; [by intros ?%elem_of_nil|]. apply strict_cons in Hl as [Hx Hl].
  intros [->|Ha]%elem_of_cons [->|Hb]%elem_of_cons E; [done|..|by apply IH]; exfalso.
  - specialize (Hx b Hb). by rewrite E, no_irrefl in Hx.
  - specialize (Hx a Ha). by rewrite E, no_irrefl in Hx.
Qed.

Lemma pair_changes_owner p c : p ∈ pairs → c ∈ pair_changes p → is_add_table c = false ∧
  match p with (Some t, Some e) => owner c = class_name e ∧ owner c = class_name t | (Some t, None) => owner c = class_name t | _ => False end.
Proof.
  intros Hp%zip_spec Hc; [|done..]. destruct p as [[t|] [e|]]; cbn [pair_changes pairs_spec] in *; try by apply elem_of_nil in Hc.
  - destruct Hp as (Hin & _ & En). apply class_changes_spec, class_change_owner in Hc as [Ho Ha]; [|by apply Hnames]. rewrite En. done.
  - apply list_elem_of_singleton in Hc as ->. done.
Qed.

Lemma pair_unique p p' c : p ∈ pairs → p' ∈ pairs → c ∈ pair_changes p → c ∈ pair_changes p' → p = p'.
Proof.
  intros Hp Hp' [_ Hc]%(pair_changes_owner p) [_ Hc']%(pair_changes_owner p'); [|done..]. apply zip_spec in Hp, Hp'; [|done..].
  destruct p as [[t|] [e|]], p' as [[t'|] [e'|]]; try done; cbn [pairs_spec] in *.
  - destruct Hp as (H1 & H2 & H3), Hp' as (H1' & H2' & H3'), Hc as [Hc _], Hc' as [Hc' _].
    rewrite (strict_unique s e e') by (done || congruence). by rewrite (strict_unique target t t') by (done || congruence).
  - destruct Hp as (H1 & H2 & H3), Hp' as (H1' & H2'), Hc as [Hc _]. exfalso. apply (H2' e H2). congruence.
  - destruct Hp' as (H1 & H2 & H3), Hp as (H1' & H2'), Hc' as [Hc' _]. exfalso. apply (H2' e' H2). congruence.
  - destruct Hp as [H1 _], Hp' as [H1' _]. by rewrite (strict_unique target t t') by (done || congruence).
Qed.

Lemma columns_once : NoDup (concat (pair_changes <$> pairs)).
Proof.
  change (concat (pair_changes <$> pairs)) with (concat (map pair_changes pairs)). rewrite <- flat_map_concat_map. change (flat_map pair_changes pairs) with (pairs ≫= pair_changes).
  apply NoDup_bind; [intros p p' c; by apply pair_unique| |by apply zip_distinct]. intros p Hp%zip_spec; [|done..].
  destruct p as [[t|] [e|]]; cbn [pairs_spec pair_changes] in *; [|by few_changes..]. destruct Hp as (H1 & H2 & _). apply class_changes_once; auto.
Qed.

Lemma new_table p c : table_change false p = Some c → ∃ t, p = (Some t, None) ∧ c = AddTable t.
Proof. destruct p as [[t|] [e|]]; try done. intros [= <-]. by exists t. Qed.
Lemma tables_once : NoDup new_tables.
Proof.
  pose proof (zip_distinct target s Ht Hs) as Hnd. induction pairs as [|p l IH]; [constructor|]. apply NoDup_cons in Hnd as [Hp Hl]. cbn [omap list_omap].
  destruct (table_change false p) as [c|] eqn:E; [|by apply IH]. apply NoDup_cons. split; [|by apply IH].
  intros (p' & Hp' & E')%list_elem_of_omap. destruct (new_table _ _ E) as (t & -> & ->), (new_table _ _ E') as (t' & -> & [= <-]). done.
Qed.
Lemma tables_only c : c ∈ new_tables → is_add_table c = true.
Proof. intros (p & _ & Hc)%list_elem_of_omap. by destruct (new_table _ _ Hc) as (t & _ & ->). Qed.

(** ** New tables first, removals last *)
Definition arranged (tabs : list SchemaChange) (l : list SchemaChange) : Prop :=
  ∃ a b, l = tabs ++ a ++ b ∧ Forall (λ c, is_add_table c = false) (a ++ b) ∧ Forall (λ c, is_not_remove c = true) a ∧ Forall (λ c, is_late c = true) b.

Lemma table_is_no_removal (l : list SchemaChange) : Forall (λ c, is_add_table c = true) l → Forall (λ c, is_not_remove c = true) l.
Proof. intros Hl. eapply Forall_impl; [exact Hl|]. by intros []. Qed.

Lemma move_removals_arranged tabs l : Forall (λ c, is_add_table c = true) tabs → Forall (λ c, is_add_table c = false) l → arranged tabs (move_removals (tabs ++ l)).
Proof.
  intros Htabs Hl. unfold move_removals. rewrite partition_prefix by (by apply table_is_no_removal).
  destruct (partition_split is_not_remove l) as (l1 & l2 & E & H1 & H2). pose proof (partition_perm is_not_remove l) as Hp. rewrite E in *.
  assert (length (filter (λ c, is_not_remove c = true) (tabs ++ l1 ++ l2)) = length (tabs ++ l1)) as ->.
  { rewrite !filter_app, !length_app. rewrite (filter_all (λ c, is_not_remove c = true) tabs) by (by apply table_is_no_removal). rewrite (filter_all (λ c, is_not_remove c = true) l1) by done.
    rewrite (filter_none (λ c, is_not_remove c = true) l2); [cbn; lia|]. eapply Forall_impl; [exact H2|]. by intros x ->. }
  rewrite app_assoc, take_app_length, drop_app_length. set (lt := λ a b, _). exists l1, (sort_by lt l2). rewrite <- app_assoc. split; [done|].
  split; [by rewrite sort_by_perm, Hp|]. split; [done|]. rewrite sort_by_perm. eapply Forall_impl; [exact H2|]. by intros [].
Qed.

Lemma columns_arranged tabs ps l : Forall (λ c, is_add_table c = true) tabs → (∀ p, p ∈ ps → p ∈ pairs) → arranged tabs l → arranged tabs (foldl column_changes l ps).
Proof.
  intros Htabs. revert l. induction ps as [|p ps IH]; intros l Hps Hl; [done|]. cbn [foldl]. apply IH; [intros p' Hp'; apply Hps; by right|].
  assert (Forall (λ c, is_add_table c = false) (pair_changes p)) as Hnew.
  { apply Forall_forall. intros c Hc. apply (pair_changes_owner p c); [apply Hps; by left|done]. }
  destruct Hl as (a & b & -> & Hab & Ha & Hb). destruct p as [[t|] [e|]]; cbn [column_changes pair_changes] in *; [|..|by exists a, b|by exists a, b].
  - unfold compare_classes. fold (class_changes e t). rewrite <- app_assoc. apply move_removals_arranged; [done|]. by apply Forall_app.
  - exists a, (b ++ [AddInitialProperties t]). rewrite !app_assoc. split; [done|]. split; [by apply Forall_app|]. split; [done|]. apply Forall_app. split; [done|]. by repeat constructor.
Qed.

(** What a list of changes is to be applied in *)
Record plan (l : list SchemaChange) : Prop := {
  pl_exact c : c ∈ l ↔ required s target false c;
  pl_once : NoDup l;
  pl_arranged : ∃ tabs, Forall (λ c, is_add_table c = true) tabs ∧ arranged tabs l;
  pl_descend : removals_descend l }.

Lemma compare_plan : plan (compare s target false).
Proof.
  split.
  - intros c. by apply compare_in.
  - unfold compare. destruct (all_columns_spec pairs _ (table_changes_descend false pairs)) as [Hp _]. rewrite Hp. apply NoDup_app. split; [apply tables_once|]. split; [|apply columns_once].
    intros c Hc%tables_only (p & Hpp & Hin)%in_pair_changes. destruct (pair_changes_owner p c Hpp Hin). congruence.
  - exists new_tables. assert (Forall (λ c, is_add_table c = true) new_tables) as Hnt by (apply Forall_forall; apply tables_only). split; [done|].
    unfold compare. apply columns_arranged; [done|done|]. exists [], []. rewrite app_nil_r. split; [done|]. repeat constructor.
  - by destruct (compare_correct s target false (RemoveTable (MkObjectSchema "" [] [] "")) Hs Ht Hnames) as [_ ?].
Qed.
End plan.

(** An element of one part or of the other *)
Lemma in_first_part {A} (a b pre rest : list A) c : a ++ b = pre ++ c :: rest → c ∉ b → ∃ k, a = pre ++ c :: k.
Proof.
  intros E Hc. apply app_eq_inv in E as [(k & -> & E)|(k & -> & ->)].
  - destruct k as [|x k]; [cbn in E; subst; exfalso; apply Hc; by left|]. injection E as <- _. by exists k.
  - exfalso. apply Hc, elem_of_app. right. by left.
Qed.
Lemma in_second_part {A} (a b pre rest : list A) c : a ++ b = pre ++ c :: rest → c ∉ a → ∃ k, pre = a ++ k.
Proof.
  intros E Hc. apply app_eq_inv in E as [(k & -> & E)|(k & -> & _)]; [|by exists k].
  destruct k as [|x k]; [exists []; by rewrite !app_nil_r|]. injection E as <- _. exfalso. apply Hc, elem_of_app. right. by left.
Qed.

(** ** The plan of one class *)
Section class.
Context {G V : Type} {VA : Values V} {CG : Core G V} (s target : Schema) (e t : ObjectSchema) (tb : Table V).
Hypothesis Hs : strict s.
Hypothesis Ht : strict target.
Hypothesis He : e ∈ s.
Hypothesis Htt : t ∈ target.
Hypothesis Hname : class_name t = class_name e.
Hypothesis Hread : read_from e tb.
Implicit Types (l : list SchemaChange).

Lemma owned c : required s target false c → owner c = class_name e → class_change e t c.
Proof.
  destruct 1 as [t' H1 H2|t' H1 H2|e' ? _ _|e' t' c H1 H2 En Hc]; cbn [owner]; intros Ho; [by destruct (H2 e He)..|done|].
  destruct (class_change_owner _ _ _ Hc) as [Ho' _]. rewrite (strict_unique s e e') by (done || congruence). by rewrite (strict_unique target t t') by (done || congruence).
Qed.

Lemma removals_strict l : all_from e t l → NoDup l → removals_descend l → StronglySorted (λ i j, (j < i)%nat) (removed (class_name e) l).
Proof.
  induction l as [|c l IH]; intros Hl Hnd Hd; [constructor|]. apply NoDup_cons in Hnd as [Hc Hnd].
  assert (all_from e t l) as Hl' by (intros c' Hc'; apply Hl; by right).
  assert (removals_descend l) as Hd'.
  { unfold removals_descend in *. rewrite filter_cons in Hd. case_decide; [by apply StronglySorted_inv in Hd as [? _]|done]. }
  specialize (IH Hl' Hnd Hd'). unfold removed in *. rewrite bind_cons. fold (removed (class_name e) l) in *.
  destruct c as [| | | |o p| | | | | |]; try done. case_decide as Eo; [|done]. constructor; [done|]. apply Forall_forall.
  intros j (p' & Hp' & Hn' & <- & Hin)%(removed_in e t l _ Hl'). cbn [place]. fold (cell_of p).
  assert (o = e ∧ p ∈ persisted_properties e) as [-> Hp].
  { destruct (Hl (RemoveProperty o p) ltac:(by left) Eo) as [p1 q1 _ H|p1 q1 _ H|p1 H1 _ [= -> ->]| |]; try done.
    - by destruct (not_removal e p1 q1 _ (or_introl H) o p).
    - by destruct (not_removal e p1 q1 _ (or_intror H) o p). }
  assert (removed_column (RemoveProperty e p') <= removed_column (RemoveProperty e p)) as Hle.
  { unfold removals_descend in Hd. rewrite filter_cons_True in Hd by done. apply StronglySorted_inv in Hd as [_ Hd]. rewrite Forall_forall in Hd.
    apply Hd. by apply list_elem_of_filter. }
  cbn [removed_column] in Hle. assert (cell_of p' ≠ cell_of p) as Hne.
  { intros E. apply Hc. by rewrite <- (cell_inj e tb Hread p' p Hp' Hp E). }
  destruct (cell_shown e tb Hread p Hp) as (x & _ & Hx%sh_column). unfold cell_of in *. lia.
Qed.

Lemma class_plan_of l : plan s target l → ∃ a b, class_plan e t l a b.
Proof.
  intros [Hin Hnd (tabs & Htabs & a & b & E & _ & Ha & Hb) Hd]. exists (tabs ++ a), b.
  assert (all_from e t l) as Hl by (intros c Hc Ho; apply class_change_origin, owned; [by apply Hin|done]). split.
  - by rewrite <- app_assoc.
  - done.
  - intros c Hc. apply Hin. by eapply class_changed.
  - assert (Forall (λ c, is_not_remove c = true) (tabs ++ a)) as Hall by (apply Forall_app; split; [by apply table_is_no_removal|done]). by rewrite Forall_forall in Hall.
  - by rewrite Forall_forall in Hb.
  - by apply removals_strict.
Qed.
End class.
