(* ===== verification/ObjectStorePasses.v ===== *)
(** * The passes over the changes

    Which schemas can be stored, when a table holds a class, and what the passes of the object store over the changes
    between the schema of a group and a target leave in every table. *)

From Stdlib Require Import String Sorted.
From stdpp Require Import strings sorting.
From S2P Require Import Prelude ChangeCalculation Schema SchemaValidationTheorems SchemaCompare SchemaCompareTheorems LogStream Group ObjectStore ObjectStoreSchema ObjectStoreKeys ObjectStoreMigration ObjectStorePlan.
Import Class_ Validate Compare Store.
Open Scope Z_scope.

Abbreviation tn := table_name_for_object_type.

(** ** Schemas that can be stored *)

(** Besides what [validate] asks for: persisted properties have a column type, indexes are on plain columns, and the primary key is a
    persisted property. *)
Record storable (t : ObjectSchema) : Prop := {
  st_class : class_name t ≠ ""%string;
  st_column q : q ∈ persisted_properties t → is_Some (desc_for q) ∧ indexable q ∧ name q ≠ object_id_column_name;
  st_named q : q ∈ all_properties t → name q ≠ ""%string;
  st_primary q : q ∈ persisted_properties t → is_primary q = true ↔ primary_key t ≠ ""%string ∧ name q = primary_key t;
  st_key : primary_key t ≠ ""%string → ∃ q, q ∈ persisted_properties t ∧ name q = primary_key t }.

Section storable.
Context (target : Schema) (t : ObjectSchema).
Hypothesis Hvalid : valid_class target t.
Hypothesis Hstore : storable t.

Lemma valid_names : names_unique t.
Proof. apply (vc_names _ _ Hvalid). Qed.
Lemma persisted_valid q : q ∈ persisted_properties t → valid_property target (class_name t) q.
Proof. intros Hq. apply (vc_properties _ _ Hvalid). apply elem_of_app. by left. Qed.
Lemma persisted_stored q : q ∈ persisted_properties t → stored_type q.
Proof.
  intros Hq. pose proof (persisted_valid q Hq) as Hv. split; [apply (vp_object _ _ _ Hv)|]. split; [apply (vp_plain _ _ _ Hv)|]. by apply (st_column _ Hstore).
Qed.

Lemma key_property : (primary_key t = ""%string ∧ primary_key_property t = None) ∨
  ∃ q, primary_key_property t = Some q ∧ q ∈ persisted_properties t ∧ is_primary q = true ∧ name q = primary_key t ∧ primary_key t ≠ ""%string.
Proof.
  unfold primary_key_property. destruct (decide (primary_key t = ""%string)) as [E|E].
  - left. split; [done|]. rewrite E. apply for_name_none. intros q Hq. by apply (st_named _ Hstore).
  - right. destruct (st_key _ Hstore E) as (q & Hq & En). exists q. split; [|split; [done|split; [by apply (st_primary _ Hstore)|done]]].
    destruct (property_for_name t (primary_key t)) as [q'|] eqn:Eq.
    + apply for_name_some in Eq as [Hq' En']. f_equal. eapply name_unique; [apply valid_names|done|apply elem_of_app; by left|congruence].
    + rewrite for_name_none in Eq. destruct (Eq q); [apply elem_of_app; by left|done].
Qed.
Lemma key_is_named : key_name t = primary_key t.
Proof. unfold key_name. by destruct key_property as [[-> ->]|(q & -> & _ & _ & -> & _)]. Qed.
Lemma key_is_creatable : key_creatable t.
Proof.
  unfold key_creatable. destruct key_property as [[_ ->]|(q & -> & Hq & Hp & _)]; [done|].
  assert (Props.requires_index q = true) as Hr by (unfold Props.requires_index; by rewrite Hp). destruct (st_column _ Hstore q Hq) as ([d Hd] & Hi & _). destruct (Hi Hr) as [Ho Ha].
  unfold desc_for, type_eqb in Hd. change (base_type PT_Object) with PT_Object in Hd. apply Z.eqb_neq in Ho. rewrite Ho, Ha in Hd.
  destruct (base_type (type q) =? base_type PT_LinkingObjects); [done|]. destruct (to_core_type (type q)) as [ty|]; [|done]. by exists ty.
Qed.
End storable.

(** ** A table that holds a class *)
Section in_place.
Context {V : Type} {VA : Values V}.
Implicit Types (x : Column V) (tb : Table V) (p q : Property) (t : ObjectSchema).

Definition represents x q : Prop := reads_as (c_desc x) q ∧ c_indexed x = Props.requires_index q.
Record in_place t tb : Prop := {
  ip_property q : q ∈ persisted_properties t → ∃ x, x ∈ t_columns tb ∧ represents x q;
  ip_column x : x ∈ t_columns tb → visible (c_desc x) = true → ∃ q, q ∈ persisted_properties t ∧ represents x q }.

Lemma reads_as_ext d p q : reads_as d p → name p = name q → base_type (type p) = base_type (type q) → is_array (type p) = is_array (type q) → is_nullable (type p) = is_nullable (type q) →
  object_type p = object_type q → reads_as d q.
Proof.
  intros [H1 H2 (ty & H3 & H4 & H5 & H6) H7] En Eb Ea Enu Eo. split; [done|congruence| |].
  - exists ty. by rewrite <- Eb, <- Ea, <- Enu.
  - rewrite <- Eo, <- H7. by rewrite (bool_decide_ext (base_type (type q) = PT_Object) (base_type (type p) = PT_Object)) by (by rewrite Eb).
Qed.

Lemma new_col_reads p rows : is_Some (desc_for p) → stored_type p → reads_as (c_desc (new_col p rows : Column V)) p ∧ c_indexed (new_col p rows : Column V) = index_for p.
Proof. intros [d Hd] Hs. unfold new_col. rewrite Hd. cbn. split; [by apply desc_reads|done]. Qed.
Lemma new_col_represents q rows : is_Some (desc_for q) → stored_type q → indexable q → represents (new_col q rows) q.
Proof. intros Hd Hs Hi. destruct (new_col_reads q rows Hd Hs) as [H1 H2]. split; [done|]. rewrite H2. by apply index_for_plain. Qed.

(** A table that has a column for every property, and perhaps others that are no property's *)
Record covers t tb : Prop := {
  cv_property q : q ∈ persisted_properties t → ∃ x, x ∈ t_columns tb ∧ represents x q;
  cv_column x : x ∈ t_columns tb → visible (c_desc x) = true → (∃ q, q ∈ persisted_properties t ∧ represents x q) ∨ is_Some (from_core_type (c_desc x)) ∧ ∀ q, q ∈ persisted_properties t → name q ≠ d_name (c_desc x) }.
Lemma in_place_covers t tb : in_place t tb → covers t tb.
Proof. intros [H1 H2]. split; [done|]. intros x Hx Hv. left. by apply H2. Qed.

(** What is read from it needs no change, but for the columns that are left over. *)
Lemma covers_nothing os t tb c : covers t tb → read_from os tb → names_unique t → primary_key os = primary_key t → storable t → class_change os t c →
  ∃ p, c = RemoveProperty os p ∧ p ∈ persisted_properties os ∧ ∀ q, q ∈ persisted_properties t → name q ≠ name p.
Proof.
  intros Hin Hread Hu Hkey Hst Hc.
  assert (∀ p q, kept os t p q → same_type p q ∧ is_nullable (type p) = is_nullable (type q) ∧ is_indexed p = Props.requires_index q ∧ (is_primary p = true → is_primary q = true)) as Hkept.
  { intros p q (Hp & Hq & En). destruct (rf_property _ _ Hread p Hp) as (i & x & Hx & Hs). apply list_elem_of_lookup_2 in Hx.
    destruct (cv_column _ _ Hin x Hx (sh_visible _ _ _ _ Hs)) as [(q' & Hq' & Hr)|[_ Hn]]; [|destruct (Hn q Hq); by rewrite En, (sh_name _ _ _ _ Hs)].
    assert (q' = q) as ->. { eapply name_unique; [exact Hu|apply elem_of_app; by left..|]. rewrite En, (sh_name _ _ _ _ Hs). symmetry. apply (ra_name _ _ (proj1 Hr)). }
    destruct Hr as [[_ _ (ty & Hty & Hb & Ha & Hn) Ht] Hi], Hs as [_ _ Hcore Ho Hidx _ Hpr].
    rewrite Hcore in Hty. injection Hty as <-. split; [|split; [done|split; [congruence|]]].
    - split; [done|]. split; [|done]. rewrite Ho, <- Ht. unfold type_eqb. change (base_type PT_Object) with PT_Object. rewrite Hb.
      destruct (Z.eqb_spec (base_type (type q)) PT_Object); [by rewrite bool_decide_true|by rewrite bool_decide_false].
    - intros Hp1. destruct (Hpr Hp1) as [H1 H2]. apply (st_primary _ Hst); [done|]. rewrite En. split; congruence. }
  destruct Hc as [p Hpe Hn|p q Hk Hs|p q Hk Hs H1 H2|p q Hk Hs H1 H2|p q Hk Hs H1 H2|p q Hk Hs H1 H2|Hne|q Hq Hn]; [by exists p|exfalso..].
  - by destruct (Hkept p q Hk) as [? _].
  - destruct (Hkept p q Hk) as (_ & ? & _). congruence.
  - destruct (Hkept p q Hk) as (_ & ? & _). congruence.
  - destruct (Hkept p q Hk) as (_ & _ & ? & _). congruence.
  - destruct (Hkept p q Hk) as (_ & _ & E & Hpr). unfold Props.requires_index in *. apply orb_false_iff in H2 as [Hf1 Hf2]. rewrite Hf1, Hf2 in E. cbn in E. rewrite E, orb_false_r in H1.
    specialize (Hpr H1). congruence.
  - congruence.
  - destruct (cv_property _ _ Hin q Hq) as (x & Hx & [Hr Hi]). apply list_elem_of_lookup in Hx as [i Hx]. destruct (rf_column _ _ Hread i x Hx (ra_visible _ _ Hr)) as (p & Hpe & Hs).
    apply (Hn p); [apply elem_of_app; by left|]. rewrite (sh_name _ _ _ _ Hs). apply (ra_name _ _ Hr).
Qed.
Lemma in_place_named os t tb p : in_place t tb → read_from os tb → p ∈ persisted_properties os → ∃ q, q ∈ persisted_properties t ∧ name q = name p.
Proof.
  intros Hin Hread Hp. destruct (rf_property _ _ Hread p Hp) as (i & x & Hx & Hs). apply list_elem_of_lookup_2 in Hx.
  destruct (ip_column _ _ Hin x Hx (sh_visible _ _ _ _ Hs)) as (q & Hq & Hr). exists q. split; [done|]. rewrite (sh_name _ _ _ _ Hs). symmetry. apply (ra_name _ _ (proj1 Hr)).
Qed.

Lemma covers_readable t tb : covers t tb → ∀ i x, t_columns tb !! i = Some x → visible (c_desc x) = true → is_Some (from_core_type (c_desc x)).
Proof. intros Hin i x Hx%list_elem_of_lookup_2 Hv. destruct (cv_column _ _ Hin x Hx Hv) as [(q & _ & [[_ _ (ty & -> & _) _] _])|[? _]]; [by eexists|done]. Qed.
End in_place.

(** ** The passes *)
Section passes.
Context {G V : Type} {VA : Values V} {CG : Core G V} {CL : CoreLaws G V}.
Implicit Types (g : G) (ps : keys) (x : Column V) (tb : Table V) (c : SchemaChange) (pre l : list SchemaChange).

(** The schema that is in a group with these keys *)
Record reads g ps (s : Schema) : Prop := {
  rd_strict : strict s;
  rd_key cls : get_primary_key_for_object cls g = Some (assoc cls ps);
  rd_class e : e ∈ s → ∃ tb, get_table (tn (class_name e)) g = Some tb ∧ read_from e tb ∧ primary_key e = assoc (class_name e) ps;
  rd_table cls tb : cls ≠ ""%string → get_table (tn cls) g = Some tb → ∃ e, e ∈ s ∧ class_name e = cls }.

Context (s target : Schema) (all : list SchemaChange) (g0 : G) (ps0 : keys).
Hypothesis Hreads : reads g0 ps0 s.
Hypothesis Htarget : strict target.
Hypothesis Hvalid : ∀ t, t ∈ target → valid_class target t.
Hypothesis Hstore : ∀ t, t ∈ target → storable t.
Hypothesis Hplan : plan s target all.
Hypothesis Hkeys0 : has_keys g0 ps0.
Hypothesis Hfresh0 : ∀ cls, cls ∈ ps0.*1 → is_Some (get_table (tn cls) g0).
Hypothesis Hids : sync_has_object_ids = false.

Lemma known_class t : t ∈ target → (∃ e, e ∈ s ∧ class_name e = class_name t) ↔ is_Some (get_table (tn (class_name t)) g0).
Proof.
  intros Ht. split.
  - intros (e & He & <-). destruct (rd_class _ _ _ Hreads e He) as (tb & -> & _). by eexists.
  - intros [tb Htb]. eapply rd_table; [exact Hreads|by apply (st_class _ (Hstore t Ht))|exact Htb].
Qed.
Lemma missing_class t : t ∈ target → missing s t ↔ get_table (tn (class_name t)) g0 = None.
Proof.
  intros Ht. rewrite eq_None_not_Some, <- known_class by done. unfold missing. split; [intros Hm (e & He & E); by apply (Hm e He)|intros Hm e He E; apply Hm; by exists e].
Qed.

(** What a table begins with: what it was, or the column of the primary key *)
Inductive begins : string → list (Column V) → nat → Prop :=
  | begins_old cls tb : get_table (tn cls) g0 = Some tb → begins cls (t_columns tb) (t_rows tb)
  | begins_new t ids : t ∈ target → get_table (tn (class_name t)) g0 = None → id_columns ids → begins (class_name t) (ids ++ key_columns_of t) 0.

Definition present pre (cls : string) : Prop := is_Some (get_table (tn cls) g0) ∨ ∃ t, AddTable t ∈ pre ∧ class_name t = cls.

Definition key_step c (key : string) : string :=
  match c with AddTable t => key_name t | ChangePrimaryKey _ p => match p with Some p => name p | None => ""%string end | _ => key end.
Definition key_after (cls : string) pre (key : string) : string := foldl (λ key c, if decide (owner c = cls) then key_step c key else key) key pre.

Record state pre g ps : Prop := {
  sta_present cls : present pre cls → ∃ cs rows, begins cls cs rows ∧ get_table (tn cls) g = Some (MkTable (tn cls) (columns_after cls rows pre cs) rows);
  sta_absent cls : ¬ present pre cls → get_table (tn cls) g = None;
  sta_other m : m ≠ pk_table_name → (∀ cls, m ≠ tn cls) → get_table m g = get_table m g0;
  sta_keys : has_keys g ps;
  sta_key cls : assoc cls ps = key_after cls pre (assoc cls ps0);
  sta_fresh cls : cls ∈ ps.*1 → present pre cls }.

Lemma state_start : state [] g0 ps0.
Proof.
  split; try done.
  - intros cls [[tb Htb]|(t & Ht%elem_of_nil & _)]; [|done]. exists (t_columns tb), (t_rows tb). split; [by constructor|]. rewrite Htb. f_equal.
    pose proof (get_table_name _ _ _ Htb) as E. destruct tb as [n cs rows]. cbn in *. by rewrite E.
  - intros cls Hn. apply eq_None_not_Some. intros H. apply Hn. by left.
  - intros cls Hin. left. by apply Hfresh0.
Qed.

Lemma present_snoc pre c cls : is_add_table c = false → present (pre ++ [c]) cls ↔ present pre cls.
Proof.
  intros Hc. unfold present. split; (intros [?|(t & Ht & E)]; [by left|right; exists t; split; [|done]]).
  - apply elem_of_app in Ht as [?|Ht%list_elem_of_singleton]; [done|]. by rewrite <- Ht in Hc.
  - apply elem_of_app. by left.
Qed.
Lemma key_after_snoc cls pre c k : key_after cls (pre ++ [c]) k = if decide (owner c = cls) then key_step c (key_after cls pre k) else key_after cls pre k.
Proof. unfold key_after. by rewrite foldl_snoc. Qed.
Lemma owner_table c cls : tn (owner c) = tn cls → owner c = cls.
Proof. apply table_name_inj. Qed.

(** A change of the columns of one table *)
Lemma state_update pre c g ps g' : state pre g ps → is_add_table c = false → (∀ k, key_step c k = k) →
  (∀ tb, get_table (tn (owner c)) g = Some tb → updates g (tn (owner c)) (with_columns (change_columns (t_rows tb) c)) g') → present pre (owner c) → state (pre ++ [c]) g' ps.
Proof.
  intros Hs Ha Hk Hu Hp. destruct (sta_present _ _ _ Hs _ Hp) as (cs0 & rows0 & Hb0 & Ht0). specialize (Hu _ Ht0). cbn [t_rows] in Hu. split.
  - intros cls Hcls%present_snoc; [|done]. destruct (decide (cls = owner c)) as [->|Hne].
    + exists cs0, rows0. split; [done|]. rewrite (updates_at _ _ _ _ _ Hu Ht0). rewrite columns_after_snoc, decide_True by done. done.
    + destruct (sta_present _ _ _ Hs _ Hcls) as (cs & rows & Hb & Ht). exists cs, rows. split; [done|]. rewrite columns_after_snoc, decide_False by done.
      rewrite (updates_other _ _ _ _ _ Hu); [done|]. intros E. apply Hne. symmetry. by apply owner_table.
  - intros cls Hcls. rewrite present_snoc in Hcls by done. rewrite Hu. case_decide as E; [|by rewrite (sta_absent _ _ _ Hs _ Hcls)].
    apply table_name_inj in E. by subst.
  - intros m H1 H2. rewrite (updates_other _ _ _ _ _ Hu (H2 _)). by apply (sta_other _ _ _ Hs).
  - eapply has_keys_frame; [|apply (sta_keys _ _ _ Hs)]. eapply updates_other; [exact Hu|]. intros E. symmetry in E. by apply (proj1 (table_name_apart (owner c))).
  - intros cls. rewrite key_after_snoc, Hk, (sta_key _ _ _ Hs). by case_decide.
  - intros cls Hin. apply present_snoc; [done|]. by apply (sta_fresh _ _ _ Hs).
Qed.

(** A change that leaves all columns in place *)
Lemma no_columns c rows (cs : list (Column V)) : appended c = [] → (∀ x, on_cell rows c x = x) → change_columns rows c cs = cs.
Proof.
  intros Ha Hc. unfold change_columns. rewrite Ha. cbn. rewrite app_nil_r. apply list_eq. intros i. destruct (decide (i = place c)) as [->|Hne].
  - rewrite list_lookup_alter_eq. destruct (cs !! place c) as [x|]; [|done]. cbn. by rewrite Hc.
  - by rewrite list_lookup_alter_ne.
Qed.
Lemma state_nothing pre c g ps : state pre g ps → is_add_table c = false → (∀ k, key_step c k = k) → appended c = [] → (∀ rows x, on_cell rows c x = x) →
  present pre (owner c) → state (pre ++ [c]) g ps.
Proof.
  intros Hs Ha Hk Hap Hc Hp. eapply state_update; try done. intros tb Htb. eapply updates_ext; [exact Htb| |apply updates_id].
  unfold with_columns. rewrite no_columns by auto. by destruct tb.
Qed.

(** A change of the primary key *)
Lemma state_key_change pre e p g ps : state pre g ps → present pre (class_name e) →
  ∃ g' ps', set_primary_key_for_object (class_name e) (match p with Some p => name p | None => ""%string end) g = Some g' ∧ state (pre ++ [ChangePrimaryKey e p]) g' ps'.
Proof.
  intros Hs Hp. destruct (set_primary_key_spec g ps (class_name e) (match p with Some p => name p | None => ""%string end) Hids (sta_keys _ _ _ Hs)) as (g' & ps' & -> & Hk & Ho & Ha & Hf).
  exists g', ps'. split; [done|]. assert (∀ cls, get_table (tn cls) g' = get_table (tn cls) g) as Ht by (intros cls; apply Ho, table_name_apart). split.
  - intros cls Hcls%present_snoc; [|done]. destruct (sta_present _ _ _ Hs _ Hcls) as (cs & rows & Hb & Htb). exists cs, rows. split; [done|]. rewrite Ht, Htb, columns_after_snoc.
    case_decide; [|done]. by rewrite no_columns.
  - intros cls Hcls. rewrite present_snoc in Hcls by done. rewrite Ht. by apply (sta_absent _ _ _ Hs).
  - intros m H1 H2. rewrite Ho by done. by apply (sta_other _ _ _ Hs).
  - done.
  - intros cls. rewrite Ha, key_after_snoc, (sta_key _ _ _ Hs). cbn [owner key_step]. repeat case_decide; congruence.
  - intros cls Hcls. apply present_snoc; [done|]. destruct (Hf _ Hcls) as [H| ->]; [by apply (sta_fresh _ _ _ Hs)|done].
Qed.

(** A new table *)
Lemma state_new_table pre t g ps : state pre g ps → t ∈ target → get_table (tn (class_name t)) g0 = None → (∀ c, c ∈ pre → owner c ≠ class_name t) →
  ∃ g' ps', create_table t g = Some g' ∧ state (pre ++ [AddTable t]) g' ps'.
Proof.
  intros Hs Ht H0 Hpre. assert (¬ present pre (class_name t)) as Hn.
  { intros [[? H]|(t' & Hin & E)]; [congruence|]. by apply (Hpre _ Hin). }
  destruct (create_table_new t g ps) as (g' & ids & ps' & -> & Hid & Hnew & Ho & Hk & Ha & Hf).
  - by apply (key_is_creatable target t (Hvalid t Ht) (Hstore t Ht)).
  - by apply (sta_absent _ _ _ Hs).
  - apply (sta_keys _ _ _ Hs).
  - intros Hin. by apply Hn, (sta_fresh _ _ _ Hs).
  - exists g', ps'. split; [done|]. set (n := class_name t) in *.
    assert (∀ cls, present (pre ++ [AddTable t]) cls ↔ present pre cls ∨ cls = n) as Hpr.
    { intros cls. unfold present. split.
      - intros [?|(t' & [Hin|[= <-]%list_elem_of_singleton]%elem_of_app & E)]; [by left; left|left; right; by exists t'|by right].
      - intros [[?|(t' & Hin & E)]| ->]; [by left|right; exists t'; split; [|done]; apply elem_of_app; by left|right; exists t; split; [|done]; apply elem_of_app; right; by left]. }
    assert (∀ cls, cls ≠ n → get_table (tn cls) g' = get_table (tn cls) g) as Hsame.
    { intros cls Hne. apply Ho; [|apply table_name_apart]. intros E. apply Hne. by apply table_name_inj. }
    assert (∀ cs : list (Column V), columns_after n 0 pre cs = cs) as Hnone.
    { clear - Hpre. intros cs. induction pre as [|c pre IH] using rev_ind; [done|]. rewrite columns_after_snoc, decide_False.
      - apply IH. intros c' Hc'. apply Hpre, elem_of_app. by left.
      - apply Hpre, elem_of_app. right. by left. }
    assert (∀ k, key_after n (pre ++ [AddTable t]) k = key_name t) as Hkn by (intros k; by rewrite key_after_snoc, decide_True). split.
    + intros cls [Hcls| ->]%Hpr.
      * assert (cls ≠ n) as Hne by (by intros ->). destruct (sta_present _ _ _ Hs _ Hcls) as (cs & rows & Hb & Htb). exists cs, rows. split; [done|].
        rewrite Hsame, Htb, columns_after_snoc by done. by rewrite decide_False.
      * exists (ids ++ key_columns_of t), 0%nat. split; [by apply begins_new|]. rewrite Hnew, columns_after_snoc, Hnone, decide_True by done. by rewrite no_columns.
    + intros cls Hcls. rewrite Hpr in Hcls. rewrite Hsame by naive_solver. apply (sta_absent _ _ _ Hs). naive_solver.
    + intros m H1 H2. rewrite Ho by auto. by apply (sta_other _ _ _ Hs).
    + done.
    + intros cls. rewrite Ha. case_decide as E; [by rewrite E, Hkn|]. rewrite key_after_snoc, decide_False by (cbn; intros <-; by apply E). by apply (sta_key _ _ _ Hs).
    + intros cls Hcls. apply Hpr. destruct (Hf _ Hcls) as [H| ->]; [left; by apply (sta_fresh _ _ _ Hs)|by right].
Qed.

(** *** The classes that were there *)
Definition shared (e t : ObjectSchema) : Prop := e ∈ s ∧ t ∈ target ∧ class_name t = class_name e.

(** Nothing is known of the values of a list whose elements become optional, unless there are none: copying them is not what the code does. *)
Hypothesis Hlists : ∀ e t p q tb, shared e t → kept e t p q → same_type p q → is_array (type p) = true → is_nullable (type p) = false → is_nullable (type q) = true →
  get_table (tn (class_name e)) g0 = Some tb → t_rows tb = 0%nat.

Lemma begins_same cls cs rows tb : begins cls cs rows → get_table (tn cls) g0 = Some tb → cs = t_columns tb ∧ rows = t_rows tb.
Proof. intros [cls' tb' H|t ids _ H _] Htb; rewrite Htb in H; [by injection H as <-|done]. Qed.

Lemma shared_read e t : shared e t → ∃ tb, get_table (tn (class_name e)) g0 = Some tb ∧ read_from e tb ∧ primary_key e = assoc (class_name e) ps0.
Proof. intros (He & _ & _). by apply (rd_class _ _ _ Hreads). Qed.
Lemma shared_names e t : shared e t → names_unique t.
Proof. intros (_ & Ht & _). apply (valid_names target t), Hvalid, Ht. Qed.
Lemma shared_indexable e t q : shared e t → q ∈ persisted_properties t → indexable q.
Proof. intros (_ & Ht & _) Hq. by apply (st_column _ (Hstore t Ht)). Qed.
Lemma shared_from e t l : shared e t → (∀ c, c ∈ l → c ∈ all) → all_from e t l.
Proof.
  intros (He & Ht & En) Hl c Hc Ho. apply class_change_origin. eapply owned; [apply (rd_strict _ _ _ Hreads)|exact Htarget|exact He|exact Ht|exact En| |exact Ho].
  apply (pl_exact _ _ _ Hplan). by apply Hl.
Qed.

(** The table of such a class, and one of its columns *)
Lemma shared_table e t pre g ps tb : shared e t → state pre g ps → get_table (tn (class_name e)) g0 = Some tb →
  get_table (tn (class_name e)) g = Some (MkTable (tn (class_name e)) (columns_after (class_name e) (t_rows tb) pre (t_columns tb)) (t_rows tb)).
Proof.
  intros Hsh Hs Htb. destruct (sta_present _ _ _ Hs (class_name e)) as (cs & rows & Hb & ->); [left; by rewrite Htb|].
  by destruct (begins_same _ _ _ _ Hb Htb) as [-> ->].
Qed.
Lemma shared_cell e t pre p x0 tb rows : shared e t → (∀ c, c ∈ pre → c ∈ all) → read_from e tb → t_columns tb !! cell_of p = Some x0 →
  columns_after (class_name e) rows pre (t_columns tb) !! cell_of p = Some (cell_after (class_name e) rows (cell_of p) pre x0).
Proof.
  intros Hsh Hpre Hr Hx. pose proof (shared_from e t pre Hsh Hpre) as Hf. rewrite columns_split by (intros c Hc Ho; by eapply (all_placed e t tb)).
  rewrite lookup_app_l by (rewrite length_imap; by eapply lookup_lt_Some). by rewrite list_lookup_imap, Hx.
Qed.

Definition tables_done pre : Prop := ∀ t, AddTable t ∈ all → AddTable t ∈ pre.

Lemma target_present pre t : tables_done pre → t ∈ target → present pre (class_name t).
Proof.
  intros Hd Ht. destruct (get_table (tn (class_name t)) g0) as [tb|] eqn:E; [left; by rewrite E|]. right. exists t. split; [|done].
  apply Hd, (pl_exact _ _ _ Hplan), class_new; [done|]. by apply missing_class.
Qed.
Lemma creatable_like pre g ps t q p : tables_done pre → state pre g ps → t ∈ target → q ∈ persisted_properties t →
  base_type (type p) = base_type (type q) → is_array (type p) = is_array (type q) → object_type p = object_type q → ∃ d, creatable p d g ∧ ∀ rows, column_for p d rows = new_col (V := V) p rows.
Proof.
  intros Hd Hs Ht Hq Hb Ha Ho. destruct (desc_by_base p q Hb Ha) as [d Hdesc]; [by apply (st_column _ (Hstore t Ht))|]. exists d. split; [|by intros; unfold new_col; rewrite Hdesc].
  split; [done|]. unfold type_eqb. change (base_type PT_Object) with PT_Object. rewrite Hb. intros E%Z.eqb_eq.
  destruct (vp_target _ _ _ (persisted_valid target t (Hvalid t Ht) q Hq) (or_introl E)) as (c & Hc & Ec).
  destruct (sta_present _ _ _ Hs _ (target_present pre c Hd Hc)) as (cs & rows & _ & Htb). rewrite Ho, <- Ec, Htb. by eexists.
Qed.

Lemma class_table e g tb : get_table (tn (class_name e)) g = Some tb → table e g = Some (tn (class_name e)).
Proof. intros Htb. unfold table. by rewrite Htb. Qed.
Lemma insert_alter {A} i (y : A) (l : list A) : <[i := y]> l = alter (λ _, y) i l.
Proof.
  apply list_eq. intros j. destruct (decide (j = i)) as [->|Hne]; [|by rewrite list_lookup_insert_ne, list_lookup_alter_ne].
  rewrite list_lookup_alter_eq. destruct (l !! i) eqn:E; [|by rewrite lookup_ge_None in E; rewrite lookup_ge_None_2 by (rewrite length_insert; done)].
  rewrite list_lookup_insert_eq; [done|]. by eapply lookup_lt_Some.
Qed.

(** *** One change of the columns of such a class *)
Section one.
Context (e t : ObjectSchema) (tb : Table V) (pre : list SchemaChange) (c0 : SchemaChange) (rest : list SchemaChange) (g : G) (ps : keys).
Hypothesis Hsh : shared e t.
Hypothesis Htb : get_table (tn (class_name e)) g0 = Some tb.
Hypothesis Hread : read_from e tb.
Hypothesis Hall : all = pre ++ c0 :: rest.
Hypothesis Hdone : tables_done pre.
Hypothesis Hstate : state pre g ps.

Abbreviation n := (tn (class_name e)).
Abbreviation now := (columns_after (class_name e) (t_rows tb) pre (t_columns tb)).

Lemma pre_all : ∀ c, c ∈ pre → c ∈ all.
Proof. intros c Hc. rewrite Hall. apply elem_of_app. by left. Qed.
Lemma now_table : get_table n g = Some (MkTable n now (t_rows tb)).
Proof. by eapply shared_table. Qed.
Lemma now_cell p : p ∈ persisted_properties e → ∃ x0, t_columns tb !! cell_of p = Some x0 ∧ shows e (cell_of p) x0 p ∧
  now !! cell_of p = Some (cell_after (class_name e) (t_rows tb) (cell_of p) pre x0) ∧ table_column p = Z.of_nat (cell_of p).
Proof.
  intros Hp. destruct (cell_shown e tb Hread p Hp) as (x0 & Hx & Hs). exists x0. split; [done|]. split; [done|]. split; [by apply (shared_cell e t pre p x0 tb); [|apply pre_all| |]|by apply sh_column in Hs].
Qed.
Lemma here : present pre (class_name e).
Proof. left. by rewrite Htb. Qed.

(** A call that changes the table as the change says *)
Lemma by_call c f : is_add_table c = false → (∀ k, key_step c k = k) → owner c = class_name e →
  (∃ g', f = Some g' ∧ updates g n (with_columns (change_columns (t_rows tb) c)) g') → ∃ g' ps', f = Some g' ∧ state (pre ++ [c]) g' ps'.
Proof.
  intros Ha Hk Ho (g' & -> & Hu). exists g', ps. split; [done|]. eapply state_update; try done; rewrite Ho; [|apply here].
  intros tb' Htb'. rewrite now_table in Htb'. by injection Htb' as <-.
Qed.
(** and one that replaces a column *)
Lemma by_insertion c f p (y : Column V) : owner c = class_name e → is_add_table c = false → (∀ k, key_step c k = k) → appended c = [] → place c = cell_of p → (∀ x, on_cell (t_rows tb) c x = y) →
  (∃ g', f = Some g' ∧ updates g n (with_columns (insert (cell_of p) y)) g') → ∃ g' ps', f = Some g' ∧ state (pre ++ [c]) g' ps'.
Proof.
  intros Ho Ha Hk Hap Hpl Hc (g' & Hf & Hu). apply by_call; [done..|]. exists g'. split; [done|]. eapply updates_ext; [apply now_table| |exact Hu].
  unfold with_columns, change_columns. cbn. rewrite Hap, Hpl, app_nil_r, insert_alter. f_equal. apply list_alter_ext; [intros; by rewrite Hc|done].
Qed.

Lemma one_creatable p q : q ∈ persisted_properties t → base_type (type p) = base_type (type q) → is_array (type p) = is_array (type q) → object_type p = object_type q →
  ∃ d, creatable p d g ∧ ∀ rows, column_for p d rows = new_col (V := V) p rows.
Proof. intros Hq. apply (creatable_like pre g ps t q p Hdone Hstate); [apply Hsh|done]. Qed.

Lemma apply_table f : (t ← table e g; f t) = f n :> option G.
Proof. by rewrite (class_table e g _ now_table). Qed.

Lemma one_index p (b : bool) c : p ∈ persisted_properties e → c = (if b then AddIndex e p else RemoveIndex e p) → ∃ g' ps', pre_migration_applier c g = Some g' ∧ state (pre ++ [c]) g' ps'.
Proof.
  intros Hp ->. destruct (now_cell p Hp) as (x0 & _ & _ & Hx%lookup_lt_Some & Hc).
  assert (∃ g', at_column n (table_column p) (λ k, core_set_search_index n k b) g = Some g' ∧ updates g n (with_columns (alter (with_index b) (cell_of p))) g') as (g' & E & Hu).
  { rewrite Hc. destruct b; [eapply add_search_index_spec|eapply remove_search_index_spec]; [apply now_table|done|apply now_table|done]. }
  apply by_call; [by destruct b..|]. exists g'. split; [by destruct b; cbn; rewrite apply_table|].
  eapply updates_ext; [apply now_table| |exact Hu]. unfold with_columns, change_columns. destruct b; cbn; by rewrite app_nil_r.
Qed.

Lemma one_new q : q ∈ persisted_properties t → ∃ g' ps', pre_migration_applier (AddProperty e q) g = Some g' ∧ state (pre ++ [AddProperty e q]) g' ps'.
Proof.
  intros Hq. destruct (one_creatable q q Hq) as (d & Hd & _); [done..|]. destruct (add_column_spec n q d g _ now_table Hd) as (g' & E & Hu).
  apply by_call; [done..|]. exists g'. split; [cbn; by rewrite apply_table|]. eapply updates_ext; [apply now_table| |exact Hu].
  unfold with_columns, change_columns. cbn. destruct Hd as [-> _]. cbn. f_equal. f_equal. symmetry. apply list_alter_id. done.
Qed.

Lemma one_retyped p q : kept e t p q → ∃ g' ps', pre_migration_applier (ChangePropertyType e p q) g = Some g' ∧ state (pre ++ [ChangePropertyType e p q]) g' ps'.
Proof.
  intros (Hp & Hq & _). destruct (now_cell p Hp) as (x0 & _ & _ & Hx%lookup_lt_Some & Hc). destruct (one_creatable q q Hq) as (d & Hd & Ed); [done..|].
  destruct (replace_column_spec n p q (cell_of p) d g _ now_table Hc Hx Hd) as (g' & E & Hu). rewrite Ed in Hu.
  apply (by_insertion _ _ p (new_col q (t_rows tb))); [done..|]. exists g'. split; [cbn; by rewrite apply_table|exact Hu].
Qed.

Lemma one_required p q : kept e t p q → same_type p q → ∃ g' ps', pre_migration_applier (MakePropertyRequired e p) g = Some g' ∧ state (pre ++ [MakePropertyRequired e p]) g' ps'.
Proof.
  intros (Hp & Hq & _) (Hb & Ho & Ha). destruct (now_cell p Hp) as (x0 & _ & _ & Hx%lookup_lt_Some & Hc).
  destruct (mandatory_flags (type p)) as (Fb & Fa & _). destruct (one_creatable (mandatory p) q Hq) as (d & Hd & Ed); [cbn; congruence..|].
  destruct (make_property_required_spec n p (cell_of p) d g _ now_table Hc Hx Hd) as (g' & E & Hu). rewrite Ed in Hu.
  apply (by_insertion _ _ p (new_col (mandatory p) (t_rows tb))); [done..|]. exists g'. split; [cbn; by rewrite apply_table|exact Hu].
Qed.

(** The elements of a plain column have its type, before and after. *)
Lemma plain_type q d ty : desc_for q = Some d → base_type (type q) ≠ PT_Object → is_array (type q) = false → to_core_type (type q) = Some ty → d_type d = ty.
Proof.
  intros Hd Ho Ha Hty. unfold desc_for, type_eqb in Hd. change (base_type PT_Object) with PT_Object in Hd. apply Z.eqb_neq in Ho. rewrite Ho, Ha, Hty in Hd.
  destruct (_ =? _); [done|]. by injection Hd as <-.
Qed.
Lemma plain_core q : is_Some (desc_for q) → base_type (type q) ≠ PT_Object → is_Some (to_core_type (type q)).
Proof.
  intros [d Hd] Ho. unfold desc_for, type_eqb in Hd. change (base_type PT_Object) with PT_Object in Hd. apply Z.eqb_neq in Ho. rewrite Ho in Hd.
  destruct (_ =? _); [done|]. destruct (is_array (type q)).
  - rewrite (core_by_base (type q) (base_type (type q))) by (symmetry; apply base_type_idem). destruct (to_core_type (base_type (type q))); [by eexists|done].
  - destruct (to_core_type (type q)); [by eexists|done].
Qed.

Lemma link_nullable d ty : from_core_type d = Some ty → base_type ty = PT_Object → is_array ty = false → is_nullable ty = true.
Proof.
  destruct d as [dt dn dl dg ds]. intros H Hb Ha. destruct dt; cbn in H; try (by injection H as <-); try (injection H as <-; by destruct dl); [|done].
  destruct ds as [|sub ds]; [done|]. destruct (from_core_type sub) as [u|]; [|done]. cbn in H. injection H as <-. exfalso.
  unfold is_array in Ha. rewrite Z.land_lor_distr_l in Ha. change (Z.land PT_Array PT_Array) with PT_Array in Ha. apply Z.eqb_neq in Ha. apply Ha.
  apply Z.bits_inj. intros i. rewrite Z.lor_spec, Z.land_spec. by destruct (Z.testbit u i), (Z.testbit PT_Array i).
Qed.

Lemma one_optional p q : kept e t p q → same_type p q → is_nullable (type p) = false → is_nullable (type q) = true → MakePropertyNullable e p ∉ pre →
  ∃ g' ps', pre_migration_applier (MakePropertyNullable e p) g = Some g' ∧ state (pre ++ [MakePropertyNullable e p]) g' ps'.
Proof.
  intros Hk Hst Hn1 Hn2 Hnot. pose proof Hk as (Hp & Hq & _). pose proof Hst as (Hb & Ho & Ha). destruct (now_cell p Hp) as (x0 & Hx0 & Hs & Hx & Hc).
  assert (Hsh' := Hsh). destruct Hsh' as (_ & Ht & _). destruct (optional_flags (type p)) as (Fb & Fa & _).
  assert (base_type (type q) ≠ PT_Object) as Hobj.
  { intros E. pose proof (vp_object _ _ _ (persisted_valid target t (Hvalid t Ht) q Hq) E) as H1. rewrite Hn2 in H1. symmetry in H1. apply negb_true_iff in H1.
    rewrite (link_nullable _ _ (sh_type _ _ _ _ Hs)) in Hn1 by congruence. done. }
  destruct (one_creatable (optional p) q Hq) as (d & Hd & Ed); [cbn; congruence..|].
  destruct (plain_core q) as [ty Hty]; [by apply (st_column _ (Hstore t Ht))|done|].
  assert (to_core_type (type (optional p)) = Some ty) as Hty' by (rewrite <- Hty; apply core_by_base; cbn; congruence).
  destruct (make_property_optional_spec n p (cell_of p) d g _ _ now_table Hc Hx Hd) as (g' & E & Hu).
  - exists ty. split; [done|]. destruct (is_array (type p)) eqn:Eap; [left; cbn; by apply (Hlists e t p q tb)|right].
    assert (all_from e t pre) as Hfrom by (apply shared_from; [done|apply pre_all]).
    destruct (cell_progress e t tb Hread (shared_names e t Hsh) (λ q, shared_indexable e t q Hsh) pre (t_rows tb) p q x0 Hfrom Hk (sh_indexed _ _ _ _ Hs)) as (b & -> & _).
    assert (converter e p q = Some (MakePropertyNullable e p)) as Ec by (unfold converter; by rewrite decide_True, Hn1, Hn2).
    rewrite Ec. unfold done_by. rewrite bool_decide_false by done. cbn [with_index c_desc]. split.
    + eapply stored_type_core; [apply (sh_type _ _ _ _ Hs)|done|]. rewrite Hb. by apply to_core_type_cases.
    + destruct Hd as [Hd _]. eapply plain_type; [exact Hd| | |exact Hty']; cbn; congruence.
  - rewrite Ed in Hu. apply by_call; [done..|]. exists g'. split; [cbn; by rewrite apply_table|]. eapply updates_ext; [apply now_table| |exact Hu].
    unfold with_columns, change_columns. cbn. rewrite app_nil_r, insert_alter. f_equal. apply list_alter_ext; [|done]. intros y Hy. assert (Some y = _) as E' by (symmetry; etrans; [symmetry; exact Hx|exact Hy]). by injection E' as ->.
Qed.
End one.

(** *** Any change *)
Lemma tables_first pre c rest : all = pre ++ c :: rest →
  (is_add_table c = true → ∀ c', c' ∈ pre → is_add_table c' = true) ∧ (is_add_table c = false → tables_done pre).
Proof.
  intros E. destruct (pl_arranged _ _ _ Hplan) as (tabs & Htabs & a & b & E' & Hab & _). rewrite Forall_forall in Htabs, Hab. rewrite E' in E. split.
  - intros Hc c' Hc'. destruct (in_first_part _ _ _ _ _ E) as (k & ->); [intros Hin; specialize (Hab c Hin); congruence|].
    apply Htabs, elem_of_app. by left.
  - intros Hc t Ht. destruct (in_second_part _ _ _ _ _ E) as (k & ->); [intros Hin; specialize (Htabs c Hin); congruence|].
    apply elem_of_app. left. rewrite E' in Ht. apply elem_of_app in Ht as [?|Ht]; [done|]. by specialize (Hab _ Ht).
Qed.

Lemma all_required c : c ∈ all → required s target false c.
Proof. apply (pl_exact _ _ _ Hplan). Qed.
Lemma once_only pre c rest : all = pre ++ c :: rest → c ∉ pre.
Proof. intros E. pose proof (pl_once _ _ _ Hplan) as Hnd. rewrite E in Hnd. apply NoDup_app in Hnd as (_ & Hd & _). intros Hc. apply (Hd c Hc). by left. Qed.

Lemma pre_step pre c rest g ps : all = pre ++ c :: rest → state pre g ps → ∃ g' ps', pre_migration_applier c g = Some g' ∧ state (pre ++ [c]) g' ps'.
Proof.
  intros Hall Hs. destruct (tables_first pre c rest Hall) as [Hfirst Hdone]. pose proof (once_only pre c rest Hall) as Hnot.
  assert (∀ c', c' ∈ pre → c' ∈ all) as Hpre by (intros c' Hc'; rewrite Hall; apply elem_of_app; by left).
  assert (c ∈ all) as Hc by (rewrite Hall; apply elem_of_app; right; by left).
  destruct (all_required c Hc) as [t Ht Hm|t Ht Hm| |e t c He Ht En Hcc]; [..|done|].
  - apply missing_class in Hm; [|done]. apply (state_new_table pre t g ps Hs Ht Hm). intros c' Hc' Ho. specialize (Hfirst eq_refl c' Hc').
    destruct (all_required c' (Hpre c' Hc')) as [t' Ht' _|t' _ _|? ?|e' t' c' _ _ _ Hcc]; try done.
    + cbn in Ho. by rewrite (strict_unique target t' t Htarget Ht' Ht Ho) in Hc'.
    + destruct (class_change_owner _ _ _ Hcc). congruence.
  - specialize (Hdone eq_refl). pose proof (target_present pre t Hdone Ht) as Hp. destruct (sta_present _ _ _ Hs _ Hp) as (cs & rows & Hb & Htb).
    destruct (add_initial_columns_spec t g _ Htb) as (g' & E & Hu).
    { intros q Hq _. destruct (creatable_like pre g ps t q q Hdone Hs Ht Hq) as (d & [Hd Hl] & _); [done..|]. split; [by rewrite Hd; eexists|done]. }
    exists g', ps. split; [done|]. eapply state_update; [done..| |done]. cbn [owner]. intros tb' Htb'. rewrite Htb in Htb'. injection Htb' as <-.
    eapply updates_ext; [exact Htb| |exact Hu]. unfold with_columns, change_columns. cbn [t_name t_columns t_rows appended place]. f_equal. f_equal. symmetry. by apply list_alter_id.
  - assert (shared e t) as Hsh by done. destruct (shared_read e t Hsh) as (tb & Htb & Hread & _).
    assert (present pre (class_name e)) as Hp by (left; by rewrite Htb). destruct (class_change_owner _ _ _ Hcc) as [Ho Ha]. specialize (Hdone Ha).
    destruct Hcc as [p Hpe Hn|p q Hk Hst|p q Hk Hst H1 H2|p q Hk Hst H1 H2|p q Hk Hst H1 H2|p q Hk Hst H1 H2|Hne|q Hq Hn].
    + exists g, ps. split; [done|]. by apply state_nothing.
    + by eapply (one_retyped e t tb).
    + by eapply (one_required e t tb).
    + by eapply (one_optional e t tb).
    + eapply (one_index e t tb) with (b := true); try done. apply Hk.
    + eapply (one_index e t tb) with (b := false); try done. apply Hk.
    + by apply (state_key_change pre e _ g ps).
    + by eapply (one_new e t tb).
Qed.

Lemma pre_pass_from rest pre g ps : all = pre ++ rest → state pre g ps → ∃ g' ps', foldM pre_migration_applier rest g = Some g' ∧ state all g' ps'.
Proof.
  revert pre g ps. induction rest as [|c rest IH]; intros pre g ps Hall Hs.
  - rewrite app_nil_r in Hall. subst pre. by exists g, ps.
  - destruct (pre_step pre c rest g ps Hall Hs) as (g' & ps' & E & Hs'). cbn [foldM]. rewrite E. cbn [mbind option_bind].
    apply (IH (pre ++ [c]) g' ps'); [by rewrite <- app_assoc|done].
Qed.
Lemma pre_pass : ∃ g' ps', apply_pre_migration_changes all g0 = Some g' ∧ state all g' ps'.
Proof. apply (pre_pass_from all [] g0 ps0); [done|apply state_start]. Qed.

(** *** After the migration *)
Record post pre g ps : Prop := {
  po_present cls : present all cls → ∃ cs rows, begins cls cs rows ∧
    get_table (tn cls) g = Some (MkTable (tn cls) (post_after cls pre (columns_after cls rows all cs)) rows);
  po_absent cls : ¬ present all cls → get_table (tn cls) g = None;
  po_other m : m ≠ pk_table_name → (∀ cls, m ≠ tn cls) → get_table m g = get_table m g0;
  po_keys : has_keys g ps;
  po_key cls : assoc cls ps = key_after cls all (assoc cls ps0) }.

Lemma post_start g ps : state all g ps → post [] g ps.
Proof. intros [H1 H2 H3 H4 H5 _]. by split. Qed.
Lemma post_after_snoc cls pre c (cs : list (Column V)) : post_after cls (pre ++ [c]) cs = if decide (owner c = cls) then post_columns c (post_after cls pre cs) else post_after cls pre cs.
Proof. unfold post_after. by rewrite foldl_snoc. Qed.

Lemma post_frame pre c g g' ps : post pre g ps → (∀ m, get_table m g' = get_table m g) → (∀ cs : list (Column V), post_columns c cs = cs) → post (pre ++ [c]) g' ps.
Proof.
  intros [H1 H2 H3 H4 H5] Hg Hc. split; [..|done].
  - intros cls Hcls. destruct (H1 cls Hcls) as (cs & rows & Hb & Ht). exists cs, rows. split; [done|]. rewrite Hg, Ht, post_after_snoc. case_decide; [by rewrite Hc|done].
  - intros cls Hcls. rewrite Hg. by apply H2.
  - intros m Hm1 Hm2. rewrite Hg. by apply H3.
  - eapply has_keys_frame; [apply Hg|exact H4].
Qed.
Lemma post_update pre c g g' ps : post pre g ps → updates g (tn (owner c)) (with_columns (post_columns c)) g' → post (pre ++ [c]) g' ps.
Proof.
  intros [H1 H2 H3 H4 H5] Hu. split; [..|done].
  - intros cls Hcls. destruct (H1 cls Hcls) as (cs & rows & Hb & Ht). exists cs, rows. split; [done|]. rewrite post_after_snoc. case_decide as E.
    + subst cls. by rewrite (updates_at _ _ _ _ _ Hu Ht).
    + rewrite (updates_other _ _ _ _ _ Hu); [done|]. intros E'. apply E. symmetry. by apply table_name_inj.
  - intros cls Hcls. rewrite Hu. case_decide as E; [|by rewrite (H2 cls Hcls)]. rewrite (H2 cls Hcls). done.
  - intros m Hm1 Hm2. rewrite (updates_other _ _ _ _ _ Hu (Hm2 _)). by apply H3.
  - eapply has_keys_frame; [|exact H4]. eapply updates_other; [exact Hu|]. intros E. symmetry in E. by apply (proj1 (table_name_apart (owner c))).
Qed.

(** A column in front of all that were removed is still there. *)
Lemma post_lookup cls l (cs : list (Column V)) k : (∀ d, d ∈ removed cls l → (k < d)%nat) → is_Some (cs !! k) → is_Some (post_after cls l cs !! k).
Proof.
  intros Hd Hk. induction l as [|c l IH] using rev_ind; [done|]. rewrite removed_app in Hd. rewrite post_after_snoc.
  assert (is_Some (post_after cls l cs !! k)) as Hl by (apply IH; intros d Hin; apply Hd, elem_of_app; by left). case_decide as E; [|done].
  assert (∀ f i, is_Some (alter f i (post_after cls l cs) !! k)) as Ha.
  { intros f i. destruct (decide (k = i)) as [->|Hne]; [rewrite list_lookup_alter_eq; by apply fmap_is_Some|by rewrite list_lookup_alter_ne]. }
  destruct c; cbn [post_columns]; try done. rewrite list_lookup_delete_lt; [done|]. apply Hd, elem_of_app. right. unfold removed. cbn. cbn in E. rewrite decide_True by done. by left.
Qed.

Lemma index_cell_kept_value e i l x : c_desc (index_cell e i l x) = c_desc x ∧ c_values (index_cell e i l x) = c_values x.
Proof.
  induction l as [|c l [IH1 IH2]] using rev_ind; [done|]. rewrite index_cell_snoc. case_decide as E; [|done]. destruct E as (_ & _ & Hc). by destruct c.
Qed.

(** The column with the name of a property is there after the first pass. *)
Lemma named_column e t tb q : shared e t → get_table (tn (class_name e)) g0 = Some tb → q ∈ persisted_properties t →
  ∃ x, x ∈ columns_after (class_name e) (t_rows tb) all (t_columns tb) ∧ d_name (c_desc x) = name q.
Proof.
  intros Hsh Htb Hq. destruct (shared_read e t Hsh) as (tb' & Htb' & Hread & _). rewrite Htb in Htb'. injection Htb' as <-.
  assert (all_from e t all) as Hfrom by (by apply shared_from).
  destruct (column_dec e q) as [(p & Hp & En)|Hn].
  - assert (kept e t p q) as Hk by done. destruct (cell_shown e tb Hread p Hp) as (x0 & Hx0 & Hs).
    pose proof (shared_cell e t all p x0 tb (t_rows tb) Hsh ltac:(done) Hread Hx0) as Hx. eexists. split; [by eapply list_elem_of_lookup_2|].
    destruct (cell_progress e t tb Hread (shared_names e t Hsh) (λ q, shared_indexable e t q Hsh) all (t_rows tb) p q x0 Hfrom Hk (sh_indexed _ _ _ _ Hs)) as (b & -> & _).
    cbn. pose proof (sh_name _ _ _ _ Hs) as E0. destruct (done_by _ _); [|congruence].
    assert (∀ p' rows, d_name (c_desc (new_col (V := V) p' rows)) = name p') as Hnew.
    { intros p' rows. unfold new_col. cbn. unfold desc_for. destruct (type_eqb (type p') PT_LinkingObjects); [done|]. destruct (type_eqb (type p') PT_Object); [done|].
      destruct (is_array (type p')); [by destruct (to_core_type (base_type (type p')))|by destruct (to_core_type (type p'))]. }
    unfold content. case_decide; [|by rewrite Hnew]. destruct (is_nullable (type p)), (is_nullable (type q)); try congruence; cbn [with_values c_desc]; by rewrite Hnew.
  - assert (AddProperty e q ∈ all) as Hin.
    { apply (pl_exact _ _ _ Hplan). destruct Hsh as (He & Ht & En). eapply class_changed; [exact He|exact Ht|exact En|]. constructor; [done|].
      intros p Hp. apply Hn. unfold all_properties in Hp. by rewrite (rf_computed _ _ Hread), app_nil_r in Hp. }
    destruct (st_column t (Hstore t ltac:(apply Hsh)) q Hq) as ([d Hd] & _). exists (column_for q d (t_rows tb)). split.
    + rewrite columns_split by (intros c Hc Ho; by eapply (all_placed e t tb)). apply elem_of_app. right. apply new_columns_in. exists q, d. split; [|done].
      unfold appended_by. apply list_elem_of_bind. exists (AddProperty e q). split; [|done]. rewrite decide_True by done. by left.
    + cbn. pose proof (ra_name _ _ (desc_reads q d Hd (persisted_stored target t (Hvalid t ltac:(apply Hsh)) (Hstore t ltac:(apply Hsh)) q Hq))). done.
Qed.

(** What makes the migration fail: values that occur twice in the column of a new primary key *)
Definition duplicated e t : Prop := primary_key t ≠ ""%string ∧ ∃ tb x, get_table (tn (class_name e)) g0 = Some tb ∧
  x ∈ columns_after (class_name e) (t_rows tb) all (t_columns tb) ∧ d_name (c_desc x) = primary_key t ∧ ¬ NoDup (c_values x).

Lemma uniqueness_checked cls key g tb : get_table (tn cls) g = Some tb → (∃ x, x ∈ t_columns tb ∧ d_name (c_desc x) = key) →
  validate_primary_column_uniqueness cls key g = Ok tt ∨
  validate_primary_column_uniqueness cls key g = Raise (DuplicatePrimaryKeyValue cls key) ∧ ∃ x, x ∈ t_columns tb ∧ d_name (c_desc x) = key ∧ ¬ NoDup (c_values x).
Proof.
  intros Htb (x & Hx & Hn). unfold validate_primary_column_uniqueness. rewrite Htb. cbn [lift mbind result_bind].
  destruct (find_if_spec (λ c : Column V, bool_decide (d_name (c_desc c) = key)) (t_columns tb)) as [[_ Hall]|(l1 & y & l2 & Hcs & Hf & _ & Hy)].
  { rewrite Forall_forall in Hall. specialize (Hall x Hx). by rewrite bool_decide_true in Hall. }
  case_bool_decide as Ey; [|done]. set (k := length l1).
  assert (t_columns tb !! k = Some y) as Hk by (rewrite Hcs; by apply list_lookup_middle). pose proof (lookup_lt_Some _ _ _ Hk) as Hlt.
  assert (position (get_column_index key tb) (length (t_columns tb)) = Some k) as ->.
  { unfold get_column_index, find_column. rewrite Hf. fold k. replace (k <? length (t_columns tb))%nat with true by (symmetry; by apply Nat.ltb_lt). by apply position_of. }
  cbn. pose proof (distinct_law (tn cls) k g tb y Htb Hk) as Hd. unfold throw_if. destruct (Nat.eqb_spec (core_distinct_view_size (tn cls) k g) (t_rows tb)) as [E|E]; [by left|right].
  split; [done|]. exists y. split; [by eapply list_elem_of_lookup_2|]. split; [done|]. intros Hnd. by apply E, Hd.
Qed.

Lemma post_step pre c rest g ps : all = pre ++ c :: rest → post pre g ps →
  (∃ g', post_migration_applier [] false c g = Ok g' ∧ post (pre ++ [c]) g' ps) ∨
  ∃ e t, shared e t ∧ primary_key e ≠ primary_key t ∧ duplicated e t ∧ post_migration_applier [] false c g = Raise (DuplicatePrimaryKeyValue (class_name t) (primary_key t)).
Proof.
  intros Hall Hs. assert (∀ c', c' ∈ pre → c' ∈ all) as Hpre by (intros c' Hc'; rewrite Hall; apply elem_of_app; by left).
  assert (c ∈ all) as Hc by (rewrite Hall; apply elem_of_app; right; by left).
  destruct (all_required c Hc) as [t Ht Hm|t Ht Hm| |e t c He Ht En Hcc]; [..|done|].
  - left. destruct (po_present _ _ _ Hs (class_name t)) as (cs & rows & _ & Htb); [right; by exists t|].
    destruct (create_table_exists t g _ (key_is_creatable target t (Hvalid t Ht) (Hstore t Ht)) Htb) as (g' & E & Hg). exists g'. split; [cbn; by rewrite E|]. by eapply post_frame.
  - left. exists g. split; [done|]. by eapply post_frame.
  - assert (shared e t) as Hsh by done. destruct (shared_read e t Hsh) as (tb & Htb & Hread & _).
    destruct (class_plan_of s target e t tb (rd_strict _ _ _ Hreads) Htarget He Ht En Hread all Hplan) as (a & b & Hcp).
    assert (Hnow : get_table (tn (class_name e)) g = Some (MkTable (tn (class_name e)) (post_after (class_name e) pre (columns_after (class_name e) (t_rows tb) all (t_columns tb))) (t_rows tb))).
    { destruct (po_present _ _ _ Hs (class_name e)) as (cs & rows & Hb & ->); [left; by rewrite Htb|]. by destruct (begins_same _ _ _ _ Hb Htb) as [-> ->]. }
    assert (∀ p, p ∈ persisted_properties e → is_Some (columns_after (class_name e) (t_rows tb) all (t_columns tb) !! cell_of p) ∧ table_column p = Z.of_nat (cell_of p)) as Hcell.
    { intros p Hp. destruct (cell_shown e tb Hread p Hp) as (x & Hx & Hs'%sh_column). split; [|done]. rewrite (shared_cell e t all p x tb) by done. by eexists. }
    assert (is_late c = false → removed (class_name e) pre = [] ∧ (∀ c', c' ∈ pre → is_not_remove c' = true)) as Hearly.
    { intros Hl. rewrite (cp_split _ _ _ _ _ Hcp) in Hall. destruct (in_first_part _ _ _ _ _ Hall) as (k & Ea); [intros Hin%(cp_after _ _ _ _ _ Hcp); congruence|].
      assert (∀ c', c' ∈ pre → is_not_remove c' = true) as Hnr by (intros c' Hc'; apply (cp_before _ _ _ _ _ Hcp); rewrite Ea; apply elem_of_app; by left).
      split; [by apply nothing_removed|done]. }
    assert (∀ p, p ∈ persisted_properties e → (∀ d, d ∈ removed (class_name e) pre → (cell_of p < d)%nat) →
      (cell_of p < length (post_after (class_name e) pre (columns_after (class_name e) (t_rows tb) all (t_columns tb))))%nat) as Hin.
    { intros p Hp Hd. apply lookup_lt_is_Some_1, post_lookup; [done|by apply Hcell]. }
    destruct Hcc as [p Hpe Hn|p q Hk Hst|p q Hk Hst H1 H2|p q Hk Hst H1 H2|p q Hk Hst H1 H2|p q Hk Hst H1 H2|Hne|q Hq Hn].
    2-4: left; exists g; (split; [done|by eapply post_frame]).
    + left. destruct (remove_column_spec (tn (class_name e)) (cell_of p) g _ Hnow) as (g' & E & Hu).
      { apply Hin; [done|]. pose proof (cp_descend _ _ _ _ _ Hcp) as Hd. rewrite Hall, removed_app in Hd. apply StronglySorted_app in Hd as (Hd & _ & _).
        intros d Hdin. apply Hd; [done|]. unfold removed. rewrite bind_cons, decide_True by done. by left. }
      exists g'. split; [|by eapply post_update]. cbn. rewrite (class_table e g _ Hnow). cbn. destruct (Hcell p Hpe) as [_ ->]. by rewrite E.
    + left. destruct (Hearly eq_refl) as [Er _]. destruct (add_search_index_spec (tn (class_name e)) (cell_of p) g _ Hnow) as (g' & E & Hu); [apply Hin; [apply Hk|rewrite Er; by intros d ?%elem_of_nil]|].
      exists g'. split; [|by eapply post_update]. cbn. rewrite (class_table e g _ Hnow). cbn. destruct (Hcell p) as [_ ->]; [apply Hk|]. by rewrite E.
    + left. destruct (Hearly eq_refl) as [Er _]. destruct (remove_search_index_spec (tn (class_name e)) (cell_of p) g _ Hnow) as (g' & E & Hu); [apply Hin; [apply Hk|rewrite Er; by intros d ?%elem_of_nil]|].
      exists g'. split; [|by eapply post_update]. cbn. rewrite (class_table e g _ Hnow). cbn. destruct (Hcell p) as [_ ->]; [apply Hk|]. by rewrite E.
    + destruct (key_property target t (Hvalid t Ht) (Hstore t Ht)) as [[_ ->]|(q & -> & Hq & _ & Eq & Hpk)]; [left; exists g; split; [done|by eapply post_frame]|].
      destruct (Hearly eq_refl) as [_ Hnr]. rewrite (post_indexes e pre) in Hnow by done. cbn [post_migration_applier].
      destruct (uniqueness_checked (class_name e) (name q) g _ Hnow) as [->|(-> & x & Hx & Hxn & Hdup)].
      * destruct (named_column e t tb q Hsh Htb Hq) as (x & Hx & Hxn). apply list_elem_of_lookup in Hx as [i Hx]. exists (index_cell e i pre x). split.
        -- apply (list_elem_of_lookup_2 _ i). cbn. by rewrite list_lookup_imap, Hx.
        -- by rewrite (proj1 (index_cell_kept_value e i pre x)).
      * left. exists g. split; [done|by eapply post_frame].
      * right. exists e, t. split; [done|]. split; [done|]. split; [split; [done|]|by rewrite En, <- Eq].
        apply list_elem_of_lookup in Hx as [i Hx]. cbn in Hx. rewrite list_lookup_imap in Hx. destruct (_ !! i) as [y|] eqn:Ey in Hx; [|done]. injection Hx as <-.
        destruct (index_cell_kept_value e i pre y) as [Ed Ev]. exists tb, y. split; [done|]. split; [by eapply list_elem_of_lookup_2|]. rewrite Ed in Hxn. rewrite Ev in Hdup. split; [congruence|done].
    + left. exists g. split; [done|by eapply post_frame].
Qed.

Lemma post_pass_from rest pre g ps : all = pre ++ rest → post pre g ps →
  (∃ g', apply_post_migration_changes [] false rest g = Ok g' ∧ post all g' ps) ∨
  ∃ e t, shared e t ∧ primary_key e ≠ primary_key t ∧ duplicated e t ∧ apply_post_migration_changes [] false rest g = Raise (DuplicatePrimaryKeyValue (class_name t) (primary_key t)).
Proof.
  revert pre g. induction rest as [|c rest IH]; intros pre g Hall Hs.
  - rewrite app_nil_r in Hall. left. exists g. split; [done|]. by rewrite Hall.
  - cbn [apply_post_migration_changes]. destruct (post_step pre c rest g ps Hall Hs) as [(g' & -> & Hs')|(e & t & H1 & H2 & H3 & ->)].
    + apply (IH (pre ++ [c])); [by rewrite <- app_assoc|done].
    + right. by exists e, t.
Qed.

(** *** What the tables hold in the end *)
Lemma converted_represents e t p q i x0 rows : t ∈ target → kept e t p q → shows e i x0 p → represents (with_index (Props.requires_index q) (content p q rows x0)) q.
Proof.
  intros Ht Hk Hs. pose proof Hk as (Hp & Hq & En). destruct (st_column t (Hstore t Ht) q Hq) as (Hd & Hi & Hoid).
  pose proof (persisted_stored target t (Hvalid t Ht) (Hstore t Ht) q Hq) as Hsq. split; [|done]. unfold content. cbn [with_index c_desc].
  case_decide as Hst; [|by apply new_col_reads]. destruct Hst as (Hb & Ho & Ha).
  assert (∀ p', name p' = name p → base_type (type p') = base_type (type p) → is_array (type p') = is_array (type p) → is_nullable (type p') = is_nullable (type q) → object_type p' = object_type p →
    reads_as (c_desc (new_col p' rows : Column V)) q) as Hnew.
  { intros p' E1 E2 E3 E4 E5. apply (reads_as_ext _ p'); try congruence. apply new_col_reads; [eapply desc_by_base; [| |exact Hd]; congruence|].
    destruct Hsq as (S1 & S2 & S3). split; [|split; [|congruence]].
    - intros E. rewrite E4, E3, Ha. apply S1. congruence.
    - intros N1 N2. rewrite E5, Ho. apply S2; congruence. }
  destruct (mandatory_flags (type p)) as (M1 & M2 & M3), (optional_flags (type p)) as (O1 & O2 & O3).
  assert (is_nullable (type p) = is_nullable (type q) → reads_as (c_desc x0) q) as Hsame.
  { intros E. destruct Hs as [S1 S2 S3 S4 _ _ _]. split; [done|congruence|by exists (type p)|]. rewrite <- Ho, S4. unfold type_eqb. change (base_type PT_Object) with PT_Object. rewrite Hb.
    destruct (Z.eqb_spec (base_type (type q)) PT_Object); [by rewrite bool_decide_true|by rewrite bool_decide_false]. }
  destruct (is_nullable (type p)) eqn:E1, (is_nullable (type q)) eqn:E2; try by apply Hsame.
  - apply (Hnew (mandatory p)); try done; cbn; congruence.
  - cbn [with_values c_desc]. apply (Hnew (optional p)); try done; cbn; congruence.
Qed.

Lemma migrated_in e t rows cs x : x ∈ migrated e t rows cs ↔ ∃ i x0, cs !! i = Some x0 ∧ fate e t rows i x0 = Some x.
Proof.
  unfold migrated. rewrite list_elem_of_omap. split.
  - intros (o & (i & Ho)%list_elem_of_lookup & Hx). rewrite list_lookup_imap in Ho. destruct (cs !! i) as [x0|] eqn:E; [|done]. injection Ho as <-. by exists i, x0.
  - intros (i & x0 & Hc & Hf). exists (Some x). split; [|done]. apply (list_elem_of_lookup_2 _ i). by rewrite list_lookup_imap, Hc, <- Hf.
Qed.

Lemma added_in e t tb q : shared e t → read_from e tb → q ∈ appended_by (class_name e) all ↔ q ∈ persisted_properties t ∧ ∀ p, p ∈ persisted_properties e → name p ≠ name q.
Proof.
  intros Hsh Hread. pose proof (shared_from e t all Hsh ltac:(done)) as Hfrom. unfold appended_by. rewrite list_elem_of_bind.
  assert (all_properties e = persisted_properties e) as Ee by (unfold all_properties; by rewrite (rf_computed _ _ Hread), app_nil_r). split.
  - intros (c & Hq & Hc). case_decide as Ho; [|by apply elem_of_nil in Hq]. destruct (Hfrom c Hc Ho) as [p' q' Hk Hcc|p' q' Hk Hcc|p' Hp' Hn ->|Hne ->|q' Hq' Hn ->]; try by apply elem_of_nil in Hq.
    + exfalso. unfold converter in Hcc. case_decide; [destruct (is_nullable (type p')), (is_nullable (type q')); try done|]; injection Hcc as <-; by apply elem_of_nil in Hq.
    + exfalso. unfold index_change in Hcc. case_decide; [|done]. destruct (Props.requires_index q'); [destruct (is_indexed p'); [done|]|destruct (Props.requires_index p'); [|done]]; injection Hcc as <-; by apply elem_of_nil in Hq.
    + cbn in Hq. apply list_elem_of_singleton in Hq as ->. by rewrite Ee in Hn.
  - intros [Hq Hn]. exists (AddProperty e q). split; [rewrite decide_True by done; by left|]. apply (pl_exact _ _ _ Hplan).
    destruct Hsh as (He & Ht & En). eapply class_changed; [exact He|exact Ht|exact En|]. constructor; [done|]. by rewrite Ee.
Qed.

Lemma added_represents t q rows d : t ∈ target → q ∈ persisted_properties t → desc_for q = Some d → represents (column_for q d rows : Column V) q.
Proof.
  intros Ht Hq Hd. destruct (st_column t (Hstore t Ht) q Hq) as (_ & Hi & _). split; [apply desc_reads; [done|by apply (persisted_stored target t (Hvalid t Ht) (Hstore t Ht))]|].
  by apply index_for_plain.
Qed.

(** The table of a class that both have *)
Definition migrated_table e t tb : Table V :=
  MkTable (tn (class_name e)) (migrated e t (t_rows tb) (t_columns tb) ++ new_columns (t_rows tb) (appended_by (class_name e) all)) (t_rows tb).

Lemma shared_in_place e t tb : shared e t → read_from e tb → in_place t (migrated_table e t tb).
Proof.
  intros Hsh Hread. pose proof Hsh as (_ & Ht & _). pose proof (shared_names e t Hsh) as Hu. unfold migrated_table. split.
  - intros q Hq. destruct (column_dec e q) as [(p & Hp & En)|Hn].
    + assert (kept e t p q) as Hk by done. destruct (cell_shown e tb Hread p Hp) as (x0 & Hx0 & Hs). exists (with_index (Props.requires_index q) (content p q (t_rows tb) x0)).
      split; [|by eapply converted_represents]. apply elem_of_app. left. apply migrated_in. exists (cell_of p), x0. split; [done|]. by eapply (fate_kept e t tb).
    + destruct (st_column t (Hstore t Ht) q Hq) as ([d Hd] & _). exists (column_for q d (t_rows tb)). split; [|by eapply added_represents].
      apply elem_of_app. right. apply new_columns_in. exists q, d. split; [|done]. by apply (added_in e t tb).
  - intros x Hx Hv. apply elem_of_app in Hx as [(i & x0 & Hx0 & Hf)%migrated_in|(q & d & Hq & Hd & ->)%new_columns_in].
    + destruct (cell_cases e t i) as [(p & q & Hk & <-)|[(p & Hp & Hn & <-)|Hh]].
      * rewrite (fate_kept e t tb Hread Hu _ _ p q Hk) in Hf. injection Hf as <-. exists q. split; [apply Hk|].
        destruct (cell_shown e tb Hread p) as (x1 & Hx1 & Hs); [apply Hk|]. rewrite Hx0 in Hx1. injection Hx1 as <-. by eapply converted_represents.
      * by rewrite (fate_gone e t tb Hread _ _ p Hp Hn) in Hf.
      * rewrite (fate_hidden e t _ _ _ Hh) in Hf. injection Hf as <-. destruct (rf_column _ _ Hread i x0 Hx0 Hv) as (p & Hp & Hs%sh_column).
        exfalso. apply (Hh p Hp). unfold cell_of. rewrite Hs. lia.
    + apply (added_in e t tb q Hsh Hread) in Hq as [Hq _]. exists q. split; [done|]. by eapply added_represents.
Qed.

(** The table of a new class *)
Lemma appended_once cls k l : NoDup l → k ∈ l → owner k = cls → (∀ c, c ∈ l → owner c = cls → appended c = [] ∨ c = k) → appended_by cls l = appended k.
Proof.
  intros Hnd Hk Ho Hl. assert (∀ l', (∀ c, c ∈ l' → owner c = cls → appended c = []) → appended_by cls l' = []) as Hnone.
  { intros l'. induction l' as [|c l' IH]; intros H; [done|]. unfold appended_by in *. rewrite bind_cons, IH by (intros c' Hc'; apply H; by right).
    case_decide as E; [|done]. by rewrite (H c ltac:(by left) E). }
  apply list_elem_of_split in Hk as (l1 & l2 & ->). apply NoDup_app in Hnd as (_ & Hd & [Hn _]%NoDup_cons). unfold appended_by. rewrite bind_app, bind_cons, decide_True by done.
  fold (appended_by cls l1) (appended_by cls l2). rewrite !Hnone, app_nil_r; [done|..]; intros c Hc E.
  - destruct (Hl c) as [?| ->]; [apply elem_of_app; right; by right|done|done|done].
  - destruct (Hl c) as [?| ->]; [apply elem_of_app; by left|done|done|]. exfalso. apply (Hd k Hc). by left.
Qed.

Lemma owned_new t c : t ∈ target → get_table (tn (class_name t)) g0 = None → c ∈ all → owner c = class_name t → c = AddTable t ∨ c = AddInitialProperties t.
Proof.
  intros Ht Hn%missing_class Hc Ho; [|done]. destruct (all_required c Hc) as [t' Ht' _|t' Ht' _| |e' t' c He' _ _ Hcc]; cbn in Ho; [left|right|done|].
  - by rewrite (strict_unique target t' t Htarget Ht' Ht Ho).
  - by rewrite (strict_unique target t' t Htarget Ht' Ht Ho).
  - destruct (class_change_owner _ _ _ Hcc) as [E _]. exfalso. apply (Hn e' He'). congruence.
Qed.

Definition first_columns t : list (Column V) := key_columns_of t ++ new_columns 0 (filter (λ q, is_primary q = false) (persisted_properties t)).
Lemma new_table_columns t rows pre (cs : list (Column V)) : t ∈ target → get_table (tn (class_name t)) g0 = None → (∀ c, c ∈ pre → c ∈ all) →
  post_after (class_name t) pre (columns_after (class_name t) rows all cs) = cs ++ new_columns rows (filter (λ q, is_primary q = false) (persisted_properties t)).
Proof.
  intros Ht Hn Hpre. assert (∀ c, c ∈ all → owner c = class_name t → c = AddTable t ∨ c = AddInitialProperties t) as Hown by (intros c; by apply owned_new).
  assert (∀ l (k : list (Column V)), (∀ c, c ∈ l → c ∈ all) → post_after (class_name t) l k = k) as Hpost.
  { intros l k. revert k. induction l as [|c l IH]; intros k Hl; [done|]. change (post_after (class_name t) (c :: l) k) with (post_after (class_name t) l (if decide (owner c = class_name t) then post_columns c k else k)).
    rewrite IH by (intros c' Hc'; apply Hl; by right). case_decide as E; [|done]. destruct (Hown c (Hl c ltac:(by left)) E) as [->| ->]; done. }
  rewrite Hpost by done. rewrite columns_split.
  - f_equal.
    + apply list_eq. intros i. rewrite list_lookup_imap. destruct (cs !! i) as [x|]; [|done]. cbn. f_equal. unfold cell_after.
      assert (∀ l y, (∀ c, c ∈ l → c ∈ all) → foldl (λ (x : Column V) c, if decide (owner c = class_name t ∧ place c = i) then on_cell rows c x else x) y l = y) as Hfold; [|by apply Hfold].
      intros l. induction l as [|c l IH]; intros y Hl; [done|]. cbn [foldl]. rewrite IH by (intros c' Hc'; apply Hl; by right). case_decide as E; [|done]. destruct E as [E _].
      destruct (Hown c (Hl c ltac:(by left)) E) as [->| ->]; done.
    + rewrite (appended_once (class_name t) (AddInitialProperties t) all); [done|apply (pl_once _ _ _ Hplan)| |done|].
      * apply (pl_exact _ _ _ Hplan). constructor; [done|]. by apply missing_class.
      * intros c Hc E. destruct (Hown c Hc E) as [->| ->]; [by left|by right].
  - intros c Hc E. right. destruct (Hown c Hc E) as [->| ->]; done.
Qed.

Lemma new_in_place t ids : t ∈ target → id_columns ids → in_place t (MkTable (tn (class_name t)) (ids ++ first_columns t) 0).
Proof.
  intros Ht Hids'. assert (∀ q d, primary_key_property t = Some q → desc_for q = Some d → q ∈ persisted_properties t ∧ represents (column_for q d 0 : Column V) q) as Hkey.
  { intros q d Hq Hd. destruct (key_property target t (Hvalid t Ht) (Hstore t Ht)) as [[_ E]|(q' & E & Hq' & _)]; [congruence|]. rewrite Hq in E. injection E as <-.
    split; [done|]. by eapply added_represents. }
  split; cbn [t_columns].
  - intros q Hq. destruct (st_column t (Hstore t Ht) q Hq) as ([d Hd] & _). exists (column_for q d 0). split; [|by eapply added_represents].
    apply elem_of_app. right. unfold first_columns. apply elem_of_app. destruct (is_primary q) eqn:Ep; [left|right].
    + apply (st_primary _ (Hstore t Ht) q Hq) in Ep as [E1 E2]. destruct (key_property target t (Hvalid t Ht) (Hstore t Ht)) as [[? _]|(q' & E & Hq' & _ & En & _)]; [done|].
      assert (q' = q) as ->. { eapply name_unique; [by apply (valid_names target), Hvalid|apply elem_of_app; by left..|congruence]. }
      unfold key_columns_of. rewrite E, Hd. by left.
    + apply new_columns_in. exists q, d. split; [|done]. by apply list_elem_of_filter.
  - intros x Hx Hv. apply elem_of_app in Hx as [Hx|[Hx|(q & d & [_ Hq]%list_elem_of_filter & Hd & ->)%new_columns_in]%elem_of_app].
    + unfold id_columns in Hids'. rewrite Forall_forall in Hids'. specialize (Hids' x Hx). unfold visible in Hv. by rewrite bool_decide_true in Hv.
    + unfold key_columns_of in Hx. destruct (primary_key_property t) as [q|] eqn:Eq; [|by apply elem_of_nil in Hx]. destruct (desc_for q) as [d|] eqn:Ed; [|by apply elem_of_nil in Hx].
      apply list_elem_of_singleton in Hx as ->. exists q. by apply Hkey.
    + exists q. split; [done|]. by eapply added_represents.
Qed.

(** The primary keys *)
Lemma key_settled cls v l k : (∀ c, c ∈ l → owner c = cls → (∀ k, key_step c k = k) ∨ ∀ k, key_step c k = v) →
  (k = v ∨ ∃ c, c ∈ l ∧ owner c = cls ∧ ∀ k, key_step c k = v) → key_after cls l k = v.
Proof.
  revert k. induction l as [|c l IH]; intros k Hl Hk; [by destruct Hk as [?|(c & ?%elem_of_nil & _)]|].
  change (key_after cls (c :: l) k) with (key_after cls l (if decide (owner c = cls) then key_step c k else k)). apply IH; [intros c' Hc'; apply Hl; by right|].
  destruct Hk as [->|(c' & [->|Hc']%elem_of_cons & Ho & Hv)].
  - left. case_decide as Ho; [|done]. by destruct (Hl c ltac:(by left) Ho) as [->| ->].
  - left. by rewrite decide_True.
  - right. by exists c'.
Qed.
Lemma shared_key e t : shared e t → key_after (class_name e) all (primary_key e) = primary_key t.
Proof.
  intros Hsh. pose proof Hsh as (He & Ht & En). pose proof (key_is_named target t (Hvalid t Ht) (Hstore t Ht)) as Hkn. apply key_settled.
  - intros c Hc Ho. destruct (shared_from e t all Hsh ltac:(done) c Hc Ho) as [p q Hk Hcc|p q Hk Hcc|p Hpe Hn ->|Hne ->|q Hq Hn ->]; [left|left|left; done|right; intros k; exact Hkn|left; done].
    + unfold converter in Hcc. case_decide; [destruct (is_nullable (type p)), (is_nullable (type q)); try done|]; by injection Hcc as <-.
    + unfold index_change in Hcc. case_decide; [|done]. destruct (Props.requires_index q); [destruct (is_indexed p); [done|]|destruct (Props.requires_index p); [|done]]; by injection Hcc as <-.
  - destruct (decide (primary_key e = primary_key t)) as [E|E]; [by left|right]. exists (ChangePrimaryKey e (primary_key_property t)). split; [|split; [done|intros k; exact Hkn]].
    apply (pl_exact _ _ _ Hplan). eapply class_changed; [exact He|exact Ht|exact En|]. by constructor.
Qed.
Lemma new_key t k : t ∈ target → get_table (tn (class_name t)) g0 = None → key_after (class_name t) all k = primary_key t.
Proof.
  intros Ht Hn. pose proof (key_is_named target t (Hvalid t Ht) (Hstore t Ht)) as Hkn. apply key_settled.
  - intros c Hc Ho. destruct (owned_new t c Ht Hn Hc Ho) as [->| ->]; [right; intros; exact Hkn|by left].
  - right. exists (AddTable t). split; [|split; [done|intros; exact Hkn]]. apply (pl_exact _ _ _ Hplan). constructor; [done|]. by apply missing_class.
Qed.

(** What a class finds when both passes are over *)
Lemma shared_final e t tb g ps : shared e t → get_table (tn (class_name e)) g0 = Some tb → post all g ps → get_table (tn (class_name e)) g = Some (migrated_table e t tb).
Proof.
  intros Hsh Htb Hs. destruct (shared_read e t Hsh) as (tb' & Htb' & Hread & _). rewrite Htb in Htb'. injection Htb' as <-. destruct Hsh as (He & Ht & En).
  destruct (po_present _ _ _ Hs (class_name e)) as (cs & rows & Hb & Hg); [left; by rewrite Htb|]. destruct (begins_same _ _ _ _ Hb Htb) as [-> ->]. rewrite Hg.
  destruct (class_plan_of s target e t tb (rd_strict _ _ _ Hreads) Htarget He Ht En Hread all Hplan) as (a & b & Hcp).
  by rewrite (class_migrated e t tb Hread (shared_names e t ltac:(done)) (λ q, shared_indexable e t q ltac:(done)) all a b _ Hcp).
Qed.
Lemma new_final t pre g ps : t ∈ target → get_table (tn (class_name t)) g0 = None → (∀ c, c ∈ pre → c ∈ all) → post pre g ps →
  ∃ ids, id_columns ids ∧ get_table (tn (class_name t)) g = Some (MkTable (tn (class_name t)) (ids ++ first_columns t) 0).
Proof.
  intros Ht Hn Hpre Hs. destruct (po_present _ _ _ Hs (class_name t)) as (cs & rows & Hb & Hg); [apply target_present; [by intros ?|done]|]. rewrite new_table_columns in Hg by done.
  remember (class_name t) as cls eqn:Ec. destruct Hb as [cls tb H|t' ids Ht' _ Hid]; [congruence|].
  rewrite (strict_unique target t' t Htarget Ht' Ht Ec) in *. exists ids. split; [done|]. rewrite Hg. unfold first_columns. by rewrite <- app_assoc.
Qed.
Lemma target_in_place t g ps : t ∈ target → post all g ps → ∃ tb, get_table (tn (class_name t)) g = Some tb ∧ in_place t tb ∧ assoc (class_name t) ps = primary_key t.
Proof.
  intros Ht Hs. rewrite (po_key _ _ _ Hs). destruct (get_table (tn (class_name t)) g0) as [tb|] eqn:Htb.
  - destruct (proj2 (known_class t Ht)) as (e & He & En); [by rewrite Htb|]. assert (shared e t) as Hsh by done. rewrite <- En in *.
    destruct (shared_read e t Hsh) as (tb' & Htb' & Hread & Hke). rewrite Htb in Htb'. injection Htb' as <-. exists (migrated_table e t tb).
    split; [by eapply shared_final|]. split; [by apply shared_in_place|]. rewrite <- Hke. by apply shared_key.
  - destruct (new_final t all g ps Ht Htb ltac:(done) Hs) as (ids & Hid & Hg). eexists. split; [exact Hg|]. split; [by apply new_in_place|]. by apply new_key.
Qed.

(** The other tables *)
Lemma other_final cls pre g ps : (∀ t, t ∈ target → class_name t ≠ cls) → (∀ c, c ∈ pre → c ∈ all) → post pre g ps → get_table (tn cls) g = get_table (tn cls) g0.
Proof.
  intros Hcls Hpre Hs. assert (∀ c, c ∈ all → owner c ≠ cls) as Hown.
  { intros c Hc E. destruct (all_required c Hc) as [t' Ht' _|t' Ht' _| |e' t' c _ Ht' En Hcc]; cbn in E; [by apply (Hcls t' Ht')|by apply (Hcls t' Ht')|done|].
    destruct (class_change_owner _ _ _ Hcc) as [Eo _]. apply (Hcls t' Ht'). congruence. }
  assert (∀ rows l (cs : list (Column V)), (∀ c, c ∈ l → c ∈ all) → columns_after cls rows l cs = cs ∧ post_after cls l cs = cs) as Hnone.
  { intros rows l cs. revert cs. induction l as [|c l IH]; intros cs Hl; [done|]. cbn [columns_after post_after foldl]. rewrite !decide_False by (apply Hown, Hl; by left).
    apply IH. intros c' Hc'. apply Hl. by right. }
  destruct (get_table (tn cls) g0) as [tb|] eqn:Htb.
  - destruct (po_present _ _ _ Hs cls) as (cs & rows & Hb & ->); [left; by rewrite Htb|]. destruct (begins_same _ _ _ _ Hb Htb) as [-> ->].
    destruct (Hnone (t_rows tb) all (t_columns tb)) as [-> _]; [done|]. destruct (Hnone (t_rows tb) pre (t_columns tb)) as [_ ->]; [done|]. pose proof (get_table_name _ _ _ Htb) as E. destruct tb. cbn in *. by rewrite E.
  - apply (po_absent _ _ _ Hs). intros [[? H]|(t & Ht & E)]; [by rewrite Htb in H|]. apply (Hown _ Ht E).
Qed.

(** A column with duplicate values, among those that the class has in the end *)
Lemma duplicated_final e t tb : shared e t → get_table (tn (class_name e)) g0 = Some tb → duplicated e t →
  ∃ x, x ∈ t_columns (migrated_table e t tb) ∧ d_name (c_desc x) = primary_key t ∧ ¬ NoDup (c_values x).
Proof.
  intros Hsh Htb (Hkey & tb' & x & Htb' & Hx & Hn & Hd). rewrite Htb in Htb'. injection Htb' as <-. destruct (shared_read e t Hsh) as (tb' & Htb' & Hread & _). rewrite Htb in Htb'. injection Htb' as <-.
  pose proof (shared_from e t all Hsh ltac:(done)) as Hfrom. pose proof Hsh as (He & Ht & En). pose proof (shared_names e t Hsh) as Hu.
  rewrite columns_split in Hx by (intros c Hc Ho; by eapply (all_placed e t tb)). apply elem_of_app in Hx as [Hx|Hx]; [|exists x; split; [apply elem_of_app; by right|done]].
  apply list_elem_of_lookup in Hx as [i Hx]. rewrite list_lookup_imap in Hx. destruct (t_columns tb !! i) as [x0|] eqn:Hx0; [|done]. injection Hx as <-.
  destruct (class_plan_of s target e t tb (rd_strict _ _ _ Hreads) Htarget He Ht En Hread all Hplan) as (a & b & Hcp).
  pose proof (cell_result e t tb Hread Hu (λ q, shared_indexable e t q Hsh) all a b (t_rows tb) i x0 Hcp Hx0) as Hf. case_decide as Hrm.
  - exfalso. apply (removed_in e t all _ Hfrom) in Hrm as (p & Hp & Hnot & <- & _).
    rewrite (cell_untouched e t all) in Hn; [|done|intros p' q' (Hp' & Hq' & E') Ec; apply (Hnot q' Hq'); by rewrite E', (cell_inj e tb Hread p' p Hp' Hp Ec)].
    destruct (cell_shown e tb Hread p Hp) as (x1 & Hx1 & Hs). rewrite Hx0 in Hx1. injection Hx1 as <-.
    destruct (st_key _ (Hstore t Ht) Hkey) as (q & Hq & Eq). apply (Hnot q Hq). rewrite (sh_name _ _ _ _ Hs). congruence.
  - eexists. split; [apply elem_of_app; left; apply migrated_in; exists i, x0; split; [done|symmetry; exact Hf]|].
    destruct (index_cell_kept_value e i a (cell_after (class_name e) (t_rows tb) i all x0)) as [-> ->]. done.
Qed.
End passes.

