(* ===== verification/ObjectStoreTheorems.v ===== *)
(** * A group takes the schema that is asked for

    What a group holds after [apply_schema_changes], for any group and any target. *)

From Stdlib Require Import String Sorted.
From stdpp Require Import strings sorting.
From S2P Require Import Prelude ChangeCalculation Schema SchemaValidationTheorems SchemaCompare SchemaCompareTheorems LogStream Group ObjectStore ObjectStoreSchema ObjectStoreKeys ObjectStoreMigration ObjectStorePlan ObjectStorePasses.
Import Class_ Validate Compare Store.
Open Scope Z_scope.

(** ** A migration without a migration function *)
Section migration.
Context {G V : Type} {VA : Values V} {CG : Core G V} {CL : CoreLaws G V} `{SL : SortLaws} `{PL : PartitionLaws} {PP : PartitionInPlace}.
Implicit Types (g : G) (ps : keys) (s target : Schema) (tb : Table V).

Lemma reads_of g g' ps s : prepared g ps → has_keys g' ps → (∀ cls, get_table (tn cls) g' = get_table (tn cls) g) → schema_from_group g = Some s → reads g' ps s.
Proof.
  intros [Hk _] Hk' Hg Hs. assert (∀ cls, get_primary_key_for_object cls g = Some (assoc cls ps)) as Hkey.
  { intros cls. destruct Hk as [Hk|[Hk ->]]; [by apply get_key|]. unfold get_primary_key_for_object. change c_primaryKeyTableName with pk_table_name. by rewrite Hk. }
  split.
  - by eapply schema_strict.
  - intros cls. by apply get_key.
  - intros e He. apply (schema_in g s e Hs) in He as (tb & _ & Htb & Ho). destruct (object_schema_reads _ _ _ _ Ho) as (_ & Hpk & Hr).
    exists tb. rewrite Hg. split; [done|]. split; [done|]. rewrite Hkey in Hpk. by injection Hpk as <-.
  - intros cls tb Hcls Htb. rewrite Hg in Htb. destruct (schema_readable g cls tb) as [e He]; [by rewrite Hs; eexists|done|done|].
    destruct (object_schema_reads _ _ _ _ He) as (Ec & _). exists e. split; [|done]. apply (schema_in g s e Hs). exists tb. by rewrite Ec.
Qed.
Lemma reads_total g ps s : reads g ps s → is_Some (schema_from_group g).
Proof.
  intros Hr. apply schema_total. intros cls tb Hcls Htb. destruct (rd_table _ _ _ Hr cls tb Hcls Htb) as (e & He & <-).
  destruct (rd_class _ _ _ Hr e He) as (tb' & Htb' & Hread & _). rewrite Htb in Htb'. injection Htb' as <-. apply object_schema_total.
  - intros i x Hx Hv. destruct (rf_column _ _ Hread i x Hx Hv) as (p & _ & Hs). rewrite (sh_type _ _ _ _ Hs). by eexists.
  - rewrite (rd_key _ _ _ Hr). by eexists.
Qed.

(** The properties of [t] that are new, in some order *)
Definition new_properties (e t : ObjectSchema) (added : list Property) : Prop :=
  NoDup added ∧ ∀ q, q ∈ added ↔ q ∈ persisted_properties t ∧ ∀ p, p ∈ persisted_properties e → name p ≠ name q.

(** What a migration is to reach, from the group [g] with the schema [s] *)
Record migrated_group g s target (version : Z) g' : Prop := {
  mg_version : get_schema_version g' = Some version;
  mg_schema : ∃ s', schema_from_group g' = Some s' ∧ compare s' target false = [];
  mg_shared e t tb : e ∈ s → t ∈ target → class_name t = class_name e → get_table (tn (class_name e)) g = Some tb →
    ∃ added, new_properties e t added ∧
      get_table (tn (class_name e)) g' = Some (MkTable (tn (class_name e)) (migrated e t (t_rows tb) (t_columns tb) ++ new_columns (t_rows tb) added) (t_rows tb));
  mg_new t : t ∈ target → missing s t → ∃ ids, id_columns ids ∧ get_table (tn (class_name t)) g' = Some (MkTable (tn (class_name t)) (ids ++ first_columns t) 0);
  mg_other cls : (∀ t, t ∈ target → class_name t ≠ cls) → get_table (tn cls) g' = get_table (tn cls) g }.

(** Lists whose elements become optional have no rows. *)
Definition no_optional_lists g s target : Prop := ∀ e t p q tb, e ∈ s → t ∈ target → class_name t = class_name e → kept e t p q → same_type p q →
  is_array (type p) = true → is_nullable (type p) = false → is_nullable (type q) = true → get_table (tn (class_name e)) g = Some tb → t_rows tb = 0%nat.

Lemma no_class n m : n = pk_table_name ∨ n = c_metadataTableName → n ≠ tn m.
Proof. by intros [->| ->]. Qed.

(** Writing the version leaves the classes and the keys. *)
Lemma set_schema_version_spec g ps version : has_keys g ps → has_meta g → 0 <= version < W64 →
  ∃ g', set_schema_version version g = Some g' ∧ get_schema_version g' = Some version ∧ has_keys g' ps ∧ ∀ cls, get_table (tn cls) g' = get_table (tn cls) g.
Proof.
  intros Hk Hm Hv. destruct (create_metadata_tables_spec g ps) as (g1 & E1 & Hk1 & Hm1 & _ & Ho1); [split; by left|].
  destruct (set_version_spec g1 version Hm1 Hv) as (g2 & E2 & Hm2 & Hver & Ho2). exists g2. unfold set_schema_version. rewrite E1. split; [done|]. split; [done|]. split.
  - eapply has_keys_frame; [|exact Hk1]. by apply Ho2.
  - intros cls. rewrite Ho2, Ho1; [done|..]; apply table_name_apart.
Qed.

Section passed.
Context (g : G) (ps : keys) (s target : Schema).
Hypothesis Hids : sync_has_object_ids = false.
Hypothesis Hprepared : prepared g ps.
Hypothesis Hfresh : ∀ cls, cls ∈ ps.*1 → is_Some (get_table (tn cls) g).
Hypothesis Hschema : schema_from_group g = Some s.
Hypothesis Htarget : strict target.
Hypothesis Hvalid : valid_schema target.
Hypothesis Hstore : ∀ t, t ∈ target → storable t.
Hypothesis Hlists : no_optional_lists g s target.

Abbreviation changes := (compare s target false).

Lemma changes_plan : plan s target changes.
Proof.
  apply compare_plan; [by eapply schema_strict|done| |].
  - intros e He. apply (schema_in g s e Hschema) in He as (tb & _ & _ & Ho). destruct (object_schema_reads _ _ _ _ Ho) as (_ & _ & Hr). apply (rf_distinct _ _ Hr).
  - intros t Ht. apply (valid_names target t). by apply Hvalid.
Qed.

Lemma new_properties_of g1 e t : reads g1 ps s → shared s target e t → new_properties e t (appended_by (class_name e) changes).
Proof.
  intros Hr Hsh. pose proof changes_plan as Hplan. destruct Hsh as (He & Ht & En). destruct (rd_class _ _ _ Hr e He) as (tb & _ & Hread & _). split.
  - unfold appended_by. apply NoDup_bind; [| |apply (pl_once _ _ _ Hplan)].
    + intros c c' q Hc Hc' Hq Hq'.
      assert (∀ c, c ∈ changes → q ∈ (if decide (owner c = class_name e) then appended c else []) → c = AddProperty e q) as Hadd; [|by rewrite (Hadd c), (Hadd c')].
      clear - Hr Hplan He Ht En Htarget. intros c Hc Hq. case_decide as Ho; [|by apply elem_of_nil in Hq].
      assert (class_change e t c) as Hcc by (eapply owned; [apply (rd_strict _ _ _ Hr)|exact Htarget|exact He|exact Ht|exact En|by apply (pl_exact _ _ _ Hplan)|done]).
      destruct Hcc; try by apply elem_of_nil in Hq. by apply list_elem_of_singleton in Hq as ->.
    + intros c Hc. case_decide as Ho; [|constructor].
      assert (class_change e t c) as Hcc by (eapply owned; [apply (rd_strict _ _ _ Hr)|exact Htarget|exact He|exact Ht|exact En|by apply (pl_exact _ _ _ Hplan)|done]).
      destruct Hcc; cbn [appended]; first [apply NoDup_nil_2|apply NoDup_singleton].
  - intros q. by eapply (added_in s target changes).
Qed.

(** Reading back: the only changes that are left remove columns that no property of the target has. *)
Lemma read_back g1 g' ps' : reads g1 ps s → has_keys g' ps' →
  (∀ t, t ∈ target → ∃ tb, get_table (tn (class_name t)) g' = Some tb ∧ covers t tb ∧ assoc (class_name t) ps' = primary_key t) →
  (∀ cls, (∀ t, t ∈ target → class_name t ≠ cls) → get_table (tn cls) g' = get_table (tn cls) g1) →
  ∃ s', schema_from_group g' = Some s' ∧ ∀ c, c ∈ compare s' target false →
    ∃ e t tb p, t ∈ target ∧ get_table (tn (class_name t)) g' = Some tb ∧ read_from e tb ∧ c = RemoveProperty e p ∧ p ∈ persisted_properties e ∧
      ∀ q, q ∈ persisted_properties t → name q ≠ name p.
Proof.
  intros Hr Hk Hin Ho. assert (is_Some (schema_from_group g')) as [s' Hs'].
  { apply schema_total. intros cls tb Hcls Htb. apply object_schema_total; [|rewrite (get_key g' ps' cls Hk); by eexists].
    destruct (list_find (λ t, class_name t = cls) target) as [[k t]|] eqn:Ef.
    - apply list_find_Some in Ef as (Htt & <- & _). apply list_elem_of_lookup_2 in Htt. destruct (Hin t Htt) as (tb' & Htb' & Hc & _). rewrite Htb in Htb'. injection Htb' as <-. by apply (covers_readable t).
    - apply list_find_None in Ef. rewrite Forall_forall in Ef. rewrite (Ho cls Ef) in Htb.
      destruct (rd_table _ _ _ Hr cls tb Hcls Htb) as (e & He & <-). destruct (rd_class _ _ _ Hr e He) as (tb' & Htb' & Hread & _). rewrite Htb in Htb'. injection Htb' as <-.
      intros i x Hx Hvis. destruct (rf_column _ _ Hread i x Hx Hvis) as (p & _ & Hs). rewrite (sh_type _ _ _ _ Hs). by eexists. }
  exists s'. split; [done|]. assert (∀ t, t ∈ target → names_unique t) as Hu by (intros t Htt; by apply (valid_names target t), Hvalid).
  intros c Hc%(compare_in s' target false c (schema_strict g' s' Hs') Htarget Hu).
  assert (∀ t, t ∈ target → ∃ e, e ∈ s' ∧ class_name e = class_name t) as Hhas.
  { intros t Htt. destruct (Hin t Htt) as (tb & Htb & _). destruct (schema_readable g' (class_name t) tb) as [e He]; [by rewrite Hs'; eexists|by apply (st_class _ (Hstore t Htt))|done|].
    destruct (object_schema_reads _ _ _ _ He) as (Ec & _). exists e. split; [|done]. apply (schema_in g' s' e Hs'). exists tb. rewrite Ec. split; [|done]. by apply (st_class _ (Hstore t Htt)). }
  destruct Hc as [t Htt Hmiss|t Htt Hmiss|? ?|e t c He Htt En Hcc]; [by destruct (Hhas t Htt) as (e & He & Ec); destruct (Hmiss e He)..|done|].
  apply (schema_in g' s' e Hs') in He as (tb & _ & Htb & Hob). destruct (object_schema_reads _ _ _ _ Hob) as (_ & Hpk & Hread).
  destruct (Hin t Htt) as (tb' & Htb' & Hcov & Hkey). rewrite <- En, Htb' in Htb. injection Htb as ->.
  destruct (covers_nothing e t tb c Hcov Hread (Hu t Htt)) as (p & -> & Hp & Hn); [|by apply Hstore|done|by exists e, t, tb, p].
  rewrite (get_key g' ps' _ Hk) in Hpk. injection Hpk as <-. by rewrite <- En.
Qed.

(** The last step, and what is reached *)
Lemma reached g1 g3 ps3 version : 0 <= version < W64 → reads g1 ps s → has_meta g1 → (∀ cls, get_table (tn cls) g1 = get_table (tn cls) g) →
  post target changes g1 ps changes g3 ps3 →
  ∃ g', set_schema_version version g3 = Some g' ∧ migrated_group g s target version g'.
Proof.
  intros Hv Hr Hm1 Hg1 Hp. pose proof changes_plan as Hplan. assert (∀ t, t ∈ target → valid_class target t) as Hvc by apply Hvalid.
  assert (∀ cls, cls ∈ ps.*1 → is_Some (get_table (tn cls) g1)) as Hf1 by (intros cls Hc; rewrite Hg1; by apply Hfresh).
  assert (has_meta g3) as Hm3.
  { eapply has_meta_frame; [|exact Hm1]. eapply (po_other _ _ _ _ _ _ _ Hp); [done|]. intros cls. by apply no_class; right. }
  destruct (set_schema_version_spec g3 ps3 version (po_keys _ _ _ _ _ _ _ Hp) Hm3 Hv) as (g' & E & Hver & Hk & Ht). exists g'. split; [done|].
  assert (∀ t, t ∈ target → ∃ tb, get_table (tn (class_name t)) g' = Some tb ∧ in_place t tb ∧ assoc (class_name t) ps3 = primary_key t) as Hin.
  { intros t Htt. rewrite Ht. eapply target_in_place; try done. }
  split.
  - done.
  - destruct (read_back g1 g' ps3 Hr Hk) as (s' & Hs' & Hleft).
    + intros t Htt. destruct (Hin t Htt) as (tb & Htb & Hip & Hkey). exists tb. split; [done|]. split; [by apply in_place_covers|done].
    + intros cls Hcls. rewrite Ht. by apply (other_final s target changes g1 ps Hplan cls changes g3 ps3).
    + exists s'. split; [done|]. destruct (compare s' target false) as [|c l]; [done|]. exfalso. destruct (Hleft c) as (e & t & tb & p & Htt & Htb & Hread & -> & Hpe & Hn); [by left|].
      destruct (Hin t Htt) as (tb' & Htb' & Hip & _). rewrite Htb in Htb'. injection Htb' as <-. destruct (in_place_named e t tb p Hip Hread Hpe) as (q & Hq & Eq). by apply (Hn q).
  - intros e t tb He Htt En Htb. exists (appended_by (class_name e) changes). rewrite <- Hg1 in Htb. split; [by eapply new_properties_of|].
    rewrite Ht. eapply (shared_final s target changes g1 ps); try done.
  - intros t Htt Hmiss. rewrite Ht. eapply (new_final s target changes g1 ps); try done. by eapply missing_class.
  - intros cls Hcls. rewrite Ht, <- Hg1. eapply (other_final s target changes g1 ps Hplan cls changes); done.
Qed.

(** What the passes start from *)
Lemma metadata_created : ∃ g1, create_metadata_tables g = Some g1 ∧ reads g1 ps s ∧ has_meta g1 ∧ has_keys g1 ps ∧ get_schema_version g1 = get_schema_version g ∧ (∀ cls, get_table (tn cls) g1 = get_table (tn cls) g).
Proof.
  destruct (create_metadata_tables_spec g ps Hprepared) as (g1 & E & Hk & Hm & Hver & Ho). assert (∀ cls, get_table (tn cls) g1 = get_table (tn cls) g) as Hg1 by (intros cls; apply Ho; apply table_name_apart).
  exists g1. split; [done|]. split; [by eapply reads_of|done].
Qed.

(** The classes whose new primary key has duplicate values *)
Definition duplicate_keys e t : Prop := e ∈ s ∧ t ∈ target ∧ class_name t = class_name e ∧ primary_key e ≠ primary_key t ∧
  ∃ tb added x, get_table (tn (class_name e)) g = Some tb ∧ new_properties e t added ∧ x ∈ migrated e t (t_rows tb) (t_columns tb) ++ new_columns (t_rows tb) added ∧
    d_name (c_desc x) = primary_key t ∧ ¬ NoDup (c_values x).

Lemma migration_passes g1 : reads g1 ps s → has_keys g1 ps → (∀ cls, get_table (tn cls) g1 = get_table (tn cls) g) →
  ∃ g2, apply_pre_migration_changes changes g1 = Some g2 ∧
    ((∃ g3 ps3, apply_post_migration_changes [] false changes g2 = Ok g3 ∧ post target changes g1 ps changes g3 ps3) ∨
     ∃ e t, duplicate_keys e t ∧ apply_post_migration_changes [] false changes g2 = Raise (DuplicatePrimaryKeyValue (class_name t) (primary_key t))).
Proof.
  intros Hr Hk Hg1. pose proof changes_plan as Hplan. assert (∀ t, t ∈ target → valid_class target t) as Hvc by apply Hvalid.
  assert (∀ cls, cls ∈ ps.*1 → is_Some (get_table (tn cls) g1)) as Hf1 by (intros cls Hc; rewrite Hg1; by apply Hfresh).
  destruct (pre_pass s target changes g1 ps) as (g2 & ps2 & E2 & Hs2); try done.
  { intros e t p q tb (He & Ht & En). rewrite Hg1. by apply Hlists. }
  exists g2. split; [done|]. destruct (post_pass_from s target changes g1 ps) with (pre := @nil SchemaChange) (rest := changes) (g := g2) (ps := ps2) as [(g3 & E3 & Hp)|(e & t & Hsh & Hne & Hd & E3)]; try done.
  - by apply post_start.
  - left. by exists g3, ps2.
  - right. exists e, t. split; [|done]. pose proof Hsh as (He & Ht & En). split; [done|]. split; [done|]. split; [done|]. split; [done|].
    pose proof Hd as (_ & tb & _ & Htb & _). destruct (duplicated_final s target changes g1 ps) with (e := e) (t := t) (tb := tb) as (x & Hx & Hn & Hdup); try done.
    exists tb, (appended_by (class_name e) changes), x. rewrite <- Hg1. split; [done|]. split; [by eapply new_properties_of|done].
Qed.
End passed.

Lemma migration_spec initialize_schema link version target_version user g ps s target :
  sync_has_object_ids = false → prepared g ps → (∀ cls, cls ∈ ps.*1 → is_Some (get_table (tn cls) g)) →
  schema_from_group g = Some s → strict target → valid_schema target → (∀ t, t ∈ target → storable t) → no_optional_lists g s target →
  version ≠ NotVersioned → version ≠ target_version → 0 <= target_version < W64 →
  let outcome := apply_schema_changes initialize_schema link version target_version Automatic (compare s target false) user None target g in
  (∃ g', outcome = Ok (g', set_schema_columns g' target) ∧ migrated_group g s target target_version g') ∨
  ∃ e t, duplicate_keys g s target e t ∧ outcome = Raise (DuplicatePrimaryKeyValue (class_name t) (primary_key t)).
Proof.
  intros Hids Hprep Hfresh Hs Ht Hv Hst Hl Hver Hne Hrange outcome. destruct (metadata_created g ps s Hprep Hs) as (g1 & E1 & Hr & Hm & Hk & _ & Hg1).
  destruct (migration_passes g ps s target Hids Hfresh Hs Ht Hv Hst Hl g1 Hr Hk Hg1) as (g2 & E2 & Hcase). destruct (reads_total g1 ps s Hr) as [old Eold].
  assert (outcome = (g ← (g ← apply_post_migration_changes [] false (compare s target false) g2; Ok (g, target));
    let '(g, target_schema) := g in g ← lift (set_schema_version target_version g); Ok (g, set_schema_columns g target_schema))) as ->.
  { unfold outcome, apply_schema_changes. rewrite E1. cbn [lift mbind result_bind]. rewrite decide_False by done. apply Z.eqb_neq in Hver, Hne. rewrite Hver, Hne, decide_False by done.
    rewrite Eold, E2. cbn [lift mbind result_bind]. rewrite decide_True by done. done. }
  destruct Hcase as [(g3 & ps3 & -> & Hp)|(e & t & Hd & ->)]; [left|right; by exists e, t]. cbn [mbind result_bind].
  destruct (reached g ps s target Hfresh Hs Ht Hv Hst g1 g3 ps3 target_version Hrange Hr Hm Hg1 Hp) as (g' & -> & Hm'). by exists g'.
Qed.

(** C1: in automatic mode with a new version and without a migration function, a group takes any valid schema that can be stored,
    whatever it held before and in whatever order the changes are listed.  [apply_schema_changes] ends with the version written; the
    group then holds exactly the columns of [migrated]: every column in its order, without those that are not
    asked for, converted to the type that is asked for and with the values it had unless the type changed or null is no
    longer allowed, and then the new columns; every class that is not in the target stays as it was; and the schema that is read back
    needs no further change.  The one exception is raised for a class with a new primary key whose column holds a value twice.
    Assumed: no list that holds rows gets optional elements ([no_optional_lists]; [Example_.optional_elements] shows what is lost then), the core
    gives objects no ids, and [std::partition] leaves a prefix in place ([PartitionInPlace], which [swapping_partition] has). *)
Theorem migration_correct initialize_schema link version target_version user g ps s target :
  sync_has_object_ids = false → prepared g ps → (∀ cls, cls ∈ ps.*1 → is_Some (get_table (tn cls) g)) →
  schema_from_group g = Some s → strict target → valid_schema target → (∀ t, t ∈ target → storable t) → no_optional_lists g s target →
  version ≠ NotVersioned → version ≠ target_version → 0 <= target_version < W64 →
  let outcome := apply_schema_changes initialize_schema link version target_version Automatic (compare s target false) user None target g in
  (∃ g', outcome = Ok (g', set_schema_columns g' target) ∧ migrated_group g s target target_version g') ∨
  ∃ e t, duplicate_keys g s target e t ∧ outcome = Raise (DuplicatePrimaryKeyValue (class_name t) (primary_key t)).
Proof. apply migration_spec. Qed.
End migration.

(** ** Renaming a property *)
Section renaming.
Context {G V : Type} {VA : Values V} {CG : Core G V} {CL : CoreLaws G V}.
Implicit Types (g : G) (tb : Table V) (x y : Column V) (p q : Property).

Definition names (cs : list (Column V)) : list string := (λ x, d_name (c_desc x)) <$> cs.

Lemma find_column_at tb k n : NoDup (names (t_columns tb)) → names (t_columns tb) !! k = Some n → get_column_index n tb = Z.of_nat k.
Proof.
  unfold names, get_column_index, find_column. intros Hnd Hk. rewrite list_lookup_fmap in Hk. destruct (t_columns tb !! k) as [x|] eqn:Hx; [|done]. injection Hk as <-.
  match goal with |- context [find_if ?P _] => destruct (find_if_spec P (t_columns tb)) as [[_ Hall]|(l1 & a & l2 & Hcs & Ef & _ & Ha)] end.
  - rewrite Forall_forall in Hall. apply list_elem_of_lookup_2 in Hx. specialize (Hall x Hx). by rewrite bool_decide_true in Hall.
  - apply bool_decide_eq_true in Ha. assert (length l1 = k) as <-.
    { apply (NoDup_lookup _ _ _ (d_name (c_desc x)) Hnd); rewrite list_lookup_fmap; [|by rewrite Hx]. by rewrite Hcs, list_lookup_middle, <- Ha by done. }
    apply lookup_lt_Some in Hx. rewrite Ef. by replace (_ <? _)%nat with true by (symmetry; by apply Nat.ltb_lt).
Qed.

(** The columns of a table in which the column [i] takes the place of the column [j] *)
Definition take_over (i j : nat) (y : Column V) (cs : list (Column V)) : list (Column V) := delete j (<[i := y]> cs).

Lemma names_taken i j y cs : names (take_over i j y cs) = delete j (<[i := d_name (c_desc y)]> (names cs)).
Proof. unfold names, take_over. by rewrite list_fmap_delete, list_fmap_insert. Qed.
Lemma taken_unique i j y cs : (i < j)%nat → NoDup (names cs) → names cs !! j = Some (d_name (c_desc y)) → NoDup (names (take_over i j y cs)).
Proof.
  intros Hij Hnd Hj. rewrite names_taken. set (n := d_name (c_desc y)) in *. pose proof (lookup_lt_Some _ _ _ Hj) as Hl.
  assert (∀ k a, delete j (<[i := n]> (names cs)) !! k = Some a → ∃ k', names cs !! k' = Some a ∧ (if decide (k = i) then k' = j else if decide (k < j)%nat then k' = k else k' = S k)) as Hsrc.
  { intros k a Hk. destruct (decide (k < j)%nat) as [Hk'|Hk'].
    - rewrite list_lookup_delete_lt in Hk by done. destruct (decide (k = i)) as [->|Hne].
      + rewrite list_lookup_insert_eq in Hk by lia. injection Hk as <-. by exists j.
      + rewrite list_lookup_insert_ne in Hk by done. by exists k.
    - rewrite list_lookup_delete_ge in Hk by lia. rewrite list_lookup_insert_ne in Hk by lia. exists (S k). by rewrite decide_False by lia. }
  apply NoDup_alt. intros k1 k2 a H1 H2. apply Hsrc in H1 as (k1' & H1 & E1). apply Hsrc in H2 as (k2' & H2 & E2). pose proof (NoDup_lookup _ _ _ _ Hnd H1 H2) as E. subst k2'. repeat case_decide; lia.
Qed.

Lemma taken_over_columns f i j y cs : (i < j)%nat → (i < length cs)%nat → <[i := y]> (delete j (alter f i cs)) = take_over i j y cs.
Proof.
  intros Hij [x Hx]%lookup_lt_is_Some. unfold take_over. apply list_eq. intros k. destruct (decide (k = i)) as [->|Hk].
  - rewrite list_lookup_insert_eq by (apply lookup_lt_is_Some; rewrite list_lookup_delete_lt, list_lookup_alter_eq, Hx by done; by eexists).
    rewrite list_lookup_delete_lt by done. rewrite list_lookup_insert_eq; [done|]. by eapply lookup_lt_Some.
  - rewrite list_lookup_insert_ne by done. destruct (decide (k < j)%nat).
    + rewrite !list_lookup_delete_lt by done. by rewrite list_lookup_insert_ne, list_lookup_alter_ne by done.
    + rewrite !list_lookup_delete_ge by lia. by rewrite list_lookup_insert_ne, list_lookup_alter_ne by lia.
Qed.

(** [renumber] finds the columns again. *)
Lemma renumbered tb i j y (r : Property) : (i < j)%nat → NoDup (names (t_columns tb)) → Z.of_nat (length (t_columns tb)) < W64 →
  names (t_columns tb) !! j = Some (d_name (c_desc y)) → names (t_columns tb) !! i ≠ Some (name r) → name r ∈ names (t_columns tb) →
  table_column r = get_column_index (name r) tb →
  table_column (renumber (Z.of_nat j) (Z.of_nat i) r) = get_column_index (name r) (with_columns (take_over i j y) tb).
Proof.
  intros Hij Hnd Hlen Hj Hi Hr Hcol. apply list_elem_of_lookup in Hr as [k Hk]. rewrite (find_column_at tb k) in Hcol by done.
  pose proof (lookup_lt_Some _ _ _ Hk) as Hlt. unfold names in Hlt. rewrite length_fmap in Hlt. pose proof (taken_unique i j y _ Hij Hnd Hj) as Hnd'.
  assert (∀ k', names (take_over i j y (t_columns tb)) !! k' = Some (name r) → get_column_index (name r) (with_columns (take_over i j y) tb) = Z.of_nat k') as Hat.
  { intros k' Hk'. by apply find_column_at. }
  unfold renumber. rewrite Hcol. destruct (Z.eqb_spec (Z.of_nat k) (Z.of_nat j)) as [E|E].
  - apply Nat2Z.inj in E as ->. symmetry. apply Hat. rewrite names_taken, list_lookup_delete_lt by done. rewrite Hj in Hk. injection Hk as <-.
    apply list_lookup_insert_eq. unfold names. rewrite length_fmap. lia.
  - destruct (Z.ltb_spec (Z.of_nat j) (Z.of_nat k)) as [E'|E'].
    + cbn [table_column set_column]. rewrite wsub_small by lia. symmetry. replace (Z.of_nat k - 1) with (Z.of_nat (k - 1)) by lia. apply Hat.
      rewrite names_taken, list_lookup_delete_ge by lia. replace (S (k - 1)) with k by lia. by rewrite list_lookup_insert_ne by lia.
    + rewrite Hcol. symmetry. apply Hat. rewrite names_taken, list_lookup_delete_lt by lia. rewrite list_lookup_insert_ne; [done|]. intros ->. by apply Hi.
Qed.

Lemma shows_reads e i x p : shows e i x p → reads_as (c_desc x) p.
Proof.
  intros [Hv Hn Ht Ho _ _ _]. split; [done|done|by exists (type p)|]. rewrite Ho. unfold type_eqb. change (base_type PT_Object) with PT_Object.
  destruct (Z.eqb_spec (base_type (type p)) PT_Object); [by rewrite bool_decide_true|by rewrite bool_decide_false].
Qed.
Lemma renamed_reads d p q : reads_as d p → name q ≠ object_id_column_name → base_type (type p) = base_type (type q) → is_array (type p) = is_array (type q) →
  is_nullable (type p) = is_nullable (type q) → object_type p = object_type q → reads_as (set_name (name q) d) q.
Proof.
  intros [Hv Hn (ty & Hty & Hb & Ha & Hnu) Ho] Hne Eb Ea En Eo. assert (from_core_type (set_name (name q) d) = from_core_type d) as Ec by (by destruct d).
  split.
  - unfold visible in *. cbn. rewrite bool_decide_false by done. apply andb_true_iff in Hv as [_ Hv]. done.
  - done.
  - exists ty. rewrite Ec. split; [done|]. split_and!; congruence.
  - rewrite <- Eo, <- Ho. cbn. by rewrite (bool_decide_ext (base_type (type q) = PT_Object) (base_type (type p) = PT_Object)) by (by rewrite Eb).
Qed.

(** When a property may take the name of another one *)
Definition may_take_over p q : bool :=
  type_eqb (type p) (type q) && bool_decide (object_type p = object_type q) && (negb (is_nullable (type p)) || is_nullable (type q)).

(** What was renamed: the column [y] has the values of [x], and reads as the property [q]. *)
Definition takes_over (x y : Column V) q : Prop := c_values y = c_values x ∧ reads_as (c_desc y) q.

Lemma optional_taken q d : reads_as d (optional q) → is_nullable (type q) = true → reads_as d q.
Proof.
  intros H Hq. destruct (optional_flags (type q)) as (Fb & Fa & Fn). eapply reads_as_ext; [exact H|done|..]; cbn; congruence || done.
Qed.

Section conversion.
Context (g : G) (n : string) (tb : Table V) (i j : nat) (x : Column V) (p q : Property).
Hypothesis Htb : get_table n g = Some tb.
Hypothesis Hx : t_columns tb !! i = Some x.
Hypothesis Hp : table_column p = Z.of_nat i.
Hypothesis Hread : reads_as (c_desc x) p.
Hypothesis Hcore : from_core_type (c_desc x) = Some (type p).
Hypothesis Hname : name q ≠ object_id_column_name.
Hypothesis Htype : base_type (type p) = base_type (type q).
Hypothesis Hobj : object_type p = object_type q.
Hypothesis Harray : is_array (type p) = is_array (type q).

(** The column after its name was set, and converted where this is needed *)
Lemma converted_column g1 : get_table n g1 = Some (with_columns (delete j ∘ alter (rename_desc (name q)) i) tb) → (i < j)%nat → (j < length (t_columns tb))%nat →
  implb (is_nullable (type p)) (is_nullable (type q)) = true →
  is_nullable (type p) = is_nullable (type q) ∨ is_array (type q) = false ∧ is_Some (to_core_type (type q)) →
  ∃ g' y, (if is_nullable (type q) && negb (is_nullable (type p)) then make_property_optional n (set_column q (table_column p)) g1 else Some g1) = Some g' ∧
    takes_over x y q ∧ updates g1 n (with_columns (V := V) (insert i y)) g'.
Proof.
  intros Ht1 Hij Hj Himp Hconv. assert (t_columns (with_columns (delete j ∘ alter (rename_desc (name q)) i) tb) !! i = Some (rename_desc (name q) x)) as Hx1.
  { cbn. rewrite list_lookup_delete_lt by done. by rewrite list_lookup_alter_eq, Hx. }
  destruct (is_nullable (type q) && negb (is_nullable (type p))) eqn:Ec.
  - apply andb_true_iff in Ec as [Hq Hn]. apply negb_true_iff in Hn. destruct Hconv as [?|(Ha & [ty Hty])]; [congruence|].
    set (q' := set_column q (table_column p)). assert (base_type (type q) ≠ PT_Object ∧ base_type (type q) ≠ PT_LinkingObjects) as [Ho Hl].
    { pose proof (to_core_type_cases _ _ Hty) as Hin. by destruct (core_types_base _ _ Hin) as (_ & _ & H1 & H2 & _). }
    destruct (optional_flags (type q)) as (Fb & Fa & Fn).
    assert (to_core_type (type (optional q')) = Some ty) as Hty' by (rewrite <- Hty; apply core_by_base; exact Fb).
    assert (desc_for (optional q') = Some (Desc ty (name q) true "" [])) as Hd.
    { unfold desc_for, type_eqb. change (type (optional q')) with (Z.lor (type q) PT_Nullable) in *. rewrite Fb, Fa, Fn, Ha, Hty'. apply Z.eqb_neq in Ho, Hl.
      change (base_type PT_LinkingObjects) with PT_LinkingObjects. change (base_type PT_Object) with PT_Object. by rewrite Ho, Hl. }
    destruct (make_property_optional_spec n q' i (Desc ty (name q) true "" []) g1 _ _ Ht1 Hp Hx1) as (g' & E & Hu).
    + split; [exact Hd|]. unfold type_eqb. change (type (optional q')) with (Z.lor (type q) PT_Nullable). rewrite Fb. intros H%Z.eqb_eq. by destruct Ho.
    + exists ty. split; [done|]. right. split; [|done]. cbn. eapply stored_type_core; [exact Hcore|congruence|]. rewrite Htype. by apply to_core_type_cases.
    + eexists g', _. split; [exact E|]. split; [|exact Hu]. split; [done|]. apply (optional_taken q); [|done]. apply (reads_as_ext _ (optional q')); try done.
      apply desc_reads; [done|]. split; [|split; [|done]]; cbn.
      * intros H. by rewrite Fb in H.
      * intros _ _. rewrite <- Hobj, <- (ra_target _ _ Hread), bool_decide_false; [done|]. by rewrite Htype.
  - exists g1, (rename_desc (name q) x). split; [done|]. split.
    + split; [done|]. apply (renamed_reads (c_desc x) p); try done. destruct (is_nullable (type q)), (is_nullable (type p)); done.
    + eapply updates_ext; [exact Ht1| |apply updates_id]. unfold with_columns at 2. cbn. rewrite list_insert_id by exact Hx1. done.
Qed.
End conversion.

(** C4: renaming a property keeps its data.  A class of the group that is in the target without the old name, and that has a property of that name, either
    gets the new name for its column, when it has no property of the new name; or is refused, when the two are not of
    the same base type and object type or when optional values would become required; or else the column takes the place of the other one: it
    keeps its place and its values and then reads as the other property, made optional where that one is, the other column is gone, and nothing
    else changes.  The properties of the target then know their columns again.  This needs the other column to come after the one
    that is renamed, lists to be on both sides or on neither, and the elements of lists not to become optional. *)
Theorem rename_property_correct g target cls old new tb e c p :
  get_table (tn cls) g = Some tb → object_schema cls tb g = Some e → find_class target cls = Some (Some c) → property_for_name c old = None → property_for_name e old = Some p →
  let outcome := rename_property target cls old new g in
  match property_for_name e new with
  | None => ∃ g', outcome = Ok (g', target) ∧ updates g (tn cls) (with_columns (alter (rename_desc new) (cell_of p))) g'
  | Some q =>
      if may_take_over p q then
        is_array (type p) = is_array (type q) → (cell_of p < cell_of q)%nat →
        is_nullable (type p) = is_nullable (type q) ∨ is_array (type q) = false ∧ is_Some (to_core_type (type q)) →
        ∃ g' x y, outcome = Ok (g', on_class cls (renumber (table_column q) (table_column p)) target) ∧
          t_columns tb !! cell_of p = Some x ∧ takes_over x y q ∧ updates g (tn cls) (with_columns (take_over (cell_of p) (cell_of q) y)) g' ∧
          (NoDup (names (t_columns tb)) → Z.of_nat (length (t_columns tb)) < W64 →
           ∀ r, r ∈ persisted_properties c → name r ∈ names (t_columns tb) → table_column r = get_column_index (name r) tb →
             table_column (renumber (table_column q) (table_column p) r) = get_column_index (name r) (with_columns (take_over (cell_of p) (cell_of q) y) tb))
      else ∃ message, outcome = Raise (LogicError message)
  end.
Proof.
  intros Htb He Hc Hold Hp outcome. destruct (object_schema_reads _ _ _ _ He) as (_ & _ & Hread).
  assert (∀ n r, property_for_name e n = Some r → r ∈ persisted_properties e ∧ name r = n) as Hprop.
  { intros n r [Hr Hn]%for_name_some. split; [|done]. unfold all_properties in Hr. rewrite (rf_computed _ _ Hread), app_nil_r in Hr. done. }
  destruct (Hprop old p Hp) as [Hpe Hpn]. destruct (cell_shown e tb Hread p Hpe) as (x & Hx & Hs). pose proof (lookup_lt_Some _ _ _ Hx) as Hlt.
  pose proof (sh_column _ _ _ _ Hs) as Hcol. unfold outcome, rename_property. rewrite Htb, Hc. cbn [lift mbind result_bind]. rewrite Hold, He. cbn [lift mbind result_bind]. rewrite Hp.
  destruct (property_for_name e new) as [q|] eqn:Hq.
  - destruct (Hprop new q Hq) as [Hqe Hqn]. destruct (cell_shown e tb Hread q Hqe) as (xq & Hxq & Hsq). pose proof (lookup_lt_Some _ _ _ Hxq) as Hltq. pose proof (sh_column _ _ _ _ Hsq) as Hcolq.
    unfold may_take_over. destruct (type_eqb (type p) (type q)) eqn:Et; [|by eexists]. case_bool_decide as Eo; [|by eexists]. cbn [negb orb andb].
    destruct (is_nullable (type p) && negb (is_nullable (type q))) eqn:En.
    { apply andb_true_iff in En as [-> En]. apply negb_true_iff in En as ->. by eexists. }
    assert (negb (is_nullable (type p)) || is_nullable (type q) = true) as -> by (by destruct (is_nullable (type p)), (is_nullable (type q))).
    intros Ha Hij Hnull. destruct (rename_column_spec (tn cls) (cell_of p) new g tb Htb Hlt) as (g1 & E1 & H1). pose proof (updates_at _ _ _ _ _ H1 Htb) as Ht1.
    destruct (remove_column_spec (tn cls) (cell_of q) g1 _ Ht1) as (g2 & E2 & H2); [cbn; by rewrite length_alter|].
    rewrite Hcol, Hcolq, E1. cbn [lift mbind result_bind]. rewrite E2. cbn [lift mbind result_bind].
    destruct (converted_column (tn cls) tb (cell_of p) (cell_of q) x p q Hx Hcol (shows_reads _ _ _ _ Hs) (sh_type _ _ _ _ Hs)) with (g1 := g2) as (g' & y & E3 & Hy & H3); try done.
    + rewrite (sh_name _ _ _ _ Hsq). pose proof (sh_visible _ _ _ _ Hsq) as Hv. unfold visible in Hv. intros E. by rewrite bool_decide_true in Hv.
    + by apply Z.eqb_eq.
    + rewrite Hqn. by rewrite (updates_at _ _ _ _ _ H2 Ht1).
    + by destruct (is_nullable (type p)), (is_nullable (type q)).
    + rewrite Hcol in E3. rewrite E3. exists g', x, y. split; [done|]. split; [done|]. split; [done|].
      assert (d_name (c_desc y) = new) as Hyn by (rewrite (ra_name _ _ (proj2 Hy)); done). split.
      * eapply updates_ext; [exact Htb| |eapply updates_trans; [eapply updates_trans; [exact H1|exact H2]|exact H3]].
        unfold with_columns. cbn. f_equal. by apply taken_over_columns.
      * intros Hnd Hlen r Hr Hin Hrc. apply renumbered; try done.
        -- unfold names. rewrite list_lookup_fmap, Hxq. cbn. rewrite Hyn, <- Hqn. f_equal. symmetry. apply (sh_name _ _ _ _ Hsq).
        -- unfold names. rewrite list_lookup_fmap, Hx. cbn. rewrite <- (sh_name _ _ _ _ Hs), Hpn. intros [= E]. rewrite for_name_none in Hold.
           apply (Hold r); [apply elem_of_app; by left|done].
  - destruct (rename_column_spec (tn cls) (cell_of p) new g tb Htb Hlt) as (g1 & E1 & H1). rewrite Hcol, E1. by exists g1.
Qed.
End renaming.

(** ** An example *)
Module Example_.
Import Lists.
Open Scope string_scope.
Open Scope list_scope.
Open Scope Z_scope.

Definition plain (n : string) (ty : DataType) (indexed : bool) (vs : list value) : Column value := MkColumn (Desc ty n false "" []) indexed vs.
Definition stored_tables : list (Table value) :=
  [MkTable "metadata" [plain "version" type_Int false [VInt 1]] 1;
   MkTable "pk" [plain "pk_table" type_String true [VString "Person"]; plain "pk_property" type_String false [VString "id"]] 1;
   MkTable "class_Person" [plain "id" type_Int true [VInt 1; VInt 2]; plain "nick" type_String false [VString "a"; VString "b"]; plain "age" type_Int false [VInt 30; VInt 40]] 2].
Definition stored_group : group := Group stored_tables eq_refl.
Definition person_now : ObjectSchema :=
  MkObjectSchema "Person" [MkProperty "id" "" PT_Int "" "" true true 0; MkProperty "nick" "" PT_String "" "" false false 1; MkProperty "age" "" PT_Int "" "" false false 2] [] "id".
Definition dog_wanted : ObjectSchema := MkObjectSchema "Dog" [MkProperty "name" "" PT_String "" "" true false npos; MkProperty "owner" "" (Z.lor PT_Object PT_Nullable) "Person" "" false false npos] [] "name".
Definition person_wanted : ObjectSchema :=
  MkObjectSchema "Person" [MkProperty "id" "" PT_Int "" "" true false npos; MkProperty "age" "" (Z.lor PT_Int PT_Nullable) "" "" false false npos; MkProperty "email" "" PT_String "" "" false true npos] [] "id".
Definition wanted_classes : Schema := [dog_wanted; person_wanted].

Lemma stored_schema : schema_from_group stored_group = Some [person_now].
Proof. by vm_compute. Qed.

Definition outcome_tables (r : result store_exception (group * Schema)) : option (list (Table value)) := match r with Ok (g, _) => Some (group_tables g) | _ => None end.
Example migrated_person :
  outcome_tables (apply_schema_changes Some VRow 1 2 Automatic (compare [person_now] wanted_classes false) None None wanted_classes stored_group) =
  Some [MkTable "class_Dog" [MkColumn (Desc type_String "name" false "" []) true []; MkColumn (Desc type_Link "owner" false "class_Person" []) false []] 0;
        MkTable "metadata" [plain "version" type_Int false [VInt 2]] 1;
        MkTable "pk" [plain "pk_table" type_String true [VString "Person"; VString "Dog"]; plain "pk_property" type_String false [VString "id"; VString "name"]] 2;
        MkTable "class_Person" [plain "id" type_Int true [VInt 1; VInt 2]; MkColumn (Desc type_Int "age" true "" []) false [VInt 30; VInt 40];
          plain "email" type_String true [VString ""; VString ""]] 2].
Proof. by vm_compute. Qed.

(** Validity of a schema that is written out *)
Lemma class_valid schema os : NoDup (name <$> all_properties os) → aliases (all_properties os) = [] → Forall (valid_property schema (class_name os)) (all_properties os) →
  (length (filter (λ p, is_primary p = true) (all_properties os)) <= 1)%nat → primary_key_property os ≠ None → valid_class schema os.
Proof. intros H1 H3 H4 H5 H6. split; [done|by rewrite H3; apply NoDup_nil_2|rewrite H3; by intros n ?%elem_of_nil|by apply Forall_forall|done|by right]. Qed.

Ltac valid_tac linked :=
  apply class_valid; try (by apply (bool_decide_unpack _); vm_compute); try (by vm_compute); try (vm_compute; lia);
  repeat (apply Forall_cons_2 || apply Forall_nil_2); split; unfold has_base; cbn; try (intros H; by vm_compute in H); try (intros; by vm_compute); try tauto;
  try (split; [intros H; by vm_compute in H|intros H; by destruct H]);
  intros [H|H]; first [by vm_compute in H|exists linked; split; [right; by left|done]].
Ltac storable_tac :=
  split;
  [ done
  | apply Forall_forall; cbn; repeat (apply Forall_cons_2 || apply Forall_nil_2); (split; [by eexists|split; [intros H; vm_compute; first [by split|by vm_compute in H]|done]])
  | apply Forall_forall; cbn; repeat (apply Forall_cons_2 || apply Forall_nil_2); done
  | apply Forall_forall; cbn; repeat (apply Forall_cons_2 || apply Forall_nil_2); cbn; split; naive_solver
  | intros _; eexists; first [split; [by left|done]|split; [right; by left|done]] ].

Lemma wanted_valid : valid_schema wanted_classes.
Proof. split; [apply (bool_decide_unpack _); by vm_compute|]. intros os [->|[->|[]%elem_of_nil]%elem_of_cons]%elem_of_cons; valid_tac person_wanted. Qed.
Lemma wanted_storable t : t ∈ wanted_classes → storable t.
Proof. intros [->|[->|[]%elem_of_nil]%elem_of_cons]%elem_of_cons; storable_tac. Qed.
Lemma stored_prepared : prepared stored_group [("Person", "id")].
Proof.
  split; left.
  - split; [|apply NoDup_singleton]. do 3 eexists. split; [by vm_compute|]. split; [reflexivity|]. done.
  - do 3 eexists. split; [by vm_compute|]. split; [reflexivity|]. done.
Qed.

Lemma migration_witness :
  let outcome := apply_schema_changes Some VRow 1 2 Automatic (compare [person_now] wanted_classes false) None None wanted_classes stored_group in
  (∃ g', outcome = Ok (g', set_schema_columns g' wanted_classes) ∧ migrated_group stored_group [person_now] wanted_classes 2 g') ∨
  ∃ e t, duplicate_keys stored_group [person_now] wanted_classes e t ∧ outcome = Raise (DuplicatePrimaryKeyValue (class_name t) (primary_key t)).
Proof.
  apply (migration_correct Some VRow 1 2 None stored_group [("Person", "id")] [person_now] wanted_classes).
  - done.
  - apply stored_prepared.
  - intros cls [->|[]%elem_of_nil]%elem_of_cons. by eexists.
  - by vm_compute.
  - vm_compute. strict_tac.
  - apply wanted_valid.
  - apply wanted_storable.
  - intros e t p q tb [->|[]%elem_of_nil]%elem_of_cons _ _ (Hp & _) _ Ha. exfalso. revert Hp Ha.
    by intros [->|[->|[->|[]%elem_of_nil]%elem_of_cons]%elem_of_cons]%elem_of_cons Ha; vm_compute in Ha.
  - done.
  - done.
  - done.
Defined.

(** *** Renaming *)
Definition cat_tables (cs : list (Column value)) : list (Table value) := [MkTable "pk" [plain "pk_table" type_String true []; plain "pk_property" type_String false []] 0; MkTable "class_Cat" cs 2].
Definition optional_column (n : string) (ty : DataType) (vs : list value) : Column value := MkColumn (Desc ty n true "" []) false vs.
Definition plain_property (n : string) (ty : PropertyType) (i : Z) : Property := MkProperty n "" ty "" "" false false i.
Definition cat_wanted : ObjectSchema := MkObjectSchema "Cat" [plain_property "age" PT_Int 1; plain_property "title" (Z.lor PT_String PT_Nullable) 2] [] "".
Definition cats : group :=
  Group (cat_tables [plain "name" type_String false [VString "Tom"; VString "Kit"]; plain "age" type_Int false [VInt 3; VInt 4]; optional_column "title" type_String [VNull; VNull]]) eq_refl.

Example renamed_cats : outcome_tables (rename_property [cat_wanted] "Cat" "name" "title" cats) =
  Some (cat_tables [optional_column "title" type_String [VString "Tom"; VString "Kit"]; plain "age" type_Int false [VInt 3; VInt 4]]).
Proof. by vm_compute. Qed.

Lemma rename_witness :
  ∃ g' x y, rename_property [cat_wanted] "Cat" "name" "title" cats = Ok (g', on_class "Cat" (renumber 2 0) [cat_wanted]) ∧
    x = plain "name" type_String false [VString "Tom"; VString "Kit"] ∧ takes_over x y (plain_property "title" (Z.lor PT_String PT_Nullable) 2).
Proof.
  pose (e := MkObjectSchema "Cat" [plain_property "name" PT_String 0; plain_property "age" PT_Int 1; plain_property "title" (Z.lor PT_String PT_Nullable) 2] [] "").
  destruct (rename_property_correct cats [cat_wanted] "Cat" "name" "title" (MkTable "class_Cat" (default [] (t_columns <$> get_table "class_Cat" cats)) 2) e cat_wanted (plain_property "name" PT_String 0))
    as (g' & x & y & E & Hx & Hy & _).
  - by vm_compute.
  - by vm_compute.
  - by vm_compute.
  - by vm_compute.
  - by vm_compute.
  - by vm_compute.
  - vm_compute. lia.
  - right. split; [by vm_compute|]. exists type_String. by vm_compute.
  - exists g', x, y. split; [exact E|]. split; [|exact Hy]. vm_compute in Hx. by injection Hx as <-.
Defined.

(** Where the other column comes first, the number of the renamed column is out of date: the next column is lost. *)
Definition cats_reversed : group :=
  Group (cat_tables [optional_column "title" type_String [VNull; VNull]; plain "name" type_String false [VString "Tom"; VString "Kit"]; plain "colour" type_String false [VString "red"; VString "black"]]) eq_refl.
Example renamed_reversed : outcome_tables (rename_property [cat_wanted] "Cat" "name" "title" cats_reversed) =
  Some (cat_tables [plain "title" type_String false [VString "Tom"; VString "Kit"]; optional_column "title" type_String [VString "red"; VString "black"]]).
Proof. by vm_compute. Qed.

(** A list of integers takes the place of an integer. *)
Definition cats_listed : group :=
  Group (cat_tables [plain "name" type_Int false [VInt 3; VInt 4]; MkColumn (Desc type_Table "title" false "" [Desc type_Int ArrayColumnName false "" []]) false [VNull; VNull]]) eq_refl.
Example renamed_list : outcome_tables (rename_property [cat_wanted] "Cat" "name" "title" cats_listed) =
  Some (cat_tables [plain "title" type_Int false [VInt 3; VInt 4]]).
Proof. by vm_compute. Qed.

(** The values of a list are not numbers, so they cannot be copied into the optional column. *)
Example optional_elements : make_property_optional "class_Cat" (plain_property "title" (Z.lor PT_Int PT_Array) 1) cats_listed = None.
Proof. by vm_compute. Qed.
End Example_.
