(* ===== verification/ObjectStoreModes.v ===== *)
(** * The modes that keep every column

    Additive mode, opening with the same version, and the creation of a new file: the changes add tables and columns and set
    indexes, and nothing is converted or removed. *)

From Stdlib Require Import String Sorted.
From stdpp Require Import strings sorting.
From S2P Require Import Prelude ChangeCalculation Schema SchemaValidationTheorems SchemaCompare SchemaCompareTheorems LogStream Group ObjectStore ObjectStoreSchema ObjectStoreKeys ObjectStoreMigration ObjectStorePlan ObjectStorePasses ObjectStoreTheorems.
Import Class_ Validate Compare Store.
Open Scope Z_scope.

Lemma foldM_same {A B} (f f' : A → B → option B) l b : (∀ a b, a ∈ l → f a b = f' a b) → foldM f l b = foldM f' l b.
Proof.
  revert b. induction l as [|a l IH]; intros b Hl; [done|]. cbn [foldM]. rewrite (Hl a b) by (by left). destruct (f' a b) as [b'|]; [|done].
  cbn [mbind option_bind]. apply IH. intros a' b'' Ha'. apply Hl. by right.
Qed.

Section modes.
Context {G V : Type} {VA : Values V} {CG : Core G V} {CL : CoreLaws G V} `{SL : SortLaws} `{PL : PartitionLaws} {PP : PartitionInPlace}.
Implicit Types (g : G) (ps : keys) (s target : Schema) (tb : Table V) (x : Column V).

(** Every column stays where it was, with the index that is asked for. *)
Definition widened (e t : ObjectSchema) (rows : nat) (cs : list (Column V)) : list (Column V) := imap (λ i x, default x (fate e t rows i x)) cs.

(** What these modes reach, from the group [g] with the schema [s]: columns are never lost. *)
Record widened_group g s target g' : Prop := {
  wg_schema : ∃ s', schema_from_group g' = Some s' ∧ (∀ c, c ∈ compare s' target false → ∃ e p, c = RemoveProperty e p) ∧
    (shared_classes same_columns s target → compare s' target false = []);
  wg_shared e t tb : e ∈ s → t ∈ target → class_name t = class_name e → get_table (tn (class_name e)) g = Some tb →
    ∃ added, new_properties e t added ∧
      get_table (tn (class_name e)) g' = Some (MkTable (tn (class_name e)) (widened e t (t_rows tb) (t_columns tb) ++ new_columns (t_rows tb) added) (t_rows tb));
  wg_new t : t ∈ target → missing s t → ∃ ids, id_columns ids ∧ get_table (tn (class_name t)) g' = Some (MkTable (tn (class_name t)) (ids ++ first_columns t) 0);
  wg_other cls : (∀ t, t ∈ target → class_name t ≠ cls) → get_table (tn cls) g' = get_table (tn cls) g }.

Section pass.
Context (g : G) (ps : keys) (s target : Schema).
Hypothesis Hids : sync_has_object_ids = false.
Hypothesis Hprepared : prepared g ps.
Hypothesis Hfresh : ∀ cls, cls ∈ ps.*1 → is_Some (get_table (tn cls) g).
Hypothesis Hschema : schema_from_group g = Some s.
Hypothesis Htarget : strict target.
Hypothesis Hvalid : valid_schema target.
Hypothesis Hstore : ∀ t, t ∈ target → storable t.
Hypothesis Hgentle : shared_classes compatible_classes s target.

Abbreviation changes := (compare s target false).

Lemma gentle_plan : plan s target changes.
Proof. by apply (changes_plan g s target). Qed.

(** The appliers agree on these changes. *)
Lemma gentle_additive c g' : c ∈ changes → additive_applier true c g' = pre_migration_applier c g'.
Proof.
  intros Hc%(pl_exact _ _ _ gentle_plan). destruct Hc as [t _ _|t _ _|? ?|e t c He Ht En Hcc]; [done..|].
  destruct (Hgentle e t He Ht En) as [Hk Ht']. destruct Hcc as [p Hp Hn|p q Hkp Hs|p q Hkp Hs H1 H2|p q Hkp Hs H1 H2|p q Hkp Hs H1 H2|p q Hkp Hs H1 H2|Hne|q Hq Hn]; try done; exfalso.
  all: destruct (Ht' p q Hkp); congruence.
Qed.

Lemma gentle_pass g1 : reads g1 ps s → has_keys g1 ps → (∀ cls, get_table (tn cls) g1 = get_table (tn cls) g) →
  ∃ g2 ps2, apply_pre_migration_changes changes g1 = Some g2 ∧ state target g1 ps changes g2 ps2.
Proof.
  intros Hr Hk Hg1. apply (pre_pass s target changes g1 ps); try done; [by apply Hvalid|apply gentle_plan|intros cls Hc; rewrite Hg1; by apply Hfresh|].
  intros e t p q tb (He & Ht & En) Hkp _ _ H1 H2 _. destruct (Hgentle e t He Ht En) as [_ Ht']. destruct (Ht' p q Hkp). congruence.
Qed.

Section final.
Context (g1 g2 : G) (ps2 : keys).
Hypothesis Hr : reads g1 ps s.
Hypothesis Hstate : state target g1 ps changes g2 ps2.

Lemma gentle_class t : t ∈ target → valid_class target t.
Proof. apply Hvalid. Qed.
Lemma gentle_indexable t q : t ∈ target → q ∈ persisted_properties t → indexable q.
Proof. intros Ht Hq. by apply (st_column _ (Hstore t Ht)). Qed.

Lemma gentle_converter e t p q : shared s target e t → kept e t p q → same_type p q ∧ converter e p q = None.
Proof.
  intros (He & Ht & En) Hk. destruct (Hgentle e t He Ht En) as [_ Hc]. destruct (Hc p q Hk) as [Hs Hn]. split; [done|]. unfold converter. rewrite decide_True, Hn by done.
  by destruct (is_nullable (type q)).
Qed.

(** A column after the pass *)
Lemma gentle_cell e t tb i x0 : shared s target e t → read_from e tb → t_columns tb !! i = Some x0 →
  cell_after (class_name e) (t_rows tb) i changes x0 = default x0 (fate e t (t_rows tb) i x0).
Proof.
  intros Hsh Hread Hx0. pose proof Hsh as (He & Ht & En). pose proof (valid_names target t (gentle_class t Ht)) as Hu.
  assert (all_from e t changes) as Hfrom by (apply (shared_from s target changes g1 ps); [done|done|apply gentle_plan|done|done]).
  destruct (cell_cases e t i) as [(p & q & Hk & <-)|[(p & Hp & Hn & <-)|Hh]].
  - rewrite (fate_kept e t tb Hread Hu _ _ p q Hk). cbn [default from_option id]. destruct (gentle_converter e t p q Hsh Hk) as [_ Hc].
    destruct (cell_shown e tb Hread p) as (x1 & Hx1 & Hs); [apply Hk|]. rewrite Hx0 in Hx1. injection Hx1 as <-.
    destruct (cell_progress e t tb Hread Hu (λ q, gentle_indexable t q Ht) changes (t_rows tb) p q x0 Hfrom Hk (sh_indexed _ _ _ _ Hs)) as (b & -> & _ & Hb).
    rewrite Hc. cbn [done_by]. f_equal. apply Hb; [done|]. unfold done_by. destruct (index_change e p q) as [k|] eqn:Ek; [|done].
    apply bool_decide_eq_true, (pl_exact _ _ _ gentle_plan). eapply class_changed; [exact He|exact Ht|exact En|]. apply class_change_origin. by eapply from_index.
  - rewrite (fate_gone e t tb Hread _ _ p Hp Hn). cbn. apply (cell_untouched e t changes); [done|].
    intros p' q' (Hp' & Hq' & E') Ec. apply (Hn q' Hq'). by rewrite E', (cell_inj e tb Hread p' p Hp' Hp Ec).
  - rewrite (fate_hidden e t _ _ _ Hh). cbn. apply (cell_untouched e t changes); [done|]. intros p' q' (Hp' & _) Ec. by apply (Hh p').
Qed.

Definition widened_table e t tb : Table V :=
  MkTable (tn (class_name e)) (widened e t (t_rows tb) (t_columns tb) ++ new_columns (t_rows tb) (appended_by (class_name e) changes)) (t_rows tb).
Lemma gentle_shared e t tb : shared s target e t → get_table (tn (class_name e)) g1 = Some tb → read_from e tb → get_table (tn (class_name e)) g2 = Some (widened_table e t tb).
Proof.
  intros Hsh Htb Hread. rewrite (shared_table s target g1 ps e t changes g2 ps2 tb Hsh Hstate Htb).
  assert (all_from e t changes) as Hfrom by (apply (shared_from s target changes g1 ps); [done|done|apply gentle_plan|done|done]).
  rewrite columns_split by (intros c Hc Ho; by eapply (all_placed e t tb)). unfold widened_table, widened. do 3 f_equal.
  apply imap_ext. intros i x0 Hx0. by apply (gentle_cell e t tb).
Qed.

Lemma gentle_added e t tb q : shared s target e t → read_from e tb →
  q ∈ appended_by (class_name e) changes ↔ q ∈ persisted_properties t ∧ ∀ p, p ∈ persisted_properties e → name p ≠ name q.
Proof. intros Hsh Hread. apply (added_in s target changes g1 ps) with (tb := tb); [done|done|apply gentle_plan|done|done]. Qed.

(** A column of the class, after the pass, is a property's, hidden or left over. *)
Lemma gentle_column e t tb x : shared s target e t → read_from e tb → x ∈ t_columns (widened_table e t tb) → visible (c_desc x) = true →
  (∃ q, q ∈ persisted_properties t ∧ represents x q) ∨
  ∃ p, p ∈ persisted_properties e ∧ is_Some (from_core_type (c_desc x)) ∧ name p = d_name (c_desc x) ∧ ∀ q, q ∈ persisted_properties t → name q ≠ name p.
Proof.
  intros Hsh Hread Hx Hv. pose proof Hsh as (He & Ht & En). pose proof (valid_names target t (gentle_class t Ht)) as Hu.
  apply elem_of_app in Hx as [Hx|(q & d & Hq & Hd & ->)%new_columns_in].
  - apply list_elem_of_lookup in Hx as [i Hx]. unfold widened in Hx. rewrite list_lookup_imap in Hx. destruct (t_columns tb !! i) as [x0|] eqn:Hx0; [|done]. injection Hx as <-.
    destruct (cell_cases e t i) as [(p & q & Hk & <-)|[(p & Hp & Hn & <-)|Hh]].
    + left. exists q. split; [apply Hk|]. rewrite (fate_kept e t tb Hread Hu _ _ p q Hk). destruct (cell_shown e tb Hread p) as (x1 & Hx1 & Hs); [apply Hk|]. rewrite Hx0 in Hx1. injection Hx1 as <-.
      by eapply (converted_represents target gentle_class Hstore).
    + right. exists p. split; [done|]. rewrite (fate_gone e t tb Hread _ _ p Hp Hn). cbn. destruct (cell_shown e tb Hread p Hp) as (x1 & Hx1 & Hs). rewrite Hx0 in Hx1. injection Hx1 as <-.
      split; [rewrite (sh_type _ _ _ _ Hs); by eexists|]. split; [apply (sh_name _ _ _ _ Hs)|done].
    + rewrite (fate_hidden e t _ _ _ Hh) in Hv. destruct (rf_column _ _ Hread i x0 Hx0 Hv) as (p & Hp & Hs%sh_column). exfalso. apply (Hh p Hp). unfold cell_of. rewrite Hs. lia.
  - left. apply (gentle_added e t tb q Hsh Hread) in Hq as [Hq _]. exists q. split; [done|]. by eapply (added_represents target gentle_class Hstore).
Qed.
Lemma gentle_covers e t tb : shared s target e t → read_from e tb → covers t (widened_table e t tb).
Proof.
  intros Hsh Hread. pose proof Hsh as (He & Ht & En). pose proof (valid_names target t (gentle_class t Ht)) as Hu. split.
  - intros q Hq. unfold widened_table. cbn [t_columns]. destruct (column_dec e q) as [(p & Hp & Enq)|Hn].
    + assert (kept e t p q) as Hk by done. destruct (cell_shown e tb Hread p Hp) as (x0 & Hx0 & Hs). exists (with_index (Props.requires_index q) (content p q (t_rows tb) x0)).
      split; [|by eapply (converted_represents target gentle_class Hstore)]. apply elem_of_app. left. apply (list_elem_of_lookup_2 _ (cell_of p)). unfold widened.
      rewrite list_lookup_imap, Hx0. cbn. by rewrite (fate_kept e t tb Hread Hu (t_rows tb) x0 p q Hk).
    + destruct (st_column t (Hstore t Ht) q Hq) as ([d Hd] & _). exists (column_for q d (t_rows tb)). split; [|by eapply (added_represents target gentle_class Hstore)].
      apply elem_of_app. right. apply new_columns_in. exists q, d. split; [|done]. by apply (gentle_added e t tb).
  - intros x Hx Hv. destruct (gentle_column e t tb x Hsh Hread Hx Hv) as [?|(p & _ & Hty & <- & Hn)]; [by left|by right].
Qed.
(** No column is left over when every column is asked for. *)
Lemma gentle_exact e t tb : shared s target e t → read_from e tb → same_columns e t → in_place t (widened_table e t tb).
Proof.
  intros Hsh Hread Hsame. split; [apply (cv_property _ _ (gentle_covers e t tb Hsh Hread))|].
  intros x Hx Hv. destruct (gentle_column e t tb x Hsh Hread Hx Hv) as [?|(p & Hp & _ & _ & Hn)]; [done|]. destruct (sc_kept _ _ Hsame p Hp) as (q & _ & Hq & E). by destruct (Hn q Hq).
Qed.

(** The table of a class of the target, and its key *)
Lemma gentle_target t : t ∈ target → assoc (class_name t) ps2 = primary_key t ∧
  ((∃ e tb, shared s target e t ∧ read_from e tb ∧ get_table (tn (class_name t)) g2 = Some (widened_table e t tb)) ∨
   ∃ ids, id_columns ids ∧ missing s t ∧ get_table (tn (class_name t)) g2 = Some (MkTable (tn (class_name t)) (ids ++ first_columns t) 0)).
Proof.
  intros Ht. pose proof (post_start target changes g1 ps g2 ps2 Hstate) as Hp. rewrite (po_key _ _ _ _ _ _ _ Hp).
  destruct (get_table (tn (class_name t)) g1) as [tb|] eqn:Htb.
  - destruct (proj2 (known_class s target g1 ps Hr Hstore t Ht)) as (e & He & En); [by rewrite Htb|]. assert (shared s target e t) as Hsh by done.
    destruct (shared_read s target g1 ps Hr e t Hsh) as (tb' & Htb' & Hread & Hke). rewrite En, Htb in Htb'. injection Htb' as <-. split.
    + rewrite <- En, <- Hke. by apply (shared_key s target changes g1 ps Hr Htarget gentle_class Hstore gentle_plan).
    + left. exists e, tb. split; [done|]. split; [done|]. rewrite <- En. apply gentle_shared; [done| |done]. by rewrite En.
  - split; [by apply (new_key s target changes g1 ps Hr Htarget gentle_class Hstore gentle_plan)|]. right.
    destruct (new_final s target changes g1 ps Hr Htarget Hstore gentle_plan t [] g2 ps2 Ht Htb) as (ids & Hid & Hg); [by intros c ?%elem_of_nil|done|].
    exists ids. split; [done|]. split; [|done]. by apply (missing_class s target g1 ps Hr Hstore).
Qed.

Lemma gentle_reached g' : (∀ cls, get_table (tn cls) g1 = get_table (tn cls) g) → has_keys g' ps2 → (∀ cls, get_table (tn cls) g' = get_table (tn cls) g2) → widened_group g s target g'.
Proof.
  intros Hg1 Hk Hg'. pose proof (post_start target changes g1 ps g2 ps2 Hstate) as Hp.
  assert (∀ cls, (∀ t, t ∈ target → class_name t ≠ cls) → get_table (tn cls) g' = get_table (tn cls) g1) as Hother.
  { intros cls Hcls. rewrite Hg'. apply (other_final s target changes g1 ps gentle_plan cls [] g2 ps2 Hcls); [by intros c ?%elem_of_nil|done]. }
  split.
  - destruct (read_back ps s target Htarget Hvalid Hstore g1 g' ps2 Hr Hk) as (s' & Hs' & Hleft); [|done|].
    + intros t Ht. rewrite Hg'. destruct (gentle_target t Ht) as [Hkey [(e & tb & Hsh & Hread & Htb)|(ids & Hid & _ & Htb)]]; eexists; (split; [exact Htb|split; [|done]]).
      * by apply gentle_covers.
      * by apply in_place_covers, (new_in_place target gentle_class Hstore).
    + exists s'. split; [done|]. split; [intros c Hc; destruct (Hleft c Hc) as (e & _ & _ & p & _ & _ & _ & -> & _); by exists e, p|].
      intros Hsame. destruct (compare s' target false) as [|c l]; [done|]. exfalso. destruct (Hleft c) as (os & t & tb & p & Ht & Htb & Hread & -> & Hpe & Hn); [by left|].
      assert (in_place t tb) as Hin.
      { rewrite Hg' in Htb. destruct (gentle_target t Ht) as [_ [(e & tb0 & Hsh & Hread0 & Htb')|(ids & Hid & _ & Htb')]]; rewrite Htb in Htb'; injection Htb' as ->.
        - apply gentle_exact; [done|done|]. by apply Hsame; apply Hsh.
        - by apply (new_in_place target gentle_class Hstore). }
      destruct (in_place_named os t tb p Hin Hread Hpe) as (q & Hq & Eq). by apply (Hn q).
  - intros e t tb He Ht En Htb. assert (shared s target e t) as Hsh by done. rewrite <- Hg1 in Htb.
    destruct (shared_read s target g1 ps Hr e t Hsh) as (tb' & Htb' & Hread & _). rewrite Htb in Htb'. injection Htb' as <-.
    exists (appended_by (class_name e) changes). split; [by apply (new_properties_of g ps s target Hschema Htarget Hvalid g1)|]. rewrite Hg'. by apply gentle_shared.
  - intros t Ht Hmiss. rewrite Hg'. destruct (gentle_target t Ht) as [_ [(e & tb & (He & _ & En) & _)|(ids & Hid & _ & Htb)]]; [by destruct (Hmiss e He)|by exists ids].
  - intros cls Hcls. by rewrite Hother, Hg1.
Qed.
End final.
End pass.

(** What the changes do, and the version that is written after them *)
Definition newer (version target_version : Z) : bool := (version <? target_version) || (version =? NotVersioned).

Section outcome.
Context (g : G) (ps : keys) (s target : Schema).
Hypothesis Hids : sync_has_object_ids = false.
Hypothesis Hprepared : prepared g ps.
Hypothesis Hfresh : ∀ cls, cls ∈ ps.*1 → is_Some (get_table (tn cls) g).
Hypothesis Hschema : schema_from_group g = Some s.
Hypothesis Htarget : strict target.
Hypothesis Hvalid : valid_schema target.
Hypothesis Hstore : ∀ t, t ∈ target → storable t.
Hypothesis Hgentle : shared_classes compatible_classes s target.

Lemma gentle_outcome applier (write : bool) version : (∀ c g, c ∈ compare s target false → applier c g = pre_migration_applier c g) → 0 <= version < W64 →
  ∃ g1 g2 g', create_metadata_tables g = Some g1 ∧ foldM applier (compare s target false) g1 = Some g2 ∧
    (if write then set_schema_version version g2 else Some g2) = Some g' ∧ widened_group g s target g' ∧
    get_schema_version g' = if write then Some version else get_schema_version g.
Proof.
  intros Happ Hv. destruct (metadata_created g ps s Hprepared Hschema) as (g1 & E1 & Hr & Hm & Hk & Hver & Hg1).
  destruct (gentle_pass g ps s target Hids Hfresh Hschema Htarget Hvalid Hstore Hgentle g1 Hr Hk Hg1) as (g2 & ps2 & E2 & Hs2).
  exists g1, g2. pose proof (sta_keys _ _ _ _ _ _ Hs2) as Hk2.
  assert (get_table c_metadataTableName g2 = get_table c_metadataTableName g1) as Em by (apply (sta_other _ _ _ _ _ _ Hs2); [done|intros cls; apply no_class; by right]).
  assert (∀ g', has_keys g' ps2 → (∀ cls, get_table (tn cls) g' = get_table (tn cls) g2) → widened_group g s target g') as Hreach.
  { intros g'. by apply (gentle_reached g ps s target Hschema Htarget Hvalid Hstore Hgentle g1 g2 ps2). }
  assert (foldM applier (compare s target false) g1 = Some g2) as Ef by (rewrite <- E2; apply foldM_same; intros c g'' Hc; by apply Happ).
  destruct write.
  - destruct (set_schema_version_spec g2 ps2 version Hk2) as (g' & E' & Hver' & Hk' & Hg'); [by eapply has_meta_frame|done|]. exists g'. repeat (split; [done|]). split; [by apply Hreach|done].
  - exists g2. repeat (split; [done|]). split; [by apply Hreach|]. by rewrite (version_frame g1 g2), Hver.
Qed.
End outcome.

(** C2: in additive mode a group takes every valid schema that can be stored and that agrees with it on the columns and the primary
    keys they share.  No column is lost, moved or converted: each keeps its values, the ones of the target get the index that is asked for and
    the new ones follow.  Classes that are not in the target stay as they were.  What is read back differs from the target only in the
    columns that the target does not have.  The version is written exactly when it is newer than the one that is stored, so it never goes down;
    the indexes are set whatever the versions are, although the header of [SchemaMode] asks for a newer one.  Assumed: the core gives objects
    no ids, and [std::partition] leaves a prefix in place. *)
Theorem additive_correct initialize_schema link version target_version migration g ps s target :
  sync_has_object_ids = false → prepared g ps → (∀ cls, cls ∈ ps.*1 → is_Some (get_table (tn cls) g)) →
  schema_from_group g = Some s → strict target → valid_schema target → (∀ t, t ∈ target → storable t) →
  shared_classes compatible_classes s target → 0 <= target_version < W64 →
  ∃ g', apply_schema_changes initialize_schema link version target_version Additive (compare s target false) None migration target g =
      Ok (g', set_schema_columns g' target) ∧
    widened_group g s target g' ∧ get_schema_version g' = if newer version target_version then Some target_version else get_schema_version g.
Proof.
  intros Hids Hprep Hfresh Hs Ht Hv Hst Hg Hrange.
  destruct (gentle_outcome g ps s target Hids Hprep Hfresh Hs Ht Hv Hst Hg (additive_applier true) (newer version target_version) target_version) as (g1 & g2 & g' & E1 & E2 & E3 & Hw & Hver);
    [intros c g0; by apply (gentle_additive g s target)|done|]. exists g'. split; [|done]. unfold apply_schema_changes. rewrite E1. cbn [lift mbind result_bind]. rewrite decide_True by done.
  unfold apply_additive_changes. rewrite E2. cbn [lift mbind result_bind]. fold (newer version target_version). rewrite E3. done.
Qed.

(** C3: when the columns of the target are those of the group, a file that is created and one that is opened with the version it has
    take the target without any migration: only classes are added and indexes are set, and what is read back is the target.  In manual
    mode this holds for a file that is created only: with its own version the file is checked after the migration function, and an added
    class is an error.  Assumed: the core gives objects no ids, and [std::partition] leaves a prefix in place. *)
Theorem unmigrated_correct initialize_schema link version target_version mode migration g ps s target :
  sync_has_object_ids = false → prepared g ps → (∀ cls, cls ∈ ps.*1 → is_Some (get_table (tn cls) g)) →
  schema_from_group g = Some s → strict target → valid_schema target → (∀ t, t ∈ target → storable t) →
  shared_classes same_columns s target → mode ≠ Additive → version = NotVersioned ∨ mode ≠ Manual ∧ version = target_version → 0 <= target_version < W64 →
  ∃ g', apply_schema_changes initialize_schema link version target_version mode (compare s target false) None migration target g =
      Ok (g', set_schema_columns g' target) ∧
    widened_group g s target g' ∧ (∃ s', schema_from_group g' = Some s' ∧ compare s' target false = []) ∧
    get_schema_version g' = if version =? NotVersioned then Some target_version else get_schema_version g.
Proof.
  intros Hids Hprep Hfresh Hs Ht Hv Hst Hsame Hmode Hver Hrange.
  assert (shared_classes compatible_classes s target) as Hg by (intros e t He Htt En; by apply sc_compatible, Hsame).
  assert (∀ c, c ∈ compare s target false → needs_migration_change c = false) as Hno.
  { intros c Hc%(pl_exact _ _ _ (gentle_plan g s target Hs Ht Hv)). destruct Hc as [t' _ _|t' _ _|? ?|e t' c He Htt En Hcc]; [done..|]. by apply (proj1 (same_columns_iff e t') (Hsame e t' He Htt En)). }
  destruct (gentle_outcome g ps s target Hids Hprep Hfresh Hs Ht Hv Hst Hg (if version =? NotVersioned then initial_applier else non_migration_applier) (version =? NotVersioned) target_version)
    as (g1 & g2 & g' & E1 & E2 & E3 & Hw & Hver'); [|done|].
  { intros c g0 Hc. specialize (Hno c Hc). destruct (version =? NotVersioned); by destruct c. }
  exists g'. split; [|split; [done|split; [|done]]].
  - unfold apply_schema_changes. rewrite E1. cbn [lift mbind result_bind]. rewrite decide_False by done. destruct (Z.eqb_spec version NotVersioned) as [->|Hne].
    + unfold create_initial_tables. rewrite E2. cbn [lift mbind result_bind]. by rewrite E3.
    + destruct Hver as [?|[Hm ->]]; [done|]. rewrite decide_False, Z.eqb_refl by done. unfold apply_non_migration_changes. rewrite E2. cbn [lift mbind result_bind].
      assert (verify_no_migration_required (compare s target false) = Ok tt) as -> by (apply verify_ok; intros c Hc; specialize (Hno c Hc); by destruct c).
      injection E3 as ->. done.
  - destruct (wg_schema _ _ _ _ Hw) as (s' & Hs' & _ & He). exists s'. split; [done|]. by apply He.
Qed.
End modes.

(** ** Examples *)
Module Gentle_.
Import Lists Example_.
Open Scope string_scope.
Open Scope list_scope.
Open Scope Z_scope.

(** The column of ages is not asked for, and an email is new. *)
Definition person_kept : ObjectSchema :=
  MkObjectSchema "Person" [MkProperty "id" "" PT_Int "" "" true false npos; MkProperty "nick" "" PT_String "" "" false true npos; MkProperty "email" "" PT_String "" "" false true npos] [] "id".
Definition kept_classes : Schema := [dog_wanted; person_kept].
(** The columns are the same, and one is to be indexed. *)
Definition person_same : ObjectSchema :=
  MkObjectSchema "Person" [MkProperty "age" "" PT_Int "" "" false true npos; MkProperty "id" "" PT_Int "" "" true false npos; MkProperty "nick" "" PT_String "" "" false false npos] [] "id".
Definition same_classes : Schema := [dog_wanted; person_same].

Example additive_person :
  outcome_tables (apply_schema_changes Some VRow 3 2 Additive (compare [person_now] kept_classes false) None None kept_classes stored_group) =
  Some [MkTable "class_Dog" [MkColumn (Desc type_String "name" false "" []) true []; MkColumn (Desc type_Link "owner" false "class_Person" []) false []] 0;
        MkTable "metadata" [plain "version" type_Int false [VInt 1]] 1;
        MkTable "pk" [plain "pk_table" type_String true [VString "Person"; VString "Dog"]; plain "pk_property" type_String false [VString "id"; VString "name"]] 2;
        MkTable "class_Person" [plain "id" type_Int true [VInt 1; VInt 2]; plain "nick" type_String true [VString "a"; VString "b"]; plain "age" type_Int false [VInt 30; VInt 40];
          plain "email" type_String true [VString ""; VString ""]] 2].
Proof. by vm_compute. Qed.

Lemma kept_valid : valid_schema kept_classes.
Proof. split; [apply (bool_decide_unpack _); by vm_compute|]. intros os [->|[->|[]%elem_of_nil]%elem_of_cons]%elem_of_cons; valid_tac person_kept. Qed.
Lemma kept_storable t : t ∈ kept_classes → storable t.
Proof. intros [->|[->|[]%elem_of_nil]%elem_of_cons]%elem_of_cons; storable_tac. Qed.
Lemma same_valid : valid_schema same_classes.
Proof. split; [apply (bool_decide_unpack _); by vm_compute|]. intros os [->|[->|[]%elem_of_nil]%elem_of_cons]%elem_of_cons; valid_tac person_same. Qed.
Lemma same_storable t : t ∈ same_classes → storable t.
Proof. intros [->|[->|[]%elem_of_nil]%elem_of_cons]%elem_of_cons; storable_tac. Qed.

Lemma person_agrees (v : SchemaChange → Prop) R target : strict target → valid_schema target → (∀ e t, R e t ↔ ∀ c, class_change e t c → v c) →
  (∀ o, v (AddTable o)) → (∀ o, v (AddInitialProperties o)) → (∀ o, v (RemoveTable o)) → Forall v (compare [person_now] target false) → shared_classes R [person_now] target.
Proof.
  intros Ht [_ Hv] HR H1 H2 H3 Hall. apply (required_classes v R [person_now] target false); try done. intros c Hc. rewrite Forall_forall in Hall. apply Hall.
  apply compare_in; [vm_compute; strict_tac|done| |done]. intros t Ht'. by apply (valid_names target), Hv.
Qed.
Lemma kept_strict : strict kept_classes.
Proof. vm_compute. strict_tac. Qed.
Lemma same_strict : strict same_classes.
Proof. vm_compute. strict_tac. Qed.
Lemma kept_compatible : shared_classes compatible_classes [person_now] kept_classes.
Proof. apply (person_agrees (λ c, additive_verifier c = None)); [apply kept_strict|apply kept_valid|apply compatible_iff|done..|]. vm_compute. repeat constructor. Qed.
Lemma same_agrees : shared_classes same_columns [person_now] same_classes.
Proof. apply (person_agrees (λ c, needs_migration_change c = false)); [apply same_strict|apply same_valid|apply same_columns_iff|done..|]. vm_compute. repeat constructor. Qed.
Lemma stored_keys cls : cls ∈ [("Person", "id")].*1 → is_Some (get_table (tn cls) stored_group).
Proof. intros [->|[]%elem_of_nil]%elem_of_cons. by eexists. Qed.

Lemma additive_witness :
  ∃ g', apply_schema_changes Some VRow 3 2 Additive (compare [person_now] kept_classes false) None None kept_classes stored_group = Ok (g', set_schema_columns g' kept_classes) ∧
    widened_group stored_group [person_now] kept_classes g' ∧ get_schema_version g' = Some 1.
Proof.
  destruct (additive_correct Some VRow 3 2 None stored_group [("Person", "id")] [person_now] kept_classes) as (g' & E & Hw & Hver).
  - done.
  - apply stored_prepared.
  - apply stored_keys.
  - by vm_compute.
  - apply kept_strict.
  - apply kept_valid.
  - apply kept_storable.
  - apply kept_compatible.
  - done.
  - exists g'. split; [exact E|]. split; [done|]. rewrite Hver. by vm_compute.
Defined.

Lemma unmigrated_witness :
  ∃ g', apply_schema_changes Some VRow 1 1 Automatic (compare [person_now] same_classes false) None None same_classes stored_group = Ok (g', set_schema_columns g' same_classes) ∧
    widened_group stored_group [person_now] same_classes g' ∧ (∃ s', schema_from_group g' = Some s' ∧ compare s' same_classes false = []) ∧ get_schema_version g' = Some 1.
Proof.
  destruct (unmigrated_correct Some VRow 1 1 Automatic None stored_group [("Person", "id")] [person_now] same_classes) as (g' & E & Hw & Hs & Hver).
  - done.
  - apply stored_prepared.
  - apply stored_keys.
  - by vm_compute.
  - apply same_strict.
  - apply same_valid.
  - apply same_storable.
  - apply same_agrees.
  - done.
  - by right.
  - done.
  - exists g'. split; [exact E|]. split; [done|]. split; [done|]. rewrite Hver. by vm_compute.
Defined.
End Gentle_.
