(* ===== verification/SyncFile.v ===== *)
(** * The files of synchronized Realms (sync/impl/sync_file.cpp)

    The names under which the Realms of a user are stored: percent-encoding, the construction of paths, and the operations of
    [SyncFileManager] on the directories.  The file system is a state with the functions of core/realm/util/file.hpp, which are compiled. *)

From Stdlib Require Import String Ascii.
From stdpp Require Import strings.
From S2P Require Import Prelude.
Open Scope string_scope.
Open Scope Z_scope.

(** [std::invalid_argument]; [File::NotFound], which is derived from [File::AccessError]; any other access error *)
Inductive file_error := InvalidArgument (message : string) | NotFound | AccessError.
#[export] Instance file_error_eq_dec : EqDecision file_error.
Proof. solve_decision. Defined.

Module Files.
(** ** Percent-encoding *)
Definition code (c : ascii) : Z := Z.of_nat (nat_of_ascii c).
Definition char (z : Z) : ascii := ascii_of_nat (Z.to_nat z).
Definition between (a c b : ascii) : bool := (code a <=? code c) && (code c <=? code b).

Definition value_of_hex_digit (c : ascii) : result file_error Z :=
  if between "0" c "9" then Ok (code c - code "0")
  else if between "A" c "F" then Ok (10 + code c - code "A")
  else if between "a" c "f" then Ok (10 + code c - code "a")
  else Raise (InvalidArgument "Cannot get the value of a character that isn't a hex digit.").

Definition filename_is_reserved (filename : string) : bool := bool_decide (filename = ".") || bool_decide (filename = "..").

Definition character_is_unreserved (c : ascii) : bool :=
  between "A" c "Z" || between "a" c "z" || between "0" c "9" || (bool_decide (c = "-"%char) || bool_decide (c = "_"%char) || bool_decide (c = "."%char)).

(** The two characters after a percent sign *)
Definition decoded_char_for (a b : ascii) : result file_error ascii :=
  x ← value_of_hex_digit a; y ← value_of_hex_digit b; Ok (char (16 * x + y)).

(** [sprintf] with [%2X]: two places, filled with spaces *)
Definition hex_digit (n : Z) : ascii := char (if n <? 10 then code "0" + n else code "A" + (n - 10)).
Definition format_2X (n : Z) : string :=
  if n <? 16 then String " " (String (hex_digit n) "") else String (hex_digit (n / 16)) (String (hex_digit (n mod 16)) "").

Definition encoded_char (c : ascii) : string := if character_is_unreserved c then String c "" else String "%" (format_2X (code c)).
Fixpoint make_percent_encoded_string (raw_string : string) : string :=
  match raw_string with "" => "" | String c s => encoded_char c ++ make_percent_encoded_string s end.

Fixpoint make_raw_string (s : string) : result file_error string :=
  match s with
  | "" => Ok ""
  | String current rest =>
      if bool_decide (current = "%"%char) then
        match rest with
        | String a (String b rest) => c ← decoded_char_for a b; buffer ← make_raw_string rest; Ok (String c buffer)
        | _ => Raise (InvalidArgument "Malformed string: not enough characters after '%' before end of string.")
        end
      else if character_is_unreserved current then buffer ← make_raw_string rest; Ok (String current buffer)
      else Raise (InvalidArgument "Input string is invalid: contains reserved characters.")
  end.

(** ** Paths *)
Inductive FilePathType := File | Directory.

(** [s[s.length() - 1]], out of bounds for an empty string, and [s[0]], which is then the terminator *)
Definition last_char (s : string) : option ascii := String.get (String.length s - 1) s.
Definition first_char (s : string) : ascii := match s with String c _ => c | "" => zero end.
Definition substr_1 (s : string) : string := match s with String _ s => s | "" => "" end.

Definition file_path_by_appending_component (path component : string) (path_type : FilePathType) : option string :=
  terminal ← (match path_type with
              | Directory => l ← last_char component; Some (if bool_decide (l = "/"%char) then "" else "/")
              | File => Some ""
              end);
  path_last ← last_char path;
  let p := bool_decide (path_last = "/"%char) in let c := bool_decide (first_char component = "/"%char) in
  Some (path ++ (if p && c then substr_1 component ++ terminal else if p || c then component ++ terminal else "/" ++ component ++ terminal)).

Definition file_path_by_appending_extension (path extension : string) : option string :=
  path_last ← last_char path;
  let p := bool_decide (path_last = "."%char) in let e := bool_decide (first_char extension = "."%char) in
  Some (path ++ (if p && e then substr_1 extension else if p || e then extension else "." ++ extension)).

(** [create_timestamped_template], for a formatted time *)
Fixpoint repeated (n : nat) (c : ascii) : string := match n with O => "" | S n => String c (repeated n c) end.
Definition create_timestamped_template (formatted_time prefix : string) (wildcard_count : Z) : string :=
  let wildcard_count := Z.min 20 (Z.max 6 wildcard_count) in
  prefix ++ "-" ++ formatted_time ++ "-" ++ repeated (Z.to_nat wildcard_count) "X".

(** ** [SyncFileManager] *)
Class FileSystem (F : Type) := {
  try_make_dir : string → F → result file_error unit * F;
  try_remove_dir_recursive : string → F → result file_error unit * F;
  file_try_remove : string → F → result file_error bool * F;
  file_move : string → string → F → result file_error unit * F;
  file_copy : string → string → F → result file_error unit * F;
  file_exists : string → F → bool }.

Definition io (F A : Type) : Type := F → result file_error A * F.
#[export] Instance io_ret F : MRet (io F) := λ A a f, (Ok a, f).
#[export] Instance io_bind F : MBind (io F) := λ A B k m f,
  match m f with (Ok a, f) => k a f | (Raise e, f) => (Raise e, f) | (Stuck, f) => (Stuck, f) end.
Definition of_option {F A} (m : option A) : io F A := λ f, (lift m, f).
Definition throw {F A} (e : file_error) : io F A := λ f, (Raise e, f).
Definition assert {F} (b : bool) : io F unit := of_option (check b).
Definition ask {F A} (q : F → A) : io F A := λ f, (Ok (q f), f).
(** [catch] *)
Definition handle {F A} (m : io F A) (h : file_error → option A) : io F A :=
  λ f, match m f with (Raise e, f) => (match h e with Some a => Ok a | None => Raise e end, f) | r => r end.
Definition is_access_error (e : file_error) : bool := match e with InvalidArgument _ => false | _ => true end.

Definition c_sync_directory : string := "realm-object-server".
Definition c_utility_directory : string := "io.realm.object-server-utility".
Definition c_recovery_directory : string := "io.realm.object-server-recovered-realms".
Definition c_metadata_directory : string := "metadata".
Definition c_metadata_realm : string := "sync_metadata.realm".

Section manager.
Context {F : Type} {FS : FileSystem F} (m_base_path : string).
Implicit Types (local_identity raw_realm_path absolute_path : string).

Definition get_base_sync_directory : io F string :=
  sync_path ← of_option (file_path_by_appending_component m_base_path c_sync_directory Directory);
  _ ← try_make_dir sync_path; mret sync_path.
Definition get_special_directory (directory_name : string) : io F string :=
  base ← get_base_sync_directory;
  dir_path ← of_option (file_path_by_appending_component base directory_name Directory);
  _ ← try_make_dir dir_path; mret dir_path.
Definition get_utility_directory : io F string := get_special_directory c_utility_directory.
Definition recovery_directory_path (directory : option string) : io F string := get_special_directory (default c_recovery_directory directory).

Definition user_directory local_identity : io F string :=
  _ ← assert (negb (bool_decide (local_identity = "")));
  let escaped := make_percent_encoded_string local_identity in
  if filename_is_reserved escaped then throw (InvalidArgument "A user can't have an identifier reserved by the filesystem.") else
  base ← get_base_sync_directory;
  user_path ← of_option (file_path_by_appending_component base escaped Directory);
  _ ← try_make_dir user_path; mret user_path.

Definition remove_user_directory local_identity : io F unit :=
  _ ← assert (negb (bool_decide (local_identity = "")));
  let escaped := make_percent_encoded_string local_identity in
  if filename_is_reserved escaped then throw (InvalidArgument "A user can't have an identifier reserved by the filesystem.") else
  base ← get_base_sync_directory;
  user_path ← of_option (file_path_by_appending_component base escaped Directory);
  try_remove_dir_recursive user_path.

Definition try_rename_user_directory (old_name new_name : string) : io F bool :=
  _ ← assert (negb (bool_decide (old_name = "")) && negb (bool_decide (new_name = "")));
  let old_name_escaped := make_percent_encoded_string old_name in
  let new_name_escaped := make_percent_encoded_string new_name in
  base ← get_base_sync_directory;
  if filename_is_reserved old_name_escaped || filename_is_reserved new_name_escaped
  then throw (InvalidArgument "A user directory can't be renamed using a reserved identifier.") else
  old_path ← of_option (file_path_by_appending_component base old_name_escaped Directory);
  new_path ← of_option (file_path_by_appending_component base new_name_escaped Directory);
  handle (_ ← (file_move old_path new_path : io F unit); mret true) (λ e, if decide (e = NotFound) then Some false else None).

(** [remove_realm] of a path: the first assignment to [success] is overwritten. *)
Definition remove_realm_at absolute_path : io F bool :=
  _ ← assert (negb (bool_decide (absolute_path = "")));
  _ ← file_try_remove absolute_path;
  lock_path ← of_option (file_path_by_appending_extension absolute_path "lock");
  success ← file_try_remove lock_path;
  management_path ← of_option (file_path_by_appending_extension absolute_path "management");
  handle (_ ← (try_remove_dir_recursive management_path : io F unit); mret success) (λ e, if is_access_error e then Some false else None).

Definition copy_realm_file (old_path new_path : string) : io F bool :=
  _ ← assert (negb (bool_decide (old_path = "")));
  handle (exists_already ← (ask (file_exists new_path) : io F bool); if (exists_already : bool) then mret false else (_ ← (file_copy old_path new_path : io F unit); mret true))
    (λ e, if is_access_error e then Some false else None).

(** The path of the Realm of a user; [path] and [remove_realm] of a user share their first lines. *)
Definition path local_identity raw_realm_path : io F string :=
  _ ← assert (negb (bool_decide (local_identity = "")));
  _ ← assert (negb (bool_decide (raw_realm_path = "")));
  if filename_is_reserved local_identity || filename_is_reserved raw_realm_path
  then throw (InvalidArgument "A user or Realm can't have an identifier reserved by the filesystem.") else
  let escaped := make_percent_encoded_string raw_realm_path in
  user ← user_directory local_identity;
  of_option (file_path_by_appending_component user escaped File).
Definition remove_realm local_identity raw_realm_path : io F bool := realm_path ← path local_identity raw_realm_path; remove_realm_at realm_path.

Definition metadata_path : io F string :=
  utility ← get_utility_directory;
  dir_path ← of_option (file_path_by_appending_component utility c_metadata_directory Directory);
  _ ← try_make_dir dir_path;
  of_option (file_path_by_appending_component dir_path c_metadata_realm File).
Definition remove_metadata_realm : io F bool :=
  utility ← get_utility_directory;
  dir_path ← of_option (file_path_by_appending_component utility c_metadata_directory Directory);
  handle (_ ← (try_remove_dir_recursive dir_path : io F unit); mret true) (λ e, if is_access_error e then Some false else None).
End manager.
End Files.
Import Files.

(** ** Properties of the encoding *)
Ltac each_char c := destruct c as [[] [] [] [] [] [] [] []].

Fixpoint over (p : ascii → bool) (s : string) : bool := match s with "" => true | String c s => p c && over p s end.
Definition not_slash (c : ascii) : bool := negb (bool_decide (c = "/"%char)).

Lemma app_cons c (s t : string) : String c s ++ t = String c (s ++ t).
Proof. done. Qed.
Lemma over_app p s t : over p (s ++ t) = over p s && over p t.
Proof. induction s as [|c s IH]; [done|]. rewrite app_cons. cbn [over]. by rewrite IH, andb_assoc. Qed.

(** What a decoder has to do after one encoded character *)
Lemma decode_encoded c s : make_raw_string (encoded_char c ++ s) =
  if 16 <=? code c then (buffer ← make_raw_string s; Ok (String c buffer)) else Raise (InvalidArgument "Cannot get the value of a character that isn't a hex digit.").
Proof. each_char c; reflexivity. Qed.

Lemma encoded_char_cases c : (encoded_char c = String c "" ∧ character_is_unreserved c = true) ∨ ∃ a b, encoded_char c = String "%" (String a (String b "")).
Proof. unfold encoded_char, format_2X. destruct (character_is_unreserved c); [by left|]. right. destruct (code c <? 16); by do 2 eexists. Qed.

(** A decoder that takes a space for a zero: the encoding loses nothing. *)
Definition lenient_digit (c : ascii) : Z := match value_of_hex_digit c with Ok z => z | _ => 0 end.
Fixpoint lenient (s : string) : string :=
  match s with
  | String "%" (String a (String b s)) => String (char (16 * lenient_digit a + lenient_digit b)) (lenient s)
  | String c s => String c (lenient s)
  | "" => ""
  end.
Lemma lenient_encoded c s : lenient (encoded_char c ++ s) = String c (lenient s).
Proof. each_char c; reflexivity. Qed.
Lemma lenient_encode s : lenient (make_percent_encoded_string s) = s.
Proof. induction s as [|c s IH]; [done|]. cbn [make_percent_encoded_string]. by rewrite lenient_encoded, IH. Qed.
#[export] Instance encode_inj : Inj (=) (=) make_percent_encoded_string.
Proof. intros s t E. by rewrite <- (lenient_encode s), <- (lenient_encode t), E. Qed.

Lemma encoded_no_slash s : over not_slash (make_percent_encoded_string s) = true.
Proof.
  induction s as [|c s IH]; [done|]. cbn [make_percent_encoded_string]. rewrite over_app, IH, andb_true_r. clear. by each_char c.
Qed.

(** A name that stays in its directory *)
Definition plain_name (n : string) : Prop := n ≠ "" ∧ filename_is_reserved n = false ∧ over not_slash n = true.

Lemma reserved_iff n : filename_is_reserved n = true ↔ n = "." ∨ n = "..".
Proof. unfold filename_is_reserved. by rewrite orb_true_iff, !bool_decide_eq_true. Qed.
Lemma reserved_encoded s : filename_is_reserved (make_percent_encoded_string s) = filename_is_reserved s.
Proof.
  assert (∀ t, make_percent_encoded_string t = t → make_percent_encoded_string s = t ↔ s = t) as H by (intros t Ht; split; [intros E; apply (inj make_percent_encoded_string); by rewrite Ht|by intros ->]).
  unfold filename_is_reserved. by rewrite !(bool_decide_ext _ _ (H _ eq_refl)).
Qed.
Lemma encoded_plain s : s ≠ "" → filename_is_reserved s = false → plain_name (make_percent_encoded_string s).
Proof.
  intros Hs Hr. split; [|split; [by rewrite reserved_encoded|apply encoded_no_slash]]. intros E. apply Hs, (inj make_percent_encoded_string). by rewrite E.
Qed.

(** ** Properties of paths *)
Lemma length_app_string s t : String.length (s ++ t) = (String.length s + String.length t)%nat.
Proof. induction s as [|c s IH]; [done|]. rewrite !app_cons. cbn [String.length Nat.add]. by rewrite IH. Qed.
Lemma string_app_assoc (s t u : string) : (s ++ t) ++ u = s ++ (t ++ u).
Proof. induction s as [|c s IH]; [done|]. rewrite !app_cons. cbn [String.length Nat.add]. by rewrite IH. Qed.
Lemma string_app_nil_r (s : string) : s ++ "" = s.
Proof. induction s as [|c s IH]; [done|]. rewrite !app_cons. cbn [String.length Nat.add]. by rewrite IH. Qed.
Lemma string_app_inj (s t u : string) : s ++ t = s ++ u → t = u.
Proof. induction s as [|c s IH]; [done|]. rewrite !app_cons. intros [= E]. by apply IH. Qed.

Lemma last_char_some s : s ≠ "" → is_Some (last_char s).
Proof.
  intros Hs. unfold last_char. assert (∀ n t, (n < String.length t)%nat → is_Some (String.get n t)) as H.
  { intros n t. revert n. induction t as [|c t IH]; intros [|n] Hn; cbn in *; try lia; [by eexists|]. apply IH. lia. }
  apply H. destruct s as [|c s]; [done|]. cbn. lia.
Qed.
Lemma last_char_snoc s c : last_char (s ++ String c "") = Some c.
Proof.
  unfold last_char. rewrite length_app_string. cbn. replace (String.length s + 1 - 1)%nat with (String.length s) by lia. by induction s.
Qed.

Lemma slash_split a b x y : over not_slash a = true → over not_slash b = true → a ++ String "/" x = b ++ String "/" y → a = b ∧ x = y.
Proof.
  revert b. induction a as [|c a IH]; intros [|d b] Ha Hb; cbn in *.
  - by intros [= ->].
  - intros [= <- _]. by apply andb_true_iff in Hb as [? _].
  - intros [= -> _]. by apply andb_true_iff in Ha as [? _].
  - intros [= -> E]. apply andb_true_iff in Ha as [_ Ha], Hb as [_ Hb]. destruct (IH b Ha Hb E) as [-> ->]. done.
Qed.

(** Appending a plain name to a directory *)
Definition dir_of (path : string) : string := match last_char path with Some "/"%char => path | _ => path ++ "/" end.

Lemma first_char_plain n : over not_slash n = true → bool_decide (first_char n = "/"%char) = false.
Proof. destruct n as [|c n]; [done|]. cbn. intros [H _]%andb_true_iff. unfold not_slash in H. by apply negb_true_iff in H. Qed.
Lemma last_char_plain n c : over not_slash n = true → last_char n = Some c → bool_decide (c = "/"%char) = false.
Proof.
  intros Hn Hc. unfold last_char in Hc. revert Hc. generalize (String.length n - 1)%nat as k. induction n as [|d n IH]; intros k Hk; [by destruct k|].
  cbn in Hn. apply andb_true_iff in Hn as [Hd Hn]. destruct k as [|k]; cbn in Hk; [|by apply (IH Hn k)]. injection Hk as ->. by apply negb_true_iff in Hd.
Qed.

Lemma append_plain path n ty : path ≠ "" → plain_name n →
  file_path_by_appending_component path n ty = Some (dir_of path ++ n ++ match ty with Directory => "/" | File => "" end).
Proof.
  intros Hp (Hn & _ & Hs). unfold file_path_by_appending_component, dir_of. destruct (last_char_some path Hp) as [l Hl]. rewrite Hl.
  assert (∀ t : string, Some (path ++ (if bool_decide (l = "/"%char) && bool_decide (first_char n = "/"%char) then substr_1 n ++ t
     else if bool_decide (l = "/"%char) || bool_decide (first_char n = "/"%char) then n ++ t else "/" ++ n ++ t)) = Some (match l with "/"%char => path | _ => path ++ "/" end ++ n ++ t)) as Hmain.
  { intros t. rewrite first_char_plain by done. rewrite andb_false_r, orb_false_r. f_equal. case_bool_decide as E; [by subst|].
    transitivity ((path ++ "/") ++ n ++ t); [by rewrite string_app_assoc|]. f_equal. revert E. clear. by each_char l. }
  destruct ty; cbn [mbind option_bind]; [apply Hmain|]. destruct (last_char_some n Hn) as [c Hc]. rewrite Hc. cbn [mbind option_bind]. rewrite (last_char_plain n c Hs Hc). apply Hmain.
Qed.
Lemma dir_of_dir s : dir_of (s ++ "/") = s ++ "/".
Proof. unfold dir_of. by rewrite last_char_snoc. Qed.

(** Decoding an encoded string gives the string back exactly when it has no character below 16: such a character is padded with a
    space instead of a zero, and is then refused.  No two strings have the same encoding, and none contains a slash. *)
Theorem percent_round_trip s :
  make_raw_string (make_percent_encoded_string s) =
    (if over (λ c, 16 <=? code c) s then Ok s else Raise (InvalidArgument "Cannot get the value of a character that isn't a hex digit.")) ∧
  (∀ t, make_percent_encoded_string s = make_percent_encoded_string t → s = t) ∧
  over not_slash (make_percent_encoded_string s) = true.
Proof.
  split; [|split; [by intros t ?%(inj _)|apply encoded_no_slash]]. induction s as [|c s IH]; [done|]. cbn [make_percent_encoded_string over].
  rewrite decode_encoded, IH. destruct (16 <=? code c); [|done]. cbn [andb]. by destruct (over _ s).
Qed.

(** ** The files of users *)
Section users.
Context {F : Type} {FS : FileSystem F} (base : string).
Hypothesis Hbase : base ≠ "".

(** Where the Realms of all users are, the directory of a user, and a Realm in it *)
Definition sync_directory : string := dir_of base ++ c_sync_directory ++ "/".
Definition directory_of (local_identity : string) : string := sync_directory ++ make_percent_encoded_string local_identity ++ "/".
Definition realm_file (local_identity raw_realm_path : string) : string := directory_of local_identity ++ make_percent_encoded_string raw_realm_path.

Lemma sync_directory_not_empty : sync_directory ≠ "".
Proof. intros E. apply (f_equal String.length) in E. unfold sync_directory in E. rewrite !length_app_string in E. cbn in E. lia. Qed.
Lemma dir_of_sync_directory : dir_of sync_directory = sync_directory.
Proof. unfold sync_directory. rewrite <- string_app_assoc. apply dir_of_dir. Qed.
Lemma base_directory (f : F) : get_base_sync_directory base f = match try_make_dir sync_directory f with (Ok _, f) => (Ok sync_directory, f) | (Raise e, f) => (Raise e, f) | (Stuck, f) => (Stuck, f) end.
Proof.
  unfold get_base_sync_directory, of_option. rewrite append_plain; [done|done|]. by repeat split.
Qed.

Lemma user_directory_eq u (f : F) : u ≠ "" → filename_is_reserved u = false → user_directory base u f =
  match try_make_dir sync_directory f with
  | (Ok _, f) => match try_make_dir (directory_of u) f with (Ok _, f) => (Ok (directory_of u), f) | (Raise e, f) => (Raise e, f) | (Stuck, f) => (Stuck, f) end
  | (Raise e, f) => (Raise e, f) | (Stuck, f) => (Stuck, f)
  end.
Proof.
  intros Hu Hr. unfold user_directory, assert, of_option. rewrite bool_decide_false by done. rewrite reserved_encoded, Hr. cbn [negb check lift].
  unfold mbind at 1, io_bind. unfold mbind at 1. rewrite base_directory. destruct (try_make_dir sync_directory f) as [[[]|e|] f1]; [|done..].
  rewrite append_plain by (apply sync_directory_not_empty || by apply encoded_plain). rewrite dir_of_sync_directory. done.
Qed.

Lemma path_eq u r (f : F) : u ≠ "" → r ≠ "" → filename_is_reserved u = false → filename_is_reserved r = false → path base u r f =
  match user_directory base u f with (Ok _, f) => (Ok (realm_file u r), f) | (Raise e, f) => (Raise e, f) | (Stuck, f) => (Stuck, f) end.
Proof.
  intros Hu Hr Hu' Hr'. assert (directory_of u ≠ "") as Hd.
  { intros E. apply (f_equal String.length) in E. unfold directory_of in E. rewrite !length_app_string in E. cbn in E. lia. }
  unfold path, assert, of_option. rewrite !bool_decide_false, Hu', Hr' by done. cbn [negb check lift orb]. unfold mbind at 1 2 3, io_bind.
  rewrite user_directory_eq by done. destruct (try_make_dir sync_directory f) as [[[]|e|] f1]; [|done..]. destruct (try_make_dir (directory_of u) f1) as [[[]|e|] f2]; [|done..].
  rewrite append_plain by (done || by apply encoded_plain). unfold realm_file. unfold directory_of at 1. rewrite <- !string_app_assoc, dir_of_dir, string_app_nil_r. unfold directory_of. by rewrite !string_app_assoc.
Qed.
Lemma path_some u r (f f' : F) p : path base u r f = (Ok p, f') → u ≠ "" ∧ r ≠ "" ∧ filename_is_reserved u = false ∧ filename_is_reserved r = false.
Proof.
  unfold path, assert, of_option. unfold mbind at 1 2, io_bind. destruct (decide (u = "")) as [->|Hu]; [done|]. destruct (decide (r = "")) as [->|Hr]; [by rewrite (bool_decide_false (u = ""))|].
  rewrite !bool_decide_false by done. cbn [negb check lift]. destruct (filename_is_reserved u) eqn:E1; [done|]. by destruct (filename_is_reserved r).
Qed.
End users.

(** C35: every pair of a user and a Realm has a file of its own, two levels below the directory of the synchronized Realms: the names of the
    directory and of the file are not empty, contain no slash and are not those of the directory itself or its parent, whatever the
    identity of the user and the path on the server are; and unless one of them is empty or reserved, the path is returned. *)
Theorem realm_files_apart {F} {FS : FileSystem F} base : base ≠ "" →
  (∀ u r (f f' : F) p, path base u r f = (Ok p, f') →
     p = sync_directory base ++ make_percent_encoded_string u ++ "/" ++ make_percent_encoded_string r ∧
     plain_name (make_percent_encoded_string u) ∧ plain_name (make_percent_encoded_string r)) ∧
  (∀ u r u' r' (f f' h h' : F) p, path base u r f = (Ok p, f') → path base u' r' h = (Ok p, h') → u = u' ∧ r = r') ∧
  ((∀ d (f : F), ∃ f', try_make_dir d f = (Ok tt, f')) →
   ∀ u r (f : F), u ≠ "" → r ≠ "" → filename_is_reserved u = false → filename_is_reserved r = false → ∃ p f', path base u r f = (Ok p, f')).
Proof.
  intros Hb. assert (∀ u r (f f' : F) p, path base u r f = (Ok p, f') → p = realm_file base u r) as Hpath.
  { intros u r f f' p Hp. destruct (path_some _ _ _ _ _ _ Hp) as (H1 & H2 & H3 & H4). rewrite path_eq in Hp by done. destruct (user_directory base u f) as [[?|?|] ?]; [by injection Hp|done..]. }
  split; [|split].
  - intros u r f f' p Hp. destruct (path_some _ _ _ _ _ _ Hp) as (H1 & H2 & H3 & H4). rewrite (Hpath _ _ _ _ _ Hp). unfold realm_file, directory_of. rewrite !string_app_assoc.
    split; [done|]. split; by apply encoded_plain.
  - intros u r u' r' f f' h h' p Hp Hp'. rewrite (Hpath _ _ _ _ _ Hp) in Hp'. apply Hpath in Hp'. unfold realm_file, directory_of in Hp'. rewrite !string_app_assoc in Hp'. apply string_app_inj in Hp'.
    apply slash_split in Hp' as [E1 E2]; [|apply encoded_no_slash..]. split; by apply (inj make_percent_encoded_string).
  - intros Hmk u r f H1 H2 H3 H4. rewrite path_eq, user_directory_eq by done. destruct (Hmk (sync_directory base) f) as [f1 ->]. destruct (Hmk (directory_of base u) f1) as [f2 ->]. by do 2 eexists.
Qed.

(** ** Examples, on a file system that is a list of files and directories *)
Module Disk_.
Definition disk : Type := list string.
Definition without (p : string) : disk → disk := filter (λ q, q ≠ p).
#[export] Instance disk_system : FileSystem disk := {|
  try_make_dir p d := (Ok tt, if decide (p ∈ d) then d else p :: d);
  try_remove_dir_recursive p d := (Ok tt, filter (λ q, String.prefix p q = false) d);
  file_try_remove p d := if decide (p ∈ d) then (Ok true, without p d) else (Ok false, d);
  file_move p q d := if decide (p ∈ d) then (Ok tt, q :: without p d) else (Raise NotFound, d);
  file_copy p q d := if decide (p ∈ d) then (Ok tt, q :: d) else (Raise NotFound, d);
  file_exists p d := bool_decide (p ∈ d) |}.

Lemma realm_files_witness :
  ∃ f', path "/data" "a/b" "~/x" ([] : disk) = (Ok "/data/realm-object-server/a%2Fb/%7E%2Fx", f') ∧
    plain_name (make_percent_encoded_string "a/b").
Proof.
  destruct (realm_files_apart (F := disk) "/data" ltac:(done)) as (H1 & _ & H3).
  destruct (H3 ltac:(intros d f; by eexists) "a/b" "~/x" [] ltac:(done) ltac:(done) eq_refl eq_refl) as (p & f' & Hp). destruct (H1 _ _ _ _ _ Hp) as (-> & Hn & _).
  exists f'. split; [exact Hp|exact Hn].
Defined.

(** A control character cannot be decoded. *)
Example tab_is_lost : make_percent_encoded_string (String (ascii_of_nat 9) "") = "% 9" ∧
  make_raw_string "% 9" = Raise (InvalidArgument "Cannot get the value of a character that isn't a hex digit.").
Proof. by vm_compute. Qed.

(** The Realm file is not there, and yet its removal "fully succeeds"; it is there, and the removal fails for want of a lock file. *)
Example removal_misreported :
  fst (remove_realm_at "/r" (["/r.lock"] : disk)) = Ok true ∧ remove_realm_at "/r" (["/r"] : disk) = (Ok false, []).
Proof. by vm_compute. Qed.

(** A user can have the name of the directory in which the metadata are. *)
Example directory_shared : fst (user_directory "/data" c_utility_directory ([] : disk)) = fst (get_utility_directory "/data" ([] : disk)).
Proof. by vm_compute. Qed.
End Disk_.
