(* ===== verification/WorkQueue.v ===== *)
(** * The work queue of partial synchronization (sync/impl/work_queue.cpp)

    Functions are enqueued by any thread and run by one that is created when it is needed and ends after it had nothing to
    do for a while.  A step is what a thread does while it holds the mutex, or one function that the worker runs without it. *)

From S2P Require Import Prelude.

(** Where the worker is: before the condition of its loop, or with the functions that are left of its batch *)
Inductive worker (T : Type) := Checking | Running (batch : list T).
Arguments Checking {T}.
Arguments Running {T}.

Module WorkQueue.
Section queue.
Context {T : Type}.

(** [m_thread] is [None] when there was no thread, or its function has returned.  The functions that were enqueued and those that were run are what one can see. *)
Record work_queue := Queue {
  m_queue : list T;
  m_thread : option (worker T);
  m_stopping : bool;
  m_stopped : bool;
  enqueued : list T;
  run : list T }.
Definition initial : work_queue := Queue [] None false true [] [].

(** [create_thread]: the join is done with the mutex locked, so that it ends only when the old thread does not need it any more. *)
Definition create_thread (q : work_queue) : option work_queue :=
  REALM_ASSERT (match m_thread q with None => true | Some _ => false end);;
  Some (Queue (m_queue q) (Some Checking) (m_stopping q) false (enqueued q) (run q)).

Definition enqueue (f : T) (q : work_queue) : option work_queue :=
  let q := Queue (m_queue q ++ [f]) (m_thread q) (m_stopping q) (m_stopped q) (enqueued q ++ [f]) (run q) in
  if m_stopped q then create_thread q else Some q.

(** The destructor, up to its join *)
Definition stop (q : work_queue) : work_queue := Queue (m_queue q) (m_thread q) true (m_stopped q) (enqueued q) (run q).

(** The thread ends. *)
Definition exit (q : work_queue) : work_queue := Queue (m_queue q) None (m_stopping q) true (enqueued q) (run q).

(** The worker's next step; [timed_out] says whether a wait that cannot be satisfied is given up. *)
Definition work (timed_out : bool) (q : work_queue) : option work_queue :=
  match m_thread q with
  | None => None
  | Some Checking =>
      if m_stopping q then Some (exit q)
      else match m_queue q with
           | [] => if timed_out then Some (exit q) else None
           | batch => Some (Queue [] (Some (Running batch)) (m_stopping q) (m_stopped q) (enqueued q) (run q))
           end
  | Some (Running (f :: batch)) => Some (Queue (m_queue q) (Some (Running batch)) (m_stopping q) (m_stopped q) (enqueued q) (run q ++ [f]))
  | Some (Running []) => Some (Queue (m_queue q) (Some Checking) (m_stopping q) (m_stopped q) (enqueued q) (run q))
  end.

(** ** What can happen *)
Inductive event := Enqueue (f : T) | Work (timed_out : bool) | Stop | Other.
Definition step (e : event) (q : work_queue) : option work_queue :=
  match e with Enqueue f => enqueue f q | Work b => work b q | Stop => Some (stop q) | Other => Some q end.

Definition batch_of (q : work_queue) : list T := match m_thread q with Some (Running batch) => batch | _ => [] end.

Record sound (q : work_queue) : Prop := {
  so_alive : m_stopped q = false ↔ is_Some (m_thread q);
  so_order : enqueued q = run q ++ batch_of q ++ m_queue q;
  so_served : m_stopping q = false → m_queue q ≠ [] → is_Some (m_thread q) }.

Lemma initial_sound : sound initial.
Proof. split; [split; [done|by intros [? ?]]|done|done]. Qed.
Lemma enqueue_sound f q : sound q → ∃ q', enqueue f q = Some q' ∧ sound q'.
Proof.
  intros [Ha Ho Hs]. unfold enqueue. cbn [m_stopped]. destruct (m_stopped q) eqn:E.
  - assert (m_thread q = None) as Ht by (destruct (m_thread q) eqn:Et; [|done]; by discriminate (proj2 Ha (mk_is_Some _ _ eq_refl))).
    unfold create_thread. cbn [m_thread]. rewrite Ht. eexists. split; [reflexivity|]. split; cbn.
    + split; [by eexists|done].
    + unfold batch_of in *. rewrite Ht in Ho. cbn in *. by rewrite Ho, !app_assoc.
    + intros _ _. by eexists.
  - eexists. split; [reflexivity|]. split; cbn.
    + done.
    + unfold batch_of in *. cbn. by rewrite Ho, !app_assoc.
    + intros _ _. by apply Ha.
Qed.
Lemma work_sound b q q' : sound q → work b q = Some q' → sound q'.
Proof.
  intros [Ha Ho Hs] Hw. unfold work in Hw. destruct (m_thread q) as [[|[|f batch]]|] eqn:Et; [..|done].
  - assert (batch_of q = []) as Eb by (unfold batch_of; by rewrite Et). rewrite Eb in Ho. destruct (m_stopping q) eqn:Es.
    + injection Hw as <-. split; cbn; [split; [done|by intros [? ?]]|done|by rewrite Es].
    + destruct (m_queue q) as [|f l] eqn:El.
      * destruct b; [|done]. injection Hw as <-. split; cbn; [split; [done|by intros [? ?]]|by rewrite El|by rewrite El].
      * injection Hw as <-. split; cbn; [by rewrite Ha|by rewrite Ho, app_nil_r|done].
  - assert (batch_of q = []) as Eb by (unfold batch_of; by rewrite Et). injection Hw as <-. rewrite Eb in Ho. split; cbn; [rewrite Ha; split; by eexists|done|by intros; eexists].
  - assert (batch_of q = f :: batch) as Eb by (unfold batch_of; by rewrite Et). injection Hw as <-. rewrite Eb in Ho. split; cbn; [rewrite Ha; split; by eexists| |by intros; eexists].
    rewrite Ho. by rewrite <- !app_assoc.
Qed.
Lemma work_step_sound e q q' : sound q → step e q = Some q' → sound q'.
Proof.
  intros Hq. destruct e as [f|b| |]; cbn.
  - intros E. destruct (enqueue_sound f q Hq) as (q1 & E1 & H1). rewrite E in E1. by injection E1 as ->.
  - by apply work_sound.
  - intros [= <-]. destruct Hq as [Ha Ho Hs]. by split.
  - by intros [= <-].
Qed.

(** ** Every function is run *)

(** The steps of the worker until the function number [k] has been run *)
Definition distance (k : nat) (q : work_queue) : nat :=
  let behind := (k - length (run q))%nat in
  match m_thread q with
  | Some (Running batch) => if decide (behind < length batch)%nat then S behind else (3 + behind)%nat
  | _ => (2 + behind)%nat
  end.
Definition pending (k : nat) (q : work_queue) : Prop := (length (run q) <= k < length (enqueued q))%nat.

Lemma pending_enabled k q : sound q → m_stopping q = false → pending k q → ∃ q', work false q = Some q'.
Proof.
  intros [Ha Ho Hs] Hstop [H1 H2]. rewrite Ho, !length_app in H2. unfold batch_of in H2. unfold work.
  destruct (m_thread q) as [[|[|f batch]]|] eqn:Et; [|by eexists|by eexists|].
  - rewrite Hstop. destruct (m_queue q); [cbn in H2; lia|by eexists].
  - cbn in H2. destruct Hs as [? ?]; [done|intros E; rewrite E in H2; cbn in H2; lia|done].
Qed.
Lemma pending_work k q q' b : sound q → m_stopping q = false → pending k q → work b q = Some q' →
  (k < length (run q'))%nat ∨ pending k q' ∧ (distance k q' < distance k q)%nat.
Proof.
  intros [Ha Ho Hs] Hstop [H1 H2] Hw. rewrite Ho, !length_app in H2. unfold work in Hw. unfold batch_of in *. unfold pending, distance.
  destruct (m_thread q) as [[|[|f batch]]|] eqn:Et; [..|done].
  - rewrite Hstop in Hw. destruct (m_queue q) as [|f l] eqn:El; [cbn in H2; lia|]. injection Hw as <-. right. cbn [run enqueued m_thread]. rewrite Ho, !length_app. cbn in *. split; [lia|].
    rewrite decide_True by lia. lia.
  - injection Hw as <-. right. cbn [run enqueued m_thread]. rewrite Ho, !length_app. cbn in *. split; [lia|]. rewrite decide_False by lia. lia.
  - injection Hw as <-. cbn [run enqueued m_thread length] in *. rewrite Ho. rewrite !length_app in *. cbn [length] in *. destruct (decide (k < length (run q) + 1)%nat); [left; lia|right].
    split; [lia|]. destruct (decide (k - (length (run q) + 1) < length batch)%nat), (decide (k - length (run q) < S (length batch))%nat); lia.
Qed.
Lemma pending_other k e q q' : sound q → m_stopping q = false → pending k q → (∀ b, e ≠ Work b) → step e q = Some q' → pending k q' ∧ (distance k q' <= distance k q)%nat.
Proof.
  intros [Ha Ho Hs] Hstop [H1 H2] He Hst. destruct e as [f|b| |]; cbn in Hst.
  - unfold enqueue in Hst. cbn [m_stopped] in Hst. destruct (m_stopped q) eqn:E.
    + unfold create_thread in Hst. cbn [m_thread] in Hst. destruct (m_thread q) eqn:Et; [done|]. injection Hst as <-. unfold pending, distance. cbn. rewrite length_app, Et. lia.
    + injection Hst as <-. unfold pending, distance. cbn. rewrite length_app. lia.
  - by destruct (He b).
  - injection Hst as <-. done.
  - by injection Hst as <-.
Qed.

Lemma enqueued_grows f q q' : enqueue f q = Some q' → ∃ l, enqueued q' = enqueued q ++ l.
Proof.
  unfold enqueue. cbn [m_stopped]. intros E. exists [f]. destruct (m_stopped q); [|by injection E as <-].
  unfold create_thread in E. cbn [m_thread] in E. destruct (m_thread q); [done|]. by injection E as <-.
Qed.
Lemma worked_same b q q' : work b q = Some q' → ∃ l, enqueued q' = enqueued q ++ l.
Proof.
  intros E. exists []. rewrite app_nil_r. unfold work in E. destruct (m_thread q) as [[|[|f batch]]|]; [|by injection E as <-..|done].
  destruct (m_stopping q); [by injection E as <-|]. destruct (m_queue q); [destruct b; [|done]|]; by injection E as <-.
Qed.

(** An execution without end, and what is asked of the scheduler *)
Record execution (events : nat → event) (states : nat → work_queue) : Prop := {
  ex_start : states 0%nat = initial;
  ex_step n : step (events n) (states n) = Some (states (S n));
  ex_fair n : is_Some (work false (states n)) → ∃ m b, (n <= m)%nat ∧ events m = Work b }.

Lemma execution_sound events states n : execution events states → sound (states n).
Proof. intros [H0 Hs _]. induction n as [|n IH]; [rewrite H0; apply initial_sound|]. eapply work_step_sound; [exact IH|apply Hs]. Qed.
Lemma execution_running events states n : execution events states → (∀ m, events m ≠ Stop) → m_stopping (states n) = false.
Proof.
  intros [H0 Hs _] Hn. induction n as [|n IH]; [by rewrite H0|]. specialize (Hs n). specialize (Hn n). destruct (events n) as [f|b| |]; cbn in Hs; [..|done|by injection Hs as <-].
  - unfold enqueue in Hs. cbn [m_stopped] in Hs. destruct (m_stopped _); [|by injection Hs as <-]. unfold create_thread in Hs. cbn [m_thread] in Hs. destruct (m_thread (states n)); [done|]. by injection Hs as <-.
  - unfold work in Hs. rewrite IH in Hs. destruct (m_thread (states n)) as [[|[|f batch]]|]; [|by injection Hs as <-..|done].
    destruct (m_queue (states n)); [destruct b; [|done]|]; by injection Hs as <-.
Qed.

(** Until the worker's next step the function stays pending, and no farther away. *)
Lemma until_work events states n m k : execution events states → (∀ m, events m ≠ Stop) → (n <= m)%nat → (∀ i b, (n <= i < m)%nat → events i ≠ Work b) →
  pending k (states n) → pending k (states m) ∧ (distance k (states m) <= distance k (states n))%nat.
Proof.
  intros He Hn Hle Hi Hp. induction m as [|m IH]; [by assert (n = 0%nat) as -> by lia|]. destruct (decide (n = S m)) as [->|Hne]; [done|].
  destruct IH as [Hp' Hd]; [lia|intros i b Hb; apply Hi; lia|]. destruct (pending_other k (events m) (states m) (states (S m))) as [H1 H2]; [exact (execution_sound _ _ _ He)|exact (execution_running _ _ _ He Hn)|done|intros b; apply Hi; lia|apply (ex_step _ _ He)|].
  split; [done|lia].
Qed.
Lemma next_work events n : (∃ m b, (n <= m)%nat ∧ events m = Work b) → ∃ m b, (n <= m)%nat ∧ events m = Work b ∧ ∀ i b, (n <= i < m)%nat → events i ≠ Work b.
Proof.
  intros (m & b & Hm & Hb). remember (m - n)%nat as d eqn:Hd. induction d as [|d IH] in n, Hm, Hd |- *.
  - exists m, b. split; [done|]. split; [done|]. intros i b' Hi. lia.
  - destruct (events n) as [f|b0| |] eqn:En.
    2: exists n, b0; split; [done|]; split; [done|]; intros i b' Hi; lia.
    all: destruct (IH (S n)) as (m' & b' & H1 & H2 & H3); [lia|lia|]; exists m', b'; split; [lia|]; split; [done|];
      intros i b1 Hi; destruct (decide (i = n)) as [->|Hne]; [by rewrite En|apply H3; lia].
Qed.

Lemma pending_run events states k : execution events states → (∀ m, events m ≠ Stop) → ∀ d n, (distance k (states n) <= d)%nat → pending k (states n) → ∃ m, (n <= m)%nat ∧ (k < length (run (states m)))%nat.
Proof.
  intros He Hn d. induction d as [|d IH]; intros n Hd Hp.
  - exfalso. unfold distance in Hd. destruct (m_thread (states n)) as [[|batch]|]; [lia| |lia]. destruct (decide _); lia.
  - destruct (next_work events n) as (m & b & Hm & Hb & Hfirst).
    { apply (ex_fair _ _ He). destruct (pending_enabled k (states n)) as [q' Hq']; [exact (execution_sound _ _ _ He)|exact (execution_running _ _ _ He Hn)|done|]. by rewrite Hq'. }
    destruct (until_work events states n m k He Hn Hm Hfirst Hp) as [Hp' Hd'].
    pose proof (ex_step _ _ He m) as Hs. rewrite Hb in Hs. cbn in Hs.
    destruct (pending_work k (states m) (states (S m)) b (execution_sound _ _ _ He) (execution_running _ _ _ He Hn) Hp' Hs) as [Hr|[Hp'' Hd'']].
    + exists (S m). split; [lia|done].
    + destruct (IH (S m)) as (m' & Hm' & Hr); [lia|done|]. exists m'. split; [lia|done].
Qed.
End queue.
End WorkQueue.
Import WorkQueue.

(** C36: the work queue runs every function.  An execution can always go on: [enqueue] never waits for a thread that needs the mutex.
    At any time the functions that were run are the first ones that were enqueued, in their order and once each; and as long as the
    queue is not destroyed and the worker gets to run when it can, each function that is ever enqueued is run at some later time,
    whatever is enqueued in the meantime and however often the worker gives up and a new one is created. *)
Theorem work_queue_live {T} (events : nat → @event T) states : execution events states → (∀ n, events n ≠ Stop) →
  (∀ n f, is_Some (enqueue f (states n))) ∧
  (∀ n, run (states n) `prefix_of` enqueued (states n)) ∧
  ∀ n k f, enqueued (states n) !! k = Some f → ∃ m, (n <= m)%nat ∧ run (states m) !! k = Some f.
Proof.
  intros He Hn. assert (∀ n, run (states n) `prefix_of` enqueued (states n)) as Hpre by (intros n; rewrite (so_order _ (execution_sound _ _ n He)); by eexists).
  split; [|split; [done|]].
  - intros n f. destruct (enqueue_sound f (states n) (execution_sound _ _ n He)) as (q' & -> & _). by eexists.
  - intros n k f Hk. assert (∀ m, (n <= m)%nat → enqueued (states m) !! k = Some f) as Hgrow.
    { intros m Hm. induction m as [|m IH]; [by assert (n = 0%nat) as -> by lia|]. destruct (decide (n = S m)) as [->|Hne]; [done|]. pose proof (ex_step _ _ He m) as Hs.
      assert (∃ l, enqueued (states (S m)) = enqueued (states m) ++ l) as (l & ->); [|apply lookup_app_l_Some, IH; lia].
      destruct (events m) as [g|b| |]; cbn in Hs; [by eapply enqueued_grows|by eapply worked_same|exists []; injection Hs as <-; by rewrite app_nil_r..]. }
    destruct (decide (k < length (run (states n)))%nat) as [Hr|Hr].
    + exists n. split; [done|]. apply lookup_lt_is_Some in Hr as [g Hg]. rewrite Hg. f_equal. pose proof (prefix_lookup_Some _ _ _ _ Hg (Hpre n)) as H. congruence.
    + destruct (pending_run events states k He Hn _ n (le_n _)) as (m & Hm & Hr'); [split; [lia|by eapply lookup_lt_Some]|].
      exists m. split; [done|]. apply lookup_lt_is_Some in Hr' as [g Hg]. rewrite Hg. f_equal. pose proof (prefix_lookup_Some _ _ _ _ Hg (Hpre m)) as H. rewrite Hgrow in H by done. congruence.
Qed.


(** ** An example *)
Module Once_.
Definition events (n : nat) : @event Z := match n with 0 => Enqueue 7%Z | 1 | 2 | 3 => Work false | _ => Other end%nat.
Definition states (n : nat) : @work_queue Z :=
  match n with
  | 0 => initial
  | 1 => Queue [7%Z] (Some Checking) false false [7%Z] []
  | 2 => Queue [] (Some (Running [7%Z])) false false [7%Z] []
  | 3 => Queue [] (Some (Running [])) false false [7%Z] [7%Z]
  | _ => Queue [] (Some Checking) false false [7%Z] [7%Z]
  end%nat.
Lemma once : execution events states.
Proof.
  split; [done|by intros [|[|[|[|n]]]]|]. intros n Hn. destruct (decide (n <= 3)%nat) as [H|H]; [by exists 3%nat, false|].
  destruct n as [|[|[|[|n]]]]; [lia..|]. by destruct Hn.
Qed.
Lemma work_queue_witness : ∃ m, (1 <= m)%nat ∧ run (states m) !! 0%nat = Some 7%Z.
Proof.
  destruct (work_queue_live events states once) as (_ & _ & H).
  - by intros [|[|[|[|n]]]].
  - exact (H 1%nat 0%nat 7%Z eq_refl).
Defined.
End Once_.
