(* ===== verification/Transactions.v ===== *)
(** * Advancing transactions, and the changes that each notifier sees

    The read transactions of core/realm/group_shared.hpp, the functions of impl/transact_log_handler.cpp that advance one with
    an observer of the log, and [IncrementalChangeInfo] of impl/realm_coordinator.cpp: notifiers that start at different versions are
    brought to the newest one in a single pass over the log, and the changes of the passes are merged afterwards. *)

From Stdlib Require Import Sorted.
From stdpp Require Import sorting gmap.
From S2P Require Import Prelude RangeSet RangeVector IndexSetInterface ChangeBuilder ChangeBuilderSpec ChangeBuilderTheorems ChangeCalculation Recording TransactLog.

(** [SharedGroup::TransactStage] *)
Inductive stage := transact_Ready | transact_Reading | transact_Writing.
#[export] Instance stage_eq_dec : EqDecision stage.
Proof. solve_decision. Defined.

(** What a [SharedGroup] remembers of its transaction, and whether it was opened with a [Replication] that has a history *)
Record shared_group := SharedGroup { m_transact_stage : stage; m_read_version : Z; get_history : bool }.

(** The kinds of [LogicError] that are thrown here, and [UnsupportedSchemaChange] *)
Inductive transaction_error := wrong_transact_state | bad_version | no_history | Unsupported.

Module Transaction.
Section advance.
Context {S : Type} `{IndexSets S}.
(** The instructions of the transaction that made a version; the newest version of the file when a function is called is its argument [latest]. *)
Context (changeset : Z → list instr).

(** [ChangesetInputStream]: the logs of the versions after the first one, up to the second *)
Definition changesets (old_version new_version : Z) : list instr := seqZ (old_version + 1) (new_version - old_version) ≫= changeset.

Definition schema_errors {A} (r : result schema_error A) : result transaction_error A :=
  match r with Ok a => Ok a | Raise _ => Raise Unsupported | Stuck => Stuck end.

(** [do_advance_read]: the observer gets the whole log and [parse_complete] at its end, and only when there is a newer version. *)
Definition do_advance_read {O} (parse : O → list instr → result schema_error O) (observer : option O) (new_version : Z) (sg : shared_group)
    : result transaction_error (shared_group * option O) :=
  _ ← lift (check (m_read_version sg <=? new_version));
  if new_version =? m_read_version sg then Ok (sg, observer) else
  observer ← (match observer with
              | Some o => o ← schema_errors (parse o (changesets (m_read_version sg) new_version)); Ok (Some o)
              | None => Ok None
              end);
  Ok (SharedGroup (m_transact_stage sg) new_version (get_history sg), observer).
Definition advance_read {O} (parse : O → list instr → result schema_error O) (observer : option O) (new_version : Z) (sg : shared_group)
    : result transaction_error (shared_group * option O) :=
  if negb (bool_decide (m_transact_stage sg = transact_Reading)) then Raise wrong_transact_state else
  if new_version <? m_read_version sg then Raise bad_version else
  if negb (get_history sg) then Raise no_history else
  do_advance_read parse observer new_version sg.

Definition promote_to_write {O} (parse : O → list instr → result schema_error O) (observer : option O) (latest : Z) (sg : shared_group)
    : result transaction_error (shared_group * option O) :=
  if negb (bool_decide (m_transact_stage sg = transact_Reading)) then Raise wrong_transact_state else
  if negb (get_history sg) then Raise no_history else
  '(sg, observer) ← do_advance_read parse observer latest sg;
  Ok (SharedGroup transact_Writing (m_read_version sg) (get_history sg), observer).

(** [transaction::advance] with a validator only *)
Definition advance_validating (version : Z) (sg : shared_group) : result transaction_error shared_group :=
  '(sg, _) ← advance_read (λ (_ : unit) log, validate_log log) (Some tt) version sg; Ok sg.

(** [transaction::advance] with a [TransactionChangeInfo] *)
Definition advance (info : change_info S) (version : Z) (sg : shared_group) : result transaction_error (shared_group * change_info S) :=
  if negb (track_all info) && bool_decide (table_modifications_needed info = []) && bool_decide (lists info = []) then
    '(sg, _) ← advance_read (λ (_ : unit) _, Ok tt) None version sg; Ok (sg, info)
  else
    '(sg, o) ← advance_read Log.run_log (Some (Log.observe info)) version sg;
    Ok (sg, match o with Some o => m_info o | None => info end).

(** ** [IncrementalChangeInfo] *)

(** The part of a notifier that matters here: its version, and what it adds to a [TransactionChangeInfo] *)
Record source := Source { source_version : Z; require : change_info S → change_info S }.

Record incremental := Incremental { i_sg : shared_group; i_info : list (change_info S); i_capacity : nat }.
Definition no_info : change_info S := Info [] [] [] [] [] [] false false ∅.

(** The constructor: the notifiers are sorted by their version, and there is room for one info for every version among them, since
    pointers to the infos are handed out. *)
Fixpoint count_versions (versions : list Z) : nat :=
  match versions with
  | a :: (b :: _) as rest => ((if (a <? b)%Z then 1 else 0) + count_versions rest)%nat
  | _ => 1%nat
  end.
Definition by_version (a b : source) : bool := source_version a <? source_version b.
Definition start `{Sorts} (sg : shared_group) (notifiers : list source) : incremental * list source :=
  match notifiers with
  | [] => (Incremental sg [] 0, [])
  | _ => let notifiers := sort_by by_version notifiers in (Incremental sg [no_info] (count_versions (source_version <$> notifiers)), notifiers)
  end.

(** [current] is the last info; [f] is what is done with it. *)
Definition on_current (f : change_info S → change_info S) (i : incremental) : incremental :=
  Incremental (i_sg i) (alter f (pred (length (i_info i))) (i_info i)) (i_capacity i).

(** The info of the next version keeps the flags and takes the lists over. *)
Definition next_info (info : change_info S) : change_info S :=
  Info (table_modifications_needed info) (table_moves_needed info) (lists info) [] [] [] false false (list_changes info).
Definition without_lists (info : change_info S) : change_info S := Log.with_list_changes (Log.with_lists info []) ∅.

Definition advance_incremental (version : Z) (i : incremental) : result transaction_error incremental :=
  if version =? m_read_version (i_sg i) then Ok i else
  info ← lift (last (i_info i));
  '(sg, info) ← advance info version (i_sg i);
  _ ← lift (check (length (i_info i) <? i_capacity i)%nat);
  Ok (Incremental sg (take (pred (length (i_info i))) (i_info i) ++ [without_lists info; next_info info]) (i_capacity i)).

(** The changes of a table in two consecutive infos *)
Fixpoint merge_each (prev cur : list (change_builder S)) : option (list (change_builder S)) :=
  match prev, cur with
  | p :: prev, c :: cur => p ← Changes.merge p c; rest ← merge_each prev cur; Some (p :: rest)
  | prev, [] => Some prev
  | [], cur => Some cur
  end.
Definition merge_tables (prev cur : list (change_builder S)) : option (list (change_builder S)) :=
  match cur, prev with
  | [], _ => Some prev
  | _, [] => Some cur
  | _, _ => merge_each prev cur
  end.

(** The loop over the infos, from the last one to the first *)
Fixpoint combine (infos : list (change_info S)) : option (list (change_info S)) :=
  match infos with
  | [] => Some []
  | prev :: rest =>
      rest ← combine rest;
      match rest with
      | [] => Some [prev]
      | cur :: _ => ts ← merge_tables (tables prev) (tables cur); Some (Log.with_tables prev ts :: rest)
      end
  end.

(** The loops over the lists: a list that is in several entries has the changes since each of them. *)
Definition same_list (a b : list_info) : bool := (table_ndx a =? table_ndx b) && (col_ndx a =? col_ndx b) && (row_ndx a =? row_ndx b).
Fixpoint merge_before (l : list_info) (earlier : list list_info) (m : gmap nat (change_builder S)) : option (gmap nat (change_builder S)) :=
  match earlier with
  | [] => Some m
  | e :: earlier =>
      m ← (if same_list l e then p ← m !! changes e; c ← m !! changes l; p ← Changes.merge p c; Some (<[changes e := p]> m) else Some m);
      merge_before l earlier m
  end.
(** [done] are the entries before, the last one first. *)
Fixpoint merge_lists (done ls : list list_info) (m : gmap nat (change_builder S)) : option (gmap nat (change_builder S)) :=
  match ls with
  | [] => Some m
  | l :: ls => m ← merge_before l done m; merge_lists (l :: done) ls m
  end.

(** The second half of [advance_to_final] *)
Definition merge_infos (infos : list (change_info S)) : option (list (change_info S)) :=
  infos ← combine infos;
  info ← last infos;
  m ← merge_lists [] (lists info) (list_changes info);
  Some (take (pred (length infos)) infos ++ [Log.with_list_changes info m]).

Definition advance_to_final (version : Z) (i : incremental) : result transaction_error incremental :=
  match last (i_info i) with
  | None => sg ← advance_validating version (i_sg i); Ok (Incremental sg [] (i_capacity i))
  | Some info =>
      '(sg, info) ← advance info version (i_sg i);
      infos ← lift (merge_infos (take (pred (length (i_info i))) (i_info i) ++ [info]));
      Ok (Incremental sg infos (i_capacity i))
  end.

(** The loop over the new notifiers in [run_async_notifiers] *)
Fixpoint pull_forward (notifiers : list source) (i : incremental) : result transaction_error incremental :=
  match notifiers with
  | [] => Ok i
  | n :: notifiers =>
      i ← advance_incremental (source_version n) i;
      pull_forward notifiers (on_current (require n) i)
  end.
Definition advance_new `{Sorts} (notifiers : list source) (latest : Z) (sg : shared_group) : result transaction_error (incremental * list source) :=
  let '(i, notifiers) := start sg notifiers in
  match notifiers with
  | [] => Ok (i, [])
  | n :: _ =>
      sg ← advance_validating (source_version n) sg;
      i ← pull_forward notifiers (Incremental sg (i_info i) (i_capacity i));
      i ← advance_to_final latest i;
      Ok (i, notifiers)
  end.
End advance.
End Transaction.

Import Transaction.

(** ** Change sets between two contents *)

Definition rows {A} (l : list A) : Z := Z.of_nat (length l).

Section describes.
Context {S : Type} `{IndexSetLaws S} {A V : Type} (cell : nat → A → V).
Implicit Types (c o : change_builder S) (old mid new : list A).

(** A change set without moves leads from the rows [old] to the rows [new], where [cell n] is what column [n] shows of a row: the rows
    that it keeps are the same up to the modifications that it reports. *)
Record describes c old new : Prop := {
  d_wf : wf c;
  d_moves : moves c = [];
  d_track : track_columns c = true;
  d_columns : columns_in c;
  d_deleted i : has (deletions c) i → i < rows old;
  d_inserted j : has (insertions c) j → j < rows new;
  d_modified j : has (modifications c) j → j < rows new;
  d_kept i j : kept c i j → i < rows old ↔ j < rows new;
  d_same i j a b : kept c i j → old !! Z.to_nat i = Some a → new !! Z.to_nat j = Some b → a = b ∨ has (modifications c) j;
  d_cells n i j a b : kept c i j → old !! Z.to_nat i = Some a → new !! Z.to_nat j = Some b → cell n a = cell n b ∨ has (column c n) j
}.

Lemma describes_within N c old new : describes c old new → rows old <= N → rows new <= N → within N c.
Proof.
  intros [Hwf ? ? Hcol Hd Hi Hm ? ? ?] Ho Hn. split_and!; [unfold rows in *; lia|..].
  - intros i Hx. specialize (Hd i Hx). lia.
  - intros i Hx. specialize (Hi i Hx). lia.
  - intros i Hx. specialize (Hm i Hx). lia.
  - apply Forall_lookup. intros n s E j Hj. assert (has (modifications c) j) as Hx by (apply (Hcol n); unfold column; by rewrite E).
    specialize (Hm j Hx). lia.
Qed.

Lemma row_at old i : 0 <= i < rows old → ∃ a, old !! Z.to_nat i = Some a.
Proof. intros Hi. apply lookup_lt_is_Some. unfold rows in Hi. lia. Qed.
Lemma row_in old i a : 0 <= i → old !! Z.to_nat i = Some a → i < rows old.
Proof. intros Hi E%lookup_lt_Some. unfold rows. lia. Qed.

(** The composition of two steps *)
Lemma describes_compose c o c' old mid new :
  describes c old mid → describes o mid new → wf c' → moves c' = [] → track_columns c' = true →
  (∀ i k, kept c' i k ↔ ∃ j, kept c i j ∧ kept o j k) → modified_by c o c' → describes c' old new.
Proof.
  intros Hc Ho Hwf Hm Ht Hk [Hmod Hcol]. split; try done.
  - intros n k. rewrite Hcol, Hmod. intros [?%(d_columns _ _ _ Ho)|(j & ?%(d_columns _ _ _ Hc) & ?)]; [by left|right; by exists j].
  - intros i Hi. apply Z.nle_gt. intros Hle.
    assert (0 <= i) as Hi0 by (destruct Hwf as [? _]; by apply (has_nonneg (deletions c'))).
    destruct (kept_total c i) as (j & Hj); [apply Hc|done|intros ?%(d_deleted _ _ _ Hc); lia|].
    pose proof (d_kept _ _ _ Hc i j Hj) as E. pose proof Hj as (_ & Hj0 & _).
    destruct (kept_total o j) as (k & Hkj); [apply Ho|done|intros ?%(d_deleted _ _ _ Ho); lia|].
    assert (kept c' i k) as (_ & _ & _ & N & _) by (apply Hk; eauto). done.
  - intros k Hi. apply Z.nle_gt. intros Hle.
    assert (0 <= k) as Hk0 by (destruct Hwf as (_ & ? & _); by apply (has_nonneg (insertions c'))).
    destruct (kept_onto o k) as (j & Hj); [apply Ho|done|intros ?%(d_inserted _ _ _ Ho); lia|].
    pose proof (d_kept _ _ _ Ho j k Hj) as E. pose proof Hj as (Hj0 & _).
    destruct (kept_onto c j) as (i & Hij); [apply Hc|done|intros ?%(d_inserted _ _ _ Hc); lia|].
    assert (kept c' i k) as (_ & _ & N & _) by (apply Hk; eauto). done.
  - intros k. rewrite Hmod. intros [?|(j & Hj & Hjk)]; [by apply (d_modified _ _ _ Ho)|]. apply (d_kept _ _ _ Ho _ _ Hjk). by apply (d_modified _ _ _ Hc).
  - intros i k (j & H1 & H2)%Hk. by rewrite (d_kept _ _ _ Hc _ _ H1), (d_kept _ _ _ Ho _ _ H2).
  - intros i k a b (j & H1 & H2)%Hk Ea Eb. pose proof H1 as (Hi0 & Hj0 & _).
    destruct (row_at mid j) as (m & Em); [split; [done|]; by apply (d_kept _ _ _ Hc _ _ H1), (row_in _ _ a)|].
    rewrite Hmod. destruct (d_same _ _ _ Hc _ _ _ _ H1 Ea Em) as [->|?]; [|right; eauto].
    destruct (d_same _ _ _ Ho _ _ _ _ H2 Em Eb) as [->|?]; auto.
  - intros n i k a b (j & H1 & H2)%Hk Ea Eb. pose proof H1 as (Hi0 & Hj0 & _).
    destruct (row_at mid j) as (m & Em); [split; [done|]; by apply (d_kept _ _ _ Hc _ _ H1), (row_in _ _ a)|].
    rewrite Hcol. destruct (d_cells _ _ _ Hc n _ _ _ _ H1 Ea Em) as [->|?]; [|right; eauto].
    destruct (d_cells _ _ _ Ho n _ _ _ _ H2 Em Eb) as [->|?]; auto.
Qed.

Lemma describes_merge N c o old mid new :
  describes c old mid → describes o mid new → rows old <= N → rows mid <= N → rows new <= N → N + N < npos →
  is_roomy (deletions c) (deletions o) → ∃ c', Changes.merge c o = Some c' ∧ describes c' old new.
Proof.
  intros Hc Ho Lo Lm Ln HN Hr.
  destruct (merge_spec N c o) as (c' & E & Hwf & Hm & Hk & Hmod & Ht); try done;
    try first [apply Hc|apply Ho|by eapply describes_within]. exists c'. split; [done|].
  apply (describes_compose c o c' old mid new); try done. apply Ht, Ho.
Qed.

(** No change set, no changes. *)
Lemma describes_new mid new : describes Changes.new mid new → mid = new.
Proof.
  intros Hc. assert (∀ i, 0 <= i → kept (Changes.new (S := S)) i i) as Hk.
  { intros i Hi. apply kept_empty; [apply Hc| |done]. unfold Changes.empty. cbn.
    destruct (is_new_ok (S := S)) as [Hok E]. rewrite is_empty_law by done. by rewrite E. }
  assert (rows mid = rows new) as Hlen.
  { pose proof (d_kept _ _ _ Hc _ _ (Hk (rows mid) ltac:(unfold rows; lia))).
    pose proof (d_kept _ _ _ Hc _ _ (Hk (rows new) ltac:(unfold rows; lia))). lia. }
  apply list_eq_same_length with (length mid); [unfold rows in Hlen; lia|done|].
  intros i a b Hi Ea Eb. rewrite <- (Nat2Z.id i) in Ea, Eb.
  destruct (d_same _ _ _ Hc _ _ a b (Hk (Z.of_nat i) ltac:(lia)) Ea Eb) as [?|[]%new_has]; done.
Qed.
End describes.

(** ** The changes from the version of a notifier to the last one *)
Section combine.
Context {S : Type} `{IndexSetLaws S} {A V : Type} (cell : nat → A → V) (N : Z).
Context (small : N + N < npos).
Context (roomy : ∀ s t : S, is_ok s → is_ok t → below_bound N s → below_bound N t → is_roomy s t).
Implicit Types (info : change_info S) (ts : list (change_builder S)).

Definition change_of ts (t : nat) : change_builder S := default Changes.new (ts !! t).

Lemma merge_small c o (old mid new : list A) :
  describes cell c old mid → describes cell o mid new → rows old <= N → rows mid <= N → rows new <= N →
  ∃ c', Changes.merge c o = Some c' ∧ describes cell c' old new.
Proof.
  intros Hc Ho Lo Lm Ln. apply (describes_merge cell N c o old mid new); try done.
  destruct (describes_within _ _ _ _ _ Hc Lo Lm) as (_ & ? & _), (describes_within _ _ _ _ _ Ho Lm Ln) as (_ & ? & _).
  apply roomy; done || apply Hc || apply Ho.
Qed.

Lemma merge_each_spec ps cs (old mid new : nat → list A) :
  (∀ t, rows (old t) <= N ∧ rows (mid t) <= N ∧ rows (new t) <= N) →
  (∀ t, describes cell (change_of ps t) (old t) (mid t)) → (∀ t, describes cell (change_of cs t) (mid t) (new t)) →
  ∃ ts, merge_each ps cs = Some ts ∧ ∀ t, describes cell (change_of ts t) (old t) (new t).
Proof.
  revert cs old mid new. induction ps as [|p ps IH]; intros cs old mid new Hn Hp Hc; [|destruct cs as [|c cs]].
  - exists cs. split; [by destruct cs|]. intros t. rewrite (describes_new cell _ _ (Hp t)). apply Hc.
  - exists (p :: ps). split; [done|]. intros t. rewrite <- (describes_new cell _ _ (Hc t)). apply Hp.
  - destruct (Hn 0%nat) as (? & ? & ?).
    destruct (merge_small p c (old 0%nat) (mid 0%nat) (new 0%nat)) as (c' & E & Hc'); [exact (Hp 0%nat)|exact (Hc 0%nat)|done..|].
    destruct (IH cs (λ t, old (Datatypes.S t)) (λ t, mid (Datatypes.S t)) (λ t, new (Datatypes.S t))) as (ts & E' & Hts);
      [done|intros t; exact (Hp (Datatypes.S t))|intros t; exact (Hc (Datatypes.S t))|].
    exists (c' :: ts). split; [cbn [merge_each]; rewrite E; cbn; by rewrite E'|]. intros [|t]; [done|apply Hts].
Qed.

Lemma merge_tables_spec ps cs (old mid new : nat → list A) :
  (∀ t, rows (old t) <= N ∧ rows (mid t) <= N ∧ rows (new t) <= N) →
  (∀ t, describes cell (change_of ps t) (old t) (mid t)) → (∀ t, describes cell (change_of cs t) (mid t) (new t)) →
  ∃ ts, merge_tables ps cs = Some ts ∧ ∀ t, describes cell (change_of ts t) (old t) (new t).
Proof.
  intros Hn Hp Hc. destruct (merge_each_spec ps cs old mid new Hn Hp Hc) as (ts & E & Hts).
  exists ts. split; [|done]. by destruct ps, cs.
Qed.

(** [world k t] is what the table [t] holds at the version of the [k]th info, and [world (length infos)] is the last version. *)
Lemma combine_spec infos (world : nat → nat → list A) :
  (∀ k t, rows (world k t) <= N) →
  (∀ k info t, infos !! k = Some info → describes cell (change_of (tables info) t) (world k t) (world (Datatypes.S k) t)) →
  ∃ infos', combine infos = Some infos' ∧
    Forall2 (λ info info', info' = Log.with_tables info (tables info')) infos infos' ∧
    ∀ k info t, infos' !! k = Some info → describes cell (change_of (tables info) t) (world k t) (world (length infos) t).
Proof.
  revert world. induction infos as [|prev rest IH]; intros world Hn Hd; [by exists []|].
  destruct (IH (λ k, world (Datatypes.S k))) as (rest' & E & Hw & Hr); [done|intros k info t; apply (Hd (Datatypes.S k))|].
  cbn [combine length]. rewrite E. cbn [mbind option_bind]. destruct rest' as [|cur rest'].
  - apply Forall2_nil_inv_r in Hw as ->. exists [prev]. split; [done|]. split; [constructor; [by destruct prev|constructor]|].
    intros [|k] info t; cbn; intros [= <-]. by apply (Hd 0%nat).
  - destruct (merge_tables_spec (tables prev) (tables cur) (world 0%nat) (world 1%nat) (world (Datatypes.S (length rest)))) as (ts & Et & Hts);
      [done|intros t; by apply (Hd 0%nat)|intros t; by apply (Hr 0%nat)|].
    rewrite Et. cbn [mbind option_bind]. eexists. split; [done|]. split; [by constructor|].
    intros [|k] info t; [intros [= <-]; apply Hts|apply Hr].
Qed.

(** A list of [l] has the contents that it had for the next entry with its place, or the last ones. *)
Context (final : Z → Z → Z → list A) (final_small : ∀ t c r, rows (final t c r) <= N).
Definition last_content (l : list_info) : list A := final (table_ndx l) (col_ndx l) (row_ndx l).
Fixpoint until (l : list_info) (later : list (list_info * list A)) : list A :=
  match later with
  | [] => last_content l
  | (e, content) :: later => if same_list l e then content else until l later
  end.

Definition described (m : gmap nat (change_builder S)) (e : list_info * list A) (later : list (list_info * list A)) : Prop :=
  ∃ c, m !! changes e.1 = Some c ∧ describes cell c e.2 (until e.1 later).
(** What every entry has, with the entries after it *)
Fixpoint each_described (m : gmap nat (change_builder S)) (es : list (list_info * list A)) : Prop :=
  match es with
  | [] => True
  | e :: later => described m e later ∧ each_described m later
  end.

Definition key (e : list_info * list A) : nat := changes e.1.
Implicit Types (e d : list_info * list A) (es ds later : list (list_info * list A)) (m : gmap nat (change_builder S)).

Lemma same_list_spec (a b : list_info) : same_list a b = true ↔ table_ndx a = table_ndx b ∧ col_ndx a = col_ndx b ∧ row_ndx a = row_ndx b.
Proof. unfold same_list. rewrite !andb_true_iff, !Z.eqb_eq. tauto. Qed.

Lemma until_same (a b : list_info) later : same_list a b = true → until a later = until b later.
Proof.
  intros E%same_list_spec. induction later as [|[l c] later IH]; cbn [until].
  - unfold last_content. by destruct E as (-> & -> & ->).
  - destruct (same_list a l) eqn:Ea, (same_list b l) eqn:Eb; try done.
    + apply same_list_spec in Ea. rewrite <- not_true_iff_false in Eb. destruct Eb. apply same_list_spec. intuition congruence.
    + apply same_list_spec in Eb. rewrite <- not_true_iff_false in Ea. destruct Ea. apply same_list_spec. intuition congruence.
Qed.

Lemma until_small l later : Forall (λ e, rows e.2 <= N) later → rows (until l later) <= N.
Proof. induction 1 as [|[e c] later Hc _ IH]; cbn [until]; [apply final_small|]. by case_match. Qed.

Lemma described_agree m m' e later : m' !! key e = m !! key e → described m e later → described m' e later.
Proof. intros E (c & Hc & Hd). exists c. split; [|done]. unfold key in E. by rewrite E. Qed.

Lemma each_described_agree m m' es : (∀ e, e ∈ es → m' !! key e = m !! key e) → each_described m es → each_described m' es.
Proof.
  induction es as [|e es IH]; intros Hm; [done|]. cbn [each_described]. intros [Hd Hes].
  split; [apply (described_agree m); [apply Hm; left|done]|]. apply IH; [|done]. intros; apply Hm; by right.
Qed.

(** One round: an entry before [e] gets what the changes of [e] add. *)
Lemma merge_one_before m e d later :
  Forall (λ e, rows e.2 <= N) (e :: d :: later) → described m e later → described m d (e :: later) →
  ∃ m', (if same_list e.1 d.1 then p ← m !! changes d.1; c ← m !! changes e.1; p ← Changes.merge p c; Some (<[changes d.1 := p]> m) else Some m)
          = Some m' ∧ described m' d later ∧ ∀ k, k ≠ key d → m' !! k = m !! k.
Proof.
  destruct e as [l c], d as [l' c']. intros [Le [Ld Ll]%Forall_cons]%Forall_cons (b & Eb & Hb) (b' & Eb' & Hb').
  cbn [fst snd until] in *. destruct (same_list l l') eqn:E.
  - assert (same_list l' l = true) as E' by (apply same_list_spec in E; apply same_list_spec; intuition congruence).
    rewrite E' in Hb'. rewrite Eb', Eb. cbn [mbind option_bind].
    destruct (merge_small b' b c' c (until l later)) as (r & -> & Hr); [done..|by apply until_small|].
    cbn [mbind option_bind]. eexists. split; [done|]. split; [|intros k Hk; by apply lookup_insert_ne].
    exists r. cbn [fst snd]. rewrite lookup_insert_eq. split; [done|]. by rewrite (until_same l' l).
  - assert (same_list l' l = false) as E'.
    { apply not_true_iff_false. intros E'. rewrite <- not_true_iff_false in E. apply E. apply same_list_spec in E'.
      apply same_list_spec. intuition congruence. }
    rewrite E' in Hb'. exists m. split; [done|]. split; [|done]. by exists b'.
Qed.

Lemma merge_before_spec e later ds m :
  NoDup (key <$> e :: ds) → Forall (λ e, rows e.2 <= N) (e :: ds ++ later) →
  described m e later → (∀ d, d ∈ ds → described m d (e :: later)) →
  ∃ m', merge_before e.1 ds.*1 m = Some m' ∧ (∀ d, d ∈ ds → described m' d later) ∧ ∀ k, k ∉ key <$> ds → m' !! k = m !! k.
Proof.
  revert m. induction ds as [|d ds IH]; intros m Hnd Hs He Hds; [exists m; by split_and!; [|intros ? []%elem_of_nil|]|].
  rewrite !fmap_cons in Hnd. apply NoDup_cons in Hnd as [Ne [Nd Hnd]%NoDup_cons].
  apply Forall_cons in Hs as [Le [Ld Hs]%Forall_cons].
  destruct (merge_one_before m e d later) as (m1 & E & Hd & Hm1); [|done|apply Hds; left|].
  { constructor; [done|]. constructor; [done|]. by apply Forall_app in Hs as [_ ?]. }
  rewrite fmap_cons. cbn [merge_before]. rewrite E. cbn [mbind option_bind].
  destruct (IH m1) as (m' & E' & Hds' & Hm').
  - constructor; [|done]. intros Hin. apply Ne. by right.
  - by constructor.
  - apply (described_agree m); [|done]. apply Hm1. intros Ek. apply Ne. rewrite Ek. left.
  - intros x Hx. apply (described_agree m); [|apply Hds; by right]. apply Hm1. intros Ek. apply Nd. rewrite <- Ek. by apply list_elem_of_fmap_2.
  - exists m'. split; [done|]. split.
    + intros x [->|Hx]%elem_of_cons; [|by apply Hds']. apply (described_agree m1); [by apply Hm'|done].
    + intros k [Hk1 Hk2]%not_elem_of_cons. by rewrite Hm', Hm1.
Qed.

(** Afterwards every entry has the changes up to the last contents of its list. *)
Lemma merge_lists_spec ds es m :
  NoDup (key <$> ds ++ es) → Forall (λ e, rows e.2 <= N) (ds ++ es) →
  (∀ d, d ∈ ds → described m d es) → each_described m es →
  ∃ m', merge_lists ds.*1 es.*1 m = Some m' ∧ ∀ e, e ∈ ds ++ es → described m' e [].
Proof.
  revert ds m. induction es as [|e es IH]; intros ds m Hnd Hs Hds Hes.
  { exists m. split; [done|]. intros e. rewrite app_nil_r. apply Hds. }
  destruct Hes as [He Hes].
  assert (e :: ds ++ es ≡ₚ ds ++ e :: es) as Hp by apply Permutation_middle.
  assert (NoDup (key <$> e :: ds ++ es)) as Hnd' by by rewrite Hp.
  assert (Forall (λ e, rows e.2 <= N) (e :: ds ++ es)) as Hs' by by rewrite Hp.
  destruct (merge_before_spec e es ds m) as (m1 & E & Hds1 & Hm1); [|done|done|done|].
  { rewrite app_comm_cons, fmap_app in Hnd'. by apply NoDup_app in Hnd' as [? _]. }
  rewrite fmap_cons. cbn [merge_lists]. rewrite E. cbn [mbind option_bind].
  destruct (IH (e :: ds) m1) as (m' & E' & Hm'); [done..| | |].
  - intros d [->|Hd]%elem_of_cons; [|by apply Hds1]. apply (described_agree m); [|done]. apply Hm1.
    rewrite fmap_cons, fmap_app in Hnd'. apply NoDup_cons in Hnd' as [Hn _]. intros Hin. apply Hn. apply elem_of_app. by left.
  - apply (each_described_agree m); [|done]. intros x Hx. apply Hm1. intros Hin.
    rewrite fmap_cons, fmap_app in Hnd'. apply NoDup_cons in Hnd' as [_ (_ & Hn & _)%NoDup_app].
    apply (Hn (key x)); [done|by apply list_elem_of_fmap_2].
  - exists m'. split; [done|]. intros x Hx. apply Hm'. by rewrite Hp.
Qed.

(** C38: every notifier sees the complete changes. Let the changes of each info lead, in every table, from the contents at its version to those
    at the next one, and those of each list from the contents when its entry was made to those when the next entry for the same list
    was made. Then merging succeeds, and afterwards all of them lead to the contents at the last version.  The change sets have no moves,
    and the contents are small enough for the ranges of two deletions to fit one chunk. *)
Theorem merged_changes_complete infos (world : nat → nat → list A) es info :
  last infos = Some info → lists info = es.*1 → NoDup (key <$> es) → Forall (λ e, rows e.2 <= N) es →
  each_described (list_changes info) es → (∀ k t, rows (world k t) <= N) →
  (∀ k info t, infos !! k = Some info → describes cell (change_of (tables info) t) (world k t) (world (Datatypes.S k) t)) →
  ∃ infos' info', merge_infos infos = Some infos' ∧ length infos' = length infos ∧
    (∀ k info t, infos' !! k = Some info → describes cell (change_of (tables info) t) (world k t) (world (length infos) t)) ∧
    last infos' = Some info' ∧ lists info' = es.*1 ∧
    ∀ e, e ∈ es → ∃ c, list_changes info' !! key e = Some c ∧ describes cell c e.2 (last_content e.1).
Proof.
  intros Hlast Hls Hnd Hs Hes Hw Hd.
  destruct (combine_spec infos world Hw Hd) as (infos' & E & Hsame & Hts).
  apply last_Some in Hlast as [before ->]. apply Forall2_app_inv_l in Hsame as (before' & tl & Hb & Htl & ->).
  apply Forall2_cons_inv_l in Htl as (info1 & ? & E1 & ->%Forall2_nil_inv_l & ->).
  destruct (merge_lists_spec [] es (list_changes info) Hnd Hs) as (m' & Em & Hm'); [by intros ? ?%elem_of_nil|done|].
  unfold merge_infos. rewrite E. cbn [mbind option_bind]. rewrite last_snoc. cbn [mbind option_bind].
  rewrite E1. cbn [Log.with_tables lists list_changes]. rewrite Hls. cbn [fmap list_fmap] in Em. rewrite Em. cbn [mbind option_bind].
  rewrite length_app, Nat.add_1_r. cbn [pred]. rewrite take_app_length.
  eexists _, _. split; [done|]. split; [|split; [|split; [apply last_snoc|split; [done|exact Hm']]]].
  - rewrite !length_app. cbn. by apply Forall2_length in Hb as ->.
  - intros k x t Hx. apply lookup_app_Some in Hx as [Hx|[Hk Hx]]; [by apply (Hts k); apply lookup_app_l_Some|].
    apply list_lookup_singleton_Some in Hx as [Hk0 <-]. cbn.
    specialize (Hts k info1 t). rewrite E1 in Hts. apply Hts. rewrite <- E1, lookup_app_r by done. by rewrite Hk0.
Qed.
End combine.

(** ** One pass over the log

    What the incremental advance comes to: the notifiers in groups of one version each, and for every group one observer that runs
    over exactly the log up to the next group. *)
Section one_pass.
Context {S : Type} `{IndexSets S} (changeset : Z → list instr).
Implicit Types (info : change_info S) (n : source (S := S)) (gs : list (Z * list (source (S := S)))).

Definition add_to_group n gs : list (Z * list source) :=
  match gs with
  | (v, ns) :: gs' => if source_version n =? v then (v, n :: ns) :: gs' else (source_version n, [n]) :: gs
  | [] => [(source_version n, [n])]
  end.
Definition groups_of (ns : list source) : list (Z * list source) := foldr add_to_group [] ns.

(** The log between two versions, as the observer of [info] sees it, unless nothing is needed *)
Definition observed info (v w : Z) : result transaction_error (change_info S) :=
  if v =? w then Ok info else
  if negb (track_all info) && bool_decide (table_modifications_needed info = []) && bool_decide (lists info = []) then Ok info else
  o ← schema_errors (Log.run_log (Log.observe info) (changesets changeset v w)); Ok (m_info o).

Fixpoint infos_of info gs (latest : Z) : result transaction_error (list (change_info S)) :=
  match gs with
  | [] => Ok []
  | (v, ns) :: gs =>
      let info := foldl (λ info n, require n info) info ns in
      match gs with
      | [] => info ← observed info v latest; Ok [info]
      | (w, _) :: _ => info ← observed info v w; infos ← infos_of (next_info info) gs latest; Ok (without_lists info :: infos)
      end
  end.

(** The whole pass of an advancer at [version] *)
Definition one_pass gs (version latest : Z) : result transaction_error (list (change_info S)) :=
  match gs with
  | [] => Ok []
  | (v, _) :: _ =>
      _ ← (if v =? version then Ok tt else schema_errors (validate_log (changesets changeset version v)));
      infos ← infos_of no_info gs latest;
      lift (merge_infos infos)
  end.

(** Groups in the order of their versions *)
Record grouped (ns : list (source (S := S))) gs : Prop := {
  g_all : concat gs.*2 = ns;
  g_increasing : StronglySorted Z.lt gs.*1;
  g_versions : Forall (λ g, Forall (λ n, source_version n = g.1) g.2 ∧ g.2 ≠ []) gs
}.

Lemma advance_eq info v w : v <= w →
  advance changeset info w (SharedGroup transact_Reading v true) = (info ← observed info v w; Ok (SharedGroup transact_Reading w true, info)).
Proof.
  intros Hw. unfold advance, advance_read, do_advance_read, observed. cbn [m_transact_stage m_read_version get_history].
  rewrite (bool_decide_true (transact_Reading = transact_Reading)) by done. rewrite (proj2 (Z.ltb_ge w v)) by done. cbn [negb]. rewrite (Z.eqb_sym w v). unfold check. rewrite Zle_imp_le_bool by done.
  cbn [lift mbind result_bind]. destruct (Z.eqb_spec v w) as [->|_].
  - by destruct (_ && _).
  - destruct (_ && _); [done|]. by destruct (Log.run_log _ _).
Qed.

Lemma advance_validating_eq v w : v <= w →
  advance_validating changeset w (SharedGroup transact_Reading v true) =
  (_ ← (if w =? v then Ok tt else schema_errors (validate_log (changesets changeset v w))); Ok (SharedGroup transact_Reading w true)).
Proof.
  intros Hw. unfold advance_validating, advance_read, do_advance_read. cbn [m_transact_stage m_read_version get_history].
  rewrite (bool_decide_true (transact_Reading = transact_Reading)) by done. rewrite (proj2 (Z.ltb_ge w v)) by done. cbn [negb]. unfold check. rewrite Zle_imp_le_bool by done. cbn [lift mbind result_bind].
  destruct (Z.eqb_spec w v) as [->|_]; [done|]. by destruct (validate_log _).
Qed.

Definition at_version (v : Z) (before : list (change_info S)) info (cap : nat) : incremental :=
  Incremental (SharedGroup transact_Reading v true) (before ++ [info]) cap.

Lemma on_current_last f v before info cap : on_current f (at_version v before info cap) = at_version v before (f info) cap.
Proof.
  unfold on_current, at_version. cbn. f_equal. rewrite length_app, Nat.add_1_r. cbn [pred].
  rewrite <- (Nat.add_0_r (length before)). by rewrite alter_app_r.
Qed.

Lemma advance_incremental_same v before info cap : advance_incremental changeset v (at_version v before info cap) = Ok (at_version v before info cap).
Proof. unfold advance_incremental, at_version. cbn. by rewrite Z.eqb_refl. Qed.

Lemma advance_incremental_next v w before info cap : v < w → (length before + 1 < cap)%nat →
  advance_incremental changeset w (at_version v before info cap) =
  (info ← observed info v w; Ok (at_version w (before ++ [without_lists info]) (next_info info) cap)).
Proof.
  intros Hw Hcap. unfold advance_incremental, at_version. cbn [i_sg i_info m_read_version].
  assert (w =? v = false) as -> by lia. rewrite last_snoc. cbn [lift mbind result_bind].
  rewrite advance_eq by lia. destruct (observed info v w) as [info'|e|]; cbn [mbind result_bind]; [|done..].
  unfold check. rewrite length_app, Nat.add_1_r. cbn [i_capacity length pred].
  assert ((Datatypes.S (length before) <? cap)%nat = true) as -> by (apply Nat.ltb_lt; lia). cbn [lift mbind result_bind].
  by rewrite take_app_length, <- app_assoc.
Qed.

Lemma pull_group v ns rest before info cap : Forall (λ n, source_version n = v) ns →
  pull_forward changeset (ns ++ rest) (at_version v before info cap) =
  pull_forward changeset rest (at_version v before (foldl (λ info n, require n info) info ns) cap).
Proof.
  intros Hns. revert info. induction Hns as [|n ns Hn _ IH]; intros info; [done|]. cbn [app pull_forward foldl].
  rewrite Hn, advance_incremental_same. cbn [mbind result_bind]. by rewrite on_current_last, IH.
Qed.

Lemma advance_to_final_eq v latest before info cap : v <= latest →
  advance_to_final changeset latest (at_version v before info cap) =
  (info ← observed info v latest; infos ← lift (merge_infos (before ++ [info]));
   Ok (Incremental (SharedGroup transact_Reading latest true) infos cap)).
Proof.
  intros Hv. unfold advance_to_final, at_version. cbn [i_sg i_info i_capacity]. rewrite last_snoc, advance_eq by done.
  destruct (observed info v latest); cbn [mbind result_bind]; [|done..].
  rewrite length_app, Nat.add_1_r. cbn [length pred]. by rewrite take_app_length.
Qed.

Lemma infos_of_cons info v ns w ns' gs latest :
  infos_of info ((v, ns) :: (w, ns') :: gs) latest =
  (info ← observed (foldl (λ info n, require n info) info ns) v w;
   infos ← infos_of (next_info info) ((w, ns') :: gs) latest; Ok (without_lists info :: infos)).
Proof. done. Qed.

Lemma pull_groups gs v ns before info cap latest :
  grouped (ns ++ concat gs.*2) ((v, ns) :: gs) → Forall (λ g, g.1 <= latest) ((v, ns) :: gs) → (length before + 1 + length gs <= cap)%nat →
  (i ← pull_forward changeset (ns ++ concat gs.*2) (at_version v before info cap); advance_to_final changeset latest i) =
  (infos ← infos_of info ((v, ns) :: gs) latest; infos ← lift (merge_infos (before ++ infos));
   Ok (Incremental (SharedGroup transact_Reading latest true) infos cap)).
Proof.
  revert v ns before info. induction gs as [|[w ns'] gs IH]; intros v ns before info [_ Hinc Hvs] Hl Hcap;
    apply Forall_cons in Hvs as [[Hv _] Hvs]; cbn [fst snd] in Hv; rewrite pull_group by done; apply Forall_cons in Hl as [Hvl Hl].
  - cbn [fmap list_fmap concat pull_forward mbind result_bind]. cbn [fst] in Hvl. rewrite advance_to_final_eq by done.
    cbn [infos_of]. by destruct (observed _ _ _).
  - rewrite infos_of_cons. cbn [fmap list_fmap fst snd concat length] in *.
    apply StronglySorted_inv in Hinc as [Hinc Hlt]. apply Forall_cons in Hlt as [Hlt _].
    pose proof Hvs as Hvs'. apply Forall_cons in Hvs' as [[Hw Hne] _]. cbn [fst snd] in Hw, Hne.
    destruct ns' as [|n ns']; [done|].
    set (info' := foldl _ info ns). cbn [app pull_forward].
    apply Forall_cons in Hw as [Hwn Hw]. rewrite Hwn, advance_incremental_next by (done || lia).
    destruct (observed info' v w) as [info''|e|] eqn:Ei; cbn [mbind result_bind]; [|done..].
    pose proof (IH w (n :: ns') (before ++ [without_lists info'']) (next_info info'')) as E.
    cbn [app pull_forward] in E. rewrite Hwn, advance_incremental_same in E. cbn [mbind result_bind] in E.
    rewrite E; [|by split|done|rewrite length_app; cbn; lia].
    destruct (infos_of (next_info info'') _ latest); cbn [mbind result_bind]; [|done..]. by rewrite <- app_assoc.
Qed.

Lemma result_assoc {E X Y W} (r : result E X) (f : X → result E Y) (g : Y → result E W) :
  (x ← r; y ← f x; g y) = (y ← (x ← r; f x); g y).
Proof. by destruct r. Qed.

Definition not_later (a b : source (S := S)) : Prop := by_version b a = false.

Lemma group_head n ns : ∃ l gs, groups_of (n :: ns) = (source_version n, n :: l) :: gs.
Proof.
  cbn [groups_of foldr]. fold (groups_of ns). unfold add_to_group. destruct (groups_of ns) as [|[v l] gs]; [by exists [], []|].
  destruct (Z.eqb_spec (source_version n) v) as [->|_]; [by exists l, gs|by exists [], ((v, l) :: gs)].
Qed.

Lemma grouped_groups ns : StronglySorted not_later ns → grouped ns (groups_of ns).
Proof.
  induction 1 as [|n ns _ IH Hn]; [split; repeat constructor|].
  cbn [groups_of foldr]. fold (groups_of ns). unfold add_to_group.
  destruct IH as [Hall Hinc Hvs]. destruct (groups_of ns) as [|[v l] gs].
  - cbn in Hall. subst ns. split; [done| |]; repeat constructor; done.
  - destruct (Z.eqb_spec (source_version n) v) as [E|E].
    + apply Forall_cons in Hvs as [[Hv _] Hvs]. split; [by cbn; rewrite <- Hall|done|]. constructor; [|done]. split; [|done]. by constructor.
    + assert (source_version n < v) as Hlt.
      { apply Forall_cons in Hvs as [[Hv Hne] _]. destruct l as [|m l]; [done|]. cbn in Hall. subst ns.
        apply Forall_cons in Hn as [Hn _]. apply Forall_cons in Hv as [Hv _]. cbn in Hv. unfold not_later, by_version in Hn.
        apply Z.ltb_ge in Hn. lia. }
      split; [by cbn; rewrite <- Hall| |constructor; [split; [by repeat constructor|done]|done]].
      constructor; [done|]. cbn in Hinc |- *. apply StronglySorted_inv in Hinc as [_ Hg]. constructor; [done|].
      eapply Forall_impl; [exact Hg|]. cbn. intros; lia.
Qed.

Lemma count_groups ns : ns ≠ [] → StronglySorted not_later ns → count_versions (source_version <$> ns) = length (groups_of ns).
Proof.
  intros Hne. induction 1 as [|n ns _ IH Hn]; [done|]. destruct ns as [|m ns]; [done|].
  change (count_versions (source_version <$> n :: m :: ns)) with
    ((if (source_version n <? source_version m)%Z then 1 else 0) + count_versions (source_version <$> m :: ns))%nat.
  rewrite IH by done.
  change (groups_of (n :: m :: ns)) with (add_to_group n (groups_of (m :: ns))).
  destruct (group_head m ns) as (l & gs & ->). apply Forall_cons in Hn as [Hn _]. unfold not_later, by_version in Hn. apply Z.ltb_ge in Hn.
  cbn [add_to_group]. destruct (Z.eqb_spec (source_version n) (source_version m)), (Z.ltb_spec (source_version n) (source_version m)); try lia; done.
Qed.

Lemma by_version_order : weak_order (by_version (S := S)).
Proof.
  unfold by_version. split.
  - intros x y z Hxy%Z.ltb_ge Hyz%Z.ltb_ge. apply Z.ltb_ge. lia.
  - intros x y H1%Z.ltb_lt. apply Z.ltb_ge. lia.
Qed.

Lemma group_bounds (P : Z → Prop) ns gs : grouped ns gs → Forall (λ n, P (source_version n)) ns → Forall (λ g, P g.1) gs.
Proof.
  intros [<- _ Hg] Hns. induction gs as [|[v l] gs IH]; [constructor|].
  apply Forall_cons in Hg as [[Hv Hne] Hg]. cbn in Hns. apply Forall_app in Hns as [Hl Hns]. constructor; [|by apply IH].
  destruct l as [|n l]; [done|]. apply Forall_cons in Hl as [Hl _]. apply Forall_cons in Hv as [Hv _]. cbn in *. by rewrite <- Hv.
Qed.

(** C37: the incremental advance sorts the new notifiers into groups of one version each, in increasing order, and brings all of them to
    the newest version in a single pass: the observer of every group runs over exactly the log up to the next group, the room
    that was reserved for the infos is enough, and the outcome is that of the reference, exceptions included. *)
Theorem one_pass_correct `{SL : SortLaws} (notifiers : list source) (version latest : Z) :
  notifiers ≠ [] → Forall (λ n, version <= source_version n <= latest) notifiers →
  ∃ sorted, sorted ≡ₚ notifiers ∧ grouped sorted (groups_of sorted) ∧
    advance_new changeset notifiers latest (SharedGroup transact_Reading version true) =
    (infos ← one_pass (groups_of sorted) version latest;
     Ok (Incremental (SharedGroup transact_Reading latest true) infos (length (groups_of sorted)), sorted)).
Proof.
  intros Hne Hvs. pose proof (sort_by_perm by_version notifiers) as Hp. pose proof (sort_by_sorted by_version notifiers by_version_order) as Hs.
  exists (sort_by by_version notifiers). split; [done|]. assert (grouped (sort_by by_version notifiers) (groups_of (sort_by by_version notifiers)))
    as Hg by by apply grouped_groups. split; [done|].
  unfold advance_new, start. destruct notifiers as [|n0 rest]; [done|]. set (sorted := sort_by by_version (n0 :: rest)) in *.
  rewrite count_groups; [|intros E; rewrite E in Hp; by apply Permutation_nil_cons in Hp|done].
  rewrite <- Hp in Hvs. destruct sorted as [|n ns] eqn:E; [by apply Permutation_nil_cons in Hp|]. clearbody sorted. subst sorted.
  destruct (group_head n ns) as (l & gs & Eg). rewrite Eg in *. cbn [one_pass].
  pose proof Hvs as [[Hlo Hhi] _]%Forall_cons. rewrite advance_validating_eq by done.
  destruct (if source_version n =? version then _ else _); cbn [mbind result_bind]; [|done..].
  pose proof (group_bounds (λ v, v <= latest) _ _ Hg) as Hl.
  pose proof (g_all _ _ Hg) as Hall. cbn [fmap list_fmap fst snd concat] in Hall.
  pose proof (pull_groups gs (source_version n) (n :: l) [] no_info (length ((source_version n, n :: l) :: gs)) latest) as Hpull.
  rewrite Hall in Hpull. unfold at_version in Hpull; cbn [app] in Hpull.
  cbn [i_info i_capacity]. rewrite result_assoc, Hpull; [|done|apply Hl; eapply Forall_impl; [exact Hvs|]; cbn; lia|cbn; lia].
  destruct (infos_of _ _ _); cbn [mbind result_bind]; [|done..]. by destruct (merge_infos _).
Qed.
End one_pass.

(** ** Instances *)
Module Pass_.
#[local] Existing Instance release_build.

(** Three versions of a table: a row is deleted and another one modified, then one is inserted. *)
Definition contents (k t : nat) : list Z :=
  match t with
  | 0%nat => match k with 0%nat => [10; 20; 30] | 1%nat => [20; 31] | _ => [20; 31; 40] end
  | _ => []
  end.
Definition first_step : change_builder vec := Build [Chunk [(0, 1)] 0 1 1] [] [Chunk [(1, 2)] 1 2 1] [] [[Chunk [(1, 2)] 1 2 1]] ∅ true.
Definition second_step : change_builder vec := Build [] [Chunk [(2, 3)] 2 3 1] [] [] [] ∅ true.

(** A list that two notifiers of different versions look at: each has an entry of its own. *)
Definition list_step (n : Z) : change_builder vec := Build [] [Chunk [(n, n + 1)] n (n + 1) 1] [] [] [] ∅ true.
Definition entries : list (list_info * list Z) := [(ListChangeInfo 1 2 0 0, [5]); (ListChangeInfo 1 2 0 1, [5; 6])].
Definition step_infos : list (change_info vec) :=
  [Info [] [] [] [first_step] [] [] false false ∅;
   Info [] [] entries.*1 [second_step] [] [] false false {[0%nat := list_step 1; 1%nat := list_step 2]}].

Lemma ranges_total lo (l : list range) : ranges_ok lo l → Z.of_nat (length l) <= total l.
Proof.
  revert lo. induction l as [|r l IH]; intros lo Hl; [done|]. destruct Hl as (? & ? & Hl). specialize (IH _ Hl).
  cbn [length total foldr]. unfold total in *. cbn. lia.
Qed.

Lemma roomy_release (s t : vec) : is_ok s → is_ok t → below_bound 3 s → below_bound 3 t → is_roomy s t.
Proof.
  intros Hs Ht Bs Bt. pose proof (size_bound 3 t Ht ltac:(lia) Bt). pose proof (size_bound 3 s Hs ltac:(lia) Bs).
  pose proof (ranges_total 0 (is_ranges s) (ok_sorted s Hs)). unfold size in *.
  change (is_ranges s) with (flat s) in *. change (is_ranges t) with (flat t) in *.
  change (length (flat s) + Z.to_nat (total (flat t)) <= 256)%nat. lia.
Qed.

Ltac concrete_mem H := unfold has in H; cbn in H; unfold flat in H; cbn in H; rewrite ?mem_cons, ?mem_nil in H; unfold in_range in H; cbn in H.
Ltac concrete_kept Hk := unfold kept, rk, has in Hk; cbn in Hk; unfold flat in Hk; cbn in Hk; rewrite ?mem_cons, ?mem_nil in Hk; unfold in_range, rank1 in Hk; cbn [fst snd] in Hk.
Ltac below_three i := let E := fresh in assert (i = 0 ∨ i = 1 ∨ i = 2) as E by lia; destruct E as [->|[->| ->]].
(** The same row, or a row that is reported *)
Ltac concrete_row i j Hk Ha Hb :=
  let Hi := fresh in let Hj := fresh in
  pose proof Hk as (Hi & Hj & _); apply (row_in _ _ _ Hi) in Ha as ?; apply (row_in _ _ _ Hj) in Hb as ?; unfold rows in *; cbn in *;
  concrete_kept Hk; below_three i; try lia; below_three j; try lia; vm_compute in Ha, Hb; simplify_eq;
  first [by left | right; unfold has; cbn; unfold flat; cbn; rewrite ?mem_cons; unfold in_range; cbn; lia].
Ltac concrete_describes :=
  split; try done;
  [concrete_wf
  |intros [|n] j Hj; [first [exact Hj|by apply mem_nil in Hj]|destruct n; by apply mem_nil in Hj]
  |intros i Hi; concrete_mem Hi; unfold rows; cbn; first [done|lia]..
  |intros i j Hk; concrete_kept Hk; unfold rows; cbn; lia
  |intros i j a b Hk Ha Hb; concrete_row i j Hk Ha Hb
  |intros [|n] i j a b Hk Ha Hb; concrete_row i j Hk Ha Hb].

(** The only column *)
Definition shown (n : nat) (a : Z) : Z := match n with 0%nat => a | _ => 0 end.

Lemma first_described : describes shown first_step [10; 20; 30] [20; 31].
Proof. concrete_describes. Qed.
Lemma second_described : describes shown second_step [20; 31] [20; 31; 40].
Proof. concrete_describes. Qed.
Lemma list_described_1 : describes shown (list_step 1) [5] [5; 6].
Proof. concrete_describes. Qed.
Lemma list_described_2 : describes shown (list_step 2) [5; 6] [5; 6; 7].
Proof. concrete_describes. Qed.
Lemma unchanged : describes shown Changes.new [] [].
Proof.
  split; [concrete_wf|done|done|intros n j Hj; destruct n; by apply mem_nil in Hj|by intros i ?%mem_nil..| | |].
  - intros i j Hk. concrete_kept Hk. unfold rows. cbn. lia.
  - intros i j a b _ Ha. by rewrite lookup_nil in Ha.
  - intros n i j a b _ Ha. by rewrite lookup_nil in Ha.
Qed.

Lemma steps_described k info t : step_infos !! k = Some info →
  describes shown (change_of (tables info) t) (contents k t) (contents (Datatypes.S k) t).
Proof.
  destruct k as [|[|k]]; [| |done]; intros [= <-]; destruct t as [|t]; cbn; [exact first_described| |exact second_described|];
    destruct t; exact unchanged.
Qed.

Definition last_list (t c r : Z) : list Z := if decide ((t, c, r) = (1, 0, 2)) then [5; 6; 7] else [].

Lemma merged_changes_witness :
  let info := Info [] [] entries.*1 [second_step] [] [] false false {[0%nat := list_step 1; 1%nat := list_step 2]} in
  ∃ infos' info', merge_infos step_infos = Some infos' ∧ length infos' = 2%nat ∧
    (∀ k info t, infos' !! k = Some info → describes shown (change_of (tables info) t) (contents k t) (contents 2 t)) ∧
    last infos' = Some info' ∧ lists info' = entries.*1 ∧
    ∀ e, e ∈ entries → ∃ c, list_changes info' !! key e = Some c ∧ describes shown c e.2 (last_content last_list e.1).
Proof.
  intros info. apply (merged_changes_complete shown 3 ltac:(lia) roomy_release last_list) with (info := info).
  - intros t c r. unfold last_list, rows. case_decide; cbn; lia.
  - reflexivity.
  - reflexivity.
  - apply (bool_decide_unpack _). vm_compute. exact I.
  - repeat constructor; unfold rows; cbn; lia.
  - split; [|split; [|exact I]]; eexists; (split; [vm_compute; reflexivity|]); [exact list_described_1|exact list_described_2].
  - intros k t. destruct t as [|t]; [|unfold rows; cbn; lia]. destruct k as [|[|k]]; unfold rows; cbn; lia.
  - exact steps_described.
Defined.

(** Notifiers of the versions 3, 5 and 3 again, and a log at version 4 and 7 *)
Definition sample_source (v : Z) : source (S := vec) := Source v (λ info, Log.with_needed info [true] [true]).
Definition sample_log (v : Z) : list instr := if decide (v = 4 ∨ v = 7) then [select_table 0 []; insert_empty_rows 0 1] else [].

Lemma one_pass_witness :
  let notifiers := [sample_source 3; sample_source 5; sample_source 3] in
  ∃ sorted, sorted ≡ₚ notifiers ∧ grouped sorted (groups_of sorted) ∧
    advance_new sample_log notifiers 8 (SharedGroup transact_Reading 2 true) =
    (infos ← one_pass sample_log (groups_of sorted) 2 8;
     Ok (Incremental (SharedGroup transact_Reading 8 true) infos (length (groups_of sorted)), sorted)).
Proof. intros notifiers. apply (one_pass_correct sample_log notifiers 2 8); [discriminate|]. repeat constructor; cbn; lia. Defined.

(** The rows that both versions inserted *)
Example pass_result :
  match advance_new sample_log [sample_source 3; sample_source 5; sample_source 3] 8 (SharedGroup transact_Reading 2 true) with
  | Ok (i, _) => Some ((λ info, (λ c, is_ranges (insertions c)) <$> tables info) <$> i_info i)
  | _ => None
  end = Some [[[(0, 2)]]; [[(0, 1)]]].
Proof. vm_compute. reflexivity. Qed.
(** [clear_table] records the deletion of every index there is; [add_shifted_by] goes through the indices of what it merges one by one. *)
Example cleared_table_merged :
  (λ c, total (is_ranges (deletions c))) <$> Changes.clear (Changes.new (S := vec)) npos = Some npos.
Proof. reflexivity. Qed.
End Pass_.
