(* ===== verification/Notifiers.v ===== *)
(** * The notifiers of lists, objects and results

    Models of impl/list_notifier.cpp, impl/primitive_list_notifier.cpp, impl/object_notifier.cpp and impl/results_notifier.cpp: what
    each of them asks of the observer of the log, and how it turns the changes of the tables and lists into those of its
    collection.  The collections belong to the Realm core: their functions are parameters.  The notifier of a list has its changes
    stored with the other lists of the [change_info] from the registration to the run. *)

From Stdlib Require Import Sorted.
From stdpp Require Import gmap.
From S2P Require Import Prelude RangeSet RangeVector IndexSetTheorems IndexSetInterface ChangeBuilder ChangeBuilderSpec ChangeBuilderTheorems ChangeCalculation CalculationTheorems Callbacks DeepChange DeepChangeSpec DeepChangeTheorems CollectionNotifier TransactLog.

(** [find_container_column]: the first column that matches; one does. *)
Fixpoint find_container_column (matches : list bool) : option Z :=
  match matches with
  | [] => None
  | b :: matches => if b : bool then Some 0 else i ← find_container_column matches; Some (i + 1)
  end.

(** What the list notifiers ask of a list of the Realm core: of a version of the file, and of a list *)
Record list_core (G L : Type) := ListCore {
  is_attached : G → L → bool;
  origin_table : G → L → Z;
  origin_row : G → L → Z;
  column_holds : G → L → list bool;
  target_table : G → L → Z;
  list_rows : G → L → list Z;
  import_list : G → L → option L
}.
Arguments ListCore {G L}.
Arguments is_attached {G L}.
Arguments origin_table {G L}.
Arguments origin_row {G L}.
Arguments column_holds {G L}.
Arguments target_table {G L}.
Arguments list_rows {G L}.
Arguments import_list {G L}.

(** [ListNotifier] and [PrimitiveListNotifier] have the same fields; [key] is where the changes are stored while the log is observed. *)
Record list_notifier (S L : Type) := ListNotifier_ {
  l_base : notifier S;
  m_lv : option L;
  m_lv_handover : option L;
  m_prev_size : Z;
  m_change : change_builder S;
  key : nat
}.
Arguments ListNotifier_ {S L}.
Arguments l_base {S L}.
Arguments m_lv {S L}.
Arguments m_lv_handover {S L}.
Arguments m_prev_size {S L}.
Arguments m_change {S L}.
Arguments key {S L}.

(** The first row of the checker's path has to be there four times. *)
Definition checking_path : list PathEntry := replicate 4 (Path 0 0 0 false).

(** [get_modification_checker] finds the related tables anew when the schema changed. *)
Definition checker_base {S} (fuel : nat) (tables : group) (info : change_info S) (base : notifier S) (root : Z) : option (notifier S) :=
  if schema_changed info then Notifier.set_table fuel tables base root else Some base.

Module ListNotifier.
Section list_notifier.
Context {S G L : Type} `{IndexSets S} (core : list_core G L).
Implicit Types (n : list_notifier S L) (g : G) (l : L) (info : change_info S).

Definition with_change n c : list_notifier S L := ListNotifier_ (l_base n) (m_lv n) (m_lv_handover n) (m_prev_size n) c (key n).
Definition with_base n base : list_notifier S L := ListNotifier_ base (m_lv n) (m_lv_handover n) (m_prev_size n) (m_change n) (key n).
Definition with_size n size : list_notifier S L := ListNotifier_ (l_base n) (m_lv n) (m_lv_handover n) size (m_change n) (key n).

(** The constructor, of a list in the version [g] of the Realm of the client *)
Definition create (fuel : nat) (tables : G → group) (version : Z) (k : nat) g l : option (list_notifier S L) :=
  base ← Notifier.set_table fuel (tables g) (Notifier.new version) (target_table core g l);
  Some (ListNotifier_ base None (Some l) (Z.of_nat (length (list_rows core g l))) Changes.new k).

Definition release_data n : list_notifier S L := ListNotifier_ (l_base n) None (m_lv_handover n) (m_prev_size n) (m_change n) (key n).

Definition do_attach_to g n : option (list_notifier S L) :=
  l ← m_lv_handover n;
  REALM_ASSERT (match m_lv n with None => true | Some _ => false end) ;;
  Some (ListNotifier_ (l_base n) (import_list core g l) None (m_prev_size n) (m_change n) (key n)).

Definition do_detach_from n : option (list_notifier S L) :=
  REALM_ASSERT (match m_lv_handover n with None => true | Some _ => false end) ;;
  Some (ListNotifier_ (l_base n) None (m_lv n) (m_prev_size n) (m_change n) (key n)).

(** [m_lv && m_lv->is_attached()] *)
Definition attached g n : option L := l ← m_lv n; if is_attached core g l then Some l else None.

Definition do_add_required_change_info g info n : option (change_info S * bool) :=
  REALM_ASSERT (match m_lv_handover n with None => true | Some _ => false end) ;;
  match attached g n with
  | None => Some (info, false)
  | Some l =>
      col_ndx ← find_container_column (column_holds core g l);
      let list := ListChangeInfo (origin_table core g l) (origin_row core g l) col_ndx (key n) in
      Some (Log.with_list_changes (Log.with_lists info (lists info ++ [list])) (<[key n := m_change n]> (list_changes info)), true)
  end.

(** [CollectionNotifier::add_required_change_info] *)
Definition add_required_change_info g info n : option (change_info S) :=
  '(info, more) ← do_add_required_change_info g info n;
  if negb more then Some info else
  Some (Log.with_needed info (Notifier.add_required_change_info (l_base n) (table_modifications_needed info)) (table_moves_needed info)).

(** What the observer wrote to [m_change] *)
Definition observed_change info n : list_notifier S L := with_change n (default (m_change n) (list_changes info !! key n)).

(** The list was deleted. *)
Definition run_deleted n : option (list_notifier S L) :=
  if negb (m_prev_size n =? 0) then
    d ← is_set (m_prev_size n);
    Some (with_size (with_change n (Changes.with_deletions (m_change n) d)) 0)
  else Some (with_change n Changes.new).

(** The loop over the rows from position [i] on, and the loop over the moves.  Both ask the same modification checker, whose state is
    that of the question before. *)
Definition check_row {C} (row_did_change : Z → C → option (C * bool)) (r i : Z) : C * S → option (C * S) := λ '(st, s),
  known ← is_contains s i;
  if known : bool then Some (st, s) else
  '(st, changed) ← row_did_change r st;
  s ← (if changed : bool then is_add s i else Some s);
  Some (st, s).
Fixpoint check_rows {C} (row_did_change : Z → C → option (C * bool)) (rows : list Z) (i : Z) (st : C * S) : option (C * S) :=
  match rows with
  | [] => Some st
  | r :: rows => st ← check_row row_did_change r i st; check_rows row_did_change rows (i + 1) st
  end.
Definition check_moves {C} (row_did_change : Z → C → option (C * bool)) (rows : list Z) (moves : list Move) (st : C * S) : option (C * S) :=
  foldM (λ (mv : Move) st, r ← rows !! Z.to_nat mv.2; check_row row_did_change r mv.2 st) moves st.

(** The modification checker: a function object whose state is the rows found unmodified and the path. *)
Definition row_did_change (tables : group) info n (root r : Z) : Deep.checker → option (Deep.checker * bool) :=
  Deep.modification_checker tables (TransactLog.tables info) (m_related_tables (l_base n)) root r.

Definition run (fuel : nat) (tables : G → group) g info n : option (list_notifier S L) :=
  match attached g n with
  | None => run_deleted n
  | Some l =>
      base ← checker_base fuel (tables g) info (l_base n) (target_table core g l);
      let n := with_base n base in
      let rows := list_rows core g l in
      let did_change := row_did_change (tables g) info n (target_table core g l) in
      st ← check_rows did_change rows 0 (Deep.Checker [] checking_path, modifications (m_change n));
      '(_, s) ← check_moves did_change rows (moves (m_change n)) st;
      Some (with_size (with_change n (Changes.with_modifications (m_change n) s)) (Z.of_nat (length rows)))
  end.

Definition do_prepare_handover n : option (list_notifier S L) :=
  base ← Notifier.add_changes (l_base n) (m_change n);
  Some (ListNotifier_ base (m_lv n) (m_lv_handover n) (m_prev_size n) (Notifier.moved_from (m_change n)) (key n)).

(** ** [PrimitiveListNotifier]

    The list is a subtable; only its own changes are reported. *)

Definition primitive_attach_to g n : option (list_notifier S L) :=
  REALM_ASSERT (match m_lv n with None => true | Some _ => false end) ;;
  Some (ListNotifier_ (l_base n) (l ← m_lv_handover n; import_list core g l) None (m_prev_size n) (m_change n) (key n)).

Definition primitive_detach_from g n : option (list_notifier S L) :=
  REALM_ASSERT (match m_lv_handover n with None => true | Some _ => false end) ;;
  Some (ListNotifier_ (l_base n) None (attached g n) (m_prev_size n) (m_change n) (key n)).

Definition primitive_run g n : option (list_notifier S L) :=
  match attached g n with
  | None => run_deleted n
  | Some l =>
      d ← (match is_ranges (deletions (m_change n)) with
           | r :: _ => if r.2 =? npos then is_set (m_prev_size n) else Some (deletions (m_change n))
           | [] => Some (deletions (m_change n))
           end);
      Some (with_size (with_change n (Changes.with_deletions (m_change n) d)) (Z.of_nat (length (list_rows core g l))))
  end.
End list_notifier.
End ListNotifier.

(** ** [ObjectNotifier] *)

(** A row of the Realm core *)
Record row_core (G R : Type) := RowCore {
  row_attached : G → R → bool;
  row_table : G → R → Z;
  row_index : G → R → Z;
  import_row : G → R → option R
}.
Arguments RowCore {G R}.
Arguments row_attached {G R}.
Arguments row_table {G R}.
Arguments row_index {G R}.
Arguments import_row {G R}.

Record object_notifier (S R : Type) := ObjectNotifier_ {
  o_base : notifier S;
  m_row : option R;
  m_handover : option R;
  o_change : change_builder S
}.
Arguments ObjectNotifier_ {S R}.
Arguments o_base {S R}.
Arguments m_row {S R}.
Arguments m_handover {S R}.
Arguments o_change {S R}.

Module ObjectNotifier.
Section object_notifier.
Context {S G R : Type} `{IndexSets S} (core : row_core G R).
Implicit Types (n : object_notifier S R) (g : G) (info : change_info S).

Definition create (fuel : nat) (tables : G → group) (version : Z) g (r : R) : option (object_notifier S R) :=
  base ← Notifier.set_table fuel (tables g) (Notifier.new version) (row_table core g r);
  Some (ObjectNotifier_ base None (Some r) Changes.new).

Definition release_data n : object_notifier S R := ObjectNotifier_ (o_base n) None (m_handover n) (o_change n).

Definition do_attach_to g n : option (object_notifier S R) :=
  r ← m_handover n;
  REALM_ASSERT (match m_row n with None => true | Some _ => false end) ;;
  Some (ObjectNotifier_ (o_base n) (import_row core g r) None (o_change n)).

Definition do_detach_from n : option (object_notifier S R) :=
  REALM_ASSERT (match m_handover n with None => true | Some _ => false end) ;;
  Some (ObjectNotifier_ (o_base n) None (m_row n) (o_change n)).

(** [add_required_change_info]: the deep checker is never asked for. *)
Definition do_add_required_change_info g info n : option (change_info S * bool) :=
  REALM_ASSERT (match m_handover n with None => true | Some _ => false end) ;;
  match m_row n with
  | Some r =>
      if negb (row_attached core g r) then Some (info, false) else
      let table_ndx := Z.to_nat (row_table core g r) in
      let flags := table_modifications_needed info in
      let flags := if (length flags <=? table_ndx)%nat then resize (table_ndx + 1) false flags else flags in
      Some (Log.with_needed info (<[table_ndx := true]> flags) (table_moves_needed info), false)
  | None => Some (info, false)
  end.

(** The columns of the row *)
Fixpoint row_columns (row : Z) (columns : list S) : option (list S) :=
  match columns with
  | [] => Some []
  | col :: columns =>
      b ← is_contains col row;
      c ← (if b : bool then is_add is_new 0 else Some is_new);
      cs ← row_columns row columns; Some (c :: cs)
  end.

Definition run g info n : option (object_notifier S R) :=
  match m_row n with
  | None => Some n
  | Some r =>
      if negb (row_attached core g r) then
        d ← is_add (deletions (o_change n)) 0;
        Some (ObjectNotifier_ (o_base n) None (m_handover n) (Changes.with_deletions (o_change n) d))
      else
        match tables info !! Z.to_nat (row_table core g r) with
        | None => Some n
        | Some change =>
            modified ← is_contains (modifications change) (row_index core g r);
            if negb modified then Some n else
            ms ← is_add (modifications (o_change n)) 0;
            cols ← row_columns (row_index core g r) (columns change);
            Some (ObjectNotifier_ (o_base n) (m_row n) (m_handover n)
                    (Changes.with_columns (Changes.with_modifications (o_change n) ms) (columns (o_change n) ++ cols)))
        end
  end.

Definition do_prepare_handover n : option (object_notifier S R) :=
  base ← Notifier.add_changes (o_base n) (o_change n);
  Some (ObjectNotifier_ base (m_row n) (m_handover n) (Notifier.moved_from (o_change n))).
End object_notifier.
End ObjectNotifier.

(** ** [ResultsNotifier] *)

(** A query and a [DescriptorOrdering] of the Realm core: [find_rows] is [find_all] and [apply_descriptor_ordering]; the two versions are
    what [sync_view_if_needed] returns on the query and on the view. *)
Record query_core (G Q D : Type) := QueryCore {
  q_attached : G → Q → bool;
  q_table : G → Q → Z;
  q_table_index : G → Q → Z;
  q_parent_table : G → Q → Z;
  q_parent_row : G → Q → Z;
  q_column_holds : G → Q → list bool;
  query_version : G → Q → Z;
  view_version : G → Q → D → Z;
  find_rows : G → Q → D → list Z;
  will_apply_sort : D → bool;
  import_query : G → Q → Q
}.
Arguments QueryCore {G Q D}.
Arguments q_attached {G Q D}.
Arguments q_table {G Q D}.
Arguments q_table_index {G Q D}.
Arguments q_parent_table {G Q D}.
Arguments q_parent_row {G Q D}.
Arguments q_column_holds {G Q D}.
Arguments query_version {G Q D}.
Arguments view_version {G Q D}.
Arguments find_rows {G Q D}.
Arguments will_apply_sort {G Q D}.
Arguments import_query {G Q D}.

(** A [TableView] is known by its rows, in handover form with its version. *)
Record results_notifier (S Q D : Type) := ResultsNotifier_ {
  r_base : notifier S;
  m_target_is_in_table_order : bool;
  m_descriptor_ordering : D;
  m_query : option Q;
  m_query_handover : option Q;
  m_tv : option (list Z);
  m_tv_handover : option (list Z * Z);
  m_tv_to_deliver : option (list Z * Z);
  m_last_seen_version : Z;
  m_previous_rows : list Z;
  m_changes : change_builder S;
  r_key : nat
}.
Arguments ResultsNotifier_ {S Q D}.
Arguments r_base {S Q D}.
Arguments m_target_is_in_table_order {S Q D}.
Arguments m_descriptor_ordering {S Q D}.
Arguments m_query {S Q D}.
Arguments m_query_handover {S Q D}.
Arguments m_tv {S Q D}.
Arguments m_tv_handover {S Q D}.
Arguments m_tv_to_deliver {S Q D}.
Arguments m_last_seen_version {S Q D}.
Arguments m_previous_rows {S Q D}.
Arguments m_changes {S Q D}.
Arguments r_key {S Q D}.

Module ResultsNotifier.
Section results_notifier.
Context {S G Q D : Type} `{IndexSets S} `{Sorts} (core : query_core G Q D).
Implicit Types (n : results_notifier S Q D) (g : G) (info : change_info S).

Definition with_query n q h : results_notifier S Q D :=
  ResultsNotifier_ (r_base n) (m_target_is_in_table_order n) (m_descriptor_ordering n) q h (m_tv n) (m_tv_handover n) (m_tv_to_deliver n)
    (m_last_seen_version n) (m_previous_rows n) (m_changes n) (r_key n).
Definition with_views n tv handover deliver : results_notifier S Q D :=
  ResultsNotifier_ (r_base n) (m_target_is_in_table_order n) (m_descriptor_ordering n) (m_query n) (m_query_handover n) tv handover deliver
    (m_last_seen_version n) (m_previous_rows n) (m_changes n) (r_key n).
Definition with_seen n version : results_notifier S Q D :=
  ResultsNotifier_ (r_base n) (m_target_is_in_table_order n) (m_descriptor_ordering n) (m_query n) (m_query_handover n) (m_tv n) (m_tv_handover n) (m_tv_to_deliver n)
    version (m_previous_rows n) (m_changes n) (r_key n).
Definition with_rows n rows changes : results_notifier S Q D :=
  ResultsNotifier_ (r_base n) (m_target_is_in_table_order n) (m_descriptor_ordering n) (m_query n) (m_query_handover n) (m_tv n) (m_tv_handover n) (m_tv_to_deliver n)
    (m_last_seen_version n) rows changes (r_key n).
Definition with_base n base changes : results_notifier S Q D :=
  ResultsNotifier_ base (m_target_is_in_table_order n) (m_descriptor_ordering n) (m_query n) (m_query_handover n) (m_tv n) (m_tv_handover n) (m_tv_to_deliver n)
    (m_last_seen_version n) (m_previous_rows n) changes (r_key n).

Definition create (fuel : nat) (tables : G → group) (version : Z) (k : nat) (in_table_order : bool) g (q : Q) (d : D) : option (results_notifier S Q D) :=
  base ← Notifier.set_table fuel (tables g) (Notifier.new version) (q_table core g q);
  Some (ResultsNotifier_ base in_table_order d None (Some q) None None None (W64 - 1) [] Changes.new k).

Definition release_data n : results_notifier S Q D := with_query n None (m_query_handover n).

Definition do_attach_to g n : option (results_notifier S Q D) :=
  q ← m_query_handover n; Some (with_query n (Some (import_query core g q)) None).
Definition do_detach_from n : option (results_notifier S Q D) :=
  q ← m_query n; REALM_ASSERT (match m_tv n with None => true | Some _ => false end) ;; Some (with_query n None (Some q)).

Definition do_add_required_change_info g info n : option (change_info S * bool) :=
  q ← m_query n;
  if negb (q_attached core g q) then Some (info, false) else
  info ← (if q_table_index core g q =? npos then
            col_ndx ← find_container_column (q_column_holds core g q);
            let list := ListChangeInfo (q_parent_table core g q) (q_parent_row core g q) col_ndx (r_key n) in
            Some (Log.with_list_changes (Log.with_lists info (lists info ++ [list])) (<[r_key n := m_changes n]> (list_changes info)))
          else
            let table_ndx := Z.to_nat (q_table_index core g q) in
            let flags := table_moves_needed info in
            let flags := if (length flags <=? table_ndx)%nat then resize (table_ndx + 1) false flags else flags in
            Some (Log.with_needed info (table_modifications_needed info) (<[table_ndx := true]> flags)));
  Some (info, m_has_run (r_base n) && m_have_callbacks (r_base n)).

(** What the observer wrote to [m_changes] *)
Definition observed_change info n : results_notifier S Q D := with_rows n (m_previous_rows n) (default (m_changes n) (list_changes info !! r_key n)).

(** [wanted]: the client still has the Realm, and [wants_background_updates] *)
Definition need_to_run (realm wanted : bool) g (q : Q) n : option bool :=
  REALM_ASSERT (match m_tv n with None => true | Some _ => false end) ;;
  if negb realm || (negb (m_have_callbacks (r_base n)) && negb wanted) then Some false else
  Some (negb (m_has_run (r_base n) && (query_version core g q =? m_last_seen_version n))).

(** Where the change set takes a row of the table *)
Definition moved_row (c : change_builder S) (idx : Z) : option Z :=
  gone ← is_contains (deletions c) idx;
  if gone : bool then
    Some (match moves c !! find_if (λ m : Move, negb (m.1 <? idx)) (moves c) with
          | Some m => if m.1 =? idx then m.2 else npos
          | None => npos
          end)
  else u ← is_unshift (deletions c) idx; Some (is_shift (insertions c) u).

(** The modification checker, with its state *)
Definition row_did_change (tables : group) info n (root r : Z) : Deep.checker → option (Deep.checker * bool) :=
  Deep.modification_checker tables (TransactLog.tables info) (m_related_tables (r_base n)) root r.

Definition calculate_changes (fuel : nat) (tables : G → group) g info (q : Q) (rows : list Z) n : option (results_notifier S Q D) :=
  if m_has_run (r_base n) && m_have_callbacks (r_base n) then
    let table_ndx := q_table_index core g q in
    let changes := if table_ndx =? npos then Some (m_changes n) else TransactLog.tables info !! Z.to_nat table_ndx in
    '(previous, move_candidates) ←
      match changes with
      | Some c =>
          previous ← mapM (moved_row c) (m_previous_rows n);
          Some (previous, if m_target_is_in_table_order n && negb (will_apply_sort core (m_descriptor_ordering n)) then Some (insertions c) else None)
      | None => Some (m_previous_rows n, None)
      end;
    base ← checker_base fuel (tables g) info (r_base n) (q_table core g q);
    let n := with_base n base (m_changes n) in
    c ← Calculate.calculate previous rows (row_did_change (tables g) info n (q_table core g q)) (Deep.Checker [] checking_path) move_candidates;
    Some (with_rows n rows c)
  else Some (with_rows n rows (m_changes n)).

Definition run (fuel : nat) (tables : G → group) (realm wanted : bool) g info n : option (results_notifier S Q D) :=
  q ← m_query n;
  if negb (q_attached core g q) then
    d ← is_set (Z.of_nat (length (m_previous_rows n)));
    Some (with_rows n [] (Changes.with_deletions Changes.new d))
  else
    needed ← need_to_run realm wanted g q n;
    if negb needed then Some n else
    let rows := find_rows core g q (m_descriptor_ordering n) in
    calculate_changes fuel tables g info q rows (with_seen (with_views n (Some rows) (m_tv_handover n) (m_tv_to_deliver n)) (view_version core g q (m_descriptor_ordering n))).

(** [version] is that of the shared group. *)
Definition do_prepare_handover (version : Z) n : option (results_notifier S Q D) :=
  base ← Notifier.add_changes (r_base n) (m_changes n);
  let n := with_base n base (Notifier.moved_from (m_changes n)) in
  match m_tv n with
  | None => Some (with_views n None ((λ h, (h.1, version)) <$> m_tv_handover n) (m_tv_to_deliver n))
  | Some rows =>
      REALM_ASSERT (Changes.empty (m_changes n)) ;;
      Some (with_views n None (Some (rows, version)) (m_tv_to_deliver n))
  end.

Definition prepare_to_deliver (realm : bool) n : results_notifier S Q D * bool :=
  if negb realm then (n, false) else (with_views n (m_tv n) None (m_tv_handover n), true).

(** [deliver]: the rows that the client's results get *)
Definition deliver (realm : bool) n : option (results_notifier S Q D * option (list Z)) :=
  if negb realm then Some (n, None) else
  REALM_ASSERT (match m_query_handover n with None => true | Some _ => false end) ;;
  Some (with_views n (m_tv n) (m_tv_handover n) None, fst <$> m_tv_to_deliver n).
End results_notifier.
End ResultsNotifier.

(** ** The modification checker *)

Import Calculate(len).

(** The tables can be checked for the class [root], all links among the tables [U]. *)
Record checkable {S} `{IndexSets S, !IndexSetLaws S} (U : list Z) (g : group) (ts : list (change_builder S)) (root : Z) (related : list RelatedTable) : Prop := {
  ck_closed : closed g U;
  ck_root : root ∈ U;
  ck_sets c : c ∈ ts → is_ok (modifications c);
  ck_rows t r c t' r' : edge g t r c t' r' → DeepChangeSpec.in_bounds r';
  ck_related : Deep.find_related_tables (Datatypes.S (length U)) g [] root = Some related
}.
(** The row was modified, or one that it links to over at most three links; when the class links to no other class, links are not followed. *)
Definition changed {S} `{IndexSets S} (g : group) (ts : list (change_builder S)) (root r : Z) : Prop :=
  modified ts root r ∨ links_elsewhere g root ∧ near g ts 3 root r.

Lemma checker_answers {S} `{IndexSetLaws S} U g (ts : list (change_builder S)) root related rows :
  checkable U g ts root related → Forall (λ r, 0 <= r < npos) rows →
  answers_for (Deep.modification_checker g ts related root) (search_ok g ts) (changed g ts root) rows.
Proof.
  intros [HU Hr Hs Hrows E] Hn st r Hin Hst. rewrite Forall_forall in Hn.
  destruct (related_tables_spec g U root HU Hr) as (out & E' & Hnd & Ht & He). simplify_eq.
  apply (modification_checker_spec g ts root related); [by apply (related_well_linked g ts U root)|done..|by apply Hn].
Qed.

Section lists.
Context {S G L : Type} `{IndexSetLaws S} (core : list_core G L).
Implicit Types (n : list_notifier S L) (g : G) (s : S).
Import ListNotifier.

Section asked.
Context {C : Type} (did : Z → C → option (C * bool)) (I : C → Prop) (P : Z → Prop).

Lemma row_checked r i st s : answers_for did I P [r] → I st → is_ok s → 0 <= i < npos →
  ∃ st' s', check_row did r i (st, s) = Some (st', s') ∧ I st' ∧ is_ok s' ∧ ∀ j, has s' j ↔ has s j ∨ (j = i ∧ P r).
Proof.
  intros Hdid Hst Hs Hi. unfold check_row. rewrite is_contains_law by done. cbn [mbind option_bind]. destruct (memb i (is_ranges s)) eqn:Em.
  - exists st, s. split_and!; [done..|]. intros j. split; [by left|]. intros [?|[-> _]]; [done|]. by apply memb_mem.
  - destruct (Hdid st r) as (st' & b & -> & Hst' & Hb); [left|done|]. cbn [mbind option_bind]. destruct b.
    + destruct (is_add_law s i Hs) as (s1 & -> & Hs1 & Hm1); [lia|]. exists st', s1. split_and!; [done..|]. intros j. rewrite Hm1. intuition.
    + exists st', s. split_and!; [done..|]. intros j. split; [by left|]. intros [?|[_ HP]]; [done|]. by apply Hb in HP.
Qed.

Lemma check_rows_spec rows i st s :
  answers_for did I P rows → I st → is_ok s → 0 <= i → i + len rows < npos →
  ∃ st' s', check_rows did rows i (st, s) = Some (st', s') ∧ I st' ∧ is_ok s' ∧
    ∀ j, has s' j ↔ has s j ∨ ∃ k r, rows !! k = Some r ∧ j = i + Z.of_nat k ∧ P r.
Proof.
  revert i st s. induction rows as [|r rows IH]; intros i st s Hdid Hst Hs Hi Hlen.
  { exists st, s. split_and!; [done..|]. intros j. split; [by left|]. by intros [?|(k & r & Hk & _)]. }
  cbn [check_rows]. unfold len in *. cbn [length] in Hlen.
  destruct (row_checked r i st s) as (st1 & s1 & -> & Hst1 & Hs1 & Hm1); [|done..|lia|].
  { intros x y ->%list_elem_of_singleton. apply Hdid. left. }
  cbn [mbind option_bind]. destruct (IH (i + 1) st1 s1) as (st' & s' & E' & Hst' & Hs' & Hm'); [intros x y Hy; apply Hdid; by right|done|done|lia|lia|].
  exists st', s'. split_and!; [done..|]. intros j. rewrite Hm', Hm1. split.
  - intros [[?|[-> ?]]|(k & x & Hk & -> & ?)]; [by left|right; exists 0%nat, r; split_and!; [done|lia|done]|].
    right. exists (Datatypes.S k), x. split_and!; [done|lia|done].
  - intros [?|(k & x & Hk & -> & ?)]; [by left; left|]. destruct k as [|k]; cbn in Hk; simplify_eq.
    + left. right. split; [lia|done].
    + right. exists k, x. split_and!; [done|lia|done].
Qed.

(** The second loop finds nothing more. *)
Lemma check_moves_spec rows (ms : list Move) st s :
  answers_for did I P rows → I st → is_ok s → len rows < npos → Forall (λ m : Move, 0 <= m.2 < len rows) ms →
  (∀ k r, rows !! k = Some r → P r → has s (Z.of_nat k)) →
  ∃ st' s', check_moves did rows ms (st, s) = Some (st', s') ∧ is_ok s' ∧ ∀ j, has s' j ↔ has s j.
Proof.
  intros Hdid Hst Hs Hlen Hms. revert st s Hst Hs. unfold check_moves.
  induction Hms as [|m ms Hm _ IH]; intros st s Hst Hs HP; cbn [foldM]; [by exists st, s|].
  destruct (lookup_lt_is_Some_2 rows (Z.to_nat m.2)) as [r Er]; [unfold len in Hm; lia|]. rewrite Er. cbn [mbind option_bind].
  destruct (row_checked r m.2 st s) as (st1 & s1 & -> & Hst1 & Hs1 & Hm1); [|done..|lia|].
  { intros x y ->%list_elem_of_singleton. apply Hdid. by apply list_elem_of_lookup_2 in Er. }
  assert (∀ j, has s1 j ↔ has s j) as Hsame.
  { intros j. rewrite Hm1. split; [intros [?|[-> Hr]]; [done|]|by left]. rewrite <- (Z2Nat.id m.2) by lia. by apply (HP _ r). }
  cbn [mbind option_bind]. destruct (IH st1 s1 Hst1 Hs1) as (st' & s' & -> & Hs' & Hm').
  { intros k x Hk Hx. apply Hsame. by apply (HP k x). }
  exists st', s'. split_and!; [done..|]. intros j. by rewrite Hm'.
Qed.
End asked.

(** C40: the run of a list notifier adds to the observed changes exactly the positions whose rows changed, and remembers the size.  A row
    changed when it was modified, or when a row was that it links to over at most three links; only for a class whose links lead to no
    other class are links not followed.  One modification checker answers for all rows of the run. *)
Theorem list_run_correct fuel (tables : G → group) g (info : change_info S) n l U base :
  attached core g n = Some l → checker_base fuel (tables g) info (l_base n) (target_table core g l) = Some base →
  checkable U (tables g) (TransactLog.tables info) (target_table core g l) (m_related_tables base) →
  is_ok (modifications (m_change n)) → len (list_rows core g l) < npos → Forall (λ r, 0 <= r < npos) (list_rows core g l) →
  Forall (λ m : Move, 0 <= m.2 < len (list_rows core g l)) (moves (m_change n)) →
  ∃ s, run core fuel tables g info n = Some (with_size (with_change (with_base n base) (Changes.with_modifications (m_change n) s)) (len (list_rows core g l))) ∧ is_ok s ∧
    ∀ j, has s j ↔ has (modifications (m_change n)) j ∨
      ∃ k r, list_rows core g l !! k = Some r ∧ j = Z.of_nat k ∧ changed (tables g) (TransactLog.tables info) (target_table core g l) r.
Proof.
  intros Hatt Hbase Hck Hs Hlen Hrows Hms. unfold run. rewrite Hatt, Hbase. cbn [mbind option_bind].
  assert (answers_for (row_did_change (tables g) info (with_base n base) (target_table core g l)) (search_ok (tables g) (TransactLog.tables info))
    (changed (tables g) (TransactLog.tables info) (target_table core g l)) (list_rows core g l)) as Hdid by by apply (checker_answers U).
  change (m_change (with_base n base)) with (m_change n).
  destruct (check_rows_spec _ _ _ (list_rows core g l) 0 (Deep.Checker [] checking_path) (modifications (m_change n)) Hdid)
    as (st & s & -> & Hst & Hs' & Hm); [by apply search_ok_start|done|lia|lia|].
  cbn [mbind option_bind]. destruct (check_moves_spec _ _ _ (list_rows core g l) (moves (m_change n)) st s Hdid) as (st' & s' & -> & Hs1 & Hm1); [done..| |].
  { intros k r Hk HP. apply Hm. right. by exists k, r. }
  cbn [mbind option_bind]. exists s'. split_and!; [done..|]. intros j. by rewrite Hm1, Hm.
Qed.
End lists.

(** ** Rows of a table *)

Section moved.
Context {S : Type} `{IndexSetLaws S}.
Implicit Types (c : change_builder S).
Import ResultsNotifier.

(** Where the row [i] of the old table is now; [npos] when it is gone. *)
Definition now_at c (i r : Z) : Prop := follows c i r ∨ (r = npos ∧ ∀ j, ¬ follows c i j).

Lemma lower_bound_moves (ms : list Move) i : StronglySorted (λ a b : Move, a.1 < b.1) ms →
  match ms !! find_if (λ m : Move, negb (m.1 <? i)) ms with
  | Some m => if m.1 =? i then m ∈ ms ∧ m.1 = i else ∀ j, (i, j) ∉ ms
  | None => ∀ j, (i, j) ∉ ms
  end.
Proof.
  induction 1 as [|m ms Hs IH Hm]; [by intros j ?%elem_of_nil|]. cbn [find_if]. destruct (Z.ltb_spec m.1 i) as [Hlt|Hge]; cbn [negb lookup list_lookup].
  - assert (∀ j, (i, j) ∉ ms → (i, j) ∉ m :: ms) as Hskip by (intros j Hj [<-|?]%elem_of_cons; [cbn in Hlt; lia|done]).
    destruct (ms !! _) as [m'|]; [|intros j; by apply Hskip].
    destruct (m'.1 =? i); [|intros j; by apply Hskip]. destruct IH as [? ?]. split; [by right|done].
  - destruct (Z.eqb_spec m.1 i) as [E|E]; [split; [left|done]|]. intros j [<-|Hj]%elem_of_cons; [done|].
    rewrite Forall_forall in Hm. specialize (Hm _ Hj). cbn in Hm. lia.
Qed.

Lemma moved_row_spec N c i : wf c → within N c → N + N < npos → moves_ok c → StronglySorted (λ a b : Move, a.1 < b.1) (moves c) → 0 <= i < N →
  ∃ r, moved_row c i = Some r ∧ now_at c i r.
Proof.
  intros Hwf Hw HN (Hmv & Hnd & _) Hsort Hi. pose proof Hwf as (Hd & _). unfold moved_row.
  rewrite is_contains_law by done. cbn [mbind option_bind]. destruct (memb i (is_ranges (deletions c))) eqn:Em.
  - apply memb_mem in Em. assert (∀ j, ¬ kept c i j) as Hk by (intros j (_ & _ & _ & N' & _); done).
    pose proof (lower_bound_moves (moves c) i Hsort) as Hlb. destruct (moves c !! _) as [m|].
    + destruct (Z.eqb_spec m.1 i) as [E|E].
      * exists m.2. split; [done|]. left. right. destruct Hlb as [Hin _]. rewrite <- E. by destruct m.
      * exists npos. split; [done|]. right. split; [done|]. intros j [?|?]; [by apply (Hk j)|by apply (Hlb j)].
    + exists npos. split; [done|]. right. split; [done|]. intros j [?|?]; [by apply (Hk j)|by apply (Hlb j)].
  - assert (¬ has (deletions c) i) as Hn by (intros M; apply memb_mem in M; congruence).
    rewrite is_unshift_law by (done || lia). cbn [mbind option_bind]. eexists. split; [done|]. left. left.
    apply (kept_iff_shift N); done.
Qed.

Lemma moved_rows_spec N c rows : wf c → within N c → N + N < npos → moves_ok c → StronglySorted (λ a b : Move, a.1 < b.1) (moves c) →
  Forall (λ r, 0 <= r < N) rows → ∃ rows', mapM (moved_row c) rows = Some rows' ∧ Forall2 (now_at c) rows rows'.
Proof.
  intros Hwf Hw HN Hm Hs. induction 1 as [|r rows Hr _ (rows' & E & Hrows)]; [exists []; by split|].
  destruct (moved_row_spec N c r) as (r' & Er & Hr'); [done..|]. exists (r' :: rows'). split; [|by constructor].
  cbn [mapM mbind option_bind]. rewrite Er. cbn [mbind option_bind]. by rewrite E.
Qed.
End moved.

Section results.
Context {S G Q D : Type} {ops : IndexSets S} {laws : IndexSetLaws S} {sorts : Sorts} {sort_laws : SortLaws} (core : query_core G Q D).
Implicit Types (n : results_notifier S Q D) (g : G) (c : change_builder S).
Import ResultsNotifier.

(** The changes [c] of a table below [N] can be followed. *)
Record tracked (N : Z) c : Prop := {
  tr_wf : wf c;
  tr_within : within N c;
  tr_small : N + N < npos;
  tr_moves : moves_ok c;
  tr_sorted : StronglySorted (λ a b : Move, a.1 < b.1) (moves c)
}.

(** A change set leads from the rows [previous] to the rows [next], of which those with [P] are modified. *)
Record leads (P : Z → Prop) (previous next : list Z) c : Prop := {
  le_rows : rows_outside (deletions c) previous = rows_outside (insertions c) next;
  le_range : (∀ i, has (deletions c) i → 0 <= i < len previous) ∧ (∀ j, has (insertions c) j → 0 <= j < len next);
  le_gone i : 0 <= i → previous !! Z.to_nat i = Some npos → has (deletions c) i;
  le_modified j : has (modifications c) j → ∃ r, next !! Z.to_nat j = Some r ∧ r ∈ previous ∧ P r;
  le_all_modified j r : NoDup next → 0 <= j → next !! Z.to_nat j = Some r → r ∈ previous → P r → has (modifications c) j;
  le_moves m : m ∈ moves c → has (deletions c) m.1 ∧ has (insertions c) m.2 ∧ previous !! Z.to_nat m.1 = next !! Z.to_nat m.2
}.

Definition in_table_order n : bool := m_target_is_in_table_order n && negb (will_apply_sort core (m_descriptor_ordering n)).

Lemma calculate_leads {C} (did : Z → C → option (C * bool)) (I : C → Prop) (P : Z → Prop) st previous next cands :
  answers_for did I P next → I st → Forall (λ r, r < npos) next → len previous + len next < npos →
  match cands with None => True | Some s => is_ok s ∧ movable previous next s end →
  ∃ c, Calculate.calculate previous next did st cands = Some c ∧ leads P previous next c.
Proof.
  intros HP Hst Hlt Hlen Hc. destruct (calculate_spec previous next did I P st cands Hlen HP Hst Hc) as (c & -> & H1 & H2 & H3 & H4 & H5 & H6 & H7).
  exists c. split; [done|]. rewrite Forall_forall in Hlt. split; try done.
  intros j r Hnd Hj Hr Hin Hp. pose proof (list_elem_of_lookup_2 _ _ _ Hr) as Hn. pose proof (Hlt r Hn). apply (H6 Hnd j r Hj Hr Hin); [lia|done].
Qed.

(** C39: when the results of a query have to be calculated again, the run follows the previous rows to where the changes of the table
    take them, and reports a change set that leads from these to the new rows, with the rows that changed themselves or through
    what they link to; the new rows are kept for the next run and for the client.  One modification checker answers for all rows of the
    run.  Two limits: for results in table order the rows are assumed to have moved towards the front of the table only ([movable]; after
    a swap of rows the self check of the calculation can fail), and for a class whose links lead to no other class links are not
    followed. *)
Theorem results_run_correct fuel (tables : G → group) g (info : change_info S) n q U N c wanted base :
  m_query n = Some q → q_attached core g q = true → m_tv n = None → m_has_run (r_base n) = true → m_have_callbacks (r_base n) = true →
  query_version core g q ≠ m_last_seen_version n → q_table_index core g q ≠ npos →
  TransactLog.tables info !! Z.to_nat (q_table_index core g q) = Some c → tracked N c →
  checker_base fuel (tables g) info (r_base n) (q_table core g q) = Some base →
  checkable U (tables g) (TransactLog.tables info) (q_table core g q) (m_related_tables base) →
  let next := find_rows core g q (m_descriptor_ordering n) in
  Forall (λ r, 0 <= r < N) (m_previous_rows n) → Forall (λ r, 0 <= r < N) next → len (m_previous_rows n) + len next < npos →
  (in_table_order n = true → ∀ previous, Forall2 (now_at c) (m_previous_rows n) previous → movable previous next (insertions c)) →
  ∃ n' previous, run core fuel tables true wanted g info n = Some n' ∧ Forall2 (now_at c) (m_previous_rows n) previous ∧
    leads (changed (tables g) (TransactLog.tables info) (q_table core g q)) previous next (m_changes n') ∧
    m_previous_rows n' = next ∧ m_tv n' = Some next ∧ m_last_seen_version n' = view_version core g q (m_descriptor_ordering n).
Proof.
  intros Hq Hatt Htv Hrun Hcb Hv Hidx Hc [Hwf Hwin HN Hmv Hsort] Hbase Hck next Hprev Hnext Hlen Hord.
  destruct (moved_rows_spec N c (m_previous_rows n)) as (previous & Em & Hprevious); [done..|].
  destruct (calculate_leads (row_did_change (tables g) info (with_base n base (m_changes n)) (q_table core g q))
              (search_ok (tables g) (TransactLog.tables info)) (changed (tables g) (TransactLog.tables info) (q_table core g q))
              (Deep.Checker [] checking_path) previous next (if in_table_order n then Some (insertions c) else None)) as (r & Er & Hr).
  - unfold row_did_change. cbn [with_base r_base]. eapply checker_answers; [exact Hck|]. eapply Forall_impl; [exact Hnext|]. cbn. lia.
  - by apply search_ok_start.
  - eapply Forall_impl; [exact Hnext|]. cbn. lia.
  - apply Forall2_length in Hprevious. unfold len in *. lia.
  - destruct (in_table_order n); [|done]. split; [apply Hwf|by apply Hord].
  - unfold run. rewrite Hq. cbn [mbind option_bind]. rewrite Hatt. cbn [negb]. unfold need_to_run. rewrite Htv, Hcb, Hrun. cbn [check mbind option_bind negb orb andb].
    assert (query_version core g q =? m_last_seen_version n = false) as -> by lia. cbn [negb].
    unfold calculate_changes. cbn [with_seen with_views r_base]. rewrite Hrun, Hcb. cbn [andb].
    assert (q_table_index core g q =? npos = false) as -> by lia. rewrite Hc. cbn [with_seen with_views m_previous_rows]. rewrite Em. cbn [mbind option_bind].
    fold next. cbn [with_seen with_views m_target_is_in_table_order m_descriptor_ordering]. fold (in_table_order n).
    cbn [with_seen with_views r_base]. rewrite Hbase. cbn [mbind option_bind].
    match goal with |- context [Calculate.calculate ?a ?b ?d ?st ?e] => assert (Calculate.calculate a b d st e = Some r) as -> by exact Er end.
    cbn [mbind option_bind]. eexists _, previous. split; [done|]. by cbn.
Qed.
End results.

(** ** Objects, and collections that are gone *)

Section gone.
Context {S G L R : Type} `{IndexSetLaws S}.

(** A list that was deleted loses the rows it had, and nothing is reported for it any more once that was handed over. *)
Lemma list_deleted_once (core : list_core G L) fuel (tables : G → group) g (info : change_info S) (n : list_notifier S L) :
  ListNotifier.attached core g n = None → 0 < m_prev_size n < W64 →
  ∃ n1, ListNotifier.run core fuel tables g info n = Some n1 ∧ m_prev_size n1 = 0 ∧
    (∀ i, has (deletions (m_change n1)) i ↔ 0 <= i < m_prev_size n) ∧
    ∃ n2, ListNotifier.run core fuel tables g info (ListNotifier.with_change n1 (Notifier.moved_from (m_change n1))) = Some n2 ∧ m_change n2 = Changes.new.
Proof.
  intros Hn Hsize. unfold ListNotifier.run. rewrite Hn. unfold ListNotifier.run_deleted.
  assert (m_prev_size n =? 0 = false) as -> by lia. cbn [negb]. destruct (is_set_law (S := S) (m_prev_size n)) as (d & -> & Hd & Hm); [lia|].
  cbn [mbind option_bind]. eexists. split; [done|]. cbn. split; [done|]. split; [done|].
  match goal with |- context [match ?a with Some _ => _ | None => _ end] => assert (a = None) as -> by exact Hn end. by eexists.
Qed.

Import ObjectNotifier.

Lemma row_columns_spec row (cols : list S) : Forall is_ok cols →
  ∃ cs, row_columns row cols = Some cs ∧ length cs = length cols ∧
    ∀ k col, cols !! k = Some col → ∃ s, cs !! k = Some s ∧ is_ok s ∧ ∀ j, has s j ↔ j = 0 ∧ has col row.
Proof.
  induction 1 as [|col cols Hcol _ (cs & E & Hlen & Hcs)]; [by exists []|]. cbn [row_columns]. rewrite is_contains_law by done. cbn [mbind option_bind].
  destruct is_new_ok as [Hnew _].
  assert (∃ s, (if memb row (is_ranges col) then is_add is_new 0 else Some is_new) = Some s ∧ is_ok s ∧ ∀ j, has s j ↔ j = 0 ∧ has col row) as (s & -> & Hs & Hm).
  { destruct (memb row (is_ranges col)) eqn:Em.
    - destruct (is_add_law is_new 0 Hnew) as (s & -> & Hs & Hm); [lia|]. exists s. split_and!; [done..|]. intros j. rewrite Hm.
      assert (has col row) by by apply memb_mem. split; [intros [?|?%new_has]; done|by intros [? _]; left].
    - exists is_new. split_and!; [done..|]. intros j. split; [by intros ?%new_has|]. intros [_ Hc]. apply memb_mem in Hc. congruence. }
  cbn [mbind option_bind]. rewrite E. cbn [mbind option_bind]. exists (s :: cs). split; [done|]. split; [cbn; lia|].
  intros [|k] x; cbn; [intros [= <-]; by exists s|apply Hcs].
Qed.

(** An object that is still there reports a modification exactly when its row was modified, in exactly the columns of its table that
    were modified in the row. *)
Theorem object_run_correct (core : row_core G R) g (info : change_info S) (n : object_notifier S R) r c :
  m_row n = Some r → row_attached core g r = true → TransactLog.tables info !! Z.to_nat (row_table core g r) = Some c → wf c →
  is_ok (modifications (o_change n)) →
  ∃ n', run core g info n = Some n' ∧ m_row n' = Some r ∧ deletions (o_change n') = deletions (o_change n) ∧
    (∀ j, has (modifications (o_change n')) j ↔ has (modifications (o_change n)) j ∨ (j = 0 ∧ has (modifications c) (row_index core g r))) ∧
    (has (modifications c) (row_index core g r) →
     ∃ cols, columns (o_change n') = columns (o_change n) ++ cols ∧ length cols = length (columns c) ∧
       ∀ k col, columns c !! k = Some col → ∃ s, cols !! k = Some s ∧ ∀ j, has s j ↔ j = 0 ∧ has col (row_index core g r)).
Proof.
  intros Hr Hatt Hc (_ & _ & Hm & Hcols) Ho. unfold run. rewrite Hr, Hatt. cbn [negb]. rewrite Hc, is_contains_law by done. cbn [mbind option_bind].
  destruct (memb (row_index core g r) (is_ranges (modifications c))) eqn:Em; cbn [negb].
  - assert (has (modifications c) (row_index core g r)) as Hhas by by apply memb_mem.
    destruct (is_add_law (modifications (o_change n)) 0 Ho) as (ms & -> & _ & Hms); [lia|]. cbn [mbind option_bind].
    destruct (row_columns_spec (row_index core g r) (columns c) Hcols) as (cs & -> & Hlen & Hcs). cbn [mbind option_bind].
    eexists. split; [done|]. cbn. split; [done|]. split; [done|]. split.
    + intros j. rewrite Hms. intuition.
    + intros _. exists cs. split; [done|]. split; [done|]. intros k col Hk. destruct (Hcs k col Hk) as (s & ? & _ & ?). by exists s.
  - assert (¬ has (modifications c) (row_index core g r)) as Hno by (intros M; apply memb_mem in M; congruence).
    exists n. split; [done|]. split; [done|]. split; [done|]. split; [intros j; intuition|done].
Qed.

(** An object that was deleted reports that once. *)
Lemma object_deleted_once (core : row_core G R) g (info : change_info S) (n : object_notifier S R) r :
  m_row n = Some r → row_attached core g r = false → is_ok (deletions (o_change n)) →
  ∃ n1, run core g info n = Some n1 ∧ has (deletions (o_change n1)) 0 ∧ ∀ g info, run core g info n1 = Some n1.
Proof.
  intros Hr Hatt Hd. unfold run. rewrite Hr, Hatt. cbn [negb]. destruct (is_add_law (deletions (o_change n)) 0 Hd) as (d & -> & _ & Hm); [lia|].
  cbn [mbind option_bind]. eexists. split; [done|]. cbn. split; [apply Hm; by left|]. done.
Qed.
End gone.

(** ** Instances *)
Module Watched_.
#[local] Existing Instance debug_build.

Definition related : list RelatedTable := [Related 0 [MkLink 1 false; MkLink 2 true]; Related 1 [MkLink 0 false]].
Definition watching : notifier vec := Notifier [Callback 0 Changes.new Notifier.no_changes true false] true npos npos 1 false true 3 related.
Definition info_of (ts : list (change_builder vec)) : change_info vec := Info [] [] [] ts [] [] false false ∅.

Lemma can_check (c : change_builder vec) : is_ok (modifications c) → checkable [0; 1] two_tables [c; changed_rows [Chunk [(7, 8)] 7 8 1]] 0 related.
Proof.
  intros Hc. split.
  - apply two_tables_closed.
  - left.
  - intros x [->|[->|[]%elem_of_nil]%elem_of_cons]%elem_of_cons; [done|by apply set_okb_ok].
  - apply two_tables_rows.
  - reflexivity.
Qed.

Definition one_list : list_core unit unit := ListCore (λ _ _, true) (λ _ _, 3) (λ _ _, 0) (λ _ _, [false; true]) (λ _ _, 0) (λ _ _, [2; 0; 1]) (λ _ _, Some tt).
Definition list_watcher : list_notifier vec unit := ListNotifier_ watching (Some tt) None 3 (changed_rows []) 0.

Lemma list_run_witness :
  let info := info_of two_changes in
  ∃ s, ListNotifier.run one_list 0 (λ _, two_tables) tt info list_watcher =
      Some (ListNotifier.with_size (ListNotifier.with_change list_watcher (Changes.with_modifications (changed_rows []) s)) 3) ∧ is_ok s ∧
    ∀ j, has s j ↔ has (is_new (S := vec)) j ∨ ∃ k r, [2; 0; 1] !! k = Some r ∧ j = Z.of_nat k ∧ changed two_tables two_changes 0 r.
Proof.
  intros info. apply (list_run_correct one_list 0 (λ _, two_tables) tt info list_watcher tt [0; 1] watching).
  - reflexivity.
  - reflexivity.
  - apply (can_check (changed_rows [])). by apply set_okb_ok.
  - by apply set_okb_ok.
  - reflexivity.
  - repeat constructor; lia.
  - constructor.
Defined.

(** Row 1 of the table was deleted: the rows 0, 1 and 2 of the results are now 0, gone, and 1. *)
Definition one_deleted : change_builder vec := Build [Chunk [(1, 2)] 1 2 1] [] [] [] [] ∅ true.
Definition one_query : query_core unit unit unit :=
  QueryCore (λ _ _, true) (λ _ _, 0) (λ _ _, 0) (λ _ _, 0) (λ _ _, 0) (λ _ _, []) (λ _ _, 5) (λ _ _ _, 5) (λ _ _ _, [1; 0]) (λ _, true) (λ _ q, q).
Definition results_watcher : results_notifier vec unit unit := ResultsNotifier_ watching true tt (Some tt) None None None None 4 [2; 1; 0] Changes.new 0.

Lemma results_run_witness :
  let info := info_of [one_deleted; changed_rows [Chunk [(7, 8)] 7 8 1]] in
  ∃ n' previous, ResultsNotifier.run one_query 0 (λ _, two_tables) true false tt info results_watcher = Some n' ∧
    Forall2 (now_at one_deleted) [2; 1; 0] previous ∧
    leads (changed two_tables (TransactLog.tables info) 0) previous [1; 0] (m_changes n') ∧
    m_previous_rows n' = [1; 0] ∧ m_tv n' = Some [1; 0] ∧ m_last_seen_version n' = 5.
Proof.
  intros info. apply (results_run_correct one_query 0 (λ _, two_tables) tt info results_watcher tt [0; 1] 10 one_deleted false watching); try reflexivity.
  - discriminate.
  - discriminate.
  - split; [concrete_wf|concrete_within|lia|split_and!; [by intros i j ?%elem_of_nil|constructor..]|constructor].
  - apply (can_check one_deleted). by apply set_okb_ok.
  - repeat constructor; lia.
  - repeat constructor; lia.
  - discriminate.
Defined.

Definition one_row : row_core unit unit := RowCore (λ _ _, true) (λ _ _, 1) (λ _ _, 7) (λ _ _, Some tt).
Definition object_watcher : object_notifier vec unit := ObjectNotifier_ watching (Some tt) None Changes.new.
Definition in_column (v : vec) : change_builder vec := Build [] [] v [] [[]; v] ∅ true.

Lemma object_run_witness :
  let c := in_column [Chunk [(7, 8)] 7 8 1] in
  ∃ n', ObjectNotifier.run one_row tt (info_of [Changes.new; c]) object_watcher = Some n' ∧ m_row n' = Some tt ∧ deletions (o_change n') = is_new ∧
    (∀ j, has (modifications (o_change n')) j ↔ has (is_new (S := vec)) j ∨ (j = 0 ∧ has (modifications c) 7)) ∧
    (has (modifications c) 7 →
     ∃ cols, columns (o_change n') = [] ++ cols ∧ length cols = length (columns c) ∧
       ∀ k col, columns c !! k = Some col → ∃ s, cols !! k = Some s ∧ ∀ j, has s j ↔ j = 0 ∧ has col 7).
Proof.
  intros c. apply (object_run_correct one_row tt (info_of [Changes.new; c]) object_watcher tt c); [reflexivity..|concrete_wf|by apply set_okb_ok].
Defined.

(** The row 2 is inserted to a list of two rows, and then the list is deleted: both are reported, although the list had no position 2 when
    the client saw it last and has none now. *)
Example deleted_list_inserts :
  let gone := ListCore (λ _ _, false) (λ _ _, 3) (λ _ _, 0) (λ _ _, [true]) (λ _ _, 0) (λ _ _, []) (λ _ _, Some tt) in
  let n := ListNotifier_ watching (Some tt) None 2 (Build [] [Chunk [(2, 3)] 2 3 1] [] [] [] ∅ true) 0 in
  (λ n, (is_ranges (deletions (m_change n)), is_ranges (insertions (m_change n)))) <$> ListNotifier.run gone 0 (λ _, two_tables) tt (info_of []) n =
  Some ([(0, 2)], [(2, 3)]).
Proof. vm_compute. reflexivity. Qed.
End Watched_.
