(* ===== verification/Realms.v ===== *)
(** * Realms: transactions and schemas of an open file

    Model of the parts of shared_realm.cpp that decide what a Realm reads and writes: its read and write transactions, the schema that
    it presents, and [update_schema], with the schema cache of impl/realm_coordinator.cpp.  The file is known by its newest version;
    other processes may commit before a Realm gets the write lock.  What is told to the client (the binding context, notifications) and
    the order of threads are left out. *)

From Stdlib Require Import String.
From stdpp Require Import strings.
From S2P Require Import Prelude ChangeCalculation Schema SchemaValidationTheorems SchemaCompare SchemaCompareTheorems LogStream Group ObjectStore ObjectStoreSchema ObjectStoreKeys ObjectStoreMigration ObjectStorePlan ObjectStorePasses ObjectStoreTheorems ObjectStoreModes TransactLog Transactions.
Import Class_ Compare Store.
Open Scope list_scope.
Open Scope Z_scope.

(** The newest version of the file *)
Record file (G : Type) := File { f_version : Z; f_group : G }.
Arguments File {G}.
Arguments f_version {G}.
Arguments f_group {G}.

Inductive realm_error :=
  | InvalidSchemaVersion (old_version new_version : Z)
  | SchemaFailed (e : schema_exception)
  | SchemaInvalid (errors : list exception)
  | StoreFailed (e : store_exception)
  | InvalidTransaction
  | ClosedRealm
  | UnsupportedSchemaChange.

(** The schema cache of [RealmCoordinator] *)
Record schema_cache := Cache { m_cached_schema : option Schema; c_schema_version : Z; c_version_min : Z; c_version_max : Z }.

(** [Realm], with the file and the coordinator's cache; [r_open] is false once the Realm was closed. *)
Record realm (G : Type) := Realm {
  r_file : file G;
  r_mode : SchemaMode;
  r_open : bool;
  m_group : option G;
  r_stage : stage;
  r_version : Z;
  m_schema : Schema;
  m_schema_version : Z;
  m_schema_transaction_version : Z;
  m_new_schema : option Schema;
  m_dynamic_schema : bool;
  m_is_sending_notifications : bool;
  r_cache : schema_cache
}.
Arguments Realm {G}.
Arguments r_file {G}.
Arguments r_mode {G}.
Arguments r_open {G}.
Arguments m_group {G}.
Arguments r_stage {G}.
Arguments r_version {G}.
Arguments m_schema {G}.
Arguments m_schema_version {G}.
Arguments m_schema_transaction_version {G}.
Arguments m_new_schema {G}.
Arguments m_dynamic_schema {G}.
Arguments m_is_sending_notifications {G}.
Arguments r_cache {G}.

(** What the Realm core tells when it advances a group: whether the handler for schema changes is called, and whether the validator of the
    log lets it pass. *)
Class Advances (G : Type) := { schema_instructions : G → G → bool; log_valid : G → G → bool }.

Module Coordinator.
(** ** [RealmCoordinator] *)
Definition no_cache : schema_cache := Cache None (W64 - 1) 0 0.
Definition get_cached_schema (c : schema_cache) : option (Schema * Z * Z) :=
  s ← m_cached_schema c; Some (s, c_schema_version c, c_version_max c).
Definition cache_schema (s : Schema) (schema_version version : Z) (c : schema_cache) : schema_cache :=
  if version <? c_version_max c then c else
  if bool_decide (s = []) || (schema_version =? NotVersioned) then c else Cache (Some s) schema_version version version.
Definition clear_schema_cache_and_set_schema_version (schema_version : Z) (c : schema_cache) : schema_cache :=
  Cache None schema_version (c_version_min c) (c_version_max c).
Definition advance_schema_cache (previous next : Z) (c : schema_cache) : option schema_cache :=
  match m_cached_schema c with
  | None => Some c
  | Some s =>
      REALM_ASSERT (previous <=? c_version_max c) ;;
      if next <? c_version_min c then Some c else
      Some (Cache (Some s) (c_schema_version c) (Z.min previous (c_version_min c)) (Z.max next (c_version_max c)))
  end.
End Coordinator.
Import Coordinator.

Module Realms.
Section realm.
Context {G V : Type} {VA : Values V} {CG : Core G V} {AG : Advances G} {SO : Sorts} {PA : Partitions}.
Implicit Types (r : realm G) (s : Schema).

(** ** Functions that change the Realm, and may throw *)
Definition act (A : Type) : Type := realm G → result realm_error A * realm G.
#[export] Instance act_ret : MRet act := λ A a r, (Ok a, r).
#[export] Instance act_bind : MBind act := λ A B f m r,
  match m r with (Ok a, r) => f a r | (Raise e, r) => (Raise e, r) | (Stuck, r) => (Stuck, r) end.
Definition get : act (realm G) := λ r, (Ok r, r).
Definition modify (f : realm G → realm G) : act unit := λ r, (Ok tt, f r).
Definition throw {A} (e : realm_error) : act A := λ r, (Raise e, r).
Definition of_option {A} (m : option A) : act A := λ r, (lift m, r).
Definition of_schema {A} (m : result schema_exception A) : act A :=
  λ r, (match m with Ok a => Ok a | Raise e => Raise (SchemaFailed e) | Stuck => Stuck end, r).
Definition of_store {A} (m : result store_exception A) : act A :=
  λ r, (match m with Ok a => Ok a | Raise e => Raise (StoreFailed e) | Stuck => Stuck end, r).
(** [util::make_scope_exit]; what is done then must not throw. *)
Definition at_exit {A} (m : act A) (cleanup : act unit) : act A :=
  λ r, let '(x, r) := m r in match cleanup r with (Ok _, r) => (x, r) | (_, r) => (Stuck, r) end.

(** Assignments *)
Definition set_file (f : file G) r : realm G :=
  Realm f (r_mode r) (r_open r) (m_group r) (r_stage r) (r_version r) (m_schema r) (m_schema_version r) (m_schema_transaction_version r) (m_new_schema r) (m_dynamic_schema r) (m_is_sending_notifications r) (r_cache r).
Definition set_transaction (g : option G) (st : stage) (version : Z) r : realm G :=
  Realm (r_file r) (r_mode r) (r_open r) g st version (m_schema r) (m_schema_version r) (m_schema_transaction_version r) (m_new_schema r) (m_dynamic_schema r) (m_is_sending_notifications r) (r_cache r).
Definition set_schema_fields (s : Schema) (version : Z) (dynamic : bool) r : realm G :=
  Realm (r_file r) (r_mode r) (r_open r) (m_group r) (r_stage r) (r_version r) s version (m_schema_transaction_version r) (m_new_schema r) dynamic (m_is_sending_notifications r) (r_cache r).
Definition set_schema_transaction (version : Z) (new_schema : option Schema) r : realm G :=
  Realm (r_file r) (r_mode r) (r_open r) (m_group r) (r_stage r) (r_version r) (m_schema r) (m_schema_version r) version new_schema (m_dynamic_schema r) (m_is_sending_notifications r) (r_cache r).
Definition set_sending (b : bool) r : realm G :=
  Realm (r_file r) (r_mode r) (r_open r) (m_group r) (r_stage r) (r_version r) (m_schema r) (m_schema_version r) (m_schema_transaction_version r) (m_new_schema r) (m_dynamic_schema r) b (r_cache r).
Definition set_cache (c : schema_cache) r : realm G :=
  Realm (r_file r) (r_mode r) (r_open r) (m_group r) (r_stage r) (r_version r) (m_schema r) (m_schema_version r) (m_schema_transaction_version r) (m_new_schema r) (m_dynamic_schema r) (m_is_sending_notifications r) c.
Definition set_closed r : realm G :=
  Realm (r_file r) (r_mode r) false None transact_Ready (r_version r) (m_schema r) (m_schema_version r) (m_schema_transaction_version r) (m_new_schema r) (m_dynamic_schema r) (m_is_sending_notifications r) (r_cache r).

(** ** Checks *)
Definition immutable r : bool := bool_decide (r_mode r = Immutable).
Definition read_only_alternative r : bool := bool_decide (r_mode r = ReadOnlyAlternative).
Definition is_in_transaction r : bool := r_open r && bool_decide (r_stage r = transact_Writing).
Definition check_read_write : act unit := r ← get; if immutable r then throw InvalidTransaction else mret tt.
Definition check_write : act unit := r ← get; if immutable r || read_only_alternative r then throw InvalidTransaction else mret tt.
Definition verify_open : act unit := r ← get; if negb (r_open r) then throw ClosedRealm else mret tt.
Definition verify_in_write : act unit := r ← get; if negb (is_in_transaction r) then throw InvalidTransaction else mret tt.

(** ** Schemas *)

Definition set_schema (reference schema : Schema) : act unit :=
  modify (λ r, set_schema_fields (copy_table_columns_from schema reference) (m_schema_version r) false r).

Definition read_schema_from_group_if_needed : act unit :=
  r ← get;
  g ← of_option (m_group r);
  if m_schema_transaction_version r =? r_version r then mret tt else
  version ← of_option (get_schema_version g);
  schema ← of_option (schema_from_group g);
  modify (λ r, set_cache (cache_schema schema version (r_version r) (r_cache r))
                 (set_schema_transaction (r_version r) (m_new_schema r) (set_schema_fields (m_schema r) version (m_dynamic_schema r) r))) ;;
  r ← get;
  if m_dynamic_schema r then
    modify (set_schema_fields (if bool_decide (m_schema r = schema) then copy_table_columns_from (m_schema r) schema else schema) version true)
  else
    of_schema (verify_valid_external_changes (compare (m_schema r) schema false)) ;;
    modify (set_schema_fields (copy_table_columns_from (m_schema r) schema) version false).

Definition begin_read : act unit :=
  r ← get;
  of_option (check (match m_group r with None => true | Some _ => false end)) ;;
  modify (set_transaction (Some (f_group (r_file r))) transact_Reading (f_version (r_file r))) ;;
  read_schema_from_group_if_needed.

Definition read_group : act G :=
  verify_open ;;
  r ← get;
  (match m_group r with Some _ => mret tt | None => begin_read end) ;;
  r ← get; of_option (m_group r).

(** The constructor, for a Realm whose coordinator has the cache [c].  It sets [m_coordinator] at the end, so that what is read before leaves the cache alone. *)
Definition closed_view (f : file G) (mode : SchemaMode) (c : schema_cache) : realm G :=
  Realm f mode true None transact_Ready 0 [] NotVersioned (W64 - 1) None true false c.
Definition open_realm (f : file G) (mode : SchemaMode) (c : schema_cache) : result realm_error unit * realm G :=
  (if decide (mode = Immutable) then
     version ← of_option (get_schema_version (f_group f));
     schema ← of_option (schema_from_group (f_group f));
     modify (λ r, set_schema_fields schema version true (set_transaction (Some (f_group f)) transact_Ready 0 r))
   else
     match get_cached_schema c with
     | Some (schema, schema_version, version) => modify (λ r, set_schema_transaction version None (set_schema_fields schema schema_version true r))
     | None =>
         read_group ;;
         modify (λ r, set_transaction None transact_Ready (r_version r)
                        (set_cache (cache_schema (m_schema r) (m_schema_version r) (m_schema_transaction_version r) c) r))
     end) (closed_view f mode c).

Definition cache_new_schema : act unit :=
  r ← get;
  if immutable r then mret tt else
  c ← of_option (match m_new_schema r with
                 | Some s => Some (cache_schema s (m_schema_version r) (r_version r) (r_cache r))
                 | None => advance_schema_cache (m_schema_transaction_version r) (r_version r) (r_cache r)
                 end);
  modify (λ r, set_schema_transaction (r_version r) None (set_cache c r)).

(** [add_schema_change_handler]: the handler that the group calls *)
Definition schema_change_handler (g : G) : act unit :=
  new_schema ← of_option (schema_from_group g);
  version ← of_option (get_schema_version g);
  modify (λ r, set_schema_transaction (m_schema_transaction_version r) (Some new_schema)
                 (set_schema_fields (if m_dynamic_schema r then new_schema else copy_table_columns_from (m_schema r) new_schema) version (m_dynamic_schema r) r)).

(** The group goes to the newest version of the file, in the stage [st]. *)
Definition advance_group (st : stage) : act unit :=
  r ← get;
  g ← of_option (m_group r);
  let f := r_file r in
  modify (set_transaction (Some (f_group f)) st (f_version f)) ;;
  if negb (r_version r =? f_version f) && schema_instructions g (f_group f) then schema_change_handler (f_group f) else mret tt.
(** With the validator of the log *)
Definition advance_validated (st : stage) : act unit :=
  r ← get;
  g ← of_option (m_group r);
  if negb (r_version r =? f_version (r_file r)) && negb (log_valid g (f_group (r_file r))) then throw UnsupportedSchemaChange
  else advance_group st.

(** [translate_schema_error] *)
Definition translate_schema_error {A} : act A :=
  r ← get;
  new_schema ← of_option (schema_from_group (f_group (r_file r)));
  of_schema (verify_valid_external_changes (compare (m_schema r) new_schema true)) ;;
  throw UnsupportedSchemaChange.
Definition catch_unsupported (m : act unit) : act unit :=
  λ r, match m r with (Raise UnsupportedSchemaChange, r) => translate_schema_error r | x => x end.

(** ** Transactions *)

(** Another process may have committed when the write lock is taken. *)
Definition begin_transaction (meanwhile : file G → file G) : act unit :=
  check_write ;;
  r ← get;
  if is_in_transaction r then throw InvalidTransaction else
  if m_is_sending_notifications r then modify (λ r, set_file (meanwhile (r_file r)) r) ;; advance_validated transact_Writing else
  read_group ;;
  modify (set_sending true) ;;
  at_exit
    (catch_unsupported (modify (λ r, set_file (meanwhile (r_file r)) r) ;; advance_validated transact_Writing) ;;
     cache_new_schema)
    (modify (set_sending false)).

Definition commit_transaction : act unit :=
  check_write ;;
  r ← get;
  if negb (is_in_transaction r) then throw InvalidTransaction else
  g ← of_option (m_group r);
  let version := f_version (r_file r) + 1 in
  modify (λ r, set_transaction (Some g) transact_Reading version (set_file (File version g) r)) ;;
  cache_new_schema.

(** The group goes back to the newest version of the file, which is the one the transaction began with. *)
Definition roll_back : act unit :=
  r ← get;
  g ← of_option (m_group r);
  modify (set_transaction (Some (f_group (r_file r))) transact_Reading (f_version (r_file r))) ;;
  if schema_instructions g (f_group (r_file r)) then schema_change_handler (f_group (r_file r)) else mret tt.
Definition cancel_transaction : act unit :=
  check_write ;;
  r ← get;
  if negb (is_in_transaction r) then throw InvalidTransaction else roll_back.

Definition invalidate : act unit :=
  verify_open ;; check_read_write ;;
  r ← get;
  if m_is_sending_notifications r then mret tt else
  (if is_in_transaction r then cancel_transaction else mret tt) ;;
  r ← get;
  match m_group r with None => mret tt | Some _ => modify (λ r, set_transaction None transact_Ready (r_version r) r) end.

Definition refresh : act bool :=
  check_read_write ;;
  r ← get;
  if is_in_transaction r then mret false else
  if m_is_sending_notifications r then mret false else
  modify (set_sending true) ;;
  at_exit
    (match m_group r with
     | Some _ =>
         catch_unsupported (advance_validated transact_Reading ;; cache_new_schema) ;;
         r' ← get; mret (negb (r_version r =? r_version r'))
     | None => read_group ;; mret true
     end)
    (modify (set_sending false)).

Definition close : act unit := modify set_closed.

(** ** [update_schema] *)

Definition get_full_schema : act Schema :=
  r ← get;
  (if immutable r then mret false else refresh) ;;
  r ← get;
  if m_dynamic_schema r then mret (m_schema r) else
  match (if immutable r then None else get_cached_schema (r_cache r)) with
  | Some (s, _, version) => if version =? r_version r then mret s else g ← read_group; of_option (schema_from_group g)
  | None => g ← read_group; of_option (schema_from_group g)
  end.

(** [fresh] is the file that is made in place of the old one. *)
Definition reset_file (fresh : file G) (schema : Schema) : act (list SchemaChange) :=
  modify (λ r, set_transaction None transact_Ready (r_version r) (set_file fresh r)) ;;
  g ← read_group;
  s ← of_option (schema_from_group g);
  version ← of_option (get_schema_version g);
  modify (λ r, set_cache (clear_schema_cache_and_set_schema_version version (r_cache r)) (set_schema_fields s version (m_dynamic_schema r) r)) ;;
  mret (compare s schema false).

(** Whether a transaction is needed, and the changes, which are others after the file was reset *)
Definition schema_change_needs_write_transaction (fresh : file G) (schema : Schema) (changes : list SchemaChange) (version : Z)
    : act (bool * list SchemaChange) :=
  r ← get;
  let stored := m_schema_version r in
  if (version =? stored) && bool_decide (changes = []) then mret (false, changes) else
  match r_mode r with
  | Automatic =>
      if (version <? stored) && negb (stored =? NotVersioned) then throw (InvalidSchemaVersion stored version) else mret (true, changes)
  | Immutable =>
      if negb (version =? stored) then throw (InvalidSchemaVersion stored version) else
      of_schema (verify_compatible_for_immutable_and_readonly changes) ;; mret (false, changes)
  | ReadOnlyAlternative => of_schema (verify_compatible_for_immutable_and_readonly changes) ;; mret (false, changes)
  | ResetFile =>
      if stored =? NotVersioned then mret (true, changes) else
      if (stored =? version) && negb (needs_migration changes) then mret (true, changes) else
      changes ← reset_file fresh schema; mret (true, changes)
  | Additive =>
      more ← of_schema (verify_valid_additive_changes changes (stored <? version));
      mret ((more : bool) || negb (version =? stored), changes)
  | Manual =>
      if (version <? stored) && negb (stored =? NotVersioned) then throw (InvalidSchemaVersion stored version) else
      if version =? stored then of_schema (verify_no_changes_required changes) ;; of_option None else mret (true, changes)
  end.

Definition set_schema_subset (schema : Schema) : act unit :=
  r ← get;
  of_option (check (m_dynamic_schema r && negb (m_schema_version r =? NotVersioned))) ;;
  let changes := compare (m_schema r) schema false in
  (match r_mode r with
   | Automatic | ResetFile => of_schema (verify_no_migration_required changes)
   | Immutable | ReadOnlyAlternative => of_schema (verify_compatible_for_immutable_and_readonly changes)
   | Additive => of_schema (verify_valid_additive_changes changes false) ;; mret tt
   | Manual => of_schema (verify_no_changes_required changes)
   end) ;;
  set_schema (m_schema r) schema.

(** [transaction::begin_without_validation] *)
Definition begin_without_validation (meanwhile : file G → file G) : act unit :=
  r ← get;
  of_option (check (bool_decide (r_stage r = transact_Reading))) ;;
  modify (λ r, set_file (meanwhile (r_file r)) r) ;;
  advance_group transact_Writing.

Definition end_transaction (in_transaction : bool) : act unit :=
  r ← get; if negb in_transaction && is_in_transaction r then cancel_transaction else mret tt.

(** What is done in the transaction; the group is changed once the changes were applied without an exception.  What an
    exception leaves of the changes is rolled back when the transaction is one of [update_schema]; in a transaction of the caller they stay, which is not modelled. *)
Definition apply_update (initialize_schema : G → option G) (link : nat → V) (schema : Schema) (version : Z) (migration : option (G → Schema → result store_exception (G * Schema)))
    (initialization : option (G → result store_exception G)) (sync_user_id : option string) (in_transaction : bool) (changes : list SchemaChange) : act unit :=
  r ← get;
  g ← read_group;
  let migration := if decide (r_mode r = Additive) then None else migration in
  '(g, schema) ← of_store (apply_schema_changes initialize_schema link (m_schema_version r) version (r_mode r) changes
                             (if decide (migration = None) then sync_user_id else None) migration schema g);
  g ← (match initialization with
       | Some f => if m_schema_version r =? NotVersioned then of_store (f g) else mret g
       | None => mret g
       end);
  new_schema ← of_option (schema_from_group g);
  new_version ← of_option (get_schema_version g);
  modify (λ r, set_cache (clear_schema_cache_and_set_schema_version version (r_cache r))
                 (set_schema_transaction (m_schema_transaction_version r) (Some new_schema)
                    (set_schema_fields schema new_version false (set_transaction (Some g) (r_stage r) (r_version r) r)))) ;;
  if in_transaction then mret tt else commit_transaction.

Definition update_schema (meanwhile : file G → file G) (fresh : file G) (initialize_schema : G → option G) (link : nat → V) (schema : Schema) (version : Z)
    (migration : option (G → Schema → result store_exception (G * Schema))) (initialization : option (G → result store_exception G))
    (sync_user_id : option string) (in_transaction : bool) : act unit :=
  errors ← of_option (Validate.validate schema);
  if negb (bool_decide (errors = [])) then throw (SchemaInvalid errors) else
  actual_schema ← get_full_schema;
  '(needed, changes) ← schema_change_needs_write_transaction fresh schema (compare actual_schema schema false) version;
  if negb (needed : bool) then set_schema actual_schema schema else
  if in_transaction then at_exit (apply_update initialize_schema link schema version migration initialization sync_user_id true changes) (end_transaction true) else
  begin_without_validation meanwhile ;;
  r ← get;
  match m_new_schema r with
  | Some actual_schema =>
      '(needed, changes) ← schema_change_needs_write_transaction fresh schema (compare actual_schema schema false) version;
      if negb (needed : bool) then cancel_transaction ;; cache_new_schema ;; set_schema actual_schema schema else
      cache_new_schema ;;
      at_exit (apply_update initialize_schema link schema version migration initialization sync_user_id false changes) (end_transaction false)
  | None =>
      cache_new_schema ;;
      at_exit (apply_update initialize_schema link schema version migration initialization sync_user_id false changes) (end_transaction false)
  end.
End realm.
End Realms.

Import Realms.

(** ** What stays the same *)
Section steps.
Context {G V : Type} {VA : Values V} {CG : Core G V} {AG : Advances G} {SO : Sorts} {PA : Partitions}.
Implicit Types (r : realm G).

(** Every execution of [m] leads from a state to a related one. *)
Definition steps (R : realm G → realm G → Prop) {A} (m : act A) : Prop := ∀ r, R r (m r).2.

Lemma steps_ret R `{!Reflexive R} {A} (a : A) : steps R (mret a).
Proof. intros r. apply (reflexivity r). Qed.
Lemma steps_throw R `{!Reflexive R} {A} e : steps R (throw e : act A).
Proof. intros r. apply (reflexivity r). Qed.
Lemma steps_option R `{!Reflexive R} {A} (m : option A) : steps R (of_option m).
Proof. intros r. apply (reflexivity r). Qed.
Lemma steps_schema R `{!Reflexive R} {A} (m : result schema_exception A) : steps R (of_schema m).
Proof. intros r. apply (reflexivity r). Qed.
Lemma steps_store R `{!Reflexive R} {A} (m : result store_exception A) : steps R (of_store m).
Proof. intros r. apply (reflexivity r). Qed.
Lemma steps_modify (R : realm G → realm G → Prop) f : (∀ r, R r (f r)) → steps R (modify f).
Proof. intros H r. apply H. Qed.
Lemma steps_bind R `{!Transitive R} {A B} (m : act A) (f : A → act B) : steps R m → (∀ a, steps R (f a)) → steps R (m ≫= f).
Proof.
  intros Hm Hf r. specialize (Hm r). unfold mbind, act_bind. destruct (m r) as [[a|e|] r1]; [|done..].
  transitivity r1; [done|]. apply Hf.
Qed.
(** The state that [get] yields is the current one. *)
Lemma steps_get (R : realm G → realm G → Prop) {B} (f : realm G → act B) : (∀ r, R r (f r r).2) → steps R (get ≫= f).
Proof. intros Hf r. apply Hf. Qed.
Lemma steps_exit R `{!Transitive R} {A} (m : act A) c : steps R m → steps R c → steps R (at_exit m c).
Proof.
  intros Hm Hc r. unfold at_exit. specialize (Hm r). destruct (m r) as [x r1]. specialize (Hc r1). destruct (c r1) as [[?|?|] r2]; cbn in *; by transitivity r1.
Qed.

Lemma bind_eq {A B} (m : act A) (f : A → act B) r a r1 : m r = (Ok a, r1) → (m ≫= f) r = f a r1.
Proof. intros E. unfold mbind, act_bind. by rewrite E. Qed.
Lemma bind_raise {A B} (m : act A) (f : A → act B) r e r1 : m r = (Raise e, r1) → (m ≫= f) r = (Raise e, r1).
Proof. intros E. unfold mbind, act_bind. by rewrite E. Qed.
Lemma bind_stuck {A B} (m : act A) (f : A → act B) r r1 : m r = (Stuck, r1) → (m ≫= f) r = (Stuck, r1).
Proof. intros E. unfold mbind, act_bind. by rewrite E. Qed.
Lemma get_bind {B} (f : realm G → act B) r : (get ≫= f) r = f r r.
Proof. done. Qed.

(** The file and the mode stay, no write transaction begins, and the Realm stays open. *)
Definition quiet r r' : Prop := r_file r' = r_file r ∧ r_mode r' = r_mode r ∧ r_open r' = r_open r ∧ (r_stage r' = transact_Writing → r_stage r = transact_Writing).
#[export] Instance quiet_refl : Reflexive quiet.
Proof. intros r. by split_and!. Qed.
#[export] Instance quiet_trans : Transitive quiet.
Proof. intros r1 r2 r3 (? & ? & ? & ?) (? & ? & ? & ?). split_and!; [congruence..|auto]. Qed.
End steps.

Create HintDb quiet_db.
#[export] Hint Resolve steps_ret steps_throw steps_option steps_schema steps_store : quiet_db.
Ltac quiet_step :=
  first [ apply steps_ret; apply _ | apply steps_throw; apply _ | apply steps_option; apply _ | apply steps_schema; apply _ | apply steps_store; apply _
        | apply steps_modify; intros ?; by split_and! | apply steps_exit; [apply _|..]
        | apply steps_bind; [apply _|..|intros ?] | case_match | done ].
Ltac quiet_steps := repeat quiet_step.

Section quiet.
Context {G V : Type} {VA : Values V} {CG : Core G V} {AG : Advances G} {SO : Sorts} {PA : Partitions}.
Implicit Types (r : realm G).
Abbreviation quietly := (steps (G := G) quiet).

Lemma get_quiet : quietly get.
Proof. intros r. apply (reflexivity r). Qed.
#[local] Hint Resolve get_quiet : quiet_db.
Ltac go := repeat first [apply get_quiet | quiet_step].

Lemma read_schema_quiet : quietly read_schema_from_group_if_needed.
Proof. unfold read_schema_from_group_if_needed. go. Qed.
Lemma begin_read_quiet : quietly begin_read.
Proof. unfold begin_read. go. all: apply read_schema_quiet. Qed.
Lemma read_group_quiet : quietly read_group.
Proof. unfold read_group, verify_open. go. all: apply begin_read_quiet. Qed.
Lemma handler_quiet g : quietly (schema_change_handler g).
Proof. unfold schema_change_handler. go. Qed.
Lemma cache_quiet : quietly cache_new_schema.
Proof. unfold cache_new_schema. go. Qed.
Lemma set_schema_quiet s t : quietly (set_schema s t).
Proof. unfold set_schema. go. Qed.
Lemma advance_quiet : quietly (advance_validated transact_Reading).
Proof. unfold advance_validated, advance_group. go. all: apply handler_quiet. Qed.
Lemma translate_quiet {A} : quietly (translate_schema_error (A := A)).
Proof. unfold translate_schema_error. go. Qed.
Lemma catch_quiet (m : act unit) : quietly m → quietly (catch_unsupported m).
Proof.
  intros Hm r. unfold catch_unsupported. specialize (Hm r). destruct (m r) as [[?|[]|] r1]; try done. cbn in Hm. transitivity r1; [done|]. apply translate_quiet.
Qed.
Lemma refresh_quiet : quietly refresh.
Proof.
  unfold refresh, check_read_write. go. all: try first [apply catch_quiet; go|apply read_group_quiet].
  all: first [apply advance_quiet|apply cache_quiet].
Qed.
Lemma get_full_schema_quiet : quietly get_full_schema.
Proof. unfold get_full_schema. repeat first [apply refresh_quiet|apply read_group_quiet|apply get_quiet|quiet_step]. Qed.
Lemma needs_write_quiet fresh schema changes version r :
  r_mode r ≠ ResetFile → quiet r (schema_change_needs_write_transaction fresh schema changes version r).2.
Proof.
  intros Hm. unfold schema_change_needs_write_transaction. rewrite get_bind. cbn beta zeta.
  match goal with |- quiet r (?m r).2 => assert (quietly m) as H; [|apply (H r)] end. destruct (_ && _); [go|]. destruct (r_mode r); try done; go.
Qed.

(** Only what the Realm knows of the schema changes. *)
Definition still r r' : Prop :=
  r_file r' = r_file r ∧ r_mode r' = r_mode r ∧ r_open r' = r_open r ∧ r_stage r' = r_stage r ∧ m_group r' = m_group r ∧ r_version r' = r_version r.
#[local] Instance still_refl : Reflexive still.
Proof. intros r. by split_and!. Qed.
#[local] Instance still_trans : Transitive still.
Proof. intros r1 r2 r3 (?&?&?&?&?&?) (?&?&?&?&?&?). split_and!; congruence. Qed.
Lemma still_get : steps still (get (G := G)).
Proof. intros r. apply (reflexivity r). Qed.
Ltac stay := repeat first [apply still_get | quiet_step].

Lemma handler_still g : steps still (schema_change_handler g).
Proof. unfold schema_change_handler. stay. Qed.
Lemma cache_still : steps still (cache_new_schema (G := G)).
Proof. unfold cache_new_schema. stay. Qed.
Lemma set_schema_still s t : steps still (set_schema (G := G) s t).
Proof. unfold set_schema. stay. Qed.
Lemma needs_write_still fresh schema changes version r :
  r_mode r ≠ ResetFile → still r (schema_change_needs_write_transaction fresh schema changes version r).2.
Proof.
  intros Hm. unfold schema_change_needs_write_transaction. rewrite get_bind. cbn beta zeta.
  match goal with |- still r (?m r).2 => assert (steps still m) as H; [|apply (H r)] end. destruct (_ && _); [stay|]. destruct (r_mode r); try done; stay.
Qed.

(** The check only resets the file, if anything. *)
Lemma needs_write_pure fresh schema changes version r :
  r_mode r ≠ ResetFile → r = (schema_change_needs_write_transaction fresh schema changes version r).2.
Proof.
  intros Hm. unfold schema_change_needs_write_transaction. rewrite get_bind. cbn beta zeta.
  assert (steps eq (get (G := G))) as Hget by done.
  match goal with |- r = (?m r).2 => assert (steps eq m) as H; [|apply (H r)] end. destruct (_ && _); [by quiet_steps|]. destruct (r_mode r); try done; quiet_steps.
Qed.

Definition may_write (mode : SchemaMode) : Prop := mode ≠ Immutable ∧ mode ≠ ReadOnlyAlternative.
Lemma needs_write_ok fresh schema changes version r b changes' r' : r_mode r ≠ ResetFile →
  schema_change_needs_write_transaction fresh schema changes version r = (Ok (b, changes'), r') → changes' = changes ∧ (b = true → may_write (r_mode r)).
Proof.
  intros Hm. unfold schema_change_needs_write_transaction. rewrite get_bind. cbn beta zeta. destruct (_ && _); [by intros [= <- <- _]|]. unfold may_write.
  destruct (r_mode r); try done; unfold mbind, act_bind, of_schema, of_option, throw, mret, act_ret; repeat case_match; try done; intros; simplify_eq; try done;
    try (split; [done|by intros]).
Qed.

(** In a write transaction that began with the file [f] *)
Definition writes (f : file G) r : Prop :=
  r_open r = true ∧ r_stage r = transact_Writing ∧ r_file r = f ∧ m_group r = Some (f_group f) ∧ r_version r = f_version f.
Lemma writes_still f r r' : writes f r → still r r' → writes f r'.
Proof. intros (?&?&?&?&?) (?&?&?&?&?&?). split_and!; congruence. Qed.

Lemma begin_spec meanwhile r x r1 : r_open r = true → begin_without_validation meanwhile r = (x, r1) → x ≠ Stuck →
  x = Ok tt ∧ writes (meanwhile (r_file r)) r1 ∧ r_mode r1 = r_mode r.
Proof.
  intros Ho. unfold begin_without_validation. rewrite get_bind. unfold advance_group. unfold mbind, act_bind, of_option, get, modify. cbn.
  destruct (check _) as [[]|]; cbn [lift]; [|by intros [= <- _]]. cbn. destruct (m_group r) as [g|]; cbn [lift]; [|by intros [= <- _]]. cbn.
  set (r0 := set_transaction _ _ _ _). destruct (_ && _).
  - intros E Hx. pose proof (handler_still (f_group (meanwhile (r_file r))) r0) as Hs. rewrite E in Hs. cbn [snd] in Hs.
    assert (x = Ok tt) as ->.
    { revert E. unfold schema_change_handler, mbind, act_bind, of_option, modify. repeat case_match; cbn; intros; simplify_eq; unfold lift in *; repeat case_match; simplify_eq; try done; by destruct x as [[]| |]. }
    split; [done|]. split; [|apply Hs]. eapply writes_still; [|exact Hs]. by split_and!.
  - intros [= <- <-] _. by split_and!.
Qed.

Lemma handler_raises g r e r' : schema_change_handler g r ≠ (Raise e, r').
Proof. unfold schema_change_handler, mbind, act_bind, of_option, modify, lift. repeat case_match; naive_solver. Qed.
Lemma cache_raises r e r' : cache_new_schema (G := G) r ≠ (Raise e, r').
Proof. unfold cache_new_schema, mbind, act_bind, of_option, modify, lift, get, mret, act_ret. cbn. repeat case_match; naive_solver. Qed.

Lemma cache_same_schema r : m_schema (cache_new_schema (G := G) r).2 = m_schema r.
Proof. unfold cache_new_schema, mbind, act_bind, of_option, modify, lift, get, mret, act_ret. cbn. by repeat case_match. Qed.

Lemma commit_spec r g x r' : r_open r = true → r_stage r = transact_Writing → m_group r = Some g → may_write (r_mode r) →
  commit_transaction r = (x, r') → x ≠ Stuck →
  x = Ok tt ∧ r_file r' = File (f_version (r_file r) + 1) g ∧ r_stage r' = transact_Reading ∧ m_group r' = Some g ∧ m_schema r' = m_schema r ∧ r_open r' = true.
Proof.
  intros Ho Hs Hg [Hi Hr]. unfold commit_transaction, check_write. unfold mbind, act_bind, get. cbn. unfold immutable, read_only_alternative, is_in_transaction.
  rewrite !bool_decide_eq_false_2 by done. cbn. rewrite Ho, bool_decide_eq_true_2 by done. cbn. rewrite Hg. unfold of_option. cbn [lift].
  set (r0 := set_transaction _ _ _ _). intros E Hx. pose proof (cache_still r0) as (?&?&?&?&?&?). pose proof (cache_same_schema r0) as Hsch. unfold modify in E. fold r0 in E.
  rewrite E in *. cbn [snd] in *. destruct x as [[]|e|]; [|by apply cache_raises in E|done]. subst r0. cbn in *. split_and!; congruence.
Qed.

Lemma cancel_spec f r x r' : r_open r = true → r_stage r = transact_Writing → r_file r = f → may_write (r_mode r) → cancel_transaction r = (x, r') → x ≠ Stuck →
  x = Ok tt ∧ r_file r' = f ∧ r_stage r' = transact_Reading ∧ r_mode r' = r_mode r ∧ m_group r' = Some (f_group f).
Proof.
  intros Ho Hs Hf [Hi Hr]. unfold cancel_transaction, check_write. unfold mbind, act_bind, get. cbn. unfold immutable, read_only_alternative, is_in_transaction.
  rewrite !bool_decide_eq_false_2 by done. cbn. rewrite Ho, bool_decide_eq_true_2 by done. cbn. unfold roll_back, mbind, act_bind, get, of_option, modify. cbn.
  destruct (m_group r) as [g|]; cbn; [|by intros [= <- _]]. rewrite Hf. destruct (schema_instructions _ _).
  - set (r0 := set_transaction _ _ _ _). intros E Hx. pose proof (handler_still (f_group f) r0) as Hst. rewrite E in Hst. destruct Hst as (?&?&?&?&?&?). cbn [snd] in *.
    destruct x as [[]|e|]; [|by apply handler_raises in E|done]. subst r0. cbn in *. split_and!; congruence.
  - intros [= <- <-] _. by split_and!.
Qed.

(** What was applied to a group, and what the initialization made of it *)
Definition updated (initialize_schema : G → option G) (link : nat → V) (schema : Schema) (old_version version : Z) (mode : SchemaMode) (changes : list SchemaChange)
    (migration : option (G → Schema → result store_exception (G * Schema))) (initialization : option (G → result store_exception G)) (sync_user_id : option string)
    (g g' : G) (schema' : Schema) : Prop :=
  let migration := if decide (mode = Additive) then None else migration in
  ∃ g1, apply_schema_changes initialize_schema link old_version version mode changes (if decide (migration = None) then sync_user_id else None) migration schema g = Ok (g1, schema') ∧
    match initialization with Some f => if old_version =? NotVersioned then f g1 = Ok g' else g' = g1 | None => g' = g1 end.

Lemma apply_update_spec initialize_schema link schema version migration initialization user changes f r x r' :
  writes f r → may_write (r_mode r) →
  apply_update initialize_schema link schema version migration initialization user false changes r = (x, r') → x ≠ Stuck →
  (x = Ok tt ∧ ∃ g' schema', updated initialize_schema link schema (m_schema_version r) version (r_mode r) changes migration initialization user (f_group f) g' schema' ∧
     r_file r' = File (f_version f + 1) g' ∧ r_stage r' = transact_Reading ∧ m_group r' = Some g' ∧ m_schema r' = schema' ∧ r_open r' = true) ∨
  ((∃ e, x = Raise e) ∧ writes f r' ∧ r_mode r' = r_mode r).
Proof.
  intros Hw Hm. pose proof Hw as (Ho & Hs & Hf & Hg & Hv). unfold apply_update. rewrite get_bind. cbn beta.
  assert (read_group r = (Ok (f_group f), r)) as Hrg.
  { unfold read_group, verify_open, mbind, act_bind, get, of_option, mret, act_ret. cbn. rewrite Ho. cbn. rewrite Hg. cbn. by rewrite Hg. }
  rewrite (bind_eq _ _ _ _ _ Hrg). cbn beta zeta. unfold updated.
  set (migration' := if decide (r_mode r = Additive) then None else migration).
  destruct (apply_schema_changes _ _ _ _ _ _ _ _ _ _) as [[g1 schema1]|e|] eqn:Ea.
  2: { intros [= <- <-] _. right. split; [by exists (StoreFailed e)|]. done. }
  2: { by intros [= <- _]. }
  erewrite bind_eq; [|reflexivity]. cbn beta iota.
  set (init := match initialization with Some f => if m_schema_version r =? NotVersioned then of_store (f g1) else mret g1 | None => mret g1 end).
  destruct (init r) as [y r1] eqn:Ei.
  assert (r1 = r ∧ (y = Stuck ∨ (∃ e, y = Raise e) ∨ ∃ g', y = Ok g' ∧ match initialization with Some f => if m_schema_version r =? NotVersioned then f g1 = Ok g' else g' = g1 | None => g' = g1 end))
    as [-> [->|[[e ->]|(g' & -> & Hi)]]].
  { revert Ei. unfold init. unfold of_store, mret, act_ret. repeat case_match; intros [= <- <-]; eauto 10. }
  { rewrite (bind_stuck _ _ _ _ Ei). by intros [= <- _]. }
  { rewrite (bind_raise _ _ _ _ _ Ei). intros [= <- <-] _. right. split; [by eexists|]. done. }
  rewrite (bind_eq _ _ _ _ _ Ei). destruct (schema_from_group g') as [s'|]; [|by intros [= <- _]]. erewrite bind_eq; [|reflexivity].
  destruct (get_schema_version g') as [v'|]; [|by intros [= <- _]]. erewrite bind_eq; [|reflexivity].
  erewrite bind_eq; [|reflexivity]. set (r2 := set_cache _ _). intros E Hx. left.
  destruct (commit_spec r2 g' x r') as (-> & Hfile & Hst & Hgr & Hsch & Hop); try done.
  split; [done|]. exists g', schema1. split; [exists g1; by split|]. split_and!; try done. rewrite Hfile. by subst r2 f.
Qed.

Section updating.
Context (initialize_schema : G → option G) (link : nat → V) (schema : Schema) (version : Z).
Context (migration : option (G → Schema → result store_exception (G * Schema))) (initialization : option (G → result store_exception G)) (user : option string).

(** The transaction is committed with what was made of the group of [f]. *)
Definition committed (f : file G) (old_version : Z) (mode : SchemaMode) (changes : list SchemaChange) r' : Prop :=
  ∃ g' schema', updated initialize_schema link schema old_version version mode changes migration initialization user (f_group f) g' schema' ∧
    r_file r' = File (f_version f + 1) g' ∧ r_stage r' = transact_Reading ∧ m_group r' = Some g' ∧ m_schema r' = schema'.

Lemma finish_spec changes f r x r' : writes f r → may_write (r_mode r) →
  at_exit (apply_update initialize_schema link schema version migration initialization user false changes) (end_transaction false) r = (x, r') → x ≠ Stuck →
  (x = Ok tt ∧ committed f (m_schema_version r) (r_mode r) changes r') ∨
  ((∃ e, x = Raise e) ∧ r_file r' = f ∧ r_stage r' = transact_Reading ∧ m_group r' = Some (f_group f)).
Proof.
  intros Hw Hm. unfold at_exit. destruct (apply_update _ _ _ _ _ _ _ _ _ r) as [y r1] eqn:E. intros Hexit Hx.
  assert (y ≠ Stuck) as Hy. { intros ->. destruct (end_transaction false r1) as [[?|?|] ?]; by simplify_eq. }
  unfold end_transaction in Hexit. rewrite get_bind in Hexit. cbn [negb andb] in Hexit.
  destruct (apply_update_spec _ _ _ _ _ _ _ _ _ _ _ _ Hw Hm E Hy) as [(-> & g' & s' & Hup & Hf & Hs & Hg & Hsch & Ho)|([e ->] & Hw1 & Hm1)].
  - left. assert (is_in_transaction r1 = false) as Hin by (unfold is_in_transaction; by rewrite Ho, Hs). rewrite Hin in Hexit. cbn in Hexit. injection Hexit as <- <-. split; [done|]. by exists g', s'.
  - right. destruct Hw1 as (Ho & Hs & Hf & Hg & _).
    assert (is_in_transaction r1 = true) as Hin by (unfold is_in_transaction; rewrite Ho; by apply bool_decide_eq_true). rewrite Hin in Hexit.
    destruct (cancel_transaction r1) as [z r2] eqn:Ec. destruct z as [[]|e'|]; [|by simplify_eq..].
    destruct (cancel_spec f r1 (Ok tt) r2) as (_ & ? & ? & _ & ?); [done..|by rewrite Hm1|done|done|]. simplify_eq. split_and!; [by eexists|done..].
Qed.

(** All of the changes are in the file, or none of them, and the transaction has ended. *)
Definition all_or_nothing (f : file G) (mode : SchemaMode) (x : result realm_error unit) r' : Prop :=
  r_stage r' ≠ transact_Writing ∧ (r_file r' = f ∨ x = Ok tt ∧ ∃ old_version changes, committed f old_version mode changes r').
Definition cached_update changes : act unit :=
  cache_new_schema ;; at_exit (apply_update initialize_schema link schema version migration initialization user false changes) (end_transaction false).

Lemma cached_update_spec changes f r x r' : writes f r → may_write (r_mode r) → cached_update changes r = (x, r') → x ≠ Stuck → all_or_nothing f (r_mode r) x r'.
Proof.
  intros Hw Hmay E Hx. unfold cached_update in E. pose proof (cache_still r) as Hst. destruct (cache_new_schema r) as [[[]|e|] r1] eqn:E1; cbn [snd] in Hst.
  - rewrite (bind_eq _ _ _ _ _ E1) in E. assert (r_mode r1 = r_mode r) as Hmode by apply Hst.
    destruct (finish_spec changes f r1 x r') as [(-> & Hc)|(_ & Hf & Hst' & _)]; [by eapply writes_still|by rewrite Hmode|done|done| |].
    + pose proof Hc as (g' & s' & _ & _ & Hst' & _). split; [by rewrite Hst'|]. right. split; [done|]. rewrite Hmode in Hc. by eexists _, _.
    + split; [by rewrite Hst'|by left].
  - by apply cache_raises in E1.
  - rewrite (bind_stuck _ _ _ _ E1) in E. by simplify_eq.
Qed.

(** When the new check finds nothing to do, the transaction is cancelled. *)
Lemma cancelled_update_spec actual f r x r' : writes f r → may_write (r_mode r) →
  (cancel_transaction ;; cache_new_schema ;; set_schema actual schema) r = (x, r') → x ≠ Stuck → r_stage r' ≠ transact_Writing ∧ r_file r' = f.
Proof.
  intros (Ho & Hs & Hf & _) Hmay E Hx. destruct (cancel_transaction r) as [y r1] eqn:E1.
  assert (y ≠ Stuck) as Hy. { intros ->. rewrite (bind_stuck _ _ _ _ E1) in E. by simplify_eq. }
  destruct (cancel_spec f r y r1) as (-> & Hf1 & Hs1 & _); [done..|]. rewrite (bind_eq _ _ _ _ _ E1) in E. pose proof (cache_still r1) as Hst.
  destruct (cache_new_schema r1) as [[[]|e|] r2] eqn:E2; cbn [snd] in Hst.
  2: by apply cache_raises in E2.
  2: rewrite (bind_stuck _ _ _ _ E2) in E; by simplify_eq.
  rewrite (bind_eq _ _ _ _ _ E2) in E. pose proof (set_schema_still actual schema r2) as Hst2. rewrite E in Hst2. cbn [snd] in Hst2.
  destruct Hst as (?&?&?&?&_), Hst2 as (?&?&?&?&_). split; congruence.
Qed.

(** The new check, against the schema that another process made *)
Lemma second_check_spec fresh actual f r x r' : writes f r → may_write (r_mode r) → r_mode r ≠ ResetFile →
  ('(needed, changes) ← schema_change_needs_write_transaction fresh schema (compare actual schema false) version;
   if negb (needed : bool) then cancel_transaction ;; cache_new_schema ;; set_schema actual schema else cached_update changes) r = (x, r') → x ≠ Stuck →
  all_or_nothing f (r_mode r) x r' ∨ (∃ e, x = Raise e) ∧ r' = r.
Proof.
  intros Hw Hmay Hm E Hx. set (changes := compare actual schema false) in *. pose proof (needs_write_pure fresh schema changes version r Hm) as Hp.
  destruct (schema_change_needs_write_transaction fresh schema changes version r) as [[[needed new_changes]|e|] r1] eqn:E1; cbn [snd] in Hp; subst r1.
  - rewrite (bind_eq _ _ _ _ _ E1) in E. left. destruct needed; cbn [negb] in E; [by eapply cached_update_spec|].
    destruct (cancelled_update_spec actual f r x r') as [? ?]; try done. split; [done|by left].
  - rewrite (bind_raise _ _ _ _ _ E1) in E. injection E as <- <-. right. split; [by eexists|done].
  - rewrite (bind_stuck _ _ _ _ E1) in E. by simplify_eq.
Qed.

(** C6: in every mode but [ResetFile], which deletes the file before any transaction, a schema update outside of a write transaction commits all of its changes or none: the file is the one that
    was there, also when another process has just committed, or the Realm has added one version to it with what the changes and the
    initialization made of the newest group, and then the update has succeeded and the Realm presents that schema and group.  No write transaction is left
    open, but for one case: the second check, which is made because another process changed the schema, throws. *)
Theorem update_schema_atomic meanwhile fresh r x r' :
  r_open r = true → r_stage r ≠ transact_Writing → r_mode r ≠ ResetFile →
  update_schema meanwhile fresh initialize_schema link schema version migration initialization user false r = (x, r') → x ≠ Stuck →
  (r_stage r' ≠ transact_Writing ∧
   (r_file r' = r_file r ∨ r_file r' = meanwhile (r_file r) ∨
    x = Ok tt ∧ ∃ old_version changes, committed (meanwhile (r_file r)) old_version (r_mode r) changes r')) ∨
  (∃ e new_schema, x = Raise e ∧ writes (meanwhile (r_file r)) r' ∧ m_new_schema r' = Some new_schema).
Proof.
  intros Ho Hs Hm. unfold update_schema. destruct (Validate.validate schema) as [errors|]; [|by intros [= <- _]].
  erewrite bind_eq; [|reflexivity]. destruct (negb (bool_decide (errors = []))); [intros [= <- <-] _; left; split; [done|by left]|].
  pose proof (get_full_schema_quiet r) as Hq. destruct (get_full_schema r) as [[actual|e|] r1] eqn:E1; cbn [snd] in Hq; destruct Hq as (Qf & Qm & Qo & Qs).
  2: { rewrite (bind_raise _ _ _ _ _ E1). intros [= <- <-] _. left. split; [auto|by left]. }
  2: { rewrite (bind_stuck _ _ _ _ E1). by intros [= <- _]. }
  rewrite (bind_eq _ _ _ _ _ E1). clear E1. assert (r_stage r1 ≠ transact_Writing) as Hs1 by auto.
  set (changes1 := compare actual schema false). pose proof (needs_write_still fresh schema changes1 version r1 ltac:(congruence)) as Hq.
  destruct (schema_change_needs_write_transaction fresh schema changes1 version r1) as [[[needed changes]|e|] r2] eqn:E2; cbn [snd] in Hq; destruct Hq as (Sf & Sm & So & Ss & Sg & Sv).
  2: { rewrite (bind_raise _ _ _ _ _ E2). intros [= <- <-] _. left. split; [congruence|left; congruence]. }
  2: { rewrite (bind_stuck _ _ _ _ E2). by intros [= <- _]. }
  rewrite (bind_eq _ _ _ _ _ E2). apply needs_write_ok in E2 as [-> Hmay]; [|congruence].
  destruct needed; cbn [negb]; [|intros [= <- <-] _; left; split; [cbn; congruence|left; cbn; congruence]]. specialize (Hmay eq_refl).
  destruct (begin_without_validation meanwhile r2) as [y r3] eqn:E3. intros E Hx.
  assert (y ≠ Stuck) as Hy. { intros ->. rewrite (bind_stuck _ _ _ _ E3) in E. by simplify_eq. }
  destruct (begin_spec meanwhile r2 y r3) as (-> & Hw & Hmode); [congruence|done|done|]. rewrite (bind_eq _ _ _ _ _ E3), get_bind in E. clear E3.
  rewrite Sf, Qf in Hw. assert (r_mode r3 = r_mode r) as Hmode3 by congruence. assert (may_write (r_mode r3)) as Hmay3 by (rewrite Hmode; by rewrite Sm).
  assert (∀ x r', all_or_nothing (meanwhile (r_file r)) (r_mode r3) x r' → r_stage r' ≠ transact_Writing ∧
    (r_file r' = r_file r ∨ r_file r' = meanwhile (r_file r) ∨ x = Ok tt ∧ ∃ old_version changes, committed (meanwhile (r_file r)) old_version (r_mode r) changes r')) as Hleft.
  { rewrite Hmode3. intros ? ? [? ?]. tauto. }
  destruct (m_new_schema r3) as [s3|] eqn:En; [|left; apply Hleft; by eapply cached_update_spec].
  destruct (second_check_spec fresh s3 (meanwhile (r_file r)) r3 x r') as [?|[[e ->] ->]]; [done|done|congruence|done|done|left; by apply Hleft|].
  right. by eexists e, s3.
Qed.
End updating.
End quiet.

(** ** A Realm that was just opened *)
Section opened.
Context {G V : Type} {VA : Values V} {CG : Core G V} {CL : CoreLaws G V} {AG : Advances G} `{SL : SortLaws} `{PL : PartitionLaws} {PP : PartitionInPlace}.
Implicit Types (f : file G) (r : realm G).

(** The cache after one Realm read the schema *)
Definition read_once s v f : schema_cache := cache_schema s v (f_version f) no_cache.
Definition just_opened f s v : realm G := Realm f Automatic true None transact_Ready (f_version f) s v (f_version f) None true false (read_once s v f).

Lemma open_spec f s v : schema_from_group (f_group f) = Some s → get_schema_version (f_group f) = Some v → f_version f ≠ W64 - 1 →
  open_realm f Automatic no_cache = (Ok tt, just_opened f s v).
Proof.
  intros Es Ev Hf. unfold open_realm. rewrite decide_False by done. cbn [get_cached_schema no_cache m_cached_schema mbind option_bind].
  set (r1 := Realm f Automatic true (Some (f_group f)) transact_Reading (f_version f) s v (f_version f) None true false (cache_schema s v (f_version f) no_cache)).
  assert (read_group (closed_view f Automatic no_cache) = (Ok (f_group f), r1)) as E.
  { unfold read_group, verify_open, begin_read, read_schema_from_group_if_needed, closed_view, mbind, act_bind, get, of_option, modify, mret, act_ret, throw. cbn.
    assert (W64 - 1 =? f_version f = false) as Hne by lia. rewrite Hne. cbn. rewrite Ev. cbn. rewrite Es. cbn.
    case_bool_decide as Hs; cbn; [|done]. subst s. done. }
  rewrite (bind_eq _ _ _ _ _ E). done.
Qed.

(** In a read or a write transaction, before anything was changed *)
Definition in_stage (st : stage) f s v c : realm G := Realm f Automatic true (Some (f_group f)) st (f_version f) s v (f_version f) None true false c.

Lemma full_schema_spec f s v : get_full_schema (just_opened f s v) = (Ok s, in_stage transact_Reading f s v (read_once s v f)).
Proof.
  unfold get_full_schema, just_opened. rewrite get_bind. unfold immutable at 1. change (bool_decide (Automatic = Immutable)) with false. cbn iota.
  set (r1 := in_stage transact_Reading f s v (read_once s v f)).
  match goal with |- context [(_ ≫= _) ?r] => assert (refresh r = (Ok true, r1)) as E end.
  { unfold refresh. erewrite bind_eq; [|reflexivity]. rewrite get_bind.
    match goal with |- context [is_in_transaction ?r] => change (is_in_transaction r) with false end.
    cbv beta iota. cbn [m_is_sending_notifications m_group]. erewrite bind_eq; [|reflexivity]. cbv beta. unfold at_exit.
    match goal with |- context [(_ ≫= _) ?r] => assert (read_group r = (Ok (f_group f), set_sending true r1)) as E end.
    { unfold read_group. erewrite bind_eq; [|reflexivity]. rewrite get_bind. cbn [set_sending m_group].
      match goal with |- context [(begin_read ≫= _) ?r] => assert (begin_read r = (Ok tt, set_sending true r1)) as E end.
      { unfold begin_read, read_schema_from_group_if_needed. rewrite get_bind. do 2 (erewrite bind_eq; [|reflexivity]). rewrite get_bind. erewrite bind_eq; [|reflexivity].
        cbn. by rewrite Z.eqb_refl. }
      rewrite (bind_eq _ _ _ _ _ E). done. }
    rewrite (bind_eq _ _ _ _ _ E). done. }
  rewrite (bind_eq _ _ _ _ _ E). done.
Qed.

Lemma read_once_cases f s v : 0 <= f_version f → read_once s v f = no_cache ∨ read_once s v f = Cache (Some s) v (f_version f) (f_version f).
Proof.
  intros Hf. unfold read_once, cache_schema, no_cache. cbn [c_version_max]. assert (f_version f <? 0 = false) as -> by lia.
  destruct (bool_decide (s = []) || (v =? NotVersioned)); [by left|by right].
Qed.

Lemma cache_ready f s v st : 0 <= f_version f → ∃ c, cache_new_schema (in_stage st f s v (read_once s v f)) = (Ok tt, in_stage st f s v c).
Proof.
  intros Hf. unfold cache_new_schema. rewrite get_bind. change (immutable _) with false. cbv beta iota. cbn [in_stage m_new_schema m_schema_transaction_version r_version r_cache].
  destruct (read_once_cases f s v Hf) as [-> | ->]; [by eexists|].
  assert (advance_schema_cache (f_version f) (f_version f) (Cache (Some s) v (f_version f) (f_version f)) = Some (Cache (Some s) v (f_version f) (f_version f))) as ->
    by (unfold advance_schema_cache; cbn [m_cached_schema c_version_max c_version_min c_schema_version]; rewrite Z.leb_refl; cbn; by rewrite Z.ltb_irrefl, Z.min_id, Z.max_id).
  by eexists.
Qed.

Lemma commit_ends r g s : r_open r = true → r_stage r = transact_Writing → m_group r = Some g → may_write (r_mode r) → m_new_schema r = Some s →
  ∃ r', commit_transaction r = (Ok tt, r').
Proof.
  intros Ho Hs Hg [Hi Hr] Hn. unfold commit_transaction, check_write. unfold mbind, act_bind, get. cbn. unfold immutable, read_only_alternative, is_in_transaction.
  rewrite !bool_decide_eq_false_2 by done. cbn. rewrite Ho, bool_decide_eq_true_2 by done. cbn. rewrite Hg. unfold of_option. cbn [lift].
  unfold modify, cache_new_schema. rewrite get_bind. unfold immutable. cbn [set_transaction set_file r_mode m_new_schema]. rewrite bool_decide_eq_false_2 by done. rewrite Hn. by eexists.
Qed.

Lemma cancel_ends r g s v : r_open r = true → r_stage r = transact_Writing → m_group r = Some g → may_write (r_mode r) →
  schema_from_group (f_group (r_file r)) = Some s → get_schema_version (f_group (r_file r)) = Some v → ∃ r', cancel_transaction r = (Ok tt, r').
Proof.
  intros Ho Hs Hg [Hi Hr] Es Ev. unfold cancel_transaction, check_write. unfold mbind, act_bind, get. cbn. unfold immutable, read_only_alternative, is_in_transaction.
  rewrite !bool_decide_eq_false_2 by done. cbn. rewrite Ho, bool_decide_eq_true_2 by done. cbn. unfold roll_back. rewrite get_bind. unfold of_option at 1. rewrite Hg.
  erewrite bind_eq; [|reflexivity]. erewrite bind_eq; [|reflexivity]. destruct (schema_instructions _ _); [|by eexists].
  unfold schema_change_handler, of_option. rewrite Es, Ev. by eexists.
Qed.

(** The end of an update in automatic mode *)
Section ready.
Context (initialize_schema : G → option G) (link : nat → V) (f : file G) (s : Schema) (v : Z) (c : schema_cache) (target : Schema) (version : Z) (changes : list SchemaChange).
Let outcome := apply_schema_changes initialize_schema link v version Automatic changes None None target (f_group f).
Let finish := at_exit (apply_update initialize_schema link target version None None None false changes) (end_transaction false) (in_stage transact_Writing f s v c).

Lemma update_ready g' : outcome = Ok (g', set_schema_columns g' target) → is_Some (schema_from_group g') → is_Some (get_schema_version g') → ∃ r', finish = (Ok tt, r').
Proof.
  intros Ea [s' Es] [v' Ev]. unfold finish, at_exit, apply_update. rewrite get_bind. erewrite bind_eq; [|reflexivity]. cbn [in_stage r_mode m_schema_version].
  destruct (decide (Automatic = Additive)) as [|_]; [done|]. destruct (decide (None = None)) as [_|]; [|done]. fold (in_stage transact_Writing f s v c).
  erewrite (bind_eq (of_store _)); [|unfold of_store; fold outcome; by rewrite Ea]. cbv beta iota. erewrite bind_eq; [|reflexivity].
  erewrite bind_eq; [|unfold of_option; by rewrite Es]. erewrite bind_eq; [|unfold of_option; by rewrite Ev]. erewrite bind_eq; [|reflexivity].
  match goal with |- context [commit_transaction ?r] => destruct (commit_ends r g' s') as [r' E]; [done..|]; rewrite E; destruct (commit_spec r g' (Ok tt) r') as (_ & _ & Hst & _); try done end.
  unfold end_transaction. rewrite get_bind. cbn [negb andb]. assert (is_in_transaction r' = false) as -> by (unfold is_in_transaction; rewrite Hst; apply andb_false_r). by eexists.
Qed.

Lemma update_failed e : outcome = Raise e → schema_from_group (f_group f) = Some s → get_schema_version (f_group f) = Some v → ∃ r', finish = (Raise (StoreFailed e), r').
Proof.
  intros Ea Es Ev. unfold finish, at_exit, apply_update. rewrite get_bind. erewrite bind_eq; [|reflexivity]. cbn [in_stage r_mode m_schema_version].
  destruct (decide (Automatic = Additive)) as [|_]; [done|]. destruct (decide (None = None)) as [_|]; [|done]. fold (in_stage transact_Writing f s v c).
  erewrite (bind_raise (of_store _)); [|unfold of_store; fold outcome; by rewrite Ea]. unfold end_transaction. rewrite get_bind. change (is_in_transaction _) with true. cbn [negb andb].
  destruct (cancel_ends (in_stage transact_Writing f s v c) (f_group f) s v) as [r' ->]; [done..|]. by eexists.
Qed.
End ready.

(** C5: a Realm that was just opened in automatic mode, with a new version of its schema and without a migration function, brings the file to
    that schema: the update ends, one version is added to the file, the group of that version is what [migrated_group] says, and the Realm
    presents the schema with the columns it has there; the only way to fail is a new primary key with duplicates, and
    then the file is as it was and no transaction is open.  Assumed: no other process commits meanwhile, no list that holds rows gets optional elements,
    the core gives objects no ids, and [std::partition] leaves a prefix in place. *)
Theorem opened_and_migrated fresh initialize_schema link f s v ps target version :
  schema_from_group (f_group f) = Some s → get_schema_version (f_group f) = Some v → 0 <= f_version f < W64 - 1 →
  sync_has_object_ids = false → prepared (f_group f) ps → (∀ cls, cls ∈ ps.*1 → is_Some (get_table (tn cls) (f_group f))) →
  Validate.validate target = Some [] → strict target → valid_schema target → (∀ t, t ∈ target → storable t) → no_optional_lists (f_group f) s target →
  v ≠ NotVersioned → v < version < W64 → 0 <= v →
  ∃ x r', update_schema id fresh initialize_schema link target version None None None false (open_realm f Automatic no_cache).2 = (x, r') ∧ r_stage r' = transact_Reading ∧
    ((x = Ok tt ∧ ∃ g', r_file r' = File (f_version f + 1) g' ∧ migrated_group (f_group f) s target version g' ∧ m_group r' = Some g' ∧ m_schema r' = set_schema_columns g' target) ∨
     (∃ e t, duplicate_keys (f_group f) s target e t ∧ x = Raise (StoreFailed (DuplicatePrimaryKeyValue (class_name t) (primary_key t))) ∧ r_file r' = f)).
Proof.
  intros Es Ev Hf Hids Hprep Hfresh Hval Ht Hv Hst Hl Hnv Hver Hv0. rewrite (open_spec f s v) by (done || lia). cbn [snd].
  unfold update_schema. rewrite Hval. erewrite bind_eq; [|reflexivity]. cbn [negb]. rewrite bool_decide_eq_true_2 by done. cbn [negb].
  rewrite (bind_eq _ _ _ _ _ (full_schema_spec f s v)). set (changes := compare s target false).
  assert (schema_change_needs_write_transaction fresh target changes version (in_stage transact_Reading f s v (read_once s v f)) = (Ok (true, changes), in_stage transact_Reading f s v (read_once s v f))) as E.
  { unfold schema_change_needs_write_transaction. rewrite get_bind. cbn [in_stage m_schema_version r_mode].
    assert (version =? v = false) as -> by lia. assert (version <? v = false) as -> by lia. done. }
  rewrite (bind_eq _ _ _ _ _ E). cbn [negb].
  assert (begin_without_validation id (in_stage transact_Reading f s v (read_once s v f)) = (Ok tt, in_stage transact_Writing f s v (read_once s v f))) as Eb.
  { unfold begin_without_validation, advance_group, mbind, act_bind, get, of_option, modify, mret, act_ret, in_stage. cbn. rewrite Z.eqb_refl. done. }
  rewrite (bind_eq _ _ _ _ _ Eb), get_bind. cbn [in_stage m_new_schema]. fold (in_stage transact_Writing f s v (read_once s v f)).
  destruct (cache_ready f s v transact_Writing) as [c Ec]; [lia|]. rewrite (bind_eq _ _ _ _ _ Ec).
  set (finish := at_exit _ _ _).
  assert (∃ x r', finish = (x, r') ∧ x ≠ Stuck ∧ ((∃ g', apply_schema_changes initialize_schema link v version Automatic changes None None target (f_group f) = Ok (g', set_schema_columns g' target) ∧
      migrated_group (f_group f) s target version g') ∧ x = Ok tt ∨
    ∃ e t, duplicate_keys (f_group f) s target e t ∧ x = Raise (StoreFailed (DuplicatePrimaryKeyValue (class_name t) (primary_key t))))) as (x & r' & Ex & Hx & Hcase).
  { destruct (migration_spec initialize_schema link v version None (f_group f) ps s target) as [(g' & Ea & Hm)|(e & t & Hd & Ea)]; try done; try lia.
    - destruct (update_ready initialize_schema link f s v c target version changes g' Ea) as [r' E']; [by destruct (mg_schema _ _ _ _ _ Hm) as (s' & -> & _)|by rewrite (mg_version _ _ _ _ _ Hm)|].
      exists (Ok tt), r'. split_and!; [done..|]. left. split; [by exists g'|done].
    - destruct (update_failed initialize_schema link f s v c target version changes _ Ea Es Ev) as [r' E'].
      eexists _, r'. split_and!; [done..|]. right. by exists e, t. }
  exists x, r'. split; [done|].
  destruct (finish_spec initialize_schema link target version None None None changes f (in_stage transact_Writing f s v c) x r') as [(-> & Hc)|((e & ->) & Hf' & Hst' & _)]; try done.
  - destruct Hc as (g' & s' & Hup & Hfile & Hst' & Hg & Hsch). split; [done|]. left. split; [done|]. exists g'.
    destruct Hcase as [((g2 & Ea & Hm) & _)|(? & ? & _ & ?)]; [|done].
    destruct Hup as (g1 & Ea' & ->). change (apply_schema_changes initialize_schema link v version Automatic changes None None target (f_group f) = Ok (g1, s')) in Ea'.
    rewrite Ea in Ea'. injection Ea' as <- <-. by split_and!.
  - split; [done|]. right. destruct Hcase as [(_ & ?)|(e' & t & Hd & He)]; [done|]. by exists e', t.
Qed.
End opened.

(** ** Instances *)
Module Opened_.
Import Lists Example_ Gentle_.

#[local] Instance compared : Advances group := {|
  schema_instructions g g' := negb (bool_decide (schema_from_group g = schema_from_group g'));
  log_valid _ _ := true
|}.

Definition stored_file : file group := File 5 stored_group.
Definition opened : realm group := (open_realm stored_file Automatic no_cache).2.

Lemma update_schema_witness :
  ∃ x r', update_schema id stored_file Some VRow same_classes 1 None None None false opened = (x, r') ∧ x = Ok tt ∧
    ((r_stage r' ≠ transact_Writing ∧
      (r_file r' = r_file opened ∨ r_file r' = r_file opened ∨
       x = Ok tt ∧ ∃ old_version changes, committed Some VRow same_classes 1 None None None (r_file opened) old_version (r_mode opened) changes r')) ∨
     (∃ e new_schema, x = Raise e ∧ writes (r_file opened) r' ∧ m_new_schema r' = Some new_schema)).
Proof.
  destruct (update_schema id stored_file Some VRow same_classes 1 None None None false opened) as [x r'] eqn:E. exists x, r'. split; [done|].
  assert (x = Ok tt) as Hx. { transitivity (fst (update_schema id stored_file Some VRow same_classes 1 None None None false opened)); [by rewrite E|by vm_compute]. }
  split; [done|]. apply (update_schema_atomic Some VRow same_classes 1 None None None id stored_file opened x r'); [reflexivity|discriminate|discriminate|done|by rewrite Hx].
Defined.

Lemma opened_and_migrated_witness :
  ∃ x r', update_schema id stored_file Some VRow wanted_classes 2 None None None false opened = (x, r') ∧ r_stage r' = transact_Reading ∧
    ((x = Ok tt ∧ ∃ g', r_file r' = File 6 g' ∧ migrated_group stored_group [person_now] wanted_classes 2 g' ∧ m_group r' = Some g' ∧ m_schema r' = set_schema_columns g' wanted_classes) ∨
     (∃ e t, duplicate_keys stored_group [person_now] wanted_classes e t ∧ x = Raise (StoreFailed (DuplicatePrimaryKeyValue (class_name t) (primary_key t))) ∧ r_file r' = stored_file)).
Proof.
  apply (opened_and_migrated stored_file Some VRow stored_file [person_now] 1 [("Person", "id")] wanted_classes 2).
  - by vm_compute.
  - by vm_compute.
  - by vm_compute.
  - done.
  - apply stored_prepared.
  - intros cls [->|[]%elem_of_nil]%elem_of_cons. by eexists.
  - by vm_compute.
  - vm_compute. strict_tac.
  - apply wanted_valid.
  - apply wanted_storable.
  - intros e t p q tb [->|[]%elem_of_nil]%elem_of_cons _ _ (Hp & _) _ Ha. exfalso. revert Hp Ha.
    by intros [->|[->|[->|[]%elem_of_nil]%elem_of_cons]%elem_of_cons]%elem_of_cons Ha; vm_compute in Ha.
  - done.
  - by vm_compute.
  - done.
Defined.

(** The first case holds there. *)
Example opened_migrated : (update_schema id stored_file Some VRow wanted_classes 2 None None None false opened).1 = Ok tt.
Proof. by vm_compute. Qed.

Example version_added : f_version (r_file (update_schema id stored_file Some VRow same_classes 1 None None None false opened).2) = 6.
Proof. by vm_compute. Qed.

(** Another process takes the file to version 3 of the schema. *)
Definition migrated : group :=
  match apply_schema_changes Some VRow 1 3 Automatic (compare [person_now] wanted_classes false) None None wanted_classes stored_group with Ok (g, _) => g | _ => stored_group end.

(** When it does so after the first check and before the write lock is taken, the second check throws and the write transaction stays open. *)
Example transaction_left_open :
  let '(x, r) := update_schema (λ _, File 6 migrated) stored_file Some VRow same_classes 2 None None None false opened in
  x = Raise (InvalidSchemaVersion 3 2) ∧ r_stage r = transact_Writing.
Proof. by vm_compute. Qed.

(** When a Realm begins to read at a version whose schema is not compatible with its own, that throws, but only the first time. *)
Example checked_once :
  let r := (update_schema id stored_file Some VRow same_classes 1 None None None false opened).2 in
  let r := set_file (File 7 migrated) (invalidate r).2 in
  let '(x, r1) := read_group r in
  let '(y, _) := read_group r1 in
  (match x with Raise (SchemaFailed _) => True | _ => False end) ∧ match y with Ok g => g = migrated | _ => False end.
Proof. vm_compute. by split. Qed.
End Opened_.
