(* ===== verification/Results.v ===== *)
(** * Results: lazy queries

    Model of results.cpp.  A Results is nothing, a table, a link list, a query with an ordering, or a view of the rows that a query found; it
    goes from one to the other when it is used.  Tables, queries, orderings and views belong to the Realm core and are an interface; the
    contents of the file are an argument of every function.  The Realm is what its functions ask it. *)

From Stdlib Require Import Ascii String Sorted.
From stdpp Require Import strings.
From S2P Require Import Prelude Schema.
Open Scope list_scope.
Open Scope Z_scope.

(** What the Realm core does, for contents [D] of a file *)
Class Queries (D : Type) := {
  table : Type; query : Type; ordering : Type; view : Type; link_view : Type;
  sort_descriptor : Type; distinct_descriptor : Type; core_type : Type;
  table_dec :: EqDecision table;
  is_attached : table → D → bool;
  table_size : table → D → Z;
  column_count : table → D → Z;
  column_type : table → Z → D → option core_type;
  numeric : core_type → bool;
  (* Table::where(), Table::where(LinkViewRef), Query(Table, TableView) *)
  where_table : table → query;
  where_links : table → link_view → query;
  where_view : table → view → query;
  no_query : query;
  query_table : query → option table;
  and_query : query → query → query;
  sync_view : query → D → query;
  find_all : query → ordering → D → view;
  count : query → ordering → D → Z;
  find : query → D → Z;
  no_view : view;
  view_query : view → query;
  view_sync : view → D → view;
  in_sync : view → D → bool;
  view_attached : view → D → bool;
  (* the indices of the rows, in the order of the view; none for a row that was deleted *)
  view_rows : view → D → list (option Z);
  link_rows : link_view → D → list Z;
  no_ordering : ordering;
  is_empty : ordering → bool;
  will_apply_sort : ordering → bool;
  will_apply_distinct : ordering → bool;
  will_apply_limit : ordering → bool;
  append_sort : sort_descriptor → ordering → ordering;
  append_distinct : distinct_descriptor → ordering → ordering;
  append_limit : Z → ordering → ordering;
  (* what is left of the contents *)
  clear_table : table → D → D;
  clear_view : view → D → D;
  remove_all_target_rows : link_view → D → D
}.

#[export] Existing Instance table_dec.

(** What is asked of the Realm *)
Record environment := Environment { immutable : bool; in_transaction : bool; can_deliver_notifications : bool }.

Inductive mode := Mode_Empty | Mode_Table | Mode_Query | Mode_LinkView | Mode_TableView.
Inductive update_policy := Policy_Auto | Policy_Never.
#[export] Instance mode_dec : EqDecision mode.
Proof. solve_decision. Defined.
#[export] Instance policy_dec : EqDecision update_policy.
Proof. solve_decision. Defined.

Inductive results_error :=
  | InvalidatedException
  | OutOfBoundsIndexException (requested valid_count : Z)
  | DetatchedAccessorException
  | IncorrectTableException
  | UnsupportedColumnTypeException (column_index : Z)
  | UnimplementedOperationException
  | InvalidTransactionException
  | SnapshotNotification.

Record results (D : Type) `{Queries D} := Results {
  m_query : query;
  m_table_view : view;
  m_link_view : option link_view;
  m_table : option table;
  m_descriptor_ordering : ordering;
  m_notifier : bool;
  m_mode : mode;
  m_update_policy : update_policy;
  m_has_used_table_view : bool;
  m_wants_background_updates : bool
}.
Arguments Results {D _}.
Arguments m_query {D _}.
Arguments m_table_view {D _}.
Arguments m_link_view {D _}.
Arguments m_table {D _}.
Arguments m_descriptor_ordering {D _}.
Arguments m_notifier {D _}.
Arguments m_mode {D _}.
Arguments m_update_policy {D _}.
Arguments m_has_used_table_view {D _}.
Arguments m_wants_background_updates {D _}.

Module Result_.
Section results.
Context {D : Type} {QD : Queries D}.
Implicit Types (r : results D) (d : D) (e : environment) (q : query) (o : ordering).

(** ** Functions that change the Results, and may throw *)
Definition act (A : Type) : Type := results D → result results_error A * results D.
#[export] Instance act_ret : MRet act := λ A a r, (Ok a, r).
#[export] Instance act_bind : MBind act := λ A B f m r,
  match m r with (Ok a, r) => f a r | (Raise x, r) => (Raise x, r) | (Stuck, r) => (Stuck, r) end.
Definition get_state : act (results D) := λ r, (Ok r, r).
Definition modify (f : results D → results D) : act unit := λ r, (Ok tt, f r).
Definition throw {A} (x : results_error) : act A := λ r, (Raise x, r).
Definition of_option {A} (m : option A) : act A := λ r, (lift m, r).
Definition of_result {A} (m : result results_error A) : act A := λ r, (m, r).
(** A function of another Results, which is then gone *)
Definition run_on {A} (r' : results D) (m : act A) : act A := λ r, ((m r').1, r).

(** Assignments *)
Definition set_query q r : results D :=
  Results q (m_table_view r) (m_link_view r) (m_table r) (m_descriptor_ordering r) (m_notifier r) (m_mode r) (m_update_policy r) (m_has_used_table_view r) (m_wants_background_updates r).
Definition set_view (v : view) r : results D :=
  Results (m_query r) v (m_link_view r) (m_table r) (m_descriptor_ordering r) (m_notifier r) (m_mode r) (m_update_policy r) (m_has_used_table_view r) (m_wants_background_updates r).
Definition set_mode (m : mode) r : results D :=
  Results (m_query r) (m_table_view r) (m_link_view r) (m_table r) (m_descriptor_ordering r) (m_notifier r) m (m_update_policy r) (m_has_used_table_view r) (m_wants_background_updates r).
Definition set_notifier (b : bool) r : results D :=
  Results (m_query r) (m_table_view r) (m_link_view r) (m_table r) (m_descriptor_ordering r) b (m_mode r) (m_update_policy r) (m_has_used_table_view r) (m_wants_background_updates r).
Definition set_policy (p : update_policy) r : results D :=
  Results (m_query r) (m_table_view r) (m_link_view r) (m_table r) (m_descriptor_ordering r) (m_notifier r) (m_mode r) p (m_has_used_table_view r) (m_wants_background_updates r).
Definition set_used (b : bool) r : results D :=
  Results (m_query r) (m_table_view r) (m_link_view r) (m_table r) (m_descriptor_ordering r) (m_notifier r) (m_mode r) (m_update_policy r) b (m_wants_background_updates r).
Definition set_wants (b : bool) r : results D :=
  Results (m_query r) (m_table_view r) (m_link_view r) (m_table r) (m_descriptor_ordering r) (m_notifier r) (m_mode r) (m_update_policy r) (m_has_used_table_view r) b.

(** ** Constructors *)
Definition of_nothing : results D := Results no_query no_view None None no_ordering false Mode_Empty Policy_Auto false true.
Definition of_query q o : results D := Results q no_view None (query_table q) o false Mode_Query Policy_Auto false true.
Definition of_table (t : table) : results D := Results no_query no_view None (Some t) no_ordering false Mode_Table Policy_Auto false true.
(** [t] is the table of the links. *)
Definition of_links (t : table) (l : link_view) (q : option query) (s : sort_descriptor) : results D :=
  match q with
  | Some q => Results q no_view (Some l) (Some t) (append_sort s no_ordering) false Mode_Query Policy_Auto false true
  | None => Results no_query no_view (Some l) (Some t) (append_sort s no_ordering) false Mode_LinkView Policy_Auto false true
  end.
Definition of_view (t : table) (v : view) o : results D := Results no_query v None (Some t) o false Mode_TableView Policy_Auto false true.

(** ** Checks *)
Definition is_valid d r : bool := match m_table r with Some t => is_attached t d | None => true end.
Definition validate_read d : act unit := r ← get_state; if is_valid d r then mret tt else throw InvalidatedException.
Definition validate_write e d : act unit := validate_read d ;; if in_transaction e then mret tt else throw InvalidTransactionException.

(** ** Evaluation *)

(** [prepare_async], [force] when it is for a callback *)
Definition prepare_async e (force : bool) : act unit :=
  r ← get_state;
  if m_notifier r then mret tt else
  if immutable e then if force then throw InvalidTransactionException else mret tt else
  if in_transaction e then if force then throw InvalidTransactionException else mret tt else
  if decide (m_update_policy r = Policy_Never) then if force then throw SnapshotNotification else mret tt else
  if negb force && negb (can_deliver_notifications e) then mret tt else
  if negb force && match query_table (m_query r) with None => is_empty (m_descriptor_ordering r) | Some _ => false end then mret tt else
  modify (λ r, set_notifier true (set_wants true r)).

Definition use_view e d (wants_notifications : bool) : act unit :=
  (if wants_notifications then prepare_async e false else mret tt) ;;
  modify (λ r, set_view (view_sync (m_table_view r) d) (set_used true r)).

Definition evaluate_query_if_needed e d (wants_notifications : bool) : act unit :=
  r ← get_state;
  match m_update_policy r with
  | Policy_Never => of_option (check (bool_decide (m_mode r = Mode_TableView)))
  | Policy_Auto =>
      match m_mode r with
      | Mode_Empty | Mode_Table | Mode_LinkView => mret tt
      | Mode_Query =>
          let q := sync_view (m_query r) d in
          modify (λ r, set_mode Mode_TableView (set_view (find_all q (m_descriptor_ordering r) d) (set_query q r))) ;;
          use_view e d wants_notifications
      | Mode_TableView => use_view e d wants_notifications
      end
  end.

Definition get_query d : act query :=
  validate_read d ;;
  r ← get_state;
  match m_mode r with
  | Mode_Empty | Mode_Query => mret (m_query r)
  | Mode_TableView =>
      match query_table (view_query (m_table_view r)) with
      | Some _ => mret (view_query (m_table_view r))
      | None =>
          (match m_update_policy r with
           | Policy_Auto => modify (λ r, set_view (view_sync (m_table_view r) d) r)
           | Policy_Never => mret tt
           end) ;;
          r ← get_state;
          t ← of_option (m_table r);
          mret (where_view t (m_table_view r))
      end
  | Mode_LinkView => t ← of_option (m_table r); l ← of_option (m_link_view r); mret (where_links t l)
  | Mode_Table => t ← of_option (m_table r); mret (where_table t)
  end.

Definition update_linkview e d : act bool :=
  r ← get_state;
  of_option (check (bool_decide (m_update_policy r = Policy_Auto))) ;;
  if negb (is_empty (m_descriptor_ordering r)) then
    q ← get_query d;
    modify (λ r, set_mode Mode_Query (set_query q r)) ;;
    evaluate_query_if_needed e d true ;;
    mret false
  else mret true.

(** ** Reading *)

Definition nth_row {A} (l : list A) (i : Z) : option A := if i <? Z.of_nat (length l) then l !! Z.to_nat i else None.

Definition evaluated_size e d : act Z :=
  evaluate_query_if_needed e d true ;; r ← get_state; mret (Z.of_nat (length (view_rows (m_table_view r) d))).
Definition size e d : act Z :=
  validate_read d ;;
  r ← get_state;
  match m_mode r with
  | Mode_Empty => mret 0
  | Mode_Table => t ← of_option (m_table r); mret (table_size t d)
  | Mode_LinkView => l ← of_option (m_link_view r); mret (Z.of_nat (length (link_rows l d)))
  | Mode_Query =>
      modify (λ r, set_query (sync_view (m_query r) d) r) ;;
      r ← get_state;
      if negb (will_apply_distinct (m_descriptor_ordering r)) then mret (count (m_query r) (m_descriptor_ordering r) d) else evaluated_size e d
  | Mode_TableView => evaluated_size e d
  end.

(** [T] is the type of the value; [read] is [realm::get] and [none] the value [T{}], for a row that was deleted. *)
Section values.
Context {T : Type} (read : table → Z → D → T) (none : T).

Definition try_get_view e d (row_ndx : Z) : act (option T) :=
  evaluate_query_if_needed e d true ;;
  r ← get_state;
  t ← of_option (m_table r);
  match nth_row (view_rows (m_table_view r) d) row_ndx with
  | None => mret None
  | Some None => of_option (check (bool_decide (m_update_policy r = Policy_Never))) ;; mret (Some none)
  | Some (Some i) => mret (Some (read t i d))
  end.
Definition try_get e d (row_ndx : Z) : act (option T) :=
  validate_read d ;;
  r ← get_state;
  match m_mode r with
  | Mode_Empty => mret None
  | Mode_Table => t ← of_option (m_table r); mret (if row_ndx <? table_size t d then Some (read t row_ndx d) else None)
  | Mode_LinkView =>
      same ← update_linkview e d;
      if same : bool then
        t ← of_option (m_table r); l ← of_option (m_link_view r);
        mret (i ← nth_row (link_rows l d) row_ndx; Some (read t i d))
      else try_get_view e d row_ndx
  | Mode_Query | Mode_TableView => try_get_view e d row_ndx
  end.

Definition get e d (row_ndx : Z) : act T :=
  row ← try_get e d row_ndx;
  match row with Some v => mret v | None => n ← size e d; throw (OutOfBoundsIndexException row_ndx n) end.
Definition first e d : act (option T) := try_get e d 0.
Definition last e d : act (option T) :=
  validate_read d ;;
  r ← get_state;
  (if decide (m_mode r = Mode_Query) then evaluate_query_if_needed e d true else mret tt) ;;
  n ← size e d; try_get e d (n ⊖ 1).
End values.

(** The first position of a row *)
Definition position (i : Z) (rows : list (option Z)) : Z :=
  let k := find_if (λ row, bool_decide (row = Some i)) rows in if (k <? length rows)%nat then Z.of_nat k else npos.

(** [index_of(RowExpr const&)]: the row with its table, [None] when it is detached *)
Definition index_of_view e d (i : Z) : act Z :=
  evaluate_query_if_needed e d true ;; r ← get_state; mret (position i (view_rows (m_table_view r) d)).
Definition index_of_row e d (row : option (table * Z)) : act Z :=
  validate_read d ;;
  '(t, i) ← (match row with Some ti => mret ti | None => throw DetatchedAccessorException end);
  r ← get_state;
  if match m_table r with Some t' => negb (bool_decide (t = t')) | None => false end then throw IncorrectTableException else
  match m_mode r with
  | Mode_Empty => mret npos
  | Mode_Table => mret i
  | Mode_LinkView =>
      same ← update_linkview e d;
      if same : bool then l ← of_option (m_link_view r); mret (position i (Some <$> link_rows l d)) else index_of_view e d i
  | Mode_Query | Mode_TableView => index_of_view e d i
  end.

(** ** New Results from these *)

Definition filter (q : query) d : act (results D) :=
  r ← get_state;
  if will_apply_limit (m_descriptor_ordering r) then throw UnimplementedOperationException else
  q' ← get_query d; mret (of_query (and_query q' q) (m_descriptor_ordering r)).
Definition sort (s : sort_descriptor) d : act (results D) :=
  r ← get_state;
  match m_mode r with
  | Mode_LinkView => t ← of_option (m_table r); l ← of_option (m_link_view r); mret (of_links t l None s)
  | _ => q ← get_query d; mret (of_query q (append_sort s (m_descriptor_ordering r)))
  end.
Definition limit (max_count : Z) d : act (results D) := r ← get_state; q ← get_query d; mret (of_query q (append_limit max_count (m_descriptor_ordering r))).
Definition distinct (u : distinct_descriptor) d : act (results D) := r ← get_state; q ← get_query d; mret (of_query q (append_distinct u (m_descriptor_ordering r))).

(** A row as a value *)
Definition row_of (t : table) (i : Z) d : option (table * Z) := Some (t, i).

(** [index_of(Query&&)] *)
Definition index_of_query (q : query) e d : act Z :=
  r ← get_state;
  if will_apply_sort (m_descriptor_ordering r) then
    f ← filter q d;
    row ← run_on f (first row_of None e d);
    match row with Some row => index_of_row e d row | None => mret npos end
  else
    q' ← get_query d;
    let q := sync_view (and_query q' q) d in
    let row := find q d in
    if row =? npos then mret npos else t ← of_option (m_table r); index_of_row e d (Some (t, row)).

Definition get_tableview e d : act view :=
  validate_read d ;;
  r ← get_state;
  let evaluated := evaluate_query_if_needed e d true ;; r ← get_state; mret (m_table_view r) in
  match m_mode r with
  | Mode_Empty => mret no_view
  | Mode_LinkView =>
      same ← update_linkview e d;
      if same : bool then t ← of_option (m_table r); l ← of_option (m_link_view r); mret (find_all (where_links t l) no_ordering d) else evaluated
  | Mode_Query | Mode_TableView => evaluated
  | Mode_Table => t ← of_option (m_table r); mret (find_all (where_table t) no_ordering d)
  end.

(** [snapshot() &&]; the other [snapshot] does this to a copy. *)
Definition snapshot e d : act unit :=
  validate_read d ;;
  r ← get_state;
  let freeze := evaluate_query_if_needed e d false ;; modify (λ r, set_policy Policy_Never (set_notifier false r)) in
  match m_mode r with
  | Mode_Empty => modify (λ _, of_nothing)
  | Mode_Table | Mode_LinkView => q ← get_query d; modify (λ r, set_mode Mode_Query (set_query q r)) ;; freeze
  | Mode_Query | Mode_TableView => freeze
  end.

(** ** Aggregates, which are functions of the rows *)

Definition prepare_for_aggregate e d (column : Z) : act unit :=
  r ← get_state;
  t ← of_option (m_table r);
  if column_count t d <? column then throw (OutOfBoundsIndexException column (column_count t d)) else
  (match m_mode r with
   | Mode_Empty | Mode_Table => mret tt
   | Mode_LinkView => q ← get_query d; modify (λ r, set_mode Mode_Query (set_query q r)) ;; evaluate_query_if_needed e d true
   | Mode_Query | Mode_TableView => evaluate_query_if_needed e d true
   end) ;;
  ty ← of_option (column_type t column d);
  if numeric ty then mret tt else throw (UnsupportedColumnTypeException column).
Definition aggregate {A} e d (column : Z) (f : core_type → list (option Z) → result results_error A) : act (option A) :=
  validate_read d ;;
  r ← get_state;
  match m_table r with
  | None => mret None
  | Some t =>
      prepare_for_aggregate e d column ;;
      r ← get_state;
      ty ← of_option (column_type t column d);
      let rows := if decide (m_mode r = Mode_Table) then Some <$> seqZ 0 (table_size t d) else view_rows (m_table_view r) d in
      of_result (Some <$> f ty rows)
  end.

(** ** Writing *)

(** The contents after the rows were deleted; synchronized files of which only a part is there go through a query. *)
Definition clear (is_partial : bool) e d : act D :=
  r ← get_state;
  let clear_evaluated :=
    validate_write e d ;; evaluate_query_if_needed e d true ;; r ← get_state; mret (clear_view (m_table_view r) d) in
  match m_mode r with
  | Mode_Empty => mret d
  | Mode_Table =>
      validate_write e d ;;
      t ← of_option (m_table r);
      if is_partial then run_on (of_query (where_table t) no_ordering) clear_evaluated else mret (clear_table t d)
  | Mode_Query | Mode_TableView => clear_evaluated
  | Mode_LinkView => validate_write e d ;; l ← of_option (m_link_view r); mret (remove_all_target_rows l d)
  end.

(** ** Background updates *)

Definition add_notification_callback e : act unit := prepare_async e true.
Definition set_table_view (tv : view) d : act unit :=
  r ← get_state;
  of_option (check (negb (bool_decide (m_update_policy r = Policy_Never)))) ;;
  modify (λ r, let r := if decide (m_mode r = Mode_TableView) then set_wants (m_has_used_table_view r) r else r in
               set_used false (set_mode Mode_TableView (set_view tv r))) ;;
  of_option (check (in_sync tv d)) ;;
  of_option (check (view_attached tv d)).
End results.
End Result_.
Import Result_.

(** ** What queries and views mean *)

(** The rows that a query matches, in the order of its table, list or view; an ordering of rows; the rows that a view has when it is
    synchronized; whether a query can be run without being synchronized first *)
Class Meaning (D : Type) `{Queries D} := {
  matches : query → D → list Z;
  satisfies : query → D → Z → bool;
  arrange : ordering → D → list Z → list Z;
  view_now : view → D → list Z;
  synced : query → D → Prop
}.

Definition only_sorts {D} `{Queries D} (o : ordering) : Prop := will_apply_distinct o = false ∧ will_apply_limit o = false.
Definition satisfying {D} `{Meaning D} (q : query) (d : D) (l : list Z) : list Z := base.filter (λ i, satisfies q d i = true) l.

Class QueryLaws (D : Type) `{Meaning D} := {
  matches_table t d : matches (where_table t) d = seqZ 0 (table_size t d);
  matches_links t l d : matches (where_links t l) d = link_rows l d;
  matches_view t v d : query_table (view_query v) = None → matches (where_view t v) d = view_now v d;
  matches_and q1 q2 d : matches (and_query q1 q2) d = satisfying q2 d (matches q1 d);
  matches_sync q d d' : matches (sync_view q d) d' = matches q d';
  matches_range q d i : i ∈ matches q d → 0 <= i < npos;
  table_of_table t : query_table (where_table t) = Some t;
  table_of_links t l : query_table (where_links t l) = Some t;
  table_of_view t v : query_table (where_view t v) = Some t;
  table_of_and q1 q2 : query_table (and_query q1 q2) = query_table q1;
  table_of_sync q d : query_table (sync_view q d) = query_table q;
  table_of_nothing : query_table no_query = None;
  synced_sync q d : synced (sync_view q d) d;
  synced_table t d : synced (where_table t) d;
  synced_links t l d : synced (where_links t l) d;
  (* a query that was run *)
  find_all_rows q o d : synced q d → view_rows (find_all q o d) d = Some <$> arrange o d (matches q d);
  find_all_now q o d d' : synced q d → view_now (find_all q o d) d' = arrange o d' (matches q d');
  find_all_query q o d : query_table (view_query (find_all q o d)) = query_table q;
  find_all_matches q o d d' : matches (view_query (find_all q o d)) d' = matches q d';
  count_spec q o d : synced q d → will_apply_distinct o = false → count q o d = Z.of_nat (length (arrange o d (matches q d)));
  find_spec q d : synced q d → find q d = match matches q d with i :: _ => i | [] => npos end;
  (* views *)
  sync_rows v d : view_rows (view_sync v d) d = Some <$> view_now v d;
  sync_now v d d' : view_now (view_sync v d) d' = view_now v d';
  sync_query v d : query_table (view_query (view_sync v d)) = query_table (view_query v);
  sync_matches v d d' : matches (view_query (view_sync v d)) d' = matches (view_query v) d';
  view_length v d d' : length (view_rows v d') = length (view_rows v d);
  (* orderings *)
  arrange_nothing o d l : is_empty o = true → arrange o d l = l;
  arrange_unsorted o d l : will_apply_sort o = false → only_sorts o → arrange o d l = l;
  nothing_empty : is_empty no_ordering = true;
  nothing_sorts : only_sorts no_ordering;
  append_sorts s o : only_sorts o → only_sorts (append_sort s o);
  sorts_permute o d l : only_sorts o → arrange o d l ≡ₚ l;
  sorts_filter o d q l : only_sorts o → arrange o d (satisfying q d l) = satisfying q d (arrange o d l)
}.

Section meaning.
Context {D : Type} `{QL : QueryLaws D}.
Implicit Types (r : results D) (d : D) (e : environment).

(** The rows without the ordering, and the rows that a Results has *)
Definition base r d : list Z :=
  match m_mode r with
  | Mode_Empty => []
  | Mode_Table => match m_table r with Some t => seqZ 0 (table_size t d) | None => [] end
  | Mode_LinkView => match m_link_view r with Some l => link_rows l d | None => [] end
  | Mode_Query => matches (m_query r) d
  | Mode_TableView => match query_table (view_query (m_table_view r)) with Some _ => matches (view_query (m_table_view r)) d | None => view_now (m_table_view r) d end
  end.
Definition rows r d : list Z :=
  match m_mode r with Mode_TableView => view_now (m_table_view r) d | Mode_Empty => [] | _ => arrange (m_descriptor_ordering r) d (base r d) end.

(** What holds of every Results: the constructors make it, and the functions keep it. *)
Record well_formed r : Prop := {
  wf_table : m_mode r ≠ Mode_Empty → is_Some (m_table r);
  wf_nothing : m_mode r = Mode_Empty → m_query r = no_query ∧ m_descriptor_ordering r = no_ordering;
  wf_all : m_mode r = Mode_Table → m_descriptor_ordering r = no_ordering;
  wf_links : m_mode r = Mode_LinkView → is_Some (m_link_view r) ∧ only_sorts (m_descriptor_ordering r);
  wf_query : m_mode r = Mode_Query → query_table (m_query r) = m_table r;
  wf_view t : m_mode r = Mode_TableView → query_table (view_query (m_table_view r)) = Some t → m_table r = Some t ∧
    ∀ d, view_now (m_table_view r) d = arrange (m_descriptor_ordering r) d (matches (view_query (m_table_view r)) d);
  (* a view that was given is ordered as was said *)
  wf_given : m_mode r = Mode_TableView → query_table (view_query (m_table_view r)) = None →
    ∀ d, arrange (m_descriptor_ordering r) d (view_now (m_table_view r) d) = view_now (m_table_view r) d;
  wf_frozen : m_update_policy r = Policy_Never → m_mode r = Mode_TableView
}.

(** Nothing that can be observed has changed: now and after later changes of the file the rows are the same. *)
Record same r r' : Prop := {
  same_rows d : rows r' d = rows r d;
  same_base d : base r' d = base r d;
  same_table : m_table r' = m_table r;
  same_ordering : m_descriptor_ordering r' = m_descriptor_ordering r;
  same_policy : m_update_policy r' = m_update_policy r;
  same_empty : m_mode r' = Mode_Empty ↔ m_mode r = Mode_Empty;
  same_formed : well_formed r → well_formed r'
}.
#[local] Instance same_refl : Reflexive same.
Proof. intros r. by split. Qed.
#[local] Instance same_trans : Transitive same.
Proof. intros r1 r2 r3 [] []. split; try congruence; try tauto; intros; etransitivity; eauto. Qed.

Lemma step_eq {A B} (m : act A) (f : A → act B) r a r1 : m r = (Ok a, r1) → (m ≫= f) r = f a r1.
Proof. intros E. unfold mbind, act_bind. by rewrite E. Qed.
Lemma state_bind {B} (f : results D → act B) r : (get_state ≫= f) r = f r r.
Proof. done. Qed.
Lemma assign_bind {B} (g : results D → results D) (f : unit → act B) r : (modify g ≫= f) r = f tt (g r).
Proof. done. Qed.
Lemma option_bind {A B} (m : option A) a (f : A → act B) r : m = Some a → (of_option m ≫= f) r = f a r.
Proof. by intros ->. Qed.
Lemma valid_bind {B} (f : unit → act B) d r : is_valid d r = true → (validate_read d ≫= f) r = f tt r.
Proof. intros E. unfold validate_read, mbind, act_bind, get_state. by rewrite E. Qed.
Lemma same_is_valid r r' d : same r r' → is_valid d r' = is_valid d r.
Proof. intros []. unfold is_valid. by rewrite same_table0. Qed.

(** *** Evaluation *)

Lemma prepare_quiet e r : ∃ r', prepare_async e false r = (Ok tt, r') ∧ (r' = r ∨ r' = set_notifier true (set_wants true r)).
Proof. unfold prepare_async. rewrite state_bind. repeat case_match; eexists; (split; [reflexivity|]); by auto. Qed.

Lemma synced_view r d : m_mode r = Mode_TableView → same r (set_view (view_sync (m_table_view r) d) (set_used true r)) ∧ same r (set_view (view_sync (m_table_view r) d) r).
Proof.
  intros Em. split; (split; [| | | | |done|]); try done.
  1, 4: intros d'; unfold rows; cbn; rewrite Em; apply sync_now.
  1, 3: intros d'; unfold base; cbn; rewrite Em, sync_query; by destruct (query_table _); [apply sync_matches|apply sync_now].
  all: intros [H1 H2 H3 H4 H5 H6 H6' H7]; split; try done.
  1, 3: cbn; rewrite sync_query; intros t _ Hq; destruct (H6 t Em Hq) as [? Hn]; split; [done|]; intros d'; rewrite sync_now, sync_matches; by apply Hn.
  all: cbn; rewrite sync_query; intros _ Hq d'; rewrite sync_now; by apply H6'.
Qed.

Lemma use_view_spec e d w r : m_mode r = Mode_TableView → ∃ r', use_view e d w r = (Ok tt, r') ∧ same r r' ∧ m_mode r' = Mode_TableView ∧ view_rows (m_table_view r') d = Some <$> rows r d.
Proof.
  intros Em. unfold use_view.
  assert (∃ r1, (if w then prepare_async e false else mret tt) r = (Ok tt, r1) ∧ same r r1 ∧ m_mode r1 = Mode_TableView ∧ m_table_view r1 = m_table_view r) as (r1 & E & Hs & Em1 & Ev).
  { destruct w; [|by exists r]. destruct (prepare_quiet e r) as (r' & E & [-> | ->]); eexists; (split; [exact E|]); [done|]. split; [|done]. split; try done. by intros []. }
  rewrite (step_eq _ _ _ _ _ E). eexists. split; [reflexivity|]. split; [|split; [done|]].
  - transitivity r1; [done|]. by apply synced_view.
  - cbn. rewrite sync_rows, Ev. unfold rows. by rewrite Em.
Qed.

(** In the modes with a view, the view then has the rows. *)
Definition viewed r d r' : Prop := m_mode r' = Mode_TableView ∧ view_rows (m_table_view r') d = Some <$> rows r d.

Lemma run_query_spec r d : well_formed r → m_mode r = Mode_Query → m_update_policy r = Policy_Auto → let q := sync_view (m_query r) d in
  same r (set_mode Mode_TableView (set_view (find_all q (m_descriptor_ordering r) d) (set_query q r))).
Proof.
  intros Hwf Em Ep q. pose proof Hwf as [H1 H2 H3 H4 H5 H6 H6' H7]. destruct H1 as [t Et]; [congruence|]. assert (query_table q = Some t) as Eq by (unfold q; rewrite table_of_sync, H5; congruence).
  pose proof (synced_sync (m_query r) d) as Hsync. fold q in Hsync. split; try done; [| | |].
  - intros d'. unfold rows, base. rewrite Em. cbn. rewrite find_all_now by done. unfold q. by rewrite matches_sync.
  - intros d'. unfold base. rewrite Em. cbn. rewrite find_all_query, Eq, find_all_matches. apply matches_sync.
  - cbn. rewrite Em. done.
  - intros _. split; cbn; try done.
    + intros t' _. rewrite find_all_query. intros Ht'. split; [congruence|]. intros d'. by rewrite find_all_now, find_all_matches.
    + rewrite find_all_query. congruence.
Qed.

Lemma evaluate_spec e d w r : well_formed r → m_update_policy r = Policy_Auto →
  ∃ r', evaluate_query_if_needed e d w r = (Ok tt, r') ∧ same r r' ∧ (m_mode r = Mode_Query ∨ m_mode r = Mode_TableView → viewed r d r').
Proof.
  intros Hwf Ep. unfold evaluate_query_if_needed. rewrite state_bind, Ep. destruct (m_mode r) eqn:Em.
  1, 2, 4: exists r; split; [reflexivity|split; [done|by intros [?|?]]].
  - rewrite assign_bind. pose proof (run_query_spec r d Hwf Em Ep) as Hs. cbn zeta in Hs. set (r0 := set_mode _ _) in *.
    destruct (use_view_spec e d w r0 eq_refl) as (r' & E & Hs' & Em' & Hv). exists r'. split; [done|]. split; [by transitivity r0|]. intros _. split; [done|]. rewrite Hv. f_equal. apply Hs.
  - destruct (use_view_spec e d w r Em) as (r' & E & Hs & Hv). exists r'. split; [done|]. split; [done|]. by intros _.
Qed.

Lemma get_query_spec d r : well_formed r → m_update_policy r = Policy_Auto → is_valid d r = true → m_mode r ≠ Mode_Empty →
  ∃ q r', get_query d r = (Ok q, r') ∧ same r r' ∧ query_table q = m_table r ∧ ∀ d', matches q d' = base r d'.
Proof.
  intros Hwf Ep Hd Em. pose proof Hwf as [H1 H2 H3 H4 H5 H6 H6' H7]. destruct H1 as [t Et]; [done|]. unfold get_query. rewrite valid_bind by done. rewrite state_bind.
  unfold base. destruct (m_mode r) eqn:Em'; [done| | | |].
  - rewrite (option_bind _ t) by done. exists (where_table t), r. split; [reflexivity|]. rewrite table_of_table, Et. split_and!; [done..|]. apply matches_table.
  - exists (m_query r), r. split; [reflexivity|]. split; [done|]. split; [by apply H5|done].
  - destruct H4 as [[l El] _]; [done|]. rewrite (option_bind _ t), (option_bind _ l), El by done. exists (where_links t l), r. split; [reflexivity|]. rewrite table_of_links, Et.
    split_and!; [done..|]. apply matches_links.
  - destruct (query_table (view_query (m_table_view r))) as [t'|] eqn:Eq.
    + exists (view_query (m_table_view r)), r. split; [reflexivity|]. split; [done|]. split; [|done]. rewrite Eq. symmetry. by apply H6.
    + rewrite Ep, assign_bind, state_bind. rewrite (option_bind _ t) by done. eexists _, _. split; [reflexivity|]. split; [by apply synced_view|]. rewrite table_of_view, Et. split; [done|].
      intros d'. cbn. rewrite matches_view by (by rewrite sync_query). apply sync_now.
Qed.

Lemma update_linkview_spec e d r : well_formed r → m_update_policy r = Policy_Auto → is_valid d r = true → m_mode r = Mode_LinkView →
  (update_linkview e d r = (Ok true, r) ∧ is_empty (m_descriptor_ordering r) = true) ∨ ∃ r', update_linkview e d r = (Ok false, r') ∧ same r r' ∧ viewed r d r'.
Proof.
  intros Hwf Ep Hd Em. pose proof Hwf as [H1 H2 H3 H4 H5 H6 H6' H7]. destruct H1 as [t Et]; [congruence|]. destruct H4 as [[l El] Ho]; [done|].
  unfold update_linkview. rewrite state_bind, (option_bind _ tt) by (rewrite bool_decide_eq_true_2; done). destruct (is_empty (m_descriptor_ordering r)); [by left|right]. cbn [negb].
  erewrite (step_eq (get_query d)). 2: { unfold get_query. rewrite valid_bind by done. rewrite state_bind, Em, (option_bind _ t), (option_bind _ l) by done. reflexivity. }
  rewrite assign_bind. set (r0 := set_mode Mode_Query _).
  assert (same r r0) as Hs.
  { split; try done; [| | |].
    - intros d'. unfold rows, base. cbn. rewrite Em, El. by rewrite matches_links.
    - intros d'. unfold base. cbn. rewrite Em, El. apply matches_links.
    - cbn. by rewrite Em.
    - intros _. split; cbn; try done; [by rewrite table_of_links|]. intros ?%H7. congruence. }
  destruct (evaluate_spec e d true r0) as (r' & E & Hs' & Hv); [by apply Hs|done|]. rewrite (step_eq _ _ _ _ _ E). exists r'. split; [done|]. split; [by transitivity r0|].
  destruct Hv as [? Hv]; [by left|]. split; [done|]. rewrite Hv. f_equal. apply Hs.
Qed.

(** *** Reading *)

Lemma length_some (l : list Z) : length (Some <$> l) = length l.
Proof. apply length_fmap. Qed.
Lemma nth_some (l : list Z) i : nth_row (Some <$> l) i = Some <$> nth_row l i.
Proof. unfold nth_row. rewrite length_some. destruct (i <? _); [|done]. apply list_lookup_fmap. Qed.
Lemma nth_all i n : 0 <= i → nth_row (seqZ 0 n) i = if i <? n then Some i else None.
Proof.
  intros Hi. unfold nth_row. rewrite length_seqZ. destruct (Z.ltb_spec i n) as [?|?].
  - assert (i <? Z.of_nat (Z.to_nat n) = true) as -> by (apply Z.ltb_lt; lia). rewrite lookup_seqZ_lt by lia. f_equal. lia.
  - destruct (i <? Z.of_nat (Z.to_nat n)) eqn:E; [apply Z.ltb_lt in E; lia|done].
Qed.

Lemma find_if_at {A} (p : A → bool) l k a : l !! k = Some a → p a = true → (∀ j b, (j < k)%nat → l !! j = Some b → p b = false) → find_if p l = k.
Proof.
  revert k. induction l as [|x l IH]; intros [|k] Hk Ha Hb; try done; cbn in *.
  - injection Hk as ->. by rewrite Ha.
  - rewrite (Hb 0%nat x) by (done || lia). f_equal. apply IH; [done..|]. intros j b ??. apply (Hb (S j)); [lia|done].
Qed.
Lemma position_at l k i : l !! k = Some i → (∀ j, (j < k)%nat → l !! j ≠ Some i) → position i (Some <$> l) = Z.of_nat k.
Proof.
  intros Hk Hj. unfold position. rewrite (find_if_at _ _ k (Some i)).
  - rewrite length_some. apply lookup_lt_Some in Hk. apply Nat.ltb_lt in Hk. by rewrite Hk.
  - by rewrite list_lookup_fmap, Hk.
  - by apply bool_decide_eq_true.
  - intros j b Hlt Hb. apply bool_decide_eq_false. rewrite list_lookup_fmap in Hb. intros ->. apply (Hj j Hlt). destruct (l !! j); by simplify_eq/=.
Qed.
Lemma position_all i n : 0 <= i < n → position i (Some <$> seqZ 0 n) = i.
Proof.
  intros Hi. rewrite (position_at _ (Z.to_nat i)); [lia| |].
  - rewrite lookup_seqZ_lt by lia. f_equal. lia.
  - intros j Hj. rewrite lookup_seqZ_lt by lia. intros [= ?]. lia.
Qed.

Section reading.
Context (d : D) (r : results D) (Hwf : well_formed r) (Hauto : m_update_policy r = Policy_Auto) (Hvalid : is_valid d r = true).

Lemma size_spec e : (∀ t, 0 <= table_size t d) → ∃ r', size e d r = (Ok (Z.of_nat (length (rows r d))), r') ∧ same r r'.
Proof.
  intros Hsize. pose proof Hwf as [H1 H2 H3 H4 H5 H6 H6' H7]. unfold size. rewrite valid_bind by done. rewrite state_bind.
  assert (∀ r0, same r r0 → m_mode r0 = Mode_Query ∨ m_mode r0 = Mode_TableView → ∃ r', evaluated_size e d r0 = (Ok (Z.of_nat (length (rows r d))), r') ∧ same r r') as Heval.
  { intros r0 Hs Hm. destruct (evaluate_spec e d true r0) as (r' & E & Hs' & Hv); [by apply Hs|rewrite (same_policy _ _ Hs); done|]. exists r'. split; [|by transitivity r0].
    unfold evaluated_size. rewrite (step_eq _ _ _ _ _ E), state_bind. destruct Hv as [_ Hv]; [done|]. rewrite Hv, length_some, (same_rows _ _ Hs). done. }
  destruct (m_mode r) eqn:Em.
  - exists r. split; [|done]. unfold rows. by rewrite Em.
  - destruct H1 as [t Et]; [done|]. rewrite (option_bind _ t) by done. exists r. split; [|done]. unfold rows, base. rewrite Em, Et, H3 by done. rewrite arrange_nothing by apply nothing_empty.
    rewrite length_seqZ, Z2Nat.id by done. done.
  - rewrite assign_bind, state_bind. cbn. set (r0 := set_query _ r).
    assert (same r r0) as Hs.
    { split; try done; [| |].
      - intros d'. unfold rows, base. cbn. rewrite Em. by rewrite matches_sync.
      - intros d'. unfold base. cbn. rewrite Em. apply matches_sync.
      - intros _. split; cbn; try done; rewrite Em; try done. intros _. rewrite table_of_sync. by apply H5. }
    destruct (will_apply_distinct (m_descriptor_ordering r)) eqn:Ed; cbn [negb]; [apply Heval; [done|by left]|]. exists r0. split; [|done].
    rewrite count_spec by (done || apply synced_sync). rewrite matches_sync. unfold rows, base. by rewrite Em.
  - destruct H4 as [[l El] Ho]; [done|]. rewrite (option_bind _ l) by done. exists r. split; [|done]. unfold rows, base. rewrite Em, El. by rewrite (sorts_permute _ _ _ Ho).
  - apply Heval; [done|by right].
Qed.

Section value.
Context {T : Type} (read : table → Z → D → T) (none : T).
(** The value of the row [i] *)
Definition value_at i : option T := k ← nth_row (rows r d) i; t ← m_table r; Some (read t k d).

Lemma try_get_view_spec e r0 i : same r r0 → m_mode r0 = Mode_Query ∨ m_mode r0 = Mode_TableView → ∃ r', try_get_view read none e d i r0 = (Ok (value_at i), r') ∧ same r r'.
Proof.
  intros Hs Hm. destruct (evaluate_spec e d true r0) as (r' & E & Hs' & Hv); [by apply Hs|rewrite (same_policy _ _ Hs); done|]. exists r'. split; [|by transitivity r0].
  unfold try_get_view. rewrite (step_eq _ _ _ _ _ E), state_bind. destruct Hv as [_ Hv]; [done|]. rewrite Hv, nth_some, (same_rows _ _ Hs).
  assert (m_table r' = m_table r) as Et by (rewrite (same_table _ _ Hs'); apply Hs). destruct (wf_table r' ltac:(by apply Hs', Hs)) as [t Et'].
  { destruct Hm as [Hm|Hm]; rewrite (same_empty _ _ Hs'), Hm; done. }
  rewrite (option_bind _ t) by done. unfold value_at. rewrite <- Et, Et'. by destruct (nth_row (rows r d) i).
Qed.

Lemma try_get_spec e i : 0 <= i → ∃ r', try_get read none e d i r = (Ok (value_at i), r') ∧ same r r'.
Proof.
  intros Hi. pose proof Hwf as [H1 H2 H3 H4 H5 H6 H6' H7]. unfold try_get. rewrite valid_bind by done. rewrite state_bind. destruct (m_mode r) eqn:Em.
  - exists r. split; [|done]. unfold value_at, rows. rewrite Em. unfold nth_row. by destruct (i <? _).
  - destruct H1 as [t Et]; [done|]. rewrite (option_bind _ t) by done. exists r. split; [|done]. unfold value_at, rows, base. rewrite Em, Et, H3, arrange_nothing by (done || apply nothing_empty).
    rewrite nth_all by done. by destruct (i <? _).
  - apply try_get_view_spec; [done|by left].
  - destruct (update_linkview_spec e d r) as [[E Ho]|(r' & E & Hs & [? _])]; [done..| |]; rewrite (step_eq _ _ _ _ _ E).
    + destruct H1 as [t Et]; [done|]. destruct H4 as [[l El] _]; [done|]. rewrite (option_bind _ t), (option_bind _ l) by done. exists r. split; [|done].
      unfold value_at, rows, base. rewrite Em, El, Et, arrange_nothing by done. done.
    + apply try_get_view_spec; [done|by right].
  - apply try_get_view_spec; [done|by right].
Qed.
End value.

Lemma index_of_view_spec e i r0 : same r r0 → m_mode r0 = Mode_Query ∨ m_mode r0 = Mode_TableView → ∃ r', index_of_view e d i r0 = (Ok (position i (Some <$> rows r d)), r') ∧ same r r'.
Proof.
  intros Hs Hm. destruct (evaluate_spec e d true r0) as (r' & E & Hs' & Hv); [by apply Hs|rewrite (same_policy _ _ Hs); done|]. exists r'. split; [|by transitivity r0].
  unfold index_of_view. rewrite (step_eq _ _ _ _ _ E), state_bind. destruct Hv as [_ Hv]; [done|]. by rewrite Hv, (same_rows _ _ Hs).
Qed.

Lemma index_of_row_spec e t i : m_table r = Some t → (m_mode r = Mode_Table → 0 <= i < table_size t d) →
  ∃ r', index_of_row e d (Some (t, i)) r = (Ok (position i (Some <$> rows r d)), r') ∧ same r r'.
Proof.
  intros Et Hi. pose proof Hwf as [H1 H2 H3 H4 H5 H6 H6' H7]. unfold index_of_row. rewrite valid_bind by done. erewrite (step_eq (mret (t, i))); [|reflexivity]. cbv beta iota. rewrite state_bind, Et, bool_decide_eq_true_2 by done. cbn [negb].
  destruct (m_mode r) eqn:Em.
  - exists r. split; [|done]. unfold rows. by rewrite Em.
  - exists r. split; [|done]. unfold rows, base. rewrite Em, Et, H3, arrange_nothing by (done || apply nothing_empty). by rewrite position_all by auto.
  - apply index_of_view_spec; [done|by left].
  - destruct (update_linkview_spec e d r) as [[E Ho]|(r' & E & Hs & [? _])]; [done..| |]; rewrite (step_eq _ _ _ _ _ E).
    + destruct H4 as [[l El] _]; [done|]. rewrite (option_bind _ l) by done. exists r. split; [|done]. unfold rows, base. rewrite Em, El, arrange_nothing by done. done.
    + apply index_of_view_spec; [done|by right].
  - apply index_of_view_spec; [done|by right].
Qed.

End reading.

(** *** Several functions after each other *)

(** A Results that can be read, and has the same rows as [r] *)
Definition ready d r r' : Prop := well_formed r' ∧ m_update_policy r' = Policy_Auto ∧ is_valid d r' = true ∧ same r r'.
Lemma same_ready d r r1 r2 : ready d r r1 → same r1 r2 → ready d r r2.
Proof. intros (Hw & Hp & Hv & Hs) H12. split_and!; [by apply H12|by rewrite (same_policy _ _ H12)|by rewrite (same_is_valid _ _ d H12)|by transitivity r1]. Qed.

Section composed.
Context (d : D) (r : results D) (Hsize : ∀ t, 0 <= table_size t d).

Lemma size_ready e r1 : ready d r r1 → ∃ r', size e d r1 = (Ok (Z.of_nat (length (rows r d))), r') ∧ ready d r r'.
Proof.
  intros Hr. pose proof Hr as (? & ? & ? & Hs). destruct (size_spec d r1) with e as (r' & E & Hs'); [done..|]. exists r'. split; [by rewrite E, (same_rows _ _ Hs)|by eapply same_ready].
Qed.

Section value.
Context {T : Type} (read : table → Z → D → T) (none : T).
Lemma try_get_ready e r1 i : ready d r r1 → 0 <= i → ∃ r', try_get read none e d i r1 = (Ok (value_at d r read i), r') ∧ ready d r r'.
Proof.
  intros Hr Hi. pose proof Hr as (? & ? & ? & Hs). destruct (try_get_spec d r1) with (read := read) (none := none) (e := e) (i := i) as (r' & E & Hs'); [done..|].
  exists r'. split; [|by eapply same_ready]. rewrite E. unfold value_at. by rewrite (same_rows _ _ Hs), (same_table _ _ Hs).
Qed.

Lemma get_ready e r1 i : ready d r r1 → 0 <= i →
  ∃ r', get read none e d i r1 = (match value_at d r read i with Some v => Ok v | None => Raise (OutOfBoundsIndexException i (Z.of_nat (length (rows r d)))) end, r') ∧ ready d r r'.
Proof.
  intros Hr Hi. destruct (try_get_ready e r1 i Hr Hi) as (r2 & E & Hr2). unfold get. rewrite (step_eq _ _ _ _ _ E). destruct (value_at d r read i); [by exists r2|].
  destruct (size_ready e r2 Hr2) as (r3 & E3 & Hr3). rewrite (step_eq _ _ _ _ _ E3). by exists r3.
Qed.

Lemma evaluate_ready e w r1 : ready d r r1 → ∃ r', evaluate_query_if_needed e d w r1 = (Ok tt, r') ∧ ready d r r'.
Proof. intros Hr. pose proof Hr as (? & ? & ? & Hs). destruct (evaluate_spec e d w r1) as (r' & E & Hs' & _); [done..|]. exists r'. split; [done|by eapply same_ready]. Qed.

Lemma last_ready e r1 : ready d r r1 → ∃ r', last read none e d r1 = (Ok (value_at d r read (Z.of_nat (length (rows r d)) ⊖ 1)), r') ∧ ready d r r'.
Proof.
  intros Hr. pose proof Hr as (_ & _ & Hv & _). unfold last. rewrite valid_bind by done. rewrite state_bind.
  assert (∃ r2, (if decide (m_mode r1 = Mode_Query) then evaluate_query_if_needed e d true else mret tt) r1 = (Ok tt, r2) ∧ ready d r r2) as (r2 & E & Hr2).
  { destruct (decide _); [by apply evaluate_ready|by exists r1]. }
  rewrite (step_eq _ _ _ _ _ E). destruct (size_ready e r2 Hr2) as (r3 & E3 & Hr3). rewrite (step_eq _ _ _ _ _ E3). apply try_get_ready; [done|].
  unfold wsub, wrap. apply Z.mod_pos_bound. lia.
Qed.
End value.
End composed.

(** *** [index_of(Query&&)] *)




Lemma rows_base r d : well_formed r → m_mode r ≠ Mode_Empty → rows r d = arrange (m_descriptor_ordering r) d (base r d).
Proof.
  intros [H1 H2 H3 H4 H5 H6 H6' H7] Hm. unfold rows, base. destruct (m_mode r) eqn:Em; try done.
  destruct (query_table (view_query (m_table_view r))) as [t|] eqn:Eq; [by apply (H6 t)|]. symmetry. by apply H6'.
Qed.



(** *** The contract of reading *)

Lemma last_value {T} (read : table → Z → D → T) d r : Z.of_nat (length (rows r d)) < W64 →
  value_at d r read (Z.of_nat (length (rows r d)) ⊖ 1) = k ← list.last (rows r d); t ← m_table r; Some (read t k d).
Proof.
  intros Hlen. unfold value_at, nth_row. rewrite last_lookup. destruct (rows r d) as [|x l]; [done|]. cbn [length] in *. unfold wsub. rewrite wrap_small by lia.
  assert (Z.of_nat (S (length l)) - 1 <? Z.of_nat (S (length l)) = true) as -> by (apply Z.ltb_lt; lia). do 2 f_equal. lia.
Qed.

Lemma tableview_ready e d r : ready d r r → m_mode r ≠ Mode_Empty → ∃ v r', get_tableview e d r = (Ok v, r') ∧ ready d r r' ∧ view_rows v d = Some <$> rows r d.
Proof.
  intros Hr Hm. pose proof Hr as (Hwf & Hp & Hv & _). pose proof Hwf as [H1 H2 H3 H4 H5 H6 H6' H7]. destruct (H1 Hm) as [t Et]. unfold get_tableview. rewrite valid_bind, state_bind by done.
  assert (∀ r0, same r r0 → m_mode r0 = Mode_Query ∨ m_mode r0 = Mode_TableView →
    ∃ v r', (evaluate_query_if_needed e d true ;; r ← get_state; mret (m_table_view r)) r0 = (Ok v, r') ∧ ready d r r' ∧ view_rows v d = Some <$> rows r d) as Heval.
  { intros r0 Hs Hm0. destruct (evaluate_spec e d true r0) as (r' & E & Hs' & Hview); [by apply Hs|by rewrite (same_policy _ _ Hs)|]. destruct Hview as [_ Hview]; [done|].
    eexists _, r'. split; [rewrite (step_eq _ _ _ _ _ E), state_bind; reflexivity|]. split; [eapply same_ready; [done|by transitivity r0]|]. by rewrite Hview, (same_rows _ _ Hs). }
  destruct (m_mode r) eqn:Em; [done| | | |].
  - rewrite (option_bind _ t) by done. eexists _, r. split; [reflexivity|]. split; [done|]. rewrite find_all_rows, matches_table by apply synced_table.
    unfold rows, base. rewrite Em, Et, H3 by done. done.
  - apply Heval; [done|by left].
  - destruct (update_linkview_spec e d r) as [[E Ho]|(r' & E & Hs & [? _])]; [done..| |]; rewrite (step_eq _ _ _ _ _ E); [|apply Heval; [done|by right]].
    destruct H4 as [[l El] _]; [done|]. rewrite (option_bind _ t), (option_bind _ l) by done. eexists _, r. split; [reflexivity|]. split; [done|].
    rewrite find_all_rows, matches_links by apply synced_links. unfold rows, base. rewrite Em, El, !arrange_nothing by (done || apply nothing_empty). done.
  - apply Heval; [done|by right].
Qed.

(** C7: in every mode, the functions that read a Results agree with one list of rows, which are those that its query, list or table has now in
    its order; what is evaluated meanwhile shows neither now nor after later changes of the file. *)
Theorem reads_correct {T} (read : table → Z → D → T) none e d r : well_formed r → m_update_policy r = Policy_Auto → is_valid d r = true →
  (∀ t, 0 <= table_size t d) → Z.of_nat (length (rows r d)) < W64 →
  let value k := t ← m_table r; Some (read t k d) in
  (∃ r', size e d r = (Ok (Z.of_nat (length (rows r d))), r') ∧ ready d r r') ∧
  (∀ i, 0 <= i → ∃ r', get read none e d i r =
     (match nth_row (rows r d) i ≫= value with Some v => Ok v | None => Raise (OutOfBoundsIndexException i (Z.of_nat (length (rows r d)))) end, r') ∧ ready d r r') ∧
  (∃ r', first read none e d r = (Ok (head (rows r d) ≫= value), r') ∧ ready d r r') ∧
  (∃ r', last read none e d r = (Ok (list.last (rows r d) ≫= value), r') ∧ ready d r r') ∧
  (∀ t i, m_table r = Some t → 0 <= i < table_size t d → ∃ r', index_of_row e d (Some (t, i)) r = (Ok (position i (Some <$> rows r d)), r') ∧ ready d r r') ∧
  (m_mode r ≠ Mode_Empty → ∃ v r', get_tableview e d r = (Ok v, r') ∧ ready d r r' ∧ view_rows v d = Some <$> rows r d).
Proof.
  intros Hwf Hp Hv Hsize Hlen value. assert (ready d r r) as Hr by (split_and!; done). split_and!.
  - by apply size_ready.
  - intros i Hi. by apply get_ready.
  - destruct (try_get_ready d r read none e r 0 Hr) as (r' & E & Hr'); [done|]. exists r'. split; [|done]. unfold first. rewrite E. unfold value_at, nth_row. by destruct (rows r d).
  - destruct (last_ready d r Hsize read none e r Hr) as (r' & E & Hr'). exists r'. split; [|done]. by rewrite E, last_value.
  - intros t i Et Hi. destruct (index_of_row_spec d r Hwf Hp Hv e t i Et) as (r' & E & Hs); [done|]. exists r'. split; [done|by eapply same_ready].
  - by apply tableview_ready.
Qed.

(** *** Snapshots *)

Lemma frozen_evaluate e d w s : m_update_policy s = Policy_Never → m_mode s = Mode_TableView → evaluate_query_if_needed e d w s = (Ok tt, s).
Proof. intros Hp Hm. unfold evaluate_query_if_needed. by rewrite state_bind, Hp, Hm. Qed.

Lemma freeze_spec e d r0 : well_formed r0 → m_update_policy r0 = Policy_Auto → m_mode r0 = Mode_Query ∨ m_mode r0 = Mode_TableView →
  ∃ s, (evaluate_query_if_needed e d false ;; modify (λ r, set_policy Policy_Never (set_notifier false r))) r0 = (Ok tt, s) ∧
    m_mode s = Mode_TableView ∧ m_update_policy s = Policy_Never ∧ m_table s = m_table r0 ∧ view_rows (m_table_view s) d = Some <$> rows r0 d.
Proof.
  intros Hwf Hp Hm. destruct (evaluate_spec e d false r0) as (r' & E & Hs & Hview); [done..|]. destruct Hview as [Hm' Hview]; [done|].
  rewrite (step_eq _ _ _ _ _ E). eexists. split; [reflexivity|]. split_and!; cbn; [done|done|apply Hs|done].
Qed.

Lemma snapshot_spec e d r : well_formed r → m_update_policy r = Policy_Auto → is_valid d r = true → m_mode r ≠ Mode_Empty →
  ∃ s, snapshot e d r = (Ok tt, s) ∧ m_mode s = Mode_TableView ∧ m_update_policy s = Policy_Never ∧ m_table s = m_table r ∧ view_rows (m_table_view s) d = Some <$> rows r d.
Proof.
  intros Hwf Hp Hv Hm. unfold snapshot. rewrite valid_bind, state_bind by done.
  assert (m_mode r = Mode_Table ∨ m_mode r = Mode_LinkView → ∃ s,
    (q ← get_query d; modify (λ r, set_mode Mode_Query (set_query q r)) ;; evaluate_query_if_needed e d false ;; modify (λ r, set_policy Policy_Never (set_notifier false r))) r = (Ok tt, s) ∧
    m_mode s = Mode_TableView ∧ m_update_policy s = Policy_Never ∧ m_table s = m_table r ∧ view_rows (m_table_view s) d = Some <$> rows r d) as Hthin.
  { intros Hthin. destruct (get_query_spec d r) as (q & r1 & E & Hs & Eq & Hq); [done..|]. rewrite (step_eq _ _ _ _ _ E), assign_bind. set (r2 := set_mode Mode_Query (set_query q r1)).
    assert (well_formed r2) as Hwf2.
    { pose proof (same_formed _ _ Hs Hwf) as [H1 H2 H3 H4 H5 H6 H6' H7]. split; cbn; try done; [rewrite (same_table _ _ Hs); intros _; by apply wf_table|by rewrite (same_table _ _ Hs)|rewrite (same_policy _ _ Hs); congruence]. }
    destruct (freeze_spec e d r2) as (s & Es & ? & ? & Et & Hrows); [done|rewrite <- Hp; by apply (same_policy _ _ Hs)|by left|]. exists s. split; [done|]. split_and!; [done|done|by rewrite Et; apply Hs|].
    rewrite Hrows. f_equal. rewrite (rows_base r) by done. unfold rows, base. cbn. by rewrite (same_ordering _ _ Hs), Hq. }
  destruct (m_mode r) eqn:Em; [done|apply Hthin; by left| |apply Hthin; by right|]; apply freeze_spec; auto.
Qed.

(** C8: a snapshot has the rows that the Results has when it is made, and keeps them: whatever happens to the file, its size is the same, no
    query is run again, and reading a position gives the row that is there, or nothing when it was deleted. *)
Theorem snapshot_frozen {T} (read : table → Z → D → T) none e d r : well_formed r → m_update_policy r = Policy_Auto → is_valid d r = true → m_mode r ≠ Mode_Empty →
  ∃ s, snapshot e d r = (Ok tt, s) ∧ view_rows (m_table_view s) d = Some <$> rows r d ∧
  ∀ e' d', is_valid d' s = true → size e' d' s = (Ok (Z.of_nat (length (rows r d))), s) ∧
  ∀ i t, m_table r = Some t → get read none e' d' i s =
    (match nth_row (view_rows (m_table_view s) d') i with
     | Some (Some k) => Ok (read t k d')
     | Some None => Ok none
     | None => Raise (OutOfBoundsIndexException i (Z.of_nat (length (rows r d))))
     end, s).
Proof.
  intros Hwf Hp Hv Hm. destruct (snapshot_spec e d r) as (s & E & Hms & Hps & Ets & Hrows); [done..|]. exists s. split; [done|]. split; [done|]. intros e' d' Hv'.
  assert (size e' d' s = (Ok (Z.of_nat (length (rows r d))), s)) as Esize.
  { unfold size. rewrite valid_bind, state_bind, Hms by done. unfold evaluated_size. rewrite (step_eq _ _ _ tt s) by (by apply frozen_evaluate). rewrite state_bind.
    by rewrite (view_length _ d d'), Hrows, length_some. }
  split; [done|]. intros i t Et. unfold get, try_get, mbind at 1, act_bind at 1. rewrite valid_bind, state_bind, Hms by done. unfold try_get_view.
  rewrite (step_eq _ _ _ tt s) by (by apply frozen_evaluate). rewrite state_bind, (option_bind _ t) by congruence. destruct (nth_row _ i) as [[k|]|]; [done| |].
  - rewrite Hps. done.
  - unfold mret, act_ret. by rewrite (step_eq _ _ _ _ _ Esize).
Qed.

(** *** The constructors *)
Lemma of_table_formed t : well_formed (of_table t).
Proof. split; by cbn. Qed.
Lemma of_query_formed q o : is_Some (query_table q) → well_formed (of_query q o).
Proof. intros Hq. split; by cbn. Qed.
Lemma of_links_formed t l s : well_formed (of_links t l None s).
Proof. split; cbn; try done. split; [done|]. apply append_sorts, nothing_sorts. Qed.
End meaning.

(** ** A stable sort *)
Section stable.
Context (le : Z → Z → bool) (le_trans : ∀ x y z, le x y = true → le y z = true → le x z = true) (le_total : ∀ x y, le x y = true ∨ le y x = true).

Fixpoint insert_by (x : Z) (l : list Z) : list Z := match l with [] => [x] | y :: l' => if le x y then x :: l else y :: insert_by x l' end.
Definition sort_by (l : list Z) : list Z := foldr insert_by [] l.

Lemma insert_permutation x l : insert_by x l ≡ₚ x :: l.
Proof. induction l as [|y l IH]; [done|]. cbn. destruct (le x y); [done|]. rewrite IH. apply Permutation_swap. Qed.
Lemma sort_permutation l : sort_by l ≡ₚ l.
Proof. induction l as [|x l IH]; [done|]. cbn. by rewrite insert_permutation, IH. Qed.

Definition ascending : list Z → Prop := StronglySorted (λ x y, le x y = true).
Lemma insert_ascending x l : ascending l → ascending (insert_by x l).
Proof.
  induction 1 as [|y l Hl IH Hy]; cbn; [by repeat constructor|]. destruct (le x y) eqn:E; constructor; [by constructor| |done|].
  - constructor; [done|]. rewrite Forall_forall in *. intros z Hz. eapply le_trans; [done|by apply Hy].
  - rewrite Forall_forall in *. intros z. rewrite insert_permutation. intros [->|Hz]%elem_of_cons; [destruct (le_total x y); congruence|by apply Hy].
Qed.
Lemma sort_ascending l : ascending (sort_by l).
Proof. induction l as [|x l IH]; cbn; [constructor|by apply insert_ascending]. Qed.

Context (P : Z → Prop) `{!∀ x, Decision (P x)}.
Lemma filter_insert x l : ascending l → base.filter P (insert_by x l) = if decide (P x) then insert_by x (base.filter P l) else base.filter P l.
Proof.
  induction 1 as [|y l Hl IH Hy]; [cbn [insert_by]; rewrite filter_cons; by destruct (decide (P x))|]. cbn [insert_by]. destruct (le x y) eqn:E.
  - rewrite (filter_cons P x). destruct (decide (P x)); [|done]. destruct (base.filter P (y :: l)) as [|z l'] eqn:Ef; [done|]. cbn.
    assert (z ∈ y :: l) as Hz. { assert (z ∈ base.filter P (y :: l)) as [_ ?]%list_elem_of_filter by (rewrite Ef; left). done. }
    assert (le x z = true) as ->; [|done]. apply elem_of_cons in Hz as [->|Hz]; [done|]. rewrite Forall_forall in Hy. eapply le_trans; [done|by apply Hy].
  - rewrite !(filter_cons P y), IH. destruct (decide (P x)), (decide (P y)); try done. cbn. by rewrite E.
Qed.
Lemma sort_filter l : sort_by (base.filter P l) = base.filter P (sort_by l).
Proof.
  induction l as [|x l IH]; [done|]. cbn [sort_by foldr]. fold (sort_by l). rewrite filter_insert by apply sort_ascending. rewrite filter_cons. destruct (decide (P x)); [|done].
  cbn. by rewrite <- IH.
Qed.
End stable.

(** ** Instances: a table of two columns *)
Module Columns_.
Definition contents : Type := list (Z * Z).
Definition rows_of (d : contents) : Z := Z.min (Z.of_nat (length d)) npos.
Definition value (d : contents) (i : Z) : Z * Z := default (0, 0) (d !! Z.to_nat i).
Definition stored (d : contents) (i : Z) : bool := (0 <=? i) && (i <? rows_of d).

Record qry := Qry { q_table : option unit; q_links : option (list Z); q_test : Z * Z → bool }.
Definition candidates (q : qry) d : list Z := match q_links q with Some l => base.filter (λ i, stored d i = true) l | None => seqZ 0 (rows_of d) end.
Definition passes (q : qry) d (i : Z) : bool := q_test q (value d i).
Definition found (q : qry) d : list Z := match q_table q with Some _ => base.filter (λ i, passes q d i = true) (candidates q d) | None => [] end.

(** The descriptors look at the first column. *)
Inductive desc := Sort (up : bool) | Distinct | Limit (n : Z).
Definition le_in (d : contents) (up : bool) (i j : Z) : bool := if up then (value d i).1 <=? (value d j).1 else (value d j).1 <=? (value d i).1.
Fixpoint unique (d : contents) (seen : list Z) (l : list Z) : list Z :=
  match l with [] => [] | i :: l => if decide ((value d i).1 ∈ seen) then unique d seen l else i :: unique d ((value d i).1 :: seen) l end.
Definition apply_desc (d : contents) (l : list Z) (x : desc) : list Z :=
  match x with Sort up => sort_by (le_in d up) l | Distinct => unique d [] l | Limit n => take (Z.to_nat n) l end.
Definition arranged (o : list desc) d (l : list Z) : list Z := fold_left (apply_desc d) o l.
Definition is_sort (x : desc) : bool := match x with Sort _ => true | _ => false end.
Definition is_distinct (x : desc) : bool := match x with Distinct => true | _ => false end.
Definition is_limit (x : desc) : bool := match x with Limit _ => true | _ => false end.

Record vw := Vw { v_query : qry; v_order : list desc; v_rows : list Z }.
Definition run (q : qry) (o : list desc) d : vw := Vw q o (arranged o d (found q d)).

#[export] Instance columns : Queries contents := {|
  table := unit; query := qry; ordering := list desc; view := vw; link_view := list Z; sort_descriptor := bool; distinct_descriptor := unit; core_type := bool;
  is_attached _ _ := true; table_size _ d := rows_of d; column_count _ _ := 2; column_type _ c _ := if c <? 2 then Some true else None; numeric b := b;
  where_table t := Qry (Some t) None (λ _, true); where_links t l := Qry (Some t) (Some l) (λ _, true); where_view t _ := Qry (Some t) (Some []) (λ _, true);
  no_query := Qry None None (λ _, true); query_table := q_table; and_query q1 q2 := Qry (q_table q1) (q_links q1) (λ v, q_test q1 v && q_test q2 v);
  sync_view q _ := q; find_all := run; count q o d := Z.of_nat (length (arranged o d (found q d))); find q d := match found q d with i :: _ => i | [] => npos end;
  no_view := Vw (Qry None None (λ _, true)) [] []; view_query := v_query; view_sync v d := run (v_query v) (v_order v) d; in_sync _ _ := true; view_attached _ _ := true;
  view_rows v d := (λ i, if stored d i then Some i else None) <$> v_rows v; link_rows l d := base.filter (λ i, stored d i = true) l;
  no_ordering := []; is_empty o := match o with [] => true | _ => false end; will_apply_sort := existsb is_sort; will_apply_distinct := existsb is_distinct; will_apply_limit := existsb is_limit;
  append_sort s o := o ++ [Sort s]; append_distinct _ o := o ++ [Distinct]; append_limit n o := o ++ [Limit n];
  clear_table _ _ := []; clear_view v d := imap (λ i x, (Z.of_nat i, x)) d ≫= (λ x, if decide (x.1 ∈ v_rows v) then [] else [x.2]);
  remove_all_target_rows l d := imap (λ i x, (Z.of_nat i, x)) d ≫= (λ x, if decide (x.1 ∈ l) then [] else [x.2])
|}.

#[export] Instance columns_meaning : Meaning contents := {|
  matches := found; satisfies := passes; arrange := arranged; view_now v d := arranged (v_order v) d (found (v_query v) d); synced _ _ := True
|}.

Lemma arranged_cons x o d l : arranged (x :: o) d l = arranged o d (apply_desc d l x).
Proof. done. Qed.
Lemma arranged_member o d l i : i ∈ arranged o d l → i ∈ l.
Proof.
  revert l. induction o as [|x o IH]; intros l; [done|]. cbn. intros Hi%IH. destruct x as [up| |n]; cbn in Hi.
  - by rewrite sort_permutation in Hi.
  - revert Hi. generalize (@nil Z). induction l as [|j l IHl]; intros seen; [done|]. cbn. destruct (decide _); [intros ?%IHl; by right|]. intros [->|?%IHl]%elem_of_cons; [left|by right].
  - by eapply elem_of_take in Hi as (? & ? & _); eapply list_elem_of_lookup_2.
Qed.

Lemma filter_everything {A} (P : A → Prop) `{!∀ x, Decision (P x)} (l : list A) : (∀ x, x ∈ l → P x) → base.filter P l = l.
Proof. intros Hl. induction l as [|x l IH]; [done|]. rewrite filter_cons_True by (apply Hl; left). f_equal. apply IH. intros y Hy. apply Hl. by right. Qed.
Lemma filter_and {A} (f g h : A → bool) (l : list A) : (∀ x, h x = f x && g x) → base.filter (λ x, h x = true) l = base.filter (λ x, g x = true) (base.filter (λ x, f x = true) l).
Proof.
  intros Hh. induction l as [|x l IH]; [done|]. rewrite !filter_cons. rewrite Hh. destruct (f x); cbn [andb]; [|by rewrite !decide_False by done].
  rewrite (decide_True (P := true = true)) by done. rewrite filter_cons. by destruct (decide (g x = true)); rewrite IH.
Qed.

Lemma stored_range d i : stored d i = true ↔ 0 <= i < rows_of d.
Proof. unfold stored. rewrite andb_true_iff, Z.leb_le, Z.ltb_lt. done. Qed.
Lemma found_stored q d i : i ∈ found q d → stored d i = true.
Proof.
  unfold found, candidates. destruct (q_table q); [|by intros ?%elem_of_nil]. intros [_ Hi]%list_elem_of_filter. destruct (q_links q).
  - by apply list_elem_of_filter in Hi as [? _].
  - apply elem_of_seqZ in Hi. apply stored_range. lia.
Qed.
Lemma run_rows q o d : view_rows (run q o d) d = Some <$> arranged o d (found q d).
Proof. cbn. apply list_fmap_ext. intros _ i Hi%list_elem_of_lookup_2%arranged_member%found_stored. by rewrite Hi. Qed.
Lemma arranged_nil o d : arranged o d [] = [].
Proof. induction o as [|[up| |n] o IH]; [done|apply IH|apply IH|]. cbn. rewrite take_nil. apply IH. Qed.

Lemma le_in_trans d up x y z : le_in d up x y = true → le_in d up y z = true → le_in d up x z = true.
Proof. unfold le_in. destruct up; rewrite !Z.leb_le; lia. Qed.
Lemma le_in_total d up x y : le_in d up x y = true ∨ le_in d up y x = true.
Proof. unfold le_in. destruct up; rewrite !Z.leb_le; lia. Qed.

Lemma sorts_cons x (o : ordering) : only_sorts (x :: o) → is_sort x = true ∧ only_sorts o.
Proof. unfold only_sorts. cbn. destruct x; cbn; by intros [? ?]. Qed.
Lemma arranged_permutation o d l : only_sorts o → arranged o d l ≡ₚ l.
Proof. revert l. induction o as [|x o IH]; intros l Ho; [done|]. apply sorts_cons in Ho as [Hx Ho]. rewrite arranged_cons, IH by done. destruct x; try done. apply sort_permutation. Qed.
Lemma arranged_filter o d (q : query) l : only_sorts o → arranged o d (satisfying q d l) = satisfying q d (arranged o d l).
Proof.
  revert l. induction o as [|x o IH]; intros l Ho; [done|]. apply sorts_cons in Ho as [Hx Ho]. destruct x as [up| |]; try done. rewrite !arranged_cons, <- IH by done. f_equal.
  unfold satisfying, apply_desc. apply sort_filter; [apply le_in_trans|apply le_in_total].
Qed.

#[export] Instance columns_laws : QueryLaws contents.
Proof.
  split; try done.
  - intros t d. cbn. unfold found. cbn. apply filter_everything. by intros.
  - intros t l d. cbn. unfold found. cbn. apply filter_everything. by intros.
  - intros t v d Hq. cbn in *. unfold found. rewrite Hq. by rewrite arranged_nil.
  - intros q1 q2 d. cbn. unfold found, satisfying. cbn. destruct (q_table q1); [|done]. by apply filter_and.
  - intros q d i Hi%found_stored%stored_range. unfold rows_of in Hi. lia.
  - intros q o d _. apply run_rows.
  - intros v d. apply run_rows.
  - intros v d d'. cbn. by rewrite !length_fmap.
  - by intros [].
  - intros o d l Hn [H1 H2]. destruct o as [|[] o]; cbn in *; congruence.
  - intros s o [H1 H2]. split; cbn in *; rewrite existsb_app; cbn; rewrite ?H1, ?H2; done.
  - intros o d l. apply arranged_permutation.
  - intros o d q l. apply arranged_filter.
Qed.

Definition here : environment := Environment false true true.
Definition people : contents := [(3, 5); (1, 7); (3, 7); (2, 7)].
Definition sorted : results contents := of_query (where_table (tt : table)) [Sort true].
Definition second (t : table) (i : Z) (d : contents) : Z := (value d i).2.

Lemma sorted_formed : well_formed sorted.
Proof. apply of_query_formed. by eexists. Qed.
Example sorted_rows : rows sorted people = [1; 3; 0; 2].
Proof. by vm_compute. Qed.

Lemma reads_witness : ∃ r', get second 0 here people 2 sorted = (Ok 5, r') ∧ ready people sorted r'.
Proof.
  destruct (reads_correct second 0 here people sorted) as (_ & Hget & _).
  - apply sorted_formed.
  - done.
  - done.
  - intros t. by vm_compute.
  - by vm_compute.
  - destruct (Hget 2 ltac:(done)) as (r' & E & Hr). exists r'. split; [|done]. rewrite E. by f_equal.
Defined.


(** The first two rows are deleted later: the snapshot keeps its size. *)
Definition later : contents := [(3, 7); (2, 7)].
Lemma snapshot_witness : ∃ s, snapshot here people sorted = (Ok tt, s) ∧ size here later s = (Ok 4, s).
Proof.
  destruct (snapshot_frozen second 0 here people sorted) as (s & E & _ & Hs).
  - apply sorted_formed.
  - done.
  - done.
  - done.
  - exists s. split; [done|]. destruct (Hs here later) as [Hsize _]; [unfold is_valid; by destruct (m_table s)|]. rewrite Hsize. by f_equal.
Defined.

(** Where duplicates are removed, [index_of(Query)] looks at the first row that matches, although that row is not in the Results and a later row, which is,
    matches too. *)
Example match_missed : (index_of_query (Qry (Some tt) None (λ v, v.2 =? 7)) here [(1, 5); (1, 7); (2, 7)] (of_query (where_table (tt : table)) [Distinct])).1 = Ok npos
  ∧ rows (of_query (where_table (tt : table)) [Distinct]) [(1, 5); (1, 7); (2, 7)] = [0; 2].
Proof. by vm_compute. Qed.

(** The number of columns passes for the number of a column. *)
Example past_the_columns : (aggregate (A := unit) here people 2 (λ _ _, Ok tt) sorted).1 = Stuck.
Proof. by vm_compute. Qed.

(** With a limit, other rows follow those that were deleted. *)
Example rows_left : match clear false here people (of_query (where_table (tt : table)) [Limit 1]) with (Ok d, r) => (size here d r).1 = Ok 1 | _ => False end.
Proof. by vm_compute. Qed.
(** Clearing a snapshot does not change its size. *)
Example snapshot_left : match (snapshot here people ;; clear false here people) sorted with (Ok d, r) => (size here d r).1 = Ok 4 | _ => False end.
Proof. by vm_compute. Qed.
End Columns_.

(** ** Key paths *)
Module Keypath.
Import Class_.
Inductive keypath_error :=
  | MissingPropertyName
  | NoSuchProperty (class property : string)
  | UnsupportedType (class property : string)
  | CannotBeFinal (class property : string)
  | MustBeFinal (class property : string).

Definition is_sortable_type (t : PropertyType) : bool := negb (is_array t) && negb (type_eqb t PT_LinkingObjects) && negb (type_eqb t PT_Data).

(** Up to the first dot, and what follows it, if there is one *)
Fixpoint split_dot (l : list ascii) : list ascii * option (list ascii) :=
  match l with
  | [] => ([], None)
  | c :: l => if decide (c = "."%char) then ([], Some l) else let '(key, rest) := split_dot l in (c :: key, rest)
  end.

Fixpoint parse_from (fuel : nat) (schema : Schema) (object_schema : ObjectSchema) (l : list ascii) : result keypath_error (list Z) :=
  match fuel with
  | O => Stuck
  | S fuel =>
      let '(k, rest) := split_dot l in
      _ ← throw_if (bool_decide (k = []) || bool_decide (rest = Some [])) MissingPropertyName;
      let key := string_of_list_ascii k in let class := class_name object_schema in
      match property_for_name object_schema key with
      | None => Raise (NoSuchProperty class key)
      | Some prop =>
          _ ← throw_if (negb (is_sortable_type (type prop))) (UnsupportedType class key);
          if type_eqb (type prop) PT_Object then
            match rest with
            | None => Raise (CannotBeFinal class key)
            | Some l =>
                found ← lift (find_class schema (object_type prop));
                object_schema ← lift found;
                columns ← parse_from fuel schema object_schema l; Ok (table_column prop :: columns)
            end
          else match rest with None => Ok [table_column prop] | Some _ => Raise (MustBeFinal class key) end
      end
  end.
Definition parse_keypath (keypath : string) (schema : Schema) (object_schema : ObjectSchema) : result keypath_error (list Z) :=
  let l := list_ascii_of_string keypath in
  _ ← throw_if (bool_decide (l = [])) MissingPropertyName; parse_from (length l) schema object_schema l.

(** ** What a key path means *)
Inductive path (schema : Schema) : ObjectSchema → list string → list Z → Prop :=
  | path_value os name p : property_for_name os name = Some p → is_sortable_type (type p) = true → type_eqb (type p) PT_Object = false → path schema os [name] [table_column p]
  | path_link os name p os' names columns : property_for_name os name = Some p → is_sortable_type (type p) = true → type_eqb (type p) PT_Object = true →
      find_class schema (object_type p) = Some (Some os') → path schema os' names columns → path schema os (name :: names) (table_column p :: columns).

Definition name_ok (name : string) : Prop := name ≠ ""%string ∧ "."%char ∉ list_ascii_of_string name.
Fixpoint joined (names : list string) : list ascii :=
  match names with [] => [] | [n] => list_ascii_of_string n | n :: names => list_ascii_of_string n ++ "."%char :: joined names end.

Lemma split_key k l : "."%char ∉ k → split_dot (k ++ "."%char :: l) = (k, Some l).
Proof. induction k as [|c k IH]; intros Hk; [done|]. apply not_elem_of_cons in Hk as [? Hk]. cbn. rewrite decide_False by congruence. by rewrite IH. Qed.
Lemma split_last k : "."%char ∉ k → split_dot k = (k, None).
Proof. induction k as [|c k IH]; intros Hk; [done|]. apply not_elem_of_cons in Hk as [? Hk]. cbn. rewrite decide_False by congruence. by rewrite IH. Qed.
Lemma split_spec l k rest : split_dot l = (k, rest) → "."%char ∉ k ∧ l = k ++ match rest with Some l => "."%char :: l | None => [] end.
Proof.
  revert k rest. induction l as [|c l IH]; intros k rest; cbn; [intros [= <- <-]; by split; [apply not_elem_of_nil|]|].
  destruct (decide (c = "."%char)) as [->|Hc]; [intros [= <- <-]; by split; [apply not_elem_of_nil|]|].
  destruct (split_dot l) as [k' rest']. destruct (IH k' rest' eq_refl) as [? ->]. intros [= <- <-]. split; [|done]. apply not_elem_of_cons. by split.
Qed.

Lemma name_of k : k ≠ [] → "."%char ∉ k → name_ok (string_of_list_ascii k).
Proof. intros Hk Hd. split; [by destruct k|]. by rewrite list_ascii_of_string_of_list_ascii. Qed.
Lemma list_of_name name : name_ok name → list_ascii_of_string name ≠ [].
Proof. intros [Hn _]. by destruct name. Qed.
Lemma joined_cons name names : names ≠ [] → joined (name :: names) = list_ascii_of_string name ++ "."%char :: joined names.
Proof. by destruct names. Qed.
Lemma joined_not_nil names : names ≠ [] → Forall name_ok names → joined names ≠ [].
Proof. intros Hn Hall. destruct Hall as [|n names Hok Hall]; [done|]. apply list_of_name in Hok. cbn. destruct names; [done|]. by destruct (list_ascii_of_string n). Qed.
Lemma path_not_nil schema os names columns : path schema os names columns → names ≠ [].
Proof. by destruct 1. Qed.

Lemma parse_complete schema fuel os names columns : Forall name_ok names → (length (joined names) <= fuel)%nat → path schema os names columns → parse_from fuel schema os (joined names) = Ok columns.
Proof.
  intros Hall Hfuel Hp. revert fuel Hall Hfuel. induction Hp as [os name p Hn Hs Ht|os name p os' names columns Hn Hs Ht Hc Hp IH]; intros fuel [Hok Hall]%Forall_cons Hfuel.
  - pose proof (list_of_name _ Hok). destruct fuel as [|fuel]; [cbn in Hfuel; destruct (list_ascii_of_string name); cbn in Hfuel; [done|lia]|]. cbn [joined parse_from].
    rewrite split_last by apply Hok. rewrite bool_decide_eq_false_2 by done. cbn. rewrite string_of_list_ascii_of_string, Hn, Hs, Ht. done.
  - pose proof (path_not_nil _ _ _ _ Hp) as Hnames. rewrite joined_cons in * by done. pose proof (list_of_name _ Hok). pose proof (joined_not_nil _ Hnames Hall).
    rewrite length_app in Hfuel. cbn in Hfuel. destruct fuel as [|fuel]; [lia|]. cbn [parse_from].
    rewrite split_key by apply Hok. rewrite !bool_decide_eq_false_2 by congruence. cbn. rewrite string_of_list_ascii_of_string, Hn, Hs, Ht. cbn. rewrite Hc. cbn.
    rewrite IH by (done || lia). done.
Qed.

Lemma parse_sound schema fuel os l columns : parse_from fuel schema os l = Ok columns → ∃ names, Forall name_ok names ∧ l = joined names ∧ path schema os names columns.
Proof.
  revert os l columns. induction fuel as [|fuel IH]; intros os l columns; [done|]. cbn [parse_from]. destruct (split_dot l) as [k rest] eqn:El. apply split_spec in El as [Hd ->].
  destruct (decide (k = [])) as [?|Hk]; [by rewrite bool_decide_eq_true_2|]. rewrite (bool_decide_eq_false_2 (k = [])) by done. cbn [orb].
  destruct (bool_decide_reflect (rest = Some [])) as [?|Hr]; [done|]. cbn. pose proof (name_of k Hk Hd) as Hok. destruct (property_for_name os (string_of_list_ascii k)) as [p|] eqn:Ep; [|done].
  destruct (is_sortable_type (type p)) eqn:Es; [|done]. cbn. destruct (type_eqb (type p) PT_Object) eqn:Et.
  - destruct rest as [l|]; [|done]. destruct (find_class schema (object_type p)) as [[os'|]|] eqn:Ec; [|done..]. cbn. destruct (parse_from fuel schema os' l) as [columns'| |] eqn:E; [|done..].
    intros [= <-]. destruct (IH _ _ _ E) as (names & Hall & -> & Hp). exists (string_of_list_ascii k :: names). pose proof (path_not_nil _ _ _ _ Hp). rewrite joined_cons by done.
    rewrite list_ascii_of_string_of_list_ascii. split_and!; [by constructor|done|by econstructor].
  - destruct rest as [l|]; [done|]. intros [= <-]. exists [string_of_list_ascii k]. cbn. rewrite list_ascii_of_string_of_list_ascii, app_nil_r. split_and!; [by apply Forall_singleton|done|by constructor].
Qed.

(** C9: a key path is accepted exactly when it is the names of properties with dots between them, each but the last a link to the class of the next, the
    last a value that can be sorted; then its columns are those of the properties. *)
Theorem parse_keypath_correct schema os keypath columns :
  parse_keypath keypath schema os = Ok columns ↔ ∃ names, Forall name_ok names ∧ list_ascii_of_string keypath = joined names ∧ path schema os names columns.
Proof.
  unfold parse_keypath. split.
  - destruct (bool_decide_reflect (list_ascii_of_string keypath = [])); [done|]. cbn. apply parse_sound.
  - intros (names & Hall & -> & Hp). rewrite bool_decide_eq_false_2 by (apply joined_not_nil; [by eapply path_not_nil|done]). cbn. by apply parse_complete.
Qed.
End Keypath.
